(* ===== verification/_CoqProject ===== *)
-Q . S2P
Prelude.v
MatchRange.v
MatchPattern.v
MatchFactory.v
MatchUsefulness.v
MatchSemantics.v
MatchTheory.v
MatchSignature.v
MatchCorrect.v
MatchMain.v
LexToken.v
LexSpan.v
Lexer.v
LexGrammar.v
LexLiterals.v
LexNumbers.v
LexStep.v
LexMain.v
LexRoundtrip.v
IrDominator.v
IrDomTree.v
IrDomPass.v
IrDomMain.v
IrDomFronts.v
IrTypes.v
IrTypeTheory.v
IrLayout.v
AsmRegister.v
AsmVirtualOp.v
AsmOp.v
AsmVm.v
AsmLiveness.v
AsmData.v
IrConstant.v
IrStorage.v
IrImage.v
IrParts.v
IrUnique.v
IrStorageMain.v
IrCore.v
IrFold.v
IrRun.v
IrTransform.v
IrMachine.v
IrFoldTheory.v
IrFoldSteps.v
IrFoldMain.v
IrFoldTheorem.v
IrVerify.v
IrVerifyTheory.v
IrSimplify.v
IrCfg.v
IrUnlink.v
IrMerge.v
IrMergeLoop.v
IrSimplifyTheorem.v
IrCcp.v
IrCcpTheory.v
IrGlobals.v
AsmLabels.v
AsmLabelTheory.v
AsmLabelJumps.v
AsmSaved.v
AsmBytecode.v
AsmLayout.v
AsmAbstract.v
AsmIndexing.v
AsmOptimize.v
AsmDce.v
AsmGraph.v
AsmInterference.v
AsmCoalesce.v
AsmColoring.v
AsmColorTheory.v
AsmAssign.v
AsmSpill.v
AsmSpillTheory.v
AsmAlloc.v
AsmProgram.v
AsmPrologue.v
