(* ===== verification/Prelude.v ===== *)
(** * Verification of the Sway compiler

    This development models parts of the compiler for the Sway language
    (repository [sway], Rust) and proves them correct: the lexer, the analysis of match
    expressions, the dominators, types, constants and verifier of the IR, four of its
    passes (constant folding, conditional constant propagation, the simplification of
    control flow and the removal of dead functions), the initial values of storage, and the optimization, register allocation, label
    resolution and encoding of programs in the Fuel back end.  Rust functions are
    Rocq functions of the same name.  A function that returns [Result] or can panic returns the type [Result] of this file; a
    method [f] of a type [T] is [T_f] where [f] alone would be ambiguous.
    [Display] instances are left out, and source spans outside of the lexer.

    ** The program and its parts

    [sway-parse] turns text into the syntax tree of [sway-ast]; the semantic
    analysis of [sway-core] types it; [sway-core/src/ir_generation] lowers it to
    the IR of [sway-ir], which is optimized there;
    [sway-core/src/asm_generation] selects instructions over virtual registers,
    optimizes them, allocates registers and resolves labels.  Six subsystems are
    modelled, from the functions that their callers use down to the data they
    keep.

    *** The lexer ([sway-parse/src/token.rs])

    [lex_commented] reads a text character by character and returns token trees:
    tokens, comments, and groups of trees between delimiters.  Errors are pushed on a
    handler, and the lexer goes on where it can; [lex] removes the comments.

    - [LexToken]: UTF-8 strings and [sway-types/src/span.rs], and of [ident.rs] what the
      lexer uses; a text is a list of characters, positions are in bytes;
      [sway-types/src/ast.rs], [sway-ast/src/token.rs], the literals of
      [literal.rs], and [sway-error/src/lex_error.rs].
    - [LexSpan]: slices and boundaries; theorems on [join_all] and [line_col].
    - [Lexer]: [token.rs], in a state monad over the errors and the characters left.
    - [LexGrammar]: the specification: the text of every token and the trees that a
      text spells; weakest preconditions for the monad, with a parameter that allows
      panics, so that one proof shows what holds of every run that returns, and on
      which texts none panics.
    - [LexLiterals], [LexNumbers], [LexStep]: what each
      function reads and returns, up to a round of the main loop.
    - [LexMain], [LexRoundtrip]: the theorems on [lex_commented] and [lex], and texts
      on which it panics or answers wrongly.

    *** The match analysis
    ([semantic_analysis/ast_node/expression/match_expression/analysis])

    The type checker calls [check_match_expression_usefulness] with the type of
    the matched value and the typed patterns of the arms.  The function decides,
    by Maranget's algorithm on a matrix of patterns, which arms are reachable and
    which values no arm matches.

    - [MatchRange]: [range.rs], closed ranges of [u8] to [u64] with the overflow
      of their arithmetic.
    - [MatchPattern]: [pattern.rs], [patstack.rs], [matrix.rs] and
      [witness_report.rs].
    - [MatchFactory]: [constructor_factory.rs], and what it asks of the type and
      declaration engines ([type_system/id.rs], [type_system/info.rs]); an engine
      is a finite map from ids to types or declarations.
    - [MatchUsefulness]: [usefulness.rs].
    - [MatchSemantics]: the specification: values, when a pattern matches a value,
      which values and patterns have a type.
    - [MatchTheory]: the matrix operations with respect to this semantics.
    - [MatchSignature]: the class [SignatureOracle], what the algorithm relies on
      in its constructor factory, and the proof that the factory provides it.
    - [MatchCorrect]: soundness and progress of [is_useful], proved against
      [SignatureOracle].
    - [MatchMain]: the theorems on [check_match_expression_usefulness], and
      inputs outside of their hypotheses on which the answer is wrong.

    *** The dominators of the IR ([sway-ir/src/analysis/dominator.rs])

    The passes of [sway-ir] ask for the post-order of the blocks of a function, for its
    dominator tree, computed by the algorithm of Cooper, Harvey and Kennedy, and for the
    dominance frontiers.

    - [IrDominator]: the three analyses and the queries of the tree.
    - [IrDomTree]: paths and well-formed graphs; the depth-first search; the ancestors of a
      block in a partial tree; [intersect].
    - [IrDomPass]: a round and a pass over the blocks.
    - [IrDomMain], [IrDomFronts]: the fixed point, the tree that is returned, and the
      theorems.

    *** Types, constants and storage
    ([sway-ir/src/irtype.rs], [constant.rs] and [sway-core/src/ir_generation/storage.rs])

    Types of the IR are keys of a slot map, unique for their content; sizes and offsets
    follow from the content.  A constant carries its type; it is written to the data
    section of the program, or to storage slots when it initializes a storage field.

    - [IrTypes]: [irtype.rs], with the overflow of [u64].
    - [IrTypeTheory]: well-formed contexts, sizes, unique types and the
      equivalence of types.
    - [IrLayout]: the offsets of elements.
    - [IrConstant]: [sway-types/src/u256.rs], [constant.rs], and [Entry::from_constant] of [data_section.rs].
    - [IrStorage]: [storage.rs], and the texts of the keys.
    - [IrImage], [IrParts]: the bytes of a constant as a specification, which
      the entries of the data section implement, and where its parts lie.
    - [IrUnique]: [Constant::unique], and scalar constants, which have one key.
    - [IrStorageMain]: the slots hold the same bytes.

    *** Functions of the IR, four passes and the verifier
    ([sway-ir/src/instruction.rs], [value.rs], [block.rs], [function.rs],
    [optimize/constants.rs], [optimize/conditional_constprop.rs], [optimize/simplify_cfg.rs],
    [optimize/dce.rs] and [verify.rs])

    A function is a list of blocks of instructions; blocks have arguments, which branches
    pass.  [fold_constants] looks for an instruction that it can simplify, rewrites it and
    starts over.  [simplify_cfg] removes the blocks that are not reachable, appends blocks
    with one predecessor to it, and lets branches to empty blocks go to their targets.  [ccp] walks the dominator tree and
    replaces a value by a constant where a branch has found them equal.  [globals_dce] removes
    the functions that no entry point calls and the globals that they use.  The verifier checks the types of operands, the parents, terminators
    and branches of the functions that the other passes are given.

    - [IrCore]: instructions, values, blocks and functions, with their operations.
    - [IrFold]: [constants.rs].
    - [IrRun]: the specification: what a function does on a machine, and the scopes of
      values.
    - [IrTransform]: rewritings that remove instructions, replace operands and
      resolve branches refine a function, proved once for all passes.
    - [IrMachine]: the arithmetic that folding relies on, and an instance.
    - [IrFoldTheory]: the invariant of the pass.
    - [IrFoldSteps], [IrFoldMain], [IrFoldTheorem]: the rewritings, the folded values, the
      searches and the loop, an example, and the theorems.
    - [IrVerify]: [verify.rs], with the types of values.
    - [IrVerifyTheory]: what the verifier guarantees, and functions that it accepts
      although the passes do not expect them.
    - [IrSimplify]: [simplify_cfg.rs].
    - [IrCfg]: well-formed control flow ([well_formed]), and the removal of dead blocks.
    - [IrUnlink]: branches that skip empty blocks.
    - [IrMerge]: chains of blocks and the functions that merge them, described without the
      loops ([merged]); such a function refines the given one.
    - [IrMergeLoop]: the loops find and merge chains.
    - [IrSimplifyTheorem]: the replacement of arguments, the whole pass and an example.
    - [IrCcp]: [conditional_constprop.rs].
    - [IrCcpTheory]: the regions, the walk, and the link to the analysis of [IrDominator],
      by the record [dominator_tree] that it provides and the pass relies on.
    - [IrGlobals]: [globals_dce] of [dce.rs], the functions that are called, and the
      theorem.

    *** The passes on instructions
    ([asm_generation/fuel] and [asm_lang])

    [AbstractInstructionSet::optimize] shortens a function, [allocate_registers]
    gives its virtual registers machine registers, [emit_pusha_popa] saves the
    registers that a function changes, and [realize_labels] replaces labels by
    offsets and inserts the distances of far jumps in the data section.
    [into_allocated_program] and [into_final_program] run these passes on all
    functions of a program and put a prologue before them; [to_bytecode_mut] emits
    the bytes of the code and of the data section.
    [allocate_registers] takes a function as a list of
    instructions over virtual registers.  A round computes the live registers
    after every instruction, builds the interference graph, merges the registers
    of MOVE instructions and colors the graph.  When registers have to be
    spilled, the program is rewritten and the next of at most five rounds
    begins; otherwise the stack of the coloring gives every register one of 37
    machine registers.

    - [AsmRegister]: [virtual_register.rs], [virtual_immediate.rs],
      [compiler_constants.rs], registers and the register pool.
    - [AsmVirtualOp], [AsmOp]: [virtual_ops.rs], [allocated_ops.rs] and the
      instructions of [asm_lang/mod.rs]: registers read and written, renaming,
      successors, allocation, for every opcode.
    - [AsmVm]: the Fuel VM as classes with laws, and an instance.
    - [AsmLiveness]: [analyses.rs].
    - [AsmData]: [data_section.rs] and the paddings of [sway-ir/src/irtype.rs]; a data
      section that grows keeps its entries.
    - [AsmAbstract]: [abstract_instruction_set.rs], the passes before allocation.
    - [AsmIndexing], [AsmOptimize], [AsmDce]: [optimizations.rs], and [optimize];
      the removal of dead code simulates the given program on the Fuel VM.
    - [AsmLabels], [AsmLabelTheory], [AsmLabelJumps], [AsmSaved]:
      [allocated_abstract_instruction_set.rs]; the offsets of labels and the
      targets of near and far jumps; the masks of saved registers.
    - [AsmBytecode], [AsmLayout]: [allocated_ops.rs] and
      [finalized_asm.rs], the encoding of the instructions and the data section; the
      layout of the bytecode when the data section grows while it is emitted.
    - [AsmGraph]: the interface of the graph library [petgraph] as a class with
      its laws, and an implementation.
    - [AsmInterference], [AsmCoalesce]: [create_interference_graph] and
      [coalesce_registers] of [register_allocator.rs] and their correctness.
    - [AsmColoring], [AsmColorTheory], [AsmAssign]: [color_interference_graph] and
      [assign_registers] and their correctness.
    - [AsmSpill], [AsmSpillTheory]: [spill]; the shape
      of a program that the rounds keep; the stack slots; the execution of the
      inserted instructions on the Fuel VM, an interface with laws.
    - [AsmAlloc]: [allocate_registers], which composes all of this.
    - [AsmProgram], [AsmPrologue]: [register_sequencer.rs], [globals_section.rs],
      [programs/abstract.rs], [programs/allocated.rs], [programs/final.rs], [checks.rs]
      and [set_bytecode_configurables_offset] of [lib.rs]; the prelude that every
      program starts with and the positions of its entry points.

    ** What the theorems show

    - Lexer: without errors the text spells the token trees; their spans are ordered and
      nested in any case; the lexer returns on every text, and panics at most on texts
      outside of ASCII or with escapes in character literals; integers and strings without
      characters of text direction are read back.  Joined spans are least, and lines and
      columns order positions.
    - Match analysis: on matches without or-patterns, in which enums nested in the matched
      type have distinct names, struct patterns list all fields in the order of the
      declaration and literals have exactly the matched type, the analysis returns; a match
      reported exhaustive is exhaustive; an arm reported unreachable is covered by earlier
      arms.  The integer ranges are condensed, complemented and compared
      without overflow and without losing points, when no range is nested in
      another; or-patterns are expanded to exactly their choices.
    - Dominators: on every well-formed control-flow graph the search and the passes end;
      the parent of a block is its immediate dominator, and the frontiers are those of
      the definition by paths.
    - Types and constants: every type is unique for its structure; sizes are computed or
      overflow; elements lie inside of their types and do not overlap; the entry of a
      constant in the data section has the entries of its parts at the offsets that
      loads use, and the storage slots of an initial value hold the same bytes; comparable
      constants have one key; the operations on 256-bit integers are exact; the
      texts of storage keys determine the fields.
    - Constant folding: on every function whose values are in scope and whose operands have
      the types of the instructions, the pass ends, and the result returns or stops as the
      function does, with the same effects, or runs forever as it does; nothing that could
      be folded is left.  [not] is covered for 64 and 256 bits only, since the folded
      complement of narrower integers is not the one of the machine, and orderings for
      integers only.
    - Control flow: on every well-formed function [simplify_cfg] ends, whatever the order in
      which predecessors are visited; the result is well formed, has reachable blocks only,
      and returns, stops or runs forever as the function does.
    - Conditional constants: the dominator tree of a well-formed function is computed, and
      the pass on it keeps the function well formed and what it does.
    - Dead functions: exactly the functions that an entry point, a fallback function or a
      decoder of configurables calls, directly or not, and their globals are kept.
    - Verifier: it ends; accepted functions have single terminators at the ends of their
      blocks and branches that fit the arguments of their targets; element pointers
      stay inside of their base; constant folding returns on accepted functions that also
      keep what is not checked, listed in [unchecked].
    - Register allocation: liveness is exact; the interference graph is exact;
      coalescing keeps interferences; coloring without spills makes the
      assignment succeed and proper; spilled registers have disjoint slots, which
      the inserted instructions read and write; the allocator returns on every
      closed program, and its result respects liveness.
    - Instructions: the tables of read and written registers agree with the table
      of all registers, with renaming and with allocation; machine registers are
      disjoint from the reserved ones; the cleaning passes keep the control flow
      and remove only dead moves.
    - Optimizations: folding constant offsets into loads and stores, within the
      stated limits, does not change what a block computes; the program without
      dead code simulates the given one, when that reads neither gas nor the program
      counter; exactly the reachable instructions are
      kept, unless an assertion fails.
    - Data section: the bytes of an entry are at its offset; inserted values can
      be read back.
    - Labels: every jump of the emitted code goes to the position of its label, when the
      inserted distances do not move a configurable over the limit of an immediate;
      functions save exactly the registers that they change.
    - Bytecode: every instruction is at the sum of the sizes before it, loads and
      pointers reach their data and configurables are at the reported offsets, and the
      encoding returns or fails with one of the listed errors, under the same condition and
      when loads through pointers are of non-configurable data.
    - Programs: the bytecode starts with the prelude that holds the position of the
      data section, in which only the offset of the configurables is replaced later;
      the entry points are at the positions of their labels.

    ** Fuel and bounds

    Loops that are not structural run on fuel, and the theorems show that the
    fuel given by the model is enough: [usefulness_fuel] grows with the depth and
    the arity of the patterns, [serialize_multi_patterns] counts the choices,
    [liveness_fuel] is the number of table entries that can still be set,
    [color_fuel] counts nodes and edges, [resolve_reg] the entries of the map,
    [AsmOptimize.simplify_cfg] the instructions.  [resolve_labels] keeps the bound of the code,
    ten rounds after the first.
    A change of the dominator tree moves a parent later in the post-order, so
    [dom_tree_fuel] is quadratic in the number of blocks; climbing the tree takes at most
    as many steps as there are blocks.
    The recursion through the keys of types has the number of types as fuel: a type
    refers to older types only.  Constants are read to their depth.
    A round of constant folding removes an instruction or turns a conditional branch into a
    branch, so [fold_fuel] is twice the number of instructions, and one more.
    A block is put on the worklist of [mark_loop] once; a chain of blocks does not come back,
    since paths to its blocks get longer, so the number of blocks is enough for [block_chain];
    the arguments of merged blocks are replaced by values of earlier blocks, so following the
    replacement map visits a key once.
    The walk of [ccp] pushes every block of the tree once and pops it once.
    The search of [globals_dce] expands a function once.
    The type of a value is found through its operands, which do not depend on it, so
    [get_type] has the number of values as fuel, and [verify_metadata] that of metadata.
    The loops of the lexer have one more unit than there are characters left.
    [realize_load] recurs once, from the data to its pointer, which is a word.
    [extract_any] keeps its own bound of 128 levels.  Integers are [Z] with the
    checks of their width: [u8] to [u64] in [MatchRange], [u32] in [AsmSpill].

    ** Parameters

    The tables of the crates [unicode_xid] (class [UnicodeTables]) and [unicode_bidi],
    the byte count of [bytecount], the graph library (class [StableGraphLaws]), the iteration order of hash sets
    (class [HashOrder]), the ids of the VM registers (class [VmRegisters]), the
    bytes of a VM instruction ([instruction_to_bytes], four bytes each) and the Fuel
    VM (classes [FuelVmLaws], [FuelVmFrame] and [FuelVmWorldLaws]; [IrVm], [IrVmLaws] and
    [IrVmEq] for the instructions of the IR), the keys of slot maps
    (class [SlotMap]), the hash of constants, and SHA-256 and the addition of the crate
    [uint] (class [StorageCrates]) are not part of the
    repository; theorems about code that uses them hold for every
    instance of the class, and a concrete instance is given for each.

    ** Not modelled, and the plan

    Of the back end: instruction selection, the source map and the EVM back end.  Next are
    the other passes of [sway-ir], a simulation of the allocated program by the virtual one,
    or-patterns in the match analysis, and the state of the parser.  Type checking, the language server, the formatter and the [forc] tools
    are left out.

    This file holds the error type, the loops over [Result], the order of hash sets, the
    development's tactics and the lemmas on lists that the components share. *)

From stdpp Require Export base tactics decidable list strings gmap numbers sorting.
From Stdlib Require Export ZArith Lia.

#[export] Set Default Goal Selector "!".
#[export] Set Warnings "-clear-no-such-hyp,-register-all".

(** ** Errors

    Fallible functions of the compiler return [Result<T, ErrorEmitted>]; the
    error itself is pushed on the [Handler] by [emit_err] just before the
    function returns.  The model keeps the emitted error in the [Err] branch.
    [Panic] stands for a Rust panic ([expect], [unreachable!], arithmetic
    overflow, an index out of bounds); [OutOfFuel] is not a behaviour of the
    program: it marks a fuelled recursion that was given too little fuel. *)
Inductive CompileError : Type :=
  | Internal (msg : string)
  | NotAnEnum
  | Recovered
  | Panic (msg : string)
  | OutOfFuel.

#[export] Instance CompileError_eq_dec : EqDecision CompileError.
Proof. solve_decision. Defined.

Inductive Result (A : Type) : Type :=
  | Ok (a : A)
  | Err (e : CompileError).
Arguments Ok {A} a.
Arguments Err {A} e.

#[export] Instance Result_ret : MRet Result := fun A a => Ok a.
#[export] Instance Result_bind : MBind Result :=
  fun A B f m => match m with Ok a => f a | Err e => Err e end.
#[export] Instance Result_fmap : FMap Result :=
  fun A B f m => match m with Ok a => Ok (f a) | Err e => Err e end.

Definition is_Ok {A} (r : Result A) : Prop := exists a, r = Ok a.

(** A [Vec] collected from an iterator of results, stopping at the first error. *)
Fixpoint traverse {A B} (f : A -> Result B) (l : list A) : Result (list B) :=
  match l with
  | [] => Ok []
  | x :: l' => y ← f x; ys ← traverse f l'; Ok (y :: ys)
  end.

(** A [for] loop that appends the rows produced by each element. *)
Fixpoint concat_traverse {A B} (f : A -> Result (list B)) (l : list A) : Result (list B) :=
  match l with
  | [] => Ok []
  | x :: l' => ys ← f x; zs ← concat_traverse f l'; Ok (ys ++ zs)
  end.

(** ** Automation *)

(** Facts that close side conditions: reflexivity of the development's preorders
    and invariants of the initial states. *)
Create HintDb sway discriminated.

(** Reduces the bind of a step that returned. *)
Ltac next_step := cbn [mbind Result_bind].
Tactic Notation "next_step" "in" hyp(H) := cbn [mbind Result_bind] in H.
Tactic Notation "next_step" "in" "*" := cbn [mbind Result_bind] in *.

(** Inverts a successful monadic computation into its successful steps. *)
Lemma bind_Ok {A B} (m : Result A) (f : A -> Result B) (b : B) :
  (m ≫= f) = Ok b <-> exists a, m = Ok a /\ f a = Ok b.
Proof.
  destruct m as [x|e]; cbn.
  - split; [eauto | by intros (? & [= <-] & ?)].
  - split; [done | by intros (? & ? & _)].
Qed.

Ltac inv_ok :=
  repeat match goal with
  | H : (_ ≫= _) = Ok _ |- _ =>
      let a := fresh "r" in let Ha := fresh "Hok" in
      apply bind_Ok in H as (a & Ha & H)
  | H : Ok _ = Ok _ |- _ => apply (f_equal (fun r => match r with Ok a => Some a | Err _ => None end)) in H; cbn in H; simplify_eq
  | H : Err _ = Ok _ |- _ => discriminate H
  | H : Ok _ = Err _ |- _ => discriminate H
  end.

(** Case analysis on every boolean test of a hypothesis or goal. *)
Ltac case_tests :=
  repeat match goal with
  | |- context [if ?b then _ else _] => destruct b eqn:?
  | H : context [if ?b then _ else _] |- _ => destruct b eqn:?
  end.

Lemma traverse_Ok {A B} (f : A -> Result B) l ys :
  traverse f l = Ok ys <-> Forall2 (fun x y => f x = Ok y) l ys.
Proof.
  revert ys. induction l as [|x l IH]; intros ys; cbn.
  - split; [intros [= <-]; constructor | by inversion 1].
  - split.
    + intros H. inv_ok. constructor; [done | by apply IH].
    + inversion 1 as [|? y ? ys' Hx Hl]; subst. rewrite Hx. cbn.
      apply IH in Hl. by rewrite Hl.
Qed.

Lemma concat_traverse_Ok {A B} (f : A -> Result (list B)) l zs :
  concat_traverse f l = Ok zs <-> exists yss, traverse f l = Ok yss /\ zs = concat yss.
Proof.
  revert zs. induction l as [|x l IH]; intros zs; cbn.
  - split; [intros [= <-]; by exists [] | by intros (? & [= <-] & ->)].
  - split.
    + intros H. inv_ok. apply IH in Hok0 as (yss & Hyss & ->).
      exists (r :: yss). rewrite Hok. cbn. by rewrite Hyss.
    + intros (yss & H & ->). inv_ok. rewrite Hok. cbn.
      assert (concat_traverse f l = Ok (concat r0)) as ->; [by apply IH; eauto | done].
Qed.

(** The loop succeeds when every step does. *)
Lemma concat_traverse_is_Ok {A B} (f : A -> Result (list B)) l :
  (forall x, x ∈ l -> is_Ok (f x)) -> is_Ok (concat_traverse f l).
Proof.
  induction l as [|x l IH]; intros Hf; cbn; [by eexists|].
  destruct (Hf x) as [y ->]; [left|]. cbn.
  destruct IH as [ys ->]; [intros; apply Hf; by right|]. by eexists.
Qed.

Lemma traverse_is_Ok {A B} (f : A -> Result B) l :
  (forall x, x ∈ l -> is_Ok (f x)) -> is_Ok (traverse f l).
Proof.
  induction l as [|x l IH]; intros Hf; cbn; [by eexists|].
  destruct (Hf x) as [y ->]; [left|]. cbn.
  destruct IH as [ys ->]; [intros; apply Hf; by right|]. by eexists.
Qed.

(** Membership in the rows collected by [concat_traverse]. *)
Lemma concat_traverse_elem {A B} (f : A -> Result (list B)) l zs z :
  concat_traverse f l = Ok zs ->
  z ∈ zs <-> exists x ys, x ∈ l /\ f x = Ok ys /\ z ∈ ys.
Proof.
  revert zs. induction l as [|x l IH]; intros zs; cbn.
  - intros [= <-]. split; [by intros ?%elem_of_nil | intros (? & ? & ?%elem_of_nil & _); done].
  - intros H. inv_ok. rewrite elem_of_app, (IH _ Hok0). split.
    + intros [Hz | (x' & ys & Hx' & Hf & Hz)].
      * exists x, r. split; [left | done].
      * exists x', ys. split; [by right | done].
    + intros (x' & ys & [-> | Hx']%elem_of_cons & Hf & Hz).
      * left. congruence.
      * right. eauto.
Qed.

(** The loop returns the rows of its steps, when every step succeeds. *)
Lemma concat_traverse_Forall2 {A B} (f : A -> Result (list B)) (P : A -> list B -> Prop) l :
  (forall x, x ∈ l -> exists ys, f x = Ok ys /\ P x ys) ->
  exists yss, concat_traverse f l = Ok (concat yss) /\ Forall2 P l yss.
Proof.
  induction l as [|x l IH]; intros Hf; cbn.
  - by exists [].
  - destruct (Hf x) as (ys & -> & HP); [left|]. next_step.
    destruct IH as (yss & -> & Hall); [intros; apply Hf; by right|]. exists (ys :: yss).
    split; [done|by constructor].
Qed.

(** Pointwise boolean equality of lists, for nested inductive types. *)
Fixpoint list_eqb {A} (f : A -> A -> bool) (l k : list A) : bool :=
  match l, k with
  | [], [] => true
  | x :: l', y :: k' => f x y && list_eqb f l' k'
  | _, _ => false
  end.

Lemma list_eqb_spec {A} (f : A -> A -> bool) l k :
  Forall (fun x => forall y, f x y = true <-> x = y) l -> list_eqb f l k = true <-> l = k.
Proof.
  intros Hl. revert k. induction Hl as [|x l Hx _ IH]; intros [|y k]; cbn; try naive_solver.
  rewrite andb_true_iff, Hx, IH. naive_solver.
Qed.

Lemma StronglySorted_weaken {A} (R S : A -> A -> Prop) l :
  (forall a b, a ∈ l -> b ∈ l -> R a b -> S a b) ->
  StronglySorted R l -> StronglySorted S l.
Proof.
  intros HRS Hl. induction Hl as [|a l Hl IH Ha]; constructor.
  - apply IH. intros b c Hb Hc. by apply HRS; right.
  - rewrite Forall_forall in *. intros b Hb. apply HRS; [left|by right|by apply Ha].
Qed.

(** ** Stable sorting, as [slice::sort_by] *)
Section sort_by.
Context {A : Type} (le : A -> A -> bool).

Fixpoint insert_by (x : A) (l : list A) : list A :=
  match l with
  | [] => [x]
  | y :: l' => if le x y then x :: y :: l' else y :: insert_by x l'
  end.

Definition sort_by (l : list A) : list A := foldr insert_by [] l.

Lemma insert_by_perm x l : insert_by x l ≡ₚ x :: l.
Proof.
  induction l as [|y l IH]; cbn; [done|]. destruct (le x y); [done|].
  rewrite IH. constructor.
Qed.

Lemma sort_by_perm l : sort_by l ≡ₚ l.
Proof. induction l as [|x l IH]; cbn; [done|]. by rewrite insert_by_perm, IH. Qed.

Hypothesis le_total : forall x y, le x y = true \/ le y x = true.
Hypothesis le_trans : forall x y z, le x y = true -> le y z = true -> le x z = true.

Lemma insert_by_sorted x l :
  StronglySorted (fun a b => le a b = true) l ->
  StronglySorted (fun a b => le a b = true) (insert_by x l).
Proof.
  induction 1 as [|y l Hl IH Hy]; cbn; [repeat constructor|].
  destruct (le x y) eqn:Hxy.
  - constructor; [by constructor|]. constructor; [done|].
    eapply Forall_impl; [exact Hy|]. cbn. eauto.
  - constructor; [done|]. rewrite (insert_by_perm x l). constructor; [|done].
    destruct (le_total x y); congruence.
Qed.

Lemma sort_by_sorted l : StronglySorted (fun a b => le a b = true) (sort_by l).
Proof. induction l; cbn; [constructor|]. by apply insert_by_sorted. Qed.
End sort_by.

Lemma elem_of_rev {A} (x : A) (l : list A) : x ∈ rev l <-> x ∈ l.
Proof. by rewrite !list_elem_of_In, <- in_rev. Qed.

(** ** Hash sets *)

(** The iteration order of a hash set is unspecified: it is a parameter, of which
    only the elements are known. *)
Class HashOrder (A : Type) `{Countable A} : Type := {
  hash_iter : gset A -> list A;
  hash_iter_perm s : hash_iter s ≡ₚ elements s
}.

(** One order, for the examples *)
Definition elements_order {A} `{Countable A} : HashOrder A :=
  {| hash_iter := elements; hash_iter_perm s := reflexivity _ |}.

(** ** Finite orders *)

(** The elements of a set that are not above one *)
Definition below (rank : positive -> nat) (d : gset positive) (v : positive) : nat := size (filter (fun u => rank u <= rank v)%nat d).

Lemma below_lt rank d x v : v ∈ d -> (rank x < rank v)%nat -> (below rank d x < below rank d v)%nat.
Proof.
  intros Hv Hx. apply subset_size. split; [intros u [Hu ?]%elem_of_filter; apply elem_of_filter; split; [lia|done]|].
  intros Hsub. assert (v ∈ filter (fun u => rank u <= rank x)%nat d) as [Hle _]%elem_of_filter by (apply Hsub, elem_of_filter; done). lia.
Qed.

Lemma below_size rank d v : (below rank d v <= size d)%nat.
Proof. apply subseteq_size. intros u Hu. by apply elem_of_filter in Hu as [_ ?]. Qed.

(** ** Filtered lists *)

Lemma elem_of_filter_bool {A} (P : A -> bool) l x : x ∈ List.filter P l <-> x ∈ l /\ P x = true.
Proof. rewrite !list_elem_of_In, List.filter_In. done. Qed.

Lemma filter_sublist {A} (P : A -> bool) l : sublist (List.filter P l) l.
Proof. induction l as [|x l IH]; [done|]. cbn. destruct (P x); by constructor. Qed.
