(* ===== verification/MatchRange.v ===== *)
(** * Integer ranges of match patterns

    Models [match_expression/analysis/range.rs]: the trait [MyMath], the type
    [Range<T>] of inclusive integer ranges and the operations the match
    analysis computes with them: joining, condensing a vector of ranges, and
    the complement of a vector of ranges in an oracle range.  A machine
    integer of type [T] is a [Z]; an operation that would leave the range of
    [T] returns the panic of the Rust operator. *)

From S2P Require Import Prelude.
Local Open Scope Z_scope.

(** The integer types [T] that [Range<T>] is used at. *)
Inductive IntTy : Type := u8 | u16 | u32 | u64.

#[export] Instance IntTy_eq_dec : EqDecision IntTy.
Proof. solve_decision. Defined.

Definition bits (T : IntTy) : Z :=
  match T with u8 => 8 | u16 => 16 | u32 => 32 | u64 => 64 end.

(** ** The trait [MyMath<T>] *)
Class MyMath (T : IntTy) : Type := {
  global_max : Z;
  global_min : Z;
  incr : Z -> Result Z;
  decr : Z -> Result Z
}.
Arguments global_max T {_}.
Arguments global_min T {_}.
Arguments incr T {_} _.
Arguments decr T {_} _.

(** The result of an arithmetic operator of Rust on the unsigned type [T]. *)
Definition checked (T : IntTy) (z : Z) : Result Z :=
  if (0 <=? z) && (z <? 2 ^ bits T) then Ok z
  else Err (Panic "attempt to compute with overflow").

#[export] Instance MyMath_u8 : MyMath u8 :=
  {| global_max := 255; global_min := 0;
     incr x := checked u8 (x + 1); decr x := checked u8 (x - 1) |}.
#[export] Instance MyMath_u16 : MyMath u16 :=
  {| global_max := 65535; global_min := 0;
     incr x := checked u16 (x + 1); decr x := checked u16 (x - 1) |}.
#[export] Instance MyMath_u32 : MyMath u32 :=
  {| global_max := 4294967295; global_min := 0;
     incr x := checked u32 (x + 1); decr x := checked u32 (x - 1) |}.
#[export] Instance MyMath_u64 : MyMath u64 :=
  {| global_max := 18446744073709551615; global_min := 0;
     incr x := checked u64 (x + 1); decr x := checked u64 (x - 1) |}.

#[export] Instance MyMath_all (T : IntTy) : MyMath T :=
  match T with
  | u8 => MyMath_u8 | u16 => MyMath_u16 | u32 => MyMath_u32 | u64 => MyMath_u64
  end.

(** ** [Range<T>] and its operations *)

Record Range (T : IntTy) : Type := mkRange { first : Z; last : Z }.
Arguments mkRange {T} _ _.
Arguments first {T} _.
Arguments last {T} _.

#[export] Instance Range_eq_dec (T : IntTy) : EqDecision (Range T).
Proof. solve_decision. Defined.

Definition range_u8 : Range u8 := mkRange 0 255.
Definition range_u16 : Range u16 := mkRange 0 65535.
Definition range_u32 : Range u32 := mkRange 0 4294967295.
Definition range_u64 : Range u64 := mkRange 0 18446744073709551615.

Section operations.
Context {T : IntTy}.
Implicit Types a b r oracle : Range T.

Definition from_single (x : Z) : Range T := mkRange x x.

Definition from_double (fst lst : Z) : Result (Range T) :=
  if lst <? fst then Err (Internal "attempted to create an invalid range")
  else Ok (mkRange fst lst).

(** [self.overlaps(other)] *)
Definition overlaps (self other : Range T) : bool :=
  ((first other >=? first self) && (last other <=? last self))
  || ((first other <=? first self) && (last other >=? last self))
  || ((first other <=? first self) && (last other <=? last self) && (last other >=? first self))
  || ((first other >=? first self) && (first other <=? last self) && (last other >=? last self)).

Definition encompasses (self other : Range T) : bool :=
  (first self <=? first other) && (last self >=? last other).

Definition encompasses_all (self : Range T) (others : list (Range T)) : bool :=
  forallb (encompasses self) others.

(** Each subtraction is guarded by the comparison before it, so it does not
    leave the range of [T]. *)
Definition within_one (self other : Range T) : bool :=
  negb (overlaps self other)
  && (((first other >? last self) && (first other - last self =? 1))
      || ((first self >? last other) && (first self - last other =? 1))).

Definition join_ranges a b : Result (Range T) :=
  if negb (overlaps a b) && negb (within_one a b)
  then Err (Internal "these two ranges cannot be joined")
  else
    let fst := if first a <? first b then first a else first b in
    let lst := if last a >? last b then last a else last b in
    range ← from_double fst lst;
    Ok range.

(** The loop of [condense_ranges] over the ranges after the first one.  The
    head of [stack] is the top of the stack; the Rust vector holds the top
    last, so the final [stack.reverse()] is this list as it is. *)
Fixpoint condense_loop (rest stack : list (Range T)) : Result (list (Range T)) :=
  match rest with
  | [] => Ok stack
  | range :: rest' =>
      match stack with
      | [] => Err (Internal "stack empty")
      | top :: stack' =>
          if overlaps range top || within_one range top then
            joined ← join_ranges range top;
            condense_loop rest' (joined :: stack')
          else condense_loop rest' (range :: top :: stack')
      end
  end.

(** [ranges.sort_by(|a, b| b.first.cmp(&a.first))] *)
Definition sort_ranges (ranges : list (Range T)) : list (Range T) :=
  sort_by (fun a b => first b <=? first a) ranges.

Definition condense_ranges (ranges : list (Range T)) : Result (list (Range T)) :=
  match sort_ranges ranges with
  | [] => Err (Internal "unable to split vec")
  | fst :: rest => condense_loop rest [fst]
  end.

(** [condensed.iter().tuple_windows()] *)
Fixpoint tuple_windows {A} (l : list A) : list (A * A) :=
  match l with
  | x :: ((y :: _) as l') => (x, y) :: tuple_windows l'
  | _ => []
  end.

(** The body of the loop over the windows: the range strictly between two
    consecutive condensed ranges. *)
Definition gap_between (window : Range T * Range T) : Result (Range T) :=
  i ← incr T (last window.1);
  d ← decr T (first window.2);
  from_double i d.

(** Step 3: the part of the oracle before the first condensed range. *)
Definition gap_before oracle (fst : Range T) : Result (list (Range T)) :=
  if decide (first oracle = first fst) then Ok []
  else d ← decr T (first fst);
       r ← from_double (first oracle) d;
       Ok [r].

(** Step 5: the part of the oracle after the last condensed range. *)
Definition gap_after oracle (lst : Range T) : Result (list (Range T)) :=
  if decide (last oracle = last lst) then Ok []
  else i ← incr T (last lst);
       r ← from_double i (last oracle);
       Ok [r].

Definition find_exclusionary_ranges (guides : list (Range T)) oracle : Result (list (Range T)) :=
  condensed ← condense_ranges guides;
  if negb (encompasses_all oracle condensed) then
    Err (Internal "ranges OOB with the oracle")
  else
    match head condensed, list.last condensed with
    | Some fst, Some lst =>
        before ← gap_before oracle fst;
        between ← traverse gap_between (tuple_windows condensed);
        after ← gap_after oracle lst;
        Ok (before ++ between ++ after)
    | _, _ => Err (Internal "could not split vec")
    end.

Definition do_ranges_equal_range (ranges : list (Range T)) oracle : Result bool :=
  condensed ← condense_ranges ranges;
  if (1 <? length condensed)%nat then Ok false
  else
    match head condensed with
    | Some first_range => Ok (bool_decide (first_range = oracle))
    | None => Err (Internal "vec empty")
    end.

(** [Ord::cmp] of two ranges *)
Definition range_cmp a b : comparison :=
  match first a ?= first b, last a ?= last b with
  | Lt, _ => Lt
  | Eq, Lt => Lt
  | Eq, Eq => Eq
  | Eq, Gt => Gt
  | Gt, _ => Gt
  end.
End operations.

(** ** Meaning of a range *)

Definition in_range {T} (x : Z) (r : Range T) : Prop := first r <= x <= last r.
Definition in_ranges {T} (x : Z) (rs : list (Range T)) : Prop := Exists (in_range x) rs.

(** A range the Rust code may hold: not empty, with bounds of type [T]. *)
Definition valid_range {T} (r : Range T) : Prop :=
  0 <= first r /\ first r <= last r /\ last r <= global_max T.

(** No range of the vector lies strictly inside another one: the ranges are
    ordered the same way by their first and by their last element.  Vectors of
    single values and of disjoint ranges are of this form. *)
Definition not_nested {T} (rs : list (Range T)) : Prop :=
  forall a b, a ∈ rs -> b ∈ rs -> first a <= first b -> last a <= last b.

(** Ascending, pairwise disjoint and not adjacent. *)
Fixpoint separated {T} (rs : list (Range T)) : Prop :=
  match rs with
  | a :: ((b :: _) as rs') => last a + 1 < first b /\ separated rs'
  | _ => True
  end.

Section theory.
Context {T : IntTy}.
Implicit Types a b r oracle : Range T.
Implicit Types rs guides : list (Range T).

Lemma global_max_bits : global_max T = 2 ^ bits T - 1.
Proof. by destruct T. Qed.

Lemma global_max_pos : 0 < global_max T.
Proof. by destruct T. Qed.

Lemma incr_Ok x : 0 <= x < global_max T -> incr T x = Ok (x + 1).
Proof.
  intros Hx. rewrite global_max_bits in Hx.
  assert (checked T (x + 1) = Ok (x + 1)) as Hc.
  { unfold checked. case_tests; [done|]. lia. }
  by destruct T.
Qed.

Lemma decr_Ok x : 0 < x <= global_max T -> decr T x = Ok (x - 1).
Proof.
  intros Hx. rewrite global_max_bits in Hx.
  assert (checked T (x - 1) = Ok (x - 1)) as Hc.
  { unfold checked. case_tests; [done|]. lia. }
  by destruct T.
Qed.

Lemma overlaps_spec a b :
  first a <= last a -> first b <= last b ->
  overlaps a b = true <-> first a <= last b /\ first b <= last a.
Proof. unfold overlaps. lia. Qed.

(** Two ranges can be joined iff they share a point or are adjacent. *)
Lemma mergeable_spec a b :
  first a <= last a -> first b <= last b ->
  overlaps a b || within_one a b = true <->
  first a <= last b + 1 /\ first b <= last a + 1.
Proof. intros. unfold within_one, overlaps. lia. Qed.

Lemma join_ranges_Ok a b :
  first a <= last a -> first b <= last b ->
  overlaps a b || within_one a b = true ->
  join_ranges a b = Ok (mkRange (Z.min (first a) (first b)) (Z.max (last a) (last b))).
Proof.
  intros Ha Hb Hm. unfold join_ranges, from_double.
  replace (if first a <? first b then first a else first b)
    with (Z.min (first a) (first b)) by (case_tests; lia).
  replace (if last a >? last b then last a else last b)
    with (Z.max (last a) (last b)) by (case_tests; lia).
  replace (negb (overlaps a b) && negb (within_one a b)) with false
    by (destruct (overlaps a b), (within_one a b); done).
  replace (Z.max (last a) (last b) <? Z.min (first a) (first b)) with false by lia.
  done.
Qed.

(** A joined range contains exactly the points of the two ranges. *)
Lemma join_ranges_points a b r x :
  first a <= last a -> first b <= last b ->
  overlaps a b || within_one a b = true ->
  join_ranges a b = Ok r ->
  in_range x r <-> in_range x a \/ in_range x b.
Proof.
  intros Ha Hb Hm. rewrite join_ranges_Ok by done. intros [= <-].
  apply mergeable_spec in Hm; [|done..]. unfold in_range. cbn. lia.
Qed.

Lemma sort_ranges_perm rs : sort_ranges rs ≡ₚ rs.
Proof. apply sort_by_perm. Qed.

Lemma sort_ranges_sorted rs :
  StronglySorted (fun a b => first b <= first a) (sort_ranges rs).
Proof.
  eapply StronglySorted_weaken; [|apply sort_by_sorted; lia]. cbn. lia.
Qed.

Lemma sort_ranges_nonempty rs : rs <> [] -> exists r rs', sort_ranges rs = r :: rs'.
Proof.
  intros Hrs. destruct (sort_ranges rs) as [|r rs'] eqn:E; [|eauto].
  pose proof (sort_ranges_perm rs) as Hp. rewrite E in Hp.
  by apply Permutation_nil_l in Hp.
Qed.

Lemma in_ranges_cons x r rs : in_ranges x (r :: rs) <-> in_range x r \/ in_ranges x rs.
Proof. apply Exists_cons. Qed.

Lemma in_ranges_app x (rs1 rs2 : list (Range T)) :
  in_ranges x (rs1 ++ rs2) <-> in_ranges x rs1 \/ in_ranges x rs2.
Proof. apply Exists_app. Qed.

Lemma in_ranges_nil x : ~ in_ranges x ([] : list (Range T)).
Proof. by intros ?%Exists_nil. Qed.

(** Processing one range keeps the covered points, whatever the order. *)
Lemma condense_loop_points (rest : list (Range T)) top stack :
  Forall valid_range rest -> Forall valid_range (top :: stack) ->
  exists cs, condense_loop rest (top :: stack) = Ok cs /\ cs <> [] /\
    Forall valid_range cs /\
    forall x, in_ranges x cs <-> in_ranges x rest \/ in_ranges x (top :: stack).
Proof.
  revert top stack. induction rest as [|r rest IH]; intros top stack Hrest Hst.
  - exists (top :: stack). cbn. split_and!; [done..|].
    intros x. pose proof (in_ranges_nil x). tauto.
  - inversion_clear Hrest as [|? ? Hr Hrest']. inversion Hst as [|? ? Htop Hst']; subst.
    cbn. destruct (overlaps r top || within_one r top) eqn:Hm.
    + destruct Hr as (? & ? & ?), Htop as (? & ? & ?).
      rewrite join_ranges_Ok by (try done; lia). cbn.
      edestruct IH as (cs & Hcs & Hne & Hv & Hp); [done| |exists cs; split_and!; [exact Hcs|done..|]].
      { constructor; [|done]. split_and!; cbn; lia. }
      intros x. rewrite Hp, !in_ranges_cons. apply mergeable_spec in Hm; [|done..].
      assert (in_range x (mkRange (T := T) (Z.min (first r) (first top)) (Z.max (last r) (last top)))
              <-> in_range x r \/ in_range x top) by (unfold in_range; cbn; lia).
      tauto.
    + edestruct (IH r (top :: stack)) as (cs & Hcs & Hne & Hv & Hp); [done|by constructor|].
      exists cs. split_and!; [exact Hcs|done..|].
      intros x. rewrite Hp, !in_ranges_cons. tauto.
Qed.

Lemma in_ranges_perm x (rs1 rs2 : list (Range T)) :
  rs1 ≡ₚ rs2 -> in_ranges x rs1 <-> in_ranges x rs2.
Proof. intros H. unfold in_ranges. by rewrite H. Qed.

Lemma condense_ranges_Ok rs :
  rs <> [] -> Forall valid_range rs ->
  exists cs, condense_ranges rs = Ok cs /\ cs <> [] /\ Forall valid_range cs /\
    forall x, in_ranges x cs <-> in_ranges x rs.
Proof.
  intros Hne Hv. destruct (sort_ranges_nonempty rs Hne) as (r & rs' & E).
  pose proof (sort_ranges_perm rs) as Hp. unfold condense_ranges. rewrite E in *.
  rewrite <- Hp in Hv. inversion Hv as [|? ? Hr Hrs']; subst.
  destruct (condense_loop_points rs' r []) as (cs & Hcs & Hcne & Hcv & Hpts);
    [done|by apply Forall_singleton|].
  exists cs. split_and!; [done..|]. intros x.
  rewrite Hpts, <- (in_ranges_perm x _ _ Hp), !in_ranges_cons.
  pose proof (in_ranges_nil x). tauto.
Qed.

(** With the ranges in descending order and none nested, each range meets
    at most the top of the stack. *)
Lemma condense_loop_separated (rest : list (Range T)) top stack cs :
  Forall (fun r => first r <= last r) (top :: rest) ->
  StronglySorted (fun a b => first b <= first a /\ last b <= last a) rest ->
  Forall (fun r => first r <= first top /\ last r <= last top) rest ->
  separated (top :: stack) ->
  condense_loop rest (top :: stack) = Ok cs -> separated cs.
Proof.
  revert top stack. induction rest as [|r rest IH]; intros top stack Hv Hs Hle Hsep; cbn.
  { by intros [= <-]. }
  inversion_clear Hv as [|? ? Htop Hv']. inversion Hv' as [|? ? Hr Hv'']; subst.
  inversion_clear Hs as [|? ? Hs' Hsr]. inversion_clear Hle as [|? ? [Hle1 Hle2] Hle'].
  destruct (overlaps r top || within_one r top) eqn:Hm.
  - rewrite join_ranges_Ok by done. cbn. apply IH; [|done| |].
    + constructor; [cbn; lia|done].
    + rewrite Forall_forall in *. intros r' Hr'.
      pose proof (Hsr r' Hr'). pose proof (Hle' r' Hr'). cbn. lia.
    + destruct stack as [|t stack]; cbn; [done|]. destruct Hsep. split; [lia|done].
  - apply IH; [by constructor|done|done|]. split; [|done].
    destruct (overlaps r top || within_one r top) eqn:Hm'; [done|].
    assert (~ (first r <= last top + 1 /\ first top <= last r + 1)) as Hn.
    { intros Hc. apply mergeable_spec in Hc; [congruence|done..]. }
    lia.
Qed.

Lemma condense_ranges_sep rs cs :
  Forall valid_range rs -> not_nested rs -> condense_ranges rs = Ok cs -> separated cs.
Proof.
  intros Hv Hn. unfold condense_ranges.
  pose proof (sort_ranges_perm rs) as Hp. pose proof (sort_ranges_sorted rs) as Hs.
  destruct (sort_ranges rs) as [|r rs']; [done|].
  assert (forall a b, a ∈ r :: rs' -> b ∈ r :: rs' -> first a <= first b -> last a <= last b) as Hn'.
  { intros a b Ha Hb. rewrite Hp in Ha, Hb. by apply Hn. }
  rewrite <- Hp in Hv. inversion Hs as [|? ? Hs' Hr]; subst.
  rewrite Forall_forall in Hr.
  apply condense_loop_separated; [| | |done].
  - eapply Forall_impl; [exact Hv|]. unfold valid_range. lia.
  - eapply StronglySorted_weaken; [|exact Hs']. cbn. intros a b Ha Hb Hab.
    split; [done|]. apply Hn'; [by right|by right|done].
  - apply Forall_forall. intros b Hb. pose proof (Hr b Hb). split; [done|].
    apply Hn'; [by right|left|done].
Qed.

Lemma separated_above a rs x :
  Forall valid_range (a :: rs) -> separated (a :: rs) -> in_ranges x rs -> last a + 1 < x.
Proof.
  revert a. induction rs as [|b rs IH]; intros a Hv Hs Hx; [by apply in_ranges_nil in Hx|].
  apply Forall_cons in Hv as [(? & ? & ?) Hv'].
    pose proof Hv' as [(? & ? & ?) _]%Forall_cons.
  destruct Hs as [Hab Hs]. apply in_ranges_cons in Hx as [Hx|Hx].
  - unfold in_range in Hx. lia.
  - pose proof (IH b Hv' Hs Hx). lia.
Qed.

Lemma separated_last_le a rs z :
  Forall valid_range (a :: rs) -> separated (a :: rs) ->
  list.last (a :: rs) = Some z -> last a <= last z.
Proof.
  intros Hv Hs Hz. destruct rs as [|b rs]; cbn in Hz; [simplify_eq; lia|].
  apply last_Some_elem_of in Hz. inversion Hv as [|? ? _ Hv']; subst.
  assert (valid_range z) as (? & ? & ?) by (rewrite Forall_forall in Hv'; auto).
  assert (last a + 1 < last z); [|lia].
  eapply (separated_above a (b :: rs)); [done..|].
  apply Exists_exists. exists z. unfold in_range. split; [done|lia].
Qed.

Lemma gap_between_Ok a b :
  0 <= first a <= last a -> last a + 1 < first b <= last b -> last b <= global_max T ->
  gap_between (a, b) = Ok (mkRange (last a + 1) (first b - 1)).
Proof.
  intros. unfold gap_between. cbn [fst snd]. rewrite incr_Ok, decr_Ok by lia.
  next_step. unfold from_double.
  by replace (first b - 1 <? last a + 1) with false by lia.
Qed.

(** The gaps between consecutive separated ranges. *)
Lemma gaps_spec rs a z :
  Forall valid_range (a :: rs) -> separated (a :: rs) -> list.last (a :: rs) = Some z ->
  exists gs, traverse gap_between (tuple_windows (a :: rs)) = Ok gs
    /\ Forall valid_range gs
    /\ forall x, in_ranges x gs <-> (first a <= x <= last z /\ ~ in_ranges x (a :: rs)).
Proof.
  revert a. induction rs as [|b rs IH]; intros a Hv Hs Hz.
  - cbn in Hz. simplify_eq. exists []. split_and!; [done|done|]. intros x.
    pose proof (in_ranges_nil x). rewrite in_ranges_cons. unfold in_range. tauto.
  - apply Forall_cons in Hv as [(? & ? & ?) Hv'].
    pose proof Hv' as [(? & ? & ?) _]%Forall_cons.
    destruct Hs as [Hab Hs]. change (list.last (b :: rs) = Some z) in Hz.
    destruct (IH b Hv' Hs Hz) as (gs & Hgs & Hvg & Hpts).
    pose proof (separated_last_le b rs z Hv' Hs Hz) as Hbz.
    exists (mkRange (last a + 1) (first b - 1) :: gs).
    change (tuple_windows (a :: b :: rs)) with ((a, b) :: tuple_windows (b :: rs)).
    cbn [traverse]. rewrite gap_between_Ok by (try done; lia). next_step.
    rewrite Hgs. split_and!; [done| |].
    + constructor; [|done]. split_and!; cbn; lia.
    + intros x. rewrite !in_ranges_cons, Hpts, in_ranges_cons.
      pose proof (separated_above b rs x Hv' Hs) as Habove.
      unfold in_range; cbn.
      split.
      * intros [Hgap|[Hb Hn]].
        -- split; [lia|]. intros [?|[?|Hx]]; [lia..|]. specialize (Habove Hx). lia.
        -- split; [lia|]. intros [?|?]; [lia|tauto].
      * intros [Hx Hn]. destruct (decide (x < first b)); [left|right; split; [lia|tauto]].
        assert (~ (first a <= x <= last a)) by tauto. lia.
Qed.

Lemma encompasses_all_spec oracle rs :
  encompasses_all oracle rs = true <->
  forall r, r ∈ rs -> first oracle <= first r /\ last r <= last oracle.
Proof.
  unfold encompasses_all, encompasses. rewrite forallb_forall.
  setoid_rewrite <- list_elem_of_In. split; intros H r Hr; specialize (H r Hr); lia.
Qed.

(** Covering only points of the oracle is the same for the ranges and for
    the condensed ranges. *)
Lemma condensed_encompassed guides cs oracle :
  Forall valid_range cs -> Forall valid_range guides ->
  (forall x, in_ranges x cs <-> in_ranges x guides) ->
  Forall (fun r => encompasses oracle r = true) guides -> encompasses_all oracle cs = true.
Proof.
  intros Hcs Hg Hpts Henc. apply encompasses_all_spec. intros r Hr.
  rewrite Forall_forall in Hcs, Henc. destruct (Hcs r Hr) as (? & ? & ?).
  assert (forall x, in_range x r -> in_range x oracle) as Hin.
  { intros x Hx. assert (in_ranges x guides) as Hx'.
    { apply Hpts, Exists_exists. eauto. }
    apply Exists_exists in Hx' as (g & Hg' & Hx'). specialize (Henc g Hg').
    unfold encompasses, in_range in *. lia. }
  unfold in_range in Hin. pose proof (Hin (first r)). pose proof (Hin (last r)). lia.
Qed.

Lemma not_nested_singles xs : not_nested (map (from_single (T := T)) xs).
Proof.
  intros a b Ha Hb. apply list_elem_of_fmap in Ha as (x & -> & _).
  apply list_elem_of_fmap in Hb as (y & -> & _). done.
Qed.

Lemma separated_bounds rs a z x :
  Forall valid_range (a :: rs) -> separated (a :: rs) -> list.last (a :: rs) = Some z ->
  in_ranges x (a :: rs) -> first a <= x <= last z.
Proof.
  revert a. induction rs as [|b rs IH]; intros a Hv Hs Hz Hx.
  - cbn in Hz. simplify_eq. apply in_ranges_cons in Hx as [Hx|Hx]; [done|].
    by apply in_ranges_nil in Hx.
  - pose proof (separated_last_le a (b :: rs) z Hv Hs Hz).
    apply in_ranges_cons in Hx as [Hx|Hx]; [unfold in_range in Hx; lia|].
    apply Forall_cons in Hv as [(? & ? & ?) Hv]. destruct Hs as [Hab Hs].
    specialize (IH b Hv Hs Hz Hx). lia.
Qed.

Lemma gap_before_Ok oracle a :
  valid_range oracle -> valid_range a -> first oracle <= first a ->
  exists l, gap_before oracle a = Ok l /\ Forall valid_range l /\
    forall x, in_ranges x l <-> first oracle <= x < first a.
Proof.
  intros (? & ? & ?) (? & ? & ?) Hle. unfold gap_before. case_decide as Heq.
  - exists []. split_and!; [done..|]. intros x. pose proof (in_ranges_nil x). split; [done|lia].
  - rewrite decr_Ok by lia. next_step. unfold from_double.
    replace (first a - 1 <? first oracle) with false by lia.
    eexists. split_and!; [done|apply Forall_singleton; split_and!; cbn; lia|].
    intros x. rewrite in_ranges_cons. pose proof (in_ranges_nil x). unfold in_range. cbn.
    intuition lia.
Qed.

Lemma gap_after_Ok oracle z :
  valid_range oracle -> valid_range z -> last z <= last oracle ->
  exists l, gap_after oracle z = Ok l /\ Forall valid_range l /\
    forall x, in_ranges x l <-> last z < x <= last oracle.
Proof.
  intros (? & ? & ?) (? & ? & ?) Hle. unfold gap_after. case_decide as Heq.
  - exists []. split_and!; [done..|]. intros x. pose proof (in_ranges_nil x). split; [done|lia].
  - rewrite incr_Ok by lia. next_step. unfold from_double.
    replace (last oracle <? last z + 1) with false by lia.
    eexists. split_and!; [done|apply Forall_singleton; split_and!; cbn; lia|].
    intros x. rewrite in_ranges_cons. pose proof (in_ranges_nil x). unfold in_range. cbn.
    intuition lia.
Qed.

(** The complement, computed without error or overflow. *)
Lemma find_exclusionary_ranges_Ok guides oracle :
  guides <> [] -> Forall valid_range guides -> not_nested guides ->
  valid_range oracle -> Forall (fun r => encompasses oracle r = true) guides ->
  exists ex, find_exclusionary_ranges guides oracle = Ok ex /\ Forall valid_range ex /\
    forall x, in_ranges x ex <-> in_range x oracle /\ ~ in_ranges x guides.
Proof.
  intros Hne Hv Hnn Ho Henc.
  destruct (condense_ranges_Ok guides Hne Hv) as (cs & Hcs & Hcne & Hcv & Hpts).
  pose proof (condense_ranges_sep guides cs Hv Hnn Hcs) as Hsep.
  pose proof (condensed_encompassed guides cs oracle Hcv Hv Hpts Henc) as Hall.
  destruct cs as [|a rs]; [done|]. unfold find_exclusionary_ranges.
  rewrite Hcs. cbn [mbind Result_bind head]. rewrite Hall. cbn [negb].
  destruct (list.last (a :: rs)) as [z|] eqn:Hz; [|by apply last_None in Hz].
  pose proof (last_Some_elem_of _ _ Hz) as Hzin.
  pose proof (proj1 (Forall_forall _ _) Hcv) as Hcv'.
  rewrite encompasses_all_spec in Hall.
  destruct (gap_before_Ok oracle a) as (lb & -> & Hlb & Hlb'); [done|apply Hcv'; left|apply Hall; left|].
  destruct (gaps_spec rs a z Hcv Hsep Hz) as (gs & -> & Hvg & Hgpts).
  destruct (gap_after_Ok oracle z) as (la & -> & Hla & Hla'); [done|by apply Hcv'|by apply Hall|].
  cbn. eexists. split_and!; [done|by rewrite !Forall_app|].
  intros x. rewrite !in_ranges_app, Hlb', Hgpts, Hla', <- Hpts.
  pose proof (separated_bounds rs a z x Hcv Hsep Hz) as Hb.
  destruct (Hall a) as [? _]; [left|]. destruct (Hall z) as [_ ?]; [done|].
  destruct (Hcv' a) as (? & ? & ?); [left|]. destruct (Hcv' z) as (? & ? & ?); [done|].
  pose proof (separated_last_le a rs z Hcv Hsep Hz).
  destruct (decide (x < first a)), (decide (last z < x)); unfold in_range; intuition lia.
Qed.

Lemma do_ranges_equal_range_sound rs oracle :
  rs <> [] -> Forall valid_range rs -> do_ranges_equal_range rs oracle = Ok true ->
  forall x, in_ranges x rs <-> in_range x oracle.
Proof.
  intros Hne Hv. unfold do_ranges_equal_range.
  destruct (condense_ranges_Ok rs Hne Hv) as (cs & -> & _ & _ & Hpts). next_step.
  destruct cs as [|r [|r' cs]]; [done| |done]. cbn. intros [= ->%bool_decide_eq_true] x.
  rewrite <- Hpts, in_ranges_cons. pose proof (in_ranges_nil x). tauto.
Qed.

Lemma same_points_eq a b :
  first a <= last a -> first b <= last b -> (forall x, in_range x a <-> in_range x b) -> a = b.
Proof.
  intros Ha Hb H. destruct a as [a1 a2], b as [b1 b2]. unfold in_range in H. cbn in *.
  pose proof (H a1). pose proof (H a2). pose proof (H b1). pose proof (H b2).
  f_equal; lia.
Qed.

Lemma do_ranges_equal_range_Ok rs oracle :
  rs <> [] -> Forall valid_range rs -> not_nested rs -> valid_range oracle ->
  exists v, do_ranges_equal_range rs oracle = Ok v /\
    (v = true <-> forall x, in_ranges x rs <-> in_range x oracle).
Proof.
  intros Hne Hv Hnn (Ho1 & Ho2 & Ho3). unfold do_ranges_equal_range.
  destruct (condense_ranges_Ok rs Hne Hv) as (cs & Hcs & Hcne & Hcv & Hpts).
  pose proof (condense_ranges_sep rs cs Hv Hnn Hcs) as Hsep.
  rewrite Hcs. next_step. destruct cs as [|a [|b cs]]; [done| |].
  - cbn. eexists. split; [done|]. rewrite bool_decide_eq_true.
    apply Forall_cons in Hcv as [(? & ? & ?) _].
    assert (forall x, in_ranges x rs <-> in_range x a) as Ha.
    { intros x. rewrite <- Hpts, in_ranges_cons. pose proof (in_ranges_nil x). tauto. }
    setoid_rewrite Ha. split; [by intros ->|]. by apply same_points_eq.
  - cbn. exists false. split; [done|]. split; [done|]. intros Heq. exfalso.
    pose proof Hcv as [(? & ? & ?) Hcv']%Forall_cons. pose proof Hcv' as [(? & ? & ?) _]%Forall_cons.
    destruct Hsep as [Hab Hsep].
    assert (forall x, in_range x a \/ in_ranges x (b :: cs) <-> in_range x oracle) as Heq'.
    { intros x. by rewrite <- in_ranges_cons, Hpts, Heq. }
    assert (in_range (last a) oracle) as Hp1 by (apply Heq'; left; unfold in_range; lia).
    assert (in_range (first b) oracle) as Hp2.
    { apply Heq'. right. apply in_ranges_cons. left. unfold in_range. lia. }
    assert (in_range (last a + 1) oracle) as Hp3 by (unfold in_range in *; lia).
    apply Heq' in Hp3 as [Hp3|Hp3]; [unfold in_range in Hp3; lia|].
    pose proof (separated_above a (b :: cs) (last a + 1) Hcv) as Habv. cbn in Habv.
    specialize (Habv (conj Hab Hsep) Hp3). lia.
Qed.
End theory.

(** ** Properties *)

(** Condensing a non-empty vector of valid ranges succeeds, yields valid
    ranges, and keeps exactly the covered points, for every order and overlap
    of the ranges. *)
Theorem condense_ranges_preserves_points {T} (rs : list (Range T)) :
  rs <> [] -> Forall valid_range rs ->
  exists cs, condense_ranges rs = Ok cs /\ Forall valid_range cs /\
    forall x, in_ranges x cs <-> in_ranges x rs.
Proof.
  intros Hne Hv. destruct (condense_ranges_Ok rs Hne Hv) as (cs & ? & _ & ? & ?). eauto.
Qed.

Lemma condense_ranges_preserves_points_witness :
  exists cs, condense_ranges (T := u8) [mkRange 7 9; mkRange 0 3; mkRange 4 4] = Ok cs.
Proof.
  edestruct (condense_ranges_preserves_points (T := u8) [mkRange 7 9; mkRange 0 3; mkRange 4 4])
    as (cs & H & _); [done| |exact (ex_intro _ cs H)].
  repeat constructor; done.
Defined.

(** When no range is nested strictly inside another one (in particular for
    single values), the condensed ranges are in ascending order, pairwise
    disjoint and not adjacent, as the documentation of [condense_ranges] says. *)
Theorem condense_ranges_separated {T} (rs cs : list (Range T)) :
  Forall valid_range rs -> not_nested rs -> condense_ranges rs = Ok cs -> separated cs.
Proof. apply condense_ranges_sep. Qed.

Lemma condense_ranges_separated_witness :
  separated (T := u8) [mkRange 1 2; mkRange 7 7].
Proof.
  apply (condense_ranges_separated (T := u8) (map from_single [2; 7; 1])).
  - repeat constructor; done.
  - apply not_nested_singles.
  - reflexivity.
Defined.

(** The sort of [condense_ranges] is in decreasing order of [first] (its
    documentation says increasing): with a nested range the result is neither
    disjoint nor ascending, and the complement computed from it fails with an
    internal error although the complement exists. *)
Theorem condense_ranges_nested_overlap :
  condense_ranges (T := u8) [mkRange 10 12; mkRange 5 6; mkRange 0 20]
    = Ok [mkRange 0 20; mkRange 10 12] /\
  find_exclusionary_ranges [mkRange 10 12; mkRange 5 6; mkRange 0 20] range_u8
    = Err (Internal "attempted to create an invalid range") /\
  do_ranges_equal_range [mkRange 10 12; mkRange 5 6; mkRange 0 255] range_u8 = Ok false.
Proof. split_and!; reflexivity. Qed.

(** [find_exclusionary_ranges] returns, without an internal error and
    without overflowing the machine integer, ranges that cover exactly the
    points of the oracle that no guide covers. *)
Theorem find_exclusionary_ranges_complement {T} (guides : list (Range T)) (oracle : Range T) :
  guides <> [] -> Forall valid_range guides -> not_nested guides ->
  valid_range oracle -> Forall (fun r => encompasses oracle r = true) guides ->
  exists ex, find_exclusionary_ranges guides oracle = Ok ex /\ Forall valid_range ex /\
    forall x, in_ranges x ex <-> in_range x oracle /\ ~ in_ranges x guides.
Proof. apply find_exclusionary_ranges_Ok. Qed.

Lemma find_exclusionary_ranges_complement_witness :
  exists ex, find_exclusionary_ranges (map from_single [0; 255; 3]) range_u8 = Ok ex.
Proof.
  edestruct (find_exclusionary_ranges_complement (map from_single [0; 255; 3]) range_u8)
    as (ex & H & _); [done| | | | |exact (ex_intro _ ex H)].
  - repeat constructor; done.
  - apply not_nested_singles.
  - repeat constructor; done.
  - repeat constructor; done.
Defined.

(** [do_ranges_equal_range] decides whether the ranges together cover
    exactly the oracle. *)
Theorem do_ranges_equal_range_decides {T} (rs : list (Range T)) (oracle : Range T) :
  rs <> [] -> Forall valid_range rs -> not_nested rs -> valid_range oracle ->
  exists b, do_ranges_equal_range rs oracle = Ok b /\
    (b = true <-> forall x, in_ranges x rs <-> in_range x oracle).
Proof. apply do_ranges_equal_range_Ok. Qed.

Lemma do_ranges_equal_range_decides_witness :
  exists b, do_ranges_equal_range [mkRange 128 255; mkRange 0 127] range_u8 = Ok b.
Proof.
  edestruct (do_ranges_equal_range_decides [mkRange 128 255; mkRange 0 127] range_u8)
    as (b & H & _); [done| | | |exact (ex_intro _ b H)].
  - repeat constructor; done.
  - intros a b Ha Hb.
    repeat (apply elem_of_cons in Ha as [->|Ha]; [|try by apply elem_of_nil in Ha]);
      repeat (apply elem_of_cons in Hb as [->|Hb]; [|try by apply elem_of_nil in Hb]); cbn; lia.
  - repeat constructor; done.
Defined.
