(* ===== verification/MatchPattern.v ===== *)
(** * Patterns, pattern stacks, matrices and witness reports

    Models [match_expression/analysis/{pattern,patstack,matrix,witness_report}.rs].
    A [PatStack] is the list of its patterns and a [Matrix] the list of its
    rows: the Rust structs only wrap a [Vec].  [StructPattern] and
    [EnumPattern] are the arguments of the constructors [Struct] and [Enum]. *)

From S2P Require Import Prelude MatchRange.
Local Open Scope nat_scope.

Inductive Pattern : Type :=
  | Wildcard
  | U8 (range : Range u8)
  | U16 (range : Range u16)
  | U32 (range : Range u32)
  | U64 (range : Range u64)
  | B256 (bytes : list Z)
  | Boolean (b : bool)
  | Numeric (range : Range u64)
  | Str (s : string)
  | Struct (struct_name : string) (fields : list (string * Pattern))
  | Enum (enum_name variant_name : string) (value : Pattern)
  | Tuple (elems : list Pattern)
  | Or (elems : list Pattern).

Abbreviation PatStack := (list Pattern).
Abbreviation Matrix := (list PatStack).

(** ** Induction and equality *)

Section pattern_ind.
Variable P : Pattern -> Prop.
Hypothesis HWildcard : P Wildcard.
Hypothesis HU8 : forall r, P (U8 r).
Hypothesis HU16 : forall r, P (U16 r).
Hypothesis HU32 : forall r, P (U32 r).
Hypothesis HU64 : forall r, P (U64 r).
Hypothesis HB256 : forall b, P (B256 b).
Hypothesis HBoolean : forall b, P (Boolean b).
Hypothesis HNumeric : forall r, P (Numeric r).
Hypothesis HStr : forall s, P (Str s).
Hypothesis HStruct : forall n fs, Forall (fun f => P f.2) fs -> P (Struct n fs).
Hypothesis HEnum : forall n v p, P p -> P (Enum n v p).
Hypothesis HTuple : forall es, Forall P es -> P (Tuple es).
Hypothesis HOr : forall es, Forall P es -> P (Or es).

Fixpoint pattern_ind' (p : Pattern) : P p :=
  let go_list := fix go_list (es : list Pattern) : Forall P es :=
    match es with
    | [] => Forall_nil_2 P
    | e :: es' => Forall_cons_2 P e es' (pattern_ind' e) (go_list es')
    end in
  let go_fields := fix go_fields (fs : list (string * Pattern)) : Forall (fun f => P f.2) fs :=
    match fs with
    | [] => Forall_nil_2 _
    | f :: fs' => Forall_cons_2 (fun f => P f.2) f fs' (pattern_ind' f.2) (go_fields fs')
    end in
  match p with
  | Wildcard => HWildcard
  | U8 r => HU8 r | U16 r => HU16 r | U32 r => HU32 r | U64 r => HU64 r
  | B256 b => HB256 b | Boolean b => HBoolean b | Numeric r => HNumeric r | Str s => HStr s
  | Struct n fs => HStruct n fs (go_fields fs)
  | Enum n v q => HEnum n v q (pattern_ind' q)
  | Tuple es => HTuple es (go_list es)
  | Or es => HOr es (go_list es)
  end.
End pattern_ind.

(** [#[derive(PartialEq)]] of [Pattern], [StructPattern] and [EnumPattern] *)
Fixpoint pattern_eqb (p q : Pattern) {struct p} : bool :=
  match p, q with
  | Wildcard, Wildcard => true
  | U8 r, U8 r' => bool_decide (r = r')
  | U16 r, U16 r' => bool_decide (r = r')
  | U32 r, U32 r' => bool_decide (r = r')
  | U64 r, U64 r' => bool_decide (r = r')
  | B256 b, B256 b' => bool_decide (b = b')
  | Boolean b, Boolean b' => bool_decide (b = b')
  | Numeric r, Numeric r' => bool_decide (r = r')
  | Str s, Str s' => bool_decide (s = s')
  | Struct n fs, Struct n' fs' =>
      bool_decide (n = n')
      && list_eqb (fun f g => bool_decide (f.1 = g.1) && pattern_eqb f.2 g.2) fs fs'
  | Enum n v p, Enum n' v' p' => bool_decide (n = n') && bool_decide (v = v') && pattern_eqb p p'
  | Tuple ps, Tuple qs => list_eqb pattern_eqb ps qs
  | Or ps, Or qs => list_eqb pattern_eqb ps qs
  | _, _ => false
  end.

Lemma pattern_eqb_spec p q : pattern_eqb p q = true <-> p = q.
Proof.
  revert q. induction p using pattern_ind'; intros q;
    destruct q; cbn; try (split; [done|congruence]);
    try (rewrite bool_decide_eq_true; split; [by intros ->|congruence]).
  - rewrite andb_true_iff, bool_decide_eq_true, list_eqb_spec; [naive_solver|].
    eapply Forall_impl; [exact H|]. intros [f p] Hp [g q]. cbn in *.
    rewrite andb_true_iff, bool_decide_eq_true, Hp. naive_solver.
  - rewrite !andb_true_iff, !bool_decide_eq_true, IHp. naive_solver.
  - rewrite list_eqb_spec by done. naive_solver.
  - rewrite list_eqb_spec by done. naive_solver.
Qed.

#[export] Instance Pattern_eq_dec : EqDecision Pattern.
Proof.
  intros p q. destruct (pattern_eqb p q) eqn:E.
  - left. by apply pattern_eqb_spec.
  - right. intros H%pattern_eqb_spec. congruence.
Defined.

(** ** Operations of [PatStack] *)

(** [PatStack::fill_wildcards] *)
Definition PatStack_fill_wildcards (n : nat) : PatStack := replicate n Wildcard.

(** [PatStack::first] *)
Definition PatStack_first (s : PatStack) : Result Pattern :=
  match s with
  | p :: _ => Ok p
  | [] => Err (Internal "empty PatStack")
  end.

(** [PatStack::split_first] *)
Definition PatStack_split_first (s : PatStack) : Result (Pattern * PatStack) :=
  match s with
  | p :: rest => Ok (p, rest)
  | [] => Err (Internal "empty PatStack")
  end.

(** [PatStack::split_at] *)
Definition PatStack_split_at (s : PatStack) (n : nat) : Result (PatStack * PatStack) :=
  if length s <? n then Err (Internal "attempting to split OOB")
  else Ok (take n s, drop n s).

(** [PatStack::get_mut] followed by [mem::replace] of the element it returns *)
Definition PatStack_replace (s : PatStack) (n : nat) (p : Pattern) : Result PatStack :=
  match s !! n with
  | Some _ => Ok (<[n := p]> s)
  | None => Err (Internal "can't retrieve mutable reference to element")
  end.

(** [PatStack::contains] *)
Definition PatStack_contains (s : PatStack) (p : Pattern) : bool :=
  existsb (fun q => pattern_eqb q p) s.

Definition is_or (p : Pattern) : bool := match p with Or _ => true | _ => false end.
Definition is_wildcard (p : Pattern) : bool := match p with Wildcard => true | _ => false end.

(** [PatStack::contains_or_pattern] *)
Definition PatStack_contains_or_pattern (s : PatStack) : bool := existsb is_or s.

(** [Pattern::flatten], one layer deep *)
Definition Pattern_flatten (p : Pattern) : PatStack :=
  match p with
  | Or pats => pats
  | pat => [pat]
  end.

(** [PatStack::flatten] *)
Definition PatStack_flatten (s : PatStack) : PatStack := concat (map Pattern_flatten s).

(** [PatStack::filter_out_wildcards] *)
Definition PatStack_filter_out_wildcards (s : PatStack) : PatStack :=
  List.filter (fun p => negb (is_wildcard p)) s.

(** [PatStack::is_empty]: no pattern but wildcards, after flattening *)
Definition PatStack_is_empty (s : PatStack) : bool :=
  match PatStack_filter_out_wildcards (PatStack_flatten s) with [] => true | _ => false end.

(** [PatStack::remove_duplicates]: keeps the first occurrence of each pattern *)
Definition PatStack_remove_duplicates (s : PatStack) : PatStack :=
  foldl (fun new_pats pat =>
           if PatStack_contains new_pats pat then new_pats else new_pats ++ [pat]) [] s.

(** The copies of [top] that the body of the [while] loop of
    [PatStack::serialize_multi_patterns] pushes: for every index that holds an
    or-pattern, one copy per alternative. *)
Definition serialize_pushes (top : PatStack) : Result (list PatStack) :=
  concat_traverse (fun '(i, pat) =>
    match pat with
    | Or elems => traverse (fun elem => PatStack_replace top i elem) elems
    | _ => Ok []
    end) (imap pair top).

(** The [while] loop.  The heads of [stack] and [output] are the last elements
    of the Rust vectors, so the final [output.reverse()] is [output] itself. *)
Fixpoint serialize_loop (fuel : nat) (stack output : list PatStack) : Result (list PatStack) :=
  match stack with
  | [] => Ok output
  | top :: stack' =>
      match fuel with
      | 0 => Err OutOfFuel
      | S fuel' =>
          if negb (PatStack_contains_or_pattern top) then
            serialize_loop fuel' stack' (top :: output)
          else
            pushed ← serialize_pushes top;
            serialize_loop fuel' (reverse pushed ++ stack') output
      end
  end.

(** The number of nested or-patterns that can be selected one after the other. *)
Fixpoint or_size (p : Pattern) : nat :=
  match p with
  | Or elems => S (sum_list_with or_size elems)
  | _ => 0
  end.
Definition or_sizes (s : PatStack) : nat := sum_list_with or_size s.

(** The number of iterations the loop spends on [top] and its expansions; [n]
    bounds [or_sizes top]. *)
Fixpoint serialize_steps (n : nat) (top : PatStack) : nat :=
  match n with
  | 0 => 1
  | S n' =>
      match serialize_pushes top with
      | Ok pushed => S (sum_list_with (serialize_steps n') pushed)
      | Err _ => 1
      end
  end.

(** [PatStack::serialize_multi_patterns] *)
Definition PatStack_serialize_multi_patterns (s : PatStack) : Result (list PatStack) :=
  serialize_loop (serialize_steps (or_sizes s) s) [s] [].

(** ** Operations of [Pattern] *)

(** [Pattern::from_pat_stack] *)
Definition Pattern_from_pat_stack (s : PatStack) : Result Pattern :=
  if length s =? 1 then PatStack_first s else Ok (Or s).

(** [Pattern::a] *)
Definition Pattern_a (p : Pattern) : nat :=
  match p with
  | U8 _ | U16 _ | U32 _ | U64 _ | B256 _ | Boolean _ | Numeric _ | Str _ => 0
  | Struct _ fields => length fields
  | Enum _ _ _ => 1
  | Tuple elems => length elems
  | Wildcard => 0
  | Or elems => length elems
  end.

(** [Pattern::has_the_same_constructor] *)
Definition Pattern_has_the_same_constructor (self other : Pattern) : Result bool :=
  match self, other with
  | Wildcard, Wildcard => Ok true
  | U8 a, U8 b => Ok (bool_decide (a = b))
  | U16 a, U16 b => Ok (bool_decide (a = b))
  | U32 a, U32 b => Ok (bool_decide (a = b))
  | U64 a, U64 b => Ok (bool_decide (a = b))
  | B256 a, B256 b => Ok (bool_decide (a = b))
  | Boolean a, Boolean b => Ok (bool_decide (a = b))
  | Numeric a, Numeric b => Ok (bool_decide (a = b))
  | Str a, Str b => Ok (bool_decide (a = b))
  | Struct struct_name1 fields1, Struct struct_name2 fields2 =>
      Ok (bool_decide (struct_name1 = struct_name2) && (length fields1 =? length fields2))
  | Enum enum_name1 variant_name1 _, Enum enum_name2 variant_name2 _ =>
      Ok (bool_decide (enum_name1 = enum_name2) && bool_decide (variant_name1 = variant_name2))
  | Tuple elems1, Tuple elems2 => Ok (length elems1 =? length elems2)
  | Or _, Or _ => Err (Panic "internal error: entered unreachable code")
  | _, _ => Ok false
  end.

(** [Pattern::sub_patterns] *)
Definition Pattern_sub_patterns (p : Pattern) : Result PatStack :=
  let pats := match p with
              | Struct _ fields => map snd fields
              | Enum _ _ value => [value]
              | Tuple elems => elems
              | _ => []
              end in
  if Pattern_a p =? length pats then Ok pats
  else Err (Internal "invariant self.a() == pats.len() broken").

(** [Pattern::into_root_constructor], [StructPattern::into_root_constructor]
    and [EnumPattern::into_root_constructor] *)
Fixpoint Pattern_into_root_constructor (p : Pattern) : Pattern :=
  match p with
  | Wildcard => Wildcard
  | U8 n => U8 n
  | U16 n => U16 n
  | U32 n => U32 n
  | U64 n => U64 n
  | B256 n => B256 n
  | Boolean b => Boolean b
  | Numeric n => Numeric n
  | Str s => Str s
  | Struct struct_name fields => Struct struct_name (map (fun f => (f.1, Wildcard)) fields)
  | Enum enum_name variant_name _ => Enum enum_name variant_name Wildcard
  | Tuple elems => Tuple (PatStack_fill_wildcards (length elems))
  | Or elems => Or (map Pattern_into_root_constructor elems)
  end.

(** The guard of the constructors without sub-patterns in
    [Pattern::from_constructor_and_arguments] *)
Definition nullary (c : Pattern) (args : PatStack) : Result Pattern :=
  if PatStack_is_empty args then Ok c else Err (Internal "malformed constructor request").

(** [Pattern::from_constructor_and_arguments] *)
Definition Pattern_from_constructor_and_arguments (c : Pattern) (args : PatStack) : Result Pattern :=
  match c with
  | Wildcard | U8 _ | U16 _ | U32 _ | U64 _ | B256 _ | Boolean _ | Numeric _ | Str _ =>
      nullary c args
  | Struct struct_name fields =>
      if negb (length args =? length fields) then Err (Internal "malformed constructor request")
      else
        serialized ← PatStack_serialize_multi_patterns args;
        Pattern_from_pat_stack
          (map (fun args => Struct struct_name (zip_with (fun f arg => (f.1, arg)) fields args)) serialized)
  | Enum enum_name variant_name _ =>
      if negb (length args =? 1) then Err (Internal "malformed constructor request")
      else
        serialized_args ← PatStack_serialize_multi_patterns args;
        pats ← traverse (fun args => arg ← PatStack_first args;
                                     Ok (Enum enum_name variant_name arg)) serialized_args;
        Pattern_from_pat_stack pats
  | Tuple elems =>
      if negb (length elems =? length args) then Err (Internal "malformed constructor request")
      else
        serialized ← PatStack_serialize_multi_patterns args;
        Pattern_from_pat_stack (map Tuple serialized)
  | Or elems =>
      if negb (length elems =? length args) then Err (Internal "malformed constructor request")
      else
        serialized ← PatStack_serialize_multi_patterns args;
        Pattern_from_pat_stack (map Or serialized)
  end.

(** ** Scrutinees and their patterns *)

(** [Literal] *)
Inductive Literal : Type :=
  | LitU8 (x : Z) | LitU16 (x : Z) | LitU32 (x : Z) | LitU64 (x : Z) | LitU256 (x : Z)
  | LitString (s : string) | LitNumeric (x : Z) | LitBoolean (b : bool) | LitB256 (b : list Z).

(** [TyScrutinee] and [TyScrutineeVariant], without spans and type ids; a
    declaration reference is the name of the declaration. *)
Inductive TyScrutinee : Type :=
  | ScrOr (elems : list TyScrutinee)
  | ScrCatchAll
  | ScrLiteral (value : Literal)
  | ScrVariable (name : string)
  | ScrConstant (name : string) (value : Literal)
  | StructScrutinee (struct_ref : string) (fields : list (string * option TyScrutinee))
  | EnumScrutinee (enum_ref variant : string) (value : TyScrutinee)
  | ScrTuple (elems : list TyScrutinee).

(** [Pattern::from_literal] *)
Definition Pattern_from_literal (value : Literal) : Result Pattern :=
  match value with
  | LitU8 x => Ok (U8 (from_single x))
  | LitU16 x => Ok (U16 (from_single x))
  | LitU32 x => Ok (U32 (from_single x))
  | LitU64 x => Ok (U64 (from_single x))
  | LitU256 x =>
      if (x <=? global_max u64)%Z then Ok (U64 (from_single x))
      else Err (Panic "pattern only works with 64 bits")
  | LitB256 x => Ok (B256 x)
  | LitBoolean b => Ok (Boolean b)
  | LitNumeric x => Ok (Numeric (from_single x))
  | LitString s => Ok (Str s)
  end.

(** [Pattern::from_scrutinee] *)
Fixpoint Pattern_from_scrutinee (scrutinee : TyScrutinee) : Result Pattern :=
  match scrutinee with
  | ScrCatchAll => Ok Wildcard
  | ScrVariable _ => Ok Wildcard
  | ScrLiteral value => Pattern_from_literal value
  | ScrConstant _ value => Pattern_from_literal value
  | StructScrutinee struct_ref fields =>
      new_fields ← traverse (fun '(field, s) =>
        match s with
        | Some s => f ← Pattern_from_scrutinee s; Ok (field, f)
        | None => Ok (field, Wildcard)
        end) fields;
      Ok (Struct struct_ref new_fields)
  | ScrOr elems => new_elems ← traverse Pattern_from_scrutinee elems; Ok (Or new_elems)
  | ScrTuple elems => new_elems ← traverse Pattern_from_scrutinee elems; Ok (Tuple new_elems)
  | EnumScrutinee enum_ref variant value =>
      v ← Pattern_from_scrutinee value; Ok (Enum enum_ref variant v)
  end.

(** ** Operations of [Matrix] *)

(** [Matrix::m_n] *)
Definition Matrix_m_n (m : Matrix) : Result (nat * nat) :=
  match m with
  | [] => Ok (0, 0)
  | row :: rest =>
      if forallb (fun r => length r =? length row) rest then Ok (length m, length row)
      else Err (Internal "found invalid matrix size")
  end.

(** [Matrix::compute_sigma] *)
Definition Matrix_compute_sigma (m : Matrix) : Result PatStack :=
  firsts ← traverse (fun row => p ← PatStack_first row; Ok (Pattern_into_root_constructor p)) m;
  Ok (PatStack_remove_duplicates firsts).

(** ** [WitnessReport] *)

Inductive WitnessReport : Type :=
  | NoWitnesses
  | Witnesses (witnesses : PatStack).

Definition join_witness_reports (a b : WitnessReport) : WitnessReport :=
  match a, b with
  | NoWitnesses, NoWitnesses => NoWitnesses
  | NoWitnesses, Witnesses wits => Witnesses wits
  | Witnesses wits, NoWitnesses => Witnesses wits
  | Witnesses wits1, Witnesses wits2 => Witnesses (wits1 ++ wits2)
  end.

Definition split_into_leading_constructor (witness_report : WitnessReport) (c : Pattern)
    : Result (Pattern * WitnessReport) :=
  match witness_report with
  | NoWitnesses =>
      Err (Internal "expected to find witnesses to use as arguments to a constructor")
  | Witnesses witnesses =>
      rs_ps ← PatStack_split_at witnesses (Pattern_a c);
      pat ← Pattern_from_constructor_and_arguments c rs_ps.1;
      Ok (pat, Witnesses rs_ps.2)
  end.

Definition add_witness (self : WitnessReport) (witness : Pattern) : Result WitnessReport :=
  match self with
  | NoWitnesses => Err (Internal "expected to find witnesses")
  | Witnesses witnesses => Ok (Witnesses (witness :: witnesses))
  end.

Definition has_witnesses (self : WitnessReport) : bool :=
  match self with
  | NoWitnesses => false
  | Witnesses _ => true
  end.

(** ** Theory *)

(** [choice p q]: [q] is not an or-pattern and is reached from [p] by selecting
    alternatives of or-patterns. *)
Inductive choice : Pattern -> Pattern -> Prop :=
  | choice_leaf p : is_or p = false -> choice p p
  | choice_or es e q : e ∈ es -> choice e q -> choice (Or es) q.

Lemma choice_not_or p q : is_or p = false -> choice p q <-> q = p.
Proof.
  intros Hp. split; [|intros ->; by constructor].
  intros H. destruct H as [p _|es e q]; done.
Qed.

Lemma choice_Or es q : choice (Or es) q <-> exists e, e ∈ es /\ choice e q.
Proof.
  split.
  - inversion 1 as [p Hp|es' e q' He Hq]; subst; [done|eauto].
  - intros (e & He & Hq). by apply (choice_or _ e).
Qed.

Lemma contains_or_pattern_false s :
  PatStack_contains_or_pattern s = false <-> Forall (fun p => is_or p = false) s.
Proof.
  unfold PatStack_contains_or_pattern.
  induction s as [|p s IH]; cbn; [by split|].
  rewrite orb_false_iff, Forall_cons, IH. done.
Qed.

Lemma serialize_pushes_elem top pushed row :
  serialize_pushes top = Ok pushed ->
  row ∈ pushed <-> exists i es e, top !! i = Some (Or es) /\ e ∈ es /\ row = <[i := e]> top.
Proof.
  intros H. unfold serialize_pushes in H.
  rewrite (concat_traverse_elem _ _ _ row H). split.
  - intros ([i p] & ys & Hin & Hys & Hrow). apply elem_of_lookup_imap in Hin as (j & q & [= -> ->] & Hj).
    destruct q as [| | | | | | | | | | | |es]; cbn in Hys; inv_ok; try by apply elem_of_nil in Hrow.
    exists j, es. apply traverse_Ok in Hys.
    apply list_elem_of_lookup in Hrow as [k Hk].
    destruct (Forall2_lookup_r _ _ _ _ _ Hys Hk) as (e & He & Hr).
    exists e. unfold PatStack_replace in Hr. rewrite Hj in Hr. inv_ok.
    split_and!; [done| |done]. apply list_elem_of_lookup. eauto.
  - intros (i & es & e & Hi & He & ->).
    destruct (traverse_is_Ok (fun elem => PatStack_replace top i elem) es) as [ys Hys].
    { intros x _. unfold PatStack_replace. rewrite Hi. by eexists. }
    exists (i, Or es), ys. split_and!; [|done|].
    + apply elem_of_lookup_imap. eauto.
    + apply traverse_Ok in Hys. apply list_elem_of_lookup in He as [k Hk].
      destruct (Forall2_lookup_l _ _ _ _ _ Hys Hk) as (y & Hy & Hr).
      unfold PatStack_replace in Hr. rewrite Hi in Hr. inv_ok.
      apply list_elem_of_lookup. eauto.
Qed.

Lemma serialize_pushes_is_Ok top : is_Ok (serialize_pushes top).
Proof.
  apply concat_traverse_is_Ok. intros [i p] Hin.
  apply elem_of_lookup_imap in Hin as (j & q & [= -> ->] & Hj).
  destruct q; try by eexists. apply traverse_is_Ok. intros x _.
  unfold PatStack_replace. rewrite Hj. by eexists.
Qed.

Lemma or_sizes_insert top i es e :
  top !! i = Some (Or es) -> e ∈ es -> or_sizes (<[i := e]> top) < or_sizes top.
Proof.
  intros Hi He. revert i Hi. induction top as [|p top IH]; intros [|i] Hi; try done; cbn in *.
  - simplify_eq. unfold or_sizes. cbn.
    assert (or_size e <= sum_list_with or_size es); [|lia].
    by apply sum_list_with_in.
  - specialize (IH i Hi). unfold or_sizes in *. cbn. by apply Nat.add_lt_mono_l.
Qed.

Lemma or_sizes_zero s : or_sizes s = 0 -> PatStack_contains_or_pattern s = false.
Proof.
  intros H. apply contains_or_pattern_false, Forall_forall. intros p Hp.
  pose proof (sum_list_with_in p or_size s Hp) as Hle. unfold or_sizes in H.
  destruct p; try done. cbn in Hle. lia.
Qed.

Lemma serialize_steps_pos n top : 0 < serialize_steps n top.
Proof. destruct n; cbn; [lia|]. case_match; lia. Qed.

(** More iterations than needed are counted as the same number. *)
Lemma serialize_steps_bound n n' top :
  or_sizes top <= n -> or_sizes top <= n' -> serialize_steps n top = serialize_steps n' top.
Proof.
  assert (forall n top, or_sizes top <= n ->
            serialize_steps n top = serialize_steps (or_sizes top) top) as Hgo.
  { clear. intros n. induction n as [n IH] using lt_wf_ind. intros top Hn.
    destruct (serialize_pushes_is_Ok top) as [pushed Hp].
    assert (forall row, row ∈ pushed -> or_sizes row < or_sizes top) as Hlt.
    { intros row (i & es & e & Hi & He & ->)%(serialize_pushes_elem _ _ _ Hp).
      by eapply or_sizes_insert. }
    destruct (or_sizes top) as [|m] eqn:E, n as [|n]; [done| |lia|]; cbn; rewrite Hp.
    - destruct pushed as [|row pushed]; [done|]. specialize (Hlt row). set_solver by lia.
    - f_equal. clear Hp. induction pushed as [|row pushed IHp]; cbn; [done|].
      assert (or_sizes row <= m) by (specialize (Hlt row ltac:(left)); lia).
      rewrite (IH n), (IH m) by lia. rewrite IHp; [done|]. intros; apply Hlt; by right. }
  intros H1 H2. by rewrite (Hgo n), (Hgo n') by done.
Qed.

Lemma Forall2_choice_push top row :
  PatStack_contains_or_pattern top = true ->
  Forall2 choice top row <->
  exists i es e, top !! i = Some (Or es) /\ e ∈ es /\ Forall2 choice (<[i := e]> top) row.
Proof.
  intros Hor. split.
  - intros Hrow. unfold PatStack_contains_or_pattern in Hor.
    apply existsb_exists in Hor as (p & Hp%list_elem_of_In & Hor).
    destruct p as [| | | | | | | | | | | |es]; try done.
    apply list_elem_of_lookup in Hp as [i Hi]. exists i, es.
    destruct (Forall2_lookup_l _ _ _ _ _ Hrow Hi) as (q & Hq & Hch).
    apply choice_Or in Hch as (e & He & Hch). exists e. split_and!; [done..|].
    rewrite <- (list_insert_id row i q Hq). by apply Forall2_insert.
  - intros (i & es & e & Hi & He & Hrow).
    assert (i < length top) by (by eapply lookup_lt_Some).
    destruct (Forall2_lookup_l _ _ row i e Hrow) as (q & Hq & Hch).
    { by apply list_lookup_insert_eq. }
    rewrite <- (list_insert_id top i (Or es) Hi), <- (list_insert_id row i q Hq).
    rewrite <- (list_insert_insert_eq top i (Or es) e).
    apply Forall2_insert; [done|]. apply choice_Or. eauto.
Qed.

(** The loop empties its stack and collects the choices of every element. *)
Lemma serialize_loop_spec fuel stack output :
  sum_list_with (fun s => serialize_steps (or_sizes s) s) stack <= fuel ->
  exists out, serialize_loop fuel stack output = Ok out /\
    forall row, row ∈ out <-> row ∈ output \/ exists s, s ∈ stack /\ Forall2 choice s row.
Proof.
  revert stack output. induction fuel as [|fuel IH]; intros [|top stack] output Hf;
    try (exists output; split; [by cbn|]; intros row; split; [by left|intros [?|(? & ?%elem_of_nil & _)]; done]).
  - cbn in Hf. pose proof (serialize_steps_pos (or_sizes top) top). lia.
  - cbn [serialize_loop]. destruct (PatStack_contains_or_pattern top) eqn:Hor; cbn [negb].
    + destruct (serialize_pushes_is_Ok top) as [pushed Hp]. rewrite Hp. next_step.
      destruct (IH (reverse pushed ++ stack) output) as (out & Hout & Hrows).
      { cbn in Hf. rewrite sum_list_with_app, sum_list_with_reverse.
        destruct (or_sizes top) as [|m] eqn:E; [by rewrite or_sizes_zero in Hor|].
        cbn in Hf. rewrite Hp in Hf.
        assert (sum_list_with (serialize_steps m) pushed
                = sum_list_with (fun s => serialize_steps (or_sizes s) s) pushed) as Heq; [|lia].
        assert (forall r, r ∈ pushed -> or_sizes r <= m) as Hle.
        { intros r (i & es & e & Hi & He & ->)%(serialize_pushes_elem _ _ _ Hp).
          pose proof (or_sizes_insert top i es e Hi He). lia. }
        clear -Hle. induction pushed as [|r pushed IH]; cbn; [done|].
        rewrite (serialize_steps_bound m (or_sizes r)) by (try done; apply Hle; left).
        rewrite IH; [done|]. intros; apply Hle; by right. }
      exists out. split; [done|]. intros row. rewrite Hrows. f_equiv.
      transitivity (Forall2 choice top row \/ exists s, s ∈ stack /\ Forall2 choice s row).
      2: { setoid_rewrite elem_of_cons. split; [intros [?|(s & ? & ?)]; eauto|].
           intros (s & [->|?] & ?); eauto. }
      rewrite (Forall2_choice_push top row Hor). split.
      * intros (s & [Hs|Hs]%elem_of_app & Hrow); [|eauto].
        apply elem_of_reverse, (serialize_pushes_elem _ _ _ Hp) in Hs
          as (i & es & e & Hi & He & ->). eauto 7.
      * intros [(i & es & e & Hi & He & Hrow)|(s & Hs & Hrow)].
        -- exists (<[i := e]> top). split; [|done]. apply elem_of_app. left.
           apply elem_of_reverse, (serialize_pushes_elem _ _ _ Hp). eauto 7.
        -- exists s. split; [|done]. apply elem_of_app. by right.
    + destruct (IH stack (top :: output)) as (out & Hout & Hrows).
      { cbn in Hf. pose proof (serialize_steps_pos (or_sizes top) top). lia. }
      exists out. split; [done|]. intros row. rewrite Hrows. setoid_rewrite elem_of_cons.
      assert (Forall2 choice top row <-> row = top) as Htop.
      2: { split.
           - intros [[->|?]|(s & ? & ?)]; [right; exists top; rewrite Htop; auto|auto|eauto].
           - intros [?|(s & [->|?] & Hrow)]; [auto| |eauto]. left. left. by apply Htop. }
      apply contains_or_pattern_false in Hor. clear -Hor.
      revert row. induction Hor as [|p s Hp _ IH]; intros [|q row]; try (split; [by inversion 1|done]).
      rewrite Forall2_cons, IH, choice_not_or by done. naive_solver.
Qed.

Lemma serialize_multi_patterns_Ok s :
  exists out, PatStack_serialize_multi_patterns s = Ok out /\
    forall row, row ∈ out <-> Forall2 choice s row.
Proof.
  destruct (serialize_loop_spec (serialize_steps (or_sizes s) s) [s] []) as (out & Hout & Hrows).
  { cbn. lia. }
  exists out. split; [done|]. intros row. rewrite Hrows. split.
  - intros [?%elem_of_nil|(s' & ->%list_elem_of_singleton & ?)]; done.
  - intros ?. right. exists s. split; [left|done].
Qed.

(** ** How often a choice is repeated *)

Definition num_ors (s : PatStack) : nat := length (List.filter is_or s).
Definition alternatives (p : Pattern) : nat := match p with Or es => length es | _ => 1 end.
Definition num_choices (s : PatStack) : nat := foldr (fun p n => alternatives p * n) 1 s.

(** Or-patterns whose alternatives are not or-patterns. *)
Definition shallow (p : Pattern) : Prop :=
  match p with Or es => Forall (fun e => is_or e = false) es | _ => True end.

Lemma serialize_pushes_imap top pushed :
  serialize_pushes top = Ok pushed ->
  pushed = concat (imap (fun i p => match p with
                                    | Or es => map (fun e => <[i := e]> top) es
                                    | _ => [] end) top).
Proof.
  unfold serialize_pushes. intros (yss & Hyss & ->)%concat_traverse_Ok. f_equal.
  apply traverse_Ok in Hyss. apply list_eq_same_length with (length top).
  - by rewrite length_imap.
  - apply Forall2_length in Hyss. by rewrite length_imap in Hyss.
  - intros i ys zs Hi Hys Hzs. apply list_lookup_imap_Some in Hzs as (p & Hp & ->).
    destruct (Forall2_lookup_r _ _ _ _ _ Hyss Hys) as ([j q] & Hq & Hf).
    apply list_lookup_imap_Some in Hq as (q' & Hq' & [= -> ->]). simplify_eq.
    destruct p as [| | | | | | | | | | | |es]; inv_ok; [done..|].
    assert (forall e, PatStack_replace top i e = Ok (<[i := e]> top)) as Hrep.
    { intros e. unfold PatStack_replace. by rewrite Hp. }
    apply traverse_Ok in Hf. clear -Hf Hrep. induction Hf as [|e row es rows Hr _ IH]; [done|].
    cbn. rewrite IH. rewrite Hrep in Hr. by inv_ok.
Qed.

Lemma sum_concat_imap (cnt : PatStack -> nat) K (g : nat -> Pattern -> list PatStack) l :
  (forall i p, l !! i = Some p -> sum_list_with cnt (g i p) = if is_or p then K else 0) ->
  sum_list_with cnt (concat (imap g l)) = num_ors l * K.
Proof.
  revert g. induction l as [|p l IH]; intros g Hg; [done|]. cbn.
  rewrite sum_list_with_app, (IH (g ∘ S)); [|intros i q Hq; by apply (Hg (S i))].
  rewrite (Hg 0 p) by done. unfold num_ors. cbn. destruct (is_or p); cbn; lia.
Qed.

Lemma num_choices_insert s i es e :
  s !! i = Some (Or es) -> is_or e = false ->
  length es * num_choices (<[i := e]> s) = num_choices s /\
  S (num_ors (<[i := e]> s)) = num_ors s.
Proof.
  intros Hi He. revert i Hi. induction s as [|p s IH]; intros [|i] Hi; try done; cbn in *.
  - simplify_eq. unfold num_ors. cbn. rewrite He. cbn.
    split; [|done]. destruct e; try done; cbn; unfold num_choices; cbn; lia.
  - destruct (IH i Hi) as [IH1 IH2]. unfold num_choices, num_ors in *. cbn. split.
    + rewrite <- IH1. rewrite !Nat.mul_assoc, (Nat.mul_comm (length es)). done.
    + destruct (is_or p); cbn; [by rewrite <- IH2|done].
Qed.

Lemma num_choices_push s i es e :
  Forall shallow s -> s !! i = Some (Or es) -> e ∈ es -> Forall shallow (<[i := e]> s).
Proof.
  intros Hs Hi He. apply Forall_insert; [done|].
  assert (shallow (Or es)) as Hes by (rewrite Forall_lookup in Hs; eauto).
  cbn in Hes. rewrite Forall_forall in Hes. specialize (Hes e He). by destruct e.
Qed.

Lemma sum_list_with_scaled {A} (f : A -> nat) c K l :
  (forall x, x ∈ l -> c * f x = K) -> c * sum_list_with f l = length l * K.
Proof.
  induction l as [|x l IH]; intros Hf; cbn; [lia|].
  rewrite Nat.mul_add_distr_l, (Hf x) by left. rewrite IH; [done|]. intros; apply Hf; by right.
Qed.

(** The stacks pushed for one or-pattern together have as many outputs as if
    that or-pattern were chosen last. *)
Lemma pushes_count top i es :
  Forall shallow top -> top !! i = Some (Or es) ->
  sum_list_with (fun s => fact (num_ors s) * num_choices s) (map (fun e => <[i := e]> top) es)
  = fact (num_ors top - 1) * num_choices top.
Proof.
  intros Hsh Hi.
  assert (shallow (Or es)) as Hes by (rewrite Forall_lookup in Hsh; eauto).
  cbn in Hes. rewrite Forall_forall in Hes.
  assert (forall s, s ∈ map (fun e => <[i := e]> top) es ->
    length es * (fact (num_ors s) * num_choices s) = fact (num_ors top - 1) * num_choices top) as Heq.
  { intros s (e & -> & He)%list_elem_of_fmap.
    destruct (num_choices_insert top i es e Hi (Hes e He)) as [<- <-].
    cbn [Nat.sub]. rewrite Nat.sub_0_r. lia. }
  pose proof (sum_list_with_scaled _ (length es) _ _ Heq) as Hsum. rewrite length_map in Hsum.
  destruct es as [|e0 es0] eqn:E; [|by apply Nat.mul_cancel_l in Hsum].
  cbn. assert (num_choices top = 0) as ->; [|lia].
  clear -Hi. revert i Hi. induction top as [|p top IH]; intros [|i] Hi; try done; cbn in *.
  - by simplify_eq.
  - unfold num_choices in *. cbn. rewrite (IH i Hi). lia.
Qed.

Lemma no_ors_count top :
  PatStack_contains_or_pattern top = false -> num_ors top = 0 /\ num_choices top = 1.
Proof.
  rewrite contains_or_pattern_false. unfold num_ors, num_choices.
  induction 1 as [|p s Hp _ [IH1 IH2]]; [done|]. cbn. rewrite Hp, IH2.
  split; [done|]. by destruct p.
Qed.

Lemma serialize_loop_length fuel stack output out :
  Forall (Forall shallow) stack ->
  serialize_loop fuel stack output = Ok out ->
  length out = length output + sum_list_with (fun s => fact (num_ors s) * num_choices s) stack.
Proof.
  revert stack output. induction fuel as [|fuel IH]; intros [|top stack] output Hsh H;
    cbn in H; inv_ok; try (cbn; lia).
  apply Forall_cons in Hsh as [Htop Hsh].
  destruct (PatStack_contains_or_pattern top) eqn:Hor; cbn [negb] in H.
  - inv_ok. apply IH in H.
    2: { apply Forall_app. split; [|done]. apply Forall_forall. intros s Hs. rewrite elem_of_reverse in Hs.
         apply (serialize_pushes_elem _ _ _ Hok) in Hs as (i & es & e & Hi & He & ->).
         by eapply num_choices_push. }
    rewrite H, sum_list_with_app, sum_list_with_reverse. cbn.
    rewrite (serialize_pushes_imap _ _ Hok).
    rewrite (sum_concat_imap _ (fact (num_ors top - 1) * num_choices top)).
    2: { intros i p Hp. destruct p as [| | | | | | | | | | | |es]; try done. by apply pushes_count. }
    assert (num_ors top <> 0).
    { unfold PatStack_contains_or_pattern in Hor. apply existsb_exists in Hor as (p & Hp & Hpo).
      unfold num_ors. intros Hz%length_zero_iff_nil.
      assert (In p (List.filter is_or top)) as Hin by (by apply filter_In). by rewrite Hz in Hin. }
    destruct (num_ors top) as [|k]; [done|]. cbn [Nat.sub]. rewrite Nat.sub_0_r. cbn [fact]. lia.
  - apply IH in H; [|done]. rewrite H. cbn. destruct (no_ors_count top Hor) as [-> ->]. cbn. lia.
Qed.

(** ** Properties *)

(** [serialize_multi_patterns] terminates without an error, and the stacks
    it returns are exactly the stacks obtained by replacing every or-pattern
    by one of its (transitive) alternatives. *)
Theorem serialize_multi_patterns_choices (s : PatStack) :
  exists out, PatStack_serialize_multi_patterns s = Ok out /\
    forall row, row ∈ out <-> Forall2 choice s row.
Proof. apply serialize_multi_patterns_Ok. Qed.

(** For a stack with [k] or-patterns, whose alternatives are not
    or-patterns, [serialize_multi_patterns] returns every one of the
    [n1 * ... * nk] combinations [k!] times: the documentation promises
    [n1 * ... * nk] stacks. *)
Theorem serialize_multi_patterns_repeats (s : PatStack) (out : list PatStack) :
  Forall shallow s -> PatStack_serialize_multi_patterns s = Ok out ->
  length out = fact (num_ors s) * num_choices s.
Proof.
  intros Hs H. unfold PatStack_serialize_multi_patterns in H.
  apply serialize_loop_length in H; [|by apply Forall_singleton]. cbn in H. lia.
Qed.

Lemma serialize_multi_patterns_repeats_witness :
  exists out, PatStack_serialize_multi_patterns
                [Or [Boolean true; Boolean false]; Or [Str "a"; Str "b"; Str "c"]] = Ok out
              /\ length out = 12.
Proof.
  eexists. split; [vm_compute; reflexivity|].
  apply (serialize_multi_patterns_repeats
           [Or [Boolean true; Boolean false]; Or [Str "a"; Str "b"; Str "c"]]);
    [repeat constructor|vm_compute; reflexivity].
Defined.
