(* ===== verification/MatchFactory.v ===== *)
(** * Types, and the constructor factory of the match analysis

    Models [TypeInfo], the lookups of the type and declaration engines that the
    match analysis performs, [TypeId::extract_nested_types] with the functions
    below it ([type_system/{info,id}.rs]), and
    [match_expression/analysis/constructor_factory.rs].  An engine is a finite
    map from ids to declarations; a lookup of an id that is not in the map
    panics, as the slab index does. *)

From S2P Require Import Prelude MatchRange MatchPattern.
Local Open Scope nat_scope.

(** ** Types and engines *)

Inductive IntegerBits : Type := Eight | Sixteen | ThirtyTwo | SixtyFour | V256.

Abbreviation TypeId := nat.
Abbreviation DeclId := nat.

(** A [TypeArgument] is its [type_id]; a [TraitConstraint] the list of its
    type arguments. *)
Inductive TypeInfo : Type :=
  | TUnknown
  | TNever
  | TUnknownGeneric (name : string) (trait_constraints : list (list TypeId))
  | TPlaceholder
  | TTypeParam
  | TStringSlice
  | TStringArray (len : nat)
  | TUnsignedInteger (b : IntegerBits)
  | TUntypedEnum (decl_id : DeclId)
  | TUntypedStruct (decl_id : DeclId)
  | TEnum (decl_id : DeclId)
  | TStruct (decl_id : DeclId)
  | TBoolean
  | TTuple (elems : list TypeId)
  | TContractCaller (address : option TypeId)
  | TCustom (type_arguments : option (list TypeId))
  | TB256
  | TNumeric
  | TContract
  | TErrorRecovery
  | TArray (elem : TypeId)
  | TRawUntypedPtr
  | TRawUntypedSlice
  | TPtr (ty : TypeId)
  | TSlice (ty : TypeId)
  | TAlias (name : string) (ty : TypeId)
  | TTraitType (name : string) (trait_type_id : TypeId)
  | TRef (referenced_type : TypeId).

(** [TyEnumDecl] and [EnumDeclaration]: the suffix of the call path, the type
    parameters, the variants with their types *)
Record TyEnumDecl : Type := mkEnumDecl {
  enum_suffix : string;
  enum_type_parameters : list TypeId;
  enum_variants : list (string * TypeId)
}.

(** [TyStructDecl] and [StructDeclaration] *)
Record TyStructDecl : Type := mkStructDecl {
  struct_suffix : string;
  struct_type_parameters : list TypeId;
  struct_fields : list (string * TypeId)
}.

Record Engines : Type := mkEngines {
  te : gmap TypeId TypeInfo;
  de_enum : gmap DeclId TyEnumDecl;
  de_struct : gmap DeclId TyStructDecl;
  pe_enum : gmap DeclId TyEnumDecl;
  pe_struct : gmap DeclId TyStructDecl
}.

Definition get {A} (m : gmap nat A) (id : nat) : Result A :=
  match m !! id with
  | Some a => Ok a
  | None => Err (Panic "index out of bounds")
  end.

(** ** [TypeId::extract_nested_types] *)

Definition EXTRACT_ANY_MAX_DEPTH : nat := 128.

(** The keys of an [IndexMap] after inserting [id]. *)
Definition insert_key (found : list TypeId) (id : TypeId) : list TypeId :=
  if bool_decide (id ∈ found) then found else found ++ [id].

(** [extend] of [extract_any], on the keys *)
Definition extend (found other : list TypeId) : list TypeId := foldl insert_key found other.

(** The component types whose nested types [TypeId::extract_any] collects, in
    the order of its loops.  The [UnknownGeneric] case inserts the type itself
    and skips type arguments that were found before; it is treated in
    [extract_any]. *)
Definition component_types (engines : Engines) (info : TypeInfo) : Result (list TypeId) :=
  match info with
  | TUnknown | TNever | TPlaceholder | TTypeParam | TStringArray _ | TStringSlice
  | TUnsignedInteger _ | TRawUntypedPtr | TRawUntypedSlice | TBoolean | TB256 | TNumeric
  | TContract | TErrorRecovery | TTraitType _ _ | TUnknownGeneric _ _ => Ok []
  | TUntypedEnum decl_id =>
      d ← get (pe_enum engines) decl_id; Ok (enum_type_parameters d ++ map snd (enum_variants d))
  | TUntypedStruct decl_id =>
      d ← get (pe_struct engines) decl_id; Ok (struct_type_parameters d ++ map snd (struct_fields d))
  | TEnum decl_id =>
      d ← get (de_enum engines) decl_id; Ok (enum_type_parameters d ++ map snd (enum_variants d))
  | TStruct decl_id =>
      d ← get (de_struct engines) decl_id; Ok (struct_type_parameters d ++ map snd (struct_fields d))
  | TTuple elems => Ok elems
  | TContractCaller (Some address) => Ok [address]
  | TContractCaller None => Ok []
  | TCustom (Some type_arguments) => Ok type_arguments
  | TCustom None => Ok []
  | TArray ty | TPtr ty | TSlice ty | TAlias _ ty | TRef ty => Ok [ty]
  end.

(** [TypeId::extract_any] with the filter that accepts every type; the result
    is the keys of the map of trait constraints.  [visit] is
    [TypeId::extract_any_including_self]. *)
Fixpoint extract_any (fuel : nat) (engines : Engines) (self : TypeId) (depth : nat)
    : Result (list TypeId) :=
  if EXTRACT_ANY_MAX_DEPTH <=? depth then Err (Panic "Possible infinite recursion at extract_any")
  else
    match fuel with
    | 0 => Err OutOfFuel
    | S fuel' =>
        let visit ty depth :=
          found ← extract_any fuel' engines ty (depth + 1); Ok (insert_key found ty) in
        let extend_all := fix extend_all (skip_found : bool) (tys found : list TypeId) :=
          match tys with
          | [] => Ok found
          | ty :: tys' =>
              if skip_found && bool_decide (ty ∈ found) then extend_all skip_found tys' found
              else other ← visit ty (depth + 1); extend_all skip_found tys' (extend found other)
          end in
        info ← get (te engines) self;
        match info with
        | TUnknownGeneric _ trait_constraints => extend_all true (concat trait_constraints) [self]
        | _ => tys ← component_types engines info; extend_all false tys []
        end
    end.

(** [TypeId::extract_inner_types] without the type itself: a [BTreeSet] *)
Definition extract_inner_types (engines : Engines) (self : TypeId) : Result (list TypeId) :=
  found ← extract_any EXTRACT_ANY_MAX_DEPTH engines self 0;
  Ok (sort_by Nat.leb (remove_dups found)).

(** [TypeId::extract_nested_types] *)
Definition extract_nested_types (engines : Engines) (self : TypeId) : Result (list TypeInfo) :=
  inner ← extract_inner_types engines self;
  inner_types ← traverse (get (te engines)) inner;
  self_type ← get (te engines) self;
  Ok (inner_types ++ [self_type]).

(** [TypeInfo::has_valid_constructor] *)
Definition has_valid_constructor (engines : Engines) (self : TypeInfo) : Result bool :=
  match self with
  | TUnknown => Ok false
  | TNever => Ok false
  | TEnum decl_id =>
      decl ← get (de_enum engines) decl_id;
      Ok (negb (bool_decide (enum_variants decl = [])))
  | _ => Ok true
  end.

(** [TypeInfo::expect_enum], following a chain of at most [fuel] aliases *)
Fixpoint expect_enum (fuel : nat) (engines : Engines) (self : TypeInfo) : Result DeclId :=
  match self with
  | TEnum decl_id => Ok decl_id
  | TAlias _ ty =>
      match fuel with
      | 0 => Err OutOfFuel
      | S fuel' => info ← get (te engines) ty; expect_enum fuel' engines info
      end
  | TErrorRecovery => Err Recovered
  | _ => Err NotAnEnum
  end.

(** ** [ConstructorFactory] *)

Record ConstructorFactory : Type := mkFactory { possible_types : list TypeInfo }.

Definition ConstructorFactory_new (engines : Engines) (type_id : TypeId) : Result ConstructorFactory :=
  tys ← extract_nested_types engines type_id; Ok (mkFactory tys).

(** [Pattern::matches_type_info] *)
Definition Pattern_matches_type_info (engines : Engines) (p : Pattern) (info : TypeInfo) : Result bool :=
  match p, info with
  | Enum enum_name variant_name _, TEnum decl_id =>
      decl ← get (de_enum engines) decl_id;
      Ok (bool_decide (enum_name = enum_suffix decl)
          && existsb (fun v => bool_decide (v.1 = variant_name)) (enum_variants decl))
  | _, _ => Ok false
  end.

(** The loop of [ConstructorFactory::resolve_possible_types] *)
Fixpoint resolve_possible_types (engines : Engines) (tys : list TypeInfo) (p : Pattern)
    : Result TypeInfo :=
  match tys with
  | [] => Err (Internal "there is no type that matches this pattern")
  | possible_type :: tys' =>
      matches ← Pattern_matches_type_info engines p possible_type;
      if (matches : bool) then Ok possible_type else resolve_possible_types engines tys' p
  end.

(** The loop over the remaining patterns in [ConstructorFactory::resolve_enum] *)
Fixpoint track_variants (enum_name : string) (rest : PatStack) (variant_tracker : gset string)
    : Result (gset string) :=
  match rest with
  | [] => Ok variant_tracker
  | Enum enum_name2 variant_name2 _ :: rest' =>
      if bool_decide (enum_name2 = enum_name)
      then track_variants enum_name rest' ({[variant_name2]} ∪ variant_tracker)
      else Err (Internal "expected matching enum names")
  | _ :: _ => Err (Internal "expected all patterns to be of the same type")
  end.

(** [ConstructorFactory::resolve_enum] *)
Definition resolve_enum (enum_name : string) (variants : list (string * TypeId))
    (pat_enum_name pat_variant_name : string) (rest : PatStack)
    : Result (gset string * gset string) :=
  if bool_decide (pat_enum_name = enum_name) then
    variant_tracker ← track_variants enum_name rest {[pat_variant_name]};
    Ok (list_to_set (map fst variants), variant_tracker)
  else Err (Internal "expected matching enum names").

(** The declared variants and the variants of the column, for a column that
    starts with the given enum pattern. *)
Definition resolve_column_enum (engines : Engines) (factory : ConstructorFactory)
    (enum_name variant_name : string) (value : Pattern) (rest : PatStack)
    : Result (string * (gset string * gset string)) :=
  type_info ← resolve_possible_types engines (possible_types factory)
                (Enum enum_name variant_name value);
  decl_id ← expect_enum (size (te engines)) engines type_info;
  enum_decl ← get (de_enum engines) decl_id;
  variants ← resolve_enum (enum_suffix enum_decl) (enum_variants enum_decl)
               enum_name variant_name rest;
  Ok (enum_suffix enum_decl, variants).

Definition as_U8 (p : Pattern) : option (Range u8) := match p with U8 r => Some r | _ => None end.
Definition as_U16 (p : Pattern) : option (Range u16) := match p with U16 r => Some r | _ => None end.
Definition as_U32 (p : Pattern) : option (Range u32) := match p with U32 r => Some r | _ => None end.
Definition as_U64 (p : Pattern) : option (Range u64) := match p with U64 r => Some r | _ => None end.
Definition as_Numeric (p : Pattern) : option (Range u64) :=
  match p with Numeric r => Some r | _ => None end.

(** The loop that collects the ranges of a column of integer patterns of one type *)
Definition column_ranges {T} (as_range : Pattern -> option (Range T)) (range : Range T)
    (rest : PatStack) : Result (list (Range T)) :=
  ranges ← traverse (fun pat =>
    match as_range pat with
    | Some range => Ok range
    | None => Err (Internal "expected all patterns to be of the same type")
    end) rest;
  Ok (range :: ranges).

(** A column of integer patterns in [create_pattern_not_present] *)
Definition missing_ranges {T} (as_range : Pattern -> option (Range T)) (pat : Range T -> Pattern)
    (oracle range : Range T) (rest : PatStack) : Result Pattern :=
  ranges ← column_ranges as_range range rest;
  unincluded ← find_exclusionary_ranges ranges oracle;
  Pattern_from_pat_stack (map pat unincluded).

(** A column of integer patterns in [is_complete_signature] *)
Definition covers_ranges {T} (as_range : Pattern -> option (Range T)) (oracle range : Range T)
    (rest : PatStack) : Result bool :=
  ranges ← column_ranges as_range range rest;
  do_ranges_equal_range ranges oracle.

(** The boolean case of [create_pattern_not_present] *)
Definition missing_boolean (b : bool) (rest : PatStack) : Result Pattern :=
  let rest_true := PatStack_contains rest (Boolean true) in
  let rest_false := PatStack_contains rest (Boolean false) in
  let true_found := b || rest_true in
  let false_found := negb b || (negb rest_true && rest_false) in
  if true_found && false_found then Err (Internal "unable to create a new pattern")
  else if true_found then Ok (Boolean false)
  else Ok (Boolean true).

(** [ConstructorFactory::create_pattern_not_present].  The iteration order of
    the difference of the two hash sets is unspecified in Rust; the model uses
    the order of [elements].  Fuel is spent on or-patterns nested below the
    layer that [flatten] removes. *)
Fixpoint create_pattern_not_present_fuel (fuel : nat) (engines : Engines)
    (factory : ConstructorFactory) (sigma : PatStack) : Result Pattern :=
  first_rest ← PatStack_split_first (PatStack_filter_out_wildcards (PatStack_flatten sigma));
  let rest := first_rest.2 in
  match first_rest.1 with
  | U8 range => missing_ranges as_U8 U8 range_u8 range rest
  | U16 range => missing_ranges as_U16 U16 range_u16 range rest
  | U32 range => missing_ranges as_U32 U32 range_u32 range rest
  | U64 range => missing_ranges as_U64 U64 range_u64 range rest
  | Numeric range => missing_ranges as_Numeric Numeric range_u64 range rest
  | Str _ => Ok Wildcard
  | Wildcard => Ok Wildcard
  | B256 _ => Ok Wildcard
  | Boolean b => missing_boolean b rest
  | Struct struct_name fields => Ok (Struct struct_name (map (fun f => (f.1, Wildcard)) fields))
  | Enum enum_name variant_name value =>
      resolved ← resolve_column_enum engines factory enum_name variant_name value rest;
      let '(decl_name, (all_variants, variant_tracker)) := resolved in
      Pattern_from_pat_stack
        (map (fun x => Enum decl_name x Wildcard) (elements (all_variants ∖ variant_tracker)))
  | Tuple elems => Ok (Tuple (PatStack_fill_wildcards (length elems)))
  | Or elems =>
      match fuel with
      | 0 => Err OutOfFuel
      | S fuel' =>
          pat_stack ← traverse (fun pat => create_pattern_not_present_fuel fuel' engines factory [pat]) elems;
          Pattern_from_pat_stack pat_stack
      end
  end.

Definition create_pattern_not_present (engines : Engines) (factory : ConstructorFactory)
    (sigma : PatStack) : Result Pattern :=
  create_pattern_not_present_fuel (or_sizes sigma) engines factory sigma.

(** The boolean case of [is_complete_signature] *)
Fixpoint covers_booleans (true_found false_found : bool) (rest : PatStack) : Result bool :=
  match rest with
  | [] => Ok (true_found && false_found)
  | Boolean true :: rest' => covers_booleans true false_found rest'
  | Boolean false :: rest' => covers_booleans true_found true rest'
  | _ :: _ => Err (Internal "expected all patterns to be of the same type")
  end.

(** The tuple and struct cases: the loop with its early [return Ok(false)] *)
Fixpoint all_same_constructor (c : Pattern) (rest : PatStack) : Result bool :=
  match rest with
  | [] => Ok true
  | pat :: rest' =>
      same ← Pattern_has_the_same_constructor pat c;
      if (same : bool) then all_same_constructor c rest' else Ok false
  end.

(** [ConstructorFactory::is_complete_signature] *)
Fixpoint is_complete_signature_fuel (fuel : nat) (engines : Engines)
    (factory : ConstructorFactory) (pat_stack : PatStack) : Result bool :=
  serialized ← PatStack_serialize_multi_patterns pat_stack;
  let pat_stack := concat serialized in
  if PatStack_is_empty pat_stack then Ok false
  else if PatStack_contains pat_stack Wildcard then Ok true
  else
    first_rest ← PatStack_split_first pat_stack;
    let rest := first_rest.2 in
    match first_rest.1 with
    | Str _ => Ok false
    | B256 _ => Ok false
    | U8 range => covers_ranges as_U8 range_u8 range rest
    | U16 range => covers_ranges as_U16 range_u16 range rest
    | U32 range => covers_ranges as_U32 range_u32 range rest
    | U64 range => covers_ranges as_U64 range_u64 range rest
    | Numeric range => covers_ranges as_Numeric range_u64 range rest
    | Boolean b => covers_booleans b (negb b) rest
    | Enum enum_name variant_name value =>
        resolved ← resolve_column_enum engines factory enum_name variant_name value rest;
        let '(_, (all_variants, variant_tracker)) := resolved in
        Ok (bool_decide (elements (all_variants ∖ variant_tracker) = []))
    | Tuple elems => all_same_constructor (Tuple elems) rest
    | Struct struct_name fields => all_same_constructor (Struct struct_name fields) rest
    | Wildcard => Err (Internal "expected the wildcard pattern to be filtered out here")
    | Or elems =>
        match fuel with
        | 0 => Err OutOfFuel
        | S fuel' => is_complete_signature_fuel fuel' engines factory (elems ++ rest)
        end
    end.

(** No or-pattern is left after the serialization, so no fuel is needed. *)
Definition is_complete_signature (engines : Engines) (factory : ConstructorFactory)
    (pat_stack : PatStack) : Result bool :=
  is_complete_signature_fuel 0 engines factory pat_stack.
