(* ===== verification/MatchUsefulness.v ===== *)
(** * The usefulness algorithm

    Models [match_expression/analysis/usefulness.rs]: the algorithm [U(P, q)]
    that computes a witness report for a pattern stack [q] and a matrix [P] of
    the patterns before it, and the entry point that applies it to the arms of
    a match expression. *)

From S2P Require Import Prelude MatchRange MatchPattern MatchFactory.
Local Open Scope nat_scope.

(** The check of the shape of a computed matrix, shared by
    [compute_default_matrix] and [compute_specialized_matrix] *)
Definition check_shape (columns : nat) (msg : string) (rows : list PatStack) : Result Matrix :=
  m_n ← Matrix_m_n rows;
  if (0 <? m_n.1) && negb (m_n.2 =? columns) then Err (Internal msg) else Ok rows.

(** [compute_default_matrix_row] for the row [head :: rest]; the or-pattern
    case is the recursive call of [compute_default_matrix] on the matrix of
    the alternatives. *)
Fixpoint default_row (q_len : nat) (head : Pattern) (rest : PatStack) : Result (list PatStack) :=
  match head with
  | Wildcard => Ok [rest]
  | Or pats =>
      rows ← concat_traverse (fun pat => default_row q_len pat rest) pats;
      check_shape (q_len - 1) "D(P) matrix is misshapen" rows
  | _ => Ok []
  end.

Definition compute_default_matrix_row (p_i q : PatStack) : Result (list PatStack) :=
  head_rest ← PatStack_split_first p_i;
  default_row (length q) head_rest.1 head_rest.2.

Definition compute_default_matrix (p : Matrix) (q : PatStack) : Result Matrix :=
  rows ← concat_traverse (fun p_i => compute_default_matrix_row p_i q) p;
  check_shape (length q - 1) "D(P) matrix is misshapen" rows.

(** [compute_specialized_matrix_row] for the row [head :: rest] *)
Fixpoint specialized_row (q_len : nat) (c head : Pattern) (rest : PatStack) : Result (list PatStack) :=
  match head with
  | Wildcard => Ok [PatStack_fill_wildcards (Pattern_a c) ++ rest]
  | Or pats =>
      rows ← concat_traverse (fun pat => specialized_row q_len c pat rest) pats;
      check_shape (Pattern_a c + q_len - 1) "S(c,P) matrix is misshapen" rows
  | other =>
      same ← Pattern_has_the_same_constructor c other;
      if (same : bool) then sub ← Pattern_sub_patterns other; Ok [sub ++ rest] else Ok []
  end.

Definition compute_specialized_matrix_row (c : Pattern) (p_i q : PatStack) : Result (list PatStack) :=
  head_rest ← PatStack_split_first p_i;
  specialized_row (length q) c head_rest.1 head_rest.2.

Fixpoint compute_specialized_matrix (c : Pattern) (p : Matrix) (q : PatStack) : Result Matrix :=
  match c with
  | Or cpats => concat_traverse (fun cpat => compute_specialized_matrix cpat p q) cpats
  | _ =>
      rows ← concat_traverse (fun p_i => compute_specialized_matrix_row c p_i q) p;
      check_shape (Pattern_a c + length q - 1) "S(c,P) matrix is misshapen" rows
  end.

(** The matrix of the alternatives that the or-pattern cases build. *)
Lemma default_row_or pats rest q :
  default_row (length q) (Or pats) rest =
  compute_default_matrix (map (fun pat => pat :: rest) pats) q.
Proof.
  cbn. unfold compute_default_matrix. f_equal.
  induction pats as [|p pats IH]; cbn; [done|]. by rewrite IH.
Qed.

Lemma specialized_row_or c pats rest q :
  is_or c = false ->
  specialized_row (length q) c (Or pats) rest =
  compute_specialized_matrix c (map (fun pat => pat :: rest) pats) q.
Proof.
  intros Hc. transitivity
    (rows ← concat_traverse (fun p_i => compute_specialized_matrix_row c p_i q)
              (map (fun pat => pat :: rest) pats);
     check_shape (Pattern_a c + length q - 1) "S(c,P) matrix is misshapen" rows); [|by destruct c].
  cbn. f_equal. induction pats as [|p pats IH]; cbn; [done|]. by rewrite IH.
Qed.

(** ** [is_useful] *)

Section usefulness.
Context (engines : Engines) (factory : ConstructorFactory).

(** The recursive call of the algorithm. *)
Variable is_useful_rec : Matrix -> PatStack -> Result WitnessReport.

(** The loop over the rows of [S(c, q)] *)
Fixpoint join_useful (s_c_p : Matrix) (rows : list PatStack) (wr : WitnessReport)
    : Result WitnessReport :=
  match rows with
  | [] => Ok wr
  | s_c_q :: rows' =>
      new_wr ← is_useful_rec s_c_p s_c_q;
      join_useful s_c_p rows' (join_witness_reports wr new_wr)
  end.

(** The loop over the constructors of a complete signature (steps 3.1 to
    3.5): the aggregated witness report and the aggregated patterns *)
Fixpoint useful_constructors (p : Matrix) (q sigma : PatStack)
    (witness_report : WitnessReport) (pat_stack : PatStack)
    : Result (WitnessReport * PatStack) :=
  match sigma with
  | [] => Ok (witness_report, pat_stack)
  | c_k :: sigma' =>
      s_c_k_p ← compute_specialized_matrix c_k p q;
      s_c_k_q ← compute_specialized_matrix c_k [q] q;
      wr ← join_useful s_c_k_p s_c_k_q NoWitnesses;
      match wr with
      | NoWitnesses => useful_constructors p q sigma' witness_report pat_stack
      | Witnesses _ =>
          pat_wr ← split_into_leading_constructor wr c_k;
          let pat_stack' := if PatStack_contains pat_stack pat_wr.1 then pat_stack
                            else pat_stack ++ [pat_wr.1] in
          let witness_report' :=
            match witness_report with
            | NoWitnesses => pat_wr.2
            | _ => join_witness_reports witness_report pat_wr.2
            end in
          useful_constructors p q sigma' witness_report' pat_stack'
      end
  end.

Definition is_useful_wildcard (p : Matrix) (q : PatStack) : Result WitnessReport :=
  sigma ← Matrix_compute_sigma p;
  complete ← is_complete_signature engines factory sigma;
  if (complete : bool) then
    wr_pats ← useful_constructors p q sigma NoWitnesses [];
    match wr_pats.1 with
    | NoWitnesses => Ok NoWitnesses
    | Witnesses _ =>
        pat ← Pattern_from_pat_stack wr_pats.2;
        add_witness wr_pats.1 pat
    end
  else
    d_p ← compute_default_matrix p q;
    q_rest ← PatStack_split_first q;
    witness_report ← is_useful_rec d_p q_rest.2;
    witness_to_add ← (if PatStack_is_empty sigma then Ok Wildcard
                      else create_pattern_not_present engines factory sigma);
    match witness_report with
    | NoWitnesses => Ok NoWitnesses
    | _ => add_witness witness_report witness_to_add
    end.

Definition is_useful_constructed (p : Matrix) (q : PatStack) (c : Pattern) : Result WitnessReport :=
  s_c_p ← compute_specialized_matrix c p q;
  s_c_q ← compute_specialized_matrix c [q] q;
  join_useful s_c_p s_c_q NoWitnesses.

(** The loop of [is_useful_or] over the alternatives; [p] grows by the rows
    already examined. *)
Fixpoint useful_alternatives (p : Matrix) (q_rest pats : PatStack) (witness_report : WitnessReport)
    : Result WitnessReport :=
  match pats with
  | [] => Ok witness_report
  | pat :: pats' =>
      wr ← is_useful_rec p (pat :: q_rest);
      useful_alternatives (p ++ [pat :: q_rest]) q_rest pats' (join_witness_reports witness_report wr)
  end.

Definition is_useful_or (p : Matrix) (q pats : PatStack) : Result WitnessReport :=
  q_rest ← PatStack_split_first q;
  useful_alternatives p q_rest.2 pats NoWitnesses.
End usefulness.

Fixpoint is_useful (fuel : nat) (engines : Engines) (factory : ConstructorFactory)
    (p : Matrix) (q : PatStack) : Result WitnessReport :=
  m_n ← Matrix_m_n p;
  match m_n with
  | (0, 0) => Ok (Witnesses (PatStack_fill_wildcards (length q)))
  | (_, 0) => Ok NoWitnesses
  | (_, _) =>
      match fuel with
      | 0 => Err OutOfFuel
      | S fuel' =>
          c ← PatStack_first q;
          match c with
          | Wildcard => is_useful_wildcard engines factory (is_useful fuel' engines factory) p q
          | Or pats => is_useful_or (is_useful fuel' engines factory) p q pats
          | c => is_useful_constructed (is_useful fuel' engines factory) p q c
          end
      end
  end.

(** ** Fuel *)

(** Nesting depth of the constructors of a pattern, or-patterns not counted. *)
Fixpoint depth (p : Pattern) : nat :=
  match p with
  | Wildcard => 0
  | Struct _ fields => S (max_list_with (fun f => depth f.2) fields)
  | Enum _ _ value => S (depth value)
  | Tuple elems => S (max_list_with depth elems)
  | Or elems => max_list_with depth elems
  | _ => 1
  end.

(** The largest number of sub-patterns of a constructor in a pattern. *)
Fixpoint arity (p : Pattern) : nat :=
  match p with
  | Struct _ fields => length fields `max` max_list_with (fun f => arity f.2) fields
  | Enum _ _ value => 1 `max` arity value
  | Tuple elems => length elems `max` max_list_with arity elems
  | Or elems => max_list_with arity elems
  | _ => 0
  end.

(** The largest [or_size] of a sub-pattern. *)
Fixpoint or_width (p : Pattern) : nat :=
  match p with
  | Struct _ fields => max_list_with (fun f => or_width f.2) fields
  | Enum _ _ value => or_width value
  | Tuple elems => max_list_with or_width elems
  | Or elems => or_size p `max` max_list_with or_width elems
  | _ => 0
  end.

(** Enough fuel for [is_useful] on stacks of one pattern each, taken from [pats]. *)
Definition usefulness_fuel (pats : list Pattern) : nat :=
  let B := 2 * S (max_list_with arity pats) in
  let K := max_list_with or_width pats in
  (K + 2) * (2 * B ^ max_list_with depth pats) + K.

(** ** [check_match_expression_usefulness] *)

(** The loop over the arms: the matrix of the arms seen so far and, for every
    arm, whether it is reachable. *)
Fixpoint check_arms (fuel : nat) (engines : Engines) (factory : ConstructorFactory)
    (scrutinees : list TyScrutinee) (matrix : Matrix) (arms_reachability : list (bool * TyScrutinee))
    : Result (Matrix * list (bool * TyScrutinee)) :=
  match scrutinees with
  | [] => Ok (matrix, arms_reachability)
  | scrutinee :: scrutinees' =>
      pat ← Pattern_from_scrutinee scrutinee;
      let v := [pat] in
      witness_report ← is_useful fuel engines factory matrix v;
      check_arms fuel engines factory scrutinees' (matrix ++ [v])
        (arms_reachability ++ [(has_witnesses witness_report, scrutinee)])
  end.

(** The patterns of the arms, for the fuel only; an arm without a pattern makes
    [check_arms] fail. *)
Definition arm_patterns (scrutinees : list TyScrutinee) : list Pattern :=
  omap (fun s => match Pattern_from_scrutinee s with Ok p => Some p | Err _ => None end) scrutinees.

Definition check_match_expression_usefulness (engines : Engines) (type_id : TypeId)
    (scrutinees : list TyScrutinee) : Result (WitnessReport * list (bool * TyScrutinee)) :=
  info ← get (te engines) type_id;
  valid ← has_valid_constructor engines info;
  if negb valid && bool_decide (length scrutinees = 0) then Ok (NoWitnesses, [])
  else
    factory ← ConstructorFactory_new engines type_id;
    let fuel := usefulness_fuel (arm_patterns scrutinees) in
    matrix_reach ← check_arms fuel engines factory scrutinees [] [];
    witness_report ← is_useful fuel engines factory matrix_reach.1 [Wildcard];
    Ok (witness_report, matrix_reach.2).
