(* ===== verification/MatchSemantics.v ===== *)
(** * Values, typing and matching

    The specification side of the match analysis: the values of a Sway type,
    when a scrutinee and a pattern match a value, and the typing of values and
    patterns against the engines.  Matching a struct is by field name, as the
    code generated for a match arm does; the analysis compares fields by
    position. *)

From S2P Require Import Prelude MatchRange MatchPattern MatchFactory.
Local Open Scope nat_scope.

Inductive value : Type :=
  | VU8 (n : Z) | VU16 (n : Z) | VU32 (n : Z) | VU64 (n : Z) | VNumeric (n : Z)
  | VB256 (b : list Z) | VBool (b : bool) | VStr (s : string)
  | VStruct (name : string) (fields : list (string * value))
  | VEnum (name variant : string) (v : value)
  | VTuple (vs : list value).

(** The value of the field [f]. *)
Fixpoint field {A} (f : string) (fs : list (string * A)) : option A :=
  match fs with
  | [] => None
  | (g, v) :: fs' => if bool_decide (f = g) then Some v else field f fs'
  end.

Definition in_rangeb {T} (x : Z) (r : Range T) : bool := ((first r <=? x) && (x <=? last r))%Z.

(** Pointwise test of two lists of the same length. *)
Fixpoint forallb2 {A B} (f : A -> B -> bool) (l : list A) (k : list B) : bool :=
  match l, k with
  | [], [] => true
  | x :: l', y :: k' => f x y && forallb2 f l' k'
  | _, _ => false
  end.

(** When a pattern matches a value. *)
Fixpoint matches (p : Pattern) (v : value) {struct p} : bool :=
  match p, v with
  | Wildcard, _ => true
  | U8 r, VU8 n => in_rangeb n r
  | U16 r, VU16 n => in_rangeb n r
  | U32 r, VU32 n => in_rangeb n r
  | U64 r, VU64 n => in_rangeb n r
  | Numeric r, VNumeric n => in_rangeb n r
  | B256 b, VB256 b' => bool_decide (b = b')
  | Boolean b, VBool b' => bool_decide (b = b')
  | Str s, VStr s' => bool_decide (s = s')
  | Struct n fs, VStruct n' vfs =>
      bool_decide (n = n')
      && forallb (fun f => match field f.1 vfs with Some v => matches f.2 v | None => false end) fs
  | Enum n vr p, VEnum n' vr' v => bool_decide (n = n') && bool_decide (vr = vr') && matches p v
  | Tuple ps, VTuple vs => forallb2 matches ps vs
  | Or ps, _ => existsb (fun p => matches p v) ps
  | _, _ => false
  end.

(** A literal of a scrutinee against a value.  A [u256] literal is compared by
    its number; the analysis represents it as a 64-bit pattern. *)
Definition literal_matches (l : Literal) (v : value) : bool :=
  match l, v with
  | LitU8 x, VU8 n | LitU16 x, VU16 n | LitU32 x, VU32 n | LitU64 x, VU64 n
  | LitU256 x, VU64 n | LitNumeric x, VNumeric n => (x =? n)%Z
  | LitString s, VStr s' => bool_decide (s = s')
  | LitBoolean b, VBool b' => bool_decide (b = b')
  | LitB256 b, VB256 b' => bool_decide (b = b')
  | _, _ => false
  end.

(** When a scrutinee of the source program matches a value. *)
Fixpoint scrutinee_matches (s : TyScrutinee) (v : value) {struct s} : bool :=
  match s, v with
  | ScrOr es, _ => existsb (fun s => scrutinee_matches s v) es
  | ScrCatchAll, _ => true
  | ScrVariable _, _ => true
  | ScrLiteral l, _ => literal_matches l v
  | ScrConstant _ l, _ => literal_matches l v
  | StructScrutinee n fs, VStruct n' vfs =>
      bool_decide (n = n')
      && forallb (fun f => match field f.1 vfs with
                           | Some v => match f.2 with
                                       | Some s => scrutinee_matches s v
                                       | None => true
                                       end
                           | None => false end) fs
  | EnumScrutinee n vr s, VEnum n' vr' v =>
      bool_decide (n = n') && bool_decide (vr = vr') && scrutinee_matches s v
  | ScrTuple ss, VTuple vs => forallb2 scrutinee_matches ss vs
  | _, _ => false
  end.

(** ** Typing *)

Section typing.
Context (E : Engines).

(** The values of a type. *)
Inductive has_type : TypeId -> value -> Prop :=
  | ty_u8 t n : te E !! t = Some (TUnsignedInteger Eight) ->
      (0 <= n <= 255)%Z -> has_type t (VU8 n)
  | ty_u16 t n : te E !! t = Some (TUnsignedInteger Sixteen) ->
      (0 <= n <= 65535)%Z -> has_type t (VU16 n)
  | ty_u32 t n : te E !! t = Some (TUnsignedInteger ThirtyTwo) ->
      (0 <= n <= 4294967295)%Z -> has_type t (VU32 n)
  | ty_u64 t n : te E !! t = Some (TUnsignedInteger SixtyFour) ->
      (0 <= n <= 18446744073709551615)%Z -> has_type t (VU64 n)
  | ty_numeric t n : te E !! t = Some TNumeric ->
      (0 <= n <= 18446744073709551615)%Z -> has_type t (VNumeric n)
  | ty_b256 t b : te E !! t = Some TB256 -> has_type t (VB256 b)
  | ty_bool t b : te E !! t = Some TBoolean -> has_type t (VBool b)
  | ty_str t s : te E !! t = Some TStringSlice -> has_type t (VStr s)
  | ty_struct t d decl vfs : te E !! t = Some (TStruct d) -> de_struct E !! d = Some decl ->
      map fst vfs = map fst (struct_fields decl) ->
      has_types (map snd (struct_fields decl)) (map snd vfs) ->
      has_type t (VStruct (struct_suffix decl) vfs)
  | ty_enum t d decl vr tv v : te E !! t = Some (TEnum d) -> de_enum E !! d = Some decl ->
      (vr, tv) ∈ enum_variants decl -> has_type tv v ->
      has_type t (VEnum (enum_suffix decl) vr v)
  | ty_tuple t ts vs : te E !! t = Some (TTuple ts) -> has_types ts vs -> has_type t (VTuple vs)
with has_types : list TypeId -> list value -> Prop :=
  | tys_nil : has_types [] []
  | tys_cons t ts v vs : has_type t v -> has_types ts vs -> has_types (t :: ts) (v :: vs).

(** The patterns of the arms of a well-typed match over a type: integer
    ranges are single values, and a struct pattern lists every field, in the
    order of the declaration.  Or-patterns are not included. *)
Inductive pat_type : TypeId -> Pattern -> Prop :=
  | pt_wild t : pat_type t Wildcard
  | pt_u8 t n : te E !! t = Some (TUnsignedInteger Eight) ->
      (0 <= n <= 255)%Z -> pat_type t (U8 (from_single n))
  | pt_u16 t n : te E !! t = Some (TUnsignedInteger Sixteen) ->
      (0 <= n <= 65535)%Z -> pat_type t (U16 (from_single n))
  | pt_u32 t n : te E !! t = Some (TUnsignedInteger ThirtyTwo) ->
      (0 <= n <= 4294967295)%Z -> pat_type t (U32 (from_single n))
  | pt_u64 t n : te E !! t = Some (TUnsignedInteger SixtyFour) ->
      (0 <= n <= 18446744073709551615)%Z -> pat_type t (U64 (from_single n))
  | pt_numeric t n : te E !! t = Some TNumeric ->
      (0 <= n <= 18446744073709551615)%Z -> pat_type t (Numeric (from_single n))
  | pt_b256 t b : te E !! t = Some TB256 -> pat_type t (B256 b)
  | pt_bool t b : te E !! t = Some TBoolean -> pat_type t (Boolean b)
  | pt_str t s : te E !! t = Some TStringSlice -> pat_type t (Str s)
  | pt_struct t d decl fs : te E !! t = Some (TStruct d) -> de_struct E !! d = Some decl ->
      map fst fs = map fst (struct_fields decl) ->
      pat_types (map snd (struct_fields decl)) (map snd fs) ->
      pat_type t (Struct (struct_suffix decl) fs)
  | pt_enum t d decl vr tv p : te E !! t = Some (TEnum d) -> de_enum E !! d = Some decl ->
      (vr, tv) ∈ enum_variants decl -> pat_type tv p ->
      pat_type t (Enum (enum_suffix decl) vr p)
  | pt_tuple t ts ps : te E !! t = Some (TTuple ts) -> pat_types ts ps -> pat_type t (Tuple ps)
with pat_types : list TypeId -> list Pattern -> Prop :=
  | pts_nil : pat_types [] []
  | pts_cons t ts p ps : pat_type t p -> pat_types ts ps -> pat_types (t :: ts) (p :: ps).

(** The types met while descending from [root] into the arguments of its
    constructors. *)
Inductive nested (root : TypeId) : TypeId -> Prop :=
  | nested_refl : nested root root
  | nested_struct t d decl u : nested root t -> te E !! t = Some (TStruct d) ->
      de_struct E !! d = Some decl -> u ∈ map snd (struct_fields decl) -> nested root u
  | nested_enum t d decl u : nested root t -> te E !! t = Some (TEnum d) ->
      de_enum E !! d = Some decl -> u ∈ map snd (enum_variants decl) -> nested root u
  | nested_tuple t ts u : nested root t -> te E !! t = Some (TTuple ts) -> u ∈ ts -> nested root u.

(** Types refer to declarations that exist, and declarations have distinct
    variants and distinct fields. *)
Record wf_engines : Prop := {
  wf_enum_decl t d : te E !! t = Some (TEnum d) -> is_Some (de_enum E !! d);
  wf_variants d decl : de_enum E !! d = Some decl -> NoDup (map fst (enum_variants decl));
  wf_fields d decl : de_struct E !! d = Some decl -> NoDup (map fst (struct_fields decl))
}.

(** The name of an enum determines its declaration among the types the match
    can meet. *)
Definition distinct_enum_names (tys : list TypeInfo) : Prop :=
  forall d d' decl decl', TEnum d ∈ tys -> TEnum d' ∈ tys ->
    de_enum E !! d = Some decl -> de_enum E !! d' = Some decl' ->
    enum_suffix decl = enum_suffix decl' -> decl = decl'.
End typing.

(** The sub-patterns of the constructor of a pattern. *)
Definition sub_pats (p : Pattern) : list Pattern :=
  match p with
  | Struct _ fs => map snd fs
  | Enum _ _ p => [p]
  | Tuple ps => ps
  | _ => []
  end.

(** The arguments of a value that is built with the root constructor of [c]. *)
Definition root_args (c : Pattern) (v : value) : option (list value) :=
  match c, v with
  | U8 r, VU8 n => if in_rangeb n r then Some [] else None
  | U16 r, VU16 n => if in_rangeb n r then Some [] else None
  | U32 r, VU32 n => if in_rangeb n r then Some [] else None
  | U64 r, VU64 n => if in_rangeb n r then Some [] else None
  | Numeric r, VNumeric n => if in_rangeb n r then Some [] else None
  | B256 b, VB256 b' => if bool_decide (b = b') then Some [] else None
  | Boolean b, VBool b' => if bool_decide (b = b') then Some [] else None
  | Str s, VStr s' => if bool_decide (s = s') then Some [] else None
  | Struct n fs, VStruct n' vfs =>
      if bool_decide (n = n') && (length fs =? length vfs) then Some (map snd vfs) else None
  | Enum n vr _, VEnum n' vr' v =>
      if bool_decide (n = n') && bool_decide (vr = vr') then Some [v] else None
  | Tuple ps, VTuple vs => if length ps =? length vs then Some vs else None
  | _, _ => None
  end.

(** The types of the arguments of the root constructor of [c] at the type [t]. *)
Inductive ctor_types (E : Engines) (t : TypeId) : Pattern -> list TypeId -> Prop :=
  | ct_wild : ctor_types E t Wildcard []
  | ct_u8 r : ctor_types E t (U8 r) []
  | ct_u16 r : ctor_types E t (U16 r) []
  | ct_u32 r : ctor_types E t (U32 r) []
  | ct_u64 r : ctor_types E t (U64 r) []
  | ct_numeric r : ctor_types E t (Numeric r) []
  | ct_b256 b : ctor_types E t (B256 b) []
  | ct_bool b : ctor_types E t (Boolean b) []
  | ct_str s : ctor_types E t (Str s) []
  | ct_struct d decl fs : te E !! t = Some (TStruct d) -> de_struct E !! d = Some decl ->
      ctor_types E t (Struct (struct_suffix decl) fs) (map snd (struct_fields decl))
  | ct_enum d decl vr tv p : te E !! t = Some (TEnum d) -> de_enum E !! d = Some decl ->
      (vr, tv) ∈ enum_variants decl -> ctor_types E t (Enum (enum_suffix decl) vr p) [tv]
  | ct_tuple ts ps : te E !! t = Some (TTuple ts) -> ctor_types E t (Tuple ps) ts.

Scheme has_type_mut := Minimality for has_type Sort Prop
  with has_types_mut := Minimality for has_types Sort Prop.
Scheme pat_type_mut := Minimality for pat_type Sort Prop
  with pat_types_mut := Minimality for pat_types Sort Prop.
