(* ===== verification/MatchTheory.v ===== *)
(** * Lemmas on typed patterns, signatures and matrices

    Everything the correctness proofs of the match analysis share: matching
    through the root constructor of a pattern, completeness of a signature,
    the rows of the default and of the specialized matrix. *)

From S2P Require Import Prelude MatchRange MatchPattern MatchFactory MatchUsefulness MatchSemantics.
Local Open Scope nat_scope.

Section typed.
Context (E : Engines) (HE : wf_engines E).
Implicit Types (t : TypeId) (ts : list TypeId) (p c : Pattern) (v : value) (vs : list value).

Lemma has_types_Forall2 ts vs : has_types E ts vs <-> Forall2 (has_type E) ts vs.
Proof.
  split; intros H.
  - revert vs H. induction ts as [|t ts IH]; intros vs H; inversion H; subst; constructor; auto.
  - induction H; by constructor.
Qed.

Lemma pat_types_Forall2 ts (ps : list Pattern) : pat_types E ts ps <-> Forall2 (pat_type E) ts ps.
Proof.
  split; intros H.
  - revert ps H. induction ts as [|t ts IH]; intros ps H; inversion H; subst; constructor; auto.
  - induction H; by constructor.
Qed.

Lemma pat_types_app ts1 ts2 (ps1 ps2 : list Pattern) :
  pat_types E ts1 ps1 -> pat_types E ts2 ps2 -> pat_types E (ts1 ++ ts2) (ps1 ++ ps2).
Proof. rewrite !pat_types_Forall2. apply Forall2_app. Qed.

Lemma has_types_app ts1 ts2 vs1 vs2 :
  has_types E ts1 vs1 -> has_types E ts2 vs2 -> has_types E (ts1 ++ ts2) (vs1 ++ vs2).
Proof. rewrite !has_types_Forall2. apply Forall2_app. Qed.

Lemma pat_types_wildcards ts : pat_types E ts (PatStack_fill_wildcards (length ts)).
Proof. induction ts; cbn; constructor; [constructor|done]. Qed.

Lemma pat_types_length ts (ps : list Pattern) : pat_types E ts ps -> length ps = length ts.
Proof. rewrite pat_types_Forall2. intros H%Forall2_length. done. Qed.

Lemma pat_type_not_or t p : pat_type E t p -> is_or p = false.
Proof. by destruct 1. Qed.

(** ** Decomposing a match at the root *)

Lemma forallb2_Forall2 {A B} (f : A -> B -> bool) l k :
  forallb2 f l k = true <-> Forall2 (fun x y => f x y = true) l k.
Proof.
  revert k. induction l as [|x l IH]; intros [|y k]; cbn; try (split; [done|by inversion 1]).
  rewrite andb_true_iff, IH, Forall2_cons. done.
Qed.

Lemma field_lookup {A} (fs : list (string * A)) f a :
  NoDup (map fst fs) -> (f, a) ∈ fs -> field f fs = Some a.
Proof.
  induction fs as [|[g b] fs IH]; intros Hnd Hin; [by apply elem_of_nil in Hin|].
  cbn in Hnd. apply NoDup_cons in Hnd as [Hg Hnd]. cbn. case_bool_decide as Hfg.
  - subst g. apply elem_of_cons in Hin as [[= ->]|Hin]; [done|].
    exfalso. apply Hg. apply list_elem_of_fmap. by exists (f, a).
  - apply elem_of_cons in Hin as [[= -> ->]|Hin]; [done|]. by apply IH.
Qed.

(** Matching the fields of a struct by name is matching them by position
    when both list the fields in the same order. *)
Lemma match_fields (fs : list (string * Pattern)) (vfs : list (string * value)) :
  NoDup (map fst vfs) -> map fst fs = map fst vfs ->
  forallb (fun f => match field f.1 vfs with Some v => matches f.2 v | None => false end) fs = true
  <-> Forall2 (fun p v => matches p v = true) (map snd fs) (map snd vfs).
Proof.
  intros Hnd Heq.
  assert (forall f a, (f, a) ∈ vfs -> field f vfs = Some a) as Hf by (intros; by apply field_lookup).
  revert Hf. generalize vfs at 2 3. clear Hnd. intros all Hf.
  revert vfs Heq Hf. induction fs as [|[f p] fs IH]; intros [|[g v] vfs] Heq Hf; try done; cbn in *.
  injection Heq as -> Heq. rewrite (Hf g v) by left.
    rewrite andb_true_iff, Forall2_cons, IH; [done..|]. intros. apply Hf. by right.
Qed.

Lemma has_types_length ts vs : has_types E ts vs -> length vs = length ts.
Proof. rewrite has_types_Forall2. intros H%Forall2_length. done. Qed.

(** A constructed pattern matches a value of its type iff the value is built
    with its root constructor and the sub-patterns match the arguments. *)
Lemma matches_root t p v :
  pat_type E t p -> has_type E t v -> is_wildcard p = false ->
  matches p v = true <->
  exists args, root_args p v = Some args /\
    Forall2 (fun p v => matches p v = true) (sub_pats p) args.
Proof.
  intros Hp Hv Hw. destruct Hp; try done; inversion Hv; simplify_eq; cbn;
    try (case_match; split; [by eexists|done|done|by intros (? & [=] & _)]).
  - match goal with H : de_struct _ !! _ = _ |- _ => pose proof (wf_fields E HE _ _ H) as Hnd end.
    assert (length fs = length vfs) as Hlen.
    { rewrite <- (length_map fst fs), <- (length_map fst vfs). congruence. }
    rewrite bool_decide_eq_true_2 by done. rewrite Hlen, Nat.eqb_refl. cbn.
    rewrite match_fields by congruence. naive_solver.
  - rewrite bool_decide_eq_true_2 by done. cbn. case_bool_decide; cbn.
    + split; [intros ?; eexists; split; [done|]; by repeat constructor|].
      intros (? & [= <-] & Hf). by inversion Hf.
    + split; [done|]. by intros (? & ? & _).
  - rewrite forallb2_Forall2.
    match goal with H : pat_types _ _ _, H' : has_types _ _ _ |- _ =>
      apply pat_types_length in H as ->; apply has_types_length in H' as -> end.
    rewrite Nat.eqb_refl. naive_solver.
Qed.

Lemma pat_type_ctor t p :
  pat_type E t p ->
  exists ts, ctor_types E t p ts /\ pat_types E ts (sub_pats p) /\ length ts = Pattern_a p.
Proof.
  intros Hp. destruct Hp; try (exists []; split_and!; [constructor..|done]).
  - exists (map snd (struct_fields decl)). split_and!; [by econstructor|done|].
    match goal with H : map fst _ = map fst _ |- _ => apply (f_equal length) in H end.
    rewrite !length_map in *. done.
  - exists [tv]. split_and!; [by econstructor|by repeat constructor|done].
  - exists ts. split_and!; [by constructor|done|]. cbn. symmetry. by apply pat_types_length.
Qed.

Lemma root_args_types t c ts v args :
  ctor_types E t c ts -> has_type E t v -> root_args c v = Some args -> has_types E ts args.
Proof.
  intros Hc Hv Hr. revert Hr. destruct Hc; inversion Hv; simplify_eq; cbn; intros Hr; try done;
    try (case_match; simplify_eq; solve [constructor]).
  - case_match; by simplify_eq.
  - case_match eqn:Hb; [|done]. apply andb_true_iff in Hb as [_ Hb%bool_decide_eq_true].
    simplify_eq. assert (tv = tv0) as ->; [|by repeat constructor].
    match goal with H : de_enum _ !! _ = _ |- _ => pose proof (wf_variants E HE _ _ H) as Hnd end.
    repeat match goal with H : (_, _) ∈ enum_variants _ |- _ =>
      apply (field_lookup _ _ _ Hnd) in H end.
    congruence.
  - case_match; by simplify_eq.
Qed.

(** ** Patterns with the same constructor *)

Lemma same_constructor_root_args c p v :
  is_wildcard c = false -> Pattern_has_the_same_constructor c p = Ok true ->
  root_args p v = root_args c v /\ Pattern_a p = Pattern_a c.
Proof.
  intros Hc H. destruct c, p; cbn in H; inv_ok; try done;
    repeat match goal with
    | H : bool_decide _ = true |- _ => apply bool_decide_eq_true in H; subst
    | H : _ && _ = true |- _ => apply andb_true_iff in H as [? ?]
    | H : (_ =? _) = true |- _ => apply Nat.eqb_eq in H
    end; subst; split; try done; destruct v; cbn;
    repeat match goal with H : length _ = length _ |- _ => rewrite H; clear H end; done.
Qed.

Lemma same_constructor_types t c p ts :
  ctor_types E t c ts -> pat_type E t p -> is_wildcard c = false ->
  Pattern_has_the_same_constructor c p = Ok true -> pat_types E ts (sub_pats p).
Proof.
  intros Hc Hp Hw H. revert H. destruct Hc, Hp; cbn; intros H'; inv_ok; try done;
    try solve [constructor]; simplify_eq; try done.
  apply andb_true_iff in H' as [_ Hb%bool_decide_eq_true]. subst.
  match goal with H : de_enum _ !! _ = _ |- _ => pose proof (wf_variants E HE _ _ H) as Hnd end.
  repeat match goal with H : (_, _) ∈ enum_variants _ |- _ =>
    apply (field_lookup _ _ _ Hnd) in H end.
  constructor; [congruence|constructor].
Qed.

Lemma root_root_args p v :
  is_or p = false -> root_args (Pattern_into_root_constructor p) v = root_args p v.
Proof.
  intros Hp. destruct p, v; try done; cbn.
  - by rewrite length_map.
  - unfold PatStack_fill_wildcards. by rewrite length_replicate.
Qed.

Lemma root_pat_type t p : pat_type E t p -> pat_type E t (Pattern_into_root_constructor p).
Proof.
  intros Hp. destruct Hp; cbn; try (econstructor; done).
  - eapply pt_struct; [done..| |].
    + rewrite map_map. cbn. done.
    + rewrite map_map. cbn. match goal with H : map fst _ = map fst _ |- _ =>
        apply (f_equal length) in H; rewrite !length_map in H end.
      replace (map (fun _ : string * Pattern => Wildcard) fs)
        with (PatStack_fill_wildcards (length (map snd (struct_fields decl)))).
      { apply pat_types_wildcards. }
      rewrite length_map. match goal with H : length _ = length _ |- _ => rewrite <- H end.
      clear. unfold PatStack_fill_wildcards.
      induction fs as [|f fs IH]; cbn; [done|by rewrite IH].
  - eapply pt_enum; [done..|constructor].
  - eapply pt_tuple; [done|]. match goal with H : pat_types _ _ _ |- _ =>
      apply pat_types_length in H as -> end. apply pat_types_wildcards.
Qed.

Lemma sub_patterns_Ok p : is_or p = false -> Pattern_sub_patterns p = Ok (sub_pats p).
Proof.
  intros Hp. unfold Pattern_sub_patterns.
  replace (match p with Struct _ fields => map snd fields | Enum _ _ value => [value]
           | Tuple elems => elems | _ => [] end) with (sub_pats p) by done.
  replace (Pattern_a p =? length (sub_pats p)) with true; [done|].
  symmetry. apply Nat.eqb_eq. destruct p; try done. cbn. by rewrite length_map.
Qed.

Lemma same_constructor_is_Ok c p :
  is_or c = false -> is_Ok (Pattern_has_the_same_constructor c p).
Proof. intros Hc. destruct c, p; try done; by eexists. Qed.

(** ** The rows of the matrices *)

Definition typed_matrix (ts : list TypeId) (P : Matrix) : Prop := Forall (pat_types E ts) P.

Lemma specialized_row_constructed n c p rest :
  is_or p = false -> is_wildcard p = false ->
  specialized_row n c p rest =
    (same ← Pattern_has_the_same_constructor c p;
     Ok (if (same : bool) then [sub_pats p ++ rest] else [])).
Proof.
  intros Ho Hw. transitivity
    (same ← Pattern_has_the_same_constructor c p;
     if (same : bool) then sub ← Pattern_sub_patterns p; Ok [sub ++ rest] else Ok []);
    [by destruct p|].
  rewrite sub_patterns_Ok by done.
  destruct (Pattern_has_the_same_constructor c p) as [[]|]; done.
Qed.

Lemma check_shape_Ok n msg rows rows' : check_shape n msg rows = Ok rows' -> rows' = rows.
Proof. unfold check_shape. intros H. inv_ok. case_match; by inv_ok. Qed.

Lemma specialized_unfold c P q :
  is_or c = false ->
  compute_specialized_matrix c P q =
    (rows ← concat_traverse (fun p_i => compute_specialized_matrix_row c p_i q) P;
     check_shape (Pattern_a c + length q - 1) "S(c,P) matrix is misshapen" rows).
Proof. by destruct c. Qed.

(** The rows of [S(c, P)]. *)
Lemma specialized_rows_unchecked c P q rows t ts :
  typed_matrix (t :: ts) P ->
  concat_traverse (fun p_i => compute_specialized_matrix_row c p_i q) P = Ok rows ->
  forall r, r ∈ rows <-> exists p rest, (p :: rest) ∈ P /\
    ((p = Wildcard /\ r = PatStack_fill_wildcards (Pattern_a c) ++ rest) \/
     (is_wildcard p = false /\ Pattern_has_the_same_constructor c p = Ok true /\
      r = sub_pats p ++ rest)).
Proof.
  intros HP Hrows r. rewrite (concat_traverse_elem _ _ _ r Hrows). unfold typed_matrix in HP.
  rewrite Forall_forall in HP. split.
  - intros (row & ys & Hin & Hys & Hr). specialize (HP row Hin).
    inversion HP as [|? ? p rest Hp Hrest]; subst. exists p, rest. split; [done|].
    apply pat_type_not_or in Hp. unfold compute_specialized_matrix_row in Hys.
    cbn [PatStack_split_first mbind Result_bind fst snd] in Hys.
    destruct (is_wildcard p) eqn:Hw.
    + left. destruct p; try done. cbn in Hys. inv_ok. by apply list_elem_of_singleton in Hr.
    + right. rewrite specialized_row_constructed in Hys by done. inv_ok.
      destruct r0; [|by apply elem_of_nil in Hr]. by apply list_elem_of_singleton in Hr.
  - intros (p & rest & Hin & Hcase). specialize (HP _ Hin).
    inversion HP as [|? ? ? ? Hp Hrest]; subst. apply pat_type_not_or in Hp.
    destruct Hcase as [[-> ->]|(Hw & Hsame & ->)].
    + exists (Wildcard :: rest). eexists. split_and!; [done|done|left].
    + exists (p :: rest), [sub_pats p ++ rest]. split_and!; [done| |left].
      unfold compute_specialized_matrix_row. cbn [PatStack_split_first mbind Result_bind fst snd].
      rewrite specialized_row_constructed by done. by rewrite Hsame.
Qed.

Lemma specialized_rows c P q rows t ts :
  is_or c = false -> typed_matrix (t :: ts) P ->
  compute_specialized_matrix c P q = Ok rows ->
  forall r, r ∈ rows <-> exists p rest, (p :: rest) ∈ P /\
    ((p = Wildcard /\ r = PatStack_fill_wildcards (Pattern_a c) ++ rest) \/
     (is_wildcard p = false /\ Pattern_has_the_same_constructor c p = Ok true /\
      r = sub_pats p ++ rest)).
Proof.
  intros Hc HP H. rewrite specialized_unfold in H by done. inv_ok.
  apply check_shape_Ok in H as ->. by eapply specialized_rows_unchecked.
Qed.

(** The rows of [D(P)]. *)
Lemma default_rows_unchecked P q rows t ts :
  typed_matrix (t :: ts) P ->
  concat_traverse (fun p_i => compute_default_matrix_row p_i q) P = Ok rows ->
  forall r, r ∈ rows <-> (Wildcard :: r) ∈ P.
Proof.
  intros HP Hrows r. rewrite (concat_traverse_elem _ _ _ r Hrows). unfold typed_matrix in HP.
  rewrite Forall_forall in HP. split.
  - intros (row & ys & Hin & Hys & Hr). specialize (HP row Hin).
    inversion HP as [|? ? p rest Hp Hrest]; subst. apply pat_type_not_or in Hp. cbn in Hys.
    destruct p; try done; cbn in Hys; inv_ok; try (by apply elem_of_nil in Hr).
    apply list_elem_of_singleton in Hr. by subst.
  - intros Hin. exists (Wildcard :: r), [r]. split_and!; [done|done|left].
Qed.

Lemma default_rows P q rows t ts :
  typed_matrix (t :: ts) P -> compute_default_matrix P q = Ok rows ->
  forall r, r ∈ rows <-> (Wildcard :: r) ∈ P.
Proof.
  intros HP H. unfold compute_default_matrix in H. inv_ok.
  apply check_shape_Ok in H as ->. by eapply default_rows_unchecked.
Qed.

Lemma specialized_typed_unchecked c P q rows t ts ts' :
  typed_matrix (t :: ts) P -> pat_type E t c -> ctor_types E t c ts' -> length ts' = Pattern_a c ->
  concat_traverse (fun p_i => compute_specialized_matrix_row c p_i q) P = Ok rows ->
  typed_matrix (ts' ++ ts) rows.
Proof.
  intros HP Hc Hct Hlen H. apply Forall_forall. intros r Hr.
  apply (specialized_rows_unchecked c P q rows t ts) in Hr as (p & rest & Hin & Hcase); [|done..].
  unfold typed_matrix in HP. rewrite Forall_forall in HP. specialize (HP _ Hin).
  inversion HP as [|? ? ? ? Hp Hrest]; subst.
  destruct Hcase as [[-> ->]|(Hw & Hsame & ->)].
  - apply pat_types_app; [|done]. rewrite <- Hlen. apply pat_types_wildcards.
  - apply pat_types_app; [|done]. eapply same_constructor_types; [done..| |done].
    destruct c; try done. by destruct p.
Qed.

Lemma specialized_typed c P q rows t ts ts' :
  typed_matrix (t :: ts) P -> pat_type E t c -> ctor_types E t c ts' -> length ts' = Pattern_a c ->
  compute_specialized_matrix c P q = Ok rows -> typed_matrix (ts' ++ ts) rows.
Proof.
  intros HP Hc Hct Hlen H. rewrite specialized_unfold in H by (by eapply pat_type_not_or). inv_ok.
  apply check_shape_Ok in H as ->. by eapply specialized_typed_unchecked.
Qed.

Lemma default_typed_unchecked P q rows t ts :
  typed_matrix (t :: ts) P ->
  concat_traverse (fun p_i => compute_default_matrix_row p_i q) P = Ok rows -> typed_matrix ts rows.
Proof.
  intros HP H. apply Forall_forall. intros r Hr.
  apply (default_rows_unchecked P q rows t ts HP H) in Hr.
  unfold typed_matrix in HP. rewrite Forall_forall in HP. specialize (HP _ Hr).
  by inversion HP.
Qed.

Lemma default_typed P q rows t ts :
  typed_matrix (t :: ts) P -> compute_default_matrix P q = Ok rows -> typed_matrix ts rows.
Proof.
  intros HP H. unfold compute_default_matrix in H. inv_ok.
  apply check_shape_Ok in H as ->. by eapply default_typed_unchecked.
Qed.

(** ** The first column *)

Lemma PatStack_contains_spec s p : PatStack_contains s p = true <-> p ∈ s.
Proof.
  unfold PatStack_contains. rewrite existsb_exists. split.
  - intros (q & Hq & Heq%pattern_eqb_spec). subst. by apply list_elem_of_In.
  - intros Hp. exists p. split; [by apply list_elem_of_In|by apply pattern_eqb_spec].
Qed.

Lemma remove_duplicates_elem s p : p ∈ PatStack_remove_duplicates s <-> p ∈ s.
Proof.
  unfold PatStack_remove_duplicates.
  assert (forall acc, p ∈ foldl (fun new_pats pat =>
     if PatStack_contains new_pats pat then new_pats else new_pats ++ [pat]) acc s
     <-> p ∈ acc \/ p ∈ s) as Hgo.
  { induction s as [|q s IH]; intros acc; cbn.
    - split; [by left|intros [?|?%elem_of_nil]; done].
    - rewrite IH, elem_of_cons. destruct (PatStack_contains acc q) eqn:Hq.
      + apply PatStack_contains_spec in Hq. split; [tauto|]. intros [?|[->|?]]; tauto.
      + rewrite elem_of_app, list_elem_of_singleton. tauto. }
  rewrite Hgo. split; [intros [?%elem_of_nil|?]; done|by right].
Qed.

Lemma compute_sigma_elem P sigma c :
  Matrix_compute_sigma P = Ok sigma ->
  c ∈ sigma <-> exists p rest, (p :: rest) ∈ P /\ c = Pattern_into_root_constructor p.
Proof.
  intros H. unfold Matrix_compute_sigma in H. inv_ok. rewrite remove_duplicates_elem.
  apply traverse_Ok in Hok. split.
  - intros [i Hi]%list_elem_of_lookup.
    destruct (Forall2_lookup_r _ _ _ _ _ Hok Hi) as ([|p rest] & Hrow & Hc); [done|].
    cbn in Hc. inv_ok. exists p, rest. split; [|done]. apply list_elem_of_lookup. eauto.
  - intros (p & rest & [i Hi]%list_elem_of_lookup & ->).
    destruct (Forall2_lookup_l _ _ _ _ _ Hok Hi) as (c & Hc & Heq).
    cbn in Heq. inv_ok. apply list_elem_of_lookup. eauto.
Qed.

Lemma sigma_typed P sigma t ts c :
  typed_matrix (t :: ts) P -> Matrix_compute_sigma P = Ok sigma -> c ∈ sigma -> pat_type E t c.
Proof.
  intros HP Hs Hc. apply (compute_sigma_elem P sigma c Hs) in Hc as (p & rest & Hin & ->).
  unfold typed_matrix in HP. rewrite Forall_forall in HP. specialize (HP _ Hin).
  inversion HP; subst. by apply root_pat_type.
Qed.

Lemma serialize_plain s :
  PatStack_contains_or_pattern s = false -> PatStack_serialize_multi_patterns s = Ok [s].
Proof.
  intros Hs. unfold PatStack_serialize_multi_patterns.
  pose proof (serialize_steps_pos (or_sizes s) s) as Hpos.
  destruct (serialize_steps (or_sizes s) s) as [|n]; [lia|]. cbn. rewrite Hs. by destruct n.
Qed.
End typed.

#[export] Hint Resolve pat_type_not_or pat_types_length has_types_length : sway.
