(* ===== verification/MatchSignature.v ===== *)
(** * Complete signatures

    What the constructor factory promises to the usefulness algorithm, as the
    class [SignatureOracle], and the proof that the factory built for the type
    of the matched value keeps the promise. *)

From S2P Require Import Prelude MatchRange MatchPattern MatchFactory MatchUsefulness MatchSemantics MatchTheory.
Local Open Scope nat_scope.

(** For every type met below the type [root] of the matched value, and every
    column of patterns of this type:
    - a signature reported complete covers every value of the type, unless the
      column has a wildcard;
    - the completeness test does not fail;
    - a pattern outside of an incomplete signature can be created. *)
Class SignatureOracle (E : Engines) (F : ConstructorFactory) (root : TypeId) : Prop := {
  complete_covers t sigma v :
    nested E root t -> Forall (pat_type E t) sigma ->
    is_complete_signature E F sigma = Ok true -> has_type E t v ->
    Wildcard ∈ sigma \/ exists c args, c ∈ sigma /\ root_args c v = Some args;
  complete_decides t sigma :
    nested E root t -> Forall (pat_type E t) sigma -> is_Ok (is_complete_signature E F sigma);
  incomplete_pattern t sigma :
    nested E root t -> Forall (pat_type E t) sigma ->
    is_complete_signature E F sigma = Ok false -> PatStack_is_empty sigma = false ->
    is_Ok (create_pattern_not_present E F sigma)
}.

Section signature.
Context (E : Engines) (HE : wf_engines E) (root : TypeId) (F : ConstructorFactory).
Hypothesis Hnested : forall t info,
  nested E root t -> te E !! t = Some info -> info ∈ possible_types F.
Hypothesis Hdistinct : distinct_enum_names E (possible_types F).
Hypothesis Hdeclared : forall d, TEnum d ∈ possible_types F -> is_Some (de_enum E !! d).

(** ** Resolving the enum of a column *)

Lemma resolve_possible_types_spec tys n vr p :
  (forall d, TEnum d ∈ tys -> is_Some (de_enum E !! d)) ->
  (exists d decl tv, TEnum d ∈ tys /\ de_enum E !! d = Some decl /\
     enum_suffix decl = n /\ (vr, tv) ∈ enum_variants decl) ->
  exists d decl, resolve_possible_types E tys (Enum n vr p) = Ok (TEnum d) /\
    TEnum d ∈ tys /\ de_enum E !! d = Some decl /\ enum_suffix decl = n.
Proof.
  intros Hd (d & decl & tv & Hin & Hde & Hn & Hvr).
  induction tys as [|ti tys IH]; [by apply elem_of_nil in Hin|]. cbn [resolve_possible_types].
  destruct (Pattern_matches_type_info E (Enum n vr p) ti) as [[|]|e] eqn:Hm; next_step.
  - destruct ti; try discriminate Hm. cbn in Hm. unfold get in Hm.
    destruct (de_enum E !! decl_id) as [decl'|] eqn:Hde'; [|done]. cbn in Hm. inv_ok.
    apply andb_true_iff in Hm as [Hm%bool_decide_eq_true _].
    exists decl_id, decl'. split; [done|]. split; [left|]. split; [done|congruence].
  - destruct IH as (d' & decl' & Hr & Hin' & ?).
    + intros d' Hd'. apply Hd. by right.
    + apply elem_of_cons in Hin as [<-|Hin]; [|done]. exfalso.
      cbn in Hm. unfold get in Hm. rewrite Hde in Hm. cbn in Hm. inv_ok.
      rewrite bool_decide_eq_true_2 in Hm by done. cbn in Hm.
      assert (existsb (fun v => bool_decide (v.1 = vr)) (enum_variants decl) = true) as Hex; [|congruence].
      apply existsb_exists. exists (vr, tv). split; [by apply list_elem_of_In|].
      by apply bool_decide_eq_true.
    + exists d', decl'. split_and!; try tauto. by right.
  - destruct ti; try discriminate Hm. cbn in Hm. unfold get in Hm.
    destruct (Hd decl_id) as [decl' Hdecl']; [left|]. by rewrite Hdecl' in Hm.
Qed.

Lemma track_variants_spec n rest acc :
  (forall p, p ∈ rest -> exists vr q, p = Enum n vr q) ->
  exists tr, track_variants n rest acc = Ok tr /\
    forall x, x ∈ tr <-> x ∈ acc \/ exists q, Enum n x q ∈ rest.
Proof.
  revert acc. induction rest as [|p rest IH]; intros acc Hall; cbn.
  - exists acc. split; [done|]. intros x. split; [by left|].
    intros [?|(q & Hq%elem_of_nil)]; done.
  - destruct (Hall p) as (vr & q & ->); [left|]. rewrite bool_decide_eq_true_2 by done.
    destruct (IH ({[vr]} ∪ acc)) as (tr & Htr & Hx); [intros; apply Hall; by right|].
    exists tr. split; [done|]. intros x. rewrite Hx, elem_of_union, elem_of_singleton.
    setoid_rewrite elem_of_cons. split.
    + intros [[->|?]|(q' & ?)]; eauto.
    + intros [?|(q' & [[= -> ->]|?])]; eauto.
Qed.

(** In a column of patterns of an enum type, the declaration found by name is
    the declaration of the type. *)
Lemma resolve_column_enum_spec t d decl vr tv p rest :
  nested E root t -> te E !! t = Some (TEnum d) -> de_enum E !! d = Some decl ->
  (vr, tv) ∈ enum_variants decl -> Forall (pat_type E t) rest -> Wildcard ∉ rest ->
  exists tr, resolve_column_enum E F (enum_suffix decl) vr p rest
             = Ok (enum_suffix decl, (list_to_set (map fst (enum_variants decl)), tr)) /\
    forall x, x ∈ tr <-> x = vr \/ exists q, Enum (enum_suffix decl) x q ∈ rest.
Proof.
  intros Hn Ht Hd Hvr Hrest Hw. unfold resolve_column_enum.
  destruct (resolve_possible_types_spec (possible_types F) (enum_suffix decl) vr p)
    as (d' & decl' & -> & Hin' & Hd' & Hs'); [done| |].
  { exists d, decl, tv. split_and!; [by eapply Hnested|done..]. }
  assert (decl' = decl) as ->.
  { eapply Hdistinct; [exact Hin'|by eapply Hnested|done..]. }
  next_step. replace (expect_enum (size (te E)) E (TEnum d')) with (Ok d')
    by (by destruct (size (te E))).
  next_step. unfold get. rewrite Hd'. next_step.
  unfold resolve_enum. rewrite bool_decide_eq_true_2 by done.
  destruct (track_variants_spec (enum_suffix decl) rest {[vr]}) as (tr & -> & Htr).
  { intros q Hq. rewrite Forall_forall in Hrest. specialize (Hrest q Hq).
    inversion Hrest; simplify_eq; first [done | eauto]. }
  cbn. exists tr. split; [done|]. intros x. rewrite Htr, elem_of_singleton. done.
Qed.

(** ** Columns of integers *)

Lemma column_ranges_spec {T} (as_range : Pattern -> option (Range T)) (rest : PatStack) r :
  (forall p, p ∈ rest -> is_Some (as_range p)) ->
  exists rs, column_ranges as_range r rest = Ok (r :: rs) /\
    forall r', r' ∈ rs <-> exists p, p ∈ rest /\ as_range p = Some r'.
Proof.
  intros Hall. unfold column_ranges.
  assert (exists rs, traverse (fun pat => match as_range pat with Some range => Ok range
    | None => Err (Internal "expected all patterns to be of the same type") end) rest = Ok rs /\
    forall r', r' ∈ rs <-> exists p, p ∈ rest /\ as_range p = Some r') as (rs & -> & Hrs); [|cbn; eauto].
  induction rest as [|p rest IH]; cbn.
  - exists []. split; [done|]. intros r'. split; [by intros ?%elem_of_nil|].
    by intros (? & ?%elem_of_nil & _).
  - destruct (Hall p) as [r0 Hr0]; [left|]. rewrite Hr0. cbn.
    destruct IH as (rs & -> & Hrs); [intros; apply Hall; by right|]. cbn.
    exists (r0 :: rs). split; [done|]. intros r'. rewrite elem_of_cons, Hrs.
    setoid_rewrite elem_of_cons. split.
    + intros [->|(q & ? & ?)]; eauto.
    + intros (q & [->|?] & ?); [left; congruence|eauto].
Qed.

Section integer_column.
Context {T : IntTy} (as_range : Pattern -> option (Range T)) (con : Range T -> Pattern).
Hypothesis as_con : forall r, as_range (con r) = Some r.
Context (oracle : Range T) (n0 : Z) (rest : PatStack).
Hypothesis Horacle : oracle = mkRange 0 (global_max T).
Hypothesis Hn0 : (0 <= n0 <= global_max T)%Z.
Hypothesis Hrest : forall p, p ∈ rest -> exists n, p = con (from_single n) /\ (0 <= n <= global_max T)%Z.

Lemma integer_column_ranges :
  exists rs, column_ranges as_range (from_single n0) rest = Ok rs /\ rs <> [] /\
    Forall valid_range rs /\ not_nested rs /\
    (forall r, r ∈ rs -> con r ∈ con (from_single n0) :: rest).
Proof.
  destruct (column_ranges_spec as_range rest (from_single n0)) as (rs & Hrs & Hel).
  { intros p (n & -> & _)%Hrest. by eexists. }
  assert (forall r, r ∈ from_single n0 :: rs -> exists n, r = from_single n /\
            (0 <= n <= global_max T)%Z /\ con r ∈ con (from_single n0) :: rest) as Hsingle.
  { intros r [->|Hr]%elem_of_cons; [exists n0; split; [done|split; [lia|left]]|].
    apply Hel in Hr as (p & Hp & Has). destruct (Hrest p Hp) as (n & -> & Hn).
    rewrite as_con in Has. simplify_eq. exists n. split; [done|split; [lia|by right]]. }
  exists (from_single n0 :: rs). split_and!; [done|done| | |].
  - apply Forall_forall. intros r (n & -> & Hn & _)%Hsingle. split_and!; cbn; lia.
  - intros a b (n & -> & _)%Hsingle (m & -> & _)%Hsingle. done.
  - intros r (n & _ & _ & Hr)%Hsingle. done.
Qed.

Lemma oracle_valid : valid_range oracle.
Proof. subst oracle. pose proof (global_max_pos (T := T)). split_and!; cbn; lia. Qed.

Lemma covers_ranges_spec :
  is_Ok (covers_ranges as_range oracle (from_single n0) rest) /\
  (covers_ranges as_range oracle (from_single n0) rest = Ok true ->
   forall x, (0 <= x <= global_max T)%Z ->
     exists r, con r ∈ con (from_single n0) :: rest /\ in_rangeb x r = true).
Proof.
  destruct integer_column_ranges as (rs & Hrs & Hne & Hv & Hnn & Hin).
  unfold covers_ranges. rewrite Hrs. next_step. split.
  - destruct (do_ranges_equal_range_Ok rs oracle) as (b & -> & _); [done..|apply oracle_valid|].
    by eexists.
  - intros Heq x Hx. pose proof (do_ranges_equal_range_sound rs oracle Hne Hv Heq x) as Hpts.
    assert (in_ranges x rs) as Hxr.
    { apply Hpts. rewrite Horacle. unfold in_range. cbn. lia. }
    apply Exists_exists in Hxr as (r & Hr & Hxr). exists r. split; [by apply Hin|].
    unfold in_rangeb. unfold in_range in Hxr. lia.
Qed.

Lemma missing_ranges_is_Ok : is_Ok (missing_ranges as_range con oracle (from_single n0) rest).
Proof.
  destruct integer_column_ranges as (rs & Hrs & Hne & Hv & Hnn & _).
  unfold missing_ranges. rewrite Hrs. next_step.
  destruct (find_exclusionary_ranges_Ok rs oracle) as (ex & -> & _);
    [done..|apply oracle_valid| |].
  { eapply Forall_impl; [exact Hv|]. intros r (? & ? & ?). rewrite Horacle.
    unfold encompasses. cbn. lia. }
  next_step. unfold Pattern_from_pat_stack.
  destruct (map con ex) as [|q [|q' qs]]; cbn; by eexists.
Qed.
End integer_column.

(** ** Typed columns *)

Lemma typed_no_or t sigma :
  Forall (pat_type E t) sigma -> PatStack_contains_or_pattern sigma = false.
Proof.
  intros H. apply contains_or_pattern_false. eapply Forall_impl; [exact H|].
  intros p Hp. by eauto with sway.
Qed.

Lemma flatten_plain s : PatStack_contains_or_pattern s = false -> PatStack_flatten s = s.
Proof.
  rewrite contains_or_pattern_false. unfold PatStack_flatten.
  induction 1 as [|p s Hp _ IH]; cbn; [done|]. rewrite IH. by destruct p.
Qed.

Lemma is_empty_typed s :
  PatStack_contains_or_pattern s = false ->
  PatStack_is_empty s = true <-> forall p, p ∈ s -> p = Wildcard.
Proof.
  intros Hs. unfold PatStack_is_empty. rewrite flatten_plain by done.
  unfold PatStack_filter_out_wildcards. clear Hs. induction s as [|p s IH]; cbn.
  - split; [by intros _ p ?%elem_of_nil|done].
  - destruct (is_wildcard p) eqn:Hp; cbn.
    + rewrite IH. destruct p; try done. setoid_rewrite elem_of_cons. naive_solver.
    + split; [done|]. intros Hall. rewrite (Hall p) in Hp by left. done.
Qed.

(** A column without wildcards: every pattern is constructed. *)
Lemma covers_booleans_spec a b rest :
  (forall p, p ∈ rest -> exists x, p = Boolean x) ->
  exists r, covers_booleans a b rest = Ok r /\
    (r = true <-> (a = true \/ Boolean true ∈ rest) /\ (b = true \/ Boolean false ∈ rest)).
Proof.
  revert a b. induction rest as [|p rest IH]; intros a b Hall; cbn.
  - exists (a && b). split; [done|]. rewrite andb_true_iff.
    pose proof (not_elem_of_nil (Boolean true)). pose proof (not_elem_of_nil (Boolean false)). tauto.
  - destruct (Hall p) as (x & ->); [left|].
    assert (forall p, p ∈ rest -> exists x, p = Boolean x) as Hall' by (intros; apply Hall; by right).
    destruct x.
    + destruct (IH true b Hall') as (r & -> & Hr). exists r. split; [done|].
      rewrite Hr, !elem_of_cons. split; [tauto|]. intros [_ [?|[?|?]]]; tauto || done.
    + destruct (IH a true Hall') as (r & -> & Hr). exists r. split; [done|].
      rewrite Hr, !elem_of_cons. split; [tauto|]. intros [[?|[?|?]] _]; tauto || done.
Qed.

Lemma all_same_constructor_typed c rest :
  is_or c = false -> (forall p, p ∈ rest -> Pattern_has_the_same_constructor p c = Ok true) ->
  all_same_constructor c rest = Ok true.
Proof.
  intros Hc. induction rest as [|p rest IH]; intros Hall; cbn [all_same_constructor]; [done|].
  rewrite (Hall p) by left. cbn. apply IH. intros; apply Hall; by right.
Qed.

(** The completeness test on a column of constructed patterns is the case
    analysis on its first pattern. *)
Lemma complete_constructed t c rest :
  Forall (pat_type E t) (c :: rest) -> Wildcard ∉ c :: rest ->
  is_complete_signature E F (c :: rest) =
  match c with
  | Str _ | B256 _ => Ok false
  | U8 range => covers_ranges as_U8 range_u8 range rest
  | U16 range => covers_ranges as_U16 range_u16 range rest
  | U32 range => covers_ranges as_U32 range_u32 range rest
  | U64 range => covers_ranges as_U64 range_u64 range rest
  | Numeric range => covers_ranges as_Numeric range_u64 range rest
  | Boolean b => covers_booleans b (negb b) rest
  | Enum enum_name variant_name value =>
      resolved ← resolve_column_enum E F enum_name variant_name value rest;
      let '(_, (all_variants, variant_tracker)) := resolved in
      Ok (bool_decide (elements (all_variants ∖ variant_tracker) = []))
  | Tuple elems => all_same_constructor (Tuple elems) rest
  | Struct struct_name fields => all_same_constructor (Struct struct_name fields) rest
  | Wildcard | Or _ => Err OutOfFuel
  end.
Proof.
  intros Ht Hw. pose proof (typed_no_or t _ Ht) as Hor.
  unfold is_complete_signature, is_complete_signature_fuel.
  rewrite serialize_plain by done. cbn [mbind Result_bind concat]. rewrite app_nil_r.
  destruct (PatStack_is_empty (c :: rest)) eqn:He.
  { exfalso. apply Hw. rewrite (proj1 (is_empty_typed _ Hor) He c) by left. left. }
  destruct (PatStack_contains (c :: rest) Wildcard) eqn:Hc.
  { exfalso. by apply PatStack_contains_spec in Hc. }
  cbn [PatStack_split_first mbind Result_bind fst snd].
  by destruct c.
Qed.

Lemma missing_constructed t c rest :
  Forall (pat_type E t) (c :: rest) -> Wildcard ∉ c :: rest ->
  PatStack_filter_out_wildcards (PatStack_flatten (c :: rest)) = c :: rest.
Proof.
  intros Ht Hw. rewrite flatten_plain by (by eapply typed_no_or).
  unfold PatStack_filter_out_wildcards. clear Ht.
  induction (c :: rest) as [|p l IH]; [done|]. cbn.
  assert (is_wildcard p = false) as ->.
  { destruct p; try done. exfalso. apply Hw. left. }
  cbn. f_equal. apply IH. intros ?. apply Hw. by right.
Qed.

(** Every value of the type is built with a constructor of the column. *)
Definition covered (t : TypeId) (sigma : PatStack) : Prop :=
  forall v, has_type E t v -> exists c args, c ∈ sigma /\ root_args c v = Some args.

(** The outcome of the two operations of the factory on a column. *)
Definition decided (t : TypeId) (sigma : PatStack) : Prop :=
  (exists b, is_complete_signature E F sigma = Ok b /\ (b = true -> covered t sigma) /\
     (b = false -> is_Ok (create_pattern_not_present E F sigma))).

Lemma typed_head_tail t c rest p :
  Forall (pat_type E t) (c :: rest) -> Wildcard ∉ c :: rest -> p ∈ rest ->
  pat_type E t p /\ p <> Wildcard.
Proof.
  intros Ht Hw Hp. rewrite Forall_forall in Ht. split; [apply Ht; by right|].
  intros ->. apply Hw. by right.
Qed.

Lemma create_constructed t c rest :
  Forall (pat_type E t) (c :: rest) -> Wildcard ∉ c :: rest ->
  create_pattern_not_present E F (c :: rest) =
  match c with
  | U8 range => missing_ranges as_U8 U8 range_u8 range rest
  | U16 range => missing_ranges as_U16 U16 range_u16 range rest
  | U32 range => missing_ranges as_U32 U32 range_u32 range rest
  | U64 range => missing_ranges as_U64 U64 range_u64 range rest
  | Numeric range => missing_ranges as_Numeric Numeric range_u64 range rest
  | Str _ | Wildcard | B256 _ => Ok Wildcard
  | Boolean b => missing_boolean b rest
  | Struct struct_name fields => Ok (Struct struct_name (map (fun f => (f.1, Wildcard)) fields))
  | Enum enum_name variant_name value =>
      resolved ← resolve_column_enum E F enum_name variant_name value rest;
      let '(decl_name, (all_variants, variant_tracker)) := resolved in
      Pattern_from_pat_stack
        (map (fun x => Enum decl_name x Wildcard) (elements (all_variants ∖ variant_tracker)))
  | Tuple elems => Ok (Tuple (PatStack_fill_wildcards (length elems)))
  | Or _ => Err OutOfFuel
  end.
Proof.
  intros Ht Hw. unfold create_pattern_not_present.
  assert (is_or c = false) by (apply Forall_cons in Ht as [Ht _]; by eauto with sway).
  destruct (or_sizes (c :: rest)); cbn [create_pattern_not_present_fuel];
    rewrite (missing_constructed t) by done;
    cbn [PatStack_split_first mbind Result_bind fst snd]; by destruct c.
Qed.

Lemma integer_decided {T : IntTy} (as_range : Pattern -> option (Range T)) con oracle t n rest
    (val : Z -> value) :
  (forall r, as_range (con r) = Some r) -> oracle = mkRange 0 (global_max T) ->
  (0 <= n <= global_max T)%Z ->
  (forall p, p ∈ rest -> exists n, p = con (from_single n) /\ (0 <= n <= global_max T)%Z) ->
  (forall v, has_type E t v -> exists x, v = val x /\ (0 <= x <= global_max T)%Z) ->
  (forall r x, in_rangeb x r = true -> root_args (con r) (val x) = Some []) ->
  is_complete_signature E F (con (from_single n) :: rest)
    = covers_ranges as_range oracle (from_single n) rest ->
  create_pattern_not_present E F (con (from_single n) :: rest)
    = missing_ranges as_range con oracle (from_single n) rest ->
  decided t (con (from_single n) :: rest).
Proof.
  intros Has Hor Hn Hrest Hval Hargs Hc Hm. unfold decided. rewrite Hc, Hm.
  destruct (covers_ranges_spec as_range con Has oracle n rest Hor Hn Hrest) as [[b Hb] Hcov].
  exists b. split_and!; [done| |].
  - intros -> v Hv. destruct (Hval v Hv) as (x & -> & Hx).
    destruct (Hcov Hb x Hx) as (r & Hr & Hin). eauto.
  - intros _. by apply (missing_ranges_is_Ok as_range con Has oracle n rest).
Qed.

Lemma typed_rest t c rest (P : Pattern -> Prop) :
  Forall (pat_type E t) (c :: rest) -> Wildcard ∉ c :: rest ->
  (forall p, pat_type E t p -> p <> Wildcard -> P p) -> forall p, p ∈ rest -> P p.
Proof.
  intros Ht Hw HP p Hp. destruct (typed_head_tail t c rest p Ht Hw Hp). by apply HP.
Qed.

Lemma bool_decided t b rest :
  te E !! t = Some TBoolean -> Forall (pat_type E t) (Boolean b :: rest) ->
  Wildcard ∉ Boolean b :: rest -> decided t (Boolean b :: rest).
Proof.
  intros Ht Hty Hw. unfold decided.
  rewrite (complete_constructed t), (create_constructed t) by done.
  destruct (covers_booleans_spec b (negb b) rest) as (r & Hr & Hiff).
  { eapply typed_rest; [done..|]. intros p Hp Hnw. inversion Hp; simplify_eq; eauto; done. }
  exists r. split_and!; [done| |].
  - intros Hr' v Hv. apply Hiff in Hr' as [Ht' Hf']. inversion Hv; simplify_eq.
    destruct b0.
    + exists (Boolean true), []. split; [|done]. destruct Ht' as [->|?]; [left|by right].
    + exists (Boolean false), []. split; [|done].
      destruct Hf' as [Hf'|?]; [destruct b; [done|left]|by right].
  - intros Hr'. unfold missing_boolean.
    destruct (PatStack_contains rest (Boolean true)) eqn:Hct;
    destruct (PatStack_contains rest (Boolean false)) eqn:Hcf;
      rewrite ?PatStack_contains_spec in *; destruct b; cbn in *; try (by eexists);
      exfalso; assert (r = true) by (apply Hiff; split; auto); congruence.
Qed.

Lemma enum_decided t d decl vr tv p rest :
  nested E root t -> te E !! t = Some (TEnum d) -> de_enum E !! d = Some decl ->
  (vr, tv) ∈ enum_variants decl -> Forall (pat_type E t) (Enum (enum_suffix decl) vr p :: rest) ->
  Wildcard ∉ Enum (enum_suffix decl) vr p :: rest ->
  decided t (Enum (enum_suffix decl) vr p :: rest).
Proof.
  intros Hn Ht Hd Hvr Hty Hw. unfold decided.
  rewrite (complete_constructed t), (create_constructed t) by done.
  destruct (resolve_column_enum_spec t d decl vr tv p rest) as (tr & -> & Htr); try done.
  { by apply Forall_cons in Hty as [_ Hty]. }
  { intros ?. apply Hw. by right. }
  next_step. eexists. split; [done|]. split.
  - intros Hel%bool_decide_eq_true v Hv. inversion Hv; simplify_eq.
    assert (vr0 ∈ tr) as Hin.
    { destruct (decide (vr0 ∈ tr)) as [|Hnin]; [done|]. exfalso.
      assert (vr0 ∈ elements ((list_to_set (map fst (enum_variants decl)) : gset string) ∖ tr)) as Hx.
      { rewrite elem_of_elements. apply elem_of_difference. split; [|done].
        apply elem_of_list_to_set, list_elem_of_fmap. by exists (vr0, tv0). }
      rewrite Hel in Hx. by apply elem_of_nil in Hx. }
    apply Htr in Hin as [->|(q & Hq)].
    + eexists _, [v0]. split; [left|]. cbn. by rewrite !bool_decide_eq_true_2.
    + eexists _, [v0]. split; [right; exact Hq|]. cbn. by rewrite !bool_decide_eq_true_2.
  - intros Hel%bool_decide_eq_false. unfold Pattern_from_pat_stack.
    destruct (elements _) as [|x [|y l]]; [done|by eexists..].
Qed.

Lemma product_decided t c rest :
  Forall (pat_type E t) (c :: rest) -> Wildcard ∉ c :: rest ->
  is_complete_signature E F (c :: rest) = all_same_constructor c rest ->
  (forall p, pat_type E t p -> p <> Wildcard -> Pattern_has_the_same_constructor p c = Ok true) ->
  (forall v, has_type E t v -> is_Some (root_args c v)) ->
  decided t (c :: rest).
Proof.
  intros Hty Hw Heq Hsame Hval. exists true. rewrite Heq. split_and!; [|intros _|done].
  - apply all_same_constructor_typed; [|by eapply typed_rest].
    apply Forall_cons in Hty as [Hty _]. by eauto with sway.
  - intros v [args Hargs]%Hval. exists c, args. split; [left|done].
Qed.

Lemma tuple_decided t ts ps rest :
  te E !! t = Some (TTuple ts) -> pat_types E ts ps ->
  Forall (pat_type E t) (Tuple ps :: rest) -> Wildcard ∉ Tuple ps :: rest ->
  decided t (Tuple ps :: rest).
Proof.
  intros Ht Hps Hty Hw. apply product_decided; [done..|by rewrite (complete_constructed t)| |].
  - intros p Hp Hnw. inversion Hp; simplify_eq; try done. cbn. repeat f_equal.
    apply Nat.eqb_eq. erewrite !pat_types_length by done. done.
  - intros v Hv. inversion Hv; simplify_eq. cbn.
    match goal with H : has_types _ _ _ |- _ => apply has_types_length in H end.
    apply pat_types_length in Hps. rewrite Hps. case_match eqn:Hb; [by eexists|].
    apply Nat.eqb_neq in Hb. lia.
Qed.

Lemma struct_decided t d decl fs rest :
  te E !! t = Some (TStruct d) -> de_struct E !! d = Some decl ->
  map fst fs = map fst (struct_fields decl) ->
  Forall (pat_type E t) (Struct (struct_suffix decl) fs :: rest) ->
  Wildcard ∉ Struct (struct_suffix decl) fs :: rest ->
  decided t (Struct (struct_suffix decl) fs :: rest).
Proof.
  intros Ht Hd Hfs Hty Hw. apply (f_equal length) in Hfs. rewrite !length_map in Hfs.
  apply product_decided; [done..|by rewrite (complete_constructed t)| |].
  - intros p Hp Hnw. inversion Hp; simplify_eq; try done. cbn. rewrite bool_decide_eq_true_2 by done.
    match goal with H : map fst _ = map fst _ |- _ => apply (f_equal length) in H;
      rewrite !length_map in H; rewrite H, Hfs end. by rewrite Nat.eqb_refl.
  - intros v Hv. inversion Hv; simplify_eq. cbn. rewrite bool_decide_eq_true_2 by done.
    match goal with H : map fst _ = map fst _ |- _ => apply (f_equal length) in H;
      rewrite !length_map in H; rewrite H, Hfs end. rewrite Nat.eqb_refl. by eexists.
Qed.

(** The five integer types: [as_] reads the range of a pattern built with
    [con], whose values are built with [val]. *)
Local Ltac integer_case as_ con val oracle :=
  apply (integer_decided as_ con oracle _ _ _ val);
    [done|reflexivity|assumption| | | |assumption|assumption];
    [ eapply typed_rest; [eassumption..|];
      intros p Hp Hnw; inversion Hp; simplify_eq; eauto; congruence
    | intros v Hv; inversion Hv; simplify_eq; eauto
    | intros r x Hx; cbn; by rewrite Hx ].

Lemma constructed_decided t c rest :
  nested E root t -> Forall (pat_type E t) (c :: rest) -> Wildcard ∉ c :: rest ->
  decided t (c :: rest).
Proof.
  intros Hn Hty Hw. pose proof Hty as [Hc _]%Forall_cons.
  pose proof (complete_constructed t c rest Hty Hw) as Hcomplete.
  pose proof (create_constructed t c rest Hty Hw) as Hcreate.
  destruct Hc; [exfalso; apply Hw; left|..].
  - integer_case as_U8 U8 VU8 range_u8.
  - integer_case as_U16 U16 VU16 range_u16.
  - integer_case as_U32 U32 VU32 range_u32.
  - integer_case as_U64 U64 VU64 range_u64.
  - integer_case as_Numeric Numeric VNumeric range_u64.
  - exists false. split_and!; [exact Hcomplete|done|]. intros _. rewrite Hcreate. by eexists.
  - by apply bool_decided.
  - exists false. split_and!; [exact Hcomplete|done|]. intros _. rewrite Hcreate. by eexists.
  - by eapply struct_decided.
  - by eapply enum_decided.
  - by eapply tuple_decided.
Qed.

Lemma oracle_from_hypotheses : SignatureOracle E F root.
Proof.
  assert (forall t sigma, Forall (pat_type E t) sigma ->
    PatStack_is_empty sigma = true /\ is_complete_signature E F sigma = Ok false \/
    PatStack_is_empty sigma = false /\ Wildcard ∈ sigma /\ is_complete_signature E F sigma = Ok true \/
    exists c rest, sigma = c :: rest /\ Wildcard ∉ sigma) as Hcases.
  { intros t sigma Hty. pose proof (typed_no_or t sigma Hty) as Hor.
    unfold is_complete_signature, is_complete_signature_fuel. rewrite serialize_plain by done.
    cbn [mbind Result_bind concat]. rewrite app_nil_r.
    destruct (PatStack_is_empty sigma) eqn:He; [by left|right].
    destruct (PatStack_contains sigma Wildcard) eqn:Hc.
    - left. split_and!; [done| |done]. by apply PatStack_contains_spec in Hc.
    - right. destruct sigma as [|c rest]; [done|]. exists c, rest. split; [done|].
      intros Hin%PatStack_contains_spec. congruence. }
  split; intros t sigma; intros.
  - destruct (Hcases t sigma) as [[? ?]|[(? & ? & ?)|(c & rest & -> & Hw)]]; [done|congruence|by left|].
    destruct (constructed_decided t c rest) as (b & Hb & Hcov & _); [done..|].
    right. apply Hcov; [congruence|done].
  - destruct (Hcases t sigma) as [[? ->]|[(? & ? & ->)|(c & rest & -> & Hw)]]; [done|by eexists..|].
    destruct (constructed_decided t c rest) as (b & -> & _ & _); [done..|by eexists].
  - destruct (Hcases t sigma) as [[? ?]|[(? & ? & ?)|(c & rest & -> & Hw)]]; [done|congruence..|].
    destruct (constructed_decided t c rest) as (b & Hb & _ & Hcr); [done..|].
    apply Hcr. congruence.
Qed.
End signature.

(** ** The factory built for the type of the matched value *)

Section factory.
Context (E : Engines) (HE : wf_engines E).

(** A type one constructor below [t]. *)
Definition child (t u : TypeId) : Prop :=
  (exists d decl, te E !! t = Some (TStruct d) /\ de_struct E !! d = Some decl /\
     u ∈ map snd (struct_fields decl)) \/
  (exists d decl, te E !! t = Some (TEnum d) /\ de_enum E !! d = Some decl /\
     u ∈ map snd (enum_variants decl)) \/
  (exists ts, te E !! t = Some (TTuple ts) /\ u ∈ ts).

Lemma nested_child root t u : nested E root t -> child t u -> nested E root u.
Proof.
  intros Hn [(d & decl & ? & ? & ?)|[(d & decl & ? & ? & ?)|(ts & ? & ?)]].
  - by eapply nested_struct.
  - by eapply nested_enum.
  - by eapply nested_tuple.
Qed.

(** Descending from the root. *)
Lemma nested_left s t : nested E s t -> t = s \/ exists u, child s u /\ nested E u t.
Proof.
  assert (forall t u, nested E s t -> child t u ->
    (t = s \/ exists w, child s w /\ nested E w t) -> exists w, child s w /\ nested E w u) as Hstep.
  { intros t' u Hn Hc [->|(w & Hw & Hwt)]; [exists u; split; [done|constructor]|].
    exists w. split; [done|]. by eapply nested_child. }
  induction 1 as [|t d decl u Hn IH Ht Hd Hu|t d decl u Hn IH Ht Hd Hu|t ts u Hn IH Ht Hu];
    [by left|right; eapply Hstep; [exact Hn| |exact IH]..].
  - left. eauto.
  - right. left. eauto.
  - right. right. eauto.
Qed.

Lemma child_component s u info :
  child s u -> te E !! s = Some info ->
  exists tys, component_types E info = Ok tys /\ u ∈ tys /\
    forall n cs, info <> TUnknownGeneric n cs.
Proof.
  intros [(d & decl & Ht & Hd & Hu)|[(d & decl & Ht & Hd & Hu)|(ts & Ht & Hu)]] Hi; simplify_eq;
    cbn; unfold get; rewrite ?Hd; cbn; eexists; (split; [done|]); split; try done;
    apply elem_of_app; by right.
Qed.

Lemma insert_key_elem found id x : x ∈ insert_key found id <-> x ∈ found \/ x = id.
Proof.
  unfold insert_key. case_bool_decide.
  - split; [by left|]. by intros [?| ->].
  - by rewrite elem_of_app, list_elem_of_singleton.
Qed.

Lemma extend_elem found other x : x ∈ extend found other <-> x ∈ found \/ x ∈ other.
Proof.
  unfold extend. revert found. induction other as [|y other IH]; intros found; cbn.
  - split; [by left|]. by intros [?|?%elem_of_nil].
  - rewrite IH, insert_key_elem, elem_of_cons. tauto.
Qed.

(** Every nested type is found. *)
Lemma extract_any_nested fuel s dep found :
  extract_any fuel E s dep = Ok found ->
  forall t, nested E s t -> t = s \/ t ∈ found.
Proof.
  revert s dep found. induction fuel as [|fuel IH]; intros s dep found Hex t Hn;
    cbn [extract_any] in Hex; (case_match; [done|]); [done|].
  apply nested_left in Hn as [->|(u & Hu & Hn)]; [by left|right].
  destruct (get (te E) s) as [info|] eqn:Hi; [|done]. next_step in Hex.
  unfold get in Hi. destruct (te E !! s) as [info'|] eqn:Hs; [|done]. inv_ok.
  destruct (child_component s u info Hu Hs) as (tys & Htys & Hin & Hgen).
  match type of Hex with context [?f true (concat _) [s]] => set (extend_all := f) in * end.
  assert (extend_all false tys [] = Ok found) as Hall.
  { rewrite Htys in Hex. destruct info; try done. by destruct (Hgen name trait_constraints). }
  clear Hex Htys. revert Hall. generalize (@nil TypeId) as acc.
  assert (forall tys acc, extend_all false tys acc = Ok found -> forall x, x ∈ acc -> x ∈ found)
    as Hkeep.
  { clear. induction tys as [|ty tys IHt]; intros acc Hall x Hx; cbn in Hall; [by inv_ok|].
    inv_ok. eapply IHt; [done|]. apply extend_elem. by left. }
  induction tys as [|ty tys IHt]; intros acc Hall; [by apply elem_of_nil in Hin|].
  cbn in Hall. inv_ok. apply elem_of_cons in Hin as [->|Hin].
  - eapply Hkeep; [done|]. apply extend_elem. right. apply insert_key_elem.
    destruct (IH _ _ _ Hok0 t Hn); tauto.
  - by apply (IHt Hin _ Hall).
Qed.

#[local] Strategy opaque [extract_any EXTRACT_ANY_MAX_DEPTH].

Lemma factory_nested root F t info :
  ConstructorFactory_new E root = Ok F -> nested E root t -> te E !! t = Some info ->
  info ∈ possible_types F.
Proof.
  intros HF Hn Ht. unfold ConstructorFactory_new, extract_nested_types, extract_inner_types in HF.
  inv_ok. cbn. rename select (extract_any _ _ _ _ = _) into Hex.
  rename select (traverse _ _ = _) into Htr. rename select (get _ _ = _) into Hroot.
  destruct (extract_any_nested _ _ _ _ Hex t Hn) as [->|Hin].
  - unfold get in Hroot. rewrite Ht in Hroot. inv_ok. apply elem_of_app. right. left.
  - apply elem_of_app. left. apply traverse_Ok in Htr.
    match type of Htr with Forall2 _ ?l _ => assert (t ∈ l) as [i Hi]%list_elem_of_lookup end.
    { rewrite sort_by_perm. by apply elem_of_remove_dups. }
    destruct (Forall2_lookup_l _ _ _ _ _ Htr Hi) as (info' & Hi' & Hg).
    unfold get in Hg. rewrite Ht in Hg. inv_ok. apply list_elem_of_lookup. eauto.
Qed.

(** The types of the factory are types of the engine. *)
Lemma factory_types root F info :
  ConstructorFactory_new E root = Ok F -> info ∈ possible_types F -> exists t, te E !! t = Some info.
Proof.
  intros HF Hin. unfold ConstructorFactory_new, extract_nested_types in HF. inv_ok. cbn in Hin.
  rename select (traverse _ _ = _) into Htr. rename select (get _ _ = _) into Hroot.
  assert (forall t i, get (te E) t = Ok i -> te E !! t = Some i) as Hget.
  { intros t i. unfold get. case_match; intros; by inv_ok. }
  apply elem_of_app in Hin as [Hin|Hin%list_elem_of_singleton]; [|subst; eauto].
  apply traverse_Ok in Htr. apply list_elem_of_lookup in Hin as [i Hi].
  destruct (Forall2_lookup_r _ _ _ _ _ Htr Hi) as (t & _ & Hg). eauto.
Qed.

(** The factory of the matched type keeps the promise, when no two enums that
    the match can meet share a name. *)
Lemma factory_oracle root F :
  ConstructorFactory_new E root = Ok F -> distinct_enum_names E (possible_types F) ->
  SignatureOracle E F root.
Proof.
  intros HF Hd. apply oracle_from_hypotheses; [|done|].
  - intros t info. by apply factory_nested.
  - intros d Hin. destruct (factory_types root F (TEnum d) HF Hin) as [t Ht].
    by eapply wf_enum_decl.
Qed.
End factory.
