(* ===== verification/MatchCorrect.v ===== *)
(** * Correctness of the usefulness algorithm

    On well-typed matches without or-patterns: a stack without witnesses is
    covered by the rows of the matrix (soundness), the algorithm returns
    (progress), and what both mean for [check_match_expression_usefulness].
    The last section evaluates the algorithm on matches outside of these
    hypotheses, where its answer is wrong. *)

From S2P Require Import Prelude MatchRange MatchPattern MatchFactory MatchUsefulness MatchSemantics MatchTheory MatchSignature.
Local Open Scope nat_scope.

(** A stack of patterns matches a vector of values. *)
Abbreviation vmatch := (Forall2 (fun p v => matches p v = true)).

Lemma fill_wildcards_vmatch vs : vmatch (PatStack_fill_wildcards (length vs)) vs.
Proof. induction vs; cbn; by constructor. Qed.

Lemma join_useful_none rec scp rows wr :
  join_useful rec scp rows wr = Ok NoWitnesses ->
  wr = NoWitnesses /\ forall r, r ∈ rows -> rec scp r = Ok NoWitnesses.
Proof.
  revert wr. induction rows as [|r rows IH]; intros wr H; cbn in H.
  - inv_ok. split; [done|]. by intros r ?%elem_of_nil.
  - inv_ok. apply IH in H as [Hj Hrows]. destruct wr, r0; try discriminate Hj. split; [done|].
    intros r' [->|Hr]%elem_of_cons; [done|by apply Hrows].
Qed.

Lemma useful_constructors_none rec P q sigma wr pats pats' :
  useful_constructors rec P q sigma wr pats = Ok (NoWitnesses, pats') ->
  wr = NoWitnesses /\ forall c, c ∈ sigma -> exists scp scq,
    compute_specialized_matrix c P q = Ok scp /\ compute_specialized_matrix c [q] q = Ok scq /\
    forall r, r ∈ scq -> rec scp r = Ok NoWitnesses.
Proof.
  revert wr pats. induction sigma as [|c sigma IH]; intros wr pats H; cbn [useful_constructors] in H.
  - inv_ok. split; [done|]. by intros c ?%elem_of_nil.
  - inv_ok. rename select (join_useful _ _ _ _ = _) into Hj.
    destruct r1 as [|ws].
    + apply IH in H as [-> Hsig]. split; [done|]. intros c' [->|Hc]%elem_of_cons; [|by apply Hsig].
      apply join_useful_none in Hj as [_ Hrows]. eauto.
    + exfalso. inv_ok. apply IH in H as [Hwr _].
      unfold split_into_leading_constructor in *. inv_ok. by destruct wr.
Qed.

Section sound.
Context (E : Engines) (HE : wf_engines E) (F : ConstructorFactory) (root : TypeId).
Context {HO : SignatureOracle E F root}.

Lemma vmatch_app_l (p1 p2 : list Pattern) vs1 vs2 :
  length p1 = length vs1 -> vmatch (p1 ++ p2) (vs1 ++ vs2) -> vmatch p1 vs1 /\ vmatch p2 vs2.
Proof. intros Hlen H. by apply Forall2_app_inv. Qed.

(** A row of [S(c, P)] that matches the arguments of a value built with [c]
    comes from a row of [P] that matches the value. *)
Lemma specialized_reflects c P q scp t ts v vs args r :
  typed_matrix E (t :: ts) P -> pat_type E t c -> is_wildcard c = false ->
  compute_specialized_matrix c P q = Ok scp -> has_type E t v -> root_args c v = Some args ->
  r ∈ scp -> vmatch r (args ++ vs) -> exists row, row ∈ P /\ vmatch row (v :: vs).
Proof.
  intros HP Hc Hw Hs Hv Hargs Hr Hm.
  destruct (pat_type_ctor E t c Hc) as (cts & Hct & _ & Hlen).
  pose proof (root_args_types E HE t c cts v args Hct Hv Hargs) as Hat.
  apply has_types_length in Hat.
  apply (specialized_rows E c P q scp t ts) in Hr as (p & rest & Hin & Hcase);
    [|by eauto with sway|done..].
  exists (p :: rest). split; [done|].
  destruct Hcase as [[-> ->]|(Hpw & Hsame & ->)].
  - constructor; [done|]. apply vmatch_app_l in Hm as [_ ?]; [done|].
    unfold PatStack_fill_wildcards. rewrite length_replicate. lia.
  - destruct (same_constructor_root_args c p v Hw Hsame) as [Hra Ha].
    assert (pat_type E t p) as Hp.
    { unfold typed_matrix in HP. rewrite Forall_forall in HP. specialize (HP _ Hin).
      by inversion HP. }
    pose proof (same_constructor_types E HE t c p cts Hct Hp Hw Hsame) as Hsub.
    apply pat_types_length in Hsub.
    apply vmatch_app_l in Hm as [Hm1 Hm2]; [|lia]. constructor; [|done].
    apply (matches_root E HE t p v); [done..|]. exists args. by rewrite Hra.
Qed.

(** The types of the arguments are met below the matched type. *)
Lemma ctor_nested t c ts :
  nested E root t -> ctor_types E t c ts -> Forall (nested E root) ts.
Proof.
  intros Hn Hc. destruct Hc; try constructor; try (by constructor).
  - apply Forall_forall. intros u Hu. by eapply nested_struct.
  - eapply nested_enum; [done..|]. apply list_elem_of_fmap. by exists (vr, tv).
  - apply Forall_forall. intros u Hu. by eapply nested_tuple.
Qed.

Lemma same_constructor_refl c :
  is_or c = false -> is_wildcard c = false -> Pattern_has_the_same_constructor c c = Ok true.
Proof.
  intros Ho Hw. destruct c; try done; cbn; by rewrite ?bool_decide_eq_true_2, ?Nat.eqb_refl.
Qed.

(** What the recursive calls of the algorithm establish. *)
Definition covers_when_none (rec : Matrix -> PatStack -> Result WitnessReport) : Prop :=
  forall ts P q, Forall (nested E root) ts -> typed_matrix E ts P -> pat_types E ts q ->
    rec P q = Ok NoWitnesses ->
    forall vs, has_types E ts vs -> vmatch q vs -> exists row, row ∈ P /\ vmatch row vs.

Section step.
Context (rec : Matrix -> PatStack -> Result WitnessReport) (IH : covers_when_none rec).
Context (t : TypeId) (ts : list TypeId) (P : Matrix) (h : Pattern) (q : PatStack).
Hypothesis Hnt : nested E root t.
Hypothesis Hnts : Forall (nested E root) ts.
Hypothesis HP : typed_matrix E (t :: ts) P.
Hypothesis Hh : pat_type E t h.
Hypothesis Hq : pat_types E ts q.

Lemma query_typed : typed_matrix E (t :: ts) [h :: q].
Proof. repeat constructor; done. Qed.

(** One constructor [c]: when [h] specializes to [sub], and the values built
    with [c] that match [sub] are covered. *)
Lemma specialized_sound c scp scq sub v vs args :
  pat_type E t c -> is_wildcard c = false ->
  compute_specialized_matrix c P (h :: q) = Ok scp ->
  compute_specialized_matrix c [h :: q] (h :: q) = Ok scq ->
  (forall r, r ∈ scq -> rec scp r = Ok NoWitnesses) -> (sub ++ q) ∈ scq ->
  has_type E t v -> root_args c v = Some args -> has_types E ts vs ->
  vmatch sub args -> vmatch q vs -> exists row, row ∈ P /\ vmatch row (v :: vs).
Proof.
  intros Hc Hw Hscp Hscq Hnone Hsub Hv Hargs Hvs Hms Hmq.
  destruct (pat_type_ctor E t c Hc) as (cts & Hct & _ & Hlen).
  assert (typed_matrix E (cts ++ ts) scq) as Htq.
  { eapply specialized_typed; [done|apply query_typed|done..]. }
  unfold typed_matrix in Htq. rewrite Forall_forall in Htq.
  destruct (IH (cts ++ ts) scp (sub ++ q)) with (vs := args ++ vs) as (r & Hr & Hm).
  - apply Forall_app. split; [by eapply ctor_nested|done].
  - by eapply specialized_typed.
  - by apply Htq.
  - by apply Hnone.
  - apply has_types_app; [|done]. by eapply root_args_types.
  - by apply Forall2_app.
  - by eapply specialized_reflects.
Qed.

Lemma constructed_sound :
  is_wildcard h = false -> is_useful_constructed rec P (h :: q) h = Ok NoWitnesses ->
  forall v vs, has_type E t v -> has_types E ts vs -> vmatch (h :: q) (v :: vs) ->
  exists row, row ∈ P /\ vmatch row (v :: vs).
Proof.
  intros Hw H v vs Hv Hvs Hm. unfold is_useful_constructed in H. inv_ok.
  rename r into scp, r0 into scq.
  apply join_useful_none in H as [_ Hnone]. apply Forall2_cons in Hm as [Hmh Hmq].
  apply (matches_root E HE t h v) in Hmh as (args & Hargs & Hms); [|done..].
  apply (specialized_sound h scp scq (sub_pats h) v vs args); try done.
  eapply specialized_rows; [by eauto with sway|apply query_typed|done|].
  exists h, q. split; [left|]. right. split_and!; [done| |done].
  apply same_constructor_refl; [by eauto with sway|done].
Qed.

Lemma default_sound dp :
  compute_default_matrix P (h :: q) = Ok dp -> rec dp q = Ok NoWitnesses ->
  forall v vs, has_types E ts vs -> vmatch q vs -> exists row, row ∈ P /\ vmatch row (v :: vs).
Proof.
  intros Hdp Hrec v vs Hvs Hmq.
  destruct (IH ts dp q) with (vs := vs) as (r & Hr & Hm); try done.
  { by eapply default_typed. }
  exists (Wildcard :: r). split; [|by constructor]. by apply (default_rows E P (h :: q) dp t ts HP Hdp).
Qed.

Lemma wildcard_specialized_sound c scp scq :
  is_wildcard h = true -> pat_type E t c ->
  compute_specialized_matrix c P (h :: q) = Ok scp ->
  compute_specialized_matrix c [h :: q] (h :: q) = Ok scq ->
  (forall r, r ∈ scq -> rec scp r = Ok NoWitnesses) ->
  forall v vs, has_type E t v -> has_types E ts vs -> vmatch q vs ->
  c = Wildcard \/ is_Some (root_args c v) ->
  exists row, row ∈ P /\ vmatch row (v :: vs).
Proof.
  intros Hwild Hc Hscp Hscq Hnone v vs Hv Hvs Hmq Hcase.
  assert (is_or c = false) as Hco by eauto with sway.
  assert ((PatStack_fill_wildcards (Pattern_a c) ++ q) ∈ scq) as Hin.
  { eapply specialized_rows; [done|apply query_typed|done|].
    exists h, q. split; [left|]. left. by destruct h. }
  destruct Hcase as [->|[args Hargs]].
  - destruct (IH ts scp q) with (vs := vs) as (r & Hr & Hm); try done.
    + apply (specialized_typed E HE Wildcard P (h :: q) scp t ts []); [done..|constructor|done|done].
    + by apply Hnone.
    + eapply specialized_rows in Hr as (p & rest & Hp & Hcase); [|done..].
      exists (p :: rest). split; [done|]. destruct Hcase as [[-> ->]|(Hpw & Hsame & _)].
      * by constructor.
      * by destruct p.
  - destruct (pat_type_ctor E t c Hc) as (cts & Hct & _ & Hlen).
    pose proof (root_args_types E HE t c cts v args Hct Hv Hargs) as Hat%has_types_length.
    eapply (specialized_sound c scp scq _ v vs args); try done; [by destruct c|].
    rewrite <- Hlen, <- Hat. apply fill_wildcards_vmatch.
Qed.

Lemma wildcard_sound :
  is_wildcard h = true -> is_useful_wildcard E F rec P (h :: q) = Ok NoWitnesses ->
  forall v vs, has_type E t v -> has_types E ts vs -> vmatch (h :: q) (v :: vs) ->
  exists row, row ∈ P /\ vmatch row (v :: vs).
Proof.
  intros Hwild H v vs Hv Hvs [_ Hmq]%Forall2_cons. unfold is_useful_wildcard in H. inv_ok.
  rename r into sigma, Hok into Hsigma. destruct r0; inv_ok.
  - rename select (useful_constructors _ _ _ _ _ _ = _) into Hu.
    destruct r as [wr pats]. cbn in H. destruct wr; [|inv_ok; by unfold add_witness in H].
    apply useful_constructors_none in Hu as [_ Hall].
    assert (exists c, c ∈ sigma /\ (c = Wildcard \/ is_Some (root_args c v))) as (c & Hc & Hcase).
    { destruct (complete_covers t sigma v) as [?|(c & args & Hc & Hargs)]; [done| |done|done|..].
      - apply Forall_forall. intros c. by eapply sigma_typed.
      - exists Wildcard. auto.
      - exists c. rewrite Hargs. eauto. }
    destruct (Hall c Hc) as (scp & scq & Hscp & Hscq & Hnone).
    by apply (wildcard_specialized_sound c scp scq Hwild (sigma_typed E P sigma t ts c HP Hsigma Hc)).
  - rename select (rec _ _ = _) into Hrec. rename select (compute_default_matrix _ _ = _) into Hd.
    rename select (PatStack_split_first _ = _) into Hsp. cbn in Hsp. inv_ok. cbn in Hrec.
    assert (r1 = NoWitnesses) as -> by (by destruct r1). by eapply default_sound.
Qed.
End step.

Lemma m_n_rows P m n : Matrix_m_n P = Ok (m, n) -> m = length P /\ Forall (fun r => length r = n) P.
Proof.
  destruct P as [|r P]; cbn; [intros [= <- <-]; split; [done|constructor]|].
  case_match eqn:Hf; [|done]. intros [= <- <-]. split; [done|]. constructor; [done|].
  apply Forall_forall. intros r' Hr'. rewrite forallb_forall in Hf.
  apply Nat.eqb_eq, Hf. by apply list_elem_of_In.
Qed.

Lemma is_useful_covers fuel : covers_when_none (is_useful fuel E F).
Proof.
  induction fuel as [|fuel IH]; intros ts P q Hn HP Hq H vs Hvs Hm; cbn [is_useful] in H; inv_ok;
    rename select (Matrix_m_n _ = _) into Hmn; destruct r as [m n];
    destruct (m_n_rows _ _ _ Hmn) as [-> Hlen]; destruct P as [|row P];
    try (cbn in Hmn; by inv_ok); destruct n as [|n]; try done.
  1,2: exists row; split; [left|]; apply Forall_cons in HP as [Hrow _];
    apply Forall_cons in Hlen as [->%nil_length_inv _]; inversion Hrow; subst; by inversion Hvs.
  assert (is_useful (S fuel) E F (row :: P) q = Ok NoWitnesses) by
    (cbn [is_useful]; rewrite Hmn; cbn [mbind Result_bind length]; exact H).
  cbn [length] in H. destruct Hq as [|t ts h q Hh Hq]; [cbn in H; inv_ok; done|].
  inversion Hvs as [|? ? v vs' Hv Hvs']; subst. apply Forall_cons in Hn as [Hnt Hnts].
  cbn [PatStack_first mbind Result_bind] in H.
  destruct (is_wildcard h) eqn:Hw.
  - destruct h; try done. eapply wildcard_sound; done.
  - eapply constructed_sound; try done. apply pat_type_not_or in Hh. by destruct h.
Qed.
End sound.

(** ** The algorithm returns *)

(** Leading wildcards of a stack: a lower bound for the number of witnesses. *)
Fixpoint lead (q : PatStack) : nat :=
  match q with Wildcard :: q' => S (lead q') | _ => 0 end.

Definition long (n : nat) (wr : WitnessReport) : Prop :=
  match wr with NoWitnesses => True | Witnesses ws => n <= length ws end.

Lemma lead_fill n q : lead (PatStack_fill_wildcards n ++ q) = n + lead q.
Proof. unfold PatStack_fill_wildcards. induction n; cbn; [done|by rewrite IHn]. Qed.

Lemma lead_length q : lead q <= length q.
Proof. induction q as [|p q IH]; cbn; [done|]. destruct p; cbn; lia. Qed.

Lemma long_join n a b : long n a -> long n b -> long n (join_witness_reports a b).
Proof. destruct a, b; cbn; rewrite ?length_app; lia. Qed.

Lemma from_pat_stack_is_Ok s : is_Ok (Pattern_from_pat_stack s).
Proof. unfold Pattern_from_pat_stack. destruct s as [|p [|p' s]]; by eexists. Qed.

Lemma from_constructor_is_Ok c args :
  is_or c = false -> length args = Pattern_a c -> is_Ok (Pattern_from_constructor_and_arguments c args).
Proof.
  intros Hc Hlen. destruct (serialize_multi_patterns_Ok args) as (out & Hout & Hrows).
  destruct c; try done; cbn in Hlen |- *;
    try (apply nil_length_inv in Hlen; subst; by eexists);
    rewrite Hlen, Nat.eqb_refl; cbn [negb]; rewrite Hout; next_step;
    try apply from_pat_stack_is_Ok.
  destruct (traverse_is_Ok (fun args => arg ← PatStack_first args; Ok (Enum enum_name variant_name arg)) out)
    as [pats ->].
  - intros row Hrow%Hrows%Forall2_length. destruct row; [cbn in Hrow; lia|by eexists].
  - apply from_pat_stack_is_Ok.
Qed.

(** A long enough report is split at every constructor. *)
Lemma split_leading_is_Ok ws c n :
  is_or c = false -> Pattern_a c + n <= length ws ->
  exists pat wr, split_into_leading_constructor (Witnesses ws) c = Ok (pat, wr) /\ long n wr.
Proof.
  intros Hc Hlen. cbn. unfold PatStack_split_at.
  destruct (Nat.ltb_spec (length ws) (Pattern_a c)); [lia|]. cbn [mbind Result_bind fst snd].
  destruct (from_constructor_is_Ok c (take (Pattern_a c) ws)) as [pat ->]; [done| |].
  { rewrite length_take. lia. }
  cbn. eexists _, _. split; [done|]. cbn. rewrite length_drop. lia.
Qed.

Section progress.
Context (E : Engines) (HE : wf_engines E) (F : ConstructorFactory) (root : TypeId).
Context {HO : SignatureOracle E F root}.
Context (A : nat).

(** Bounds for the depth and the number of sub-patterns in a column. *)
Definition bounded (d : nat) (p : Pattern) : Prop := depth p <= d /\ arity p <= A.

Definition weight (ds : list nat) : nat := sum_list_with (fun d => S A ^ d) ds.

Lemma max_list_with_elem {B} (f : B -> nat) x l n : max_list_with f l <= n -> x ∈ l -> f x <= n.
Proof.
  induction l as [|y l IH]; cbn; intros Hn Hx; [by apply elem_of_nil in Hx|].
  apply elem_of_cons in Hx as [->|Hx]; [lia|]. apply IH; [lia|done].
Qed.

Lemma sub_pats_bounded d p : bounded d p -> Forall (bounded (d - 1)) (sub_pats p).
Proof.
  intros [Hd Ha]. apply Forall_forall. intros s Hs. unfold bounded.
  destruct p; cbn in Hs; try (by apply elem_of_nil in Hs); cbn in Hd, Ha.
  - apply list_elem_of_fmap in Hs as (f & -> & Hf).
    pose proof (max_list_with_elem (fun f => depth f.2) f fields (d - 1)).
    pose proof (max_list_with_elem (fun f => arity f.2) f fields A). cbn in *. split; [apply H|apply H0]; lia || done.
  - apply list_elem_of_singleton in Hs as ->. split; lia.
  - pose proof (max_list_with_elem depth s elems (d - 1)).
    pose proof (max_list_with_elem arity s elems A). split; [apply H|apply H0]; lia || done.
Qed.

Lemma arity_bound d p : bounded d p -> is_or p = false -> Pattern_a p <= A /\ (d = 0 -> Pattern_a p = 0).
Proof. intros [Hd Ha] Ho. destruct p; cbn in *; split; try done; lia. Qed.

Lemma weight_app ds ds' : weight (ds ++ ds') = weight ds + weight ds'.
Proof. unfold weight. induction ds; cbn; lia. Qed.

Lemma weight_specialized n d ds :
  n <= A -> (d = 0 -> n = 0) -> weight (replicate n (d - 1) ++ ds) < weight (d :: ds).
Proof.
  intros Hn Hd. rewrite weight_app. cbn. apply Nat.add_lt_mono_r.
  assert (weight (replicate n (d - 1)) = n * S A ^ (d - 1)) as ->.
  { clear. unfold weight. induction n; cbn; lia. }
  destruct d as [|d]; [rewrite Hd by done; cbn; lia|].
  replace (S d - 1) with d by lia. cbn [Nat.pow].
  apply Nat.mul_lt_mono_pos_r; [|lia]. apply Nat.neq_0_lt_0, Nat.pow_nonzero. lia.
Qed.

Definition bounded_rows (ds : list nat) (P : Matrix) : Prop := Forall (Forall2 bounded ds) P.

Lemma bounded_wildcards d n : Forall2 bounded (replicate n d) (PatStack_fill_wildcards n).
Proof.
  unfold PatStack_fill_wildcards.
  induction n; cbn; constructor; [split; cbn; lia|done].
Qed.

Lemma m_n_typed ts P : typed_matrix E ts P -> P <> [] -> Matrix_m_n P = Ok (length P, length ts).
Proof.
  intros HP HnP. destruct P as [|r P]; [done|]. apply Forall_cons in HP as [Hr HP]. cbn.
  apply pat_types_length in Hr as ->.
  replace (forallb _ P) with true; [done|]. symmetry. apply forallb_forall.
  intros r' Hr'%list_elem_of_In. rewrite Forall_forall in HP.
  apply Nat.eqb_eq. apply (pat_types_length E). by apply HP.
Qed.

Lemma check_shape_typed ts n msg rows :
  typed_matrix E ts rows -> n = length ts -> check_shape n msg rows = Ok rows.
Proof.
  intros HP ->. unfold check_shape. destruct rows as [|r rows]; [done|].
  rewrite (m_n_typed ts) by done. cbn [mbind Result_bind fst snd]. by rewrite Nat.eqb_refl.
Qed.

Lemma specialized_is_Ok c P q t ts :
  typed_matrix E (t :: ts) P -> length q = S (length ts) -> pat_type E t c ->
  exists rows, compute_specialized_matrix c P q = Ok rows.
Proof.
  intros HP Hq Hc. destruct (pat_type_ctor E t c Hc) as (cts & Hct & _ & Hlen).
  pose proof (pat_type_not_or E t c Hc) as Hor.
  assert (is_Ok (concat_traverse (fun p_i => compute_specialized_matrix_row c p_i q) P)) as [rows Hrows].
  { apply concat_traverse_is_Ok. intros row Hrow. unfold typed_matrix in HP.
    rewrite Forall_forall in HP. specialize (HP row Hrow). inversion HP as [|? ? p rest Hp]; subst.
    unfold compute_specialized_matrix_row. cbn [PatStack_split_first mbind Result_bind fst snd].
    destruct (is_wildcard p) eqn:Hw; [destruct p; try done; by eexists|].
    rewrite specialized_row_constructed by (done || by eauto with sway).
    destruct (same_constructor_is_Ok c p Hor) as [b ->]. by eexists. }
  exists rows. rewrite specialized_unfold, Hrows by done. next_step.
  apply (check_shape_typed (cts ++ ts)); [by eapply specialized_typed_unchecked|].
  rewrite length_app. lia.
Qed.

Lemma default_is_Ok P q t ts :
  typed_matrix E (t :: ts) P -> length q = S (length ts) ->
  exists rows, compute_default_matrix P q = Ok rows.
Proof.
  intros HP Hq.
  assert (is_Ok (concat_traverse (fun p_i => compute_default_matrix_row p_i q) P)) as [rows Hrows].
  { apply concat_traverse_is_Ok. intros row Hrow. unfold typed_matrix in HP.
    rewrite Forall_forall in HP. specialize (HP row Hrow). inversion HP as [|? ? p rest Hp]; subst.
    apply pat_type_not_or in Hp. cbn. destruct p; try done; by eexists. }
  exists rows. unfold compute_default_matrix. rewrite Hrows. next_step.
  apply (check_shape_typed ts); [|lia]. by eapply default_typed_unchecked.
Qed.

Lemma specialized_bounded c P q rows t ts d ds :
  typed_matrix E (t :: ts) P -> pat_type E t c -> is_wildcard c = false \/ c = Wildcard ->
  bounded_rows (d :: ds) P -> compute_specialized_matrix c P q = Ok rows ->
  bounded_rows (replicate (Pattern_a c) (d - 1) ++ ds) rows.
Proof.
  intros HP Hc Hcw Hb H. apply Forall_forall. intros r Hr.
  apply (specialized_rows E c P q rows t ts) in Hr as (p & rest & Hin & Hcase);
    [|by eauto with sway|done..].
  unfold bounded_rows in Hb. rewrite Forall_forall in Hb. specialize (Hb _ Hin).
  apply Forall2_cons in Hb as [Hp Hrest].
  destruct Hcase as [[-> ->]|(Hw & Hsame & ->)].
  - apply Forall2_app; [apply bounded_wildcards|done].
  - apply Forall2_app; [|done].
    assert (length (sub_pats p) = Pattern_a c) as Hlen.
    { destruct (pat_type_ctor E t c Hc) as (cts & Hct & _ & Hlc).
      assert (pat_type E t p) as Hpt.
      { unfold typed_matrix in HP. rewrite Forall_forall in HP. specialize (HP _ Hin).
        by inversion HP. }
      rewrite <- Hlc. eapply pat_types_length, same_constructor_types; [done..| |done].
      destruct Hcw as [?| ->]; [done|]. by destruct p. }
    rewrite <- Hlen. pose proof (sub_pats_bounded d p Hp) as Hsub. clear -Hsub.
    induction Hsub; cbn; by constructor.
Qed.

Lemma default_bounded P q rows t ts d ds :
  typed_matrix E (t :: ts) P -> bounded_rows (d :: ds) P ->
  compute_default_matrix P q = Ok rows -> bounded_rows ds rows.
Proof.
  intros HP Hb H. apply Forall_forall. intros r Hr.
  apply (default_rows E P q rows t ts HP H) in Hr.
  unfold bounded_rows in Hb. rewrite Forall_forall in Hb. specialize (Hb _ Hr).
  by apply Forall2_cons in Hb as [_ ?].
Qed.

(** What the recursive calls establish: an answer, with enough witnesses. *)
Definition answers (w : nat) (rec : Matrix -> PatStack -> Result WitnessReport) : Prop :=
  forall ts ds P q, Forall (nested E root) ts -> typed_matrix E ts P -> pat_types E ts q ->
    bounded_rows ds (q :: P) -> weight ds < w ->
    exists wr, rec P q = Ok wr /\ long (lead q) wr.

Section step.
Context (w : nat) (rec : Matrix -> PatStack -> Result WitnessReport) (IH : answers w rec).
Context (t : TypeId) (ts : list TypeId) (d : nat) (ds : list nat).
Context (P : Matrix) (h : Pattern) (q : PatStack).
Hypothesis Hnt : nested E root t.
Hypothesis Hnts : Forall (nested E root) ts.
Hypothesis HP : typed_matrix E (t :: ts) P.
Hypothesis Hh : pat_type E t h.
Hypothesis Hq : pat_types E ts q.
Hypothesis Hbq : Forall2 bounded (d :: ds) (h :: q).
Hypothesis HbP : bounded_rows (d :: ds) P.
Hypothesis Hw : weight (d :: ds) <= w.

(** The calls for one constructor of the column. *)
Lemma specialized_answers c n :
  pat_type E t c -> Pattern_a c <= A -> (d = 0 -> Pattern_a c = 0) ->
  (forall scq r, compute_specialized_matrix c [h :: q] (h :: q) = Ok scq -> r ∈ scq -> n <= lead r) ->
  exists scp scq wr, compute_specialized_matrix c P (h :: q) = Ok scp /\
    compute_specialized_matrix c [h :: q] (h :: q) = Ok scq /\
    join_useful rec scp scq NoWitnesses = Ok wr /\ long n wr.
Proof.
  intros Hc Ha Hd Hn.
  assert (length (h :: q) = S (length ts)) as Hlen by (cbn; f_equal; by eauto with sway).
  assert (typed_matrix E (t :: ts) [h :: q]) as Htq by (repeat constructor; done).
  destruct (specialized_is_Ok c P (h :: q) t ts) as [scp Hscp]; [done..|].
  destruct (specialized_is_Ok c [h :: q] (h :: q) t ts) as [scq Hscq]; [done..|].
  specialize (Hn scq). exists scp, scq.
  destruct (pat_type_ctor E t c Hc) as (cts & Hct & _ & Hlc).
  assert (is_wildcard c = false \/ c = Wildcard) as Hcw by (destruct c; auto).
  pose proof (specialized_bounded c P (h :: q) scp t ts d ds HP Hc Hcw HbP Hscp) as Hbp'.
  assert (bounded_rows (d :: ds) [h :: q]) as Hb1 by (constructor; [done|constructor]).
  pose proof (specialized_bounded c _ (h :: q) scq t ts d ds Htq Hc Hcw Hb1 Hscq) as Hbq'.
  pose proof (specialized_typed E HE c P (h :: q) scp t ts cts HP Hc Hct Hlc Hscp) as Htp'.
  pose proof (specialized_typed E HE c _ (h :: q) scq t ts cts Htq Hc Hct Hlc Hscq) as Htq'.
  assert (Forall (nested E root) (cts ++ ts)) as Hnn.
  { apply Forall_app. split; [by eapply ctor_nested|done]. }
  pose proof (weight_specialized (Pattern_a c) d ds Ha Hd) as Hweight.
  assert (forall r, r ∈ scq -> exists wr, rec scp r = Ok wr /\ long n wr) as Hrec.
  { intros r Hr. unfold typed_matrix, bounded_rows in *. rewrite Forall_forall in Htq', Hbq'.
    destruct (IH (cts ++ ts) (replicate (Pattern_a c) (d - 1) ++ ds) scp r) as (wr & Hwr & Hlong);
      [done|done|by apply Htq'|constructor; [by apply Hbq'|done]|lia|].
    exists wr. split; [done|]. specialize (Hn r Hscq Hr). destruct wr; cbn in *; lia. }
  enough (forall wr0, long n wr0 -> exists wr, join_useful rec scp scq wr0 = Ok wr /\ long n wr) as Hj.
  { destruct (Hj NoWitnesses) as (wr & ? & ?); [done|]. eauto. }
  clear -Hrec. induction scq as [|r scq IHs]; intros wr0 Hl; [by exists wr0|]. cbn.
  destruct (Hrec r) as (wr & -> & Hlr); [left|]. cbn. apply IHs; [|by apply long_join].
  intros r' Hr'. apply Hrec. by right.
Qed.

Lemma constructed_answers :
  is_wildcard h = false -> exists wr, is_useful_constructed rec P (h :: q) h = Ok wr.
Proof.
  intros Hwild. pose proof Hbq as [Hbh _]%Forall2_cons.
  destruct (arity_bound d h Hbh) as [Ha Hd]; [by eauto with sway|].
  destruct (specialized_answers h 0) as (scp & scq & wr & Hscp & Hscq & Hj & _);
    [done..|intros; lia|].
  exists wr. unfold is_useful_constructed. rewrite Hscp. next_step.
  rewrite Hscq. done.
Qed.

Lemma wildcard_rows c scq r :
  is_wildcard h = true -> pat_type E t c ->
  compute_specialized_matrix c [h :: q] (h :: q) = Ok scq -> r ∈ scq ->
  r = PatStack_fill_wildcards (Pattern_a c) ++ q.
Proof.
  intros Hwild Hc Hscq Hr.
  apply (specialized_rows E c [h :: q] (h :: q) scq t ts) in Hr as (p & rest & Hin & Hcase);
    [|by eauto with sway|repeat constructor; done|done].
  apply list_elem_of_singleton in Hin as [= -> ->].
  destruct Hcase as [[_ ->]|(Hpw & _)]; congruence.
Qed.

Lemma constructors_answers sigma wr pats :
  is_wildcard h = true ->
  (forall c, c ∈ sigma -> pat_type E t c /\ Pattern_a c <= A /\ (d = 0 -> Pattern_a c = 0)) ->
  long (lead q) wr ->
  exists wr' pats', useful_constructors rec P (h :: q) sigma wr pats = Ok (wr', pats') /\
    long (lead q) wr'.
Proof.
  intros Hwild. revert wr pats. induction sigma as [|c sigma IHs]; intros wr pats Hsig Hwr; [by eauto|].
  destruct (Hsig c) as (Hc & Ha & Hd); [left|].
  destruct (specialized_answers c (Pattern_a c + lead q)) as (scp & scq & wr' & Hscp & Hscq & Hj & Hlong);
    [done..| |].
  { intros scq r Hscq Hr. rewrite (wildcard_rows c scq r) by done. by rewrite lead_fill. }
  assert (forall c, c ∈ sigma -> pat_type E t c /\ Pattern_a c <= A /\ (d = 0 -> Pattern_a c = 0))
    as Hsig' by (intros; apply Hsig; by right).
  cbn [useful_constructors]. rewrite Hscp. next_step. rewrite Hscq.
  next_step. rewrite Hj. next_step.
  destruct wr' as [|ws]; [by apply IHs|].
  destruct (split_leading_is_Ok ws c (lead q)) as (pat & wr2 & -> & Hl2);
    [by eauto with sway|done|]. cbn [mbind Result_bind fst snd].
  apply IHs; [done|]. destruct wr; [done|by apply long_join].
Qed.

Lemma sigma_bounds sigma c :
  Matrix_compute_sigma P = Ok sigma -> c ∈ sigma ->
  pat_type E t c /\ Pattern_a c <= A /\ (d = 0 -> Pattern_a c = 0).
Proof.
  intros Hs Hc. split; [by eapply sigma_typed|].
  apply (compute_sigma_elem P sigma c Hs) in Hc as (p & rest & Hin & ->).
  unfold typed_matrix, bounded_rows in HP, HbP. rewrite Forall_forall in HP, HbP.
  specialize (HP _ Hin). specialize (HbP _ Hin). inversion HP; subst.
  apply Forall2_cons in HbP as [Hbp _].
  assert (is_or p = false) as Ho by eauto with sway.
  destruct (arity_bound d p Hbp Ho) as [Ha Hd].
  assert (Pattern_a (Pattern_into_root_constructor p) = Pattern_a p) as ->; [|done].
  destruct p; try done; cbn; [by rewrite length_map|].
  unfold PatStack_fill_wildcards. by rewrite length_replicate.
Qed.

Lemma compute_sigma_is_Ok : exists sigma, Matrix_compute_sigma P = Ok sigma.
Proof.
  unfold Matrix_compute_sigma.
  destruct (traverse_is_Ok (fun row => p ← PatStack_first row; Ok (Pattern_into_root_constructor p)) P)
    as [firsts ->]; [|by eexists].
  intros row Hrow. unfold typed_matrix in HP. rewrite Forall_forall in HP.
  specialize (HP row Hrow). inversion HP; subst. by eexists.
Qed.

Lemma default_answers :
  exists dp wr, compute_default_matrix P (h :: q) = Ok dp /\ rec dp q = Ok wr /\ long (lead q) wr.
Proof.
  assert (length (h :: q) = S (length ts)) as Hlen by (cbn; f_equal; by eauto with sway).
  destruct (default_is_Ok P (h :: q) t ts) as [dp Hdp]; [done..|].
  pose proof Hbq as [_ Hbq']%Forall2_cons.
  destruct (IH ts ds dp q) as (wr & Hwr & Hl); [done|by eapply default_typed|done| | |by eauto].
  - constructor; [done|]. by eapply default_bounded.
  - cbn in Hw. fold (weight ds) in Hw. pose proof (Nat.pow_nonzero (S A) d). lia.
Qed.

Lemma wildcard_answers :
  is_wildcard h = true ->
  exists wr, is_useful_wildcard E F rec P (h :: q) = Ok wr /\ long (S (lead q)) wr.
Proof.
  intros Hwild. destruct compute_sigma_is_Ok as [sigma Hsigma].
  unfold is_useful_wildcard. rewrite Hsigma. next_step.
  assert (Forall (pat_type E t) sigma) as Htyped.
  { apply Forall_forall. intros c Hc. by eapply sigma_typed. }
  destruct (complete_decides t sigma Hnt Htyped) as [b Hb]. rewrite Hb. next_step.
  destruct b.
  - destruct (constructors_answers sigma NoWitnesses []) as (wr & pats & -> & Hl);
      [done| |done|].
    { intros c. by apply sigma_bounds. }
    cbn [mbind Result_bind fst snd]. destruct wr as [|ws]; [by exists NoWitnesses|].
    destruct (from_pat_stack_is_Ok pats) as [pat ->]. cbn [mbind Result_bind add_witness].
    eexists. split; [done|]. cbn in *. lia.
  - destruct default_answers as (dp & wr & -> & Hrec & Hl).
    cbn [mbind Result_bind PatStack_split_first fst snd]. rewrite Hrec. next_step.
    assert (is_Ok (if PatStack_is_empty sigma then Ok Wildcard
                   else create_pattern_not_present E F sigma)) as [pat ->].
    { destruct (PatStack_is_empty sigma) eqn:He; [by eexists|]. by eapply incomplete_pattern. }
    next_step. destruct wr as [|ws]; [by exists NoWitnesses|].
    eexists. split; [done|]. cbn in *. lia.
Qed.
End step.

Lemma is_useful_answers fuel : answers (S fuel) (is_useful fuel E F).
Proof.
  induction fuel as [|fuel IH]; intros ts ds P q Hn HP Hq Hb Hw;
    (destruct P as [|row P]; [eexists; split; [done|]; cbn;
       unfold PatStack_fill_wildcards; rewrite length_replicate; apply lead_length|]).
  all: pose proof (m_n_typed ts (row :: P) HP ltac:(done)) as Hmn; cbn [is_useful]; rewrite Hmn;
    cbn [mbind Result_bind length]; destruct Hq as [|t ts h q Hh Hq]; [by exists NoWitnesses|];
    cbn [length]; apply Forall_cons in Hb as [Hbq HbP]; inversion Hbq as [|d ? ds']; subst.
  - cbn in Hw. pose proof (Nat.pow_nonzero (S A) d). lia.
  - cbn [PatStack_first mbind Result_bind]. apply Forall_cons in Hn as [Hnt Hnts].
    destruct (is_wildcard h) eqn:Hwild.
    + destruct h; try done. by eapply wildcard_answers; [exact IH|..]; try done; lia.
    + destruct (constructed_answers (S fuel) (is_useful fuel E F) IH t ts d ds' (row :: P) h q)
        as [wr Hwr]; try done; [lia|].
      exists wr. split; [|destruct wr, h; cbn; done || lia].
      apply pat_type_not_or in Hh. by destruct h.
Qed.
End progress.
