(* ===== verification/MatchMain.v ===== *)
(** * The answers of [check_match_expression_usefulness]

    What the correctness of the usefulness algorithm means for a match
    expression: the arms, their scrutinees and the report; and matches outside
    of the hypotheses, where the analysis gives a wrong answer. *)

From S2P Require Import Prelude MatchRange MatchPattern MatchFactory MatchUsefulness MatchSemantics MatchTheory MatchSignature MatchCorrect.
Local Open Scope nat_scope.

(** ** Scrutinees and patterns match the same values *)

Lemma traverse_existsb {A} (f : A -> Result Pattern) (g : A -> value -> bool) l ps v :
  Forall (fun s => forall p, f s = Ok p -> matches p v = g s v) l ->
  traverse f l = Ok ps ->
  existsb (fun p => matches p v) ps = existsb (fun s => g s v) l.
Proof.
  intros Hl. revert ps. induction Hl as [|s l Hs _ IH]; intros ps H; cbn in H; inv_ok; [done|].
  cbn. rewrite (Hs _ Hok), (IH _ Hok0). done.
Qed.

Lemma traverse_forallb2 {A} (f : A -> Result Pattern) (g : A -> value -> bool) l ps vs :
  Forall (fun s => forall v p, f s = Ok p -> matches p v = g s v) l ->
  traverse f l = Ok ps -> forallb2 matches ps vs = forallb2 g l vs.
Proof.
  intros Hl. revert ps vs. induction Hl as [|s l Hs _ IH]; intros ps vs H; cbn in H; inv_ok; [done|].
  destruct vs as [|v vs]; [done|]. cbn. rewrite (Hs v _ Hok), (IH _ vs Hok0). done.
Qed.

Lemma from_literal_matches l p v :
  Pattern_from_literal l = Ok p -> matches p v = literal_matches l v.
Proof.
  intros H. destruct l; cbn in H; try (case_match; [|done]); inv_ok; destruct v; try done; cbn;
    unfold in_rangeb, from_single; cbn; lia.
Qed.

Section scrutinee_ind.
Context (Q : TyScrutinee -> Prop).
Hypothesis Hor : forall es, Forall Q es -> Q (ScrOr es).
Hypothesis Hcatch : Q ScrCatchAll.
Hypothesis Hlit : forall l, Q (ScrLiteral l).
Hypothesis Hvar : forall n, Q (ScrVariable n).
Hypothesis Hconst : forall n l, Q (ScrConstant n l).
Hypothesis Hstruct : forall n fs,
  Forall (fun f => match f.2 with Some s => Q s | None => True end) fs -> Q (StructScrutinee n fs).
Hypothesis Henum : forall n vr s, Q s -> Q (EnumScrutinee n vr s).
Hypothesis Htuple : forall es, Forall Q es -> Q (ScrTuple es).

Fixpoint scrutinee_ind' (s : TyScrutinee) : Q s :=
  let all := fix all (l : list TyScrutinee) : Forall Q l :=
    match l with
    | [] => Forall_nil_2 _
    | s :: l' => Forall_cons_2 _ _ _ (scrutinee_ind' s) (all l')
    end in
  match s with
  | ScrOr es => Hor es (all es)
  | ScrCatchAll => Hcatch
  | ScrLiteral l => Hlit l
  | ScrVariable n => Hvar n
  | ScrConstant n l => Hconst n l
  | StructScrutinee n fs => Hstruct n fs
      ((fix all_fields (l : list (string * option TyScrutinee)) :=
          match l return Forall (fun f => match f.2 with Some s => Q s | None => True end) l with
          | [] => Forall_nil_2 _
          | (g, Some s) :: l' => Forall_cons_2 _ (g, Some s) _ (scrutinee_ind' s) (all_fields l')
          | (g, None) :: l' => Forall_cons_2 _ (g, None) _ I (all_fields l')
          end) fs)
  | EnumScrutinee n vr s => Henum n vr s (scrutinee_ind' s)
  | ScrTuple es => Htuple es (all es)
  end.
End scrutinee_ind.

(** The pattern of a scrutinee matches the values that the scrutinee matches. *)
Lemma from_scrutinee_matches s :
  forall v p, Pattern_from_scrutinee s = Ok p -> matches p v = scrutinee_matches s v.
Proof.
  induction s as [es IH| |l|n|n l|n fs IH|n vr s IH|es IH] using scrutinee_ind';
    intros v p H; cbn in H; inv_ok; try done.
  - cbn. eapply traverse_existsb; [|done]. eapply Forall_impl; [exact IH|]. cbn. auto.
  - by apply from_literal_matches.
  - by apply from_literal_matches.
  - cbn. destruct v; try done. f_equal.
    rename select (traverse _ _ = _) into Htr. revert r Htr. clear -IH.
    induction IH as [|[g os] fs Hs _ IHfs]; intros r Htr; cbn in Htr; inv_ok; [done|].
    cbn. rewrite <- (IHfs _ Hok0). destruct os as [s|]; inv_ok; cbn; destruct (field g fields) as [v|]; try done.
    rename select (Pattern_from_scrutinee _ = _) into Hf. by rewrite (Hs v _ Hf).
  - cbn. destruct v; try done. by rewrite (IH _ _ Hok).
  - cbn. destruct v; try done. by eapply traverse_forallb2.
Qed.

(** ** The loop over the arms *)

Abbreviation rows pats := (map (fun p : Pattern => [p]) pats).

Lemma check_arms_spec fuel E F scrs P acc P' reach :
  check_arms fuel E F scrs P acc = Ok (P', reach) ->
  exists pats flags, Forall2 (fun s p => Pattern_from_scrutinee s = Ok p) scrs pats /\
    P' = P ++ rows pats /\ reach = acc ++ zip flags scrs /\ length flags = length scrs /\
    forall i p b, pats !! i = Some p -> flags !! i = Some b ->
      exists wr, is_useful fuel E F (P ++ rows (take i pats)) [p] = Ok wr /\ b = has_witnesses wr.
Proof.
  revert P acc. induction scrs as [|s scrs IH]; intros P acc H; cbn [check_arms] in H.
  - inv_ok. exists [], []. cbn. rewrite !app_nil_r. split_and!; try done; constructor.
  - inv_ok. rename r into p, r0 into wr, Hok into Hp, Hok0 into Hwr.
    apply IH in H as (pats & flags & Hpats & -> & -> & Hlen & Hflags).
    exists (p :: pats), (has_witnesses wr :: flags). split_and!.
    + by constructor.
    + cbn. by rewrite <- app_assoc.
    + cbn. by rewrite <- app_assoc.
    + cbn. by rewrite Hlen.
    + intros [|i] p' b Hp' Hb; cbn in *.
      * simplify_eq. exists wr. rewrite app_nil_r. done.
      * destruct (Hflags i p' b Hp' Hb) as (wr' & Hwr' & ->). exists wr'.
        rewrite <- app_assoc in Hwr'. done.
Qed.

Lemma patterns_unique scrs pats pats' :
  Forall2 (fun s p => Pattern_from_scrutinee s = Ok p) scrs pats ->
  Forall2 (fun s p => Pattern_from_scrutinee s = Ok p) scrs pats' -> pats = pats'.
Proof.
  intros H. revert pats'. induction H; inversion 1; subst; [done|]. f_equal; [congruence|auto].
Qed.


Section match_expression.
Context (E : Engines) (HE : wf_engines E) (t : TypeId) (F : ConstructorFactory).
Hypothesis HF : ConstructorFactory_new E t = Ok F.
Hypothesis Hdistinct : distinct_enum_names E (possible_types F).

(** The scrutinee of an arm of a match on a value of type [t] that the theorems are about: it
    has no or-patterns, its struct patterns list all fields in the order of the declaration,
    and its integer literals have exactly the type that they are compared with; an unsuffixed
    literal has the numeric type, which is not yet one of the integer types. *)
Definition arm_typed (s : TyScrutinee) : Prop :=
  exists p, Pattern_from_scrutinee s = Ok p /\ pat_type E t p.

Lemma arms_patterns scrs :
  Forall arm_typed scrs ->
  exists pats, Forall2 (fun s p => Pattern_from_scrutinee s = Ok p) scrs pats /\
    Forall (pat_type E t) pats /\ arm_patterns scrs = pats.
Proof.
  induction 1 as [|s scrs (p & Hp & Ht) _ (pats & H1 & H2 & H3)]; [by exists []|].
  exists (p :: pats). split_and!; [by constructor..|].
  unfold arm_patterns. cbn. rewrite Hp. cbn. f_equal. exact H3.
Qed.

Lemma rows_typed pats : Forall (pat_type E t) pats -> typed_matrix E [t] (rows pats).
Proof. induction 1; cbn; constructor; [by repeat constructor|done]. Qed.

(** A stack of one pattern without witnesses is covered by the rows above. *)
Lemma single_covered fuel pats p v :
  Forall (pat_type E t) pats -> pat_type E t p ->
  is_useful fuel E F (rows pats) [p] = Ok NoWitnesses ->
  has_type E t v -> matches p v = true -> exists p', p' ∈ pats /\ matches p' v = true.
Proof.
  intros Hpats Hp Hu Hv Hm. pose proof (factory_oracle E HE t F HF Hdistinct) as HO.
  destruct (is_useful_covers E HE F t fuel [t] (rows pats) [p]) with (vs := [v])
    as (row & Hrow & Hvm); [repeat constructor|by apply rows_typed|by repeat constructor|done
    |by repeat constructor|by repeat constructor|].
  apply list_elem_of_fmap in Hrow as (p' & -> & Hp'). exists p'. split; [done|]. by inversion Hvm.
Qed.



(** The analysis of a match: the early exit, or the loop and the last call. *)
Lemma check_match_Ok scrs wr reach :
  check_match_expression_usefulness E t scrs = Ok (wr, reach) ->
  (scrs = [] /\ wr = NoWitnesses /\ reach = [] /\ forall v, ~ has_type E t v) \/
  exists P, check_arms (usefulness_fuel (arm_patterns scrs)) E F scrs [] [] = Ok (P, reach) /\
    is_useful (usefulness_fuel (arm_patterns scrs)) E F P [Wildcard] = Ok wr.
Proof.
  unfold check_match_expression_usefulness. intros H. inv_ok.
  rename r into info, Hok into Hinfo, r0 into valid, Hok0 into Hvalid.
  destruct (negb valid && _) eqn:Hearly.
  - left. inv_ok. apply andb_true_iff in Hearly as [Hv Hlen%bool_decide_eq_true].
    apply nil_length_inv in Hlen as ->. split_and!; try done.
    intros v Hv'. unfold get in Hinfo. case_match eqn:Ht; [|done]. inv_ok.
    destruct valid; [done|]. inversion Hv'; simplify_eq; cbn in Hvalid; try done.
    unfold get in Hvalid. match goal with H : de_enum _ !! _ = _ |- _ => rewrite H in Hvalid end.
    cbn in Hvalid. inv_ok. apply negb_false_iff, bool_decide_eq_true in Hvalid.
    rewrite Hvalid in *. by eapply not_elem_of_nil.
  - right. rewrite HF in H. next_step in H. inv_ok.
    destruct r as [P reach']. eauto.
Qed.


End match_expression.

(** ** Theorems *)

(** C1. Exhaustivity is sound.  The arms have no or-patterns; struct patterns list all
    fields in the order of the declaration, and integer literals have exactly the type of
    the value they are compared with ([arm_typed]).  The enums nested in the matched type
    have distinct names, and the constructor factory was built for this type.  When the
    analysis of such a match reports no witnesses, every value of the matched type is
    matched by one of the arms. *)
Theorem match_exhaustive_sound E t F scrs reach :
  wf_engines E -> ConstructorFactory_new E t = Ok F -> distinct_enum_names E (possible_types F) ->
  Forall (arm_typed E t) scrs ->
  check_match_expression_usefulness E t scrs = Ok (NoWitnesses, reach) ->
  forall v, has_type E t v -> exists s, s ∈ scrs /\ scrutinee_matches s v = true.
Proof.
  intros HE HF Hd Harms Hc v Hv.
  destruct (arms_patterns E t scrs Harms) as (pats & Hpats & Hty & Hap).
  destruct (check_match_Ok E t F HF scrs _ _ Hc) as [(_ & _ & _ & Hno)|(P & Harm & Hu)];
    [by destruct (Hno v)|].
  apply check_arms_spec in Harm as (pats' & flags & Hpats' & -> & _).
  rewrite <- (patterns_unique scrs pats pats') in Hu by done.
  destruct (single_covered E HE t F HF Hd (usefulness_fuel (arm_patterns scrs)) pats Wildcard v Hty)
    as (p & Hp & Hm); [constructor|done..|].
  apply list_elem_of_lookup in Hp as [i Hi].
  destruct (Forall2_lookup_r _ _ _ _ _ Hpats Hi) as (s & Hs & Hsp).
  exists s. split; [apply list_elem_of_lookup; eauto|]. by rewrite <- (from_scrutinee_matches s v p Hsp).
Qed.

(** C5. Unreachability is sound: in a match as in the theorem on exhaustivity (no
    or-patterns, all struct fields in the order of the declaration, literals of exactly the
    matched type, distinct names of the nested enums, a constructor factory), every value
    matched by an arm that is reported unreachable is matched by an earlier arm. *)
Theorem unreachable_arm_covered E t F scrs wr reach i s :
  wf_engines E -> ConstructorFactory_new E t = Ok F -> distinct_enum_names E (possible_types F) ->
  Forall (arm_typed E t) scrs ->
  check_match_expression_usefulness E t scrs = Ok (wr, reach) ->
  reach !! i = Some (false, s) ->
  forall v, has_type E t v -> scrutinee_matches s v = true ->
  exists j s', j < i /\ scrs !! j = Some s' /\ scrutinee_matches s' v = true.
Proof.
  intros HE HF Hd Harms Hc Hi v Hv Hm.
  destruct (arms_patterns E t scrs Harms) as (pats & Hpats & Hty & Hap).
  destruct (check_match_Ok E t F HF scrs _ _ Hc) as [(_ & _ & -> & _)|(P & Harm & _)]; [done|].
  apply check_arms_spec in Harm as (pats' & flags & Hpats' & -> & -> & Hlen & Hflags).
  apply lookup_zip_Some in Hi as [Hfi Hsi].
  destruct (Forall2_lookup_l _ _ _ _ _ Hpats' Hsi) as (p & Hp & Hsp).
  destruct (Hflags i p false Hp Hfi) as (wr' & Hu & Hw). destruct wr'; [|done].
  assert (Forall (pat_type E t) pats') as Hty'.
  { apply Forall_forall. intros x [k Hk]%list_elem_of_lookup.
    destruct (Forall2_lookup_r _ _ _ _ _ Hpats' Hk) as (s' & Hs' & Hx).
    rewrite Forall_forall in Harms. destruct (Harms s') as (p' & Hp' & ?);
      [apply list_elem_of_lookup; eauto|congruence]. }
  destruct (single_covered E HE t F HF Hd (usefulness_fuel (arm_patterns scrs)) (take i pats') p v)
    as (p' & Hp' & Hm'); try done.
  - by apply Forall_take.
  - rewrite Forall_forall in Hty'. apply Hty'. apply list_elem_of_lookup; eauto.
  - by rewrite (from_scrutinee_matches s v p Hsp).
  - apply list_elem_of_lookup in Hp' as [j Hj]. apply lookup_take_Some in Hj as [Hj Hji].
    destruct (Forall2_lookup_r _ _ _ _ _ Hpats' Hj) as (s' & Hs' & Hsp').
    exists j, s'. split_and!; [done..|]. by rewrite <- (from_scrutinee_matches s' v p' Hsp').
Qed.


(** ** Sample matches

    The types are [0] bool, [1] unit, [2] [enum E { A : bool, B : bool }],
    [3] [(bool, bool)], [4] [struct P { x : bool, y : bool }], [5] and [6] two
    enums named [F] of different modules, with variants [A], [B] and [A], [B],
    [C], [7] the tuple [(a::F, b::F)], and [8] u8. *)
Module Sample.
Definition engines : Engines := mkEngines
  (list_to_map [(0, TBoolean); (1, TTuple []); (2, TEnum 0); (3, TTuple [0; 0]); (4, TStruct 0);
                (5, TEnum 1); (6, TEnum 2); (7, TTuple [5; 6]); (8, TUnsignedInteger Eight)])
  (list_to_map [(0, mkEnumDecl "E" [] [("A", 0); ("B", 0)]);
                (1, mkEnumDecl "F" [] [("A", 1); ("B", 1)]);
                (2, mkEnumDecl "F" [] [("A", 1); ("B", 1); ("C", 1)])])
  (list_to_map [(0, mkStructDecl "P" [] [("x", 0); ("y", 0)])]) ∅ ∅.

Definition tt : TyScrutinee := ScrLiteral (LitBoolean true).
Definition ff : TyScrutinee := ScrLiteral (LitBoolean false).

(** [match e { E::A(_) => .., E::B(true) => .., E::B(false) => .., E::A(true) => .. }] *)
Definition arms : list TyScrutinee :=
  [EnumScrutinee "E" "A" ScrCatchAll; EnumScrutinee "E" "B" tt; EnumScrutinee "E" "B" ff;
   EnumScrutinee "E" "A" tt].

Definition factory : ConstructorFactory := mkFactory [TBoolean; TEnum 0].

Lemma engines_wf : wf_engines engines.
Proof.
  assert (map_Forall (fun _ info =>
    match info with TEnum d => bool_decide (is_Some (de_enum engines !! d)) | _ => true end = true)
    (te engines)) as H1 by (by apply (bool_decide_unpack _); vm_compute).
  assert (map_Forall (fun _ decl => NoDup (map fst (enum_variants decl))) (de_enum engines)) as H2
    by (by apply (bool_decide_unpack _); vm_compute).
  assert (map_Forall (fun _ decl => NoDup (map fst (struct_fields decl))) (de_struct engines)) as H3
    by (by apply (bool_decide_unpack _); vm_compute).
  split.
  - intros t d Ht. eapply bool_decide_eq_true. exact (H1 t (TEnum d) Ht).
  - intros d decl Hd. exact (H2 d decl Hd).
  - intros d decl Hd. exact (H3 d decl Hd).
Qed.

Lemma factory_E : ConstructorFactory_new engines 2 = Ok factory.
Proof. vm_compute. reflexivity. Qed.

Lemma names_E : distinct_enum_names engines (possible_types factory).
Proof.
  assert (forall d, TEnum d ∈ possible_types factory -> d = 0) as H0.
  { intros d Hd. cbn in Hd. rewrite !elem_of_cons, elem_of_nil in Hd. naive_solver. }
  intros d d' decl decl' ->%H0 ->%H0 Hd Hd' _. congruence.
Qed.

Lemma arms_E : Forall (arm_typed engines 2) arms.
Proof.
  assert (forall vr s p, (vr = "A" \/ vr = "B") -> Pattern_from_scrutinee s = Ok p ->
    pat_type engines 0 p -> arm_typed engines 2 (EnumScrutinee "E" vr s)) as Harm.
  { intros vr s p Hvr Hp Ht. exists (Enum "E" vr p). split; [cbn; by rewrite Hp|].
    change "E"%string with (enum_suffix (mkEnumDecl "E" [] [("A", 0); ("B", 0)])).
    apply (pt_enum _ _ 0 _ _ 0); [done..| |done].
    cbn. rewrite !elem_of_cons. naive_solver. }
  repeat constructor; (eapply Harm; [auto|done|constructor; done]).
Qed.
End Sample.

Lemma match_exhaustive_sound_witness :
  exists s, s ∈ Sample.arms /\ scrutinee_matches s (VEnum "E" "B" (VBool true)) = true.
Proof.
  eapply (match_exhaustive_sound Sample.engines 2 Sample.factory Sample.arms);
    [apply Sample.engines_wf|apply Sample.factory_E|apply Sample.names_E|apply Sample.arms_E
    |vm_compute; reflexivity|].
  apply (ty_enum _ 2 0 (mkEnumDecl "E" [] [("A", 0); ("B", 0)]) "B" 0); [done..| |by constructor].
  cbn. rewrite !elem_of_cons. auto.
Defined.

Lemma unreachable_arm_covered_witness :
  exists j s', j < 3 /\ Sample.arms !! j = Some s' /\
    scrutinee_matches s' (VEnum "E" "A" (VBool true)) = true.
Proof.
  eapply (unreachable_arm_covered Sample.engines 2 Sample.factory Sample.arms);
    [apply Sample.engines_wf|apply Sample.factory_E|apply Sample.names_E|apply Sample.arms_E
    |vm_compute; reflexivity|reflexivity| |reflexivity].
  apply (ty_enum _ 2 0 (mkEnumDecl "E" [] [("A", 0); ("B", 0)]) "A" 0); [done..| |by constructor].
  cbn. rewrite !elem_of_cons. auto.
Defined.


(** ** Wrong answers outside of the hypotheses *)

(** Or-patterns: [E::A(true) | E::B(false)], [E::A(false)] is reported
    exhaustive, but no arm matches [E::B(true)]. *)
Lemma or_pattern_unsound :
  let arms := [ScrOr [EnumScrutinee "E" "A" Sample.tt; EnumScrutinee "E" "B" Sample.ff];
               EnumScrutinee "E" "A" Sample.ff] in
  (exists reach, check_match_expression_usefulness Sample.engines 2 arms = Ok (NoWitnesses, reach)) /\
  existsb (fun s => scrutinee_matches s (VEnum "E" "B" (VBool true))) arms = false.
Proof. split; [eexists; vm_compute; reflexivity|reflexivity]. Qed.

(** Struct fields by position: [P { x: true, y }], [P { y: false, x }] is
    reported exhaustive, but no arm matches [P { x: false, y: true }]. *)
Lemma field_order_unsound :
  let arms := [StructScrutinee "P" [("x", Some Sample.tt); ("y", None)];
               StructScrutinee "P" [("y", Some Sample.ff); ("x", None)]] in
  (exists reach, check_match_expression_usefulness Sample.engines 4 arms = Ok (NoWitnesses, reach)) /\
  existsb (fun s => scrutinee_matches s (VStruct "P" [("x", VBool false); ("y", VBool true)])) arms = false.
Proof. split; [eexists; vm_compute; reflexivity|reflexivity]. Qed.

(** Enums that share a name: the variants of the second component are those of
    the first enum named [F], and the variant [C] is not missed. *)
Lemma enum_name_unsound :
  let arms := [ScrTuple [ScrCatchAll; EnumScrutinee "F" "A" ScrCatchAll];
               ScrTuple [ScrCatchAll; EnumScrutinee "F" "B" ScrCatchAll]] in
  (exists reach, check_match_expression_usefulness Sample.engines 7 arms = Ok (NoWitnesses, reach)) /\
  existsb (fun s => scrutinee_matches s (VTuple [VEnum "F" "A" (VTuple []); VEnum "F" "C" (VTuple [])])) arms
    = false.
Proof. split; [eexists; vm_compute; reflexivity|reflexivity]. Qed.

(** A column with a wildcard: [(true, true)], [(_, false)], [(false, _)] covers
    [(bool, bool)], but witnesses are reported. *)
Lemma wildcard_false_alarm :
  let arms := [ScrTuple [Sample.tt; Sample.tt]; ScrTuple [ScrCatchAll; Sample.ff];
               ScrTuple [Sample.ff; ScrCatchAll]] in
  (exists w reach, check_match_expression_usefulness Sample.engines 3 arms = Ok (Witnesses w, reach)) /\
  forall a b, existsb (fun s => scrutinee_matches s (VTuple [VBool a; VBool b])) arms = true.
Proof. split; [eexists _, _; vm_compute; reflexivity|by intros [] []]. Qed.

(** Alternatives with different numbers of sub-patterns end in an internal
    error. *)
Lemma or_wildcard_internal_error :
  check_match_expression_usefulness Sample.engines 2
    [ScrOr [ScrCatchAll; EnumScrutinee "E" "B" Sample.ff]; EnumScrutinee "E" "A" Sample.ff]
  = Err (Internal "found invalid matrix size").
Proof. vm_compute. reflexivity. Qed.

(** An unsuffixed literal next to one with a suffix ends in an internal error. *)
Lemma mixed_literals_internal_error :
  check_match_expression_usefulness Sample.engines 8 [ScrLiteral (LitNumeric 0); ScrLiteral (LitU8 1); ScrCatchAll]
  = Err (Internal "expected all patterns to be of the same type").
Proof. vm_compute. reflexivity. Qed.
