(* ===== verification/LexToken.v ===== *)
(** * Source text and spans

    The standard library's UTF-8 strings as far as the lexer uses them, and
    [sway-types/src/span.rs].  A [str] is the list of its characters, a character
    its code point; positions are byte positions.  The crate [bytecount] is a
    parameter of [line_col]. *)

From S2P Require Import Prelude.
From Stdlib Require Import Ascii.

(** ** Characters *)

Abbreviation char := Z.
Abbreviation str := (list Z).

Definition chr (a : ascii) : char := Z.of_N (N_of_ascii a).
Definition as_ascii (c : char) : option ascii :=
  if ((0 <=? c) && (c <? 128))%Z then Some (ascii_of_N (Z.to_N c)) else None.

(** The characters of a literal *)
Fixpoint text (s : string) : str :=
  match s with EmptyString => [] | String a s' => chr a :: text s' end.

Definition newline : char := 10%Z.
Definition quote : char := 34%Z.

(** [char::len_utf8] *)
Definition len_utf8 (c : char) : nat :=
  if (c <? 0x80)%Z then 1 else if (c <? 0x800)%Z then 2 else if (c <? 0x10000)%Z then 3 else 4.

(** [char::encode_utf8] *)
Definition encode_utf8 (c : char) : list Z :=
  let cont k := Z.lor 0x80 (Z.land (Z.shiftr c k) 0x3f) in
  (if c <? 0x80 then [c]
   else if c <? 0x800 then [Z.lor 0xc0 (Z.shiftr c 6); cont 0]
   else if c <? 0x10000 then [Z.lor 0xe0 (Z.shiftr c 12); cont 6; cont 0]
   else [Z.lor 0xf0 (Z.shiftr c 18); cont 12; cont 6; cont 0])%Z.

(** [char::from_u32] *)
Definition is_scalar (c : Z) : bool :=
  ((0 <=? c) && (c <? 0xd800) || (0xdfff <? c) && (c <=? 0x10ffff))%Z.
Definition from_u32 (n : Z) : option char := if is_scalar n then Some n else None.

(** [char::is_whitespace]: the property White_Space of Unicode *)
Definition is_whitespace (c : char) : bool :=
  ((9 <=? c) && (c <=? 13) || (c =? 32) || (c =? 0x85) || (c =? 0xa0) || (c =? 0x1680)
   || (0x2000 <=? c) && (c <=? 0x200a) || (c =? 0x2028) || (c =? 0x2029) || (c =? 0x202f)
   || (c =? 0x205f) || (c =? 0x3000))%Z.

(** [char::to_digit] *)
Definition to_digit (radix : Z) (c : char) : option Z :=
  (let d := if (48 <=? c) && (c <=? 57) then c - 48
            else if (97 <=? c) && (c <=? 122) then c - 97 + 10
            else if (65 <=? c) && (c <=? 90) then c - 65 + 10
            else 36 in
   if d <? radix then Some d else None)%Z.

(** ** Strings *)

(** [str::len], [str::as_bytes] *)
Definition str_len (s : str) : nat := sum_list_with len_utf8 s.
Definition as_bytes (s : str) : list Z := concat (map encode_utf8 s).

(** [str::split_at_checked]; the position must be at the boundary of a character. *)
Fixpoint split_at (s : str) (pos : nat) : option (str * str) :=
  match pos, s with
  | 0, _ => Some ([], s)
  | S _, [] => None
  | S _, c :: s' =>
      if len_utf8 c <=? pos
      then '(a, b) ← split_at s' (pos - len_utf8 c); Some (c :: a, b)
      else None
  end.

Definition is_char_boundary (s : str) (pos : nat) : bool :=
  match split_at s pos with Some _ => true | None => false end.

(** [str::get] of a range, and the indexing that panics *)
Definition str_get (s : str) (start stop : nat) : option str :=
  if start <=? stop then '(a, _) ← split_at s stop; '(_, b) ← split_at a start; Some b else None.

Definition unwrap {A} (o : option A) : Result A :=
  match o with Some a => Ok a | None => Err (Panic "called `Option::unwrap()` on a `None` value") end.

Definition str_index (s : str) (start stop : nat) : Result str :=
  match str_get s start stop with Some a => Ok a | None => Err (Panic "byte index is not a char boundary") end.

(** [str::trim_start], [str::trim_end] *)
Fixpoint trim_start (s : str) : str :=
  match s with
  | [] => []
  | c :: s' => if is_whitespace c then trim_start s' else s
  end.
Definition trim_end (s : str) : str := reverse (trim_start (reverse s)).

(** [str::rfind] of a character: the byte position of its last occurrence *)
Definition rfind_from (c : char) : nat -> str -> option nat :=
  fix go pos s :=
    match s with
    | [] => None
    | x :: s' => match go (pos + len_utf8 x) s' with
                 | Some p => Some p
                 | None => if (x =? c)%Z then Some pos else None
                 end
    end.
Definition rfind (s : str) (c : char) : option nat := rfind_from c 0 s.

(** ** Spans *)

(** An [Arc<str>] is its text at an address. *)
Record Source : Type := mkSource { address : positive; source_text : str }.

Definition ptr_eq (a b : Source) : bool := (address a =? address b)%positive.

Record Position : Type := mkPosition { input : str; pos_of : nat }.
Record LineCol : Type := mkLineCol { line : nat; col : nat }.
Record LineColRange : Type := mkLineColRange { start_line_col : LineCol; end_line_col : LineCol }.

Definition Position_new (input : str) (pos : nat) : option Position :=
  if is_char_boundary input pos then Some (mkPosition input pos) else None.

Section line_col.
Context (count : list Z -> Z -> nat).

Definition Position_line_col (self : Position) : Result LineCol :=
  if str_len (input self) <? pos_of self then Err (Panic "position out of bounds")
  else
    let newlines_up_to_pos := count (take (pos_of self) (as_bytes (input self))) newline in
    let line := newlines_up_to_pos + 1 in
    before ← str_index (input self) 0 (pos_of self);
    let last_newline_pos := match rfind before newline with Some pos => pos + 1 | None => 0 end in
    let col := pos_of self - last_newline_pos + 1 in
    Ok (mkLineCol line col).
End line_col.

Record Span : Type := mkSpan { span_src : Source; start : nat; stop : nat; source_id : option Z }.

Definition Span_eqb (a b : Span) : bool :=
  (start a =? start b) && (stop a =? stop b) && bool_decide (source_id a = source_id b).

Definition Span_new (src : Source) (start stop : nat) (source : option Z) : option Span :=
  _ ← str_get (source_text src) start stop;
  Some (mkSpan src start stop source).

Definition empty_at_start (span : Span) : Result Span :=
  match Span_new (span_src span) (start span) (start span) (source_id span) with
  | Some s => Ok s
  | None => Err (Panic "the existing `span` is a valid `Span`")
  end.

Definition empty_at_end (span : Span) : Result Span :=
  match Span_new (span_src span) (stop span) (stop span) (source_id span) with
  | Some s => Ok s
  | None => Err (Panic "the existing `span` is a valid `Span`")
  end.

Definition from_string (source : Source) : Result Span :=
  unwrap (Span_new source 0 (str_len (source_text source)) None).

Definition start_pos (self : Span) : Result Position := unwrap (Position_new (source_text (span_src self)) (start self)).
Definition end_pos (self : Span) : Result Position := unwrap (Position_new (source_text (span_src self)) (stop self)).

Definition Span_as_str (self : Span) : Result str := str_index (source_text (span_src self)) (start self) (stop self).

Definition Span_trim (self : Span) : Result Span :=
  s ← Span_as_str self;
  let start_delta := str_len s - str_len (trim_start s) in
  let end_delta := str_len s - str_len (trim_end s) in
  Ok (mkSpan (span_src self) (start self + start_delta) (stop self - end_delta) (source_id self)).

Definition next_char_utf8 (self : Span) : Result (option Span) :=
  match split_at (source_text (span_src self)) (stop self) with
  | None => Err (Panic "byte index is not a char boundary")
  | Some (_, []) => Ok None
  | Some (_, c :: _) =>
      Ok (Some (mkSpan (span_src self) (stop self) (stop self + len_utf8 c) (source_id self)))
  end.

Definition join (s1 s2 : Span) : Result Span :=
  if ptr_eq (span_src s1) (span_src s2) && bool_decide (source_id s1 = source_id s2)
  then Ok (mkSpan (span_src s1) (Nat.min (start s1) (start s2)) (Nat.max (stop s1) (stop s2)) (source_id s1))
  else Err (Panic "Spans from different files cannot be joined.").

Fixpoint join_from (s : Span) (spans : list Span) : Result Span :=
  match spans with [] => Ok s | s2 :: spans' => s ← join s s2; join_from s spans' end.

(** [DUMMY_SPAN] is allocated once. *)
Definition join_all (dummy : Span) (spans : list Span) : Result Span :=
  match spans with [] => Ok dummy | s :: spans' => join_from s spans' end.

Definition Span_line_col (count : list Z -> Z -> nat) (self : Span) : Result LineColRange :=
  p ← start_pos self; a ← Position_line_col count p;
  q ← end_pos self; b ← Position_line_col count q;
  Ok (mkLineColRange a b).

Definition Span_is_empty (self : Span) : bool := start self =? stop self.

Definition Span_contains (self other : Span) : bool :=
  ptr_eq (span_src self) (span_src other) && bool_decide (source_id self = source_id other)
  && (start self <=? start other) && (stop other <=? stop self).

(** ** Identifiers *)

Record Ident : Type := mkIdent { name_override_opt : option str; ident_span : Span; is_raw_ident : bool }.

Definition Ident_as_str (self : Ident) : Result str :=
  match name_override_opt self with Some x => Ok x | None => Span_as_str (ident_span self) end.

Definition new_with_raw (span : Span) (is_raw_ident : bool) : Result Ident :=
  span ← Span_trim span;
  Ok (mkIdent None span is_raw_ident).

Definition Ident_new (span : Span) : Result Ident :=
  span ← Span_trim span;
  Ok (mkIdent None span false).

(** * Tokens

    [sway-types/src/ast.rs], [sway-ast/src/token.rs], the literals of
    [sway-ast/src/literal.rs] that the lexer makes, and
    [sway-error/src/lex_error.rs]. *)

(** ** Delimiters and punctuation *)

Inductive Delimiter : Type := Parenthesis | Brace | Bracket.

#[export] Instance Delimiter_eq_dec : EqDecision Delimiter.
Proof. solve_decision. Defined.

Definition as_open_char (self : Delimiter) : char :=
  match self with Parenthesis => chr "(" | Brace => chr "{" | Bracket => chr "[" end.
Definition as_close_char (self : Delimiter) : char :=
  match self with Parenthesis => chr ")" | Brace => chr "}" | Bracket => chr "]" end.

Definition as_open_delimiter (self : char) : option Delimiter :=
  match as_ascii self with
  | Some "("%char => Some Parenthesis
  | Some "{"%char => Some Brace
  | Some "["%char => Some Bracket
  | _ => None
  end.

Definition as_close_delimiter (self : char) : option Delimiter :=
  match as_ascii self with
  | Some ")"%char => Some Parenthesis
  | Some "}"%char => Some Brace
  | Some "]"%char => Some Bracket
  | _ => None
  end.

Inductive PunctKind : Type :=
  | Semicolon | Colon | ForwardSlash | Comma | Star | Add | Sub | LessThan | GreaterThan | Equals
  | Dot | Bang | Percent | Ampersand | Caret | Pipe | Underscore | Sharp.

#[export] Instance PunctKind_eq_dec : EqDecision PunctKind.
Proof. solve_decision. Defined.

Definition as_char (self : PunctKind) : char :=
  match self with
  | Semicolon => chr ";"
  | Colon => chr ":"
  | ForwardSlash => chr "/"
  | Comma => chr ","
  | Star => chr "*"
  | Add => chr "+"
  | Sub => chr "-"
  | LessThan => chr "<"
  | GreaterThan => chr ">"
  | Equals => chr "="
  | Dot => chr "."
  | Bang => chr "!"
  | Percent => chr "%"
  | Ampersand => chr "&"
  | Caret => chr "^"
  | Pipe => chr "|"
  | Underscore => chr "_"
  | Sharp => chr "#"
  end.

Definition as_punct_kind (self : char) : option PunctKind :=
  match as_ascii self with
  | Some ";"%char => Some Semicolon
  | Some ":"%char => Some Colon
  | Some "/"%char => Some ForwardSlash
  | Some ","%char => Some Comma
  | Some "*"%char => Some Star
  | Some "+"%char => Some Add
  | Some "-"%char => Some Sub
  | Some "<"%char => Some LessThan
  | Some ">"%char => Some GreaterThan
  | Some "="%char => Some Equals
  | Some "."%char => Some Dot
  | Some "!"%char => Some Bang
  | Some "%"%char => Some Percent
  | Some "&"%char => Some Ampersand
  | Some "^"%char => Some Caret
  | Some "|"%char => Some Pipe
  | Some "_"%char => Some Underscore
  | Some "#"%char => Some Sharp
  | _ => None
  end.

Inductive Spacing : Type := Joint | Alone.

Record Punct : Type := mkPunct { punct_span : Span; kind : PunctKind; spacing : Spacing }.

(** ** Literals *)

Inductive LitIntType : Type := LitU8 | LitU16 | LitU32 | LitU64 | LitU256 | LitI8 | LitI16 | LitI32 | LitI64.

(** A [BigUint] is a non-negative integer. *)
Inductive Literal : Type :=
  | LitString (span : Span) (parsed : str)
  | LitChar (span : Span) (parsed : char)
  | LitInt (span : Span) (parsed : Z) (ty_opt : option (LitIntType * Span)) (is_generated_b256 : bool).

Definition literal_span (self : Literal) : Span :=
  match self with LitString span _ | LitChar span _ | LitInt span _ _ _ => span end.

(** ** Comments *)

Inductive CommentKind : Type := Newlined | Trailing | Inlined | Multilined.
Record Comment : Type := mkComment { comment_span : Span; comment_kind : CommentKind }.

Inductive DocStyle : Type := Outer | Inner.
Record DocComment : Type := mkDocComment { doc_span : Span; content_span : Span; doc_style : DocStyle }.

(** ** Token trees *)

(** [GenericTokenTree], [CommentedTokenTree], [CommentedGroup] and
    [CommentedTokenStream]: a group has its delimiter, the trees and the span of its
    stream, and its own span. *)
Inductive CommentedTokenTree : Type :=
  | CommentTree (comment : Comment)
  | CPunct (punct : Punct)
  | CIdent (ident : Ident)
  | CGroup (delimiter : Delimiter) (token_trees : list CommentedTokenTree) (full_span : Span) (span : Span)
  | CLiteral (lit : Literal)
  | CDocComment (doc_comment : DocComment).

Record CommentedTokenStream : Type :=
  mkCommented { commented_trees : list CommentedTokenTree; commented_span : Span }.

Inductive TokenTree : Type :=
  | TPunct (punct : Punct)
  | TIdent (ident : Ident)
  | TGroup (delimiter : Delimiter) (token_trees : list TokenTree) (full_span : Span) (span : Span)
  | TLiteral (lit : Literal)
  | TDocComment (doc_comment : DocComment).

Record TokenStream : Type := mkTokenStream { token_trees : list TokenTree; full_span : Span }.

Definition tree_span (self : CommentedTokenTree) : Span :=
  match self with
  | CommentTree cmt => comment_span cmt
  | CPunct punct => punct_span punct
  | CIdent ident => ident_span ident
  | CGroup _ _ _ span => span
  | CLiteral lit => literal_span lit
  | CDocComment doc => doc_span doc
  end.

Fixpoint tree_strip_comments (self : CommentedTokenTree) : option TokenTree :=
  match self with
  | CommentTree _ => None
  | CPunct punct => Some (TPunct punct)
  | CIdent ident => Some (TIdent ident)
  | CGroup delimiter trees full_span span =>
      Some (TGroup delimiter (omap tree_strip_comments trees) full_span span)
  | CLiteral lit => Some (TLiteral lit)
  | CDocComment doc => Some (TDocComment doc)
  end.

Definition strip_comments (self : CommentedTokenStream) : TokenStream :=
  mkTokenStream (omap tree_strip_comments (commented_trees self)) (commented_span self).

(** ** Errors of the lexer *)

Inductive LexErrorKind : Type :=
  | UnclosedMultilineComment (unclosed_indices : list nat)
  | UnexpectedCloseDelimiter (position : nat) (close_delimiter : Delimiter)
  | MismatchedDelimiters (open_position close_position : nat) (open_delimiter close_delimiter : Delimiter)
  | UnclosedDelimiter (open_position : nat) (open_delimiter : Delimiter)
  | UnclosedStringLiteral (position : nat)
  | UnclosedCharLiteral (position : nat)
  | ExpectedCloseQuote (position : nat)
  | IncompleteHexIntLiteral (position : nat)
  | IncompleteBinaryIntLiteral (position : nat)
  | IncompleteOctalIntLiteral (position : nat)
  | InvalidIntSuffix (suffix : Ident)
  | InvalidCharacter (position : nat) (character : char)
  | InvalidHexEscape
  | UnicodeEscapeMissingBrace (position : nat)
  | InvalidUnicodeEscapeDigit (position : nat)
  | UnicodeEscapeOutOfRange (position : nat)
  | UnicodeEscapeInvalidCharValue (span : Span)
  | UnicodeTextDirInLiteral (position : nat) (character : char)
  | InvalidEscapeCode (position : nat)
  | U256NotInHex.

Record LexError : Type := mkLexError { error_span : Span; error_kind : LexErrorKind }.

(** ** The characters of delimiters and punctuation *)

(** A test on the code points of ASCII, decided by evaluation *)
Lemma ascii_cases (P : char -> Prop) (c : char) :
  (forall b : ascii, as_ascii c = Some b -> c = chr b -> P (chr b)) -> (as_ascii c = None -> P c) -> P c.
Proof.
  intros Hs Hn. unfold as_ascii in *. destruct ((0 <=? c)%Z && (c <? 128)%Z) eqn:Hc; [|by apply Hn].
  assert (c = chr (ascii_of_N (Z.to_N c))) as Heq.
  { unfold chr. rewrite N_ascii_embedding by lia. lia. }
  rewrite Heq. by apply Hs.
Qed.
