(* ===== verification/LexSpan.v ===== *)
(** * Theorems on text and spans

    Slices of a text at the boundaries of its characters; the operations of [Span]
    keep spans inside of the text, [join] is the least span that contains two others,
    and [line_col] orders the positions of a text. *)

From S2P Require Import Prelude LexToken.

(** ** Slices *)

Lemma len_utf8_pos c : 1 <= len_utf8 c <= 4.
Proof. unfold len_utf8. case_tests; lia. Qed.

Lemma str_len_app a b : str_len (a ++ b) = str_len a + str_len b.
Proof. apply sum_list_with_app. Qed.

Lemma str_len_cons c s : str_len (c :: s) = len_utf8 c + str_len s.
Proof. done. Qed.

Lemma str_len_length s : length s <= str_len s.
Proof. induction s as [|c s IH]; [done|]. rewrite str_len_cons. pose proof (len_utf8_pos c). cbn. lia. Qed.

Lemma split_at_cons c s pos : split_at (c :: s) (len_utf8 c + pos) = '(a, b) ← split_at s pos; Some (c :: a, b).
Proof.
  pose proof (len_utf8_pos c) as Hc. destruct (len_utf8 c + pos) as [|n] eqn:Hn; [lia|].
  cbn [split_at]. rewrite <- Hn. replace (len_utf8 c <=? len_utf8 c + pos) with true by (symmetry; apply Nat.leb_le; lia).
  by rewrite (Nat.add_comm (len_utf8 c)), Nat.add_sub.
Qed.

Lemma split_at_app a b : split_at (a ++ b) (str_len a) = Some (a, b).
Proof.
  induction a as [|c a IH]; [by destruct b|]. cbn [app]. by rewrite str_len_cons, split_at_cons, IH.
Qed.

Lemma split_at_Some s pos a b : split_at s pos = Some (a, b) <-> s = a ++ b /\ str_len a = pos.
Proof.
  split; [|intros [-> <-]; apply split_at_app].
  revert pos a b. induction s as [|c s IH]; intros pos a b H; (destruct pos as [|pos]; [by injection H as <- <-|]); [done|].
  cbn [split_at] in H. destruct (len_utf8 c <=? S pos) eqn:Hc; [|done]. apply Nat.leb_le in Hc.
  destruct (split_at s (S pos - len_utf8 c)) as [[a' b']|] eqn:Hs; [|done]. injection H as <- <-.
  apply IH in Hs as [-> Hl]. rewrite str_len_cons. split; [done|lia].
Qed.

Lemma str_get_app a b c : str_get (a ++ b ++ c) (str_len a) (str_len a + str_len b) = Some b.
Proof.
  unfold str_get. replace (str_len a <=? str_len a + str_len b) with true by (symmetry; apply Nat.leb_le; lia).
  by rewrite <- str_len_app, app_assoc, split_at_app; cbn; rewrite split_at_app.
Qed.

Lemma str_get_Some s p q u :
  str_get s p q = Some u <-> exists a b, s = a ++ u ++ b /\ str_len a = p /\ p + str_len u = q.
Proof.
  split.
  - unfold str_get. destruct (p <=? q); [|done].
    destruct (split_at s q) as [[x b]|] eqn:Hq; [|done]. cbn.
    destruct (split_at x p) as [[a u']|] eqn:Hp; [|done]. cbn. intros [= ->].
    apply split_at_Some in Hq as [-> <-]. apply split_at_Some in Hp as [-> <-].
    exists a, b. by rewrite <- app_assoc, str_len_app.
  - intros (a & b & -> & <- & <-). apply str_get_app.
Qed.

(** ** Boundaries *)

Definition boundary (s : str) (pos : nat) : Prop := exists a b, s = a ++ b /\ str_len a = pos.

Lemma is_char_boundary_spec s pos : is_char_boundary s pos = true <-> boundary s pos.
Proof.
  unfold is_char_boundary. destruct (split_at s pos) as [[a b]|] eqn:H; split; try done.
  - intros _. apply split_at_Some in H as [-> <-]. by exists a, b.
  - intros (a & b & Hab). by rewrite (proj2 (split_at_Some s pos a b) Hab) in H.
Qed.

Lemma boundary_le s p : boundary s p -> p <= str_len s.
Proof. intros (a & b & -> & <-). rewrite str_len_app. lia. Qed.

Lemma boundary_end s : boundary s (str_len s).
Proof. exists s, []. by rewrite app_nil_r. Qed.

Lemma boundary_start s : boundary s 0.
Proof. by exists [], s. Qed.

Lemma prefix_of_both (a b c d : str) : a ++ b = c ++ d -> str_len a <= str_len c -> exists u, c = a ++ u.
Proof.
  revert c. induction a as [|x a IH]; intros c H Hle; [by eexists|]. destruct c as [|y c].
  - rewrite str_len_cons in Hle. pose proof (len_utf8_pos x). cbn in Hle. lia.
  - injection H as -> H. destruct (IH c H) as [u ->]; [rewrite !str_len_cons in Hle; lia|]. by eexists.
Qed.

Lemma str_get_is_Some s p q : is_Some (str_get s p q) <-> p <= q /\ boundary s p /\ boundary s q.
Proof.
  split.
  - intros [u (a & b & -> & <- & <-)%str_get_Some]. split; [lia|]. split; [by exists a, (u ++ b)|].
    exists (a ++ u), b. by rewrite <- app_assoc, str_len_app.
  - intros (Hle & (a & b & -> & <-) & (c & d & Hc & <-)). destruct (prefix_of_both _ _ _ _ Hc Hle) as [u ->].
    rewrite str_len_app. rewrite <- app_assoc in Hc. apply app_inv_head in Hc as ->. rewrite str_get_app. by eexists.
Qed.

(** ** Valid spans *)

Definition valid_span (sp : Span) : Prop :=
  let s := source_text (span_src sp) in start sp <= stop sp /\ boundary s (start sp) /\ boundary s (stop sp).

Lemma Span_new_Some src p q id sp :
  Span_new src p q id = Some sp <-> sp = mkSpan src p q id /\ valid_span sp.
Proof.
  unfold Span_new, valid_span. pose proof (str_get_is_Some (source_text src) p q) as Hiff.
  destruct (str_get (source_text src) p q) as [u|]; cbn.
  - split; [intros [= <-]; split; [done|by apply Hiff]|by intros [-> _]].
  - split; [done|]. intros [-> H]. apply Hiff in H as [? H]. done.
Qed.

Lemma as_str_Ok sp s :
  Span_as_str sp = Ok s <-> str_get (source_text (span_src sp)) (start sp) (stop sp) = Some s.
Proof. unfold Span_as_str, str_index. case_match; split; intros H'; by inversion H'. Qed.

Lemma valid_as_str sp : valid_span sp -> is_Ok (Span_as_str sp).
Proof.
  intros Hv. apply str_get_is_Some in Hv as [s Hs]. exists s. by apply as_str_Ok.
Qed.

Lemma join_Ok s1 s2 s :
  join s1 s2 = Ok s <->
    address (span_src s1) = address (span_src s2) /\ LexToken.source_id s1 = LexToken.source_id s2 /\
    s = mkSpan (span_src s1) (Nat.min (start s1) (start s2)) (Nat.max (stop s1) (stop s2)) (LexToken.source_id s1).
Proof.
  unfold join, ptr_eq. destruct (Pos.eqb_spec (address (span_src s1)) (address (span_src s2))); cbn.
  - case_bool_decide; split; try done; [intros [= <-]; done|by intros (_ & _ & ->)|by intros (_ & ? & _)].
  - split; [done|by intros [? _]].
Qed.

Lemma contains_spec a b :
  Span_contains a b = true <->
    address (span_src a) = address (span_src b) /\ LexToken.source_id a = LexToken.source_id b /\
    start a <= start b /\ stop b <= stop a.
Proof.
  unfold Span_contains, ptr_eq. rewrite !andb_true_iff, bool_decide_eq_true, !Nat.leb_le, Pos.eqb_eq. tauto.
Qed.

(** ** Joining *)

(** Spans of one file *)
Definition of_file (src : Source) (id : option Z) (sp : Span) : Prop :=
  span_src sp = src /\ LexToken.source_id sp = id /\ valid_span sp.

Lemma join_of_file src id s1 s2 :
  of_file src id s1 -> of_file src id s2 -> exists s, join s1 s2 = Ok s /\ of_file src id s /\
    forall t, Span_contains t s = true <-> Span_contains t s1 = true /\ Span_contains t s2 = true.
Proof.
  intros (H1 & I1 & V1) (H2 & I2 & V2). eexists. split; [apply join_Ok; by rewrite H1, H2, I1, I2|]. split.
  - split; [done|]. split; [done|]. unfold valid_span in *. cbn. rewrite H1, H2 in *. destruct V1 as (? & ? & ?), V2 as (? & ? & ?).
    split; [lia|]. split; [destruct (Nat.min_dec (start s1) (start s2)) as [->| ->]|destruct (Nat.max_dec (stop s1) (stop s2)) as [->| ->]]; done.
  - intros t. rewrite !contains_spec. cbn. rewrite H1, H2, I1, I2. split; [intros (? & ? & ? & ?)|intros ((? & ? & ? & ?) & _ & _ & ? & ?)];
      repeat split; try done; lia.
Qed.

(** [join_all] returns the least span that contains the given ones: for spans of one
    file it does not panic, its result is a valid span of the file, and a span contains
    it iff it contains each of them. *)
Theorem join_all_least dummy src id s spans :
  Forall (of_file src id) (s :: spans) ->
  exists r, join_all dummy (s :: spans) = Ok r /\ of_file src id r /\
    forall t, Span_contains t r = true <-> forall x, x ∈ s :: spans -> Span_contains t x = true.
Proof.
  intros [Hs Hall]%Forall_cons. cbn [join_all]. revert s Hs. induction Hall as [|s2 spans Hs2 _ IH]; intros s Hs; cbn [join_from].
  - exists s. split; [done|]. split; [done|]. intros t. split; [by intros H x ->%list_elem_of_singleton|]. intros H. apply H. by left.
  - destruct (join_of_file _ _ _ _ Hs Hs2) as (s' & -> & Hs' & Hc). next_step. destruct (IH s' Hs') as (r & -> & Hr & Hiff).
    exists r. split; [done|]. split; [done|]. intros t. rewrite Hiff. split.
    + intros H x Hx. assert (Span_contains t s' = true) as [? ?]%Hc by (apply H; by left).
      apply elem_of_cons in Hx as [->|[->|Hx]%elem_of_cons]; [done|done|]. apply H. by right.
    + intros H x [->|Hx]%elem_of_cons; [|apply H; by do 2 right]. apply Hc. split; apply H; [by left|by right; left].
Qed.

(** ** Lines and columns *)

Section lines.
Context (count : list Z -> Z -> nat).
(** The documentation of [bytecount::count]: the number of occurrences of a byte *)
Context (count_spec : forall bytes b, count bytes b = length (filter (fun x => x = b) bytes)).

Lemma encode_utf8_length c : length (encode_utf8 c) = len_utf8 c.
Proof. unfold encode_utf8, len_utf8. by case_tests. Qed.

Lemma as_bytes_app a b : as_bytes (a ++ b) = as_bytes a ++ as_bytes b.
Proof. unfold as_bytes. by rewrite map_app, concat_app. Qed.

Lemma as_bytes_length s : length (as_bytes s) = str_len s.
Proof.
  induction s as [|c s IH]; [done|]. change (as_bytes (c :: s)) with (encode_utf8 c ++ as_bytes s).
  by rewrite length_app, encode_utf8_length, IH.
Qed.

Lemma high_byte k x : Z.testbit k 7 = true -> Z.lor k x <> newline.
Proof. intros Hk H. apply (f_equal (fun z => Z.testbit z 7)) in H. by rewrite Z.lor_spec, Hk in H. Qed.

(** The newlines of a text *)
Definition newlines (s : str) : nat := length (filter (fun c => c = newline) s).

Lemma newlines_app a b : newlines (a ++ b) = newlines a + newlines b.
Proof. unfold newlines. by rewrite filter_app, length_app. Qed.

(** A newline is the only character with its byte. *)
Lemma count_newlines s : count (as_bytes s) newline = newlines s.
Proof.
  rewrite count_spec. unfold newlines. induction s as [|c s IH]; [done|].
  change (as_bytes (c :: s)) with (encode_utf8 c ++ as_bytes s). rewrite filter_app, length_app, IH.
  change (c :: s) with ([c] ++ s). rewrite filter_app, length_app. f_equal.
  unfold encode_utf8. cbv zeta. destruct (Z.ltb_spec c 0x80) as [Hc|Hc]; [done|].
  rewrite (filter_cons_False _ c) by (unfold newline; lia).
  case_tests; rewrite ?filter_cons_False by (by apply high_byte); done.
Qed.

(** Where the line of the end of a text starts *)
Definition line_start (s : str) : nat := match rfind s newline with Some pos => pos + 1 | None => 0 end.

Lemma rfind_from_bounds c p s i : rfind_from c p s = Some i -> p <= i < p + str_len s.
Proof.
  revert p. induction s as [|x s IH]; intros p; cbn [rfind_from]; [done|]. rewrite str_len_cons. pose proof (len_utf8_pos x).
  destruct (rfind_from c (p + len_utf8 x) s) as [j|] eqn:Hj; [|case_match; intros [= <-]; lia].
  intros [= <-]. apply IH in Hj. lia.
Qed.

Lemma rfind_from_app c p a m : c ∉ m -> rfind_from c p (a ++ m) = rfind_from c p a.
Proof.
  intros Hm. revert p. induction a as [|x a IH]; intros p; cbn [app rfind_from]; [|by rewrite IH].
  revert p. induction m as [|x m IHm]; intros p; [done|]. cbn. apply not_elem_of_cons in Hm as [Hx Hm].
  rewrite IHm by done. by destruct (Z.eqb_spec x c) as [->|].
Qed.

Lemma line_start_le s : line_start s <= str_len s.
Proof.
  unfold line_start, rfind. destruct (rfind_from newline 0 s) as [i|] eqn:Hi; [|lia]. apply rfind_from_bounds in Hi. lia.
Qed.

Lemma line_col_run a b :
  Position_line_col count (mkPosition (a ++ b) (str_len a)) =
    Ok (mkLineCol (newlines a + 1) (str_len a - line_start a + 1)).
Proof.
  unfold Position_line_col. cbn [input pos_of]. rewrite str_len_app.
  destruct (Nat.ltb_spec (str_len a + str_len b) (str_len a)); [lia|].
  assert (str_index (a ++ b) 0 (str_len a) = Ok a) as ->.
  { unfold str_index. pose proof (str_get_app [] a b) as Hg. cbn [app str_len Nat.add] in Hg.
    change (str_get (a ++ b) 0 (str_len a) = Some a) in Hg. by rewrite Hg. }
  next_step. rewrite as_bytes_app, <- (as_bytes_length a) at 1. by rewrite take_app_length, count_newlines.
Qed.

(** [line_col] orders the positions of a text: it does not panic at the boundaries of
    characters, and a later boundary has a later line, or a later column of the same line;
    so that different boundaries have different lines or columns. *)
Theorem line_col_monotone s p q :
  boundary s p -> boundary s q -> p < q ->
  exists a b, Position_line_col count (mkPosition s p) = Ok a /\ Position_line_col count (mkPosition s q) = Ok b /\
    (line a < line b \/ line a = line b /\ col a < col b).
Proof.
  intros (a & a' & -> & <-) (b & b' & Heq & <-) Hlt. destruct (prefix_of_both _ _ _ _ Heq) as [m ->]; [lia|].
  rewrite <- app_assoc in Heq. apply app_inv_head in Heq as ->. do 2 eexists. split; [apply line_col_run|].
  rewrite app_assoc. split; [apply line_col_run|]. cbn. rewrite newlines_app. destruct (newlines m) as [|n] eqn:Hn; [right|left; lia].
  split; [lia|]. assert (line_start (a ++ m) = line_start a) as ->.
  { unfold line_start, rfind. rewrite rfind_from_app; [done|]. intros Hin. unfold newlines in Hn.
    apply nil_length_inv in Hn. assert (newline ∈ filter (fun c => c = newline) m) as Hf by (by apply list_elem_of_filter).
    rewrite Hn in Hf. by apply elem_of_nil in Hf. }
  pose proof (line_start_le a). lia.
Qed.
End lines.

(** ** Examples *)

Definition sample_source : Source := mkSource 1 (text "let x" ++ [newline; 233%Z; 59%Z]).

Lemma join_all_least_witness :
  exists r, join_all (mkSpan sample_source 0 0 None) [mkSpan sample_source 4 5 None; mkSpan sample_source 0 3 None] = Ok r /\
    of_file sample_source None r /\
    forall t, Span_contains t r = true <->
      forall x, x ∈ [mkSpan sample_source 4 5 None; mkSpan sample_source 0 3 None] -> Span_contains t x = true.
Proof.
  apply (join_all_least (mkSpan sample_source 0 0 None) sample_source None).
  assert (forall a b, a <= b -> is_char_boundary (source_text sample_source) a = true ->
    is_char_boundary (source_text sample_source) b = true -> of_file sample_source None (mkSpan sample_source a b None)) as H.
  { intros a b Hle Ha Hb. split; [done|]. split; [done|]. split; [done|]. by split; apply is_char_boundary_spec. }
  constructor; [|constructor; [|constructor]]; apply H; (lia || (vm_compute; reflexivity)).
Defined.

Definition sample_count (bytes : list Z) (b : Z) : nat := length (filter (fun x => x = b) bytes).

(** The position after the two bytes of the accented letter *)
Lemma line_col_monotone_witness :
  exists a b, Position_line_col sample_count (mkPosition (source_text sample_source) 5) = Ok a /\
    Position_line_col sample_count (mkPosition (source_text sample_source) 8) = Ok b /\
    (line a < line b \/ line a = line b /\ col a < col b).
Proof.
  apply (line_col_monotone sample_count); [done| | |lia]; apply is_char_boundary_spec; vm_compute; reflexivity.
Defined.
