(* ===== verification/Lexer.v ===== *)
(** * The lexer

    [sway-parse/src/token.rs].  The state of a [Lexer] is the errors in its handler
    and the rest of its stream of characters; a function is a state transformer that
    can panic.  A Rust [Result] that the code propagates with [?] is a sum.  The
    tables of the crates [unicode_xid] and [unicode_bidi] are parameters.  Loops that
    consume characters run on fuel, one more than the characters that are left.
    The variable [file_start_offset], which the code updates and does not use, is
    left out. *)

From S2P Require Import Prelude LexToken.
From Stdlib Require Import Ascii.

(** ** The stream of characters *)

Record CharIndicesInner : Type := mkCharIndices { iter_src : str; position : nat }.

Definition CharIndicesInner_next (self : CharIndicesInner) : Result (option (nat * char) * CharIndicesInner) :=
  match split_at (iter_src self) (position self) with
  | None => Err (Panic "byte index is not a char boundary")
  | Some (_, []) => Ok (None, self)
  | Some (_, c :: rest) =>
      let position' := match rest with
                       | _ :: _ => position self + len_utf8 c
                       | [] => str_len (iter_src self)
                       end in
      Ok (Some (position self, c), mkCharIndices (iter_src self) position')
  end.

(** The items that the iterator yields from a position on *)
Fixpoint char_indices (pos : nat) (s : str) : list (nat * char) :=
  match s with [] => [] | c :: s' => (pos, c) :: char_indices (pos + len_utf8 c) s' end.

(** ** State *)

Record Lexer : Type := mkLexer { handler : list LexError; stream : list (nat * char) }.

Inductive ErrorEmitted : Type := emitted.

Definition M (A : Type) : Type := Lexer -> Result (A * Lexer).

#[export] Instance M_ret : MRet M := fun A a l => Ok (a, l).
#[export] Instance M_bind : MBind M :=
  fun A B f m l => match m l with Ok (a, l') => f a l' | Err e => Err e end.

(** The operator [?] *)
Definition try_bind {A B E} (m : M (A + E)) (f : A -> M (B + E)) : M (B + E) :=
  r ← m; match r with inl a => f a | inr e => mret (inr e) end.
Notation "x ←? m ; k" := (try_bind m (fun x => k))
  (at level 20, m at level 100, k at level 200, right associativity, only parsing).

Definition lift {A} (r : Result A) : M A := fun l => match r with Ok a => Ok (a, l) | Err e => Err e end.

(** [Peekable::next], [peek] and [next_if] *)
Definition next : M (option (nat * char)) :=
  fun l => match stream l with
           | [] => Ok (None, l)
           | x :: s => Ok (Some x, mkLexer (handler l) s)
           end.
Definition peek : M (option (nat * char)) := fun l => Ok (head (stream l), l).
Definition next_if (p : char -> bool) : M (option (nat * char)) :=
  x ← peek;
  match x with
  | Some (_, c) => if p c then next else mret None
  | None => mret None
  end.

(** The fuel of a loop that consumes a character in every round *)
Definition loop {A} (body : nat -> M A) : M A := fun l => body (S (length (stream l))) l.
Definition out_of_fuel {A} : M A := fun _ => Err OutOfFuel.

(** The trees before an open delimiter, its position and the delimiter *)
Abbreviation Parent := (list CommentedTokenTree * nat * Delimiter)%type.

Section lexer.
Context (is_xid_start is_xid_continue is_text_dir : char -> bool).
Context (src : Source) (source_id : option Z).

Definition src_len : nat := str_len (source_text src).

(** ** Spans and errors *)

Definition span (start stop : nat) : M Span := lift (unwrap (Span_new src start stop source_id)).
Definition span_one (start : nat) (c : char) : M Span := span start (start + len_utf8 c).
Definition span_until (start : nat) : M Span :=
  x ← peek;
  span start (match x with Some (stop, _) => stop | None => src_len end).

(** [handler.emit_err] *)
Definition error (kind : LexErrorKind) (sp : Span) : M ErrorEmitted :=
  fun l => Ok (emitted, mkLexer (handler l ++ [mkLexError sp kind]) (stream l)).

(** ** Comments *)

(** [stream.find] of a newline *)
Fixpoint find_newline (s : list (nat * char)) : option nat * list (nat * char) :=
  match s with
  | [] => (None, [])
  | (ix, c) :: s' => if (c =? newline)%Z then (Some ix, s') else find_newline s'
  end.

Definition find_line_end (stop : nat) : M nat :=
  fun l => let '(found, s) := find_newline (stream l) in
           Ok (default stop found, mkLexer (handler l) s).

Definition doc_style_of (s : str) : option DocStyle :=
  match s !! 2, s !! 3 with
  | Some c, d =>
      if (c =? chr "!")%Z then Some Inner
      else if (c =? chr "/")%Z then
        match d with
        | Some d => if (d =? chr "/")%Z then None else Some Outer
        | None => Some Outer
        end
      else None
  | None, _ => None
  end.

Definition lex_line_comment (stop index : nat) (comment_kind : CommentKind) : M CommentedTokenTree :=
  _ ← next;
  stop ← find_line_end stop;
  sp ← span index stop;
  s ← lift (Span_as_str sp);
  match doc_style_of s with
  | Some doc_style =>
      content_span ← span (index + 3) stop;
      mret (CDocComment (mkDocComment sp content_span doc_style))
  | None => mret (CommentTree (mkComment sp comment_kind))
  end.

(** [unclosed_indices] is a stack whose head is the last element of the vector. *)
Definition unclosed_multiline_comment (unclosed_indices : list nat) : M (option CommentedTokenTree) :=
  last ← lift (unwrap (head unclosed_indices));
  sp ← span last (src_len - 1);
  _ ← error (UnclosedMultilineComment (reverse unclosed_indices)) sp;
  mret None.

Fixpoint block_comment_loop (fuel : nat) (unclosed_indices : list nat) (comment_kind : CommentKind)
    : M (option CommentedTokenTree) :=
  match fuel with
  | 0 => out_of_fuel
  | S fuel' =>
      x ← next;
      match x with
      | None => unclosed_multiline_comment unclosed_indices
      | Some (next_index, c) =>
          if (c =? chr "*")%Z then
            y ← next;
            match y with
            | None => unclosed_multiline_comment unclosed_indices
            | Some (slash_ix, d) =>
                if (d =? chr "/")%Z then
                  start ← lift (unwrap (head unclosed_indices));
                  match tail unclosed_indices with
                  | [] =>
                      sp ← span start (slash_ix + len_utf8 (chr "/"));
                      mret (Some (CommentTree (mkComment sp comment_kind)))
                  | rest => block_comment_loop fuel' rest comment_kind
                  end
                else block_comment_loop fuel' unclosed_indices comment_kind
            end
          else if (c =? chr "/")%Z then
            y ← next;
            match y with
            | None => unclosed_multiline_comment unclosed_indices
            | Some (_, d) =>
                if (d =? chr "*")%Z then block_comment_loop fuel' (next_index :: unclosed_indices) comment_kind
                else block_comment_loop fuel' unclosed_indices comment_kind
            end
          else if (c =? newline)%Z then block_comment_loop fuel' unclosed_indices Multilined
          else block_comment_loop fuel' unclosed_indices comment_kind
      end
  end.

Definition lex_block_comment (index : nat) : M (option CommentedTokenTree) :=
  _ ← next;
  loop (fun fuel => block_comment_loop fuel [index] Inlined).

(** ** Escape codes *)

(** The digits of a unicode escape, up to the closing brace: the value, the position
    of the first digit and the one of the brace *)
Fixpoint unicode_digits (fuel : nat) (start_opt : option nat) (char_value : Z)
    : M ((Z * option nat * nat) + option ErrorEmitted) :=
  match fuel with
  | 0 => out_of_fuel
  | S fuel' =>
      x ← next;
      match x with
      | None => mret (inr None)
      | Some (position, c) =>
          if (c =? chr "}")%Z then mret (inl (char_value, start_opt, position))
          else
            let start_opt := match start_opt with None => Some position | Some p => Some p end in
            match to_digit 16 c with
            | None =>
                sp ← span_one position c;
                e ← error (InvalidUnicodeEscapeDigit position) sp;
                mret (inr (Some e))
            | Some digit => unicode_digits fuel' start_opt (char_value * 16 + digit)%Z
            end
      end
  end.

Definition unicode_escape (index : nat) : M (char + option ErrorEmitted) :=
  x ← next;
  match x with
  | None => mret (inr None)
  | Some (_, c) =>
      if negb (c =? chr "{")%Z then
        sp ← span_one index c;
        e ← error (UnicodeEscapeMissingBrace index) sp;
        mret (inr (Some e))
      else
        r ←? loop (fun fuel => unicode_digits fuel None 0);
        let '(char_value, digits_start_position_opt, digits_end_position) := r in
        let digits_start_position := default digits_end_position digits_start_position_opt in
        if (2 ^ 32 <=? char_value)%Z then
          sp ← span digits_start_position digits_end_position;
          e ← error (UnicodeEscapeOutOfRange index) sp;
          mret (inr (Some e))
        else match from_u32 char_value with
        | None =>
            span_all ← span_until index;
            sp ← span digits_start_position digits_end_position;
            e ← error (UnicodeEscapeInvalidCharValue span_all) sp;
            mret (inr (Some e))
        | Some parsed_character => mret (inl parsed_character)
        end
  end.

Definition hex_escape (index : nat) : M (char + option ErrorEmitted) :=
  high ← next;
  low ← next;
  match high, low with
  | Some (_, high), Some (_, low) =>
      match to_digit 16 high, to_digit 16 low with
      | Some high, Some low =>
          parsed_character ← lift (unwrap (from_u32 (Z.lor (Z.shiftl high 4) low)));
          mret (inl parsed_character)
      | _, _ =>
          sp ← span_until index;
          e ← error InvalidHexEscape sp;
          mret (inr (Some e))
      end
  | _, _ => mret (inr None)
  end.

(** The escapes of one character *)
Definition simple_escape (c : char) : option char :=
  if (c =? quote)%Z then Some quote
  else if (c =? chr "'")%Z then Some (chr "'")
  else if (c =? chr "n")%Z then Some newline
  else if (c =? chr "r")%Z then Some 13%Z
  else if (c =? chr "t")%Z then Some 9%Z
  else if (c =? chr "\")%Z then Some (chr "\")
  else if (c =? chr "0")%Z then Some 0%Z
  else None.

Definition parse_escape_code : M (char + option ErrorEmitted) :=
  x ← next;
  match x with
  | None => mret (inr None)
  | Some (index, c) =>
      match simple_escape c with
      | Some parsed => mret (inl parsed)
      | None =>
          if (c =? chr "x")%Z then hex_escape index
          else if (c =? chr "u")%Z then unicode_escape index
          else
            sp ← span_one index c;
            e ← error (InvalidEscapeCode index) sp;
            mret (inr (Some e))
      end
  end.

(** [map_err(|e| e.unwrap_or_else(..))] *)
Definition escape_or (unclosed : M ErrorEmitted) : M (char + ErrorEmitted) :=
  r ← parse_escape_code;
  match r with
  | inl c => mret (inl c)
  | inr (Some e) => mret (inr e)
  | inr None => e ← unclosed; mret (inr e)
  end.

(** ** String and character literals *)

(** The last boundary of a character at or before a position *)
Fixpoint boundary_before (stop : nat) : nat :=
  if is_char_boundary (source_text src) stop then stop
  else match stop with 0 => 0 | S stop' => boundary_before stop' end.

Definition unclosed_string_lit (index stop : nat) : M ErrorEmitted :=
  sp ← span index stop;
  error (UnclosedStringLiteral index) sp.

Fixpoint string_loop (fuel : nat) (index : nat) (parsed : str) : M (str + ErrorEmitted) :=
  match fuel with
  | 0 => out_of_fuel
  | S fuel' =>
      x ← next;
      match x with
      | None => e ← unclosed_string_lit index (boundary_before (src_len - 1)); mret (inr e)
      | Some (next_index, c) =>
          if (c =? chr "\")%Z then
            ch ←? escape_or (unclosed_string_lit index src_len);
            string_loop fuel' index (parsed ++ [ch])
          else if (c =? quote)%Z then mret (inl parsed)
          else if is_text_dir c then
            sp ← span_one next_index c;
            _ ← error (UnicodeTextDirInLiteral next_index c) sp;
            string_loop fuel' index parsed
          else string_loop fuel' index (parsed ++ [c])
      end
  end.

Definition lex_string (index : nat) (character : char) : M (option CommentedTokenTree + ErrorEmitted) :=
  if negb (character =? quote)%Z then mret (inl None)
  else
    parsed ←? loop (fun fuel => string_loop fuel index []);
    sp ← span_until index;
    mret (inl (Some (CLiteral (LitString sp parsed)))).

Definition is_quote (c : char) : bool := (c =? chr "'")%Z.

Definition unclosed_char_lit (index : nat) : M ErrorEmitted :=
  sp ← span index src_len;
  error (UnclosedCharLiteral index) sp.

Definition next_char (index : nat) : M ((nat * char) + ErrorEmitted) :=
  x ← next;
  match x with
  | Some y => mret (inl y)
  | None => e ← unclosed_char_lit index; mret (inr e)
  end.

Definition char_escape (index : nat) (c : char) : M (char + ErrorEmitted) :=
  if (c =? chr "\")%Z then escape_or (unclosed_char_lit index) else mret (inl c).

(** The rest of a literal such as ['ab'] *)
Fixpoint quoted_loop (fuel : nat) (index : nat) (string : str) : M (str + ErrorEmitted) :=
  match fuel with
  | 0 => out_of_fuel
  | S fuel' =>
      x ←? next_char index;
      if is_quote x.2 then mret (inl string)
      else quoted_loop fuel' index (string ++ [x.2])
  end.

(** Not a closing quote: recover as a string. *)
Definition char_as_string (index next_index : nat) (parsed c : char) (sp : Span)
    : M (option CommentedTokenTree + ErrorEmitted) :=
  second ←? char_escape index c;
  string ←? loop (fun fuel => quoted_loop fuel index [parsed; second]);
  sp' ← span next_index (next_index + str_len string);
  _ ← error (ExpectedCloseQuote next_index) sp';
  mret (inl (Some (CLiteral (LitString sp string)))).

Definition lex_char (index : nat) (character : char) : M (option CommentedTokenTree + ErrorEmitted) :=
  if negb (is_quote character) then mret (inl None)
  else
    x ←? next_char index;
    let '(next_index, c) := x in
    _ ← (if is_text_dir c then
           sp ← span_one next_index c;
           _ ← error (UnicodeTextDirInLiteral next_index c) sp;
           mret tt
         else mret tt);
    parsed ←? char_escape index c;
    y ←? next_char index;
    let '(next_index, c) := y in
    sp ← span_until index;
    if negb (is_quote c) then char_as_string index next_index parsed c sp
    else mret (inl (Some (CLiteral (LitChar sp parsed)))).

(** ** Integer literals *)

Fixpoint digits_of (radix : Z) (big_uint : Z) (s : list (nat * char)) : Z * option nat * list (nat * char) :=
  match s with
  | [] => (big_uint, None, [])
  | (index, c) :: s' =>
      if (c =? chr "_")%Z then digits_of radix big_uint s'
      else match to_digit radix c with
           | None => (big_uint, Some index, s)
           | Some digit => digits_of radix (big_uint * radix + digit) s'
           end
  end.

Definition parse_digits (big_uint : Z) (radix : Z) : M (Z * option nat) :=
  fun l => let '(n, end_opt, s) := digits_of radix big_uint (stream l) in
           Ok ((n, end_opt), mkLexer (handler l) s).

(** [suffix == "u8"] and so on *)
Definition parse_int_suffix (suffix : str) : option LitIntType :=
  if bool_decide (suffix = text "u8") then Some LitU8
  else if bool_decide (suffix = text "u16") then Some LitU16
  else if bool_decide (suffix = text "u32") then Some LitU32
  else if bool_decide (suffix = text "u64") then Some LitU64
  else if bool_decide (suffix = text "u256") then Some LitU256
  else if bool_decide (suffix = text "i8") then Some LitI8
  else if bool_decide (suffix = text "i16") then Some LitI16
  else if bool_decide (suffix = text "i32") then Some LitI32
  else if bool_decide (suffix = text "i64") then Some LitI64
  else None.

(** The characters that continue an identifier *)
Fixpoint xid_rest (s : list (nat * char)) : str * list (nat * char) :=
  match s with
  | [] => ([], [])
  | (_, c) :: s' => if is_xid_continue c then let '(a, b) := xid_rest s' in (c :: a, b) else ([], s)
  end.
Definition consume_xid : M str :=
  fun l => let '(a, s) := xid_rest (stream l) in Ok (a, mkLexer (handler l) s).

Definition lex_int_ty_opt : M (option (LitIntType * Span) + ErrorEmitted) :=
  x ← next_if is_xid_continue;
  match x with
  | None => mret (inl None)
  | Some (suffix_start_position, c) =>
      rest ← consume_xid;
      y ← peek;
      let suffix_end_position := match y with Some (pos, _) => pos | None => src_len end in
      match parse_int_suffix (c :: rest) with
      | Some ty => sp ← span_until suffix_start_position; mret (inl (Some (ty, sp)))
      | None =>
          sp ← span suffix_start_position suffix_end_position;
          ident ← lift (Ident_new sp);
          _ ← error (InvalidIntSuffix ident) sp;
          mret (inl None)
      end
  end.

Definition incomplete_int_lit (index : nat) (radix : Z) (stop : nat) : M ErrorEmitted :=
  sp ← span index stop;
  error (if (radix =? 16)%Z then IncompleteHexIntLiteral index
         else if (radix =? 8)%Z then IncompleteOctalIntLiteral index
         else IncompleteBinaryIntLiteral index) sp.

Definition prefixed_int_lit (index : nat) (radix : Z) : M ((Z * (Z * option nat)) + ErrorEmitted) :=
  _ ← next;
  d ← next;
  match d with
  | None => e ← incomplete_int_lit index radix src_len; mret (inr e)
  | Some (digit_pos, digit) =>
      match to_digit radix digit with
      | None => e ← incomplete_int_lit index radix digit_pos; mret (inr e)
      | Some radix_digit => r ← parse_digits radix_digit radix; mret (inl (radix, r))
      end
  end.

Definition int_value (index : nat) (digit : Z) : M ((Z * (Z * option nat)) + ErrorEmitted) :=
  if (digit =? 0)%Z then
    x ← peek;
    match x with
    | Some (next_index, c) =>
        if (c =? chr "x")%Z then prefixed_int_lit index 16
        else if (c =? chr "o")%Z then prefixed_int_lit index 8
        else if (c =? chr "b")%Z then prefixed_int_lit index 2
        else if (c =? chr "_")%Z || (chr "0" <=? c)%Z && (c <=? chr "9")%Z then
          r ← parse_digits 0 10; mret (inl (10%Z, r))
        else mret (inl (10%Z, (0%Z, Some next_index)))
    | None => mret (inl (10%Z, (0%Z, None)))
    end
  else r ← parse_digits digit 10; mret (inl (10%Z, r)).

Definition is_u256 (ty_opt : option (LitIntType * Span)) : option Span :=
  match ty_opt with Some (LitU256, sp) => Some sp | _ => None end.

Definition lex_int_lit (index : nat) (character : char) : M (option CommentedTokenTree + ErrorEmitted) :=
  match to_digit 10 character with
  | None => mret (inl None)
  | Some digit =>
      r ←? int_value index digit;
      let '(radix, (big_uint, end_opt)) := r in
      ty_opt ←? lex_int_ty_opt;
      match is_u256 ty_opt with
      | Some sp' =>
          if negb (radix =? 16)%Z then e ← error U256NotInHex sp'; mret (inr e)
          else
            sp ← span index (default src_len end_opt);
            mret (inl (Some (CLiteral (LitInt sp big_uint ty_opt false))))
      | None =>
          sp ← span index (default src_len end_opt);
          mret (inl (Some (CLiteral (LitInt sp big_uint ty_opt false))))
      end
  end.

(** ** Punctuation *)

Definition lex_punctuation (index : nat) (character : char) : M (option CommentedTokenTree) :=
  match as_punct_kind character with
  | None => mret None
  | Some kind =>
      x ← peek;
      let spacing := match x with
                     | Some (_, c) => match as_punct_kind c with Some _ => Joint | None => Alone end
                     | None => Alone
                     end in
      sp ← span_until index;
      mret (Some (CPunct (mkPunct sp kind spacing)))
  end.

(** ** Token trees *)

Definition lex_close_delimiter (index : nat) (parent token_trees : list CommentedTokenTree) (open_index : nat)
    (delimiter : Delimiter) : M (list CommentedTokenTree) :=
  let start_index := open_index + len_utf8 (as_open_char delimiter) in
  full_span ← span start_index index;
  sp ← span_until open_index;
  mret (parent ++ [CGroup delimiter token_trees full_span sp]).

(** Where the search for a newline before a comment ends *)
Definition search_end (token_trees : list CommentedTokenTree) : nat :=
  match last token_trees with
  | Some (CommentTree _) | None => 0
  | Some tree => stop (tree_span tree)
  end.

Fixpoint newline_before (rev_chars : str) : bool :=
  match rev_chars with
  | [] => false
  | c :: s => is_whitespace c && ((c =? newline)%Z || newline_before s)
  end.

Definition comment_kind_at (token_trees : list CommentedTokenTree) (index : nat) : Result CommentKind :=
  let search_end := search_end token_trees in
  before ← str_index (source_text src) search_end index;
  let has_newline := newline_before (reverse before) in
  let start_of_file_found := (search_end =? 0) && (index =? 0) in
  Ok (if has_newline || start_of_file_found then Newlined else Trailing).

(** [Some trees] when the character starts a comment *)
Definition lex_comment (stop : nat) (token_trees : list CommentedTokenTree) (index : nat) (character : char)
    : M (option (list CommentedTokenTree)) :=
  if negb (character =? chr "/")%Z then mret None
  else
    x ← peek;
    match x with
    | None => mret None
    | Some (_, c) =>
        if (c =? chr "/")%Z then
          kind ← lift (comment_kind_at token_trees index);
          ctt ← lex_line_comment stop index kind;
          mret (Some (token_trees ++ [ctt]))
        else if (c =? chr "*")%Z then
          token ← lex_block_comment index;
          mret (Some (token_trees ++ option_list token))
        else mret None
    end.

Definition ident_token (index : nat) (is_raw_ident : bool) : M CommentedTokenTree :=
  _ ← consume_xid;
  sp ← span_until index;
  ident ← lift (new_with_raw sp is_raw_ident);
  mret (CIdent ident).

(** Just [_] is not an identifier. *)
Definition ident_or_underscore (token_trees : list CommentedTokenTree) (index : nat) (character : char)
    (is_raw_ident : bool) : M (list CommentedTokenTree + nat * char) :=
  x ← peek;
  let not_is_single_underscore :=
    negb (character =? chr "_")%Z || match x with Some (_, c) => is_xid_continue c | None => false end in
  if not_is_single_underscore then
    token ← ident_token index is_raw_ident;
    mret (inl (token_trees ++ [token]))
  else mret (inr (index, character)).

(** [inl trees] when an identifier was lexed or an error recovered, otherwise the
    position and the character to go on with *)
Definition lex_identifier (token_trees : list CommentedTokenTree) (index : nat) (character : char)
    : M (list CommentedTokenTree + nat * char) :=
  if negb (is_xid_start character || (character =? chr "_")%Z) then mret (inr (index, character))
  else
    x ← peek;
    let is_raw_ident :=
      (character =? chr "r")%Z && match x with Some (_, c) => (c =? chr "#")%Z | None => false end in
    y ← (if is_raw_ident then
           _ ← next;
           z ← next;
           mret (default (index, character) z)
         else mret (index, character));
    let '(index, character) := y in
    if is_raw_ident && negb (is_xid_start character || (character =? chr "_")%Z) then
      sp ← span_one index character;
      _ ← error (InvalidCharacter index character) sp;
      mret (inl token_trees)
    else ident_or_underscore token_trees index character is_raw_ident.

Definition lex_close (parents : list Parent) (token_trees : list CommentedTokenTree) (index : nat)
    (character : char) (close_delimiter : Delimiter) : M (list Parent * list CommentedTokenTree) :=
  match parents with
  | [] =>
      sp ← span_one index character;
      _ ← error (UnexpectedCloseDelimiter index close_delimiter) sp;
      mret ([], token_trees)
  | (parent, open_index, open_delimiter) :: parents' =>
      _ ← (if bool_decide (open_delimiter = close_delimiter) then mret tt
           else
             sp ← span_one index character;
             _ ← error (MismatchedDelimiters open_index index open_delimiter close_delimiter) sp;
             mret tt);
      trees ← lex_close_delimiter index parent token_trees open_index open_delimiter;
      mret (parents', trees)
  end.

(** Literals, punctuation and characters that start no token *)
Definition lex_rest (token_trees : list CommentedTokenTree) (index : nat) (character : char)
    : M (list CommentedTokenTree + ErrorEmitted) :=
  s ←? lex_string index character;
  match s with
  | Some token => mret (inl (token_trees ++ [token]))
  | None =>
      c ←? lex_char index character;
      match c with
      | Some token => mret (inl (token_trees ++ [token]))
      | None =>
          i ←? lex_int_lit index character;
          match i with
          | Some token => mret (inl (token_trees ++ [token]))
          | None =>
              p ← lex_punctuation index character;
              match p with
              | Some token => mret (inl (token_trees ++ [token]))
              | None =>
                  sp ← span_one index character;
                  _ ← error (InvalidCharacter index character) sp;
                  mret (inl token_trees)
              end
          end
      end
  end.

(** A round of the loop of [lex_commented]; [parents] is a stack whose head is the
    last element of [parent_token_trees]. *)
Definition lex_step (stop : nat) (parents : list Parent) (token_trees : list CommentedTokenTree) (index : nat)
    (character : char) : M ((list Parent * list CommentedTokenTree) + ErrorEmitted) :=
  if is_whitespace character then mret (inl (parents, token_trees))
  else
    comment ← lex_comment stop token_trees index character;
    match comment with
    | Some trees => mret (inl (parents, trees))
    | None =>
        ident ← lex_identifier token_trees index character;
        match ident with
        | inl trees => mret (inl (parents, trees))
        | inr (index, character) =>
            match as_open_delimiter character with
            | Some delimiter => mret (inl ((token_trees, index, delimiter) :: parents, []))
            | None =>
                match as_close_delimiter character with
                | Some close_delimiter =>
                    r ← lex_close parents token_trees index character close_delimiter;
                    mret (inl r)
                | None =>
                    trees ←? lex_rest token_trees index character;
                    mret (inl (parents, trees))
                end
            end
        end
    end.

Fixpoint lex_loop (fuel : nat) (stop : nat) (parents : list Parent) (token_trees : list CommentedTokenTree)
    : M ((list Parent * list CommentedTokenTree) + ErrorEmitted) :=
  match fuel with
  | 0 => out_of_fuel
  | S fuel' =>
      x ← next;
      match x with
      | None => mret (inl (parents, token_trees))
      | Some (index, character) =>
          r ←? lex_step stop parents token_trees index character;
          lex_loop fuel' stop r.1 r.2
      end
  end.

(** The delimiters that are still open at the end *)
Fixpoint close_all (parents : list Parent) (token_trees : list CommentedTokenTree) : M (list CommentedTokenTree) :=
  match parents with
  | [] => mret token_trees
  | (parent, open_index, open_delimiter) :: parents' =>
      sp ← span_one open_index (as_open_char open_delimiter);
      _ ← error (UnclosedDelimiter open_index open_delimiter) sp;
      trees ← lex_close_delimiter src_len parent token_trees open_index open_delimiter;
      close_all parents' trees
  end.

Definition lex_stream (start stop : nat) : M (CommentedTokenStream + ErrorEmitted) :=
  r ←? loop (fun fuel => lex_loop fuel stop [] []);
  trees ← close_all r.1 r.2;
  full_span ← span start stop;
  mret (inl (mkCommented trees full_span)).

(** The errors are added to the ones that the handler has. *)
Definition lex_commented (errors : list LexError) (start stop : nat)
    : Result ((CommentedTokenStream + ErrorEmitted) * list LexError) :=
  chars ← str_index (source_text src) 0 stop;
  match split_at chars start with
  | None => Err (Panic "byte index is not a char boundary")
  | Some (_, rest) =>
      '(r, l) ← lex_stream start stop (mkLexer errors (char_indices start rest));
      Ok (r, handler l)
  end.

Definition lex (errors : list LexError) (start stop : nat) : Result ((TokenStream + ErrorEmitted) * list LexError) :=
  '(r, errors) ← lex_commented errors start stop;
  Ok (match r with inl stream => inl (strip_comments stream) | inr e => inr e end, errors).
End lexer.
