(* ===== verification/LexGrammar.v ===== *)
(** * The lexical grammar

    A specification of the token trees of a text, independent of the lexer's state:
    which text a token has, and which trees a text spells.  The classes of characters
    of identifiers, and the characters that set the direction of text, are
    parameters. *)

From S2P Require Import Prelude LexToken LexSpan Lexer.
From Stdlib Require Import Ascii.

(** What the lexer relies on in the crate [unicode_xid]: identifiers hold no white
    space, and the characters of ASCII that start one are letters. *)
Class UnicodeTables (is_xid_start is_xid_continue : char -> bool) : Prop := {
  xid_start_black c : is_xid_start c = true -> is_whitespace c = false;
  xid_continue_black c : is_xid_continue c = true -> is_whitespace c = false;
  xid_start_ascii c : (c < 128)%Z -> is_xid_start c = true -> (65 <= c <= 90 \/ 97 <= c <= 122)%Z;
}.

Section grammar.
Context (is_xid_start is_xid_continue is_text_dir : char -> bool).
Context (src : Source) (source_id : option Z).

Definition at_span (start stop : nat) : Span := mkSpan src start stop source_id.

(** ** Escapes and literals *)

(** The value of hexadecimal digits after a value *)
Inductive hex_digits : Z -> str -> Z -> Prop :=
  | hex_nil n : hex_digits n [] n
  | hex_cons n c d s m : to_digit 16 c = Some d ->
      hex_digits (n * 16 + d)%Z s m -> hex_digits n (c :: s) m.

(** The text of an escape after its backslash *)
Inductive escape_text : str -> char -> Prop :=
  | escape_simple c d : simple_escape c = Some d -> escape_text [c] d
  | escape_hex a b high low : to_digit 16 a = Some high -> to_digit 16 b = Some low ->
      escape_text [chr "x"; a; b] (high * 16 + low)%Z
  | escape_unicode s n : hex_digits 0 s n -> is_scalar n = true ->
      escape_text ([chr "u"; chr "{"] ++ s ++ [chr "}"]) n.

(** The inside of a string literal and the string that it denotes *)
Inductive string_body : str -> str -> Prop :=
  | body_nil : string_body [] []
  | body_char s v c : string_body s v -> c <> chr "\" -> c <> quote -> is_text_dir c = false ->
      string_body (s ++ [c]) (v ++ [c])
  | body_escape s v u c : string_body s v -> escape_text u c -> string_body (s ++ chr "\" :: u) (v ++ [c]).

Inductive char_body : str -> char -> Prop :=
  | char_plain c : c <> chr "\" -> is_text_dir c = false -> char_body [c] c
  | char_escaped u c : is_text_dir (chr "\") = false -> escape_text u c -> char_body (chr "\" :: u) c.

(** Digits and underscores after a value *)
Inductive digits (radix : Z) : Z -> str -> Z -> Prop :=
  | digits_nil n : digits radix n [] n
  | digits_underscore n s m : digits radix n s m -> digits radix n (chr "_" :: s) m
  | digits_digit n c d s m : to_digit radix c = Some d ->
      digits radix (n * radix + d)%Z s m -> digits radix n (c :: s) m.

Definition radix_prefix (radix : Z) : option ascii :=
  (if radix =? 16 then Some "x"%char else if radix =? 8 then Some "o"%char
   else if radix =? 2 then Some "b"%char else None)%Z.

(** The text of an integer without its suffix, its radix and its value *)
Inductive int_text : str -> Z -> Z -> Prop :=
  | int_decimal c d s n : to_digit 10 c = Some d -> digits 10 d s n -> int_text (c :: s) 10 n
  | int_prefixed radix p c d s n : radix_prefix radix = Some p -> to_digit radix c = Some d ->
      digits radix d s n -> int_text ([chr "0"; chr p; c] ++ s) radix n.

(** A suffix at a position; the literals of type [u256] are hexadecimal. *)
Inductive suffix_text (radix : Z) (pos : nat) : str -> option (LitIntType * Span) -> Prop :=
  | suffix_none : suffix_text radix pos [] None
  | suffix_type s ty : parse_int_suffix s = Some ty -> (ty = LitU256 -> radix = 16%Z) ->
      suffix_text radix pos s (Some (ty, at_span pos (pos + str_len s))).

(** ** Block comments *)

(** The rest of a comment inside of [depth] others: after a star or a slash that does
    not close or open a comment, the next character is skipped. *)
Inductive block_rest : nat -> str -> Prop :=
  | block_last : block_rest 0 [chr "*"; chr "/"]
  | block_close depth s : block_rest depth s -> block_rest (S depth) ([chr "*"; chr "/"] ++ s)
  | block_open depth s : block_rest (S depth) s -> block_rest depth ([chr "/"; chr "*"] ++ s)
  | block_star depth c s : c <> chr "/" -> block_rest depth s -> block_rest depth ([chr "*"; c] ++ s)
  | block_slash depth c s : c <> chr "*" -> block_rest depth s -> block_rest depth ([chr "/"; c] ++ s)
  | block_other depth c s : c <> chr "*" -> c <> chr "/" -> block_rest depth s -> block_rest depth (c :: s).

(** ** Tokens *)

Definition ident_start (c : char) : Prop := is_xid_start c = true \/ c = chr "_".

(** The tokens at a position and their texts.  The last two rules are not intended:
    [r#] at the end of the text is an identifier, and [r#_] is an underscore. *)
Inductive leaf (pos : nat) : CommentedTokenTree -> str -> Prop :=
  | leaf_ident c s : ident_start c -> [c] ++ s <> [chr "_"] ->
      Forall (fun d => is_xid_continue d = true) s ->
      leaf pos (CIdent (mkIdent None (at_span pos (pos + str_len (c :: s))) false)) (c :: s)
  | leaf_raw_ident c s : ident_start c -> [c] ++ s <> [chr "_"] ->
      Forall (fun d => is_xid_continue d = true) s ->
      leaf pos (CIdent (mkIdent None (at_span (pos + 2) (pos + 2 + str_len (c :: s))) true))
        (text "r#" ++ c :: s)
  | leaf_punct kind spacing :
      leaf pos (CPunct (mkPunct (at_span pos (pos + 1)) kind spacing)) [as_char kind]
  | leaf_string s v : string_body s v ->
      leaf pos (CLiteral (LitString (at_span pos (pos + str_len s + 2)) v)) (quote :: s ++ [quote])
  | leaf_char s v : char_body s v ->
      leaf pos (CLiteral (LitChar (at_span pos (pos + str_len s + 2)) v)) (chr "'" :: s ++ [chr "'"])
  | leaf_int s u radix n ty : int_text s radix n -> suffix_text radix (pos + str_len s) u ty ->
      leaf pos (CLiteral (LitInt (at_span pos (pos + str_len s)) n ty false)) (s ++ u)
  | leaf_line_comment s kind : newline ∉ s -> doc_style_of (text "//" ++ s) = None ->
      leaf pos (CommentTree (mkComment (at_span pos (pos + 2 + str_len s)) kind)) (text "//" ++ s)
  | leaf_doc_comment s style : newline ∉ s -> doc_style_of (text "//" ++ s) = Some style ->
      leaf pos (CDocComment (mkDocComment (at_span pos (pos + 2 + str_len s)) (at_span (pos + 3) (pos + 2 + str_len s)) style))
        (text "//" ++ s)
  | leaf_block_comment s kind : block_rest 0 s ->
      leaf pos (CommentTree (mkComment (at_span pos (pos + 2 + str_len s)) kind)) (text "/*" ++ s)
  | leaf_raw_end : leaf pos (CIdent (mkIdent None (at_span pos (pos + 2)) true)) (text "r#")
  | leaf_raw_underscore spacing :
      leaf pos (CPunct (mkPunct (at_span (pos + 2) (pos + 3)) Underscore spacing)) (text "r#_").

(** A token whose span is valid and between two positions *)
Definition placed_leaf (lo hi : nat) (t : CommentedTokenTree) : Prop :=
  match t with CGroup _ _ _ _ => False | _ => True end /\
  exists a b, tree_span t = at_span a b /\ valid_span (at_span a b) /\ lo <= a /\ b <= hi.

(** ** Token trees *)

(** The trees that a text spells at a position: tokens and white space, where a group
    is the text of its trees between delimiters that match *)
Inductive spells (pos : nat) : list CommentedTokenTree -> str -> Prop :=
  | spells_nil : spells pos [] []
  | spells_space trees s c : spells pos trees s -> is_whitespace c = true -> spells pos trees (s ++ [c])
  | spells_leaf trees s t u : spells pos trees s -> leaf (pos + str_len s) t u ->
      spells pos (trees ++ [t]) (s ++ u)
  | spells_group trees s inner u delimiter full_span span : spells pos trees s ->
      spells (pos + str_len s + 1) inner u ->
      full_span = at_span (pos + str_len s + 1) (pos + str_len s + 1 + str_len u) ->
      span = at_span (pos + str_len s) (pos + str_len s + 1 + str_len u + 1) ->
      spells pos (trees ++ [CGroup delimiter inner full_span span])
        (s ++ [as_open_char delimiter] ++ u ++ [as_close_char delimiter]).

Lemma placed_leaf_le lo hi hi' t : placed_leaf lo hi t -> hi <= hi' -> placed_leaf lo hi' t.
Proof. intros (Ht & a & b & Hs & Hv & Ha & Hb) Hle. split; [done|]. exists a, b. split_and!; [done..|lia]. Qed.
End grammar.

(** * Weakest preconditions for the lexer

    [wp m Q l] says that [m] returns from the state [l] with a result and a state in
    [Q], or panics where [unsafe] allows it; it never runs out of fuel.  With [unsafe]
    the rules show partial correctness on every text, without it the absence of
    panics. *)

(** The iterator of the code yields the items of [char_indices]. *)
Lemma char_indices_next a s :
  CharIndicesInner_next (mkCharIndices (a ++ s) (str_len a)) =
    Ok (match s with
        | [] => (None, mkCharIndices (a ++ s) (str_len a))
        | c :: s' => (Some (str_len a, c), mkCharIndices (a ++ s) (str_len (a ++ [c])))
        end).
Proof.
  unfold CharIndicesInner_next. cbn [iter_src position]. rewrite split_at_app.
  destruct s as [|c [|d s]]; [done| |]; rewrite str_len_app; cbn; [done|by rewrite Nat.add_0_r].
Qed.

Section wp.
Context (src : Source) (source_id : option Z) (unsafe : Prop).

Definition wp {A} (m : M A) (Q : A -> Lexer -> Prop) (l : Lexer) : Prop :=
  match m l with
  | Ok (a, l') => Q a l'
  | Err (Panic _) => unsafe
  | Err _ => False
  end.

Lemma wp_mono {A} (m : M A) (P Q : A -> Lexer -> Prop) l :
  wp m P l -> (forall a l', P a l' -> Q a l') -> wp m Q l.
Proof. unfold wp. destruct (m l) as [[a l']|e]; auto. Qed.

Lemma wp_bind {A B} (m : M A) (f : A -> M B) Q l : wp m (fun a => wp (f a) Q) l -> wp (m ≫= f) Q l.
Proof. unfold wp, mbind, M_bind. by destruct (m l) as [[a l']|e]. Qed.

Lemma wp_try {A B E} (m : M (A + E)) (f : A -> M (B + E)) Q l :
  wp m (fun r => match r with inl a => wp (f a) Q | inr e => Q (inr e) end) l -> wp (try_bind m f) Q l.
Proof. intros H. apply wp_bind. eapply wp_mono; [exact H|]. intros [a|e] l' Hr; exact Hr. Qed.

Lemma wp_lift {A} (r : Result A) Q l a : r = Ok a -> Q a l -> wp (lift r) Q l.
Proof. by intros ->. Qed.

(** ** Positions *)

(** The text [t] is what follows the byte position [p]. *)
Definition here (p : nat) (t : str) : Prop := exists pre, source_text src = pre ++ t /\ str_len pre = p.

Lemma here_boundary p t : here p t -> boundary (source_text src) p.
Proof. intros (pre & -> & <-). by exists pre, t. Qed.

Lemma here_app p u t : here p (u ++ t) -> here (p + str_len u) t.
Proof. intros (pre & Hs & <-). exists (pre ++ u). by rewrite <- app_assoc, str_len_app. Qed.

Lemma here_cons p c t : here p (c :: t) -> here (p + len_utf8 c) t.
Proof. intros H. apply (here_app p [c]) in H. cbn in H. by rewrite Nat.add_0_r in H. Qed.

Lemma here_end p t : here p t -> src_len src = p + str_len t.
Proof. intros (pre & Hs & <-). unfold src_len. by rewrite Hs, str_len_app. Qed.

(** A state at a position *)
Definition state (h : list LexError) (p : nat) (t : str) : Lexer := mkLexer h (char_indices p t).

(** [ate p t h Q l]: from the position [p] with the rest [t] of the text and the errors
    [h], some characters have been read and some errors emitted. *)
Definition ate (p : nat) (t : str) (h : list LexError) (Q : list LexError -> str -> str -> Prop) (l : Lexer) : Prop :=
  exists u t' errs, t = u ++ t' /\ l = state (h ++ errs) (p + str_len u) t' /\ Q errs u t'.

Lemma ate_done p t h (Q : list LexError -> str -> str -> Prop) : Q [] [] t -> ate p t h Q (state h p t).
Proof. intros HQ. exists [], t, []. rewrite app_nil_r, Nat.add_0_r. done. Qed.

Lemma ate_error p t h e (Q : list LexError -> str -> str -> Prop) :
  Q [e] [] t -> ate p t h Q (state (h ++ [e]) p t).
Proof. intros HQ. exists [], t, [e]. by rewrite Nat.add_0_r. Qed.

Lemma ate_trans p u t h e (Q Q' : list LexError -> str -> str -> Prop) l :
  ate (p + str_len u) t (h ++ e) Q l -> (forall errs v t', t = v ++ t' -> Q errs v t' -> Q' (e ++ errs) (u ++ v) t') ->
  ate p (u ++ t) h Q' l.
Proof.
  intros (v & t' & errs & -> & -> & HQ) Himp. exists (u ++ v), t', (e ++ errs).
  rewrite !app_assoc, str_len_app, Nat.add_assoc. split; [done|]. split; [done|by apply Himp].
Qed.

Lemma ate_cons p c t h (Q Q' : list LexError -> str -> str -> Prop) l :
  ate (p + len_utf8 c) t h Q l -> (forall errs v t', t = v ++ t' -> Q errs v t' -> Q' errs (c :: v) t') -> ate p (c :: t) h Q' l.
Proof.
  intros Ha Himp. apply (ate_trans p [c] t h [] Q Q' l); [|done].
  cbn. by rewrite app_nil_r, Nat.add_0_r.
Qed.

Lemma ate_mono p t h (Q Q' : list LexError -> str -> str -> Prop) l :
  ate p t h Q l -> (forall errs v t', t = v ++ t' -> Q errs v t' -> Q' errs v t') -> ate p t h Q' l.
Proof. intros (v & t' & errs & -> & -> & HQ) Himp. exists v, t', errs. auto. Qed.

(** ** Rules *)

Lemma wp_ret {A} (a : A) (Q : A -> Lexer -> Prop) l : Q a l -> wp (mret a) Q l.
Proof. done. Qed.

Lemma wp_next (Q : option (nat * char) -> Lexer -> Prop) h p t :
  match t with [] => Q None (state h p []) | c :: t' => Q (Some (p, c)) (state h (p + len_utf8 c) t') end ->
  wp next Q (state h p t).
Proof. by destruct t. Qed.

Definition peeked (p : nat) (t : str) : option (nat * char) :=
  match t with [] => None | c :: _ => Some (p, c) end.

Lemma wp_peek (Q : option (nat * char) -> Lexer -> Prop) h p t : Q (peeked p t) (state h p t) -> wp peek Q (state h p t).
Proof. by destruct t. Qed.

Definition mk (start stop : nat) : Span := at_span src source_id start stop.

Lemma wp_span start stop (Q : Span -> Lexer -> Prop) l :
  unsafe \/ valid_span (mk start stop) -> (valid_span (mk start stop) -> Q (mk start stop) l) ->
  wp (span src source_id start stop) Q l.
Proof.
  intros Hv H. unfold wp, span, lift. destruct (Span_new src start stop source_id) as [sp|] eqn:Hn.
  - apply Span_new_Some in Hn as [-> Hv']. by apply H.
  - cbn. destruct Hv as [?|Hv]; [done|]. exfalso.
    by rewrite (proj2 (Span_new_Some src start stop source_id _) (conj eq_refl Hv)) in Hn.
Qed.

(** Most spans are between boundaries. *)
Lemma wp_span_at start stop (Q : Span -> Lexer -> Prop) l :
  boundary (source_text src) start -> boundary (source_text src) stop -> start <= stop ->
  (valid_span (mk start stop) -> Q (mk start stop) l) -> wp (span src source_id start stop) Q l.
Proof. intros Ha Hb Hle. apply wp_span. right. by split_and!. Qed.

Lemma wp_span_one start c t (Q : Span -> Lexer -> Prop) l :
  here start (c :: t) -> (valid_span (mk start (start + len_utf8 c)) -> Q (mk start (start + len_utf8 c)) l) ->
  wp (span_one src source_id start c) Q l.
Proof.
  intros Hh. apply wp_span_at; [by eapply here_boundary|by eapply here_boundary, here_cons|lia].
Qed.

Lemma peeked_stop p t : here p t -> match peeked p t with Some (stop, _) => stop | None => src_len src end = p.
Proof. intros Hh%here_end. destruct t; cbn in *; lia. Qed.

Lemma wp_span_until start (Q : Span -> Lexer -> Prop) h p t :
  here p t -> boundary (source_text src) start -> start <= p ->
  (valid_span (mk start p) -> Q (mk start p) (state h p t)) -> wp (span_until src source_id start) Q (state h p t).
Proof.
  intros Hh Hb Hle H. unfold span_until. apply wp_bind, wp_peek. rewrite (peeked_stop _ _ Hh).
  by apply wp_span_at; [|eapply here_boundary| |].
Qed.

Lemma wp_error kind sp (Q : ErrorEmitted -> Lexer -> Prop) h p t :
  Q emitted (state (h ++ [mkLexError sp kind]) p t) -> wp (error kind sp) Q (state h p t).
Proof. done. Qed.

Lemma wp_loop {A} (body : nat -> M A) Q h p t : wp (body (S (length t))) Q (state h p t) -> wp (loop body) Q (state h p t).
Proof.
  unfold wp, loop, state. cbn [stream]. intros H.
  assert (length (char_indices p t) = length t) as -> by (clear; revert p; induction t; intros; cbn; auto). done.
Qed.
End wp.

(** A primitive step: the bind and the rule of its first operation *)
Ltac wp_step := lazymatch goal with
  | |- wp _ (try_bind _ _) _ _ => apply wp_try
  | |- wp _ (_ ≫= _) _ _ => apply wp_bind
  | |- wp _ (mret _) _ _ => apply wp_ret
  | |- wp _ next _ _ => apply wp_next
  | |- wp _ peek _ _ => apply wp_peek
  | |- wp _ (error _ _) _ _ => apply wp_error
  | |- wp _ (loop _) _ _ => apply wp_loop
  end; cbn beta.
