(* ===== verification/LexLiterals.v ===== *)
(** * Escapes, strings and characters

    What the functions of the lexer that read literals return, on every text: the text
    they read and the errors they emit. *)

From S2P Require Import Prelude LexToken LexSpan Lexer LexGrammar.
From Stdlib Require Import Ascii.

(** The texts on which the lexer does not panic: in ASCII, and without the escapes of
    character literals *)
Definition tame (s : str) : Prop :=
  Forall (fun c => 0 <= c < 128)%Z s /\ (chr "'" ∉ s \/ chr "\" ∉ s).

#[export] Instance tame_dec s : Decision (tame s).
Proof. unfold tame. apply _. Defined.

Lemma ascii_len c : (0 <= c < 128)%Z -> len_utf8 c = 1.
Proof. intros Hc. unfold len_utf8. case_tests; lia. Qed.

Lemma ascii_boundary s p : Forall (fun c => 0 <= c < 128)%Z s -> p <= str_len s -> boundary s p.
Proof.
  intros Ha. revert p. induction Ha as [|c s Hc _ IH]; intros p Hp.
  - replace p with 0 by (cbn in Hp; lia). apply boundary_start.
  - rewrite str_len_cons, ascii_len in Hp by done. destruct p as [|p]; [apply boundary_start|].
    destruct (IH p) as (a & b & -> & <-); [lia|]. exists (c :: a), b. split; [done|].
    rewrite str_len_cons, ascii_len by done. lia.
Qed.

Section literals.
Context (src : Source) (source_id : option Z) (unsafe : Prop).
Context (Hsafe : unsafe \/ tame (source_text src)).

Abbreviation wp := (wp unsafe).
Abbreviation here := (here src).
Abbreviation mk := (mk src source_id).
Abbreviation boundary := (boundary (source_text src)).

Lemma safe_boundary p : p <= src_len src -> unsafe \/ boundary p.
Proof. intros Hp. destruct Hsafe as [?|[Ha _]]; [by left|right]. by apply ascii_boundary. Qed.

(** ** Escapes *)

(** What an escape returns: a character, an error that was emitted, or the end of the
    text *)
Definition escape_result (r : char + option ErrorEmitted) (errs : list LexError) (good : char -> Prop) (t' : str) : Prop :=
  match r with
  | inl c => errs = [] /\ good c
  | inr (Some _) => errs <> []
  | inr None => errs = [] /\ t' = []
  end.

Lemma wp_unicode_digits fuel start_opt n h p t :
  here p t -> length t < fuel -> (forall q, start_opt = Some q -> boundary q /\ q <= p) ->
  wp (unicode_digits src source_id fuel start_opt n) (fun r => ate p t h (fun errs u t' =>
    match r with
    | inl (m, start_opt', e) => errs = [] /\ (forall q, start_opt' = Some q -> boundary q /\ q <= e) /\
        exists s, u = s ++ [chr "}"] /\ hex_digits n s m /\ e = p + str_len s
    | inr (Some _) => errs <> []
    | inr None => errs = [] /\ t' = []
    end)) (state h p t).
Proof.
  revert start_opt n p t. induction fuel as [|fuel IH]; intros so n p t Hh Hf Hso; [lia|]. cbn [unicode_digits].
  do 2 wp_step. destruct t as [|c t]; [wp_step; by apply ate_done|].
  destruct (Z.eqb_spec c (chr "}")) as [->|Hc].
  - wp_step. exists [chr "}"], t, []. rewrite app_nil_r. split; [done|]. split; [done|]. split; [done|]. split; [done|].
    exists []. split; [done|]. split; [constructor|]. cbn. lia.
  - destruct (to_digit 16 c) as [d|] eqn:Hd.
    + eapply LexGrammar.wp_mono; [apply IH; [by apply here_cons in Hh|cbn in Hf; lia|]|].
      * pose proof (here_boundary _ _ _ Hh). destruct so; intros q [= <-]; [|split; [done|lia]].
        destruct (Hso n0 eq_refl). split; [done|lia].
      * intros r l' Ha. eapply ate_cons; [exact Ha|]. intros errs v t' _ HQ. destruct r as [[[m so'] e]|[e|]]; [|done|done].
        destruct HQ as (-> & Hso' & s & -> & Hm & ->). split; [done|]. split; [done|].
        exists (c :: s). split; [done|]. split; [by econstructor|]. rewrite str_len_cons. lia.
    + wp_step. eapply wp_span_one; [done|intros _]. do 3 wp_step.
      exists [c], t, [mkLexError (mk p (p + len_utf8 c)) (InvalidUnicodeEscapeDigit p)]. cbn.
      by rewrite Nat.add_0_r.
Qed.

Lemma wp_unicode_escape index h t :
  here index (chr "u" :: t) ->
  wp (unicode_escape src source_id index) (fun r => ate (index + 1) t h (fun errs u t' =>
    escape_result r errs (fun c => escape_text (chr "u" :: u) c) t')) (state h (index + 1) t).
Proof.
  intros Hh. pose proof (here_boundary _ _ _ Hh) as Hb. pose proof (here_cons _ _ _ _ Hh) as Hh1.
  unfold unicode_escape. do 2 wp_step. destruct t as [|c t]; [wp_step; by apply ate_done|].
  destruct (Z.eqb_spec c (chr "{")) as [->|Hc]; cbn [negb].
  - do 2 wp_step. eapply LexGrammar.wp_mono; [apply wp_unicode_digits; [by apply here_cons in Hh1|lia|done]|].
    intros r l' Ha. destruct Ha as (v & t' & errs & -> & -> & HQ). apply here_cons in Hh1.
    destruct r as [[[n so] e]|[er|]]; cbn beta iota zeta.
    + destruct HQ as (-> & Hso & s & -> & Hn & ->). rewrite app_nil_r. pose proof (here_app _ _ _ _ Hh1) as Hh2.
      rewrite <- app_assoc in Hh1. pose proof (here_boundary _ _ _ (here_app _ _ _ _ Hh1)) as He.
      set (e := index + 1 + len_utf8 (chr "{") + str_len s) in *.
      assert (boundary (default e so) /\ default e so <= e) as [Hbd Hled] by (destruct so; [by apply Hso|done]).
      assert (forall er, ate (index + 1) (chr "{" :: (s ++ [chr "}"]) ++ t') h (fun errs u t'0 =>
        escape_result (inr (Some emitted)) errs (fun c => escape_text (chr "u" :: u) c) t'0)
        (state (h ++ [er]) (index + 1 + len_utf8 (chr "{") + str_len (s ++ [chr "}"])) t')) as Herr.
      { intros er. exists (chr "{" :: s ++ [chr "}"]), t', [er]. rewrite str_len_cons, Nat.add_assoc. done. }
      destruct (Z.leb_spec (2 ^ 32) n) as [Hbig|Hsmall].
      * wp_step. apply wp_span_at; [done..|intros _]. do 3 wp_step. apply Herr.
      * destruct (from_u32 n) as [m|] eqn:Hm.
        -- wp_step. exists (chr "{" :: s ++ [chr "}"]), t', []. rewrite app_nil_r, str_len_cons, Nat.add_assoc.
           split; [done|]. split; [done|]. split; [done|]. unfold from_u32 in Hm. destruct (is_scalar n) eqn:Hs; [|done].
           injection Hm as <-. by apply escape_unicode.
        -- wp_step. apply wp_span_until; [done|done|cbn; lia|intros _]. wp_step. apply wp_span_at; [done..|intros _].
           do 3 wp_step. apply Herr.
    + exists (chr "{" :: v), t', errs. rewrite str_len_cons, Nat.add_assoc. done.
    + exists (chr "{" :: v), t', errs. rewrite str_len_cons, Nat.add_assoc. done.
  - wp_step. apply wp_span.
    + destruct Hsafe as [?|[Ha _]]; [by left|right]. pose proof (here_boundary _ _ _ Hh1) as Hb1.
      assert (len_utf8 c = 1) as Hl.
      { apply ascii_len. destruct Hh1 as (pre & Hs & _). rewrite Hs in Ha. apply Forall_app in Ha as [_ Ha].
        by apply Forall_cons in Ha as [Ha _]. }
      cbn in Hb1. split_and!; cbn; [lia|done|by rewrite Hl].
    + intros _. do 3 wp_step. exists [c], t, [mkLexError (mk index (index + len_utf8 c)) (UnicodeEscapeMissingBrace index)].
      cbn. by rewrite Nat.add_0_r.
Qed.

Lemma digit_bounds radix c d : to_digit radix c = Some d -> (0 <= d < radix)%Z.
Proof. unfold to_digit. case_tests; intros [= <-]; lia. Qed.

Lemma hex_pair high low : (0 <= high < 16)%Z -> (0 <= low < 16)%Z ->
  Z.lor (Z.shiftl high 4) low = (high * 16 + low)%Z /\ is_scalar (high * 16 + low) = true.
Proof.
  intros Hh Hl. split; [|unfold is_scalar; lia]. rewrite Z.shiftl_mul_pow2 by lia. change (2 ^ 4)%Z with 16%Z.
  rewrite <- Z.add_nocarry_lor; [done|]. apply Z.bits_inj'. intros n Hn. rewrite Z.land_spec, Z.bits_0.
  destruct (Z.ltb_spec n 4) as [Hlt|Hge].
  - change 16%Z with (2 ^ 4)%Z. by rewrite Z.mul_pow2_bits_low.
  - rewrite (Z.bits_above_log2 low), andb_false_r; [done|lia|].
    destruct (Z.eq_dec low 0) as [->|Hne]; [cbn; lia|]. apply Z.log2_lt_pow2; [lia|].
    apply Z.lt_le_trans with (2 ^ 4)%Z; [cbn; lia|]. by apply Z.pow_le_mono_r.
Qed.

Lemma wp_hex_escape index h t :
  here index (chr "x" :: t) ->
  wp (hex_escape src source_id index) (fun r => ate (index + 1) t h (fun errs u t' =>
    escape_result r errs (fun c => escape_text (chr "x" :: u) c) t')) (state h (index + 1) t).
Proof.
  intros Hh. pose proof (here_boundary _ _ _ Hh) as Hb. unfold hex_escape.
  destruct t as [|a [|b t]]; do 4 wp_step.
  - wp_step. by apply ate_done.
  - wp_step. exists [a], [], []. rewrite !app_nil_r. cbn. by rewrite Nat.add_0_r.
  - apply here_cons, here_cons, here_cons in Hh. cbn iota beta.
    assert (forall Q errs, Q errs [a; b] t -> ate (index + 1) (a :: b :: t) h Q
      (state (h ++ errs) (index + 1 + len_utf8 a + len_utf8 b) t)) as Hate.
    { intros Q errs HQ. exists [a; b], t, errs. cbn. rewrite Nat.add_0_r, Nat.add_assoc. done. }
    destruct (to_digit 16 a) as [high|] eqn:Ha, (to_digit 16 b) as [low|] eqn:Hb'.
    2-4: wp_step; (apply wp_span_until; [done|done|lia|intros _]); do 3 wp_step; by apply Hate.
    destruct (hex_pair high low (digit_bounds _ _ _ Ha) (digit_bounds _ _ _ Hb')) as [Heq Hsc].
    wp_step. eapply wp_lift; [unfold from_u32; by rewrite Heq, Hsc|]. wp_step.
    pose proof (Hate (fun errs u t' => escape_result (inl (high * 16 + low)%Z) errs (fun c => escape_text (chr "x" :: u) c) t') []) as H.
    rewrite app_nil_r in H. apply H. split; [done|by constructor].
Qed.

(** After a backslash *)
Lemma wp_parse_escape_code h p t :
  here p t ->
  wp (parse_escape_code src source_id) (fun r => ate p t h (fun errs u t' =>
    escape_result r errs (escape_text u) t')) (state h p t).
Proof.
  intros Hh. unfold parse_escape_code. do 2 wp_step. destruct t as [|c t]; [wp_step; by apply ate_done|].
  destruct (simple_escape c) as [d|] eqn:Hd.
  { wp_step. eapply ate_cons; [by apply (ate_done _ _ _ (fun errs u _ => errs = [] /\ u = []))|].
    intros errs v t' _ [-> ->]. split; [done|by constructor]. }
  destruct (Z.eqb_spec c (chr "x")) as [->|_]; [|destruct (Z.eqb_spec c (chr "u")) as [->|_]].
  - eapply LexGrammar.wp_mono; [by apply wp_hex_escape|]. intros r l' Ha. eapply ate_cons; [exact Ha|]. by intros.
  - eapply LexGrammar.wp_mono; [by apply wp_unicode_escape|]. intros r l' Ha. eapply ate_cons; [exact Ha|]. by intros.
  - wp_step. eapply wp_span_one; [done|intros _]. do 3 wp_step.
    eapply ate_cons; [by apply (ate_error _ _ _ _ (fun errs _ _ => errs <> []))|]. done.
Qed.

(** What a literal returns that can end in an error *)
Definition literal_result {A} (r : A + ErrorEmitted) (errs : list LexError) (good : A -> Prop) : Prop :=
  match r with inl a => errs = [] /\ good a | inr _ => errs <> [] end.

Lemma wp_escape_or unclosed h p t :
  here p t ->
  (forall p, here p [] -> exists e, forall Q, Q emitted (state (h ++ [e]) p []) -> wp unclosed Q (state h p [])) ->
  wp (escape_or src source_id unclosed) (fun r => ate p t h (fun errs u t' =>
    literal_result r errs (escape_text u))) (state h p t).
Proof.
  intros Hh Hu. unfold escape_or. wp_step. eapply LexGrammar.wp_mono; [by apply wp_parse_escape_code|].
  intros r l' (u & t' & errs & -> & -> & HQ). destruct r as [c|[e|]].
  - wp_step. by exists u, t', errs.
  - wp_step. by exists u, t', errs.
  - destruct HQ as [-> ->]. apply here_app in Hh. destruct (Hu _ Hh) as [e He]. rewrite !app_nil_r.
    wp_step. apply He. wp_step. exists u, [], [e]. by rewrite app_nil_r.
Qed.

(** ** String literals *)

Section strings.
Context (is_xid_start is_xid_continue is_text_dir : char -> bool).

Lemma wp_unclosed_string_lit index stop h p t :
  boundary index -> boundary stop -> index <= stop ->
  exists e, forall Q : ErrorEmitted -> Lexer -> Prop, Q emitted (state (h ++ [e]) p t) ->
    wp (unclosed_string_lit src source_id index stop) Q (state h p t).
Proof.
  intros Hi Hs Hle. eexists. intros Q HQ. unfold unclosed_string_lit. wp_step.
  apply wp_span_at; [done..|intros _]. wp_step. exact HQ.
Qed.

Lemma boundary_before_spec stop :
  boundary (boundary_before src stop) /\ boundary_before src stop <= stop /\
  (forall i, boundary i -> i <= stop -> i <= boundary_before src stop).
Proof.
  induction stop as [|n IH]; cbn [boundary_before].
  - rewrite (proj2 (is_char_boundary_spec (source_text src) 0) (boundary_start _)). split; [apply boundary_start|]. split; [done|]. by intros.
  - destruct (is_char_boundary (source_text src) (S n)) eqn:Hb.
    + apply is_char_boundary_spec in Hb. split; [done|]. split; [done|]. by intros.
    + destruct IH as (H1 & H2 & H3). split; [done|]. split; [lia|]. intros i Hi Hle. apply H3; [done|].
      assert (i <> S n); [|lia]. intros ->. by rewrite (proj2 (is_char_boundary_spec _ _) Hi) in Hb.
Qed.

(** The text before the closing quote; text-direction characters are errors *)
Lemma wp_string_loop fuel index s v h p t :
  here p t -> length t < fuel -> boundary index -> index < p ->
  wp (string_loop is_text_dir src source_id fuel index v) (fun r => ate p t h (fun errs u t' =>
    match r with
    | inl v' => exists w, u = w ++ [quote] /\ (errs = [] -> string_body is_text_dir s v -> string_body is_text_dir (s ++ w) v')
    | inr _ => errs <> []
    end)) (state h p t).
Proof.
  revert s v h p t. induction fuel as [|fuel IH]; intros s v h p t Hh Hf Hb Hlt; [lia|]. cbn [string_loop].
  do 2 wp_step. destruct t as [|c t].
  { destruct (boundary_before_spec (src_len src - 1)) as (H1 & H2 & H3). pose proof (here_end _ _ _ Hh) as He. cbn in He.
    destruct (wp_unclosed_string_lit index (boundary_before src (src_len src - 1)) h p [] Hb H1) as [e Hw]; [apply H3; [done|lia]|].
    wp_step. apply Hw. wp_step. by apply ate_error. }
  pose proof (here_cons _ _ _ _ Hh) as Hh1. pose proof (len_utf8_pos c) as Hc. cbn [length] in Hf.
  destruct (Z.eqb_spec c (chr "\")) as [->|Hbs]; [|destruct (Z.eqb_spec c quote) as [->|Hq]; [|destruct (is_text_dir c) eqn:Hd]].
  - wp_step. eapply LexGrammar.wp_mono; [apply wp_escape_or; [done|]|].
    { intros q Hq. pose proof (here_end _ _ _ Hh1). apply wp_unclosed_string_lit; [done|apply boundary_end|].
      pose proof (here_end _ _ _ Hh). unfold src_len in *. lia. }
    intros r l' (u & t' & errs & -> & -> & HQ). destruct r as [x|e]; cbn in HQ.
    + destruct HQ as [-> Hx]. rewrite app_nil_r. apply here_app in Hh1. rewrite length_app in Hf.
      eapply LexGrammar.wp_mono; [apply (IH (s ++ chr "\" :: u) (v ++ [x])); [done|lia|done|lia]|].
      intros r l' Ha. eapply (ate_trans p (chr "\" :: u) t' h []); [rewrite str_len_cons, Nat.add_assoc, app_nil_r; exact Ha|].
      intros errs w t'' _ HQ. destruct r as [v'|]; [|done]. destruct HQ as (w' & -> & HQ).
      exists (chr "\" :: u ++ w'). split; [cbn; by rewrite <- app_assoc|]. intros He Hs.
      rewrite <- app_assoc in HQ. cbn in HQ. apply HQ; [done|]. by constructor.
    + exists (chr "\" :: u), t', errs. by rewrite str_len_cons, Nat.add_assoc.
  - wp_step. eapply ate_cons; [by apply (ate_done _ _ _ (fun errs u _ => errs = [] /\ u = []))|].
    intros errs w t' _ [-> ->]. exists []. by rewrite app_nil_r.
  - wp_step. eapply wp_span_one; [done|intros _]. do 2 wp_step. eapply LexGrammar.wp_mono; [apply (IH s v); [done|lia|done|lia]|].
    intros r l' Ha. eapply (ate_trans p [c] t h [_]); [cbn; rewrite Nat.add_0_r; exact Ha|].
    intros errs w t' _ HQ. destruct r as [v'|]; [|done]. destruct HQ as (w' & -> & _). by exists (c :: w').
  - eapply LexGrammar.wp_mono; [apply (IH (s ++ [c]) (v ++ [c])); [done|lia|done|lia]|].
    intros r l' Ha. eapply ate_cons; [exact Ha|]. intros errs w t' _ HQ. destruct r as [v'|]; [|done].
    destruct HQ as (w' & -> & HQ). exists (c :: w'). split; [done|]. intros He Hs. rewrite <- app_assoc in HQ.
    apply HQ; [done|]. by constructor.
Qed.

(** What a function returns that reads a token whose first character is [c] *)
Definition token_result (index : nat) (c : char) (r : option CommentedTokenTree + ErrorEmitted)
    (errs : list LexError) (u : str) : Prop :=
  match r with
  | inl None => errs = [] /\ u = []
  | inl (Some tok) => placed_leaf src source_id index (index + str_len (c :: u)) tok /\
      (errs = [] -> leaf is_xid_start is_xid_continue is_text_dir src source_id index tok (c :: u))
  | inr _ => errs <> []
  end.

Lemma wp_lex_string index c h t :
  here index (c :: t) ->
  wp (lex_string is_text_dir src source_id index c) (fun r => ate (index + len_utf8 c) t h (fun errs u _ =>
    token_result index c r errs u)) (state h (index + len_utf8 c) t).
Proof.
  intros Hh. pose proof (here_boundary _ _ _ Hh) as Hb. pose proof (here_cons _ _ _ _ Hh) as Hh1.
  unfold lex_string. destruct (Z.eqb_spec c quote) as [->|Hc]; cbn [negb]; [|wp_step; by apply ate_done].
  do 2 wp_step. pose proof (len_utf8_pos quote).
  eapply LexGrammar.wp_mono; [apply (wp_string_loop _ _ [] []); [done|lia|done|lia]|].
  intros r l' (u & t' & errs & -> & -> & HQ). destruct r as [v|e]; [|by exists u, t', errs].
  destruct HQ as (w & -> & HQ). apply here_app in Hh1. wp_step. apply wp_span_until; [done|done|lia|intros Hv].
  wp_step. exists (w ++ [quote]), t', errs. rewrite <- Nat.add_assoc in Hv |- *. split; [done|]. split; [done|].
  split; [split; [done|]; by do 2 eexists; split_and!|]. intros He.
  change (len_utf8 quote + str_len (w ++ [quote])) with (str_len (quote :: w ++ [quote])).
  assert (index + str_len (quote :: w ++ [quote]) = index + str_len w + 2) as ->
    by (rewrite str_len_cons, str_len_app; cbn; lia).
  constructor. apply HQ; [done|constructor].
Qed.

(** ** Character literals *)

Lemma wp_unclosed_char_lit index h p t :
  boundary index ->
  exists e, forall Q : ErrorEmitted -> Lexer -> Prop, Q emitted (state (h ++ [e]) p t) ->
    wp (unclosed_char_lit src source_id index) Q (state h p t).
Proof.
  intros Hi. eexists. intros Q HQ. unfold unclosed_char_lit. wp_step.
  apply wp_span_at; [done|apply boundary_end|by apply boundary_le in Hi|intros _]. wp_step. exact HQ.
Qed.

Lemma wp_next_char index (Q : (nat * char) + ErrorEmitted -> Lexer -> Prop) h p t :
  boundary index ->
  match t with
  | [] => forall e, Q (inr emitted) (state (h ++ [e]) p [])
  | c :: t' => Q (inl (p, c)) (state h (p + len_utf8 c) t')
  end -> wp (next_char src source_id index) Q (state h p t).
Proof.
  intros Hb HQ. unfold next_char. do 2 wp_step. destruct t as [|c t]; [|by wp_step].
  destruct (wp_unclosed_char_lit index h p [] Hb) as [e He]. wp_step. apply He. wp_step. apply HQ.
Qed.

Lemma wp_char_escape index c h p t :
  here p t -> boundary index ->
  wp (char_escape src source_id index c) (fun r => ate p t h (fun errs u t' =>
    literal_result r errs (fun v => (c = chr "\" /\ escape_text u v) \/ (c <> chr "\" /\ u = [] /\ v = c)))) (state h p t).
Proof.
  intros Hh Hb. unfold char_escape. destruct (Z.eqb_spec c (chr "\")) as [->|Hc].
  - eapply LexGrammar.wp_mono; [apply wp_escape_or; [done|]|].
    + intros q _. by apply wp_unclosed_char_lit.
    + intros r l' Ha. eapply ate_mono; [exact Ha|]. intros errs v t' _ HQ. destruct r; [|done].
      destruct HQ as [-> HQ]. split; [done|]. by left.
  - wp_step. apply ate_done. split; [done|]. by right.
Qed.

(** The characters up to the closing quote are added to the string. *)
Lemma wp_quoted_loop fuel index s h p t :
  here p t -> length t < fuel -> boundary index ->
  wp (quoted_loop src source_id fuel index s) (fun r => ate p t h (fun errs u t' =>
    literal_result r errs (fun v => exists w, u = w ++ [chr "'"] /\ v = s ++ w))) (state h p t).
Proof.
  revert s p t. induction fuel as [|fuel IH]; intros s p t Hh Hf Hb; [lia|]. cbn [quoted_loop].
  wp_step. apply wp_next_char; [done|]. destruct t as [|c t]; [intros e; by apply ate_error|]. cbn [snd].
  unfold is_quote. destruct (Z.eqb_spec c (chr "'")) as [->|Hc].
  - wp_step. eapply ate_cons; [by apply (ate_done _ _ _ (fun errs u _ => errs = [] /\ u = []))|].
    intros errs w t' _ [-> ->]. split; [done|]. exists []. by rewrite app_nil_r.
  - eapply LexGrammar.wp_mono; [apply IH; [by apply here_cons in Hh|cbn in Hf; lia|done]|].
    intros r l' Ha. eapply ate_cons; [exact Ha|]. intros errs w t' _ HQ. destruct r as [v|]; [|done].
    destruct HQ as (-> & w' & -> & ->). split; [done|]. exists (c :: w'). by rewrite <- app_assoc.
Qed.

(** The text between the first quote and the second character, when there is no panic *)
Definition plain_start (x : str) (parsed c : char) : Prop := c <> chr "\" /\ x = [parsed] /\ len_utf8 parsed = 1.

Lemma wp_char_as_string index x parsed c sp h p t :
  here index (chr "'" :: x ++ c :: t) -> p = index + 1 + str_len x + len_utf8 c ->
  unsafe \/ plain_start x parsed c -> sp = mk index p -> valid_span sp ->
  wp (char_as_string src source_id index (index + 1 + str_len x) parsed c sp) (fun r => ate p t h (fun errs u _ =>
    errs <> [] /\ match r with
                  | inl (Some tok) => placed_leaf src source_id index p tok
                  | inl None => False
                  | inr _ => True
                  end)) (state h p t).
Proof.
  intros Hh -> Hpl -> Hv. pose proof (here_boundary _ _ _ Hh) as Hb. apply here_cons in Hh. pose proof (here_app _ _ _ _ Hh) as Hh0.
  pose proof (here_cons _ _ _ _ Hh0) as Hh1. unfold char_as_string. set (i1 := index + 1 + str_len x) in *.
  change (index + len_utf8 (chr "'") + str_len x) with i1 in *. set (p := i1 + len_utf8 c) in *.
  wp_step. eapply LexGrammar.wp_mono; [by apply wp_char_escape|]. intros r l' (u & t1 & errs & -> & -> & HQ).
  destruct r as [second|e]; [|by exists u, t1, errs]. destruct HQ as [-> Hsec]. rewrite app_nil_r. apply here_app in Hh1.
  do 2 wp_step. eapply LexGrammar.wp_mono; [apply wp_quoted_loop; [done|lia|done]|].
  intros r l' (w & t2 & errs & -> & -> & HQ). destruct r as [s|e].
  2:{ exists (u ++ w), t2, errs. rewrite <- app_assoc, str_len_app, Nat.add_assoc. done. }
  destruct HQ as (-> & w' & -> & ->). rewrite app_nil_r. wp_step. apply wp_span.
  - destruct Hpl as [?|(Hc & -> & Hl)]; [by left|right]. destruct Hsec as [[? _]|(_ & -> & ->)]; [done|].
    split_and!; [cbn; lia|by eapply here_boundary|]. apply here_app in Hh1.
    assert (i1 + str_len ([parsed; c] ++ w') = p + 0 + str_len (w' ++ [chr "'"])) as Heq.
    { rewrite !str_len_app, !str_len_cons. unfold p. rewrite Hl. change (len_utf8 (chr "'")) with 1. lia. }
    cbn [LexGrammar.mk at_span stop span_src]. rewrite Heq. by eapply here_boundary.
  - intros _. do 3 wp_step. exists (u ++ w' ++ [chr "'"]), t2. eexists [_]. rewrite <- !app_assoc.
    split; [done|]. split; [by rewrite (str_len_app u), Nat.add_assoc|]. split; [done|].
    split; [done|]. by do 2 eexists; split_and!.
Qed.

(** With a text-direction character, an error is emitted. *)
Lemma wp_text_dir c h p t (Q : () -> Lexer -> Prop) :
  here p (c :: t) ->
  (is_text_dir c = false -> Q tt (state h (p + len_utf8 c) t)) ->
  (forall e, Q tt (state (h ++ [e]) (p + len_utf8 c) t)) ->
  wp (if is_text_dir c then sp ← span_one src source_id p c; _ ← error (UnicodeTextDirInLiteral p c) sp; mret tt else mret tt)
    Q (state h (p + len_utf8 c) t).
Proof.
  intros Hh Hn He. destruct (is_text_dir c); [|by wp_step; apply Hn].
  wp_step. eapply wp_span_one; [done|intros _]. do 3 wp_step. apply He.
Qed.

(** After the first character and the possible error on it *)
Lemma char_first index c h p t :
  here index (chr "'" :: c :: t) -> p = index + 1 + len_utf8 c ->
  wp (parsed ←? char_escape src source_id index c;
      y ←? next_char src source_id index;
      let '(next_index, c) := y in
      sp ← span_until src source_id index;
      if negb (is_quote c) then char_as_string src source_id index next_index parsed c sp
      else mret (inl (Some (CLiteral (LitChar sp parsed)))))
    (fun r => ate p t h (fun errs u _ =>
      match r with
      | inl None => False
      | inl (Some tok) => placed_leaf src source_id index (p + str_len u) tok /\ (errs = [] -> is_text_dir c = false ->
          leaf is_xid_start is_xid_continue is_text_dir src source_id index tok (chr "'" :: c :: u))
      | inr _ => errs <> []
      end)) (state h p t).
Proof.
  intros Hh ->. pose proof (here_boundary _ _ _ Hh) as Hb. pose proof (here_cons _ _ _ _ Hh) as Hh1.
  pose proof (here_cons _ _ _ _ Hh1) as Hh2. change (len_utf8 (chr "'")) with 1 in *.
  wp_step. eapply LexGrammar.wp_mono; [by apply wp_char_escape|]. intros r l' (u & t1 & errs & -> & -> & HQ).
  destruct r as [parsed|e]; [|by exists u, t1, errs]. destruct HQ as [-> Hp]. rewrite app_nil_r.
  wp_step. apply wp_next_char; [done|]. apply here_app in Hh2. destruct t1 as [|c2 t1].
  { intros e. exists u, [], [e]. done. }
  pose proof (here_cons _ _ _ _ Hh2) as Hh3.
  set (p2 := index + 1 + len_utf8 c + str_len u) in *. wp_step. apply wp_span_until; [done|done|lia|intros Hv].
  unfold is_quote. destruct (Z.eqb_spec c2 (chr "'")) as [->|Hc2]; cbn [negb].
  - wp_step. exists (u ++ [chr "'"]), t1, []. rewrite app_nil_r, <- app_assoc, str_len_app, Nat.add_assoc. split; [done|].
    split; [done|]. split; [split; [done|]; by do 2 eexists; split_and!|]. intros _ Hd.
    assert (p2 + len_utf8 (chr "'") = index + str_len (c :: u) + 2) as -> by (unfold p2; rewrite str_len_cons; change (len_utf8 (chr "'")) with 1; lia).
    rewrite (app_comm_cons u). apply leaf_char. destruct Hp as [[-> Hp]|(Hc & -> & ->)]; by constructor.
  - assert (p2 = index + 1 + str_len (c :: u)) as Hp2 by (unfold p2; rewrite str_len_cons; lia).
    clearbody p2. subst p2. change (c :: u ++ c2 :: t1) with ((c :: u) ++ c2 :: t1) in Hh.
    eapply LexGrammar.wp_mono; [eapply (wp_char_as_string index (c :: u) parsed c2); [exact Hh|done| |done|done]|].
    + destruct Hsafe as [?|[Ha Hq]]; [by left|right]. destruct Hh as (pre & Hs & _). rewrite Hs in Ha, Hq.
      assert (forall x, chr "\" = x -> x ∈ chr "'" :: (c :: u) ++ c2 :: t1 -> False) as Hin.
      { intros x <- Hx. destruct Hq as [Hq|Hq]; apply Hq, elem_of_app; right; [by left|done]. }
      destruct Hp as [[-> _]|(Hc & -> & ->)]; [exfalso; eapply Hin; [done|by right; left]|].
      split; [intros ->; eapply Hin; [done|by right; right; left]|]. split; [done|]. apply ascii_len.
      apply Forall_app in Ha as [_ Ha]. by apply Forall_cons in Ha as [_ [Ha _]%Forall_cons].
    + intros r l' (v & t2 & errs & -> & -> & He & Hr). exists (u ++ c2 :: v), t2, errs. split; [by rewrite <- app_assoc|].
      split; [f_equal; rewrite str_len_app, !str_len_cons; lia|]. destruct r as [[tok|]|e]; [|done|done].
      split; [|done]. eapply placed_leaf_le; [exact Hr|]. rewrite str_len_app, !str_len_cons. lia.
Qed.

Lemma wp_lex_char index c h t :
  here index (c :: t) ->
  wp (lex_char is_text_dir src source_id index c) (fun r => ate (index + len_utf8 c) t h (fun errs u _ =>
    token_result index c r errs u)) (state h (index + len_utf8 c) t).
Proof.
  intros Hh. pose proof (here_boundary _ _ _ Hh) as Hb. pose proof (here_cons _ _ _ _ Hh) as Hh1.
  unfold lex_char, is_quote at 1. destruct (Z.eqb_spec c (chr "'")) as [->|Hc]; cbn [negb]; [|wp_step; by apply ate_done].
  wp_step. apply wp_next_char; [done|]. destruct t as [|c t]; [intros e; by apply ate_error|].
  change (len_utf8 (chr "'")) with 1 in *. pose proof (here_cons _ _ _ _ Hh1) as Hh2.
  wp_step. apply wp_text_dir; [done| |].
  - intros Hd. eapply LexGrammar.wp_mono; [by apply char_first|]. intros r l' Ha. eapply ate_cons; [exact Ha|].
    intros errs u t' _ HQ. destruct r as [[tok|]|e]; [|done|done]. destruct HQ as [Hp Hl]. split; [|auto].
    rewrite !str_len_cons. change (len_utf8 (chr "'")) with 1. by rewrite !Nat.add_assoc.
  - intros e. eapply LexGrammar.wp_mono; [by apply char_first|]. intros r l' Ha.
    eapply (ate_trans _ [c] t h [e]); [change (str_len [c]) with (len_utf8 c + 0); rewrite Nat.add_0_r; exact Ha|].
    intros errs u t' _ HQ. destruct r as [[tok|]|e']; [|done|done]. destruct HQ as [Hp _]. split; [|done].
    cbn [app]. rewrite !str_len_cons. change (len_utf8 (chr "'")) with 1. by rewrite !Nat.add_assoc.
Qed.
End strings.
End literals.
