(* ===== verification/LexNumbers.v ===== *)
(** * Integer literals and identifiers

    What [lex_int_lit], [lex_identifier] and [lex_punctuation] return: the value of the
    digits in their radix, the suffix, and the text of the token. *)

From S2P Require Import Prelude LexToken LexSpan Lexer LexGrammar LexLiterals.
From Stdlib Require Import Ascii.

Section numbers.
Context (is_xid_start is_xid_continue is_text_dir : char -> bool).
Context (src : Source) (source_id : option Z) (unsafe : Prop).

Abbreviation wp := (wp unsafe).
Abbreviation here := (here src).
Abbreviation mk := (mk src source_id).
Abbreviation boundary := (boundary (source_text src)).

(** ** Integer literals *)

Lemma digits_of_spec radix n p t :
  exists u t' m, t = u ++ t' /\ digits radix n u m /\
    digits_of radix n (char_indices p t) =
      (m, match peeked (p + str_len u) t' with Some (i, _) => Some i | None => None end, char_indices (p + str_len u) t').
Proof.
  revert n p. induction t as [|c t IH]; intros n p; cbn [char_indices digits_of].
  - exists [], [], n. by split_and!; [|constructor|].
  - destruct (Z.eqb_spec c (chr "_")) as [->|Hc]; [|destruct (to_digit radix c) as [d|] eqn:Hd].
    + destruct (IH n (p + len_utf8 (chr "_"))) as (u & t' & m & -> & Hu & ->). exists (chr "_" :: u), t', m.
      split; [done|]. split; [by constructor|]. by rewrite str_len_cons, Nat.add_assoc.
    + destruct (IH (n * radix + d)%Z (p + len_utf8 c)) as (u & t' & m & -> & Hu & ->). exists (c :: u), t', m.
      split; [done|]. split; [by econstructor|]. by rewrite str_len_cons, Nat.add_assoc.
    + exists [], (c :: t), n. split; [done|]. split; [constructor|]. by rewrite Nat.add_0_r.
Qed.

(** The end of the digits, which is the end of the text when there is none *)
Definition ends_at (end_opt : option nat) (p : nat) (t' : str) : Prop :=
  here p t' -> default (src_len src) end_opt = p.

Lemma peeked_end p t : ends_at (match peeked p t with Some (i, _) => Some i | None => None end) p t.
Proof. intros Hh%here_end. destruct t; cbn in *; lia. Qed.

Lemma wp_parse_digits n radix h p t :
  wp (parse_digits n radix) (fun r => ate p t h (fun errs u t' =>
    errs = [] /\ digits radix n u r.1 /\ ends_at r.2 (p + str_len u) t')) (state h p t).
Proof.
  destruct (digits_of_spec radix n p t) as (u & t' & m & -> & Hu & Heq).
  unfold LexGrammar.wp, parse_digits, state. cbn [stream handler]. rewrite Heq. exists u, t', []. rewrite app_nil_r.
  split; [done|]. split; [done|]. split; [done|]. split; [done|]. apply peeked_end.
Qed.

(** The digits after the first character [c] of an integer *)
Definition int_result (index : nat) (c : char) (r : (Z * (Z * option nat)) + ErrorEmitted) (errs : list LexError)
    (u t' : str) : Prop :=
  literal_result r errs (fun v => int_text (c :: u) v.1 v.2.1 /\ ends_at v.2.2 (index + str_len (c :: u)) t').

Lemma wp_incomplete_int_lit index radix stop h p t :
  boundary index -> boundary stop -> index <= stop ->
  exists e, forall Q : ErrorEmitted -> Lexer -> Prop, Q emitted (state (h ++ [e]) p t) ->
    wp (incomplete_int_lit src source_id index radix stop) Q (state h p t).
Proof.
  intros Hi Hs Hle. eexists. intros Q HQ. unfold incomplete_int_lit. wp_step.
  apply wp_span_at; [done..|intros _]. apply wp_error. exact HQ.
Qed.

Lemma int_prefix_radix radix p c d s n :
  radix_prefix radix = Some p -> to_digit radix c = Some d -> digits radix d s n ->
  int_text (chr "0" :: chr p :: c :: s) radix n.
Proof. intros Hp Hd Hs. by eapply (int_prefixed radix p). Qed.

Lemma wp_prefixed_int_lit index radix pre h t :
  radix_prefix radix = Some pre -> len_utf8 (chr pre) = 1 -> here index (chr "0" :: chr pre :: t) ->
  wp (prefixed_int_lit src source_id index radix) (fun r => ate (index + 1) (chr pre :: t) h (fun errs u t' =>
    int_result index (chr "0") r errs u t')) (state h (index + 1) (chr pre :: t)).
Proof.
  intros Hpre Hl Hh. pose proof (here_boundary _ _ _ Hh) as Hb. apply here_cons, here_cons in Hh.
  change (len_utf8 (chr "0")) with 1 in *. rewrite Hl in Hh. unfold prefixed_int_lit. do 4 wp_step. rewrite Hl.
  destruct t as [|c t].
  - destruct (wp_incomplete_int_lit index radix (src_len src) h (index + 1 + 1) []) as [e He];
      [done|apply boundary_end|by apply boundary_le in Hb|].
    wp_step. apply He. wp_step. exists [chr pre], [], [e]. rewrite str_len_cons, Hl. done.
  - pose proof (here_boundary _ _ _ Hh) as Hb1. destruct (to_digit radix c) as [d|] eqn:Hd.
    + wp_step. eapply LexGrammar.wp_mono; [apply wp_parse_digits|]. intros r l' (u & t' & errs & -> & -> & -> & Hu & He).
      rewrite app_nil_r. wp_step. exists (chr pre :: c :: u), t', []. rewrite app_nil_r.
      assert (index + str_len (chr "0" :: chr pre :: c :: u) = index + 1 + 1 + len_utf8 c + str_len u) as Hlen.
      { rewrite !str_len_cons, Hl. change (len_utf8 (chr "0")) with 1. lia. }
      split; [done|]. split; [f_equal; rewrite !str_len_cons, Hl; lia|]. split; [done|].
      split; [by eapply int_prefix_radix|]. by rewrite Hlen.
    + destruct (wp_incomplete_int_lit index radix (index + 1 + 1) h (index + 1 + 1 + len_utf8 c) t) as [e He]; [done|done|lia|].
      wp_step. apply He. wp_step. exists [chr pre; c], t, [e]. rewrite !str_len_cons, Hl. split; [done|].
      split; [f_equal; cbn; lia|done].
Qed.

Lemma wp_int_value index c d h t :
  to_digit 10 c = Some d -> here index (c :: t) ->
  wp (int_value src source_id index d) (fun r => ate (index + len_utf8 c) t h (fun errs u t' =>
    int_result index c r errs u t')) (state h (index + len_utf8 c) t).
Proof.
  intros Hd Hh. pose proof (here_boundary _ _ _ Hh) as Hb. pose proof (here_cons _ _ _ _ Hh) as Hh1.
  assert (forall m, m = d -> wp (r ← parse_digits m 10; mret (inl (10%Z, r))) (fun r => ate (index + len_utf8 c) t h (fun errs u t' =>
    int_result index c r errs u t')) (state h (index + len_utf8 c) t)) as Hdec.
  { intros m ->. wp_step. eapply LexGrammar.wp_mono; [apply wp_parse_digits|]. intros r l' Ha. wp_step.
    eapply ate_mono; [exact Ha|]. intros errs u t' _ (-> & Hu & He). split; [done|]. cbn [fst snd].
    split; [by econstructor|]. by rewrite str_len_cons, Nat.add_assoc. }
  unfold int_value. destruct (Z.eqb_spec d 0) as [->|Hnz]; [|by apply Hdec].
  assert (c = chr "0") as ->.
  { unfold to_digit in Hd. cbv zeta in Hd. change (chr "0") with 48%Z. case_tests; simplify_eq; lia. }
  assert (forall end_opt, ends_at end_opt (index + len_utf8 (chr "0")) t -> ate (index + len_utf8 (chr "0")) t h (fun errs u t' =>
    int_result index (chr "0") (inl (10%Z, (0%Z, end_opt))) errs u t') (state h (index + len_utf8 (chr "0")) t)) as Hzero.
  { intros end_opt He. apply ate_done. split; [done|]. split; [econstructor; [done|constructor]|exact He]. }
  do 2 wp_step. destruct t as [|x t]; cbn [peeked].
  - wp_step. apply Hzero. intros Hend%here_end. cbn [default]. rewrite Hend. apply Nat.add_0_r.
  - destruct (Z.eqb_spec x (chr "x")) as [->|_]; [by apply wp_prefixed_int_lit|].
    destruct (Z.eqb_spec x (chr "o")) as [->|_]; [by apply wp_prefixed_int_lit|].
    destruct (Z.eqb_spec x (chr "b")) as [->|_]; [by apply wp_prefixed_int_lit|].
    case_match; [by apply Hdec|]. wp_step. by apply Hzero.
Qed.

(** ** Suffixes and identifiers *)

Lemma xid_rest_spec p t :
  exists u t', t = u ++ t' /\ Forall (fun c => is_xid_continue c = true) u /\
    match t' with [] => True | c :: _ => is_xid_continue c = false end /\
    xid_rest is_xid_continue (char_indices p t) = (u, char_indices (p + str_len u) t').
Proof.
  revert p. induction t as [|c t IH]; intros p; cbn [char_indices xid_rest].
  - by exists [], [].
  - destruct (is_xid_continue c) eqn:Hc.
    + destruct (IH (p + len_utf8 c)) as (u & t' & -> & Hu & Ht & ->). exists (c :: u), t'. split; [done|].
      split; [by constructor|]. split; [done|]. by rewrite str_len_cons, Nat.add_assoc.
    + exists [], (c :: t). rewrite Nat.add_0_r. by split_and!.
Qed.

Lemma wp_consume_xid h p t :
  wp (consume_xid is_xid_continue) (fun r => ate p t h (fun errs u t' =>
    errs = [] /\ r = u /\ Forall (fun c => is_xid_continue c = true) u /\
    match t' with [] => True | c :: _ => is_xid_continue c = false end)) (state h p t).
Proof.
  destruct (xid_rest_spec p t) as (u & t' & -> & Hu & Ht & Heq). unfold LexGrammar.wp, consume_xid, state. cbn [stream handler].
  rewrite Heq. exists u, t', []. by rewrite app_nil_r.
Qed.

Lemma suffix_trim a b s :
  str_get (source_text src) a b = Some s -> exists sp, Ident_new (mk a b) = Ok sp.
Proof. intros Hs. unfold Ident_new, Span_trim, Span_as_str, str_index. cbn. rewrite Hs. by eexists. Qed.

(** The suffix of an integer; one that is not known is an error. *)
Lemma wp_lex_int_ty_opt h p t :
  here p t ->
  wp (lex_int_ty_opt is_xid_continue src source_id) (fun r => ate p t h (fun errs u _ =>
    match r with
    | inl ty => errs = [] -> match ty with
                             | None => u = []
                             | Some (ty, sp) => parse_int_suffix u = Some ty /\ sp = mk p (p + str_len u)
                             end
    | inr _ => errs <> []
    end)) (state h p t).
Proof.
  intros Hh. pose proof (here_boundary _ _ _ Hh) as Hb. unfold lex_int_ty_opt, next_if. do 3 wp_step.
  destruct t as [|c t]; cbn [peeked]; [do 2 wp_step; by apply ate_done|].
  destruct (is_xid_continue c) eqn:Hc; [|do 2 wp_step; by apply ate_done]. pose proof (here_cons _ _ _ _ Hh) as Hh1.
  do 2 wp_step. eapply LexGrammar.wp_mono; [apply wp_consume_xid|]. intros r l' (u & t' & errs & -> & -> & -> & -> & Hu & _).
  rewrite app_nil_r. apply here_app in Hh1. do 2 wp_step. rewrite (peeked_stop _ _ _ Hh1).
  assert (forall Q errs, Q errs (c :: u) t' -> ate p (c :: u ++ t') h Q
    (state (h ++ errs) (p + len_utf8 c + str_len u) t')) as Hate.
  { intros Q errs HQ. exists (c :: u), t', errs. by rewrite str_len_cons, Nat.add_assoc. }
  destruct (parse_int_suffix (c :: u)) as [ty|] eqn:Hty.
  - wp_step. apply wp_span_until; [done|done|lia|intros Hv]. wp_step.
    rewrite <- (app_nil_r h) at 2. apply Hate. intros _. split; [done|]. by rewrite str_len_cons, Nat.add_assoc.
  - wp_step. apply wp_span_at; [done|by eapply here_boundary|lia|intros Hv]. wp_step.
    apply str_get_is_Some in Hv as [s Hs]. destruct (suffix_trim _ _ _ Hs) as [sp Hsp].
    eapply wp_lift; [exact Hsp|]. do 3 wp_step. by apply Hate.
Qed.

Lemma wp_lex_int_lit index c h t :
  here index (c :: t) ->
  wp (lex_int_lit is_xid_continue src source_id index c) (fun r => ate (index + len_utf8 c) t h (fun errs u _ =>
    token_result src source_id is_xid_start is_xid_continue is_text_dir index c r errs u)) (state h (index + len_utf8 c) t).
Proof.
  intros Hh. pose proof (here_boundary _ _ _ Hh) as Hb. unfold lex_int_lit.
  destruct (to_digit 10 c) as [d|] eqn:Hd; [|wp_step; by apply ate_done].
  pose proof (here_cons _ _ _ _ Hh) as Hh1. wp_step. eapply LexGrammar.wp_mono; [by apply wp_int_value|].
  intros r l' (u & t1 & errs & -> & -> & HQ). destruct r as [[radix [n end_opt]]|e]; [|by exists u, t1, errs].
  destruct HQ as (-> & Hint & Hend). cbn [fst snd] in *. rewrite app_nil_r. apply here_app in Hh1.
  rewrite str_len_cons, Nat.add_assoc in Hend. specialize (Hend Hh1).
  wp_step. eapply LexGrammar.wp_mono; [by apply wp_lex_int_ty_opt|]. intros r l' (v & t2 & errs & -> & -> & HQ).
  assert (forall Q errs, Q errs (u ++ v) t2 -> ate (index + len_utf8 c) (u ++ v ++ t2) h Q
    (state (h ++ errs) (index + len_utf8 c + str_len u + str_len v) t2)) as Hate.
  { intros Q errs' HQ'. exists (u ++ v), t2, errs'. by rewrite str_len_app, Nat.add_assoc, <- app_assoc. }
  destruct r as [ty_opt|e]; [|by apply Hate]. rewrite Hend.
  assert (forall errs', (errs' = [] -> errs = [] /\ (is_u256 ty_opt <> None -> radix = 16%Z)) ->
    wp (sp ← span src source_id index (index + len_utf8 c + str_len u); mret (inl (Some (CLiteral (LitInt sp n ty_opt false)))))
    (fun r => ate (index + len_utf8 c) (u ++ v ++ t2) h (fun errs u _ =>
      token_result src source_id is_xid_start is_xid_continue is_text_dir index c r errs u))
    (state (h ++ errs') (index + len_utf8 c + str_len u + str_len v) t2)) as Hint'.
  { intros errs' He. wp_step. apply wp_span_at; [done|by eapply here_boundary|lia|intros Hv]. wp_step. apply Hate. split.
    - split; [done|]. do 2 eexists. split; [done|]. split; [done|]. split; [done|]. rewrite str_len_cons, str_len_app. lia.
    - intros Hn. destruct (He Hn) as [-> Hr]. rewrite <- Nat.add_assoc, <- (str_len_cons c u), app_comm_cons.
      econstructor; [exact Hint|]. specialize (HQ eq_refl). destruct ty_opt as [[ty sp]|]; [|subst v; constructor].
      destruct HQ as [Hty ->]. rewrite str_len_cons, Nat.add_assoc. constructor; [done|]. intros ->. by apply Hr. }
  destruct (is_u256 ty_opt) as [sp|] eqn:Hu; [destruct (Z.eqb_spec radix 16) as [->|Hr]; cbn [negb]|].
  - by apply Hint'.
  - do 3 wp_step. rewrite <- app_assoc. apply Hate. by destruct errs.
  - apply Hint'. by intros ->.
Qed.
End numbers.

(** * Identifiers, punctuation and comments

    What the functions return that read the other tokens. *)

(** ** Characters of delimiters and punctuation *)

Ltac by_ascii c :=
  let b := fresh "b" in let Hb := fresh "Hb" in
  pattern c; apply ascii_cases;
  [intros b _ _|intros Hb; unfold as_punct_kind, as_open_delimiter, as_close_delimiter; rewrite Hb; done];
  destruct b as [[] [] [] [] [] [] [] []]; cbn; try done; intros [= <-]; done.

Lemma as_punct_kind_char c k : as_punct_kind c = Some k -> c = as_char k.
Proof. by_ascii c. Qed.

Lemma as_open_delimiter_char c d : as_open_delimiter c = Some d -> c = as_open_char d.
Proof. by_ascii c. Qed.

Lemma as_close_delimiter_char c d : as_close_delimiter c = Some d -> c = as_close_char d.
Proof. by_ascii c. Qed.

(** ** Trimming *)

Lemma trim_start_black s : Forall (fun c => is_whitespace c = false) s -> trim_start s = s.
Proof. destruct 1 as [|c s Hc _]; [done|]. cbn. by rewrite Hc. Qed.

Lemma trim_end_black s : Forall (fun c => is_whitespace c = false) s -> trim_end s = s.
Proof. intros Hs. unfold trim_end. rewrite trim_start_black; [apply reverse_involutive|by apply Forall_reverse]. Qed.

Section tokens.
Context (is_xid_start is_xid_continue is_text_dir : char -> bool).
Context {Hxid : UnicodeTables is_xid_start is_xid_continue}.
Context (src : Source) (source_id : option Z) (unsafe : Prop).
Context (Hsafe : unsafe \/ tame (source_text src)).

Abbreviation wp := (wp unsafe).
Abbreviation here := (here src).
Abbreviation mk := (mk src source_id).
Abbreviation boundary := (boundary (source_text src)).
Abbreviation leaf := (leaf is_xid_start is_xid_continue is_text_dir src source_id).
Abbreviation placed_leaf := (placed_leaf src source_id).

Lemma here_get p s t : here p (s ++ t) -> str_get (source_text src) p (p + str_len s) = Some s.
Proof. intros (pre & -> & <-). apply str_get_app. Qed.

Lemma new_with_raw_black p s t raw :
  here p (s ++ t) -> Forall (fun c => is_whitespace c = false) s ->
  new_with_raw (mk p (p + str_len s)) raw = Ok (mkIdent None (mk p (p + str_len s)) raw).
Proof.
  intros Hh%here_get Hs. unfold new_with_raw, Span_trim, Span_as_str, str_index. cbn. rewrite Hh. cbn.
  rewrite trim_start_black, trim_end_black by done. by rewrite Nat.sub_diag, Nat.add_0_r, Nat.sub_0_r.
Qed.

(** ** Punctuation *)

Lemma wp_lex_punctuation index c h t :
  here index (c :: t) ->
  wp (lex_punctuation src source_id index c) (fun r => ate (index + len_utf8 c) t h (fun errs u _ =>
    errs = [] /\ u = [] /\ match r with
      | Some tok => exists kind spacing, c = as_char kind /\
          tok = CPunct (mkPunct (mk index (index + 1)) kind spacing) /\ valid_span (mk index (index + 1))
      | None => as_punct_kind c = None
      end)) (state h (index + len_utf8 c) t).
Proof.
  intros Hh. pose proof (here_boundary _ _ _ Hh) as Hb. apply here_cons in Hh. unfold lex_punctuation.
  destruct (as_punct_kind c) as [k|] eqn:Hk; [|wp_step; by apply ate_done]. apply as_punct_kind_char in Hk as ->.
  assert (len_utf8 (as_char k) = 1) as Hl by by destruct k. rewrite Hl in *.
  do 3 wp_step. apply wp_span_until; [done|done|lia|intros Hv]. wp_step. apply ate_done. split; [done|]. split; [done|].
  by do 2 eexists.
Qed.

(** ** Identifiers *)

(** The rest of an identifier after the text [x] *)
Lemma wp_ident_token index x raw h t :
  here index (x ++ t) -> Forall (fun c => is_whitespace c = false) x ->
  wp (ident_token is_xid_continue src source_id index raw)
    (fun r => ate (index + str_len x) t h (fun errs u _ =>
      errs = [] /\ r = CIdent (mkIdent None (mk index (index + str_len (x ++ u))) raw) /\
      valid_span (mk index (index + str_len (x ++ u))) /\ Forall (fun d => is_xid_continue d = true) u /\
      (u = [] -> match t with [] => True | d :: _ => is_xid_continue d = false end))) (state h (index + str_len x) t).
Proof.
  intros Hh Hx. pose proof (here_boundary _ _ _ Hh) as Hb. pose proof (here_app _ _ _ _ Hh) as Hh1.
  unfold ident_token. wp_step. eapply LexGrammar.wp_mono; [apply wp_consume_xid|].
  intros r l' (u & t' & errs & -> & -> & -> & -> & Hu & Ht). rewrite app_nil_r. apply here_app in Hh1.
  wp_step. apply wp_span_until; [done|done|lia|intros Hv]. wp_step. rewrite <- Nat.add_assoc, <- str_len_app in *.
  rewrite app_assoc in Hh. eapply wp_lift; [eapply new_with_raw_black; [exact Hh|]|].
  { apply Forall_app. split; [done|]. eapply Forall_impl; [exact Hu|]. apply xid_continue_black. }
  wp_step. exists u, t', []. rewrite app_nil_r, str_len_app, Nat.add_assoc. split; [done|]. split; [done|]. split; [done|].
  split; [done|]. split; [by rewrite str_len_app, Nat.add_assoc in Hv|]. split; [done|]. by intros ->.
Qed.

Lemma ident_start_black c : is_xid_start c || (c =? chr "_")%Z = true -> is_whitespace c = false.
Proof. intros [Hc|Hc]%orb_true_iff; [by apply (xid_start_black c)|by apply Z.eqb_eq in Hc as ->]. Qed.

(** What the lexing of identifiers returns: an identifier, an error, or the character to
    go on with *)
Definition ident_result (trees : list CommentedTokenTree) (index : nat) (c : char)
    (r : list CommentedTokenTree + nat * char) (errs : list LexError) (u : str) : Prop :=
  match r with
  | inl trees' => (errs <> [] /\ trees' = trees) \/
      exists tok, trees' = trees ++ [tok] /\ placed_leaf index (index + str_len (c :: u)) tok /\ leaf index tok (c :: u)
  | inr (i, x) => errs = [] /\ ((u = [] /\ i = index /\ x = c) \/ (c :: u = text "r#_" /\ i = index + 2 /\ x = chr "_"))
  end.

Lemma wp_ident_or_underscore trees index c raw h t :
  here index (c :: t) -> is_xid_start c || (c =? chr "_")%Z = true ->
  wp (ident_or_underscore is_xid_continue src source_id trees index c raw) (fun r => ate (index + len_utf8 c) t h (fun errs u _ =>
    errs = [] /\ match r with
      | inl trees' => trees' = trees ++ [CIdent (mkIdent None (mk index (index + str_len (c :: u))) raw)] /\
          valid_span (mk index (index + str_len (c :: u))) /\ ident_start is_xid_start c /\ c :: u <> [chr "_"] /\
          Forall (fun d => is_xid_continue d = true) u
      | inr (i, x) => u = [] /\ i = index /\ x = c /\ c = chr "_"
      end)) (state h (index + len_utf8 c) t).
Proof.
  intros Hh Hc. unfold ident_or_underscore. do 2 wp_step. destruct (_ || _) eqn:Hus in |- *.
  - wp_step. eapply LexGrammar.wp_mono.
    { replace (index + len_utf8 c) with (index + str_len [c]) by (cbn; lia). apply wp_ident_token; [done|].
      constructor; [by apply ident_start_black|constructor]. }
    intros r l' Ha. wp_step. replace (index + str_len [c]) with (index + len_utf8 c) in Ha by (cbn; lia).
    eapply ate_mono; [exact Ha|]. cbn beta. intros errs u t' _ (-> & -> & Hv & Hu & Hmax). split; [done|].
    split; [done|]. split; [done|]. split; [apply orb_true_iff in Hc as [?|?]; [by left|right; by apply Z.eqb_eq]|]. split; [|done].
    intros [= -> ->]. specialize (Hmax eq_refl). rewrite Z.eqb_refl in Hus. destruct t; cbn in *; congruence.
  - wp_step. apply orb_false_iff in Hus as [Hus _]. apply negb_false_iff, Z.eqb_eq in Hus. by apply ate_done.
Qed.

Lemma wp_lex_identifier trees index c h t :
  here index (c :: t) -> is_whitespace c = false ->
  wp (lex_identifier is_xid_start is_xid_continue src source_id trees index c) (fun r => ate (index + len_utf8 c) t h
    (fun errs u _ => ident_result trees index c r errs u)) (state h (index + len_utf8 c) t).
Proof.
  intros Hh Hw. unfold lex_identifier. destruct (is_xid_start c || (c =? chr "_")%Z) eqn:Hc; cbn [negb].
  2:{ wp_step. apply ate_done. split; [done|]. by left. }
  do 2 wp_step. destruct (_ && _) eqn:Hraw in |- *; cbn [andb].
  - apply andb_true_iff in Hraw as [Hr%Z.eqb_eq Hn]. subst c. destruct t as [|d t]; [done|]. cbn in Hn. apply Z.eqb_eq in Hn as ->.
    pose proof (here_app _ _ (text "r#") t Hh) as Hh2. change (str_len (text "r#")) with 2 in Hh2.
    assert (forall errs Q u t', Q errs (chr "#" :: u) t' ->
      ate (index + 1) (chr "#" :: u ++ t') h Q (state (h ++ errs) (index + 2 + str_len u) t')) as Hate.
    { intros errs Q u t' HQ. exists (chr "#" :: u), t', errs. split; [done|]. split; [|done]. f_equal. rewrite str_len_cons. change (len_utf8 (chr "#")) with 1. lia. }
    change (len_utf8 (chr "r")) with 1.
    destruct t as [|d t]; do 5 wp_step; cbn [default]; wp_step; change (len_utf8 (chr "#")) with 1; replace (index + 1 + 1) with (index + 2) by lia;
      cbn beta iota delta [id].
    + rewrite Hc. cbn [negb]. unfold ident_or_underscore. do 2 wp_step. change (chr "r" =? chr "_")%Z with false. cbn [negb orb].
      wp_step. eapply LexGrammar.wp_mono; [apply (wp_ident_token index (text "r#")); [done|by repeat constructor]|].
      intros r l' (u & t' & errs & [-> ->]%symmetry%app_nil & -> & -> & -> & Hv & _). wp_step.
      exists [chr "#"], [], []. split; [done|]. split; [f_equal; cbn; lia|]. right. eexists. split; [done|]. split; [|constructor].
      split; [done|]. do 2 eexists. by split_and!.
    + destruct (is_xid_start d || (d =? chr "_")%Z) eqn:Hd; cbn [negb].
      * eapply LexGrammar.wp_mono; [by apply wp_ident_or_underscore|]. intros r l' (u & t' & errs & -> & -> & -> & HQ).
        rewrite <- Nat.add_assoc, <- str_len_cons, app_comm_cons. apply (Hate [] _ (d :: u)).
        destruct r as [trees'|[i x]].
        -- destruct HQ as (-> & Hv & Hs & Hne & Hu). right. eexists. split; [done|]. split; [|by apply leaf_raw_ident].
           split; [done|]. do 2 eexists. split; [done|]. split; [done|]. split; [lia|]. rewrite !str_len_cons.
           change (len_utf8 (chr "r")) with 1. change (len_utf8 (chr "#")) with 1. lia.
        -- destruct HQ as (-> & -> & -> & ->). split; [done|]. by right.
      * wp_step. eapply wp_span_one; [done|intros _]. do 3 wp_step.
        pose proof (Hate [mkLexError (mk (index + 2) (index + 2 + len_utf8 d)) (InvalidCharacter (index + 2) d)]
          (fun errs u _ => ident_result trees index (chr "r") (inl trees) errs u) [d] t) as H.
        cbn in H. rewrite Nat.add_0_r in H. apply H. by left.
  - eapply LexGrammar.wp_mono; [by apply wp_ident_or_underscore|]. intros r l' Ha. eapply ate_mono; [exact Ha|].
    cbn beta. intros errs u t' _ [-> HQ]. destruct r as [trees'|[i x]].
    + destruct HQ as (-> & Hv & Hs & Hne & Hu). right. eexists. split; [done|]. split; [|by constructor].
      split; [done|]. do 2 eexists. by split_and!.
    + destruct HQ as (-> & -> & -> & ->). split; [done|]. by left.
Qed.
End tokens.

(** * Comments

    What [lex_line_comment] and [lex_block_comment] return. *)

Section comments.
Context (is_xid_start is_xid_continue is_text_dir : char -> bool).
Context (src : Source) (source_id : option Z) (unsafe : Prop).
Context (Hsafe : unsafe \/ tame (source_text src)).

Abbreviation wp := (wp unsafe).
Abbreviation here := (here src).
Abbreviation mk := (mk src source_id).
Abbreviation boundary := (boundary (source_text src)).
Abbreviation leaf := (leaf is_xid_start is_xid_continue is_text_dir src source_id).
Abbreviation placed_leaf := (placed_leaf src source_id).

(** ** Line comments *)

(** The end of a line: nothing at the end of the text *)
Definition line_end (gap t' : str) : Prop := gap = [newline] \/ (gap = [] /\ t' = []).

Lemma find_newline_spec p t :
  exists s gap t', t = s ++ gap ++ t' /\ (newline ∉ s) /\ line_end gap t' /\
    find_newline (char_indices p t) =
      (if bool_decide (gap = []) then None else Some (p + str_len s), char_indices (p + str_len s + str_len gap) t').
Proof.
  revert p. induction t as [|c t IH]; intros p; cbn [char_indices find_newline].
  - exists [], [], []. split; [done|]. split; [by intros ?%elem_of_nil|]. split; [by right|done].
  - destruct (Z.eqb_spec c newline) as [->|Hc].
    + exists [], [newline], t. split; [done|]. split; [by intros ?%elem_of_nil|]. split; [by left|].
      cbn. by rewrite Nat.add_0_r.
    + destruct (IH (p + len_utf8 c)) as (s & gap & t' & -> & Hs & Hg & ->). exists (c :: s), gap, t'.
      split; [done|]. split; [by intros [?|?]%elem_of_cons|]. split; [done|]. by rewrite str_len_cons, Nat.add_assoc.
Qed.

Lemma wp_find_line_end h p t :
  here p t ->
  wp (find_line_end (src_len src)) (fun r => ate p t h (fun errs u t' =>
    errs = [] /\ exists s gap, u = s ++ gap /\ (newline ∉ s) /\ line_end gap t' /\ r = p + str_len s)) (state h p t).
Proof.
  intros Hh. destruct (find_newline_spec p t) as (s & gap & t' & -> & Hs & Hg & Heq).
  unfold LexGrammar.wp, find_line_end, state. cbn [stream handler]. rewrite Heq. exists (s ++ gap), t', [].
  rewrite app_nil_r, <- app_assoc, str_len_app, Nat.add_assoc. split; [done|]. split; [done|]. split; [done|].
  exists s, gap. split; [done|]. split; [done|]. split; [done|]. apply here_end in Hh.
  destruct Hg as [->|[-> ->]]; [done|]. cbn. rewrite Hh. by rewrite app_nil_r.
Qed.

(** The second slash is the next character. *)
Lemma wp_lex_line_comment index kind h t :
  here index (text "//" ++ t) ->
  wp (lex_line_comment src source_id (src_len src) index kind) (fun tok => ate (index + 1) (chr "/" :: t) h (fun errs u t' =>
    errs = [] /\ exists s gap, u = chr "/" :: s ++ gap /\ line_end gap t' /\
      placed_leaf index (index + 2 + str_len s) tok /\ leaf index tok (text "//" ++ s))) (state h (index + 1) (chr "/" :: t)).
Proof.
  intros Hh. pose proof (here_boundary _ _ _ Hh) as Hb. pose proof (here_app _ _ _ _ Hh) as Hh1.
  change (str_len (text "//")) with 2 in Hh1. unfold lex_line_comment. do 3 wp_step.
  change (len_utf8 (chr "/")) with 1. replace (index + 1 + 1) with (index + 2) by lia.
  eapply LexGrammar.wp_mono; [by apply wp_find_line_end|]. intros r l' (u & t' & errs & -> & -> & -> & s & gap & -> & Hs & Hg & ->).
  rewrite app_nil_r. rewrite <- app_assoc in Hh1, Hh. pose proof (here_app _ _ _ _ Hh1) as Hh2.
  wp_step. apply wp_span_at; [done|by eapply here_boundary|lia|intros Hv]. wp_step.
  assert (Span_as_str (mk index (index + 2 + str_len s)) = Ok (text "//" ++ s)) as Hstr.
  { apply as_str_Ok. rewrite app_assoc in Hh. apply here_get in Hh. by rewrite str_len_app, Nat.add_assoc in Hh. }
  eapply wp_lift; [exact Hstr|].
  assert (forall tok, placed_leaf index (index + 2 + str_len s) tok -> leaf index tok (text "//" ++ s) ->
    ate (index + 1) (chr "/" :: (s ++ gap) ++ t') h (fun errs u t' =>
    errs = [] /\ exists s gap, u = chr "/" :: s ++ gap /\ line_end gap t' /\
      placed_leaf index (index + 2 + str_len s) tok /\ leaf index tok (text "//" ++ s))
    (state h (index + 2 + str_len (s ++ gap)) t')) as Hdone.
  { intros tok Hp Hl. exists (chr "/" :: s ++ gap), t', []. rewrite app_nil_r, str_len_cons. split; [done|].
    split; [f_equal; change (len_utf8 (chr "/")) with 1; lia|]. split; [done|]. by exists s, gap. }
  assert (forall tok, tree_span tok = mk index (index + 2 + str_len s) -> match tok with CGroup _ _ _ _ => False | _ => True end ->
    placed_leaf index (index + 2 + str_len s) tok) as Hpl.
  { intros tok Ht Hg'. split; [done|]. exists index, (index + 2 + str_len s). by split_and!. }
  destruct (doc_style_of (text "//" ++ s)) as [style|] eqn:Hd.
  - assert (exists c s', s = c :: s' /\ len_utf8 c = 1) as (c & s' & -> & Hc).
    { destruct s as [|c s']; [done|]. exists c, s'. split; [done|]. cbn in Hd.
      destruct (Z.eqb_spec c (chr "!")) as [->|_]; [done|]. destruct (Z.eqb_spec c (chr "/")) as [->|_]; [done|done]. }
    wp_step. apply wp_span_at; [|by eapply here_boundary|rewrite str_len_cons; lia|intros _].
    + cbn in Hh1. apply here_cons in Hh1. rewrite Hc, <- Nat.add_assoc in Hh1. by eapply here_boundary.
    + wp_step. apply Hdone; [by apply Hpl|by constructor].
  - wp_step. apply Hdone; [by apply Hpl|by constructor].
Qed.

(** ** Block comments *)

Lemma wp_unclosed_multiline_comment i unclosed h p t :
  boundary i -> i < p -> here p t ->
  exists e, forall Q : option CommentedTokenTree -> Lexer -> Prop, Q None (state (h ++ [e]) p t) ->
    wp (unclosed_multiline_comment src source_id (i :: unclosed)) Q (state h p t).
Proof.
  intros Hb Hlt Hh%here_end. eexists. intros Q HQ. unfold unclosed_multiline_comment. wp_step.
  eapply wp_lift; [done|]. wp_step. apply wp_span; [|intros _; do 3 wp_step; exact HQ].
  destruct (safe_boundary _ _ Hsafe (src_len src - 1)) as [?|Hb1]; [lia|by left|right]. split_and!; cbn; [lia|done|done].
Qed.

(** The rest of a comment that starts at [first], read inside of [depth] others *)
Definition block_result (first depth p : nat) (r : option CommentedTokenTree) (errs : list LexError) (u _ : str) : Prop :=
  match r with
  | Some tok => errs = [] /\ block_rest depth u /\ placed_leaf first (p + str_len u) tok /\
      exists kind, tok = CommentTree (mkComment (mk first (p + str_len u)) kind)
  | None => errs <> []
  end.

Lemma block_step m first depth depth' p x t h :
  wp m (fun r => ate (p + str_len x) t h (block_result first depth' (p + str_len x) r)) (state h (p + str_len x) t) ->
  (forall u, block_rest depth' u -> block_rest depth (x ++ u)) ->
  wp m (fun r => ate p (x ++ t) h (block_result first depth p r)) (state h (p + str_len x) t).
Proof.
  intros Hw Hb. eapply LexGrammar.wp_mono; [exact Hw|]. intros r l' Ha.
  eapply (ate_trans p x t h []); [rewrite app_nil_r; exact Ha|]. intros errs u t'' _ HQ.
  destruct r as [tok|]; [|done]. destruct HQ as (-> & Hu & Hp & Hk). unfold block_result.
  rewrite str_len_app, Nat.add_assoc. by split_and!; [|apply Hb| |].
Qed.

Lemma block_unclosed first depth p x t h stack q :
  here (p + str_len x) t -> head stack = Some q -> boundary q -> q < p ->
  wp (unclosed_multiline_comment src source_id stack)
    (fun r => ate p (x ++ t) h (block_result first depth p r)) (state h (p + str_len x) t).
Proof.
  intros Hh Hst Hb Hlt. destruct stack as [|i stack]; [done|]. injection Hst as ->.
  destruct (wp_unclosed_multiline_comment q stack h (p + str_len x) t) as [e He]; [done|lia|done|].
  apply He. by exists x, t, [e].
Qed.

(** The indices on the stack are before the position. *)
Lemma wp_block_comment_loop fuel first rest kind h p t :
  here p t -> length t < fuel -> Forall (fun i => boundary i /\ i < p) (rest ++ [first]) ->
  wp (block_comment_loop src source_id fuel (rest ++ [first]) kind)
    (fun r => ate p t h (block_result first (length rest) p r)) (state h p t).
Proof.
  revert rest kind p t. induction fuel as [|fuel IH]; intros rest kind p t Hh Hf Hun; [lia|]. cbn [block_comment_loop].
  assert (exists i, head (rest ++ [first]) = Some i /\ boundary i /\ i < p) as (i & Hst & Hi & Hlt).
  { destruct rest as [|i rest]; cbn in *; apply Forall_cons in Hun as [[? ?] _]; by eexists. }
  assert (forall q, Forall (fun i => boundary i /\ i < p + q) (rest ++ [first])) as Hun'.
  { intros q. eapply Forall_impl; [exact Hun|]. intros x [? ?]. split; [done|lia]. }
  assert (forall x t' rest' kind', x <> [] -> t = x ++ t' -> Forall (fun i => boundary i /\ i < p + str_len x) (rest' ++ [first]) ->
    (forall u, block_rest (length rest') u -> block_rest (length rest) (x ++ u)) ->
    wp (block_comment_loop src source_id fuel (rest' ++ [first]) kind')
      (fun r => ate p t h (block_result first (length rest) p r)) (state h (p + str_len x) t')) as Hrec.
  { intros x t' rest' kind' Hne -> Hall Hb. rewrite length_app in Hf. eapply block_step; [|exact Hb].
    apply IH; [by apply here_app in Hh|destruct x; cbn in *; [done|lia]|done]. }
  assert (forall c d, p + str_len [c; d] = p + len_utf8 c + len_utf8 d) as Hpos by (intros; cbn; lia).
  assert (forall c, p + str_len [c] = p + len_utf8 c) as Hpos1 by (intros; cbn; lia).
  do 2 wp_step. destruct t as [|c t].
  { pose proof (block_unclosed first (length rest) p [] [] h (rest ++ [first]) i) as H. rewrite Nat.add_0_r in H. by apply H. }
  pose proof (here_cons _ _ _ _ Hh) as Hh1.
  destruct (Z.eqb_spec c (chr "*")) as [->|Hstar]; [|destruct (Z.eqb_spec c (chr "/")) as [->|Hslash]].
  - do 2 wp_step. destruct t as [|d t]; [rewrite <- Hpos1 in *; by eapply (block_unclosed _ _ _ [_] [])|].
    rewrite <- (Hpos _ d). destruct (Z.eqb_spec d (chr "/")) as [->|Hd].
    + wp_step. eapply wp_lift; [by rewrite Hst|]. destruct rest as [|i' rest]; cbn in Hst; injection Hst as <-; cbn [tail app].
      * wp_step. apply here_cons in Hh1. rewrite <- (Hpos _ (chr "/")) in *. apply wp_span_at; [done|by eapply here_boundary|lia|intros Hv]. wp_step.
        exists [chr "*"; chr "/"], t, []. rewrite app_nil_r. split; [done|]. split; [done|]. split; [done|]. split; [constructor|].
        split; [|by eexists]. split; [done|]. do 2 eexists. by split_and!.
      * destruct (rest ++ [first]) as [|j un] eqn:Hr; [by destruct rest|]. rewrite <- Hr in *.
        apply Hrec; [done|done| |intros u Hu; by apply block_close]. specialize (Hun' (str_len [chr "*"; chr "/"])).
        cbn [app] in Hun'. rewrite Hr in Hun' |- *. by apply Forall_cons in Hun' as [_ ?].
    + apply Hrec; [done|done|apply Hun'|]. intros u Hu. by apply block_star.
  - do 2 wp_step. destruct t as [|d t]; [rewrite <- Hpos1 in *; by eapply (block_unclosed _ _ _ [_] [])|].
    rewrite <- (Hpos _ d). destruct (Z.eqb_spec d (chr "*")) as [->|Hd].
    + rewrite app_comm_cons. apply Hrec; [done|done| |intros u Hu; by apply block_open].
      constructor; [split; [by eapply here_boundary|rewrite Hpos; pose proof (len_utf8_pos (chr "/")); lia]|]. apply Hun'.
    + apply Hrec; [done|done|apply Hun'|]. intros u Hu. by apply block_slash.
  - rewrite <- Hpos1. destruct (c =? newline)%Z; (apply Hrec; [done|done|apply Hun'|]; intros u Hu; by apply block_other).
Qed.

Lemma wp_lex_block_comment index h t :
  here index (text "/*" ++ t) ->
  wp (lex_block_comment src source_id index) (fun r => ate (index + 1) (chr "*" :: t) h (fun errs u _ =>
    match r with
    | Some tok => errs = [] /\ placed_leaf index (index + 1 + str_len u) tok /\ leaf index tok (chr "/" :: u)
    | None => errs <> []
    end)) (state h (index + 1) (chr "*" :: t)).
Proof.
  intros Hh. pose proof (here_boundary _ _ _ Hh) as Hb. pose proof (here_app _ _ _ _ Hh) as Hh1.
  change (str_len (text "/*")) with 2 in Hh1. unfold lex_block_comment. do 3 wp_step.
  change (len_utf8 (chr "*")) with 1. replace (index + 1 + 1) with (index + 2) by lia.
  eapply LexGrammar.wp_mono; [apply (wp_block_comment_loop _ index []); [done|lia|constructor; [split; [done|lia]|constructor]]|].
  intros r l' (u & t' & errs & -> & -> & HQ). exists (chr "*" :: u), t', errs. split; [done|].
  assert (index + 1 + str_len (chr "*" :: u) = index + 2 + str_len u) as -> by (rewrite str_len_cons; change (len_utf8 (chr "*")) with 1; lia).
  split; [done|]. destruct r as [tok|]; [|done]. destruct HQ as (-> & Hu & Hp & kind & ->). split; [done|]. split; [done|].
  by apply leaf_block_comment.
Qed.

(** ** Comments in a list of token trees *)

(** The search for a newline before a comment goes back to the last token. *)
Definition search_ok (trees : list CommentedTokenTree) (index : nat) : Prop :=
  boundary (search_end trees) /\ search_end trees <= index.

Lemma wp_lex_comment trees index c h t :
  here index (c :: t) -> search_ok trees index ->
  wp (lex_comment src source_id (src_len src) trees index c) (fun r => ate (index + len_utf8 c) t h (fun errs u t' =>
    match r with
    | None => errs = [] /\ u = []
    | Some trees' => (errs <> [] /\ trees' = trees) \/
        (errs = [] /\ exists tok s gap, trees' = trees ++ [tok] /\ c :: u = s ++ gap /\ (gap = [] \/ gap = [newline]) /\
          placed_leaf index (index + str_len s) tok /\ leaf index tok s)
    end)) (state h (index + len_utf8 c) t).
Proof.
  intros Hh [Hs Hle]. pose proof (here_boundary _ _ _ Hh) as Hb. unfold lex_comment.
  destruct (Z.eqb_spec c (chr "/")) as [->|Hc]; cbn [negb]; [|wp_step; by apply ate_done].
  change (len_utf8 (chr "/")) with 1. do 2 wp_step. destruct t as [|d t]; cbn [peeked]; [wp_step; by apply ate_done|].
  destruct (Z.eqb_spec d (chr "/")) as [->|Hd]; [|destruct (Z.eqb_spec d (chr "*")) as [->|Hd']; [|wp_step; by apply ate_done]].
  - wp_step. unfold comment_kind_at, str_index.
    destruct (proj2 (str_get_is_Some (source_text src) (search_end trees) index)) as [s Hget]; [done|].
    eapply wp_lift; [by rewrite Hget|]. wp_step. eapply LexGrammar.wp_mono; [by apply wp_lex_line_comment|].
    intros tok l' Ha. wp_step. eapply ate_mono; [exact Ha|]. cbn beta. intros errs u t' _ (-> & x & gap & -> & Hg & Hp & Hl).
    right. split; [done|]. exists tok, (text "//" ++ x), gap. split; [done|]. split; [done|].
    split; [by destruct Hg as [->|[-> _]]; [right|left]|]. by rewrite str_len_app, Nat.add_assoc.
  - wp_step. eapply LexGrammar.wp_mono; [by apply wp_lex_block_comment|]. intros r l' Ha. wp_step. eapply ate_mono; [exact Ha|].
    cbn beta. intros errs u t' _ HQ. destruct r as [tok|]; cbn [option_list].
    + destruct HQ as (-> & Hp & Hl). right. split; [done|]. exists tok, (chr "/" :: u), []. rewrite app_nil_r.
      split; [done|]. split; [done|]. split; [by left|]. by rewrite str_len_cons, Nat.add_assoc.
    + left. by rewrite app_nil_r.
Qed.
End comments.
