(* ===== verification/LexStep.v ===== *)
(** * A step of the lexer

    The state of [lex_commented] between two rounds: the trees of the text that has been
    read, with the delimiters that are open.  [weak_state] holds on every text,
    [strict_state] as long as no error was emitted. *)

From S2P Require Import Prelude LexToken LexSpan Lexer LexGrammar LexLiterals LexNumbers.
From Stdlib Require Import Ascii.

Section step.
Context (is_xid_start is_xid_continue is_text_dir : char -> bool).
Context {Hxid : UnicodeTables is_xid_start is_xid_continue}.
Context (src : Source) (source_id : option Z) (unsafe : Prop).
Context (Hsafe : unsafe \/ tame (source_text src)).

Abbreviation wp := (wp unsafe).
Abbreviation here := (here src).
Abbreviation mk := (mk src source_id).
Abbreviation boundary := (boundary (source_text src)).
Abbreviation leaf := (leaf is_xid_start is_xid_continue is_text_dir src source_id).
Abbreviation placed_leaf := (placed_leaf src source_id).
Abbreviation spells := (spells is_xid_start is_xid_continue is_text_dir src source_id).

(** ** The spans of token trees *)

(** The spans of the trees are valid and follow each other between two positions; the
    trees of a group are inside of its delimiters. *)
Inductive placed : nat -> list CommentedTokenTree -> nat -> Prop :=
  | placed_nil lo hi : lo <= hi -> placed lo [] hi
  | placed_token lo trees mid t hi : placed lo trees mid -> mid <= hi -> placed_leaf mid hi t ->
      placed lo (trees ++ [t]) hi
  | placed_group lo trees mid delimiter inner a b c hi : placed lo trees mid -> mid <= a ->
      placed (a + 1) inner b -> b <= c -> c <= hi -> valid_span (mk (a + 1) b) -> valid_span (mk a c) ->
      placed lo (trees ++ [CGroup delimiter inner (mk (a + 1) b) (mk a c)]) hi.

Lemma placed_le lo trees hi : placed lo trees hi -> lo <= hi.
Proof. induction 1; lia. Qed.

Lemma placed_mono lo trees hi hi' : placed lo trees hi -> hi <= hi' -> placed lo trees hi'.
Proof.
  intros Hp Hle. destruct Hp.
  - constructor. lia.
  - econstructor; [done|lia|by eapply placed_leaf_le].
  - econstructor; [done..|lia|done|done].
Qed.

Lemma placed_search lo trees hi : placed lo trees hi -> search_ok src trees hi.
Proof.
  unfold search_ok, search_end. destruct 1 as [lo hi Hle|lo trees mid t hi Hp Hm (Ht & a & b & Hs & (_ & _ & Hb) & Ha & Hbh)|].
  - split; [apply boundary_start|cbn; lia].
  - rewrite last_snoc. assert (stop (tree_span t) = b) as <- by (by rewrite Hs).
    assert (span_src (tree_span t) = src) as Hsrc by (by rewrite Hs).
    destruct t; split; try done; try apply boundary_start; lia.
  - rewrite last_snoc. cbn. match goal with H : valid_span (mk a c) |- _ => destruct H as (_ & _ & ?) end. split; [done|lia].
Qed.

(** ** The states between two rounds *)

Fixpoint weak_state (lo : nat) (parents : list Parent) (trees : list CommentedTokenTree) (hi : nat) : Prop :=
  match parents with
  | [] => placed lo trees hi
  | (parent, open_index, _) :: parents' =>
      weak_state lo parents' parent open_index /\ boundary open_index /\ boundary (open_index + 1) /\
      placed (open_index + 1) trees hi
  end.

(** The text [s] from the position [lo] on is the text of the trees of the outer groups,
    an open delimiter, and the text of [trees]. *)
Fixpoint strict_state (lo : nat) (parents : list Parent) (trees : list CommentedTokenTree) (s : str) : Prop :=
  match parents with
  | [] => spells lo trees s
  | (parent, open_index, delimiter) :: parents' =>
      exists s0 s1, s = s0 ++ as_open_char delimiter :: s1 /\ strict_state lo parents' parent s0 /\
        open_index = lo + str_len s0 /\ spells (open_index + 1) trees s1
  end.

Lemma weak_mono lo parents trees hi hi' : weak_state lo parents trees hi -> hi <= hi' -> weak_state lo parents trees hi'.
Proof.
  destruct parents as [|[[parent oi] d] parents]; cbn; [apply placed_mono|].
  intros (? & ? & ? & Hp) Hle. split_and!; [done..|]. by eapply placed_mono.
Qed.

Lemma weak_token lo parents trees hi hi' t :
  weak_state lo parents trees hi -> hi <= hi' -> placed_leaf hi hi' t -> weak_state lo parents (trees ++ [t]) hi'.
Proof.
  destruct parents as [|[[parent oi] d] parents]; cbn; [by econstructor|].
  intros (? & ? & ? & Hp) Hle Ht. split_and!; [done..|]. by econstructor.
Qed.

Lemma weak_search lo parents trees hi : weak_state lo parents trees hi -> search_ok src trees hi.
Proof.
  destruct parents as [|[[parent oi] d] parents]; cbn; [by apply placed_search|].
  intros (_ & _ & _ & Hp). by eapply placed_search.
Qed.

Lemma open_len d : len_utf8 (as_open_char d) = 1.
Proof. by destruct d. Qed.

Lemma close_len d : len_utf8 (as_close_char d) = 1.
Proof. by destruct d. Qed.

(** What is read is added to the innermost group. *)
Lemma strict_extend lo parents trees trees' s u :
  strict_state lo parents trees s ->
  (forall p s1, p + str_len s1 = lo + str_len s -> spells p trees s1 -> spells p trees' (s1 ++ u)) ->
  strict_state lo parents trees' (s ++ u).
Proof.
  destruct parents as [|[[parent oi] d] parents]; cbn; [intros H Hu; by apply Hu|].
  intros (s0 & s1 & -> & Hs0 & -> & Hs1) Hu. exists s0, (s1 ++ u). rewrite <- app_assoc. cbn. split; [done|].
  split; [done|]. split; [done|]. apply Hu; [|done]. rewrite str_len_app, str_len_cons, open_len. lia.
Qed.

Lemma strict_space lo parents trees s u :
  strict_state lo parents trees s -> Forall (fun c => is_whitespace c = true) u -> strict_state lo parents trees (s ++ u).
Proof.
  intros Hs Hu. revert s Hs. induction Hu as [|c u Hc _ IH]; intros s Hs; [by rewrite app_nil_r|].
  change (c :: u) with ([c] ++ u). rewrite app_assoc. apply IH. eapply strict_extend; [done|].
  intros p s1 _ Hsp. by constructor.
Qed.

Lemma strict_leaf lo parents trees s t u :
  strict_state lo parents trees s -> leaf (lo + str_len s) t u -> strict_state lo parents (trees ++ [t]) (s ++ u).
Proof.
  intros Hs Ht. eapply strict_extend; [done|]. intros p s1 Hp Hsp. constructor; [done|]. by rewrite Hp.
Qed.

(** ** Literals, punctuation and other characters *)

(** What reading a token returns: the trees with a token, or an error *)
Definition trees_result (trees : list CommentedTokenTree) (index : nat) (c : char)
    (r : list CommentedTokenTree + ErrorEmitted) (errs : list LexError) (u : str) : Prop :=
  match r with
  | inl trees' => (errs <> [] /\ trees' = trees) \/
      exists tok, trees' = trees ++ [tok] /\ placed_leaf index (index + str_len (c :: u)) tok /\
        (errs = [] -> leaf index tok (c :: u))
  | inr _ => errs <> []
  end.

(** The cases of [lex_rest]: the first function that returns a token decides. *)
Lemma wp_try_token (m : M (option CommentedTokenTree + ErrorEmitted)) (k : M (list CommentedTokenTree + ErrorEmitted))
    trees index c h t :
  wp m (fun r => ate (index + len_utf8 c) t h (fun errs u _ =>
    token_result src source_id is_xid_start is_xid_continue is_text_dir index c r errs u)) (state h (index + len_utf8 c) t) ->
  wp k (fun r => ate (index + len_utf8 c) t h (fun errs u _ => trees_result trees index c r errs u))
    (state h (index + len_utf8 c) t) ->
  wp (x ←? m; match x with Some token => mret (inl (trees ++ [token])) | None => k end)
    (fun r => ate (index + len_utf8 c) t h (fun errs u _ => trees_result trees index c r errs u))
    (state h (index + len_utf8 c) t).
Proof.
  intros Hm Hk. wp_step. eapply LexGrammar.wp_mono; [exact Hm|]. intros [[tok|]|e] l' (u & t' & errs & Heq & -> & HQ).
  - wp_step. exists u, t', errs. split; [done|]. split; [done|]. right. by exists tok.
  - destruct HQ as [-> ->]. cbn in Heq. subst t'. by rewrite app_nil_r, Nat.add_0_r.
  - by exists u, t', errs.
Qed.

Lemma wp_lex_rest trees index c h t :
  here index (c :: t) ->
  wp (lex_rest is_xid_continue is_text_dir src source_id trees index c)
    (fun r => ate (index + len_utf8 c) t h (fun errs u _ => trees_result trees index c r errs u))
    (state h (index + len_utf8 c) t).
Proof.
  intros Hh. unfold lex_rest. apply wp_try_token; [by apply wp_lex_string|].
  apply wp_try_token; [by apply wp_lex_char|]. apply wp_try_token; [by apply wp_lex_int_lit|].
  wp_step. eapply LexGrammar.wp_mono; [by apply wp_lex_punctuation|].
  intros r l' (u & t' & errs & Heq & -> & -> & -> & HQ). cbn in Heq. subst t'. rewrite app_nil_r, Nat.add_0_r.
  destruct r as [tok|].
  - destruct HQ as (kind & spacing & -> & -> & Hv). assert (len_utf8 (as_char kind) = 1) as Hl by by destruct kind.
    wp_step. apply ate_done. right. eexists. split; [done|]. split; [|intros _; constructor].
    split; [done|]. do 2 eexists. split; [done|]. split; [done|]. split; [done|]. rewrite str_len_cons, Hl. lia.
  - wp_step. eapply wp_span_one; [done|intros _]. do 3 wp_step. apply ate_error. by left.
Qed.

(** The underscore of [r#_] *)
Lemma wp_lex_underscore trees index h t :
  here index (chr "_" :: t) ->
  wp (lex_rest is_xid_continue is_text_dir src source_id trees index (chr "_"))
    (fun r l => l = state h (index + 1) t /\ valid_span (mk index (index + 1)) /\
      exists spacing, r = inl (trees ++ [CPunct (mkPunct (mk index (index + 1)) Underscore spacing)]))
    (state h (index + 1) t).
Proof.
  intros Hh. unfold lex_rest. do 3 (wp_step; refine (wp_ret _ (inl None) _ _ _)). wp_step. eapply LexGrammar.wp_mono; [by apply (wp_lex_punctuation _ _ _ _ (chr "_"))|].
  intros r l' (u & t' & errs & Heq & -> & -> & -> & HQ). cbn in Heq. subst t'. rewrite app_nil_r, Nat.add_0_r.
  destruct r as [tok|]; [|done]. destruct HQ as (kind & spacing & Hk & -> & Hv). wp_step. split; [done|]. split; [done|].
  exists spacing. by destruct kind.
Qed.

(** ** Delimiters *)

Lemma wp_lex_close_delimiter index stop parent trees open_index delimiter h t :
  here stop t -> boundary index -> boundary open_index -> boundary (open_index + 1) -> open_index + 1 <= index -> index <= stop ->
  wp (lex_close_delimiter src source_id index parent trees open_index delimiter)
    (fun r l => l = state h stop t /\ valid_span (mk (open_index + 1) index) /\ valid_span (mk open_index stop) /\
      r = parent ++ [CGroup delimiter trees (mk (open_index + 1) index) (mk open_index stop)])
    (state h stop t).
Proof.
  intros Hh Hb Ho Ho1 Hle Hle'. unfold lex_close_delimiter. rewrite open_len. wp_step.
  apply wp_span_at; [done..|intros Hv]. wp_step. apply wp_span_until; [done|done|lia|intros Hv']. wp_step. by split_and!.
Qed.

(** The group is closed in the innermost list of trees. *)
Lemma weak_group lo parents parent trees open_index delimiter index stop :
  weak_state lo parents parent open_index -> placed (open_index + 1) trees index -> index <= stop ->
  valid_span (mk (open_index + 1) index) -> valid_span (mk open_index stop) ->
  weak_state lo parents (parent ++ [CGroup delimiter trees (mk (open_index + 1) index) (mk open_index stop)]) stop.
Proof.
  destruct parents as [|[[grand oi] d] parents]; cbn.
  - intros Hp Hi Hle Hv Hv'. by econstructor.
  - intros (? & ? & ? & Hp) Hi Hle Hv Hv'. split_and!; [done..|]. by econstructor.
Qed.

Lemma strict_group lo parents parent trees delimiter s0 s1 :
  strict_state lo parents parent s0 -> spells (lo + str_len s0 + 1) trees s1 ->
  strict_state lo parents
    (parent ++ [CGroup delimiter trees (mk (lo + str_len s0 + 1) (lo + str_len s0 + 1 + str_len s1))
                  (mk (lo + str_len s0) (lo + str_len s0 + 1 + str_len s1 + 1))])
    (s0 ++ [as_open_char delimiter] ++ s1 ++ [as_close_char delimiter]).
Proof.
  intros Hs Hi. eapply strict_extend; [done|]. intros p s Hp Hsp. rewrite <- Hp in *. by econstructor.
Qed.

(** What a round returns *)
Definition step_result (lo : nat) (parents : list Parent) (trees : list CommentedTokenTree) (p : nat) (c : char)
    (r : (list Parent * list CommentedTokenTree) + ErrorEmitted) (errs : list LexError) (u : str) : Prop :=
  match r with
  | inl (parents', trees') => weak_state lo parents' trees' (p + str_len (c :: u)) /\
      (errs = [] -> forall s, p = lo + str_len s -> strict_state lo parents trees s ->
        strict_state lo parents' trees' (s ++ c :: u))
  | inr _ => errs <> []
  end.

Lemma wp_lex_close lo parents trees index c delimiter h t :
  here index (c :: t) -> weak_state lo parents trees index -> as_close_delimiter c = Some delimiter ->
  wp (lex_close src source_id parents trees index c delimiter)
    (fun r => ate (index + len_utf8 c) t h (fun errs u _ => step_result lo parents trees index c (inl r) errs u))
    (state h (index + len_utf8 c) t).
Proof.
  intros Hh Hw ->%as_close_delimiter_char. pose proof (here_boundary _ _ _ Hh) as Hb.
  pose proof (here_cons _ _ _ _ Hh) as Hh1. unfold lex_close.
  destruct parents as [|[[parent oi] d] parents].
  { wp_step. eapply wp_span_one; [done|intros _]. do 3 wp_step. apply ate_error. split; [|done].
    eapply weak_mono; [done|]. lia. }
  destruct Hw as (Hw & Ho & Ho1 & Hp). pose proof (placed_le _ _ _ Hp) as Hle. rewrite close_len in *.
  wp_step. apply (LexGrammar.wp_mono _ _ (fun _ l => exists errs, l = state (h ++ errs) (index + 1) t /\ (errs = [] -> d = delimiter))).
  { case_bool_decide as Hd; [wp_step; exists []; by rewrite app_nil_r|].
    wp_step. eapply wp_span_one; [done|intros _]. do 3 wp_step. eexists [_]. by split. }
  intros [] l' (errs & -> & Hd). wp_step. eapply LexGrammar.wp_mono; [by apply wp_lex_close_delimiter; try lia|].
  intros r l' (-> & Hv & Hv' & ->). wp_step. exists [], t, errs. rewrite Nat.add_0_r. split; [done|]. split; [done|]. split.
  - rewrite str_len_cons, close_len. cbn. apply weak_group; [done|done|lia|done|done].
  - intros He s -> (s0 & s1 & -> & Hs0 & -> & Hs1). rewrite (Hd He), <- app_assoc.
    pose proof (strict_group _ _ _ _ delimiter _ _ Hs0 Hs1) as Hg. cbn in *.
    rewrite str_len_app, str_len_cons, open_len, !Nat.add_assoc. done.
Qed.

(** ** A round *)

Lemma newline_space gap : gap = [] \/ gap = [newline] -> Forall (fun c => is_whitespace c = true) gap.
Proof. by intros [->| ->]; repeat constructor. Qed.

(** A token, possibly with the newline that ends it *)
Lemma step_token lo parents trees p c errs s gap u t :
  weak_state lo parents trees p -> c :: u = s ++ gap -> gap = [] \/ gap = [newline] ->
  placed_leaf p (p + str_len s) t -> (errs = [] -> leaf p t s) ->
  step_result lo parents trees p c (inl (parents, trees ++ [t])) errs u.
Proof.
  intros Hw Heq Hg Hp Hl. split.
  - rewrite Heq, str_len_app. eapply weak_mono; [eapply (weak_token _ _ _ _ (p + str_len s)); [done|lia|done]|lia].
  - intros He s0 -> Hs. rewrite Heq, app_assoc. apply strict_space; [|by apply newline_space].
    apply strict_leaf; [done|by apply Hl].
Qed.

(** An error that leaves the trees as they are *)
Lemma step_error lo parents trees p c errs u :
  weak_state lo parents trees p -> errs <> [] -> step_result lo parents trees p c (inl (parents, trees)) errs u.
Proof. intros Hw He. split; [eapply weak_mono; [done|lia]|done]. Qed.

Lemma step_trees lo parents trees p c r errs u :
  weak_state lo parents trees p -> trees_result trees p c (inl r) errs u ->
  step_result lo parents trees p c (inl (parents, r)) errs u.
Proof.
  intros Hw [[He ->]|(tok & -> & Hp & Hl)]; [by apply step_error|].
  eapply (step_token _ _ _ _ _ _ (c :: u) []); [done|by rewrite app_nil_r|by left|done|done].
Qed.

(** After comments and identifiers *)
Lemma wp_step_rest lo parents trees p c h t :
  here p (c :: t) -> weak_state lo parents trees p ->
  wp (match as_open_delimiter c with
      | Some delimiter => mret (inl ((trees, p, delimiter) :: parents, []))
      | None =>
          match as_close_delimiter c with
          | Some close_delimiter => r ← lex_close src source_id parents trees p c close_delimiter; mret (inl r)
          | None =>
              trees ←? lex_rest is_xid_continue is_text_dir src source_id trees p c;
              mret (inl (parents, trees))
          end
      end)
    (fun r => ate (p + len_utf8 c) t h (fun errs u _ => step_result lo parents trees p c r errs u))
    (state h (p + len_utf8 c) t).
Proof.
  intros Hh Hw. pose proof (here_boundary _ _ _ Hh) as Hb. pose proof (here_boundary _ _ _ (here_cons _ _ _ _ Hh)) as Hb1.
  destruct (as_open_delimiter c) as [d|] eqn:Ho; [|destruct (as_close_delimiter c) as [d|] eqn:Hc].
  - apply as_open_delimiter_char in Ho as ->. rewrite open_len in *. wp_step. apply ate_done. split.
    + rewrite str_len_cons, open_len. cbn. split_and!; [done..|]. constructor. lia.
    + intros _ s -> Hs. exists s, []. split_and!; [done..|constructor].
  - wp_step. eapply LexGrammar.wp_mono; [by apply wp_lex_close|]. intros r l' Ha. by wp_step.
  - wp_step. eapply LexGrammar.wp_mono; [by apply wp_lex_rest|]. intros r l' (u & t' & errs & -> & -> & HQ).
    destruct r as [trees'|e]; [|by exists u, t', errs]. wp_step. exists u, t', errs. split; [done|]. split; [done|].
    by apply step_trees.
Qed.

Lemma wp_lex_step lo parents trees p c h t :
  here p (c :: t) -> weak_state lo parents trees p ->
  wp (lex_step is_xid_start is_xid_continue is_text_dir src source_id (src_len src) parents trees p c)
    (fun r => ate (p + len_utf8 c) t h (fun errs u _ => step_result lo parents trees p c r errs u))
    (state h (p + len_utf8 c) t).
Proof.
  intros Hh Hw. unfold lex_step. destruct (is_whitespace c) eqn:Hc.
  { wp_step. apply ate_done. split; [eapply weak_mono; [done|lia]|]. intros _ s -> Hs. apply strict_space; [done|].
    by repeat constructor. }
  wp_step. eapply LexGrammar.wp_mono; [apply wp_lex_comment; [done|done|by eapply weak_search]|].
  intros [trees'|] l' (u & t' & errs & Heq & -> & HQ).
  { wp_step. exists u, t', errs. split; [done|]. split; [done|].
    destruct HQ as [[He ->]|(-> & tok & s & gap & -> & Hs & Hg & Hp & Hl)]; [by apply step_error|by eapply step_token]. }
  destruct HQ as [-> ->]. cbn in Heq. subst t'. rewrite app_nil_r, Nat.add_0_r.
  wp_step. eapply LexGrammar.wp_mono; [by apply wp_lex_identifier|]. intros [trees'|[i x]] l' (u & t' & errs & -> & -> & HQ).
  { wp_step. exists u, t', errs. split; [done|]. split; [done|].
    destruct HQ as [[He ->]|(tok & -> & Hp & Hl)]; [by apply step_error|].
    eapply (step_token _ _ _ _ _ _ (c :: u) []); [done|by rewrite app_nil_r|by left|done|done]. }
  destruct HQ as [-> [(-> & -> & ->)|(Hu & -> & ->)]]; rewrite app_nil_r.
  - rewrite Nat.add_0_r. by apply wp_step_rest.
  - injection Hu as -> ->. change (as_open_delimiter (chr "_")) with (@None Delimiter).
    change (as_close_delimiter (chr "_")) with (@None Delimiter). cbn iota. pose proof (here_app _ _ (text "r#") _ Hh) as Hh2.
    wp_step. change (len_utf8 (chr "r")) with 1. change (str_len [chr "#"; chr "_"]) with 2.
    replace (p + 1 + 2) with (p + 2 + 1) by lia.
    eapply LexGrammar.wp_mono; [by apply wp_lex_underscore|]. intros r l' (-> & Hv & spacing & ->). wp_step.
    exists [chr "#"; chr "_"], t', []. rewrite app_nil_r. split; [done|]. split; [f_equal; change (str_len [chr "#"; chr "_"]) with 2; lia|].
    eapply (step_token _ _ _ _ _ _ (text "r#_") []); [done|done|by left| |intros _; replace (p + 2 + 1) with (p + 3) by lia; constructor].
    split; [done|]. do 2 eexists. split; [done|]. split; [done|]. split; [lia|]. change (str_len (text "r#_")) with 3. lia.
Qed.
End step.
