(* ===== verification/LexMain.v ===== *)
(** * Theorems on the lexer

    [lex_commented] returns on every text; when it emits no error, the text spells the
    token trees of its result, and the spans of its result are ordered in any case.
    The examples at the end are texts on which it panics or reads something else than
    what is meant. *)

From S2P Require Import Prelude LexToken LexSpan Lexer LexGrammar LexLiterals LexNumbers LexStep.
From Stdlib Require Import Ascii.

Section main.
Context (is_xid_start is_xid_continue is_text_dir : char -> bool).
Context {Hxid : UnicodeTables is_xid_start is_xid_continue}.
Context (src : Source) (source_id : option Z).

Abbreviation here := (here src).
Abbreviation boundary := (boundary (source_text src)).
Abbreviation spells := (spells is_xid_start is_xid_continue is_text_dir src source_id).
Abbreviation weak_state := (weak_state src source_id).
Abbreviation strict_state := (strict_state is_xid_start is_xid_continue is_text_dir src source_id).
Abbreviation placed := (placed src source_id).

Section loops.
Context (unsafe : Prop) (Hsafe : unsafe \/ tame (source_text src)).
Abbreviation wp := (wp unsafe).

(** ** The loop *)

Lemma wp_lex_loop fuel lo parents trees p h t :
  here p t -> length t < fuel -> weak_state lo parents trees p ->
  wp (lex_loop is_xid_start is_xid_continue is_text_dir src source_id fuel (src_len src) parents trees)
    (fun r => ate p t h (fun errs u t' =>
      match r with
      | inl (parents', trees') => t' = [] /\ weak_state lo parents' trees' (p + str_len u) /\
          (errs = [] -> forall s, p = lo + str_len s -> strict_state lo parents trees s ->
            strict_state lo parents' trees' (s ++ u))
      | inr _ => errs <> []
      end)) (state h p t).
Proof.
  revert parents trees p h t. induction fuel as [|fuel IH]; intros parents trees p h t Hh Hf Hw; [lia|]. cbn [lex_loop].
  do 2 wp_step. destruct t as [|c t].
  { wp_step. apply ate_done. rewrite Nat.add_0_r. split; [done|]. split; [done|]. intros _ s _ Hs. by rewrite app_nil_r. }
  wp_step. eapply LexGrammar.wp_mono; [by apply wp_lex_step|]. intros r l' (u & t' & errs & -> & -> & HQ).
  change (c :: u ++ t') with ((c :: u) ++ t') in *. rewrite <- Nat.add_assoc, <- str_len_cons.
  destruct r as [[parents' trees']|e]; [|by exists (c :: u), t', errs]. destruct HQ as [Hw' Hs']. apply here_app in Hh.
  rewrite length_app in Hf. eapply LexGrammar.wp_mono; [apply IH; [done|cbn in Hf; lia|done]|]. intros r l' Ha.
  eapply ate_trans; [exact Ha|]. intros errs' v t'' _ HQ. destruct r as [[parents'' trees'']|e]; [|by intros [_ ->]%app_nil].
  destruct HQ as (-> & Hw'' & Hs''). rewrite str_len_app, Nat.add_assoc. split; [done|]. split; [done|].
  intros [-> ->]%app_nil s -> Hs. rewrite app_assoc. apply Hs''; [done|by rewrite str_len_app, Nat.add_assoc|]. by apply Hs'.
Qed.

(** ** Open delimiters *)

Lemma wp_close_all lo parents trees h :
  weak_state lo parents trees (src_len src) ->
  wp (close_all src source_id parents trees)
    (fun r l => exists errs, l = state (h ++ errs) (src_len src) [] /\ placed lo r (src_len src) /\
      (errs = [] -> parents = [] /\ r = trees)) (state h (src_len src) []).
Proof.
  revert trees h. induction parents as [|[[parent oi] d] parents IH]; intros trees h Hw; cbn [close_all].
  { wp_step. exists []. by rewrite app_nil_r. }
  destruct Hw as (Hw & Ho & Ho1 & Hp). pose proof (placed_le _ _ _ _ _ Hp) as Hle. assert (here (src_len src) []) as Hh.
  { exists (source_text src). by rewrite app_nil_r. }
  wp_step. unfold span_one. rewrite open_len. apply wp_span_at; [done|done|lia|intros _]. do 3 wp_step.
  eapply LexGrammar.wp_mono; [apply wp_lex_close_delimiter; [done|apply boundary_end|done..]|]. intros r l' (-> & Hv & Hv' & ->).
  eapply LexGrammar.wp_mono; [apply IH; by apply weak_group|]. intros r l' (errs & -> & Hp' & _). eexists (_ :: errs).
  rewrite <- app_assoc. by split_and!.
Qed.

Lemma wp_lex_stream lo h t :
  here lo t ->
  wp (lex_stream is_xid_start is_xid_continue is_text_dir src source_id lo (src_len src))
    (fun r l => exists errs, handler l = h ++ errs /\
      match r with
      | inl stream => commented_span stream = at_span src source_id lo (src_len src) /\
          placed lo (commented_trees stream) (src_len src) /\ (errs = [] -> spells lo (commented_trees stream) t)
      | inr _ => errs <> []
      end) (state h lo t).
Proof.
  intros Hh. pose proof (here_boundary _ _ _ Hh) as Hb. unfold lex_stream. do 2 wp_step.
  eapply LexGrammar.wp_mono; [apply wp_lex_loop; [done|lia|by constructor]|]. intros r l' (u & t' & errs & Heq & -> & HQ).
  destruct r as [[parents trees]|e]; [|by exists errs]. destruct HQ as (-> & Hw & Hs). rewrite app_nil_r in Heq. subst u.
  assert (lo + str_len t = src_len src) as Hend by (symmetry; by apply here_end). rewrite Hend in *. cbn [fst snd].
  wp_step. eapply LexGrammar.wp_mono; [by apply (wp_close_all lo)|]. intros r l' (errs' & -> & Hp & He).
  wp_step. apply wp_span_at; [done|apply boundary_end|by apply boundary_le in Hb|intros _]. wp_step.
  exists (errs ++ errs'). cbn. split; [by rewrite app_assoc|]. split; [done|]. split; [done|].
  intros [-> ->]%app_nil. destruct (He eq_refl) as [-> ->]. apply (Hs eq_refl []); [cbn; lia|constructor].
Qed.
End loops.

Abbreviation lex_from := (lex_commented is_xid_start is_xid_continue is_text_dir src source_id).

Lemma lex_commented_start h start :
  boundary start -> exists t, here start t /\
    lex_from h start (src_len src) =
      ('(r, l) ← lex_stream is_xid_start is_xid_continue is_text_dir src source_id start (src_len src) (state h start t);
       Ok (r, handler l)).
Proof.
  intros (a & t & Hs & <-). exists t. split; [by exists a|]. unfold lex_commented, str_index.
  assert (str_get (source_text src) 0 (src_len src) = Some (a ++ t)) as ->.
  { apply str_get_Some. exists [], []. rewrite app_nil_r. split; [done|]. split; [done|]. unfold src_len. by rewrite Hs. }
  cbn [mbind Result_bind]. by rewrite split_at_app.
Qed.

(** The start is a boundary when the lexer returns. *)
Lemma lex_commented_boundary h start r : lex_from h start (src_len src) = Ok r -> boundary start.
Proof.
  unfold lex_commented, str_index. destruct (str_get (source_text src) 0 (src_len src)) as [s|] eqn:Hg; [|done].
  cbn [mbind Result_bind]. apply str_get_Some in Hg as (a & b & Hs & Ha & Hl). destruct a as [|x a]; [|rewrite str_len_cons in Ha; pose proof (len_utf8_pos x); lia].
  destruct (split_at s start) as [[u v]|] eqn:Hsp; [|done]. intros _. apply split_at_Some in Hsp as [-> <-].
  exists u, (v ++ b). by rewrite app_assoc.
Qed.

(** The facts on a run that returns, from the weakest precondition *)
Lemma lex_commented_spec h start r errs :
  lex_from h start (src_len src) = Ok (r, errs) -> exists t errs', here start t /\ errs = h ++ errs' /\
    match r with
    | inl stream => commented_span stream = at_span src source_id start (src_len src) /\
        placed start (commented_trees stream) (src_len src) /\ (errs' = [] -> spells start (commented_trees stream) t)
    | inr _ => errs' <> []
    end.
Proof.
  intros H. destruct (lex_commented_start h start (lex_commented_boundary _ _ _ H)) as (t & Hh & Heq).
  rewrite Heq in H. pose proof (wp_lex_stream True (or_introl I) start h t Hh) as Hw. unfold LexGrammar.wp in Hw.
  destruct (lex_stream _ _ _ _ _ _ _ _) as [[r' l]|]; [|done]. injection H as <- <-.
  destruct Hw as (errs' & -> & Hr). by exists t, errs'.
Qed.

(** ** Theorems *)

(** C11. Lexing is sound: when [lex_commented] adds no error to the handler, the rest of
    the text spells the token trees of its result.  It is a sequence of tokens and white
    space; the text of every token is the one that its span, its name and its value
    say, in the lexical grammar; delimiters match, and the trees of a group are spelled
    between them. *)
Theorem lex_commented_spells h start stream :
  lex_from h start (src_len src) = Ok (inl stream, h) ->
  exists t, str_get (source_text src) start (src_len src) = Some t /\
    spells start (commented_trees stream) t /\ commented_span stream = at_span src source_id start (src_len src).
Proof.
  intros (t & errs & Hh & He & Hs & _ & Hsp)%lex_commented_spec. exists t.
  rewrite <- (app_nil_r h) in He at 1. apply app_inv_head in He as <-. split; [|by split; [apply Hsp|]].
  pose proof (here_end _ _ _ Hh) as ->. rewrite <- (app_nil_r t) in Hh. by eapply here_get.
Qed.

(** C24. The spans of the result are ordered, whatever errors were emitted: they are valid
    spans of the text, follow each other without overlap, and the spans of the trees of
    a group are between its delimiters. *)
Theorem lex_commented_placed h start stream errs :
  lex_from h start (src_len src) = Ok (inl stream, errs) ->
  placed start (commented_trees stream) (src_len src).
Proof. by intros (t & errs' & _ & _ & _ & Hp & _)%lex_commented_spec. Qed.

(** C25. The lexer returns from every boundary of the text: with a stream, or with an error
    that it has emitted, and with the errors of the handler kept.  It panics only on
    texts that are not in ASCII, or that have both single quotes and backslashes; the
    fuel of its loops is enough. *)
Theorem lex_commented_returns h start :
  boundary start ->
  (exists r errs, lex_from h start (src_len src) = Ok (r, h ++ errs) /\ (r = inr emitted -> errs <> [])) \/
  (~ tame (source_text src) /\ exists msg, lex_from h start (src_len src) = Err (Panic msg)).
Proof.
  intros Hb. destruct (lex_commented_start h start Hb) as (t & Hh & ->).
  assert (~ tame (source_text src) \/ tame (source_text src)) as Hd by (destruct (decide (tame (source_text src))); auto).
  pose proof (wp_lex_stream (~ tame (source_text src)) Hd start h t Hh) as Hw. unfold LexGrammar.wp in Hw.
  destruct (lex_stream _ _ _ _ _ _ _ _) as [[r l]|[]]; cbn; [left|done|done|done|right; eauto|done].
  destruct Hw as (errs & Hl & Hr). exists r, errs. rewrite Hl. split; [done|]. by intros ->.
Qed.
End main.

(** ** Examples *)

(** The classes of ASCII characters *)
Definition ascii_xid_start (c : char) : bool :=
  ((97 <=? c) && (c <=? 122) || (65 <=? c) && (c <=? 90))%Z.
Definition ascii_xid_continue (c : char) : bool :=
  (ascii_xid_start c || (48 <=? c) && (c <=? 57) || (c =? 95))%Z.
Definition right_to_left (c : char) : bool := (c =? 0x202e)%Z.

#[export] Instance ascii_tables : UnicodeTables ascii_xid_start ascii_xid_continue.
Proof. split; intros c; unfold ascii_xid_continue, ascii_xid_start, is_whitespace; lia. Qed.

Definition lex_text (s : str) : Result ((CommentedTokenStream + ErrorEmitted) * list LexError) :=
  lex_commented ascii_xid_start ascii_xid_continue right_to_left (mkSource 1 s) None [] 0 (str_len s).

(** The trees of a result without their spans, and the kinds of its errors *)
Definition stream_of (s : str) : CommentedTokenStream :=
  match lex_text s with
  | Ok (inl stream, _) => stream
  | _ => mkCommented [] (mkSpan (mkSource 1 s) 0 0 None)
  end.

Definition errors_of (s : str) : Result (nat * list LexErrorKind) :=
  match lex_text s with
  | Ok (inl stream, errs) => Ok (length (commented_trees stream), map error_kind errs)
  | Ok (inr _, errs) => Ok (0, map error_kind errs)
  | Err e => Err e
  end.

Definition sample_text : str := text "fn main(/* none */) { let x = 0xFFu8; } // end".

Lemma lex_commented_spells_witness :
  exists t, str_get sample_text 0 46 = Some t /\
    spells ascii_xid_start ascii_xid_continue right_to_left (mkSource 1 sample_text) None 0
      (commented_trees (stream_of sample_text)) t /\
    commented_span (stream_of sample_text) = at_span (mkSource 1 sample_text) None 0 46.
Proof.
  apply (lex_commented_spells ascii_xid_start ascii_xid_continue right_to_left (mkSource 1 sample_text) None []).
  vm_compute. reflexivity.
Defined.

(** The second group is closed by another delimiter. *)
Definition unclosed_text : str := text "f(a) { 1u7 ]".

Lemma lex_commented_placed_witness :
  placed (mkSource 1 unclosed_text) None 0 (commented_trees (stream_of unclosed_text)) 12.
Proof.
  eapply (lex_commented_placed ascii_xid_start ascii_xid_continue right_to_left (mkSource 1 unclosed_text) None []).
  vm_compute. reflexivity.
Defined.

Lemma lex_commented_returns_witness :
  (exists r errs, lex_text unclosed_text = Ok (r, [] ++ errs) /\ (r = inr emitted -> errs <> [])) \/
  (~ tame unclosed_text /\ exists msg, lex_text unclosed_text = Err (Panic msg)).
Proof.
  apply (lex_commented_returns ascii_xid_start ascii_xid_continue right_to_left (mkSource 1 unclosed_text) None []).
  apply boundary_start.
Defined.

(** *** Texts that are not read as they are meant *)

(** A block comment that ends with an even number of stars is not closed. *)
Lemma double_star_comment_unclosed :
  errors_of (text "/* doc **/ fn") = Ok (0, [UnclosedMultilineComment [0]]) /\
  errors_of (text "/* doc */ fn") = Ok (2, []).
Proof. split; vm_compute; reflexivity. Qed.

(** An unclosed comment whose last character is not in ASCII: the end of the span of the
    error is not a boundary. *)
Lemma unclosed_comment_panics :
  errors_of (text "/* " ++ [233%Z]) = Err (Panic "called `Option::unwrap()` on a `None` value").
Proof. vm_compute. reflexivity. Qed.

(** An escape without a brace: the span of the error starts at the [u] and has the length
    of the next character. *)
Lemma missing_brace_panics :
  errors_of ([quote] ++ text "\u" ++ [233%Z; quote]) = Err (Panic "called `Option::unwrap()` on a `None` value").
Proof. vm_compute. reflexivity. Qed.

(** A character literal of two characters at the end of the text: the span of the error
    is as long as the string, which has the first character too. *)
Lemma two_characters_panic :
  errors_of (text "'" ++ [233%Z] ++ text "b'") = Err (Panic "called `Option::unwrap()` on a `None` value").
Proof. vm_compute. reflexivity. Qed.

(** A lone [r#] is an identifier, and [r#_] an underscore, without an error. *)
Lemma raw_prefix_accepted :
  errors_of (text "r#") = Ok (1, []) /\ errors_of (text "r#_ ") = Ok (1, []).
Proof. split; vm_compute; reflexivity. Qed.
