(* ===== verification/LexRoundtrip.v ===== *)
(** * Literals are read back

    A string that is written with escapes is lexed to the string, and the text of an
    integer to its value. *)

From S2P Require Import Prelude LexToken LexSpan Lexer LexGrammar LexLiterals LexNumbers LexMain.
From Stdlib Require Import Ascii.

(** A string between quotes, with escapes for the characters that have a meaning *)
Definition escape_char (c : char) : str :=
  if (c =? quote)%Z || (c =? chr "\")%Z then [chr "\"; c] else [c].
Definition escape_string (v : str) : str := concat (map escape_char v).

Section roundtrip.
Context (is_xid_start is_xid_continue is_text_dir : char -> bool).
Context {Hxid : UnicodeTables is_xid_start is_xid_continue}.
Context (src : Source) (source_id : option Z).

Abbreviation here := (here src).
Abbreviation mk := (mk src source_id).

Lemma span_until_run p stop t h :
  here stop t -> boundary (source_text src) p -> p <= stop ->
  span_until src source_id p (state h stop t) = Ok (mk p stop, state h stop t).
Proof.
  intros Hh Hb Hle. pose proof (wp_span_until src source_id False p (fun sp l => sp = mk p stop /\ l = state h stop t) h stop t) as H.
  unfold wp in H. destruct (span_until _ _ _ _) as [[sp l]|[]]; destruct H; try done. by subst.
Qed.

Lemma simple_escape_self c : (c =? quote)%Z || (c =? chr "\")%Z = true -> simple_escape c = Some c.
Proof. by intros [->%Z.eqb_eq| ->%Z.eqb_eq]%orb_true_iff. Qed.

Lemma bind_run {A B} (m : M A) (f : A -> M B) l a l' : m l = Ok (a, l') -> (m ≫= f) l = f a l'.
Proof. intros H. unfold mbind, M_bind. by rewrite H. Qed.

Lemma try_run {A B E} (m : M (A + E)) (f : A -> M (B + E)) l a l' : m l = Ok (inl a, l') -> try_bind m f l = f a l'.
Proof. intros H. unfold try_bind. by rewrite (bind_run _ _ _ _ _ H). Qed.

Lemma next_run {B} (f : option (nat * char) -> M B) h p c t :
  (next ≫= f) (state h p (c :: t)) = f (Some (p, c)) (state h (p + len_utf8 c) t).
Proof. done. Qed.

Lemma escape_or_run unclosed c d h p t :
  simple_escape c = Some d -> escape_or src source_id unclosed (state h p (c :: t)) = Ok (inl d, state h (p + len_utf8 c) t).
Proof.
  intros Hd. unfold escape_or. erewrite bind_run; [|unfold parse_escape_code; erewrite bind_run by done; cbn iota beta; by rewrite Hd].
  done.
Qed.

Lemma string_loop_run fuel index parsed v h p rest :
  length (escape_string v) < fuel -> Forall (fun c => is_text_dir c = false) v ->
  string_loop is_text_dir src source_id fuel index parsed (state h p (escape_string v ++ quote :: rest)) =
    Ok (inl (parsed ++ v), state h (p + str_len (escape_string v ++ [quote])) rest).
Proof.
  intros Hf Hv. revert fuel parsed p Hf. induction Hv as [|c v Hc _ IH]; intros fuel parsed p Hf; (destruct fuel as [|fuel]; [lia|]).
  { cbn. by rewrite app_nil_r. }
  change (escape_string (c :: v)) with (escape_char c ++ escape_string v) in *. rewrite length_app in Hf. unfold escape_char in *.
  destruct ((c =? quote)%Z || (c =? chr "\")%Z) eqn:He; cbn [app string_loop length] in *;
    rewrite next_run; cbn iota beta.
  - change (chr "\" =? chr "\")%Z with true. cbn iota. erewrite try_run by (by apply escape_or_run, simple_escape_self).
    rewrite IH by lia. rewrite <- app_assoc. do 2 f_equal. rewrite !str_len_cons. f_equal. lia.
  - apply orb_false_iff in He as [-> ->]. rewrite Hc. cbn iota. rewrite IH by lia. rewrite <- app_assoc. do 2 f_equal.
    rewrite str_len_cons. f_equal. lia.
Qed.

(** ** Texts of one token *)

Lemma loop_run {A} (body : nat -> M A) h p t : loop body (state h p t) = body (S (length t)) (state h p t).
Proof.
  unfold loop, state. cbn [stream].
  assert (length (char_indices p t) = length t) as ->; [|done]. clear. revert p. induction t; intros; cbn; auto.
Qed.

(** A character that starts a literal *)
Definition starts_literal (c : char) : Prop :=
  is_whitespace c = false /\ c <> chr "/" /\ c <> chr "_" /\ is_xid_start c = false /\
  as_open_delimiter c = None /\ as_close_delimiter c = None.

Lemma lex_step_run stop parents trees index c l :
  starts_literal c ->
  lex_step is_xid_start is_xid_continue is_text_dir src source_id stop parents trees index c l =
    (trees ←? lex_rest is_xid_continue is_text_dir src source_id trees index c; mret (inl (parents, trees))) l.
Proof.
  intros (Hw & Hs & Hu & Hx & Ho & Hc). unfold lex_step. rewrite Hw. unfold lex_comment.
  destruct (Z.eqb_spec c (chr "/")) as [->|_]; [done|]. cbn [negb]. erewrite bind_run by done. cbn iota beta.
  unfold lex_identifier. rewrite Hx. destruct (Z.eqb_spec c (chr "_")) as [->|_]; [done|]. cbn [negb orb].
  erewrite bind_run by done. cbn iota beta. by rewrite Ho, Hc.
Qed.

(** A text that is one literal *)
Lemma lex_literal c t lit sp :
  source_text src = c :: t -> starts_literal c ->
  lex_rest is_xid_continue is_text_dir src source_id [] 0 c (state [] (len_utf8 c) t) =
    Ok (inl [CLiteral lit], state [] sp []) ->
  lex is_xid_start is_xid_continue is_text_dir src source_id [] 0 (src_len src) =
    Ok (inl (mkTokenStream [TLiteral lit] (mk 0 (src_len src))), []).
Proof.
  intros Hsrc Hc Hlex. destruct (lex_commented_start is_xid_start is_xid_continue is_text_dir src source_id [] 0) as (u & Hu & Heq).
  { apply boundary_start. }
  unfold lex. rewrite Heq. assert (u = c :: t) as ->.
  { destruct Hu as ([|x a] & Hs & Ha); [by rewrite Hsrc in Hs|]. rewrite str_len_cons in Ha. pose proof (len_utf8_pos x). lia. }
  unfold lex_stream. erewrite try_run; last first.
  { rewrite loop_run. cbn [lex_loop]. rewrite next_run. cbn iota beta.
    erewrite try_run; [|rewrite lex_step_run by done; erewrite try_run; [done|exact Hlex]].
    cbn [length lex_loop]. by erewrite bind_run by done. }
  cbn [fst snd close_all]. erewrite bind_run by done. erewrite bind_run; last first.
  { unfold span, lift. rewrite (proj2 (Span_new_Some src 0 (src_len src) source_id (mk 0 (src_len src)))); [done|]. split; [done|].
    split; [cbn; lia|]. split; [apply boundary_start|apply boundary_end]. }
  done.
Qed.

Lemma here_start t : source_text src = t -> here 0 t.
Proof. intros <-. by exists []. Qed.

Lemma ascii_not_start c : (c < 65)%Z -> is_xid_start c = false.
Proof. intros Hc. apply not_true_iff_false. intros H%xid_start_ascii; lia. Qed.

(** C26. Strings without characters of text direction are read back: the lexer reads such a
    string, written between quotes with a backslash before quotes and backslashes, as one
    literal whose value is the string, without an error.  (For characters of text direction
    it emits an error.) *)
Theorem lex_string_roundtrip v :
  Forall (fun c => is_text_dir c = false) v ->
  source_text src = [quote] ++ escape_string v ++ [quote] ->
  lex is_xid_start is_xid_continue is_text_dir src source_id [] 0 (src_len src) =
    Ok (inl (mkTokenStream [TLiteral (LitString (at_span src source_id 0 (src_len src)) v)]
               (at_span src source_id 0 (src_len src))), []).
Proof.
  intros Hv Hsrc. pose proof (here_start _ Hsrc) as Hh. pose proof (here_end _ _ _ Hh) as Hend.
  eapply (lex_literal quote (escape_string v ++ [quote]) _ (src_len src)); [done| |].
  { split_and!; try done. by apply ascii_not_start. }
  unfold lex_rest. assert (lex_string is_text_dir src source_id 0 quote (state [] (len_utf8 quote) (escape_string v ++ [quote])) =
    Ok (inl (Some (CLiteral (LitString (mk 0 (src_len src)) v))), state [] (src_len src) [])) as Hls.
  { unfold lex_string. change (negb (quote =? quote)%Z) with false. cbn iota.
    erewrite try_run; [|rewrite loop_run; apply string_loop_run; [rewrite length_app; cbn; lia|done]].
    replace (len_utf8 quote + str_len (escape_string v ++ [quote])) with (src_len src) by (by rewrite Hend).
    erewrite bind_run; [done|]. apply span_until_run; [|apply boundary_start|lia].
    exists (source_text src). by rewrite app_nil_r. }
  by rewrite (try_run _ _ _ _ _ Hls).
Qed.

(** ** Integers *)

Lemma underscore_no_digit radix : (0 <= radix <= 36)%Z -> to_digit radix (chr "_") = None.
Proof. intros Hr. unfold to_digit. change (chr "_") with 95%Z. case_tests; [lia..|done]. Qed.

Lemma digits_of_run radix n u m p :
  (0 <= radix <= 36)%Z -> digits radix n u m -> digits_of radix n (char_indices p u) = (m, None, []).
Proof.
  intros Hr Hu. revert p. induction Hu as [n|n s m _ IH|n c d s m Hd _ IH]; intros p; [done|exact (IH _)|].
  cbn [char_indices digits_of]. destruct (Z.eqb_spec c (chr "_")) as [->|_]; [by rewrite underscore_no_digit in Hd|].
  rewrite Hd. apply IH.
Qed.

Lemma digit_range c d : to_digit 10 c = Some d -> (48 <= c <= 57)%Z /\ d = (c - 48)%Z.
Proof. unfold to_digit. case_tests; intros [= <-]; lia. Qed.

Lemma parse_digits_run radix n u m p h :
  (0 <= radix <= 36)%Z -> digits radix n u m -> parse_digits n radix (state h p u) = Ok ((m, None), state h (src_len src) []).
Proof. intros Hr Hu. unfold parse_digits, state. cbn [stream handler]. by rewrite (digits_of_run _ _ _ m). Qed.

(** After the first digit, a text of digits does not look like a prefix. *)
Lemma digits_no_prefix d s n c t :
  digits 10 d s n -> s = c :: t -> ((c =? chr "_") || (chr "0" <=? c) && (c <=? chr "9"))%Z = true /\ (c < 97)%Z \/ c = chr "_".
Proof.
  intros Hs ->. inversion Hs as [|? ? ? Hs' |? ? d' ? ? Hd Hs']; subst; [by right|left].
  apply digit_range in Hd as [Hd _]. change (chr "0") with 48%Z. change (chr "9") with 57%Z. lia.
Qed.

Lemma prefixed_run radix pre c d s n p :
  (0 <= radix <= 36)%Z -> to_digit radix c = Some d -> digits radix d s n ->
  prefixed_int_lit src source_id 0 radix (state [] p (chr pre :: c :: s)) = Ok (inl (radix, (n, None)), state [] (src_len src) []).
Proof.
  intros Hr Hd Hs. unfold prefixed_int_lit. rewrite !next_run. cbn iota beta. rewrite Hd.
  by rewrite (bind_run _ _ _ _ _ (parse_digits_run _ _ _ _ _ _ Hr Hs)).
Qed.

Lemma int_value_run c s radix n p :
  int_text (c :: s) radix n -> exists d, to_digit 10 c = Some d /\ (48 <= c <= 57)%Z /\
    int_value src source_id 0 d (state [] p s) = Ok (inl (radix, (n, None)), state [] (src_len src) []).
Proof.
  inversion 1 as [? d ? ? Hd Hs|? pre x d ? ? Hpre Hd Hs]; subst.
  - destruct (digit_range _ _ Hd) as [Hc Hdc]. exists d. split; [done|]. split; [done|]. unfold int_value.
    assert (forall k, (0 <= k < 10)%Z -> digits 10 k s n -> (r ← parse_digits k 10; mret (inl (10%Z, r))) (state [] p s) =
      Ok (@inl _ ErrorEmitted (10%Z, (n, None)), state [] (src_len src) [])) as Hrun.
    { intros k Hk Hks. by rewrite (bind_run _ _ _ _ _ (parse_digits_run 10 k s n p [] ltac:(lia) Hks)). }
    destruct (Z.eqb_spec d 0) as [->|Hnz]; [|apply Hrun; [lia|done]].
    destruct s as [|x s]; [inversion Hs; subst; done|].
    change (peek ≫= ?f) with (fun l => f (head (stream l)) l). cbn [state stream char_indices head].
    pose proof (digits_no_prefix 0 _ n x s Hs eq_refl) as Hx.
    assert ((x =? chr "x")%Z = false /\ (x =? chr "o")%Z = false /\ (x =? chr "b")%Z = false /\
      ((x =? chr "_") || (chr "0" <=? x) && (x <=? chr "9"))%Z = true) as (-> & -> & -> & ->).
    { change (chr "x") with 120%Z. change (chr "o") with 111%Z. change (chr "b") with 98%Z.
      change (chr "_") with 95%Z in *. change (chr "0") with 48%Z in *. change (chr "9") with 57%Z in *. lia. }
    by apply Hrun.
  - exists 0%Z. split; [done|]. split; [change (chr "0") with 48%Z; lia|]. unfold int_value.
    change (0 =? 0)%Z with true. cbn iota. unfold radix_prefix in Hpre.
    assert ((pre = "x"%char /\ radix = 16 \/ pre = "o"%char /\ radix = 8 \/ pre = "b"%char /\ radix = 2)%Z) as Hcases.
    { case_tests; simplify_eq; repeat match goal with H : (_ =? _)%Z = true |- _ => apply Z.eqb_eq in H end; auto. }
    destruct Hcases as [[-> ->]|[[-> ->]|[-> ->]]]; by eapply (prefixed_run _ _ x d).
Qed.

Lemma digit_starts_literal c : (48 <= c <= 57)%Z -> starts_literal c.
Proof.
  intros Hc. split; [unfold is_whitespace; lia|]. change (chr "/") with 47%Z. change (chr "_") with 95%Z.
  split; [lia|]. split; [lia|]. split; [apply ascii_not_start; lia|]. split.
  - destruct (as_open_delimiter c) as [d|] eqn:Hd; [|done]. apply as_open_delimiter_char in Hd as ->.
    assert (as_open_char d < 48 \/ 57 < as_open_char d)%Z by (destruct d; [left|right|right]; done). lia.
  - destruct (as_close_delimiter c) as [d|] eqn:Hd; [|done]. apply as_close_delimiter_char in Hd as ->.
    assert (as_close_char d < 48 \/ 57 < as_close_char d)%Z by (destruct d; [left|right|right]; done). lia.
Qed.

(** Integers are read back: the lexer reads the text of an integer, in any radix and with
    underscores between its digits, as one literal with the value of the digits and
    without a type or an error. *)
Theorem lex_int_roundtrip s radix n :
  int_text s radix n -> source_text src = s ->
  lex is_xid_start is_xid_continue is_text_dir src source_id [] 0 (src_len src) =
    Ok (inl (mkTokenStream [TLiteral (LitInt (at_span src source_id 0 (src_len src)) n None false)]
               (at_span src source_id 0 (src_len src))), []).
Proof.
  intros Hint Hsrc. destruct s as [|c s]; [inversion Hint|]. destruct (int_value_run c s radix n (len_utf8 c) Hint) as (d & Hd & Hc & Hrun).
  eapply (lex_literal c s _ (src_len src)); [done| |].
  { by apply digit_starts_literal. }
  unfold lex_rest, lex_string, lex_char, is_quote. destruct (Z.eqb_spec c quote) as [->|_]; [unfold quote in Hc; lia|].
  destruct (Z.eqb_spec c (chr "'")) as [->|_]; [change (chr "'") with 39%Z in Hc; lia|]. cbn [negb]. do 2 (erewrite try_run; [|done]; cbn iota beta).
  assert (lex_int_lit is_xid_continue src source_id 0 c (state [] (len_utf8 c) s) =
    Ok (inl (Some (CLiteral (LitInt (mk 0 (src_len src)) n None false))), state [] (src_len src) [])) as Hlit.
  { unfold lex_int_lit. rewrite Hd, (try_run _ _ _ _ _ Hrun). erewrite try_run; [|done]. cbn [is_u256 default].
    erewrite bind_run; [done|]. unfold span, lift.
    rewrite (proj2 (Span_new_Some src 0 (src_len src) source_id (mk 0 (src_len src)))); [done|]. split; [done|].
    split; [cbn; lia|]. split; [apply boundary_start|apply boundary_end]. }
  by rewrite (try_run _ _ _ _ _ Hlit).
Qed.
End roundtrip.

(** ** Examples *)

Definition roundtrip_string : str := text "a\b" ++ [quote; newline; 233%Z].
Definition string_source : Source := mkSource 1 ([quote] ++ escape_string roundtrip_string ++ [quote]).

Lemma lex_string_roundtrip_witness :
  lex ascii_xid_start ascii_xid_continue right_to_left string_source None [] 0 11 =
    Ok (inl (mkTokenStream [TLiteral (LitString (at_span string_source None 0 11) roundtrip_string)]
               (at_span string_source None 0 11)), []).
Proof.
  apply (lex_string_roundtrip ascii_xid_start ascii_xid_continue right_to_left string_source None roundtrip_string).
  - repeat constructor.
  - reflexivity.
Defined.

Definition int_source : Source := mkSource 1 (text "0xF_f").

Lemma lex_int_roundtrip_witness :
  lex ascii_xid_start ascii_xid_continue right_to_left int_source None [] 0 5 =
    Ok (inl (mkTokenStream [TLiteral (LitInt (at_span int_source None 0 5) 255 None false)]
               (at_span int_source None 0 5)), []).
Proof.
  apply (lex_int_roundtrip ascii_xid_start ascii_xid_continue right_to_left int_source None (text "0xF_f") 16).
  - apply (int_prefixed 16 "x" (chr "F") 15 [chr "_"; chr "f"]); [done|done|].
    apply digits_underscore. apply (digits_digit 16 15 (chr "f") 15 [] 255); [done|]. apply digits_nil.
  - reflexivity.
Defined.
