(* ===== verification/IrDominator.v ===== *)
(** * Dominators of the IR

    [sway-ir/src/analysis/dominator.rs], with what it uses of [block.rs] and
    [function.rs]: the post-order of the control-flow graph, the dominator tree by the
    algorithm of Cooper, Harvey and Kennedy, and the dominance frontiers.  A hash set of
    predecessors is the list of its elements in the order of its iteration; an
    [FxIndexMap] is a map with the list of its keys in the order of insertion.  Loops
    that are not structural run on fuel. *)

From S2P Require Import Prelude.

(** ** Blocks and functions *)

Abbreviation Block := positive.

(** The last instruction of a block *)
Inductive Terminator : Type :=
  | ConditionalBranch (true_block false_block : Block)
  | Branch (block : Block)
  | NoBranch.

Record BlockContent : Type := mkBlock { get_terminator : Terminator; preds : list Block }.
Record Context : Type := mkContext { blocks : gmap Block BlockContent }.
Record Function : Type := mkFunction { function_blocks : list Block }.

(** Indexing a map or a vector *)
Definition index {A} (o : option A) : Result A :=
  match o with Some a => Ok a | None => Err (Panic "index out of bounds") end.
Definition unwrap {A} (o : option A) : Result A :=
  match o with Some a => Ok a | None => Err (Panic "called `Option::unwrap()` on a `None` value") end.

Definition get_entry_block (function : Function) : Result Block := index (function_blocks function !! 0).

Definition successors (context : Context) (self : Block) : Result (list Block) :=
  content ← index (blocks context !! self);
  Ok (match get_terminator content with
      | ConditionalBranch true_block false_block => [true_block; false_block]
      | Branch block => [block]
      | NoBranch => []
      end).

Definition pred_iter (context : Context) (self : Block) : Result (list Block) :=
  content ← index (blocks context !! self);
  Ok (preds content).

Definition num_predecessors (context : Context) (self : Block) : Result nat :=
  content ← index (blocks context !! self);
  Ok (length (preds content)).

(** ** Index maps *)

Record IndexMap (V : Type) : Type := mkIndexMap { keys : list Block; values : gmap Block V }.
Arguments mkIndexMap {V}.
Arguments keys {V}.
Arguments values {V}.

Definition index_empty {V} : IndexMap V := mkIndexMap [] ∅.
Definition index_insert {V} (k : Block) (v : V) (m : IndexMap V) : IndexMap V :=
  mkIndexMap (match values m !! k with Some _ => keys m | None => keys m ++ [k] end) (<[k := v]> (values m)).

(** ** Post-order *)

Record PostOrder : Type := mkPostOrder { block_to_po : gmap Block nat; po_to_block : list Block }.

(** The numbering, the blocks on the stack and the counter *)
Record DfsState : Type := mkDfs { res : PostOrder; on_stack : gset Block; counter : nat }.

Section post_order.
Context (context : Context).

Fixpoint post_order (fuel : nat) (n : Block) (s : DfsState) : Result DfsState :=
  match fuel with
  | 0 => Err OutOfFuel
  | S fuel' =>
      if bool_decide (n ∈ on_stack s) then Ok s
      else
        let s := mkDfs (res s) ({[n]} ∪ on_stack s) (counter s) in
        succs ← successors context n;
        s ← (fix visit (l : list Block) (s : DfsState) : Result DfsState :=
               match l with
               | [] => Ok s
               | n_succ :: l' => s ← post_order fuel' n_succ s; visit l' s
               end) succs s;
        Ok (mkDfs (mkPostOrder (<[n := counter s]> (block_to_po (res s))) (po_to_block (res s) ++ [n]))
              (on_stack s) (counter s + 1))
  end.
End post_order.

Definition compute_post_order (context : Context) (function : Function) : Result PostOrder :=
  entry ← get_entry_block function;
  s ← post_order context (S (size (blocks context))) entry (mkDfs (mkPostOrder ∅ []) ∅ 0);
  last ← unwrap (last (po_to_block (res s)));
  if bool_decide (last = entry) then Ok (res s)
  else Err (Panic "assertion failed: res.po_to_block.last().unwrap() == &entry").

(** ** Dominator tree *)

Record DomTreeNode : Type := mkDomTreeNode { parent : option Block; children : list Block }.
Abbreviation DomTree := (IndexMap DomTreeNode).

Definition DomTreeNode_new (parent : option Block) : DomTreeNode := mkDomTreeNode parent [].

(** [get_mut(b).unwrap()] and an assignment *)
Definition set_parent (b : Block) (p : option Block) (dom_tree : DomTree) : Result DomTree :=
  node ← unwrap (values dom_tree !! b);
  Ok (mkIndexMap (keys dom_tree) (<[b := mkDomTreeNode p (children node)]> (values dom_tree))).

Definition push_child (child p : Block) (dom_tree : DomTree) : Result DomTree :=
  node ← unwrap (values dom_tree !! p);
  Ok (mkIndexMap (keys dom_tree) (<[p := mkDomTreeNode (parent node) (children node ++ [child])]> (values dom_tree))).

Section dom_tree.
Context (context : Context) (po : PostOrder).

(** [while po[finger] < po[limit]]: the finger climbs. *)
Fixpoint climb (fuel : nat) (dom_tree : DomTree) (finger limit : Block) : Result Block :=
  match fuel with
  | 0 => Err OutOfFuel
  | S fuel' =>
      a ← index (block_to_po po !! finger);
      b ← index (block_to_po po !! limit);
      if a <? b then
        node ← index (values dom_tree !! finger);
        p ← unwrap (parent node);
        climb fuel' dom_tree p limit
      else Ok finger
  end.

Definition climb_fuel : nat := S (length (po_to_block po)).

Fixpoint intersect_loop (fuel : nat) (dom_tree : DomTree) (finger1 finger2 : Block) : Result Block :=
  match fuel with
  | 0 => Err OutOfFuel
  | S fuel' =>
      if bool_decide (finger1 = finger2) then Ok finger1
      else
        finger1 ← climb climb_fuel dom_tree finger1 finger2;
        finger2 ← climb climb_fuel dom_tree finger2 finger1;
        intersect_loop fuel' dom_tree finger1 finger2
  end.

Definition intersect (dom_tree : DomTree) (finger1 finger2 : Block) : Result Block :=
  intersect_loop (S (length (po_to_block po))) dom_tree finger1 finger2.

(** The first predecessor that is later in the post-order *)
Fixpoint find_processed (b_po : nat) (l : list Block) : option Block :=
  match l with
  | [] => None
  | p :: l' =>
      match block_to_po po !! p with
      | Some p_po => if b_po <? p_po then Some p else find_processed b_po l'
      | None => find_processed b_po l'
      end
  end.

(** The other predecessors *)
Fixpoint intersect_preds (dom_tree : DomTree) (picked_pred : Block) (l : list Block) (new_idom : Block)
    : Result Block :=
  match l with
  | [] => Ok new_idom
  | p :: l' =>
      if bool_decide (p <> picked_pred) && bool_decide (is_Some (block_to_po po !! p)) then
        node ← index (values dom_tree !! p);
        match parent node with
        | Some _ =>
            new_idom ← intersect dom_tree p new_idom;
            intersect_preds dom_tree picked_pred l' new_idom
        | None => intersect_preds dom_tree picked_pred l' new_idom
        end
      else intersect_preds dom_tree picked_pred l' new_idom
  end.

Definition new_idom (dom_tree : DomTree) (b : Block) : Result Block :=
  ps ← pred_iter context b;
  b_po ← index (block_to_po po !! b);
  picked_pred ← unwrap (find_processed b_po ps);
  intersect_preds dom_tree picked_pred ps picked_pred.

(** A round of the inner loop: the tree and whether it was changed *)
Definition update_block (dom_tree : DomTree) (b : Block) : Result (DomTree * bool) :=
  idom ← new_idom dom_tree b;
  node ← unwrap (values dom_tree !! b);
  if bool_decide (parent node = Some idom) then Ok (dom_tree, false)
  else dom_tree ← set_parent b (Some idom) dom_tree; Ok (dom_tree, true).

Fixpoint update_blocks (l : list Block) (dom_tree : DomTree) (changed : bool) : Result (DomTree * bool) :=
  match l with
  | [] => Ok (dom_tree, changed)
  | b :: l' =>
      r ← update_block dom_tree b;
      update_blocks l' r.1 (changed || r.2)
  end.

Fixpoint dom_tree_loop (fuel : nat) (dom_tree : DomTree) : Result DomTree :=
  match fuel with
  | 0 => Err OutOfFuel
  | S fuel' =>
      r ← update_blocks (drop 1 (reverse (po_to_block po))) dom_tree false;
      if (r.2 : bool) then dom_tree_loop fuel' r.1 else Ok r.1
  end.

Definition initial_tree (entry : Block) : DomTree :=
  foldl (fun t b => index_insert b (DomTreeNode_new None) t)
    (index_insert entry (DomTreeNode_new (Some entry)) index_empty)
    (take (length (po_to_block po) - 1) (po_to_block po)).

(** The pairs of a block and its parent, in the order of the map *)
Definition child_parent (dom_tree : DomTree) : list (Block * Block) :=
  omap (fun n => node ← values dom_tree !! n; p ← parent node; Some (n, p)) (keys dom_tree).

Fixpoint build_children (l : list (Block * Block)) (dom_tree : DomTree) : Result DomTree :=
  match l with
  | [] => Ok dom_tree
  | (child, p) :: l' => dom_tree ← push_child child p dom_tree; build_children l' dom_tree
  end.

(** A change moves a parent later in the post-order. *)
Definition dom_tree_fuel : nat := let n := length (po_to_block po) in n * n + n + 2.

Definition compute_dom_tree (function : Function) : Result DomTree :=
  entry ← get_entry_block function;
  dom_tree ← dom_tree_loop dom_tree_fuel (initial_tree entry);
  dom_tree ← set_parent entry None dom_tree;
  build_children (child_parent dom_tree) dom_tree.
End dom_tree.

(** ** Queries *)

Fixpoint dominates_loop (fuel : nat) (self : DomTree) (dominator : Block) (node_opt : option Block) : Result bool :=
  match fuel with
  | 0 => Err OutOfFuel
  | S fuel' =>
      match node_opt with
      | None => Ok false
      | Some node =>
          if bool_decide (node = dominator) then Ok true
          else
            n ← index (values self !! node);
            dominates_loop fuel' self dominator (parent n)
      end
  end.

Definition dominates (self : DomTree) (dominator dominatee : Block) : Result bool :=
  dominates_loop (S (S (length (keys self)))) self dominator (Some dominatee).

Definition children_of (self : DomTree) (node : Block) : Result (list Block) :=
  n ← index (values self !! node);
  Ok (children n).

Definition child (self : DomTree) (node : Block) (i : nat) : Result (option Block) :=
  n ← index (values self !! node);
  Ok (children n !! i).

(** ** Dominance frontiers *)

Abbreviation DomFronts := (IndexMap (list Block)).

(** [IndexSet::insert] *)
Definition set_insert (b : Block) (s : list Block) : list Block := if bool_decide (b ∈ s) then s else s ++ [b].

Section fronts.
Context (context : Context) (dom_tree : DomTree).

Fixpoint runner_loop (fuel : nat) (b b_idom runner : Block) (fronts : DomFronts) : Result DomFronts :=
  match fuel with
  | 0 => Err OutOfFuel
  | S fuel' =>
      if bool_decide (runner = b_idom) then Ok fronts
      else
        front ← unwrap (values fronts !! runner);
        let fronts := mkIndexMap (keys fronts) (<[runner := set_insert b front]> (values fronts)) in
        node ← index (values dom_tree !! runner);
        p ← unwrap (parent node);
        runner_loop fuel' b b_idom p fronts
  end.

Fixpoint front_preds (b b_idom : Block) (l : list Block) (fronts : DomFronts) : Result DomFronts :=
  match l with
  | [] => Ok fronts
  | p :: l' =>
      if bool_decide (is_Some (values dom_tree !! p)) then
        fronts ← runner_loop (S (length (keys dom_tree))) b b_idom p fronts;
        front_preds b b_idom l' fronts
      else front_preds b b_idom l' fronts
  end.

Definition front_block (b : Block) (fronts : DomFronts) : Result DomFronts :=
  n ← num_predecessors context b;
  if 1 <? n then
    node ← index (values dom_tree !! b);
    b_idom ← unwrap (parent node);
    ps ← pred_iter context b;
    front_preds b b_idom ps fronts
  else Ok fronts.

Fixpoint front_blocks (l : list Block) (fronts : DomFronts) : Result DomFronts :=
  match l with
  | [] => Ok fronts
  | b :: l' => fronts ← front_block b fronts; front_blocks l' fronts
  end.

Definition compute_dom_fronts : Result DomFronts :=
  front_blocks (keys dom_tree) (foldl (fun m b => index_insert b [] m) index_empty (keys dom_tree)).
End fronts.
