(* ===== verification/IrDomTree.v ===== *)
(** * Paths, dominance and the post-order

    The control-flow graph of a function, its paths and its dominators; the depth-first
    search numbers exactly the reachable blocks, and every block but the entry has a
    predecessor that is later in the post-order. *)

From S2P Require Import Prelude IrDominator.

(** ** Control-flow graphs *)

Section cfg.
Context (context : Context).

Definition edge (a b : Block) : Prop := exists l, successors context a = Ok l /\ b ∈ l.

(** A path with the list of its blocks *)
Inductive path (a : Block) : list Block -> Block -> Prop :=
  | path_refl : path a [a] a
  | path_step l b c : path a l b -> edge b c -> path a (l ++ [c]) c.

Lemma path_edge a b l c : edge a b -> path b l c -> path a (a :: l) c.
Proof.
  intros He. induction 1 as [|l c d _ IH Hd]; [apply (path_step a [a] a b); [constructor|done]|].
  change (a :: l ++ [d]) with ((a :: l) ++ [d]). by econstructor.
Qed.

Lemma path_app a l b l' c : path a l b -> path b l' c -> exists l'', path a l'' c /\ forall x, x ∈ l'' <-> x ∈ l \/ x ∈ l'.
Proof.
  intros Ha. induction 1 as [|l' c d Hp IH He].
  - exists l. split; [done|]. intros x. split; [by left|]. intros [?| ->%list_elem_of_singleton]; [done|].
    destruct Ha; [by left|apply elem_of_app; right; by left].
  - destruct IH as (l'' & Hl & Hx). exists (l'' ++ [d]). split; [by econstructor|]. intros x.
    rewrite !elem_of_app, Hx. tauto.
Qed.

Lemma path_end a l b : path a l b -> b ∈ l.
Proof. destruct 1; [by left|apply elem_of_app; right; by left]. Qed.

Lemma path_start a l b : path a l b -> a ∈ l.
Proof. induction 1; [by left|apply elem_of_app; by left]. Qed.

(** The blocks that the functions and blocks refer to exist, and the predecessors of a block
    are the ones that branch to it. *)
Record well_formed (function : Function) (entry : Block) : Prop := {
  entry_first : function_blocks function !! 0 = Some entry;
  entry_exists : is_Some (blocks context !! entry);
  edge_exists a b : edge a b -> is_Some (blocks context !! b);
  preds_edges b content p : blocks context !! b = Some content -> p ∈ preds content <-> edge p b;
}.

Lemma successors_Ok b : is_Some (blocks context !! b) -> exists l, successors context b = Ok l /\ forall x, x ∈ l <-> edge b x.
Proof.
  intros [content Hc]. unfold successors. rewrite Hc. cbn. eexists. split; [done|]. intros x. split.
  - intros Hx. eexists. split; [unfold successors; by rewrite Hc|done].
  - intros (l & Hl & Hx). unfold successors in Hl. rewrite Hc in Hl. cbn in Hl. by injection Hl as <-.
Qed.

(** ** Depth-first search *)

(** The numbering is the one of the list, and what is numbered has been visited. *)
Record dfs_ok (s : DfsState) : Prop := {
  dfs_nodup : NoDup (po_to_block (res s));
  dfs_number b i : block_to_po (res s) !! b = Some i <-> po_to_block (res s) !! i = Some b;
  dfs_counter : counter s = length (po_to_block (res s));
  dfs_visited b : b ∈ po_to_block (res s) -> b ∈ on_stack s;
  dfs_exists : on_stack s ⊆ dom (blocks context);
}.

(** A search from the state [s] to [s'] that numbers the blocks [m]: each of them is a
    root or has a predecessor that is numbered later. *)
Record searched (roots : Block -> Prop) (s s' : DfsState) (m : list Block) : Prop := {
  searched_ok : dfs_ok s';
  searched_list : po_to_block (res s') = po_to_block (res s) ++ m;
  searched_stack b : b ∈ on_stack s' <-> b ∈ on_stack s \/ b ∈ m;
  searched_new b : b ∈ m -> b ∉ on_stack s;
  searched_edges b c : b ∈ m -> edge b c -> c ∈ on_stack s';
  searched_roots i b : m !! i = Some b -> roots b \/ exists j p, i < j /\ m !! j = Some p /\ edge p b;
}.

Lemma searched_nil roots s : dfs_ok s -> searched roots s s [].
Proof.
  intros Hs. split; [done|by rewrite app_nil_r| |by intros b ?%elem_of_nil|by intros b c ?%elem_of_nil|done].
  intros b. split; [by left|]. by intros [?|?%elem_of_nil].
Qed.

Lemma searched_trans (roots : Block -> Prop) s s1 s2 m1 m2 :
  searched roots s s1 m1 -> searched roots s1 s2 m2 -> searched roots s s2 (m1 ++ m2).
Proof.
  intros [O1 L1 S1 N1 E1 R1] [O2 L2 S2 N2 E2 R2]. split; [done|by rewrite L2, L1, app_assoc| | | |].
  - intros b. rewrite S2, S1, elem_of_app. tauto.
  - intros b [Hb|Hb]%elem_of_app; [by apply N1|]. intros Hs. apply (N2 b Hb), S1. by left.
  - intros b c [Hb|Hb]%elem_of_app Hc; [|by eapply E2]. apply S2. left. by eapply E1.
  - intros i b Hi. apply lookup_app_Some in Hi as [Hi|[Hle Hi]].
    + apply R1 in Hi as [?|(j & p & Hj & Hp & He)]; [by left|right]. exists j, p. split; [done|]. split; [by apply lookup_app_l_Some|done].
    + apply R2 in Hi as [?|(j & p & Hj & Hp & He)]; [by left|right]. exists (length m1 + j), p. split; [lia|]. split; [|done].
      rewrite lookup_app_r by lia. by rewrite Nat.add_comm, Nat.add_sub.
Qed.

Lemma searched_weaken (roots roots' : Block -> Prop) s s' m :
  searched roots s s' m -> (forall b, roots b -> roots' b) -> searched roots' s s' m.
Proof.
  intros [O L S N E R] Hr. split; [done..|]. intros i b Hi. destruct (R i b Hi) as [?|?]; [left; by apply Hr|by right].
Qed.

(** The block itself is numbered after what is searched from its successors. *)
Lemma searched_finish (succs : list Block) n s s' m :
  dfs_ok s -> n ∉ on_stack s -> is_Some (blocks context !! n) -> (forall x, x ∈ succs <-> edge n x) ->
  searched (fun b => b ∈ succs) (mkDfs (res s) ({[n]} ∪ on_stack s) (counter s)) s' m ->
  (forall x, x ∈ succs -> x ∈ on_stack s') ->
  searched (eq n) s (mkDfs (mkPostOrder (<[n := counter s']> (block_to_po (res s'))) (po_to_block (res s') ++ [n]))
    (on_stack s') (counter s' + 1)) (m ++ [n]).
Proof.
  intros Hs Hn Hex Hsucc [O L S N E R] Hall. cbn in *.
  assert (n ∉ po_to_block (res s')) as Hnew.
  { rewrite L. intros [Hin|Hin]%elem_of_app; [by apply Hn, (dfs_visited _ Hs)|]. apply (N n Hin). set_solver. }
  split; cbn.
  - destruct O as [O1 O2 O3 O4 O5]. split; cbn; [| | | |done].
    + apply NoDup_app. split; [done|]. split; [by intros x Hx ->%list_elem_of_singleton|apply NoDup_singleton].
    + intros b i. destruct (decide (b = n)) as [->|Hb].
      * rewrite lookup_insert_eq, O3. split; [intros [= <-]; by apply list_lookup_middle|].
        intros [Hi|[Hle Hi]]%lookup_app_Some; [by apply list_elem_of_lookup_2 in Hi|].
        apply list_lookup_singleton_Some in Hi as [Hi _]. f_equal. lia.
      * rewrite lookup_insert_ne, O2 by done. split; [intros Hi; by apply lookup_app_l_Some|].
        intros [Hi|[Hle Hi]]%lookup_app_Some; [done|]. by apply list_lookup_singleton_Some in Hi as [_ ->].
    + rewrite length_app, O3. done.
    + intros b [Hb| ->%list_elem_of_singleton]%elem_of_app; [by apply O4|]. apply S. set_solver.
  - by rewrite L, app_assoc.
  - intros b. rewrite S, elem_of_app, list_elem_of_singleton. set_solver.
  - intros b [Hb| ->%list_elem_of_singleton]%elem_of_app; [|done]. intros Hb'. apply (N b Hb). set_solver.
  - intros b c [Hb| ->%list_elem_of_singleton]%elem_of_app Hc; [by eapply E|]. by apply Hall, Hsucc.
  - intros i b [Hi|[Hle Hi]]%lookup_app_Some.
    + right. destruct (R i b Hi) as [Hb|(j & p & Hj & Hp & He)].
      * exists (length m), n. split; [by apply lookup_lt_Some in Hi|]. split; [by apply list_lookup_middle|by apply Hsucc].
      * exists j, p. split; [done|]. split; [by apply lookup_app_l_Some|done].
    + left. by apply list_lookup_singleton_Some in Hi as [_ ->].
Qed.

Lemma unvisited_less n s :
  n ∉ on_stack s -> is_Some (blocks context !! n) ->
  size (dom (blocks context) ∖ ({[n]} ∪ on_stack s)) < size (dom (blocks context) ∖ on_stack s).
Proof.
  intros Hn Hex. apply subset_size. split; [set_solver|]. intros Hsub.
  assert (n ∈ dom (blocks context) ∖ ({[n]} ∪ on_stack s)); [|set_solver]. apply Hsub. apply elem_of_difference.
  split; [by apply elem_of_dom|done].
Qed.

Context (edge_exists' : forall a b, edge a b -> is_Some (blocks context !! b)).

Lemma post_order_spec fuel n s :
  dfs_ok s -> is_Some (blocks context !! n) -> size (dom (blocks context) ∖ on_stack s) < fuel ->
  exists s' m, post_order context fuel n s = Ok s' /\ searched (eq n) s s' m /\ n ∈ on_stack s' /\
    (n ∉ on_stack s -> last m = Some n).
Proof.
  revert n s. induction fuel as [|fuel IH]; intros n s Hs Hex Hf; [lia|]. cbn [post_order].
  case_bool_decide as Hn; [by exists s, []; split_and!; [done|apply searched_nil| |]|].
  destruct (successors_Ok n Hex) as (succs & -> & Hsucc). next_step.
  pose proof (unvisited_less n s Hn Hex) as Hless.
  set (s1 := mkDfs (res s) ({[n]} ∪ on_stack s) (counter s)).
  assert (dfs_ok s1) as Hs1.
  { destruct Hs as [O1 O2 O3 O4 O5]. split; cbn; [done..| |].
    - intros b Hb. apply elem_of_union. right. by apply O4.
    - apply union_least; [|done]. intros x ->%elem_of_singleton. by apply elem_of_dom. }
  assert (forall l s0, dfs_ok s0 -> (forall x, x ∈ l -> edge n x) -> size (dom (blocks context) ∖ on_stack s0) < fuel ->
    exists s' m, (fix visit (l : list Block) (s : DfsState) : Result DfsState :=
               match l with
               | [] => Ok s
               | n_succ :: l' => s ← post_order context fuel n_succ s; visit l' s
               end) l s0 = Ok s' /\ searched (fun b => b ∈ l) s0 s' m /\ forall x, x ∈ l -> x ∈ on_stack s') as Hvisit.
  { induction l as [|x l IHl]; intros s0 Hs0 Hl Hf0; [by exists s0, []; split_and!; [done|apply searched_nil|intros ? ?%elem_of_nil]|].
    destruct (IH x s0 Hs0) as (s2 & m1 & -> & Hm1 & Hx & _); [eapply edge_exists', Hl; by left|done|]. next_step.
    destruct (IHl s2) as (s3 & m2 & -> & Hm2 & Hall); [by apply Hm1|by intros y Hy; apply Hl; right| |].
    { eapply Nat.le_lt_trans; [|exact Hf0]. apply subseteq_size. intros y [? Hy]%elem_of_difference.
      apply elem_of_difference. split; [done|]. intros ?. apply Hy, (searched_stack _ _ _ _ Hm1). by left. }
    exists s3, (m1 ++ m2). split; [done|]. split.
    - eapply searched_trans; (eapply searched_weaken; [done|]); [intros b <-; by left|intros b Hb; by right].
    - intros y [->|Hy]%elem_of_cons; [|by apply Hall]. apply (searched_stack _ _ _ _ Hm2). by left. }
  destruct (Hvisit succs s1 Hs1) as (s2 & m & -> & Hm & Hall); [by intros x Hx; apply Hsucc|cbn; lia|]. next_step.
  eexists _, (m ++ [n]). split; [done|]. split; [by eapply searched_finish|]. split; [|by rewrite last_snoc].
  cbn. apply (searched_stack _ _ _ _ Hm). left. set_solver.
Qed.
End cfg.

(** ** The post-order of a function *)

Section post_order.
Context (context : Context) (function : Function) (entry : Block).

Definition reachable (b : Block) : Prop := exists l, path context entry l b.

(** [a] strictly precedes [b] in the post-order. *)
Definition po_lt (po : PostOrder) (a b : Block) : Prop :=
  exists i j, block_to_po po !! a = Some i /\ block_to_po po !! b = Some j /\ i < j.

Record post_order_ok (po : PostOrder) : Prop := {
  po_nodup : NoDup (po_to_block po);
  po_number b i : block_to_po po !! b = Some i <-> po_to_block po !! i = Some b;
  po_reachable b : b ∈ po_to_block po <-> reachable b;
  po_last : last (po_to_block po) = Some entry;
  po_later b : b ∈ po_to_block po -> b <> entry -> exists p, edge context p b /\ po_lt po b p;
}.

(** Every block of a search leads back to its root. *)
Lemma search_reachable (m : list Block) i b :
  (forall i b, m !! i = Some b -> entry = b \/ exists j p, i < j /\ m !! j = Some p /\ edge context p b) ->
  m !! i = Some b -> reachable b.
Proof.
  intros Hr. remember (length m - i) as k eqn:Hk. revert i b Hk. induction k as [k IH] using lt_wf_ind. intros i b -> Hi.
  destruct (Hr i b Hi) as [<-|(j & p & Hj & Hp & He)]; [by exists [entry]; constructor|].
  apply lookup_lt_Some in Hi as Hlt. destruct (IH (length m - j) ltac:(lia) j p eq_refl Hp) as [l Hl].
  exists (l ++ [b]). by econstructor.
Qed.

Lemma compute_post_order_Ok :
  well_formed context function entry -> exists po, compute_post_order context function = Ok po /\ post_order_ok po.
Proof.
  intros [Hfirst Hentry Hedges _]. unfold compute_post_order, get_entry_block. rewrite Hfirst. cbn [index mbind Result_bind].
  destruct (post_order_spec context Hedges (S (size (blocks context))) entry (mkDfs (mkPostOrder ∅ []) ∅ 0)) as (s & m & -> & Hm & _ & Hl).
  - split; cbn; [constructor|by intros b i; rewrite lookup_empty, lookup_nil|done|by intros b ?%elem_of_nil|set_solver].
  - done.
  - cbn. rewrite difference_empty, size_dom. lia.
  - next_step. destruct Hm as [[O1 O2 O3 O4 O5] L S N E R]. cbn in L. rewrite L in *. cbn in Hl.
    rewrite Hl by set_solver. cbn [unwrap mbind Result_bind]. rewrite bool_decide_true by done. exists (res s). split; [done|].
    split; rewrite ?L; [done|done| |by apply Hl; set_solver|].
    + intros b. split; [intros [i Hi]%list_elem_of_lookup; by eapply search_reachable|]. intros [l Hp].
      induction Hp as [|l a b Hp IH He]; [apply list_elem_of_lookup; rewrite last_lookup in Hl; eexists; apply Hl; set_solver|].
      apply E in He; [|done]. apply S in He as [?|?]; [set_solver|done].
    + intros b [i Hi]%list_elem_of_lookup Hb. destruct (R i b Hi) as [<-|(j & p & Hj & Hp & He)]; [done|].
      exists p. split; [done|]. exists i, j. by rewrite !O2.
Qed.

(** The post-order of a well-formed control-flow graph: the search ends, the entry
    is the last block, exactly the reachable blocks are numbered, once and in the order
    of the list, and every other block has a predecessor that is later in the order. *)
Theorem compute_post_order_correct :
  well_formed context function entry -> exists po, compute_post_order context function = Ok po /\
    NoDup (po_to_block po) /\ last (po_to_block po) = Some entry /\
    (forall b i, block_to_po po !! b = Some i <-> po_to_block po !! i = Some b) /\
    (forall b, b ∈ po_to_block po <-> reachable b) /\
    (forall b, reachable b -> b <> entry -> exists p, edge context p b /\ po_lt po b p).
Proof.
  intros (po & Hpo & [H1 H2 H3 H4 H5])%compute_post_order_Ok. exists po. split_and!; [done..|].
  intros b Hb. apply H5. by apply H3.
Qed.
End post_order.

(** * The ancestors of a partial dominator tree

    During the algorithm a block has a parent or not yet; the chain of its parents ends
    at the entry.  [climb] and [intersect] find the nearest common ancestor. *)

Section tree.
Context (context : Context) (function : Function) (entry : Block) (po : PostOrder).
Context (Hwf : well_formed context function entry) (Hpo : post_order_ok context entry po).

Abbreviation edge := (edge context).
Abbreviation reachable := (reachable context entry).

(** ** The numbers of blocks *)

Definition num (b : Block) : nat := default 0 (block_to_po po !! b).
Definition size_of : nat := length (po_to_block po).

Lemma po_num b : reachable b -> block_to_po po !! b = Some (num b) /\ num b < size_of.
Proof.
  intros Hb. apply (po_reachable _ _ _ Hpo), list_elem_of_lookup in Hb as [i Hi]. unfold num.
  rewrite (proj2 (po_number _ _ _ Hpo b i) Hi). split; [done|]. by eapply lookup_lt_Some.
Qed.

Lemma po_some b : is_Some (block_to_po po !! b) <-> reachable b.
Proof.
  rewrite <- (po_reachable _ _ _ Hpo), list_elem_of_lookup. split; intros [i Hi]; exists i; by apply (po_number _ _ _ Hpo).
Qed.

Lemma num_inj a b : reachable a -> reachable b -> num a = num b -> a = b.
Proof.
  intros [Ha _]%po_num [Hb _]%po_num Heq. rewrite Heq in Ha.
  apply (po_number _ _ _ Hpo) in Ha, Hb. congruence.
Qed.

Lemma po_lt_num a b : po_lt po a b <-> reachable a /\ reachable b /\ num a < num b.
Proof.
  split.
  - intros (i & j & Hi & Hj & Hlt). split; [apply po_some; eauto|]. split; [apply po_some; eauto|]. unfold num. by rewrite Hi, Hj.
  - intros ([Ha _]%po_num & [Hb _]%po_num & Hlt). by exists (num a), (num b).
Qed.

Lemma entry_reachable : reachable entry.
Proof. exists [entry]. constructor. Qed.

Lemma edge_reachable a b : reachable a -> edge a b -> reachable b.
Proof. intros [l Hl] He. exists (l ++ [b]). by econstructor. Qed.

(** ** Partial trees *)

Definition par (t : DomTree) (b : Block) : option Block := node ← values t !! b; parent node.
Definition processed (t : DomTree) (b : Block) : Prop := is_Some (par t b).

Record tree_ok (t : DomTree) : Prop := {
  tree_domain b : is_Some (values t !! b) <-> reachable b;
  tree_entry : par t entry = Some entry;
  tree_parent b p : b <> entry -> par t b = Some p -> num b < num p /\ reachable p /\ processed t p;
}.

(** [a] is [b] or an ancestor of [b]. *)
Inductive anc (t : DomTree) : Block -> Block -> Prop :=
  | anc_refl b : anc t b b
  | anc_up b p a : b <> entry -> par t b = Some p -> anc t p a -> anc t b a.

Lemma anc_trans t a b c : anc t a b -> anc t b c -> anc t a c.
Proof. induction 1; [done|]. intros Hc. econstructor; [done|done|auto]. Qed.

Lemma processed_reachable t b : tree_ok t -> processed t b -> reachable b.
Proof.
  intros Ht [p Hp]. apply (tree_domain _ Ht). unfold par in Hp. destruct (values t !! b); [by eexists|done].
Qed.

Lemma anc_num t a b : tree_ok t -> anc t a b -> a = b \/ num a < num b.
Proof.
  intros Ht. induction 1 as [b|b p a Hb Hp _ IH]; [by left|right].
  apply (tree_parent _ Ht) in Hp as (Hlt & _); [|done]. destruct IH as [->|?]; lia.
Qed.

Lemma anc_processed t a b : tree_ok t -> processed t a -> anc t a b -> processed t b.
Proof.
  intros Ht Ha Hanc. revert Ha. induction Hanc as [b|b p a Hb Hp _ IH]; intros Ha; [done|].
  apply IH. by apply (tree_parent _ Ht b).
Qed.

Lemma anc_entry_inv t a : anc t entry a -> a = entry.
Proof. by inversion 1. Qed.

Lemma anc_up_inv t b p a : b <> a -> par t b = Some p -> anc t b a -> anc t p a.
Proof. intros Hb Hp. inversion 1 as [|? q ? Hne Hq Ha]; subst; [done|]. by rewrite Hp in Hq; injection Hq as ->. Qed.

(** The ancestors of a block are a chain. *)
Lemma anc_chain t b a c : tree_ok t -> anc t b a -> anc t b c -> num a <= num c -> anc t a c.
Proof.
  intros Ht. induction 1 as [b|b p a Hb Hp Ha IH]; intros Hc Hle; [done|]. apply IH; [|done].
  eapply anc_up_inv; [|exact Hp|done]. intros ->. apply (anc_num t) in Ha; [|done].
  apply (tree_parent _ Ht) in Hp as (Hlt & _); [|done]. destruct Ha as [->|?]; lia.
Qed.

Lemma anc_entry t b : tree_ok t -> processed t b -> anc t b entry.
Proof.
  intros Ht. remember (size_of - num b) as k eqn:Hk. revert b Hk. induction k as [k IH] using lt_wf_ind. intros b -> Hb.
  destruct (decide (b = entry)) as [->|Hne]; [constructor|]. destruct Hb as [p Hp].
  destruct (tree_parent _ Ht b p Hne Hp) as (Hlt & Hr & Hpp). pose proof (proj2 (po_num p Hr)).
  econstructor; [done|done|]. eapply IH; [|done|done]. lia.
Qed.

Lemma anc_cases t b a : tree_ok t -> processed t b -> anc t b a \/ ~ anc t b a.
Proof.
  intros Ht Hb. pose proof (anc_entry t b Ht Hb) as He. remember entry as e eqn:Hee in He.
  induction He as [b|b p e Hne Hp _ IH]; subst.
  - destruct (decide (a = entry)) as [->|Hn]; [left; constructor|right]. by intros ?%anc_entry_inv.
  - destruct (decide (b = a)) as [->|Hn]; [left; constructor|].
    destruct IH as [IH|IH]; [by apply (tree_parent _ Ht b)|done|left; by econstructor|right].
    intros ?. apply IH. by eapply anc_up_inv.
Qed.

(** ** Climbing *)

Lemma par_node t b p : par t b = Some p -> exists node, values t !! b = Some node /\ parent node = Some p.
Proof. unfold par. destruct (values t !! b) as [node|]; [|done]. by exists node. Qed.

Lemma climb_Ok t fuel f limit :
  tree_ok t -> processed t f -> reachable limit -> size_of < fuel + num f ->
  exists g, climb po fuel t f limit = Ok g /\ anc t f g /\ num limit <= num g /\
    forall a, anc t f a -> num limit <= num a -> anc t g a.
Proof.
  intros Ht. revert f. induction fuel as [|fuel IH]; intros f Hf Hl Hfuel.
  { pose proof (proj2 (po_num f (processed_reachable _ _ Ht Hf))). lia. }
  pose proof (processed_reachable _ _ Ht Hf) as Hr. cbn [climb]. rewrite (proj1 (po_num f Hr)), (proj1 (po_num limit Hl)).
  cbn [index mbind Result_bind]. destruct (Nat.ltb_spec (num f) (num limit)) as [Hlt|Hge].
  - assert (f <> entry) as Hne.
    { intros ->. pose proof (anc_num t limit limit Ht) as _. pose proof (po_last _ _ _ Hpo) as Hlast.
      rewrite last_lookup in Hlast. apply (po_number _ _ _ Hpo) in Hlast. unfold num in Hlt at 1. rewrite Hlast in Hlt. cbn in Hlt.
      pose proof (proj2 (po_num limit Hl)). unfold size_of in *. lia. }
    destruct Hf as [p Hp]. destruct (par_node t f p Hp) as (node & -> & Hn). cbn [index mbind Result_bind]. rewrite Hn.
    cbn [unwrap mbind Result_bind]. destruct (tree_parent _ Ht f p Hne Hp) as (Hlt' & _ & Hpp).
    destruct (IH p Hpp Hl) as (g & -> & Hg & Hle & Hall); [lia|]. exists g. split; [done|].
    split; [by econstructor|]. split; [done|]. intros a Ha Hna. apply Hall; [|done].
    eapply anc_up_inv; [|done|done]. intros ->. lia.
  - exists f. split; [done|]. split; [constructor|]. by split.
Qed.

(** ** The nearest common ancestor *)

(** [z] is the nearest common ancestor of the blocks of [P]. *)
Definition nearest (t : DomTree) (P : Block -> Prop) (z : Block) : Prop :=
  (forall p, P p -> anc t p z) /\ forall a, (forall p, P p -> anc t p a) -> anc t z a.

Lemma nearest_iff t (P Q : Block -> Prop) z : (forall p, P p <-> Q p) -> nearest t P z -> nearest t Q z.
Proof. intros HPQ [H1 H2]. split; [intros p Hp; by apply H1, HPQ|]. intros a Ha. apply H2. intros p Hp. by apply Ha, HPQ. Qed.

Lemma intersect_loop_Ok t fuel f1 f2 :
  tree_ok t -> processed t f1 -> processed t f2 -> (f1 = f2 /\ 1 <= fuel) \/ size_of + 1 <= fuel + num f2 ->
  exists z, intersect_loop po fuel t f1 f2 = Ok z /\ nearest t (fun p => p = f1 \/ p = f2) z.
Proof.
  intros Ht. revert f1 f2. induction fuel as [|fuel IH]; intros f1 f2 H1 H2 Hf.
  { pose proof (proj2 (po_num f2 (processed_reachable _ _ Ht H2))). lia. }
  cbn [intersect_loop]. case_bool_decide as Heq.
  { subst f2. exists f1. split; [done|]. split; [intros p [->| ->]; constructor|]. intros a Ha. apply Ha. by left. }
  destruct Hf as [[? _]|Hf]; [done|]. pose proof (processed_reachable _ _ Ht H2) as Hr2.
  destruct (climb_Ok t (climb_fuel po) f1 f2 Ht H1 Hr2) as (g1 & -> & Hg1 & Hle1 & Hall1); [unfold climb_fuel; fold size_of; lia|].
  next_step. pose proof (anc_processed _ _ _ Ht H1 Hg1) as Hp1. pose proof (processed_reachable _ _ Ht Hp1) as Hr1.
  destruct (climb_Ok t (climb_fuel po) f2 g1 Ht H2 Hr1) as (g2 & -> & Hg2 & Hle2 & Hall2); [unfold climb_fuel; fold size_of; lia|].
  next_step. pose proof (anc_processed _ _ _ Ht H2 Hg2) as Hp2. pose proof (processed_reachable _ _ Ht Hp2) as Hr2'.
  pose proof (proj2 (po_num f2 Hr2)). destruct (IH g1 g2 Hp1 Hp2) as (z & -> & Hz1 & Hz2).
  { destruct (decide (g1 = g2)) as [?|Hne]; [left; split; [done|lia]|right].
    assert (num g1 <> num g2) by (intros ?; by apply Hne, num_inj). lia. }
  exists z. split; [done|]. split.
  - intros p [->| ->]; [apply (anc_trans t _ g1)|apply (anc_trans t _ g2)]; auto.
  - intros a Ha. assert (anc t f1 a) as Ha1 by auto. assert (anc t f2 a) as Ha2 by auto.
    assert (anc t g1 a) as Hb1. { apply Hall1; [done|]. apply (anc_num t) in Ha2 as [->|?]; [done|lia|done]. }
    apply Hz2. intros p [->| ->]; [done|]. apply Hall2; [done|]. apply (anc_num t) in Hb1 as [->|?]; [done|lia|done].
Qed.

Lemma intersect_Ok t f1 f2 :
  tree_ok t -> processed t f1 -> processed t f2 ->
  exists z, intersect po t f1 f2 = Ok z /\ nearest t (fun p => p = f1 \/ p = f2) z.
Proof. intros Ht H1 H2. apply intersect_loop_Ok; [done..|]. right. unfold size_of. lia. Qed.
End tree.
