(* ===== verification/IrDomPass.v ===== *)
(** * A round of the dominator algorithm

    The block a round computes is the nearest common ancestor of the predecessors that
    have been processed; how the ancestors change when the round moves a block below it. *)

From S2P Require Import Prelude IrDominator IrDomTree.

Section step.
Context (context : Context) (function : Function) (entry : Block) (po : PostOrder).
Context (Hwf : well_formed context function entry) (Hpo : post_order_ok context entry po).

Abbreviation edge := (edge context).
Abbreviation reachable := (reachable context entry).
Abbreviation num := (num po).
Abbreviation anc := (anc entry).
Abbreviation tree_ok := (tree_ok context entry po).
Abbreviation nearest := (nearest entry).

(** ** The predecessor that is picked *)

(** The predecessors of a block, in the order of the set *)
Definition preds_of (b : Block) : list Block := from_option preds [] (blocks context !! b).
Definition picked (b : Block) : option Block := find_processed po (num b) (preds_of b).

Lemma reachable_exists b : reachable b -> is_Some (blocks context !! b).
Proof. intros [l [|l' p c Hp He]]; [by apply Hwf|by eapply Hwf]. Qed.

Lemma elem_preds_of b p : reachable b -> p ∈ preds_of b <-> edge p b.
Proof. intros [content Hc]%reachable_exists. unfold preds_of. rewrite Hc. cbn. by apply Hwf. Qed.

Lemma find_processed_Some k l q : find_processed po k l = Some q -> q ∈ l /\ reachable q /\ k < num q.
Proof.
  induction l as [|p l IH]; [done|]. cbn [find_processed]. destruct (block_to_po po !! p) as [i|] eqn:Hp.
  - destruct (Nat.ltb_spec k i) as [Hlt|_].
    + intros [= <-]. split; [by left|]. split; [by eapply po_some; eauto|]. unfold IrDomTree.num. by rewrite Hp.
    + intros (? & ?)%IH. split; [by right|done].
  - intros (? & ?)%IH. split; [by right|done].
Qed.

Lemma find_processed_exists k l p : p ∈ l -> reachable p -> k < num p -> is_Some (find_processed po k l).
Proof.
  intros Hl Hr Hk. induction l as [|x l IH]; [by apply elem_of_nil in Hl|]. cbn [find_processed].
  apply elem_of_cons in Hl as [<-|Hl].
  - rewrite (proj1 (po_num _ _ _ Hpo p Hr)). destruct (Nat.ltb_spec k (num p)); [by eexists|lia].
  - destruct (block_to_po po !! x) as [i|]; [|auto]. destruct (k <? i); [by eexists|auto].
Qed.

Lemma picked_Ok b : reachable b -> b <> entry -> exists q, picked b = Some q /\ edge q b /\ reachable q /\ num b < num q.
Proof.
  intros Hb Hne. destruct (po_later _ _ _ Hpo b) as (p & He & Hlt); [by apply Hpo|done|].
  apply (po_lt_num _ _ _ Hpo) in Hlt as (_ & Hr & Hlt).
  destruct (find_processed_exists (num b) (preds_of b) p) as [q Hq]; [by apply elem_preds_of|done|done|].
  exists q. split; [done|]. apply find_processed_Some in Hq as (Hin & Hq & Hk). split; [by apply elem_preds_of|done].
Qed.

(** ** The new immediate dominator *)

Lemma intersect_preds_Ok t q l z (P : Block -> Prop) :
  tree_ok t -> processed t z -> nearest t P z ->
  exists z', intersect_preds po t q l z = Ok z' /\ nearest t (fun p => P p \/ (p ∈ l /\ p <> q /\ processed t p)) z'.
Proof.
  intros Ht. revert z P. induction l as [|p l IH]; intros z P Hz HP.
  { exists z. split; [done|]. eapply nearest_iff; [|done]. intros p. rewrite elem_of_nil. tauto. }
  cbn [intersect_preds]. destruct (decide (p <> q /\ processed t p)) as [[Hne Hp]|Hskip].
  - pose proof (processed_reachable _ _ _ _ _ Ht Hp) as Hr. rewrite (bool_decide_true _ Hne), (bool_decide_true _ (proj2 (po_some _ _ _ Hpo p) Hr)).
    destruct Hp as [y Hy]. destruct (par_node t p y Hy) as (node & Hnode & Hn). rewrite Hnode. cbn [andb index mbind Result_bind]. rewrite Hn.
    assert (processed t p) as Hp by by eexists.
    destruct (intersect_Ok _ _ _ Hpo t p z Ht Hp Hz) as (w & -> & Hw1 & Hw2). next_step.
    destruct (IH w (fun x => P x \/ x = p)) as (z' & -> & Hz').
    + eapply anc_processed; [done|exact Hz|]. apply Hw1. by right.
    + split; [intros x [Hx| ->]; [apply (anc_trans _ _ _ z); [by apply HP|]|]; apply Hw1; tauto|].
      intros a Ha. apply Hw2. intros x [->| ->]; [apply Ha; by right|]. apply HP. intros y' Hy'. apply Ha. by left.
    + exists z'. split; [done|]. eapply nearest_iff; [|done]. intros x. rewrite elem_of_cons. naive_solver.
  - destruct (IH z P Hz HP) as (z' & Heq & Hz'). exists z'. split.
    + destruct (bool_decide (p <> q) && bool_decide (is_Some (block_to_po po !! p))) eqn:Hc; [|done].
      apply andb_true_iff in Hc as [Hc1%bool_decide_eq_true Hc2%bool_decide_eq_true].
      apply (po_some _ _ _ Hpo), (tree_domain _ _ _ _ Ht) in Hc2 as [node Hnode]. rewrite Hnode. cbn [index mbind Result_bind].
      destruct (parent node) as [y|] eqn:Hy; [|done]. destruct Hskip. split; [done|]. exists y. unfold par. by rewrite Hnode.
    + eapply nearest_iff; [|done]. intros x. rewrite elem_of_cons. naive_solver.
Qed.

(** The predecessors that count *)
Definition pred_of (t : DomTree) (b p : Block) : Prop := edge p b /\ processed t p.

Lemma new_idom_Ok t b q :
  tree_ok t -> reachable b -> picked b = Some q -> processed t q ->
  exists z, new_idom context po t b = Ok z /\ nearest t (pred_of t b) z.
Proof.
  intros Ht Hb Hq Hproc. unfold new_idom, pred_iter. destruct (reachable_exists b Hb) as [content Hc]. rewrite Hc.
  rewrite (proj1 (po_num _ _ _ Hpo b Hb)). cbn [index mbind Result_bind].
  assert (preds content = preds_of b) as -> by (unfold preds_of; by rewrite Hc).
  fold (picked b). rewrite Hq. cbn [unwrap mbind Result_bind].
  destruct (intersect_preds_Ok t q (preds_of b) q (eq q)) as (z & -> & Hz); [done|done| |].
  { split; [intros p <-; constructor|]. intros a Ha. by apply Ha. }
  exists z. split; [done|]. eapply nearest_iff; [|done]. intros p. unfold pred_of. rewrite elem_preds_of by done.
  apply find_processed_Some in Hq as (Hin%elem_preds_of & _ & _); [|done].
  destruct (decide (q = p)) as [<-|]; naive_solver.
Qed.

(** ** Moving a block below another *)

Record moved (t : DomTree) (x z : Block) (t' : DomTree) : Prop := {
  moved_domain b : is_Some (values t' !! b) <-> is_Some (values t !! b);
  moved_here : par t' x = Some z;
  moved_other b : b <> x -> par t' b = par t b;
}.

Lemma set_parent_moved t x z :
  tree_ok t -> reachable x -> exists t', set_parent x (Some z) t = Ok t' /\ keys t' = keys t /\ moved t x z t'.
Proof.
  intros Ht [node Hn]%(tree_domain _ _ _ _ Ht). unfold set_parent. rewrite Hn. cbn. eexists. split; [done|]. split; [done|]. split; cbn.
  - intros b. destruct (decide (b = x)) as [->|Hne]; [rewrite lookup_insert_eq, Hn; by split; eexists|by rewrite lookup_insert_ne].
  - unfold par. cbn. by rewrite lookup_insert_eq.
  - intros b Hne. unfold par. cbn. by rewrite lookup_insert_ne.
Qed.

Section moved.
Context (t t' : DomTree) (x z : Block) (Ht : tree_ok t) (Hm : moved t x z t').
Context (Hx : x <> entry) (Hz : processed t z) (Hlt : num x < num z).

Lemma moved_processed b : processed t' b <-> b = x \/ processed t b.
Proof.
  unfold processed. destruct (decide (b = x)) as [->|Hne].
  - rewrite (moved_here _ _ _ _ Hm). split; [by left|by eexists].
  - rewrite (moved_other _ _ _ _ Hm) by done. tauto.
Qed.

Lemma moved_ok : tree_ok t'.
Proof.
  split.
  - intros b. rewrite (moved_domain _ _ _ _ Hm). apply Ht.
  - rewrite (moved_other _ _ _ _ Hm); [apply Ht|done].
  - intros b p Hb. destruct (decide (b = x)) as [->|Hne].
    + rewrite (moved_here _ _ _ _ Hm). intros [= <-]. split; [done|]. split; [by eapply processed_reachable|]. apply moved_processed. by right.
    + rewrite (moved_other _ _ _ _ Hm) by done. intros Hp. apply (tree_parent _ _ _ _ Ht) in Hp as (? & ? & ?); [|done].
      split; [done|]. split; [done|]. apply moved_processed. by right.
Qed.

(** The ancestors of a block that is not below [x] stay. *)
Lemma moved_keeps b a : anc t b a -> ~ anc t b x -> anc t' b a.
Proof.
  induction 1 as [b|b p a Hb Hp _ IH]; intros Hn; [constructor|]. apply (anc_up _ _ _ p); [done| |].
  - rewrite (moved_other _ _ _ _ Hm); [done|]. intros ->. apply Hn. constructor.
  - apply IH. intros ?. apply Hn. by econstructor.
Qed.

(** So do those that are not above [x]. *)
Lemma moved_low b a : anc t b a -> num a <= num x -> anc t' b a.
Proof.
  induction 1 as [b|b p a Hb Hp Ha IH]; intros Hle; [constructor|]. apply (anc_up _ _ _ p); [done| |by apply IH].
  rewrite (moved_other _ _ _ _ Hm); [done|]. intros ->. apply (anc_num _ _ _ _ _ _ Ht) in Ha.
  apply (tree_parent _ _ _ _ Ht) in Hp as (? & _); [|done]. destruct Ha as [->|?]; lia.
Qed.

Lemma not_below b : num x < num b -> ~ anc t b x.
Proof. intros Hb [->|?]%(anc_num _ _ _ _ _ _ Ht); lia. Qed.

Lemma moved_high b a : num x < num b -> anc t b a -> anc t' b a.
Proof. intros Hb Ha. apply moved_keeps; [done|by apply not_below]. Qed.

Lemma moved_high_inv b a : num x < num b -> anc t' b a -> anc t b a.
Proof.
  intros Hb Ha. induction Ha as [b|b p a Hne Hp _ IH]; [constructor|]. rewrite (moved_other _ _ _ _ Hm) in Hp by (intros ->; lia).
  apply (anc_up _ _ _ p); [done|done|]. apply IH. apply (tree_parent _ _ _ _ Ht) in Hp as (? & _); [lia|done].
Qed.

Lemma moved_below a : anc t z a -> anc t' x a.
Proof. intros Ha. apply (anc_up _ _ _ z); [done|apply Hm|by apply moved_high]. Qed.

(** When [z] is above the old parent of [x], the move only removes ancestors. *)
Lemma moved_shrinks b a :
  (forall y, par t x = Some y -> anc t y z) -> processed t b -> anc t' b a -> anc t b a.
Proof.
  intros Hold Hb Ha. induction Ha as [b|b p a Hne Hp Ha IH]; [constructor|]. destruct (decide (b = x)) as [->|Hbx].
  - rewrite (moved_here _ _ _ _ Hm) in Hp. injection Hp as <-. destruct Hb as [y Hy].
    apply (anc_up _ _ _ y); [done|done|]. apply (anc_trans _ _ _ z); [by apply Hold|]. by apply moved_high_inv.
  - rewrite (moved_other _ _ _ _ Hm) in Hp by done. apply (anc_up _ _ _ p); [done|done|]. apply IH.
    by apply (tree_parent _ _ _ _ Ht b).
Qed.
End moved.
End step.

(** * The passes of the dominator algorithm

    What holds of the tree during a pass over the blocks in reverse post-order: every
    dominator of a processed block is one of its ancestors, a move only removes
    ancestors, and so the passes end. *)

Section pass.
Context (context : Context) (function : Function) (entry : Block) (po : PostOrder).
Context (Hwf : well_formed context function entry) (Hpo : post_order_ok context entry po).

Abbreviation edge := (edge context).
Abbreviation path := (path context).
Abbreviation reachable := (reachable context entry).
Abbreviation num := (num po).
Abbreviation anc := (anc entry).
Abbreviation tree_ok := (tree_ok context entry po).
Abbreviation nearest := (nearest entry).
Abbreviation picked := (picked context po).
Abbreviation pred_of := (pred_of context).

(** [a] dominates [b]: it is on every path from the entry to [b]. *)
Definition dom (a b : Block) : Prop := forall l, path entry l b -> a ∈ l.

Lemma dom_pred a b p : dom a b -> a <> b -> edge p b -> dom a p.
Proof.
  intros Hd Hne He l Hl. assert (a ∈ l ++ [b]) as Hin by (apply Hd; by econstructor).
  apply elem_of_app in Hin as [?| ->%list_elem_of_singleton]; done.
Qed.

(** ** Dominators are ancestors *)

(** A path to [b] from [a] whose other blocks come before [a] *)
Definition low_path (a b : Block) : Prop := exists l, path a l b /\ forall y, y ∈ l -> y = a \/ num y < num a.

Record sound (t : DomTree) : Prop := {
  sound_low b p : b <> entry -> par t b = Some p -> low_path p b;
  sound_dom a b : processed t b -> dom a b -> anc t b a;
}.

Lemma anc_low_path t b a : tree_ok t -> sound t -> anc t b a -> low_path a b.
Proof.
  intros Ht Hs. induction 1 as [b|b p a Hne Hp Ha IH].
  { exists [b]. split; [constructor|]. intros y ->%list_elem_of_singleton. by left. }
  destruct (sound_low _ Hs b p Hne Hp) as (l1 & Hl1 & Hlow1). destruct IH as (l2 & Hl2 & Hlow2).
  destruct (path_app _ _ _ _ _ _ Hl2 Hl1) as (l & Hl & Hin). exists l. split; [done|].
  intros y [Hy|Hy]%Hin; [by apply Hlow2|]. apply (anc_num _ _ _ _ _ _ Ht) in Ha.
  apply Hlow1 in Hy as [->|?]; destruct Ha as [->|?]; auto with lia.
Qed.

(** A dominator of [b] that is above an ancestor of [b] dominates the ancestor. *)
Lemma dom_ancestor t a b x : tree_ok t -> sound t -> anc t b x -> dom a b -> num x < num a -> dom a x.
Proof.
  intros Ht Hs Hx Hd Hlt l Hl. destruct (anc_low_path t b x Ht Hs Hx) as (l' & Hl' & Hlow).
  destruct (path_app _ _ _ _ _ _ Hl Hl') as (l'' & Hl'' & Hin). apply Hd, Hin in Hl'' as [?|Ha]; [done|].
  apply Hlow in Ha as [->|?]; lia.
Qed.

(** A round: [x] moves below the nearest common ancestor of its predecessors. *)
Section round.
Context (t t' : DomTree) (x z q : Block) (Ht : tree_ok t) (Hs : sound t).
Context (Hr : reachable x) (Hx : x <> entry) (Hq : picked x = Some q) (Hproc : processed t q).
Context (Hz : nearest t (pred_of t x) z) (Hm : moved t x z t').

Lemma picked_pred : pred_of t x q /\ num x < num q.
Proof.
  destruct (picked_Ok _ _ _ _ Hwf Hpo x Hr Hx) as (q' & Hq' & He & _ & Hlt). rewrite Hq in Hq'. injection Hq' as <-. by split.
Qed.

Lemma nearest_picked : anc t q z.
Proof. apply Hz, picked_pred. Qed.

Lemma nearest_processed : processed t z.
Proof. eapply anc_processed; [done|exact Hproc|apply nearest_picked]. Qed.

Lemma nearest_later : num x < num z.
Proof. pose proof (proj2 picked_pred). destruct (anc_num _ _ _ _ _ _ Ht nearest_picked) as [<-|?]; lia. Qed.

Lemma round_ok : tree_ok t'.
Proof. eapply moved_ok; eauto using nearest_processed, nearest_later. Qed.

Lemma round_sound : sound t'.
Proof.
  pose proof nearest_processed as Hzp. pose proof nearest_later as Hlt. split.
  - intros b p Hb. destruct (decide (b = x)) as [->|Hne].
    + rewrite (moved_here _ _ _ _ Hm). intros [= <-]. destruct (anc_low_path t q z Ht Hs nearest_picked) as (l & Hl & Hlow).
      exists (l ++ [x]). split; [econstructor; [done|apply picked_pred]|].
      intros y [Hy| ->%list_elem_of_singleton]%elem_of_app; [by apply Hlow|by right].
    + rewrite (moved_other _ _ _ _ Hm) by done. by apply Hs.
  - assert (forall a, dom a x -> anc t' x a) as Hdx.
    { intros a Ha. destruct (decide (a = x)) as [->|Hne]; [constructor|]. eapply moved_below; eauto. apply Hz.
      intros p [He Hp]. apply Hs; [done|]. by eapply dom_pred. }
    intros a b [->|Hb]%(moved_processed _ _ _ _ Hm) Hd; [by apply Hdx|]. pose proof (sound_dom _ Hs a b Hb Hd) as Ha.
    destruct (decide (num a <= num x)) as [Hle|Hgt]; [by eapply moved_low|].
    destruct (anc_cases _ _ _ Hpo t b x Ht Hb) as [Hbx|Hnot]; [|by eapply moved_keeps].
    apply (anc_trans _ _ _ x); [by eapply moved_low|]. apply Hdx. eapply dom_ancestor; [done|done|done|done|lia].
Qed.
End round.

(** ** A measure of the tree *)

Definition weight_of (t : DomTree) (b : Block) : nat := match par t b with Some p => S (num p) | None => 0 end.
Definition weight (t : DomTree) : nat := sum_list_with (weight_of t) (po_to_block po).

Lemma sum_list_bound (f : Block -> nat) k (l : list Block) : (forall b, b ∈ l -> f b <= k) -> sum_list_with f l <= length l * k.
Proof.
  induction l as [|b l IH]; [done|]. intros Hf. cbn. pose proof (Hf b ltac:(by left)).
  assert (sum_list_with f l <= length l * k); [|lia]. apply IH. intros c Hc. apply Hf. by right.
Qed.

Lemma sum_list_less (f g : Block -> nat) x (l : list Block) :
  x ∈ l -> f x < g x -> (forall b, b <> x -> f b = g b) -> sum_list_with f l < sum_list_with g l.
Proof.
  intros Hx Hlt Heq. assert (forall b, f b <= g b) as Hle.
  { intros b. destruct (decide (b = x)) as [->|Hb]; [lia|]. by rewrite Heq. }
  assert (forall l, sum_list_with f l <= sum_list_with g l) as Hsum.
  { clear l Hx. induction l as [|b l IH]; [done|]. cbn. specialize (Hle b). lia. }
  induction l as [|b l IH]; [by apply elem_of_nil in Hx|]. cbn. specialize (Hle b). specialize (Hsum l).
  apply elem_of_cons in Hx as [<-|Hx]; [|specialize (IH Hx)]; lia.
Qed.

Lemma weight_bound t : tree_ok t -> weight t <= length (po_to_block po) * length (po_to_block po).
Proof.
  intros Ht. apply sum_list_bound. intros b Hb. unfold weight_of. destruct (par t b) as [p|] eqn:Hp; [|lia].
  assert (reachable p) as Hr.
  { destruct (decide (b = entry)) as [->|Hne]; [|by apply (tree_parent _ _ _ _ Ht b)].
    rewrite (tree_entry _ _ _ _ Ht) in Hp. injection Hp as <-. apply entry_reachable. }
  apply (po_num _ _ _ Hpo) in Hr as [_ Hr]. unfold size_of in Hr. lia.
Qed.

(** ** Between the passes *)

(** The parent of a block is an ancestor of the predecessor it picks, and no common
    ancestor of its predecessors is nearer than the parent. *)
Record settled (t : DomTree) : Prop := {
  settled_ok : tree_ok t;
  settled_sound : sound t;
  settled_near b y c : b <> entry -> par t b = Some y -> (forall p, pred_of t b p -> anc t p c) -> num y <= num c;
}.

Definition parents_picked (t : DomTree) : Prop :=
  forall b y, b <> entry -> par t b = Some y -> exists q, picked b = Some q /\ anc t q y.

(** The parent of every block is an ancestor of all its predecessors. *)
Definition stable (t : DomTree) (b : Block) : Prop :=
  exists y, par t b = Some y /\ forall p, pred_of t b p -> anc t p y.

(** During a pass that began with [t0], before the blocks [l] *)
Record in_pass (t0 : DomTree) (l : list Block) (t : DomTree) (changed : bool) : Prop := {
  in_settled : settled t;
  in_keys : keys t = keys t0;
  in_done b : reachable b -> b <> entry -> b ∉ l -> exists y q, par t b = Some y /\ picked b = Some q /\ anc t q y;
  in_todo b : b ∈ l -> par t b = par t0 b;
  in_up b y0 : b <> entry -> par t0 b = Some y0 -> exists y, par t b = Some y /\ anc t y0 y;
  in_stable : changed = false -> t = t0 /\ forall b, reachable b -> b <> entry -> b ∉ l -> stable t b;
  in_weight : weight t0 + (if changed then 1 else 0) <= weight t;
}.

(** The blocks that are left in a pass *)
Record rest_of (l : list Block) : Prop := {
  rest_sorted : StronglySorted (fun a b => num b < num a) l;
  rest_blocks b : b ∈ l -> reachable b /\ b <> entry;
  rest_before b x : reachable b -> b ∉ l -> x ∈ l -> num x < num b;
}.

Lemma rest_tail x l : rest_of (x :: l) -> rest_of l /\ forall b, b ∈ l -> num b < num x.
Proof.
  intros [Hs Hb Hbef]. apply StronglySorted_inv in Hs as [Hs Hall]. rewrite Forall_forall in Hall.
  split; [|done]. split; [done|intros b Hin; apply Hb; by right|].
  intros b y Hr Hn Hy. destruct (decide (b = x)) as [->|Hne]; [by apply Hall|].
  apply Hbef; [done| |by right]. by intros [?|?]%elem_of_cons.
Qed.

(** An old ancestor that is no later than a new one is below it. *)
Lemma old_ancestor t0 l t changed w y c :
  tree_ok t0 -> in_pass t0 l t changed -> anc t0 w y -> anc t w c -> num y <= num c -> anc t y c.
Proof.
  intros Ht0 Hin Hy. induction Hy as [b|b p a Hb Hp Ha IH]; intros Hc Hle; [done|]. apply IH; [|done].
  destruct (in_up _ _ _ _ Hin b p Hb Hp) as (p' & Hp' & Hup). apply (anc_trans _ _ _ p'); [done|].
  eapply anc_up_inv; [|exact Hp'|exact Hc]. intros ->. apply (tree_parent _ _ _ _ Ht0) in Hp as (? & _); [|done].
  apply (anc_num _ _ _ _ _ _ Ht0) in Ha as [->|?]; lia.
Qed.
End pass.
