(* ===== verification/IrDomMain.v ===== *)
(** * The dominator algorithm reaches its fixed point

    A round keeps the invariant of the pass, a pass that changes the tree increases its
    measure, and in the tree of a pass without a change the ancestors of a block are its
    dominators. *)

From S2P Require Import Prelude IrDominator IrDomTree IrDomPass.

Section loop.
Context (context : Context) (function : Function) (entry : Block) (po : PostOrder).
Context (Hwf : well_formed context function entry) (Hpo : post_order_ok context entry po).

Abbreviation edge := (edge context).
Abbreviation path := (path context).
Abbreviation reachable := (reachable context entry).
Abbreviation num := (num po).
Abbreviation anc := (anc entry).
Abbreviation tree_ok := (tree_ok context entry po).
Abbreviation nearest := (nearest entry).
Abbreviation picked := (picked context po).
Abbreviation pred_of := (pred_of context).
Abbreviation settled := (settled context entry po).
Abbreviation parents_picked := (parents_picked context entry po).
Abbreviation stable := (stable context entry).
Abbreviation in_pass := (in_pass context entry po).
Abbreviation rest_of := (rest_of context entry po).

(** ** A round of a pass *)

Section round.
Context (t0 t : DomTree) (x : Block) (l : list Block) (changed : bool).
Context (Ht0 : tree_ok t0) (Hp0 : parents_picked t0) (Hl : rest_of (x :: l)) (Hin : in_pass t0 (x :: l) t changed).

Lemma round_block : reachable x /\ x <> entry.
Proof. apply (rest_blocks _ _ _ _ Hl). by left. Qed.

(** What is not left to do comes later in the post-order. *)
Lemma round_done b : reachable b -> b ∉ l -> b <> x -> num x < num b.
Proof. intros Hr Hb Hne. apply (rest_before _ _ _ _ Hl); [done| |by left]. by intros [?|?]%elem_of_cons. Qed.

Lemma round_processed b : reachable b -> num x < num b -> processed t b.
Proof.
  intros Hr Hlt. destruct (decide (b = entry)) as [->|Hne]; [eexists; by apply Hin|].
  destruct (in_done _ _ _ _ _ _ _ Hin b Hr Hne) as (y & _ & Hy & _); [|by eexists].
  intros [->|Hb]%elem_of_cons; [lia|]. apply (proj2 (rest_tail _ _ _ _ _ Hl)) in Hb. lia.
Qed.

Section chosen.
Context (q z : Block) (Hq : picked x = Some q) (Hproc : processed t q) (Hz : nearest t (pred_of t x) z).

(** The new parent is above the old one. *)
Lemma round_up y : par t x = Some y -> anc t y z.
Proof.
  intros Hy. pose proof Hy as Hy0. rewrite (in_todo _ _ _ _ _ _ _ Hin x) in Hy0 by by left.
  destruct round_block as [Hr Hx]. destruct (Hp0 x y Hx Hy0) as (q' & Hq' & Ha). rewrite Hq in Hq'. injection Hq' as <-.
  eapply old_ancestor; [exact Ht0|exact Hin|exact Ha| |].
  - eapply nearest_picked; eauto.
  - apply (settled_near _ _ _ _ (in_settled _ _ _ _ _ _ _ Hin) x y z Hx Hy). intros p Hp. by apply Hz.
Qed.

Lemma round_same : par t x = Some z -> in_pass t0 l t changed.
Proof.
  intros Hx. destruct Hin as [I1 I2 I3 I4 I5 I6 I7]. split; [done|done| | |done| |done].
  - intros b Hr Hne Hb. destruct (decide (b = x)) as [->|Hbx]; [|apply I3; [done..|by intros [?|?]%elem_of_cons]].
    exists z, q. split; [done|]. split; [done|]. eapply nearest_picked; eauto.
  - intros b Hb. apply I4. by right.
  - intros Hc. destruct (I6 Hc) as [-> Hst]. split; [done|]. intros b Hr Hne Hb.
    destruct (decide (b = x)) as [->|Hbx]; [|apply Hst; [done..|by intros [?|?]%elem_of_cons]].
    exists z. split; [done|]. apply Hz.
Qed.

Section moves.
Context (t' : DomTree) (Hm : moved t x z t') (Hkeys : keys t' = keys t) (Hold : par t x <> Some z).

Local Lemma moved_facts : tree_ok t /\ x <> entry /\ processed t z /\ num x < num z.
Proof.
  destruct round_block as [Hr Hx]. split; [apply Hin|]. split; [done|]. pose proof (settled_ok _ _ _ _ (in_settled _ _ _ _ _ _ _ Hin)).
  split; [eapply nearest_processed|eapply nearest_later]; eauto.
Qed.

Lemma round_settled : settled t'.
Proof.
  destruct round_block as [Hr Hx]. destruct moved_facts as (Ht & _ & Hzp & Hlt). destruct Hin as [[I1 I2 I3] _ _ _ _ _ _]. split.
  - eapply round_ok; eauto.
  - eapply round_sound; eauto.
  - intros b y c Hb Hy Hc. assert (forall p, pred_of t b p -> anc t p c) as Hc'.
    { intros p [He Hp]. eapply moved_shrinks; eauto using round_up. apply Hc. split; [done|].
      eapply moved_processed; [done|]. by right. }
    destruct (decide (b = x)) as [->|Hne]; [|rewrite (moved_other _ _ _ _ Hm) in Hy by done; by apply (I3 b y)].
    rewrite (moved_here _ _ _ _ Hm) in Hy. injection Hy as <-.
    apply Hz, (anc_num _ _ _ _ _ _ Ht) in Hc' as [->|?]; lia.
Qed.

Lemma round_weight : weight po t < weight po t'.
Proof.
  destruct moved_facts as (Ht & _ & Hzp & Hlt). apply (sum_list_less _ _ x).
  - apply Hpo, round_block.
  - unfold weight_of. rewrite (moved_here _ _ _ _ Hm). destruct (par t x) as [y|] eqn:Hy; [|lia].
    destruct (anc_num _ _ _ _ _ _ Ht (round_up y Hy)) as [->|?]; [done|lia].
  - intros b Hb. unfold weight_of. by rewrite (moved_other _ _ _ _ Hm).
Qed.

Lemma round_moves : in_pass t0 l t' (changed || true).
Proof.
  pose proof round_settled as Hs. destruct round_block as [Hr Hx]. destruct moved_facts as (Ht & _ & Hzp & Hlt).
  assert (forall b a, num x < num b -> anc t b a -> anc t' b a) as Hhigh by (intros; eapply moved_high; eauto).
  destruct Hin as [I1 I2 I3 I4 I5 I6 I7]. assert (forall b, b ∈ l -> par t' b = par t0 b) as Htodo.
  { intros b Hb. rewrite (moved_other _ _ _ _ Hm); [apply I4; by right|]. intros ->.
    apply (proj2 (rest_tail _ _ _ _ _ Hl)) in Hb. lia. }
  split; [done|by rewrite Hkeys| |done| |by destruct changed|].
  - intros b Hrb Hne Hb. destruct (decide (b = x)) as [->|Hbx].
    + exists z, q. split; [apply Hm|]. split; [done|]. apply Hhigh; [by eapply picked_pred|by eapply nearest_picked].
    + destruct (I3 b Hrb Hne) as (y & q' & Hy & Hq' & Ha); [by intros [?|?]%elem_of_cons|].
      exists y, q'. rewrite (moved_other _ _ _ _ Hm) by done. split; [done|]. split; [done|]. apply Hhigh; [|done].
      destruct (picked_Ok _ _ _ _ Hwf Hpo b Hrb Hne) as (q'' & Hq'' & _ & _ & Hlt'). rewrite Hq' in Hq''. injection Hq'' as <-.
      pose proof (round_done b Hrb Hb Hbx). lia.
  - intros b y0 Hne Hy0. destruct (decide (b ∈ l)) as [Hb|Hb]; [exists y0; rewrite Htodo by done; split; [done|constructor]|].
    destruct (tree_parent _ _ _ _ Ht0 b y0 Hne Hy0) as (Hlt0 & _ & _). destruct (decide (b = x)) as [->|Hbx].
    + exists z. split; [apply Hm|]. apply Hhigh; [done|]. apply round_up. by rewrite I4 by left.
    + destruct (I5 b y0 Hne Hy0) as (y & Hy & Ha). exists y. rewrite (moved_other _ _ _ _ Hm) by done. split; [done|].
      apply Hhigh; [|done]. assert (reachable b) as Hrb by (eapply processed_reachable; [exact Ht0|by eexists]).
      pose proof (round_done b Hrb Hb Hbx). lia.
  - pose proof round_weight. rewrite orb_true_r. destruct changed; lia.
Qed.
End moves.
End chosen.

Lemma update_block_Ok : exists r, update_block context po t x = Ok r /\ in_pass t0 l r.1 (changed || r.2).
Proof.
  destruct round_block as [Hr Hx]. destruct (picked_Ok _ _ _ _ Hwf Hpo x Hr Hx) as (q & Hq & _ & Hrq & Hlt).
  pose proof (settled_ok _ _ _ _ (in_settled _ _ _ _ _ _ _ Hin)) as Ht. pose proof (round_processed q Hrq Hlt) as Hproc.
  unfold update_block. destruct (new_idom_Ok _ _ _ _ Hwf Hpo t x q Ht Hr Hq Hproc) as (z & -> & Hz). next_step.
  pose proof (proj2 (tree_domain _ _ _ _ Ht x) Hr) as [node Hn]. rewrite Hn. cbn [unwrap mbind Result_bind].
  assert (par t x = parent node) as Hpar by (unfold par; by rewrite Hn). rewrite <- Hpar. case_bool_decide as Hsame.
  - eexists. split; [done|]. cbn. rewrite orb_false_r. by eapply round_same.
  - destruct (set_parent_moved _ _ _ t x z Ht Hr) as (t' & -> & Hk & Hm). next_step. eexists. split; [done|]. cbn. by eapply round_moves.
Qed.
End round.

(** ** A pass and the passes *)

Lemma update_blocks_Ok t0 l t changed :
  tree_ok t0 -> parents_picked t0 -> rest_of l -> in_pass t0 l t changed ->
  exists r, update_blocks context po l t changed = Ok r /\ in_pass t0 [] r.1 r.2.
Proof.
  intros Ht0 Hp0. revert t changed. induction l as [|x l IH]; intros t changed Hl Hin; [by eexists|]. cbn [update_blocks].
  destruct (update_block_Ok t0 t x l changed Ht0 Hp0 Hl Hin) as (r & -> & Hr). next_step. apply IH; [|done]. by eapply rest_tail.
Qed.

(** The blocks of a pass *)
Lemma sorted_reverse (f : Block -> nat) (l : list Block) :
  (forall i b, l !! i = Some b -> f b = i) -> StronglySorted (fun a b => f b < f a) (reverse l).
Proof.
  induction l as [|x l IH] using rev_ind; intros Hf; [constructor|]. rewrite reverse_snoc. constructor.
  - apply IH. intros i b Hi. apply Hf. by apply lookup_app_l_Some.
  - apply Forall_forall. intros b Hb. rewrite elem_of_reverse, list_elem_of_lookup in Hb. destruct Hb as [i Hi].
    pose proof (lookup_lt_Some _ _ _ Hi). rewrite (Hf i b), (Hf (length l) x); [done|by apply list_lookup_middle|by apply lookup_app_l_Some].
Qed.

Lemma po_split : exists l, po_to_block po = l ++ [entry] /\ entry ∉ l.
Proof.
  pose proof (po_last _ _ _ Hpo) as [l Hl]%last_Some. exists l. split; [done|]. pose proof (po_nodup _ _ _ Hpo) as Hn. rewrite Hl in Hn.
  apply NoDup_app in Hn as (_ & Hn & _). intros He. apply (Hn entry He). by left.
Qed.

Lemma num_index i b : po_to_block po !! i = Some b -> num b = i.
Proof. intros Hi. unfold IrDomTree.num. by rewrite (proj2 (po_number _ _ _ Hpo b i) Hi). Qed.

Lemma rpo_rest : rest_of (drop 1 (reverse (po_to_block po))).
Proof.
  destruct po_split as (l & Hl & Hn). rewrite Hl, reverse_snoc. rewrite skipn_cons, drop_0. split.
  - apply sorted_reverse. intros i b Hi. apply num_index. rewrite Hl. by apply lookup_app_l_Some.
  - intros b Hb. rewrite elem_of_reverse in Hb. split; [apply Hpo; rewrite Hl; apply elem_of_app; by left|by intros ->].
  - intros b x Hr Hb Hx. rewrite elem_of_reverse in Hb, Hx. apply (po_reachable _ _ _ Hpo) in Hr. rewrite Hl in Hr.
    apply elem_of_app in Hr as [Hr| ->%list_elem_of_singleton]; [done|].
    apply list_elem_of_lookup in Hx as [i Hi]. pose proof (lookup_lt_Some _ _ _ Hi).
    rewrite (num_index i x), (num_index (length l) entry); rewrite ?Hl; [done|by apply list_lookup_middle|by apply lookup_app_l_Some].
Qed.

Lemma rpo_elem b : reachable b -> b <> entry -> b ∈ drop 1 (reverse (po_to_block po)).
Proof.
  intros Hb Hne. apply (po_reachable _ _ _ Hpo) in Hb. destruct po_split as (l & Hl & _). rewrite Hl, reverse_snoc in *. rewrite skipn_cons, drop_0.
  rewrite elem_of_reverse. by apply elem_of_app in Hb as [?| ->%list_elem_of_singleton].
Qed.

Lemma pass_begins t : settled t -> in_pass t (drop 1 (reverse (po_to_block po))) t false.
Proof.
  intros Ht. split; [done|done| |done| | |lia].
  - intros b Hr Hne []. by apply rpo_elem.
  - intros b y _ Hy. exists y. split; [done|constructor].
  - intros _. split; [done|]. intros b Hr Hne []. by apply rpo_elem.
Qed.

(** The fixed point *)
Record fixed (t : DomTree) : Prop := {
  fixed_settled : settled t;
  fixed_stable b : reachable b -> b <> entry -> stable t b;
}.

Lemma dom_tree_loop_Ok fuel t0 :
  settled t0 -> parents_picked t0 -> length (po_to_block po) * length (po_to_block po) < fuel + weight po t0 ->
  exists t, dom_tree_loop context po fuel t0 = Ok t /\ keys t = keys t0 /\ fixed t.
Proof.
  revert t0. induction fuel as [|fuel IH]; intros t0 Hs Hp Hf.
  { pose proof (weight_bound _ _ _ Hpo t0 (settled_ok _ _ _ _ Hs)). lia. }
  cbn [dom_tree_loop]. destruct (update_blocks_Ok t0 _ t0 false (settled_ok _ _ _ _ Hs) Hp rpo_rest (pass_begins t0 Hs)) as ([t changed] & -> & [I1 I2 I3 I4 I5 I6 I7]).
  next_step. cbn in *. destruct changed.
  - destruct (IH t I1) as (t' & -> & Hk & Ht'); [|lia|].
    + intros b y Hne Hy. assert (reachable b) as Hr by (eapply processed_reachable; [by apply I1|by eexists]).
      destruct (I3 b Hr Hne) as (y' & q & Hy' & Hq & Ha); [by apply not_elem_of_nil|]. rewrite Hy in Hy'. injection Hy' as <-. eauto.
    + exists t'. split; [done|]. split; [by rewrite Hk|done].
  - exists t. split; [done|]. split; [done|]. split; [done|]. intros b Hr Hne. apply I6; [done..|]. apply not_elem_of_nil.
Qed.

(** At the fixed point the ancestors are the dominators. *)
Lemma fixed_processed t b : fixed t -> reachable b -> processed t b.
Proof.
  intros Ht Hr. destruct (decide (b = entry)) as [->|Hne]; [eexists; by apply Ht|].
  destruct (fixed_stable _ Ht b Hr Hne) as (y & Hy & _). by eexists.
Qed.

Lemma fixed_dom t a b : fixed t -> reachable b -> anc t b a <-> dom context entry a b.
Proof.
  intros Ht Hr. split; [|intros Hd; apply Ht; [by apply fixed_processed|done]].
  clear Hr. intros Ha l Hl. revert a Ha. induction Hl as [|l b c Hl IH He]; intros a Ha; [apply anc_entry_inv in Ha as ->; by left|].
  apply elem_of_app. destruct (decide (a = c)) as [->|Hne]; [right; by left|left].
  destruct (decide (c = entry)) as [->|Hce]; [by apply anc_entry_inv in Ha|]. assert (reachable b) as Hb by by exists l.
  assert (reachable c) as Hc by by eapply edge_reachable.
  destruct (fixed_stable _ Ht c Hc Hce) as (y & Hy & Hall). apply IH. apply (anc_trans _ _ _ y).
  - apply Hall. split; [done|]. by apply fixed_processed.
  - by eapply anc_up_inv.
Qed.
End loop.

(** * The dominator tree

    The algorithm from its initial tree to the children of the nodes: the parent of a
    node is its immediate dominator, and walking up the parents decides dominance. *)

(** ** Index maps *)

Lemma foldl_index_insert {V} (v : V) l (m : IndexMap V) :
  NoDup l -> (forall b, b ∈ l -> values m !! b = None) ->
  keys (foldl (fun m b => index_insert b v m) m l) = keys m ++ l /\
  forall b, values (foldl (fun m b => index_insert b v m) m l) !! b = if decide (b ∈ l) then Some v else values m !! b.
Proof.
  revert m. induction l as [|x l IH]; intros m Hn Hm; [by rewrite app_nil_r|]. apply NoDup_cons in Hn as [Hx Hn]. cbn [foldl].
  destruct (IH (index_insert x v m) Hn) as [-> Hv].
  { intros b Hb. cbn. rewrite lookup_insert_ne by (by intros ->). apply Hm. by right. }
  unfold index_insert at 1. cbn. rewrite (Hm x) by by left. split; [by rewrite <- app_assoc|]. intros b. rewrite Hv. cbn.
  destruct (decide (b = x)) as [->|Hne].
  - rewrite lookup_insert_eq, (decide_True (P := x ∈ x :: l)) by by left. by case_decide.
  - rewrite lookup_insert_ne by done. repeat case_decide; try done; set_solver.
Qed.

(** ** Childless trees *)

Definition childless (t : DomTree) : Prop := forall b node, values t !! b = Some node -> children node = [].

Lemma set_parent_childless b p t t' : childless t -> set_parent b p t = Ok t' -> childless t'.
Proof.
  intros Ht. unfold set_parent. destruct (values t !! b) as [node|] eqn:Hn; [|done]. cbn. intros [= <-] c node'. cbn.
  rewrite lookup_insert. case_decide; [|by apply Ht]. intros [= <-]. cbn. by eapply Ht.
Qed.

Lemma update_blocks_childless context po l t changed r :
  childless t -> update_blocks context po l t changed = Ok r -> childless r.1.
Proof.
  revert t changed. induction l as [|x l IH]; intros t changed Ht; [by intros [= <-]|]. cbn [update_blocks]. intros Hr.
  inv_ok. eapply IH; [|done]. unfold update_block in *. inv_ok. case_bool_decide; inv_ok; [done|]. by eapply set_parent_childless.
Qed.

Lemma dom_tree_loop_childless context po fuel t t' :
  childless t -> dom_tree_loop context po fuel t = Ok t' -> childless t'.
Proof.
  revert t. induction fuel as [|fuel IH]; intros t Ht; [done|]. cbn [dom_tree_loop]. intros Hr. inv_ok.
  match goal with H : update_blocks _ _ _ _ _ = Ok ?r |- _ => apply update_blocks_childless in H; [|done]; destruct (r.2) end; inv_ok; eauto.
Qed.

Lemma build_children_Ok l t :
  (forall c p, (c, p) ∈ l -> is_Some (values t !! p)) ->
  exists t', build_children l t = Ok t' /\ keys t' = keys t /\
    forall b, values t' !! b =
      (fun node => mkDomTreeNode (parent node) (children node ++ (filter (fun x => x.2 = b) l).*1)) <$> values t !! b.
Proof.
  revert t. induction l as [|[c p] l IH]; intros t Hl.
  { exists t. split; [done|]. split; [done|]. intros b. destruct (values t !! b) as [[pa ch]|]; cbn; [by rewrite app_nil_r|done]. }
  cbn [build_children]. unfold push_child. destruct (Hl c p) as [node Hn]; [by left|]. rewrite Hn. cbn [unwrap mbind Result_bind].
  edestruct IH as (t' & -> & Hk & Hv).
  { intros c' p' Hin. cbn. rewrite lookup_insert_is_Some'. right. eapply Hl. by right. }
  exists t'. split; [done|]. split; [done|]. intros b. rewrite Hv, filter_cons. cbn [values].
  destruct (decide (p = b)) as [->|Hne].
  - rewrite lookup_insert_eq, Hn, decide_True by done. cbn. by rewrite <- app_assoc.
  - by rewrite lookup_insert_ne, decide_False by done.
Qed.

Section tree.
Context (context : Context) (function : Function) (entry : Block) (po : PostOrder).
Context (Hwf : well_formed context function entry) (Hpo : post_order_ok context entry po).

Abbreviation reachable := (reachable context entry).
Abbreviation dom := (dom context entry).
Abbreviation num := (num po).
Abbreviation anc := (anc entry).
Abbreviation fixed := (fixed context entry po).

(** ** The initial tree *)

Lemma initial_tree_Ok :
  childless (initial_tree po entry) /\ Permutation (keys (initial_tree po entry)) (po_to_block po) /\
  par (initial_tree po entry) entry = Some entry /\
  (forall b, is_Some (values (initial_tree po entry) !! b) <-> reachable b) /\
  forall b, b <> entry -> par (initial_tree po entry) b = None.
Proof.
  destruct (po_split _ _ _ Hpo) as (l & Hl & Hn). pose proof (po_nodup _ _ _ Hpo) as Hnd. rewrite Hl in Hnd. apply NoDup_app in Hnd as (Hnd & _ & _).
  unfold initial_tree. rewrite Hl, length_app, Nat.add_sub, take_app_length.
  destruct (foldl_index_insert (DomTreeNode_new None) l (index_insert entry (DomTreeNode_new (Some entry)) index_empty) Hnd) as [Hk Hv].
  { intros b Hb. cbn. by rewrite lookup_insert_ne by (by intros <-). }
  cbn in Hk, Hv. rewrite lookup_empty in Hk. unfold par. split; [|rewrite Hk; split; [apply Permutation_cons_append|split; [|split]]].
  - intros b node. rewrite Hv, lookup_insert, lookup_empty. repeat case_decide; naive_solver.
  - by rewrite Hv, decide_False, lookup_insert_eq.
  - intros b. rewrite <- (po_reachable _ _ _ Hpo), Hl, Hv, elem_of_app, list_elem_of_singleton, lookup_insert, lookup_empty.
    repeat case_decide; unfold is_Some; naive_solver.
  - intros b Hb. rewrite Hv. case_decide; [done|]. by rewrite lookup_insert_ne.
Qed.

Lemma initial_settled : settled context entry po (initial_tree po entry) /\ parents_picked context entry po (initial_tree po entry).
Proof.
  destruct initial_tree_Ok as (_ & _ & He & Hd & Hnone). split; [split; [split|split|]|].
  - done.
  - done.
  - intros b p Hb. by rewrite Hnone.
  - intros b p Hb. by rewrite Hnone.
  - intros a b [p Hp] Hdom. destruct (decide (b = entry)) as [->|Hb]; [|by rewrite Hnone in Hp].
    assert (a ∈ [entry]) as ->%list_elem_of_singleton by (apply Hdom; constructor). constructor.
  - intros b y c Hb. by rewrite Hnone.
  - intros b y Hb. by rewrite Hnone.
Qed.

(** ** The tree that is returned *)

(** The parents of [t] are those of the fixed point [s], and its children are the other way round. *)
Record returned (s t : DomTree) : Prop := {
  returned_fixed : fixed s;
  returned_keys : Permutation (keys t) (po_to_block po);
  returned_domain b : is_Some (values t !! b) <-> reachable b;
  returned_parent b node : values t !! b = Some node -> parent node = if decide (b = entry) then None else par s b;
  returned_children b node : values t !! b = Some node -> NoDup (children node) /\
    forall c, c ∈ children node <-> c <> entry /\ par s c = Some b;
}.

Lemma child_parent_elem t c p : (c, p) ∈ child_parent t <-> c ∈ keys t /\ par t c = Some p.
Proof.
  unfold child_parent. rewrite list_elem_of_omap. unfold par. split.
  - intros (n & Hn & Heq). destruct (values t !! n) as [node|] eqn:Hv; [|done]. cbn in Heq.
    destruct (parent node) as [q|] eqn:Hq; [|done]. cbn in Heq. injection Heq as <- <-. rewrite Hv. by split.
  - intros [Hc Hp]. exists c. split; [done|]. destruct (values t !! c) as [node|]; [|done]. cbn in *. by rewrite Hp.
Qed.

Lemma child_parent_fst t : sublist (child_parent t).*1 (keys t).
Proof.
  unfold child_parent. induction (keys t) as [|n l IH]; [constructor|]. cbn.
  destruct (values t !! n) as [node|]; cbn; [|by constructor]. destruct (parent node); cbn; by constructor.
Qed.

Lemma set_entry_None s :
  fixed s -> childless s -> exists t, set_parent entry None s = Ok t /\ keys t = keys s /\ childless t /\
    (forall b, is_Some (values t !! b) <-> reachable b) /\ forall b, par t b = if decide (b = entry) then None else par s b.
Proof.
  intros Hs Hc. pose proof (settled_ok _ _ _ _ (fixed_settled _ _ _ _ Hs)) as Ht.
  pose proof (proj2 (tree_domain _ _ _ _ Ht entry) (entry_reachable _ _)) as [node Hn].
  destruct (set_parent entry None s) as [t|] eqn:Heq; [|unfold set_parent in Heq; by rewrite Hn in Heq].
  exists t. split; [done|]. pose proof (set_parent_childless _ _ _ _ Hc Heq) as Hc'.
  unfold set_parent in Heq. rewrite Hn in Heq. cbn in Heq. injection Heq as <-. split; [done|]. split; [done|]. cbn. split.
  - intros b. rewrite lookup_insert_is_Some', <- (tree_domain _ _ _ _ Ht). split; [|tauto]. intros [<-|?]; [by eexists|done].
  - intros b. unfold par. cbn. case_decide as Hb; [subst; by rewrite lookup_insert_eq|by rewrite lookup_insert_ne].
Qed.

Lemma compute_dom_tree_Ok : exists s t, compute_dom_tree context po function = Ok t /\ returned s t.
Proof.
  destruct initial_tree_Ok as (Hc0 & Hk0 & _). destruct initial_settled as [Hs0 Hp0].
  unfold compute_dom_tree, get_entry_block. rewrite (entry_first _ _ _ Hwf). cbn [index mbind Result_bind].
  destruct (dom_tree_loop_Ok _ _ _ _ Hwf Hpo (dom_tree_fuel po) _ Hs0 Hp0) as (s & Hs & Hk & Hfix); [unfold dom_tree_fuel; lia|].
  rewrite Hs. next_step. apply dom_tree_loop_childless in Hs as Hc; [|done].
  destruct (set_entry_None s Hfix Hc) as (t & -> & Hk' & Hct & Hdom & Hpar). next_step.
  destruct (build_children_Ok (child_parent t) t) as (t' & Hb & Hkt & Hv).
  { intros c p [_ Hp]%child_parent_elem. rewrite Hpar in Hp. case_decide as Hce; [done|]. apply Hdom.
    by eapply (tree_parent _ _ _ _ (settled_ok _ _ _ _ (fixed_settled _ _ _ _ Hfix)) c). }
  exists s, t'. split; [done|]. split; [done|by rewrite Hkt, Hk', Hk| | |].
  - intros b. rewrite Hv, fmap_is_Some. apply Hdom.
  - intros b node. rewrite Hv. intros (node' & Hn & ->)%fmap_Some. cbn. rewrite <- Hpar. unfold par. by rewrite Hn.
  - intros b node. rewrite Hv. intros (node' & Hn & ->)%fmap_Some. cbn. rewrite (Hct _ _ Hn). cbn. split.
    + apply (sublist_NoDup _ (keys t)); [rewrite Hk', Hk, Hk0; apply Hpo|].
      etrans; [|apply child_parent_fst]. apply fmap_sublist, sublist_filter.
    + intros c. rewrite list_elem_of_fmap. split.
      * intros ([c' p'] & -> & [Heq [_ Hp]%child_parent_elem]%list_elem_of_filter). cbn in *. subst p'.
        rewrite Hpar in Hp. by case_decide.
      * intros [Hce Hp]. exists (c, b). split; [done|]. apply list_elem_of_filter. split; [done|]. apply child_parent_elem.
        split; [|by rewrite Hpar, decide_False]. rewrite Hk', Hk, Hk0. apply Hpo, (tree_domain _ _ _ _ (settled_ok _ _ _ _ (fixed_settled _ _ _ _ Hfix))).
        unfold par in Hp. destruct (values s !! c); [by eexists|done].
Qed.

(** ** Dominance *)

Lemma anc_dom s a b : fixed s -> reachable b -> anc s b a <-> dom a b.
Proof. by apply (fixed_dom context entry po). Qed.

(** The immediate dominator *)
Definition idom (p b : Block) : Prop := p <> b /\ dom p b /\ forall a, dom a b -> a <> b -> dom a p.

Lemma fixed_idom s b p : fixed s -> reachable b -> (b <> entry /\ par s b = Some p) <-> idom p b.
Proof.
  intros Hs Hb. pose proof (settled_ok _ _ _ _ (fixed_settled _ _ _ _ Hs)) as Ht.
  assert (forall y, b <> entry -> par s b = Some y -> reachable y /\ idom y b) as Hpar.
  { intros y Hne Hy. destruct (tree_parent _ _ _ _ Ht b y Hne Hy) as (Hlt & Hr & _). split; [done|]. split; [intros ->; lia|].
    split; [apply (anc_dom s); [done|done|]; by eapply anc_up, anc_refl|]. intros a Ha Hab.
    apply (anc_dom s); [done|done|]. apply (anc_up_inv _ _ b); [done|done|]. by apply anc_dom. }
  split; [intros [Hne Hp]; by apply Hpar|]. intros (Hpb & Hd & Hall). assert (b <> entry) as Hne.
  { intros ->. assert (p ∈ [entry]) as ->%list_elem_of_singleton; [apply Hd; constructor|done]. }
  split; [done|]. destruct (fixed_processed _ _ _ s b Hs Hb) as [y Hy]. destruct (Hpar y Hne Hy) as (Hr & Hyb & Hdy & Hally).
  rewrite Hy. f_equal. assert (reachable p) as Hrp.
  { eapply (processed_reachable _ _ _ s); [done|]. eapply anc_processed; [done| |by apply (anc_dom s p b)]. by eexists. }
  assert (anc s p y) as H1 by (apply anc_dom; auto). assert (anc s y p) as H2 by (apply anc_dom; auto).
  apply (anc_num _ _ _ _ _ _ Ht) in H1, H2. destruct H1 as [?|?], H2 as [?|?]; [done..|lia].
Qed.

Lemma dominates_loop_Ok s t fuel a b :
  returned s t -> reachable b -> size_of po + 1 <= fuel + num b ->
  exists r, dominates_loop fuel t a (Some b) = Ok r /\ (r = true <-> anc s b a).
Proof.
  intros Hst. pose proof (settled_ok _ _ _ _ (fixed_settled _ _ _ _ (returned_fixed _ _ Hst))) as Hok. revert b.
  induction fuel as [|fuel IH]; intros b Hb Hf; [pose proof (proj2 (po_num _ _ _ Hpo b Hb)); lia|]. cbn [dominates_loop].
  case_bool_decide as Hba; [subst; exists true; split; [done|]; split; [constructor|done]|].
  apply (returned_domain _ _ Hst) in Hb as [node Hn]. rewrite Hn. cbn [index mbind Result_bind].
  pose proof (returned_parent _ _ Hst b node Hn) as Hp. assert (reachable b) as Hb by (apply (returned_domain _ _ Hst); by eexists).
  pose proof (proj2 (po_num _ _ _ Hpo b Hb)) as Hlt. case_decide as He.
  - rewrite Hp. destruct fuel as [|fuel]; [lia|]. exists false. split; [done|]. split; [done|]. subst. by intros ->%anc_entry_inv.
  - destruct (fixed_processed _ _ _ s b (returned_fixed _ _ Hst) Hb) as [p Hpp]. rewrite Hp, Hpp.
    destruct (tree_parent _ _ _ _ Hok b p He Hpp) as (Hnum & Hrp & _). destruct (IH p Hrp) as (r & -> & Hr); [lia|].
    exists r. split; [done|]. rewrite Hr. split; [by econstructor|]. intros Ha. by eapply anc_up_inv.
Qed.

Lemma dominates_Ok s t a b :
  returned s t -> reachable b -> exists r, dominates t a b = Ok r /\ (r = true <-> dom a b).
Proof.
  intros Hst Hb. destruct (dominates_loop_Ok s t (S (S (length (keys t)))) a b Hst Hb) as (r & Hr & Ha).
  { rewrite (Permutation_length (returned_keys _ _ Hst)). unfold size_of. lia. }
  exists r. split; [done|]. rewrite Ha. by apply anc_dom, Hb; apply Hst.
Qed.
End tree.
