(* ===== verification/IrDomFronts.v ===== *)
(** * Dominance frontiers, and the correctness of the analysis

    The walks from the predecessors of a join up to its immediate dominator visit exactly
    the blocks that dominate a predecessor and do not strictly dominate the join.  Then
    the theorems about the three parts of the analysis. *)

From S2P Require Import Prelude IrDominator IrDomTree IrDomPass IrDomMain.

Lemma elem_of_set_insert x b l : x ∈ set_insert b l <-> x = b \/ x ∈ l.
Proof. unfold set_insert. case_bool_decide; set_solver. Qed.

Lemma set_insert_NoDup b l : NoDup l -> NoDup (set_insert b l).
Proof.
  intros Hl. unfold set_insert. case_bool_decide as Hb; [done|]. apply NoDup_app. split; [done|].
  split; [by intros x Hx ->%list_elem_of_singleton|apply NoDup_singleton].
Qed.

Definition in_front (fronts : DomFronts) (a x : Block) : Prop := exists l, values fronts !! a = Some l /\ x ∈ l.

Section fronts.
Context (context : Context) (function : Function) (entry : Block) (po : PostOrder) (s t : DomTree).
Context (Hwf : well_formed context function entry) (Hpo : post_order_ok context entry po).
Context (Hst : returned context entry po s t) (no_preds : forall p, edge context p entry -> False).

Abbreviation edge := (edge context).
Abbreviation reachable := (reachable context entry).
Abbreviation dom := (dom context entry).
Abbreviation num := (num po).
Abbreviation anc := (anc entry).

(** Every reachable block has a front, and the fronts hold the pairs of [Q]. *)
Record fronts_are (fronts : DomFronts) (Q : Block -> Block -> Prop) : Prop := {
  fronts_domain a : is_Some (values fronts !! a) <-> reachable a;
  fronts_nodup a l : values fronts !! a = Some l -> NoDup l;
  fronts_elem a x : in_front fronts a x <-> Q a x;
}.

Lemma fronts_iff fronts (Q Q' : Block -> Block -> Prop) : (forall a x, Q a x <-> Q' a x) -> fronts_are fronts Q -> fronts_are fronts Q'.
Proof. intros HQ [H1 H2 H3]. split; [done|done|]. intros a x. by rewrite H3. Qed.

Local Lemma s_ok : tree_ok context entry po s.
Proof. apply Hst. Qed.

Lemma runner_loop_Ok fuel b y r fronts Q :
  fronts_are fronts Q -> reachable r -> anc s r y -> size_of po < fuel + num r ->
  exists fronts', runner_loop t fuel b y r fronts = Ok fronts' /\
    fronts_are fronts' (fun a x => Q a x \/ (x = b /\ anc s r a /\ ~ anc s y a)).
Proof.
  revert r fronts Q. induction fuel as [|fuel IH]; intros r fronts Q HQ Hr Hy Hf; [pose proof (proj2 (po_num _ _ _ Hpo r Hr)); lia|].
  cbn [runner_loop]. case_bool_decide as Heq.
  { subst. exists fronts. split; [done|]. eapply fronts_iff; [|done]. tauto. }
  assert (r <> entry) as Hne by (intros ->; by apply anc_entry_inv in Hy). destruct HQ as [Q1 Q2 Q3].
  destruct (proj2 (Q1 r) Hr) as [front Hfr]. rewrite Hfr. cbn [unwrap mbind Result_bind].
  destruct (proj2 (returned_domain _ _ _ _ _ Hst r) Hr) as [node Hn]. rewrite Hn. cbn [index mbind Result_bind].
  rewrite (returned_parent _ _ _ _ _ Hst r node Hn), decide_False by done.
  destruct (fixed_processed _ _ _ s r (returned_fixed _ _ _ _ _ Hst) Hr) as [p Hp]. rewrite Hp. cbn [unwrap mbind Result_bind].
  destruct (tree_parent _ _ _ _ s_ok r p Hne Hp) as (Hlt & Hrp & _).
  edestruct (IH p (mkIndexMap (keys fronts) (<[r:=set_insert b front]> (values fronts))) (fun a x => Q a x \/ (x = b /\ a = r)))
    as (fronts' & -> & Hres); [|done|by eapply anc_up_inv|lia|].
  - split; cbn.
    + intros a. rewrite lookup_insert_is_Some', Q1. naive_solver.
    + intros a l. rewrite lookup_insert. case_decide; [|by apply Q2]. intros [= <-]. apply set_insert_NoDup. by eapply Q2.
    + intros a x. rewrite <- Q3. unfold in_front. cbn. rewrite lookup_insert. case_decide as Har.
      * subst a. rewrite Hfr. setoid_rewrite (inj_iff Some). split.
        -- intros (l & <- & [?|?]%elem_of_set_insert); [by right|left; eauto].
        -- intros [(l & <- & Hx)|[-> _]]; eexists; (split; [done|]); apply elem_of_set_insert; tauto.
      * naive_solver.
  - exists fronts'. split; [done|]. eapply fronts_iff; [|exact Hres]. intros a x. cbn. split.
    + intros [[?|[-> ->]]|(-> & Ha & Hn')]; [by left|right|right; split; [done|]; split; [by econstructor|done]].
      split; [done|]. split; [constructor|]. intros Ha. apply (anc_num _ _ _ _ _ _ s_ok) in Ha, Hy. destruct Ha as [?|?], Hy as [?|?]; [done..|lia].
    + intros [?|(-> & Ha & Hn')]; [by left; left|]. destruct (decide (a = r)) as [->|Har]; [left; by right|right].
      split; [done|]. split; [by eapply anc_up_inv|done].
Qed.

Lemma front_preds_Ok b y l fronts Q :
  fronts_are fronts Q -> (forall p, p ∈ l -> reachable p -> anc s p y) ->
  exists fronts', front_preds t b y l fronts = Ok fronts' /\
    fronts_are fronts' (fun a x => Q a x \/ (x = b /\ exists p, p ∈ l /\ reachable p /\ anc s p a /\ ~ anc s y a)).
Proof.
  revert fronts Q. induction l as [|p l IH]; intros fronts Q HQ Hl.
  { exists fronts. split; [done|]. eapply fronts_iff; [|done]. intros a x. split; [by left|]. by intros [?|(_ & p & ?%elem_of_nil & _)]. }
  cbn [front_preds]. case_bool_decide as Hp; rewrite (returned_domain _ _ _ _ _ Hst) in Hp.
  - destruct (runner_loop_Ok (S (length (keys t))) b y p fronts Q HQ Hp) as (f1 & -> & H1); [apply Hl; [by left|done]| |].
    { rewrite (Permutation_length (returned_keys _ _ _ _ _ Hst)). unfold size_of. lia. }
    next_step. destruct (IH f1 _ H1) as (f2 & -> & H2); [intros q Hq; apply Hl; by right|]. exists f2. split; [done|].
    eapply fronts_iff; [|exact H2]. intros a x. cbn. setoid_rewrite elem_of_cons. naive_solver.
  - destruct (IH fronts Q HQ) as (f2 & -> & H2); [intros q Hq; apply Hl; by right|]. exists f2. split; [done|].
    eapply fronts_iff; [|exact H2]. intros a x. cbn. setoid_rewrite elem_of_cons. naive_solver.
Qed.

(** ** The frontier *)

(** [a] dominates a predecessor of [x] and does not strictly dominate [x]. *)
Definition frontier (a x : Block) : Prop :=
  (exists p, reachable p /\ edge p x /\ dom a p) /\ ~ (a <> x /\ dom a x).

Local Lemma s_dom a b : reachable b -> anc s b a <-> dom a b.
Proof. apply (anc_dom context entry po), Hst. Qed.

Lemma not_strict b y a : reachable b -> b <> entry -> par s b = Some y -> anc s y a <-> a <> b /\ dom a b.
Proof.
  intros Hb Hne Hy. destruct (tree_parent _ _ _ _ s_ok b y Hne Hy) as (Hlt & Hr & _). split.
  - intros Ha. split; [intros ->; apply (anc_num _ _ _ _ _ _ s_ok) in Ha as [->|?]; lia|].
    apply s_dom; [done|]. by econstructor.
  - intros [Hab Ha]. apply s_dom in Ha; [|done]. by eapply anc_up_inv.
Qed.

(** A block with one predecessor is in no frontier. *)
Lemma single_pred a b : reachable b -> b <> entry -> length (preds_of context b) <= 1 -> ~ frontier a b.
Proof.
  intros Hb Hne Hlen [(p & Hp & He & Ha) Hs]. destruct (picked_Ok _ _ _ _ Hwf Hpo b Hb Hne) as (q & _ & Hq & Hrq & Hlt).
  assert (p = q) as <-.
  { apply (elem_preds_of _ _ _ Hwf) in He, Hq; [|done..]. destruct (preds_of context b) as [|x [|? ?]]; [by apply elem_of_nil in He| |cbn in Hlen; lia].
    apply list_elem_of_singleton in He, Hq. congruence. }
  assert (exists y, par s b = Some y) as [y Hy] by (apply (fixed_processed context entry po); [apply Hst|done]).
  assert (anc s p y) as Hpy.
  { destruct (fixed_stable _ _ _ _ (returned_fixed _ _ _ _ _ Hst) b Hb Hne) as (y' & Hy' & Hall). rewrite Hy in Hy'. injection Hy' as <-.
    apply Hall. split; [done|]. apply (fixed_processed context entry po); [apply Hst|done]. }
  destruct (decide (a = b)) as [->|Hab].
  - apply s_dom in Ha; [|done]. apply (anc_num _ _ _ _ _ _ s_ok) in Ha as [->|?]; lia.
  - apply Hs. split; [done|]. intros l Hl. inversion Hl as [|l' p' ? Hl' He']; subst; [done|]. apply elem_of_app. left.
    apply (elem_preds_of _ _ _ Hwf) in He, He'; [|done..]. destruct (preds_of context b) as [|x [|? ?]]; [by apply elem_of_nil in He| |cbn in Hlen; lia].
    apply list_elem_of_singleton in He, He'. subst. by apply Ha.
Qed.

Lemma front_block_Ok b fronts Q :
  fronts_are fronts Q -> reachable b ->
  exists fronts', front_block context t b fronts = Ok fronts' /\ fronts_are fronts' (fun a x => Q a x \/ (x = b /\ frontier a b)).
Proof.
  intros HQ Hb. unfold front_block, num_predecessors, pred_iter. destruct (reachable_exists _ _ _ Hwf b Hb) as [content Hc].
  rewrite Hc. cbn [index mbind Result_bind]. assert (preds content = preds_of context b) as -> by (unfold preds_of; by rewrite Hc).
  destruct (decide (b = entry)) as [->|Hne].
  { assert (forall p, p ∉ preds_of context entry) as Hnil by (intros p Hp; apply (elem_preds_of _ _ _ Hwf) in Hp; [by eapply no_preds|done]).
    destruct (preds_of context entry) as [|p l] eqn:Hps; [|destruct (Hnil p); by left]. exists fronts. split; [done|].
    eapply fronts_iff; [|done]. intros a x. split; [by left|]. intros [?|[_ [(p & _ & He & _) _]]]; [done|by apply no_preds in He]. }
  destruct (Nat.ltb_spec 1 (length (preds_of context b))) as [Hlt|Hle].
  - destruct (proj2 (returned_domain _ _ _ _ _ Hst b) Hb) as [node Hn]. rewrite Hn. cbn [index mbind Result_bind].
    rewrite (returned_parent _ _ _ _ _ Hst b node Hn), decide_False by done.
    destruct (fixed_stable _ _ _ _ (returned_fixed _ _ _ _ _ Hst) b Hb Hne) as (y & Hy & Hall). rewrite Hy. cbn [unwrap mbind Result_bind].
    destruct (front_preds_Ok b y (preds_of context b) fronts Q HQ) as (f & -> & Hf).
    { intros p Hp Hr. apply Hall. split; [by apply (elem_preds_of _ _ _ Hwf)|]. apply (fixed_processed context entry po); [apply Hst|done]. }
    exists f. split; [done|]. eapply fronts_iff; [|exact Hf]. intros a x. cbn. unfold frontier.
    setoid_rewrite (not_strict b y a Hb Hne Hy). setoid_rewrite (elem_preds_of _ _ _ Hwf b); [|done].
    split; intros [?|(-> & H)]; [by left|right|by left|right]; (split; [done|]).
    + destruct H as (p & He & Hr & Ha & Hs). split; [|done]. exists p. by rewrite <- s_dom.
    + destruct H as [(p & Hr & He & Ha) Hs]. exists p. by rewrite s_dom.
  - exists fronts. split; [done|]. eapply fronts_iff; [|done]. intros a x. split; [by left|]. intros [?|[-> Hf]]; [done|].
    by apply single_pred in Hf.
Qed.

Lemma front_blocks_Ok l fronts Q :
  fronts_are fronts Q -> (forall b, b ∈ l -> reachable b) ->
  exists fronts', front_blocks context t l fronts = Ok fronts' /\ fronts_are fronts' (fun a x => Q a x \/ (x ∈ l /\ frontier a x)).
Proof.
  revert fronts Q. induction l as [|b l IH]; intros fronts Q HQ Hl.
  { exists fronts. split; [done|]. eapply fronts_iff; [|done]. intros a x. split; [by left|]. by intros [?|[?%elem_of_nil _]]. }
  cbn [front_blocks]. destruct (front_block_Ok b fronts Q HQ) as (f1 & -> & H1); [apply Hl; by left|]. next_step.
  destruct (IH f1 _ H1) as (f2 & -> & H2); [intros c Hc; apply Hl; by right|]. exists f2. split; [done|].
  eapply fronts_iff; [|exact H2]. intros a x. cbn. rewrite elem_of_cons. naive_solver.
Qed.

Lemma compute_dom_fronts_Ok :
  exists fronts, compute_dom_fronts context t = Ok fronts /\ fronts_are fronts (fun a x => reachable x /\ frontier a x).
Proof.
  assert (forall b, b ∈ keys t <-> reachable b) as Hk by (intros b; by rewrite (returned_keys _ _ _ _ _ Hst), (po_reachable _ _ _ Hpo)).
  assert (NoDup (keys t)) as Hnd by (rewrite (returned_keys _ _ _ _ _ Hst); apply Hpo).
  destruct (foldl_index_insert (@nil Block) (keys t) index_empty Hnd) as [_ Hv]; [done|].
  unfold compute_dom_fronts. destruct (front_blocks_Ok (keys t) (foldl (fun m b => index_insert b [] m) index_empty (keys t)) (fun _ _ => False)) as (f & -> & Hf); [|by intros b; rewrite Hk|].
  - split.
    + intros a. rewrite Hv, <- Hk. cbn. case_decide; [split; [done|by eexists]|]. rewrite lookup_empty. split; [by intros [? ?]|done].
    + intros a l. rewrite Hv. case_decide; [intros [= <-]; constructor|done].
    + intros a x. split; [|done]. intros (l & Hl & Hx). rewrite Hv in Hl. case_decide; [|done]. injection Hl as <-. by apply elem_of_nil in Hx.
  - exists f. split; [done|]. eapply fronts_iff; [|exact Hf]. intros a x. cbn. rewrite Hk. tauto.
Qed.
End fronts.

(** ** The analysis of a function *)

Section analysis.
Context (context : Context) (function : Function) (entry : Block) (po : PostOrder).
Context (Hwf : well_formed context function entry) (Hpo : compute_post_order context function = Ok po).

Lemma computed_order : post_order_ok context entry po.
Proof. destruct (compute_post_order_Ok _ _ _ Hwf) as (po' & Hpo' & Hok). rewrite Hpo in Hpo'. by injection Hpo' as ->. Qed.

(** The nodes, parents and children of the tree *)
Lemma compute_dom_tree_nodes : exists s t, compute_dom_tree context po function = Ok t /\ returned context entry po s t /\
    (forall b, is_Some (values t !! b) <-> reachable context entry b) /\
    (forall b node, values t !! b = Some node ->
       (forall p, parent node = Some p <-> idom context entry p b) /\ NoDup (children node) /\
       (forall c, c ∈ children node <-> reachable context entry c /\ idom context entry b c)).
Proof.
  destruct (compute_dom_tree_Ok _ _ _ _ Hwf computed_order) as (s & t & Ht & Hst). exists s, t. split; [done|]. split; [done|].
  pose proof (returned_domain _ _ _ _ _ Hst) as Hd. pose proof (returned_fixed _ _ _ _ _ Hst) as Hs. split; [done|].
  intros b node Hn. assert (reachable context entry b) as Hb by (apply Hd; by eexists).
  destruct (returned_children _ _ _ _ _ Hst b node Hn) as [Hnd Hc]. split; [|split; [done|]].
  - intros p. rewrite <- (fixed_idom context entry po s b p) by done. rewrite (returned_parent _ _ _ _ _ Hst b node Hn).
    case_decide; naive_solver.
  - intros c. rewrite Hc. split.
    + intros [Hne Hp]. assert (reachable context entry c) as Hr; [|split; [done|by eapply fixed_idom; eauto using computed_order]].
      eapply processed_reachable; [by apply (fixed_settled _ _ _ _ Hs)|by eexists].
    + intros [Hr Hi]. by eapply fixed_idom; eauto using computed_order.
Qed.

(** C12. The dominator tree of a well-formed control-flow graph: the passes over the blocks
    end, the nodes are the reachable blocks, the parent of a node is its immediate
    dominator, its children are the blocks it immediately dominates, and [dominates]
    answers whether every path from the entry to a block goes through the other. *)
Theorem compute_dom_tree_correct :
  exists t, compute_dom_tree context po function = Ok t /\
    (forall b, is_Some (values t !! b) <-> reachable context entry b) /\
    (forall b node, values t !! b = Some node ->
       (forall p, parent node = Some p <-> idom context entry p b) /\ NoDup (children node) /\
       (forall c, c ∈ children node <-> reachable context entry c /\ idom context entry b c)) /\
    (forall a b, reachable context entry b -> exists r, dominates t a b = Ok r /\ (r = true <-> dom context entry a b)).
Proof.
  destruct compute_dom_tree_nodes as (s & t & Ht & Hst & Hnodes & Hnode). exists t. split_and!; [done|done|done|]. pose proof (returned_fixed _ _ _ _ _ Hst).
  intros a b Hb. eapply dominates_Ok; eauto using computed_order.
Qed.

(** C27. The dominance frontiers, for an entry that no block branches to: the computation
    returns, every reachable block has a set without duplicates, and a block [x] is in
    the set of [a] exactly when [a] dominates a predecessor of [x] and does not strictly
    dominate [x]. *)
Theorem compute_dom_fronts_correct t :
  compute_dom_tree context po function = Ok t -> (forall p, edge context p entry -> False) ->
  exists fronts, compute_dom_fronts context t = Ok fronts /\
    (forall a, is_Some (values fronts !! a) <-> reachable context entry a) /\
    (forall a l, values fronts !! a = Some l -> NoDup l) /\
    forall a x, in_front fronts a x <-> reachable context entry x /\ frontier context entry a x.
Proof.
  intros Ht Hno. destruct (compute_dom_tree_Ok _ _ _ _ Hwf computed_order) as (s & t' & Ht' & Hst). rewrite Ht in Ht'. injection Ht' as <-.
  destruct (compute_dom_fronts_Ok _ _ _ _ _ _ Hwf computed_order Hst Hno) as (f & Hf & [H1 H2 H3]). by exists f.
Qed.
End analysis.

(** ** A graph with a join in a loop *)

(** The third block joins the branches and heads a loop; no branch leads to the sixth. *)
Definition loop_context : Context := mkContext (list_to_map [
  (1, mkBlock (ConditionalBranch 2 3) []);
  (2, mkBlock (Branch 3) [1]);
  (3, mkBlock (ConditionalBranch 4 5) [1; 2; 4; 6]);
  (4, mkBlock (Branch 3) [3]);
  (5, mkBlock NoBranch [3]);
  (6, mkBlock (Branch 3) [])])%positive.
Definition loop_function : Function := mkFunction [1; 2; 3; 4; 5; 6]%positive.

Ltac loop_lookup H :=
  cbn in H; repeat (apply lookup_insert_Some in H as [[<- <-]|[_ H]]); [..|by rewrite lookup_empty in H].

Lemma loop_edge a b : edge loop_context a b <-> (a, b) ∈ [(1, 2); (1, 3); (2, 3); (3, 4); (3, 5); (4, 3); (6, 3)]%positive.
Proof.
  split.
  - intros (l & Hl & Hb). unfold successors in Hl. destruct (blocks loop_context !! a) as [c|] eqn:Hc; [|done]. cbn [index mbind Result_bind] in Hl.
    injection Hl as <-. loop_lookup Hc; set_solver.
  - rewrite !elem_of_cons, elem_of_nil. intros Hab. destruct_or? Hab; try done; injection Hab as -> ->; (eexists; split; [vm_compute; reflexivity|set_solver]).
Qed.

Lemma loop_well_formed : well_formed loop_context loop_function 1%positive.
Proof.
  split; [done|by eexists| |].
  - intros a b He%loop_edge. rewrite !elem_of_cons, elem_of_nil in He. destruct_or? He; try done; injection He as -> ->; vm_compute; eauto.
  - intros b c p Hc. rewrite loop_edge, !elem_of_cons, elem_of_nil. loop_lookup Hc; cbn [preds]; rewrite ?elem_of_cons, elem_of_nil; naive_solver.
Qed.

Definition loop_order : PostOrder := match compute_post_order loop_context loop_function with Ok po => po | Err _ => mkPostOrder ∅ [] end.
Definition loop_tree : DomTree := match compute_dom_tree loop_context loop_order loop_function with Ok t => t | Err _ => index_empty end.

Lemma compute_post_order_correct_witness :
  exists po, compute_post_order loop_context loop_function = Ok po /\ po_to_block po = [4; 5; 3; 2; 1]%positive.
Proof.
  destruct (compute_post_order_correct loop_context loop_function 1%positive loop_well_formed) as (po & Hpo & _).
  exists po. split; [exact Hpo|]. vm_compute in Hpo. by injection Hpo as <-.
Defined.

(** The third block is dominated by the first and not by the second. *)
Lemma compute_dom_tree_correct_witness :
  exists t, compute_dom_tree loop_context loop_order loop_function = Ok t /\
    dominates t 1%positive 3%positive = Ok true /\ dominates t 2%positive 3%positive = Ok false /\
    children_of t 3%positive = Ok [4; 5]%positive.
Proof.
  destruct (compute_dom_tree_correct loop_context loop_function 1%positive loop_order loop_well_formed) as (t & Ht & _); [vm_compute; reflexivity|].
  exists t. split; [exact Ht|]. vm_compute in Ht. injection Ht as <-. vm_compute. done.
Defined.

Lemma compute_dom_fronts_correct_witness :
  exists fronts, compute_dom_fronts loop_context loop_tree = Ok fronts /\ values fronts !! 3%positive = Some [3]%positive.
Proof.
  destruct (compute_dom_fronts_correct loop_context loop_function 1%positive loop_order loop_well_formed ltac:(vm_compute; reflexivity) loop_tree)
    as (f & Hf & _); [vm_compute; reflexivity| |].
  - intros p Hp%loop_edge. rewrite !elem_of_cons, elem_of_nil in Hp. destruct_or? Hp; done.
  - exists f. split; [exact Hf|]. vm_compute in Hf. injection Hf as <-. vm_compute. reflexivity.
Defined.
