(* ===== verification/IrTypes.v ===== *)
(** * Types of the IR

    [sway-ir/src/irtype.rs], with the types of [context.rs].  A type is a key of the slot
    map [types]; [type_map] finds the key of a content, so that every content has one key.
    A content refers to other types by their keys.  The key that a slot map returns for a
    new value is given by the class [SlotMap].  Sizes are [u64] with their overflow;
    recursion through keys runs on fuel. *)

From S2P Require Import Prelude.
Local Open Scope Z_scope.

(** ** Integers and loops *)

Definition u64_add (a b : Z) : Result Z :=
  if a + b <? 2 ^ 64 then Ok (a + b) else Err (Panic "attempt to add with overflow").
Definition u64_mul (a b : Z) : Result Z :=
  if a * b <? 2 ^ 64 then Ok (a * b) else Err (Panic "attempt to multiply with overflow").
Definition u64_minus (a b : Z) : Result Z :=
  if b <=? a then Ok (a - b) else Err (Panic "attempt to subtract with overflow").

(** [Iterator::fold] with a step that can panic *)
Fixpoint fold_ok {A B} (f : B -> A -> Result B) (b : B) (l : list A) : Result B :=
  match l with
  | [] => Ok b
  | x :: l' => b' ← f b x; fold_ok f b' l'
  end.

(** [Iterator::all] and [Iterator::any], which stop early *)
Fixpoint all_ok {A} (f : A -> Result bool) (l : list A) : Result bool :=
  match l with
  | [] => Ok true
  | x :: l' => b ← f x; if (b : bool) then all_ok f l' else Ok false
  end.
Fixpoint any_ok {A} (f : A -> Result bool) (l : list A) : Result bool :=
  match l with
  | [] => Ok false
  | x :: l' => b ← f x; if (b : bool) then Ok true else any_ok f l'
  end.

(** ** Types and their contents *)

Abbreviation Ty := positive.

Inductive TypeContent : Type :=
  | TNever
  | TUnit
  | TBool
  | TUint (width : Z)
  | TB256
  | TStringSlice
  | TStringArray (len : Z)
  | TArray (elm_ty : Ty) (len : Z)
  | TUnion (fields : list Ty)
  | TStruct (fields : list Ty)
  | TSlice
  | TPointer (to_ty : Ty)
  | TTypedSlice (item_ty : Ty).

#[export] Instance TypeContent_eq_dec : EqDecision TypeContent.
Proof. solve_decision. Defined.

Definition encode_content (t : TypeContent) : nat * Z * list Ty :=
  match t with
  | TNever => (0%nat, 0, [])
  | TUnit => (1%nat, 0, [])
  | TBool => (2%nat, 0, [])
  | TUint w => (3%nat, w, [])
  | TB256 => (4%nat, 0, [])
  | TStringSlice => (5%nat, 0, [])
  | TStringArray n => (6%nat, n, [])
  | TArray t n => (7%nat, n, [t])
  | TUnion l => (8%nat, 0, l)
  | TStruct l => (9%nat, 0, l)
  | TSlice => (10%nat, 0, [])
  | TPointer t => (11%nat, 0, [t])
  | TTypedSlice t => (12%nat, 0, [t])
  end.
Definition decode_content (c : nat * Z * list Ty) : option TypeContent :=
  match c with
  | (0%nat, _, _) => Some TNever
  | (1%nat, _, _) => Some TUnit
  | (2%nat, _, _) => Some TBool
  | (3%nat, w, _) => Some (TUint w)
  | (4%nat, _, _) => Some TB256
  | (5%nat, _, _) => Some TStringSlice
  | (6%nat, n, _) => Some (TStringArray n)
  | (7%nat, n, [t]) => Some (TArray t n)
  | (8%nat, _, l) => Some (TUnion l)
  | (9%nat, _, l) => Some (TStruct l)
  | (10%nat, _, _) => Some TSlice
  | (11%nat, _, [t]) => Some (TPointer t)
  | (12%nat, _, [t]) => Some (TTypedSlice t)
  | _ => None
  end.
#[export] Instance TypeContent_countable : Countable TypeContent.
Proof. apply (inj_countable encode_content decode_content). by intros []. Defined.

(** The types that a content refers to *)
Definition child_types (t : TypeContent) : list Ty :=
  match t with
  | TArray ty _ | TPointer ty | TTypedSlice ty => [ty]
  | TUnion l | TStruct l => l
  | _ => []
  end.

(** The types of a context *)
Record Context : Type := mkContext { types : gmap Ty TypeContent; type_map : gmap TypeContent Ty }.

(** [SlotMap::insert] returns a key that is not in the map. *)
Class SlotMap : Type := {
  new_key {V} : gmap positive V -> positive;
  new_key_fresh {V} (m : gmap positive V) : m !! new_key m = None;
}.

Section context.
Context `{SlotMap}.

Definition get_or_create_unique_type (context : Context) (t : TypeContent) : Context * Ty :=
  match type_map context !! t with
  | None =>
      let new_type := new_key (types context) in
      (mkContext (<[new_type := t]> (types context)) (<[t := new_type]> (type_map context)), new_type)
  | Some ty => (context, ty)
  end.

Definition get_type (context : Context) (t : TypeContent) : option Ty := type_map context !! t.

(** [create_basic_types], on the empty context of [Context::new] *)
Definition basic_types : list TypeContent :=
  [TNever; TUnit; TBool; TUint 8; TUint 16; TUint 32; TUint 64; TUint 256; TB256; TSlice].
Definition create_basic_types (context : Context) : Context :=
  foldl (fun context t => (get_or_create_unique_type context t).1) context basic_types.
Definition Context_new : Context := create_basic_types (mkContext ∅ ∅).

Definition new_uint (context : Context) (width : Z) : Context * Ty := get_or_create_unique_type context (TUint width).
Definition new_string_array (context : Context) (len : Z) : Context * Ty := get_or_create_unique_type context (TStringArray len).
Definition new_array (context : Context) (elm_ty : Ty) (len : Z) : Context * Ty := get_or_create_unique_type context (TArray elm_ty len).
Definition new_union (context : Context) (fields : list Ty) : Context * Ty := get_or_create_unique_type context (TUnion fields).
Definition new_struct (context : Context) (fields : list Ty) : Context * Ty := get_or_create_unique_type context (TStruct fields).
Definition new_ptr (context : Context) (to_ty : Ty) : Context * Ty := get_or_create_unique_type context (TPointer to_ty).
Definition get_typed_slice (context : Context) (item_ty : Ty) : Context * Ty := get_or_create_unique_type context (TTypedSlice item_ty).
End context.

Definition get_content (context : Context) (self : Ty) : Result TypeContent :=
  match types context !! self with Some t => Ok t | None => Err (Panic "invalid SlotMap key used") end.

(** [get_type(..).expect(..)] *)
Definition get_basic (context : Context) (t : TypeContent) : Result Ty :=
  match get_type context t with Some ty => Ok ty | None => Err (Panic "create_basic_types not called") end.
Definition get_never (context : Context) : Result Ty := get_basic context TNever.
Definition get_unit (context : Context) : Result Ty := get_basic context TUnit.
Definition get_bool (context : Context) : Result Ty := get_basic context TBool.
Definition get_uint8 (context : Context) : Result Ty := get_basic context (TUint 8).
Definition get_uint16 (context : Context) : Result Ty := get_basic context (TUint 16).
Definition get_uint32 (context : Context) : Result Ty := get_basic context (TUint 32).
Definition get_uint64 (context : Context) : Result Ty := get_basic context (TUint 64).
Definition get_uint256 (context : Context) : Result Ty := get_basic context (TUint 256).
Definition get_b256 (context : Context) : Result Ty := get_basic context TB256.
Definition get_slice (context : Context) : Result Ty := get_basic context TSlice.
Definition get_uint (context : Context) (width : Z) : option Ty := get_type context (TUint width).

Section queries.
Context (context : Context).

(** ** Predicates *)

(** [matches!(self.get_content(context), ..)] *)
Definition matches_content (f : TypeContent -> bool) (self : Ty) : Result bool := f <$> get_content context self.

Definition is_never : Ty -> Result bool := matches_content (fun t => match t with TNever => true | _ => false end).
Definition is_bool : Ty -> Result bool := matches_content (fun t => match t with TBool => true | _ => false end).
Definition is_unit : Ty -> Result bool := matches_content (fun t => match t with TUnit => true | _ => false end).
Definition is_uint : Ty -> Result bool := matches_content (fun t => match t with TUint _ => true | _ => false end).
Definition is_uint_of (width : Z) : Ty -> Result bool := matches_content (fun t => match t with TUint width' => width =? width' | _ => false end).
Definition is_uint8 : Ty -> Result bool := is_uint_of 8.
Definition is_uint32 : Ty -> Result bool := is_uint_of 32.
Definition is_uint64 : Ty -> Result bool := is_uint_of 64.
Definition is_b256 : Ty -> Result bool := matches_content (fun t => match t with TB256 => true | _ => false end).
Definition is_string_slice : Ty -> Result bool := matches_content (fun t => match t with TStringSlice => true | _ => false end).
Definition is_string_array : Ty -> Result bool := matches_content (fun t => match t with TStringArray _ => true | _ => false end).
Definition is_array : Ty -> Result bool := matches_content (fun t => match t with TArray _ _ => true | _ => false end).
Definition is_union : Ty -> Result bool := matches_content (fun t => match t with TUnion _ => true | _ => false end).
Definition is_struct : Ty -> Result bool := matches_content (fun t => match t with TStruct _ => true | _ => false end).
Definition is_slice : Ty -> Result bool := matches_content (fun t => match t with TSlice => true | _ => false end).
Definition is_ptr : Ty -> Result bool := matches_content (fun t => match t with TPointer _ => true | _ => false end).

Definition get_field_types (self : Ty) : Result (list Ty) :=
  t ← get_content context self;
  Ok (match t with TStruct fields | TUnion fields => fields | _ => [] end).

Definition is_enum (self : Ty) : Result bool :=
  s ← is_struct self;
  if (s : bool) then
    field_tys ← get_field_types self;
    match field_tys with
    | [tag; value] => t ← is_uint tag; if (t : bool) then is_union value else Ok false
    | _ => Ok false
    end
  else Ok false.

Definition is_aggregate (self : Ty) : Result bool :=
  s ← is_struct self;
  if (s : bool) then Ok true
  else u ← is_union self; if (u : bool) then Ok true else is_array self.

Definition get_pointee_type (self : Ty) : Result (option Ty) :=
  t ← get_content context self; Ok (match t with TPointer to_ty => Some to_ty | _ => None end).
Definition get_uint_width (self : Ty) : Result (option Z) :=
  t ← get_content context self; Ok (match t with TUint width => Some width | _ => None end).
Definition get_field_type (self : Ty) (idx : Z) : Result (option Ty) :=
  t ← get_content context self;
  Ok (match t with TStruct fields | TUnion fields => fields !! Z.to_nat idx | _ => None end).
Definition get_array_elem_type (self : Ty) : Result (option Ty) :=
  t ← get_content context self; Ok (match t with TArray ty _ => Some ty | _ => None end).
Definition get_typed_slice_elem_type (self : Ty) : Result (option Ty) :=
  t ← get_content context self; Ok (match t with TTypedSlice ty => Some ty | _ => None end).
Definition get_array_len (self : Ty) : Result (option Z) :=
  t ← get_content context self; Ok (match t with TArray _ n => Some n | _ => None end).
Definition get_string_len (self : Ty) : Result (option Z) :=
  t ← get_content context self; Ok (match t with TStringArray n => Some n | _ => None end).

(** ** Equivalence *)

Fixpoint eq_fuel (fuel : nat) (self other : Ty) : Result bool :=
  match fuel with
  | O => Err OutOfFuel
  | S fuel' =>
      l ← get_content context self;
      r ← get_content context other;
      match l, r with
      | TUnit, TUnit | TBool, TBool | TB256, TB256 | TStringSlice, TStringSlice => Ok true
      | TUint l, TUint r => Ok (l =? r)
      | TStringArray l, TStringArray r => Ok (l =? r)
      | TArray l llen, TArray r rlen => if llen =? rlen then eq_fuel fuel' l r else Ok false
      | TTypedSlice l, TTypedSlice r => eq_fuel fuel' l r
      | TStruct l, TStruct r | TUnion l, TUnion r =>
          if (length l =? length r)%nat then all_ok (fun p => eq_fuel fuel' p.1 p.2) (zip l r) else Ok false
      | _, TUnion _ => eq_fuel fuel' other self
      | TUnion l, _ => any_ok (fun field_ty => eq_fuel fuel' other field_ty) l
      | TNever, _ => Ok true
      | TSlice, TSlice => Ok true
      | TPointer l, TPointer r => eq_fuel fuel' l r
      | _, _ => Ok false
      end
  end.

(** A call goes down in one of the types, or swaps them once. *)
Definition Type_eq (self other : Ty) : Result bool := eq_fuel (4 * S (size (types context))) self other.

(** ** Sizes *)

Record TypeSize : Type := TypeSize_new { size_in_bytes : Z }.

Definition in_bytes (self : TypeSize) : Z := size_in_bytes self.
Definition round_up_to_word (n : Z) : Result Z := a ← u64_add n 7; Ok (a - a mod 8).
Definition in_bytes_aligned (self : TypeSize) : Result Z := round_up_to_word (size_in_bytes self).
Definition in_words (self : TypeSize) : Result Z := a ← u64_add (size_in_bytes self) 7; Ok (a / 8).

(** [iter().max().unwrap_or(0)] *)
Definition max_or_zero (l : list Z) : Z := foldr Z.max 0 l.

Fixpoint size_fuel (fuel : nat) (self : Ty) : Result TypeSize :=
  match fuel with
  | O => Err OutOfFuel
  | S fuel' =>
      t ← get_content context self;
      match t with
      | TBool | TUnit | TNever => Ok (TypeSize_new 1)
      | TUint width =>
          if width =? 8 then Ok (TypeSize_new 1)
          else if (width =? 16) || (width =? 32) || (width =? 64) then Ok (TypeSize_new 8)
          else if width =? 256 then Ok (TypeSize_new 32)
          else Err (Panic "internal error: entered unreachable code")
      | TPointer _ => Ok (TypeSize_new 8)
      | TSlice | TTypedSlice _ | TStringSlice => Ok (TypeSize_new 16)
      | TB256 => Ok (TypeSize_new 32)
      | TStringArray n => n ← round_up_to_word n; Ok (TypeSize_new n)
      | TArray el_ty cnt => el ← size_fuel fuel' el_ty; n ← u64_mul cnt (in_bytes el); Ok (TypeSize_new n)
      | TStruct field_tys =>
          n ← fold_ok (fun n field_ty => s ← size_fuel fuel' field_ty; a ← in_bytes_aligned s; u64_add n a) 0 field_tys;
          Ok (TypeSize_new n)
      | TUnion field_tys =>
          l ← traverse (fun field_ty => s ← size_fuel fuel' field_ty; in_bytes_aligned s) field_tys;
          Ok (TypeSize_new (max_or_zero l))
      end
  end.

(** The types that a type refers to are older. *)
Definition Type_size (self : Ty) : Result TypeSize := size_fuel (S (size (types context))) self.

(** ** Indexing *)

Fixpoint try_fold {A B} (f : B -> A -> Result (option B)) (b : B) (l : list A) : Result (option B) :=
  match l with
  | [] => Ok (Some b)
  | x :: l' => o ← f b x; match o with Some b' => try_fold f b' l' | None => Ok None end
  end.

Definition index_type (ty : Ty) (idx : Z) : Result (option Ty) :=
  o ← get_field_type ty idx;
  match o with
  | Some field_ty => Ok (Some field_ty)
  | None =>
      t ← get_content context ty;
      Ok (match t with TArray elm_ty len => if idx <? len then Some elm_ty else None | _ => None end)
  end.

Definition get_indexed_type (self : Ty) (indices : list Z) : Result (option Ty) :=
  match indices with [] => Ok None | _ => try_fold index_type self indices end.

(** The sum of the aligned sizes *)
Definition sum_aligned (n : Z) (field_tys : list Ty) : Result Z :=
  fold_ok (fun n field_ty => s ← Type_size field_ty; a ← in_bytes_aligned s; u64_add n a) n field_tys.

Definition index_offset (p : Ty * Z) (idx : Z) : Result (option (Ty * Z)) :=
  let '(ty, accum_offset) := p in
  s ← is_struct ty;
  if (s : bool) then
    field_tys ← get_field_types ty;
    prev_idxs_offset ← sum_aligned 0 (take (Z.to_nat idx) field_tys);
    match field_tys !! Z.to_nat idx with
    | Some field_ty => n ← u64_add accum_offset prev_idxs_offset; Ok (Some (field_ty, n))
    | None => Ok None
    end
  else
    u ← is_union ty;
    if (u : bool) then
      union_size ← Type_size ty;
      o ← get_field_type ty idx;
      match o with
      | Some field_ty =>
          field_size ← Type_size field_ty;
          d ← u64_minus (in_bytes union_size) (in_bytes field_size);
          n ← u64_add accum_offset d;
          Ok (Some (field_ty, n))
      | None => Ok None
      end
    else
      o ← get_array_elem_type ty;
      match o with
      | Some elm_ty =>
          elm_size ← Type_size elm_ty;
          prev_idxs_offset ← u64_mul (in_bytes elm_size) idx;
          n ← u64_add accum_offset prev_idxs_offset;
          Ok (Some (elm_ty, n))
      | None => Err (Panic "Expected aggregate type.")
      end.

Definition get_indexed_offset (self : Ty) (indices : list Z) : Result (option Z) :=
  o ← try_fold index_offset (self, 0) indices;
  Ok (match o with Some (_, n) => Some n | None => None end).

(** [field_types[field_idx]] *)
Definition get_struct_field_offset_and_type (self : Ty) (field_idx : Z) : Result (option (Z * Ty)) :=
  s ← is_struct self;
  if (s : bool) then
    field_types ← get_field_types self;
    field_offs_in_bytes ← sum_aligned 0 (take (Z.to_nat field_idx) field_types);
    match field_types !! Z.to_nat field_idx with
    | Some field_type => Ok (Some (field_offs_in_bytes, field_type))
    | None => Err (Panic "index out of bounds")
    end
  else Ok None.

Definition get_union_field_offset_and_type (self : Ty) (field_idx : Z) : Result (option (Z * Ty)) :=
  u ← is_union self;
  if (u : bool) then
    field_types ← get_field_types self;
    match field_types !! Z.to_nat field_idx with
    | Some field_type =>
        union_size ← Type_size self;
        field_size ← Type_size field_type;
        d ← u64_minus (in_bytes union_size) (in_bytes field_size);
        Ok (Some (d, field_type))
    | None => Err (Panic "index out of bounds")
    end
  else Ok None.
End queries.
