(* ===== verification/IrTypeTheory.v ===== *)
(** * Well-formed type contexts, sizes and equivalence

    The keys and the contents of types are in bijection and types refer to older types
    only, so that the recursion through keys ends; sizes satisfy the equations of the
    memory layout. *)

From S2P Require Import Prelude IrTypes.
Local Open Scope Z_scope.

(** ** Contexts *)

(** Integers of the widths that [size] knows, and lengths that fit in a [u64] *)
Definition content_ok (t : TypeContent) : Prop :=
  match t with
  | TUint width => width ∈ [8; 16; 32; 64; 256]
  | TStringArray n | TArray _ n => 0 <= n < 2 ^ 64
  | _ => True
  end.

Record context_ok (context : Context) : Prop := {
  ctx_map t ty : type_map context !! t = Some ty <-> types context !! ty = Some t;
  ctx_content ty t : types context !! ty = Some t -> content_ok t;
  ctx_rank : exists rank : Ty -> nat, forall ty t, types context !! ty = Some t ->
    (rank ty < size (types context))%nat /\
    forall c, c ∈ child_types t -> is_Some (types context !! c) /\ (rank c < rank ty)%nat;
}.

Definition extends (context context' : Context) : Prop := types context ⊆ types context'.

#[export] Instance extends_preorder : PreOrder extends.
Proof. split; unfold extends; [by intros ?|]. intros ? ? ? H1 H2. by etrans. Qed.

Section create.
Context `{SlotMap}.

Lemma empty_context_ok : context_ok (mkContext ∅ ∅).
Proof.
  split; cbn; [done|by intros ? ?; rewrite lookup_empty|]. exists (fun _ => O). intros ty t. by rewrite lookup_empty.
Qed.

Lemma get_or_create_Ok context t :
  context_ok context -> content_ok t -> (forall c, c ∈ child_types t -> is_Some (types context !! c)) ->
  context_ok (get_or_create_unique_type context t).1 /\
  extends context (get_or_create_unique_type context t).1 /\
  types (get_or_create_unique_type context t).1 !! (get_or_create_unique_type context t).2 = Some t.
Proof.
  intros [Hmap Hok [rank Hrank]] Ht Hc. unfold get_or_create_unique_type.
  destruct (type_map context !! t) as [ty|] eqn:Hty; cbn.
  { split; [split; [done|done|by exists rank]|]. split; [done|by apply Hmap]. }
  pose proof (new_key_fresh (types context)) as Hnew. set (k := new_key (types context)) in *.
  split; [|split; [by apply insert_subseteq|by rewrite lookup_insert_eq]]. split; cbn.
  - intros t' ty. rewrite !lookup_insert_Some, Hmap. split.
    + intros [[<- <-]|[Hne Hty']]; [by left|right]. split; [|done]. intros <-. congruence.
    + intros [[<- <-]|[Hne Hty']]; [by left|right]. split; [|done]. intros <-. apply Hmap in Hty'. congruence.
  - intros ty t' [[<- <-]|[_ ?]]%lookup_insert_Some; [done|by eapply Hok].
  - exists (fun ty => if decide (ty = k) then size (types context) else rank ty). rewrite map_size_insert_None by done.
    assert (forall c, is_Some (types context !! c) -> c <> k) as Hold by (intros c [? ?] ->; congruence).
    intros ty t' [[<- <-]|[Hne Hty']]%lookup_insert_Some.
    + rewrite decide_True by done. split; [lia|]. intros c Hin. pose proof (Hc c Hin) as [tc Htc].
      rewrite decide_False by (by apply Hold; eexists). split; [apply lookup_insert_is_Some'; right; by eexists|]. by eapply Hrank.
    + rewrite decide_False by done. destruct (Hrank ty t' Hty') as [Hlt Hch]. split; [lia|]. intros c Hin.
      destruct (Hch c Hin) as [Hs Hr]. rewrite decide_False by by apply Hold. split; [|done]. apply lookup_insert_is_Some'. by right.
Qed.

Lemma fold_create_Ok context l :
  context_ok context -> Forall content_ok l -> Forall (fun t => child_types t = []) l ->
  let context' := foldl (fun context t => (get_or_create_unique_type context t).1) context l in
  context_ok context' /\ extends context context' /\ forall t, t ∈ l -> is_Some (get_type context' t).
Proof.
  revert context. induction l as [|t l IH]; intros context Hctx Hl Hch; cbn; [by split_and!; [done..|intros t ?%elem_of_nil]|].
  apply Forall_cons in Hl as [Ht Hl]. apply Forall_cons in Hch as [Htc Hch].
  destruct (get_or_create_Ok context t Hctx Ht) as (H1 & H2 & H3); [rewrite Htc; by intros c ?%elem_of_nil|].
  destruct (IH _ H1 Hl Hch) as (I1 & I2 & I3). split; [done|]. split; [by etrans|].
  intros t' [->|Hin]%elem_of_cons; [|by apply I3]. exists (get_or_create_unique_type context t).2. apply (ctx_map _ I1).
  eapply lookup_weaken; [exact H3|exact I2].
Qed.

Lemma Context_new_Ok : context_ok Context_new /\ forall t, t ∈ basic_types -> is_Some (get_type Context_new t).
Proof.
  unfold Context_new, create_basic_types. destruct (fold_create_Ok (mkContext ∅ ∅) basic_types) as (H1 & _ & H3); [apply empty_context_ok| | |done].
  - unfold basic_types. repeat constructor; cbn; set_solver.
  - unfold basic_types. repeat constructor.
Qed.
End create.

(** Two types of the same structure *)
Inductive alike (context : Context) : Ty -> Ty -> Prop :=
  | alike_intro a b ta tb : types context !! a = Some ta -> types context !! b = Some tb ->
      (encode_content ta).1 = (encode_content tb).1 -> Forall2 (alike context) (child_types ta) (child_types tb) ->
      alike context a b.

Lemma child_types_encode t : (encode_content t).2 = child_types t.
Proof. by destruct t. Qed.

Lemma decode_encode_content t : decode_content (encode_content t) = Some t.
Proof. by destruct t. Qed.

Lemma alike_eq context a b : context_ok context -> alike context a b -> a = b.
Proof.
  intros Hctx. revert a b. fix IH 3. intros a b [? ? ta tb Ha Hb Hcode Hch].
  assert (child_types ta = child_types tb) as Heq.
  { revert Hch. generalize (child_types ta) as la. generalize (child_types tb) as lb. clear - IH.
    intros lb la. revert la lb. fix IHl 3. intros la lb [|x y la' lb' Hxy Hl]; [done|]. f_equal; [by apply IH|by apply IHl]. }
  assert (encode_content ta = encode_content tb) as Henc.
  { rewrite (surjective_pairing (encode_content ta)), (surjective_pairing (encode_content tb)). by rewrite Hcode, !child_types_encode, Heq. }
  apply (f_equal decode_content) in Henc. rewrite !decode_encode_content in Henc. injection Henc as <-.
  apply (ctx_map _ Hctx) in Ha, Hb. congruence.
Qed.

(** ** Loops with equal steps *)

Lemma fold_ok_ext {A B} (f g : B -> A -> Result B) b l :
  (forall x b, x ∈ l -> f b x = g b x) -> fold_ok f b l = fold_ok g b l.
Proof.
  revert b. induction l as [|x l IH]; intros b Hfg; [done|]. cbn. rewrite Hfg by by left. destruct (g b x) as [b'|]; [|done].
  apply IH. intros y b'' Hy. apply Hfg. by right.
Qed.

Lemma traverse_ext {A B} (f g : A -> Result B) l : (forall x, x ∈ l -> f x = g x) -> traverse f l = traverse g l.
Proof.
  induction l as [|x l IH]; intros Hfg; [done|]. cbn. rewrite Hfg by by left. rewrite IH; [done|]. intros y Hy. apply Hfg. by right.
Qed.

(** ** The equations of sizes *)

(** The size of a content, given the sizes of the types it refers to *)
Definition size_body (sz : Ty -> Result TypeSize) (t : TypeContent) : Result TypeSize :=
  match t with
  | TBool | TUnit | TNever => Ok (TypeSize_new 1)
  | TUint width =>
      if width =? 8 then Ok (TypeSize_new 1)
      else if (width =? 16) || (width =? 32) || (width =? 64) then Ok (TypeSize_new 8)
      else if width =? 256 then Ok (TypeSize_new 32)
      else Err (Panic "internal error: entered unreachable code")
  | TPointer _ => Ok (TypeSize_new 8)
  | TSlice | TTypedSlice _ | TStringSlice => Ok (TypeSize_new 16)
  | TB256 => Ok (TypeSize_new 32)
  | TStringArray n => n ← round_up_to_word n; Ok (TypeSize_new n)
  | TArray el_ty cnt => el ← sz el_ty; n ← u64_mul cnt (in_bytes el); Ok (TypeSize_new n)
  | TStruct field_tys =>
      n ← fold_ok (fun n field_ty => s ← sz field_ty; a ← in_bytes_aligned s; u64_add n a) 0 field_tys;
      Ok (TypeSize_new n)
  | TUnion field_tys =>
      l ← traverse (fun field_ty => s ← sz field_ty; in_bytes_aligned s) field_tys;
      Ok (TypeSize_new (max_or_zero l))
  end.

Lemma size_fuel_body context fuel ty : size_fuel context (S fuel) ty = (t ← get_content context ty; size_body (size_fuel context fuel) t).
Proof. done. Qed.

Lemma size_body_ext f g t : (forall c, c ∈ child_types t -> f c = g c) -> size_body f t = size_body g t.
Proof.
  destruct t; intros Hfg; cbn in *; try done.
  - by rewrite Hfg by by left.
  - erewrite traverse_ext; [done|]. intros x Hx. by rewrite Hfg.
  - erewrite fold_ok_ext; [done|]. intros x b Hx. by rewrite Hfg.
Qed.

Section sizes.
Context (context : Context) (Hctx : context_ok context).

Lemma size_fuel_enough (rank : Ty -> nat) f1 f2 ty :
  (forall ty t, types context !! ty = Some t -> forall c, c ∈ child_types t -> (rank c < rank ty)%nat) ->
  (rank ty < f1)%nat -> (rank ty < f2)%nat -> size_fuel context f1 ty = size_fuel context f2 ty.
Proof.
  intros Hr. revert f2 ty. induction f1 as [|f1 IH]; intros [|f2] ty H1 H2; [lia..|]. rewrite !size_fuel_body. unfold get_content.
  destruct (types context !! ty) as [t|] eqn:Ht; [|done]. cbn. apply size_body_ext. intros c Hc. specialize (Hr ty t Ht c Hc).
  apply IH; lia.
Qed.

Lemma Type_size_unfold ty t : types context !! ty = Some t -> Type_size context ty = size_body (Type_size context) t.
Proof.
  intros Ht. destruct (ctx_rank _ Hctx) as [rank Hr]. unfold Type_size. rewrite size_fuel_body. unfold get_content. rewrite Ht. next_step.
  destruct (Hr ty t Ht) as [Hlt Hch]. apply size_body_ext. intros c Hc. destruct (Hch c Hc) as [[tc Htc] Hcr].
  apply (size_fuel_enough rank); [intros ty' t' Ht' c' Hc'; by apply (Hr ty' t')|lia|lia].
Qed.

(** Induction from the older types to the newer ones *)
Lemma type_ind (P : Ty -> Prop) :
  (forall ty t, types context !! ty = Some t -> (forall c, c ∈ child_types t -> P c) -> P ty) ->
  forall ty, is_Some (types context !! ty) -> P ty.
Proof.
  intros HP. destruct (ctx_rank _ Hctx) as [rank Hr]. intros ty. remember (rank ty) as n eqn:Hn. revert ty Hn.
  induction n as [n IH] using lt_wf_ind. intros ty -> [t Ht]. apply (HP ty t Ht). intros c Hc.
  destruct (Hr ty t Ht) as [_ Hch]. destruct (Hch c Hc) as [Hs Hlt]. by eapply IH.
Qed.

Lemma child_exists ty t c : types context !! ty = Some t -> c ∈ child_types t -> is_Some (types context !! c).
Proof. intros Ht Hc. destruct (ctx_rank _ Hctx) as [rank Hr]. by apply (Hr ty t Ht). Qed.

(** ** Sizes fit in a word and are rounded up *)

Definition align8 (n : Z) : Z := n + 7 - (n + 7) mod 8.

Lemma align8_bounds n : n <= align8 n <= n + 7 /\ align8 n mod 8 = 0.
Proof. unfold align8. Z.div_mod_to_equations. lia. Qed.

Lemma align8_id n : n mod 8 = 0 -> align8 n = n.
Proof. unfold align8. Z.div_mod_to_equations. lia. Qed.

Lemma u64_add_Ok a b n : u64_add a b = Ok n <-> n = a + b /\ a + b < 2 ^ 64.
Proof. unfold u64_add. destruct (Z.ltb_spec (a + b) (2 ^ 64)); split; [by intros [= <-]|by intros [-> _]|done|lia]. Qed.
Lemma u64_mul_Ok a b n : u64_mul a b = Ok n <-> n = a * b /\ a * b < 2 ^ 64.
Proof. unfold u64_mul. destruct (Z.ltb_spec (a * b) (2 ^ 64)); split; [by intros [= <-]|by intros [-> _]|done|lia]. Qed.
Lemma u64_minus_Ok a b n : u64_minus a b = Ok n <-> n = a - b /\ b <= a.
Proof. unfold u64_minus. destruct (Z.leb_spec b a); split; [by intros [= <-]|by intros [-> _]|done|lia]. Qed.

Lemma round_up_to_word_Ok n m : round_up_to_word n = Ok m <-> m = align8 n /\ n + 7 < 2 ^ 64.
Proof.
  unfold round_up_to_word, align8. rewrite bind_Ok. split.
  - intros (a & [-> Hlt]%u64_add_Ok & [= <-]). done.
  - intros [-> Hlt]. exists (n + 7). split; [by apply u64_add_Ok|done].
Qed.

Lemma align8_fits n : align8 n < 2 ^ 64 <-> n + 7 < 2 ^ 64.
Proof. unfold align8. Z.div_mod_to_equations. lia. Qed.

(** The sizes of the types [l] *)
Definition sized (l : list Ty) (ns : list Z) : Prop :=
  Forall2 (fun ty n => Type_size context ty = Ok (TypeSize_new n)) l ns.

Lemma sized_det l ns ns' : sized l ns -> sized l ns' -> ns = ns'.
Proof.
  intros Hns. revert ns'. induction Hns as [|ty n l ns Hn _ IH]; intros ns' Hns'; inversion Hns' as [|? n' ? ns'' Hn']; subst; [done|].
  rewrite Hn in Hn'. injection Hn' as <-. f_equal. by apply IH.
Qed.

Definition total (ns : list Z) : Z := foldr (fun n acc => align8 n + acc) 0 ns.

Lemma total_cons n ns : total (n :: ns) = align8 n + total ns.
Proof. done. Qed.

Lemma total_app ns ns' : total (ns ++ ns') = total ns + total ns'.
Proof. induction ns as [|n ns IH]; [done|]. rewrite <- app_comm_cons, !total_cons, IH. lia. Qed.

Lemma total_nonneg ns : Forall (fun n => 0 <= n) ns -> 0 <= total ns.
Proof. induction 1 as [|n ns Hn _ IH]; [done|]. rewrite total_cons. pose proof (align8_bounds n). lia. Qed.

Lemma total_aligned ns : total ns mod 8 = 0.
Proof.
  induction ns as [|n ns IH]; [done|]. rewrite total_cons. pose proof (align8_bounds n) as [_ Hn].
  rewrite Z.add_mod, Hn, IH by done. done.
Qed.

Lemma aligned_size ty n :
  (s ← Type_size context ty; in_bytes_aligned s) = Ok n <-> exists s, Type_size context ty = Ok (TypeSize_new s) /\ n = align8 s /\ align8 s < 2 ^ 64.
Proof.
  rewrite bind_Ok. split.
  - intros ([s] & Hs & [-> Hn]%round_up_to_word_Ok). exists s. by rewrite align8_fits.
  - intros (s & Hs & -> & Hn). exists (TypeSize_new s). split; [done|]. apply round_up_to_word_Ok. by rewrite <- align8_fits.
Qed.

Lemma sum_aligned_cons a f l :
  sum_aligned context a (f :: l) = (b ← (s ← Type_size context f; c ← in_bytes_aligned s; u64_add a c); sum_aligned context b l).
Proof. done. Qed.

Lemma sum_aligned_inv a l n : a < 2 ^ 64 -> sum_aligned context a l = Ok n -> exists ns, sized l ns /\ n = a + total ns /\ n < 2 ^ 64.
Proof.
  revert a. induction l as [|f l IH]; intros a Ha; [intros [= <-]; exists []; split; [constructor|cbn; lia]|].
  rewrite sum_aligned_cons.
  intros (b & Hb & Hn)%bind_Ok. apply bind_Ok in Hb as (s & Hs & Hb). apply bind_Ok in Hb as (c & Hc & Hb).
  apply u64_add_Ok in Hb as [-> Hb]. apply IH in Hn as (ns & Hns & -> & Hlt); [|done]. destruct s as [s].
  apply round_up_to_word_Ok in Hc as [-> Hc]. exists (s :: ns). rewrite total_cons. split; [by constructor|]. cbn in *. lia.
Qed.

Lemma sum_aligned_Ok a l ns :
  sized l ns -> Forall (fun n => 0 <= n) ns -> 0 <= a -> a + total ns < 2 ^ 64 -> sum_aligned context a l = Ok (a + total ns).
Proof.
  intros Hl. revert a. induction Hl as [|f n l ns Hf Hl IH]; intros a Hns Ha Hlt; [by rewrite Z.add_0_r|].
  apply Forall_cons in Hns as [Hn Hns]. rewrite sum_aligned_cons, Hf. next_step. rewrite total_cons in *.
  pose proof (total_nonneg ns Hns). pose proof (align8_bounds n) as [? _].
  unfold in_bytes_aligned. cbn [size_in_bytes]. rewrite (proj2 (round_up_to_word_Ok n (align8 n))) by (rewrite <- align8_fits; lia). next_step.
  rewrite (proj2 (u64_add_Ok a (align8 n) _)) by (split; [done|lia]). next_step.
  rewrite IH; [|done|lia|lia]. f_equal. lia.
Qed.

Lemma max_or_zero_spec l : (forall n, n ∈ l -> n <= max_or_zero l) /\ (max_or_zero l = 0 \/ max_or_zero l ∈ l) /\ 0 <= max_or_zero l.
Proof.
  induction l as [|n l (IH1 & IH2 & IH3)]; [split; [by intros n ?%elem_of_nil|]; split; [by left|done]|].
  change (max_or_zero (n :: l)) with (Z.max n (max_or_zero l)).
  split_and!; [intros m [->|Hm]%elem_of_cons; [lia|specialize (IH1 m Hm); lia]| |lia].
  destruct (Z.max_spec n (max_or_zero l)) as [[_ ->]|[_ ->]]; [|right; by left]. destruct IH2; [by left|right; by right].
Qed.

(** ** The size of each kind of type *)

Lemma Type_size_bound ty n : is_Some (types context !! ty) -> Type_size context ty = Ok (TypeSize_new n) -> 0 <= n < 2 ^ 64.
Proof.
  intros Hty. revert n. revert ty Hty. refine (type_ind _ _). intros ty t Ht IH n. rewrite (Type_size_unfold ty t Ht).
  pose proof (ctx_content _ Hctx ty t Ht) as Hok. destruct t; cbn [size_body]; try (intros [= <-]; lia).
  - intros H. case_tests; by inversion H.
  - intros (m & [-> Hm]%round_up_to_word_Ok & [= <-])%bind_Ok. apply align8_fits in Hm. cbn in Hok. pose proof (align8_bounds len). lia.
  - intros ([s] & Hs & (m & [-> Hm]%u64_mul_Ok & [= <-])%bind_Ok)%bind_Ok. apply IH in Hs; [|by left]. cbn in *. nia.
  - intros (l & Hl & [= <-])%bind_Ok. pose proof (max_or_zero_spec l) as (_ & Hm & Hz). split; [done|].
    destruct Hm as [->|Hm]; [done|]. rewrite traverse_Ok in Hl. apply list_elem_of_lookup in Hm as [i Hi].
    destruct (Forall2_lookup_r _ _ _ _ _ Hl Hi) as (f & Hf & (s & _ & -> & Hs)%aligned_size). done.
  - intros (m & Hm & [= <-])%bind_Ok. apply sum_aligned_inv in Hm as (ns & Hns & -> & Hlt); [|done]. split; [|done].
    cbn. apply total_nonneg. apply Forall_lookup. intros i k Hi.
    destruct (Forall2_lookup_r _ _ _ _ _ Hns Hi) as (f & Hf & Hs). apply IH in Hs; [lia|]. by eapply list_elem_of_lookup_2.
Qed.

Lemma sized_nonneg ty t ns : types context !! ty = Some t -> sized (child_types t) ns -> Forall (fun n => 0 <= n) ns.
Proof.
  intros Ht Hns. apply Forall_lookup. intros i n Hi. destruct (Forall2_lookup_r _ _ _ _ _ Hns Hi) as (f & Hf & Hs).
  eapply Type_size_bound; [|done]. eapply child_exists; [done|]. by eapply list_elem_of_lookup_2.
Qed.

Lemma struct_size ty l n :
  types context !! ty = Some (TStruct l) ->
  Type_size context ty = Ok (TypeSize_new n) <-> exists ns, sized l ns /\ n = total ns /\ n < 2 ^ 64.
Proof.
  intros Ht. rewrite (Type_size_unfold ty _ Ht). cbn [size_body]. rewrite bind_Ok. split.
  - intros (m & Hm & [= <-]). by apply sum_aligned_inv in Hm.
  - intros (ns & Hns & -> & Hlt). exists (0 + total ns). split; [|done]. apply sum_aligned_Ok; [done| |done|done].
    by eapply (sized_nonneg ty (TStruct l)).
Qed.

Lemma union_size ty l n :
  types context !! ty = Some (TUnion l) ->
  Type_size context ty = Ok (TypeSize_new n) -> exists ns, sized l ns /\ n = max_or_zero (align8 <$> ns) /\ Forall (fun n => align8 n < 2 ^ 64) ns.
Proof.
  intros Ht. rewrite (Type_size_unfold ty _ Ht). cbn [size_body]. intros (m & Hm & [= <-])%bind_Ok. rewrite traverse_Ok in Hm.
  assert (exists ns, sized l ns /\ m = align8 <$> ns /\ Forall (fun n => align8 n < 2 ^ 64) ns) as (ns & ? & -> & ?); [|by exists ns].
  clear Ht. induction Hm as [|f k l m (s & Hs & -> & Hlt)%aligned_size _ (ns & Hns & -> & Hall)]; [by exists []; repeat constructor|].
  exists (s :: ns). split; [by constructor|]. split; [done|by constructor].
Qed.

Lemma array_size ty elm len n :
  types context !! ty = Some (TArray elm len) ->
  Type_size context ty = Ok (TypeSize_new n) <-> exists s, Type_size context elm = Ok (TypeSize_new s) /\ n = len * s /\ n < 2 ^ 64.
Proof.
  intros Ht. rewrite (Type_size_unfold ty _ Ht). cbn [size_body]. rewrite bind_Ok. split.
  - intros ([s] & Hs & (m & [-> Hm]%u64_mul_Ok & [= <-])%bind_Ok). by exists s.
  - intros (s & Hs & -> & Hlt). exists (TypeSize_new s). split; [done|]. apply bind_Ok. exists (len * s). split; [by apply u64_mul_Ok|done].
Qed.
End sizes.

(** ** Types are unique *)

Section unique.
Context `{SlotMap}.

(** C28. Unique types: creating a type keeps the context well formed and every older type,
    and returns a type of the requested content; no other type of the new context has the
    same structure, and asking again changes nothing. *)
Theorem get_or_create_unique_type_correct context t :
  context_ok context -> content_ok t -> (forall c, c ∈ child_types t -> is_Some (types context !! c)) ->
  let '(context', ty) := get_or_create_unique_type context t in
  context_ok context' /\ extends context context' /\ get_content context' ty = Ok t /\
  (forall ty', alike context' ty' ty -> ty' = ty) /\ get_or_create_unique_type context' t = (context', ty).
Proof.
  intros Hctx Ht Hc. destruct (get_or_create_Ok context t Hctx Ht Hc) as (H1 & H2 & H3).
  destruct (get_or_create_unique_type context t) as [context' ty]. cbn in *. split_and!; [done|done| |by intros; eapply alike_eq|].
  - unfold get_content. by rewrite H3.
  - unfold get_or_create_unique_type. by rewrite (proj2 (ctx_map _ H1 t ty) H3).
Qed.
End unique.

(** ** A sample context *)

(** Keys that are the smallest fresh ones *)
#[export] Instance fresh_keys : SlotMap := {
  new_key V m := fresh (dom m);
  new_key_fresh V m := proj1 (not_elem_of_dom m (fresh (dom m))) (is_fresh (dom m));
}.

(** The basic types have the keys 1 to 10; then [{u8, b256}], [[u8; 5]], the union of
    [u64], [{u8, b256}] and [u8], the enum with this union, and a struct of the array and
    the enum, with the keys 11 to 15. *)
Definition sample_contents : list TypeContent :=
  [TStruct [4; 9]; TArray 4 5; TUnion [7; 11; 4]; TStruct [7; 13]; TStruct [12; 14]]%positive.
Definition sample_steps : Context :=
  foldl (fun context t => (get_or_create_unique_type context t).1) Context_new sample_contents.
Definition sample_context : Context := Eval vm_compute in sample_steps.

Ltac each_member :=
  let c := fresh "c" in let Hc := fresh "Hc" in
  intros c Hc; cbn in Hc; repeat (apply elem_of_cons in Hc as [->|Hc]; [vm_compute; by eexists|]); by apply elem_of_nil in Hc.

Lemma sample_context_ok : context_ok sample_context.
Proof.
  replace sample_context with sample_steps by by vm_compute. unfold sample_steps, sample_contents. cbn [foldl]. do 5 (apply get_or_create_Ok; [|vm_compute; repeat constructor; done|each_member]).
  apply Context_new_Ok.
Qed.

Lemma get_or_create_unique_type_correct_witness :
  exists context' ty, get_or_create_unique_type sample_context (TStruct [14; 15]%positive) = (context', ty) /\
  context_ok context' /\ forall ty', alike context' ty' ty -> ty' = ty.
Proof.
  generalize (get_or_create_unique_type_correct sample_context (TStruct [14; 15]%positive) sample_context_ok I ltac:(each_member)).
  generalize (get_or_create_unique_type sample_context (TStruct [14; 15]%positive)). intros [context' ty] (H1 & _ & _ & H4 & _).
  by exists context', ty.
Defined.

(** * Sizes and equivalence of types return

    [size] fails at most by overflow; [eq] ends on every pair of types, holds of a type and
    itself, and is equality on types without unions and the never type. *)

(** ** Results that fail by overflow only *)

Definition overflows (e : CompileError) : Prop :=
  e = Panic "attempt to add with overflow" \/ e = Panic "attempt to multiply with overflow".
Definition ok_or_overflow {A} (r : Result A) : Prop := match r with Ok _ => True | Err e => overflows e end.

Lemma bind_overflow {A B} (m : Result A) (f : A -> Result B) :
  ok_or_overflow m -> (forall a, m = Ok a -> ok_or_overflow (f a)) -> ok_or_overflow (m ≫= f).
Proof. destruct m; cbn; auto. Qed.

Lemma u64_add_overflow a b : ok_or_overflow (u64_add a b).
Proof. unfold u64_add. case_match; [done|by left]. Qed.
Lemma u64_mul_overflow a b : ok_or_overflow (u64_mul a b).
Proof. unfold u64_mul. case_match; [done|by right]. Qed.
Lemma round_up_overflow n : ok_or_overflow (round_up_to_word n).
Proof. apply bind_overflow; [apply u64_add_overflow|done]. Qed.

Lemma fold_ok_overflow {A B} (f : B -> A -> Result B) b l :
  (forall b x, x ∈ l -> ok_or_overflow (f b x)) -> ok_or_overflow (fold_ok f b l).
Proof.
  revert b. induction l as [|x l IH]; intros b Hf; [done|]. cbn. apply bind_overflow; [apply Hf; by left|]. intros b' _. apply IH.
  intros b'' y Hy. apply Hf. by right.
Qed.

Lemma traverse_overflow {A B} (f : A -> Result B) l : (forall x, x ∈ l -> ok_or_overflow (f x)) -> ok_or_overflow (traverse f l).
Proof.
  induction l as [|x l IH]; intros Hf; [done|]. cbn. apply bind_overflow; [apply Hf; by left|]. intros y _.
  apply bind_overflow; [|done]. apply IH. intros z Hz. apply Hf. by right.
Qed.

(** ** Loops over answers *)

Lemma all_ok_spec {A} (f : A -> Result bool) l :
  (forall x, x ∈ l -> is_Ok (f x)) -> exists r, all_ok f l = Ok r /\ (r = true <-> forall x, x ∈ l -> f x = Ok true).
Proof.
  induction l as [|x l IH]; intros Hf; [exists true; split; [done|]; split; [by intros _ x ?%elem_of_nil|done]|]. cbn.
  destruct (Hf x) as [[] Hx]; [by left| |]; rewrite Hx; next_step.
  - destruct IH as (r & -> & Hr); [intros y Hy; apply Hf; by right|]. exists r. split; [done|]. rewrite Hr. split.
    + intros H y [->|Hy]%elem_of_cons; [done|by apply H].
    + intros H y Hy. apply H. by right.
  - exists false. split; [done|]. split; [done|]. intros H. specialize (H x ltac:(by left)). congruence.
Qed.

Lemma any_ok_returns {A} (f : A -> Result bool) l : (forall x, x ∈ l -> is_Ok (f x)) -> is_Ok (any_ok f l).
Proof.
  induction l as [|x l IH]; intros Hf; [by eexists|]. cbn. destruct (Hf x) as [[] ->]; [by left|by eexists|]. next_step.
  apply IH. intros y Hy. apply Hf. by right.
Qed.

Section types.
Context (context : Context) (Hctx : context_ok context).

(** ** Sizes *)

Definition word_sized (t : TypeContent) : bool :=
  match t with TStruct _ | TUnion _ | TStringArray _ => true | _ => false end.

Lemma word_sized_aligned ty t n :
  types context !! ty = Some t -> word_sized t = true -> Type_size context ty = Ok (TypeSize_new n) -> n mod 8 = 0.
Proof.
  intros Ht Hw Hn. destruct t; try done.
  - rewrite (Type_size_unfold _ Hctx ty _ Ht) in Hn. cbn [size_body] in Hn. inv_ok. apply round_up_to_word_Ok in Hok as [-> _]. apply align8_bounds.
  - apply (union_size _ Hctx ty _ n Ht) in Hn as (ns & _ & -> & _). destruct (max_or_zero_spec (align8 <$> ns)) as (_ & [->|Hin] & _); [done|].
    apply list_elem_of_fmap in Hin as (m & -> & _). apply align8_bounds.
  - apply (struct_size _ Hctx ty _ n Ht) in Hn as (ns & _ & -> & _). apply total_aligned.
Qed.

(** Sizes: the recursion through the types ends, and the size of every type of a
    well-formed context is computed or overflows 64 bits; the sizes of structs, unions
    and string arrays are multiples of the word size. *)
Theorem Type_size_returns ty t :
  types context !! ty = Some t ->
  (exists n, Type_size context ty = Ok (TypeSize_new n) /\ 0 <= n < 2 ^ 64 /\ (word_sized t = true -> n mod 8 = 0)) \/
  (exists e, Type_size context ty = Err e /\ overflows e).
Proof.
  intros Ht. assert (ok_or_overflow (Type_size context ty)) as Ho.
  { assert (is_Some (types context !! ty)) as Hty by by eexists. clear t Ht. revert ty Hty. refine (type_ind _ Hctx _ _). intros ty t Ht IH.
    rewrite (Type_size_unfold _ Hctx ty t Ht). pose proof (ctx_content _ Hctx ty t Ht) as Hc. destruct t; cbn [size_body]; try done.
    - cbn in Hc. case_tests; try done. exfalso. rewrite ?orb_false_iff, ?Z.eqb_neq in *. set_solver.
    - apply bind_overflow; [apply round_up_overflow|done].
    - apply bind_overflow; [apply IH; by left|]. intros s _. apply bind_overflow; [apply u64_mul_overflow|done].
    - apply bind_overflow; [|done]. apply traverse_overflow. intros f Hf. apply bind_overflow; [by apply IH|]. intros s _. apply round_up_overflow.
    - apply bind_overflow; [|done]. apply fold_ok_overflow. intros n f Hf. apply bind_overflow; [by apply IH|]. intros s _.
      apply bind_overflow; [apply round_up_overflow|]. intros a _. apply u64_add_overflow. }
  destruct (Type_size context ty) as [[n]|e] eqn:Hn; [left|right; by exists e]. exists n. split; [done|]. split.
  - by eapply Type_size_bound; [|eexists|].
  - intros Hw. by eapply word_sized_aligned.
Qed.

(** ** Equivalence *)

(** Types without unions and the never type *)
Inductive plain : Ty -> Prop :=
  | plain_intro ty t : types context !! ty = Some t -> t <> TNever -> (forall l, t <> TUnion l) ->
      (forall c, c ∈ child_types t -> plain c) -> plain ty.

Lemma plain_child ty t c : plain ty -> types context !! ty = Some t -> c ∈ child_types t -> plain c.
Proof. intros [? t' Ht' _ _ Hc] Ht. rewrite Ht in Ht'. injection Ht' as <-. apply Hc. Qed.

Lemma plain_no_union ty l : plain ty -> types context !! ty <> Some (TUnion l).
Proof. intros [? t Ht _ Hu _]. rewrite Ht. intros [= ->]. by apply (Hu l). Qed.

Lemma plain_no_never ty : plain ty -> types context !! ty <> Some TNever.
Proof. intros [? t Ht Hn _ _]. rewrite Ht. by intros [= ->]. Qed.

Definition answer (a b : Ty) (m : Result bool) : Prop :=
  exists r, m = Ok r /\ (a = b -> r = true) /\ (plain a -> plain b -> r = true -> a = b).

Definition is_union_content (t : TypeContent) : bool := match t with TUnion _ => true | _ => false end.

(** The steps that a call can take *)
Definition eq_measure (rank : Ty -> nat) (a b : Ty) (l r : TypeContent) : nat :=
  2 * (rank a + rank b) + (if is_union_content r && negb (is_union_content l) then 1 else 0).

Lemma same_content a b t : types context !! a = Some t -> types context !! b = Some t -> a = b.
Proof. intros Ha Hb. apply (ctx_map _ Hctx) in Ha, Hb. congruence. Qed.

Section measure.
Context (rank : Ty -> nat).
Context (Hrank : forall ty t, types context !! ty = Some t -> (rank ty < size (types context))%nat /\
  forall c, c ∈ child_types t -> is_Some (types context !! c) /\ (rank c < rank ty)%nat).

(** A call on types that are both older, or one of them *)
Lemma measure_less a b c d ta tb tc td :
  (2 * (rank c + rank d) + 1 < 2 * (rank a + rank b))%nat -> (eq_measure rank c d tc td < eq_measure rank a b ta tb)%nat.
Proof. intros Hlt. unfold eq_measure. case_match; case_match; lia. Qed.

Section step.
Context (fuel : nat) (IH : forall a b ta tb, types context !! a = Some ta -> types context !! b = Some tb ->
  (eq_measure rank a b ta tb < fuel)%nat -> answer a b (eq_fuel context fuel a b)).

Lemma eq_children a b ta tb c d :
  types context !! a = Some ta -> types context !! b = Some tb -> c ∈ child_types ta -> d ∈ child_types tb ->
  (eq_measure rank a b ta tb < S fuel)%nat -> answer c d (eq_fuel context fuel c d).
Proof.
  intros Ha Hb Hc Hd Hf. destruct (proj2 (Hrank a ta Ha) c Hc) as [[tc Htc] Hrc]. destruct (proj2 (Hrank b tb Hb) d Hd) as [[td Htd] Hrd].
  apply (IH c d tc td Htc Htd). pose proof (measure_less a b c d ta tb tc td ltac:(lia)). lia.
Qed.

(** One type that both refer to *)
Lemma eq_one a b ta tb c d :
  types context !! a = Some ta -> types context !! b = Some tb -> child_types ta = [c] -> child_types tb = [d] ->
  (ta = tb <-> c = d) -> (eq_measure rank a b ta tb < S fuel)%nat -> answer a b (eq_fuel context fuel c d).
Proof.
  intros Ha Hb Hca Hcb Heq Hf. assert (c ∈ child_types ta) as Hc by (rewrite Hca; by left). assert (d ∈ child_types tb) as Hd by (rewrite Hcb; by left).
  destruct (eq_children a b ta tb c d Ha Hb Hc Hd Hf) as (r & Hr & Hrefl & Hplain). exists r. split; [done|]. split.
  - intros <-. apply Hrefl, Heq. congruence.
  - intros Hpa Hpb Htrue. assert (ta = tb) as <-; [|by eapply same_content].
    apply Heq, Hplain; [exact (plain_child a ta c Hpa Ha Hc)|exact (plain_child b tb d Hpb Hb Hd)|done].
Qed.

(** The fields of two structs or two unions *)
Lemma eq_fields a b ta tb la lb :
  types context !! a = Some ta -> types context !! b = Some tb -> child_types ta = la -> child_types tb = lb ->
  (ta = tb <-> la = lb) -> (eq_measure rank a b ta tb < S fuel)%nat ->
  answer a b (if (length la =? length lb)%nat then all_ok (fun p => eq_fuel context fuel p.1 p.2) (zip la lb) else Ok false).
Proof.
  intros Ha Hb Hla Hlb Heq Hf.
  assert (forall c d, (c, d) ∈ zip la lb -> answer c d (eq_fuel context fuel c d)) as Hall.
  { intros c d Hin. assert (c ∈ la /\ d ∈ lb) as [Hc Hd] by (split; [by eapply elem_of_zip_l|by eapply elem_of_zip_r]).
    apply (eq_children a b ta tb); [done|done|by rewrite Hla|by rewrite Hlb|done]. }
  destruct (Nat.eqb_spec (length la) (length lb)) as [Hlen|Hlen].
  - destruct (all_ok_spec (fun p => eq_fuel context fuel p.1 p.2) (zip la lb)) as (r & -> & Hr).
    { intros [c d] Hin. destruct (Hall c d Hin) as (r & Hr & _). by exists r. }
    exists r. split; [done|]. split.
    + intros <-. apply Hr. intros [c d] Hin. cbn. destruct (Hall c d Hin) as (r' & Hr' & Hrefl & _). rewrite Hr'. f_equal. apply Hrefl.
      assert (la = lb) as -> by (apply Heq; congruence). apply elem_of_lookup_zip_with in Hin as (i & x & y & [= -> ->] & Hx & Hy). congruence.
    + intros Hpa Hpb Htrue. assert (ta = tb) as <-; [|by eapply same_content]. apply Heq. apply list_eq_same_length with (length lb); [done|done|].
      intros i c d _ Hc Hd. assert ((c, d) ∈ zip la lb) as Hin by (apply elem_of_lookup_zip_with; by exists i, c, d).
      destruct (Hall c d Hin) as (r' & Hr' & _ & Hplain). apply Hplain.
      * eapply plain_child; [exact Hpa|done|]. rewrite Hla. by eapply list_elem_of_lookup_2.
      * eapply plain_child; [exact Hpb|done|]. rewrite Hlb. by eapply list_elem_of_lookup_2.
      * specialize (proj1 Hr Htrue (c, d) Hin). cbn. rewrite Hr'. by intros [= ->].
  - exists false. split; [done|]. split; [|done]. intros <-. destruct Hlen. assert (la = lb) as ->; [|done]. apply Heq. congruence.
Qed.

Lemma eq_swap a b ta tb l :
  types context !! a = Some ta -> types context !! b = Some tb -> tb = TUnion l -> is_union_content ta = false ->
  (eq_measure rank a b ta tb < S fuel)%nat -> answer a b (eq_fuel context fuel b a).
Proof.
  intros Ha Hb -> Hu Hf. destruct (IH b a _ _ Hb Ha) as (r & Hr & _).
  { revert Hf. unfold eq_measure. rewrite Hu. cbn. lia. }
  exists r. split; [done|]. split; [intros <-; rewrite Ha in Hb; injection Hb as ->; done|].
  intros _ Hpb _. by apply (plain_no_union b l) in Hpb.
Qed.

Lemma eq_any a b ta tb l :
  types context !! a = Some ta -> types context !! b = Some tb -> ta = TUnion l -> is_union_content tb = false ->
  (eq_measure rank a b ta tb < S fuel)%nat -> answer a b (any_ok (fun field_ty => eq_fuel context fuel b field_ty) l).
Proof.
  intros Ha Hb -> Hu Hf. destruct (any_ok_returns (fun f => eq_fuel context fuel b f) l) as [r Hr].
  { intros f Hin. destruct (proj2 (Hrank a _ Ha) f Hin) as [[tf Htf] Hrf]. destruct (IH b f tb tf Hb Htf) as (r & Hr & _); [|by exists r].
    revert Hf. unfold eq_measure. rewrite Hu. cbn. case_match; lia. }
  exists r. split; [done|]. split; [intros <-; rewrite Ha in Hb; injection Hb as <-; done|].
  intros Hpa. by apply (plain_no_union a l) in Hpa.
Qed.

Lemma answer_const a b ta tb r :
  types context !! a = Some ta -> types context !! b = Some tb -> (ta = tb -> r = true) -> (ta <> TNever -> r = true -> ta = tb) -> answer a b (Ok r).
Proof.
  intros Ha Hb H1 H2. exists r. split; [done|]. split; [intros <-; apply H1; congruence|]. intros Hpa Hpb Hr.
  assert (ta = tb) as <-; [|by eapply same_content]. apply H2; [|done]. intros ->. by apply (plain_no_never a) in Hpa.
Qed.
End step.

Lemma eq_fuel_answer fuel a b ta tb :
  types context !! a = Some ta -> types context !! b = Some tb -> (eq_measure rank a b ta tb < fuel)%nat -> answer a b (eq_fuel context fuel a b).
Proof.
  revert a b ta tb. induction fuel as [|fuel IH]; intros a b ta tb Ha Hb Hf; [lia|]. cbn [eq_fuel]. unfold get_content. rewrite Ha, Hb. next_step.
  destruct ta, tb; try (eapply answer_const; [done|done|congruence|congruence]);
    try (eapply eq_swap; [done|done|done|done|done|exact Hf]); try (eapply eq_any; [done|done|done|done|done|exact Hf]);
    try (eapply eq_one; [done|done|done|done|done|split; congruence|exact Hf]);
    try (eapply eq_fields; [done|done|done|done|done|split; congruence|exact Hf]).
  - eapply answer_const; [done|done|intros [= ->]; lia|intros _ ->%Z.eqb_eq; done].
  - eapply answer_const; [done|done|intros [= ->]; lia|intros _ ->%Z.eqb_eq; done].
  - destruct (Z.eqb_spec len len0) as [->|Hne]; [eapply eq_one; [done|done|done|done|done|split; congruence|exact Hf]|].
    eapply answer_const; [done|done|congruence|done].
Qed.
End measure.

Lemma Type_eq_answer a b : is_Some (types context !! a) -> is_Some (types context !! b) -> answer a b (Type_eq context a b).
Proof.
  intros [ta Ha] [tb Hb]. destruct (ctx_rank _ Hctx) as [rank Hr]. pose proof (proj1 (Hr a ta Ha)). pose proof (proj1 (Hr b tb Hb)).
  apply (eq_fuel_answer rank Hr (4 * S (size (types context))) a b ta tb Ha Hb). unfold eq_measure. case_match; lia.
Qed.

(** Equivalence of types: on all types of a well-formed context the comparison ends and
    answers; a type is equivalent to itself; and on types in which neither unions nor the
    never type occur, equivalent types are the same. *)
Theorem Type_eq_correct a b :
  is_Some (types context !! a) -> is_Some (types context !! b) ->
  exists r, Type_eq context a b = Ok r /\ (a = b -> r = true) /\ (plain a -> plain b -> (r = true <-> a = b)).
Proof.
  intros Ha Hb. destruct (Type_eq_answer a b Ha Hb) as (r & Heq & H1 & H2). exists r. split; [done|]. split; [done|].
  intros Hpa Hpb. split; [by apply H2|done].
Qed.
End types.

Lemma Type_size_returns_witness : Type_size sample_context 15%positive = Ok (TypeSize_new 56) /\ (word_sized (TStruct [12; 14]%positive) = true -> 56 mod 8 = 0).
Proof.
  destruct (Type_size_returns sample_context sample_context_ok 15%positive (TStruct [12; 14]%positive) ltac:(by vm_compute)) as [(n & Hn & _ & H8)|(e & He & _)].
  - replace n with 56 in * by (vm_compute in Hn; congruence). done.
  - by vm_compute in He.
Defined.

Lemma Type_eq_correct_witness : exists r, Type_eq sample_context 11%positive 12%positive = Ok r /\ (r = true <-> 11%positive = 12%positive).
Proof.
  assert (forall ty t, types sample_context !! ty = Some t -> child_types t = [] -> t <> TNever -> (forall l, t <> TUnion l) -> plain sample_context ty) as Hleaf.
  { intros ty t Ht Hc Hn Hu. econstructor; [done..|]. rewrite Hc. by intros c ?%elem_of_nil. }
  destruct (Type_eq_correct sample_context sample_context_ok 11%positive 12%positive) as (r & Hr & _ & Hp); [vm_compute; by eexists..|].
  exists r. split; [done|]. apply Hp.
  - apply (plain_intro _ _ (TStruct [4; 9]%positive)); [by vm_compute|done|done|]. intros c [->|[->|[]%elem_of_nil]%elem_of_cons]%elem_of_cons;
      (eapply Hleaf; [by vm_compute|done..]).
  - apply (plain_intro _ _ (TArray 4%positive 5)); [by vm_compute|done|done|]. intros c [->|[]%elem_of_nil]%elem_of_cons. eapply Hleaf; [by vm_compute|done..].
Defined.
