(* ===== verification/IrLayout.v ===== *)
(** * The memory layout of types

    The offset of an indexed element is inside of the type; elements whose size is a
    multiple of the word size are aligned to words; different fields of a struct and
    different elements of an array do not overlap. *)

From S2P Require Import Prelude IrTypes IrTypeTheory.
Local Open Scope Z_scope.

Lemma try_fold_app {A B} (f : B -> A -> Result (option B)) b l l' :
  try_fold f b (l ++ l') = (o ← try_fold f b l; match o with Some b' => try_fold f b' l' | None => Ok None end).
Proof.
  revert b. induction l as [|x l IH]; intros b; [done|]. cbn. destruct (f b x) as [[b'|]|]; cbn; [apply IH|done|done].
Qed.

Section layout.
Context (context : Context) (Hctx : context_ok context).

Abbreviation exists_type ty := (is_Some (types context !! ty)).
Abbreviation has_size ty n := (Type_size context ty = Ok (TypeSize_new n)).
Abbreviation sized := (sized context).

(** ** One index *)

(** The contents that can be indexed, and the element *)
Lemma index_type_inv ty i ty' :
  0 <= i -> index_type context ty i = Ok (Some ty') ->
  (exists l, types context !! ty = Some (TStruct l) /\ l !! Z.to_nat i = Some ty') \/
  (exists l, types context !! ty = Some (TUnion l) /\ l !! Z.to_nat i = Some ty') \/
  (exists len, types context !! ty = Some (TArray ty' len) /\ i < len).
Proof.
  intros Hi. unfold index_type, get_field_type, get_content. destruct (types context !! ty) as [t|] eqn:Ht; [|done]. next_step.
  destruct t as [| | | | | | |elm len|l|l| | |]; try done; next_step.
  - destruct (Z.ltb_spec i len); [|done]. intros [= <-]. right. right. eauto.
  - destruct (l !! Z.to_nat i) eqn:Hl; [|done]. intros [= <-]. right. left. eauto.
  - destruct (l !! Z.to_nat i) eqn:Hl; [|done]. intros [= <-]. left. eauto.
Qed.

(** The place of an element in its container *)
Record placed (n : Z) (d n' : Z) : Prop := {
  placed_nonneg : 0 <= d;
  placed_inside : d + n' <= n;
  placed_aligned : n' mod 8 = 0 -> n mod 8 = 0 /\ d mod 8 = 0;
}.

Lemma struct_step ty l i ty' n acc :
  types context !! ty = Some (TStruct l) -> l !! i = Some ty' -> has_size ty n -> 0 <= acc -> acc + n < 2 ^ 64 ->
  exists ns n', sized l ns /\ ns !! i = Some n' /\ has_size ty' n' /\ placed n (total (take i ns)) n' /\
    index_offset context (ty, acc) (Z.of_nat i) = Ok (Some (ty', acc + total (take i ns))).
Proof.
  intros Ht Hl Hn Hacc Hlt. pose proof (Type_size_bound _ Hctx ty n ltac:(by eexists) Hn) as [Hn0 _].
  apply (struct_size _ Hctx ty l) in Hn as (ns & Hns & -> & Hns64); [|done].
  destruct (Forall2_lookup_l _ _ _ _ _ Hns Hl) as (n' & Hn' & Hs'). exists ns, n'. split; [done|]. split; [done|]. split; [done|].
  pose proof (sized_nonneg _ Hctx ty (TStruct l) ns Ht Hns) as Hpos.
  assert (total ns = total (take i ns) + (align8 n' + total (drop (S i) ns))) as Hsplit.
  { rewrite <- total_cons, <- total_app. by rewrite take_drop_middle. }
  pose proof (total_nonneg (take i ns) (Forall_take _ _ _ Hpos)). pose proof (total_nonneg (drop (S i) ns) (Forall_drop _ _ _ Hpos)).
  pose proof (align8_bounds n') as [? _]. pose proof (Forall_lookup_1 _ _ _ _ Hpos Hn') as Hn'0. cbn in Hn'0. split.
  - split; [done|lia|]. intros _. split; apply total_aligned.
  - unfold index_offset, is_struct, matches_content, get_field_types, get_content. rewrite Ht. cbn [fmap Result_fmap mbind Result_bind].
    rewrite Nat2Z.id, Hl. erewrite sum_aligned_Ok; [|by apply Forall2_take|by apply Forall_take|done|lia]. next_step.
    rewrite (proj2 (u64_add_Ok acc (0 + total (take i ns)) _)) by (split; [done|lia]). done.
Qed.

Lemma union_step ty l i ty' n acc :
  types context !! ty = Some (TUnion l) -> l !! i = Some ty' -> has_size ty n -> 0 <= acc -> acc + n < 2 ^ 64 ->
  exists n', has_size ty' n' /\ placed n (n - n') n' /\ index_offset context (ty, acc) (Z.of_nat i) = Ok (Some (ty', acc + (n - n'))).
Proof.
  intros Ht Hl Hn Hacc Hlt. destruct (union_size _ Hctx ty l n Ht Hn) as (ns & Hns & Hmax & _).
  destruct (Forall2_lookup_l _ _ _ _ _ Hns Hl) as (n' & Hn' & Hs'). exists n'. split; [done|].
  pose proof (max_or_zero_spec (align8 <$> ns)) as (Hle & Hin & Hpos). rewrite <- Hmax in Hle, Hin, Hpos.
  assert (align8 n' <= n) as Hb. { apply Hle. apply list_elem_of_fmap. exists n'. split; [done|]. by eapply list_elem_of_lookup_2. }
  assert (n mod 8 = 0) as Hn8. { destruct Hin as [->|(m & -> & _)%list_elem_of_fmap]; [done|]. apply align8_bounds. }
  pose proof (align8_bounds n') as [? _]. pose proof (sized_nonneg _ Hctx ty (TUnion l) ns Ht Hns) as Hall.
  rewrite Forall_lookup in Hall. pose proof (Hall i n' Hn') as Hn'0. cbn in Hn'0. split.
  - split; [lia|lia|]. intros Hn'8. split; [done|]. by rewrite Zminus_mod, Hn8, Hn'8.
  - unfold index_offset, is_struct, is_union, matches_content, get_field_type, get_content. rewrite Ht. cbn [fmap Result_fmap mbind Result_bind].
    rewrite Hn. next_step. rewrite Nat2Z.id, Hl, Hs'. next_step. cbn [in_bytes size_in_bytes].
    rewrite (proj2 (u64_minus_Ok n n' _)) by (split; [done|lia]). next_step.
    rewrite (proj2 (u64_add_Ok acc (n - n') _)) by (split; [done|lia]). done.
Qed.

Lemma array_step ty ty' len i n acc :
  types context !! ty = Some (TArray ty' len) -> 0 <= i < len -> has_size ty n -> 0 <= acc -> acc + n < 2 ^ 64 ->
  exists n', has_size ty' n' /\ placed n (n' * i) n' /\ index_offset context (ty, acc) i = Ok (Some (ty', acc + n' * i)).
Proof.
  intros Ht Hi Hn Hacc Hlt. apply (array_size _ Hctx ty ty' len) in Hn as (n' & Hs' & -> & Hn); [|done]. exists n'. split; [done|].
  pose proof (Type_size_bound _ Hctx ty' n' ltac:(eapply child_exists; [done|done|by left]) Hs') as [Hn' _]. split.
  - split; [lia|nia|]. intros [k ->]%Z.mod_divide; [|done]. split; (apply Z.mod_divide; [done|]); [exists (len * k)|exists (k * i)]; lia.
  - unfold index_offset, is_struct, is_union, matches_content, get_array_elem_type, get_content. rewrite Ht. cbn [fmap Result_fmap mbind Result_bind].
    rewrite Hs'. next_step. cbn [in_bytes size_in_bytes]. rewrite (proj2 (u64_mul_Ok n' i _)) by (split; [done|nia]). next_step.
    rewrite (proj2 (u64_add_Ok acc (n' * i) _)) by (split; [done|nia]). done.
Qed.

Lemma index_step ty i ty' n acc :
  0 <= i -> index_type context ty i = Ok (Some ty') -> has_size ty n -> 0 <= acc -> acc + n < 2 ^ 64 ->
  exists d n', has_size ty' n' /\ placed n d n' /\ exists_type ty' /\ index_offset context (ty, acc) i = Ok (Some (ty', acc + d)).
Proof.
  intros Hi Hty' Hn Hacc Hlt. destruct (index_type_inv ty i ty' Hi Hty') as [(l & Ht & Hl)|[(l & Ht & Hl)|(len & Ht & Hlen)]].
  - destruct (struct_step ty l _ ty' n acc Ht Hl Hn Hacc Hlt) as (ns & n' & _ & _ & H1 & H2 & H3). rewrite Z2Nat.id in H3 by done.
    eexists _, n'. split; [done|]. split; [done|]. split; [|done]. eapply child_exists; [done|done|]. by eapply list_elem_of_lookup_2.
  - destruct (union_step ty l _ ty' n acc Ht Hl Hn Hacc Hlt) as (n' & H1 & H2 & H3). rewrite Z2Nat.id in H3 by done.
    eexists _, n'. split; [done|]. split; [done|]. split; [|done]. eapply child_exists; [done|done|]. by eapply list_elem_of_lookup_2.
  - destruct (array_step ty ty' len i n acc Ht ltac:(lia) Hn Hacc Hlt) as (n' & H1 & H2 & H3).
    eexists _, n'. split; [done|]. split; [done|]. split; [|done]. eapply child_exists; [done|done|by left].
Qed.

(** ** A path of indices *)

Lemma placed_trans n d m e k : placed n d m -> placed m e k -> placed n (d + e) k.
Proof.
  intros [H1 H2 H3] [H4 H5 H6]. split; [lia|lia|]. intros Hk. destruct (H6 Hk) as [Hm He]. destruct (H3 Hm) as [Hn Hd].
  split; [done|]. by rewrite Z.add_mod, Hd, He.
Qed.

Lemma index_path indices ty ty' n acc :
  Forall (fun i => 0 <= i) indices -> exists_type ty -> try_fold (index_type context) ty indices = Ok (Some ty') ->
  has_size ty n -> 0 <= acc -> acc + n < 2 ^ 64 ->
  exists d n', has_size ty' n' /\ placed n d n' /\ exists_type ty' /\ try_fold (index_offset context) (ty, acc) indices = Ok (Some (ty', acc + d)).
Proof.
  intros Hpos. revert ty n acc. induction Hpos as [|i indices Hi _ IH]; intros ty n acc Hty Hty' Hn Hacc Hlt.
  { injection Hty' as <-. exists 0, n. split; [done|]. split; [split; [done|lia|by intros ->]|]. split; [done|]. by rewrite Z.add_0_r. }
  cbn [try_fold] in *. apply bind_Ok in Hty' as ([ty1|] & Hty1 & Hty'); [|done].
  destruct (index_step ty i ty1 n acc Hi Hty1 Hn Hacc Hlt) as (d & n1 & Hn1 & Hd & Hex1 & ->). next_step.
  destruct (IH ty1 n1 (acc + d) Hex1 Hty' Hn1) as (e & n' & Hn' & He & Hex' & ->); [destruct Hd; lia..|].
  exists (d + e), n'. split; [done|]. split; [by eapply placed_trans|]. split; [done|]. do 3 f_equal. lia.
Qed.

(** C29. The offset of an indexed element: when the indices lead to an element and the size
    of the type fits in 64 bits, the offset is found, the element lies inside of the
    type, and it is aligned to words when its size is a multiple of the word size. *)
Theorem get_indexed_offset_correct ty indices ty' n :
  Forall (fun i => 0 <= i) indices -> exists_type ty -> get_indexed_type context ty indices = Ok (Some ty') -> has_size ty n ->
  exists offset n', get_indexed_offset context ty indices = Ok (Some offset) /\ has_size ty' n' /\
    0 <= offset /\ offset + n' <= n /\ (n' mod 8 = 0 -> offset mod 8 = 0).
Proof.
  intros Hpos Hty Hidx Hn. assert (try_fold (index_type context) ty indices = Ok (Some ty')) as Hp by (by destruct indices).
  pose proof (Type_size_bound _ Hctx ty n Hty Hn).
  destruct (index_path indices ty ty' n 0 Hpos Hty Hp Hn) as (d & n' & Hn' & [H1 H2 H3] & _ & Ho); [lia..|].
  unfold get_indexed_offset. rewrite Ho. exists d, n'. split_and!; [done..|]. intros H8. by apply H3.
Qed.

(** ** Different elements *)

Lemma total_take_lt ns i j n :
  Forall (fun n => 0 <= n) ns -> (i < j)%nat -> ns !! i = Some n -> total (take i ns) + align8 n <= total (take j ns).
Proof.
  intros Hpos Hij Hi. assert (take j ns = take i ns ++ n :: drop (S i) (take j ns)) as ->.
  { pose proof (take_drop_middle (take j ns) i n ltac:(by rewrite lookup_take_lt)) as Hm. by rewrite take_take, Nat.min_l in Hm by lia. }
  rewrite total_app, total_cons. pose proof (total_nonneg (drop (S i) (take j ns)) (Forall_drop _ _ _ (Forall_take _ _ _ Hpos))). lia.
Qed.

(** The places of two elements of a struct or an array, the first one before the second *)
Lemma index_disjoint ty i j a b n acc :
  0 <= i < j -> index_type context ty i = Ok (Some a) -> index_type context ty j = Ok (Some b) ->
  (forall l, types context !! ty <> Some (TUnion l)) -> has_size ty n -> 0 <= acc -> acc + n < 2 ^ 64 ->
  exists d e na nb, has_size a na /\ has_size b nb /\ placed n d na /\ placed n e nb /\ d + na <= e /\
    index_offset context (ty, acc) i = Ok (Some (a, acc + d)) /\ index_offset context (ty, acc) j = Ok (Some (b, acc + e)).
Proof.
  intros Hij Ha Hb Hu Hn Hacc Hlt. apply index_type_inv in Ha; [|lia]. apply index_type_inv in Hb; [|lia].
  destruct Ha as [(l & Ht & Hl)|[(l & Ht & _)|(len & Ht & Hi)]]; [|by destruct (Hu l)|].
  - destruct Hb as [(l' & Ht' & Hl')|[(l' & Ht' & _)|(len & Ht' & _)]]; [|congruence..]. rewrite Ht in Ht'. injection Ht' as <-.
    destruct (struct_step ty l _ a n acc Ht Hl Hn Hacc Hlt) as (ns & na & Hns & Hna & Ha & Hpa & Hoa).
    destruct (struct_step ty l _ b n acc Ht Hl' Hn Hacc Hlt) as (ns' & nb & Hns' & Hnb & Hb & Hpb & Hob).
    rewrite (sized_det _ l ns' ns) in * by done.
    rewrite Z2Nat.id in Hoa, Hob by lia. eexists _, _, na, nb. split_and!; [done|done|exact Hpa|exact Hpb| |done|done].
    pose proof (sized_nonneg _ Hctx ty (TStruct l) ns Ht Hns) as Hpos.
    pose proof (total_take_lt ns (Z.to_nat i) (Z.to_nat j) na Hpos ltac:(lia) Hna). pose proof (align8_bounds na) as [? _]. lia.
  - destruct Hb as [(l' & Ht' & Hl')|[(l' & Ht' & _)|(len' & Ht' & Hj)]]; [congruence..|]. rewrite Ht in Ht'. injection Ht' as <- <-.
    destruct (array_step ty a len i n acc Ht ltac:(lia) Hn Hacc Hlt) as (na & Ha & Hpa & Hoa).
    destruct (array_step ty a len j n acc Ht ltac:(lia) Hn Hacc Hlt) as (nb & Hb & Hpb & Hob).
    rewrite Ha in Hb. injection Hb as <-. eexists _, _, na, na. split_and!; [done|done|exact Hpa|exact Hpb| |done|done].
    pose proof (Type_size_bound _ Hctx a na ltac:(eapply child_exists; [done|done|by left]) Ha). nia.
Qed.

Lemma indexed_ordered ty path container n i j r1 r2 a b :
  0 <= i < j -> Forall (fun i => 0 <= i) path -> Forall (fun i => 0 <= i) r1 -> Forall (fun i => 0 <= i) r2 ->
  exists_type ty -> has_size ty n -> try_fold (index_type context) ty path = Ok (Some container) ->
  (forall l, types context !! container <> Some (TUnion l)) ->
  try_fold (index_type context) ty (path ++ i :: r1) = Ok (Some a) -> try_fold (index_type context) ty (path ++ j :: r2) = Ok (Some b) ->
  exists off_a off_b na nb, get_indexed_offset context ty (path ++ i :: r1) = Ok (Some off_a) /\
    get_indexed_offset context ty (path ++ j :: r2) = Ok (Some off_b) /\ has_size a na /\ has_size b nb /\ off_a + na <= off_b.
Proof.
  intros Hij Hpath Hr1 Hr2 Hty Hn Hc Hu Ha Hb. pose proof (Type_size_bound _ Hctx ty n Hty Hn) as Hn64.
  destruct (index_path path ty container n 0 Hpath Hty Hc Hn) as (o & m & Hm & Ho & Hex & Hpo); [lia..|].
  rewrite try_fold_app, Hc in Ha, Hb. cbn [mbind Result_bind try_fold] in Ha, Hb.
  apply bind_Ok in Ha as ([a1|] & Ha1 & Ha); [|done]. apply bind_Ok in Hb as ([b1|] & Hb1 & Hb); [|done].
  destruct Ho as [Ho1 Ho2 _]. destruct (index_disjoint container i j a1 b1 m (0 + o) Hij Ha1 Hb1 Hu Hm) as (d & e & n1 & n2 & Hn1 & Hn2 & [] & [] & Hde & Hi & Hj); [lia..|].
  assert (exists_type a1) as Hea by (edestruct (index_step container i a1 m 0) as (? & ? & _ & _ & ? & _); [lia|done..|lia|lia|done]).
  assert (exists_type b1) as Heb by (edestruct (index_step container j b1 m 0) as (? & ? & _ & _ & ? & _); [lia|done..|lia|lia|done]).
  destruct (index_path r1 a1 a n1 (0 + o + d) Hr1 Hea Ha Hn1) as (x & na & Hna & [] & _ & Hx); [lia..|].
  destruct (index_path r2 b1 b n2 (0 + o + e) Hr2 Heb Hb Hn2) as (y & nb & Hnb & [] & _ & Hy); [lia..|].
  exists (0 + o + d + x), (0 + o + e + y), na, nb. unfold get_indexed_offset. rewrite !try_fold_app, Hpo. cbn [mbind Result_bind try_fold].
  rewrite Hi, Hj. next_step. rewrite Hx, Hy. split_and!; [done..|lia].
Qed.

(** Disjoint elements: two paths of indices that part at a struct or an array lead to
    elements that do not overlap. *)
Theorem indexed_elements_disjoint ty path i j r1 r2 container a b n :
  Forall (fun i => 0 <= i) (path ++ i :: j :: r1 ++ r2) -> exists_type ty -> has_size ty n -> i <> j ->
  try_fold (index_type context) ty path = Ok (Some container) -> (forall l, types context !! container <> Some (TUnion l)) ->
  get_indexed_type context ty (path ++ i :: r1) = Ok (Some a) -> get_indexed_type context ty (path ++ j :: r2) = Ok (Some b) ->
  exists off_a off_b na nb, get_indexed_offset context ty (path ++ i :: r1) = Ok (Some off_a) /\
    get_indexed_offset context ty (path ++ j :: r2) = Ok (Some off_b) /\ has_size a na /\ has_size b nb /\
    (off_a + na <= off_b \/ off_b + nb <= off_a).
Proof.
  intros Hpos Hty Hn Hij Hc Hu Ha Hb. apply Forall_app in Hpos as [Hpath Hpos]. apply Forall_cons in Hpos as [Hi Hpos].
  apply Forall_cons in Hpos as [Hj Hpos]. apply Forall_app in Hpos as [Hr1 Hr2].
  assert (try_fold (index_type context) ty (path ++ i :: r1) = Ok (Some a)) as Ha' by (by destruct path).
  assert (try_fold (index_type context) ty (path ++ j :: r2) = Ok (Some b)) as Hb' by (by destruct path).
  destruct (Z.lt_total i j) as [Hl|[?|Hl]]; [|done|].
  - destruct (indexed_ordered ty path container n i j r1 r2 a b ltac:(lia) Hpath Hr1 Hr2 Hty Hn Hc Hu Ha' Hb') as (oa & ob & na & nb & ? & ? & ? & ? & ?).
    exists oa, ob, na, nb. split_and!; [done..|by left].
  - destruct (indexed_ordered ty path container n j i r2 r1 b a ltac:(lia) Hpath Hr2 Hr1 Hty Hn Hc Hu Hb' Ha') as (ob & oa & nb & na & ? & ? & ? & ? & ?).
    exists oa, ob, na, nb. split_and!; [done..|by right].
Qed.
End layout.

Lemma get_indexed_offset_correct_witness : exists offset n', get_indexed_offset sample_context 15%positive [1; 1; 2] = Ok (Some offset) /\ Type_size sample_context 4%positive = Ok (TypeSize_new n') /\ 0 <= offset /\ offset + n' <= 56 /\ (n' mod 8 = 0 -> offset mod 8 = 0).
Proof.
  apply (get_indexed_offset_correct sample_context sample_context_ok 15%positive [1; 1; 2] 4%positive 56);
    [by repeat constructor|vm_compute; by eexists|by vm_compute..].
Defined.

Lemma indexed_elements_disjoint_witness : exists off_a off_b na nb, get_indexed_offset sample_context 15%positive [0; 1] = Ok (Some off_a) /\ get_indexed_offset sample_context 15%positive [0; 3] = Ok (Some off_b) /\ Type_size sample_context 4%positive = Ok (TypeSize_new na) /\ Type_size sample_context 4%positive = Ok (TypeSize_new nb) /\ (off_a + na <= off_b \/ off_b + nb <= off_a).
Proof.
  apply (indexed_elements_disjoint sample_context sample_context_ok 15%positive [0] 1 3 [] [] 12%positive 4%positive 4%positive 56);
    [by repeat constructor|vm_compute; by eexists|by vm_compute|done|by vm_compute|intros l; by vm_compute|by vm_compute..].
Defined.

(** An array index out of range has an offset although it has no type. *)
Lemma get_indexed_offset_out_of_range :
  get_indexed_type sample_context 12%positive [7] = Ok None /\ get_indexed_offset sample_context 12%positive [7] = Ok (Some 7).
Proof. by vm_compute. Qed.
