(* ===== verification/AsmRegister.v ===== *)
(** * Registers, immediates and labels of the Fuel backend

    Models [asm_lang/virtual_register.rs], [asm_lang/virtual_immediate.rs], the
    register part of [asm_lang/allocated_ops.rs],
    [asm_generation/fuel/compiler_constants.rs] and the register pool of
    [asm_generation/fuel/register_allocator.rs]. *)

From S2P Require Import Prelude.
From stdpp Require Import countable.
Local Open Scope Z_scope.

(** ** Registers *)

Inductive ConstantRegister : Type :=
  | Zero | One | Overflow | ProgramCounter | StackStartPointer | StackPointer | FramePointer
  | HeapPointer | Error | GlobalGas | ContextGas | Balance | InstructionStart | ReturnValue
  | ReturnLength | Flags
  | DataSectionStart | CallReturnAddress | CallReturnValue | Scratch | LocalsBase
  | FuncArg0 | FuncArg1 | FuncArg2 | FuncArg3 | FuncArg4 | FuncArg5.

#[export] Instance ConstantRegister_eq_dec : EqDecision ConstantRegister.
Proof. solve_decision. Defined.

(** The position of a register in the declaration, which orders the registers. *)
Definition constant_index (c : ConstantRegister) : nat :=
  match c with
  | Zero => 0 | One => 1 | Overflow => 2 | ProgramCounter => 3 | StackStartPointer => 4
  | StackPointer => 5 | FramePointer => 6 | HeapPointer => 7 | Error => 8 | GlobalGas => 9
  | ContextGas => 10 | Balance => 11 | InstructionStart => 12 | ReturnValue => 13
  | ReturnLength => 14 | Flags => 15 | DataSectionStart => 16 | CallReturnAddress => 17
  | CallReturnValue => 18 | Scratch => 19 | LocalsBase => 20 | FuncArg0 => 21 | FuncArg1 => 22
  | FuncArg2 => 23 | FuncArg3 => 24 | FuncArg4 => 25 | FuncArg5 => 26
  end.

Definition constants : list ConstantRegister :=
  [Zero; One; Overflow; ProgramCounter; StackStartPointer; StackPointer; FramePointer; HeapPointer;
   Error; GlobalGas; ContextGas; Balance; InstructionStart; ReturnValue; ReturnLength; Flags;
   DataSectionStart; CallReturnAddress; CallReturnValue; Scratch; LocalsBase; FuncArg0; FuncArg1;
   FuncArg2; FuncArg3; FuncArg4; FuncArg5].

Lemma constants_index c : constants !! constant_index c = Some c.
Proof. by destruct c. Qed.

#[export] Program Instance ConstantRegister_countable : Countable ConstantRegister :=
  inj_countable constant_index (fun i => constants !! i) constants_index.

(** [VirtualRegister] *)
Inductive VirtualRegister : Type :=
  | Virtual (name : string)
  | Constant (c : ConstantRegister).

#[export] Instance VirtualRegister_eq_dec : EqDecision VirtualRegister.
Proof. solve_decision. Defined.

#[export] Program Instance VirtualRegister_countable : Countable VirtualRegister :=
  inj_countable
    (fun r => match r with Virtual s => inl s | Constant c => inr c end)
    (fun x => match x with inl s => Some (Virtual s) | inr c => Some (Constant c) end) _.
Next Obligation. by intros []. Qed.

Definition is_virtual (r : VirtualRegister) : bool :=
  match r with Virtual _ => true | Constant _ => false end.

(** The derived [Ord] of [VirtualRegister]. *)
Definition vreg_leb (r s : VirtualRegister) : bool :=
  match r, s with
  | Virtual a, Virtual b => String.leb a b
  | Virtual _, Constant _ => true
  | Constant _, Virtual _ => false
  | Constant c, Constant d => (constant_index c <=? constant_index d)%nat
  end.

(** A [BTreeSet] of registers is a finite set, iterated in the order of its
    elements. *)
Abbreviation BTreeSet := (gset VirtualRegister).
Definition btree_iter (s : BTreeSet) : list VirtualRegister := sort_by vreg_leb (elements s).
Definition btree_from (l : list VirtualRegister) : BTreeSet := list_to_set l.
Definition retain_virtual (s : BTreeSet) : BTreeSet := filter (fun r => is_virtual r = true) s.

Lemma btree_iter_elem s r : r ∈ btree_iter s <-> r ∈ s.
Proof. unfold btree_iter. by rewrite sort_by_perm, elem_of_elements. Qed.

Lemma retain_virtual_elem s r : r ∈ retain_virtual s <-> r ∈ s /\ is_virtual r = true.
Proof. unfold retain_virtual. rewrite elem_of_filter. tauto. Qed.

(** [AllocatedRegister] *)
Inductive AllocatedRegister : Type :=
  | Allocated (n : Z)
  | AllocatedConstant (c : ConstantRegister).

#[export] Instance AllocatedRegister_eq_dec : EqDecision AllocatedRegister.
Proof. solve_decision. Defined.

(** ** Constants of the compiler *)

Definition NUM_TOTAL_REGISTERS : Z := 64.
Definition NUM_FREE_REGISTERS : Z := 48.
Definition NUM_ARG_REGISTERS : Z := 6.
Definition NUM_COMPILER_RESERVED_REGISTERS : Z := 5 + NUM_ARG_REGISTERS.
Definition DATA_SECTION_REGISTER : Z := NUM_TOTAL_REGISTERS - 1.
Definition RETURN_ADDRESS_REGISTER : Z := NUM_TOTAL_REGISTERS - 2.
Definition RETURN_VALUE_REGISTER : Z := NUM_TOTAL_REGISTERS - 3.
Definition SCRATCH_REGISTER : Z := NUM_TOTAL_REGISTERS - 4.
Definition LOCALS_BASE : Z := NUM_TOTAL_REGISTERS - 5.
Definition ARG_REG0 : Z := NUM_TOTAL_REGISTERS - 6.
Definition ARG_REG1 : Z := NUM_TOTAL_REGISTERS - 7.
Definition ARG_REG2 : Z := NUM_TOTAL_REGISTERS - 8.
Definition ARG_REG3 : Z := NUM_TOTAL_REGISTERS - 9.
Definition ARG_REG4 : Z := NUM_TOTAL_REGISTERS - 10.
Definition ARG_REG5 : Z := NUM_TOTAL_REGISTERS - 11.
Definition NUM_ALLOCATABLE_REGISTERS : Z := NUM_FREE_REGISTERS - NUM_COMPILER_RESERVED_REGISTERS.
Definition TWENTY_FOUR_BITS : Z := 16777215.
Definition EIGHTEEN_BITS : Z := 262143.
Definition TWELVE_BITS : Z := 4095.
Definition SIX_BITS : Z := 63.

(** ** Register ids

    The ids of the VM-reserved registers are constants of [fuel_asm]; what the
    compiler relies on is that they are distinct and below 16. *)
Class VmRegisters (vm_reg : ConstantRegister -> Z) : Prop := {
  vm_reg_range c : (constant_index c < 16)%nat -> 0 <= vm_reg c < 16;
  vm_reg_inj c d : (constant_index c < 16)%nat -> (constant_index d < 16)%nat ->
    vm_reg c = vm_reg d -> c = d
}.

(** [ConstantRegister::to_reg_id] *)
Definition constant_to_reg_id (vm_reg : ConstantRegister -> Z) (c : ConstantRegister) : Z :=
  match c with
  | Zero | One | Overflow | ProgramCounter | StackStartPointer | StackPointer | FramePointer
  | HeapPointer | Error | GlobalGas | ContextGas | Balance | InstructionStart | ReturnValue
  | ReturnLength | Flags => vm_reg c
  | DataSectionStart => DATA_SECTION_REGISTER
  | CallReturnAddress => RETURN_ADDRESS_REGISTER
  | CallReturnValue => RETURN_VALUE_REGISTER
  | Scratch => SCRATCH_REGISTER
  | LocalsBase => LOCALS_BASE
  | FuncArg0 => ARG_REG0 | FuncArg1 => ARG_REG1 | FuncArg2 => ARG_REG2
  | FuncArg3 => ARG_REG3 | FuncArg4 => ARG_REG4 | FuncArg5 => ARG_REG5
  end.

(** [AllocatedRegister::to_reg_id]; the sum of two [u8] panics on overflow. *)
Definition to_reg_id (vm_reg : ConstantRegister -> Z) (r : AllocatedRegister) : Result Z :=
  match r with
  | Allocated a => if a + 16 <=? 255 then Ok (a + 16) else Err (Panic "attempt to add with overflow")
  | AllocatedConstant c => Ok (constant_to_reg_id vm_reg c)
  end.

(** [ConstantRegister::parse_register_name] *)
Definition parse_register_name (raw : string) : option ConstantRegister :=
  if bool_decide (raw = "zero"%string) then Some Zero
  else if bool_decide (raw = "one"%string) then Some One
  else if bool_decide (raw = "of"%string) then Some Overflow
  else if bool_decide (raw = "pc"%string) then Some ProgramCounter
  else if bool_decide (raw = "ssp"%string) then Some StackStartPointer
  else if bool_decide (raw = "sp"%string) then Some StackPointer
  else if bool_decide (raw = "fp"%string) then Some FramePointer
  else if bool_decide (raw = "hp"%string) then Some HeapPointer
  else if bool_decide (raw = "err"%string) then Some Error
  else if bool_decide (raw = "ggas"%string) then Some GlobalGas
  else if bool_decide (raw = "cgas"%string) then Some ContextGas
  else if bool_decide (raw = "bal"%string) then Some Balance
  else if bool_decide (raw = "is"%string) then Some InstructionStart
  else if bool_decide (raw = "flag"%string) then Some Flags
  else if bool_decide (raw = "retl"%string) then Some ReturnLength
  else if bool_decide (raw = "ret"%string) then Some ReturnValue
  else if bool_decide (raw = "ds"%string) then Some DataSectionStart
  else None.

(** [Display for ConstantRegister] *)
Definition constant_to_string (c : ConstantRegister) : string :=
  match c with
  | Zero => "$zero" | One => "$one" | Overflow => "$of" | ProgramCounter => "$pc"
  | StackStartPointer => "$ssp" | StackPointer => "$sp" | FramePointer => "$fp"
  | HeapPointer => "$hp" | Error => "$err" | GlobalGas => "$ggas" | ContextGas => "$cgas"
  | Balance => "$bal" | InstructionStart => "$is" | ReturnValue => "$ret" | ReturnLength => "$retl"
  | Flags => "$flag" | DataSectionStart => "$$ds" | CallReturnAddress => "$$reta"
  | CallReturnValue => "$$retv" | Scratch => "$$tmp" | LocalsBase => "$$locbase"
  | FuncArg0 => "$$arg0" | FuncArg1 => "$$arg1" | FuncArg2 => "$$arg2" | FuncArg3 => "$$arg3"
  | FuncArg4 => "$$arg4" | FuncArg5 => "$$arg5"
  end%string.

(** ** Immediates

    [new] checks the width of the immediate and [new_unchecked] only the width
    of the integer that holds it. *)

Record VirtualImmediate06 : Type := mkImm06 { value06 : Z }.
Record VirtualImmediate12 : Type := mkImm12 { value12 : Z }.
Record VirtualImmediate18 : Type := mkImm18 { value18 : Z }.
Record VirtualImmediate24 : Type := mkImm24 { value24 : Z }.

Definition Immediate_new {I} (con : Z -> I) (bits : Z) (raw : Z) : Result I :=
  if bits <? raw then Err (Internal "immediate too large") else Ok (con raw).

Definition Immediate_new_unchecked {I} (con : Z -> I) (max_int : Z) (raw : Z) (msg : string) : Result I :=
  if raw <=? max_int then Ok (con raw) else Err (Panic msg).

Definition Imm06_new := Immediate_new mkImm06 SIX_BITS.
Definition Imm12_new := Immediate_new mkImm12 TWELVE_BITS.
Definition Imm18_new := Immediate_new mkImm18 EIGHTEEN_BITS.
Definition Imm24_new := Immediate_new mkImm24 TWENTY_FOUR_BITS.
Definition Imm06_new_unchecked := Immediate_new_unchecked mkImm06 255.
Definition Imm12_new_unchecked := Immediate_new_unchecked mkImm12 65535.
Definition Imm18_new_unchecked := Immediate_new_unchecked mkImm18 4294967295.
Definition Imm24_new_unchecked := Immediate_new_unchecked mkImm24 4294967295.

(** [WideOperations], [WideCmp] and the immediates of the wide instructions *)
Inductive WideOperations : Type := WAdd | WSub | WNot | WOr | WXor | WAnd | WLsh | WRsh.
Inductive WideCmp : Type := WEquality | WLessThan | WGreaterThan.

Definition wide_operation_code (op : WideOperations) : Z :=
  match op with
  | WAdd => 0 | WSub => 1 | WNot => 2 | WOr => 3 | WXor => 4 | WAnd => 5 | WLsh => 6 | WRsh => 7
  end.

Definition wide_cmp_code (op : WideCmp) : Z :=
  match op with WEquality => 0 | WLessThan => 2 | WGreaterThan => 3 end.

Definition wide_op (op : WideOperations) (rhs_indirect : bool) : VirtualImmediate06 :=
  mkImm06 (Z.lor (wide_operation_code op) (if rhs_indirect then 32 else 0)).

Definition wide_cmp (op : WideCmp) (rhs_indirect : bool) : VirtualImmediate06 :=
  mkImm06 (Z.lor (wide_cmp_code op) (if rhs_indirect then 32 else 0)).

Definition wide_mul (lhs_indirect rhs_indirect : bool) : VirtualImmediate06 :=
  let lhs := if lhs_indirect then 16 else 0 in
  let rhs := if rhs_indirect then 32 else 0 in
  mkImm06 (Z.lor lhs rhs).

Definition wide_div (rhs_indirect : bool) : VirtualImmediate06 :=
  mkImm06 (if rhs_indirect then 32 else 0).

(** ** Labels and data ids *)

Abbreviation Label := nat.

Inductive DataIdEntryKind : Type := NonConfigurable | Configurable.
Record DataId : Type := mkDataId { idx : Z; kind : DataIdEntryKind }.

(** ** The register pool *)

Record RegisterAllocationStatus : Type := mkStatus {
  reg : AllocatedRegister;
  used_by : BTreeSet
}.

Abbreviation RegisterPool := (list RegisterAllocationStatus).

(** [RegisterPool::init] *)
Definition RegisterPool_init : RegisterPool :=
  map (fun x => mkStatus (Allocated x) ∅) (seqZ 0 NUM_ALLOCATABLE_REGISTERS).

(** [RegisterPool::get_register] *)
Definition get_register (pool : RegisterPool) (r : VirtualRegister) : option AllocatedRegister :=
  reg <$> List.find (fun status => bool_decide (r ∈ used_by status)) pool.

(** ** Register ids are distinct *)

(** The registers that an allocated program can mention *)
Definition valid_allocated (r : AllocatedRegister) : Prop :=
  match r with
  | Allocated n => 0 <= n < NUM_ALLOCATABLE_REGISTERS
  | AllocatedConstant _ => True
  end.

Section reg_ids.
Context (vm_reg : ConstantRegister -> Z) `{!VmRegisters vm_reg}.

(** The ids of the special registers: below 16 or from 53 on. *)
Lemma constant_to_reg_id_cases c :
  (0 <= constant_to_reg_id vm_reg c < 16 /\ constant_to_reg_id vm_reg c = vm_reg c /\
     (constant_index c < 16)%nat) \/
  (constant_to_reg_id vm_reg c = 79 - Z.of_nat (constant_index c) /\ (16 <= constant_index c < 27)%nat).
Proof.
  destruct c; cbn;
    first [left; split; [|split; [reflexivity|lia]]; apply vm_reg_range; cbn; lia | right; split; [reflexivity|lia]].
Qed.

Lemma constant_index_inj c d : constant_index c = constant_index d -> c = d.
Proof. intros Hcd. pose proof (constants_index c). rewrite Hcd, constants_index in H. congruence. Qed.

Lemma constant_to_reg_id_inj c d : constant_to_reg_id vm_reg c = constant_to_reg_id vm_reg d -> c = d.
Proof.
  intros Heq.
  destruct (constant_to_reg_id_cases c) as [(? & Hc & ?)|(Hc & ?)],
    (constant_to_reg_id_cases d) as [(? & Hd & ?)|(Hd & ?)]; try lia.
  - apply vm_reg_inj; [done..|lia].
  - apply constant_index_inj. lia.
Qed.

Lemma to_reg_id_Allocated n : 0 <= n < NUM_ALLOCATABLE_REGISTERS -> to_reg_id vm_reg (Allocated n) = Ok (n + 16).
Proof.
  intros Hn. change NUM_ALLOCATABLE_REGISTERS with 37 in Hn. unfold to_reg_id.
  destruct (Z.leb_spec (n + 16) 255); [done|lia].
Qed.

(** The register file is partitioned: every allocated or special register
    has an id below 64, and distinct registers (allocatable, reserved by the
    compiler or by the VM) have distinct ids. *)
Theorem to_reg_id_distinct r s :
  valid_allocated r -> valid_allocated s ->
  exists i j, to_reg_id vm_reg r = Ok i /\ to_reg_id vm_reg s = Ok j /\
    0 <= i < NUM_TOTAL_REGISTERS /\ (i = j <-> r = s).
Proof.
  change NUM_TOTAL_REGISTERS with 64. destruct r as [n|c], s as [m|d]; cbn [valid_allocated]; intros Hr Hs;
    rewrite ?to_reg_id_Allocated by done; change NUM_ALLOCATABLE_REGISTERS with 37 in *;
    (eexists _, _; split; [reflexivity|split; [reflexivity|]]).
  - split; [lia|]. split; [intros; f_equal; lia|congruence].
  - destruct (constant_to_reg_id_cases d) as [(? & ? & ?)|(? & ?)]; (split; [lia|]); split; [lia|done|lia|done].
  - destruct (constant_to_reg_id_cases c) as [(? & ? & ?)|(? & ?)]; (split; [lia|]); split; [lia|done|lia|done].
  - split; [destruct (constant_to_reg_id_cases c) as [(? & ? & ?)|(? & ?)]; lia|].
    split; [intros Hcd; f_equal; by apply constant_to_reg_id_inj|congruence].
Qed.
End reg_ids.

(** The ids of the VM registers in the order of their declaration *)
Definition declared_ids (c : ConstantRegister) : Z := Z.of_nat (constant_index c).

Lemma declared_ids_VmRegisters : VmRegisters declared_ids.
Proof.
  split; unfold declared_ids; [lia|]. intros c d _ _ Hcd. apply constant_index_inj. lia.
Qed.

Lemma to_reg_id_distinct_witness :
  exists i j, to_reg_id declared_ids (Allocated 36) = Ok i /\
    to_reg_id declared_ids (AllocatedConstant FuncArg5) = Ok j /\
    0 <= i < NUM_TOTAL_REGISTERS /\ (i = j <-> Allocated 36 = AllocatedConstant FuncArg5).
Proof.
  apply (to_reg_id_distinct declared_ids (VmRegisters0 := declared_ids_VmRegisters)
    (Allocated 36) (AllocatedConstant FuncArg5)); [split; vm_compute; congruence|exact I].
Defined.

(** ** Register names *)

(** Register names round-trip: a name that the assembly parser accepts is the
    printed name of the register it stands for, without its dollar signs, and
    the printed name of every VM-reserved register is accepted. *)
Theorem register_name_roundtrip c name :
  parse_register_name name = Some c <->
  constant_to_string c = ((if (constant_index c <? 16)%nat then "$" else "$$") +:+ name)%string /\
  (constant_index c <= 16)%nat.
Proof.
  split.
  - unfold parse_register_name. intros Hp.
    repeat (case_bool_decide; [subst name; injection Hp as <-; cbn; split; [reflexivity|lia]|]). discriminate Hp.
  - intros [Hs Hc]. destruct c; cbn in Hs, Hc; try lia; injection Hs as Hs;
      change ("" +:+ name)%string with name in Hs; subst name; reflexivity.
Qed.
