(* ===== verification/AsmVirtualOp.v ===== *)
(** * Virtual instructions

    Models [asm_lang/virtual_ops.rs]: the instructions on virtual registers,
    the registers that an instruction reads and writes, renaming of registers,
    and the translation to instructions on allocated registers of
    [asm_lang/allocated_ops.rs]. *)

From S2P Require Import Prelude AsmRegister.
Local Open Scope Z_scope.

(** [VirtualOp] *)
Inductive VirtualOp : Type :=
  | ADD (r1 r2 r3 : VirtualRegister)
  | ADDI (r1 r2 : VirtualRegister) (i : VirtualImmediate12)
  | AND (r1 r2 r3 : VirtualRegister)
  | ANDI (r1 r2 : VirtualRegister) (i : VirtualImmediate12)
  | DIV (r1 r2 r3 : VirtualRegister)
  | DIVI (r1 r2 : VirtualRegister) (i : VirtualImmediate12)
  | EQ (r1 r2 r3 : VirtualRegister)
  | EXP (r1 r2 r3 : VirtualRegister)
  | EXPI (r1 r2 : VirtualRegister) (i : VirtualImmediate12)
  | GT (r1 r2 r3 : VirtualRegister)
  | LT (r1 r2 r3 : VirtualRegister)
  | MLOG (r1 r2 r3 : VirtualRegister)
  | MOD (r1 r2 r3 : VirtualRegister)
  | MODI (r1 r2 : VirtualRegister) (i : VirtualImmediate12)
  | MOVE (r1 r2 : VirtualRegister)
  | MOVI (r1 : VirtualRegister) (i : VirtualImmediate18)
  | MROO (r1 r2 r3 : VirtualRegister)
  | MUL (r1 r2 r3 : VirtualRegister)
  | MULI (r1 r2 : VirtualRegister) (i : VirtualImmediate12)
  | NOOP
  | NOT (r1 r2 : VirtualRegister)
  | OR (r1 r2 r3 : VirtualRegister)
  | ORI (r1 r2 : VirtualRegister) (i : VirtualImmediate12)
  | SLL (r1 r2 r3 : VirtualRegister)
  | SLLI (r1 r2 : VirtualRegister) (i : VirtualImmediate12)
  | SRL (r1 r2 r3 : VirtualRegister)
  | SRLI (r1 r2 : VirtualRegister) (i : VirtualImmediate12)
  | SUB (r1 r2 r3 : VirtualRegister)
  | SUBI (r1 r2 : VirtualRegister) (i : VirtualImmediate12)
  | XOR (r1 r2 r3 : VirtualRegister)
  | XORI (r1 r2 : VirtualRegister) (i : VirtualImmediate12)
  | WQOP (r1 r2 r3 : VirtualRegister) (i : VirtualImmediate06)
  | WQML (r1 r2 r3 : VirtualRegister) (i : VirtualImmediate06)
  | WQDV (r1 r2 r3 : VirtualRegister) (i : VirtualImmediate06)
  | WQMD (r1 r2 r3 r4 : VirtualRegister)
  | WQCM (r1 r2 r3 : VirtualRegister) (i : VirtualImmediate06)
  | WQAM (r1 r2 r3 r4 : VirtualRegister)
  | WQMM (r1 r2 r3 r4 : VirtualRegister)
  | JMP (r1 : VirtualRegister)
  | JI (i : VirtualImmediate24)
  | JNE (r1 r2 r3 : VirtualRegister)
  | JNEI (r1 r2 : VirtualRegister) (i : VirtualImmediate12)
  | JNZI (r1 : VirtualRegister) (i : VirtualImmediate18)
  | RET (r1 : VirtualRegister)
  | ALOC (r1 r2 : VirtualRegister)
  | CFEI (r1 : VirtualRegister) (i : VirtualImmediate24)
  | CFSI (r1 : VirtualRegister) (i : VirtualImmediate24)
  | CFE (r1 r2 : VirtualRegister)
  | CFS (r1 r2 : VirtualRegister)
  | LB (r1 r2 : VirtualRegister) (i : VirtualImmediate12)
  | LW (r1 r2 : VirtualRegister) (i : VirtualImmediate12)
  | MCL (r1 r2 : VirtualRegister)
  | MCLI (r1 : VirtualRegister) (i : VirtualImmediate18)
  | MCP (r1 r2 r3 : VirtualRegister)
  | MCPI (r1 r2 : VirtualRegister) (i : VirtualImmediate12)
  | MEQ (r1 r2 r3 r4 : VirtualRegister)
  | SB (r1 r2 : VirtualRegister) (i : VirtualImmediate12)
  | SW (r1 r2 : VirtualRegister) (i : VirtualImmediate12)
  | BAL (r1 r2 r3 : VirtualRegister)
  | BHEI (r1 : VirtualRegister)
  | BHSH (r1 r2 : VirtualRegister)
  | BURN (r1 r2 : VirtualRegister)
  | CALL (r1 r2 r3 r4 : VirtualRegister)
  | CB (r1 : VirtualRegister)
  | CCP (r1 r2 r3 r4 : VirtualRegister)
  | CROO (r1 r2 : VirtualRegister)
  | CSIZ (r1 r2 : VirtualRegister)
  | BSIZ (r1 r2 : VirtualRegister)
  | LDC (r1 r2 r3 : VirtualRegister) (i : VirtualImmediate06)
  | BLDD (r1 r2 r3 r4 : VirtualRegister)
  | LOG (r1 r2 r3 r4 : VirtualRegister)
  | LOGD (r1 r2 r3 r4 : VirtualRegister)
  | MINT (r1 r2 : VirtualRegister)
  | RETD (r1 r2 : VirtualRegister)
  | RVRT (r1 : VirtualRegister)
  | SMO (r1 r2 r3 r4 : VirtualRegister)
  | SCWQ (r1 r2 r3 : VirtualRegister)
  | SRW (r1 r2 r3 : VirtualRegister)
  | SRWQ (r1 r2 r3 r4 : VirtualRegister)
  | SWW (r1 r2 r3 : VirtualRegister)
  | SWWQ (r1 r2 r3 r4 : VirtualRegister)
  | TIME (r1 r2 : VirtualRegister)
  | TR (r1 r2 r3 : VirtualRegister)
  | TRO (r1 r2 r3 r4 : VirtualRegister)
  | ECK1 (r1 r2 r3 : VirtualRegister)
  | ECR1 (r1 r2 r3 : VirtualRegister)
  | ED19 (r1 r2 r3 r4 : VirtualRegister)
  | K256 (r1 r2 r3 : VirtualRegister)
  | S256 (r1 r2 r3 : VirtualRegister)
  | ECOP (r1 r2 r3 r4 : VirtualRegister)
  | EPAR (r1 r2 r3 r4 : VirtualRegister)
  | ECAL (r1 r2 r3 r4 : VirtualRegister)
  | FLAG (r1 : VirtualRegister)
  | GM (r1 : VirtualRegister) (i : VirtualImmediate18)
  | GTF (r1 r2 : VirtualRegister) (i : VirtualImmediate12)
  | BLOB (i : VirtualImmediate24)
  | ConfigurablesOffsetPlaceholder
  | DataSectionOffsetPlaceholder
  | LoadDataId (r1 : VirtualRegister) (i : DataId)
  | AddrDataId (r1 : VirtualRegister) (i : DataId)
  | Undefined.

(** [VirtualOp::registers] *)
Definition VirtualOp_registers (op : VirtualOp) : BTreeSet :=
  btree_from
  match op with
  | ADD r1 r2 r3 => [r1; r2; r3]
  | ADDI r1 r2 _ => [r1; r2]
  | AND r1 r2 r3 => [r1; r2; r3]
  | ANDI r1 r2 _ => [r1; r2]
  | DIV r1 r2 r3 => [r1; r2; r3]
  | DIVI r1 r2 _ => [r1; r2]
  | EQ r1 r2 r3 => [r1; r2; r3]
  | EXP r1 r2 r3 => [r1; r2; r3]
  | EXPI r1 r2 _ => [r1; r2]
  | GT r1 r2 r3 => [r1; r2; r3]
  | LT r1 r2 r3 => [r1; r2; r3]
  | MLOG r1 r2 r3 => [r1; r2; r3]
  | MOD r1 r2 r3 => [r1; r2; r3]
  | MODI r1 r2 _ => [r1; r2]
  | MOVE r1 r2 => [r1; r2]
  | MOVI r1 _ => [r1]
  | MROO r1 r2 r3 => [r1; r2; r3]
  | MUL r1 r2 r3 => [r1; r2; r3]
  | MULI r1 r2 _ => [r1; r2]
  | NOOP => []
  | NOT r1 r2 => [r1; r2]
  | OR r1 r2 r3 => [r1; r2; r3]
  | ORI r1 r2 _ => [r1; r2]
  | SLL r1 r2 r3 => [r1; r2; r3]
  | SLLI r1 r2 _ => [r1; r2]
  | SRL r1 r2 r3 => [r1; r2; r3]
  | SRLI r1 r2 _ => [r1; r2]
  | SUB r1 r2 r3 => [r1; r2; r3]
  | SUBI r1 r2 _ => [r1; r2]
  | XOR r1 r2 r3 => [r1; r2; r3]
  | XORI r1 r2 _ => [r1; r2]
  | WQOP r1 r2 r3 _ => [r1; r2; r3]
  | WQML r1 r2 r3 _ => [r1; r2; r3]
  | WQDV r1 r2 r3 _ => [r1; r2; r3]
  | WQMD r1 r2 r3 r4 => [r1; r2; r3; r4]
  | WQCM r1 r2 r3 _ => [r1; r2; r3]
  | WQAM r1 r2 r3 r4 => [r1; r2; r3; r4]
  | WQMM r1 r2 r3 r4 => [r1; r2; r3; r4]
  | JMP r1 => [r1]
  | JI _ => []
  | JNE r1 r2 r3 => [r1; r2; r3]
  | JNEI r1 r2 _ => [r1; r2]
  | JNZI r1 _ => [r1]
  | RET r1 => [r1]
  | ALOC hp r1 => [hp; r1]
  | CFEI sp _ => [sp]
  | CFSI sp _ => [sp]
  | CFE sp r1 => [sp; r1]
  | CFS sp r1 => [sp; r1]
  | LB r1 r2 _ => [r1; r2]
  | LW r1 r2 _ => [r1; r2]
  | MCL r1 r2 => [r1; r2]
  | MCLI r1 _ => [r1]
  | MCP r1 r2 r3 => [r1; r2; r3]
  | MCPI r1 r2 _ => [r1; r2]
  | MEQ r1 r2 r3 r4 => [r1; r2; r3; r4]
  | SB r1 r2 _ => [r1; r2]
  | SW r1 r2 _ => [r1; r2]
  | BAL r1 r2 r3 => [r1; r2; r3]
  | BHEI r1 => [r1]
  | BHSH r1 r2 => [r1; r2]
  | BURN r1 r2 => [r1; r2]
  | CALL r1 r2 r3 r4 => [r1; r2; r3; r4]
  | CB r1 => [r1]
  | CCP r1 r2 r3 r4 => [r1; r2; r3; r4]
  | CROO r1 r2 => [r1; r2]
  | CSIZ r1 r2 => [r1; r2]
  | BSIZ r1 r2 => [r1; r2]
  | LDC r1 r2 r3 _ => [r1; r2; r3]
  | BLDD r1 r2 r3 r4 => [r1; r2; r3; r4]
  | LOG r1 r2 r3 r4 => [r1; r2; r3; r4]
  | LOGD r1 r2 r3 r4 => [r1; r2; r3; r4]
  | MINT r1 r2 => [r1; r2]
  | RETD r1 r2 => [r1; r2]
  | RVRT r1 => [r1]
  | SMO r1 r2 r3 r4 => [r1; r2; r3; r4]
  | SCWQ r1 r2 r3 => [r1; r2; r3]
  | SRW r1 r2 r3 => [r1; r2; r3]
  | SRWQ r1 r2 r3 r4 => [r1; r2; r3; r4]
  | SWW r1 r2 r3 => [r1; r2; r3]
  | SWWQ r1 r2 r3 r4 => [r1; r2; r3; r4]
  | TIME r1 r2 => [r1; r2]
  | TR r1 r2 r3 => [r1; r2; r3]
  | TRO r1 r2 r3 r4 => [r1; r2; r3; r4]
  | ECK1 r1 r2 r3 => [r1; r2; r3]
  | ECR1 r1 r2 r3 => [r1; r2; r3]
  | ED19 r1 r2 r3 r4 => [r1; r2; r3; r4]
  | K256 r1 r2 r3 => [r1; r2; r3]
  | S256 r1 r2 r3 => [r1; r2; r3]
  | ECOP r1 r2 r3 r4 => [r1; r2; r3; r4]
  | EPAR r1 r2 r3 r4 => [r1; r2; r3; r4]
  | ECAL r1 r2 r3 r4 => [r1; r2; r3; r4]
  | FLAG r1 => [r1]
  | GM r1 _ => [r1]
  | GTF r1 r2 _ => [r1; r2]
  | BLOB _ => []
  | DataSectionOffsetPlaceholder => []
  | ConfigurablesOffsetPlaceholder => []
  | LoadDataId r1 _ => [r1]
  | AddrDataId r1 _ => [r1]
  | Undefined => []
  end.

(** [VirtualOp::use_registers]: the registers that an instruction reads *)
Definition VirtualOp_use_registers (op : VirtualOp) : BTreeSet :=
  btree_from
  match op with
  | ADD _ r2 r3 => [r2; r3]
  | ADDI _ r2 _ => [r2]
  | AND _ r2 r3 => [r2; r3]
  | ANDI _ r2 _ => [r2]
  | DIV _ r2 r3 => [r2; r3]
  | DIVI _ r2 _ => [r2]
  | EQ _ r2 r3 => [r2; r3]
  | EXP _ r2 r3 => [r2; r3]
  | EXPI _ r2 _ => [r2]
  | GT _ r2 r3 => [r2; r3]
  | LT _ r2 r3 => [r2; r3]
  | MLOG _ r2 r3 => [r2; r3]
  | MOD _ r2 r3 => [r2; r3]
  | MODI _ r2 _ => [r2]
  | MOVE _ r2 => [r2]
  | MOVI _ _ => []
  | MROO _ r2 r3 => [r2; r3]
  | MUL _ r2 r3 => [r2; r3]
  | MULI _ r2 _ => [r2]
  | NOOP => []
  | NOT _ r2 => [r2]
  | OR _ r2 r3 => [r2; r3]
  | ORI _ r2 _ => [r2]
  | SLL _ r2 r3 => [r2; r3]
  | SLLI _ r2 _ => [r2]
  | SRL _ r2 r3 => [r2; r3]
  | SRLI _ r2 _ => [r2]
  | SUB _ r2 r3 => [r2; r3]
  | SUBI _ r2 _ => [r2]
  | XOR _ r2 r3 => [r2; r3]
  | XORI _ r2 _ => [r2]
  | WQOP r1 r2 r3 _ => [r1; r2; r3]
  | WQML r1 r2 r3 _ => [r1; r2; r3]
  | WQDV r1 r2 r3 _ => [r1; r2; r3]
  | WQMD r1 r2 r3 r4 => [r1; r2; r3; r4]
  | WQCM _ r2 r3 _ => [r2; r3]
  | WQAM r1 r2 r3 r4 => [r1; r2; r3; r4]
  | WQMM r1 r2 r3 r4 => [r1; r2; r3; r4]
  | JMP r1 => [r1]
  | JI _ => []
  | JNE r1 r2 r3 => [r1; r2; r3]
  | JNEI r1 r2 _ => [r1; r2]
  | JNZI r1 _ => [r1]
  | RET r1 => [r1]
  | ALOC hp r1 => [hp; r1]
  | CFEI sp _ => [sp]
  | CFSI sp _ => [sp]
  | CFE sp r1 => [sp; r1]
  | CFS sp r1 => [sp; r1]
  | LB _ r2 _ => [r2]
  | LW _ r2 _ => [r2]
  | MCL r1 r2 => [r1; r2]
  | MCLI r1 _ => [r1]
  | MCP r1 r2 r3 => [r1; r2; r3]
  | MCPI r1 r2 _ => [r1; r2]
  | MEQ _ r2 r3 r4 => [r2; r3; r4]
  | SB r1 r2 _ => [r1; r2]
  | SW r1 r2 _ => [r1; r2]
  | BAL _ r2 r3 => [r2; r3]
  | BHEI _ => []
  | BHSH r1 r2 => [r1; r2]
  | BURN r1 r2 => [r1; r2]
  | CALL r1 r2 r3 r4 => [r1; r2; r3; r4]
  | CB r1 => [r1]
  | CCP r1 r2 r3 r4 => [r1; r2; r3; r4]
  | CROO r1 r2 => [r1; r2]
  | CSIZ _ r2 => [r2]
  | BSIZ _ r2 => [r2]
  | LDC r1 r2 r3 _ => [r1; r2; r3]
  | BLDD r1 r2 r3 r4 => [r1; r2; r3; r4]
  | LOG r1 r2 r3 r4 => [r1; r2; r3; r4]
  | LOGD r1 r2 r3 r4 => [r1; r2; r3; r4]
  | MINT r1 r2 => [r1; r2]
  | RETD r1 r2 => [r1; r2]
  | RVRT r1 => [r1]
  | SMO r1 r2 r3 r4 => [r1; r2; r3; r4]
  | SCWQ r1 _ r3 => [r1; r3]
  | SRW _ _ r3 => [r3]
  | SRWQ r1 _ r3 r4 => [r1; r3; r4]
  | SWW r1 _ r3 => [r1; r3]
  | SWWQ r1 _ r3 r4 => [r1; r3; r4]
  | TIME _ r2 => [r2]
  | TR r1 r2 r3 => [r1; r2; r3]
  | TRO r1 r2 r3 r4 => [r1; r2; r3; r4]
  | ECK1 r1 r2 r3 => [r1; r2; r3]
  | ECR1 r1 r2 r3 => [r1; r2; r3]
  | ED19 r1 r2 r3 r4 => [r1; r2; r3; r4]
  | K256 r1 r2 r3 => [r1; r2; r3]
  | S256 r1 r2 r3 => [r1; r2; r3]
  | ECOP r1 r2 r3 r4 => [r1; r2; r3; r4]
  | EPAR _ r2 r3 r4 => [r2; r3; r4]
  | ECAL r1 r2 r3 r4 => [r1; r2; r3; r4]
  | FLAG r1 => [r1]
  | GM _ _ => []
  | GTF _ r2 _ => [r2]
  | BLOB _ => []
  | DataSectionOffsetPlaceholder => []
  | ConfigurablesOffsetPlaceholder => []
  | LoadDataId _ _ => []
  | AddrDataId _ _ => []
  | Undefined => []
  end.

(** [VirtualOp::def_registers]: the registers that an instruction writes *)
Definition VirtualOp_def_registers (op : VirtualOp) : BTreeSet :=
  btree_from
  match op with
  | ADD r1 _ _ => [r1]
  | ADDI r1 _ _ => [r1]
  | AND r1 _ _ => [r1]
  | ANDI r1 _ _ => [r1]
  | DIV r1 _ _ => [r1]
  | DIVI r1 _ _ => [r1]
  | EQ r1 _ _ => [r1]
  | EXP r1 _ _ => [r1]
  | EXPI r1 _ _ => [r1]
  | GT r1 _ _ => [r1]
  | LT r1 _ _ => [r1]
  | MLOG r1 _ _ => [r1]
  | MOD r1 _ _ => [r1]
  | MODI r1 _ _ => [r1]
  | MOVE r1 _ => [r1]
  | MOVI r1 _ => [r1]
  | MROO r1 _ _ => [r1]
  | MUL r1 _ _ => [r1]
  | MULI r1 _ _ => [r1]
  | NOOP => []
  | NOT r1 _ => [r1]
  | OR r1 _ _ => [r1]
  | ORI r1 _ _ => [r1]
  | SLL r1 _ _ => [r1]
  | SLLI r1 _ _ => [r1]
  | SRL r1 _ _ => [r1]
  | SRLI r1 _ _ => [r1]
  | SUB r1 _ _ => [r1]
  | SUBI r1 _ _ => [r1]
  | XOR r1 _ _ => [r1]
  | XORI r1 _ _ => [r1]
  | WQOP _ _ _ _ => []
  | WQML _ _ _ _ => []
  | WQDV _ _ _ _ => []
  | WQMD _ _ _ _ => []
  | WQCM r1 _ _ _ => [r1]
  | WQAM _ _ _ _ => []
  | WQMM _ _ _ _ => []
  | JMP _ => []
  | JI _ => []
  | JNE _ _ _ => []
  | JNEI _ _ _ => []
  | JNZI _ _ => []
  | RET _ => []
  | ALOC hp _ => [hp]
  | CFEI sp _ => [sp]
  | CFSI sp _ => [sp]
  | CFE sp _ => [sp]
  | CFS sp _ => [sp]
  | LB r1 _ _ => [r1]
  | LW r1 _ _ => [r1]
  | MCL _ _ => []
  | MCLI _ _ => []
  | MCP _ _ _ => []
  | MCPI _ _ _ => []
  | MEQ r1 _ _ _ => [r1]
  | SB _ _ _ => []
  | SW _ _ _ => []
  | BAL r1 _ _ => [r1]
  | BHEI r1 => [r1]
  | BHSH _ _ => []
  | BURN _ _ => []
  | CALL _ _ _ _ => []
  | CB _ => []
  | CCP _ _ _ _ => []
  | CROO _ _ => []
  | CSIZ r1 _ => [r1]
  | BSIZ r1 _ => [r1]
  | LDC _ _ _ _ => []
  | BLDD _ _ _ _ => []
  | LOG _ _ _ _ => []
  | LOGD _ _ _ _ => []
  | MINT _ _ => []
  | RETD _ _ => []
  | RVRT _ => []
  | SMO _ _ _ _ => []
  | SCWQ _ r2 _ => [r2]
  | SRW r1 r2 _ => [r1; r2]
  | SRWQ _ r2 _ _ => [r2]
  | SWW _ r2 _ => [r2]
  | SWWQ _ r2 _ _ => [r2]
  | TIME r1 _ => [r1]
  | TR _ _ _ => []
  | TRO _ _ _ _ => []
  | ECK1 _ _ _ => []
  | ECR1 _ _ _ => []
  | ED19 _ _ _ _ => []
  | K256 _ _ _ => []
  | S256 _ _ _ => []
  | ECOP _ _ _ _ => []
  | EPAR r1 _ _ _ => [r1]
  | ECAL _ _ _ _ => []
  | FLAG _ => []
  | GM r1 _ => [r1]
  | GTF r1 _ _ => [r1]
  | BLOB _ => []
  | LoadDataId r1 _ => [r1]
  | AddrDataId r1 _ => [r1]
  | DataSectionOffsetPlaceholder => []
  | ConfigurablesOffsetPlaceholder => []
  | Undefined => []
  end.

(** [VirtualOp::has_side_effect] *)
Definition has_side_effect (op : VirtualOp) : bool :=
  match op with
  | ADD _ _ _ | ADDI _ _ _ | AND _ _ _ | ANDI _ _ _ | DIV _ _ _ | DIVI _ _ _ | EQ _ _ _
  | EXP _ _ _ | EXPI _ _ _ | GT _ _ _ | LT _ _ _ | MLOG _ _ _ | MOD _ _ _ | MODI _ _ _ | MOVE _ _
  | MOVI _ _ | MROO _ _ _ | MUL _ _ _ | MULI _ _ _ | NOOP | NOT _ _ | OR _ _ _ | ORI _ _ _
  | SLL _ _ _ | SLLI _ _ _ | SRL _ _ _ | SRLI _ _ _ | SUB _ _ _ | SUBI _ _ _ | XOR _ _ _
  | XORI _ _ _ | LB _ _ _ | LW _ _ _ | BAL _ _ _ | BHEI _ | CSIZ _ _ | BSIZ _ _ | SRW _ _ _
  | TIME _ _ | GM _ _ | GTF _ _ _ | EPAR _ _ _ _ | LoadDataId _ _ | AddrDataId _ _
      => existsb (fun vreg => negb (is_virtual vreg)) (btree_iter (VirtualOp_def_registers op))
  | WQOP _ _ _ _ | WQML _ _ _ _ | WQDV _ _ _ _ | WQMD _ _ _ _ | WQCM _ _ _ _ | WQAM _ _ _ _
  | WQMM _ _ _ _ | JMP _ | JI _ | JNE _ _ _ | JNEI _ _ _ | JNZI _ _ | RET _ | ALOC _ _ | CFEI _ _
  | CFSI _ _ | CFE _ _ | CFS _ _ | MCL _ _ | MCLI _ _ | MCP _ _ _ | MCPI _ _ _ | MEQ _ _ _ _
  | SB _ _ _ | SW _ _ _ | BHSH _ _ | BURN _ _ | CALL _ _ _ _ | CB _ | CCP _ _ _ _ | CROO _ _
  | LDC _ _ _ _ | BLDD _ _ _ _ | LOG _ _ _ _ | LOGD _ _ _ _ | MINT _ _ | RETD _ _ | RVRT _
  | SMO _ _ _ _ | SCWQ _ _ _ | SRWQ _ _ _ _ | SWW _ _ _ | SWWQ _ _ _ _ | TR _ _ _ | TRO _ _ _ _
  | ECK1 _ _ _ | ECR1 _ _ _ | ED19 _ _ _ _ | K256 _ _ _ | S256 _ _ _ | ECOP _ _ _ _
  | ECAL _ _ _ _ | FLAG _ | BLOB _ | DataSectionOffsetPlaceholder
  | ConfigurablesOffsetPlaceholder | Undefined => true
  end.

(** [VirtualOp::def_const_registers]: the special registers that an instruction may set *)
Definition VirtualOp_def_const_registers (op : VirtualOp) : BTreeSet :=
  btree_from
  match op with
  | ADD _ _ _ | ADDI _ _ _ | AND _ _ _ | ANDI _ _ _ | DIV _ _ _ | DIVI _ _ _ | EQ _ _ _
  | EXP _ _ _ | EXPI _ _ _ | GT _ _ _ | LT _ _ _ | MLOG _ _ _ | MOD _ _ _ | MODI _ _ _ | MOVE _ _
  | MOVI _ _ | MROO _ _ _ | MUL _ _ _ | MULI _ _ _ | NOOP | NOT _ _ | OR _ _ _ | ORI _ _ _
  | SLL _ _ _ | SLLI _ _ _ | SRL _ _ _ | SRLI _ _ _ | SUB _ _ _ | SUBI _ _ _ | XOR _ _ _
  | XORI _ _ _ | WQOP _ _ _ _ | WQML _ _ _ _ | WQDV _ _ _ _ | WQMD _ _ _ _ | WQCM _ _ _ _
  | WQAM _ _ _ _ | WQMM _ _ _ _ | ECK1 _ _ _ | ECR1 _ _ _ | ED19 _ _ _ _
      => [Constant Overflow; Constant Error]
  | FLAG _ => [Constant Flags]
  | ALOC hp _ => [hp]
  | CFEI sp _ | CFSI sp _ | CFE sp _ | CFS sp _ => [sp]
  | JMP _ | JI _ | JNE _ _ _ | JNEI _ _ _ | JNZI _ _ | RET _ | LB _ _ _ | LW _ _ _ | MCL _ _
  | MCLI _ _ | MCP _ _ _ | MCPI _ _ _ | MEQ _ _ _ _ | SB _ _ _ | SW _ _ _ | BAL _ _ _ | BHEI _
  | BHSH _ _ | BURN _ _ | CALL _ _ _ _ | CB _ | CCP _ _ _ _ | CROO _ _ | CSIZ _ _ | BSIZ _ _
  | LDC _ _ _ _ | BLDD _ _ _ _ | LOG _ _ _ _ | LOGD _ _ _ _ | MINT _ _ | RETD _ _ | RVRT _
  | SMO _ _ _ _ | SCWQ _ _ _ | SRW _ _ _ | SRWQ _ _ _ _ | SWW _ _ _ | SWWQ _ _ _ _ | TIME _ _
  | TR _ _ _ | TRO _ _ _ _ | K256 _ _ _ | S256 _ _ _ | ECOP _ _ _ _ | EPAR _ _ _ _ | ECAL _ _ _ _
  | GM _ _ | GTF _ _ _ | BLOB _ | DataSectionOffsetPlaceholder | ConfigurablesOffsetPlaceholder
  | LoadDataId _ _ | AddrDataId _ _ | Undefined => []
  end.

(** [update_reg]: the map of a renaming is an [IndexMap]; renaming a constant
    register fails an assertion. *)
Definition update_reg (reg_to_reg_map : VirtualRegister -> option VirtualRegister)
    (reg : VirtualRegister) : Result VirtualRegister :=
  match reg_to_reg_map reg with
  | Some r => if is_virtual reg then Ok r else Err (Panic "Only virtual registers should be updated")
  | None => Ok reg
  end.

(** [VirtualOp::update_register] *)
Definition VirtualOp_update_register (reg_to_reg_map : VirtualRegister -> option VirtualRegister)
    (self : VirtualOp) : Result VirtualOp :=
  let u := update_reg reg_to_reg_map in
  match self with
  | ADD r1 r2 r3 => r1 ← u r1; r2 ← u r2; r3 ← u r3; Ok (ADD r1 r2 r3)
  | ADDI r1 r2 i => r1 ← u r1; r2 ← u r2; Ok (ADDI r1 r2 i)
  | AND r1 r2 r3 => r1 ← u r1; r2 ← u r2; r3 ← u r3; Ok (AND r1 r2 r3)
  | ANDI r1 r2 i => r1 ← u r1; r2 ← u r2; Ok (ANDI r1 r2 i)
  | DIV r1 r2 r3 => r1 ← u r1; r2 ← u r2; r3 ← u r3; Ok (DIV r1 r2 r3)
  | DIVI r1 r2 i => r1 ← u r1; r2 ← u r2; Ok (DIVI r1 r2 i)
  | EQ r1 r2 r3 => r1 ← u r1; r2 ← u r2; r3 ← u r3; Ok (EQ r1 r2 r3)
  | EXP r1 r2 r3 => r1 ← u r1; r2 ← u r2; r3 ← u r3; Ok (EXP r1 r2 r3)
  | EXPI r1 r2 i => r1 ← u r1; r2 ← u r2; Ok (EXPI r1 r2 i)
  | GT r1 r2 r3 => r1 ← u r1; r2 ← u r2; r3 ← u r3; Ok (GT r1 r2 r3)
  | LT r1 r2 r3 => r1 ← u r1; r2 ← u r2; r3 ← u r3; Ok (LT r1 r2 r3)
  | MLOG r1 r2 r3 => r1 ← u r1; r2 ← u r2; r3 ← u r3; Ok (MLOG r1 r2 r3)
  | MOD r1 r2 r3 => r1 ← u r1; r2 ← u r2; r3 ← u r3; Ok (MOD r1 r2 r3)
  | MODI r1 r2 i => r1 ← u r1; r2 ← u r2; Ok (MODI r1 r2 i)
  | MOVE r1 r2 => r1 ← u r1; r2 ← u r2; Ok (MOVE r1 r2)
  | MOVI r1 i => r1 ← u r1; Ok (MOVI r1 i)
  | MROO r1 r2 r3 => r1 ← u r1; r2 ← u r2; r3 ← u r3; Ok (MROO r1 r2 r3)
  | MUL r1 r2 r3 => r1 ← u r1; r2 ← u r2; r3 ← u r3; Ok (MUL r1 r2 r3)
  | MULI r1 r2 i => r1 ← u r1; r2 ← u r2; Ok (MULI r1 r2 i)
  | NOOP => Ok NOOP
  | NOT r1 r2 => r1 ← u r1; r2 ← u r2; Ok (NOT r1 r2)
  | OR r1 r2 r3 => r1 ← u r1; r2 ← u r2; r3 ← u r3; Ok (OR r1 r2 r3)
  | ORI r1 r2 i => r1 ← u r1; r2 ← u r2; Ok (ORI r1 r2 i)
  | SLL r1 r2 r3 => r1 ← u r1; r2 ← u r2; r3 ← u r3; Ok (SLL r1 r2 r3)
  | SLLI r1 r2 i => r1 ← u r1; r2 ← u r2; Ok (SLLI r1 r2 i)
  | SRL r1 r2 r3 => r1 ← u r1; r2 ← u r2; r3 ← u r3; Ok (SRL r1 r2 r3)
  | SRLI r1 r2 i => r1 ← u r1; r2 ← u r2; Ok (SRLI r1 r2 i)
  | SUB r1 r2 r3 => r1 ← u r1; r2 ← u r2; r3 ← u r3; Ok (SUB r1 r2 r3)
  | SUBI r1 r2 i => r1 ← u r1; r2 ← u r2; Ok (SUBI r1 r2 i)
  | XOR r1 r2 r3 => r1 ← u r1; r2 ← u r2; r3 ← u r3; Ok (XOR r1 r2 r3)
  | XORI r1 r2 i => r1 ← u r1; r2 ← u r2; Ok (XORI r1 r2 i)
  | WQOP r1 r2 r3 i => r1 ← u r1; r2 ← u r2; r3 ← u r3; Ok (WQOP r1 r2 r3 i)
  | WQML r1 r2 r3 i => r1 ← u r1; r2 ← u r2; r3 ← u r3; Ok (WQML r1 r2 r3 i)
  | WQDV r1 r2 r3 i => r1 ← u r1; r2 ← u r2; r3 ← u r3; Ok (WQDV r1 r2 r3 i)
  | WQMD r1 r2 r3 r4 => r1 ← u r1; r2 ← u r2; r3 ← u r3; r4 ← u r4; Ok (WQMD r1 r2 r3 r4)
  | WQCM r1 r2 r3 i => r1 ← u r1; r2 ← u r2; r3 ← u r3; Ok (WQCM r1 r2 r3 i)
  | WQAM r1 r2 r3 r4 => r1 ← u r1; r2 ← u r2; r3 ← u r3; r4 ← u r4; Ok (WQAM r1 r2 r3 r4)
  | WQMM r1 r2 r3 r4 => r1 ← u r1; r2 ← u r2; r3 ← u r3; r4 ← u r4; Ok (WQMM r1 r2 r3 r4)
  | JMP r1 => r1 ← u r1; Ok (JMP r1)
  | JI _ => Ok self
  | JNE r1 r2 r3 => r1 ← u r1; r2 ← u r2; r3 ← u r3; Ok (JNE r1 r2 r3)
  | JNEI r1 r2 i => r1 ← u r1; r2 ← u r2; Ok (JNEI r1 r2 i)
  | JNZI r1 i => r1 ← u r1; Ok (JNZI r1 i)
  | RET r1 => r1 ← u r1; Ok (RET r1)
  | ALOC hp r1 => r1 ← u r1; Ok (ALOC hp r1)
  | CFEI sp i => Ok (CFEI sp i)
  | CFSI sp i => Ok (CFSI sp i)
  | CFE sp r1 => r1 ← u r1; Ok (CFE sp r1)
  | CFS sp r1 => r1 ← u r1; Ok (CFS sp r1)
  | LB r1 r2 i => r1 ← u r1; r2 ← u r2; Ok (LB r1 r2 i)
  | LW r1 r2 i => r1 ← u r1; r2 ← u r2; Ok (LW r1 r2 i)
  | MCL r1 r2 => r1 ← u r1; r2 ← u r2; Ok (MCL r1 r2)
  | MCLI r1 i => r1 ← u r1; Ok (MCLI r1 i)
  | MCP r1 r2 r3 => r1 ← u r1; r2 ← u r2; r3 ← u r3; Ok (MCP r1 r2 r3)
  | MEQ r1 r2 r3 r4 => r1 ← u r1; r2 ← u r2; r3 ← u r3; r4 ← u r4; Ok (MEQ r1 r2 r3 r4)
  | MCPI r1 r2 i => r1 ← u r1; r2 ← u r2; Ok (MCPI r1 r2 i)
  | SB r1 r2 i => r1 ← u r1; r2 ← u r2; Ok (SB r1 r2 i)
  | SW r1 r2 i => r1 ← u r1; r2 ← u r2; Ok (SW r1 r2 i)
  | BAL r1 r2 r3 => r1 ← u r1; r2 ← u r2; r3 ← u r3; Ok (BAL r1 r2 r3)
  | BHEI r1 => r1 ← u r1; Ok (BHEI r1)
  | BHSH r1 r2 => r1 ← u r1; r2 ← u r2; Ok (BHSH r1 r2)
  | BURN r1 r2 => r1 ← u r1; r2 ← u r2; Ok (BURN r1 r2)
  | CALL r1 r2 r3 r4 => r1 ← u r1; r2 ← u r2; r3 ← u r3; r4 ← u r4; Ok (CALL r1 r2 r3 r4)
  | CB r1 => r1 ← u r1; Ok (CB r1)
  | CCP r1 r2 r3 r4 => r1 ← u r1; r2 ← u r2; r3 ← u r3; r4 ← u r4; Ok (CCP r1 r2 r3 r4)
  | CROO r1 r2 => r1 ← u r1; r2 ← u r2; Ok (CROO r1 r2)
  | CSIZ r1 r2 => r1 ← u r1; r2 ← u r2; Ok (CSIZ r1 r2)
  | BSIZ r1 r2 => r1 ← u r1; r2 ← u r2; Ok (BSIZ r1 r2)
  | LDC r1 r2 r3 i0 => r1 ← u r1; r2 ← u r2; r3 ← u r3; Ok (LDC r1 r2 r3 i0)
  | BLDD r1 r2 r3 r4 => r1 ← u r1; r2 ← u r2; r3 ← u r3; r4 ← u r4; Ok (BLDD r1 r2 r3 r4)
  | LOG r1 r2 r3 r4 => r1 ← u r1; r2 ← u r2; r3 ← u r3; r4 ← u r4; Ok (LOG r1 r2 r3 r4)
  | LOGD r1 r2 r3 r4 => r1 ← u r1; r2 ← u r2; r3 ← u r3; r4 ← u r4; Ok (LOGD r1 r2 r3 r4)
  | MINT r1 r2 => r1 ← u r1; r2 ← u r2; Ok (MINT r1 r2)
  | RETD r1 r2 => r1 ← u r1; r2 ← u r2; Ok (RETD r1 r2)
  | RVRT reg1 => reg1 ← u reg1; Ok (RVRT reg1)
  | SMO r1 r2 r3 r4 => r1 ← u r1; r2 ← u r2; r3 ← u r3; r4 ← u r4; Ok (SMO r1 r2 r3 r4)
  | SCWQ r1 r2 r3 => r1 ← u r1; r2 ← u r2; r3 ← u r3; Ok (SCWQ r1 r2 r3)
  | SRW r1 r2 r3 => r1 ← u r1; r2 ← u r2; r3 ← u r3; Ok (SRW r1 r2 r3)
  | SRWQ r1 r2 r3 r4 => r1 ← u r1; r2 ← u r2; r3 ← u r3; r4 ← u r4; Ok (SRWQ r1 r2 r3 r4)
  | SWW r1 r2 r3 => r1 ← u r1; r2 ← u r2; r3 ← u r3; Ok (SWW r1 r2 r3)
  | SWWQ r1 r2 r3 r4 => r1 ← u r1; r2 ← u r2; r3 ← u r3; r4 ← u r4; Ok (SWWQ r1 r2 r3 r4)
  | TIME r1 r2 => r1 ← u r1; r2 ← u r2; Ok (TIME r1 r2)
  | TR r1 r2 r3 => r1 ← u r1; r2 ← u r2; r3 ← u r3; Ok (TR r1 r2 r3)
  | TRO r1 r2 r3 r4 => r1 ← u r1; r2 ← u r2; r3 ← u r3; r4 ← u r4; Ok (TRO r1 r2 r3 r4)
  | ECK1 r1 r2 r3 => r1 ← u r1; r2 ← u r2; r3 ← u r3; Ok (ECK1 r1 r2 r3)
  | ECR1 r1 r2 r3 => r1 ← u r1; r2 ← u r2; r3 ← u r3; Ok (ECR1 r1 r2 r3)
  | ED19 r1 r2 r3 r4 => r1 ← u r1; r2 ← u r2; r3 ← u r3; r4 ← u r4; Ok (ED19 r1 r2 r3 r4)
  | K256 r1 r2 r3 => r1 ← u r1; r2 ← u r2; r3 ← u r3; Ok (K256 r1 r2 r3)
  | S256 r1 r2 r3 => r1 ← u r1; r2 ← u r2; r3 ← u r3; Ok (S256 r1 r2 r3)
  | ECOP r1 r2 r3 r4 => r1 ← u r1; r2 ← u r2; r3 ← u r3; r4 ← u r4; Ok (ECOP r1 r2 r3 r4)
  | EPAR r1 r2 r3 r4 => r1 ← u r1; r2 ← u r2; r3 ← u r3; r4 ← u r4; Ok (EPAR r1 r2 r3 r4)
  | ECAL r1 r2 r3 r4 => r1 ← u r1; r2 ← u r2; r3 ← u r3; r4 ← u r4; Ok (ECAL r1 r2 r3 r4)
  | FLAG r1 => r1 ← u r1; Ok (FLAG r1)
  | GM r1 i => r1 ← u r1; Ok (GM r1 i)
  | GTF r1 r2 i => r1 ← u r1; r2 ← u r2; Ok (GTF r1 r2 i)
  | BLOB i => Ok (BLOB i)
  | DataSectionOffsetPlaceholder => Ok DataSectionOffsetPlaceholder
  | ConfigurablesOffsetPlaceholder => Ok ConfigurablesOffsetPlaceholder
  | LoadDataId r1 i => r1 ← u r1; Ok (LoadDataId r1 i)
  | AddrDataId r1 i => r1 ← u r1; Ok (AddrDataId r1 i)
  | Undefined => Ok Undefined
  end.

(** ** Instructions on allocated registers *)

Module AllocatedOpcode.
Inductive AllocatedOpcode : Type :=
  | ADD (r1 r2 r3 : AllocatedRegister)
  | ADDI (r1 r2 : AllocatedRegister) (i : VirtualImmediate12)
  | AND (r1 r2 r3 : AllocatedRegister)
  | ANDI (r1 r2 : AllocatedRegister) (i : VirtualImmediate12)
  | DIV (r1 r2 r3 : AllocatedRegister)
  | DIVI (r1 r2 : AllocatedRegister) (i : VirtualImmediate12)
  | EQ (r1 r2 r3 : AllocatedRegister)
  | EXP (r1 r2 r3 : AllocatedRegister)
  | EXPI (r1 r2 : AllocatedRegister) (i : VirtualImmediate12)
  | GT (r1 r2 r3 : AllocatedRegister)
  | LT (r1 r2 r3 : AllocatedRegister)
  | MLOG (r1 r2 r3 : AllocatedRegister)
  | MOD (r1 r2 r3 : AllocatedRegister)
  | MODI (r1 r2 : AllocatedRegister) (i : VirtualImmediate12)
  | MOVE (r1 r2 : AllocatedRegister)
  | MOVI (r1 : AllocatedRegister) (i : VirtualImmediate18)
  | MROO (r1 r2 r3 : AllocatedRegister)
  | MUL (r1 r2 r3 : AllocatedRegister)
  | MULI (r1 r2 : AllocatedRegister) (i : VirtualImmediate12)
  | NOOP
  | NOT (r1 r2 : AllocatedRegister)
  | OR (r1 r2 r3 : AllocatedRegister)
  | ORI (r1 r2 : AllocatedRegister) (i : VirtualImmediate12)
  | SLL (r1 r2 r3 : AllocatedRegister)
  | SLLI (r1 r2 : AllocatedRegister) (i : VirtualImmediate12)
  | SRL (r1 r2 r3 : AllocatedRegister)
  | SRLI (r1 r2 : AllocatedRegister) (i : VirtualImmediate12)
  | SUB (r1 r2 r3 : AllocatedRegister)
  | SUBI (r1 r2 : AllocatedRegister) (i : VirtualImmediate12)
  | XOR (r1 r2 r3 : AllocatedRegister)
  | XORI (r1 r2 : AllocatedRegister) (i : VirtualImmediate12)
  | WQOP (r1 r2 r3 : AllocatedRegister) (i : VirtualImmediate06)
  | WQML (r1 r2 r3 : AllocatedRegister) (i : VirtualImmediate06)
  | WQDV (r1 r2 r3 : AllocatedRegister) (i : VirtualImmediate06)
  | WQMD (r1 r2 r3 r4 : AllocatedRegister)
  | WQCM (r1 r2 r3 : AllocatedRegister) (i : VirtualImmediate06)
  | WQAM (r1 r2 r3 r4 : AllocatedRegister)
  | WQMM (r1 r2 r3 r4 : AllocatedRegister)
  | JMP (r1 : AllocatedRegister)
  | JI (i : VirtualImmediate24)
  | JNE (r1 r2 r3 : AllocatedRegister)
  | JNEI (r1 r2 : AllocatedRegister) (i : VirtualImmediate12)
  | JNZI (r1 : AllocatedRegister) (i : VirtualImmediate18)
  | JMPB (r1 : AllocatedRegister) (i : VirtualImmediate18)
  | JMPF (r1 : AllocatedRegister) (i : VirtualImmediate18)
  | JNZB (r1 r2 : AllocatedRegister) (i : VirtualImmediate12)
  | JNZF (r1 r2 : AllocatedRegister) (i : VirtualImmediate12)
  | RET (r1 : AllocatedRegister)
  | ALOC (r1 : AllocatedRegister)
  | CFEI (i : VirtualImmediate24)
  | CFSI (i : VirtualImmediate24)
  | CFE (r1 : AllocatedRegister)
  | CFS (r1 : AllocatedRegister)
  | LB (r1 r2 : AllocatedRegister) (i : VirtualImmediate12)
  | LW (r1 r2 : AllocatedRegister) (i : VirtualImmediate12)
  | MCL (r1 r2 : AllocatedRegister)
  | MCLI (r1 : AllocatedRegister) (i : VirtualImmediate18)
  | MCP (r1 r2 r3 : AllocatedRegister)
  | MCPI (r1 r2 : AllocatedRegister) (i : VirtualImmediate12)
  | MEQ (r1 r2 r3 r4 : AllocatedRegister)
  | PSHH (i : VirtualImmediate24)
  | PSHL (i : VirtualImmediate24)
  | POPH (i : VirtualImmediate24)
  | POPL (i : VirtualImmediate24)
  | SB (r1 r2 : AllocatedRegister) (i : VirtualImmediate12)
  | SW (r1 r2 : AllocatedRegister) (i : VirtualImmediate12)
  | BAL (r1 r2 r3 : AllocatedRegister)
  | BHEI (r1 : AllocatedRegister)
  | BHSH (r1 r2 : AllocatedRegister)
  | BURN (r1 r2 : AllocatedRegister)
  | CALL (r1 r2 r3 r4 : AllocatedRegister)
  | CB (r1 : AllocatedRegister)
  | CCP (r1 r2 r3 r4 : AllocatedRegister)
  | CROO (r1 r2 : AllocatedRegister)
  | CSIZ (r1 r2 : AllocatedRegister)
  | BSIZ (r1 r2 : AllocatedRegister)
  | LDC (r1 r2 r3 : AllocatedRegister) (i : VirtualImmediate06)
  | BLDD (r1 r2 r3 r4 : AllocatedRegister)
  | LOG (r1 r2 r3 r4 : AllocatedRegister)
  | LOGD (r1 r2 r3 r4 : AllocatedRegister)
  | MINT (r1 r2 : AllocatedRegister)
  | RETD (r1 r2 : AllocatedRegister)
  | RVRT (r1 : AllocatedRegister)
  | SMO (r1 r2 r3 r4 : AllocatedRegister)
  | SCWQ (r1 r2 r3 : AllocatedRegister)
  | SRW (r1 r2 r3 : AllocatedRegister)
  | SRWQ (r1 r2 r3 r4 : AllocatedRegister)
  | SWW (r1 r2 r3 : AllocatedRegister)
  | SWWQ (r1 r2 r3 r4 : AllocatedRegister)
  | TIME (r1 r2 : AllocatedRegister)
  | TR (r1 r2 r3 : AllocatedRegister)
  | TRO (r1 r2 r3 r4 : AllocatedRegister)
  | ECK1 (r1 r2 r3 : AllocatedRegister)
  | ECR1 (r1 r2 r3 : AllocatedRegister)
  | ED19 (r1 r2 r3 r4 : AllocatedRegister)
  | K256 (r1 r2 r3 : AllocatedRegister)
  | S256 (r1 r2 r3 : AllocatedRegister)
  | ECOP (r1 r2 r3 r4 : AllocatedRegister)
  | EPAR (r1 r2 r3 r4 : AllocatedRegister)
  | ECAL (r1 r2 r3 r4 : AllocatedRegister)
  | FLAG (r1 : AllocatedRegister)
  | GM (r1 : AllocatedRegister) (i : VirtualImmediate18)
  | GTF (r1 r2 : AllocatedRegister) (i : VirtualImmediate12)
  | BLOB (i : VirtualImmediate24)
  | ConfigurablesOffsetPlaceholder
  | DataSectionOffsetPlaceholder
  | LoadDataId (r1 : AllocatedRegister) (i : DataId)
  | AddrDataId (r1 : AllocatedRegister) (i : DataId)
  | Undefined.

(** [AllocatedOpcode::def_registers]; the registers of a push or pop are in its mask. *)
Definition def_registers (op : AllocatedOpcode) : Result (list AllocatedRegister) :=
  match op with
  | ADD r1 _ _ => Ok [r1]
  | ADDI r1 _ _ => Ok [r1]
  | AND r1 _ _ => Ok [r1]
  | ANDI r1 _ _ => Ok [r1]
  | DIV r1 _ _ => Ok [r1]
  | DIVI r1 _ _ => Ok [r1]
  | EQ r1 _ _ => Ok [r1]
  | EXP r1 _ _ => Ok [r1]
  | EXPI r1 _ _ => Ok [r1]
  | GT r1 _ _ => Ok [r1]
  | LT r1 _ _ => Ok [r1]
  | MLOG r1 _ _ => Ok [r1]
  | MOD r1 _ _ => Ok [r1]
  | MODI r1 _ _ => Ok [r1]
  | MOVE r1 _ => Ok [r1]
  | MOVI r1 _ => Ok [r1]
  | MROO r1 _ _ => Ok [r1]
  | MUL r1 _ _ => Ok [r1]
  | MULI r1 _ _ => Ok [r1]
  | NOOP => Ok []
  | NOT r1 _ => Ok [r1]
  | OR r1 _ _ => Ok [r1]
  | ORI r1 _ _ => Ok [r1]
  | SLL r1 _ _ => Ok [r1]
  | SLLI r1 _ _ => Ok [r1]
  | SRL r1 _ _ => Ok [r1]
  | SRLI r1 _ _ => Ok [r1]
  | SUB r1 _ _ => Ok [r1]
  | SUBI r1 _ _ => Ok [r1]
  | XOR r1 _ _ => Ok [r1]
  | XORI r1 _ _ => Ok [r1]
  | WQOP _ _ _ _ => Ok []
  | WQML _ _ _ _ => Ok []
  | WQDV _ _ _ _ => Ok []
  | WQMD _ _ _ _ => Ok []
  | WQCM r1 _ _ _ => Ok [r1]
  | WQAM _ _ _ _ => Ok []
  | WQMM _ _ _ _ => Ok []
  | JMP _ => Ok []
  | JI _ => Ok []
  | JNE _ _ _ => Ok []
  | JNEI _ _ _ => Ok []
  | JNZI _ _ => Ok []
  | JMPB _ _ => Ok []
  | JMPF _ _ => Ok []
  | JNZB _ _ _ => Ok []
  | JNZF _ _ _ => Ok []
  | RET _ => Ok []
  | ALOC _ => Ok []
  | CFEI _ => Ok []
  | CFSI _ => Ok []
  | CFE _ => Ok []
  | CFS _ => Ok []
  | LB r1 _ _ => Ok [r1]
  | LW r1 _ _ => Ok [r1]
  | MCL _ _ => Ok []
  | MCLI _ _ => Ok []
  | MCP _ _ _ => Ok []
  | MCPI _ _ _ => Ok []
  | MEQ r1 _ _ _ => Ok [r1]
  | PSHH _ | PSHL _ | POPH _ | POPL _ =>
      Err (Panic "Cannot determine defined registers for register PUSH/POP instructions")
  | SB _ _ _ => Ok []
  | SW _ _ _ => Ok []
  | BAL r1 _ _ => Ok [r1]
  | BHEI r1 => Ok [r1]
  | BHSH _ _ => Ok []
  | BURN _ _ => Ok []
  | CALL _ _ _ _ => Ok []
  | CB _ => Ok []
  | CCP _ _ _ _ => Ok []
  | CROO _ _ => Ok []
  | CSIZ r1 _ => Ok [r1]
  | BSIZ r1 _ => Ok [r1]
  | LDC _ _ _ _ => Ok []
  | BLDD _ _ _ _ => Ok []
  | LOG _ _ _ _ => Ok []
  | LOGD _ _ _ _ => Ok []
  | MINT _ _ => Ok []
  | RETD _ _ => Ok []
  | RVRT _ => Ok []
  | SMO _ _ _ _ => Ok []
  | SCWQ _ r2 _ => Ok [r2]
  | SRW r1 r2 _ => Ok [r1; r2]
  | SRWQ _ r2 _ _ => Ok [r2]
  | SWW _ r2 _ => Ok [r2]
  | SWWQ _ r2 _ _ => Ok [r2]
  | TIME r1 _ => Ok [r1]
  | TR _ _ _ => Ok []
  | TRO _ _ _ _ => Ok []
  | ECK1 _ _ _ => Ok []
  | ECR1 _ _ _ => Ok []
  | ED19 _ _ _ _ => Ok []
  | K256 _ _ _ => Ok []
  | S256 _ _ _ => Ok []
  | ECOP _ _ _ _ => Ok []
  | EPAR r1 _ _ _ => Ok [r1]
  | ECAL _ _ _ _ => Ok []
  | FLAG _ => Ok []
  | GM r1 _ => Ok [r1]
  | GTF r1 _ _ => Ok [r1]
  | BLOB _ => Ok []
  | ConfigurablesOffsetPlaceholder => Ok []
  | DataSectionOffsetPlaceholder => Ok []
  | LoadDataId r1 _ => Ok [r1]
  | AddrDataId r1 _ => Ok [r1]
  | Undefined => Ok []
  end.
End AllocatedOpcode.
Abbreviation AllocatedOpcode := AllocatedOpcode.AllocatedOpcode.

(** The lookup of every register of an instruction in the pool: the [mapping] of
    [VirtualOp::allocate_registers] *)
Definition allocate_register (pool : RegisterPool) (x : VirtualRegister) : option AllocatedRegister :=
  match x with
  | Constant c => Some (AllocatedConstant c)
  | Virtual _ => get_register pool x
  end.

Definition allocation_mapping (pool : RegisterPool) (regs : BTreeSet)
    : Result (gmap VirtualRegister AllocatedRegister) :=
  match mapM (fun x => (fun register => (x, register)) <$> allocate_register pool x) (btree_iter regs) with
  | Some o => Ok (foldl (fun mapping kv => <[kv.1 := kv.2]> mapping) ∅ o)
  | None => Err (Panic "The allocator cannot resolve a register mapping for this program.")
  end.

(** [map_reg] *)
Definition map_reg (mapping : gmap VirtualRegister AllocatedRegister) (reg : VirtualRegister)
    : Result AllocatedRegister :=
  match mapping !! reg with
  | Some r => Ok r
  | None => Err (Panic "called `Option::unwrap()` on a `None` value")
  end.

(** [VirtualOp::allocate_registers] *)
Definition VirtualOp_allocate_registers (pool : RegisterPool) (self : VirtualOp)
    : Result AllocatedOpcode :=
  mapping ← allocation_mapping pool (VirtualOp_registers self);
  let m := map_reg mapping in
  match self with
  | ADD reg1 reg2 reg3 => reg1 ← m reg1; reg2 ← m reg2; reg3 ← m reg3; Ok (AllocatedOpcode.ADD reg1 reg2 reg3)
  | ADDI reg1 reg2 imm => reg1 ← m reg1; reg2 ← m reg2; Ok (AllocatedOpcode.ADDI reg1 reg2 imm)
  | AND reg1 reg2 reg3 => reg1 ← m reg1; reg2 ← m reg2; reg3 ← m reg3; Ok (AllocatedOpcode.AND reg1 reg2 reg3)
  | ANDI reg1 reg2 imm => reg1 ← m reg1; reg2 ← m reg2; Ok (AllocatedOpcode.ANDI reg1 reg2 imm)
  | DIV reg1 reg2 reg3 => reg1 ← m reg1; reg2 ← m reg2; reg3 ← m reg3; Ok (AllocatedOpcode.DIV reg1 reg2 reg3)
  | DIVI reg1 reg2 imm => reg1 ← m reg1; reg2 ← m reg2; Ok (AllocatedOpcode.DIVI reg1 reg2 imm)
  | EQ reg1 reg2 reg3 => reg1 ← m reg1; reg2 ← m reg2; reg3 ← m reg3; Ok (AllocatedOpcode.EQ reg1 reg2 reg3)
  | EXP reg1 reg2 reg3 => reg1 ← m reg1; reg2 ← m reg2; reg3 ← m reg3; Ok (AllocatedOpcode.EXP reg1 reg2 reg3)
  | EXPI reg1 reg2 imm => reg1 ← m reg1; reg2 ← m reg2; Ok (AllocatedOpcode.EXPI reg1 reg2 imm)
  | GT reg1 reg2 reg3 => reg1 ← m reg1; reg2 ← m reg2; reg3 ← m reg3; Ok (AllocatedOpcode.GT reg1 reg2 reg3)
  | LT reg1 reg2 reg3 => reg1 ← m reg1; reg2 ← m reg2; reg3 ← m reg3; Ok (AllocatedOpcode.LT reg1 reg2 reg3)
  | MLOG reg1 reg2 reg3 => reg1 ← m reg1; reg2 ← m reg2; reg3 ← m reg3; Ok (AllocatedOpcode.MLOG reg1 reg2 reg3)
  | MOD reg1 reg2 reg3 => reg1 ← m reg1; reg2 ← m reg2; reg3 ← m reg3; Ok (AllocatedOpcode.MOD reg1 reg2 reg3)
  | MODI reg1 reg2 imm => reg1 ← m reg1; reg2 ← m reg2; Ok (AllocatedOpcode.MODI reg1 reg2 imm)
  | MOVE reg1 reg2 => reg1 ← m reg1; reg2 ← m reg2; Ok (AllocatedOpcode.MOVE reg1 reg2)
  | MOVI reg1 imm => reg1 ← m reg1; Ok (AllocatedOpcode.MOVI reg1 imm)
  | MROO reg1 reg2 reg3 => reg1 ← m reg1; reg2 ← m reg2; reg3 ← m reg3; Ok (AllocatedOpcode.MROO reg1 reg2 reg3)
  | MUL reg1 reg2 reg3 => reg1 ← m reg1; reg2 ← m reg2; reg3 ← m reg3; Ok (AllocatedOpcode.MUL reg1 reg2 reg3)
  | MULI reg1 reg2 imm => reg1 ← m reg1; reg2 ← m reg2; Ok (AllocatedOpcode.MULI reg1 reg2 imm)
  | NOOP => Ok AllocatedOpcode.NOOP
  | NOT reg1 reg2 => reg1 ← m reg1; reg2 ← m reg2; Ok (AllocatedOpcode.NOT reg1 reg2)
  | OR reg1 reg2 reg3 => reg1 ← m reg1; reg2 ← m reg2; reg3 ← m reg3; Ok (AllocatedOpcode.OR reg1 reg2 reg3)
  | ORI reg1 reg2 imm => reg1 ← m reg1; reg2 ← m reg2; Ok (AllocatedOpcode.ORI reg1 reg2 imm)
  | SLL reg1 reg2 reg3 => reg1 ← m reg1; reg2 ← m reg2; reg3 ← m reg3; Ok (AllocatedOpcode.SLL reg1 reg2 reg3)
  | SLLI reg1 reg2 imm => reg1 ← m reg1; reg2 ← m reg2; Ok (AllocatedOpcode.SLLI reg1 reg2 imm)
  | SRL reg1 reg2 reg3 => reg1 ← m reg1; reg2 ← m reg2; reg3 ← m reg3; Ok (AllocatedOpcode.SRL reg1 reg2 reg3)
  | SRLI reg1 reg2 imm => reg1 ← m reg1; reg2 ← m reg2; Ok (AllocatedOpcode.SRLI reg1 reg2 imm)
  | SUB reg1 reg2 reg3 => reg1 ← m reg1; reg2 ← m reg2; reg3 ← m reg3; Ok (AllocatedOpcode.SUB reg1 reg2 reg3)
  | SUBI reg1 reg2 imm => reg1 ← m reg1; reg2 ← m reg2; Ok (AllocatedOpcode.SUBI reg1 reg2 imm)
  | XOR reg1 reg2 reg3 => reg1 ← m reg1; reg2 ← m reg2; reg3 ← m reg3; Ok (AllocatedOpcode.XOR reg1 reg2 reg3)
  | XORI reg1 reg2 imm => reg1 ← m reg1; reg2 ← m reg2; Ok (AllocatedOpcode.XORI reg1 reg2 imm)
  | WQOP reg1 reg2 reg3 imm => reg1 ← m reg1; reg2 ← m reg2; reg3 ← m reg3; Ok (AllocatedOpcode.WQOP reg1 reg2 reg3 imm)
  | WQML reg1 reg2 reg3 imm => reg1 ← m reg1; reg2 ← m reg2; reg3 ← m reg3; Ok (AllocatedOpcode.WQML reg1 reg2 reg3 imm)
  | WQDV reg1 reg2 reg3 imm => reg1 ← m reg1; reg2 ← m reg2; reg3 ← m reg3; Ok (AllocatedOpcode.WQDV reg1 reg2 reg3 imm)
  | WQMD reg1 reg2 reg3 reg4 => reg1 ← m reg1; reg2 ← m reg2; reg3 ← m reg3; reg4 ← m reg4; Ok (AllocatedOpcode.WQMD reg1 reg2 reg3 reg4)
  | WQCM reg1 reg2 reg3 imm => reg1 ← m reg1; reg2 ← m reg2; reg3 ← m reg3; Ok (AllocatedOpcode.WQCM reg1 reg2 reg3 imm)
  | WQAM reg1 reg2 reg3 reg4 => reg1 ← m reg1; reg2 ← m reg2; reg3 ← m reg3; reg4 ← m reg4; Ok (AllocatedOpcode.WQAM reg1 reg2 reg3 reg4)
  | WQMM reg1 reg2 reg3 reg4 => reg1 ← m reg1; reg2 ← m reg2; reg3 ← m reg3; reg4 ← m reg4; Ok (AllocatedOpcode.WQMM reg1 reg2 reg3 reg4)
  | JMP reg1 => reg1 ← m reg1; Ok (AllocatedOpcode.JMP reg1)
  | JI imm => Ok (AllocatedOpcode.JI imm)
  | JNE reg1 reg2 reg3 => reg1 ← m reg1; reg2 ← m reg2; reg3 ← m reg3; Ok (AllocatedOpcode.JNE reg1 reg2 reg3)
  | JNEI reg1 reg2 imm => reg1 ← m reg1; reg2 ← m reg2; Ok (AllocatedOpcode.JNEI reg1 reg2 imm)
  | JNZI reg1 imm => reg1 ← m reg1; Ok (AllocatedOpcode.JNZI reg1 imm)
  | RET reg => reg ← m reg; Ok (AllocatedOpcode.RET reg)
  | ALOC _ reg => reg ← m reg; Ok (AllocatedOpcode.ALOC reg)
  | CFEI _ imm => Ok (AllocatedOpcode.CFEI imm)
  | CFSI _ imm => Ok (AllocatedOpcode.CFSI imm)
  | CFE _ reg => reg ← m reg; Ok (AllocatedOpcode.CFE reg)
  | CFS _ reg => reg ← m reg; Ok (AllocatedOpcode.CFS reg)
  | LB reg1 reg2 imm => reg1 ← m reg1; reg2 ← m reg2; Ok (AllocatedOpcode.LB reg1 reg2 imm)
  | LW reg1 reg2 imm => reg1 ← m reg1; reg2 ← m reg2; Ok (AllocatedOpcode.LW reg1 reg2 imm)
  | MCL reg1 reg2 => reg1 ← m reg1; reg2 ← m reg2; Ok (AllocatedOpcode.MCL reg1 reg2)
  | MCLI reg1 imm => reg1 ← m reg1; Ok (AllocatedOpcode.MCLI reg1 imm)
  | MCP reg1 reg2 reg3 => reg1 ← m reg1; reg2 ← m reg2; reg3 ← m reg3; Ok (AllocatedOpcode.MCP reg1 reg2 reg3)
  | MCPI reg1 reg2 imm => reg1 ← m reg1; reg2 ← m reg2; Ok (AllocatedOpcode.MCPI reg1 reg2 imm)
  | MEQ reg1 reg2 reg3 reg4 => reg1 ← m reg1; reg2 ← m reg2; reg3 ← m reg3; reg4 ← m reg4; Ok (AllocatedOpcode.MEQ reg1 reg2 reg3 reg4)
  | SB reg1 reg2 imm => reg1 ← m reg1; reg2 ← m reg2; Ok (AllocatedOpcode.SB reg1 reg2 imm)
  | SW reg1 reg2 imm => reg1 ← m reg1; reg2 ← m reg2; Ok (AllocatedOpcode.SW reg1 reg2 imm)
  | BAL reg1 reg2 reg3 => reg1 ← m reg1; reg2 ← m reg2; reg3 ← m reg3; Ok (AllocatedOpcode.BAL reg1 reg2 reg3)
  | BHEI reg1 => reg1 ← m reg1; Ok (AllocatedOpcode.BHEI reg1)
  | BHSH reg1 reg2 => reg1 ← m reg1; reg2 ← m reg2; Ok (AllocatedOpcode.BHSH reg1 reg2)
  | BURN reg1 reg2 => reg1 ← m reg1; reg2 ← m reg2; Ok (AllocatedOpcode.BURN reg1 reg2)
  | CALL reg1 reg2 reg3 reg4 => reg1 ← m reg1; reg2 ← m reg2; reg3 ← m reg3; reg4 ← m reg4; Ok (AllocatedOpcode.CALL reg1 reg2 reg3 reg4)
  | CB reg1 => reg1 ← m reg1; Ok (AllocatedOpcode.CB reg1)
  | CCP reg1 reg2 reg3 reg4 => reg1 ← m reg1; reg2 ← m reg2; reg3 ← m reg3; reg4 ← m reg4; Ok (AllocatedOpcode.CCP reg1 reg2 reg3 reg4)
  | CROO reg1 reg2 => reg1 ← m reg1; reg2 ← m reg2; Ok (AllocatedOpcode.CROO reg1 reg2)
  | CSIZ reg1 reg2 => reg1 ← m reg1; reg2 ← m reg2; Ok (AllocatedOpcode.CSIZ reg1 reg2)
  | BSIZ reg1 reg2 => reg1 ← m reg1; reg2 ← m reg2; Ok (AllocatedOpcode.BSIZ reg1 reg2)
  | LDC reg1 reg2 reg3 imm0 => reg1 ← m reg1; reg2 ← m reg2; reg3 ← m reg3; Ok (AllocatedOpcode.LDC reg1 reg2 reg3 imm0)
  | BLDD reg1 reg2 reg3 reg4 => reg1 ← m reg1; reg2 ← m reg2; reg3 ← m reg3; reg4 ← m reg4; Ok (AllocatedOpcode.BLDD reg1 reg2 reg3 reg4)
  | LOG reg1 reg2 reg3 reg4 => reg1 ← m reg1; reg2 ← m reg2; reg3 ← m reg3; reg4 ← m reg4; Ok (AllocatedOpcode.LOG reg1 reg2 reg3 reg4)
  | LOGD reg1 reg2 reg3 reg4 => reg1 ← m reg1; reg2 ← m reg2; reg3 ← m reg3; reg4 ← m reg4; Ok (AllocatedOpcode.LOGD reg1 reg2 reg3 reg4)
  | MINT reg1 reg2 => reg1 ← m reg1; reg2 ← m reg2; Ok (AllocatedOpcode.MINT reg1 reg2)
  | RETD reg1 reg2 => reg1 ← m reg1; reg2 ← m reg2; Ok (AllocatedOpcode.RETD reg1 reg2)
  | RVRT reg1 => reg1 ← m reg1; Ok (AllocatedOpcode.RVRT reg1)
  | SMO reg1 reg2 reg3 reg4 => reg1 ← m reg1; reg2 ← m reg2; reg3 ← m reg3; reg4 ← m reg4; Ok (AllocatedOpcode.SMO reg1 reg2 reg3 reg4)
  | SCWQ reg1 reg2 reg3 => reg1 ← m reg1; reg2 ← m reg2; reg3 ← m reg3; Ok (AllocatedOpcode.SCWQ reg1 reg2 reg3)
  | SRW reg1 reg2 reg3 => reg1 ← m reg1; reg2 ← m reg2; reg3 ← m reg3; Ok (AllocatedOpcode.SRW reg1 reg2 reg3)
  | SRWQ reg1 reg2 reg3 reg4 => reg1 ← m reg1; reg2 ← m reg2; reg3 ← m reg3; reg4 ← m reg4; Ok (AllocatedOpcode.SRWQ reg1 reg2 reg3 reg4)
  | SWW reg1 reg2 reg3 => reg1 ← m reg1; reg2 ← m reg2; reg3 ← m reg3; Ok (AllocatedOpcode.SWW reg1 reg2 reg3)
  | SWWQ reg1 reg2 reg3 reg4 => reg1 ← m reg1; reg2 ← m reg2; reg3 ← m reg3; reg4 ← m reg4; Ok (AllocatedOpcode.SWWQ reg1 reg2 reg3 reg4)
  | TIME reg1 reg2 => reg1 ← m reg1; reg2 ← m reg2; Ok (AllocatedOpcode.TIME reg1 reg2)
  | TR reg1 reg2 reg3 => reg1 ← m reg1; reg2 ← m reg2; reg3 ← m reg3; Ok (AllocatedOpcode.TR reg1 reg2 reg3)
  | TRO reg1 reg2 reg3 reg4 => reg1 ← m reg1; reg2 ← m reg2; reg3 ← m reg3; reg4 ← m reg4; Ok (AllocatedOpcode.TRO reg1 reg2 reg3 reg4)
  | ECK1 reg1 reg2 reg3 => reg1 ← m reg1; reg2 ← m reg2; reg3 ← m reg3; Ok (AllocatedOpcode.ECK1 reg1 reg2 reg3)
  | ECR1 reg1 reg2 reg3 => reg1 ← m reg1; reg2 ← m reg2; reg3 ← m reg3; Ok (AllocatedOpcode.ECR1 reg1 reg2 reg3)
  | ED19 reg1 reg2 reg3 reg4 => reg1 ← m reg1; reg2 ← m reg2; reg3 ← m reg3; reg4 ← m reg4; Ok (AllocatedOpcode.ED19 reg1 reg2 reg3 reg4)
  | K256 reg1 reg2 reg3 => reg1 ← m reg1; reg2 ← m reg2; reg3 ← m reg3; Ok (AllocatedOpcode.K256 reg1 reg2 reg3)
  | S256 reg1 reg2 reg3 => reg1 ← m reg1; reg2 ← m reg2; reg3 ← m reg3; Ok (AllocatedOpcode.S256 reg1 reg2 reg3)
  | ECOP reg1 reg2 reg3 reg4 => reg1 ← m reg1; reg2 ← m reg2; reg3 ← m reg3; reg4 ← m reg4; Ok (AllocatedOpcode.ECOP reg1 reg2 reg3 reg4)
  | EPAR reg1 reg2 reg3 reg4 => reg1 ← m reg1; reg2 ← m reg2; reg3 ← m reg3; reg4 ← m reg4; Ok (AllocatedOpcode.EPAR reg1 reg2 reg3 reg4)
  | ECAL reg1 reg2 reg3 reg4 => reg1 ← m reg1; reg2 ← m reg2; reg3 ← m reg3; reg4 ← m reg4; Ok (AllocatedOpcode.ECAL reg1 reg2 reg3 reg4)
  | FLAG reg => reg ← m reg; Ok (AllocatedOpcode.FLAG reg)
  | GM reg imm => reg ← m reg; Ok (AllocatedOpcode.GM reg imm)
  | GTF reg1 reg2 imm => reg1 ← m reg1; reg2 ← m reg2; Ok (AllocatedOpcode.GTF reg1 reg2 imm)
  | BLOB imm => Ok (AllocatedOpcode.BLOB imm)
  | DataSectionOffsetPlaceholder => Ok AllocatedOpcode.DataSectionOffsetPlaceholder
  | ConfigurablesOffsetPlaceholder => Ok AllocatedOpcode.ConfigurablesOffsetPlaceholder
  | LoadDataId reg1 label => reg1 ← m reg1; Ok (AllocatedOpcode.LoadDataId reg1 label)
  | AddrDataId reg1 label => reg1 ← m reg1; Ok (AllocatedOpcode.AddrDataId reg1 label)
  | Undefined => Ok AllocatedOpcode.Undefined
  end.
