(* ===== verification/AsmOp.v ===== *)
(** * Instructions of an abstract instruction set

    Models [Op], [ControlFlowOp] and their operations of [asm_lang/mod.rs], and
    the facts about the registers of an instruction that the analyses rely on:
    every register is read or written, renaming and allocation act on the
    registers only. *)

From S2P Require Import Prelude AsmRegister AsmVirtualOp.
Local Open Scope nat_scope.

(** [ControlFlowOp] *)
Inductive ControlFlowOp (Reg : Type) : Type :=
  | CLabel (l : Label)
  | Comment
  | Jump (l : Label)
  | JumpIfNotZero (r : Reg) (l : Label)
  | Call (l : Label)
  | SaveRetAddr (r : Reg) (l : Label)
  | CConfigurablesOffsetPlaceholder
  | CDataSectionOffsetPlaceholder
  | LoadLabel (r : Reg) (l : Label)
  | PushAll (l : Label)
  | PopAll (l : Label).

Arguments CLabel {Reg}. Arguments Comment {Reg}. Arguments Jump {Reg}.
Arguments JumpIfNotZero {Reg}. Arguments Call {Reg}. Arguments SaveRetAddr {Reg}.
Arguments CConfigurablesOffsetPlaceholder {Reg}. Arguments CDataSectionOffsetPlaceholder {Reg}.
Arguments LoadLabel {Reg}. Arguments PushAll {Reg}. Arguments PopAll {Reg}.

Definition ControlFlowOp_registers {Reg} (op : ControlFlowOp Reg) : list Reg :=
  match op with
  | CLabel _ | Comment | Jump _ | Call _ | CDataSectionOffsetPlaceholder
  | CConfigurablesOffsetPlaceholder | PushAll _ | PopAll _ => []
  | JumpIfNotZero r1 _ | SaveRetAddr r1 _ | LoadLabel r1 _ => [r1]
  end.

Definition ControlFlowOp_use_registers {Reg} (op : ControlFlowOp Reg) : list Reg :=
  match op with
  | CLabel _ | Comment | Jump _ | Call _ | SaveRetAddr _ _ | CDataSectionOffsetPlaceholder
  | CConfigurablesOffsetPlaceholder | LoadLabel _ _ | PushAll _ | PopAll _ => []
  | JumpIfNotZero r1 _ => [r1]
  end.

Definition ControlFlowOp_def_registers {Reg} (op : ControlFlowOp Reg) : list Reg :=
  match op with
  | SaveRetAddr reg _ | LoadLabel reg _ => [reg]
  | CLabel _ | Comment | Jump _ | JumpIfNotZero _ _ | Call _ | CDataSectionOffsetPlaceholder
  | CConfigurablesOffsetPlaceholder | PushAll _ | PopAll _ => []
  end.

(** [ControlFlowOp::update_register] *)
Definition ControlFlowOp_update_register {Reg} (reg_to_reg_map : Reg -> option Reg)
    (self : ControlFlowOp Reg) : ControlFlowOp Reg :=
  let update_reg reg := default reg (reg_to_reg_map reg) in
  match self with
  | Comment | CLabel _ | Jump _ | Call _ | CDataSectionOffsetPlaceholder
  | CConfigurablesOffsetPlaceholder | PushAll _ | PopAll _ => self
  | JumpIfNotZero r1 label => JumpIfNotZero (update_reg r1) label
  | SaveRetAddr r1 label => SaveRetAddr (update_reg r1) label
  | LoadLabel r1 label => LoadLabel (update_reg r1) label
  end.

(** [Op]: the span is left out *)
Record Op : Type := mkOp {
  opcode : VirtualOp + ControlFlowOp VirtualRegister;
  comment : string
}.

(** [AllocatedAbstractOp] *)
Record AllocatedAbstractOp : Type := mkAllocatedOp {
  aopcode : AllocatedOpcode + ControlFlowOp AllocatedRegister;
  acomment : string
}.

Definition registers (op : Op) : BTreeSet :=
  match opcode op with
  | inl virt_op => VirtualOp_registers virt_op
  | inr org_op => btree_from (ControlFlowOp_registers org_op)
  end.

Definition use_registers (op : Op) : BTreeSet :=
  match opcode op with
  | inl virt_op => VirtualOp_use_registers virt_op
  | inr org_op => btree_from (ControlFlowOp_use_registers org_op)
  end.

Definition def_registers (op : Op) : BTreeSet :=
  match opcode op with
  | inl virt_op => VirtualOp_def_registers virt_op
  | inr org_op => btree_from (ControlFlowOp_def_registers org_op)
  end.

Definition def_const_registers (op : Op) : BTreeSet :=
  match opcode op with
  | inl virt_op => VirtualOp_def_const_registers virt_op
  | inr org_op => ∅
  end.

(** [VirtualOp::successors]; [index] is a position of [ops]. *)
Definition VirtualOp_successors (self : VirtualOp) (index : nat) (ops : list Op) : Result (list nat) :=
  let next_op := if length ops - 1 <=? index then [] else [index + 1] in
  match self with
  | RVRT _ => Ok []
  | JI _ | JNEI _ _ _ | JNZI _ _ =>
      Err (Panic "At this stage we shouldn't have jumps in the code.")
  | _ => Ok next_op
  end.

(** [ControlFlowOp::successors] *)
Definition ControlFlowOp_successors (self : ControlFlowOp VirtualRegister) (index : nat)
    (ops : list Op) (label_to_index : gmap Label nat) : Result (list nat) :=
  let next_ops :=
    if (index + 1 <? length ops) && negb (match self with Jump _ => true | _ => false end)
    then [index + 1] else [] in
  match self with
  | CLabel _ | Comment | Call _ | SaveRetAddr _ _ | CDataSectionOffsetPlaceholder
  | CConfigurablesOffsetPlaceholder | LoadLabel _ _ | PushAll _ | PopAll _ => Ok next_ops
  | Jump jump_label | JumpIfNotZero _ jump_label =>
      match label_to_index !! jump_label with
      | Some target => Ok (next_ops ++ [target])
      | None => Err (Panic "no entry found for key")
      end
  end.

Definition successors (self : Op) (index : nat) (ops : list Op) (label_to_index : gmap Label nat)
    : Result (list nat) :=
  match opcode self with
  | inl virt_op => VirtualOp_successors virt_op index ops
  | inr org_op => ControlFlowOp_successors org_op index ops label_to_index
  end.

Definition update_register (reg_to_reg_map : VirtualRegister -> option VirtualRegister) (self : Op)
    : Result Op :=
  match opcode self with
  | inl virt_op =>
      virt_op ← VirtualOp_update_register reg_to_reg_map virt_op; Ok (mkOp (inl virt_op) (comment self))
  | inr org_op =>
      Ok (mkOp (inr (ControlFlowOp_update_register reg_to_reg_map org_op)) (comment self))
  end.

(** [ControlFlowOp::allocate_registers] *)
Definition ControlFlowOp_allocate_registers (pool : RegisterPool)
    (self : ControlFlowOp VirtualRegister) : Result (ControlFlowOp AllocatedRegister) :=
  mapping ← allocation_mapping pool (btree_from (ControlFlowOp_registers self));
  let m := map_reg mapping in
  match self with
  | CLabel label => Ok (CLabel label)
  | Comment => Ok Comment
  | Jump label => Ok (Jump label)
  | Call label => Ok (Call label)
  | CDataSectionOffsetPlaceholder => Ok CDataSectionOffsetPlaceholder
  | CConfigurablesOffsetPlaceholder => Ok CConfigurablesOffsetPlaceholder
  | PushAll label => Ok (PushAll label)
  | PopAll label => Ok (PopAll label)
  | JumpIfNotZero r1 label => r1 ← m r1; Ok (JumpIfNotZero r1 label)
  | SaveRetAddr r1 label => r1 ← m r1; Ok (SaveRetAddr r1 label)
  | LoadLabel r1 label => r1 ← m r1; Ok (LoadLabel r1 label)
  end.

(** [Op::allocate_registers] *)
Definition Op_allocate_registers (pool : RegisterPool) (self : Op)
    : Result (AllocatedOpcode + ControlFlowOp AllocatedRegister) :=
  match opcode self with
  | inl virt_op => op ← VirtualOp_allocate_registers pool virt_op; Ok (inl op)
  | inr org_op => op ← ControlFlowOp_allocate_registers pool org_op; Ok (inr op)
  end.

(** [VirtualOp::update_jump_immediate_values] *)
Definition new_offset (offset_map : gmap Z Z) (offset : Z) : Result Z :=
  match offset_map !! offset with
  | Some o => Ok o
  | None => Err (Panic "new offset should be valid")
  end.

Definition update_jump_immediate_values (offset_map : gmap Z Z) (self : VirtualOp) : Result VirtualOp :=
  match self with
  | JI i => o ← new_offset offset_map (value24 i); i ← Imm24_new o; Ok (JI i)
  | JNEI r1 r2 i => o ← new_offset offset_map (value12 i); i ← Imm12_new o; Ok (JNEI r1 r2 i)
  | JNZI r1 i => o ← new_offset offset_map (value18 i); i ← Imm18_new o; Ok (JNZI r1 i)
  | _ => Ok self
  end.

(** ** The registers of an instruction *)

(** A register of an instruction is read or written, and nothing else is. *)
Lemma VirtualOp_registers_use_def op :
  VirtualOp_registers op = VirtualOp_use_registers op ∪ VirtualOp_def_registers op.
Proof. destruct op; apply set_eq; intros r; unfold_leibniz; cbn; set_solver. Qed.

Lemma registers_use_def_Ok op : registers op = use_registers op ∪ def_registers op.
Proof.
  destruct op as [[v|c] com]; [apply VirtualOp_registers_use_def|].
  unfold registers, use_registers, def_registers. cbn. destruct c; apply set_eq; intros z; cbn; set_solver.
Qed.

(** ** Renaming *)

Definition rename (f : VirtualRegister -> option VirtualRegister) (r : VirtualRegister) : VirtualRegister :=
  default r (f r).

(** The stack and heap pointer operands are special registers. *)
Definition pointer_operand (op : VirtualOp) : option VirtualRegister :=
  match op with
  | ALOC r _ | CFEI r _ | CFSI r _ | CFE r _ | CFS r _ => Some r
  | _ => None
  end.

Definition wf_op (op : Op) : Prop :=
  match opcode op with
  | inl v => match pointer_operand v with Some r => is_virtual r = false | None => True end
  | inr _ => True
  end.

Section renaming.
Context (f : VirtualRegister -> option VirtualRegister).
Hypothesis f_virtual : forall r s, f r = Some s -> is_virtual r = true.

Lemma update_reg_rename r : update_reg f r = Ok (rename f r).
Proof.
  unfold update_reg, rename. destruct (f r) as [s|] eqn:Hf; [|done]. by rewrite (f_virtual _ _ Hf).
Qed.

Lemma rename_constant r : is_virtual r = false -> rename f r = r.
Proof.
  intros Hr. unfold rename. destruct (f r) as [s|] eqn:Hf; [|done]. by rewrite (f_virtual _ _ Hf) in Hr.
Qed.

Lemma set_map_btree l : set_map (rename f) (btree_from l) =@{BTreeSet} btree_from (map (rename f) l).
Proof. unfold btree_from. apply set_eq. intros r. rewrite elem_of_map. set_solver. Qed.

(** Renaming an instruction renames the registers that it reads and writes. *)
Lemma VirtualOp_update_register_Ok op :
  match pointer_operand op with Some r => is_virtual r = false | None => True end ->
  exists op', VirtualOp_update_register f op = Ok op' /\
    VirtualOp_use_registers op' = set_map (rename f) (VirtualOp_use_registers op) /\
    VirtualOp_def_registers op' = set_map (rename f) (VirtualOp_def_registers op).
Proof.
  intros Hp. unfold VirtualOp_use_registers, VirtualOp_def_registers. rewrite !set_map_btree.
  destruct op; cbn in Hp |- *; rewrite ?update_reg_rename; cbn;
    try (rewrite (rename_constant r1 Hp)); eexists; (split; [reflexivity|]); split; reflexivity.
Qed.

Lemma update_register_Ok op :
  wf_op op ->
  exists op', update_register f op = Ok op' /\
    use_registers op' = set_map (rename f) (use_registers op) /\
    def_registers op' = set_map (rename f) (def_registers op).
Proof.
  destruct op as [[v|c] com]; intros Hwf; unfold update_register, use_registers, def_registers in *; cbn in *.
  - destruct (VirtualOp_update_register_Ok v Hwf) as (v' & -> & Hu & Hd). cbn. eexists. split; [done|].
    cbn. done.
  - eexists. split; [done|]. cbn. rewrite !set_map_btree. by destruct c.
Qed.
End renaming.

(** ** Allocation *)

Section allocation.
Context (pool : RegisterPool) (phys : VirtualRegister -> AllocatedRegister).

Lemma allocation_mapping_Ok regs :
  (forall r, r ∈ regs -> allocate_register pool r = Some (phys r)) ->
  exists m, allocation_mapping pool regs = Ok m /\ forall r, r ∈ regs -> map_reg m r = Ok (phys r).
Proof.
  intros Hp. unfold allocation_mapping.
  assert (mapM (fun x => (fun register => (x, register)) <$> allocate_register pool x) (btree_iter regs) =
    Some (map (fun r => (r, phys r)) (btree_iter regs))) as ->.
  { apply mapM_Some, Forall2_fmap_r, Forall_Forall2_diag, Forall_forall.
    intros r Hr%btree_iter_elem. by rewrite (Hp r Hr). }
  eexists. split; [done|]. intros r Hr. unfold map_reg.
  assert (forall l acc, (r ∈ l \/ acc !! r = Some (phys r)) ->
    foldl (fun (mapping : gmap VirtualRegister AllocatedRegister) kv => <[kv.1:=kv.2]> mapping) acc
      (map (fun r => (r, phys r)) l) !! r = Some (phys r)) as Hgo.
  { induction l as [|x l IH]; intros acc [Hin|Hacc]; cbn; [by apply elem_of_nil in Hin|done|..].
    - apply elem_of_cons in Hin as [->|Hin]; apply IH; [right; by rewrite lookup_insert_eq|by left].
    - apply IH. right. destruct (decide (r = x)) as [->|]; [by rewrite lookup_insert_eq|by rewrite lookup_insert_ne]. }
  rewrite Hgo; [done|]. left. by apply btree_iter_elem.
Qed.

Lemma mapping_Forall m l :
  (forall r, r ∈ btree_from l -> map_reg m r = Ok (phys r)) -> Forall (fun r => map_reg m r = Ok (phys r)) l.
Proof. intros Hm. apply Forall_forall. intros r Hr. apply Hm. unfold btree_from. by apply elem_of_list_to_set. Qed.

(** The registers that an allocated instruction writes are the images of the
    virtual ones. *)
Lemma VirtualOp_allocate_Ok op :
  (forall r, r ∈ VirtualOp_registers op -> allocate_register pool r = Some (phys r)) ->
  exists aop, VirtualOp_allocate_registers pool op = Ok aop /\
    (pointer_operand op = None -> exists ds, AllocatedOpcode.def_registers aop = Ok ds /\
       forall x, x ∈ ds <-> exists r, r ∈ VirtualOp_def_registers op /\ x = phys r).
Proof.
  intros Hp. unfold VirtualOp_allocate_registers.
  destruct (allocation_mapping_Ok _ Hp) as (m & -> & Hm%mapping_Forall). next_step. clear Hp.
  unfold VirtualOp_def_registers.
  destruct op; repeat (apply Forall_cons in Hm as [? Hm]); next_step in *;
    repeat match goal with H : map_reg _ _ = _ |- _ => rewrite H; clear H end; next_step;
    (eexists; split; [reflexivity|]); (intros Hpo; try discriminate Hpo); cbn [AllocatedOpcode.def_registers];
    (eexists; split; [reflexivity|]); intros x; unfold btree_from;
    setoid_rewrite elem_of_list_to_set; rewrite ?list_elem_of_singleton, ?elem_of_cons;
    (split; [intros ?|intros (? & ? & ?)]; set_solver).
Qed.

Lemma Op_allocate_Ok op :
  (forall r, r ∈ registers op -> allocate_register pool r = Some (phys r)) ->
  is_Ok (Op_allocate_registers pool op).
Proof.
  destruct op as [[v|c] com]; unfold registers, Op_allocate_registers; cbn; intros Hp.
  - destruct (VirtualOp_allocate_Ok v Hp) as (aop & -> & _). by eexists.
  - unfold ControlFlowOp_allocate_registers.
    destruct (allocation_mapping_Ok _ Hp) as (m & -> & Hm%mapping_Forall). next_step.
    destruct c; repeat (apply Forall_cons in Hm as [? Hm]); cbn;
      repeat match goal with H : map_reg _ _ = _ |- _ => rewrite H; clear H end; by eexists.
Qed.
End allocation.

(** ** Theorems *)

(** The registers of an instruction are exactly the ones it reads and the
    ones it writes, for every opcode: the three tables of [VirtualOp] and
    [ControlFlowOp] agree. *)
Theorem registers_use_def op : registers op = use_registers op ∪ def_registers op.
Proof. apply registers_use_def_Ok. Qed.

(** Renaming registers with [update_register] succeeds on every instruction
    whose stack- or heap-pointer operand is a special register, and the result
    reads and writes exactly the renamed registers. *)
Theorem update_register_renames f op :
  (forall r s, f r = Some s -> is_virtual r = true) -> wf_op op ->
  exists op', update_register f op = Ok op' /\
    use_registers op' = set_map (rename f) (use_registers op) /\
    def_registers op' = set_map (rename f) (def_registers op).
Proof. intros Hf. by apply update_register_Ok. Qed.

Definition sample_renaming (r : VirtualRegister) : option VirtualRegister :=
  if bool_decide (r = Virtual "a") then Some (Virtual "b") else None.

Lemma sample_renaming_virtual r s : sample_renaming r = Some s -> is_virtual r = true.
Proof. unfold sample_renaming. case_bool_decide; [by subst|done]. Qed.

Lemma update_register_renames_witness :
  exists op', update_register sample_renaming (mkOp (inl (SRW (Virtual "a") (Virtual "c") (Virtual "a"))) "") = Ok op' /\
    use_registers op' = set_map (rename sample_renaming) (btree_from [Virtual "a"]) /\
    def_registers op' = set_map (rename sample_renaming) (btree_from [Virtual "a"; Virtual "c"]).
Proof.
  exact (update_register_renames sample_renaming (mkOp (inl (SRW (Virtual "a") (Virtual "c") (Virtual "a"))) "")
    sample_renaming_virtual I).
Defined.

(** When the pool has a register for every register of an instruction, the
    instruction is allocated, and the registers written by the allocated
    instruction (the ones a callee saves) are the images of the registers
    written by the virtual one; the instructions that move the stack or heap
    pointer are the exception. *)
Theorem allocated_def_registers pool phys op :
  (forall r, r ∈ VirtualOp_registers op -> allocate_register pool r = Some (phys r)) ->
  exists aop, VirtualOp_allocate_registers pool op = Ok aop /\
    (pointer_operand op = None -> exists ds, AllocatedOpcode.def_registers aop = Ok ds /\
       forall x, x ∈ ds <-> exists r, r ∈ VirtualOp_def_registers op /\ x = phys r).
Proof. apply VirtualOp_allocate_Ok. Qed.

Definition sample_pool : RegisterPool := [mkStatus (Allocated 0) (btree_from [Virtual "a"])].
Definition sample_phys (r : VirtualRegister) : AllocatedRegister :=
  match r with Virtual _ => Allocated 0 | Constant c => AllocatedConstant c end.

Lemma allocated_def_registers_witness :
  exists aop, VirtualOp_allocate_registers sample_pool (MOVE (Virtual "a") (Constant One)) = Ok aop /\
    (pointer_operand (MOVE (Virtual "a") (Constant One)) = None ->
     exists ds, AllocatedOpcode.def_registers aop = Ok ds /\
       forall x, x ∈ ds <-> exists r, r ∈ btree_from [Virtual "a"] /\ x = sample_phys r).
Proof.
  apply (allocated_def_registers sample_pool sample_phys (MOVE (Virtual "a") (Constant One))).
  intros r Hr. unfold VirtualOp_registers, btree_from in Hr. apply elem_of_list_to_set in Hr.
  apply elem_of_cons in Hr as [->|Hr%list_elem_of_singleton]; [|subst r]; reflexivity.
Defined.
