(* ===== verification/AsmVm.v ===== *)
(** * The Fuel VM

    The VM that executes the instructions is not part of the repository: its
    state and its instructions are the class [FuelVm], and what its specification
    says of the opcodes that the backend inserts or rewrites are the classes
    [FuelVmLaws], [FuelVmFrame] and [FuelVmWorldLaws]. *)

From S2P Require Import Prelude AsmRegister AsmVirtualOp AsmOp.
Local Open Scope Z_scope.

Class FuelVm (State : Type) : Type := {
  reg_value : State -> VirtualRegister -> Z;
  (** the word of eight bytes at an address *)
  mem_word : State -> Z -> Z;
  (** the word at the address may be read and written *)
  accessible : State -> Z -> Prop;
  (** there is gas for [n] more instructions *)
  has_gas : State -> nat -> Prop;
  vm_exec : VirtualOp -> State -> option State
}.

(** The registers that the VM itself updates with every instruction *)
Definition volatile (r : VirtualRegister) : bool :=
  match r with
  | Constant (ProgramCounter | Overflow | Error | GlobalGas | ContextGas) => true
  | _ => false
  end.

(** The registers that a program may write *)
Definition writable (r : VirtualRegister) : bool :=
  match r with Virtual _ => true | Constant c => (16 <=? constant_index c)%nat end.

(** An instruction writes a value to a register. *)
Record writes {State} `{FuelVm State} (s s' : State) (r : VirtualRegister) (v : Z) : Prop := {
  writes_reg : reg_value s' r = v;
  writes_other x : x <> r -> volatile x = false -> reg_value s' x = reg_value s x;
  writes_mem a : mem_word s' a = mem_word s a;
  writes_accessible a : accessible s' a <-> accessible s a
}.

(** An instruction stores a word at an address. *)
Record stores {State} `{FuelVm State} (s s' : State) (addr v : Z) : Prop := {
  stores_reg x : volatile x = false -> reg_value s' x = reg_value s x;
  stores_word : mem_word s' addr = v;
  stores_other a : a + 8 <= addr \/ addr + 8 <= a -> mem_word s' a = mem_word s a;
  stores_accessible a : accessible s' a <-> accessible s a
}.

Class FuelVmLaws (State : Type) `{FuelVm State} : Prop := {
  exec_MOVI s n r i : has_gas s (S n) -> writable r = true ->
    exists s', vm_exec (MOVI r i) s = Some s' /\ writes s s' r (value18 i) /\ has_gas s' n;
  exec_ADD s n r a b : has_gas s (S n) -> writable r = true ->
    reg_value s a + reg_value s b < 2 ^ 64 ->
    exists s', vm_exec (ADD r a b) s = Some s' /\ writes s s' r (reg_value s a + reg_value s b) /\ has_gas s' n;
  exec_SLLI s n r a i : has_gas s (S n) -> writable r = true ->
    exists s', vm_exec (SLLI r a i) s = Some s' /\
      writes s s' r (Z.shiftl (reg_value s a) (value12 i) mod 2 ^ 64) /\ has_gas s' n;
  exec_LW s n r a i : has_gas s (S n) -> writable r = true ->
    accessible s (reg_value s a + 8 * value12 i) ->
    exists s', vm_exec (LW r a i) s = Some s' /\
      writes s s' r (mem_word s (reg_value s a + 8 * value12 i)) /\ has_gas s' n;
  exec_SW s n a r i : has_gas s (S n) -> accessible s (reg_value s a + 8 * value12 i) ->
    exists s', vm_exec (SW a r i) s = Some s' /\
      stores s s' (reg_value s a + 8 * value12 i) (reg_value s r) /\ has_gas s' n
}.

Section run.
Context {State : Type} `{FuelVmLaws State}.

Fixpoint run (ops : list Op) (s : State) : option State :=
  match ops with
  | [] => Some s
  | op :: ops' =>
      match opcode op with
      | inl v => vm_exec v s ≫= run ops'
      | inr _ => None
      end
  end.

Lemma run_app os os' s : run (os ++ os') s = run os s ≫= run os'.
Proof.
  revert s. induction os as [|op os IH]; intros s; cbn; [done|].
  destruct (opcode op); [|done]. destruct (vm_exec v s); cbn; [apply IH|done].
Qed.
End run.

(** ** Registers that an instruction leaves alone *)

(** The registers that an instruction may change without naming them; nothing is
    promised of the registers that describe the context and the progress of the
    execution. *)
Definition implicit_def (v : VirtualOp) (r : VirtualRegister) : bool :=
  match r with
  | Virtual _ => false
  | Constant c =>
      if (16 <=? constant_index c)%nat then false
      else match c with
           | Zero | One => false
           | HeapPointer | StackPointer | Flags =>
               match v with CALL _ _ _ _ | LDC _ _ _ _ | ECAL _ _ _ _ | FLAG _ => true | _ => false end
           | _ => true
           end
  end.

(** The laws of the opcodes that the optimizations look into, when arithmetic
    does not wrap around ([load] gives the words of the data section). *)
Class FuelVmFrame (State : Type) `{FuelVm State} (load : DataId -> option Z) : Prop := {
  exec_frame v s s' r : vm_exec v s = Some s' -> r ∉ VirtualOp_def_registers v -> implicit_def v r = false ->
    reg_value s' r = reg_value s r;
  value_MOVI r i s s' : vm_exec (MOVI r i) s = Some s' -> reg_value s' r = value18 i;
  value_MOVE r a s s' : vm_exec (MOVE r a) s = Some s' -> reg_value s' r = reg_value s a;
  value_ADD r a b s s' : reg_value s (Constant Flags) = 0 -> vm_exec (ADD r a b) s = Some s' ->
    reg_value s' r = reg_value s a + reg_value s b;
  value_ADDI r a i s s' : reg_value s (Constant Flags) = 0 -> vm_exec (ADDI r a i) s = Some s' ->
    reg_value s' r = reg_value s a + value12 i;
  value_MUL r a b s s' : reg_value s (Constant Flags) = 0 -> vm_exec (MUL r a b) s = Some s' ->
    reg_value s' r = reg_value s a * reg_value s b;
  value_LoadDataId r id w s s' : kind id = NonConfigurable -> load id = Some w ->
    vm_exec (LoadDataId r id) s = Some s' -> reg_value s' r = w;
  address_LW r a b i j s : reg_value s a + 8 * value12 i = reg_value s b + 8 * value12 j ->
    vm_exec (LW r a i) s = vm_exec (LW r b j) s;
  address_SW r a b i j s : reg_value s a + 8 * value12 i = reg_value s b + 8 * value12 j ->
    vm_exec (SW a r i) s = vm_exec (SW b r j) s
}.

(** ** What an instruction depends on *)

(** The registers that count instructions and gas *)
Definition counts (r : VirtualRegister) : bool :=
  match r with Constant (ProgramCounter | GlobalGas | ContextGas) => true | _ => false end.

(** The registers that an instruction writes *)
Definition written_registers (op : Op) : BTreeSet := def_registers op ∪ def_const_registers op.

(** Executes what is not a jump: a label, a comment, or a call of a function of
    the program, which returns *)
Class FuelVmWorld (State : Type) `{FuelVm State} : Type := {
  cf_exec : ControlFlowOp VirtualRegister -> State -> option State;
  (** the second state has the memory, the special registers and the context of
      the first one, and at least its gas *)
  same_world : State -> State -> Prop
}.

Definition op_exec {State} `{FuelVmWorld State} (op : Op) (s : State) : option State :=
  match opcode op with inl v => vm_exec v s | inr c => cf_exec c s end.

Class FuelVmWorldLaws (State : Type) `{FuelVmWorld State} : Prop := {
  same_world_refl s : same_world s s;
  (** an instruction without side effects sets its registers *)
  pure_world v s1 s1' s2 : has_side_effect v = false -> vm_exec v s1 = Some s1' -> same_world s1 s2 ->
    same_world s1' s2;
  pure_frame v s s' r : has_side_effect v = false -> vm_exec v s = Some s' -> counts r = false ->
    r ∉ VirtualOp_def_registers v ∪ VirtualOp_def_const_registers v -> reg_value s' r = reg_value s r;
  (** an instruction depends on the registers that it reads *)
  exec_agree op s1 s1' s2 : op_exec op s1 = Some s1' -> same_world s1 s2 ->
    (forall r, r ∈ use_registers op -> reg_value s1 r = reg_value s2 r) ->
    exists s2', op_exec op s2 = Some s2' /\ same_world s1' s2' /\
      forall r, counts r = false -> r ∈ written_registers op \/ reg_value s1 r = reg_value s2 r ->
        reg_value s1' r = reg_value s2' r
}.

(** * A machine that satisfies the laws of the Fuel VM

    [ToyVm] executes a few opcodes on registers, words of memory and a number of
    remaining steps; it instantiates the classes of [AsmVm]. *)

Module ToyVm.
Record state : Type := mkState { regs : VirtualRegister -> Z; mem : Z -> Z; steps : nat }.

(** The registers that arithmetic clears *)
Definition is_flag (r : VirtualRegister) : bool :=
  match r with Constant (Overflow | Error) => true | _ => false end.

Definition set_reg (clears : bool) (s : state) (r : VirtualRegister) (v : Z) : option state :=
  match steps s with
  | S n =>
      if writable r
      then Some (mkState (fun x => if decide (x = r) then v else if clears && is_flag x then 0 else regs s x) (mem s) n)
      else None
  | 0%nat => None
  end.

Definition exec (op : VirtualOp) (s : state) : option state :=
  match op with
  | MOVI r i => set_reg true s r (value18 i)
  | ADD r a b => if regs s a + regs s b <? 2 ^ 64 then set_reg true s r (regs s a + regs s b) else None
  | ADDI r a i => if regs s a + value12 i <? 2 ^ 64 then set_reg true s r (regs s a + value12 i) else None
  | MUL r a b => if regs s a * regs s b <? 2 ^ 64 then set_reg true s r (regs s a * regs s b) else None
  | MOVE r a => set_reg true s r (regs s a)
  | SLLI r a i => set_reg true s r (Z.shiftl (regs s a) (value12 i) mod 2 ^ 64)
  | LW r a i => set_reg false s r (mem s (regs s a + 8 * value12 i))
  | SW a r i =>
      match steps s with
      | S n => Some (mkState (regs s)
                 (fun x => if decide (x = regs s a + 8 * value12 i) then regs s r else mem s x) n)
      | 0%nat => None
      end
  | _ => None
  end.
End ToyVm.

Definition toy_vm : FuelVm ToyVm.state := {|
  reg_value := ToyVm.regs;
  mem_word := ToyVm.mem;
  accessible _ _ := True;
  has_gas s n := (n <= ToyVm.steps s)%nat;
  vm_exec := ToyVm.exec
|}.

Lemma is_flag_volatile r : volatile r = false -> ToyVm.is_flag r = false.
Proof. by destruct r as [|[]]. Qed.

(** What a successful write does *)
Lemma toy_set_reg_value clears (s s' : ToyVm.state) r v :
  ToyVm.set_reg clears s r v = Some s' ->
  ToyVm.regs s' r = v /\ ToyVm.mem s' = ToyVm.mem s /\ ToyVm.steps s = S (ToyVm.steps s') /\
  forall x, x <> r -> clears && ToyVm.is_flag x = false -> ToyVm.regs s' x = ToyVm.regs s x.
Proof.
  unfold ToyVm.set_reg. destruct (ToyVm.steps s); [done|]. destruct (writable r); [|done]. intros [= <-]. cbn.
  split; [by rewrite decide_True|]. split; [done|]. split; [done|]. intros x Hx ->. by rewrite decide_False.
Qed.

Lemma toy_set_reg clears (s : ToyVm.state) n r v :
  (S n <= ToyVm.steps s)%nat -> writable r = true ->
  exists s', ToyVm.set_reg clears s r v = Some s' /\ writes (H := toy_vm) s s' r v /\ (n <= ToyVm.steps s')%nat.
Proof.
  intros Hs Hr. assert (is_Some (ToyVm.set_reg clears s r v)) as [s' Hs'].
  { unfold ToyVm.set_reg. destruct (ToyVm.steps s) as [|m]; [lia|]. rewrite Hr. by eexists. }
  exists s'. split; [done|]. apply toy_set_reg_value in Hs' as (Hv & Hm & Hst & Ho).
  split; [|lia]. split; cbn; [done| |by rewrite Hm|done].
  intros x Hx Hvol. apply Ho; [done|]. by rewrite (is_flag_volatile x Hvol), andb_false_r.
Qed.

Lemma toy_vm_laws : @FuelVmLaws ToyVm.state toy_vm.
Proof.
  split; cbn -[Z.pow].
  - intros. by apply toy_set_reg.
  - intros s n r a b Hs Hr Hlt. apply Z.ltb_lt in Hlt. rewrite Hlt. by apply toy_set_reg.
  - intros. by apply toy_set_reg.
  - intros. by apply toy_set_reg.
  - intros s n a r i Hs _. destruct (ToyVm.steps s) as [|m]; [lia|]. eexists. split; [done|].
    split; [|cbn; lia]. split; cbn.
    + done.
    + by rewrite decide_True.
    + intros x Hx. rewrite decide_False; [done|lia].
    + done.
Qed.

Lemma toy_frame v (s s' : ToyVm.state) r :
  ToyVm.exec v s = Some s' -> r ∉ VirtualOp_def_registers v ->
  r ∉ VirtualOp_def_const_registers v \/ ToyVm.is_flag r = false -> ToyVm.regs s' r = ToyVm.regs s r.
Proof.
  intros He Hr Hc. unfold VirtualOp_def_registers, VirtualOp_def_const_registers, btree_from in *.
  rewrite elem_of_list_to_set in *.
  assert (forall b x w, ToyVm.set_reg b s x w = Some s' -> x <> r ->
    (b = true -> ToyVm.is_flag r = false) -> ToyVm.regs s' r = ToyVm.regs s r) as Hset.
  { intros b x w (_ & _ & _ & Ho)%toy_set_reg_value Hx Hb. apply Ho; [done|]. destruct b; [by apply Hb|done]. }
  destruct v; cbn -[Z.pow] in He, Hr, Hc; try done;
    try (destruct (_ <? _); [|done]);
    try (eapply Hset; [exact He|set_solver|]; intros _; destruct Hc as [Hc|Hc]; [|exact Hc];
         destruct r as [|[]]; try done; set_solver).
  - by eapply Hset; [exact He|set_solver|].
  - destruct (ToyVm.steps s); [done|]. by injection He as <-.
Qed.

Lemma toy_vm_frame load : @FuelVmFrame ToyVm.state toy_vm load.
Proof.
  split; cbn -[Z.pow].
  - intros v s s' r He Hr Hi. eapply toy_frame; [done..|]. right. by destruct r as [|[]].
  - by intros r i s s' (? & _)%toy_set_reg_value.
  - by intros r a s s' (? & _)%toy_set_reg_value.
  - intros r a b s s' _ He. destruct (_ <? _); [|done]. by apply toy_set_reg_value in He as (? & _).
  - intros r a i s s' _ He. destruct (_ <? _); [|done]. by apply toy_set_reg_value in He as (? & _).
  - intros r a b s s' _ He. destruct (_ <? _); [|done]. by apply toy_set_reg_value in He as (? & _).
  - done.
  - intros r a b i j s ->. done.
  - intros r a b i j s ->. done.
Qed.

(** ** Worlds *)

(** Labels and comments have no effect; the machine has no functions. *)
Definition toy_world : @FuelVmWorld ToyVm.state toy_vm := {|
  cf_exec c s := match c with CLabel _ | Comment => Some s | _ => None end;
  same_world s1 s2 := (forall a, ToyVm.mem s1 a = ToyVm.mem s2 a) /\ (ToyVm.steps s1 <= ToyVm.steps s2)%nat
|}.

Lemma toy_set_reg_world clears (s1 s1' s2 : ToyVm.state) r v :
  ToyVm.set_reg clears s1 r v = Some s1' -> @same_world _ toy_vm toy_world s1 s2 ->
  @same_world _ toy_vm toy_world s1' s2 /\
  exists s2', ToyVm.set_reg clears s2 r v = Some s2' /\ @same_world _ toy_vm toy_world s1' s2' /\
    forall x, x = r \/ clears && ToyVm.is_flag x = true \/ ToyVm.regs s1 x = ToyVm.regs s2 x ->
      ToyVm.regs s1' x = ToyVm.regs s2' x.
Proof.
  unfold ToyVm.set_reg. intros He [Hm Hs]. destruct (ToyVm.steps s1) as [|n] eqn:Hn; [done|].
  destruct (writable r); [|done]. injection He as <-. destruct (ToyVm.steps s2) as [|m] eqn:Hm2; [lia|].
  split; [split; cbn; [done|lia]|]. eexists. split; [done|]. cbn. split; [split; [done|cbn; lia]|].
  intros x Hx. case_decide; [done|]. destruct (clears && ToyVm.is_flag x); naive_solver.
Qed.

Lemma toy_exec_agree v (s1 s1' s2 : ToyVm.state) :
  ToyVm.exec v s1 = Some s1' -> @same_world _ toy_vm toy_world s1 s2 ->
  (forall r, r ∈ VirtualOp_use_registers v -> ToyVm.regs s1 r = ToyVm.regs s2 r) ->
  exists s2', ToyVm.exec v s2 = Some s2' /\ @same_world _ toy_vm toy_world s1' s2' /\
    forall r, r ∈ VirtualOp_def_registers v ∪ VirtualOp_def_const_registers v \/
        ToyVm.regs s1 r = ToyVm.regs s2 r -> ToyVm.regs s1' r = ToyVm.regs s2' r.
Proof.
  intros He Hw Hu. unfold VirtualOp_use_registers, VirtualOp_def_registers, VirtualOp_def_const_registers, btree_from in *.
  setoid_rewrite elem_of_list_to_set in Hu. setoid_rewrite elem_of_union. setoid_rewrite elem_of_list_to_set.
  assert (forall b r w (D C : list VirtualRegister), ToyVm.set_reg b s1 r w = Some s1' ->
    (forall x, x ∈ D \/ x ∈ C -> x = r \/ b && ToyVm.is_flag x = true) ->
    exists s2', ToyVm.set_reg b s2 r w = Some s2' /\ @same_world _ toy_vm toy_world s1' s2' /\
      forall x, (x ∈ D \/ x ∈ C) \/ ToyVm.regs s1 x = ToyVm.regs s2 x -> ToyVm.regs s1' x = ToyVm.regs s2' x) as Hset.
  { intros b r w D C (_ & s2' & Hs2 & Hw' & Hx)%(fun H => toy_set_reg_world _ _ _ s2 _ _ H Hw) Hdc.
    exists s2'. split_and!; try done. intros x Hx'. apply Hx. destruct Hx' as [Hx'|Hx']; [|auto].
    apply Hdc in Hx'. tauto. }
  destruct v; cbn -[Z.pow] in *; try done;
    try (rewrite <- !(Hu r2) by set_solver); try (rewrite <- !(Hu r3) by set_solver);
    try (destruct (_ <? _); [|done]); try rewrite <- (proj1 Hw);
    try (eapply Hset; [done|]; intros x; rewrite ?elem_of_cons, ?elem_of_nil; naive_solver).
  destruct Hw as [Hm Hs]. rewrite <- (Hu r1) by set_solver. destruct (ToyVm.steps s1) as [|n] eqn:Hn; [done|].
  injection He as <-. destruct (ToyVm.steps s2) as [|m] eqn:Hn2; [lia|]. eexists. split; [done|].
  split; [split; cbn; [intros x; by case_decide|lia]|]. cbn. intros x [[Hx|Hx]|Hx]; [by apply elem_of_nil in Hx..|done].
Qed.

Lemma toy_world_laws : @FuelVmWorldLaws ToyVm.state toy_vm toy_world.
Proof.
  split.
  - intros s. by split.
  - intros v s1 s1' s2 Hv He Hw. destruct v; cbn -[Z.pow] in He; try done;
      try (destruct (_ <? _); [|done]); by eapply toy_set_reg_world.
  - intros v s s' r Hv He _ Hr. eapply toy_frame; [done|set_solver|left; set_solver].
  - intros op s1 s1' s2 He Hw Hu. unfold op_exec in *. destruct (opcode op) as [v|c] eqn:Hop.
    + destruct (toy_exec_agree v s1 s1' s2 He Hw) as (s2' & He2 & Hw2 & Hr).
      { intros r Hr. apply Hu. unfold use_registers. by rewrite Hop. }
      exists s2'. split_and!; try done. intros r _. unfold written_registers, def_registers, def_const_registers.
      rewrite Hop. apply Hr.
    + destruct c; cbn in He; try done; injection He as <-; exists s2; (split; [done|]); (split; [done|]);
      intros r _ [Hr|Hr]; try done; unfold written_registers, def_registers, def_const_registers in Hr;
      rewrite Hop in Hr; set_solver.
Qed.
