(* ===== verification/AsmLiveness.v ===== *)
(** * Liveness analysis

    Models [asm_generation/fuel/analyses.rs].  The result is characterised by
    paths of the control-flow graph: a register is live after an instruction iff
    some path leads to a use of it that no definition precedes. *)

From S2P Require Import Prelude AsmRegister AsmVirtualOp AsmOp.
Local Open Scope nat_scope.

(** The labels of the program; a later label overwrites an earlier one. *)
Definition label_to_index_of (ops : list Op) : gmap Label nat :=
  foldl (fun m '(i, op) => match opcode op with inr (CLabel l) => <[l := i]> m | _ => m end) ∅
    (imap pair ops).

(** The loop [for x in l { modified |= set.insert(x) }] *)
Fixpoint insert_all (l : list VirtualRegister) (st : BTreeSet * bool) : BTreeSet * bool :=
  match l with
  | [] => st
  | x :: l' => insert_all l' ({[x]} ∪ st.1, st.2 || negb (bool_decide (x ∈ st.1)))
  end.

Record Tables : Type := mkTables { live_in : list BTreeSet; live_out : list BTreeSet }.

Definition index_of {A} (l : list A) (i : nat) : Result A :=
  match l !! i with
  | Some a => Ok a
  | None => Err (Panic "index out of bounds")
  end.

(** The loop over the successors that extends [live_out] *)
Fixpoint insert_successors (live_in : list BTreeSet) (ss : list nat) (st : BTreeSet * bool)
    : Result (BTreeSet * bool) :=
  match ss with
  | [] => Ok st
  | s :: ss' => l ← index_of live_in s; insert_successors live_in ss' (insert_all (elements l) st)
  end.

Definition filtered (ignore_constant_regs : bool) (s : BTreeSet) : BTreeSet :=
  if ignore_constant_regs then retain_virtual s else s.

(** The body of the inner loop, for the instruction [op] at [rev_ix] *)
Definition visit (ops : list Op) (ignore_constant_regs : bool) (rev_ix : nat) (op : Op) (t : Tables)
    : Result (Tables * bool) :=
  let op_use := filtered ignore_constant_regs (use_registers op) in
  let op_def := filtered ignore_constant_regs (def_registers op) in
  ss ← successors op rev_ix ops (label_to_index_of ops);
  out0 ← index_of (live_out t) rev_ix;
  out ← insert_successors (live_in t) ss (out0, false);
  in0 ← index_of (live_in t) rev_ix;
  let in1 := insert_all (btree_iter op_use) (in0, out.2) in
  let in2 := insert_all (List.filter (fun l => negb (bool_decide (l ∈ op_def))) (btree_iter out.1)) in1 in
  Ok (mkTables (<[rev_ix := in2.1]> (live_in t)) (<[rev_ix := out.1]> (live_out t)), in2.2).

(** The inner loop, over the instructions in reverse order *)
Fixpoint pass (ops : list Op) (ignore_constant_regs : bool) (ixs : list (nat * Op)) (t : Tables)
    (modified : bool) : Result (Tables * bool) :=
  match ixs with
  | [] => Ok (t, modified)
  | (ix, op) :: ixs' =>
      r ← visit ops ignore_constant_regs ix op t;
      pass ops ignore_constant_regs ixs' r.1 (modified || r.2)
  end.

(** The outer loop *)
Fixpoint iterate (fuel : nat) (ops : list Op) (ignore_constant_regs : bool) (t : Tables) : Result Tables :=
  r ← pass ops ignore_constant_regs (rev (imap pair ops)) t false;
  if (r.2 : bool) then
    match fuel with
    | 0 => Err OutOfFuel
    | S fuel' => iterate fuel' ops ignore_constant_regs r.1
    end
  else Ok r.1.

(** All registers that the instructions read. *)
Definition all_uses (ops : list Op) : BTreeSet := ⋃ (map use_registers ops).

(** Every pass that changes the tables adds a register to one of [2 n] sets. *)
Definition liveness_fuel (ops : list Op) : nat := 2 * length ops * size (all_uses ops).

Definition liveness_analysis (ops : list Op) (ignore_constant_regs : bool) : Result (list BTreeSet) :=
  t ← iterate (liveness_fuel ops) ops ignore_constant_regs
        (mkTables (replicate (length ops) ∅) (replicate (length ops) ∅));
  Ok (live_out t).

(** ** Specification *)

Section liveness.
Context (ops : list Op) (ign : bool).

(** The control-flow graph. *)
Definition edge (i s : nat) : Prop :=
  exists op ss, ops !! i = Some op /\ successors op i ops (label_to_index_of ops) = Ok ss /\ s ∈ ss.

Definition use_at (i : nat) (r : VirtualRegister) : Prop :=
  exists op, ops !! i = Some op /\ r ∈ filtered ign (use_registers op).

Definition def_at (i : nat) (r : VirtualRegister) : Prop :=
  exists op, ops !! i = Some op /\ r ∈ filtered ign (def_registers op).

(** [r] is live after the instruction [i]: a path from a successor of [i] ends
    in a use of [r], and no instruction before it defines [r]. *)
Inductive live_after : nat -> VirtualRegister -> Prop :=
  | live_use i s r : edge i s -> use_at s r -> live_after i r
  | live_step i s r : edge i s -> ~ def_at s r -> live_after s r -> live_after i r.

(** [r] is live before the instruction [i]. *)
Definition live_before (i : nat) (r : VirtualRegister) : Prop :=
  use_at i r \/ (~ def_at i r /\ live_after i r).

Lemma live_after_before i r : live_after i r <-> exists s, edge i s /\ live_before s r.
Proof.
  split.
  - intros [? s ? ? ?|? s ? ? ? ?]; exists s; (split; [done|]); [by left|by right].
  - intros (s & He & [Hu|[Hd Hl]]); [by eapply live_use|by eapply live_step].
Qed.

(** ** The insertion loops *)

Lemma insert_all_spec l s b :
  insert_all l (s, b) = (s ∪ list_to_set l, b || negb (bool_decide (list_to_set l ⊆ s))).
Proof.
  revert s b. induction l as [|x l IH]; intros s b; cbn.
  - rewrite bool_decide_eq_true_2 by set_solver. rewrite orb_false_r. f_equal. set_solver.
  - rewrite IH. f_equal; [set_solver|]. destruct b; [done|]. cbn.
    destruct (decide (x ∈ s)) as [Hx|Hx].
    + rewrite (bool_decide_eq_true_2 (x ∈ s)) by done. cbn. f_equal.
      apply bool_decide_ext. set_solver.
    + rewrite (bool_decide_eq_false_2 (x ∈ s)) by done. cbn. symmetry.
      rewrite bool_decide_eq_false_2; [done|]. set_solver.
Qed.

Lemma insert_successors_spec li ss s b st :
  insert_successors li ss (s, b) = Ok st ->
  (forall x, x ∈ st.1 <-> x ∈ s \/ exists k l, k ∈ ss /\ li !! k = Some l /\ x ∈ l) /\
  (st.2 = false <-> b = false /\ st.1 = s).
Proof.
  revert s b. induction ss as [|k ss IH]; intros s b H; cbn in H.
  - inv_ok. cbn. split; [|tauto]. intros x. split; [by left|].
    intros [?|(k & l & ?%elem_of_nil & _)]; done.
  - inv_ok. rename r into l, Hok into Hl. unfold index_of in Hl. case_match eqn:Hk; [|done]. inv_ok.
    rewrite insert_all_spec, list_to_set_elements_L in H. apply IH in H as [Hx Hm]. split.
    + intros x. rewrite Hx, elem_of_union. setoid_rewrite elem_of_cons. split.
      * intros [[?|?]|(k' & l' & ? & ? & ?)]; [by left|right; eauto 6|right; eauto 7].
      * intros [?|(k' & l' & [->|?] & ? & ?)]; [by left; left|simplify_eq; by left; right|right; eauto].
    + rewrite Hm, orb_false_iff, negb_false_iff, bool_decide_eq_true. split.
      * intros [[-> Hsub] ->]. split; [done|]. set_solver.
      * intros [-> Heq]. assert (l ⊆ s) as Hsub.
        { rewrite <- Heq. intros x Hx'. apply Hx. left. set_solver. }
        split; [done|]. rewrite Heq. set_solver.
Qed.

(** ** One visit *)

Definition lin (t : Tables) (i : nat) : BTreeSet := match live_in t !! i with Some s => s | None => ∅ end.
Definition lout (t : Tables) (i : nat) : BTreeSet := match live_out t !! i with Some s => s | None => ∅ end.
Definition sized (t : Tables) : Prop :=
  length (live_in t) = length ops /\ length (live_out t) = length ops.

(** The data-flow inequations at an instruction. *)
Definition stable (t : Tables) (i : nat) : Prop :=
  (forall s r, edge i s -> r ∈ lin t s -> r ∈ lout t i) /\
  (forall r, use_at i r -> r ∈ lin t i) /\
  (forall r, r ∈ lout t i -> ~ def_at i r -> r ∈ lin t i).

Lemma lookup_default (l : list BTreeSet) i x : l !! i = Some x -> match l !! i with Some s => s | None => ∅ end = x.
Proof. by intros ->. Qed.

Lemma filter_not_def_elem (d : BTreeSet) s x :
  x ∈ (list_to_set (List.filter (fun l => negb (bool_decide (l ∈ d))) (btree_iter s)) : BTreeSet)
  <-> x ∈ s /\ x ∉ d.
Proof.
  rewrite elem_of_list_to_set, list_elem_of_In, filter_In, <- list_elem_of_In, btree_iter_elem,
    negb_true_iff, bool_decide_eq_false. done.
Qed.

Lemma visit_spec i op t t' m :
  sized t -> ops !! i = Some op -> visit ops ign i op t = Ok (t', m) ->
  sized t' /\ is_Ok (successors op i ops (label_to_index_of ops)) /\
  (forall j, j <> i -> lin t' j = lin t j /\ lout t' j = lout t j) /\
  (forall r, r ∈ lout t' i <-> r ∈ lout t i \/ exists s, edge i s /\ r ∈ lin t s) /\
  (forall r, r ∈ lin t' i <-> r ∈ lin t i \/ use_at i r \/ (r ∈ lout t' i /\ ~ def_at i r)) /\
  (m = false <-> lin t' i = lin t i /\ lout t' i = lout t i).
Proof.
  intros [Hl1 Hl2] Hop H. unfold visit in H. inv_ok.
  rename r into ss, Hok into Hss, r0 into o0, r1 into st, r2 into i0.
  rename select (insert_successors _ _ _ = _) into Hins.
  destruct (insert_successors_spec _ _ _ _ _ Hins) as [Hout Hm1].
  rewrite !insert_all_spec. cbn [fst snd].
  rename select (index_of (live_out t) i = _) into Ho. rename select (index_of (live_in t) i = _) into Hi.
  unfold index_of in Ho, Hi. case_match eqn:Ho'; [|done]. case_match eqn:Hi'; [|done]. inv_ok.
  assert (lout t i = o0) as Eo by (by apply lookup_default).
  assert (lin t i = i0) as Ei by (by apply lookup_default).
  assert (i < length ops) as Hlt by (by eapply lookup_lt_Some).
  assert (forall r, use_at i r <-> r ∈ filtered ign (use_registers op)) as Huse.
  { intros r. unfold use_at. rewrite Hop. naive_solver. }
  assert (forall r, def_at i r <-> r ∈ filtered ign (def_registers op)) as Hdef.
  { intros r. unfold def_at. rewrite Hop. naive_solver. }
  unfold lin, lout in *. cbn [live_in live_out]. rewrite !list_lookup_insert_eq by lia.
  split_and!.
  - split; cbn; rewrite length_insert; done.
  - by eexists.
  - intros j Hj. rewrite !list_lookup_insert_ne by done. done.
  - intros r. rewrite Hout, Eo. split.
    + intros [?|(k & l & Hk & Hl & Hr)]; [by left|right]. exists k. split; [by exists op, ss|].
      by rewrite Hl.
    + intros [?|(k & (op' & ss' & Hop' & Hss' & Hk) & Hr)]; [by left|right].
      simplify_eq. destruct (live_in t !! k) as [l|] eqn:Hlk; [|by apply elem_of_empty in Hr].
      exists k, l. rewrite Hss in Hss'. inv_ok. done.
  - intros r. rewrite !elem_of_union, filter_not_def_elem, elem_of_list_to_set, btree_iter_elem,
      Ei, Huse, Hdef. tauto.
  - rewrite !orb_false_iff, !negb_false_iff, !bool_decide_eq_true.
    split.
    + intros [[Hst Hs1] Hs2]. apply Hm1 in Hst as [_ Hst]. rewrite Eo, Ei, Hst in *.
      split; [|done]. set_solver.
    + intros [Hin Hst]. rewrite Eo in Hst. rewrite Ei in Hin. split_and!; [by apply Hm1|set_solver..].
Qed.

(** ** Soundness: every entry is justified by a path *)

Definition justified (t : Tables) : Prop :=
  (forall i r, r ∈ lin t i -> live_before i r) /\ (forall i r, r ∈ lout t i -> live_after i r).

Lemma visit_justified i op t t' m :
  sized t -> ops !! i = Some op -> visit ops ign i op t = Ok (t', m) -> justified t -> justified t'.
Proof.
  intros Hs Hop Hv [Hin Hout].
  destruct (visit_spec i op t t' m Hs Hop Hv) as (_ & _ & Hne & Ho & Hi & _).
  assert (forall r, r ∈ lout t' i -> live_after i r) as Ho'.
  { intros r [?|(s & He & Hr)]%Ho; [by apply Hout|]. apply live_after_before. eauto. }
  split; intros j r Hr; destruct (decide (j = i)) as [->|Hj].
  - apply Hi in Hr as [?|[?|[? ?]]]; [by apply Hin|by left|right; auto].
  - destruct (Hne j Hj) as [E1 _]. rewrite E1 in Hr. by apply Hin.
  - by apply Ho'.
  - destruct (Hne j Hj) as [_ E2]. rewrite E2 in Hr. by apply Hout.
Qed.

Lemma sets_ext (l k : list BTreeSet) :
  length l = length k ->
  (forall i, match l !! i with Some s => s | None => ∅ end = match k !! i with Some s => s | None => ∅ end) ->
  l = k.
Proof.
  intros Hlen Heq. apply list_eq_same_length with (length k); [done..|].
  intros i x y Hi Hx Hy. specialize (Heq i). by rewrite Hx, Hy in Heq.
Qed.

Lemma tables_ext t t' :
  sized t -> sized t' -> (forall i, lin t i = lin t' i /\ lout t i = lout t' i) -> t = t'.
Proof.
  intros [Ha Hb] [Ha' Hb'] Heq. destruct t as [a b], t' as [a' b']. cbn in *.
  f_equal; apply sets_ext; try congruence; intros i; by destruct (Heq i).
Qed.

(** ** One pass *)

Lemma pass_spec ixs t m t' m' :
  sized t -> (forall i op, (i, op) ∈ ixs -> ops !! i = Some op) -> justified t ->
  pass ops ign ixs t m = Ok (t', m') ->
  sized t' /\ justified t' /\ (m = true -> m' = true) /\
  (m' = false -> t' = t /\ forall i op, (i, op) ∈ ixs -> stable t i).
Proof.
  revert t m. induction ixs as [|[i op] ixs IH]; intros t m Hs Hix Hj H; cbn [pass] in H.
  - inv_ok. split_and!; try done. intros _. split; [done|]. by intros ? ? ?%elem_of_nil.
  - inv_ok. destruct r as [t1 m1]. rename Hok into Hv. cbn [fst snd] in H.
    assert (ops !! i = Some op) as Hop by (apply Hix; left).
    pose proof (visit_spec i op t t1 m1 Hs Hop Hv) as (Hs1 & _ & Hne & Ho & Hi & Hm).
    assert (justified t1) as Hj1 by (eapply (visit_justified i op t); done).
    destruct (IH t1 (m || m1)) as (Hs' & Hj' & Hmono & Hst); [done| |done|done|].
    { intros. apply Hix. by right. }
    split_and!; [done|done| |].
    + intros ->. by apply Hmono.
    + intros Hf. destruct (m || m1) eqn:Hmm; [by rewrite Hmono in Hf|].
      apply orb_false_iff in Hmm as [-> ->]. destruct (proj1 Hm eq_refl) as [Ein Eout].
      assert (t1 = t) as ->.
      { apply tables_ext; [done..|]. intros j. destruct (decide (j = i)) as [->|Hji]; [done|].
        by apply Hne. }
      destruct (Hst Hf) as [-> Hstable]. split; [done|].
      intros j op' [[= -> ->]|Hin]%elem_of_cons; [|by eapply Hstable].
      split_and!.
      * intros s r He Hr. apply Ho. right. eauto.
      * intros r Hr. apply Hi. auto.
      * intros r Hr Hd. apply Hi. auto.
Qed.

Lemma rev_imap_lookup i op : (i, op) ∈ rev (imap pair ops) <-> ops !! i = Some op.
Proof.
  rewrite list_elem_of_In, <- in_rev, <- list_elem_of_In. split.
  - intros Hin. apply elem_of_lookup_imap in Hin as (k & x & [= -> ->] & Hk). done.
  - intros Hi. apply elem_of_lookup_imap. eauto.
Qed.

Lemma iterate_spec fuel t t' :
  sized t -> justified t -> iterate fuel ops ign t = Ok t' ->
  justified t' /\ sized t' /\ forall i, i < length ops -> stable t' i.
Proof.
  revert t. induction fuel as [|fuel IH]; intros t Hs Hj H; cbn [iterate] in H; inv_ok;
    destruct r as [t1 m1]; cbn [fst snd] in H;
    destruct (pass_spec _ _ _ _ _ Hs (fun i op Hin => proj1 (rev_imap_lookup i op) Hin) Hj Hok)
      as (Hs1 & Hj1 & _ & Hst);
    (destruct m1; [try done; by apply (IH t1)|]); inv_ok; destruct (Hst eq_refl) as [-> Hstable];
    split_and!; try done; intros i [op Hop]%lookup_lt_is_Some_2;
    by apply (Hstable i op), rev_imap_lookup.
Qed.

Lemma empty_tables i (l := replicate (length ops) (∅ : BTreeSet)) :
  lin (mkTables l l) i = ∅ /\ lout (mkTables l l) i = ∅.
Proof.
  unfold lin, lout, l. cbn. destruct (replicate _ _ !! i) as [x|] eqn:Hx; [|done].
  apply lookup_replicate in Hx as [-> _]. done.
Qed.

(** The stable tables contain every register that a path justifies. *)
Lemma stable_complete t i r :
  (forall i, i < length ops -> stable t i) -> (forall i s, edge i s -> s < length ops) ->
  live_after i r -> r ∈ lout t i.
Proof.
  intros Hst Hrange H.
  assert (forall i s, edge i s -> i < length ops) as Hdom.
  { intros ? ? (op & _ & Hop & _). by eapply lookup_lt_Some. }
  induction H as [i s r He Hu|i s r He Hd _ IH].
  - destruct (Hst i) as (H1 & _); [by eapply Hdom|]. eapply H1; [done|].
    destruct (Hst s) as (_ & H2 & _); [by eapply Hrange|]. by apply H2.
  - destruct (Hst i) as (H1 & _); [by eapply Hdom|]. eapply H1; [done|].
    destruct (Hst s) as (_ & _ & H3); [by eapply Hrange|]. by apply H3.
Qed.

Lemma label_to_index_label l i :
  label_to_index_of ops !! l = Some i -> exists op, ops !! i = Some op /\ opcode op = inr (CLabel l).
Proof.
  unfold label_to_index_of.
  assert (forall xs (m : gmap Label nat),
    (forall l i, m !! l = Some i -> exists op, ops !! i = Some op /\ opcode op = inr (CLabel l)) ->
    (forall i op, (i, op) ∈ xs -> ops !! i = Some op) ->
    forall l i, foldl (fun m '(i, op) => match opcode op with inr (CLabel l) => <[l := i]> m | _ => m end)
      m xs !! l = Some i -> exists op, ops !! i = Some op /\ opcode op = inr (CLabel l)) as Hgo.
  { induction xs as [|[k op] xs IH]; intros m Hm Hxs l' i'; cbn; [apply Hm|].
    apply IH; [|intros; apply Hxs; by right].
    intros l2 i2. assert (ops !! k = Some op) by (apply Hxs; left).
    destruct (opcode op) as [|[]] eqn:Hop; try apply Hm.
    intros [[<- <-]|[_ ?]]%lookup_insert_Some; [by exists op|by apply Hm]. }
  apply Hgo; [done|]. intros k op Hin. by apply elem_of_lookup_imap in Hin as (k' & x & [= -> ->] & Hk).
Qed.

Lemma label_to_index_bound l i : label_to_index_of ops !! l = Some i -> i < length ops.
Proof. intros (op & Hop & _)%label_to_index_label. by eapply lookup_lt_Some. Qed.

Lemma edge_range i s : edge i s -> s < length ops.
Proof.
  intros (op & ss & Hop & Hss & Hin). apply lookup_lt_Some in Hop.
  unfold successors in Hss. destruct (opcode op) as [v|c].
  - assert (ss = (if length ops - 1 <=? i then [] else [i + 1]) \/ ss = []) as [->| ->].
    { unfold VirtualOp_successors in Hss. destruct v; inv_ok; auto. }
    + case_match eqn:Hle; [by apply elem_of_nil in Hin|]. apply list_elem_of_singleton in Hin as ->.
      apply Nat.leb_gt in Hle. lia.
    + by apply elem_of_nil in Hin.
  - assert (forall x, x ∈ (if (i + 1 <? length ops) && negb (match c with Jump _ => true | _ => false end)
      then [i + 1] else []) -> x < length ops) as Hnext.
    { intros x Hx. case_match eqn:Hb; [|by apply elem_of_nil in Hx].
      apply list_elem_of_singleton in Hx as ->. apply andb_true_iff in Hb as [Hb%Nat.ltb_lt _]. done. }
    unfold ControlFlowOp_successors in Hss.
    destruct c; inv_ok; try (by apply Hnext);
      (destruct (label_to_index_of ops !! l) as [k|] eqn:Hl; [|done]); inv_ok;
      apply elem_of_app in Hin as [Hin|Hin]; try (by apply Hnext);
      apply list_elem_of_singleton in Hin as ->; by eapply label_to_index_bound.
Qed.

Lemma liveness_exact_Ok lo :
  liveness_analysis ops ign = Ok lo ->
  length lo = length ops /\
  forall i o r, lo !! i = Some o -> r ∈ o <-> live_after i r.
Proof.
  intros H. unfold liveness_analysis in H. inv_ok. rename Hok into Hit.
  apply iterate_spec in Hit as ([_ Hj] & [_ Hlen] & Hst); [|split; apply length_replicate|].
  2: { split; intros i x Hx; destruct (empty_tables i) as [E1 E2]; rewrite ?E1, ?E2 in Hx;
         by apply elem_of_empty in Hx. }
  split; [done|]. intros i o x Hi.
  replace o with (lout r i) by (unfold lout; by rewrite Hi). split; [apply Hj|].
  apply stable_complete; [done|apply edge_range].
Qed.

(** ** Termination *)

Definition total (t : Tables) : nat :=
  sum_list_with size (live_in t) + sum_list_with size (live_out t).

Lemma sets_size_le (l k : list BTreeSet) :
  length l = length k ->
  (forall i r, r ∈ (match l !! i with Some s => s | None => ∅ end : BTreeSet) ->
     r ∈ (match k !! i with Some s => s | None => ∅ end : BTreeSet)) ->
  sum_list_with size l <= sum_list_with size k /\
  (l <> k -> sum_list_with size l < sum_list_with size k).
Proof.
  revert k. induction l as [|x l IH]; intros [|y k] Hlen Hsub; try done.
  pose proof (Hsub 0) as Hxy. cbn in Hxy.
  destruct (IH k) as [Hle Hlt]; [by injection Hlen|intros i; apply (Hsub (S i))|].
  assert (size x <= size y) by (by apply subseteq_size). cbn [sum_list_with]. split; [lia|].
  intros Hne. destruct (decide (x = y)) as [->|Hxy'].
  - assert (l <> k) as Hlk by congruence. specialize (Hlt Hlk). lia.
  - assert (size x < size y); [|lia]. apply subset_size. split; [done|].
    intros Hyx. apply Hxy'. by apply set_eq_subseteq.
Qed.

Definition grows (t t' : Tables) : Prop :=
  forall i r, (r ∈ lin t i -> r ∈ lin t' i) /\ (r ∈ lout t i -> r ∈ lout t' i).

Lemma grows_total t t' :
  sized t -> sized t' -> grows t t' -> total t <= total t' /\ (t <> t' -> total t < total t').
Proof.
  intros [Ha Hb] [Ha' Hb'] Hg.
  destruct (sets_size_le (live_in t) (live_in t')) as [H1 H2]; [congruence|intros i r; apply (Hg i r)|].
  destruct (sets_size_le (live_out t) (live_out t')) as [H3 H4]; [congruence|intros i r; apply (Hg i r)|].
  unfold total. split; [lia|]. intros Hne.
  destruct (decide (live_in t = live_in t')) as [Heq|Hin]; [|specialize (H2 Hin); lia].
  destruct (decide (live_out t = live_out t')) as [Heq'|Hout]; [|specialize (H4 Hout); lia].
  exfalso. apply Hne. destruct t, t'. cbn in *. congruence.
Qed.

Lemma pass_grows ixs t m t' m' :
  sized t -> (forall i op, (i, op) ∈ ixs -> ops !! i = Some op) ->
  pass ops ign ixs t m = Ok (t', m') ->
  sized t' /\ total t <= total t' /\ (m = false -> m' = true -> total t < total t').
Proof.
  revert t m. induction ixs as [|[i op] ixs IH]; intros t m Hs Hix H; cbn [pass] in H.
  - inv_ok. split; [done|]. split; [lia|congruence].
  - inv_ok. destruct r as [t1 m1]. rename Hok into Hv. cbn [fst snd] in H.
    assert (ops !! i = Some op) as Hop by (apply Hix; left).
    pose proof (visit_spec i op t t1 m1 Hs Hop Hv) as (Hs1 & _ & Hne & Ho & Hi & Hm).
    assert (grows t t1) as Hg.
    { intros j r. destruct (decide (j = i)) as [->|Hj]; [rewrite Ho, Hi; tauto|].
      destruct (Hne j Hj) as [-> ->]. done. }
    destruct (grows_total t t1 Hs Hs1 Hg) as [Hle Hlt].
    destruct (IH t1 (m || m1)) as (Hs' & Hle' & Hlt'); [done| |done|].
    { intros. apply Hix. by right. }
    split; [done|]. split; [lia|]. intros -> ->. destruct m1; [|cbn in Hlt'; specialize (Hlt' eq_refl eq_refl); lia].
    assert (t <> t1) as Hne'; [|specialize (Hlt Hne'); lia].
    intros ->. assert (true = false); [|done]. by apply Hm.
Qed.

Hypothesis wf : forall i op, ops !! i = Some op -> is_Ok (successors op i ops (label_to_index_of ops)).

Lemma visit_is_Ok i op t : sized t -> ops !! i = Some op -> is_Ok (visit ops ign i op t).
Proof.
  intros [Ha Hb] Hop. destruct (wf i op Hop) as [ss Hss].
  assert (forall k, k < length ops -> is_Some (live_in t !! k)) as Hin
    by (intros; apply lookup_lt_is_Some_2; lia).
  assert (forall k, k ∈ ss -> k < length ops) as Hrange.
  { intros k Hk. apply (edge_range i k). by exists op, ss. }
  pose proof (lookup_lt_Some _ _ _ Hop) as Hlt. unfold visit. rewrite Hss. next_step.
  destruct (lookup_lt_is_Some_2 (live_out t) i) as [o0 Ho0]; [lia|].
  assert (index_of (live_out t) i = Ok o0) as -> by (unfold index_of; by rewrite Ho0).
  next_step.
  assert (forall ks st, (forall k, k ∈ ks -> k < length ops) ->
    is_Ok (insert_successors (live_in t) ks st)) as Hins.
  { induction ks as [|k ks IH]; intros st Hks; cbn; [by eexists|]. unfold index_of.
    destruct (Hin k) as [l ->]; [apply Hks; left|]. cbn. apply IH. intros; apply Hks; by right. }
  destruct (Hins ss (o0, false) Hrange) as [st ->]. next_step.
  unfold index_of. destruct (Hin i Hlt) as [i0 ->]. by eexists.
Qed.

Lemma pass_is_Ok ixs t m :
  sized t -> (forall i op, (i, op) ∈ ixs -> ops !! i = Some op) -> is_Ok (pass ops ign ixs t m).
Proof.
  revert t m. induction ixs as [|[i op] ixs IH]; intros t m Hs Hix; cbn [pass]; [by eexists|].
  assert (ops !! i = Some op) as Hop by (apply Hix; left).
  destruct (visit_is_Ok i op t Hs Hop) as [[t1 m1] Hv]. rewrite Hv. cbn [mbind Result_bind fst snd].
  apply IH; [by eapply (visit_spec i op)|]. intros. apply Hix. by right.
Qed.

Lemma justified_bound t : sized t -> justified t -> total t <= liveness_fuel ops.
Proof.
  intros [Ha Hb] [Hin Hout].
  assert (forall i r, use_at i r -> r ∈ all_uses ops) as Huse.
  { intros i r (op & Hop & Hr). unfold all_uses. apply elem_of_union_list.
    exists (use_registers op). split.
    - apply list_elem_of_fmap. exists op. split; [done|]. apply list_elem_of_lookup. eauto.
    - clear -Hr. unfold filtered in Hr. destruct ign; [|done].
      apply retain_virtual_elem in Hr as [Hr _]. exact Hr. }
  assert (forall i r, live_after i r -> r ∈ all_uses ops) as Hafter by (induction 1; eauto).
  assert (forall i r, live_before i r -> r ∈ all_uses ops) as Hbefore.
  { intros i r [?|[_ ?]]; eauto. }
  assert (forall l : list BTreeSet, (forall s, s ∈ l -> s ⊆ all_uses ops) ->
    sum_list_with size l <= length l * size (all_uses ops)) as Hsum.
  { induction l as [|x l IH]; intros Hl; cbn [sum_list_with length]; [lia|].
    assert (size x <= size (all_uses ops)) by (apply subseteq_size, Hl; left).
    specialize (IH (fun s Hs => Hl s (list_elem_of_further _ _ _ Hs))). lia. }
  unfold total, liveness_fuel.
  assert (sum_list_with size (live_in t) <= length (live_in t) * size (all_uses ops)).
  { apply Hsum. intros x [i Hi]%list_elem_of_lookup r Hr. apply (Hbefore i), Hin. unfold lin. by rewrite Hi. }
  assert (sum_list_with size (live_out t) <= length (live_out t) * size (all_uses ops)).
  { apply Hsum. intros x [i Hi]%list_elem_of_lookup r Hr. apply (Hafter i), Hout. unfold lout. by rewrite Hi. }
  nia.
Qed.

Lemma iterate_is_Ok fuel t :
  sized t -> justified t -> liveness_fuel ops <= fuel + total t -> is_Ok (iterate fuel ops ign t).
Proof.
  revert t. induction fuel as [|fuel IH]; intros t Hs Hj Hf; cbn [iterate];
    assert (forall i op, (i, op) ∈ rev (imap pair ops) -> ops !! i = Some op) as Hix
      by (intros; by apply rev_imap_lookup);
    destruct (pass_is_Ok (rev (imap pair ops)) t false Hs Hix) as [[t1 m1] Hp]; rewrite Hp;
    cbn [mbind Result_bind fst snd];
    destruct (pass_grows _ _ _ _ _ Hs Hix Hp) as (Hs1 & _ & Hlt);
    destruct (pass_spec _ _ _ _ _ Hs Hix Hj Hp) as (_ & Hj1 & _);
    pose proof (justified_bound t1 Hs1 Hj1) as Hb;
    (destruct m1; [specialize (Hlt eq_refl eq_refl)|by eexists]); [lia|].
  apply IH; [done..|lia].
Qed.

Lemma liveness_is_Ok : is_Ok (liveness_analysis ops ign).
Proof.
  unfold liveness_analysis.
  destruct (iterate_is_Ok (liveness_fuel ops)
              (mkTables (replicate (length ops) ∅) (replicate (length ops) ∅))) as [t ->];
    [split; apply length_replicate| |lia|by eexists].
  split; intros i x Hx; destruct (empty_tables i) as [E1 E2]; rewrite ?E1, ?E2 in Hx;
    by apply elem_of_empty in Hx.
Qed.
End liveness.

(** ** Theorems *)

(** C17. Liveness is exact: the table computed by the analysis holds a register
    for an instruction iff the register is live after the instruction, that is
    iff a path of the control-flow graph leads to a use of it that no definition
    precedes. *)
Theorem liveness_exact ops ign lo :
  liveness_analysis ops ign = Ok lo ->
  length lo = length ops /\
  forall i o r, lo !! i = Some o -> r ∈ o <-> live_after ops ign i r.
Proof. apply liveness_exact_Ok. Qed.

(** C18. The fixed-point iteration of the liveness analysis ends: when every label
    that is jumped to is defined and no instruction is an immediate jump, the
    analysis returns within its bound of [2 n] times the number of registers. *)
Theorem liveness_terminates ops ign :
  (forall i op, ops !! i = Some op -> is_Ok (successors op i ops (label_to_index_of ops))) ->
  exists lo, liveness_analysis ops ign = Ok lo.
Proof. apply liveness_is_Ok. Qed.

(** [L: x := y + y; jnz x L; ret x] *)
Definition sample_loop : list Op :=
  [mkOp (inr (CLabel 0)) ""; mkOp (inl (ADD (Virtual "x") (Virtual "y") (Virtual "y"))) "";
   mkOp (inr (JumpIfNotZero (Virtual "x") 0)) ""; mkOp (inl (RET (Virtual "x"))) ""].

Definition sample_live : list BTreeSet :=
  map btree_from [[Virtual "y"]; [Virtual "x"; Virtual "y"]; [Virtual "x"; Virtual "y"]; []].

Lemma sample_loop_live : liveness_analysis sample_loop true = Ok sample_live.
Proof. vm_cast_no_check (eq_refl (Ok sample_live)). Qed.

Lemma liveness_exact_witness :
  Virtual "y" ∈ btree_from [Virtual "x"; Virtual "y"] <-> live_after sample_loop true 2 (Virtual "y").
Proof.
  exact (proj2 (liveness_exact sample_loop true sample_live sample_loop_live) 2 _ _ eq_refl).
Defined.

Lemma sample_loop_wf i op :
  sample_loop !! i = Some op -> is_Ok (successors op i sample_loop (label_to_index_of sample_loop)).
Proof.
  intros Hop. do 4 (destruct i as [|i]; [injection Hop as <-; vm_compute; by eexists|]). discriminate Hop.
Qed.

Lemma liveness_terminates_witness : exists lo, liveness_analysis sample_loop true = Ok lo.
Proof. exact (liveness_terminates sample_loop true sample_loop_wf). Defined.
