(* ===== verification/AsmData.v ===== *)
(** * The data section

    Models [asm_generation/fuel/data_section.rs] and [Padding] of
    [sway-ir/src/irtype.rs]: the constants that a program loads, their layout in
    bytes and their offsets.  Bytes and words are [Z]; lengths and sizes, which
    are lengths of buffers, are [nat]. *)

From S2P Require Import Prelude AsmRegister AsmVirtualOp.
Local Open Scope nat_scope.

(** ** Data *)

Inductive Padding : Type := PadLeft (target_size : nat) | PadRight (target_size : nat).

Definition target_size (p : Padding) : nat := match p with PadLeft n | PadRight n => n end.

Inductive EntryName : Type := NamedNonConfigurable | NamedConfigurable (name : string).

#[export] Instance EntryName_eq_dec : EqDecision EntryName.
Proof. solve_decision. Defined.

Inductive Entry : Type :=
  | mkEntry (value : Datum) (padding : Padding) (name : EntryName)
with Datum : Type :=
  | Byte (value : Z)
  | Word (value : Z)
  | ByteArray (bytes : list Z)
  | Slice (bytes : list Z)
  | Collection (elements : list Entry).

Definition entry_value (e : Entry) : Datum := match e with mkEntry v _ _ => v end.
Definition entry_padding (e : Entry) : Padding := match e with mkEntry _ p _ => p end.
Definition entry_name (e : Entry) : EntryName := match e with mkEntry _ _ n => n end.

Definition default_for_u8 (value : Z) : Padding := PadRight 1.
Definition default_for_u64 (value : Z) : Padding := PadRight 8.
Definition default_for_byte_array (value : list Z) : Padding := PadRight (length value).
Definition default_for_aggregate (aggregate_size : nat) : Padding := PadRight aggregate_size.

Definition new_byte (value : Z) (name : EntryName) (padding : option Padding) : Entry :=
  mkEntry (Byte value) (default (default_for_u8 value) padding) name.
Definition new_word (value : Z) (name : EntryName) (padding : option Padding) : Entry :=
  mkEntry (Word value) (default (default_for_u64 value) padding) name.
Definition new_byte_array (bytes : list Z) (name : EntryName) (padding : option Padding) : Entry :=
  mkEntry (ByteArray bytes) (default (default_for_byte_array bytes) padding) name.
Definition new_slice (bytes : list Z) (name : EntryName) (padding : option Padding) : Entry :=
  mkEntry (Slice bytes) (default (default_for_byte_array bytes) padding) name.
Definition new_collection (elements : list Entry) (name : EntryName) (padding : option Padding) : Entry :=
  mkEntry (Collection elements)
    (default (default_for_aggregate (sum_list_with (fun el => target_size (entry_padding el)) elements)) padding)
    name.

(** [u64::to_be_bytes] *)
Definition to_be_bytes (w : Z) : list Z :=
  map (fun i => Z.land (Z.shiftr w (8 * i)) 255) [7; 6; 5; 4; 3; 2; 1; 0]%Z.

(** The bytes of an array or a slice, filled up to words.  The mask clears the
    upper half of a length, too. *)
Definition fill_words (bytes : list Z) : list Z :=
  if length bytes mod 8 =? 0 then bytes
  else take (Z.to_nat (Z.land (Z.of_nat (length bytes) + 7) 0xfffffff8)) (bytes ++ replicate 8 0%Z).

Definition pad (padding : Padding) (bytes : list Z) : list Z :=
  let final_padding := target_size padding - length bytes in
  match padding with
  | PadLeft _ => replicate final_padding 0%Z ++ bytes
  | PadRight _ => bytes ++ replicate final_padding 0%Z
  end.

(** [Entry::to_bytes] *)
Fixpoint to_bytes (self : Entry) : list Z :=
  match self with
  | mkEntry value padding _ =>
      pad padding
        match value with
        | Byte value => [value]
        | Word value => to_be_bytes value
        | ByteArray bytes | Slice bytes => fill_words bytes
        | Collection items => flat_map to_bytes items
        end
  end.

(** [Entry::has_copy_type], [Entry::is_byte] *)
Definition Entry_has_copy_type (self : Entry) : bool :=
  match entry_value self with Word _ | Byte _ => true | _ => false end.
Definition Entry_is_byte (self : Entry) : bool :=
  match entry_value self with Byte _ => true | _ => false end.

(** [Entry::equiv] *)
Fixpoint equiv_data (lhs rhs : Datum) : bool :=
  match lhs, rhs with
  | Byte l, Byte r => (l =? r)%Z
  | Word l, Word r => (l =? r)%Z
  | ByteArray l, ByteArray r => bool_decide (l = r)
  | Collection l, Collection r =>
      (length l =? length r) &&
      (fix all (l r : list Entry) : bool :=
         match l, r with
         | mkEntry lv _ _ :: l', mkEntry rv _ _ :: r' => equiv_data lv rv && all l' r'
         | _, _ => true
         end) l r
  | _, _ => false
  end.

Definition Entry_equiv (self entry : Entry) : bool :=
  equiv_data (entry_value self) (entry_value entry) && bool_decide (entry_name self = entry_name entry).

(** ** The section *)

Record DataSection : Type := mkDataSection {
  non_configurables : list Entry;
  configurables : list Entry;
  pointer_id : gmap Z DataId
}.

Definition num_entries (self : DataSection) : nat :=
  length (non_configurables self) + length (configurables self).

Definition iter_all_entries (self : DataSection) : list Entry :=
  non_configurables self ++ configurables self.

Definition absolute_idx (self : DataSection) (id : DataId) : nat :=
  match kind id with
  | NonConfigurable => Z.to_nat (idx id)
  | Configurable => Z.to_nat (idx id) + length (non_configurables self)
  end.

Definition DataSection_get (self : DataSection) (id : DataId) : option Entry :=
  match kind id with
  | NonConfigurable => non_configurables self !! Z.to_nat (idx id)
  | Configurable => configurables self !! Z.to_nat (idx id)
  end.

(** [size_bytes_round_up_to_word_alignment!] on [usize] *)
Definition round_up (bytes : nat) : nat := (bytes + 7) - (bytes + 7) mod 8.

Definition absolute_idx_to_offset (self : DataSection) (idx : nat) : nat :=
  foldl (fun offset entry => round_up (offset + length (to_bytes entry))) 0
    (take idx (iter_all_entries self)).

Definition data_id_to_offset (self : DataSection) (id : DataId) : nat :=
  absolute_idx_to_offset self (absolute_idx self id).

Definition append_entry (buf : list Z) (entry : Entry) : list Z :=
  let buf := buf ++ to_bytes entry in
  buf ++ replicate (round_up (length buf) - length buf) 0%Z.

Definition serialize_to_bytes (self : DataSection) : list Z :=
  foldl append_entry [] (iter_all_entries self).

Definition has_copy_type (self : DataSection) (id : DataId) : option bool :=
  Entry_has_copy_type <$> DataSection_get self id.
Definition is_byte (self : DataSection) (id : DataId) : option bool :=
  Entry_is_byte <$> DataSection_get self id.

(** [Iterator::position] *)
Fixpoint position {A} (f : A -> bool) (l : list A) : option nat :=
  match l with
  | [] => None
  | x :: l' => if f x then Some 0 else S <$> position f l'
  end.

(** [as u32] of an index *)
Definition idx_u32 (n : nat) : Z := (Z.of_nat n mod 2 ^ 32)%Z.

(** The index of an entry equivalent to [new_entry], which is pushed if there is
    none *)
Definition find_or_push (value_pairs : list Entry) (new_entry : Entry) : list Entry * nat :=
  match position (fun entry => Entry_equiv entry new_entry) value_pairs with
  | Some num => (value_pairs, num)
  | None => (value_pairs ++ [new_entry], length value_pairs)
  end.

Definition insert_data_value (self : DataSection) (new_entry : Entry) : DataSection * DataId :=
  match entry_name new_entry with
  | NamedNonConfigurable =>
      let '(values, num) := find_or_push (non_configurables self) new_entry in
      (mkDataSection values (configurables self) (pointer_id self), mkDataId (idx_u32 num) NonConfigurable)
  | NamedConfigurable _ =>
      let '(values, num) := find_or_push (configurables self) new_entry in
      (mkDataSection (non_configurables self) values (pointer_id self), mkDataId (idx_u32 num) Configurable)
  end.

Definition append_pointer (self : DataSection) (pointer_value : Z) : DataSection * DataId :=
  let '(self, data_id) := insert_data_value self (new_word pointer_value NamedNonConfigurable None) in
  (mkDataSection (non_configurables self) (configurables self) (<[pointer_value := data_id]> (pointer_id self)),
   data_id).

Definition data_id_of_pointer (self : DataSection) (pointer_value : Z) : option DataId :=
  pointer_id self !! pointer_value.

Definition get_data_word (self : DataSection) (data_id : DataId) : option Z :=
  match DataSection_get self data_id with
  | Some (mkEntry (Word w) _ _) => Some w
  | _ => None
  end.

(** ** Alignment *)

Lemma round_up_spec n : round_up n mod 8 = 0 /\ n <= round_up n < n + 8.
Proof.
  unfold round_up. pose proof (Nat.div_mod_eq (n + 7) 8) as Hd.
  pose proof (Nat.mod_upper_bound (n + 7) 8 ltac:(lia)). split; [|lia].
  replace (n + 7 - (n + 7) mod 8) with ((n + 7) / 8 * 8) by lia. apply Nat.Div0.mod_mul.
Qed.

Lemma round_up_aligned n : n mod 8 = 0 -> round_up n = n.
Proof.
  intros Hn. unfold round_up. pose proof (Nat.div_mod_eq n 8) as Hd.
  replace (n + 7) with (7 + n / 8 * 8) by lia. rewrite Nat.Div0.mod_add, (Nat.mod_small 7) by lia. lia.
Qed.

Lemma length_append_entry buf e :
  length (append_entry buf e) = round_up (length buf + length (to_bytes e)).
Proof.
  unfold append_entry. pose proof (round_up_spec (length (buf ++ to_bytes e))).
  rewrite !length_app, length_replicate in *. lia.
Qed.

Lemma length_append_entries l buf :
  length (foldl append_entry buf l) =
  foldl (fun offset entry => round_up (offset + length (to_bytes entry))) (length buf) l.
Proof.
  revert buf. induction l as [|e l IH]; intros buf; cbn; [done|]. by rewrite IH, length_append_entry.
Qed.

Lemma append_entries_prefix l buf : buf `prefix_of` foldl append_entry buf l.
Proof.
  revert buf. induction l as [|e l IH]; intros buf; cbn; [done|].
  etrans; [|apply IH]. unfold append_entry. rewrite <- app_assoc. by eexists.
Qed.

Lemma offset_aligned l o :
  o mod 8 = 0 ->
  foldl (fun offset entry => round_up (offset + length (to_bytes entry))) o l mod 8 = 0.
Proof. revert o. induction l as [|e l IH]; intros o Ho; cbn; [done|]. apply IH, round_up_spec. Qed.

Lemma absolute_idx_lookup ds id e :
  DataSection_get ds id = Some e -> iter_all_entries ds !! absolute_idx ds id = Some e.
Proof.
  unfold DataSection_get, iter_all_entries, absolute_idx. destruct (kind id); intros He.
  - by apply lookup_app_l_Some.
  - rewrite lookup_app_r by lia. rewrite <- He. f_equal. lia.
Qed.

(** ** Equivalence of entries *)

(** The paddings of two entries agree at every level. *)
Fixpoint same_padding (e1 e2 : Entry) : Prop :=
  match e1, e2 with
  | mkEntry v1 p1 _, mkEntry v2 p2 _ =>
      p1 = p2 /\
      match v1, v2 with
      | Collection l1, Collection l2 =>
          (fix all (l1 l2 : list Entry) : Prop :=
             match l1, l2 with
             | x1 :: l1', x2 :: l2' => same_padding x1 x2 /\ all l1' l2'
             | _, _ => True
             end) l1 l2
      | _, _ => True
      end
  end.

(** Entries with equivalent values and the same paddings have the same bytes. *)
Lemma equiv_data_bytes e1 e2 :
  equiv_data (entry_value e1) (entry_value e2) = true -> same_padding e1 e2 -> to_bytes e1 = to_bytes e2.
Proof.
  revert e1 e2. fix IH 1. intros [v1 p1 n1] [v2 p2 n2]. cbn. intros Hv [<- Hp]. f_equal.
  destruct v1 as [b1|w1|l1|s1|c1], v2 as [b2|w2|l2|s2|c2]; try done.
  - by apply Z.eqb_eq in Hv as ->.
  - by apply Z.eqb_eq in Hv as ->.
  - by apply bool_decide_eq_true in Hv as ->.
  - cbn in Hv. apply andb_true_iff in Hv as [Hlen Hv]. apply Nat.eqb_eq in Hlen.
    revert c2 Hlen Hv Hp. induction c1 as [|x1 c1 IHc]; intros [|x2 c2] Hlen Hv Hp; try done.
    destruct Hp as [Hpx Hp]. cbn [flat_map].
    match type of Hv with context [?all c1 c2] =>
      assert (equiv_data (entry_value x1) (entry_value x2) = true /\ all c1 c2 = true) as [Hx Hv'] end.
    { destruct x1, x2. by apply andb_true_iff in Hv. }
    rewrite (IH x1 x2 Hx Hpx). f_equal. apply IHc; [by injection Hlen|done..].
Qed.

(** ** Inserting *)

Lemma position_Some {A} (f : A -> bool) l n : position f l = Some n -> exists x, l !! n = Some x /\ f x = true.
Proof.
  revert n. induction l as [|y l IH]; intros n; cbn; [done|]. destruct (f y) eqn:Hf.
  - intros [= <-]. by exists y.
  - intros (m & Hm & ->)%fmap_Some. by apply IH.
Qed.

Lemma position_None {A} (f : A -> bool) l : position f l = None -> existsb f l = false.
Proof.
  induction l as [|y l IH]; cbn; [done|]. destruct (f y); [done|]. cbn. intros Hn. apply IH.
  by destruct (position f l).
Qed.

Lemma find_or_push_spec values e values' n :
  find_or_push values e = (values', n) ->
  (exists e', values' !! n = Some e' /\ (e' = e \/ Entry_equiv e' e = true)) /\
  (values' = values \/ values' = values ++ [e]) /\ n <= length values.
Proof.
  unfold find_or_push. destruct (position _ values) as [m|] eqn:Hp; intros [= <- <-].
  - apply position_Some in Hp as (x & Hx & Hf). apply lookup_lt_Some in Hx as Hl. split_and!; [|by left|lia].
    exists x. auto.
  - split_and!; [|by right|done]. exists e. split; [by apply list_lookup_middle|by left].
Qed.

Lemma idx_u32_small n : (Z.of_nat n < 2 ^ 32)%Z -> Z.to_nat (idx_u32 n) = n.
Proof. intros Hn. unfold idx_u32. rewrite Z.mod_small by lia. lia. Qed.

Lemma insert_data_value_Ok ds e ds' id :
  insert_data_value ds e = (ds', id) -> (Z.of_nat (num_entries ds) < 2 ^ 32)%Z ->
  (exists e', DataSection_get ds' id = Some e' /\ (e' = e \/ Entry_equiv e' e = true)) /\
  (forall id' x, DataSection_get ds id' = Some x -> DataSection_get ds' id' = Some x).
Proof.
  intros Hi Hn. unfold insert_data_value in Hi. unfold num_entries in Hn.
  destruct (entry_name e) as [|nm].
  - destruct (find_or_push (non_configurables ds) e) as [values n] eqn:Hf. injection Hi as <- <-.
    apply find_or_push_spec in Hf as ((e' & He' & Hq) & Hv & Hle).
    split.
    + exists e'. unfold DataSection_get. cbn. rewrite idx_u32_small by lia. done.
    + intros id' x. unfold DataSection_get. cbn. destruct (kind id'); [|done].
      destruct Hv as [->| ->]; [done|]. apply lookup_app_l_Some.
  - destruct (find_or_push (configurables ds) e) as [values n] eqn:Hf. injection Hi as <- <-.
    apply find_or_push_spec in Hf as ((e' & He' & Hq) & Hv & Hle).
    split.
    + exists e'. unfold DataSection_get. cbn. rewrite idx_u32_small by lia. done.
    + intros id' x. unfold DataSection_get. cbn. destruct (kind id'); [done|].
      destruct Hv as [->| ->]; [done|]. apply lookup_app_l_Some.
Qed.

(** ** Offsets *)

Definition offset_from (o : nat) (l : list Entry) : nat :=
  foldl (fun offset entry => round_up (offset + length (to_bytes entry))) o l.

Lemma round_up_add8 n : round_up (n + 8) = round_up n + 8.
Proof.
  unfold round_up. replace (n + 8 + 7) with (n + 7 + 1 * 8) by lia. rewrite Nat.Div0.mod_add.
  pose proof (Nat.Div0.mod_le (n + 7) 8). lia.
Qed.

Lemma offset_from_add8 l o : offset_from (o + 8) l = offset_from o l + 8.
Proof.
  revert o. induction l as [|e l IH]; intros o; cbn; [done|].
  replace (o + 8 + length (to_bytes e)) with (o + length (to_bytes e) + 8) by lia. by rewrite round_up_add8, IH.
Qed.

Lemma offset_from_word o w name : o mod 8 = 0 -> offset_from o [new_word w name None] = o + 8.
Proof.
  intros Ho. cbn. rewrite round_up_add8, (round_up_aligned o Ho). done.
Qed.

Lemma data_id_to_offset_cases ds id :
  data_id_to_offset ds id =
  match kind id with
  | NonConfigurable => offset_from 0 (take (Z.to_nat (idx id)) (non_configurables ds ++ configurables ds))
  | Configurable => offset_from (offset_from 0 (non_configurables ds)) (take (Z.to_nat (idx id)) (configurables ds))
  end.
Proof.
  unfold data_id_to_offset, absolute_idx_to_offset, absolute_idx, iter_all_entries, offset_from.
  destruct (kind id); [done|]. rewrite <- foldl_app. do 2 f_equal.
  rewrite take_app_ge by lia. do 2 f_equal. lia.
Qed.

(** A new word moves the configurable entries by one word. *)
Lemma push_word_offsets nc c p w id e :
  let ds := mkDataSection nc c p in
  let ds' := mkDataSection (nc ++ [new_word w NamedNonConfigurable None]) c p in
  DataSection_get ds id = Some e ->
  data_id_to_offset ds' id =
    match kind id with NonConfigurable => data_id_to_offset ds id | Configurable => data_id_to_offset ds id + 8 end.
Proof.
  cbn. rewrite !data_id_to_offset_cases. unfold DataSection_get. cbn. destruct (kind id); intros He.
  - apply lookup_lt_Some in He. rewrite <- app_assoc. rewrite !take_app_le by lia. done.
  - unfold offset_from at 2. rewrite foldl_app. fold (offset_from 0 nc).
    change (offset_from (offset_from (offset_from 0 nc) [new_word w NamedNonConfigurable None])
      (take (Z.to_nat (idx id)) c) = offset_from (offset_from 0 nc) (take (Z.to_nat (idx id)) c) + 8).
    rewrite offset_from_word by (by apply offset_aligned). apply offset_from_add8.
Qed.

(** What inserting a word does to the words and the offsets of the section *)
Lemma insert_word_spec ds w ds' id :
  insert_data_value ds (new_word w NamedNonConfigurable None) = (ds', id) -> (Z.of_nat (num_entries ds) < 2 ^ 32)%Z ->
  get_data_word ds' id = Some w /\
  num_entries ds' = num_entries ds +
    (if existsb (fun entry => Entry_equiv entry (new_word w NamedNonConfigurable None)) (non_configurables ds)
     then 0 else 1) /\
  (forall id' e, DataSection_get ds id' = Some e -> kind id' = NonConfigurable ->
     data_id_to_offset ds' id' = data_id_to_offset ds id') /\
  (forall id' e, DataSection_get ds id' = Some e -> kind id' = Configurable ->
     data_id_to_offset ds' id' = data_id_to_offset ds id' +
       if existsb (fun entry => Entry_equiv entry (new_word w NamedNonConfigurable None)) (non_configurables ds)
       then 0 else 8).
Proof.
  set (e0 := new_word w NamedNonConfigurable None). intros Hi Hn.
  destruct (insert_data_value_Ok ds e0 ds' id Hi Hn) as [(e' & He' & Hq) _]. split.
  { unfold get_data_word. rewrite He'. destruct Hq as [->|[Hq _]%andb_true_iff]; [done|].
    destruct e' as [[]]; try done. cbn in Hq. by apply Z.eqb_eq in Hq as ->. }
  unfold insert_data_value, find_or_push in Hi. cbn in Hi.
  destruct ds as [nc c p]. cbn [non_configurables configurables pointer_id] in *.
  destruct (position (fun entry => Entry_equiv entry e0) nc) as [n|] eqn:Hp; injection Hi as <- <-.
  - apply position_Some in Hp as (x & Hx & Hf).
    assert (existsb (fun entry => Entry_equiv entry e0) nc = true) as ->.
    { apply existsb_exists. exists x. split; [|done]. apply list_elem_of_In. by apply list_elem_of_lookup_2 in Hx. }
    split; [by rewrite Nat.add_0_r|].
    split; intros id' e _ _; [done|]. by rewrite Nat.add_0_r.
  - rewrite (position_None _ _ Hp). split; [unfold num_entries; cbn; rewrite length_app; cbn; lia|].
    split; intros id' e Hg Hk; pose proof (push_word_offsets nc c p w id' e Hg) as Ho;
      rewrite Hk in Ho; exact Ho.
Qed.

(** The bytes of an entry in the serialized section *)
Lemma serialized_entry ds k e :
  iter_all_entries ds !! k = Some e ->
  take (length (to_bytes e)) (drop (absolute_idx_to_offset ds k) (serialize_to_bytes ds)) = to_bytes e.
Proof.
  intros He. unfold serialize_to_bytes. rewrite <- (take_drop_middle _ _ _ He), foldl_app. cbn [foldl].
  unfold absolute_idx_to_offset. rewrite <- (length_append_entries _ []).
  set (buf := foldl append_entry [] (take k (iter_all_entries ds))).
  destruct (append_entries_prefix (drop (S k) (iter_all_entries ds)) (append_entry buf e)) as [rest ->].
  unfold append_entry. rewrite <- !app_assoc, drop_app_length. apply take_app_length.
Qed.

Lemma data_id_to_offset_aligned ds id : data_id_to_offset ds id mod 8 = 0.
Proof. by apply offset_aligned. Qed.

(** ** Theorems *)

(** C22. The bytes of an entry of the data section are found in the serialized
    section at the offset that is computed for the id of the entry, and the
    offset is aligned to words. *)
Theorem serialized_entry_at_offset ds id e :
  DataSection_get ds id = Some e ->
  data_id_to_offset ds id mod 8 = 0 /\
  take (length (to_bytes e)) (drop (data_id_to_offset ds id) (serialize_to_bytes ds)) = to_bytes e.
Proof.
  intros He%absolute_idx_lookup. split; [apply data_id_to_offset_aligned|]. by apply serialized_entry.
Qed.

Definition sample_section : DataSection := mkDataSection
  [new_byte 7 NamedNonConfigurable None; new_byte_array [1; 2; 3]%Z NamedNonConfigurable None]
  [new_word 258 (NamedConfigurable "LIMIT") None] ∅.

Lemma serialized_entry_at_offset_witness :
  data_id_to_offset sample_section (mkDataId 0 Configurable) = 16 /\
  take 8 (drop 16 (serialize_to_bytes sample_section)) = [0; 0; 0; 0; 0; 0; 1; 2]%Z.
Proof.
  split; [reflexivity|].
  exact (proj2 (serialized_entry_at_offset sample_section (mkDataId 0 Configurable)
    (new_word 258 (NamedConfigurable "LIMIT") None) eq_refl)).
Defined.

(** The id that [insert_data_value] returns refers to an entry of the new
    section whose bytes are those of the given entry, provided that the entry
    found has the same paddings; the ids that exist before keep their entries. *)
Theorem insert_data_value_get ds e ds' id :
  insert_data_value ds e = (ds', id) -> (Z.of_nat (num_entries ds) < 2 ^ 32)%Z ->
  (exists e', DataSection_get ds' id = Some e' /\ (same_padding e' e -> to_bytes e' = to_bytes e)) /\
  (forall id' x, DataSection_get ds id' = Some x -> DataSection_get ds' id' = Some x).
Proof.
  intros Hi Hn. destruct (insert_data_value_Ok ds e ds' id Hi Hn) as [(e' & He' & Hq) Hold]. split; [|done].
  exists e'. split; [done|]. intros Hp. destruct Hq as [->|Hq]; [done|].
  apply andb_true_iff in Hq as [Hq _]. by apply equiv_data_bytes.
Qed.

Lemma insert_data_value_get_witness :
  exists e', DataSection_get (insert_data_value sample_section (new_byte 7 NamedNonConfigurable None)).1
    (mkDataId 0 NonConfigurable) = Some e' /\
  (same_padding e' (new_byte 7 NamedNonConfigurable None) -> to_bytes e' = [7%Z]).
Proof.
  exact (proj1 (insert_data_value_get sample_section (new_byte 7 NamedNonConfigurable None)
    (insert_data_value sample_section (new_byte 7 NamedNonConfigurable None)).1
    (mkDataId 0 NonConfigurable) eq_refl eq_refl)).
Defined.

(** [append_pointer] records the pointer and its value, and does not move
    non-configurable entries.  Configurable entries are moved by one word when
    the pointer is new, although the documentation says that no offset of
    previous data is altered. *)
Theorem append_pointer_offsets ds w ds' id :
  append_pointer ds w = (ds', id) -> (Z.of_nat (num_entries ds) < 2 ^ 32)%Z ->
  data_id_of_pointer ds' w = Some id /\ get_data_word ds' id = Some w /\
  (forall id' e, DataSection_get ds id' = Some e -> kind id' = NonConfigurable ->
     data_id_to_offset ds' id' = data_id_to_offset ds id') /\
  (forall id' e, DataSection_get ds id' = Some e -> kind id' = Configurable ->
     data_id_to_offset ds' id' = data_id_to_offset ds id' +
       if existsb (fun entry => Entry_equiv entry (new_word w NamedNonConfigurable None)) (non_configurables ds)
       then 0 else 8).
Proof.
  unfold append_pointer. destruct (insert_data_value ds _) as [ds1 id1] eqn:Hi. intros [= <- <-] Hn.
  destruct (insert_word_spec ds w ds1 id1 Hi Hn) as (Hw & _ & Hnc & Hc).
  split; [apply lookup_insert_eq|]. split; [done|]. by split.
Qed.

Lemma append_pointer_offsets_witness :
  data_id_to_offset (append_pointer sample_section 4096).1 (mkDataId 0 Configurable) = 24.
Proof.
  exact (proj2 (proj2 (proj2 (append_pointer_offsets sample_section 4096 _ _ eq_refl eq_refl)))
    (mkDataId 0 Configurable) _ eq_refl eq_refl).
Defined.

(** Equivalent entries are merged although their paddings differ: the
    constant array [[1, 2]] of bytes and a constant structure of two bytes get the
    same id, with the bytes of the array. *)
Lemma insert_data_value_merges_paddings :
  let array := new_collection [new_byte 1 NamedNonConfigurable None; new_byte 2 NamedNonConfigurable None]
    NamedNonConfigurable None in
  let struct := new_collection [new_byte 1 NamedNonConfigurable (Some (PadRight 8));
    new_byte 2 NamedNonConfigurable (Some (PadRight 8))] NamedNonConfigurable None in
  let '(ds, id) := insert_data_value (mkDataSection [] [] ∅) array in
  let '(ds', id') := insert_data_value ds struct in
  id' = id /\ DataSection_get ds' id' = Some array /\
  to_bytes array = [1; 2]%Z /\ to_bytes struct = [1; 0; 0; 0; 0; 0; 0; 0; 2; 0; 0; 0; 0; 0; 0; 0]%Z.
Proof. by vm_compute. Qed.

(** * Growing data sections

    The realization of far jumps and the emission of bytecode insert words in the
    data section.  The entries that instructions refer to stay: their ids are valid,
    and the non-configurable ones do not move. *)

Local Open Scope Z_scope.

Record extends (ds ds' : DataSection) : Prop := {
  ext_get id e : DataSection_get ds id = Some e -> DataSection_get ds' id = Some e;
  ext_offset id e : DataSection_get ds id = Some e -> kind id = NonConfigurable ->
    data_id_to_offset ds' id = data_id_to_offset ds id;
  ext_mono id e : DataSection_get ds id = Some e -> (data_id_to_offset ds id <= data_id_to_offset ds' id)%nat;
  ext_bound id e : DataSection_get ds id = Some e ->
    (data_id_to_offset ds' id <= data_id_to_offset ds id + 8 * (num_entries ds' - num_entries ds))%nat;
  ext_size : (num_entries ds <= num_entries ds')%nat
}.

Lemma extends_refl ds : extends ds ds.
Proof. split; intros; done || lia. Qed.

Lemma extends_trans ds1 ds2 ds3 : extends ds1 ds2 -> extends ds2 ds3 -> extends ds1 ds3.
Proof.
  intros [G1 O1 M1 B1 S1] [G2 O2 M2 B2 S2]. split; [by auto| | | |lia].
  - intros id e Hg Hk. rewrite (O2 id e (G1 id e Hg) Hk). by eapply O1.
  - intros id e Hg. transitivity (data_id_to_offset ds2 id); [by eapply M1|by eapply M2, G1].
  - intros id e Hg. specialize (B1 id e Hg). specialize (B2 id e (G1 id e Hg)). lia.
Qed.

#[export] Hint Resolve extends_refl extends_trans : sway.

Lemma insert_word_extends ds w ds' id :
  insert_data_value ds (new_word w NamedNonConfigurable None) = (ds', id) -> Z.of_nat (num_entries ds) < 2 ^ 32 ->
  extends ds ds' /\ get_data_word ds' id = Some w.
Proof.
  intros Hi Hn. destruct (insert_word_spec ds w ds' id Hi Hn) as (Hw & Hs & Hnc & Hc).
  destruct (insert_data_value_Ok ds _ ds' id Hi Hn) as [_ Hg]. split; [|done].
  split; [done|done|..|lia]; intros id' e He; (destruct (kind id') eqn:Hk; [rewrite (Hnc id' e He Hk); lia|]);
    rewrite (Hc id' e He Hk); destruct (existsb _ _); lia.
Qed.

Lemma extends_word ds ds' id w : extends ds ds' -> get_data_word ds id = Some w -> get_data_word ds' id = Some w.
Proof.
  intros Hx. unfold get_data_word. destruct (DataSection_get ds id) as [e|] eqn:He; [|done].
  by rewrite (ext_get _ _ Hx id e He).
Qed.

Lemma extends_is_Some ds ds' id : extends ds ds' -> is_Some (DataSection_get ds id) -> is_Some (DataSection_get ds' id).
Proof. intros Hx [e He]. exists e. by apply (ext_get _ _ Hx). Qed.

Lemma extends_copy_type ds ds' id :
  extends ds ds' -> is_Some (DataSection_get ds id) -> has_copy_type ds' id = has_copy_type ds id.
Proof. intros Hx [e He]. unfold has_copy_type. by rewrite He, (ext_get _ _ Hx id e He). Qed.

Lemma insert_data_value_size ds e :
  (num_entries ds <= num_entries (insert_data_value ds e).1 <= num_entries ds + 1)%nat.
Proof.
  unfold insert_data_value, find_or_push, num_entries.
  destruct (entry_name e); destruct (position _ _); cbn; rewrite ?length_app; cbn; lia.
Qed.

(** ** Addresses of entries *)

(** Whether the offset of an entry needs a second instruction *)
Definition far_entry (ds : DataSection) (id : DataId) : bool := 4095 <? Z.of_nat (data_id_to_offset ds id).

(** Inserting words does not move the entry over the limit of an immediate. *)
Definition stable_address (ds ds' : DataSection) (id : DataId) : Prop := far_entry ds' id = far_entry ds id.

Lemma stable_NonConfigurable ds ds' id :
  extends ds ds' -> is_Some (DataSection_get ds id) -> kind id = NonConfigurable -> stable_address ds ds' id.
Proof. intros Hx [e He] Hk. unfold stable_address, far_entry. by rewrite (ext_offset _ _ Hx id e He Hk). Qed.

Lemma stable_address_between ds0 ds ds' id :
  extends ds0 ds -> extends ds ds' -> is_Some (DataSection_get ds0 id) ->
  stable_address ds0 ds' id -> stable_address ds0 ds id.
Proof.
  intros Hx Hx' [e He]. unfold stable_address, far_entry. pose proof (ext_mono _ _ Hx id e He) as H1.
  pose proof (ext_mono _ _ Hx' id e (ext_get _ _ Hx id e He)) as H2.
  destruct (Z.ltb_spec 4095 (Z.of_nat (data_id_to_offset ds id))), (Z.ltb_spec 4095 (Z.of_nat (data_id_to_offset ds0 id))),
    (Z.ltb_spec 4095 (Z.of_nat (data_id_to_offset ds' id))); done || lia.
Qed.

(** The entry does not move over the limit when at most [n] words are inserted. *)
Definition has_room (n : nat) (ds : DataSection) (id : DataId) : Prop :=
  kind id = NonConfigurable \/ 4095 < Z.of_nat (data_id_to_offset ds id) \/
  Z.of_nat (data_id_to_offset ds id) + 8 * Z.of_nat n <= 4095.

Lemma has_room_stable n ds ds' id :
  extends ds ds' -> is_Some (DataSection_get ds id) -> (num_entries ds' <= num_entries ds + n)%nat ->
  has_room n ds id -> stable_address ds ds' id.
Proof.
  intros Hx [e He] Hn Hr. pose proof (ext_mono _ _ Hx id e He). pose proof (ext_bound _ _ Hx id e He).
  destruct Hr as [Hk|Hr]; [by apply stable_NonConfigurable|]. unfold stable_address, far_entry.
  destruct (Z.ltb_spec 4095 (Z.of_nat (data_id_to_offset ds id))),
    (Z.ltb_spec 4095 (Z.of_nat (data_id_to_offset ds' id))); done || lia.
Qed.

(** ** Pointers *)

(** The recorded pointers are words of the section. *)
Definition pointers_ok (ds : DataSection) : Prop :=
  forall w id, pointer_id ds !! w = Some id -> get_data_word ds id = Some w.

Lemma append_pointer_extends ds w :
  Z.of_nat (num_entries ds) < 2 ^ 32 -> pointers_ok ds ->
  let ds' := (append_pointer ds w).1 in
  extends ds ds' /\ pointers_ok ds' /\ is_Some (pointer_id ds' !! w) /\
  (forall w', is_Some (pointer_id ds !! w') -> is_Some (pointer_id ds' !! w')) /\
  (num_entries ds' <= num_entries ds + 1)%nat.
Proof.
  intros Hn Hp. unfold append_pointer. destruct (insert_data_value ds _) as [ds1 id] eqn:Hi. cbn.
  destruct (insert_word_extends _ _ _ _ Hi Hn) as [Hx Hw].
  destruct (insert_word_spec _ _ _ _ Hi Hn) as (_ & Hs & _).
  assert (extends ds (mkDataSection (non_configurables ds1) (configurables ds1) (<[w := id]> (pointer_id ds1)))) as Hx'
    by (by destruct Hx; split).
  assert (pointer_id ds1 = pointer_id ds) as Hpi.
  { unfold insert_data_value, find_or_push in Hi. cbn in Hi. by destruct (position _ _); injection Hi as <-. }
  split; [done|]. split; [|split; [|split]].
  - intros w' id' Hw'. cbn in Hw'. destruct (decide (w' = w)) as [->|Hne].
    + rewrite lookup_insert_eq in Hw'. by injection Hw' as <-.
    + rewrite lookup_insert_ne in Hw' by done. rewrite Hpi in Hw'. by apply (extends_word ds), Hp.
  - cbn. rewrite lookup_insert_eq. by eexists.
  - intros w' Hw'. cbn. rewrite Hpi. by apply lookup_insert_is_Some'; right.
  - unfold num_entries in *. cbn. destruct (existsb _ _); lia.
Qed.
