(* ===== verification/IrConstant.v ===== *)
(** * Integers of 256 bits and the constants of the IR

    [sway-types/src/u256.rs]: a wrapper around the big integers of the crate [num_bigint],
    which are natural numbers and here [Z].  The operations keep a number below [2 ^ 256]
    or fail; the theorem relates them to modular arithmetic.  Then
    [sway-ir/src/constant.rs] and [Entry::from_constant] of [data_section.rs], which turns a
    constant into an entry of the data section.  Bytes and integers are [Z]; the hash of a
    constant is a parameter. *)

From S2P Require Import Prelude IrTypes AsmRegister AsmData.
Local Open Scope Z_scope.

(** ** Bytes *)

(** The last [k] bytes of a number, the most significant one first *)
Fixpoint be_bytes (k : nat) (n : Z) : list Z :=
  match k with O => [] | S k' => be_bytes k' (n / 256) ++ [n mod 256] end.

(** [BigUint::to_bytes_be], with at least one byte, and [BigUint::from_bytes_be] *)
Definition to_bytes_be (n : Z) : list Z := be_bytes (Z.to_nat (Z.log2 n / 8) + 1) n.
Definition be_value (l : list Z) : Z := foldl (fun n b => 256 * n + b) 0 l.

Definition U256_from_be_bytes (bytes : list Z) : Z := be_value bytes.
Definition U256_to_be_bytes (n : Z) : Result (list Z) :=
  let v := to_bytes_be n in
  if (length v <=? 32)%nat then Ok (replicate (32 - length v) 0 ++ v)
  else Err (Panic "attempt to subtract with overflow").

(** ** Operations *)

(** [BigUint::bits] *)
Definition bits (n : Z) : Z := if n =? 0 then 0 else Z.log2 n + 1.
Definition fits (r : Z) : option Z := if bits r <=? 256 then Some r else None.

Definition U256_checked_add (self other : Z) : option Z := fits (self + other).
Definition U256_checked_sub (self other : Z) : option Z := if other <=? self then Some (self - other) else None.
Definition U256_checked_mul (self other : Z) : option Z := fits (self * other).
Definition U256_checked_div (self other : Z) : option Z := if negb (other =? 0) then Some (self / other) else None.
Definition U256_shr (self other : Z) : Z := Z.shiftr self other.
Definition U256_checked_shl (self other : Z) : option Z := fits (Z.shiftl self other).
Definition U256_checked_rem (self other : Z) : option Z := if other =? 0 then None else Some (self mod other).
Definition U256_bitand (self rhs : Z) : Z := Z.land self rhs.
Definition U256_bitor (self rhs : Z) : Z := Z.lor self rhs.
Definition U256_bitxor (self rhs : Z) : Z := Z.lxor self rhs.
Definition U256_rem (self rhs : Z) : Result Z := if rhs =? 0 then Err (Panic "attempt to divide by zero") else Ok (self mod rhs).
Definition U256_not (self : Z) : Result Z :=
  bytes ← U256_to_be_bytes self;
  Ok (be_value (map (fun b => 255 - b) bytes)).

(** [u64::try_from], without the text of the error *)
Definition U256_try_into_u64 (value : Z) : option Z := if value <? 2 ^ 64 then Some value else None.

(** ** Bytes and values *)

Lemma be_bytes_length k n : length (be_bytes k n) = k.
Proof. revert n. induction k as [|k IH]; intros n; cbn; [done|]. rewrite length_app, IH. cbn. lia. Qed.

(** Leading zero bytes *)
Lemma be_bytes_zeros j k n : 0 <= n < 2 ^ (8 * Z.of_nat k) -> be_bytes (j + k) n = replicate j 0 ++ be_bytes k n.
Proof.
  revert n. induction k as [|k IH]; intros n Hn.
  - replace n with 0 by (cbn in Hn; lia). rewrite Nat.add_0_r, app_nil_r. clear. induction j as [|j IH]; [done|].
    change (be_bytes (S j) 0) with (be_bytes j 0 ++ [0]). rewrite IH. by rewrite <- replicate_cons_app.
  - rewrite Nat.add_succ_r. cbn. rewrite IH, app_assoc; [done|]. split; [apply Z.div_pos; lia|]. apply Z.div_lt_upper_bound; [lia|].
    replace (256 * 2 ^ (8 * Z.of_nat k)) with (2 ^ (8 * Z.of_nat (S k))); [lia|]. rewrite Nat2Z.inj_succ.
    replace (8 * Z.succ (Z.of_nat k)) with (8 + 8 * Z.of_nat k) by lia. rewrite Z.pow_add_r by lia. done.
Qed.

Lemma U256_to_be_bytes_Ok n : 0 <= n < 2 ^ 256 -> U256_to_be_bytes n = Ok (be_bytes 32 n).
Proof.
  intros Hn. unfold U256_to_be_bytes, to_bytes_be. set (k := (Z.to_nat (Z.log2 n / 8) + 1)%nat). rewrite be_bytes_length.
  assert (0 <= Z.log2 n <= 255) as Hlog.
  { split; [apply Z.log2_nonneg|]. destruct (decide (n = 0)) as [->|]; [done|]. apply Z.lt_succ_r, Z.log2_lt_pow2; lia. }
  assert (0 <= Z.log2 n / 8 <= 31) as Hdiv by (Z.div_mod_to_equations; lia).
  assert (k <= 32)%nat as Hk by (unfold k; lia). rewrite (proj2 (Nat.leb_le k 32)) by done. f_equal.
  rewrite <- be_bytes_zeros; [f_equal; lia|]. split; [lia|]. destruct (decide (n = 0)) as [->|Hne]; [apply Z.pow_pos_nonneg; lia|].
  apply Z.log2_lt_pow2; [lia|]. unfold k. rewrite Nat2Z.inj_add, Z2Nat.id by lia. Z.div_mod_to_equations. lia.
Qed.

Lemma be_value_snoc l b : be_value (l ++ [b]) = 256 * be_value l + b.
Proof. unfold be_value. by rewrite foldl_app. Qed.

Lemma be_bytes_value l : Forall (fun b => 0 <= b < 256) l -> be_bytes (length l) (be_value l) = l.
Proof.
  induction l as [|b l IH] using rev_ind; [done|]. intros [Hl Hb]%Forall_app. rewrite Forall_singleton in Hb. rewrite length_app, Nat.add_comm, be_value_snoc.
  cbn [Nat.add length be_bytes]. replace ((256 * be_value l + b) / 256) with (be_value l) by (Z.div_mod_to_equations; lia).
  replace ((256 * be_value l + b) mod 256) with b by (Z.div_mod_to_equations; lia). by rewrite IH.
Qed.

Lemma be_bytes_range k n : Forall (fun b => 0 <= b < 256) (be_bytes k n).
Proof. revert n. induction k as [|k IH]; intros n; cbn; [constructor|]. apply Forall_app. split; [apply IH|]. constructor; [|done]. apply Z.mod_pos_bound. lia. Qed.

Lemma be_value_nonneg l : Forall (fun b => 0 <= b < 256) l -> 0 <= be_value l.
Proof.
  induction l as [|b l IH] using rev_ind; [done|]. intros [Hl Hb]%Forall_app. rewrite Forall_singleton in Hb. rewrite be_value_snoc. specialize (IH Hl). lia.
Qed.

Lemma be_value_bytes k n : 0 <= n < 2 ^ (8 * Z.of_nat k) -> be_value (be_bytes k n) = n.
Proof.
  revert n. induction k as [|k IH]; intros n Hn; [cbn in *; lia|]. cbn [be_bytes]. rewrite be_value_snoc, IH; [Z.div_mod_to_equations; lia|].
  rewrite Nat2Z.inj_succ in Hn. replace (8 * Z.succ (Z.of_nat k)) with (8 + 8 * Z.of_nat k) in Hn by lia. rewrite Z.pow_add_r in Hn by lia.
  split; [apply Z.div_pos; lia|apply Z.div_lt_upper_bound; lia].
Qed.

Lemma be_value_not l : be_value (map (fun b => 255 - b) l) = 2 ^ (8 * Z.of_nat (length l)) - 1 - be_value l.
Proof.
  induction l as [|b l IH] using rev_ind; [done|]. rewrite map_app. cbn [map]. rewrite !be_value_snoc, IH, length_app. cbn [length].
  rewrite Nat2Z.inj_add, Z.mul_add_distr_l, Z.pow_add_r by lia. change (2 ^ (8 * Z.of_nat 1)) with 256. lia.
Qed.

Lemma bits_fits r : 0 <= r -> fits r = if r <? 2 ^ 256 then Some r else None.
Proof.
  intros Hr. unfold fits, bits. destruct (Z.eqb_spec r 0) as [->|Hne]; [done|].
  destruct (Z.ltb_spec r (2 ^ 256)) as [Hlt|Hge].
  - apply Z.log2_lt_pow2 in Hlt; [|lia]. by rewrite (proj2 (Z.leb_le _ _)) by lia.
  - apply Z.log2_le_pow2 in Hge; [|lia]. by rewrite (proj2 (Z.leb_gt _ _)) by lia.
Qed.

Definition is_u256 (n : Z) : Prop := 0 <= n < 2 ^ 256.

Lemma bitops_bound k a b : 0 <= k -> 0 <= a < 2 ^ k -> 0 <= b < 2 ^ k ->
  0 <= Z.land a b < 2 ^ k /\ 0 <= Z.lor a b < 2 ^ k /\ 0 <= Z.lxor a b < 2 ^ k.
Proof.
  intros Hk Ha Hb. pose proof (Z.pow_pos_nonneg 2 k ltac:(lia) Hk) as Hpos.
  assert (forall n, 0 <= n < 2 ^ k <-> 0 <= n /\ n = n mod 2 ^ k) as Hiff.
  { intros n. split; [intros; split; [lia|by rewrite Z.mod_small]|]. intros [? ->]. by apply Z.mod_pos_bound. }
  rewrite !Hiff. apply Hiff in Ha as [Ha Ha'], Hb as [Hb Hb'].
  assert (0 <= Z.land a b /\ 0 <= Z.lor a b /\ 0 <= Z.lxor a b) as (? & ? & ?).
  { rewrite Z.land_nonneg, Z.lor_nonneg, Z.lxor_nonneg. lia. }
  rewrite <- !Z.land_ones by lia. rewrite <- !Z.land_ones in Ha', Hb' by lia.
  split_and!; [done| |done| |done|]; rewrite Ha', Hb' at 1; apply Z.bits_inj'; intros n Hn; rewrite ?Z.land_spec, ?Z.lor_spec, ?Z.lxor_spec, ?Z.land_spec;
    destruct (Z.testbit a n), (Z.testbit b n), (Z.testbit (Z.ones k) n); done.
Qed.

(** 256-bit integers: a number below [2 ^ 256] is written to 32 bytes and read back; the
    checked operations return the exact result when it is below [2 ^ 256] and nothing
    otherwise, the bit operations and shifts stay below [2 ^ 256], and [!] is the
    complement. *)
Theorem U256_operations_correct a b n :
  is_u256 a -> is_u256 b -> 0 <= n ->
  (exists bytes, U256_to_be_bytes a = Ok bytes /\ length bytes = 32%nat /\ U256_from_be_bytes bytes = a) /\
  U256_checked_add a b = (if a + b <? 2 ^ 256 then Some (a + b) else None) /\
  U256_checked_sub a b = (if 0 <=? a - b then Some (a - b) else None) /\
  U256_checked_mul a b = (if a * b <? 2 ^ 256 then Some (a * b) else None) /\
  U256_checked_shl a n = (if a * 2 ^ n <? 2 ^ 256 then Some (a * 2 ^ n) else None) /\
  (U256_shr a n = a / 2 ^ n /\ is_u256 (U256_shr a n)) /\
  (is_u256 (U256_bitand a b) /\ is_u256 (U256_bitor a b) /\ is_u256 (U256_bitxor a b)) /\
  U256_not a = Ok (2 ^ 256 - 1 - a).
Proof.
  intros Ha Hb Hn. unfold U256_not, U256_from_be_bytes. rewrite (U256_to_be_bytes_Ok a Ha). next_step. rewrite be_value_not, be_bytes_length.
  change (8 * Z.of_nat 32) with 256. rewrite be_value_bytes by exact Ha. unfold is_u256 in Ha, Hb.
  unfold U256_checked_add, U256_checked_sub, U256_checked_mul, U256_checked_shl, U256_shr. rewrite Z.shiftl_mul_pow2, Z.shiftr_div_pow2 by done.
  rewrite !bits_fits by nia.
  split_and!; [|done| |done|done|done| |by apply (bitops_bound 256)..|done].
  - exists (be_bytes 32 a). split_and!; [done|apply be_bytes_length|by apply be_value_bytes].
  - destruct (Z.leb_spec b a), (Z.leb_spec 0 (a - b)); done || lia.
  - pose proof (Z.pow_pos_nonneg 2 n ltac:(lia) Hn). split; [apply Z.div_pos; lia|apply Z.div_lt_upper_bound; nia].
Qed.

Lemma U256_operations_correct_witness : U256_checked_add (2 ^ 255) (2 ^ 255) = (if 2 ^ 255 + 2 ^ 255 <? 2 ^ 256 then Some (2 ^ 255 + 2 ^ 255) else None).
Proof. apply (U256_operations_correct (2 ^ 255) (2 ^ 255) 0); (unfold is_u256; lia). Defined.

(** ** Constants *)

Inductive ConstantContent : Type :=
  | mkConstant (ty : Ty) (value : ConstantValue)
with ConstantValue : Type :=
  | CUndef
  | CUnit
  | CBool (b : bool)
  | CUint (n : Z)
  | CU256 (n : Z)
  | CB256 (n : Z)
  | CString (bytes : list Z)
  | CArray (elems : list ConstantContent)
  | CSlice (elems : list ConstantContent)
  | CStruct (elems : list ConstantContent)
  | CReference (content : ConstantContent)
  | CRawUntypedSlice (bytes : list Z).

Definition cty (c : ConstantContent) : Ty := match c with mkConstant ty _ => ty end.
Definition cvalue (c : ConstantContent) : ConstantValue := match c with mkConstant _ v => v end.

(** Constructors, with the context when they create a type *)
Definition Constant_new_unit (context : Context) : Result ConstantContent := ty ← get_unit context; Ok (mkConstant ty CUnit).
Definition Constant_new_bool (context : Context) (b : bool) : Result ConstantContent := ty ← get_bool context; Ok (mkConstant ty (CBool b)).
Definition Constant_new_b256 (context : Context) (bytes : list Z) : Result ConstantContent :=
  ty ← get_b256 context; Ok (mkConstant ty (CB256 (U256_from_be_bytes bytes))).
Definition Constant_get_undef (ty : Ty) : ConstantContent := mkConstant ty CUndef.

Section constructors.
Context `{SlotMap} (context : Context).

Definition Constant_new_uint (nbits n : Z) : Context * ConstantContent :=
  let '(context, ty) := new_uint context nbits in
  (context, mkConstant ty (if nbits =? 256 then CU256 n else CUint n)).
Definition Constant_new_uint256 (n : Z) : Context * ConstantContent :=
  let '(context, ty) := new_uint context 256 in (context, mkConstant ty (CU256 n)).
Definition Constant_new_string (bytes : list Z) : Context * ConstantContent :=
  let '(context, ty) := new_string_array context (Z.of_nat (length bytes)) in (context, mkConstant ty (CString bytes)).
Definition Constant_new_array (elm_ty : Ty) (elems : list ConstantContent) : Context * ConstantContent :=
  let '(context, ty) := new_array context elm_ty (Z.of_nat (length elems)) in (context, mkConstant ty (CArray elems)).
Definition Constant_new_struct (field_tys : list Ty) (fields : list ConstantContent) : Context * ConstantContent :=
  let '(context, ty) := new_struct context field_tys in (context, mkConstant ty (CStruct fields)).
End constructors.

Section content.
Context (context : Context).

(** [ConstantContent::eq].  The types are compared with [Type::eq]. *)
Fixpoint Constant_eq (self other : ConstantContent) {struct self} : Result bool :=
  match self, other with
  | mkConstant ty value, mkConstant ty' value' =>
      t ← Type_eq context ty ty';
      if negb t then Ok false
      else
        match value, value' with
        | CUndef, _ | _, CUndef => Ok false
        | CUnit, CUnit => Ok true
        | CBool l, CBool r => Ok (Bool.eqb l r)
        | CUint l, CUint r | CU256 l, CU256 r | CB256 l, CB256 r => Ok (l =? r)
        | CString l, CString r => Ok (bool_decide (l = r))
        | CArray l, CArray r | CStruct l, CStruct r =>
            (fix all (l r : list ConstantContent) : Result bool :=
               match l, r with
               | x :: l', y :: r' => b ← Constant_eq x y; if (b : bool) then all l' r' else Ok false
               | _, _ => Ok true
               end) l r
        | _, _ => Ok false
        end
  end.

Definition as_uint (self : ConstantContent) : option Z := match cvalue self with CUint v => Some v | _ => None end.

(** ** Elements with paddings *)

Definition extract_enum_tag_and_value (self : ConstantContent) : Result (option (ConstantContent * ConstantContent)) :=
  e ← is_enum context (cty self);
  Ok (if (e : bool) then match cvalue self with CStruct [tag; value] => Some (tag, value) | _ => None end else None).

(** The aligned size of a type as a target size *)
Definition aligned_target (ty : Ty) : Result nat := s ← Type_size context ty; n ← in_bytes_aligned s; Ok (Z.to_nat n).

Definition elements_of_aggregate_with_padding (self : ConstantContent) : Result (option (list (ConstantContent * option Padding))) :=
  o ← extract_enum_tag_and_value self;
  match o with
  | Some (tag, value) =>
      field_tys ← get_field_types context (cty self);
      match field_tys !! 1%nat with
      | Some union_ty => target_size ← aligned_target union_ty; Ok (Some [(tag, None); (value, Some (PadLeft target_size))])
      | None => Err (Panic "index out of bounds")
      end
  | None =>
      match cvalue self with
      | CArray elems => Ok (Some (map (fun el => (el, None)) elems))
      | CStruct elems =>
          l ← traverse (fun el => target_size ← aligned_target (cty el); Ok (el, Some (PadRight target_size))) elems;
          Ok (Some l)
      | _ => Ok None
      end
  end.

Definition enum_tag_and_value_with_paddings (self : ConstantContent)
    : Result (option ((ConstantContent * option Padding) * (ConstantContent * option Padding))) :=
  e ← is_enum context (cty self);
  if (e : bool) then
    o ← elements_of_aggregate_with_padding self;
    match o with
    | None => Err (Panic "Enums are aggregates.")
    | Some (tag :: value :: _) => Ok (Some (tag, value))
    | Some _ => Err (Panic "index out of bounds")
    end
  else Ok None.

Definition array_elements_with_padding (self : ConstantContent) : Result (option (list (ConstantContent * option Padding))) :=
  a ← is_array context (cty self);
  if (a : bool) then elements_of_aggregate_with_padding self else Ok None.

Definition struct_fields_with_padding (self : ConstantContent) : Result (option (list (ConstantContent * option Padding))) :=
  s ← is_struct context (cty self);
  if (s : bool) then elements_of_aggregate_with_padding self else Ok None.

(** [expect] *)
Definition expect_some {A} (o : option A) (msg : string) : Result A := match o with Some a => Ok a | None => Err (Panic msg) end.

(** [Entry::from_constant] *)
Fixpoint from_constant (fuel : nat) (constant : ConstantContent) (name : EntryName) (padding : option Padding) : Result Entry :=
  match fuel with
  | O => Err OutOfFuel
  | S fuel' =>
      let elements l := traverse (fun p => from_constant fuel' p.1 NamedNonConfigurable p.2) l in
      e ← is_enum context (cty constant);
      if (e : bool) then
        o ← enum_tag_and_value_with_paddings constant;
        p ← expect_some o "Constant is an enum.";
        entries ← elements [p.1; p.2];
        Ok (new_collection entries name padding)
      else
        match cvalue constant with
        | CUndef | CUnit => Ok (new_byte 0 name padding)
        | CBool value => Ok (new_byte (if value then 1 else 0) name padding)
        | CUint value =>
            u8 ← is_uint8 context (cty constant);
            Ok (if (u8 : bool) then new_byte (value mod 256) name padding else new_word value name padding)
        | CU256 value | CB256 value => bytes ← U256_to_be_bytes value; Ok (new_byte_array bytes name padding)
        | CString bytes => Ok (new_byte_array bytes name padding)
        | CArray _ =>
            o ← array_elements_with_padding constant;
            l ← expect_some o "Constant is an array.";
            entries ← elements l;
            Ok (new_collection entries name padding)
        | CStruct _ =>
            o ← struct_fields_with_padding constant;
            l ← expect_some o "Constant is a struct.";
            entries ← elements l;
            Ok (new_collection entries name padding)
        | CRawUntypedSlice bytes => Ok (new_slice bytes name padding)
        | CReference _ => Err (Panic "not yet implemented: Constant references are currently not supported.")
        | CSlice _ => Err (Panic "not yet implemented: Constant slices are currently not supported.")
        end
  end.
End content.

(** The depth of a constant, which bounds the recursion *)
Fixpoint constant_depth (c : ConstantContent) : nat :=
  match c with
  | mkConstant _ v =>
      match v with
      | CArray l | CSlice l | CStruct l => S (foldr (fun c d => Nat.max (constant_depth c) d) 0%nat l)
      | CReference c => S (constant_depth c)
      | _ => 0%nat
      end
  end.

Definition Entry_from_constant (context : Context) (constant : ConstantContent) (name : EntryName) (padding : option Padding) : Result Entry :=
  from_constant context (S (constant_depth constant)) constant name padding.

(** ** Unique constants *)

(** The fields [constants] and [constants_map] of the context *)
Record Constants : Type := mkConstants { constants : gmap positive ConstantContent; constants_map : gmap Z (list positive) }.

Section unique.
Context `{SlotMap} (hash : ConstantContent -> Z) (context : Context).

Fixpoint find_equal (m : gmap positive ConstantContent) (constant : ConstantContent) (l : list positive) : Result (option positive) :=
  match l with
  | [] => Ok None
  | c :: l' =>
      content ← expect_some (m !! c) "called `Option::unwrap()` on a `None` value";
      b ← Constant_eq context content constant;
      if (b : bool) then Ok (Some c) else find_equal m constant l'
  end.

(** [Constant::unique] *)
Definition unique (self : Constants) (constant : ConstantContent) : Result (Constants * positive) :=
  let h := hash constant in
  let found := default [] (constants_map self !! h) in
  o ← find_equal (constants self) constant found;
  Ok (match o with
      | Some c => (mkConstants (constants self) (<[h := found]> (constants_map self)), c)
      | None =>
          let c := new_key (constants self) in
          (mkConstants (<[c := constant]> (constants self)) (<[h := found ++ [c]]> (constants_map self)), c)
      end).
End unique.
