(* ===== verification/IrStorage.v ===== *)
(** * Initial values of storage fields

    [sway-core/src/ir_generation/storage.rs]: the keys of storage fields and the storage
    slots that hold an initial value.  Texts are lists of bytes.  The hash function of
    [fuel_crypto] and the addition of the crate [uint] are the class [StorageCrates]. *)

From S2P Require Import Prelude IrTypes AsmRegister AsmData IrConstant.
Local Open Scope Z_scope.

Class StorageCrates : Type := {
  sha256 : list Z -> list Z;
  uint_add : Z -> Z -> Result Z;
  sha256_length l : length (sha256 l) = 32%nat;
  sha256_bytes l : Forall (fun b => 0 <= b < 256) (sha256 l);
  uint_add_fits a b : 0 <= a -> 0 <= b -> a + b < 2 ^ 256 -> uint_add a b = Ok (a + b);
}.

(** ** Keys *)

Definition str_bytes (s : string) : list Z := map (fun c => Z.of_N (Ascii.N_of_ascii c)) (String.list_ascii_of_string s).

Definition STORAGE_DOMAIN : list Z := [0].
Definition STORAGE_TOP_LEVEL_NAMESPACE : list Z := str_bytes "storage".
Definition STORAGE_NAMESPACE_SEPARATOR : list Z := str_bytes "::".
Definition STORAGE_FIELD_SEPARATOR : list Z := str_bytes ".".
Definition STRUCT_FIELD_SEPARATOR : list Z := str_bytes ".".

(** [join] of a vector of texts *)
Fixpoint join_texts (sep : list Z) (l : list (list Z)) : list Z :=
  match l with
  | [] => []
  | [x] => x
  | x :: l' => x ++ sep ++ join_texts sep l'
  end.

Definition get_storage_key_string (storage_field_names : list (list Z)) : Result (list Z) :=
  match last storage_field_names with
  | None => Err (Panic "attempt to subtract with overflow")
  | Some field =>
      if (length storage_field_names =? 1)%nat
      then Ok (STORAGE_TOP_LEVEL_NAMESPACE ++ STORAGE_FIELD_SEPARATOR ++ field)
      else Ok (STORAGE_TOP_LEVEL_NAMESPACE ++ STORAGE_NAMESPACE_SEPARATOR
               ++ join_texts STORAGE_NAMESPACE_SEPARATOR (take (length storage_field_names - 1) storage_field_names)
               ++ STORAGE_FIELD_SEPARATOR ++ field)
  end.

(** The text that [get_storage_field_id] hashes *)
Definition storage_field_id_string (storage_field_names struct_field_names : list (list Z)) : Result (list Z) :=
  key ← get_storage_key_string storage_field_names;
  Ok (key ++ match struct_field_names with
             | [] => []
             | _ => STRUCT_FIELD_SEPARATOR ++ join_texts STRUCT_FIELD_SEPARATOR struct_field_names
             end).

Section storage.
Context `{StorageCrates} (context : Context).

Definition hash_storage_key_string (storage_key_string : list Z) : list Z := sha256 (STORAGE_DOMAIN ++ storage_key_string).

Definition get_storage_key (storage_field_names : list (list Z)) (key : option Z) : Result (list Z) :=
  match key with
  | Some key => U256_to_be_bytes key
  | None => s ← get_storage_key_string storage_field_names; Ok (hash_storage_key_string s)
  end.

Definition get_storage_field_id (storage_field_names struct_field_names : list (list Z)) : Result (list Z) :=
  data ← storage_field_id_string storage_field_names struct_field_names;
  Ok (hash_storage_key_string data).

Definition add_to_b256 (x : list Z) (y : Z) : Result (list Z) :=
  res ← uint_add (be_value x) y;
  Ok (be_bytes 32 res).

(** ** Words *)

Inductive InByte8Padding : Type := Right | Left.

(** [b[8 * i..8 * i + 8]] *)
Fixpoint chunks {A} (k : nat) (n : nat) (l : list A) : list (list A) :=
  match n with O => [] | S n' => take k l :: chunks k n' (drop k l) end.

Definition zero_word : list Z := replicate 8 0.

Definition byte_word (padding : InByte8Padding) (b : Z) : list Z :=
  match padding with Right => b :: replicate 7 0 | Left => replicate 7 0 ++ [b] end.

Fixpoint serialize_to_words (fuel : nat) (constant : ConstantContent) (ty : Ty) (padding : InByte8Padding) : Result (list (list Z)) :=
  match fuel with
  | O => Err OutOfFuel
  | S fuel' =>
      match cvalue constant with
      | CUndef => Ok []
      | value =>
          t ← get_content context ty;
          match value, t with
          | CUnit, TUnit => Ok [zero_word]
          | CBool b, TBool => Ok [byte_word padding (if b then 1 else 0)]
          | CUint n, TUint width => if width =? 8 then Ok [byte_word padding (n mod 256)] else Ok [to_be_bytes n]
          | CU256 n, TUint width => if width =? 256 then b ← U256_to_be_bytes n; Ok (chunks 8 4 b) else Ok []
          | CB256 n, TB256 => b ← U256_to_be_bytes n; Ok (chunks 8 4 b)
          | CString s, TStringArray _ =>
              let s := s ++ replicate ((length s + 7) / 8 * 8 - length s) 0 in
              Ok (chunks 8 (length s / 8) s)
          | CArray _, TArray _ _ => Err (Panic "not implemented: Arrays in storage have not been implemented yet.")
          | CStruct vec, TStruct field_tys =>
              concat_traverse (fun p => serialize_to_words fuel' p.1 p.2 Right) (zip vec field_tys)
          | _, TUnion _ =>
              value_size ← Type_size context ty;
              value_size_in_words ← in_words value_size;
              constant_size ← Type_size context (cty constant);
              constant_size_in_words ← in_words constant_size;
              if constant_size_in_words <=? value_size_in_words then
                words ← serialize_to_words fuel' constant (cty constant) Left;
                Ok (replicate (Z.to_nat (value_size_in_words - constant_size_in_words)) zero_word ++ words)
              else Err (Panic "assertion failed: value_size_in_words >= constant_size_in_words")
          | _, _ => Ok []
          end
      end
  end.

(** A constant is read with its own type at most once per level. *)
Definition serialize_fuel (constant : ConstantContent) : nat := 2 * S (constant_depth constant).

(** ** Slots *)

Record StorageSlot : Type := StorageSlot_new { slot_key : list Z; slot_value : list Z }.

(** A value at the beginning of one slot *)
Definition one_slot (key : list Z) (value : list Z) : list StorageSlot := [StorageSlot_new key (value ++ replicate (32 - length value) 0)].

Definition serialize_to_storage_slots (constant : ConstantContent) (storage_field_names : list (list Z)) (key : option Z) (ty : Ty)
    : Result (list StorageSlot) :=
  match cvalue constant with
  | CUndef => Ok []
  | value =>
      t ← get_content context ty;
      let storage_key := get_storage_key storage_field_names key in
      match value, t with
      | CUnit, TUnit => k ← storage_key; Ok (one_slot k [])
      | CBool b, TBool => k ← storage_key; Ok (one_slot k [if b then 1 else 0])
      | CUint n, TUint width =>
          k ← storage_key; Ok (one_slot k (if width =? 8 then [n mod 256] else to_be_bytes n))
      | CU256 n, TUint width => if width =? 256 then k ← storage_key; b ← U256_to_be_bytes n; Ok (one_slot k b) else Ok []
      | CB256 n, TB256 => k ← storage_key; b ← U256_to_be_bytes n; Ok (one_slot k b)
      | CArray _, TArray _ _ => Err (Panic "not implemented: Arrays in storage have not been implemented yet.")
      | _, TStringArray _ | _, TStruct _ | _, TUnion _ =>
          packed ← serialize_to_words (serialize_fuel constant) constant ty Right;
          let packed := packed ++ replicate ((length packed + 3) / 4 * 4 - length packed) zero_word in
          size ← Type_size context ty;
          if in_bytes size mod 8 =? 0 then
            k ← storage_key;
            n ← u64_add (in_bytes size) 31;
            (* [zip] asks for a key before it asks for a value. *)
            keys ← traverse (fun i => add_to_b256 k (Z.of_nat i)) (seq 0 (Nat.min (Z.to_nat (n / 32)) (S (length packed / 4))));
            Ok (zip_with StorageSlot_new keys (map (@concat Z) (chunks 4 (length packed / 4) packed)))
          else Err (Panic "Expected string arrays, structs, and enums to be aligned to word boundary.")
      | _, _ => Ok []
      end
  end.
End storage.

(** * The texts of storage keys

    The text that is hashed to the id of a storage field, or to its key, determines the
    namespaces, the field and the struct fields: identifiers have no dots and colons. *)

Lemma Ok_inj {A} (a b : A) : Ok a = Ok b -> a = b.
Proof. congruence. Qed.

Lemma split_unique (x : Z) a r a' r' : x ∉ a -> x ∉ a' -> a ++ x :: r = a' ++ x :: r' -> a = a' /\ r = r'.
Proof.
  revert a'. induction a as [|y a IH]; intros [|y' a'] Ha Ha' Heq; cbn in Heq.
  - by injection Heq as ->.
  - injection Heq as <- _. destruct Ha'. by left.
  - injection Heq as -> _. destruct Ha. by left.
  - injection Heq as <- Heq. destruct (IH a') as [-> ->]; [set_solver|set_solver|done|]. done.
Qed.

Lemma split_none (x : Z) a r a' : x ∉ a' -> a ++ x :: r = a' -> False.
Proof. intros Ha <-. apply Ha. apply elem_of_app. right. by left. Qed.

(** Texts without the first character of the separator can be told apart. *)
Lemma join_texts_inj x rest l l' :
  l <> [] -> l' <> [] -> Forall (fun s => x ∉ s) l -> Forall (fun s => x ∉ s) l' -> join_texts (x :: rest) l = join_texts (x :: rest) l' -> l = l'.
Proof.
  revert l'. induction l as [|a l IH]; intros [|b l'] Hn Hn' Hl Hl' Heq; [done..|]. apply Forall_cons in Hl as [Ha Hl]. apply Forall_cons in Hl' as [Hb Hl'].
  destruct l as [|a2 l]; destruct l' as [|b2 l']; cbn [join_texts] in Heq.
  - by subst.
  - by destruct (split_none x b _ a Ha (eq_sym Heq)).
  - by destruct (split_none x a _ b Hb Heq).
  - apply split_unique in Heq as [-> Heq]; [|done|done]. apply (app_inv_head rest) in Heq. f_equal. by apply IH.
Qed.

Lemma join_texts_fresh x sep l : x ∉ sep -> Forall (fun s => x ∉ s) l -> x ∉ join_texts sep l.
Proof.
  intros Hs. induction l as [|a l IH]; intros Hl; [apply not_elem_of_nil|]. apply Forall_cons in Hl as [Ha Hl]. destruct l as [|b l]; [done|].
  change (join_texts sep (a :: b :: l)) with (a ++ sep ++ join_texts sep (b :: l)). rewrite !elem_of_app. specialize (IH Hl). tauto.
Qed.

(** Identifiers have neither dots nor colons. *)
Definition identifiers (l : list (list Z)) : Prop := Forall (fun s => (46 ∉ s) /\ (58 ∉ s)) l.

(** The namespaces as they are written before the dot *)
Definition namespaces_text (names : list (list Z)) : list Z :=
  if (length names =? 1)%nat then []
  else STORAGE_NAMESPACE_SEPARATOR ++ join_texts STORAGE_NAMESPACE_SEPARATOR (take (length names - 1) names).

Lemma field_id_text names field structs :
  last names = Some field ->
  storage_field_id_string names structs = Ok (STORAGE_TOP_LEVEL_NAMESPACE ++ namespaces_text names ++ 46 :: join_texts STRUCT_FIELD_SEPARATOR (field :: structs)).
Proof.
  intros Hl. unfold storage_field_id_string, get_storage_key_string, namespaces_text. rewrite Hl. next_step.
  assert (field ++ match structs with [] => [] | _ => STRUCT_FIELD_SEPARATOR ++ join_texts STRUCT_FIELD_SEPARATOR structs end = join_texts STRUCT_FIELD_SEPARATOR (field :: structs)) as Hj.
  { destruct structs; [by rewrite app_nil_r|done]. }
  destruct (length names =? 1)%nat; next_step; rewrite <- Hj, <- !app_assoc; done.
Qed.

Lemma last_split (names : list (list Z)) field : last names = Some field -> names = take (length names - 1) names ++ [field].
Proof. intros [l ->]%last_Some. by rewrite length_app, Nat.add_sub, take_app_length. Qed.

Lemma namespaces_text_inj names names' field field' :
  last names = Some field -> last names' = Some field' -> identifiers names -> identifiers names' ->
  namespaces_text names = namespaces_text names' -> take (length names - 1) names = take (length names' - 1) names'.
Proof.
  assert (forall (names : list (list Z)) field, last names = Some field -> (length names =? 1)%nat = false -> take (length names - 1) names <> []) as Hne.
  { intros l f [l' ->]%last_Some. rewrite length_app, Nat.add_sub, take_app_length. cbn. intros Hl ->. by cbn in Hl. }
  assert (forall names, identifiers names -> Forall (fun s => 58 ∉ s) (take (length names - 1) names)) as Hid.
  { intros l Hl. apply Forall_take. eapply Forall_impl; [exact Hl|]. by intros s [_ ?]. }
  intros Hf Hf' Hi Hi'. unfold namespaces_text. destruct (length names =? 1)%nat eqn:H1; destruct (length names' =? 1)%nat eqn:H2; intros Heq; [|done..|].
  - apply Nat.eqb_eq in H1, H2. by rewrite H1, H2.
  - apply app_inv_head in Heq. eapply join_texts_inj; [by eapply Hne|by eapply Hne|by apply Hid|by apply Hid|exact Heq].
Qed.

Lemma namespaces_text_no_dot names : identifiers names -> 46 ∉ namespaces_text names.
Proof.
  intros Hi. unfold namespaces_text. case_match; [apply not_elem_of_nil|]. rewrite elem_of_app. intros [Hin|Hin]; [by vm_compute in Hin; set_solver|].
  revert Hin. apply join_texts_fresh; [vm_compute; set_solver|]. apply Forall_take. eapply Forall_impl; [exact Hi|]. by intros s [? _].
Qed.

(** Storage keys: two storage fields, with the fields of nested structs, whose texts are
    equal before they are hashed are the same: the namespaces, the name and the path of
    struct fields agree.  The text of the key of a field is the case without struct
    fields. *)
Theorem storage_field_id_injective names names' structs structs' text :
  names <> [] -> names' <> [] -> identifiers names -> identifiers names' -> identifiers structs -> identifiers structs' ->
  storage_field_id_string names structs = Ok text -> storage_field_id_string names' structs' = Ok text -> names = names' /\ structs = structs'.
Proof.
  intros Hn Hn' Hi Hi' Hs Hs' Ht Ht'. destruct (last names) as [f|] eqn:Hf; [|by apply last_None in Hf]. destruct (last names') as [f'|] eqn:Hf'; [|by apply last_None in Hf'].
  rewrite (field_id_text names f structs Hf) in Ht. rewrite (field_id_text names' f' structs' Hf') in Ht'. rewrite <- Ht' in Ht. apply Ok_inj in Ht as Heq.
  apply app_inv_head in Heq. apply split_unique in Heq as [Hns Hj]; [|by apply namespaces_text_no_dot..].
  assert (forall names f, last names = Some f -> identifiers names -> 46 ∉ f) as Hlast.
  { intros l x [l' ->]%last_Some Hl. apply Forall_app in Hl as [_ Hl]. rewrite Forall_singleton in Hl. apply Hl. }
  assert (forall structs, identifiers structs -> Forall (fun s => 46 ∉ s) structs) as Hdots by (intros l Hl; eapply Forall_impl; [exact Hl|]; by intros s [? _]).
  apply join_texts_inj in Hj; [|done|done|constructor; [by eapply Hlast|by apply Hdots]|constructor; [by eapply Hlast|by apply Hdots]].
  injection Hj as <- <-. split; [|done]. rewrite (last_split names f Hf), (last_split names' f Hf'). f_equal. by eapply namespaces_text_inj.
Qed.

Lemma storage_field_id_injective_witness :
  [str_bytes "ns"; str_bytes "x"] = [str_bytes "ns"; str_bytes "x"] /\ [str_bytes "a"; str_bytes "b"] = [str_bytes "a"; str_bytes "b"].
Proof.
  apply (storage_field_id_injective _ _ _ _ (str_bytes "storage::ns.x.a.b")); try done;
    repeat constructor; vm_compute; set_solver.
Defined.
