(* ===== verification/IrImage.v ===== *)
(** * The memory image of a constant

    The specification of how a constant lies in memory, which the data section and the
    storage slots both implement: scalars in big-endian order, array elements packed,
    struct fields padded on the right to words, and the variant of an enum padded on the
    left to the size of the union. *)

From S2P Require Import Prelude IrTypes IrTypeTheory IrLayout AsmRegister AsmData IrConstant.
Local Open Scope Z_scope.

(** ** Constants and their parts *)

Definition elems_of (v : ConstantValue) : list ConstantContent :=
  match v with CArray l | CStruct l | CSlice l => l | CReference c => [c] | _ => [] end.

Lemma constant_ind (P : ConstantContent -> Prop) :
  (forall ty v, (forall c, c ∈ elems_of v -> P c) -> P (mkConstant ty v)) -> forall c, P c.
Proof.
  intros HP. fix IH 1. intros [ty v]. apply HP. destruct v as [| | | | | | |l|l|l|c|]; cbn; try (clear IH; intros c Hc; by apply elem_of_nil in Hc).
  - induction l as [|x l IHl]; [clear IH; intros c Hc; by apply elem_of_nil in Hc|].
    intros c Hc. apply elem_of_cons in Hc as [->|Hc]; [apply IH|exact (IHl c Hc)].
  - induction l as [|x l IHl]; [clear IH; intros c Hc; by apply elem_of_nil in Hc|].
    intros c Hc. apply elem_of_cons in Hc as [->|Hc]; [apply IH|exact (IHl c Hc)].
  - induction l as [|x l IHl]; [clear IH; intros c Hc; by apply elem_of_nil in Hc|].
    intros c Hc. apply elem_of_cons in Hc as [->|Hc]; [apply IH|exact (IHl c Hc)].
  - intros c' ->%list_elem_of_singleton. apply IH.
Qed.

Section image.
Context (context : Context).

(** The fields of a struct that is not an enum, and the tag and the value of an enum *)
Definition struct_fields (l : list ConstantContent) (fields : list Ty) : Prop :=
  map cty l = fields /\ forall f u, f ∈ fields -> types context !! f <> Some (TUnion u).
Definition enum_fields (l : list ConstantContent) (fields : list Ty) : Prop :=
  exists tag value union_ty variants, l = [tag; value] /\ fields = [cty tag; union_ty] /\
    types context !! cty tag = Some (TUint 64) /\ types context !! union_ty = Some (TUnion variants) /\ cty value ∈ variants.

(** A constant has the type that it names; the tag of an enum is a word. *)
Fixpoint typed (c : ConstantContent) : Prop :=
  match c with
  | mkConstant ty v =>
      match v, types context !! ty with
      | CUnit, Some TUnit | CBool _, Some TBool => True
      | CUint n, Some (TUint w) => w <> 256 /\ 0 <= n < 2 ^ w
      | CU256 n, Some (TUint w) => w = 256 /\ 0 <= n < 2 ^ 256
      | CB256 n, Some TB256 => 0 <= n < 2 ^ 256
      | CString l, Some (TStringArray len) => len = Z.of_nat (length l) /\ len + 7 < 2 ^ 32
      | CArray l, Some (TArray elm len) => foldr (fun c P => typed c /\ P) True l /\ len = Z.of_nat (length l) /\ forall c, c ∈ l -> cty c = elm
      | CStruct l, Some (TStruct fields) => foldr (fun c P => typed c /\ P) True l /\ (struct_fields l fields \/ enum_fields l fields)
      | _, _ => False
      end
  end.

Definition size_of (ty : Ty) : Z := match Type_size context ty with Ok s => in_bytes s | Err _ => 0 end.

Definition is_byte_type (ty : Ty) : bool := match types context !! ty with Some (TUint w) => w =? 8 | _ => false end.

(** The size of the union of an enum *)
Definition enum_union (ty : Ty) : option nat :=
  match types context !! ty with
  | Some (TStruct [tag; union_ty]) => match types context !! union_ty with Some (TUnion _) => Some (Z.to_nat (size_of union_ty)) | _ => None end
  | _ => None
  end.

Definition word_padded (bytes : list Z) : list Z := pad (PadRight (round_up (length bytes))) bytes.

Fixpoint image (c : ConstantContent) : list Z :=
  match c with
  | mkConstant ty v =>
      match v with
      | CUnit => [0]
      | CBool b => [if b then 1 else 0]
      | CUint n => if is_byte_type ty then [n] else be_bytes 8 n
      | CU256 n | CB256 n => be_bytes 32 n
      | CString l => word_padded l
      | CArray l => flat_map image l
      | CStruct l =>
          match enum_union ty, l with
          | Some n, [tag; value] => image tag ++ pad (PadLeft n) (image value)
          | _, _ => flat_map (fun c => word_padded (image c)) l
          end
      | _ => []
      end
  end.

Lemma typed_elems l : foldr (fun c P => typed c /\ P) True l <-> forall c, c ∈ l -> typed c.
Proof.
  induction l as [|x l IH]; cbn; [split; [by intros _ c ?%elem_of_nil|done]|]. rewrite IH. split.
  - intros [Hx Hl] c [->|Hc]%elem_of_cons; [done|by apply Hl].
  - intros Hl. split; [apply Hl; by left|]. intros c Hc. apply Hl. by right.
Qed.

Lemma enum_union_struct ty l : types context !! ty = Some (TStruct (map cty l)) -> struct_fields l (map cty l) -> enum_union ty = None.
Proof.
  intros Ht [_ Hu]. unfold enum_union. rewrite Ht. destruct (map cty l) as [|a [|b [|]]]; try done.
  destruct (types context !! b) as [[]|] eqn:Hb; try done. by destruct (Hu b fields ltac:(right; by left)).
Qed.
End image.

(** ** Paddings and bytes *)

Lemma pad_length p l : length (pad p l) = Nat.max (target_size p) (length l).
Proof. unfold pad. destruct p; cbn; rewrite length_app, length_replicate; lia. Qed.

Lemma pad_id p l : (target_size p <= length l)%nat -> pad p l = l.
Proof.
  intros Hle. unfold pad. replace (target_size p - length l)%nat with O by lia. destruct p; cbn; [done|]. by rewrite app_nil_r.
Qed.

Lemma round_up_align8 n : Z.of_nat (round_up n) = align8 (Z.of_nat n).
Proof.
  unfold round_up, align8. rewrite Nat2Z.inj_sub, Nat2Z.inj_mod, Nat2Z.inj_add; [done|]. apply Nat.Div0.mod_le.
Qed.

Lemma word_padded_length l : Z.of_nat (length (word_padded l)) = align8 (Z.of_nat (length l)).
Proof.
  unfold word_padded. rewrite pad_length. cbn. pose proof (round_up_align8 (length l)). pose proof (align8_bounds (Z.of_nat (length l))) as [? _]. lia.
Qed.

Lemma to_be_bytes_8 n : to_be_bytes n = be_bytes 8 n.
Proof.
  unfold to_be_bytes. cbn [map be_bytes app]. rewrite !Z.div_div by lia.
  assert (forall m, Z.land m 255 = m mod 256) as Hland by (intros m; apply (Z.land_ones m 8); lia).
  rewrite !Hland, !Z.shiftr_div_pow2 by lia. rewrite Z.div_1_r. done.
Qed.

Lemma fill_words_padded l : Z.of_nat (length l) + 7 < 2 ^ 32 -> fill_words l = word_padded l.
Proof.
  intros Hl. unfold fill_words, word_padded. destruct (Nat.eqb_spec (length l mod 8) 0) as [Hm|Hm].
  - rewrite pad_id; [done|]. cbn. unfold round_up. rewrite Nat.Div0.add_mod, Hm. cbn. lia.
  - assert (Z.land (Z.of_nat (length l) + 7) 4294967288 = align8 (Z.of_nat (length l))) as ->.
    { set (m := Z.of_nat (length l) + 7). unfold align8. fold m. assert (0 <= m < 2 ^ 32) as Hm32 by lia.
      replace 4294967288 with (Z.ldiff (Z.ones 32) (Z.ones 3)) by done. rewrite Z.ldiff_land, Z.land_assoc, Z.land_ones by lia.
      rewrite (Z.mod_small m (2 ^ 32)) by lia. rewrite <- Z.ldiff_land, Z.ldiff_ones_r, Z.shiftl_mul_pow2, Z.shiftr_div_pow2 by lia.
      Z.div_mod_to_equations. lia. }
    rewrite <- round_up_align8, Nat2Z.id. unfold pad. cbn [target_size]. rewrite take_app, (take_ge l), take_replicate.
    + do 2 f_equal. pose proof (round_up_align8 (length l)). pose proof (align8_bounds (Z.of_nat (length l))) as [? _]. lia.
    + pose proof (round_up_align8 (length l)). pose proof (align8_bounds (Z.of_nat (length l))) as [? _]. lia.
Qed.

(** ** The length of an image is the size of the type *)

Section length.
Context (context : Context) (Hctx : context_ok context).

Abbreviation typed := (typed context).
Abbreviation image := (image context).
Abbreviation has_size ty n := (Type_size context ty = Ok (TypeSize_new n)).
Abbreviation has_length c n := (Z.of_nat (length (image c)) = n).

Lemma typed_uint ty n w : typed (mkConstant ty (CUint n)) -> types context !! ty = Some (TUint w) -> w ∈ [8; 16; 32; 64] /\ 0 <= n < 2 ^ w.
Proof.
  cbn. intros Ht Hty. rewrite Hty in Ht. pose proof (ctx_content _ Hctx ty _ Hty) as Hw. cbn in Hw. destruct Ht. split; [set_solver|done].
Qed.

Lemma uint_size ty w n : types context !! ty = Some (TUint w) -> has_size ty n -> n = if w =? 8 then 1 else if w =? 256 then 32 else 8.
Proof.
  intros Ht. rewrite (Type_size_unfold _ Hctx ty _ Ht). cbn [size_body]. destruct (Z.eqb_spec w 8) as [->|H8]; [by intros [= <-]|].
  destruct (Z.eqb_spec w 256) as [->|H256]; [by intros [= <-]|]. destruct ((w =? 16) || (w =? 32) || (w =? 64)); [by intros [= <-]|done].
Qed.

(** The sizes of the fields of a struct that is not an enum *)
Lemma fields_sized l ns :
  (forall c, c ∈ l -> typed c /\ forall n, has_size (cty c) n -> has_length c n) -> sized context (map cty l) ns ->
  Forall2 (fun c n => has_size (cty c) n /\ has_length c n) l ns.
Proof.
  revert ns. induction l as [|c l IH]; intros ns Hl Hns; cbn in Hns; inversion Hns as [|? n ? ns' Hn Hns']; subst; constructor.
  - split; [done|]. by apply Hl; [left|].
  - apply IH; [|done]. intros c' Hc'. apply Hl. by right.
Qed.

Lemma flat_map_total l ns :
  Forall2 (fun c n => has_size (cty c) n /\ has_length c n) l ns -> Z.of_nat (length (flat_map (fun c => word_padded (image c)) l)) = total ns.
Proof.
  induction 1 as [|c n l ns [_ Hn] _ IH]; [done|]. cbn [flat_map]. rewrite length_app, Nat2Z.inj_add, IH, word_padded_length, total_cons. by rewrite Hn.
Qed.

(** The parts of an enum: a tag of a word and a union that has room for the value *)
Lemma enum_sizes ty l fields n :
  types context !! ty = Some (TStruct fields) -> enum_fields context l fields -> has_size ty n ->
  exists tag value u, l = [tag; value] /\ enum_union context ty = Some (Z.to_nat u) /\ has_size (cty tag) 8 /\
    types context !! cty tag = Some (TUint 64) /\ n = 8 + u /\ u mod 8 = 0 /\ exists m, has_size (cty value) m /\ 0 <= m /\ align8 m <= u.
Proof.
  intros Ht (tag & value & union_ty & variants & -> & -> & Htag & Hunion & Hin) Hn.
  apply (struct_size _ Hctx ty _ n Ht) in Hn as (ns & Hns & -> & _). inversion Hns as [|? a ? ns1 Ha Hns1]; subst.
  inversion Hns1 as [|? u ? ns2 Hu Hns2]; subst. inversion Hns2; subst.
  assert (a = 8) as -> by exact (uint_size _ _ _ Htag Ha). exists tag, value, u. split; [done|].
  assert (u mod 8 = 0) as Hu8 by (by eapply (word_sized_aligned _ Hctx union_ty (TUnion variants))). split.
  { unfold enum_union, size_of. by rewrite Ht, Hunion, Hu. }
  split; [done|]. split; [done|]. rewrite !total_cons. rewrite (align8_id u Hu8). change (total []) with 0. change (align8 8) with 8. split; [lia|]. split; [done|].
  destruct (union_size _ Hctx union_ty _ u Hunion Hu) as (ns & Hvs & -> & _). apply list_elem_of_lookup in Hin as [i Hi].
  destruct (Forall2_lookup_l _ _ _ _ _ Hvs Hi) as (m & Hm & Hsm). exists m. split; [done|].
  pose proof (Type_size_bound _ Hctx (cty value) m ltac:(eapply child_exists; [done|exact Hunion|by eapply list_elem_of_lookup_2]) Hsm). split; [lia|].
  apply (max_or_zero_spec (align8 <$> ns)). apply list_elem_of_fmap. exists m. split; [done|]. by eapply list_elem_of_lookup_2.
Qed.

Lemma image_length c n : typed c -> has_size (cty c) n -> has_length c n.
Proof.
  revert n. induction c as [ty v IH] using constant_ind. intros n Hc Hn. cbn [cty] in Hn.
  destruct (types context !! ty) as [t|] eqn:Ht; [|destruct v; cbn [IrImage.typed] in Hc; rewrite ?Ht in Hc; done].
  assert (Hbody := Hn). rewrite (Type_size_unfold _ Hctx ty _ Ht) in Hbody.
  destruct v as [| |b|m|m|m|l|l|l|l|c|l]; cbn [IrImage.typed] in Hc; rewrite ?Ht in Hc; destruct t; try done.
  - cbn in Hbody. by injection Hbody as <-.
  - cbn in Hbody. by injection Hbody as <-.
  - pose proof (uint_size _ _ _ Ht Hn) as ->. cbn [IrImage.image]. unfold is_byte_type. rewrite Ht. destruct Hc as [Hw _].
    destruct (Z.eqb_spec width 8); [done|]. by rewrite (proj2 (Z.eqb_neq width 256) Hw), be_bytes_length.
  - destruct Hc as [-> _]. cbn in Hbody. injection Hbody as <-. cbn [IrImage.image]. by rewrite be_bytes_length.
  - cbn in Hbody. injection Hbody as <-. cbn [IrImage.image]. by rewrite be_bytes_length.
  - destruct Hc as [-> _]. cbn [size_body] in Hbody. inv_ok. apply round_up_to_word_Ok in Hok as [-> _]. apply word_padded_length.
  - destruct Hc as (Hl & -> & Hcty). rewrite typed_elems in Hl. apply (array_size _ Hctx ty _ _ n Ht) in Hn as (s & Hs & -> & _).
    cbn [IrImage.image elems_of] in *. assert (forall c, c ∈ l -> has_length c s) as Hlen.
    { intros c Hin. apply IH; [done|by apply Hl|by rewrite Hcty]. }
    clear - Hlen. induction l as [|c l IHl]; [done|]. cbn [flat_map]. rewrite length_app, Nat2Z.inj_add, (Hlen c) by by left.
    rewrite IHl by (intros; apply Hlen; by right). rewrite length_cons, Nat2Z.inj_succ. lia.
  - destruct Hc as [Hl Hf]. rewrite typed_elems in Hl. cbn [elems_of] in IH. destruct Hf as [Hf|Hf].
    + assert (map cty l = fields) as <- by apply Hf. apply (struct_size _ Hctx ty _ n Ht) in Hn as (ns & Hns & -> & _).
      cbn [IrImage.image]. rewrite (enum_union_struct context ty l Ht Hf). apply flat_map_total. apply fields_sized; [|done].
      intros c Hin. split; [by apply Hl|]. intros m. apply IH; [done|by apply Hl].
    + destruct (enum_sizes ty l fields n Ht Hf Hn) as (tag & value & u & -> & Hu & Htag & _ & -> & Hu8 & m & Hm & Hm0 & Hle).
      cbn [IrImage.image]. rewrite Hu, length_app, pad_length, Nat2Z.inj_add. cbn [target_size].
      rewrite (IH tag ltac:(by left) 8) by (done || (apply Hl; by left)).
      pose proof (IH value ltac:(right; by left) m ltac:(apply Hl; right; by left) Hm). pose proof (align8_bounds m) as [? _]. lia.
Qed.
End length.

(** * Entries of the data section hold the image of their constant

    [Entry::from_constant] makes an entry whose bytes are the memory image of the constant,
    and the image of a part is at the offset that [get_indexed_offset] computes. *)

Lemma constant_depth_elem ty v c : c ∈ elems_of v -> (constant_depth c < constant_depth (mkConstant ty v))%nat.
Proof.
  assert (forall l, c ∈ l -> constant_depth c <= foldr (fun c d => Nat.max (constant_depth c) d) 0 l)%nat as Hl.
  { induction l as [|x l IH]; [by intros ?%elem_of_nil|]. cbn [foldr]. intros [->|Hc]%elem_of_cons; [lia|]. specialize (IH Hc). lia. }
  destruct v; cbn [elems_of]; try (by intros ?%elem_of_nil); [intros Hc%Hl; cbn [constant_depth]; lia..|].
  intros ->%list_elem_of_singleton. cbn. lia.
Qed.

Definition padded (p : option Padding) (l : list Z) : list Z := match p with Some p => pad p l | None => l end.

Lemma target_le_length e : (target_size (entry_padding e) <= length (to_bytes e))%nat.
Proof. destruct e as [v p n]. cbn [to_bytes entry_padding]. rewrite pad_length. lia. Qed.

Lemma new_collection_bytes l name p : to_bytes (new_collection l name p) = padded p (flat_map to_bytes l).
Proof.
  unfold new_collection. cbn [to_bytes]. destruct p as [p|]; [done|]. apply pad_id. cbn [default target_size default_for_aggregate].
  cbn [padded]. induction l as [|e l IH]; [done|]. cbn [flat_map sum_list_with]. rewrite length_app. pose proof (target_le_length e). lia.
Qed.

Section data.
Context (context : Context) (Hctx : context_ok context).

Abbreviation typed := (typed context).
Abbreviation image := (image context).
Abbreviation has_size ty n := (Type_size context ty = Ok (TypeSize_new n)).

Lemma get_content_Ok ty t : types context !! ty = Some t -> get_content context ty = Ok t.
Proof. intros Ht. unfold get_content. by rewrite Ht. Qed.

Lemma is_enum_no_struct ty t : types context !! ty = Some t -> (forall l, t <> TStruct l) -> is_enum context ty = Ok false.
Proof. intros Ht Hl. unfold is_enum, is_struct, matches_content. rewrite (get_content_Ok ty t Ht). destruct t; try done. by destruct (Hl fields). Qed.

Lemma is_enum_struct ty l : types context !! ty = Some (TStruct (map cty l)) -> struct_fields context l (map cty l) -> is_enum context ty = Ok false.
Proof.
  intros Ht [_ Hu]. unfold is_enum, is_struct, get_field_types, matches_content. rewrite (get_content_Ok ty _ Ht). cbn [fmap Result_fmap mbind Result_bind].
  pose proof (fun c => child_exists _ Hctx ty _ c Ht) as Hex. cbn [child_types] in Hex.
  destruct (map cty l) as [|a [|b [|]]]; try done. destruct (Hex a ltac:(by left)) as [ta Hta]. destruct (Hex b ltac:(right; by left)) as [tb Htb].
  unfold is_uint, is_union, matches_content. rewrite (get_content_Ok a ta Hta), (get_content_Ok b tb Htb). cbn [fmap Result_fmap mbind Result_bind].
  destruct ta; try done. destruct tb; try done. by destruct (Hu b fields ltac:(right; by left)).
Qed.

Lemma is_enum_enum ty tag u w vs :
  types context !! ty = Some (TStruct [tag; u]) -> types context !! tag = Some (TUint w) -> types context !! u = Some (TUnion vs) -> is_enum context ty = Ok true.
Proof.
  intros Ht Htag Hu. unfold is_enum, is_struct, get_field_types, is_uint, is_union, matches_content. rewrite (get_content_Ok _ _ Ht).
  cbn [fmap Result_fmap mbind Result_bind]. rewrite (get_content_Ok _ _ Htag). cbn [fmap Result_fmap mbind Result_bind]. by rewrite (get_content_Ok _ _ Hu).
Qed.

Lemma aligned_target_Ok ty n : has_size ty n -> align8 n < 2 ^ 64 -> aligned_target context ty = Ok (Z.to_nat (align8 n)).
Proof.
  intros Hn Hlt. unfold aligned_target. rewrite Hn. next_step. unfold in_bytes_aligned. cbn [size_in_bytes].
  rewrite (proj2 (round_up_to_word_Ok n (align8 n))) by (rewrite <- align8_fits; done). done.
Qed.

(** The paddings of the fields *)
Lemma struct_paddings l ns :
  Forall2 (fun c n => has_size (cty c) n) l ns -> Forall (fun n => align8 n < 2 ^ 64) ns ->
  traverse (fun el => target_size ← aligned_target context (cty el); Ok (el, Some (PadRight target_size))) l
    = Ok (zip_with (fun c n => (c, Some (PadRight (Z.to_nat (align8 n))))) l ns).
Proof.
  induction 1 as [|c n l ns Hn _ IH]; [done|]. intros [Hlt Hall]%Forall_cons. cbn [traverse]. rewrite (aligned_target_Ok _ n Hn Hlt). next_step.
  by rewrite (IH Hall).
Qed.

Lemma total_bounds ns : Forall (fun n => 0 <= n) ns -> total ns < 2 ^ 64 -> Forall (fun n => align8 n < 2 ^ 64) ns.
Proof.
  induction 1 as [|n ns Hn Hns IH]; intros Hlt; [done|]. rewrite total_cons in Hlt. pose proof (total_nonneg ns Hns). pose proof (align8_bounds n).
  constructor; [lia|]. apply IH. lia.
Qed.

(** The entry of a constant, given those of its parts *)
Definition entry_ok (fuel : nat) (c : ConstantContent) : Prop :=
  forall name p, exists e, from_constant context fuel c name p = Ok e /\ to_bytes e = padded p (image c).

Lemma elements_ok fuel (l : list (ConstantContent * option Padding)) :
  (forall c p, (c, p) ∈ l -> entry_ok fuel c) ->
  exists es, traverse (fun p => from_constant context fuel p.1 NamedNonConfigurable p.2) l = Ok es /\
    flat_map to_bytes es = flat_map (fun p => padded p.2 (image p.1)) l.
Proof.
  induction l as [|[c p] l IH]; intros Hl; [by exists []|]. cbn [traverse]. destruct (Hl c p ltac:(by left) NamedNonConfigurable p) as (e & He & Hb).
  cbn [fst snd]. rewrite He. next_step. destruct IH as (es & -> & Hes); [intros; eapply Hl; by right|]. next_step. exists (e :: es). split; [done|].
  cbn. by rewrite Hb, Hes.
Qed.

Lemma from_constant_struct fuel ty l name p n :
  types context !! ty = Some (TStruct (map cty l)) -> struct_fields context l (map cty l) -> has_size ty n ->
  (forall c, c ∈ l -> typed c /\ entry_ok fuel c) ->
  exists e, from_constant context (S fuel) (mkConstant ty (CStruct l)) name p = Ok e /\ to_bytes e = padded p (image (mkConstant ty (CStruct l))).
Proof.
  intros Ht Hf Hn Hl. cbn [from_constant cty cvalue]. rewrite (is_enum_struct ty l Ht Hf). next_step.
  unfold struct_fields_with_padding, is_struct, matches_content. cbn [cty]. rewrite (get_content_Ok _ _ Ht). cbn [fmap Result_fmap mbind Result_bind].
  unfold elements_of_aggregate_with_padding, extract_enum_tag_and_value. cbn [cty cvalue]. rewrite (is_enum_struct ty l Ht Hf). next_step.
  apply (struct_size _ Hctx ty _ n Ht) in Hn as (ns & Hns & -> & Hlt).
  pose proof (sized_nonneg _ Hctx ty _ ns Ht Hns) as Hpos. pose proof (total_bounds ns Hpos Hlt) as Hb.
  assert (Forall2 (fun c n => has_size (cty c) n) l ns) as Hs by (by apply Forall2_fmap_l in Hns).
  rewrite (struct_paddings l ns Hs Hb). next_step. cbn [expect_some mbind Result_bind].
  destruct (elements_ok fuel (zip_with (fun c n => (c, Some (PadRight (Z.to_nat (align8 n))))) l ns)) as (es & -> & Hes).
  { intros c q (i & x & y & [= -> ->] & Hx & _)%elem_of_lookup_zip_with. apply Hl. by eapply list_elem_of_lookup_2. }
  next_step. eexists. split; [done|]. rewrite new_collection_bytes, Hes. f_equal. cbn [IrImage.image].
  rewrite (enum_union_struct context ty l Ht Hf). clear Hes Hb Hlt Hns Hpos Ht Hf. induction Hs as [|c m l ns Hm _ IH]; [done|]. cbn [zip_with flat_map padded fst snd].
  rewrite IH by (intros; apply Hl; by right). f_equal. unfold word_padded. do 2 f_equal.
  pose proof (image_length _ Hctx c m (proj1 (Hl c ltac:(by left))) Hm). pose proof (round_up_align8 (length (image c))). subst m. lia.
Qed.

Lemma from_constant_enum fuel ty l fields name p n :
  types context !! ty = Some (TStruct fields) -> enum_fields context l fields -> has_size ty n ->
  (forall c, c ∈ l -> entry_ok fuel c) ->
  exists e, from_constant context (S fuel) (mkConstant ty (CStruct l)) name p = Ok e /\ to_bytes e = padded p (image (mkConstant ty (CStruct l))).
Proof.
  intros Ht Hf Hn Hl. destruct (enum_sizes _ Hctx ty l fields n Ht Hf Hn) as (tag & value & u & -> & Hu & Htag & Htag64 & Hnu & Hu8 & _).
  destruct Hf as (tag' & value' & union_ty & variants & [= <- <-] & -> & _ & Hunion & _).
  pose proof (is_enum_enum ty _ _ _ _ Ht Htag64 Hunion) as He. cbn [from_constant cty cvalue]. rewrite He. next_step.
  unfold enum_tag_and_value_with_paddings, elements_of_aggregate_with_padding, extract_enum_tag_and_value. cbn [cty cvalue]. rewrite He. next_step.
  unfold get_field_types. rewrite (get_content_Ok _ _ Ht). next_step. cbn [lookup list_lookup].
  apply (struct_size _ Hctx ty _ n Ht) in Hn as (ns & Hns & Hn & Hlt). inversion Hns as [|? a ? ns1 Ha Hns1]; subst.
  inversion Hns1 as [|? u' ? ns2 Hu' Hns2]; subst. inversion Hns2; subst.
  pose proof (sized_nonneg _ Hctx ty _ _ Ht Hns) as Hpos. pose proof (total_bounds _ Hpos Hlt) as Hb. apply Forall_cons in Hb as [_ [Hb _]%Forall_cons].
  rewrite (aligned_target_Ok union_ty u' Hu' Hb). next_step. cbn [expect_some mbind Result_bind fst snd].
  destruct (elements_ok fuel [(tag, None); (value, Some (PadLeft (Z.to_nat (align8 u'))))]) as (es & Hes & Hbytes).
  { intros c q. rewrite !elem_of_cons, elem_of_nil. intros [[= -> ->]|[[= -> ->]|?]]; [apply Hl; by left|apply Hl; right; by left|done]. }
  rewrite Hes. next_step. eexists. split; [done|]. rewrite new_collection_bytes, Hbytes. f_equal. cbn [IrImage.image flat_map padded fst snd].
  rewrite Hu, app_nil_r. do 3 f_equal. revert Hu. unfold enum_union, size_of. rewrite Ht, Hunion, Hu'. cbn [in_bytes size_in_bytes]. intros [= Hu].
  rewrite align8_id; [done|]. eapply (word_sized_aligned _ Hctx union_ty); done.
Qed.

Lemma from_constant_array fuel ty l elm len name p :
  types context !! ty = Some (TArray elm len) -> (forall c, c ∈ l -> entry_ok fuel c) ->
  exists e, from_constant context (S fuel) (mkConstant ty (CArray l)) name p = Ok e /\ to_bytes e = padded p (image (mkConstant ty (CArray l))).
Proof.
  intros Ht Hl. pose proof (is_enum_no_struct ty _ Ht ltac:(done)) as He. cbn [from_constant cty cvalue]. rewrite He. next_step.
  unfold array_elements_with_padding, is_array, matches_content. cbn [cty]. rewrite (get_content_Ok _ _ Ht). cbn [fmap Result_fmap mbind Result_bind].
  unfold elements_of_aggregate_with_padding, extract_enum_tag_and_value. cbn [cty cvalue]. rewrite He. next_step. cbn [expect_some mbind Result_bind].
  destruct (elements_ok fuel (map (fun el => (el, None)) l)) as (es & -> & Hes).
  { intros c q (x & [= -> ->] & Hx)%list_elem_of_fmap. by apply Hl. }
  next_step. eexists. split; [done|]. rewrite new_collection_bytes, Hes. f_equal. cbn [IrImage.image].
  clear. induction l as [|c l IH]; [done|]. cbn. by rewrite IH.
Qed.

Lemma from_constant_image c fuel n : typed c -> has_size (cty c) n -> (constant_depth c < fuel)%nat -> entry_ok fuel c.
Proof.
  revert fuel n. induction c as [ty v IH] using constant_ind. intros fuel n Hc Hn Hd name p. cbn [cty] in Hn. destruct fuel as [|fuel]; [lia|].
  assert (forall c, c ∈ elems_of v -> (constant_depth c < fuel)%nat) as Hdepth by (intros c Hin; pose proof (constant_depth_elem ty v c Hin); lia).
  destruct (types context !! ty) as [t|] eqn:Ht; [|destruct v; cbn [IrImage.typed] in Hc; rewrite ?Ht in Hc; done].
  destruct v as [| |b|m|m|m|l|l|l|l|c|l]; cbn [IrImage.typed] in Hc; rewrite ?Ht in Hc; destruct t; try done; cbn [elems_of] in *;
    try (lazymatch goal with |- context [CArray _] => fail | |- _ => cbn [from_constant cty cvalue]; rewrite (is_enum_no_struct ty _ Ht) by done; next_step end).
  - eexists. split; [done|]. destruct p; [done|]. by apply pad_id.
  - eexists. split; [done|]. destruct p; [done|]. by apply pad_id.
  - unfold is_uint8, is_uint_of, matches_content. rewrite (get_content_Ok _ _ Ht). cbn [fmap Result_fmap mbind Result_bind]. eexists. split; [done|].
    cbn [IrImage.image]. unfold is_byte_type. rewrite Ht, (Z.eqb_sym 8). destruct (Z.eqb_spec width 8) as [->|Hw].
    + destruct Hc as [_ Hm]. rewrite Z.mod_small by done. destruct p; [done|]. by apply pad_id.
    + unfold new_word. cbn [to_bytes]. rewrite to_be_bytes_8. destruct p; [done|]. apply pad_id. cbn [padded]. by rewrite be_bytes_length.
  - destruct Hc as [_ Hm]. rewrite U256_to_be_bytes_Ok by done. next_step. eexists. split; [done|]. unfold new_byte_array. cbn [to_bytes]. unfold fill_words.
    rewrite be_bytes_length. cbn [Nat.modulo Nat.eqb IrImage.image]. destruct p; [done|]. apply pad_id. cbn [padded]. by rewrite be_bytes_length.
  - rewrite U256_to_be_bytes_Ok by done. next_step. eexists. split; [done|]. unfold new_byte_array. cbn [to_bytes]. unfold fill_words.
    rewrite be_bytes_length. cbn [Nat.modulo Nat.eqb IrImage.image]. destruct p; [done|]. apply pad_id. cbn [padded]. by rewrite be_bytes_length.
  - eexists. split; [done|]. unfold new_byte_array. cbn [to_bytes IrImage.image]. rewrite fill_words_padded by lia. destruct p; [done|].
    apply pad_id. cbn [padded default default_for_byte_array target_size]. unfold word_padded. rewrite pad_length. lia.
  - destruct Hc as (Hl & _ & Hcty). rewrite typed_elems in Hl. apply (array_size _ Hctx ty _ _ n Ht) in Hn as (s & Hs & _).
    eapply from_constant_array; [done|]. intros c Hin. apply (IH c Hin fuel s); [by apply Hl|by rewrite Hcty|by apply Hdepth].
  - destruct Hc as [Hl Hf]. rewrite typed_elems in Hl. assert (forall c m, c ∈ l -> has_size (cty c) m -> entry_ok fuel c) as Hent by (intros; eapply IH; eauto).
    destruct Hf as [Hf|Hf].
    + assert (map cty l = fields) as <- by apply Hf. eapply from_constant_struct; [done|done|done|]. intros c Hin. split; [by apply Hl|].
      apply (struct_size _ Hctx ty _ n Ht) in Hn as (ns & Hns & _). apply list_elem_of_lookup in Hin as Hi. destruct Hi as [i Hi].
      apply Forall2_fmap_l in Hns. destruct (Forall2_lookup_l _ _ _ _ _ Hns Hi) as (m & _ & Hm). by eapply Hent.
    + destruct (enum_sizes _ Hctx ty l fields n Ht Hf Hn) as (tag & value & u & -> & _ & Htag & _ & _ & _ & m & Hm & _).
      eapply from_constant_enum; [done|done|done|]. intros c. rewrite !elem_of_cons, elem_of_nil.
      intros [->|[->|?]]; [apply (Hent tag 8); [by left|done]|apply (Hent value m); [right; by left|done]|done].
Qed.
End data.
