(* ===== verification/IrParts.v ===== *)
(** * The parts of a constant at their offsets

    The bytes of the entry of a constant hold the bytes of every part, at the offset that
    [get_indexed_offset] computes for the indices that lead to the part. *)

From S2P Require Import Prelude IrTypes IrTypeTheory IrLayout AsmRegister AsmData IrConstant IrImage.
Local Open Scope Z_scope.

Section parts.
Context (context : Context) (Hctx : context_ok context).

Abbreviation typed := (typed context).
Abbreviation image := (image context).
Abbreviation has_size ty n := (Type_size context ty = Ok (TypeSize_new n)).
Abbreviation has_length c n := (Z.of_nat (length (image c)) = n).

(** The part of a constant that indices lead to.  The value of an enum is reached by the
    index of the union and the index of its variant. *)
Inductive part : ConstantContent -> list Z -> ConstantContent -> Prop :=
  | part_here c : part c [] c
  | part_field ty l fields i c path c' :
      types context !! ty = Some (TStruct fields) -> struct_fields context l fields -> l !! i = Some c -> part c path c' ->
      part (mkConstant ty (CStruct l)) (Z.of_nat i :: path) c'
  | part_elem ty l elm len i c path c' :
      types context !! ty = Some (TArray elm len) -> l !! i = Some c -> part c path c' ->
      part (mkConstant ty (CArray l)) (Z.of_nat i :: path) c'
  | part_tag ty fields tag value path c' :
      types context !! ty = Some (TStruct fields) -> enum_fields context [tag; value] fields -> part tag path c' ->
      part (mkConstant ty (CStruct [tag; value])) (0 :: path) c'
  | part_variant ty union_ty variants tag value i path c' :
      types context !! ty = Some (TStruct [cty tag; union_ty]) -> types context !! union_ty = Some (TUnion variants) ->
      enum_fields context [tag; value] [cty tag; union_ty] -> variants !! i = Some (cty value) -> part value path c' ->
      part (mkConstant ty (CStruct [tag; value])) (1 :: Z.of_nat i :: path) c'.

(** The bytes [b] are in [a] at the offset [d]. *)
Definition at_offset (a : list Z) (d : Z) (b : list Z) : Prop := exists pre post, a = pre ++ b ++ post /\ Z.of_nat (length pre) = d.

Lemma at_offset_trans a b c d e : at_offset a d b -> at_offset b e c -> at_offset a (d + e) c.
Proof.
  intros (p1 & q1 & -> & H1) (p2 & q2 & -> & H2). exists (p1 ++ p2), (q2 ++ q1). rewrite length_app. split; [by rewrite <- !app_assoc|lia].
Qed.

Lemma at_offset_here a : at_offset a 0 a.
Proof. exists [], []. by rewrite app_nil_r. Qed.

(** The part [c] of a constant of type [ty] is reached by one index. *)
Definition reached (ty : Ty) (n : Z) (whole : list Z) (idx : Z) (acc : Z) (ty' : Ty) (bytes : list Z) : Prop :=
  exists d m, index_type context ty idx = Ok (Some ty') /\ index_offset context (ty, acc) idx = Ok (Some (ty', acc + d)) /\
    has_size ty' m /\ 0 <= d /\ d + m <= n /\ at_offset whole d bytes.

Lemma index_type_field ty l i ty' :
  types context !! ty = Some (TStruct l) \/ types context !! ty = Some (TUnion l) -> l !! i = Some ty' -> index_type context ty (Z.of_nat i) = Ok (Some ty').
Proof. intros [Ht|Ht] Hi; unfold index_type, get_field_type; rewrite (get_content_Ok _ _ _ Ht); next_step; by rewrite Nat2Z.id, Hi. Qed.

Lemma flat_map_split {A} (f : A -> list Z) l i x :
  l !! i = Some x -> flat_map f l = flat_map f (take i l) ++ f x ++ flat_map f (drop (S i) l).
Proof. intros Hi. rewrite <- (take_drop_middle l i x Hi) at 1. by rewrite flat_map_app. Qed.

Lemma field_reached ty l fields i c n acc :
  types context !! ty = Some (TStruct fields) -> struct_fields context l fields -> (forall c, c ∈ l -> typed c) ->
  l !! i = Some c -> has_size ty n -> 0 <= acc -> acc + n < 2 ^ 64 ->
  reached ty n (image (mkConstant ty (CStruct l))) (Z.of_nat i) acc (cty c) (image c).
Proof.
  intros Ht Hf Hl Hi Hn Hacc Hlt. assert (map cty l = fields) as <- by apply Hf.
  assert (map cty l !! i = Some (cty c)) as Hi' by (change (map cty l) with (cty <$> l); by rewrite list_lookup_fmap, Hi).
  destruct (struct_step _ Hctx ty _ i _ n acc Ht Hi' Hn Hacc Hlt) as (ns & m & Hns & Hm & Hcm & [Hd Hin _] & Ho).
  exists (total (take i ns)), m. split; [eapply index_type_field; eauto|]. split_and!; [done..|]. cbn [IrImage.image].
  rewrite (enum_union_struct context ty l Ht Hf), (flat_map_split _ l i c Hi).
  exists (flat_map (fun c => word_padded (image c)) (take i l)), (replicate (round_up (length (image c)) - length (image c)) 0 ++ flat_map (fun c => word_padded (image c)) (drop (S i) l)).
  split; [unfold word_padded at 2, pad; cbn [target_size]; by rewrite <- !app_assoc|]. apply (flat_map_total _).
  apply Forall2_take, fields_sized; [|done]. intros c' Hc'. split; [by apply Hl|]. intros k. by apply (image_length _ Hctx), Hl.
Qed.

Lemma elem_reached ty l elm len i c n acc :
  types context !! ty = Some (TArray elm len) -> len = Z.of_nat (length l) -> (forall c, c ∈ l -> typed c /\ cty c = elm) ->
  l !! i = Some c -> has_size ty n -> 0 <= acc -> acc + n < 2 ^ 64 ->
  reached ty n (image (mkConstant ty (CArray l))) (Z.of_nat i) acc (cty c) (image c).
Proof.
  intros Ht -> Hl Hi Hn Hacc Hlt. apply lookup_lt_Some in Hi as Hlen. pose proof (list_elem_of_lookup_2 _ _ _ Hi) as Hin.
  rewrite (proj2 (Hl c Hin)). destruct (array_step _ Hctx ty elm _ (Z.of_nat i) n acc Ht ltac:(lia) Hn Hacc Hlt) as (m & Hm & [Hd Hins _] & Ho).
  exists (m * Z.of_nat i), m. split.
  { unfold index_type, get_field_type. rewrite (get_content_Ok _ _ _ Ht). next_step. by rewrite (proj2 (Z.ltb_lt _ _)) by lia. }
  split_and!; [done..|]. cbn [IrImage.image]. rewrite (flat_map_split _ l i c Hi). exists (flat_map image (take i l)), (flat_map image (drop (S i) l)).
  split; [done|]. assert (forall c, c ∈ take i l -> has_length c m) as Hall.
  { intros c' Hc'. assert (c' ∈ l) as Hc'' by (eapply sublist_subseteq; [apply sublist_take|done]). destruct (Hl c' Hc'') as [Ht' Hty'].
    apply (image_length _ Hctx); [done|by rewrite Hty']. }
  assert (length (take i l) = i) as Hti by (rewrite length_take; lia). rewrite <- Hti at 2. clear - Hall.
  induction (take i l) as [|x l' IH]; [cbn; lia|]. cbn [flat_map]. rewrite length_app, Nat2Z.inj_add, IH by (intros; apply Hall; by right).
  rewrite (Hall x ltac:(by left)), length_cons, Nat2Z.inj_succ. lia.
Qed.

Lemma enum_image ty fields tag value n :
  types context !! ty = Some (TStruct fields) -> enum_fields context [tag; value] fields -> typed tag -> typed value -> has_size ty n ->
  exists u m, has_size (cty tag) 8 /\ has_length tag 8 /\ has_size (cty value) m /\ has_length value m /\ 0 <= m <= u /\ n = 8 + u /\
    enum_union context ty = Some (Z.to_nat u) /\
    image (mkConstant ty (CStruct [tag; value])) = image tag ++ replicate (Z.to_nat (u - m)) 0 ++ image value.
Proof.
  intros Ht Hf Htag Hvalue Hn. destruct (enum_sizes _ Hctx ty _ fields n Ht Hf Hn) as (tag' & value' & u & [= <- <-] & Hu & Hts & _ & -> & _ & m & Hm & Hm0 & Hle).
  pose proof (align8_bounds m) as [? _]. pose proof (image_length _ Hctx tag 8 Htag Hts) as Hlt. pose proof (image_length _ Hctx value m Hvalue Hm) as Hlv.
  exists u, m. split_and!; [done|done|done|done|lia|lia|done|done|]. cbn [IrImage.image]. rewrite Hu. do 2 f_equal. unfold pad. cbn [target_size]. f_equal. f_equal. lia.
Qed.

(** Both fields of an enum, and the variant in the union *)
Lemma tag_reached ty fields tag value n acc :
  types context !! ty = Some (TStruct fields) -> enum_fields context [tag; value] fields -> typed tag -> typed value ->
  has_size ty n -> 0 <= acc -> acc + n < 2 ^ 64 ->
  reached ty n (image (mkConstant ty (CStruct [tag; value]))) 0 acc (cty tag) (image tag).
Proof.
  intros Ht Hf Htag Hvalue Hn Hacc Hlt. destruct (enum_image ty fields tag value n Ht Hf Htag Hvalue Hn) as (u & m & Hts & _ & _ & _ & Hm & Hnu & _ & ->).
  destruct Hf as (tag' & value' & union_ty & vs & [= <- <-] & -> & _).
  destruct (struct_step _ Hctx ty _ 0 (cty tag) n acc Ht eq_refl Hn Hacc Hlt) as (ns & k & _ & _ & Hk & [] & Ho).
  exists 0, k. split; [by apply (index_type_field ty _ 0 _ (or_introl Ht))|]. split_and!; [done|done|lia|cbn in *; lia|].
  exists [], (replicate (Z.to_nat (u - m)) 0 ++ image value). done.
Qed.

Lemma value_reached ty tag value union_ty n acc :
  types context !! ty = Some (TStruct [cty tag; union_ty]) -> enum_fields context [tag; value] [cty tag; union_ty] -> typed tag -> typed value ->
  has_size ty n -> 0 <= acc -> acc + n < 2 ^ 64 ->
  reached ty n (image (mkConstant ty (CStruct [tag; value]))) 1 acc union_ty (pad (PadLeft (Z.to_nat (size_of context union_ty))) (image value)).
Proof.
  intros Ht Hf Htag Hvalue Hn Hacc Hlt. destruct (enum_image ty _ tag value n Ht Hf Htag Hvalue Hn) as (u & m & Hts & Htl & Hvs & Hvl & Hm & Hnu & Hu & ->).
  destruct (struct_step _ Hctx ty _ 1 union_ty n acc Ht eq_refl Hn Hacc Hlt) as (ns & k & Hns & Hnk & Hk & [] & Ho).
  inversion Hns as [|? a ? ns1 Ha Hns1]; subst. assert (a = 8) as -> by congruence. cbn [take] in *. change (total [8]) with 8 in *.
  exists 8, k. split; [by apply (index_type_field ty _ 1 _ (or_introl Ht))|]. split_and!; [done|done|lia|done|].
  exists (image tag), []. split; [|done]. rewrite app_nil_r. f_equal. unfold pad. cbn [target_size]. do 2 f_equal.
  destruct Hf as (? & ? & ? & vs & [= <- <-] & [= <-] & _ & Hunion & _). revert Hu. unfold enum_union. rewrite Ht, Hunion. intros [= ->]. lia.
Qed.

Lemma variant_reached union_ty variants value i n acc :
  types context !! union_ty = Some (TUnion variants) -> variants !! i = Some (cty value) -> typed value -> has_size union_ty n -> 0 <= acc -> acc + n < 2 ^ 64 ->
  reached union_ty n (pad (PadLeft (Z.to_nat (size_of context union_ty))) (image value)) (Z.of_nat i) acc (cty value) (image value).
Proof.
  intros Ht Hi Hvalue Hn Hacc Hlt. destruct (union_step _ Hctx union_ty variants i _ n acc Ht Hi Hn Hacc Hlt) as (m & Hm & [] & Ho).
  exists (n - m), m. split; [by apply (index_type_field union_ty _ i _ (or_intror Ht))|]. split_and!; [done..|].
  pose proof (image_length _ Hctx value m Hvalue Hm). unfold size_of. rewrite Hn. cbn [in_bytes size_in_bytes]. unfold pad. cbn [target_size].
  exists (replicate (Z.to_nat n - length (image value)) 0), []. rewrite app_nil_r, length_replicate. split; [done|lia].
Qed.

(** Indices lead from the bytes of a type to those of a part. *)
Definition leads (ty : Ty) (whole : list Z) (path : list Z) (ty' : Ty) (bytes : list Z) : Prop :=
  forall n acc, has_size ty n -> 0 <= acc -> acc + n < 2 ^ 64 ->
  exists d m, try_fold (index_type context) ty path = Ok (Some ty') /\ try_fold (index_offset context) (ty, acc) path = Ok (Some (ty', acc + d)) /\
    has_size ty' m /\ 0 <= d /\ d + m <= n /\ at_offset whole d bytes.

Lemma leads_step ty whole idx ty1 b1 path ty' b' :
  (forall n acc, has_size ty n -> 0 <= acc -> acc + n < 2 ^ 64 -> reached ty n whole idx acc ty1 b1) ->
  leads ty1 b1 path ty' b' -> leads ty whole (idx :: path) ty' b'.
Proof.
  intros H1 H2 n acc Hn Hacc Hlt. destruct (H1 n acc Hn Hacc Hlt) as (d & m & Hi & Ho & Hm & Hd & Hin & Hat). cbn [try_fold]. rewrite Hi, Ho. next_step.
  destruct (H2 m (acc + d) Hm) as (e & k & Hi' & Ho' & Hk & He & Hin' & Hat'); [lia..|]. exists (d + e), k. rewrite Hi', Ho'.
  split_and!; [done|do 3 f_equal; lia|done|lia|lia|]. by eapply at_offset_trans.
Qed.

Lemma part_leads c path c' : part c path c' -> typed c -> typed c' /\ leads (cty c) (image c) path (cty c') (image c').
Proof.
  induction 1 as [c|ty l fields i c path c' Ht Hf Hi _ IH|ty l elm len i c path c' Ht Hi _ IH|ty fields tag value path c' Ht Hf _ IH
                 |ty union_ty variants tag value i path c' Ht Hu Hf Hi _ IH]; intros Hc.
  - split; [done|]. intros n acc Hn Hacc Hlt. exists 0, n. cbn. rewrite Z.add_0_r. split_and!; [done..|lia|apply at_offset_here].
  - cbn [IrImage.typed] in Hc. rewrite Ht in Hc. destruct Hc as [Hl _]. rewrite typed_elems in Hl.
    destruct IH as [Hc' Hleads]; [apply Hl; by eapply list_elem_of_lookup_2|]. split; [done|]. eapply leads_step; [|done]. intros. by eapply field_reached.
  - cbn [IrImage.typed] in Hc. rewrite Ht in Hc. destruct Hc as (Hl & Hlen & Hcty). rewrite typed_elems in Hl.
    destruct IH as [Hc' Hleads]; [apply Hl; by eapply list_elem_of_lookup_2|]. split; [done|]. eapply leads_step; [|done]. intros. eapply elem_reached; eauto.
  - cbn [IrImage.typed] in Hc. rewrite Ht in Hc. destruct Hc as [(Htag & Hvalue & _) _].
    destruct (IH Htag) as [Hc' Hleads]. split; [done|]. eapply leads_step; [|done]. intros. by eapply tag_reached.
  - cbn [IrImage.typed] in Hc. rewrite Ht in Hc. destruct Hc as [(Htag & Hvalue & _) _]. destruct (IH Hvalue) as [Hc' Hleads]. split; [done|].
    eapply leads_step; [intros; by eapply value_reached|]. eapply leads_step; [intros; by eapply variant_reached|done].
Qed.

(** C30. Constants in the data section: a well-typed constant has an entry as long as its
    type, and the bytes of the entry of every part are found in it at the offset of the
    indices of the part: in structs, arrays, and for the tag and the variant of an enum. *)
Theorem constant_parts_at_offsets c n name path c' :
  typed c -> has_size (cty c) n -> part c path c' ->
  exists e, Entry_from_constant context c name None = Ok e /\ Z.of_nat (length (to_bytes e)) = n /\
  exists offset n' e', get_indexed_offset context (cty c) path = Ok (Some offset) /\ has_size (cty c') n' /\
    Entry_from_constant context c' name None = Ok e' /\ to_bytes e' = take (Z.to_nat n') (drop (Z.to_nat offset) (to_bytes e)).
Proof.
  intros Hc Hn Hpart. destruct (part_leads c path c' Hpart Hc) as [Hc' Hleads].
  assert (is_Some (types context !! cty c)) as Hty.
  { destruct c as [ty v]. cbn [cty]. destruct (types context !! ty) eqn:Ht; [by eexists|]. destruct v; cbn [IrImage.typed] in Hc; rewrite ?Ht in Hc; done. }
  pose proof (Type_size_bound _ Hctx _ n Hty Hn). destruct (Hleads n 0 Hn ltac:(lia) ltac:(lia)) as (d & m & _ & Ho & Hm & Hd & Hin & (pre & post & Heq & Hpre)).
  destruct (from_constant_image _ Hctx c (S (constant_depth c)) n Hc Hn ltac:(lia) name None) as (e & He & Hb). cbn [padded] in Hb.
  destruct (from_constant_image _ Hctx c' (S (constant_depth c')) m Hc' Hm ltac:(lia) name None) as (e' & He' & Hb'). cbn [padded] in Hb'.
  exists e. split; [done|]. rewrite Hb. split; [by apply (image_length _ Hctx)|]. exists d, m, e'. unfold get_indexed_offset. rewrite Ho.
  split_and!; [done|done|done|]. pose proof (image_length _ Hctx c' m Hc' Hm) as Hlen. rewrite Hb', Heq, drop_app_length' by lia.
  by rewrite take_app_length' by lia.
Qed.
End parts.

(** ** Sample constants *)

(** The variant [{7, 9}] of the sample enum, and a struct of an array and of the enum *)
Definition sample_variant : ConstantContent :=
  mkConstant 11%positive (CStruct [mkConstant 4%positive (CUint 7); mkConstant 9%positive (CB256 9)]).
Definition sample_enum : ConstantContent := mkConstant 14%positive (CStruct [mkConstant 7%positive (CUint 1); sample_variant]).
Definition sample_array : ConstantContent := mkConstant 12%positive (CArray (map (fun n => mkConstant 4%positive (CUint n)) [1; 2; 3; 4; 5])).
Definition sample_struct : ConstantContent := mkConstant 15%positive (CStruct [sample_array; sample_enum]).

Lemma sample_enum_fields : enum_fields sample_context [mkConstant 7%positive (CUint 1); sample_variant] [7; 13]%positive.
Proof. exists (mkConstant 7%positive (CUint 1)), sample_variant, 13%positive, [7; 11; 4]%positive. split_and!; [done..|]. cbn. set_solver. Qed.

Lemma sample_struct_fields l fields :
  map cty l = fields -> Forall (fun f => match types sample_context !! f with Some (TUnion _) => False | _ => True end) fields -> struct_fields sample_context l fields.
Proof. intros Hl Hf. split; [done|]. intros f u Hin Hu. rewrite Forall_forall in Hf. specialize (Hf f Hin). by rewrite Hu in Hf. Qed.

Lemma sample_enum_typed : typed sample_context sample_enum.
Proof.
  repeat split; try (by vm_compute); [|right; apply sample_enum_fields]. left. apply sample_struct_fields; [done|repeat constructor].
Qed.

Lemma sample_struct_typed : typed sample_context sample_struct.
Proof.
  split; [|left; apply sample_struct_fields; [done|repeat constructor]]. split; [|split; [apply sample_enum_typed|done]].
  split; [by repeat split|]. split; [done|]. intros c Hc. cbn in Hc. set_solver.
Qed.

Lemma constant_parts_at_offsets_witness : exists e, Entry_from_constant sample_context sample_struct NamedNonConfigurable None = Ok e /\
  Z.of_nat (length (to_bytes e)) = 56 /\
  exists offset n' e', get_indexed_offset sample_context 15%positive [1; 1; 1; 0] = Ok (Some offset) /\
    Type_size sample_context 4%positive = Ok (TypeSize_new n') /\
    Entry_from_constant sample_context (mkConstant 4%positive (CUint 7)) NamedNonConfigurable None = Ok e' /\
    to_bytes e' = take (Z.to_nat n') (drop (Z.to_nat offset) (to_bytes e)).
Proof.
  apply (constant_parts_at_offsets sample_context sample_context_ok sample_struct 56 NamedNonConfigurable [1; 1; 1; 0] (mkConstant 4%positive (CUint 7))).
  - apply sample_struct_typed.
  - by vm_compute.
  - apply (part_field _ _ _ [12; 14]%positive 1 sample_enum); [done|apply sample_struct_fields; [done|repeat constructor]|done|].
    apply (part_variant _ _ 13%positive [7; 11; 4]%positive _ _ 1); [done|done|apply sample_enum_fields|done|].
    apply (part_field _ _ _ [4; 9]%positive 0 (mkConstant 4%positive (CUint 7))); [done|apply sample_struct_fields; [done|repeat constructor]|done|]. constructor.
Defined.
