(* ===== verification/IrUnique.v ===== *)
(** * Unique constants

    [Constant::unique] gives equal constants one key: the comparison of constants returns,
    it is reflexive on the constants that it can compare, and on constants whose types
    have neither unions nor the never type it is equality. *)

From S2P Require Import Prelude IrTypes IrTypeTheory AsmRegister AsmData IrConstant IrImage IrLayout IrParts.
Local Open Scope Z_scope.

Section compare.
Context (context : Context) (Hctx : context_ok context).

(** A property of the types of a constant and of all of its parts *)
Fixpoint all_types (P : Ty -> Prop) (c : ConstantContent) : Prop :=
  match c with
  | mkConstant ty v =>
      P ty /\
      match v with
      | CArray l | CSlice l | CStruct l => foldr (fun c Q => all_types P c /\ Q) True l
      | CReference c => all_types P c
      | _ => True
      end
  end.

(** The constants that the comparison knows: others are different from themselves. *)
Fixpoint comparable (c : ConstantContent) : Prop :=
  match c with
  | mkConstant _ v =>
      match v with
      | CArray l | CStruct l => foldr (fun c Q => comparable c /\ Q) True l
      | CUndef | CSlice _ | CReference _ | CRawUntypedSlice _ => False
      | _ => True
      end
  end.

(** Arrays and structs have as many elements as their types say. *)
Fixpoint full (c : ConstantContent) : Prop :=
  match c with
  | mkConstant ty v =>
      match v with
      | CArray l => (exists elm, types context !! ty = Some (TArray elm (Z.of_nat (length l)))) /\ foldr (fun c Q => full c /\ Q) True l
      | CStruct l => (exists fields, types context !! ty = Some (TStruct fields) /\ length fields = length l) /\ foldr (fun c Q => full c /\ Q) True l
      | _ => True
      end
  end.

Lemma foldr_and {A} (P : A -> Prop) l : foldr (fun c Q => P c /\ Q) True l <-> forall c, c ∈ l -> P c.
Proof.
  induction l as [|x l IH]; cbn; [split; [by intros _ c ?%elem_of_nil|done]|]. rewrite IH. split.
  - intros [Hx Hl] c [->|Hc]%elem_of_cons; [done|by apply Hl].
  - intros Hl. split; [apply Hl; by left|]. intros c Hc. apply Hl. by right.
Qed.

(** The loop of the comparison of elements *)
Fixpoint all_equal (l r : list ConstantContent) : Result bool :=
  match l, r with
  | x :: l', y :: r' => b ← Constant_eq context x y; if (b : bool) then all_equal l' r' else Ok false
  | _, _ => Ok true
  end.

Lemma Constant_eq_array ty ty' l r :
  Constant_eq context (mkConstant ty (CArray l)) (mkConstant ty' (CArray r)) = (t ← Type_eq context ty ty'; if negb t then Ok false else all_equal l r).
Proof. cbn. destruct (Type_eq context ty ty') as [[]|]; [|done|done]. cbn. revert r. induction l as [|x l IH]; intros [|y r]; cbn; [done..|]. destruct (Constant_eq context x y) as [[]|]; cbn; [apply IH|done|done]. Qed.

Lemma Constant_eq_struct ty ty' l r :
  Constant_eq context (mkConstant ty (CStruct l)) (mkConstant ty' (CStruct r)) = (t ← Type_eq context ty ty'; if negb t then Ok false else all_equal l r).
Proof. cbn. destruct (Type_eq context ty ty') as [[]|]; [|done|done]. cbn. revert r. induction l as [|x l IH]; intros [|y r]; cbn; [done..|]. destruct (Constant_eq context x y) as [[]|]; cbn; [apply IH|done|done]. Qed.

Abbreviation known := (all_types (fun ty => is_Some (types context !! ty))).
Abbreviation plain_types := (all_types (plain context)).

(** What the comparison of two constants answers *)
Definition compares (c c' : ConstantContent) (r : Result bool) : Prop :=
  exists b, r = Ok b /\ (c = c' -> comparable c -> b = true) /\
    (full c -> full c' -> plain_types c -> plain_types c' -> b = true -> c = c').

Lemma all_equal_answer l r :
  (forall x y, x ∈ l -> y ∈ r -> compares x y (Constant_eq context x y)) ->
  exists b, all_equal l r = Ok b /\ (l = r -> (forall x, x ∈ l -> comparable x) -> b = true) /\
    ((forall x, x ∈ l -> full x /\ plain_types x) -> (forall y, y ∈ r -> full y /\ plain_types y) -> length l = length r -> b = true -> l = r).
Proof.
  revert r. induction l as [|x l IH]; intros [|y r] Hxy; [by exists true..|]. cbn [all_equal].
  destruct (Hxy x y ltac:(by left) ltac:(by left)) as (b & -> & Hrefl & Heq). next_step.
  destruct (IH r) as (b' & Hb' & Hrefl' & Heq'); [intros; apply Hxy; by right|].
  exists (b && b'). split; [destruct b; [done|by rewrite andb_false_l]|]. split.
  - intros [= <- <-] Hc. rewrite Hrefl, Hrefl'; [done|done| |done|apply Hc; by left]. intros z Hz. apply Hc. by right.
  - intros Hl Hr [= Hlen] [-> ->]%andb_true_iff. destruct (Hl x ltac:(by left)), (Hr y ltac:(by left)). f_equal; [by apply Heq|].
    apply Heq'; [intros; apply Hl; by right|intros; apply Hr; by right|done|done].
Qed.

Lemma elems_answer ty ty' l r v v' :
  (v = CArray l /\ v' = CArray r) \/ (v = CStruct l /\ v' = CStruct r) ->
  answer context ty ty' (Type_eq context ty ty') -> (forall x y, x ∈ l -> y ∈ r -> compares x y (Constant_eq context x y)) ->
  compares (mkConstant ty v) (mkConstant ty' v') (t ← Type_eq context ty ty'; if negb t then Ok false else all_equal l r).
Proof.
  intros Hv (t & -> & Hrefl & Hplain) Hxy. next_step. destruct (all_equal_answer l r Hxy) as (b & Hb & Hb1 & Hb2).
  exists (t && b). split; [by destruct t|]. split.
  - intros Heq Hc. assert (ty = ty' /\ l = r) as [<- <-] by (destruct Hv as [[-> ->]|[-> ->]]; by injection Heq).
    rewrite Hrefl, Hb1; [done|done| |done]. destruct Hv as [[-> _]|[-> _]]; cbn in Hc; by rewrite foldr_and in Hc.
  - intros Hf Hf' Hp Hp' [-> ->]%andb_true_iff. assert (ty = ty') as <- by (destruct Hv as [[-> ->]|[-> ->]]; (apply Hplain; [apply Hp|apply Hp'|done])).
    assert (l = r) as <-; [|by destruct Hv as [[-> ->]|[-> ->]]].
    assert (forall c, c ∈ l -> full c /\ plain_types c) as Hl.
    { intros c Hc. destruct Hv as [[-> ->]|[-> ->]]; cbn in Hf, Hp; rewrite foldr_and in Hf, Hp; (split; [by apply (proj2 Hf)|by apply (proj2 Hp)]). }
    assert (forall c, c ∈ r -> full c /\ plain_types c) as Hr.
    { intros c Hc. destruct Hv as [[-> ->]|[-> ->]]; cbn in Hf', Hp'; rewrite foldr_and in Hf', Hp'; (split; [by apply (proj2 Hf')|by apply (proj2 Hp')]). }
    apply Hb2; [done|done| |done]. destruct Hv as [[-> ->]|[-> ->]]; cbn in Hf, Hf'.
    + destruct Hf as [[? Hfl] _], Hf' as [[? Hfr] _]. rewrite Hfl in Hfr. injection Hfr as _ Hlen. lia.
    + destruct Hf as [(? & Hfl & Hll) _], Hf' as [(? & Hfr & Hrl) _]. rewrite Hfl in Hfr. injection Hfr as <-. congruence.
Qed.

Lemma Constant_eq_answer c c' : known c -> known c' -> compares c c' (Constant_eq context c c').
Proof.
  revert c'. induction c as [ty v IH] using constant_ind. intros [ty' v'] Hk Hk'.
  assert (answer context ty ty' (Type_eq context ty ty')) as Hty by (apply Type_eq_answer; [done|apply Hk|apply Hk']).
  assert (forall (f : bool), (ty = ty' -> v = v' -> comparable (mkConstant ty v) -> f = true) -> (f = true -> v = v') ->
    Constant_eq context (mkConstant ty v) (mkConstant ty' v') = (t ← Type_eq context ty ty'; if negb t then Ok false else Ok f) ->
    compares (mkConstant ty v) (mkConstant ty' v') (Constant_eq context (mkConstant ty v) (mkConstant ty' v'))) as Hscalar.
  { intros f H1 H2 ->. destruct Hty as (t & -> & Hrefl & Hplain). next_step. exists (t && f). split; [by destruct t|]. split.
    - intros [= <- Hv] Hc. rewrite Hrefl, H1; done.
    - intros _ _ [Hp _] [Hp' _] [-> Hf]%andb_true_iff. rewrite (Hplain Hp Hp' eq_refl), (H2 Hf). done. }
  destruct v, v'; try (apply (Hscalar false); [done|done|done]); try (apply (Hscalar true); [done|done|done]).
  - apply (Hscalar (Bool.eqb b b0)); [by intros _ [= ->]; rewrite Bool.eqb_reflx|by intros ->%Bool.eqb_prop|done].
  - apply (Hscalar (n =? n0)); [intros _ [= ->]; lia|by intros ->%Z.eqb_eq|done].
  - apply (Hscalar (n =? n0)); [intros _ [= ->]; lia|by intros ->%Z.eqb_eq|done].
  - apply (Hscalar (n =? n0)); [intros _ [= ->]; lia|by intros ->%Z.eqb_eq|done].
  - apply (Hscalar (bool_decide (bytes = bytes0))); [intros _ [= ->] _; by rewrite bool_decide_true|by intros ->%bool_decide_eq_true|done].
  - rewrite Constant_eq_array. cbn in Hk, Hk', IH. rewrite foldr_and in Hk, Hk'. apply elems_answer; [by left|done|]. intros x y Hx Hy. apply IH; [done|by apply Hk|by apply Hk'].
  - rewrite Constant_eq_struct. cbn in Hk, Hk', IH. rewrite foldr_and in Hk, Hk'. apply elems_answer; [by right|done|]. intros x y Hx Hy. apply IH; [done|by apply Hk|by apply Hk'].
Qed.
End compare.

Section pool.
Context `{SlotMap} (hash : ConstantContent -> Z) (context : Context) (Hctx : context_ok context).

Abbreviation known := (all_types (fun ty => is_Some (types context !! ty))).
Abbreviation unique := (unique hash context).

(** Every key in the hash table is a constant of known types with that hash. *)
Definition pool_ok (self : Constants) : Prop :=
  forall h l k, constants_map self !! h = Some l -> k ∈ l -> exists c, constants self !! k = Some c /\ known c /\ hash c = h.

(** The search returns the first key that holds an equal constant. *)
Lemma find_equal_spec m constant l :
  known constant -> (forall k, k ∈ l -> exists c, m !! k = Some c /\ known c) ->
  exists o, find_equal context m constant l = Ok o /\
  match o with
  | Some k => exists l1 l2 c, l = l1 ++ k :: l2 /\ m !! k = Some c /\ Constant_eq context c constant = Ok true /\ find_equal context m constant l1 = Ok None
  | None => True
  end.
Proof.
  intros Hk. induction l as [|k l IH]; intros Hl; [by exists None|]. destruct (Hl k ltac:(by left)) as (c & Hc & Hkc). cbn [find_equal]. rewrite Hc. cbn [expect_some]. next_step.
  destruct (Constant_eq_answer context Hctx c constant Hkc Hk) as (b & Hb & _). rewrite Hb. next_step.
  destruct b; [exists (Some k); split; [done|]; by exists [], l, c|]. destruct IH as (o & Ho & Hspec); [intros; apply Hl; by right|].
  exists o. split; [done|]. destruct o as [k'|]; [|done]. destruct Hspec as (l1 & l2 & c' & -> & Hc' & Heq & Hnone). exists (k :: l1), l2, c'.
  split_and!; [done..|]. cbn [find_equal]. rewrite Hc. cbn [expect_some]. next_step. rewrite Hb. next_step. done.
Qed.

Lemma find_equal_app m m' constant l k c :
  find_equal context m constant l = Ok None -> m ⊆ m' -> m' !! k = Some c -> Constant_eq context c constant = Ok true ->
  find_equal context m' constant (l ++ [k]) = Ok (Some k).
Proof.
  intros Hn Hsub Hk Heq. induction l as [|x l IH]; cbn [find_equal app] in *; [by rewrite Hk; cbn [expect_some]; next_step; rewrite Heq|].
  destruct (m !! x) as [cx|] eqn:Hx; [|done]. rewrite (lookup_weaken _ _ _ _ Hx Hsub). cbn [expect_some]. next_step. cbn in Hn.
  destruct (Constant_eq context cx constant) as [[]|]; [done| |done]. next_step. by apply IH.
Qed.

(** C31. Unique constants: on a pool of constants with known types a constant is found or
    added; older constants keep their keys; the key holds a constant that is equal for the
    comparison of constants, which for constants of types without unions and the never type
    is the constant itself; and asking again for a constant without undefined parts, slices
    and references ([comparable]) returns the same key and changes nothing. *)
Theorem unique_correct self c :
  pool_ok self -> known c ->
  exists self' k c', unique self c = Ok (self', k) /\ pool_ok self' /\ constants self ⊆ constants self' /\
    constants self' !! k = Some c' /\ (c' = c \/ Constant_eq context c' c = Ok true) /\
    (full context c -> full context c' -> all_types (plain context) c -> all_types (plain context) c' -> c' = c) /\
    (comparable c -> unique self' c = Ok (self', k)).
Proof.
  intros Hpool Hk. unfold IrConstant.unique. set (h := hash c). set (found := default [] (constants_map self !! h)).
  assert (forall k, k ∈ found -> exists c, constants self !! k = Some c /\ known c /\ hash c = h) as Hfound.
  { intros k. unfold found. destruct (constants_map self !! h) as [l|] eqn:Hl; cbn; [by apply Hpool|by intros ?%elem_of_nil]. }
  destruct (find_equal_spec (constants self) c found Hk) as (o & Ho & Hspec).
  { intros k Hin. destruct (Hfound k Hin) as (? & ? & ? & _). by eexists. }
  rewrite Ho. next_step. destruct o as [k|].
  - destruct Hspec as (l1 & l2 & c' & Hl & Hc' & Heq & _). exists (mkConstants (constants self) (<[h := found]> (constants_map self))), k, c'. cbn.
    assert (known c') as Hk' by (destruct (Hfound k) as (c0 & Hc0 & Hk0 & _); [rewrite Hl; set_solver|]; congruence).
    split_and!; [done| |done|done|by right| |].
    + intros h' l' k' Hl'. cbn [constants constants_map] in *. apply lookup_insert_Some in Hl' as [[<- <-]|[_ ?]]; [apply Hfound|by eapply Hpool].
    + intros. destruct (Constant_eq_answer context Hctx c' c Hk' Hk) as (b & Hb & _ & Hpl). apply Hpl; try done. congruence.
    + intros _. rewrite lookup_insert_eq. cbn [default]. unfold default, id. rewrite Ho. next_step. by rewrite insert_insert_eq.
  - set (k := new_key (constants self)). pose proof (new_key_fresh (constants self)) as Hfresh. fold k in Hfresh.
    exists (mkConstants (<[k := c]> (constants self)) (<[h := found ++ [k]]> (constants_map self))), k, c. cbn.
    split_and!; [done| |by apply insert_subseteq|by rewrite lookup_insert_eq|by left|done|].
    + assert (forall h' k', (exists c0, constants self !! k' = Some c0 /\ known c0 /\ hash c0 = h') -> exists c0, <[k:=c]> (constants self) !! k' = Some c0 /\ known c0 /\ hash c0 = h') as Hw.
      { intros h' k' (c0 & H0 & ? & ?). exists c0. split; [|done]. eapply lookup_weaken; [exact H0|by apply insert_subseteq]. }
      intros h' l' k' Hl' Hin. cbn [constants constants_map] in *. apply lookup_insert_Some in Hl' as [[<- <-]|[_ Hl']].
      * apply elem_of_app in Hin as [Hin| Hin%list_elem_of_singleton]; [by apply Hw, Hfound|]. subst k'. exists c. by rewrite lookup_insert_eq.
      * apply Hw. by eapply Hpool.
    + intros Hcomp. rewrite lookup_insert_eq. unfold default, id. destruct (Constant_eq_answer context Hctx c c Hk Hk) as (b & Hb & Hrefl & _).
      rewrite (find_equal_app (constants self) _ c found k c); [| |by apply insert_subseteq|by rewrite lookup_insert_eq|by rewrite Hb, Hrefl].
      * next_step. by rewrite insert_insert_eq.
      * done.
Qed.
End pool.

(** A pool whose constants have the same hash *)
Definition sample_pool : Constants := mkConstants {[ 1%positive := sample_enum ]} {[ 0 := [1%positive] ]}.

Lemma unique_correct_witness : exists self' k c', unique (fun _ => 0) sample_context sample_pool sample_variant = Ok (self', k) /\
  constants sample_pool ⊆ constants self' /\ constants self' !! k = Some c' /\ unique (fun _ => 0) sample_context self' sample_variant = Ok (self', k).
Proof.
  destruct (unique_correct (fun _ => 0) sample_context sample_context_ok sample_pool sample_variant) as (self' & k & c' & H1 & _ & H2 & H3 & _ & _ & H4).
  - intros h l k Hl Hk. cbn [constants_map sample_pool] in Hl. apply lookup_singleton_Some in Hl as [<- <-]. apply list_elem_of_singleton in Hk as ->. exists sample_enum.
    split_and!; [done| |done]. repeat split; by eexists.
  - repeat split; by eexists.
  - exists self', k, c'. split_and!; [done..|]. apply H4. by repeat split.
Defined.

(** * Scalar constants in the context

    In a pool that was built by [Constant::unique], a scalar constant (a boolean or an
    integer) has one key, so that comparing keys compares the values. *)

Definition scalar_value (v : ConstantValue) : bool := match v with CBool _ | CUint _ | CU256 _ | CB256 _ => true | _ => false end.
Definition scalar_type (t : TypeContent) : bool := match t with TBool | TUint _ | TB256 => true | _ => false end.

Section pool.
Context `{SlotMap} (hash : ConstantContent -> Z) (context : Context) (Hctx : context_ok context).

Definition scalar (c : ConstantContent) : Prop :=
  scalar_value (cvalue c) = true /\ exists t, types context !! cty c = Some t /\ scalar_type t = true.

Record pool (self : Constants) : Prop := {
  pl_ok : pool_ok hash context self;
  pl_scalar k c : constants self !! k = Some c -> scalar_value (cvalue c) = true -> scalar c;
  pl_in k c : constants self !! k = Some c -> scalar c -> exists l, constants_map self !! hash c = Some l /\ k ∈ l;
  pl_inj k k' c : scalar c -> constants self !! k = Some c -> constants self !! k' = Some c -> k = k';
}.

Lemma scalar_known c : scalar c -> all_types (fun ty => is_Some (types context !! ty)) c.
Proof. destruct c as [ty v]. intros [Hv (t & Ht & _)]. cbn in *. split; [by eexists|]. by destruct v. Qed.

Lemma scalar_plain c : scalar c -> all_types (plain context) c.
Proof.
  destruct c as [ty v]. intros [Hv (t & Ht & Hs)]. cbn in *. split; [|by destruct v].
  apply (plain_intro context ty t Ht); [by intros ->|by intros l ->|]. intros c. destruct t; try done; by intros ?%elem_of_nil.
Qed.

Lemma scalar_full c : scalar c -> full context c.
Proof. destruct c as [ty v]. intros [Hv _]. by destruct v. Qed.

Lemma scalar_comparable c : scalar c -> comparable c.
Proof. destruct c as [ty v]. intros [Hv _]. by destruct v. Qed.

(** A constant that is equal to a scalar has a scalar value. *)
Lemma Constant_eq_scalar c c' : Constant_eq context c c' = Ok true -> scalar c' -> scalar_value (cvalue c) = true.
Proof.
  destruct c as [ty v], c' as [ty' v']. cbn [Constant_eq]. intros Heq [Hs _]. cbn [cvalue] in *.
  destruct (Type_eq context ty ty') as [[]|]; cbn [mbind Result_bind negb] in Heq; [|done|done]. by destruct v, v'.
Qed.

Lemma find_equal_None m constant l : find_equal context m constant l = Ok None ->
  forall k c, k ∈ l -> m !! k = Some c -> Constant_eq context c constant <> Ok true.
Proof.
  induction l as [|x l IH]; cbn; [by intros _ k c ?%elem_of_nil|]. intros Hf k c Hk Hc. destruct (m !! x) as [cx|] eqn:Hx; [|done]. cbn in Hf.
  destruct (Constant_eq context cx constant) as [[]|] eqn:He; [done| |done]. cbn in Hf.
  apply elem_of_cons in Hk as [->|Hk]; [|by eapply IH]. rewrite Hx in Hc. injection Hc as <-. by rewrite He.
Qed.

Lemma bucket_known self h k :
  pool_ok hash context self -> k ∈ default [] (constants_map self !! h) ->
  exists c, constants self !! k = Some c /\ all_types (fun ty => is_Some (types context !! ty)) c /\ hash c = h.
Proof. intros Hok. destruct (constants_map self !! h) as [l|] eqn:Hl; cbn; [by apply Hok|by intros ?%elem_of_nil]. Qed.

Lemma unique_scalar self c : pool self -> scalar c ->
  exists self' k, unique hash context self c = Ok (self', k) /\ pool self' /\ constants self ⊆ constants self' /\ constants self' !! k = Some c.
Proof.
  intros Hpool Hc. unfold unique. set (h := hash c). set (found := default [] (constants_map self !! h)).
  assert (forall k, k ∈ found -> exists c, constants self !! k = Some c /\ all_types (fun ty => is_Some (types context !! ty)) c /\ hash c = h) as Hfound
    by (intros; by apply bucket_known; [apply pl_ok|]).
  destruct (find_equal_spec context Hctx (constants self) c found (scalar_known c Hc)) as (o & Ho & Hspec).
  { intros k Hk. destruct (Hfound k Hk) as (c' & ? & ? & _). by exists c'. }
  rewrite Ho. next_step. destruct o as [k|].
  - destruct Hspec as (l1 & l2 & c' & Hl & Hk & Heq & _). exists (mkConstants (constants self) (<[h := found]> (constants_map self))), k. split; [done|].
    assert (scalar c') as Hc' by (eapply (pl_scalar _ Hpool); [done|by eapply Constant_eq_scalar]).
    assert (c' = c) as ->.
    { destruct (Constant_eq_answer context Hctx c' c (scalar_known c' Hc') (scalar_known c Hc)) as (b & Hb & _ & Hpl). apply Hpl;
        [by apply scalar_full|by apply scalar_full|by apply scalar_plain|by apply scalar_plain|congruence]. }
    split_and!; [|done|done]. split; cbn.
    + intros h' l' k' Hl' Hin. cbn [constants constants_map] in *. apply lookup_insert_Some in Hl' as [[<- <-]|[_ Hl']]; [by apply Hfound|by eapply (pl_ok _ Hpool)].
    + apply (pl_scalar _ Hpool).
    + intros k' c0 Hk' Hc0. destruct (pl_in _ Hpool k' c0 Hk' Hc0) as (l & Hl' & Hin). destruct (decide (h = hash c0)) as [Hh|Hne].
      * exists found. rewrite Hh, lookup_insert_eq. split; [done|]. unfold found. by rewrite Hh, Hl'.
      * exists l. by rewrite lookup_insert_ne.
    + apply (pl_inj _ Hpool).
  - set (k := new_key (constants self)). pose proof (new_key_fresh (constants self)) as Hfresh. fold k in Hfresh.
    exists (mkConstants (<[k := c]> (constants self)) (<[h := found ++ [k]]> (constants_map self))), k. split; [done|]. cbn [constants constants_map].
    assert (forall k', constants self !! k' <> Some c) as Hnew.
    { intros k' Hk'. destruct (pl_in _ Hpool k' c Hk' Hc) as (l & Hl & Hin). apply (find_equal_None (constants self) c found Ho k' c); [unfold found, h; by rewrite Hl|done|].
      destruct (Constant_eq_answer context Hctx c c (scalar_known c Hc) (scalar_known c Hc)) as (b & Hb & Hrefl & _). rewrite Hb, Hrefl; [done|done|by apply scalar_comparable]. }
    split_and!; [|by apply insert_subseteq|by rewrite lookup_insert_eq]. split; cbn [constants constants_map].
    + intros h' l' k' Hl' Hin. cbn [constants constants_map] in *.
      assert (forall c0, constants self !! k' = Some c0 -> <[k := c]> (constants self) !! k' = Some c0) as Hw by (intros c0 H0; eapply lookup_weaken; [exact H0|by apply insert_subseteq]).
      apply lookup_insert_Some in Hl' as [[<- <-]|[_ Hl']].
      * apply elem_of_app in Hin as [Hin|Hin%list_elem_of_singleton]; [destruct (Hfound k' Hin) as (c0 & H0 & ? & ?); exists c0; auto|].
        subst k'. exists c. rewrite lookup_insert_eq. split_and!; [done|by apply scalar_known|done].
      * destruct (pl_ok _ Hpool h' l' k' Hl' Hin) as (c0 & H0 & ? & ?). exists c0. auto.
    + intros k' c0 [[<- <-]|[_ Hk']]%lookup_insert_Some; [done|by eapply (pl_scalar _ Hpool)].
    + intros k' c0 [[<- <-]|[_ Hk']]%lookup_insert_Some Hc0; [exists (found ++ [k]); rewrite lookup_insert_eq; split; [done|]; set_solver|].
      destruct (pl_in _ Hpool k' c0 Hk' Hc0) as (l & Hl & Hin). destruct (decide (h = hash c0)) as [Hh|Hne].
      * exists (found ++ [k]). rewrite Hh, lookup_insert_eq. split; [done|]. apply elem_of_app. left. unfold found. by rewrite Hh, Hl.
      * exists l. by rewrite lookup_insert_ne.
    + intros k1 k2 c0 Hc0 [[<- <-]|[_ H1]]%lookup_insert_Some [[<- ?]|[_ H2]]%lookup_insert_Some; [done|by destruct (Hnew k2)|subst c0; by destruct (Hnew k1)|].
      by eapply (pl_inj _ Hpool).
Qed.
End pool.
