(* ===== verification/IrStorageMain.v ===== *)
(** * Storage slots hold the image of their constant

    The words of a constant are its memory image, padded to words; the storage slots of a
    field hold the bytes that the data section holds for the same constant, in
    consecutive slots. *)

From S2P Require Import Prelude IrTypes IrTypeTheory IrLayout AsmRegister AsmData IrConstant IrStorage IrImage IrParts.
Local Open Scope Z_scope.

(** ** Words *)

Lemma chunks_concat {A} k n (l : list A) :
  length l = (k * n)%nat -> concat (chunks k n l) = l /\ Forall (fun w => length w = k) (chunks k n l) /\ length (chunks k n l) = n.
Proof.
  revert l. induction n as [|n IH]; intros l Hl; cbn [chunks concat].
  - rewrite Nat.mul_0_r in Hl. apply nil_length_inv in Hl as ->. by repeat constructor.
  - destruct (IH (drop k l)) as (H1 & H2 & H3); [rewrite length_drop; lia|]. split; [rewrite H1; apply take_drop|]. split; [|cbn; by rewrite H3].
    constructor; [rewrite length_take; lia|done].
Qed.

Lemma concat_length {A} k (l : list (list A)) : Forall (fun w => length w = k) l -> length (concat l) = (k * length l)%nat.
Proof. induction 1 as [|w l Hw _ IH]; cbn; [lia|]. rewrite length_app, Hw, IH. lia. Qed.

Lemma concat_zero_words n : concat (replicate n zero_word) = replicate (8 * n) 0.
Proof. induction n as [|n IH]; [done|]. cbn [replicate concat]. rewrite IH. unfold zero_word. rewrite <- replicate_add. f_equal. lia. Qed.

Lemma round_up_div n : ((n + 7) / 8 * 8)%nat = round_up n.
Proof. unfold round_up. pose proof (Nat.div_mod_eq (n + 7) 8). lia. Qed.

(** Constants without arrays *)
Fixpoint no_arrays (c : ConstantContent) : Prop :=
  match c with
  | mkConstant _ v =>
      match v with
      | CArray _ => False
      | CStruct l => foldr (fun c P => no_arrays c /\ P) True l
      | _ => True
      end
  end.

Lemma no_arrays_elems l : foldr (fun c P => no_arrays c /\ P) True l <-> forall c, c ∈ l -> no_arrays c.
Proof.
  induction l as [|x l IH]; cbn; [split; [by intros _ c ?%elem_of_nil|done]|]. rewrite IH. split.
  - intros [Hx Hl] c [->|Hc]%elem_of_cons; [done|by apply Hl].
  - intros Hl. split; [apply Hl; by left|]. intros c Hc. apply Hl. by right.
Qed.

(** Bytes padded to words on one side *)
Definition side_padded (p : InByte8Padding) (l : list Z) : list Z :=
  pad (match p with Right => PadRight (round_up (length l)) | Left => PadLeft (round_up (length l)) end) l.

Lemma side_padded_words p l : Z.of_nat (length l) mod 8 = 0 -> side_padded p l = l.
Proof.
  intros Hl. apply pad_id. pose proof (round_up_align8 (length l)) as Hr. rewrite align8_id in Hr by done. destruct p; cbn; lia.
Qed.

Section words.
Context (context : Context) (Hctx : context_ok context).

Abbreviation typed := (typed context).
Abbreviation image := (image context).
Abbreviation has_size ty n := (Type_size context ty = Ok (TypeSize_new n)).

(** The words [ws] hold the bytes [l]. *)
Definition words_are (r : Result (list (list Z))) (l : list Z) : Prop :=
  exists ws, r = Ok ws /\ Forall (fun w => length w = 8%nat) ws /\ concat ws = l.

Definition serializes (fuel : nat) (c : ConstantContent) : Prop :=
  forall p, words_are (serialize_to_words context fuel c (cty c) p) (side_padded p (image c)).

Lemma words_one w l : length w = 8%nat -> w = l -> words_are (Ok [w]) l.
Proof. intros Hw <-. exists [w]. split; [done|]. split; [by repeat constructor|]. cbn. by rewrite app_nil_r. Qed.

Lemma byte_word_padded p b : length (byte_word p b) = 8%nat /\ byte_word p b = side_padded p [b].
Proof. by destruct p. Qed.

Lemma words_chunks n l : length l = (8 * n)%nat -> words_are (Ok (chunks 8 n l)) l.
Proof. intros Hl. destruct (chunks_concat 8 n l Hl) as (H1 & H2 & _). by eexists. Qed.

Lemma concat_words {A} (f : A -> Result (list (list Z))) (g : A -> list Z) l :
  (forall x, x ∈ l -> words_are (f x) (g x)) -> words_are (concat_traverse f l) (flat_map g l).
Proof.
  induction l as [|x l IH]; intros Hl; [by exists []|]. cbn [concat_traverse flat_map]. destruct (Hl x ltac:(by left)) as (ws & -> & Hw & <-). next_step.
  destruct IH as (ws' & -> & Hw' & <-); [intros; apply Hl; by right|]. next_step. exists (ws ++ ws'). split; [done|]. split; [by apply Forall_app|].
  by rewrite concat_app.
Qed.

Lemma struct_words fuel l (fields : list Ty) :
  map cty l = fields -> (forall c, c ∈ l -> serializes fuel c) ->
  words_are (concat_traverse (fun p => serialize_to_words context fuel p.1 p.2 Right) (zip l fields)) (flat_map (fun c => word_padded (image c)) l).
Proof.
  intros <- Hl. assert (flat_map (fun c => word_padded (image c)) l = flat_map (fun p => word_padded (image p.1)) (zip l (map cty l))) as ->.
  { clear Hl. induction l as [|c l IH]; [done|]. cbn [flat_map map]. rewrite IH.
    change (zip (c :: l) (cty c :: map cty l)) with ((c, cty c) :: zip l (map cty l)). done. }
  apply concat_words. intros [c f] (i & x & y & [= -> ->] & Hx & Hy)%elem_of_lookup_zip_with. cbn [fst snd].
  change (map cty l) with (cty <$> l) in Hy. rewrite list_lookup_fmap, Hx in Hy. injection Hy as <-. apply (Hl x (list_elem_of_lookup_2 _ _ _ Hx) Right).
Qed.

Lemma in_words_Ok n : n + 7 < 2 ^ 64 -> in_words (TypeSize_new n) = Ok ((n + 7) / 8).
Proof. intros Hn. unfold in_words. cbn [size_in_bytes]. by rewrite (proj2 (u64_add_Ok n 7 _)) by done. Qed.

(** The value of an enum in its union *)
Lemma union_words fuel c union_ty variants u m :
  types context !! union_ty = Some (TUnion variants) -> has_size union_ty u -> u + 7 < 2 ^ 64 -> u mod 8 = 0 ->
  has_size (cty c) m -> 0 <= m -> align8 m <= u -> Z.of_nat (length (image c)) = m -> cvalue c <> CUndef -> serializes fuel c ->
  words_are (serialize_to_words context (S fuel) c union_ty Right) (pad (PadLeft (Z.to_nat u)) (image c)).
Proof.
  intros Ht Hu Hu64 Hu8 Hm Hm0 Hle Hlen Hdef Hc. pose proof (align8_bounds m) as [Hb H8].
  assert (words_are (value_size ← Type_size context union_ty; value_size_in_words ← in_words value_size; constant_size ← Type_size context (cty c);
    constant_size_in_words ← in_words constant_size;
    if constant_size_in_words <=? value_size_in_words then
      words ← serialize_to_words context fuel c (cty c) Left;
      Ok (replicate (Z.to_nat (value_size_in_words - constant_size_in_words)) zero_word ++ words)
    else Err (Panic "assertion failed: value_size_in_words >= constant_size_in_words")) (pad (PadLeft (Z.to_nat u)) (image c))) as Hwords.
  { rewrite Hu, Hm. next_step. rewrite !in_words_Ok by lia. next_step. unfold align8 in Hle.
    rewrite (proj2 (Z.leb_le _ _)) by (apply Z.div_le_mono; lia || (Z.div_mod_to_equations; lia)). destruct (Hc Left) as (ws & -> & Hw & Hcat). next_step.
    eexists. split; [done|]. split; [apply Forall_app; split; [by apply Forall_replicate|done]|]. rewrite concat_app, Hcat, concat_zero_words.
    unfold side_padded, pad. cbn [target_size]. rewrite app_assoc, <- replicate_add. do 2 f_equal. pose proof (round_up_align8 (length (image c))) as Hr.
    rewrite Hlen in Hr. unfold align8 in *. Z.div_mod_to_equations. lia. }
  cbn [serialize_to_words]. rewrite (get_content_Ok _ _ _ Ht). next_step. destruct c as [ty v]. cbn [cvalue] in *. by destruct v.
Qed.

Lemma typed_defined c : typed c -> cvalue c <> CUndef.
Proof. by destruct c as [ty []]. Qed.

Lemma string_words p (l : list Z) :
  words_are (Ok (chunks 8 (length (l ++ replicate ((length l + 7) / 8 * 8 - length l) 0) / 8) (l ++ replicate ((length l + 7) / 8 * 8 - length l) 0)))
    (side_padded p (word_padded l)).
Proof.
  rewrite round_up_div. assert (l ++ replicate (round_up (length l) - length l) 0 = word_padded l) as -> by done.
  pose proof (word_padded_length l) as Hlen. pose proof (align8_bounds (Z.of_nat (length l))) as [_ H8]. rewrite <- Hlen in H8.
  rewrite side_padded_words by done. apply words_chunks.
  assert (length (word_padded l) mod 8 = 0)%nat as Hmod by (apply Nat2Z.inj; by rewrite Nat2Z.inj_mod).
  pose proof (Nat.div_mod_eq (length (word_padded l)) 8). lia.
Qed.

Lemma enum_words fuel ty tag value fields n :
  types context !! ty = Some (TStruct fields) -> enum_fields context [tag; value] fields -> typed tag -> typed value -> has_size ty n ->
  serializes (S fuel) tag -> serializes fuel value ->
  words_are (concat_traverse (fun p => serialize_to_words context (S fuel) p.1 p.2 Right) (zip [tag; value] fields)) (image (mkConstant ty (CStruct [tag; value]))).
Proof.
  intros Ht Hf Htag Hvalue Hn Hs1 Hs2. destruct (enum_sizes _ Hctx ty _ fields n Ht Hf Hn) as (? & ? & u & [= <- <-] & Hu & Hts & _ & Hnu & Hu8 & m & Hm & Hm0 & Hle).
  destruct Hf as (? & ? & union_ty & variants & [= <- <-] & -> & _ & Hunion & _). pose proof (Type_size_bound _ Hctx ty n ltac:(by eexists) Hn) as Hn64.
  assert (has_size union_ty u) as Hsu.
  { apply (struct_size _ Hctx ty _ n Ht) in Hn as (ns & Hns & _). inversion Hns as [|? a ? ns1 Ha' Hns1]; subst. inversion Hns1 as [|? u' ? ns2 Hu' _]; subst.
    pose proof (Type_size_bound _ Hctx union_ty u' ltac:(by eexists) Hu'). pose proof (align8_bounds m).
    revert Hu. unfold enum_union, size_of. rewrite Ht, Hunion, Hu'. cbn [in_bytes size_in_bytes]. intros [= Hu]. assert (u = u') as -> by lia. done. }
  cbn [IrImage.image zip zip_with concat_traverse fst snd]. rewrite Hu. destruct (Hs1 Right) as (w1 & -> & Hw1 & Hc1). next_step.
  destruct (union_words fuel value union_ty variants u m) as (w2 & -> & Hw2 & Hc2); [done|done|lia|done|done|done|done| | |done|].
  - by apply (image_length _ Hctx).
  - by apply typed_defined.
  - next_step. exists (w1 ++ w2 ++ []). split; [done|]. rewrite app_nil_r, concat_app, Hc1, Hc2. split; [by apply Forall_app|].
    rewrite side_padded_words; [done|]. by rewrite (image_length _ Hctx tag 8).
Qed.

Lemma serialize_to_words_image c fuel n : typed c -> no_arrays c -> has_size (cty c) n -> (2 * constant_depth c < fuel)%nat -> serializes fuel c.
Proof.
  revert fuel n. induction c as [ty v IH] using constant_ind. intros fuel n Hc Ha Hn Hd p. cbn [cty] in *. destruct fuel as [|fuel]; [lia|].
  pose proof (image_length _ Hctx _ n Hc Hn) as Hlen.
  assert (forall c, c ∈ elems_of v -> (2 * constant_depth c + 2 < S fuel)%nat) as Hdepth by (intros c Hin; pose proof (constant_depth_elem ty v c Hin); lia).
  destruct (types context !! ty) as [t|] eqn:Ht; [|destruct v; cbn [IrImage.typed] in Hc; rewrite ?Ht in Hc; done].
  cbn [serialize_to_words cvalue]. rewrite (get_content_Ok _ _ _ Ht). next_step.
  destruct v as [| |b|m|m|m|l|l|l|l|c|l]; cbn [IrImage.typed] in Hc; rewrite ?Ht in Hc; destruct t; try done; cbn [elems_of] in *.
  - apply words_one; [done|]. by destruct p.
  - apply words_one; apply byte_word_padded.
  - cbn [IrImage.image]. unfold is_byte_type. rewrite Ht. destruct (Z.eqb_spec width 8) as [->|Hw].
    + rewrite Z.mod_small by apply Hc. apply words_one; apply byte_word_padded.
    + rewrite to_be_bytes_8. apply words_one; [apply be_bytes_length|]. rewrite side_padded_words; [done|]. by rewrite be_bytes_length.
  - destruct Hc as [-> Hm]. rewrite Z.eqb_refl, U256_to_be_bytes_Ok by done. next_step. cbn [IrImage.image].
    rewrite side_padded_words by by rewrite be_bytes_length. apply words_chunks. by rewrite be_bytes_length.
  - rewrite U256_to_be_bytes_Ok by done. next_step. cbn [IrImage.image].
    rewrite side_padded_words by by rewrite be_bytes_length. apply words_chunks. by rewrite be_bytes_length.
  - apply string_words.
  - destruct Hc as [Hl Hf]. rewrite typed_elems in Hl. cbn [no_arrays] in Ha. rewrite no_arrays_elems in Ha.
    rewrite side_padded_words by (rewrite Hlen; by eapply (word_sized_aligned _ Hctx ty)).
    assert (forall c m k, c ∈ l -> has_size (cty c) m -> (fuel <= S k)%nat -> serializes k c) as Hser.
    { intros c m k Hin Hm Hk. eapply IH; [done|by apply Hl|by apply Ha|done|]. specialize (Hdepth c Hin). lia. }
    destruct Hf as [Hf|Hf].
    + cbn [IrImage.image]. assert (map cty l = fields) as <- by apply Hf. rewrite (enum_union_struct context ty l Ht Hf). apply struct_words; [done|].
      intros c Hin. apply (struct_size _ Hctx ty _ n Ht) in Hn as (ns & Hns & _). apply list_elem_of_lookup in Hin as Hi. destruct Hi as [i Hi].
      apply Forall2_fmap_l in Hns. destruct (Forall2_lookup_l _ _ _ _ _ Hns Hi) as (m & _ & Hm). eapply Hser; [done|done|lia].
    + destruct (enum_sizes _ Hctx ty l fields n Ht Hf Hn) as (tag & value & u & -> & _ & Htag & _ & _ & _ & m & Hm & _).
      specialize (Hdepth value ltac:(right; by left)) as Hdv. destruct fuel as [|fuel]; [lia|].
      eapply enum_words; [done|done|apply Hl; by left|apply Hl; right; by left|done|apply (Hser tag 8); [by left|done|lia]|].
      apply (Hser value m); [right; by left|done|lia].
Qed.
End words.

(** * The storage slots of a field

    The slots of an initial value hold the bytes of the constant, in slots with consecutive
    keys; the texts that are hashed to keys and ids of fields determine the field. *)

(** ** Big-endian numbers *)

Lemma concat_concats (l : list (list (list Z))) : concat (map (@concat Z) l) = concat (concat l).
Proof. induction l as [|x l IH]; [done|]. cbn [map concat]. by rewrite IH, concat_app. Qed.

Section slots.
Context `{StorageCrates} (context : Context) (Hctx : context_ok context).

Abbreviation typed := (typed context).
Abbreviation image := (image context).
Abbreviation has_size ty n := (Type_size context ty = Ok (TypeSize_new n)).

(** The key of a field is given as a 256-bit number or is a hash. *)
Definition key_ok (key : option Z) : Prop := match key with Some k => 0 <= k < 2 ^ 256 | None => True end.

Lemma get_storage_key_bytes names key k :
  key_ok key -> get_storage_key names key = Ok k -> length k = 32%nat /\ Forall (fun b => 0 <= b < 256) k.
Proof.
  unfold get_storage_key. destruct key as [key|]; cbn [key_ok].
  - intros Hk. rewrite U256_to_be_bytes_Ok by done. intros Heq. assert (be_bytes 32 key = k) as <- by congruence.
    split; [apply be_bytes_length|apply be_bytes_range].
  - intros _ (s & _ & [= <-])%bind_Ok. split; [apply sha256_length|apply sha256_bytes].
Qed.

(** The slots hold the bytes, filled up with zeros, at the keys from [k] on. *)
Record slots_hold (slots : list StorageSlot) (k : list Z) (bytes : list Z) : Prop := {
  slots_number : Z.of_nat (length slots) = (Z.of_nat (length bytes) + 31) / 32;
  slots_values : concat (map slot_value slots) = bytes ++ replicate (32 * length slots - length bytes) 0;
  slots_length slot : slot ∈ slots -> length (slot_value slot) = 32%nat;
  slots_keys i slot : slots !! i = Some slot -> slot_key slot = be_bytes 32 (be_value k + Z.of_nat i);
}.

Lemma one_slot_holds k bytes :
  length k = 32%nat -> Forall (fun b => 0 <= b < 256) k -> (0 < length bytes <= 32)%nat -> slots_hold (one_slot k bytes) k bytes.
Proof.
  intros Hk Hb Hlen. split.
  - cbn. Z.div_mod_to_equations. lia.
  - cbn [one_slot map slot_value concat length]. by rewrite app_nil_r.
  - intros slot Hs. apply list_elem_of_singleton in Hs as Hs. rewrite Hs. cbn [slot_value]. rewrite length_app, length_replicate. lia.
  - intros i slot Hs. apply list_lookup_singleton_Some in Hs as [-> <-]. cbn [slot_key Z.of_nat]. rewrite Z.add_0_r, <- Hk. symmetry. by apply be_bytes_value.
Qed.

Lemma keys_from k n :
  Forall (fun b => 0 <= b < 256) k -> be_value k + Z.of_nat n <= 2 ^ 256 ->
  traverse (fun i => add_to_b256 k (Z.of_nat i)) (seq 0 n) = Ok (map (fun i => be_bytes 32 (be_value k + Z.of_nat i)) (seq 0 n)).
Proof.
  intros Hk Hn. apply traverse_Ok. apply Forall2_fmap_r, Forall_Forall2_diag, Forall_forall. intros i Hi%elem_of_seq. unfold add_to_b256.
  pose proof (be_value_nonneg k Hk). by rewrite uint_add_fits by lia.
Qed.

(** Four words in a slot *)
Lemma packed_slots ws k bytes :
  Forall (fun b => 0 <= b < 256) k -> Forall (fun w => length w = 8%nat) ws -> concat ws = bytes ->
  be_value k + (Z.of_nat (length bytes) + 31) / 32 <= 2 ^ 256 ->
  let packed := ws ++ replicate ((length ws + 3) / 4 * 4 - length ws) zero_word in
  let number := Z.to_nat ((Z.of_nat (length bytes) + 31) / 32) in
  exists keys, traverse (fun i => add_to_b256 k (Z.of_nat i)) (seq 0 (Nat.min number (S (length packed / 4)))) = Ok keys /\
    slots_hold (zip_with StorageSlot_new keys (map (@concat Z) (chunks 4 (length packed / 4) packed))) k bytes.
Proof.
  intros Hk Hws Hcat Hfits packed number. pose proof (concat_length 8 ws Hws) as Hlen. rewrite Hcat in Hlen.
  assert (length packed = (4 * number)%nat) as Hp.
  { unfold packed, number. rewrite length_app, length_replicate, Hlen, Nat2Z.inj_mul. pose proof (Nat.div_mod_eq (length ws + 3) 4).
    pose proof (Nat.mod_upper_bound (length ws + 3) 4). Z.div_mod_to_equations. lia. }
  rewrite Hp, (Nat.mul_comm 4), Nat.div_mul, Nat.min_l by lia. rewrite Nat.mul_comm in Hp.
  assert (be_value k + Z.of_nat number <= 2 ^ 256) as Hfits' by (unfold number; rewrite Z2Nat.id; [done|Z.div_mod_to_equations; lia]).
  rewrite keys_from by done. eexists. split; [done|]. rewrite Nat.mul_comm in Hp. destruct (chunks_concat 4 number packed Hp) as (H1 & H2 & H3).
  set (vs := map (@concat Z) (chunks 4 number packed)). assert (length vs = number) as Hvs by (unfold vs; by rewrite length_map).
  assert (forall i slot, zip_with StorageSlot_new (map (fun i => be_bytes 32 (be_value k + Z.of_nat i)) (seq 0 number)) vs !! i = Some slot ->
    slot_key slot = be_bytes 32 (be_value k + Z.of_nat i) /\ vs !! i = Some (slot_value slot)) as Hslot.
  { intros i slot (x & y & -> & Hx & Hy)%lookup_zip_with_Some. cbn. split; [|done]. apply list_lookup_fmap_Some in Hx as (j & -> & Hj).
    apply lookup_seq in Hj as [-> _]. done. }
  assert (map slot_value (zip_with StorageSlot_new (map (fun i => be_bytes 32 (be_value k + Z.of_nat i)) (seq 0 number)) vs) = vs) as Hvals.
  { clear Hslot. change (@map StorageSlot (list Z)) with (@fmap list _ StorageSlot (list Z)). rewrite fmap_zip_with_r; [done|done|].
    rewrite length_map, length_seq. lia. }
  split.
  - rewrite length_zip_with, length_map, length_seq, Hvs, Nat.min_id. unfold number. rewrite Z2Nat.id; [done|]. Z.div_mod_to_equations. lia.
  - rewrite Hvals, length_zip_with, length_map, length_seq, Hvs, Nat.min_id. unfold vs. rewrite concat_concats, H1.
    unfold packed. rewrite concat_app, Hcat, concat_zero_words. do 2 f_equal. unfold packed in Hp. rewrite length_app, length_replicate in Hp. lia.
  - intros slot [i Hi]%list_elem_of_lookup. apply Hslot in Hi as [_ Hi]. unfold vs in Hi. apply list_lookup_fmap_Some in Hi as (w & -> & Hw).
    pose proof (Forall_lookup_1 _ _ _ _ H2 Hw) as Hw4. cbn in Hw4. rewrite (concat_length 8 w); [lia|]. apply Forall_forall. intros v Hv.
    assert (v ∈ packed) as Hin. { rewrite <- H1. apply list_elem_of_In, in_concat. exists w. split; [|by apply list_elem_of_In]. apply list_elem_of_In. by eapply list_elem_of_lookup_2. }
    unfold packed in Hin. apply elem_of_app in Hin as [Hin|[-> _]%elem_of_replicate]; [|done]. by apply (proj1 (Forall_forall _ _) Hws).
  - intros i slot Hi. by apply Hslot.
Qed.

Lemma aggregate_slots c n names key k :
  typed c -> no_arrays c -> has_size (cty c) n -> n mod 8 = 0 -> n + 31 < 2 ^ 64 -> get_storage_key names key = Ok k -> key_ok key ->
  be_value k + (n + 31) / 32 <= 2 ^ 256 ->
  exists slots, (packed ← serialize_to_words context (serialize_fuel c) c (cty c) Right;
    let packed := packed ++ replicate ((length packed + 3) / 4 * 4 - length packed) zero_word in
    size ← Type_size context (cty c);
    if in_bytes size mod 8 =? 0 then
      k ← get_storage_key names key;
      n ← u64_add (in_bytes size) 31;
      keys ← traverse (fun i => add_to_b256 k (Z.of_nat i)) (seq 0 (Nat.min (Z.to_nat (n / 32)) (S (length packed / 4))));
      Ok (zip_with StorageSlot_new keys (map (@concat Z) (chunks 4 (length packed / 4) packed)))
    else Err (Panic "Expected string arrays, structs, and enums to be aligned to word boundary.")) = Ok slots /\ slots_hold slots k (image c).
Proof.
  intros Hc Ha Hn Hn8 Hn64 Hk Hkey Hfits. pose proof (image_length _ Hctx c n Hc Hn) as Hlen.
  destruct (get_storage_key_bytes names key k Hkey Hk) as [_ Hb].
  destruct (serialize_to_words_image context Hctx c (serialize_fuel c) n Hc Ha Hn ltac:(unfold serialize_fuel; lia) Right) as (ws & -> & Hws & Hcat).
  rewrite side_padded_words in Hcat by by rewrite Hlen. next_step. rewrite Hn. next_step. cbn [in_bytes size_in_bytes]. rewrite Hn8, Z.eqb_refl, Hk. next_step.
  rewrite (proj2 (u64_add_Ok n 31 _)) by done. next_step. rewrite <- Hlen in *.
  destruct (packed_slots ws k (image c) Hb Hws Hcat Hfits) as (keys & -> & Hs). next_step. eexists. split; [done|exact Hs].
Qed.

(** C32. Storage initialization: for a well-typed constant without arrays the slots are
    computed, they hold the bytes of the entry that the data section has for the
    constant, filled up with zeros, in as few slots of 32 bytes as they need, and the
    keys of the slots count up from the key of the field. *)
Theorem storage_slots_hold_constant c n names key k :
  typed c -> no_arrays c -> has_size (cty c) n -> n + 31 < 2 ^ 64 -> get_storage_key names key = Ok k -> key_ok key ->
  be_value k + (n + 31) / 32 <= 2 ^ 256 ->
  exists slots e, serialize_to_storage_slots context c names key (cty c) = Ok slots /\
    Entry_from_constant context c NamedNonConfigurable None = Ok e /\
    Z.of_nat (length slots) = (n + 31) / 32 /\
    concat (map slot_value slots) = to_bytes e ++ replicate (32 * length slots - length (to_bytes e)) 0 /\
    (forall slot, slot ∈ slots -> length (slot_value slot) = 32%nat) /\
    forall i slot, slots !! i = Some slot -> slot_key slot = be_bytes 32 (be_value k + Z.of_nat i).
Proof.
  intros Hc Ha Hn Hn64 Hk Hkey Hfits. pose proof (image_length _ Hctx c n Hc Hn) as Hlen.
  assert (exists slots, serialize_to_storage_slots context c names key (cty c) = Ok slots /\ slots_hold slots k (image c)) as (slots & Hs & [S1 S2 S3 S4]).
  { destruct (get_storage_key_bytes names key k Hkey Hk) as [Hk32 Hb]. destruct c as [ty v]. cbn [cty] in *. unfold serialize_to_storage_slots. cbn [cvalue].
    destruct (types context !! ty) as [t|] eqn:Ht; [|destruct v; cbn [IrImage.typed] in Hc; rewrite ?Ht in Hc; done].
    rewrite (get_content_Ok _ _ _ Ht). next_step. pose proof (aggregate_slots _ n names key k Hc Ha Hn) as Hagg. cbn [cty] in Hagg.
    assert (word_sized t = true -> n mod 8 = 0) as H8 by (intros Hw; by eapply (word_sized_aligned _ Hctx ty)).
    assert (Hc0 := Hc). destruct v as [| |b|m|m|m|l|l|l|l|c|l]; cbn [IrImage.typed] in Hc; rewrite ?Ht in Hc; destruct t; try done;
      try (apply Hagg; [by apply H8|done..]); rewrite ?Hk; next_step.
    - eexists. split; [done|]. pose proof (one_slot_holds k [0] Hk32 Hb ltac:(cbn; lia)) as [O1 O2 O3 O4]. by split.
    - eexists. split; [done|]. apply one_slot_holds; [done|done|cbn; lia].
    - eexists. split; [done|]. pose proof (uint_size _ Hctx _ _ _ Ht Hn) as ->. cbn [IrImage.image] in *. unfold is_byte_type in *. rewrite Ht in *.
      destruct (Z.eqb_spec width 8) as [->|Hw]; [rewrite Z.mod_small by apply Hc|rewrite to_be_bytes_8]; (apply one_slot_holds; [done|done|]); [cbn; lia|].
      rewrite be_bytes_length. lia.
    - destruct Hc as [-> Hm]. rewrite Z.eqb_refl, U256_to_be_bytes_Ok by done. next_step. eexists. split; [done|]. cbn [IrImage.image].
      apply one_slot_holds; [done|done|]. rewrite be_bytes_length. lia.
    - rewrite U256_to_be_bytes_Ok by done. next_step. eexists. split; [done|]. cbn [IrImage.image]. apply one_slot_holds; [done|done|]. rewrite be_bytes_length. lia. }
  destruct (from_constant_image _ Hctx c (S (constant_depth c)) n Hc Hn ltac:(lia) NamedNonConfigurable None) as (e & He & Hbytes). cbn [padded] in Hbytes.
  exists slots, e. rewrite Hbytes. rewrite Hlen in S1. split_and!; done.
Qed.
End slots.

(** A sample of the crates: a checksum in place of the hash *)
Definition checked_add (a b : Z) : Result Z := if a + b <? 2 ^ 256 then Ok (a + b) else Err (Panic "arithmetic operation overflow").

Lemma checked_add_fits a b : 0 <= a -> 0 <= b -> a + b < 2 ^ 256 -> checked_add a b = Ok (a + b).
Proof. intros Ha Hb Hlt. unfold checked_add. by rewrite (proj2 (Z.ltb_lt _ _) Hlt). Qed.

#[export] Instance sample_crates : StorageCrates := {
  sha256 l := be_bytes 32 (be_value l);
  uint_add := checked_add;
  sha256_length l := be_bytes_length 32 (be_value l);
  sha256_bytes l := be_bytes_range 32 (be_value l);
  uint_add_fits := checked_add_fits;
}.

Definition sample_key : list Z := be_bytes 32 (2 ^ 64 - 1).

Lemma storage_slots_hold_constant_witness : exists slots e,
  serialize_to_storage_slots sample_context sample_enum [str_bytes "state"] (Some (2 ^ 64 - 1)) 14%positive = Ok slots /\
  Entry_from_constant sample_context sample_enum NamedNonConfigurable None = Ok e /\
  Z.of_nat (length slots) = (48 + 31) / 32 /\
  concat (map slot_value slots) = to_bytes e ++ replicate (32 * length slots - length (to_bytes e)) 0 /\
  (forall slot, slot ∈ slots -> length (slot_value slot) = 32%nat) /\
  forall i slot, slots !! i = Some slot -> slot_key slot = be_bytes 32 (be_value sample_key + Z.of_nat i).
Proof.
  apply (storage_slots_hold_constant sample_context sample_context_ok sample_enum 48 [str_bytes "state"] (Some (2 ^ 64 - 1)) sample_key).
  - apply sample_enum_typed.
  - by repeat split.
  - by vm_compute.
  - lia.
  - by vm_compute.
  - by split.
  - by vm_compute.
Defined.
