(* ===== verification/IrCore.v ===== *)
(** * Instructions, values, blocks and functions of the IR

    [sway-ir/src/instruction.rs], [value.rs], [block.rs], [function.rs], [module.rs] and
    [variable.rs], with the context that holds them.  Values, blocks, functions and
    variables are keys of slot maps; a key that is not in its map makes the access panic.
    Labels, which are only printed, are left out. *)

From S2P Require Import Prelude IrTypes IrConstant.
Local Open Scope Z_scope.

Abbreviation Value := positive.
Abbreviation Block := positive.
Abbreviation Function := positive.
Abbreviation LocalVar := positive.
Abbreviation GlobalVar := positive.
Abbreviation Module_ := positive.
Abbreviation ConstantKey := positive.
Abbreviation MetadataIndex := positive.

(** ** Instructions *)

Inductive Predicate : Type := PEqual | PLessThan | PGreaterThan.
Inductive UnaryOpKind : Type := UNot.
Inductive BinaryOpKind : Type := BAdd | BSub | BMul | BDiv | BAnd | BOr | BXor | BMod | BRsh | BLsh.
Inductive VmRegister : Type :=
  | ROf | RPc | RSsp | RSp | RFp | RHp | RError | RGgas | RCgas | RBal | RIs | RRet | RRetl | RFlag.

Record BranchToWithArgs : Type := mkBranch { br_block : Block; br_args : list Value }.

Record AsmInstruction : Type := mkAsmInstruction { op_name : string; asm_args : list string; asm_immediate : option string }.
Record AsmBlock : Type := mkAsmBlock { args_names : list string; body : list AsmInstruction; asm_return_type : Ty; return_name : option string }.
Record AsmArg : Type := mkAsmArg { arg_name : string; initializer : option Value }.

Inductive FuelVmInstruction : Type :=
  | FGtf (index : Value) (tx_field_id : Z)
  | FLog (log_val : Value) (log_ty : Ty) (log_id : Value)
  | FReadRegister (reg : VmRegister)
  | FRevert (v : Value)
  | FSmo (recipient message message_size coins : Value)
  | FStateClear (key number_of_slots : Value)
  | FStateLoadQuadWord (load_val key number_of_slots : Value)
  | FStateLoadWord (key : Value)
  | FStateStoreQuadWord (stored_val key number_of_slots : Value)
  | FStateStoreWord (stored_val key : Value)
  | FWideUnaryOp (op : UnaryOpKind) (result arg : Value)
  | FWideBinaryOp (op : BinaryOpKind) (result arg1 arg2 : Value)
  | FWideModularOp (op : BinaryOpKind) (result arg1 arg2 arg3 : Value)
  | FWideCmpOp (op : Predicate) (arg1 arg2 : Value)
  | FJmpMem
  | FRetd (ptr len : Value).

Inductive InstOp : Type :=
  | IAsmBlock (asm : AsmBlock) (args : list AsmArg)
  | IUnaryOp (op : UnaryOpKind) (arg : Value)
  | IBinaryOp (op : BinaryOpKind) (arg1 arg2 : Value)
  | IBitCast (v : Value) (ty : Ty)
  | IBranch (br : BranchToWithArgs)
  | ICall (f : Function) (args : list Value)
  | ICastPtr (v : Value) (ty : Ty)
  | ICmp (pred : Predicate) (lhs rhs : Value)
  | IConditionalBranch (cond_value : Value) (true_block false_block : BranchToWithArgs)
  | IContractCall (return_type : Ty) (name : option string) (params coins asset_id gas : Value)
  | IFuelVm (instr : FuelVmInstruction)
  | IGetLocal (v : LocalVar)
  | IGetGlobal (v : GlobalVar)
  | IGetConfig (m : Module_) (name : string)
  | IGetElemPtr (base : Value) (elem_ptr_ty : Ty) (indices : list Value)
  | IIntToPtr (v : Value) (ty : Ty)
  | ILoad (v : Value)
  | IMemCopyBytes (dst_val_ptr src_val_ptr : Value) (byte_len : Z)
  | IMemCopyVal (dst_val_ptr src_val_ptr : Value)
  | INop
  | IPtrToInt (v : Value) (ty : Ty)
  | IRet (v : Value) (ty : Ty)
  | IStore (dst_val_ptr stored_val : Value).

Definition fuel_vm_operands (instr : FuelVmInstruction) : list Value :=
  match instr with
  | FGtf index _ => [index]
  | FLog log_val _ log_id => [log_val; log_id]
  | FReadRegister _ => []
  | FRevert v => [v]
  | FJmpMem => []
  | FSmo recipient message message_size coins => [recipient; message; message_size; coins]
  | FStateClear key number_of_slots => [key; number_of_slots]
  | FStateLoadQuadWord load_val key number_of_slots => [load_val; key; number_of_slots]
  | FStateLoadWord key => [key]
  | FStateStoreQuadWord stored_val key number_of_slots => [stored_val; key; number_of_slots]
  | FStateStoreWord stored_val key => [stored_val; key]
  | FWideUnaryOp _ result arg => [result; arg]
  | FWideBinaryOp _ result arg1 arg2 => [result; arg1; arg2]
  | FWideCmpOp _ arg1 arg2 => [arg1; arg2]
  | FWideModularOp _ result arg1 arg2 arg3 => [result; arg1; arg2; arg3]
  | FRetd ptr len => [ptr; len]
  end.

Definition get_operands (self : InstOp) : list Value :=
  match self with
  | IAsmBlock _ args => omap initializer args
  | IBitCast v _ => [v]
  | IUnaryOp _ arg => [arg]
  | IBinaryOp _ arg1 arg2 => [arg1; arg2]
  | IBranch br => br_args br
  | ICall _ vs => vs
  | ICastPtr v _ => [v]
  | ICmp _ lhs rhs => [lhs; rhs]
  | IConditionalBranch cond_value true_block false_block => cond_value :: br_args true_block ++ br_args false_block
  | IContractCall _ _ params coins asset_id gas => [params; coins; asset_id; gas]
  | IGetElemPtr base _ indices => indices ++ [base]
  | IGetLocal _ | IGetGlobal _ | IGetConfig _ _ => []
  | IIntToPtr v _ => [v]
  | ILoad v => [v]
  | IMemCopyBytes dst_val_ptr src_val_ptr _ => [dst_val_ptr; src_val_ptr]
  | IMemCopyVal dst_val_ptr src_val_ptr => [dst_val_ptr; src_val_ptr]
  | INop => []
  | IPtrToInt v _ => [v]
  | IRet v _ => [v]
  | IStore dst_val_ptr stored_val => [dst_val_ptr; stored_val]
  | IFuelVm instr => fuel_vm_operands instr
  end.

Section replace.
Context (replace : Value -> Result Value).

Definition replace_fuel_vm (instr : FuelVmInstruction) : Result FuelVmInstruction :=
  match instr with
  | FGtf index id => index ← replace index; Ok (FGtf index id)
  | FLog log_val ty log_id => log_val ← replace log_val; log_id ← replace log_id; Ok (FLog log_val ty log_id)
  | FReadRegister r => Ok (FReadRegister r)
  | FRevert v => v ← replace v; Ok (FRevert v)
  | FJmpMem => Ok FJmpMem
  | FSmo recipient message message_size coins =>
      recipient ← replace recipient; message ← replace message; message_size ← replace message_size; coins ← replace coins;
      Ok (FSmo recipient message message_size coins)
  | FStateClear key n => key ← replace key; n ← replace n; Ok (FStateClear key n)
  | FStateLoadQuadWord load_val key n => load_val ← replace load_val; key ← replace key; n ← replace n; Ok (FStateLoadQuadWord load_val key n)
  | FStateLoadWord key => key ← replace key; Ok (FStateLoadWord key)
  | FStateStoreQuadWord stored_val key n => key ← replace key; stored_val ← replace stored_val; n ← replace n; Ok (FStateStoreQuadWord stored_val key n)
  | FStateStoreWord stored_val key => key ← replace key; stored_val ← replace stored_val; Ok (FStateStoreWord stored_val key)
  | FWideUnaryOp op result arg => arg ← replace arg; result ← replace result; Ok (FWideUnaryOp op result arg)
  | FWideBinaryOp op result arg1 arg2 =>
      arg1 ← replace arg1; arg2 ← replace arg2; result ← replace result; Ok (FWideBinaryOp op result arg1 arg2)
  | FWideCmpOp op arg1 arg2 => arg1 ← replace arg1; arg2 ← replace arg2; Ok (FWideCmpOp op arg1 arg2)
  | FWideModularOp op result arg1 arg2 arg3 =>
      result ← replace result; arg1 ← replace arg1; arg2 ← replace arg2; arg3 ← replace arg3;
      Ok (FWideModularOp op result arg1 arg2 arg3)
  | FRetd ptr len => ptr ← replace ptr; len ← replace len; Ok (FRetd ptr len)
  end.

Definition replace_branch (br : BranchToWithArgs) : Result BranchToWithArgs :=
  args ← traverse replace (br_args br); Ok (mkBranch (br_block br) args).

Definition replace_asm_arg (arg : AsmArg) : Result AsmArg :=
  match initializer arg with
  | Some v => v ← replace v; Ok (mkAsmArg (arg_name arg) (Some v))
  | None => Ok arg
  end.

(** The [match] of [InstOp::replace_values], for the closure [replace] *)
Definition replace_operands (self : InstOp) : Result InstOp :=
  match self with
  | IAsmBlock asm args => args ← traverse replace_asm_arg args; Ok (IAsmBlock asm args)
  | IBitCast v ty => v ← replace v; Ok (IBitCast v ty)
  | IUnaryOp op arg => arg ← replace arg; Ok (IUnaryOp op arg)
  | IBinaryOp op arg1 arg2 => arg1 ← replace arg1; arg2 ← replace arg2; Ok (IBinaryOp op arg1 arg2)
  | IBranch br => br ← replace_branch br; Ok (IBranch br)
  | ICall f args => args ← traverse replace args; Ok (ICall f args)
  | ICastPtr v ty => v ← replace v; Ok (ICastPtr v ty)
  | ICmp pred lhs rhs => lhs ← replace lhs; rhs ← replace rhs; Ok (ICmp pred lhs rhs)
  | IConditionalBranch cond_value true_block false_block =>
      cond_value ← replace cond_value; true_block ← replace_branch true_block; false_block ← replace_branch false_block;
      Ok (IConditionalBranch cond_value true_block false_block)
  | IContractCall ty name params coins asset_id gas =>
      params ← replace params; coins ← replace coins; asset_id ← replace asset_id; gas ← replace gas;
      Ok (IContractCall ty name params coins asset_id gas)
  | IGetLocal _ | IGetGlobal _ | IGetConfig _ _ => Ok self
  | IGetElemPtr base ty indices => base ← replace base; indices ← traverse replace indices; Ok (IGetElemPtr base ty indices)
  | IIntToPtr v ty => v ← replace v; Ok (IIntToPtr v ty)
  | ILoad v => v ← replace v; Ok (ILoad v)
  | IMemCopyBytes dst src n => dst ← replace dst; src ← replace src; Ok (IMemCopyBytes dst src n)
  | IMemCopyVal dst src => dst ← replace dst; src ← replace src; Ok (IMemCopyVal dst src)
  | INop => Ok INop
  | IPtrToInt v ty => v ← replace v; Ok (IPtrToInt v ty)
  | IRet v ty => v ← replace v; Ok (IRet v ty)
  | IStore dst stored => stored ← replace stored; dst ← replace dst; Ok (IStore dst stored)
  | IFuelVm instr => instr ← replace_fuel_vm instr; Ok (IFuelVm instr)
  end.
End replace.

(** The closure of [InstOp::replace_values] follows the map until it ends, which takes as many
    steps as the map has entries, or forever. *)
Fixpoint replace_loop (fuel : nat) (replace_map : gmap Value Value) (val : Value) : Result Value :=
  match replace_map !! val with
  | None => Ok val
  | Some new_val => match fuel with O => Err OutOfFuel | S fuel' => replace_loop fuel' replace_map new_val end
  end.
Definition InstOp_replace_values (replace_map : gmap Value Value) (self : InstOp) : Result InstOp :=
  replace_operands (replace_loop (size replace_map) replace_map) self.

Definition may_have_side_effect (self : InstOp) : bool :=
  match self with
  | IAsmBlock asm _ => negb (match body asm with [] => true | _ => false end)
  | ICall _ _ | IContractCall _ _ _ _ _ _ => true
  | IFuelVm (FLog _ _ _ | FSmo _ _ _ _ | FStateClear _ _ | FStateLoadQuadWord _ _ _ | FStateStoreQuadWord _ _ _ | FStateStoreWord _ _
            | FRevert _ | FJmpMem | FRetd _ _) => true
  | IMemCopyBytes _ _ _ | IMemCopyVal _ _ | IStore _ _ | IRet _ _ => true
  | IFuelVm (FWideUnaryOp _ _ _ | FWideBinaryOp _ _ _ _ | FWideCmpOp _ _ _ | FWideModularOp _ _ _ _ _) => true
  | IUnaryOp _ _ | IBinaryOp _ _ _ | IBitCast _ _ | IBranch _ | ICastPtr _ _ | ICmp _ _ _ | IConditionalBranch _ _ _ => false
  | IFuelVm (FGtf _ _ | FReadRegister _ | FStateLoadWord _) => false
  | IGetElemPtr _ _ _ | IGetLocal _ | IGetGlobal _ | IGetConfig _ _ | IIntToPtr _ _ | ILoad _ | INop | IPtrToInt _ _ => false
  end.

Definition InstOp_is_terminator (self : InstOp) : bool :=
  match self with
  | IBranch _ | IConditionalBranch _ _ _ | IRet _ _ | IFuelVm (FRevert _ | FJmpMem | FRetd _ _) => true
  | _ => false
  end.

(** ** The context *)

Inductive ValueDatum : Type :=
  | VArgument (block : Block) (idx : nat) (ty : Ty)
  | VConstant (c : ConstantKey)
  | VInstruction (parent : Block) (op : InstOp).

Record BlockContent : Type := mkBlock { block_function : Function; instructions : list Value; args : list Value; preds : gset Block }.

Record FunctionContent : Type := mkFunction {
  f_name : string; f_arguments : list (string * Value); f_return_type : Ty; f_blocks : list Block;
  f_module : Module_; f_is_entry : bool; f_is_fallback : bool; f_metadata : option MetadataIndex; f_local_storage : list (string * LocalVar);
}.

Record LocalVarContent : Type := mkLocalVar { lv_ptr_ty : Ty; lv_initializer : option ConstantKey; lv_mutable : bool }.
Record GlobalVarContent : Type := mkGlobalVar { gv_ptr_ty : Ty; gv_initializer : option ConstantKey; gv_mutable : bool }.

Inductive ConfigContent : Type :=
  | ConfigV0 (name : string) (ty ptr_ty : Ty) (constant : ConstantKey) (opt_metadata : option MetadataIndex)
  | ConfigV1 (name : string) (ty ptr_ty : Ty) (encoded_bytes : list Z) (decode_fn : Function) (opt_metadata : option MetadataIndex).

Inductive Kind : Type := Contract | Library | Predicate_ | Script.

(** Ordered maps are lists in the order of their keys. *)
Record ModuleContent : Type := mkModule {
  m_kind : Kind; m_functions : list Function; m_global_variables : list (list string * GlobalVar); m_configs : list (string * ConfigContent);
}.

Inductive Metadatum : Type :=
  | MdInteger (n : Z)
  | MdIndex (i : MetadataIndex)
  | MdString (s : string)
  | MdSourceId (id : Z)
  | MdStruct (tag : string) (fields : list Metadatum)
  | MdList (l : list MetadataIndex).

(** The parts of the context that the passes on functions keep: modules in the order of the
    slot map, variables, the metadata of values, and an experimental feature *)
Record Declarations : Type := mkDeclarations {
  modules : list (Module_ * ModuleContent);
  local_vars : gmap LocalVar LocalVarContent;
  global_vars : gmap GlobalVar GlobalVarContent;
  metadata : gmap MetadataIndex Metadatum;
  value_metadata : gmap Value MetadataIndex;
  new_encoding : bool;
}.

Record Context : Type := mkContext {
  types : IrTypes.Context;
  constants : Constants;
  values : gmap Value ValueDatum;
  blocks : gmap Block BlockContent;
  functions : gmap Function FunctionContent;
  declarations : Declarations;
}.

Definition set_values (context : Context) (m : gmap Value ValueDatum) : Context :=
  mkContext (types context) (constants context) m (blocks context) (functions context) (declarations context).
Definition set_blocks (context : Context) (m : gmap Block BlockContent) : Context :=
  mkContext (types context) (constants context) (values context) m (functions context) (declarations context).
Definition set_functions (context : Context) (m : gmap Function FunctionContent) : Context :=
  mkContext (types context) (constants context) (values context) (blocks context) m (declarations context).
Definition set_constants (context : Context) (m : Constants) : Context :=
  mkContext (types context) m (values context) (blocks context) (functions context) (declarations context).

(** Indexing a slot map *)
Definition index {A} (m : gmap positive A) (k : positive) : Result A := expect_some (m !! k) "invalid SlotMap key used".

(** ** Values *)

Definition value_datum (context : Context) (self : Value) : Result ValueDatum := index (values context) self.

Definition is_constant (context : Context) (self : Value) : Result bool :=
  d ← value_datum context self; Ok (match d with VConstant _ => true | _ => false end).
Definition is_terminator (context : Context) (self : Value) : Result bool :=
  d ← value_datum context self; Ok (match d with VInstruction _ op => InstOp_is_terminator op | _ => false end).
Definition get_constant (context : Context) (self : Value) : Result (option ConstantKey) :=
  d ← value_datum context self; Ok (match d with VConstant c => Some c | _ => None end).
Definition get_instruction (context : Context) (self : Value) : Result (option (Block * InstOp)) :=
  d ← value_datum context self; Ok (match d with VInstruction parent op => Some (parent, op) | _ => None end).
Definition get_argument (context : Context) (self : Value) : Result (option (Block * nat * Ty)) :=
  d ← value_datum context self; Ok (match d with VArgument block idx ty => Some (block, idx, ty) | _ => None end).

(** [Constant::get_content] *)
Definition constant_content (context : Context) (c : ConstantKey) : Result ConstantContent := index (IrConstant.constants (constants context)) c.

(** [Value::replace] *)
Definition replace (context : Context) (self : Value) (other : ValueDatum) : Result Context :=
  _ ← value_datum context self;
  Ok (set_values context (<[self := other]> (values context))).

Definition replace_instruction_values (context : Context) (self : Value) (replace_map : gmap Value Value) : Result Context :=
  d ← value_datum context self;
  match d with
  | VInstruction parent op =>
      op ← InstOp_replace_values replace_map op;
      Ok (set_values context (<[self := VInstruction parent op]> (values context)))
  | _ => Ok context
  end.

(** ** Blocks *)

Definition block_content (context : Context) (self : Block) : Result BlockContent := index (blocks context) self.

Definition update_block (context : Context) (self : Block) (f : BlockContent -> BlockContent) : Result Context :=
  b ← block_content context self;
  Ok (set_blocks context (<[self := f b]> (blocks context))).

Definition num_instructions (context : Context) (self : Block) : Result nat := b ← block_content context self; Ok (length (instructions b)).
Definition num_args (context : Context) (self : Block) : Result nat := b ← block_content context self; Ok (length (args b)).
Definition num_predecessors (context : Context) (self : Block) : Result nat := b ← block_content context self; Ok (size (preds b)).

Definition add_pred (context : Context) (self from_block : Block) : Result Context :=
  update_block context self (fun b => mkBlock (block_function b) (instructions b) (args b) ({[from_block]} ∪ preds b)).
Definition remove_pred (context : Context) (self from_block : Block) : Result Context :=
  update_block context self (fun b => mkBlock (block_function b) (instructions b) (args b) (preds b ∖ {[from_block]})).
Definition replace_pred (context : Context) (self old_source new_source : Block) : Result Context :=
  context ← remove_pred context self old_source; add_pred context self new_source.

Definition set_instructions (l : list Value) (b : BlockContent) : BlockContent := mkBlock (block_function b) l (args b) (preds b).

(** The last instruction when it is a terminator *)
Definition get_terminator (context : Context) (self : Block) : Result (option (Value * InstOp)) :=
  b ← block_content context self;
  match last (instructions b) with
  | None => Ok None
  | Some val =>
      d ← value_datum context val;
      Ok (match d with VInstruction _ op => if InstOp_is_terminator op then Some (val, op) else None | _ => None end)
  end.

Definition successors (context : Context) (self : Block) : Result (list BranchToWithArgs) :=
  t ← get_terminator context self;
  Ok (match t with
      | Some (_, IConditionalBranch _ true_block false_block) => [true_block; false_block]
      | Some (_, IBranch block) => [block]
      | _ => []
      end).

Definition get_succ_params (context : Context) (self succ : Block) : Result (list Value) :=
  l ← successors context self;
  Ok (match List.find (fun br => bool_decide (br_block br = succ)) l with Some br => br_args br | None => [] end).

(** [Vec::remove] of the first occurrence *)
Fixpoint remove_first (v : Value) (l : list Value) : list Value :=
  match l with
  | [] => []
  | x :: l' => if bool_decide (x = v) then l' else x :: remove_first v l'
  end.
Definition remove_instruction (context : Context) (self : Block) (instr_val : Value) : Result Context :=
  update_block context self (fun b => set_instructions (remove_first instr_val (instructions b)) b).

Definition Block_replace_values (context : Context) (self : Block) (replace_map : gmap Value Value) : Result Context :=
  b ← block_content context self;
  fold_ok (fun context ins => replace_instruction_values context ins replace_map) context (instructions b).

(** ** Functions *)

Definition function_content (context : Context) (self : Function) : Result FunctionContent := index (functions context) self.
Definition block_iter (context : Context) (self : Function) : Result (list Block) := f ← function_content context self; Ok (f_blocks f).
Definition get_entry_block (context : Context) (self : Function) : Result Block :=
  l ← block_iter context self; expect_some (head l) "index out of bounds".

Definition instruction_iter (context : Context) (self : Function) : Result (list (Block * Value)) :=
  l ← block_iter context self;
  concat_traverse (fun block => b ← block_content context block; Ok (map (pair block) (instructions b))) l.

(** [Function::replace_values], from the first block *)
Definition Function_replace_values (context : Context) (self : Function) (replace_map : gmap Value Value) : Result Context :=
  l ← block_iter context self;
  fold_ok (fun context block => Block_replace_values context block replace_map) context l.
