(* ===== verification/IrFold.v ===== *)
(** * Constant folding

    [sway-ir/src/optimize/constants.rs].  Each of the five functions looks for the first
    instruction that it can simplify, rewrites it in place and reports whether it found
    one; [fold_constants] starts over after every change.  The instructions are collected
    before the search. *)

From S2P Require Import Prelude IrTypes IrConstant IrCore.
Local Open Scope Z_scope.

(** ** Integers *)

Definition u64_checked_add (l r : Z) : option Z := if l + r <? 2 ^ 64 then Some (l + r) else None.
Definition u64_checked_sub (l r : Z) : option Z := if r <=? l then Some (l - r) else None.
Definition u64_checked_mul (l r : Z) : option Z := if l * r <? 2 ^ 64 then Some (l * r) else None.
Definition u64_checked_div (l r : Z) : option Z := if r =? 0 then None else Some (l / r).
Definition u64_checked_rem (l r : Z) : option Z := if r =? 0 then None else Some (l mod r).
(** [u32::try_from(r).ok().and_then(|r| l.checked_shr(r))] and the same for [checked_shl] *)
Definition u64_checked_shr (l r : Z) : option Z := if r <? 64 then Some (Z.shiftr l r) else None.
Definition u64_checked_shl (l r : Z) : option Z := if r <? 64 then Some (Z.shiftl l r mod 2 ^ 64) else None.

(** [Iterator::find_map] *)
Fixpoint find_map_ok {A B} (f : A -> Result (option B)) (l : list A) : Result (option B) :=
  match l with
  | [] => Ok None
  | x :: l' => o ← f x; match o with Some b => Ok (Some b) | None => find_map_ok f l' end
  end.

(** The constant that a value is, with its content *)
Definition constant_of (context : Context) (v : Value) : Result (option (ConstantKey * ConstantContent)) :=
  o ← get_constant context v;
  match o with
  | Some c => content ← constant_content context c; Ok (Some (c, content))
  | None => Ok None
  end.

(** The operation of a value that [instruction_iter] returns *)
Definition op_of (context : Context) (v : Value) : Result (option InstOp) := 
  o ← get_instruction context v; Ok (match o with Some (_, op) => Some op | None => None end).

(** ** Conditional branches *)

Definition cbr_candidate (context : Context) (p : Block * Value) : Result (option (Value * Block * BranchToWithArgs * BranchToWithArgs)) :=
  let '(in_block, inst_val) := p in
  o ← op_of context inst_val;
  match o with
  | Some (IConditionalBranch cond_value true_block false_block) =>
      c ← constant_of context cond_value;
      match c with
      | Some (_, mkConstant _ (CBool true)) => Ok (Some (inst_val, in_block, true_block, false_block))
      | Some (_, mkConstant _ (CBool false)) => Ok (Some (inst_val, in_block, false_block, true_block))
      | Some _ => Err (Internal "VerifyConditionExprNotABool")
      | None => Ok None
      end
  | _ => Ok None
  end.

Definition combine_cbr (context : Context) (function : Function) : Result (Context * bool) :=
  l ← instruction_iter context function;
  candidate ← find_map_ok (cbr_candidate context) l;
  match candidate with
  | None => Ok (context, false)
  | Some (cbr, from_block, dest, no_more_dest) =>
      context ← remove_pred context (br_block no_more_dest) from_block;
      context ← add_pred context (br_block dest) from_block;
      i ← get_instruction context cbr;
      i ← expect_some i "called `Option::unwrap()` on a `None` value";
      context ← replace context cbr (VInstruction i.1 (IBranch dest));
      Ok (context, true)
  end.

Section hash.
Context `{SlotMap} (hash : ConstantContent -> Z).

(** [Constant::unique] in the whole context *)
Definition unique_constant (context : Context) (c : ConstantContent) : Result (Context * ConstantKey) :=
  r ← unique hash (types context) (constants context) c;
  Ok (set_constants context r.1, r.2).

(** Replaces the instruction by a constant and removes it from its block *)
Definition replace_by_constant (context : Context) (inst_val : Value) (block : Block) (content : ConstantContent) : Result Context :=
  r ← unique_constant context content;
  context ← replace r.1 inst_val (VConstant r.2);
  remove_instruction context block inst_val.

(** ** Comparisons *)

Definition fold_cmp (pred : Predicate) (c1 c2 : ConstantKey) (val1 val2 : ConstantValue) : Result bool :=
  match pred with
  | PEqual => Ok (bool_decide (c1 = c2))
  | PGreaterThan =>
      match val1, val2 with
      | CUint l, CUint r | CU256 l, CU256 r | CB256 l, CB256 r => Ok (r <? l)
      | _, _ => Err (Panic "Type checker allowed non integer value for GreaterThan")
      end
  | PLessThan =>
      match val1, val2 with
      | CUint l, CUint r | CU256 l, CU256 r | CB256 l, CB256 r => Ok (l <? r)
      | _, _ => Err (Panic "Type checker allowed non integer value for GreaterThan")
      end
  end.

Definition cmp_candidate (context : Context) (p : Block * Value) : Result (option (Value * Block * bool)) :=
  let '(block, inst_val) := p in
  o ← op_of context inst_val;
  match o with
  | Some (ICmp pred val1 val2) =>
      c1 ← constant_of context val1;
      c2 ← constant_of context val2;
      match c1, c2 with
      | Some (c1, val1), Some (c2, val2) => r ← fold_cmp pred c1 c2 (cvalue val1) (cvalue val2); Ok (Some (inst_val, block, r))
      | _, _ => Ok None
      end
  | _ => Ok None
  end.

Definition combine_cmp (context : Context) (function : Function) : Result (Context * bool) :=
  l ← instruction_iter context function;
  candidate ← find_map_ok (cmp_candidate context) l;
  match candidate with
  | None => Ok (context, false)
  | Some (inst_val, block, cn_replace) =>
      content ← Constant_new_bool (types context) cn_replace;
      context ← replace_by_constant context inst_val block content;
      Ok (context, true)
  end.

(** ** Binary operations *)

Definition fold_binary_op (op : BinaryOpKind) (val1 val2 : ConstantValue) : option ConstantValue :=
  match op, val1, val2 with
  | BAdd, CUint l, CUint r => CUint <$> u64_checked_add l r
  | BAdd, CU256 l, CU256 r => CU256 <$> U256_checked_add l r
  | BSub, CUint l, CUint r => CUint <$> u64_checked_sub l r
  | BSub, CU256 l, CU256 r => CU256 <$> U256_checked_sub l r
  | BMul, CUint l, CUint r => CUint <$> u64_checked_mul l r
  | BMul, CU256 l, CU256 r => CU256 <$> U256_checked_mul l r
  | BDiv, CUint l, CUint r => CUint <$> u64_checked_div l r
  | BDiv, CU256 l, CU256 r => CU256 <$> U256_checked_div l r
  | BAnd, CUint l, CUint r => Some (CUint (Z.land l r))
  | BAnd, CU256 l, CU256 r => Some (CU256 (U256_bitand l r))
  | BOr, CUint l, CUint r => Some (CUint (Z.lor l r))
  | BOr, CU256 l, CU256 r => Some (CU256 (U256_bitor l r))
  | BXor, CUint l, CUint r => Some (CUint (Z.lxor l r))
  | BXor, CU256 l, CU256 r => Some (CU256 (U256_bitxor l r))
  | BMod, CUint l, CUint r => CUint <$> u64_checked_rem l r
  | BMod, CU256 l, CU256 r => CU256 <$> U256_checked_rem l r
  | BRsh, CUint l, CUint r => CUint <$> u64_checked_shr l r
  | BRsh, CU256 l, CUint r => Some (CU256 (U256_shr l r))
  | BLsh, CUint l, CUint r => CUint <$> u64_checked_shl l r
  | BLsh, CU256 l, CUint r => CU256 <$> U256_checked_shl l r
  | _, _, _ => None
  end.

Definition binary_candidate (context : Context) (p : Block * Value) : Result (option (Value * Block * ConstantContent)) :=
  let '(block, inst_val) := p in
  o ← op_of context inst_val;
  match o with
  | Some (IBinaryOp op arg1 arg2) =>
      c1 ← constant_of context arg1;
      c2 ← constant_of context arg2;
      match c1, c2 with
      | Some (_, val1), Some (_, val2) =>
          Ok ((fun value => (inst_val, block, mkConstant (cty val1) value)) <$> fold_binary_op op (cvalue val1) (cvalue val2))
      | _, _ => Ok None
      end
  | _ => Ok None
  end.

Definition combine_binary_op (context : Context) (function : Function) : Result (Context * bool) :=
  l ← instruction_iter context function;
  candidate ← find_map_ok (binary_candidate context) l;
  match candidate with
  | None => Ok (context, false)
  | Some (inst_val, block, new_value) => context ← replace_by_constant context inst_val block new_value; Ok (context, true)
  end.

(** ** Operations with a neutral element *)

(** The argument that is the result *)
Definition useless_binary_op (op : BinaryOpKind) (arg1 arg2 : Value) (val1 val2 : option ConstantValue) : option Value :=
  match op, val1, val2 with
  | BAdd, Some (CUint 0), _ => Some arg2
  | BAdd, _, Some (CUint 0) => Some arg1
  | BMul, Some (CUint 1), _ => Some arg2
  | BMul, _, Some (CUint 1) => Some arg1
  | BDiv, _, Some (CUint 1) => Some arg1
  | BSub, _, Some (CUint 0) => Some arg1
  | _, _, _ => None
  end.

Definition useless_candidate (context : Context) (p : Block * Value) : Result (option (Block * Value * Value)) :=
  let '(block, candidate) := p in
  o ← op_of context candidate;
  match o with
  | Some (IBinaryOp op arg1 arg2) =>
      c1 ← constant_of context arg1;
      c2 ← constant_of context arg2;
      match c1, c2 with
      | None, None => Ok None
      | _, _ =>
          let value c := cvalue (c : ConstantKey * ConstantContent).2 in
          Ok ((fun v => (block, candidate, v)) <$> useless_binary_op op arg1 arg2 (value <$> c1) (value <$> c2))
      end
  | _ => Ok None
  end.

Definition remove_useless_binary_op (context : Context) (function : Function) : Result (Context * bool) :=
  l ← instruction_iter context function;
  candidate ← find_map_ok (useless_candidate context) l;
  match candidate with
  | None => Ok (context, false)
  | Some (block, old_value, new_value) =>
      context ← Function_replace_values context function {[ old_value := new_value ]};
      context ← remove_instruction context block old_value;
      Ok (context, true)
  end.

(** ** Unary operations *)

Definition fold_unary_op (context : Context) (op : UnaryOpKind) (val : ConstantContent) : Result (option ConstantValue) :=
  match op, cvalue val with
  | UNot, CUint v =>
      width ← get_uint_width (types context) (cty val);
      Ok (match width with
          | Some width =>
              if (width =? 8) || (width =? 16) || (width =? 32) || (width =? 64)
              then Some (CUint (Z.land (2 ^ 64 - 1 - v) (2 ^ width - 1))) else None
          | None => None
          end)
  | UNot, CU256 v => v ← U256_not v; Ok (Some (CU256 v))
  | _, _ => Ok None
  end.

Definition unary_candidate (context : Context) (p : Block * Value) : Result (option (Value * Block * ConstantContent)) :=
  let '(block, inst_val) := p in
  o ← op_of context inst_val;
  match o with
  | Some (IUnaryOp op arg) =>
      c ← constant_of context arg;
      match c with
      | Some (_, val) =>
          v ← fold_unary_op context op val;
          Ok (match v with Some value => Some (inst_val, block, mkConstant (cty val) value) | None => None end)
      | None => Ok None
      end
  | _ => Ok None
  end.

Definition combine_unary_op (context : Context) (function : Function) : Result (Context * bool) :=
  l ← instruction_iter context function;
  candidate ← find_map_ok (unary_candidate context) l;
  match candidate with
  | None => Ok (context, false)
  | Some (inst_val, block, new_value) => context ← replace_by_constant context inst_val block new_value; Ok (context, true)
  end.

(** ** The pass *)

Definition fold_step (context : Context) (function : Function) : Result (Context * bool) :=
  r ← combine_cmp context function;
  if r.2 : bool then Ok r
  else
    r ← combine_cbr r.1 function;
    if r.2 : bool then Ok r
    else
      r ← combine_binary_op r.1 function;
      if r.2 : bool then Ok r
      else
        r ← remove_useless_binary_op r.1 function;
        if r.2 : bool then Ok r else combine_unary_op r.1 function.

Fixpoint fold_loop (fuel : nat) (context : Context) (function : Function) (modified : bool) : Result (Context * bool) :=
  match fuel with
  | O => Err OutOfFuel
  | S fuel' => r ← fold_step context function; if r.2 : bool then fold_loop fuel' r.1 function true else Ok (r.1, modified)
  end.

(** Every change removes an instruction or turns a conditional branch into a branch. *)
Definition fold_fuel (context : Context) (function : Function) : Result nat :=
  l ← instruction_iter context function; Ok (S (2 * length l)).

Definition fold_constants (context : Context) (function : Function) : Result (Context * bool) :=
  fuel ← fold_fuel context function;
  fold_loop fuel context function false.
End hash.
