(* ===== verification/IrRun.v ===== *)
(** * Running functions of the IR

    The specification that the passes of the IR keep: a function runs instruction by
    instruction on an environment of values.  What an instruction does is given by the
    class [IrVm]: [exec] gets the instruction with its operands erased and the values of
    the operands.  A run that makes no sense, such as an operand without a value, is
    stuck.  [scoped] is the condition that every operand is defined on all ways to its
    use. *)

From S2P Require Import Prelude IrTypes IrConstant IrCore.
Local Open Scope Z_scope.

(** ** The machine *)

Inductive Effect (V W H : Type) : Type := Continues (v : V) (w : W) | Halts (h : H).
Arguments Continues {V W H}. Arguments Halts {V W H}.

Class IrVm : Type := {
  Val : Type;
  World : Type;
  Halt : Type;
  word : Z -> Val;
  wide : Z -> Val;
  const_val : ConstantContent -> Val;
  as_bool : Val -> option bool;
  exec : InstOp -> list Val -> World -> option (Effect Val World Halt);
}.

(** An instruction whose operands are all the same key *)
Definition erase (op : InstOp) : InstOp := match replace_operands (fun _ => Ok 1%positive) op with Ok op' => op' | Err _ => op end.

(** An instruction with its operands renamed *)
Definition rename (f : Value -> Value) (op : InstOp) : InstOp := match replace_operands (fun v => Ok (f v)) op with Ok op' => op' | Err _ => op end.
Definition rename_branch (f : Value -> Value) (br : BranchToWithArgs) : BranchToWithArgs := mkBranch (br_block br) (map f (br_args br)).

Section run.
Context `{IrVm} (context : Context).

Definition is_const (v : Value) (content : ConstantContent) : Prop :=
  exists c, values context !! v = Some (VConstant c) /\ IrConstant.constants (constants context) !! c = Some content.

Abbreviation Env := (gmap Value Val).

Definition eval (env : Env) (v : Value) : option Val :=
  match values context !! v with
  | Some (VConstant c) => const_val <$> IrConstant.constants (constants context) !! c
  | Some _ => env !! v
  | None => None
  end.

Record State : Type := mkState { cur : Block; rest : list Value; env : Env; world : World }.

Inductive Outcome : Type := Returned (v : Val) (w : World) | Halted (h : Halt).

Definition bind_args (l : list Value) (vals : list Val) (e : Env) : Env := list_to_map (zip l vals) ∪ e.

Definition enter (e : Env) (w : World) (br : BranchToWithArgs) : option State :=
  vals ← mapM (eval e) (br_args br);
  b ← blocks context !! br_block br;
  if bool_decide (length (args b) = length vals) then Some (mkState (br_block br) (instructions b) (bind_args (args b) vals e) w) else None.

(** One instruction *)
Definition step (st : State) : option (State + Outcome) :=
  match rest st with
  | [] => None
  | v :: rest' =>
      match values context !! v with
      | Some (VInstruction _ op) =>
          match op with
          | IBranch br => inl <$> enter (env st) (world st) br
          | IConditionalBranch cond true_block false_block =>
              c ← eval (env st) cond;
              b ← as_bool c;
              inl <$> enter (env st) (world st) (if (b : bool) then true_block else false_block)
          | IRet r _ => r ← eval (env st) r; Some (inr (Returned r (world st)))
          | _ =>
              vals ← mapM (eval (env st)) (get_operands op);
              e ← exec (erase op) vals (world st);
              Some (match e with
                    | Continues a w => inl (mkState (cur st) rest' (<[v := a]> (env st)) w)
                    | Halts h => inr (Halted h)
                    end)
          end
      | _ => None
      end
  end.

Inductive Progress : Type := Running (st : State) | Finished (o : Outcome) | Stuck.

Fixpoint run (n : nat) (st : State) : Progress :=
  match n with
  | O => Running st
  | S n' => match step st with Some (inl st') => run n' st' | Some (inr o) => Finished o | None => Stuck end
  end.

(** The start of a function on arguments *)
Definition start (f : Function) (vals : list Val) (w : World) : option State :=
  fc ← functions context !! f;
  entry ← head (f_blocks fc);
  b ← blocks context !! entry;
  if bool_decide (length (args b) = length vals) then Some (mkState entry (instructions b) (bind_args (args b) vals ∅) w) else None.

(** What a function does: it ends with an outcome, or it runs forever. *)
Definition ends (f : Function) (vals : list Val) (w : World) (o : Outcome) : Prop :=
  exists st n, start f vals w = Some st /\ run n st = Finished o.
Definition diverges (f : Function) (vals : list Val) (w : World) : Prop :=
  exists st, start f vals w = Some st /\ forall n, exists st', run n st = Running st'.

(** ** Scopes *)

Definition targets (op : InstOp) : list BranchToWithArgs :=
  match op with
  | IBranch br => [br]
  | IConditionalBranch _ true_block false_block => [true_block; false_block]
  | _ => []
  end.

Definition defined_in (b : Block) (x : Value) : Prop := exists c, blocks context !! b = Some c /\ (x ∈ args c \/ x ∈ instructions c).

(** The values that an instruction of block [b] after the instructions [before] can use *)
Definition in_scope (avail : Block -> gset Value) (b : Block) (c : BlockContent) (before : list Value) (x : Value) : Prop :=
  (exists content, is_const x content) \/ x ∈ avail b \/ x ∈ args c \/ x ∈ before.

(** The instruction [v] with operation [op] in the block [b] after [before] *)
Definition at_point (l : list Block) (b : Block) (c : BlockContent) (before : list Value) (v : Value) (after : list Value) (op : InstOp) : Prop :=
  b ∈ l /\ blocks context !! b = Some c /\ instructions c = before ++ v :: after /\ exists p, values context !! v = Some (VInstruction p op).

(** [avail b] holds the values of other blocks that are defined on every way to [b]. *)
Record scoped (f : Function) (avail : Block -> gset Value) : Prop := {
  sc_function : exists fc entry, functions context !! f = Some fc /\ head (f_blocks fc) = Some entry /\ avail entry = ∅ /\ NoDup (f_blocks fc);
  sc_block fc b : functions context !! f = Some fc -> b ∈ f_blocks fc -> exists c, blocks context !! b = Some c /\ NoDup (args c ++ instructions c);
  sc_instruction fc b c v : functions context !! f = Some fc -> b ∈ f_blocks fc -> blocks context !! b = Some c -> v ∈ instructions c ->
    exists p op, values context !! v = Some (VInstruction p op);
  sc_argument fc b c v : functions context !! f = Some fc -> b ∈ f_blocks fc -> blocks context !! b = Some c -> v ∈ args c ->
    exists b' idx ty, values context !! v = Some (VArgument b' idx ty);
  sc_unique fc b b' x : functions context !! f = Some fc -> b ∈ f_blocks fc -> b' ∈ f_blocks fc -> defined_in b x -> defined_in b' x -> b = b';
  sc_operands fc b c before v after op x : functions context !! f = Some fc -> at_point (f_blocks fc) b c before v after op ->
    x ∈ get_operands op -> in_scope avail b c before x;
  sc_edges fc b c before v after op br : functions context !! f = Some fc -> at_point (f_blocks fc) b c before v after op -> br ∈ targets op ->
    br_block br ∈ f_blocks fc /\ forall x, x ∈ avail (br_block br) -> x ∈ avail b \/ x ∈ args c \/ x ∈ before;
}.
End run.

(** * Scopes of the values of the IR

    A value that is available in a block was defined in a block before it on the way
    there; so a value does not change while another one that was computed from it is
    available. *)

(** ** Renaming *)

Section rename.

Lemma traverse_total {A B} (f : A -> B) l : traverse (fun x => Ok (f x)) l = Ok (map f l).
Proof. induction l as [|x l IH]; [done|]. cbn. by rewrite IH. Qed.

Lemma replace_branch_total f br : replace_branch (fun v => Ok (f v)) br = Ok (rename_branch f br).
Proof. unfold replace_branch. rewrite traverse_total. done. Qed.

Definition rename_asm_arg (f : Value -> Value) (arg : AsmArg) : AsmArg := mkAsmArg (arg_name arg) (f <$> initializer arg).

Lemma replace_asm_args_total f l : traverse (replace_asm_arg (fun v => Ok (f v))) l = Ok (map (rename_asm_arg f) l).
Proof.
  induction l as [|[n [v|]] l IH]; [done|..]; cbn; rewrite IH; done.
Qed.

Lemma replace_operands_total f op : replace_operands (fun v => Ok (f v)) op = Ok (rename f op).
Proof.
  unfold rename. destruct op as [| | | | | | | | | |instr| | | | | | | | | | | |]; cbn; rewrite ?traverse_total, ?replace_branch_total, ?replace_asm_args_total; try done.
  by destruct instr.
Qed.

Lemma rename_branch_args f br : br_args (rename_branch f br) = map f (br_args br).
Proof. done. Qed.

Lemma get_operands_rename f op : get_operands (rename f op) = map f (get_operands op).
Proof.
  unfold rename. destruct op as [asm l| | | | | | | | | |instr| | | | | | | | | | | |]; cbn; rewrite ?traverse_total, ?replace_branch_total, ?replace_asm_args_total; cbn; try done.
  - induction l as [|[n [v|]] l IH]; cbn; [done|by rewrite IH|by rewrite IH].
  - by rewrite map_app.
  - by destruct instr.
  - by rewrite map_app.
Qed.

Lemma erase_rename f op : erase (rename f op) = erase op.
Proof.
  unfold erase. rewrite !(replace_operands_total (fun _ => 1%positive)).
  unfold rename. destruct op as [asm l| | | | | | | | | |instr| | | | | | | | | | | |]; cbn; rewrite ?traverse_total, ?replace_branch_total, ?replace_asm_args_total; cbn;
    rewrite ?traverse_total, ?replace_branch_total, ?replace_asm_args_total; cbn; unfold rename_branch; cbn; rewrite ?map_map; try done.
  - f_equal. apply map_ext. by intros [n [v|]].
  - by destruct instr.
Qed.

Lemma rename_id op f : (forall x, x ∈ get_operands op -> f x = x) -> rename f op = op.
Proof.
  intros Hf. unfold rename.
  assert (forall l, (forall x, x ∈ l -> f x = x) -> map f l = l) as Hmap.
  { intros l Hl. rewrite <- (map_id l) at 2. apply map_ext_in. intros x Hx. apply Hl. by apply list_elem_of_In. }
  assert (forall br, (forall x, x ∈ br_args br -> f x = x) -> rename_branch f br = br) as Hbr.
  { intros [b l] Hl. unfold rename_branch. cbn in *. by rewrite Hmap. }
  destruct op as [asm l| | | | | | | | | |instr| | | | | | | | | | | |]; cbn in *; rewrite ?traverse_total, ?replace_branch_total, ?replace_asm_args_total; cbn; try done;
    try (rewrite ?Hf by set_solver; done).
  - f_equal. rewrite <- (map_id l) at 2. apply map_ext_in. intros [n [v|]] Hin; [|done]. unfold rename_asm_arg. cbn. rewrite Hf; [done|].
    apply list_elem_of_omap. exists (mkAsmArg n (Some v)). split; [by apply list_elem_of_In|done].
  - by rewrite Hbr.
  - by rewrite Hmap.
  - rewrite (Hf cond_value), !Hbr; [done|set_solver..].
  - destruct instr; cbn in *; rewrite ?Hf by set_solver; done.
  - rewrite Hmap, Hf; [done|set_solver..].
Qed.

Lemma targets_rename f op : targets (rename f op) = map (rename_branch f) (targets op).
Proof.
  unfold rename. destruct op as [asm l| | | | | | | | | |instr| | | | | | | | | | | |]; cbn; rewrite ?traverse_total, ?replace_branch_total, ?replace_asm_args_total; cbn; try done.
  by destruct instr.
Qed.

Lemma rename_rename f g op : rename f (rename g op) = rename (fun x => f (g x)) op.
Proof.
  unfold rename at 2 3. destruct op as [asm l| | | | | | | | | |instr| | | | | | | | | | | |]; cbn; rewrite ?traverse_total, ?replace_branch_total, ?replace_asm_args_total; cbn; unfold rename; cbn;
    rewrite ?traverse_total, ?replace_branch_total, ?replace_asm_args_total; cbn; unfold rename_branch; cbn; rewrite ?map_map; try done.
  - f_equal. apply map_ext. by intros [n [v|]].
  - by destruct instr.
Qed.

Lemma replace_operands_ext g g' op : (forall x, g x = g' x) -> replace_operands g op = replace_operands g' op.
Proof.
  intros Hg. assert (forall l, traverse g l = traverse g' l) as Hl by (induction l as [|x l IH]; cbn; [done|by rewrite Hg, IH]).
  assert (forall br, replace_branch g br = replace_branch g' br) as Hbr by (intros br; unfold replace_branch; by rewrite Hl).
  assert (forall l, traverse (replace_asm_arg g) l = traverse (replace_asm_arg g') l) as Ha.
  { induction l as [|[n [v|]] l IH]; cbn; [done|by rewrite Hg, IH|by rewrite IH]. }
  destruct op as [asm l| | | | | | | | | |instr| | | | | | | | | | | |]; cbn; rewrite ?Ha, ?Hl, ?Hbr, ?Hg; try done.
  destruct instr; cbn; rewrite ?Hg; done.
Qed.

Lemma rename_ext f g op : (forall x, f x = g x) -> rename f op = rename g op.
Proof. intros Hfg. unfold rename. rewrite (replace_operands_ext _ (fun v => Ok (g v))); [done|]. intros x. by rewrite Hfg. Qed.
End rename.

(** ** Ways through a function *)

Section paths.
Context (context : Context) (f : Function) (avail : Block -> gset Value) (Hsc : scoped context f avail).
Context (fc : FunctionContent) (Hfc : functions context !! f = Some fc).

Abbreviation bl := (f_blocks fc).

(** The blocks on a way from the entry to a block, without this block, from the last *)
Inductive path : Block -> list Block -> Prop :=
  | path_entry e : head bl = Some e -> path e []
  | path_step b p c before v after op br :
      path b p -> at_point context bl b c before v after op -> br ∈ targets op -> path (br_block br) (b :: p).

Lemma path_block b p : path b p -> b ∈ bl.
Proof.
  destruct 1 as [e He|b p c before v after op br _ Hat Hbr]; [destruct bl; [done|]; injection He as ->; by left|].
  by apply (sc_edges _ _ _ Hsc fc b c before v after op br Hfc Hat Hbr).
Qed.

Lemma avail_entry e : head bl = Some e -> avail e = ∅.
Proof. intros He. destruct (sc_function _ _ _ Hsc) as (fc' & e' & Hfc' & He' & Ha & _). congruence. Qed.

Lemma point_defined b c before v after op : at_point context bl b c before v after op -> defined_in context b v.
Proof. intros (_ & Hb & Hi & _). exists c. split; [done|]. right. rewrite Hi. apply elem_of_app. right. by left. Qed.

Lemma avail_defined b p x : path b p -> x ∈ avail b -> exists p1 b' p2, p = p1 ++ b' :: p2 /\ path b' p2 /\ defined_in context b' x.
Proof.
  induction 1 as [e He|b p c before v after op br Hp IH Hat Hbr]; intros Hx; [rewrite (avail_entry e He) in Hx; by apply elem_of_empty in Hx|].
  apply (sc_edges _ _ _ Hsc fc b c before v after op br Hfc Hat Hbr) in Hx. destruct Hat as (_ & Hc & Hi & _).
  assert (x ∈ avail b \/ defined_in context b x) as [Hx'|Hx'].
  { destruct Hx as [?|[?|Hin]]; [by left|right; exists c; auto|right]. exists c. split; [done|]. right. rewrite Hi. apply elem_of_app. by left. }
  - destruct (IH Hx') as (p1 & b' & p2 & -> & ? & ?). by exists (b :: p1), b', p2.
  - by exists [], b, p.
Qed.

(** A value is not available in the block that defines it. *)
Lemma avail_not_self b p x : path b p -> x ∈ avail b -> ~ defined_in context b x.
Proof.
  remember (length p) as n eqn:Hn. revert b p Hn. induction n as [n IH] using lt_wf_ind. intros b p -> Hp Hx Hd.
  destruct (avail_defined b p x Hp Hx) as (p1 & b' & p2 & -> & Hp2 & Hd').
  assert (b' = b) as -> by (apply (sc_unique _ _ _ Hsc fc b' b x Hfc); [by eapply path_block|by eapply path_block|done|done]).
  apply (IH (length p2) ltac:(rewrite length_app; cbn; lia) b p2 eq_refl Hp2 Hx Hd).
Qed.

(** Where a value is available, the operands that it was computed from are not redefined. *)
Lemma avail_not_killed bv cv before v after op r b p :
  at_point context bl bv cv before v after op -> in_scope context avail bv cv before r -> (forall content, ~ is_const context r content) ->
  path b p -> v ∈ avail b -> ~ defined_in context b r.
Proof.
  intros Hat Hr Hnc. remember (length p) as n eqn:Hn. revert b p Hn. induction n as [n IH] using lt_wf_ind. intros b p -> Hp Hv Hd.
  destruct (avail_defined b p v Hp Hv) as (p1 & b' & p2 & -> & Hp2 & Hd').
  assert (b' = bv) as -> by (apply (sc_unique _ _ _ Hsc fc b' bv v Hfc); [by eapply path_block|by apply Hat|done|by eapply point_defined]).
  assert (r ∈ avail bv \/ defined_in context bv r) as [Hr'|Hr'].
  { destruct Hr as [[content Hc]|[?|[?|Hin]]]; [by destruct (Hnc content)|by left|right; exists cv; split; [apply Hat|by left]|right].
    destruct Hat as (_ & Hc & Hi & _). exists cv. split; [done|]. right. rewrite Hi. apply elem_of_app. by left. }
  - destruct (avail_defined bv p2 r Hp2 Hr') as (p3 & b'' & p4 & -> & Hp4 & Hd'').
    assert (b'' = b) as -> by (apply (sc_unique _ _ _ Hsc fc b'' b r Hfc); [by eapply path_block|by eapply path_block|done|done]).
    eapply (IH (length p4)); [rewrite !length_app; cbn; rewrite length_app; cbn; lia|done|exact Hp4|done|done].
  - assert (bv = b) as -> by (apply (sc_unique _ _ _ Hsc fc bv b r Hfc); [by eapply path_block|by eapply path_block|done|done]).
    eapply (IH (length p2)); [rewrite length_app; cbn; lia|done|exact Hp2|done|done].
Qed.

(** The parts of a block are disjoint. *)
Lemma before_fresh b c before v after op : at_point context bl b c before v after op -> (v ∉ before) /\ (v ∉ args c) /\ (v ∉ after).
Proof.
  intros (Hb & Hc & Hi & _). destruct (sc_block _ _ _ Hsc fc b Hfc Hb) as (c' & Hc' & Hnd). rewrite Hc in Hc'. injection Hc' as <-.
  rewrite Hi, app_assoc in Hnd. apply NoDup_app in Hnd as (_ & Hd & Hva). apply NoDup_cons in Hva as [Hva _].
  assert (v ∉ args c ++ before) as Hfresh by (intros Hin; apply (Hd v Hin); by left). rewrite elem_of_app in Hfresh. tauto.
Qed.

Lemma nodup_index (l a1 b1 : list Value) x a2 b2 : NoDup l -> l = a1 ++ x :: a2 -> l = b1 ++ x :: b2 -> length a1 = length b1.
Proof.
  intros Hnd Ha Hb. eapply (NoDup_lookup l _ _ x Hnd); [rewrite Ha|rewrite Hb]; by apply list_lookup_middle.
Qed.

(** While [v] is in scope, its operand [r] is not defined again. *)
Lemma scope_not_killed bv cv before_v v after_v op_v r b p c before u after op :
  at_point context bl bv cv before_v v after_v op_v -> in_scope context avail bv cv before_v r -> (forall content, ~ is_const context r content) ->
  path b p -> at_point context bl b c before u after op -> in_scope context avail b c before v -> u <> r.
Proof.
  intros Hv Hr Hnc Hp Hu Hscope ->. assert (defined_in context b r) as Hd by (by eapply point_defined).
  destruct Hscope as [[content (k & Hk & _)]|[Hin|[Hin|Hin]]].
  - destruct Hv as (_ & _ & _ & pv & Hpv). congruence.
  - by eapply (avail_not_killed bv cv before_v v after_v op_v r b p).
  - destruct (sc_argument _ _ _ Hsc fc b c v Hfc) as (? & ? & ? & Ha); [apply Hu|apply Hu|done|]. destruct Hv as (_ & _ & _ & pv & Hpv). congruence.
  - assert (bv = b) as ->.
    { apply (sc_unique _ _ _ Hsc fc bv b v Hfc); [apply Hv|apply Hu|by eapply point_defined|]. destruct Hu as (_ & Hc & Hi & _).
      exists c. split; [done|]. right. rewrite Hi. apply elem_of_app. by left. }
    assert (cv = c) as -> by (destruct Hv as (_ & Hcv & _), Hu as (_ & Hc & _); congruence).
    pose proof (before_fresh b c before r after op Hu) as (Hf1 & Hf2 & Hf3).
    destruct Hr as [[content Hc]|[Hin'|[Hin'|Hin']]]; [by apply (Hnc content)|by eapply (avail_not_self b p r)|done|].
    (* [r] is before [v], and [v] is before [r] *)
    destruct Hv as (_ & _ & Hiv & _), Hu as (Hb & Hc & Hi & _).
    destruct (sc_block _ _ _ Hsc fc b Hfc Hb) as (c' & Hc' & Hnd). rewrite Hc in Hc'. injection Hc' as <-. apply NoDup_app in Hnd as (_ & _ & Hnd).
    apply list_elem_of_split in Hin as (m1 & m2 & ->). apply list_elem_of_split in Hin' as (n1 & n2 & ->). clear Hf1 Hf2 Hf3.
    pose proof (nodup_index (instructions c) (m1 ++ v :: m2) n1 r after (n2 ++ v :: after_v) Hnd Hi ltac:(by rewrite Hiv, <- app_assoc)) as H1.
    pose proof (nodup_index (instructions c) m1 (n1 ++ r :: n2) v (m2 ++ r :: after) after_v Hnd ltac:(by rewrite Hi, <- app_assoc) Hiv) as H2.
    rewrite length_app in H1, H2. cbn in H1, H2. lia.
Qed.
End paths.
