(* ===== verification/IrTransform.v ===== *)
(** * Rewriting functions of the IR

    A pass that removes instructions whose result is known otherwise, renames operands and
    decides branches on constants: the new function does what the given one does, and
    its values are in scope. *)

From S2P Require Import Prelude IrTypes IrConstant IrCore IrRun.
Local Open Scope Z_scope.

Lemma filter_split (P : Value -> bool) (l l1 l2 : list Value) x :
  List.filter P l = l1 ++ x :: l2 -> exists m1 m2, l = m1 ++ x :: m2 /\ List.filter P m1 = l1 /\ List.filter P m2 = l2 /\ P x = true.
Proof.
  revert l1. induction l as [|y l IH]; intros l1; cbn; [by destruct l1|]. destruct (P y) eqn:Hy.
  - destruct l1 as [|z l1]; cbn; intros [= <- Heq].
    + by exists [], l.
    + apply IH in Heq as (m1 & m2 & -> & <- & <- & Hx). exists (y :: m1), m2. cbn. by rewrite Hy.
  - intros (m1 & m2 & -> & <- & <- & Hx)%IH. exists (y :: m1), m2. cbn. by rewrite Hy.
Qed.

Lemma mapM_impl {A B C} (f : A -> option C) (g : B -> option C) (h : A -> B) l vs :
  (forall x a, x ∈ l -> f x = Some a -> g (h x) = Some a) -> mapM f l = Some vs -> mapM g (map h l) = Some vs.
Proof.
  rewrite !mapM_Some. intros Hfg Hl. induction Hl as [|x v l vs Hx _ IH]; constructor.
  - apply Hfg; [by left|done].
  - apply IH. intros. apply Hfg; [by right|done].
Qed.

(** ** Replacing values in a function *)

Section replace_values.
Context (replace_map : gmap Value Value) (sub : Value -> Value).
Context (Hsub : forall op, InstOp_replace_values replace_map op = Ok (rename sub op)) (Hidem : forall x, sub (sub x) = sub x).

Definition rename_datum (d : ValueDatum) : ValueDatum := match d with VInstruction p op => VInstruction p (rename sub op) | _ => d end.
Definition rename_value (m : gmap Value ValueDatum) (u : Value) : gmap Value ValueDatum :=
  match m !! u with Some d => <[u := rename_datum d]> m | None => m end.

Lemma rename_datum_idem d : rename_datum (rename_datum d) = rename_datum d.
Proof. destruct d; [done..|]. cbn. f_equal. rewrite rename_rename. apply rename_ext. apply Hidem. Qed.

Lemma rename_values_lookup l m u : foldl rename_value m l !! u = if bool_decide (u ∈ l) then rename_datum <$> m !! u else m !! u.
Proof using Hidem.
  clear Hsub replace_map. revert m. induction l as [|x l IH]; intros m; [done|]. cbn [foldl]. rewrite IH.
  assert (rename_value m x !! u = if bool_decide (u = x) then rename_datum <$> m !! u else m !! u) as ->.
  { clear IH. unfold rename_value. case_bool_decide as Hu.
    - subst x. destruct (m !! u) eqn:Hm; [by rewrite lookup_insert_eq|by rewrite Hm].
    - destruct (m !! x); [by rewrite lookup_insert_ne|done]. }
  destruct (decide (u = x)) as [->|Hne].
  - rewrite (bool_decide_true (x = x)), (bool_decide_true (x ∈ x :: l)) by (done || by left). case_bool_decide; [|done]. destruct (m !! x); [|done]. cbn. by rewrite rename_datum_idem.
  - rewrite (bool_decide_false (u = x)) by done. destruct (decide (u ∈ l)); [rewrite !bool_decide_true by (done || by right)|rewrite !bool_decide_false by set_solver]; done.
Qed.

Lemma replace_instruction_values_Ok ctx u : is_Some (values ctx !! u) ->
  replace_instruction_values ctx u replace_map = Ok (set_values ctx (rename_value (values ctx) u)).
Proof.
  intros [d Hd]. unfold replace_instruction_values, value_datum, index, expect_some, rename_value. rewrite Hd. next_step.
  destruct d as [| |p op]; cbn; [by rewrite insert_id; destruct ctx|by rewrite insert_id; destruct ctx|]. by rewrite Hsub.
Qed.

Lemma rename_value_is_Some m u x : is_Some (m !! x) -> is_Some (rename_value m u !! x).
Proof. intros Hx. unfold rename_value. destruct (m !! u) eqn:Hu; [|done]. apply lookup_insert_is_Some'. by right. Qed.

Lemma replace_list_Ok l ctx : (forall u, u ∈ l -> is_Some (values ctx !! u)) ->
  fold_ok (fun ctx ins => replace_instruction_values ctx ins replace_map) ctx l = Ok (set_values ctx (foldl rename_value (values ctx) l)).
Proof.
  revert ctx. induction l as [|x l IH]; intros ctx Hl; [by destruct ctx|]. cbn [fold_ok foldl]. rewrite replace_instruction_values_Ok by (apply Hl; by left). next_step.
  rewrite IH; [done|]. intros u Hu. cbn. apply rename_value_is_Some, Hl. by right.
Qed.

Lemma Function_replace_values_Ok ctx f fc : functions ctx !! f = Some fc ->
  (forall b, b ∈ f_blocks fc -> exists c, blocks ctx !! b = Some c /\ forall u, u ∈ instructions c -> is_Some (values ctx !! u)) ->
  exists l, Function_replace_values ctx f replace_map = Ok (set_values ctx (foldl rename_value (values ctx) l)) /\
    forall u, u ∈ l <-> exists b c, b ∈ f_blocks fc /\ blocks ctx !! b = Some c /\ u ∈ instructions c.
Proof.
  intros Hfc. unfold Function_replace_values, block_iter, function_content, index, expect_some. rewrite Hfc. next_step. clear Hfc. revert ctx.
  induction (f_blocks fc) as [|b l IH]; intros ctx Hbl.
  - exists []. split; [by destruct ctx|]. intros u. split; [by intros ?%elem_of_nil|by intros (b & c & ?%elem_of_nil & _)].
  - cbn [fold_ok]. destruct (Hbl b ltac:(by left)) as (c & Hc & Hin). unfold Block_replace_values at 2, block_content, index, expect_some. rewrite Hc. next_step.
    rewrite replace_list_Ok by done. next_step.
    destruct (IH (set_values ctx (foldl rename_value (values ctx) (instructions c)))) as (l' & Hl' & Hl'u).
    { intros b' Hb'. destruct (Hbl b' ltac:(by right)) as (c' & Hc' & Hin'). exists c'. split; [done|]. intros u Hu. cbn. rewrite rename_values_lookup.
      destruct (Hin' u Hu) as [d ->]. case_bool_decide; by eexists. }
    exists (instructions c ++ l'). split; [rewrite Hl', foldl_app; done|]. intros u. rewrite elem_of_app, Hl'u. split.
    + intros [Hu|(b' & c' & ? & ? & ?)]; [exists b, c; split; [by left|done]|exists b', c'; split; [by right|done]].
    + intros (b' & c' & [->|Hb']%elem_of_cons & Hc' & Hu); [left; congruence|right; by exists b', c'].
Qed.
End replace_values.

Lemma branch_operands op br x : br ∈ targets op -> x ∈ br_args br -> x ∈ get_operands op.
Proof. destruct op; cbn; intros Hbr Hx; set_solver. Qed.

Section transform.
Context `{IrVm} (ctx ctx' : Context) (f : Function) (avail : Block -> gset Value) (Hsc : scoped ctx f avail).
Context (fc : FunctionContent) (Hfc : functions ctx !! f = Some fc).
Context (gone : Value -> bool) (sub : Value -> Value).

Abbreviation bl := (f_blocks fc).
Abbreviation keep := (List.filter (fun v => negb (gone v))).
Abbreviation at_point := (at_point ctx bl).
Abbreviation in_scope := (in_scope ctx avail).

Definition not_constant (v : Value) : Prop := forall c, values ctx' !! v <> Some (VConstant c).

(** The operation of an instruction that is kept *)
Definition kept (op op' : InstOp) : Prop :=
  op' = rename sub op \/
  exists cond t e ty (b : bool), op = IConditionalBranch cond t e /\ is_const ctx cond (mkConstant ty (CBool b)) /\ op' = IBranch (rename_branch sub (if b then t else e)).

(** An instruction that is removed has no effect, and its result is the one of [sub v], which is
    a constant or in scope. *)
Record removable (b : Block) (c : BlockContent) (before : list Value) (v : Value) (op : InstOp) : Prop := {
  rm_plain : targets op = [] /\ forall r ty, op <> IRet r ty;
  rm_scope : (exists content, is_const ctx' (sub v) content) \/
    (in_scope b c before (sub v) /\ gone (sub v) = false /\ (forall content, ~ is_const ctx (sub v) content) /\ not_constant (sub v));
  rm_result e e' w vals r :
    (forall x a, x ∈ get_operands op -> eval ctx e x = Some a -> eval ctx' e' (sub x) = Some a) ->
    mapM (eval ctx e) (get_operands op) = Some vals -> exec (erase op) vals w = Some r ->
    exists a, r = Continues a w /\ eval ctx' e' (sub v) = Some a;
}.

Record transformed : Prop := {
  tr_function : functions ctx' !! f = Some fc;
  tr_block b c : b ∈ bl -> blocks ctx !! b = Some c ->
    exists c', blocks ctx' !! b = Some c' /\ args c' = args c /\ instructions c' = keep (instructions c);
  tr_kept b c before v after op : at_point b c before v after op -> gone v = false ->
    exists p op', values ctx' !! v = Some (VInstruction p op') /\ kept op op';
  tr_removed b c before v after op : at_point b c before v after op -> gone v = true -> removable b c before v op;
  tr_gone v : gone v = true -> exists b c before after op, at_point b c before v after op;
  tr_argument v b i ty : values ctx !! v = Some (VArgument b i ty) -> values ctx' !! v = Some (VArgument b i ty);
  tr_const v content : is_const ctx v content -> is_const ctx' v content;
  tr_sub v : gone v = false -> sub v = v;
}.

Context (Htr : transformed).

(** ** Scopes *)

Definition dropped (x : Value) : bool := gone x && match values ctx' !! sub x with Some (VConstant _) => true | _ => false end.
Definition new_avail (b : Block) : gset Value := set_map sub (filter (fun x => dropped x = false) (avail b)).

Lemma new_avail_in b x : x ∈ avail b -> dropped x = false -> sub x ∈ new_avail b.
Proof. intros Hx Hd. unfold new_avail. apply elem_of_map. exists x. split; [done|]. by apply elem_of_filter. Qed.

Lemma not_gone_not_dropped x : gone x = false -> dropped x = false.
Proof. unfold dropped. by intros ->. Qed.

Lemma keep_elem l x : x ∈ l -> gone x = false -> x ∈ keep l.
Proof. intros Hx Hg. apply elem_of_filter_bool. by rewrite Hg. Qed.

Lemma argument_not_gone b c x : b ∈ bl -> blocks ctx !! b = Some c -> x ∈ args c -> gone x = false.
Proof.
  intros Hb Hc Hx. destruct (gone x) eqn:Hg; [|done]. destruct (tr_gone Htr x Hg) as (? & ? & ? & ? & ? & _ & _ & _ & p & Hp).
  destruct (sc_argument _ _ _ Hsc fc b c x Hfc Hb Hc Hx) as (? & ? & ? & Ha). congruence.
Qed.

(** The scope of the values that are not constants *)
Definition in_new_scope (b : Block) (c : BlockContent) (before : list Value) (x : Value) : Prop :=
  x ∈ new_avail b \/ x ∈ args c \/ x ∈ keep before.

Lemma local_scope b c before x :
  b ∈ bl -> blocks ctx !! b = Some c -> (exists after, instructions c = before ++ after) -> x ∈ avail b \/ x ∈ args c \/ x ∈ before ->
  (exists content, is_const ctx' (sub x) content /\ dropped x = true) \/ in_new_scope b c before (sub x).
Proof.
  intros Hb Hc [after Hi] Hx. destruct (gone x) eqn:Hg.
  - destruct (tr_gone Htr x Hg) as (b0 & c0 & before0 & after0 & op0 & Hat0).
    destruct (rm_scope _ _ _ _ _ (tr_removed Htr _ _ _ _ _ _ Hat0 Hg)) as [[content Hk]|(Hs & Hgs & Hnc & Hnv)].
    { left. exists content. split; [done|]. destruct Hk as (k & Hk & _). unfold dropped. by rewrite Hg, Hk. }
    right. assert (dropped x = false) as Hd.
    { unfold dropped. rewrite Hg. destruct (values ctx' !! sub x) as [[]|] eqn:Hv; try done. by destruct (Hnv c1). }
    destruct Hx as [Hx|[Hx|Hx]]; [left; by apply new_avail_in|rewrite (argument_not_gone b c x Hb Hc Hx) in Hg; done|].
    apply list_elem_of_split in Hx as (m1 & m2 & ->).
    assert (b0 = b) as ->.
    { apply (sc_unique _ _ _ Hsc fc b0 b x Hfc); [apply Hat0|done|by eapply point_defined|]. exists c. split; [done|]. right. rewrite Hi. set_solver. }
    assert (c0 = c) as -> by (destruct Hat0 as (_ & Hc0 & _); congruence).
    destruct Hat0 as (_ & _ & Hi0 & _). destruct (sc_block _ _ _ Hsc fc b Hfc Hb) as (c' & Hc' & Hnd). rewrite Hc in Hc'. injection Hc' as <-.
    apply NoDup_app in Hnd as (_ & _ & Hnd). rewrite <- app_assoc in Hi. cbn in Hi.
    assert (before0 = m1) as ->.
    { apply (app_inj_1 before0 m1 (x :: after0) (x :: m2 ++ after)); [by apply (nodup_index (instructions c) _ _ x after0 (m2 ++ after))|congruence]. }
    destruct Hs as [[content Hk]|[Hs|[Hs|Hs]]]; [by destruct (Hnc content)|left|right; by left|right; right].
    + rewrite <- (tr_sub Htr (sub x) Hgs). apply new_avail_in; [done|by apply not_gone_not_dropped].
    + apply keep_elem; [|done]. apply elem_of_app. by left.
  - right. rewrite (tr_sub Htr x Hg). destruct Hx as [Hx|[Hx|Hx]]; [left|right; by left|right; right; by apply keep_elem].
    rewrite <- (tr_sub Htr x Hg). apply new_avail_in; [done|by apply not_gone_not_dropped].
Qed.

Lemma scope_sub b c c' before x :
  b ∈ bl -> blocks ctx !! b = Some c -> args c' = args c -> (exists after, instructions c = before ++ after) -> in_scope b c before x ->
  IrRun.in_scope ctx' new_avail b c' (keep before) (sub x).
Proof.
  intros Hb Hc Ha Hi [[content Hk]|Hx].
  - left. exists content. destruct (gone x) eqn:Hg; [|rewrite (tr_sub Htr x Hg); by apply (tr_const Htr)].
    destruct (tr_gone Htr x Hg) as (? & ? & ? & ? & ? & _ & _ & _ & p & Hp). destruct Hk as (k & Hk & _). congruence.
  - destruct (local_scope b c before x Hb Hc Hi Hx) as [(content & Hk & _)|Hn]; [left; by exists content|right]. by rewrite Ha.
Qed.

(** Instructions of the new function *)
Lemma new_point b c' before' v after' op' :
  IrRun.at_point ctx' bl b c' before' v after' op' ->
  exists c before after op, at_point b c before v after op /\ gone v = false /\ args c' = args c /\ before' = keep before /\ kept op op'.
Proof.
  intros (Hb & Hc' & Hi' & p & Hp). destruct (sc_block _ _ _ Hsc fc b Hfc Hb) as (c & Hc & _).
  destruct (tr_block Htr b c Hb Hc) as (c2 & Hc2 & Ha & Hi). rewrite Hc' in Hc2. injection Hc2 as <-. rewrite Hi' in Hi. symmetry in Hi.
  apply filter_split in Hi as (m1 & m2 & Hm & <- & <- & Hg). apply negb_true_iff in Hg.
  destruct (sc_instruction _ _ _ Hsc fc b c v Hfc Hb Hc) as (p0 & op & Hv); [rewrite Hm; set_solver|].
  assert (at_point b c m1 v m2 op) as Hat by (split_and!; [done..|by exists p0]). exists c, m1, m2, op.
  destruct (tr_kept Htr b c m1 v m2 op Hat Hg) as (p1 & op1 & Hv1 & Hk). rewrite Hp in Hv1. injection Hv1 as <- <-. done.
Qed.

Lemma kept_operands op op' x : kept op op' -> x ∈ get_operands op' -> exists y, y ∈ get_operands op /\ x = sub y.
Proof using Type.
  intros [->|(cond & t & e & ty & b & -> & _ & ->)].
  - rewrite get_operands_rename. intros (y & -> & Hy)%list_elem_of_fmap. by exists y.
  - cbn. intros (y & -> & Hy)%list_elem_of_fmap. exists y. split; [|done]. clear - Hy. destruct b; set_solver.
Qed.

Lemma kept_targets op op' br : kept op op' -> br ∈ targets op' -> exists br0, br0 ∈ targets op /\ br = rename_branch sub br0.
Proof using Type.
  intros [->|(cond & t & e & ty & b & -> & _ & ->)].
  - rewrite targets_rename. intros (y & -> & Hy)%list_elem_of_fmap. by exists y.
  - cbn. intros ->%list_elem_of_singleton. exists (if b then t else e). split; [|done]. clear. destruct b; set_solver.
Qed.

Lemma new_defined b x : b ∈ bl -> defined_in ctx' b x -> defined_in ctx b x.
Proof.
  intros Hb (c' & Hc' & Hx). destruct (sc_block _ _ _ Hsc fc b Hfc Hb) as (c & Hc & _). destruct (tr_block Htr b c Hb Hc) as (c2 & Hc2 & Ha & Hi).
  rewrite Hc' in Hc2. injection Hc2 as <-. exists c. split; [done|]. rewrite Ha, Hi, elem_of_filter_bool in Hx. tauto.
Qed.

Lemma new_scoped : scoped ctx' f new_avail.
Proof.
  split.
  - destruct (sc_function _ _ _ Hsc) as (fc' & entry & Hfc' & He & Ha & Hnd). rewrite Hfc in Hfc'. injection Hfc' as <-. exists fc, entry.
    split_and!; [apply (tr_function Htr)|done| |done]. unfold new_avail. rewrite Ha. set_solver.
  - intros fc' b Hfc' Hb. rewrite (tr_function Htr) in Hfc'. injection Hfc' as <-. destruct (sc_block _ _ _ Hsc fc b Hfc Hb) as (c & Hc & Hnd).
    destruct (tr_block Htr b c Hb Hc) as (c' & Hc' & Ha & Hi). exists c'. split; [done|]. rewrite Ha, Hi. apply NoDup_app in Hnd as (H1 & H2 & H3).
    apply NoDup_app. split_and!; [done| |].
    + intros x Hx Hin. apply elem_of_filter_bool in Hin as [Hin _]. by apply (H2 x).
    + apply NoDup_ListNoDup, List.NoDup_filter, NoDup_ListNoDup. done.
  - intros fc' b c' v Hfc' Hb Hc' Hv. rewrite (tr_function Htr) in Hfc'. injection Hfc' as <-. destruct (sc_block _ _ _ Hsc fc b Hfc Hb) as (c & Hc & _).
    destruct (tr_block Htr b c Hb Hc) as (c2 & Hc2 & _ & Hi). rewrite Hc' in Hc2. injection Hc2 as <-. rewrite Hi in Hv. apply elem_of_filter_bool in Hv as [Hv Hg].
    apply negb_true_iff in Hg. destruct (sc_instruction _ _ _ Hsc fc b c v Hfc Hb Hc Hv) as (p & op & Hp). apply list_elem_of_split in Hv as (l1 & l2 & Hl).
    destruct (tr_kept Htr b c l1 v l2 op) as (p' & op' & Hv' & _); [split_and!; [done..|by exists p]|done|]. by exists p', op'.
  - intros fc' b c' v Hfc' Hb Hc' Hv. rewrite (tr_function Htr) in Hfc'. injection Hfc' as <-. destruct (sc_block _ _ _ Hsc fc b Hfc Hb) as (c & Hc & _).
    destruct (tr_block Htr b c Hb Hc) as (c2 & Hc2 & Ha & _). rewrite Hc' in Hc2. injection Hc2 as <-. rewrite Ha in Hv.
    destruct (sc_argument _ _ _ Hsc fc b c v Hfc Hb Hc Hv) as (b' & i & ty & Hvv). apply (tr_argument Htr) in Hvv. by exists b', i, ty.
  - intros fc' b b' x Hfc' Hb Hb' Hx Hx'. rewrite (tr_function Htr) in Hfc'. injection Hfc' as <-.
    apply (sc_unique _ _ _ Hsc fc b b' x Hfc Hb Hb'); by apply new_defined.
  - intros fc' b c' before' v after' op' x Hfc' Hat Hx. rewrite (tr_function Htr) in Hfc'. injection Hfc' as <-.
    destruct (new_point _ _ _ _ _ _ Hat) as (c & before & after & op & Hat0 & Hg & Ha & -> & Hk). destruct (kept_operands op op' x Hk Hx) as (y & Hy & ->).
    assert (Hat1 := Hat0). destruct Hat1 as (Hb & Hc & Hi & _). eapply scope_sub; [done|exact Hc|done|by eexists|].
    by eapply (sc_operands _ _ _ Hsc fc).
  - intros fc' b c' before' v after' op' br Hfc' Hat Hbr. rewrite (tr_function Htr) in Hfc'. injection Hfc' as <-.
    destruct (new_point _ _ _ _ _ _ Hat) as (c & before & after & op & Hat0 & Hg & Ha & -> & Hk). destruct (kept_targets op op' br Hk Hbr) as (br0 & Hbr0 & ->).
    destruct (sc_edges _ _ _ Hsc fc b c before v after op br0 Hfc Hat0 Hbr0) as [Hin Hav]. split; [done|]. cbn [br_block rename_branch].
    intros x Hx. unfold new_avail in Hx. apply elem_of_map in Hx as (y & -> & [Hd Hy]%elem_of_filter). destruct Hat0 as (Hb & Hc & Hi & _).
    destruct (local_scope b c before y Hb Hc ltac:(by eexists) (Hav y Hy)) as [(content & _ & Hd')|Hn]; [congruence|]. by rewrite Ha.
Qed.

(** ** Simulation *)

Abbreviation path := (path ctx fc).

(** What is in scope has the same value in the new function, under its new name. *)
Definition agree (b : Block) (c : BlockContent) (before : list Value) (e e' : gmap Value Val) : Prop :=
  forall x a, in_scope b c before x -> eval ctx e x = Some a -> eval ctx' e' (sub x) = Some a.

Definition matches_state (st st' : State) : Prop :=
  exists p c before, path (cur st) p /\ blocks ctx !! cur st = Some c /\ instructions c = before ++ rest st /\
    st' = mkState (cur st) (keep (rest st)) (env st') (world st) /\ agree (cur st) c before (env st) (env st').

Lemma eval_instruction k e v p op : values k !! v = Some (VInstruction p op) -> eval k e v = e !! v.
Proof. unfold eval. by intros ->. Qed.

Lemma eval_insert_ne k e v a x : x <> v -> eval k (<[v := a]> e) x = eval k e x.
Proof. intros Hne. unfold eval. destruct (values k !! x) as [[]|]; rewrite ?lookup_insert_ne by done; done. Qed.

Lemma eval_const k e x content : is_const k x content -> eval k e x = Some (const_val content).
Proof. intros (c & Hv & Hc). unfold eval. by rewrite Hv, Hc. Qed.

(** The instruction that a removed one in scope is *)
Lemma gone_in_scope b p c before x :
  path b p -> blocks ctx !! b = Some c -> in_scope b c before x -> gone x = true ->
  exists bx cx bx_before after op, at_point bx cx bx_before x after op /\ removable bx cx bx_before x op.
Proof.
  intros Hp Hc Hx Hg. destruct (tr_gone Htr x Hg) as (bx & cx & before_x & after & op & Hat). exists bx, cx, before_x, after, op.
  split; [done|]. by eapply (tr_removed Htr).
Qed.

(** Defining [u] does not change the values of the others. *)
Lemma agree_insert b p c before u after op e e' a :
  path b p -> at_point b c before u after op -> gone u = false -> agree b c before e e' -> agree b c (before ++ [u]) (<[u := a]> e) (<[u := a]> e').
Proof.
  intros Hp Hat Hg Hag x y Hx Hy. destruct (decide (x = u)) as [->|Hne].
  - destruct (tr_kept Htr b c before u after op Hat Hg) as (p' & op' & Hv' & _). destruct Hat as (_ & _ & _ & p0 & Hv).
    rewrite (eval_instruction ctx _ u _ _ Hv), lookup_insert_eq in Hy. by rewrite (tr_sub Htr u Hg), (eval_instruction ctx' _ u _ _ Hv'), lookup_insert_eq.
  - rewrite eval_insert_ne in Hy by done. assert (in_scope b c before x) as Hx'.
    { destruct Hx as [?|[?|[?|Hin]]]; [by left|right; by left|right; right; by left|]. right. right. right.
      apply elem_of_app in Hin as [?|Hin%list_elem_of_singleton]; done. }
    rewrite eval_insert_ne; [by apply Hag|]. destruct (gone x) eqn:Hgx; [|by rewrite (tr_sub Htr x Hgx)]. intros Heq.
    destruct (gone_in_scope b p c before x Hp ltac:(apply Hat) Hx' Hgx) as (bx & cx & before_x & after_x & opx & Hatx & Hrm).
    destruct (rm_scope _ _ _ _ _ Hrm) as [(content & k & Hk & _)|(Hs & _ & Hnc & _)].
    + destruct (tr_kept Htr b c before u after op Hat Hg) as (p' & op' & Hv' & _). rewrite Heq in Hk. congruence.
    + symmetry in Heq. revert Heq. by eapply (scope_not_killed ctx f avail Hsc fc Hfc bx cx before_x x after_x opx (sub x) b p c before u after op).
Qed.

Lemma bind_args_in l vals (e e' : gmap Value Val) x : length l = length vals -> x ∈ l -> bind_args l vals e !! x = bind_args l vals e' !! x.
Proof.
  intros Hlen Hx. unfold bind_args. assert (is_Some ((list_to_map (zip l vals) : gmap Value Val) !! x)) as [y Hy].
  { destruct ((list_to_map (zip l vals) : gmap Value Val) !! x) eqn:Hn; [by eexists|]. apply not_elem_of_list_to_map in Hn. destruct Hn.
    rewrite fst_zip by lia. done. }
  by rewrite !(lookup_union_Some_l _ _ _ _ Hy).
Qed.

Lemma bind_args_out l vals (e : gmap Value Val) x : x ∉ l -> bind_args l vals e !! x = e !! x.
Proof.
  intros Hx. unfold bind_args. rewrite lookup_union_r; [done|]. apply not_elem_of_list_to_map. intros Hin. apply Hx.
  apply list_elem_of_fmap in Hin as ([k v] & -> & Hin). by eapply elem_of_zip_l.
Qed.

Lemma eval_bind_out k l vals e x : x ∉ l -> eval k (bind_args l vals e) x = eval k e x.
Proof. intros Hx. unfold eval. destruct (values k !! x) as [[]|]; rewrite ?bind_args_out by done; done. Qed.

(** Entering a block *)
Lemma agree_enter b p c before v after op br cs vals e e' :
  path b p -> at_point b c before v after op -> br ∈ targets op -> blocks ctx !! br_block br = Some cs -> length (args cs) = length vals ->
  agree b c before e e' -> agree (br_block br) cs [] (bind_args (args cs) vals e) (bind_args (args cs) vals e').
Proof.
  intros Hp Hat Hbr Hcs Hlen Hag x a Hx Ha.
  assert (path (br_block br) (b :: p)) as Hps by (by eapply path_step). pose proof (path_block _ _ _ Hsc _ Hfc _ _ Hps) as Hin.
  destruct (decide (x ∈ args cs)) as [Hxa|Hxa].
  - rewrite (tr_sub Htr x (argument_not_gone _ _ x Hin Hcs Hxa)). destruct (sc_argument _ _ _ Hsc fc _ cs x Hfc Hin Hcs Hxa) as (b' & i & ty & Hv).
    unfold eval in *. rewrite Hv in Ha. rewrite (tr_argument Htr _ _ _ _ Hv). by rewrite (bind_args_in _ _ e' e) by done.
  - rewrite eval_bind_out in Ha by done. assert (in_scope b c before x) as Hx'.
    { destruct Hx as [?|[Hx|[Hx|Hx]]]; [by left| |done|by apply elem_of_nil in Hx]. right. by apply (sc_edges _ _ _ Hsc fc b c before v after op br Hfc Hat Hbr). }
    assert (sub x ∉ args cs) as Hsx; [|rewrite eval_bind_out by done; by apply Hag].
    destruct (gone x) eqn:Hgx; [|by rewrite (tr_sub Htr x Hgx)]. intros Hsx.
    destruct (gone_in_scope b p c before x Hp ltac:(apply Hat) Hx' Hgx) as (bx & cx & before_x & after_x & opx & Hatx & Hrm).
    destruct (rm_scope _ _ _ _ _ Hrm) as [(content & k & Hk & _)|(Hs & _ & Hnc & _)].
    + destruct (sc_argument _ _ _ Hsc fc _ cs _ Hfc Hin Hcs Hsx) as (b' & i & ty & Hv). apply (tr_argument Htr) in Hv. congruence.
    + assert (x ∈ avail (br_block br)) as Hxav.
      { destruct Hx as [[content (k & Hk & _)]|[?|[?|Hx]]]; [|done|done|by apply elem_of_nil in Hx]. destruct Hatx as (_ & _ & _ & px & Hpx). congruence. }
      eapply (avail_not_killed ctx f avail Hsc fc Hfc bx cx before_x x after_x opx (sub x) (br_block br) (b :: p)); try done. exists cs. split; [done|by left].
Qed.

Lemma enter_simulated b p c before v after op br e e' w st1 :
  path b p -> at_point b c before v after op -> br ∈ targets op -> agree b c before e e' -> enter ctx e w br = Some st1 ->
  exists st1', enter ctx' e' w (rename_branch sub br) = Some st1' /\ matches_state st1 st1'.
Proof.
  intros Hp Hat Hbr Hag. unfold enter. cbn [br_args br_block rename_branch].
  intros (vals & Hvals & (cs & Hcs & Hst)%bind_Some)%bind_Some. case_bool_decide as Hlen; [|done]. injection Hst as <-.
  assert (path (br_block br) (b :: p)) as Hps by (by eapply path_step). pose proof (path_block _ _ _ Hsc _ Hfc _ _ Hps) as Hin.
  rewrite (mapM_impl (eval ctx e) (eval ctx' e') sub _ vals); [| |exact Hvals].
  - destruct (tr_block Htr _ cs Hin Hcs) as (cs' & Hcs' & Ha & Hi). cbn. rewrite Hcs'. cbn. rewrite Ha, bool_decide_true by done.
    eexists. split; [done|]. exists (b :: p), cs, []. cbn. rewrite Hi. split_and!; [done..|]. by eapply (agree_enter b p c before v after op).
  - intros x a Hx Ha. apply Hag; [|done]. eapply (sc_operands _ _ _ Hsc fc); [done|exact Hat|]. by eapply branch_operands.
Qed.

Definition is_control (op : InstOp) : bool := match op with IBranch _ | IConditionalBranch _ _ _ | IRet _ _ => true | _ => false end.

Lemma step_plain k b v rest' e w p op :
  values k !! v = Some (VInstruction p op) -> is_control op = false ->
  step k (mkState b (v :: rest') e w) =
    (vals ← mapM (eval k e) (get_operands op);
     r ← exec (erase op) vals w;
     Some (match r with Continues a w => inl (mkState b rest' (<[v := a]> e) w) | Halts h => inr (Halted h) end)).
Proof. intros Hv Hop. unfold step. cbn [rest cur env world]. rewrite Hv. destruct op; done. Qed.

Lemma is_control_rename g op : is_control (rename g op) = is_control op.
Proof.
  unfold rename. destruct op as [asm l| | | | | | | | | |instr| | | | | | | | | | | |]; cbn; rewrite ?traverse_total, ?replace_branch_total, ?replace_asm_args_total; cbn; try done.
  by destruct instr.
Qed.

Hypothesis as_bool_const : forall ty b, as_bool (const_val (mkConstant ty (CBool b))) = Some b.

Definition simulated (st st' : State) (r : State + Outcome) : Prop :=
  match r with
  | inl st1 => (exists st1', step ctx' st' = Some (inl st1') /\ matches_state st1 st1') \/ (matches_state st1 st' /\ (length (rest st1) < length (rest st))%nat)
  | inr o => step ctx' st' = Some (inr o)
  end.

(** A removed instruction is a step of the given function only. *)
Lemma gone_step b p c before v rest' op e e' w r :
  path b p -> at_point b c before v rest' op -> gone v = true -> agree b c before e e' ->
  step ctx (mkState b (v :: rest') e w) = Some r -> simulated (mkState b (v :: rest') e w) (mkState b (keep rest') e' w) r.
Proof.
  intros Hp Hat Hg Hag Hr. destruct (tr_removed Htr b c before v rest' op Hat Hg) as [[Ht Hret] _ Hres].
  assert (is_control op = false) as Hc by (destruct op; try done; by destruct (Hret _ _ eq_refl)).
  assert (Hat' := Hat). destruct Hat' as (Hb & Hbc & Hi & pv & Hv). rewrite (step_plain ctx b v rest' e w pv op Hv Hc) in Hr.
  apply bind_Some in Hr as (vals & Hvals & Hr). apply bind_Some in Hr as (eff & Heff & [= <-]).
  destruct (Hres e e' w vals eff) as (a & -> & Ha); [|done|done|].
  { intros x a Hx Ha. apply Hag; [|done]. by eapply (sc_operands _ _ _ Hsc fc). }
  right. cbn [rest]. split; [|cbn; lia]. exists p, c, (before ++ [v]). cbn. split_and!; [done|done|by rewrite <- app_assoc|done|].
  intros x y Hx Hy. destruct (decide (x = v)) as [->|Hne].
  - rewrite (eval_instruction ctx _ v _ _ Hv), lookup_insert_eq in Hy. by injection Hy as <-.
  - rewrite eval_insert_ne in Hy by done. apply Hag; [|done]. destruct Hx as [?|[?|[?|Hin]]]; [by left|right; by left|right; right; by left|].
    right. right. right. apply elem_of_app in Hin as [?|Hin%list_elem_of_singleton]; done.
Qed.

(** A kept instruction is a step of both. *)
Lemma kept_runs b p c before v rest' op e e' w r :
  path b p -> at_point b c before v rest' op -> gone v = false -> agree b c before e e' ->
  step ctx (mkState b (v :: rest') e w) = Some r -> simulated (mkState b (v :: rest') e w) (mkState b (v :: keep rest') e' w) r.
Proof.
  intros Hp Hat Hg Hag Hr. destruct (tr_kept Htr b c before v rest' op Hat Hg) as (p' & op' & Hv' & Hk).
  assert (forall x a, x ∈ get_operands op -> eval ctx e x = Some a -> eval ctx' e' (sub x) = Some a) as Hev.
  { intros x a Hx Ha. apply Hag; [|done]. by eapply (sc_operands _ _ _ Hsc fc). }
  assert (Hat' := Hat). destruct Hat' as (Hb & Hbc & Hi & pv & Hv).
  destruct Hk as [->|(cond & t & f0 & ty & bb & -> & Hcond & ->)].
  - destruct (is_control op) eqn:Hcontrol.
    + unfold step in Hr. cbn [rest cur env world] in Hr. rewrite Hv in Hr. unfold simulated, step. cbn [rest cur env world]. rewrite Hv'.
      unfold rename. destruct op; try done; cbn [replace_operands]; rewrite ?replace_branch_total; cbn [mbind Result_bind].
      * apply fmap_Some in Hr as (st1 & Hst1 & ->). left. destruct (enter_simulated b p c before v rest' _ br e e' w st1 Hp Hat ltac:(by left) Hag Hst1) as (st1' & Hst1' & Hm).
        exists st1'. by rewrite Hst1'.
      * apply bind_Some in Hr as (cv & Hcv & Hr). apply bind_Some in Hr as (bb & Hbb & Hr). apply fmap_Some in Hr as (st1 & Hst1 & ->).
        rewrite (Hev cond_value cv) by (done || by left). cbn. rewrite Hbb. cbn. left.
        destruct (enter_simulated b p c before v rest' _ (if bb then true_block else false_block) e e' w st1 Hp Hat) as (st1' & Hst1' & Hm); [destruct bb; set_solver|done|done|].
        exists st1'. split; [|done]. destruct bb; by rewrite Hst1'.
      * apply bind_Some in Hr as (rv & Hrv & [= <-]). rewrite (Hev v0 rv) by (done || by left). done.
    + rewrite (step_plain ctx b v rest' e w pv op Hv Hcontrol) in Hr. apply bind_Some in Hr as (vals & Hvals & Hr). apply bind_Some in Hr as (eff & Heff & [= <-]).
      assert (step ctx' (mkState b (v :: keep rest') e' w) =
        Some (match eff with Continues a w => inl (mkState b (keep rest') (<[v := a]> e') w) | Halts h => inr (Halted h) end)) as Hs.
      { rewrite (step_plain ctx' b v (keep rest') e' w p' _ Hv') by (by rewrite is_control_rename). rewrite get_operands_rename.
        rewrite (mapM_impl (eval ctx e) (eval ctx' e') sub _ vals Hev Hvals). cbn. rewrite erase_rename, Heff. done. }
      destruct eff as [a w'|h]; [|done]. left. eexists. split; [exact Hs|]. exists p, c, (before ++ [v]). cbn.
      split_and!; [done|done|by rewrite <- app_assoc|done|]. by eapply agree_insert.
  - unfold step in Hr. cbn [rest cur env world] in Hr. rewrite Hv in Hr. rewrite (eval_const ctx e cond _ Hcond) in Hr. cbn in Hr. rewrite as_bool_const in Hr. cbn in Hr.
    apply fmap_Some in Hr as (st1 & Hst1 & ->). left. unfold step. cbn [rest cur env world]. rewrite Hv'.
    destruct (enter_simulated b p c before v rest' _ (if bb then t else f0) e e' w st1 Hp Hat) as (st1' & Hst1' & Hm); [destruct bb; set_solver|done|done|].
    exists st1'. by rewrite Hst1'.
Qed.

Lemma step_simulated st st' r : matches_state st st' -> step ctx st = Some r -> simulated st st' r.
Proof.
  intros (p & c & before & Hp & Hc & Hi & -> & Hag) Hr. destruct st as [b [|v rest'] e w]; [done|]. cbn [cur rest env world] in *.
  assert (exists pv op, values ctx !! v = Some (VInstruction pv op)) as (pv & op & Hv).
  { unfold step in Hr. cbn [rest] in Hr. destruct (values ctx !! v) as [[]|]; try done. by eexists _, _. }
  assert (at_point b c before v rest' op) as Hat by (split_and!; [by eapply (path_block _ _ _ Hsc _ Hfc)|done|done|by exists pv]).
  cbn [List.filter]. destruct (gone v) eqn:Hg; cbn [negb]; [by eapply gone_step|by eapply kept_runs].
Qed.

Lemma run_simulated n st st' o : matches_state st st' -> run ctx n st = Finished o -> exists n', run ctx' n' st' = Finished o.
Proof.
  revert st st'. induction n as [|n IH]; intros st st' Hm Hr; [done|]. cbn in Hr. destruct (step ctx st) as [r|] eqn:Hs; [|done].
  pose proof (step_simulated st st' r Hm Hs) as Hsim. destruct r as [st1|o1].
  - destruct Hsim as [(st1' & Hs' & Hm1)|[Hm1 _]]; [|by eapply IH]. destruct (IH st1 st1' Hm1 Hr) as (n' & Hn'). exists (S n'). cbn. by rewrite Hs'.
  - injection Hr as <-. exists 1%nat. cbn in Hsim |- *. by rewrite Hsim.
Qed.

Definition runs_forever (k : Context) (st : State) : Prop := forall n, exists st', run k n st = Running st'.

Lemma runs_forever_step k st : runs_forever k st -> exists st1, step k st = Some (inl st1) /\ runs_forever k st1.
Proof.
  intros Hf. destruct (Hf 1%nat) as [st1 H1]. cbn in H1. destruct (step k st) as [[st1'|]|] eqn:Hs; [|done|done]. exists st1'. split; [done|].
  intros n. destruct (Hf (S n)) as [st2 H2]. cbn in H2. rewrite Hs in H2. by exists st2.
Qed.

(** Only finitely many instructions are removed in a row. *)
Lemma forever_productive m st st' : (length (rest st) < m)%nat ->
  matches_state st st' -> runs_forever ctx st -> exists st1 st1', step ctx' st' = Some (inl st1') /\ matches_state st1 st1' /\ runs_forever ctx st1.
Proof.
  revert st. induction m as [|m IH]; intros st Hlt Hm Hf; [lia|]. destruct (runs_forever_step ctx st Hf) as (st1 & Hs & Hf1).
  destruct (step_simulated st st' _ Hm Hs) as [(st1' & Hs' & Hm1)|[Hm1 Hlt1]]; [by exists st1, st1'|]. by apply (IH st1); [lia|..].
Qed.

Lemma forever_simulated st st' : matches_state st st' -> runs_forever ctx st -> runs_forever ctx' st'.
Proof.
  intros Hm Hf n. revert st st' Hm Hf. induction n as [|n IH]; intros st st' Hm Hf; [by exists st'|].
  destruct (forever_productive (S (length (rest st))) st st' ltac:(lia) Hm Hf) as (st1 & st1' & Hs & Hm1 & Hf1).
  cbn. rewrite Hs. by eapply IH.
Qed.

Lemma start_simulated vals w st : start ctx f vals w = Some st -> exists st', start ctx' f vals w = Some st' /\ matches_state st st'.
Proof.
  unfold start. rewrite Hfc, (tr_function Htr). cbn. intros (entry & He & (c & Hc & Hst)%bind_Some)%bind_Some. case_bool_decide as Hlen; [|done]. injection Hst as <-.
  assert (path entry []) as Hp by by constructor. pose proof (path_block _ _ _ Hsc _ Hfc _ _ Hp) as Hin.
  destruct (tr_block Htr entry c Hin Hc) as (c' & Hc' & Ha & Hi). rewrite He. cbn. rewrite Hc'. cbn. rewrite Ha, bool_decide_true by done.
  eexists. split; [done|]. exists [], c, []. cbn. rewrite Hi. split_and!; [done..|]. intros x a Hx Hev. cbn in Hx.
  destruct Hx as [[content Hk]|[Hx|[Hx|Hx]]]; [| | |by apply elem_of_nil in Hx].
  - rewrite (eval_const ctx _ x content Hk) in Hev. destruct (gone x) eqn:Hg.
    + destruct (tr_gone Htr x Hg) as (? & ? & ? & ? & ? & _ & _ & _ & px & Hpx). destruct Hk as (k & Hk & _). congruence.
    + rewrite (tr_sub Htr x Hg). by rewrite (eval_const ctx' _ x content (tr_const Htr x content Hk)).
  - rewrite (avail_entry _ _ _ Hsc _ Hfc entry He) in Hx. by apply elem_of_empty in Hx.
  - rewrite (tr_sub Htr x (argument_not_gone _ _ x Hin Hc Hx)). destruct (sc_argument _ _ _ Hsc fc _ c x Hfc Hin Hc Hx) as (b' & i & ty & Hv).
    unfold eval in *. rewrite Hv in Hev. by rewrite (tr_argument Htr _ _ _ _ Hv).
Qed.
End transform.

(** ** Refinement *)

(** The new function ends and diverges as the given one. *)
Definition refines `{IrVm} (ctx ctx' : Context) (f : Function) : Prop :=
  (forall vals w o, ends ctx f vals w o -> ends ctx' f vals w o) /\ (forall vals w, diverges ctx f vals w -> diverges ctx' f vals w).

#[export] Instance refines_preorder `{IrVm} f : PreOrder (fun ctx ctx' => refines ctx ctx' f).
Proof. split; [by split|]. intros ctx1 ctx2 ctx3 [H1 H2] [H3 H4]. split; auto. Qed.

Lemma transformed_refines `{IrVm} ctx ctx' f avail fc gone sub :
  (forall ty b, as_bool (const_val (mkConstant ty (CBool b))) = Some b) -> scoped ctx f avail -> functions ctx !! f = Some fc ->
  transformed ctx ctx' f avail fc gone sub -> refines ctx ctx' f.
Proof.
  intros Hbool Hsc Hfc Htr. split.
  - intros vals w o (st & n & Hst & Hr). destruct (start_simulated ctx ctx' f avail Hsc fc Hfc gone sub Htr vals w st Hst) as (st' & Hst' & Hm).
    destruct (run_simulated ctx ctx' f avail Hsc fc Hfc gone sub Htr Hbool n st st' o Hm Hr) as (n' & Hr'). by exists st', n'.
  - intros vals w (st & Hst & Hr). destruct (start_simulated ctx ctx' f avail Hsc fc Hfc gone sub Htr vals w st Hst) as (st' & Hst' & Hm).
    exists st'. split; [done|]. by eapply (forever_simulated ctx ctx' f avail Hsc fc Hfc gone sub Htr Hbool).
Qed.

(** ** Parts of runs *)

Lemma run_more `{IrVm} context k n st st' : run context k st = Running st' -> run context (k + n) st = run context n st'.
Proof. revert st. induction k as [|k IH]; intros st; cbn; [by intros [= <-]|]. destruct (step context st) as [[]|]; try done. apply IH. Qed.

(** A run that still runs after more steps *)
Lemma run_less `{IrVm} context k n st st' : run context (k + n) st = Running st' -> exists st1, run context k st = Running st1.
Proof. revert st. induction k as [|k IH]; intros st; cbn; [by eexists|]. destruct (step context st) as [[]|]; try done. apply IH. Qed.

(** A state that steps to itself *)
Lemma run_loop `{IrVm} context n st : step context st = Some (inl st) -> run context n st = Running st.
Proof. intros Hst. induction n as [|n IH]; [done|]. cbn. by rewrite Hst. Qed.
