(* ===== verification/IrMachine.v ===== *)
(** * The arithmetic of the machine

    What constant folding relies on: words of 64 bits and wide words of 256 bits, with the
    operations of the Fuel VM.  Nothing is said about operations that do not fit, such as
    an addition that overflows or a division by zero: they can halt the machine. *)

From S2P Require Import Prelude IrTypes IrConstant IrCore IrRun.
Local Open Scope Z_scope.

Definition is_u64 (n : Z) : Prop := 0 <= n < 2 ^ 64.

Section laws.
Context `{IrVm}.

(** The instruction has no effect but its result. *)
Definition computes (op : InstOp) (vals : list Val) (v : Val) : Prop := forall w, exec op vals w = Some (Continues v w).

Definition bool_word (b : bool) : Val := word (if b then 1 else 0).

(** Operations with erased operands *)
Definition binop (k : BinaryOpKind) : InstOp := IBinaryOp k 1 1.
Definition unop (k : UnaryOpKind) : InstOp := IUnaryOp k 1.
Definition cmpop (p : Predicate) : InstOp := ICmp p 1 1.

Class IrVmLaws : Prop := {
  const_bool ty b : const_val (mkConstant ty (CBool b)) = bool_word b;
  const_uint ty n : const_val (mkConstant ty (CUint n)) = word n;
  const_u256 ty n : const_val (mkConstant ty (CU256 n)) = wide n;
  const_b256 ty n : const_val (mkConstant ty (CB256 n)) = wide n;
  as_bool_word b : as_bool (bool_word b) = Some b;

  word_add l r : is_u64 l -> is_u64 r -> l + r < 2 ^ 64 -> computes (binop BAdd) [word l; word r] (word (l + r));
  word_sub l r : is_u64 l -> is_u64 r -> r <= l -> computes (binop BSub) [word l; word r] (word (l - r));
  word_mul l r : is_u64 l -> is_u64 r -> l * r < 2 ^ 64 -> computes (binop BMul) [word l; word r] (word (l * r));
  word_div l r : is_u64 l -> is_u64 r -> r <> 0 -> computes (binop BDiv) [word l; word r] (word (l / r));
  word_mod l r : is_u64 l -> is_u64 r -> r <> 0 -> computes (binop BMod) [word l; word r] (word (l mod r));
  word_and l r : is_u64 l -> is_u64 r -> computes (binop BAnd) [word l; word r] (word (Z.land l r));
  word_or l r : is_u64 l -> is_u64 r -> computes (binop BOr) [word l; word r] (word (Z.lor l r));
  word_xor l r : is_u64 l -> is_u64 r -> computes (binop BXor) [word l; word r] (word (Z.lxor l r));
  word_shl l r : is_u64 l -> 0 <= r < 64 -> computes (binop BLsh) [word l; word r] (word (l * 2 ^ r mod 2 ^ 64));
  word_shr l r : is_u64 l -> 0 <= r < 64 -> computes (binop BRsh) [word l; word r] (word (l / 2 ^ r));
  word_not v : is_u64 v -> computes (unop UNot) [word v] (word (2 ^ 64 - 1 - v));
  word_eq l r : computes (cmpop PEqual) [word l; word r] (bool_word (l =? r));
  word_lt l r : computes (cmpop PLessThan) [word l; word r] (bool_word (l <? r));
  word_gt l r : computes (cmpop PGreaterThan) [word l; word r] (bool_word (r <? l));

  wide_add l r : is_u256 l -> is_u256 r -> l + r < 2 ^ 256 -> computes (binop BAdd) [wide l; wide r] (wide (l + r));
  wide_sub l r : is_u256 l -> is_u256 r -> r <= l -> computes (binop BSub) [wide l; wide r] (wide (l - r));
  wide_mul l r : is_u256 l -> is_u256 r -> l * r < 2 ^ 256 -> computes (binop BMul) [wide l; wide r] (wide (l * r));
  wide_div l r : is_u256 l -> is_u256 r -> r <> 0 -> computes (binop BDiv) [wide l; wide r] (wide (l / r));
  wide_mod l r : is_u256 l -> is_u256 r -> r <> 0 -> computes (binop BMod) [wide l; wide r] (wide (l mod r));
  wide_and l r : is_u256 l -> is_u256 r -> computes (binop BAnd) [wide l; wide r] (wide (Z.land l r));
  wide_or l r : is_u256 l -> is_u256 r -> computes (binop BOr) [wide l; wide r] (wide (Z.lor l r));
  wide_xor l r : is_u256 l -> is_u256 r -> computes (binop BXor) [wide l; wide r] (wide (Z.lxor l r));
  wide_shl l r : is_u256 l -> is_u64 r -> l * 2 ^ r < 2 ^ 256 -> computes (binop BLsh) [wide l; word r] (wide (l * 2 ^ r));
  wide_shr l r : is_u256 l -> is_u64 r -> computes (binop BRsh) [wide l; word r] (wide (l / 2 ^ r));
  wide_not v : is_u256 v -> computes (unop UNot) [wide v] (wide (2 ^ 256 - 1 - v));
  wide_eq l r : computes (cmpop PEqual) [wide l; wide r] (bool_word (l =? r));
  wide_lt l r : computes (cmpop PLessThan) [wide l; wide r] (bool_word (l <? r));
  wide_gt l r : computes (cmpop PGreaterThan) [wide l; wide r] (bool_word (r <? l));

  add_0_l x w r : exec (binop BAdd) [word 0; x] w = Some r -> r = Continues x w;
  add_0_r x w r : exec (binop BAdd) [x; word 0] w = Some r -> r = Continues x w;
  mul_1_l x w r : exec (binop BMul) [word 1; x] w = Some r -> r = Continues x w;
  mul_1_r x w r : exec (binop BMul) [x; word 1] w = Some r -> r = Continues x w;
  div_1_r x w r : exec (binop BDiv) [x; word 1] w = Some r -> r = Continues x w;
  sub_0_r x w r : exec (binop BSub) [x; word 0] w = Some r -> r = Continues x w;
}.
End laws.

(** ** A machine *)

Module SampleVm.

Inductive Value_ : Type := Word (n : Z) | Wide (n : Z) | Opaque (c : ConstantContent).

Definition of_constant (c : ConstantContent) : Value_ :=
  match c with
  | mkConstant _ (CBool b) => Word (if b then 1 else 0)
  | mkConstant _ (CUint n) => Word n
  | mkConstant _ (CU256 n) | mkConstant _ (CB256 n) => Wide n
  | c => Opaque c
  end.

(** The result in [bits] bits, or a stop *)
Definition arith (bits : Z) (k : BinaryOpKind) (l r : Z) : option Z :=
  let fit n := if (0 <=? n) && (n <? 2 ^ bits) then Some n else None in
  match k with
  | BAdd => fit (l + r)
  | BSub => fit (l - r)
  | BMul => fit (l * r)
  | BDiv => if r =? 0 then None else Some (l / r)
  | BMod => if r =? 0 then None else Some (l mod r)
  | BAnd => Some (Z.land l r)
  | BOr => Some (Z.lor l r)
  | BXor => Some (Z.lxor l r)
  | BLsh => Some (l * 2 ^ r mod 2 ^ bits)
  | BRsh => Some (l / 2 ^ r)
  end.

Definition compare (p : Predicate) (l r : Z) : bool :=
  match p with PEqual => l =? r | PLessThan => l <? r | PGreaterThan => r <? l end.

Definition result (make : Z -> Value_) (o : option Z) (w : list Z) : option (Effect Value_ (list Z) string) :=
  Some (match o with Some n => Continues (make n) w | None => Halts "arithmetic" end).

Definition is_word (n : Z) : bool := (0 <=? n) && (n <? 2 ^ 64).

(** The world is the list of the words that were logged. *)
Definition execute (op : InstOp) (vals : list Value_) (w : list Z) : option (Effect Value_ (list Z) string) :=
  match op, vals with
  | IBinaryOp k _ _, [Word l; Word r] => if is_word l && is_word r then result Word (arith 64 k l r) w else None
  | IBinaryOp k _ _, [Wide l; Wide r] => result Wide (arith 256 k l r) w
  | IBinaryOp ((BLsh | BRsh) as k) _ _, [Wide l; Word r] => result Wide (arith 256 k l r) w
  | IUnaryOp UNot _, [Word v] => result Word (Some (2 ^ 64 - 1 - v)) w
  | IUnaryOp UNot _, [Wide v] => result Wide (Some (2 ^ 256 - 1 - v)) w
  | ICmp p _ _, [Word l; Word r] | ICmp p _ _, [Wide l; Wide r] => result Word (Some (if compare p l r then 1 else 0)) w
  | IFuelVm (FLog _ _ _), Word v :: _ => Some (Continues (Word 0) (w ++ [v]))
  | IFuelVm (FRevert _), _ => Some (Halts "revert")
  | _, _ => None
  end.

#[export] Instance vm : IrVm := {
  Val := Value_; World := list Z; Halt := string; word := Word; wide := Wide; const_val := of_constant;
  as_bool v := match v with Word 0 => Some false | Word _ => Some true | _ => None end;
  exec := execute;
}.

Lemma is_word_u64 n : is_u64 n -> is_word n = true.
Proof. intros [? ?]. apply andb_true_iff. split; [by apply Z.leb_le|by apply Z.ltb_lt]. Qed.

Lemma exec_words k l r w : is_u64 l -> is_u64 r -> exec (binop k) [word l; word r] w = result Word (arith 64 k l r) w.
Proof. intros Hl Hr. assert (exec (binop k) [word l; word r] w = (if is_word l && is_word r then result Word (arith 64 k l r) w else None)) as -> by by destruct k. by rewrite !is_word_u64. Qed.

Lemma exec_words_inv k l r w e : exec (binop k) [word l; word r] w = Some e -> is_u64 l /\ is_u64 r.
Proof.
  assert (exec (binop k) [word l; word r] w = (if is_word l && is_word r then result Word (arith 64 k l r) w else None)) as -> by by destruct k.
  unfold is_u64, is_word. destruct (Z.leb_spec 0 l), (Z.ltb_spec l (2 ^ 64)), (Z.leb_spec 0 r), (Z.ltb_spec r (2 ^ 64)); done.
Qed.

Lemma fit_ok bits n : 0 <= n < 2 ^ bits -> (if (0 <=? n) && (n <? 2 ^ bits) then Some n else None) = Some n.
Proof. intros [H1 H2]. by rewrite (proj2 (Z.leb_le _ _) H1), (proj2 (Z.ltb_lt _ _) H2). Qed.

Lemma nonzero_ok {A} r (a : A) : r <> 0 -> (if r =? 0 then None else Some a) = Some a.
Proof. intros Hr. by rewrite (proj2 (Z.eqb_neq _ _) Hr). Qed.

Lemma words_compute k l r n : is_u64 l -> is_u64 r -> arith 64 k l r = Some n -> computes (binop k) [word l; word r] (word n).
Proof. intros Hl Hr Ha w. rewrite exec_words by done. unfold result. by rewrite Ha. Qed.

Lemma wides_compute k l r n : arith 256 k l r = Some n -> computes (binop k) [wide l; wide r] (wide n).
Proof. intros Ha w. assert (exec (binop k) [wide l; wide r] w = (result Wide (arith 256 k l r) w)) as -> by by destruct k. unfold result. by rewrite Ha. Qed.

Lemma shifts_compute k l r n : k = BLsh \/ k = BRsh -> arith 256 k l r = Some n -> computes (binop k) [wide l; word r] (wide n).
Proof.
  intros Hk Ha w. assert (exec (binop k) [wide l; word r] w = result Wide (arith 256 k l r) w) as -> by by destruct Hk as [-> | ->].
  unfold result. by rewrite Ha.
Qed.

(** An operation with a neutral word has a word as its other operand. *)
Lemma neutral_compute k l r n w e : exec (binop k) [word l; word r] w = Some e -> (is_u64 l -> is_u64 r -> arith 64 k l r = Some n) -> e = Continues (word n) w.
Proof. intros He Ha. destruct (exec_words_inv k l r w e He) as [Hl Hr]. rewrite (words_compute k l r n Hl Hr (Ha Hl Hr) w) in He. by injection He as <-. Qed.

#[export] Instance vm_laws : IrVmLaws.
Proof.
  assert (forall r, 0 <= r < 64 -> is_u64 r) as Hshift by (unfold is_u64; lia).
  split; try done; try (intros l r Hl Hr; intros; apply words_compute; [done|by (done || apply Hshift)|unfold is_u64 in *; cbn [arith]; (apply fit_ok; nia) || (by apply nonzero_ok) || done]);
    try (intros l r Hl Hr; intros; (apply wides_compute || (apply shifts_compute; [by auto|])); unfold is_u256 in *; cbn [arith]; (apply fit_ok; nia) || (by apply nonzero_ok) || done).
  - by intros [].
  - intros l r Hl Hr Hlt. apply shifts_compute; [by left|]. cbn [arith]. rewrite Z.mod_small; [done|]. unfold is_u256, is_u64 in *. pose proof (Z.pow_nonneg 2 r). nia.
  - intros [x|x|x] w r Hr; [|done|done]. apply (neutral_compute BAdd 0 x x w r Hr). unfold is_u64. intros. cbn [arith]. by apply fit_ok.
  - intros [x|x|x] w r Hr; [|done|done]. apply (neutral_compute BAdd x 0 x w r Hr). unfold is_u64. intros. cbn [arith]. rewrite Z.add_0_r. by apply fit_ok.
  - intros [x|x|x] w r Hr; [|done|done]. apply (neutral_compute BMul 1 x x w r Hr). unfold is_u64. intros. cbn [arith]. rewrite Z.mul_1_l. by apply fit_ok.
  - intros [x|x|x] w r Hr; [|done|done]. apply (neutral_compute BMul x 1 x w r Hr). unfold is_u64. intros. cbn [arith]. rewrite Z.mul_1_r. by apply fit_ok.
  - intros [x|x|x] w r Hr; [|done|done]. apply (neutral_compute BDiv x 1 x w r Hr). unfold is_u64. intros. cbn [arith]. by rewrite Z.div_1_r.
  - intros [x|x|x] w r Hr; [|done|done]. apply (neutral_compute BSub x 0 x w r Hr). unfold is_u64. intros. cbn [arith]. rewrite Z.sub_0_r. by apply fit_ok.
Qed.
End SampleVm.
