(* ===== verification/IrFoldTheory.v ===== *)
(** * Functions that constants can be folded in

    The invariant of [fold_constants]: values are in scope, operands have types, scalar
    constants have their values and one key, and no instruction depends on itself.  The
    rewritings of [IrTransform] keep it. *)

From S2P Require Import Prelude IrTypes IrTypeTheory IrConstant IrCore IrRun IrTransform IrMachine IrUnique IrFold.
Local Open Scope Z_scope.

(** ** Searching *)

Lemma find_map_ok_spec {A B} (g : A -> Result (option B)) l :
  (forall x, x ∈ l -> exists o, g x = Ok o) ->
  exists o, find_map_ok g l = Ok o /\ match o with Some y => exists x, x ∈ l /\ g x = Ok (Some y) | None => forall x, x ∈ l -> g x = Ok None end.
Proof.
  induction l as [|x l IH]; intros Hg; cbn; [exists None; split; [done|by intros x ?%elem_of_nil]|]. destruct (Hg x ltac:(by left)) as [o Ho]. rewrite Ho. next_step.
  destruct o as [y|]; [exists (Some y); split; [done|]; exists x; split; [by left|done]|].
  destruct IH as (o & Hf & Hspec); [intros; apply Hg; by right|]. exists o. split; [done|]. destruct o as [y|].
  - destruct Hspec as (x' & Hx' & Hy). exists x'. split; [by right|done].
  - intros x' [->|Hx']%elem_of_cons; [done|by apply Hspec].
Qed.

Lemma remove_first_keep v l : NoDup l -> remove_first v l = List.filter (fun x => negb (bool_decide (x = v))) l.
Proof.
  induction 1 as [|x l Hx Hnd IH]; [done|]. cbn. case_bool_decide as Hv; cbn; [|by rewrite IH]. subst x. clear IH Hnd. symmetry.
  induction l as [|y l IH]; [done|]. cbn. rewrite bool_decide_false by set_solver. cbn. f_equal. apply IH. set_solver.
Qed.

Lemma filter_absent (v : Value) (l : list Value) : v ∉ l -> List.filter (fun x => negb (bool_decide (x = v))) l = l.
Proof. induction l as [|y l IH]; intros Hv; [done|]. cbn. rewrite bool_decide_false by set_solver. cbn. f_equal. apply IH. set_solver. Qed.

(** ** The invariant *)

Definition kind_ok (types : IrTypes.Context) (c : ConstantContent) : Prop :=
  match IrTypes.types types !! cty c with
  | Some TBool => exists b, cvalue c = CBool b
  | Some (TUint w) => if w =? 256 then exists n, cvalue c = CU256 n /\ is_u256 n else exists n, cvalue c = CUint n /\ is_u64 n
  | Some TB256 => exists n, cvalue c = CB256 n /\ is_u256 n
  | Some _ => scalar_value (cvalue c) = false
  | None => False
  end.

Definition is_shift (k : BinaryOpKind) : bool := match k with BLsh | BRsh => true | _ => false end.

Section foldable.
Context `{SlotMap} (hash : ConstantContent -> Z) (ty_of : Value -> Ty) (rank : Value -> nat).

(** The types of the operands of the instructions that can be folded *)
Definition op_typed (types : IrTypes.Context) (v : Value) (op : InstOp) : Prop :=
  match op with
  | IBinaryOp k a1 a2 => ty_of v = ty_of a1 /\ (is_shift k = false -> ty_of a2 = ty_of a1)
  | IUnaryOp UNot a => ty_of v = ty_of a /\ IrTypes.types types !! ty_of a ∈ [Some (TUint 64); Some (TUint 256); Some TB256]
  | ICmp p a1 a2 =>
      get_bool types = Ok (ty_of v) /\ ty_of a2 = ty_of a1 /\
      match IrTypes.types types !! ty_of a1 with Some (TUint _) | Some TB256 => True | Some TBool => p = PEqual | _ => False end
  | IConditionalBranch c _ _ => get_bool types = Ok (ty_of c)
  | _ => True
  end.

Record foldable (ctx : Context) (f : Function) (avail : Block -> gset Value) : Prop := {
  fo_types : context_ok (types ctx);
  fo_pool : pool hash (types ctx) (constants ctx);
  fo_scoped : scoped ctx f avail;
  fo_bool : is_Ok (get_bool (types ctx));
  fo_const x content : is_const ctx x content -> ty_of x = cty content /\ kind_ok (types ctx) content;
  fo_closed x c : values ctx !! x = Some (VConstant c) -> is_Some (IrConstant.constants (constants ctx) !! c);
  fo_op fc b c before v after op : functions ctx !! f = Some fc -> at_point ctx (f_blocks fc) b c before v after op ->
    op_typed (types ctx) v op /\ forall x, x ∈ get_operands op -> is_Some (values ctx !! x) /\ (rank x < rank v)%nat;
}.

(** ** Rewriting keeps it *)

Lemma op_typed_rename types v op sub : (forall x, ty_of (sub x) = ty_of x) -> op_typed types v op -> op_typed types v (rename sub op).
Proof.
  intros Hty. unfold rename. destruct op as [asm l| | | | | | | | | |instr| | | | | | | | | | | |]; cbn; rewrite ?traverse_total, ?replace_branch_total, ?replace_asm_args_total; cbn; rewrite ?Hty; try done.
  by destruct instr.
Qed.

Lemma foldable_transformed ctx ctx' f avail fc gone sub `{IrVm} :
  foldable ctx f avail -> functions ctx !! f = Some fc -> transformed ctx ctx' f avail fc gone sub ->
  types ctx' = types ctx -> pool hash (types ctx) (constants ctx') ->
  (forall x content, is_const ctx' x content -> is_const ctx x content \/ (ty_of x = cty content /\ kind_ok (types ctx) content)) ->
  (forall x c, values ctx' !! x = Some (VConstant c) -> is_Some (IrConstant.constants (constants ctx') !! c)) ->
  (forall x, ty_of (sub x) = ty_of x) -> (forall x, (rank (sub x) <= rank x)%nat) -> (forall x, is_Some (values ctx !! x) -> is_Some (values ctx' !! sub x)) ->
  foldable ctx' f (new_avail ctx' avail gone sub).
Proof.
  intros Hfo Hfc Htr Ht Hpool Hconst Hclosed Hty Hrank Hval. split.
  - rewrite Ht. apply (fo_types _ _ _ Hfo).
  - by rewrite Ht.
  - apply (new_scoped ctx ctx' f avail (fo_scoped _ _ _ Hfo) fc Hfc gone sub Htr).
  - rewrite Ht. apply (fo_bool _ _ _ Hfo).
  - rewrite Ht. intros x content [Hc|?]%Hconst; [|done]. by apply (fo_const _ _ _ Hfo).
  - done.
  - intros fc' b c' before' v after' op' Hfc' Hat. rewrite (tr_function _ _ _ _ _ _ _ Htr) in Hfc'. injection Hfc' as <-.
    destruct (new_point ctx ctx' f avail (fo_scoped _ _ _ Hfo) fc Hfc gone sub Htr _ _ _ _ _ _ Hat) as (c & before & after & op & Hat0 & Hg & _ & _ & Hk).
    destruct (fo_op _ _ _ Hfo fc b c before v after op Hfc Hat0) as [Hop Hx]. rewrite Ht. split.
    + destruct Hk as [->|(cond & t & e & ty & bb & -> & _ & ->)]; [by apply op_typed_rename|done].
    + intros x Hin. destruct (kept_operands ctx sub op op' x Hk Hin) as (y & Hy & ->). destruct (Hx y Hy) as [Hs Hr].
      split; [by apply Hval|]. specialize (Hrank y). lia.
Qed.

(** ** The instructions of a function *)

Section iter.
Context (ctx : Context) (f : Function) (avail : Block -> gset Value) (Hfo : foldable ctx f avail).
Context (fc : FunctionContent) (Hfc : functions ctx !! f = Some fc).

Definition block_instructions (b : Block) : list (Block * Value) :=
  match blocks ctx !! b with Some c => map (pair b) (instructions c) | None => [] end.
Definition all_instructions : list (Block * Value) := concat (map block_instructions (f_blocks fc)).

Lemma instruction_iter_Ok : instruction_iter ctx f = Ok all_instructions.
Proof.
  unfold instruction_iter, block_iter, function_content, index, expect_some, all_instructions. rewrite Hfc. next_step.
  assert (forall b, b ∈ f_blocks fc -> exists c, blocks ctx !! b = Some c) as Hbl.
  { intros b Hb. destruct (sc_block _ _ _ (fo_scoped _ _ _ Hfo) fc b Hfc Hb) as (c & Hc & _). by exists c. }
  induction (f_blocks fc) as [|b l IH]; [done|]. cbn [concat_traverse map concat].
  destruct (Hbl b ltac:(by left)) as [c Hc]. assert (block_content ctx b = Ok c) as -> by (unfold block_content, index, expect_some; by rewrite Hc).
  unfold block_instructions at 1. rewrite Hc. next_step. rewrite IH; [done|]. intros; apply Hbl; by right.
Qed.

Lemma all_instructions_point b v : (b, v) ∈ all_instructions -> exists c before after op, at_point ctx (f_blocks fc) b c before v after op.
Proof.
  unfold all_instructions. rewrite list_elem_of_In, List.in_concat. intros (l & Hl & Hin). apply List.in_map_iff in Hl as (b' & <- & Hb%list_elem_of_In).
  unfold block_instructions in Hin. destruct (blocks ctx !! b') as [c|] eqn:Hc; [|done]. apply List.in_map_iff in Hin as (v' & [= -> ->] & Hv%list_elem_of_In).
  destruct (sc_instruction _ _ _ (fo_scoped _ _ _ Hfo) fc b c v Hfc Hb Hc Hv) as (p & op & Hop). apply list_elem_of_split in Hv as (l1 & l2 & Hl).
  exists c, l1, l2, op. split_and!; [done..|by exists p].
Qed.

Lemma op_of_point b c before v after op : at_point ctx (f_blocks fc) b c before v after op -> op_of ctx v = Ok (Some op).
Proof. intros (_ & _ & _ & p & Hp). unfold op_of, get_instruction, value_datum, index, expect_some. by rewrite Hp. Qed.

Lemma constant_of_spec x : is_Some (values ctx !! x) ->
  exists o, constant_of ctx x = Ok o /\
  match o with
  | Some (k, content) => values ctx !! x = Some (VConstant k) /\ IrConstant.constants (constants ctx) !! k = Some content /\ is_const ctx x content
  | None => forall content, ~ is_const ctx x content
  end.
Proof.
  intros [d Hd]. unfold constant_of, get_constant, constant_content, value_datum, index, expect_some. rewrite Hd. next_step. destruct d as [| k|].
  - exists None. split; [done|]. intros content (k & Hk & _). congruence.
  - destruct (fo_closed _ _ _ Hfo x k Hd) as [content Hc]. rewrite Hc. exists (Some (k, content)). split; [done|]. split_and!; [done..|by exists k].
  - exists None. split; [done|]. intros content (k & Hk & _). congruence.
Qed.
End iter.
End foldable.
