(* ===== verification/IrFoldSteps.v ===== *)
(** * The rewritings of constant folding

    An instruction is replaced by a constant or by one of its operands, or a conditional
    branch by a branch.  Each keeps the invariant, refines the function, and makes it
    smaller. *)

From S2P Require Import Prelude IrTypes IrTypeTheory IrConstant IrCore IrRun IrTransform IrMachine IrUnique IrFoldTheory IrFold.
Local Open Scope Z_scope.

(** ** Size *)

Lemma sum_filter_lt {A} (w w' : A -> nat) (P : A -> bool) l :
  (forall x, x ∈ l -> P x = true -> (w' x <= w x)%nat) -> (forall x, (0 < w x)%nat) ->
  (exists x, x ∈ l /\ (P x = false \/ (w' x < w x)%nat)) -> (sum_list_with w' (List.filter P l) < sum_list_with w l)%nat.
Proof.
  intros Hle Hpos. assert (sum_list_with w' (List.filter P l) <= sum_list_with w l)%nat as Hall.
  { induction l as [|x l IH]; [done|]. cbn. specialize (IH ltac:(intros; apply Hle; [by right|done])). destruct (P x) eqn:HP; cbn; [|lia].
    specialize (Hle x ltac:(by left) HP). lia. }
  intros (x & Hx & Hs). induction l as [|y l IH]; [by apply elem_of_nil in Hx|]. cbn in *.
  assert (sum_list_with w' (List.filter P l) <= sum_list_with w l)%nat as Hrest.
  { clear - Hle. induction l as [|z l IH]; [done|]. cbn. specialize (IH ltac:(intros; apply Hle; [set_solver|done])). destruct (P z) eqn:HP; cbn; [|lia].
    specialize (Hle z ltac:(right; by left) HP). lia. }
  apply elem_of_cons in Hx as [->|Hx].
  - specialize (Hpos y). destruct (P y) eqn:HP; cbn; [|lia]. specialize (Hle y ltac:(by left) HP). destruct Hs; [done|lia].
  - specialize (IH ltac:(intros; apply Hle; [by right|done]) Hrest Hx). destruct (P y) eqn:HP; cbn; [|specialize (Hpos y); lia]. specialize (Hle y ltac:(by left) HP). lia.
Qed.

Definition weight (ctx : Context) (p : Block * Value) : nat :=
  match values ctx !! p.2 with Some (VInstruction _ (IConditionalBranch _ _ _)) => 2 | _ => 1 end.
Definition measure (ctx : Context) (fc : FunctionContent) : nat := sum_list_with (weight ctx) (all_instructions ctx fc).

Lemma rename_conditional sub op : (exists c t e, rename sub op = IConditionalBranch c t e) -> exists c t e, op = IConditionalBranch c t e.
Proof.
  intros (c & t & e & Heq). revert Heq. unfold rename. destruct op as [asm l| | | | | | | |cond tb fb| |instr| | | | | | | | | | | |]; cbn; rewrite ?traverse_total, ?replace_branch_total, ?replace_asm_args_total; cbn; try done.
  - by exists cond, tb, fb.
  - by destruct instr.
Qed.

(** ** Replacing a value in a function *)

Definition subst1 (v r x : Value) : Value := if bool_decide (x = v) then r else x.

Section subst.
Context (v r : Value) (Hrv : r <> v).

Lemma subst1_idem x : subst1 v r (subst1 v r x) = subst1 v r x.
Proof.
  unfold subst1. destruct (decide (x = v)) as [Hx|Hx]; [|by rewrite !(bool_decide_false (x = v))].
  rewrite !(bool_decide_true (x = v)) by done. by rewrite bool_decide_false.
Qed.

Lemma replace_values_rename op : InstOp_replace_values {[ v := r ]} op = Ok (rename (subst1 v r) op).
Proof.
  unfold InstOp_replace_values. rewrite <- replace_operands_total. apply replace_operands_ext. intros x. rewrite map_size_singleton. unfold subst1. cbn.
  case_bool_decide as Hx; [subst x; rewrite lookup_singleton_eq, lookup_singleton_ne; done|by rewrite lookup_singleton_ne].
Qed.

End subst.

Section steps.
Context `{SlotMap} `{IrVm} {Hlaws : IrVmLaws} (hash : ConstantContent -> Z) (ty_of : Value -> Ty) (rank : Value -> nat).

Abbreviation foldable := (foldable hash ty_of rank).

Lemma as_bool_const ty b : as_bool (const_val (mkConstant ty (CBool b))) = Some b.
Proof. rewrite const_bool. apply as_bool_word. Qed.

Section step.
Context (ctx : Context) (f : Function) (avail : Block -> gset Value) (Hfo : foldable ctx f avail).
Context (fc : FunctionContent) (Hfc : functions ctx !! f = Some fc).

Abbreviation bl := (f_blocks fc).

Lemma all_instructions_transformed ctx' gone sub : transformed ctx ctx' f avail fc gone sub ->
  all_instructions ctx' fc = List.filter (fun p => negb (gone p.2)) (all_instructions ctx fc).
Proof.
  intros Htr. unfold all_instructions. assert (forall b, b ∈ bl -> block_instructions ctx' b = List.filter (fun p => negb (gone p.2)) (block_instructions ctx b)) as Hb.
  { intros b Hb. unfold block_instructions. destruct (sc_block _ _ _ (fo_scoped _ _ _ _ _ _ Hfo) fc b Hfc Hb) as (c & Hc & _).
    destruct (tr_block _ _ _ _ _ _ _ Htr b c Hb Hc) as (c' & Hc' & _ & Hi). rewrite Hc, Hc', Hi. clear. induction (instructions c) as [|x l IH]; [done|]. cbn.
    destruct (gone x); cbn; by rewrite IH. }
  clear - Hb. induction bl as [|b l IH]; [done|]. cbn. rewrite List.filter_app, Hb by by left. f_equal. apply IH. intros; apply Hb; by right.
Qed.

Lemma measure_transformed ctx' gone sub b v : transformed ctx ctx' f avail fc gone sub -> (b, v) ∈ all_instructions ctx fc ->
  gone v = true \/ (weight ctx' (b, v) < weight ctx (b, v))%nat -> (measure ctx' fc < measure ctx fc)%nat.
Proof.
  intros Htr Hin Hs. unfold measure. rewrite (all_instructions_transformed ctx' gone sub Htr). apply sum_filter_lt.
  - intros [b0 x] Hx Hg%negb_true_iff. destruct (all_instructions_point _ _ _ ctx f avail Hfo fc Hfc b0 x Hx) as (c & before & after & op & Hat). cbn in Hg.
    destruct (tr_kept _ _ _ _ _ _ _ Htr b0 c before x after op Hat Hg) as (p' & op' & Hv' & Hk). destruct Hat as (_ & _ & _ & p & Hv).
    unfold weight. cbn [snd]. rewrite Hv, Hv'. destruct Hk as [->|(cond & t & e & ty & bb & -> & _ & ->)]; [|lia].
    destruct (rename sub op) eqn:Hr; try (destruct op; lia). destruct (rename_conditional sub op ltac:(by eexists _, _, _)) as (? & ? & ? & ->). lia.
  - intros x. unfold weight. repeat case_match; lia.
  - exists (b, v). split; [done|]. destruct Hs as [Hs|Hs]; [left; cbn; by rewrite Hs|by right].
Qed.

Lemma point_all b c before v after op : at_point ctx bl b c before v after op -> (b, v) ∈ all_instructions ctx fc.
Proof using Type.
  intros (Hb & Hc & Hi & _). unfold all_instructions. rewrite list_elem_of_In, List.in_concat. exists (block_instructions ctx b).
  split; [apply List.in_map; by apply list_elem_of_In|]. unfold block_instructions. rewrite Hc. apply List.in_map, list_elem_of_In. rewrite Hi. apply elem_of_app. right. by left.
Qed.

(** What a change of the function achieves *)
Definition improves (r : Result Context) : Prop :=
  exists ctx' avail', r = Ok ctx' /\ foldable ctx' f avail' /\ refines ctx ctx' f /\ functions ctx' !! f = Some fc /\ (measure ctx' fc < measure ctx fc)%nat.

Lemma instruction_defined b c v : b ∈ bl -> blocks ctx !! b = Some c -> v ∈ instructions c -> defined_in ctx b v.
Proof. intros _ Hc Hv. exists c. split; [done|by right]. Qed.

(** Removing the instruction [v] from its block [b] *)
Lemma remove_block_kept b c before v after op b' c' :
  at_point ctx bl b c before v after op -> b' ∈ bl -> blocks ctx !! b' = Some c' ->
  exists c1, <[b := set_instructions (remove_first v (instructions c)) c]> (blocks ctx) !! b' = Some c1 /\ args c1 = args c' /\
    instructions c1 = List.filter (fun x => negb (bool_decide (x = v))) (instructions c').
Proof.
  intros Hat Hb' Hc'. assert (Hat' := Hat). destruct Hat' as (Hb & Hc & Hi & _). pose proof (fo_scoped _ _ _ _ _ _ Hfo) as Hsc.
  destruct (decide (b = b')) as [<-|Hne].
  - rewrite Hc in Hc'. injection Hc' as <-. rewrite lookup_insert_eq. eexists. split; [done|]. split; [done|]. cbn. apply remove_first_keep.
    destruct (sc_block _ _ _ Hsc fc b Hfc Hb) as (c1 & Hc1 & Hnd). rewrite Hc in Hc1. injection Hc1 as <-. by apply NoDup_app in Hnd as (_ & _ & ?).
  - rewrite lookup_insert_ne by done. exists c'. split; [done|]. split; [done|]. symmetry. apply filter_absent. intros Hin. apply Hne.
    apply (sc_unique _ _ _ Hsc fc b b' v Hfc Hb Hb'); [by eapply point_defined|]. exists c'. split; [done|by right].
Qed.

Lemma replace_by_constant_improves b c before v after op content :
  at_point ctx bl b c before v after op -> is_control op = false -> scalar (types ctx) content -> ty_of v = cty content -> kind_ok (types ctx) content ->
  (forall e vals w r, mapM (eval ctx e) (get_operands op) = Some vals -> exec (erase op) vals w = Some r -> r = Continues (const_val content) w) ->
  improves (replace_by_constant hash ctx v b content).
Proof.
  intros Hat Hplain Hscalar Hty Hkind Hres. assert (Hat' := Hat). destruct Hat' as (Hb & Hc & Hi & pv & Hv). pose proof (fo_scoped _ _ _ _ _ _ Hfo) as Hsc.
  destruct (unique_scalar hash (types ctx) (fo_types _ _ _ _ _ _ Hfo) (constants ctx) content (fo_pool _ _ _ _ _ _ Hfo) Hscalar) as (self' & k & Hu & Hpool' & Hsub & Hk).
  set (ctx' := mkContext (types ctx) self' (<[v := VConstant k]> (values ctx)) (<[b := set_instructions (remove_first v (instructions c)) c]> (blocks ctx)) (functions ctx) (declarations ctx)).
  assert (replace_by_constant hash ctx v b content = Ok ctx') as Heq.
  { unfold replace_by_constant, unique_constant. rewrite Hu. next_step. unfold replace, value_datum, index, expect_some. cbn. rewrite Hv. cbn.
    unfold remove_instruction, update_block, block_content, index, expect_some. cbn. by rewrite Hc. }
  assert (forall x content0, x <> v -> is_const ctx x content0 -> is_const ctx' x content0) as Hold.
  { intros x content0 Hne (k0 & Hv0 & Hc0). exists k0. cbn. rewrite lookup_insert_ne by done. split; [done|]. by eapply lookup_weaken. }
  assert (is_const ctx' v content) as Hnew by (exists k; cbn; by rewrite lookup_insert_eq).
  set (gone := fun x => bool_decide (x = v)).
  assert (transformed ctx ctx' f avail fc gone (fun x => x)) as Htr.
  { split.
    - done.
    - intros b' c' Hb' Hc'. by eapply remove_block_kept.
    - intros b' c' before' u after' op' Hat0 Hg%bool_decide_eq_false. destruct Hat0 as (_ & _ & _ & pu & Hu'). exists pu, op'. cbn. rewrite lookup_insert_ne by done.
      split; [done|]. left. by rewrite rename_id.
    - intros b' c' before' u after' op' Hat0 Hg%bool_decide_eq_true. subst u. assert (op' = op) as -> by (destruct Hat0 as (_ & _ & _ & p0 & Hv0); congruence). split.
      + split; [by destruct op|by intros ? ? ->].
      + left. by exists content.
      + intros e e' w vals r _ Hvals Hr. exists (const_val content). split; [by eapply Hres|]. by apply eval_const.
    - intros x Hg%bool_decide_eq_true. subst x. by exists b, c, before, after, op.
    - intros x b' i ty Hx. cbn. rewrite lookup_insert_ne; [done|]. intros <-. congruence.
    - intros x content0 Hx. apply Hold; [|done]. intros ->. destruct Hx as (k0 & Hx & _). congruence.
    - done. }
  exists ctx', (new_avail ctx' avail gone (fun x => x)). split; [done|]. split_and!; [|by eapply transformed_refines; [exact as_bool_const|exact Hsc|exact Hfc|exact Htr]|done|].
  - eapply foldable_transformed; [exact Hfo|exact Hfc|exact Htr|done|done| | |done|done|].
    + intros x content0 (k0 & Hx & Hc0). cbn in Hx, Hc0. apply lookup_insert_Some in Hx as [[<- [= <-]]|[Hne Hx]].
      * rewrite Hk in Hc0. injection Hc0 as <-. by right.
      * left. exists k0. split; [done|]. destruct (fo_closed _ _ _ _ _ _ Hfo x k0 Hx) as [c0 Hc0']. rewrite (lookup_weaken _ _ _ _ Hc0' Hsub) in Hc0. congruence.
    + intros x k0 Hx. cbn in Hx |- *. apply lookup_insert_Some in Hx as [[<- [= <-]]|[Hne Hx]]; [by eexists|].
      destruct (fo_closed _ _ _ _ _ _ Hfo x k0 Hx) as [c0 Hc0']. exists c0. by eapply lookup_weaken.
    + intros x Hx. cbn. destruct (decide (x = v)) as [->|]; [rewrite lookup_insert_eq; by eexists|by rewrite lookup_insert_ne].
  - eapply (measure_transformed ctx' gone (fun x => x) b v Htr); [by eapply point_all|]. left. unfold gone. by apply bool_decide_eq_true.
Qed.

(** Replaces the value [v] by [r] and removes it *)
Definition replace_by_value (v : Value) (b : Block) (r : Value) : Result Context :=
  context ← Function_replace_values ctx f {[ v := r ]};
  remove_instruction context b v.

Lemma replace_by_value_improves b c before v after op r :
  at_point ctx bl b c before v after op -> is_control op = false -> r ∈ get_operands op -> ty_of r = ty_of v ->
  (forall e vals w eff, mapM (eval ctx e) (get_operands op) = Some vals -> exec (erase op) vals w = Some eff ->
    exists a, eval ctx e r = Some a /\ eff = Continues a w) ->
  improves (replace_by_value v b r).
Proof.
  intros Hat Hplain Hr Hty Hres. assert (Hat' := Hat). destruct Hat' as (Hb & Hc & Hi & pv & Hv). pose proof (fo_scoped _ _ _ _ _ _ Hfo) as Hsc.
  destruct (fo_op _ _ _ _ _ _ Hfo fc b c before v after op Hfc Hat) as [_ Hops]. destruct (Hops r Hr) as [[d Hd] Hrank].
  assert (r <> v) as Hrv by (intros ->; lia). set (sub := subst1 v r).
  assert (sub v = r) as Hsv by (unfold sub, subst1; by rewrite bool_decide_true).
  assert (forall x, x <> v -> sub x = x) as Hsx by (intros x Hx; unfold sub, subst1; by rewrite bool_decide_false).
  destruct (Function_replace_values_Ok {[ v := r ]} (subst1 v r) (replace_values_rename v r Hrv) (subst1_idem v r Hrv) ctx f fc Hfc) as (l & Heq & Hl).
  { intros b' Hb'. destruct (sc_block _ _ _ Hsc fc b' Hfc Hb') as (c' & Hc' & _). exists c'. split; [done|]. intros u Hu.
    destruct (sc_instruction _ _ _ Hsc fc b' c' u Hfc Hb' Hc' Hu) as (? & ? & ->). by eexists. }
  set (vals' := foldl (rename_value (subst1 v r)) (values ctx) l). set (ctx' := mkContext (types ctx) (constants ctx) vals'
    (<[b := set_instructions (remove_first v (instructions c)) c]> (blocks ctx)) (functions ctx) (declarations ctx)).
  assert (replace_by_value v b r = Ok ctx') as Hok.
  { unfold replace_by_value. rewrite Heq. next_step. unfold remove_instruction, update_block, block_content, index, expect_some. cbn. by rewrite Hc. }
  assert (forall x, is_Some (values ctx !! x) -> is_Some (vals' !! x)) as Hsome.
  { intros x [dx Hx]. unfold vals'. rewrite rename_values_lookup by (by apply subst1_idem). rewrite Hx. case_bool_decide; by eexists. }
  assert (forall x k, vals' !! x = Some (VConstant k) <-> values ctx !! x = Some (VConstant k)) as Hconst.
  { intros x k. unfold vals'. rewrite rename_values_lookup by (by apply subst1_idem). case_bool_decide; [|done]. by destruct (values ctx !! x) as [[]|]. }
  assert (forall x content, is_const ctx' x content <-> is_const ctx x content) as Hisc.
  { intros x content. unfold is_const. cbn. split; intros (k & Hk & Hkc); exists k; (split; [by apply Hconst|done]). }
  set (gone := fun x => bool_decide (x = v)).
  assert (transformed ctx ctx' f avail fc gone sub) as Htr.
  { split.
    - done.
    - intros b' c' Hb' Hc'. by eapply remove_block_kept.
    - intros b' c' before' u after' op' Hat0 _. destruct Hat0 as (Hb' & Hc' & Hi' & pu & Hu). exists pu, (rename sub op'). split; [|by left]. cbn.
      unfold vals'. rewrite rename_values_lookup by (by apply subst1_idem). rewrite bool_decide_true; [by rewrite Hu|]. apply Hl. exists b', c'. split_and!; [done..|]. rewrite Hi'. set_solver.
    - intros b' c' before' u after' op' Hat0 Hg%bool_decide_eq_true. subst u. assert (op' = op) as -> by (destruct Hat0 as (_ & _ & _ & p0 & Hv0); congruence). split.
      + split; [by destruct op|by intros ? ? ->].
      + rewrite Hsv. destruct d as [|k|].
        * right. split_and!; [by eapply (sc_operands _ _ _ Hsc fc)|by apply bool_decide_eq_false|intros content (k & Hk & _); congruence|]. intros k Hk%Hconst. congruence.
        * left. destruct (fo_closed _ _ _ _ _ _ Hfo r k Hd) as [content Hcontent]. exists content. apply Hisc. by exists k.
        * right. split_and!; [by eapply (sc_operands _ _ _ Hsc fc)|by apply bool_decide_eq_false|intros content (k & Hk & _); congruence|]. intros k Hk%Hconst. congruence.
      + intros e e' w vals eff Hev Hvals Heff. destruct (Hres e vals w eff Hvals Heff) as (a & Ha & ->). exists a. split; [done|].
        rewrite Hsv. rewrite <- (Hsx r Hrv). by apply Hev.
    - intros x Hg%bool_decide_eq_true. subst x. by exists b, c, before, after, op.
    - intros x b' i ty Hx. cbn. unfold vals'. rewrite rename_values_lookup by (by apply subst1_idem). rewrite Hx. by case_bool_decide.
    - intros x content Hx. by apply Hisc.
    - intros x Hg%bool_decide_eq_false. by apply Hsx. }
  exists ctx', (new_avail ctx' avail gone sub). split; [done|]. split_and!; [|by eapply transformed_refines; [exact as_bool_const|exact Hsc|exact Hfc|exact Htr]|done|].
  - eapply foldable_transformed; [exact Hfo|exact Hfc|exact Htr|done|by apply (fo_pool _ _ _ _ _ _ Hfo)| | | | |].
    + intros x content Hx. left. by apply Hisc.
    + intros x k Hx. apply (fo_closed _ _ _ _ _ _ Hfo x k). by apply Hconst.
    + intros x. destruct (decide (x = v)) as [->|Hx]; [by rewrite Hsv|by rewrite Hsx].
    + intros x. destruct (decide (x = v)) as [->|Hx]; [rewrite Hsv; lia|by rewrite Hsx].
    + intros x Hx. cbn. apply Hsome. destruct (decide (x = v)) as [->|Hx']; [rewrite Hsv; by eexists|by rewrite Hsx].
  - eapply (measure_transformed ctx' gone sub b v Htr); [by eapply point_all|]. left. by apply bool_decide_eq_true.
Qed.

(** Replaces the conditional branch [v] of the block [b] on the constant [bb] *)
Definition replace_branch_by (v : Value) (b : Block) (dest no_more_dest : BranchToWithArgs) : Result Context :=
  context ← remove_pred ctx (br_block no_more_dest) b;
  context ← add_pred context (br_block dest) b;
  i ← get_instruction context v;
  i ← expect_some i "called `Option::unwrap()` on a `None` value";
  replace context v (VInstruction i.1 (IBranch dest)).

Lemma update_block_content k b c g : blocks k !! b = Some c -> update_block k b g = Ok (set_blocks k (<[b := g c]> (blocks k))).
Proof. intros Hc. unfold update_block, block_content, index, expect_some. by rewrite Hc. Qed.

(** Blocks that differ in their predecessors only *)
Definition same_code (c c' : BlockContent) : Prop := args c' = args c /\ instructions c' = instructions c.

Lemma update_preds_kept (m : gmap Block BlockContent) b c g b' c' :
  m !! b = Some c -> same_code c (g c) -> m !! b' = Some c' -> exists c1, <[b := g c]> m !! b' = Some c1 /\ same_code c' c1.
Proof.
  intros Hc Hg Hc'. destruct (decide (b = b')) as [<-|Hne]; [rewrite lookup_insert_eq; exists (g c); split; [done|congruence]|].
  rewrite lookup_insert_ne by done. by exists c'.
Qed.

Lemma replace_branch_improves b c before v after cond t e ty bb :
  at_point ctx bl b c before v after (IConditionalBranch cond t e) -> is_const ctx cond (mkConstant ty (CBool bb)) ->
  improves (replace_branch_by v b (if bb then t else e) (if bb then e else t)).
Proof.
  intros Hat Hcond. assert (Hat' := Hat). destruct Hat' as (Hb & Hc & Hi & pv & Hv). pose proof (fo_scoped _ _ _ _ _ _ Hfo) as Hsc.
  set (dest := if bb then t else e). set (other := if bb then e else t).
  assert (forall br, br = dest \/ br = other -> exists c0, blocks ctx !! br_block br = Some c0) as Htargets.
  { intros br Hbr. destruct (sc_edges _ _ _ Hsc fc b c before v after _ br Hfc Hat) as [Hin _]; [unfold dest, other in Hbr; cbn; destruct bb; set_solver|].
    destruct (sc_block _ _ _ Hsc fc _ Hfc Hin) as (c0 & Hc0 & _). by exists c0. }
  destruct (Htargets other ltac:(by right)) as [co Hco]. destruct (Htargets dest ltac:(by left)) as [cd Hcd].
  set (g1 := fun b0 => mkBlock (block_function b0) (instructions b0) (args b0) (preds b0 ∖ {[b]})).
  set (g2 := fun b0 => mkBlock (block_function b0) (instructions b0) (args b0) ({[b]} ∪ preds b0)).
  destruct (update_preds_kept (blocks ctx) _ co g1 _ cd Hco ltac:(done) Hcd) as (cd1 & Hcd1 & Hsame).
  set (m2 := <[br_block dest := g2 cd1]> (<[br_block other := g1 co]> (blocks ctx))).
  set (ctx' := mkContext (types ctx) (constants ctx) (<[v := VInstruction pv (IBranch dest)]> (values ctx)) m2 (functions ctx) (declarations ctx)).
  assert (replace_branch_by v b dest other = Ok ctx') as Hok.
  { unfold replace_branch_by, remove_pred, add_pred. rewrite (update_block_content ctx _ co _ Hco). next_step. rewrite (update_block_content (set_blocks ctx (<[br_block other := g1 co]> (blocks ctx))) _ cd1 _ Hcd1). next_step.
    unfold get_instruction, replace, value_datum, index, expect_some. cbn. rewrite Hv. cbn. done. }
  assert (forall x, values ctx' !! x = if bool_decide (x = v) then Some (VInstruction pv (IBranch dest)) else values ctx !! x) as Hval.
  { intros x. cbn. case_bool_decide as Hx; [subst x; by rewrite lookup_insert_eq|by rewrite lookup_insert_ne]. }
  assert (forall x content, is_const ctx' x content <-> is_const ctx x content) as Hisc.
  { intros x content. unfold is_const. setoid_rewrite Hval. case_bool_decide as Hx; [subst x; rewrite Hv; split; by intros (k & ? & _)|done]. }
  assert (forall u, rename (fun x => x) u = u) as Hid by (intros u; by apply rename_id).
  assert (transformed ctx ctx' f avail fc (fun _ => false) (fun x => x)) as Htr.
  { split.
    - done.
    - intros b' c' Hb' Hc'. destruct (update_preds_kept (blocks ctx) _ co g1 b' c' Hco ltac:(done) Hc') as (c1 & Hc1 & [Ha1 Hi1]).
      destruct (update_preds_kept _ _ cd1 g2 b' c1 Hcd1 ltac:(done) Hc1) as (c2 & Hc2 & [Ha2 Hi2]). exists c2. split; [done|]. split; [congruence|].
      rewrite Hi2, Hi1. clear. induction (instructions c') as [|x l IH]; [done|]. cbn. by f_equal.
    - intros b' c' before' u after' op' Hat0 _. destruct Hat0 as (_ & _ & _ & pu & Hu). rewrite Hval. case_bool_decide as Hx.
      + subst u. rewrite Hv in Hu. injection Hu as <- <-. eexists _, _. split; [done|]. right. exists cond, t, e, ty, bb. split_and!; [done..|].
        fold dest. generalize dest. intros [db da]. unfold rename_branch. cbn. by rewrite map_id.
      + exists pu, op'. split; [done|]. left. by rewrite Hid.
    - done.
    - done.
    - intros x b' i ty0 Hx. rewrite Hval. rewrite bool_decide_false; [done|]. intros ->. congruence.
    - intros x content Hx. by apply Hisc.
    - done. }
  exists ctx', (new_avail ctx' avail (fun _ => false) (fun x => x)). split; [done|]. split_and!; [|by eapply transformed_refines; [exact as_bool_const|exact Hsc|exact Hfc|exact Htr]|done|].
  - eapply foldable_transformed; [exact Hfo|exact Hfc|exact Htr|done|by apply (fo_pool _ _ _ _ _ _ Hfo)| | |done|done|].
    + intros x content Hx. left. by apply Hisc.
    + intros x k. rewrite Hval. case_bool_decide; [done|]. apply (fo_closed _ _ _ _ _ _ Hfo x k).
    + intros x Hx. rewrite Hval. case_bool_decide; [by eexists|done].
  - eapply (measure_transformed ctx' _ _ b v Htr); [by eapply point_all|]. right. unfold weight. cbn [snd]. rewrite Hval, Hv, bool_decide_true by done. lia.
Qed.
End step.
End steps.
