(* ===== verification/IrFoldMain.v ===== *)
(** * Folding computes what the machine computes

    Comparisons, binary and unary operations on constants of the right kinds: the folded
    constant is the result of the instruction, has the kind of its type, and no folding
    panics. *)

From S2P Require Import Prelude IrTypes IrTypeTheory IrConstant IrCore IrRun IrTransform IrMachine IrUnique IrFoldTheory IrFold IrFoldSteps.
Local Open Scope Z_scope.

Section constants.
Context `{IrVm} {Hlaws : IrVmLaws} (types : IrTypes.Context).

Abbreviation kind_ok := (kind_ok types).
Abbreviation scalar := (scalar types).

Lemma kind_scalar c : kind_ok c -> scalar_value (cvalue c) = true -> scalar c.
Proof.
  unfold IrFoldTheory.kind_ok. intros Hk Hs. split; [done|]. destruct (IrTypes.types types !! cty c) as [t|]; [|done]. exists t. split; [done|].
  destruct t; try done; congruence.
Qed.

Lemma kind_uint c n : kind_ok c -> cvalue c = CUint n -> is_u64 n /\ exists w, IrTypes.types types !! cty c = Some (TUint w) /\ (w =? 256) = false.
Proof.
  unfold IrFoldTheory.kind_ok. intros Hk Hc. rewrite Hc in Hk. destruct (IrTypes.types types !! cty c) as [[]|]; try done; try (by destruct Hk as (? & ?)).
  - destruct (width =? 256) eqn:Hw; [by destruct Hk as (? & ? & _)|]. destruct Hk as (m & [= <-] & Hm). split; [done|]. by exists width.
  - by destruct Hk as (? & ? & _).
Qed.

Lemma kind_u256 c n : kind_ok c -> cvalue c = CU256 n -> is_u256 n /\ exists w, IrTypes.types types !! cty c = Some (TUint w) /\ (w =? 256) = true.
Proof.
  unfold IrFoldTheory.kind_ok. intros Hk Hc. rewrite Hc in Hk. destruct (IrTypes.types types !! cty c) as [[]|]; try done; try (by destruct Hk as (? & ?)).
  - destruct (width =? 256) eqn:Hw; [|by destruct Hk as (? & ? & _)]. destruct Hk as (m & [= <-] & Hm). split; [done|]. by exists width.
  - by destruct Hk as (? & ? & _).
Qed.

Lemma const_val_uint c n : cvalue c = CUint n -> const_val c = word n.
Proof. destruct c as [ty v]. cbn. intros ->. apply const_uint. Qed.
Lemma const_val_u256 c n : cvalue c = CU256 n -> const_val c = wide n.
Proof. destruct c as [ty v]. cbn. intros ->. apply const_u256. Qed.

(** ** Comparisons *)

Lemma fold_cmp_computes p k1 k2 c1 c2 :
  kind_ok c1 -> kind_ok c2 -> cty c2 = cty c1 -> (k1 = k2 <-> c1 = c2) ->
  match IrTypes.types types !! cty c1 with Some (TUint _) | Some TB256 => True | Some TBool => p = PEqual | _ => False end ->
  exists b, fold_cmp p k1 k2 (cvalue c1) (cvalue c2) = Ok b /\ computes (cmpop p) [const_val c1; const_val c2] (bool_word b).
Proof.
  intros H1 H2 Hty Hkey Ht. unfold IrFoldTheory.kind_ok in H1, H2. rewrite Hty in H2. destruct c1 as [ty v1], c2 as [ty2 v2]. cbn in *. subst ty2.
  assert (forall l r, (v1 = v2 <-> l = r) -> bool_decide (k1 = k2) = (l =? r)) as Heq.
  { intros l r Hlr. destruct (Z.eqb_spec l r) as [Hl|Hl]; [apply bool_decide_eq_true, Hkey; f_equal; by apply Hlr|].
    apply bool_decide_eq_false. intros Hk. apply Hl, Hlr. apply Hkey in Hk. congruence. }
  destruct (IrTypes.types types !! ty) as [[]|]; try done.
  - subst p. destruct H1 as [b1 ->], H2 as [b2 ->]. exists (bool_decide (k1 = k2)). split; [done|]. rewrite !const_bool. unfold bool_word at 1 2.
    rewrite (Heq (if b1 then 1 else 0) (if b2 then 1 else 0)); [apply word_eq|]. destruct b1, b2; split; (done || congruence).
  - destruct (width =? 256); destruct H1 as (n1 & -> & _), H2 as (n2 & -> & _).
    + rewrite !const_u256. destruct p; cbn; eexists; (split; [done|]); [|apply wide_lt|apply wide_gt]. rewrite (Heq n1 n2); [apply wide_eq|split; congruence].
    + rewrite !const_uint. destruct p; cbn; eexists; (split; [done|]); [|apply word_lt|apply word_gt]. rewrite (Heq n1 n2); [apply word_eq|split; congruence].
  - destruct H1 as (n1 & -> & _), H2 as (n2 & -> & _). rewrite !const_b256. destruct p; cbn; eexists; (split; [done|]); [|apply wide_lt|apply wide_gt].
    rewrite (Heq n1 n2); [apply wide_eq|split; congruence].
Qed.
(** ** Binary operations *)

Lemma mod_pow_u64 n : is_u64 (n mod 2 ^ 64).
Proof. apply Z.mod_pos_bound. lia. Qed.

Lemma div_bound k l r : 0 <= l < 2 ^ k -> 0 < r -> 0 <= l / r < 2 ^ k.
Proof. intros Hl Hr. split; [apply Z.div_pos; lia|]. apply Z.div_lt_upper_bound; nia. Qed.

Lemma mod_bound k l r : 0 <= l < 2 ^ k -> 0 < r -> 0 <= l mod r < 2 ^ k.
Proof. intros Hl Hr. pose proof (Z.mod_pos_bound l r Hr). pose proof (Z.mod_le l r ltac:(lia) Hr). lia. Qed.

Definition folds_to (make : Z -> ConstantValue) (val : Z -> Val) (ok : Z -> Prop) (op : BinaryOpKind) (vals : list Val) (v : ConstantValue) : Prop :=
  exists n, v = make n /\ ok n /\ computes (binop op) vals (val n).

Lemma fold_words op l r v : is_u64 l -> is_u64 r -> fold_binary_op op (CUint l) (CUint r) = Some v -> folds_to CUint word is_u64 op [word l; word r] v.
Proof.
  intros Hl Hr. assert (Hl' := Hl). assert (Hr' := Hr). unfold is_u64 in Hl', Hr'. destruct (bitops_bound 64 l r ltac:(lia) Hl' Hr') as (? & ? & ?).
  unfold folds_to, fold_binary_op, u64_checked_add, u64_checked_sub, u64_checked_mul, u64_checked_div, u64_checked_rem, u64_checked_shr, u64_checked_shl.
  destruct op; rewrite ?Z.shiftr_div_pow2, ?Z.shiftl_mul_pow2 by lia; repeat case_match; intros [= <-]; eexists; (split; [done|]).
  - split; [unfold is_u64; lia|apply word_add; lia || done].
  - split; [unfold is_u64; lia|apply word_sub; lia || done].
  - split; [unfold is_u64; lia|apply word_mul; lia || done].
  - split; [apply div_bound; lia|apply word_div; lia || done].
  - split; [done|by apply word_and].
  - split; [done|by apply word_or].
  - split; [done|by apply word_xor].
  - split; [apply mod_bound; lia|apply word_mod; lia || done].
  - split; [apply div_bound; [done|apply Z.pow_pos_nonneg; lia]|apply word_shr; lia || done].
  - split; [apply mod_pow_u64|apply word_shl; lia || done].
Qed.

Lemma fold_wides op l r v : is_u256 l -> is_u256 r -> fold_binary_op op (CU256 l) (CU256 r) = Some v -> folds_to CU256 wide is_u256 op [wide l; wide r] v.
Proof.
  intros Hl Hr. assert (Hl' := Hl). assert (Hr' := Hr). unfold is_u256 in Hl', Hr'. destruct (bitops_bound 256 l r ltac:(lia) Hl' Hr') as (? & ? & ?).
  unfold folds_to, fold_binary_op, U256_checked_add, U256_checked_sub, U256_checked_mul, U256_checked_div, U256_checked_rem.
  destruct op; rewrite ?bits_fits by nia; repeat case_match; try done; intros [= <-]; eexists; (split; [done|]).
  - split; [unfold is_u256; lia|apply wide_add; lia || done].
  - split; [unfold is_u256; lia|apply wide_sub; lia || done].
  - split; [unfold is_u256; nia|apply wide_mul; lia || done].
  - split; [apply div_bound; lia|apply wide_div; lia || done].
  - split; [done|by apply wide_and].
  - split; [done|by apply wide_or].
  - split; [done|by apply wide_xor].
  - split; [apply mod_bound; lia|apply wide_mod; lia || done].
Qed.

Lemma fold_wide_shift op l r v : is_u256 l -> is_u64 r -> fold_binary_op op (CU256 l) (CUint r) = Some v -> folds_to CU256 wide is_u256 op [wide l; word r] v.
Proof.
  intros Hl Hr. assert (Hl' := Hl). assert (Hr' := Hr). unfold is_u256, is_u64 in Hl', Hr'. pose proof (Z.pow_pos_nonneg 2 r ltac:(lia) ltac:(lia)).
  unfold folds_to, fold_binary_op, U256_shr, U256_checked_shl. destruct op; try done; rewrite ?Z.shiftr_div_pow2, ?Z.shiftl_mul_pow2 by lia.
  - intros [= <-]. eexists. split; [done|]. split; [by apply div_bound|by apply wide_shr].
  - rewrite bits_fits by nia. case_match; [|done]. intros [= <-]. eexists. split; [done|]. split; [unfold is_u256; nia|]. apply wide_shl; [done|done|lia].
Qed.

(** The content that a folded instruction is replaced by *)
Definition replaces (op : InstOp) (vals : list Val) (content : ConstantContent) : Prop :=
  kind_ok content /\ scalar content /\ computes op vals (const_val content).

Lemma kind_like_uint c n m : kind_ok c -> cvalue c = CUint n -> is_u64 m -> kind_ok (mkConstant (cty c) (CUint m)).
Proof. intros Hk Hc Hm. destruct (kind_uint c n Hk Hc) as (_ & w & Hw & Hw'). unfold IrFoldTheory.kind_ok. cbn. rewrite Hw, Hw'. by exists m. Qed.
Lemma kind_like_u256 c n m : kind_ok c -> cvalue c = CU256 n -> is_u256 m -> kind_ok (mkConstant (cty c) (CU256 m)).
Proof. intros Hk Hc Hm. destruct (kind_u256 c n Hk Hc) as (_ & w & Hw & Hw'). unfold IrFoldTheory.kind_ok. cbn. rewrite Hw, Hw'. by exists m. Qed.

Lemma fold_binary_inv op v1 v2 v : fold_binary_op op v1 v2 = Some v ->
  (exists l r, v1 = CUint l /\ v2 = CUint r) \/ (exists l r, v1 = CU256 l /\ (v2 = CU256 r \/ v2 = CUint r)).
Proof. destruct op, v1, v2; try done; cbn; intros _; first [left; by eauto|right; by eauto]. Qed.

Lemma fold_binary_computes op c1 c2 v : kind_ok c1 -> kind_ok c2 -> fold_binary_op op (cvalue c1) (cvalue c2) = Some v ->
  replaces (binop op) [const_val c1; const_val c2] (mkConstant (cty c1) v).
Proof.
  intros H1 H2 Hf. enough (kind_ok (mkConstant (cty c1) v) /\ scalar_value v = true /\ computes (binop op) [const_val c1; const_val c2] (const_val (mkConstant (cty c1) v))) as (Hk & ? & ?)
    by (split_and!; [done|by apply kind_scalar|done]).
  destruct (fold_binary_inv _ _ _ _ Hf) as [(l & r & Hl & Hr)|(l & r & Hl & [Hr|Hr])]; rewrite Hl, Hr in Hf.
  - destruct (kind_uint c1 l H1 Hl) as [Hl' _], (kind_uint c2 r H2 Hr) as [Hr' _]. destruct (fold_words op l r v Hl' Hr' Hf) as (n & -> & Hn & Hcomp).
    rewrite (const_val_uint c1 l Hl), (const_val_uint c2 r Hr), const_uint. split_and!; [by eapply kind_like_uint|done|done].
  - destruct (kind_u256 c1 l H1 Hl) as [Hl' _], (kind_u256 c2 r H2 Hr) as [Hr' _]. destruct (fold_wides op l r v Hl' Hr' Hf) as (n & -> & Hn & Hcomp).
    rewrite (const_val_u256 c1 l Hl), (const_val_u256 c2 r Hr), const_u256. split_and!; [by eapply kind_like_u256|done|done].
  - destruct (kind_u256 c1 l H1 Hl) as [Hl' _], (kind_uint c2 r H2 Hr) as [Hr' _]. destruct (fold_wide_shift op l r v Hl' Hr' Hf) as (n & -> & Hn & Hcomp).
    rewrite (const_val_u256 c1 l Hl), (const_val_uint c2 r Hr), const_u256. split_and!; [by eapply kind_like_u256|done|done].
Qed.

(** ** Unary operations *)

Lemma U256_not_Ok v : is_u256 v -> U256_not v = Ok (2 ^ 256 - 1 - v).
Proof.
  intros Hv. unfold U256_not. rewrite (U256_to_be_bytes_Ok v Hv). next_step. rewrite be_value_not, be_bytes_length. by rewrite be_value_bytes.
Qed.

Lemma not_mask n : is_u64 n -> Z.land (2 ^ 64 - 1 - n) (2 ^ 64 - 1) = 2 ^ 64 - 1 - n.
Proof. intros [? ?]. change (2 ^ 64 - 1) with (Z.ones 64) at 2. rewrite Z.land_ones, Z.mod_small by lia. done. Qed.

Lemma fold_unary_computes ctx c :
  IrCore.types ctx = types -> kind_ok c -> IrTypes.types types !! cty c ∈ [Some (TUint 64); Some (TUint 256); Some TB256] ->
  exists o, fold_unary_op ctx UNot c = Ok o /\ forall v, o = Some v -> replaces (unop UNot) [const_val c] (mkConstant (cty c) v).
Proof.
  intros Ht Hk Hty. unfold fold_unary_op. rewrite Ht. destruct (cvalue c) as [| | |n|n| | | | | | |] eqn:Hc; try (exists None; by split).
  - destruct (kind_uint c n Hk Hc) as (Hn & w & Hw & Hw'). unfold get_uint_width, get_content. rewrite Hw. next_step.
    assert (w = 64) as -> by (rewrite Hw in Hty; apply elem_of_cons in Hty as [[= ->]|Hty]; [done|]; apply elem_of_cons in Hty as [[= ->]|?%list_elem_of_singleton]; done).
    exists (Some (CUint (2 ^ 64 - 1 - n))). split; [rewrite <- (not_mask n Hn) at 2; reflexivity|]. intros v [= <-]. unfold is_u64 in Hn.
    assert (is_u64 (2 ^ 64 - 1 - n)) as Hm by (unfold is_u64; lia). assert (kind_ok (mkConstant (cty c) (CUint (2 ^ 64 - 1 - n)))) by by eapply kind_like_uint.
    split_and!; [done|by apply kind_scalar|]. rewrite (const_val_uint c n Hc), const_uint. by apply word_not.
  - destruct (kind_u256 c n Hk Hc) as [Hn _]. rewrite (U256_not_Ok n Hn). next_step. eexists. split; [done|]. intros v [= <-].
    assert (is_u256 (2 ^ 256 - 1 - n)) as Hm by (unfold is_u256 in *; lia). assert (kind_ok (mkConstant (cty c) (CU256 (2 ^ 256 - 1 - n)))) by by eapply kind_like_u256.
    split_and!; [done|by apply kind_scalar|]. rewrite (const_val_u256 c n Hc), const_u256. by apply wide_not.
Qed.
End constants.

(** * Constant folding is correct

    The five searches never fail, and what each of them changes refines the function and
    makes it smaller, so that [fold_constants] ends. *)

Lemma get_bool_content context ty : context_ok context -> get_bool context = Ok ty -> IrTypes.types context !! ty = Some TBool.
Proof. intros Hctx. unfold get_bool, get_basic. destruct (get_type context TBool) as [t|] eqn:Ht; [|done]. intros [= <-]. by apply (ctx_map _ Hctx). Qed.

(** The argument that an operation with a neutral element returns *)
Lemma useless_spec `{IrVm} {Hlaws : IrVmLaws} op a1 a2 o1 o2 r : useless_binary_op op a1 a2 o1 o2 = Some r ->
  is_shift op = false /\
  ((r = a2 /\ exists n, o1 = Some (CUint n) /\ forall x w e, exec (binop op) [word n; x] w = Some e -> e = Continues x w) \/
   (r = a1 /\ exists n, o2 = Some (CUint n) /\ forall x w e, exec (binop op) [x; word n] w = Some e -> e = Continues x w)).
Proof.
  destruct op; cbn; try done; repeat case_match; try done; intros [= <-]; (split; [done|]);
    first [left; split; [done|]; eexists; split; [done|]; first [exact add_0_l|exact mul_1_l]
          |right; split; [done|]; eexists; split; [done|]; first [exact add_0_r|exact mul_1_r|exact div_1_r|exact sub_0_r]].
Qed.

Section main.
Context `{SlotMap} `{IrVm} {Hlaws : IrVmLaws} (hash : ConstantContent -> Z) (ty_of : Value -> Ty) (rank : Value -> nat).

Abbreviation foldable := (foldable hash ty_of rank).

Section search.
Context (ctx : Context) (f : Function) (avail : Block -> gset Value) (Hfo : foldable ctx f avail).
Context (fc : FunctionContent) (Hfc : functions ctx !! f = Some fc).

Abbreviation improves := (improves hash ty_of rank ctx f fc).
Abbreviation point := (at_point ctx (f_blocks fc)).

Definition improved (r : Result (Context * bool)) : Prop := exists ctx', r = Ok (ctx', true) /\ improves (Ok ctx').

(** A search leaves the function alone or improves it. *)
Definition settled (r : Result (Context * bool)) : Prop := r = Ok (ctx, false) \/ improved r.

Lemma improves_bind (r : Result Context) : improves r -> improved (context ← r; Ok (context, true)).
Proof. intros (ctx' & avail' & -> & Hrest). exists ctx'. split; [done|]. by exists ctx', avail'. Qed.

Lemma search_settled {B} (cand : Block * Value -> Result (option B)) (body : B -> Result (Context * bool)) :
  (forall b c before v after op, point b c before v after op -> exists o, cand (b, v) = Ok o /\ forall y, o = Some y -> improved (body y)) ->
  settled (l ← instruction_iter ctx f; candidate ← find_map_ok cand l; match candidate with None => Ok (ctx, false) | Some y => body y end).
Proof.
  intros Hcand. rewrite (instruction_iter_Ok _ _ _ ctx f avail Hfo fc Hfc). next_step.
  destruct (find_map_ok_spec cand (all_instructions ctx fc)) as (o & Ho & Hspec).
  { intros [b v] Hin. destruct (all_instructions_point _ _ _ ctx f avail Hfo fc Hfc b v Hin) as (c & before & after & op & Hat).
    destruct (Hcand _ _ _ _ _ _ Hat) as (o & Ho & _). by exists o. }
  rewrite Ho. next_step. destruct o as [y|]; [|by left]. right. destruct Hspec as ([b v] & Hin & Hy).
  destruct (all_instructions_point _ _ _ ctx f avail Hfo fc Hfc b v Hin) as (c & before & after & op & Hat).
  destruct (Hcand _ _ _ _ _ _ Hat) as (o & Ho' & Himp). rewrite Hy in Ho'. injection Ho' as <-. by apply Himp.
Qed.

(** The operands of a point *)
Lemma operand_constant b c before v after op x : point b c before v after op -> x ∈ get_operands op ->
  exists o, constant_of ctx x = Ok o /\ forall k content, o = Some (k, content) ->
    is_const ctx x content /\ IrConstant.constants (constants ctx) !! k = Some content /\ ty_of x = cty content /\ kind_ok (types ctx) content.
Proof.
  intros Hat Hx. destruct (fo_op _ _ _ _ _ _ Hfo fc b c before v after op Hfc Hat) as [_ Hops]. destruct (Hops x Hx) as [Hs _].
  destruct (constant_of_spec _ _ _ ctx f avail Hfo x Hs) as (o & Ho & Hspec). exists o. split; [done|]. intros k content ->. destruct Hspec as (_ & Hk & Hc).
  split_and!; [done..|apply (fo_const _ _ _ _ _ _ Hfo x content Hc)|apply (fo_const _ _ _ _ _ _ Hfo x content Hc)].
Qed.

Lemma point_typed b c before v after op : point b c before v after op -> op_typed ty_of (types ctx) v op.
Proof. intros Hat. apply (fo_op _ _ _ _ _ _ Hfo fc b c before v after op Hfc Hat). Qed.

Lemma eval_const_eq e x content a : is_const ctx x content -> eval ctx e x = Some a -> a = const_val content.
Proof. intros Hc Ha. rewrite (eval_const ctx e x content Hc) in Ha. congruence. Qed.

(** *** Conditional branches *)

Lemma bool_content content : get_bool (types ctx) = Ok (cty content) -> kind_ok (types ctx) content -> exists b, cvalue content = CBool b.
Proof.
  intros Hb Hk. pose proof (get_bool_content (types ctx) _ (fo_types _ _ _ _ _ _ Hfo) Hb) as Ht. unfold kind_ok in Hk. by rewrite Ht in Hk.
Qed.

Lemma combine_cbr_settled : settled (combine_cbr ctx f).
Proof.
  unfold combine_cbr. apply search_settled. intros b c before v after op Hat. unfold cbr_candidate. rewrite (op_of_point ctx fc _ _ _ _ _ _ Hat). next_step.
  destruct op as [| | | | | | | |cond t e| | | | | | | | | | | | | |]; try (exists None; by split).
  destruct (operand_constant _ _ _ _ _ _ cond Hat) as (o & Ho & Hc); [by left|]. rewrite Ho. next_step. destruct o as [[k content]|]; [|by exists None].
  destruct (Hc k content eq_refl) as (Hconst & _ & Hty & Hk). pose proof (point_typed _ _ _ _ _ _ Hat) as Htyped. cbn in Htyped. rewrite Hty in Htyped.
  destruct (bool_content content Htyped Hk) as [bb Hbb]. destruct content as [ty0 v0]. cbn in Hbb. subst v0.
  exists (Some (v, b, if bb then t else e, if bb then e else t)). split; [by destruct bb|]. intros y [= <-].
  pose proof (improves_bind _ (replace_branch_improves hash ty_of rank ctx f avail Hfo fc Hfc _ _ _ _ _ _ _ _ _ _ Hat Hconst)) as (ctx' & Heq & Himp).
  exists ctx'. split; [|done]. rewrite <- Heq. unfold replace_branch_by.
  destruct (remove_pred ctx _ b) as [c1|]; [|done]. next_step. destruct (add_pred c1 _ b) as [c2|]; [|done]. next_step.
  destruct (get_instruction c2 v) as [i|]; [|done]. next_step. by destruct i.
Qed.
(** *** Comparisons *)

Lemma eval_both e x1 x2 vals : mapM (eval ctx e) [x1; x2] = Some vals -> exists a1 a2, eval ctx e x1 = Some a1 /\ eval ctx e x2 = Some a2 /\ vals = [a1; a2].
Proof. cbn. destruct (eval ctx e x1) as [a1|], (eval ctx e x2) as [a2|]; try done. cbn. intros [= <-]. by exists a1, a2. Qed.

Lemma computes_both op x1 x2 c1 c2 v : is_const ctx x1 c1 -> is_const ctx x2 c2 -> computes op [const_val c1; const_val c2] v ->
  forall e vals w r, mapM (eval ctx e) [x1; x2] = Some vals -> exec op vals w = Some r -> r = Continues v w.
Proof.
  intros H1 H2 Hcomp e vals w r Hvals. destruct (eval_both e x1 x2 vals Hvals) as (a1 & a2 & Ha1 & Ha2 & ->).
  rewrite (eval_const_eq e x1 c1 a1 H1 Ha1), (eval_const_eq e x2 c2 a2 H2 Ha2), Hcomp. congruence.
Qed.

Lemma same_key k1 k2 c1 c2 : scalar (types ctx) c1 -> IrConstant.constants (constants ctx) !! k1 = Some c1 -> IrConstant.constants (constants ctx) !! k2 = Some c2 -> k1 = k2 <-> c1 = c2.
Proof. intros Hs H1 H2. split; [congruence|]. intros <-. by eapply (pl_inj _ _ _ (fo_pool _ _ _ _ _ _ Hfo)). Qed.

Lemma comparable_scalar c p : kind_ok (types ctx) c ->
  match IrTypes.types (types ctx) !! cty c with Some (TUint _) | Some TB256 => True | Some TBool => p = PEqual | _ => False end -> scalar (types ctx) c.
Proof.
  intros Hk Ht. apply kind_scalar; [done|]. unfold kind_ok in Hk. destruct (IrTypes.types (types ctx) !! cty c) as [[]|]; try done.
  - by destruct Hk as [b ->].
  - destruct (_ =? 256); by destruct Hk as (n & -> & _).
  - by destruct Hk as (n & -> & _).
Qed.

Lemma combine_cmp_settled : settled (combine_cmp hash ctx f).
Proof.
  unfold combine_cmp. apply search_settled. intros b c before v after op Hat. unfold cmp_candidate. rewrite (op_of_point ctx fc _ _ _ _ _ _ Hat). next_step.
  destruct op as [| | | | | | |p x1 x2| | | | | | | | | | | | | | |]; try (exists None; by split).
  destruct (operand_constant _ _ _ _ _ _ x1 Hat) as (o1 & Ho1 & Hc1); [by left|]. destruct (operand_constant _ _ _ _ _ _ x2 Hat) as (o2 & Ho2 & Hc2); [by right; left|].
  rewrite Ho1, Ho2. next_step. destruct o1 as [[k1 c1]|]; [|by exists None]. destruct o2 as [[k2 c2]|]; [|by exists None].
  destruct (Hc1 k1 c1 eq_refl) as (Hx1 & Hk1 & Hty1 & Hkind1), (Hc2 k2 c2 eq_refl) as (Hx2 & Hk2 & Hty2 & Hkind2).
  pose proof (point_typed _ _ _ _ _ _ Hat) as (Hbool & Hty & Ht). rewrite Hty1 in Ht. rewrite Hty1, Hty2 in Hty.
  pose proof (same_key k1 k2 c1 c2 (comparable_scalar c1 p Hkind1 Ht) Hk1 Hk2) as Hkeys.
  destruct (fold_cmp_computes (types ctx) p k1 k2 c1 c2 Hkind1 Hkind2 Hty Hkeys Ht) as (r & Hr & Hcomp). rewrite Hr. next_step.
  eexists. split; [done|]. intros y [= <-]. unfold Constant_new_bool. rewrite Hbool. next_step. apply improves_bind.
  pose proof (get_bool_content _ _ (fo_types _ _ _ _ _ _ Hfo) Hbool) as Hb.
  assert (kind_ok (types ctx) (mkConstant (ty_of v) (CBool r))) as Hkind by (unfold kind_ok; cbn; rewrite Hb; by exists r).
  eapply replace_by_constant_improves; [exact Hfo|exact Hfc|exact Hat|done|by apply kind_scalar|done|done|]. rewrite const_bool. by eapply computes_both.
Qed.

(** *** Binary operations *)

Lemma combine_binary_op_settled : settled (combine_binary_op hash ctx f).
Proof.
  unfold combine_binary_op. apply search_settled. intros b c before v after op Hat. unfold binary_candidate. rewrite (op_of_point ctx fc _ _ _ _ _ _ Hat). next_step.
  destruct op as [| |k x1 x2| | | | | | | | | | | | | | | | | | | |]; try (exists None; by split).
  destruct (operand_constant _ _ _ _ _ _ x1 Hat) as (o1 & Ho1 & Hc1); [by left|]. destruct (operand_constant _ _ _ _ _ _ x2 Hat) as (o2 & Ho2 & Hc2); [by right; left|].
  rewrite Ho1, Ho2. next_step. destruct o1 as [[k1 c1]|]; [|by exists None]. destruct o2 as [[k2 c2]|]; [|by exists None].
  destruct (Hc1 k1 c1 eq_refl) as (Hx1 & _ & Hty1 & Hkind1), (Hc2 k2 c2 eq_refl) as (Hx2 & _ & _ & Hkind2).
  pose proof (point_typed _ _ _ _ _ _ Hat) as (Hty & _). rewrite Hty1 in Hty.
  destruct (fold_binary_op k (cvalue c1) (cvalue c2)) as [value|] eqn:Hfold; [|by exists None].
  destruct (fold_binary_computes (types ctx) k c1 c2 value Hkind1 Hkind2 Hfold) as (Hkind & Hscalar & Hcomp).
  eexists. split; [done|]. intros y [= <-]. apply improves_bind.
  eapply replace_by_constant_improves; [exact Hfo|exact Hfc|exact Hat|done|done|done|done|]. by eapply computes_both.
Qed.

(** *** Operations with a neutral element *)

Lemma remove_useless_binary_op_settled : settled (remove_useless_binary_op ctx f).
Proof.
  unfold remove_useless_binary_op. apply search_settled. intros b c before v after op Hat. unfold useless_candidate. rewrite (op_of_point ctx fc _ _ _ _ _ _ Hat). next_step.
  destruct op as [| |k x1 x2| | | | | | | | | | | | | | | | | | | |]; try (exists None; by split).
  destruct (operand_constant _ _ _ _ _ _ x1 Hat) as (o1 & Ho1 & Hc1); [by left|]. destruct (operand_constant _ _ _ _ _ _ x2 Hat) as (o2 & Ho2 & Hc2); [by right; left|].
  rewrite Ho1, Ho2. next_step. set (val := fun p : ConstantKey * ConstantContent => cvalue p.2).
  exists ((fun r => (b, v, r)) <$> useless_binary_op k x1 x2 (val <$> o1) (val <$> o2)). split.
  { destruct o1, o2; try done. by destruct k. }
  intros y Hy. destruct (useless_binary_op k x1 x2 (val <$> o1) (val <$> o2)) as [r|] eqn:Hu; [|done]. injection Hy as <-.
  pose proof (point_typed _ _ _ _ _ _ Hat) as (Hty & Hty2). destruct (useless_spec k x1 x2 _ _ r Hu) as [Hshift Hr]. specialize (Hty2 Hshift).
  assert (improves (replace_by_value ctx f v b r)) as Himp.
  { eapply replace_by_value_improves; [exact Hfo|exact Hfc|exact Hat|done|cbn; destruct Hr as [[-> _]|[-> _]]; set_solver|destruct Hr as [[-> _]|[-> _]]; congruence|].
    intros e vals w eff Hvals Heff. destruct (eval_both e x1 x2 vals Hvals) as (a1 & a2 & Ha1 & Ha2 & ->).
    destruct Hr as [(-> & n & Hn & Hneutral)|(-> & n & Hn & Hneutral)].
    - exists a2. split; [done|]. destruct o1 as [[k1 c1]|]; [|done]. injection Hn as Hn. destruct (Hc1 k1 c1 eq_refl) as (Hx1 & _).
      apply Hneutral. rewrite <- (const_val_uint c1 n Hn). by rewrite <- (eval_const_eq e x1 c1 a1 Hx1 Ha1).
    - exists a1. split; [done|]. destruct o2 as [[k2 c2]|]; [|done]. injection Hn as Hn. destruct (Hc2 k2 c2 eq_refl) as (Hx2 & _).
      apply Hneutral. rewrite <- (const_val_uint c2 n Hn). by rewrite <- (eval_const_eq e x2 c2 a2 Hx2 Ha2). }
  destruct (improves_bind _ Himp) as (ctx' & Heq & Hctx'). exists ctx'. split; [|done]. rewrite <- Heq. unfold replace_by_value. by destruct (Function_replace_values ctx f _).
Qed.

(** *** Unary operations *)

Lemma combine_unary_op_settled : settled (combine_unary_op hash ctx f).
Proof.
  unfold combine_unary_op. apply search_settled. intros b c before v after op Hat. unfold unary_candidate. rewrite (op_of_point ctx fc _ _ _ _ _ _ Hat). next_step.
  destruct op as [|[] x| | | | | | | | | | | | | | | | | | | | |]; try (exists None; by split).
  destruct (operand_constant _ _ _ _ _ _ x Hat) as (o & Ho & Hc); [by left|]. rewrite Ho. next_step. destruct o as [[k content]|]; [|by exists None].
  destruct (Hc k content eq_refl) as (Hx & _ & Hty & Hkind). pose proof (point_typed _ _ _ _ _ _ Hat) as (Htv & Htypes). rewrite Hty in Htv, Htypes.
  destruct (fold_unary_computes (types ctx) ctx content eq_refl Hkind Htypes) as (o & Hf & Hcomp). rewrite Hf. next_step. destruct o as [value|]; [|by exists None].
  destruct (Hcomp value eq_refl) as (Hkind' & Hscalar & Hv). eexists. split; [done|]. intros y [= <-]. apply improves_bind.
  eapply replace_by_constant_improves; [exact Hfo|exact Hfc|exact Hat|done|done|done|done|]. intros e vals w r Hvals Hr. cbn in Hvals.
  destruct (eval ctx e x) as [a|] eqn:Ha; [|done]. injection Hvals as <-. rewrite (eval_const_eq e x content a Hx Ha) in Hr. change (erase (IUnaryOp UNot x)) with (unop UNot) in Hr. rewrite Hv in Hr. congruence.
Qed.
(** *** One step *)

Lemma settled_then (r : Result (Context * bool)) (next : Context -> Result (Context * bool)) :
  settled r -> settled (next ctx) -> settled (r ← r; if r.2 : bool then Ok r else next r.1).
Proof. intros [->|(ctx' & -> & Himp)] Hnext; [done|]. right. by exists ctx'. Qed.

Lemma fold_step_settled : settled (fold_step hash ctx f).
Proof.
  unfold fold_step. apply (settled_then _ (fun k => r ← combine_cbr k f; if (r.2 : bool) then Ok r else r ← combine_binary_op hash r.1 f;
    if (r.2 : bool) then Ok r else r ← remove_useless_binary_op r.1 f; if (r.2 : bool) then Ok r else combine_unary_op hash r.1 f) combine_cmp_settled).
  apply (settled_then _ (fun k => r ← combine_binary_op hash k f;
    if (r.2 : bool) then Ok r else r ← remove_useless_binary_op r.1 f; if (r.2 : bool) then Ok r else combine_unary_op hash r.1 f) combine_cbr_settled).
  apply (settled_then _ (fun k => r ← remove_useless_binary_op k f; if (r.2 : bool) then Ok r else combine_unary_op hash r.1 f) combine_binary_op_settled).
  apply (settled_then _ (fun k => combine_unary_op hash k f) remove_useless_binary_op_settled combine_unary_op_settled).
Qed.

(** A step that changes nothing has searched in vain. *)
Lemma fold_step_stable : fold_step hash ctx f = Ok (ctx, false) ->
  combine_cmp hash ctx f = Ok (ctx, false) /\ combine_cbr ctx f = Ok (ctx, false) /\ combine_binary_op hash ctx f = Ok (ctx, false) /\ combine_unary_op hash ctx f = Ok (ctx, false).
Proof.
  unfold fold_step. destruct combine_cmp_settled as [->|(? & -> & _)]; [|done]. cbn. destruct combine_cbr_settled as [->|(? & -> & _)]; [|done]. cbn.
  destruct combine_binary_op_settled as [->|(? & -> & _)]; [|done]. cbn. destruct remove_useless_binary_op_settled as [->|(? & -> & _)]; [|done]. done.
Qed.

Lemma search_in_vain {B} (cand : Block * Value -> Result (option B)) (body : B -> Result (Context * bool)) b c before v after op :
  (l ← instruction_iter ctx f; candidate ← find_map_ok cand l; match candidate with None => Ok (ctx, false) | Some y => body y end) = Ok (ctx, false) ->
  (forall y r, body y = Ok r -> r.2 = true) -> point b c before v after op -> cand (b, v) = Ok None.
Proof.
  rewrite (instruction_iter_Ok _ _ _ ctx f avail Hfo fc Hfc). next_step. intros Hs Hbody Hat. pose proof (point_all ctx fc _ _ _ _ _ _ Hat) as Hin.
  induction (all_instructions ctx fc) as [|p l IH]; [by apply elem_of_nil in Hin|]. cbn in Hs. destruct (cand p) as [[y|]|] eqn:Hp; [|next_step in Hs|done].
  - cbn in Hs. by specialize (Hbody y _ Hs).
  - apply elem_of_cons in Hin as [->|Hin]; [done|]. by apply IH.
Qed.
End search.

(** ** The loop *)

Lemma weight_le ctx p : (1 <= weight ctx p <= 2)%nat.
Proof. unfold weight. repeat case_match; lia. Qed.

Lemma measure_le ctx fc : (measure ctx fc <= 2 * length (all_instructions ctx fc))%nat.
Proof. unfold measure. induction (all_instructions ctx fc) as [|p l IH]; [done|]. cbn. pose proof (weight_le ctx p). lia. Qed.

(** What the loop achieves *)
Definition folded (ctx : Context) (f : Function) (ctx' : Context) : Prop :=
  (exists avail', foldable ctx' f avail') /\ refines ctx ctx' f /\ fold_step hash ctx' f = Ok (ctx', false).

Lemma fold_loop_folded n ctx f avail fc modified : foldable ctx f avail -> functions ctx !! f = Some fc -> (measure ctx fc < n)%nat ->
  exists ctx' m, fold_loop hash n ctx f modified = Ok (ctx', m) /\ folded ctx f ctx' /\ (m = modified /\ ctx' = ctx \/ m = true /\ (measure ctx' fc < measure ctx fc)%nat).
Proof.
  revert ctx avail modified. induction n as [|n IH]; intros ctx avail modified Hfo Hfc Hn; [lia|]. cbn [fold_loop].
  destruct (fold_step_settled ctx f avail Hfo fc Hfc) as [Heq|(ctx1 & Heq & ctx2 & avail' & [= <-] & Hfo' & Href & Hfc' & Hlt)]; rewrite Heq; cbn.
  - exists ctx, modified. split; [done|]. split; [|by left]. split_and!; [by exists avail|done|done].
  - destruct (IH ctx1 avail' true Hfo' Hfc' ltac:(lia)) as (ctx' & m & Hl & (Hf' & Href' & Hst) & Hm). exists ctx', m. split; [done|]. split.
    + split_and!; [done| |done]. by apply (transitivity (R := fun c c1 => refines c c1 f) (y := ctx1)).
    + right. destruct Hm as [[-> ->]|[-> ?]]; (split; [done|lia]).
Qed.

Lemma fold_constants_folded ctx f avail : foldable ctx f avail ->
  exists ctx' m, fold_constants hash ctx f = Ok (ctx', m) /\ folded ctx f ctx' /\ (m = false -> ctx' = ctx).
Proof.
  intros Hfo. destruct (sc_function _ _ _ (fo_scoped _ _ _ _ _ _ Hfo)) as (fc & _ & Hfc & _). unfold fold_constants, fold_fuel.
  rewrite (instruction_iter_Ok _ _ _ ctx f avail Hfo fc Hfc). next_step. pose proof (measure_le ctx fc).
  destruct (fold_loop_folded (S (2 * length (all_instructions ctx fc))) ctx f avail fc false Hfo Hfc ltac:(lia)) as (ctx' & m & Hl & Hf & Hm).
  exists ctx', m. split_and!; [done..|]. intros ->. by destruct Hm as [[_ ?]|[? _]].
Qed.

Lemma fold_constants_stable ctx f avail : foldable ctx f avail -> fold_step hash ctx f = Ok (ctx, false) -> fold_constants hash ctx f = Ok (ctx, false).
Proof.
  intros Hfo Hst. destruct (sc_function _ _ _ (fo_scoped _ _ _ _ _ _ Hfo)) as (fc & _ & Hfc & _). unfold fold_constants, fold_fuel.
  rewrite (instruction_iter_Ok _ _ _ ctx f avail Hfo fc Hfc). next_step. cbn [fold_loop]. by rewrite Hst.
Qed.
End main.
