(* ===== verification/IrFoldTheorem.v ===== *)
(** * A function to fold

    [fn f(x: u64)] returns [x * 1] when [x < 1 + 2], and otherwise branches back to the
    same block for as long as [true] holds. *)

From S2P Require Import Prelude IrTypes IrTypeTheory IrConstant IrCore IrRun IrTransform IrMachine IrUnique IrFoldTheory IrFold IrFoldSteps IrFoldMain.
Local Open Scope Z_scope.

Definition key_of (t : TypeContent) : Ty := default 1%positive (get_type Context_new t).
Definition bool_key : Ty := Eval vm_compute in key_of TBool.
Definition u64_key : Ty := Eval vm_compute in key_of (TUint 64).

Definition fold_pool : Constants := mkConstants
  {[ 1%positive := mkConstant u64_key (CUint 1); 2%positive := mkConstant u64_key (CUint 2); 3%positive := mkConstant bool_key (CBool true) ]}
  {[ 0 := [1; 2; 3]%positive ]}.

Definition fold_values : gmap Value ValueDatum :=
  {[ 1%positive := VArgument 1 0 u64_key; 2%positive := VConstant 1; 3%positive := VConstant 2; 4%positive := VConstant 3;
     5%positive := VInstruction 1 (IBinaryOp BAdd 2 3);
     6%positive := VInstruction 1 (ICmp PLessThan 1 5);
     7%positive := VInstruction 1 (IBinaryOp BMul 1 2);
     8%positive := VInstruction 1 (IConditionalBranch 6 (mkBranch 2 [7%positive]) (mkBranch 3 []));
     9%positive := VArgument 2 0 u64_key;
     10%positive := VInstruction 2 (IRet 9 u64_key);
     11%positive := VInstruction 3 (IConditionalBranch 4 (mkBranch 3 []) (mkBranch 2 [2%positive])) ]}.

Definition fold_blocks : gmap Block BlockContent :=
  {[ 1%positive := mkBlock 1 [5; 6; 7; 8]%positive [1%positive] ∅; 2%positive := mkBlock 1 [10%positive] [9%positive] {[1%positive; 3%positive]};
     3%positive := mkBlock 1 [11%positive] [] {[1%positive; 3%positive]} ]}.

Definition fold_function : FunctionContent := mkFunction "f" [("x", 1%positive)] u64_key [1; 2; 3]%positive 1 true false None [].
Definition fold_declarations : Declarations := mkDeclarations [(1%positive, mkModule Script [1%positive] [] [])] ∅ ∅ ∅ ∅ true.
Definition fold_ctx : Context := mkContext Context_new fold_pool fold_values fold_blocks {[ 1%positive := fold_function ]} fold_declarations.

Definition fold_ty (v : Value) : Ty := if bool_decide (v ∈ [4; 6]%positive) then bool_key else u64_key.
Definition fold_hash (c : ConstantContent) : Z := 0.

(** The ways to split a list at an element *)
Fixpoint splits {A} (l : list A) : list (list A * A * list A) :=
  match l with [] => [] | x :: l' => ([], x, l') :: map (fun '(before, y, after) => (x :: before, y, after)) (splits l') end.

Lemma splits_complete {A} (l before after : list A) v : l = before ++ v :: after -> (before, v, after) ∈ splits l.
Proof.
  revert l. induction before as [|x before IH]; intros l ->; cbn; [by left|]. right. apply list_elem_of_fmap. exists (before, v, after). split; [done|]. by apply IH.
Qed.

(** Takes the membership in a concrete list or map apart *)
Ltac members H := rewrite ?elem_of_cons, ?elem_of_nil in H; repeat (destruct H as [H|H]); [..|by destruct H].

(** Finds an element in a concrete list *)
Ltac member := first [apply list_elem_of_here|apply list_elem_of_further; member].

Lemma fold_lookup_const v k : fold_values !! v = Some (VConstant k) -> (v, k) ∈ [(2, 1); (3, 2); (4, 3)]%positive.
Proof.
  intros Hv. unfold fold_values in Hv. repeat (apply lookup_insert_Some in Hv as [[<- Hv]|[_ Hv]]; [first [done|injection Hv as <-; set_solver]|]).
  apply lookup_singleton_Some in Hv as [_ Hv]. done.
Qed.

Lemma fold_pool_lookup k c : IrConstant.constants fold_pool !! k = Some c ->
  (k, c) ∈ [(1%positive, mkConstant u64_key (CUint 1)); (2%positive, mkConstant u64_key (CUint 2)); (3%positive, mkConstant bool_key (CBool true))].
Proof.
  intros Hk. unfold fold_pool in Hk. cbn [IrConstant.constants] in Hk. repeat (apply lookup_insert_Some in Hk as [[<- <-]|[_ Hk]]; [set_solver|]).
  apply lookup_singleton_Some in Hk as [<- <-]. set_solver.
Qed.

Lemma fold_block b c : fold_blocks !! b = Some c -> (b, c) ∈ [
  (1, mkBlock 1 [5; 6; 7; 8] [1] ∅); (2, mkBlock 1 [10] [9] {[1; 3]}); (3, mkBlock 1 [11] [] {[1; 3]})]%positive.
Proof.
  intros Hc. unfold fold_blocks in Hc. repeat (apply lookup_insert_Some in Hc as [[<- <-]|[_ Hc]]; [member|]). apply lookup_singleton_Some in Hc as [<- <-]. member.
Qed.

Definition fold_ops : list (Value * InstOp) := [
  (5, IBinaryOp BAdd 2 3); (6, ICmp PLessThan 1 5); (7, IBinaryOp BMul 1 2); (8, IConditionalBranch 6 (mkBranch 2 [7]) (mkBranch 3 []));
  (10, IRet 9 u64_key); (11, IConditionalBranch 4 (mkBranch 3 []) (mkBranch 2 [2]))]%positive.

Lemma fold_op v p op : fold_values !! v = Some (VInstruction p op) -> (v, op) ∈ fold_ops.
Proof.
  intros Hv. unfold fold_values in Hv. repeat (apply lookup_insert_Some in Hv as [[<- Hv]|[_ Hv]]; [first [done|injection Hv as <- <-; member]|]).
  apply lookup_singleton_Some in Hv as [<- Hv]. injection Hv as <- <-. member.
Qed.

(** The instructions of the function, with the arguments of their blocks and the instructions before them *)
Definition fold_points : list (Block * list Value * list Value * Value * InstOp) := [
  (1, [1], [], 5, IBinaryOp BAdd 2 3);
  (1, [1], [5], 6, ICmp PLessThan 1 5);
  (1, [1], [5; 6], 7, IBinaryOp BMul 1 2);
  (1, [1], [5; 6; 7], 8, IConditionalBranch 6 (mkBranch 2 [7]) (mkBranch 3 []));
  (2, [9], [], 10, IRet 9 u64_key);
  (3, [], [], 11, IConditionalBranch 4 (mkBranch 3 []) (mkBranch 2 [2]))]%positive.

Lemma fold_point b c before v after op : at_point fold_ctx [1; 2; 3]%positive b c before v after op -> (b, args c, before, v, op) ∈ fold_points.
Proof.
  intros (Hb & Hc%fold_block & Hi%splits_complete & p & Hv%fold_op). members Hc; injection Hc as -> ->; cbn [splits map instructions] in Hi; members Hi; injection Hi as -> -> ->;
    unfold fold_ops in Hv; members Hv; injection Hv as Hv; try discriminate; subst op; member.
Qed.

Lemma u64_key_type : IrTypes.types Context_new !! u64_key = Some (TUint 64).
Proof. by vm_compute. Qed.
Lemma bool_key_type : IrTypes.types Context_new !! bool_key = Some TBool.
Proof. by vm_compute. Qed.

Lemma get_bool_key : get_bool Context_new = Ok bool_key.
Proof. by vm_compute. Qed.

#[local] Opaque Context_new.

Lemma fold_const x content : is_const fold_ctx x content ->
  (x, content) ∈ [(2%positive, mkConstant u64_key (CUint 1)); (3%positive, mkConstant u64_key (CUint 2)); (4%positive, mkConstant bool_key (CBool true))].
Proof.
  intros (k & Hx & Hk). apply fold_lookup_const in Hx. apply fold_pool_lookup in Hk. members Hx; injection Hx as -> ->; members Hk; injection Hk as Hk; try discriminate; subst content; member.
Qed.

Lemma fold_pool_ok : pool fold_hash Context_new fold_pool.
Proof.
  assert (forall k c, IrConstant.constants fold_pool !! k = Some c -> scalar Context_new c /\ k ∈ [1; 2; 3]%positive) as Hall.
  { intros k c Hk%fold_pool_lookup. members Hk; injection Hk as -> ->; (split; [split; [done|]; cbn [cty]; rewrite ?u64_key_type, ?bool_key_type; by eexists|member]). }
  split.
  - intros h l k Hl Hk. cbn in Hl. apply lookup_singleton_Some in Hl as [<- <-]. members Hk; subst k; eexists; (split; [done|]); (split; [|done]); (split; [by eexists|done]).
  - intros k c Hk _. by apply (Hall k c).
  - intros k c Hk _. exists [1; 2; 3]%positive. split; [done|]. by apply (Hall k c).
  - intros k k' c _ Hk%fold_pool_lookup Hk'%fold_pool_lookup. members Hk; injection Hk as -> Hc; subst c; members Hk'; injection Hk' as Hk'; done.
Qed.

Lemma fold_fc fc : functions fold_ctx !! 1%positive = Some fc -> fc = fold_function.
Proof. intros Hfc. cbn [functions fold_ctx] in Hfc. by apply lookup_singleton_Some in Hfc as [_ <-]. Qed.

Lemma fold_scoped : scoped fold_ctx 1 (fun _ => ∅).
Proof.
  split.
  - by exists fold_function, 1%positive; split_and!; [..|repeat constructor; set_solver].
  - intros fc b ->%fold_fc Hb. cbn [f_blocks fold_function] in Hb. members Hb; subst b; eexists; (split; [done|]); repeat constructor; set_solver.
  - intros fc b c v ->%fold_fc Hb Hc Hv. apply fold_block in Hc. members Hc; injection Hc as -> ->; cbn in Hv; members Hv; subst v; by eexists _, _.
  - intros fc b c v ->%fold_fc Hb Hc Hv. apply fold_block in Hc. members Hc; injection Hc as -> ->; cbn in Hv; members Hv; subst v; by eexists _, _, _.
  - intros fc b b' x ->%fold_fc Hb Hb' (c & Hc & Hx) (c' & Hc' & Hx'). apply fold_block in Hc, Hc'.
    members Hc; injection Hc as -> ->; members Hc'; injection Hc' as -> ->; try done; cbn in Hx, Hx'; set_solver.
  - intros fc b c before v after op x ->%fold_fc Hat Hx. apply fold_point in Hat. unfold fold_points in Hat.
    assert (forall k, k ∈ [2; 3; 4]%positive -> exists content, is_const fold_ctx k content) as Hconst by (intros k Hk; members Hk; subst k; eexists; eexists; done).
    unfold in_scope. members Hat; injection Hat as -> Ha -> -> ->; cbn in Hx; rewrite Ha; members Hx; subst x; first [left; apply Hconst; set_solver|right; set_solver].
  - intros fc b c before v after op br ->%fold_fc Hat Hbr. apply fold_point in Hat. unfold fold_points in Hat. split; [|intros x Hx; set_solver].
    members Hat; injection Hat as -> _ -> -> ->; cbn in Hbr; members Hbr; subst br; cbn; set_solver.
Qed.

Lemma fold_ctx_foldable : foldable fold_hash fold_ty Pos.to_nat fold_ctx 1 (fun _ => ∅).
Proof.
  split.
  - apply Context_new_Ok.
  - apply fold_pool_ok.
  - apply fold_scoped.
  - exists bool_key. apply get_bool_key.
  - intros x content Hx%fold_const. unfold kind_ok. members Hx; injection Hx as -> ->; cbn [types fold_ctx cty cvalue]; rewrite ?u64_key_type, ?bool_key_type; (split; [done|]); [exists 1|exists 2|exists true]; done.
  - intros x k Hx%fold_lookup_const. members Hx; injection Hx as -> ->; by eexists.
  - intros fc b c before v after op ->%fold_fc Hat. apply fold_point in Hat. unfold fold_points in Hat. split.
    + members Hat; injection Hat as -> _ -> -> ->; cbn [op_typed]; [done| |done|exact get_bool_key|done|exact get_bool_key].
      split; [exact get_bool_key|]. split; [done|]. change (fold_ty 1) with u64_key. cbn [types fold_ctx]. by rewrite u64_key_type.
    + intros x Hx. members Hat; injection Hat as -> _ -> -> ->; cbn in Hx; members Hx; subst x; (split; [by eexists|lia]).
Qed.

(** * The theorems on constant folding

    [fold_constants] of [sway-ir/src/optimize/constants.rs] returns on every well-formed
    function, keeps what the function does, and leaves nothing that it could fold. *)

(** ** What is left *)

(** An instruction with constant operands that the pass folds *)
Definition reducible (context : Context) (op : InstOp) : Prop :=
  match op with
  | ICmp _ x y => exists c1 c2, is_const context x c1 /\ is_const context y c2
  | IConditionalBranch cond _ _ => exists c, is_const context cond c
  | IBinaryOp k x y => exists c1 c2, is_const context x c1 /\ is_const context y c2 /\ is_Some (fold_binary_op k (cvalue c1) (cvalue c2))
  | IUnaryOp UNot x => exists c w, is_const context x c /\ IrTypes.types (types context) !! cty c = Some (TUint w)
  | _ => False
  end.

Section left.
Context `{SlotMap} `{IrVm} {Hlaws : IrVmLaws} (hash : ConstantContent -> Z) (ty_of : Value -> Ty) (rank : Value -> nat).
Context (ctx : Context) (f : Function) (avail : Block -> gset Value) (Hfo : foldable hash ty_of rank ctx f avail).
Context (fc : FunctionContent) (Hfc : functions ctx !! f = Some fc).

Lemma constant_of_const x content : is_const ctx x content -> exists k, constant_of ctx x = Ok (Some (k, content)).
Proof.
  intros (k & Hx & Hk). exists k. unfold constant_of, get_constant, value_datum, constant_content, index, expect_some. rewrite Hx. next_step. by rewrite Hk.
Qed.

Lemma fold_unary_Some c w : kind_ok (types ctx) c -> IrTypes.types (types ctx) !! cty c = Some (TUint w) -> w = 64 \/ w = 256 -> exists v, fold_unary_op ctx UNot c = Ok (Some v).
Proof.
  intros Hk Ht Hw. unfold kind_ok in Hk. rewrite Ht in Hk. unfold fold_unary_op. destruct Hw as [-> | ->]; cbn [Z.eqb Pos.eqb] in Hk; destruct Hk as (n & -> & Hn).
  - unfold get_uint_width, get_content. rewrite Ht. by eexists.
  - rewrite (U256_not_Ok n Hn). by eexists.
Qed.

Lemma nothing_left b c before v after op : fold_step hash ctx f = Ok (ctx, false) -> at_point ctx (f_blocks fc) b c before v after op -> ~ reducible ctx op.
Proof.
  intros Hst Hat. destruct (fold_step_stable hash ty_of rank ctx f avail Hfo fc Hfc Hst) as (Hcmp & Hcbr & Hbin & Hun).
  destruct op as [|[] x|k x y| | | | |p x y|cond t e| | | | | | | | | | | | | |]; try (by intros []); cbn [reducible].
  - intros (c0 & w & Hx & Ht). destruct (constant_of_const x c0 Hx) as [k0 Hk0]. destruct (fo_const _ _ _ _ _ _ Hfo x c0 Hx) as [Hty Hkind].
    assert (w = 64 \/ w = 256) as Hw.
    { destruct (point_typed hash ty_of rank ctx f avail Hfo fc Hfc _ _ _ _ _ _ Hat) as [_ Hin]. rewrite Hty, Ht in Hin. set_solver. }
    destruct (fold_unary_Some c0 w Hkind Ht Hw) as [value Hvalue].
    assert (unary_candidate ctx (b, v) = Ok None) as Hnone
      by (eapply search_in_vain; [exact Hfo|exact Hfc|exact Hun| |exact Hat]; intros [[? ?] ?] r Hr; by destruct (replace_by_constant _ _ _ _ _); [injection Hr as <-|]).
    revert Hnone. unfold unary_candidate. rewrite (op_of_point ctx fc _ _ _ _ _ _ Hat). next_step. rewrite Hk0. next_step. by rewrite Hvalue.
  - intros (c1 & c2 & Hx & Hy & value & Hvalue). destruct (constant_of_const x c1 Hx) as [k1 Hk1], (constant_of_const y c2 Hy) as [k2 Hk2].
    assert (binary_candidate ctx (b, v) = Ok None) as Hnone
      by (eapply search_in_vain; [exact Hfo|exact Hfc|exact Hbin| |exact Hat]; intros [[? ?] ?] r Hr; by destruct (replace_by_constant _ _ _ _ _); [injection Hr as <-|]).
    revert Hnone. unfold binary_candidate. rewrite (op_of_point ctx fc _ _ _ _ _ _ Hat). next_step. rewrite Hk1, Hk2. next_step. by rewrite Hvalue.
  - intros (c1 & c2 & Hx & Hy). destruct (constant_of_const x c1 Hx) as [k1 Hk1], (constant_of_const y c2 Hy) as [k2 Hk2].
    assert (cmp_candidate ctx (b, v) = Ok None) as Hnone
      by (eapply search_in_vain; [exact Hfo|exact Hfc|exact Hcmp| |exact Hat]; intros [[? ?] ?] r Hr; destruct (Constant_new_bool _ _); [|done]; next_step in Hr; by destruct (replace_by_constant _ _ _ _ _); [injection Hr as <-|]).
    revert Hnone. unfold cmp_candidate. rewrite (op_of_point ctx fc _ _ _ _ _ _ Hat). next_step. rewrite Hk1, Hk2. next_step. by destruct (fold_cmp _ _ _ _ _).
  - intros (c0 & Hx). destruct (constant_of_const cond c0 Hx) as [k0 Hk0].
    assert (cbr_candidate ctx (b, v) = Ok None) as Hnone.
    { eapply search_in_vain; [exact Hfo|exact Hfc|exact Hcbr| |exact Hat]. intros [[[? ?] ?] ?] r Hr. repeat (apply bind_Ok in Hr as (? & _ & Hr)). by injection Hr as <-. }
    revert Hnone. unfold cbr_candidate. rewrite (op_of_point ctx fc _ _ _ _ _ _ Hat). next_step. rewrite Hk0. next_step. by destruct c0 as [? [| |[]| | | | | | | | |]].
Qed.
End left.

Section theorems.
Context `{SlotMap} `{IrVm} {Hlaws : IrVmLaws} (hash : ConstantContent -> Z) (ty_of : Value -> Ty) (rank : Value -> nat).

(** C13. Constant folding returns on every foldable function, and the folded function is
    foldable and ends with the same outcome, a returned value or a stop of the machine,
    and the same effects wherever the function did.  A foldable function has its values in
    scope and operands of the types that the instructions expect; it applies [not] to
    integers of 64 or 256 bits only, orders integers only, and compares booleans for
    equality only. *)
Theorem fold_constants_correct ctx f avail : foldable hash ty_of rank ctx f avail ->
  exists ctx' modified, fold_constants hash ctx f = Ok (ctx', modified) /\ (exists avail', foldable hash ty_of rank ctx' f avail') /\
    forall vals w o, ends ctx f vals w o -> ends ctx' f vals w o.
Proof.
  intros Hfo. destruct (fold_constants_folded hash ty_of rank ctx f avail Hfo) as (ctx' & m & Heq & (Hfo' & [Hends _] & _) & _). by exists ctx', m.
Qed.

(** C33. Constant folding does not make a foldable function end: where the function runs
    forever, so does the folded function.  As in the theorem on outcomes, [not] is applied
    to integers of 64 or 256 bits only, and booleans are compared for equality only. *)
Theorem fold_constants_diverges ctx f avail ctx' modified vals w : foldable hash ty_of rank ctx f avail ->
  fold_constants hash ctx f = Ok (ctx', modified) -> diverges ctx f vals w -> diverges ctx' f vals w.
Proof.
  intros Hfo Heq. destruct (fold_constants_folded hash ty_of rank ctx f avail Hfo) as (ctx1 & m & Heq' & (_ & [_ Hdiv] & _) & _).
  rewrite Heq in Heq'. injection Heq' as <- _. apply Hdiv.
Qed.

(** C34. Constant folding folds all that it can: no instruction is left whose operands are
    constants and that it could fold, a second run changes nothing, and the pass reports no
    change only when it made none. *)
Theorem fold_constants_complete ctx f avail ctx' modified : foldable hash ty_of rank ctx f avail -> fold_constants hash ctx f = Ok (ctx', modified) ->
  (forall fc b c before v after op, functions ctx' !! f = Some fc -> at_point ctx' (f_blocks fc) b c before v after op -> ~ reducible ctx' op) /\
  fold_constants hash ctx' f = Ok (ctx', false) /\ (modified = false -> ctx' = ctx).
Proof.
  intros Hfo Heq. destruct (fold_constants_folded hash ty_of rank ctx f avail Hfo) as (ctx1 & m & Heq' & ([avail' Hfo'] & _ & Hst) & Hm).
  rewrite Heq in Heq'. injection Heq' as <- <-. split_and!; [|by eapply fold_constants_stable|done].
  intros fc b c before v after op Hfc Hat. by eapply nothing_left.
Qed.
End theorems.

(** ** On the sample *)

Section sample.
Import SampleVm.

Definition returns (p : @Progress vm) (n : Z) : bool := match p with Finished (Returned (Word m) []) => m =? n | _ => false end.

Lemma returns_spec p n : returns p n = true -> p = Finished (@Returned vm (Word n) []).
Proof. destruct p as [|[[m| |] [|]|]|]; try done. intros Hm%Z.eqb_eq. by subst m. Qed.

Lemma fold_ctx_ends : @ends vm fold_ctx 1 [Word 2] [] (@Returned vm (Word 2) []).
Proof.
  assert (match @start vm fold_ctx 1 [Word 2] [] with Some st => returns (run fold_ctx 5 st) 2 | None => false end = true) as Hrun by by vm_compute.
  destruct (@start vm fold_ctx 1 [Word 2] []) as [st|] eqn:Hst; [|done]. exists st, 5%nat. split; [done|]. by apply returns_spec.
Qed.

Lemma fold_constants_correct_witness : exists ctx' modified, fold_constants fold_hash fold_ctx 1 = Ok (ctx', modified) /\ @ends vm ctx' 1 [Word 2] [] (@Returned vm (Word 2) []).
Proof.
  destruct (fold_constants_correct fold_hash fold_ty Pos.to_nat fold_ctx 1 _ fold_ctx_foldable) as (ctx' & modified & Heq & _ & Hends).
  exists ctx', modified. split; [exact Heq|exact (Hends _ _ _ fold_ctx_ends)].
Defined.

Definition in_loop (p : @Progress vm) : bool := match p with Running st => bool_decide (cur st = 3%positive) && bool_decide (rest st = [11%positive]) | _ => false end.

Lemma loop_step e w : @step vm fold_ctx (mkState 3 [11%positive] e w) = Some (inl (mkState 3 [11%positive] e w)).
Proof.
  unfold step. cbn [rest]. change (values fold_ctx !! 11%positive) with (Some (VInstruction 3 (IConditionalBranch 4 (mkBranch 3 []) (mkBranch 2 [2%positive])))).
  cbn [env world]. rewrite (eval_const fold_ctx e 4 (mkConstant bool_key (CBool true))) by (eexists; by split). cbn [mbind option_bind const_val of_constant as_bool vm].
  unfold enter. cbn [mapM br_args br_block mbind option_bind]. change (blocks fold_ctx !! 3%positive) with (Some (mkBlock 1 [11%positive] [] {[1%positive; 3%positive]})).
  cbn. unfold bind_args. cbn. by rewrite (left_id_L ∅ (∪)).
Qed.

Lemma fold_ctx_diverges : @diverges vm fold_ctx 1 [Word 5] [].
Proof.
  assert (match @start vm fold_ctx 1 [Word 5] [] with Some st => in_loop (run fold_ctx 4 st) | None => false end = true) as Hrun by by vm_compute.
  destruct (@start vm fold_ctx 1 [Word 5] []) as [st|] eqn:Hst; [|done]. exists st. split; [done|]. intros n.
  destruct (run fold_ctx 4 st) as [[c l e w]| |] eqn:H4; [|done|done]. apply andb_true_iff in Hrun as [Hc%bool_decide_eq_true Hl%bool_decide_eq_true]. cbn in Hc, Hl. subst c l.
  apply (run_less fold_ctx n 4 st (mkState 3 [11%positive] e w)). rewrite Nat.add_comm, (run_more fold_ctx 4 n st _ H4). apply run_loop, loop_step.
Qed.

Lemma fold_constants_diverges_witness : exists ctx' modified, fold_constants fold_hash fold_ctx 1 = Ok (ctx', modified) /\ @diverges vm ctx' 1 [Word 5] [].
Proof.
  destruct (fold_constants_folded fold_hash fold_ty Pos.to_nat fold_ctx 1 _ fold_ctx_foldable) as (ctx' & modified & Heq & _).
  exists ctx', modified. split; [done|]. exact (fold_constants_diverges fold_hash fold_ty Pos.to_nat fold_ctx 1 _ ctx' modified _ _ fold_ctx_foldable Heq fold_ctx_diverges).
Defined.

Lemma fold_constants_complete_witness : exists ctx' modified, fold_constants fold_hash fold_ctx 1 = Ok (ctx', modified) /\ fold_constants fold_hash ctx' 1 = Ok (ctx', false).
Proof.
  destruct (fold_constants_folded fold_hash fold_ty Pos.to_nat fold_ctx 1 _ fold_ctx_foldable) as (ctx' & modified & Heq & _).
  exists ctx', modified. split; [done|]. apply (fold_constants_complete fold_hash fold_ty Pos.to_nat fold_ctx 1 _ ctx' modified fold_ctx_foldable Heq).
Defined.

(** The sum is 3, the product is the argument, and the branch of the loop is unconditional. *)
Example fold_ctx_result : exists ctx', fold_constants fold_hash fold_ctx 1 = Ok (ctx', true) /\
  instructions <$> blocks ctx' !! 1%positive = Some [6; 8]%positive /\
  values ctx' !! 8%positive = Some (VInstruction 1 (IConditionalBranch 6 (mkBranch 2 [1%positive]) (mkBranch 3 []))) /\
  values ctx' !! 11%positive = Some (VInstruction 3 (IBranch (mkBranch 3 []))) /\
  is_const ctx' 5 (mkConstant u64_key (CUint 3)).
Proof. eexists. split; [vm_compute; reflexivity|]. split_and!; [by vm_compute..|]. eexists. split; by vm_compute. Qed.
End sample.

(** ** Narrow complements

    The complement of a [u8] is folded to 8 bits, but the instruction that
    [fuel_asm_builder.rs] emits for it is the 64-bit complement. *)
Lemma fold_narrow_not `{IrVm} {Hlaws : IrVmLaws} ctx ty :
  IrTypes.types (types ctx) !! ty = Some (TUint 8) ->
  fold_unary_op ctx UNot (mkConstant ty (CUint 0)) = Ok (Some (CUint 255)) /\ computes (unop UNot) [const_val (mkConstant ty (CUint 0))] (word (2 ^ 64 - 1)).
Proof.
  intros Ht. split.
  - unfold fold_unary_op, get_uint_width, get_content. cbn [cvalue cty]. by rewrite Ht.
  - rewrite const_uint. apply (word_not 0). unfold is_u64. lia.
Qed.
