(* ===== verification/IrVerify.v ===== *)
(** * The verifier of the IR

    [sway-ir/src/verify.rs], and the types of values of [value.rs] and [instruction.rs].  An
    error is its constructor, without the texts and values it carries; what is printed on
    an error is left out. *)

From S2P Require Import Prelude IrTypes IrConstant IrCore.
From Stdlib Require Import Ascii.
Local Open Scope Z_scope.

(** ** Results *)

Definition ir_error {A} (e : string) : Result A := Err (Internal e).

(** [ok_or] *)
Definition ok_or {A} (o : option A) (e : string) : Result A := match o with Some a => Ok a | None => ir_error e end.

(** An error unless the condition holds *)
Definition check (cond : Result bool) (e : string) : Result unit := b ← cond; if (b : bool) then Ok () else ir_error e.

(** [&&] and [||] of several conditions *)
Definition all_true (l : list (Result bool)) : Result bool := all_ok (fun x => x) l.
Definition any_true (l : list (Result bool)) : Result bool := any_ok (fun x => x) l.

(** [for .. { ..?; }] *)
Fixpoint for_each {A} (f : A -> Result unit) (l : list A) : Result unit :=
  match l with [] => Ok () | x :: l' => _ ← f x; for_each f l' end.

Section context.
Context (context : Context).

(** ** Types of values *)

Definition module_content (self : Module_) : Result ModuleContent :=
  expect_some (snd <$> List.find (fun p => bool_decide (p.1 = self)) (modules (declarations context))) "invalid SlotMap key used".
Definition function_iter (self : Module_) : Result (list Function) := m ← module_content self; Ok (m_functions m).
Definition get_config (self : Module_) (name : string) : Result (option ConfigContent) :=
  m ← module_content self;
  Ok (snd <$> List.find (fun p => bool_decide (p.1 = name)) (m_configs m)).

Definition LocalVar_get_type (self : LocalVar) : Result Ty := v ← index (local_vars (declarations context)) self; Ok (lv_ptr_ty v).
Definition GlobalVar_get_type (self : GlobalVar) : Result Ty := v ← index (global_vars (declarations context)) self; Ok (gv_ptr_ty v).
Definition is_mutable (self : GlobalVar) : Result bool := v ← index (global_vars (declarations context)) self; Ok (gv_mutable v).
Definition get_initializer (self : GlobalVar) : Result (option ConstantKey) := v ← index (global_vars (declarations context)) self; Ok (gv_initializer v).

(** [Option::and_then] on types *)
Definition pointee (o : option Ty) : Result (option Ty) := match o with Some ty => get_pointee_type (types context) ty | None => Ok None end.

(** [InstOp::get_type]; [get_type] gives the type of an operand. *)
Definition InstOp_get_type (get_type : Value -> Result (option Ty)) (self : InstOp) : Result (option Ty) :=
  match self with
  | IAsmBlock asm_block _ => Ok (Some (asm_return_type asm_block))
  | IUnaryOp _ arg => get_type arg
  | IBinaryOp _ arg1 _ => get_type arg1
  | IBitCast _ ty => Ok (Some ty)
  | ICall function _ => f ← function_content context function; Ok (Some (f_return_type f))
  | ICastPtr _ ty => Ok (Some ty)
  | ICmp _ _ _ => Some <$> get_bool (types context)
  | IContractCall return_type _ _ _ _ _ => Ok (Some return_type)
  | IFuelVm (FGtf _ _) => Some <$> get_uint64 (types context)
  | IFuelVm (FLog _ _ _) => Some <$> get_unit (types context)
  | IFuelVm (FReadRegister _) => Some <$> get_uint64 (types context)
  | IFuelVm (FSmo _ _ _ _) => Some <$> get_unit (types context)
  | ILoad ptr_val => o ← get_type ptr_val; pointee o
  | IGetElemPtr _ elem_ptr_ty _ => Ok (Some elem_ptr_ty)
  | IGetLocal local_var => Some <$> LocalVar_get_type local_var
  | IGetGlobal global_var => Some <$> GlobalVar_get_type global_var
  | IGetConfig module name =>
      o ← get_config module name;
      Ok (match o with Some (ConfigV0 _ _ ptr_ty _ _) | Some (ConfigV1 _ _ ptr_ty _ _ _) => Some ptr_ty | None => None end)
  | IIntToPtr _ ptr_ty => Ok (Some ptr_ty)
  | IPtrToInt _ int_ty => Ok (Some int_ty)
  | IBranch _ | IConditionalBranch _ _ _ | IFuelVm (FRevert _ | FJmpMem | FRetd _ _) | IRet _ _ => Ok None
  | INop => Ok None
  | IFuelVm (FStateLoadWord _) => Some <$> get_uint64 (types context)
  | IFuelVm (FStateClear _ _ | FStateLoadQuadWord _ _ _ | FStateStoreQuadWord _ _ _ | FStateStoreWord _ _) => Some <$> get_bool (types context)
  | IMemCopyBytes _ _ _ | IMemCopyVal _ _ | IStore _ _ => Some <$> get_unit (types context)
  | IFuelVm (FWideUnaryOp _ result _ | FWideBinaryOp _ result _ _ | FWideModularOp _ result _ _ _) => get_type result
  | IFuelVm (FWideCmpOp _ _ _) => Some <$> get_bool (types context)
  end.

(** [Value::get_type] *)
Fixpoint get_type_fuel (fuel : nat) (self : Value) : Result (option Ty) :=
  match fuel with
  | O => Err OutOfFuel
  | S fuel' =>
      d ← value_datum context self;
      match d with
      | VArgument _ _ ty => Ok (Some ty)
      | VConstant c => content ← constant_content context c; Ok (Some (cty content))
      | VInstruction _ op => InstOp_get_type (get_type_fuel fuel') op
      end
  end.

(** The values on a way from an instruction through its operands differ. *)
Definition get_type (self : Value) : Result (option Ty) := get_type_fuel (S (size (values context))) self.

Definition match_ptr_type (self : Value) : Result (option Ty) := o ← get_type self; pointee o.

(** ** Common checks *)

(** [TypeOption::is] *)
Definition type_is (pred : IrTypes.Context -> Ty -> Result bool) (o : option Ty) : Result bool :=
  match o with Some ty => pred (types context) ty | None => Ok false end.
Definition value_is (pred : IrTypes.Context -> Ty -> Result bool) (v : Value) : Result bool := o ← get_type v; type_is pred o.

Definition typed (v : Value) (e : string) : Result Ty := o ← get_type v; ok_or o e.

Definition opt_ty_not_eq (l_ty r_ty : option Ty) : Result bool :=
  match l_ty, r_ty with
  | Some l, Some r => b ← Type_eq (types context) l r; Ok (negb b)
  | _, _ => Ok true
  end.

Definition get_ptr_type (val : Value) (err : string) : Result Ty :=
  o ← get_type val;
  ptr_ty ← ok_or o err;
  o ← get_pointee_type (types context) ptr_ty;
  ok_or o err.

Definition type_bit_size (ty : Ty) : Result (option Z) :=
  small ← any_true [is_unit (types context) ty; is_bool (types context) ty];
  if (small : bool) then Ok (Some 1)
  else
    u ← is_uint (types context) ty;
    if (u : bool) then w ← get_uint_width (types context) ty; w ← expect_some w "called `Option::unwrap()` on a `None` value"; Ok (Some w)
    else b ← is_b256 (types context) ty; Ok (if (b : bool) then Some 256 else None).

Definition is_some_and (f : Z -> bool) (o : option Z) : bool := match o with Some n => f n | None => false end.

(** ** Instructions *)

Section verifier.
Context (cur_module : Module_) (cur_function : Function) (cur_block : Block).

Definition verify_bitcast (value : Value) (ty : Ty) : Result unit :=
  val_ty ← typed value "VerifyBitcastUnknownSourceType";
  s1 ← type_bit_size val_ty;
  s2 ← (if is_some_and (fun sz => 64 <? sz) s1 then Ok None else type_bit_size ty);
  if is_some_and (fun sz => 64 <? sz) s1 || is_some_and (fun sz => 64 <? sz) s2 then ir_error "VerifyBitcastBetweenInvalidTypes" else Ok ().

Definition verify_unary_op (op : UnaryOpKind) (arg : Value) : Result unit :=
  arg_ty ← typed arg "VerifyUnaryOpIncorrectArgType";
  match op with
  | UNot => check (any_true [is_uint (types context) arg_ty; is_b256 (types context) arg_ty]) "VerifyUnaryOpIncorrectArgType"
  end.

Abbreviation bad_arg := "VerifyBinaryOpIncorrectArgType".

Definition verify_wide_cmp (op : Predicate) (arg1 arg2 : Value) : Result unit :=
  arg1_ty ← typed arg1 bad_arg;
  arg2_ty ← typed arg2 bad_arg;
  check (all_true [is_ptr (types context) arg1_ty; is_ptr (types context) arg2_ty]) bad_arg.

Definition verify_wide_modular_op (op : BinaryOpKind) (result arg1 arg2 arg3 : Value) : Result unit :=
  result_ty ← typed result bad_arg;
  arg1_ty ← typed arg1 bad_arg;
  arg2_ty ← typed arg2 bad_arg;
  arg3_ty ← typed arg3 bad_arg;
  check (all_true [is_ptr (types context) arg1_ty; is_ptr (types context) arg2_ty; is_ptr (types context) arg3_ty; is_ptr (types context) result_ty]) bad_arg.

Definition verify_wide_binary_op (op : BinaryOpKind) (result arg1 arg2 : Value) : Result unit :=
  result_ty ← typed result bad_arg;
  arg1_ty ← typed arg1 bad_arg;
  arg2_ty ← typed arg2 bad_arg;
  match op with
  | BLsh | BRsh => check (all_true [is_ptr (types context) arg1_ty; is_uint64 (types context) arg2_ty; is_ptr (types context) result_ty]) bad_arg
  | BAdd | BSub | BMul | BDiv | BAnd | BOr | BXor | BMod =>
      check (all_true [is_ptr (types context) arg1_ty; is_ptr (types context) arg2_ty; is_ptr (types context) result_ty]) bad_arg
  end.

Definition verify_wide_unary_op (op : UnaryOpKind) (result arg : Value) : Result unit :=
  result_ty ← typed result bad_arg;
  arg_ty ← typed arg bad_arg;
  check (all_true [is_ptr (types context) arg_ty; is_ptr (types context) result_ty]) bad_arg.

Definition verify_binary_op (op : BinaryOpKind) (arg1 arg2 : Value) : Result unit :=
  arg1_ty ← typed arg1 bad_arg;
  arg2_ty ← typed arg2 bad_arg;
  match op with
  | BLsh | BRsh =>
      is_lhs_ok ← any_true [is_uint (types context) arg1_ty; is_b256 (types context) arg1_ty];
      check (all_true [Ok is_lhs_ok; is_uint (types context) arg2_ty]) bad_arg
  | BAdd | BSub | BMul | BDiv | BMod => check (all_true [Type_eq (types context) arg1_ty arg2_ty; is_uint (types context) arg1_ty]) bad_arg
  | BAnd | BOr | BXor =>
      check (all_true [Type_eq (types context) arg1_ty arg2_ty; any_true [is_uint (types context) arg1_ty; is_b256 (types context) arg1_ty]]) bad_arg
  end.

(** The types of the arguments are compared, but a difference is not reported. *)
Definition verify_dest_args (dest : BranchToWithArgs) : Result unit :=
  n ← num_args context (br_block dest);
  if negb (n =? length (br_args dest))%nat then ir_error "VerifyBranchParamsMismatch"
  else
    b ← block_content context (br_block dest);
    for_each (fun p : nat * Value =>
      match br_args dest !! p.1 with
      | Some actual =>
          o ← get_type p.2; dest_ty ← expect_some o "called `Option::unwrap()` on a `None` value";
          o ← get_type actual; actual_ty ← expect_some o "called `Option::unwrap()` on a `None` value";
          _ ← Type_eq (types context) dest_ty actual_ty; Ok ()
      | None => Ok ()
      end) (imap pair (args b)).

Definition in_function (b : Block) : Result bool := l ← block_iter context cur_function; Ok (bool_decide (b ∈ l)).

Definition verify_br (dest_block : BranchToWithArgs) : Result unit :=
  here ← in_function (br_block dest_block);
  if negb here then _ ← block_content context (br_block dest_block); ir_error "VerifyBranchToMissingBlock" else verify_dest_args dest_block.

Definition verify_cbr (cond_val : Value) (true_block false_block : BranchToWithArgs) : Result unit :=
  _ ← check (value_is is_bool cond_val) "VerifyConditionExprNotABool";
  here ← in_function (br_block true_block);
  if negb here then _ ← block_content context (br_block true_block); ir_error "VerifyBranchToMissingBlock"
  else
    here ← in_function (br_block false_block);
    if negb here then _ ← block_content context (br_block false_block); ir_error "VerifyBranchToMissingBlock"
    else _ ← verify_dest_args true_block; verify_dest_args false_block.

Definition verify_call (callee : Function) (args : list Value) : Result unit :=
  callee_content ← function_content context callee;
  l ← function_iter cur_module;
  _ ← check (Ok (bool_decide (callee ∈ l))) "VerifyCallToMissingFunction";
  callee_arg_types ← traverse (fun p : string * Value =>
    d ← value_datum context p.2; match d with VArgument _ _ ty => Ok ty | _ => ir_error "VerifyArgumentValueIsNotArgument" end) (f_arguments callee_content);
  for_each (fun p : Value * Ty =>
    o ← get_type p.1;
    caller_arg_type ← ok_or o "VerifyUntypedValuePassedToFunction";
    check (Type_eq (types context) caller_arg_type p.2) "VerifyCallArgTypeMismatch") (zip args callee_arg_types).

Definition verify_cast_ptr (val : Value) (ty : Ty) : Result unit :=
  _ ← get_ptr_type val "VerifyPtrCastFromNonPointer";
  check (is_ptr (types context) ty) "VerifyPtrCastToNonPointer".

Definition verify_cmp (pred : Predicate) (lhs_value rhs_value : Value) : Result unit :=
  l ← get_type lhs_value;
  r ← get_type rhs_value;
  match l, r with
  | Some lhs_ty, Some rhs_ty =>
      _ ← check (Type_eq (types context) lhs_ty rhs_ty) "VerifyCmpTypeMismatch";
      check (any_true [is_bool (types context) lhs_ty; is_uint (types context) lhs_ty; is_b256 (types context) lhs_ty]) "VerifyCmpBadTypes"
  | _, _ => ir_error "VerifyCmpUnknownTypes"
  end.

Definition verify_contract_call (params coins asset_id gas : Value) : Result unit :=
  if new_encoding (declarations context) then Ok ()
  else
    o ← match_ptr_type params;
    fields ← match o with Some ty => get_field_types (types context) ty | None => Ok [] end;
    _ ← check (match fields with
               | [f0; f1; f2] => all_true [is_b256 (types context) f0; is_uint64 (types context) f1; is_uint64 (types context) f2]
               | _ => Ok false
               end) "VerifyContractCallBadTypes";
    _ ← check (value_is is_uint64 coins) "VerifyContractCallBadTypes";
    _ ← check (o ← match_ptr_type asset_id; type_is is_b256 o) "VerifyContractCallBadTypes";
    check (value_is is_uint64 gas) "VerifyContractCallBadTypes".

(** A step of the search for the type of an element *)
Definition index_by_value (ty : Ty) (idx_val : Value) : Result (option Ty) :=
  o ← get_constant context idx_val;
  idx ← match o with
        | Some c => content ← constant_content context c; Ok (match cvalue content with CUint n => Some n | _ => None end)
        | None => Ok None
        end;
  field ← match idx with Some idx => get_field_type (types context) ty idx | None => Ok None end;
  match field with Some f => Ok (Some f) | None => get_array_elem_type (types context) ty end.

Definition verify_get_elem_ptr (base : Value) (elem_ptr_ty : Ty) (indices : list Value) : Result unit :=
  base_ty ← get_ptr_type base "VerifyGepFromNonPointer";
  _ ← check (is_aggregate (types context) base_ty) "VerifyGepOnNonAggregate";
  o ← get_pointee_type (types context) elem_ptr_ty;
  elem_inner_ty ← ok_or o "VerifyGepElementTypeNonPointer";
  match indices with
  | [] => ir_error "VerifyGepInconsistentTypes"
  | _ =>
      index_ty ← try_fold index_by_value base_ty indices;
      differ ← opt_ty_not_eq (Some elem_inner_ty) index_ty;
      if (differ : bool) then ir_error "VerifyGepInconsistentTypes" else Ok ()
  end.

Definition verify_get_local (local_var : LocalVar) : Result unit :=
  f ← function_content context cur_function;
  check (Ok (bool_decide (local_var ∈ (f_local_storage f).*2))) "VerifyGetNonExistentPointer".
Definition verify_get_global (global_var : GlobalVar) : Result unit :=
  m ← module_content cur_module;
  check (Ok (bool_decide (global_var ∈ (m_global_variables m).*2))) "VerifyGetNonExistentPointer".
Definition verify_get_config (module : Module_) (name : string) : Result unit :=
  m ← module_content module;
  check (Ok (bool_decide (name ∈ (m_configs m).*1))) "VerifyGetNonExistentPointer".
Definition verify_gtf (index : Value) (tx_field_id : Z) : Result unit := check (value_is is_uint index) "VerifyInvalidGtfIndexType".

Definition verify_int_to_ptr (value : Value) (ty : Ty) : Result unit :=
  val_ty ← typed value "VerifyIntToPtrUnknownSourceType";
  _ ← check (is_uint (types context) val_ty) "VerifyIntToPtrFromNonIntegerType";
  check (is_ptr (types context) ty) "VerifyIntToPtrToNonPointer".

Definition verify_load (src_val : Value) : Result unit := _ ← get_ptr_type src_val "VerifyLoadFromNonPointer"; Ok ().

Definition verify_log (log_val : Value) (log_ty : Ty) (log_id : Value) : Result unit :=
  _ ← check (value_is is_uint64 log_id) "VerifyLogId";
  o ← get_type log_val;
  differ ← opt_ty_not_eq o (Some log_ty);
  if (differ : bool) then ir_error "VerifyLogMismatchedTypes" else Ok ().

Definition verify_mem_copy_bytes (dst_val_ptr src_val_ptr : Value) (byte_len : Z) : Result unit :=
  _ ← get_ptr_type dst_val_ptr "VerifyMemcopyNonPointer";
  _ ← get_ptr_type src_val_ptr "VerifyMemcopyNonPointer";
  Ok ().

Definition verify_mem_copy_val (dst_val_ptr src_val_ptr : Value) : Result unit :=
  dst_ty ← get_ptr_type dst_val_ptr "VerifyMemcopyNonPointer";
  src_ty ← get_ptr_type src_val_ptr "VerifyMemcopyNonPointer";
  check (Type_eq (types context) dst_ty src_ty) "VerifyMemcopyMismatchedTypes".

Definition verify_ptr_to_int (val : Value) (ty : Ty) : Result unit := check (is_uint (types context) ty) "VerifyPtrToIntToNonInteger".

Definition verify_ret (val : Value) (ty : Ty) : Result unit :=
  f ← function_content context cur_function;
  same ← Type_eq (types context) (f_return_type f) ty;
  differ ← (if (same : bool) then o ← get_type val; opt_ty_not_eq o (Some ty) else Ok true);
  if (differ : bool) then ir_error "VerifyReturnMismatchedTypes" else Ok ().

Definition verify_revert (val : Value) : Result unit := check (value_is is_uint64 val) "VerifyRevertCodeBadType".

Definition verify_smo (recipient message message_size coins : Value) : Result unit :=
  recipient ← get_ptr_type recipient "VerifySmoRecipientNonPointer";
  _ ← check (is_b256 (types context) recipient) "VerifySmoRecipientBadType";
  struct_ty ← get_ptr_type message "VerifySmoMessageNonPointer";
  _ ← check (is_struct (types context) struct_ty) "VerifySmoBadMessageType";
  fields ← get_field_types (types context) struct_ty;
  _ ← check (Ok (length fields =? 2)%nat) "VerifySmoBadMessageType";
  _ ← check (value_is is_uint64 message_size) "VerifySmoMessageSize";
  check (value_is is_uint64 coins) "VerifySmoCoins".

(** A key in storage *)
Definition verify_key (key : Value) : Result unit :=
  key_type ← get_ptr_type key "VerifyStateKeyNonPointer";
  check (is_b256 (types context) key_type) "VerifyStateKeyBadType".

Definition verify_state_clear (key number_of_slots : Value) : Result unit :=
  _ ← verify_key key;
  check (value_is is_uint number_of_slots) "VerifyStateAccessNumOfSlots".

Definition verify_state_access_quad (dst_val key number_of_slots : Value) : Result unit :=
  dst_ty ← get_ptr_type dst_val "VerifyStateAccessQuadNonPointer";
  _ ← check (is_b256 (types context) dst_ty) "VerifyStateDestBadType";
  _ ← verify_key key;
  check (value_is is_uint number_of_slots) "VerifyStateAccessNumOfSlots".

Definition verify_state_load_word (key : Value) : Result unit := verify_key key.

Definition verify_state_store_word (dst_val key : Value) : Result unit :=
  _ ← verify_key key;
  ok ← value_is is_uint dst_val;
  if (ok : bool) then Ok () else _ ← get_uint64 (types context); ir_error "VerifyStateDestBadType".

Definition verify_store (dst_val stored_val : Value) : Result unit :=
  dst_ty ← get_ptr_type dst_val "VerifyStoreToNonPointer";
  stored_ty ← get_type stored_val;
  differ ← opt_ty_not_eq (Some dst_ty) stored_ty;
  if (differ : bool) then ir_error "VerifyStoreMismatchedTypes" else Ok ().

Definition verify_fuel_vm (fuel_vm_instr : FuelVmInstruction) : Result unit :=
  match fuel_vm_instr with
  | FGtf index tx_field_id => verify_gtf index tx_field_id
  | FLog log_val log_ty log_id => verify_log log_val log_ty log_id
  | FReadRegister _ => Ok ()
  | FJmpMem => Ok ()
  | FRevert val => verify_revert val
  | FSmo recipient message message_size coins => verify_smo recipient message message_size coins
  | FStateClear key number_of_slots => verify_state_clear key number_of_slots
  | FStateLoadWord key => verify_state_load_word key
  | FStateLoadQuadWord dst_val key number_of_slots | FStateStoreQuadWord dst_val key number_of_slots => verify_state_access_quad dst_val key number_of_slots
  | FStateStoreWord dst_val key => verify_state_store_word dst_val key
  | FWideUnaryOp op result arg => verify_wide_unary_op op result arg
  | FWideBinaryOp op result arg1 arg2 => verify_wide_binary_op op result arg1 arg2
  | FWideModularOp op result arg1 arg2 arg3 => verify_wide_modular_op op result arg1 arg2 arg3
  | FWideCmpOp op arg1 arg2 => verify_wide_cmp op arg1 arg2
  | FRetd _ _ => Ok ()
  end.

Definition verify_op (op : InstOp) : Result unit :=
  match op with
  | IAsmBlock _ _ => Ok ()
  | IBitCast value ty => verify_bitcast value ty
  | IUnaryOp op arg => verify_unary_op op arg
  | IBinaryOp op arg1 arg2 => verify_binary_op op arg1 arg2
  | IBranch block => verify_br block
  | ICall func args => verify_call func args
  | ICastPtr val ty => verify_cast_ptr val ty
  | ICmp pred lhs_value rhs_value => verify_cmp pred lhs_value rhs_value
  | IConditionalBranch cond_value true_block false_block => verify_cbr cond_value true_block false_block
  | IContractCall _ _ params coins asset_id gas => verify_contract_call params coins asset_id gas
  | IFuelVm fuel_vm_instr => verify_fuel_vm fuel_vm_instr
  | IGetElemPtr base elem_ptr_ty indices => verify_get_elem_ptr base elem_ptr_ty indices
  | IGetLocal local_var => verify_get_local local_var
  | IGetGlobal global_var => verify_get_global global_var
  | IGetConfig _ name => verify_get_config cur_module name
  | IIntToPtr value ty => verify_int_to_ptr value ty
  | ILoad ptr => verify_load ptr
  | IMemCopyBytes dst_val_ptr src_val_ptr byte_len => verify_mem_copy_bytes dst_val_ptr src_val_ptr byte_len
  | IMemCopyVal dst_val_ptr src_val_ptr => verify_mem_copy_val dst_val_ptr src_val_ptr
  | INop => Ok ()
  | IPtrToInt val ty => verify_ptr_to_int val ty
  | IRet val ty => verify_ret val ty
  | IStore dst_val_ptr stored_val => verify_store dst_val_ptr stored_val
  end.
End verifier.

(** ** Metadata *)

Definition is_ascii_alphabetic (c : ascii) : bool :=
  let n := nat_of_ascii c in ((65 <=? n) && (n <=? 90) || (97 <=? n) && (n <=? 122))%nat.
Definition is_ascii_alphanumeric (c : ascii) : bool :=
  let n := nat_of_ascii c in is_ascii_alphabetic c || ((48 <=? n) && (n <=? 57))%nat.

Definition verify_tag (tag : string) : Result unit :=
  match tag with
  | EmptyString => ir_error "InvalidMetadatum"
  | String ch0 chs =>
      let underscore ch := bool_decide (ch = "_"%char) in
      if negb (is_ascii_alphabetic ch0 || underscore ch0) || existsb (fun ch => negb (is_ascii_alphanumeric ch || underscore ch)) (String.list_ascii_of_string chs)
      then ir_error "InvalidMetadatum" else Ok ()
  end.

Fixpoint verify_metadata_fuel (fuel : nat) (md_idx : option MetadataIndex) : Result unit :=
  match fuel with
  | O => Err OutOfFuel
  | S fuel' =>
      match md_idx with
      | Some md_idx =>
          md ← index (metadata (declarations context)) md_idx;
          match md with
          | MdList md_idcs => for_each (fun md_idx => verify_metadata_fuel fuel' (Some md_idx)) md_idcs
          | MdStruct tag _ => verify_tag tag
          | _ => Ok ()
          end
      | None => Ok ()
      end
  end.

(** Lists of metadata refer to older metadata. *)
Definition verify_metadata (md_idx : option MetadataIndex) : Result unit :=
  verify_metadata_fuel (S (size (metadata (declarations context)))) md_idx.

(** ** Blocks, functions and modules *)

Definition verify_instruction (cur_module : Module_) (cur_function : Function) (cur_block : Block) (ins : Value) : Result unit :=
  d ← value_datum context ins;
  match d with
  | VInstruction parent op =>
      if negb (bool_decide (parent = cur_block)) then _ ← block_content context parent; ir_error "InconsistentParent"
      else _ ← verify_op cur_module cur_function op; verify_metadata (value_metadata (declarations context) !! ins)
  | _ => Err (Panic "The value must be an instruction, because it is retrieved via block instruction iterator.")
  end.

Definition verify_instructions (cur_module : Module_) (cur_function : Function) (cur_block : Block) : Result unit :=
  b ← block_content context cur_block;
  for_each (verify_instruction cur_module cur_function cur_block) (instructions b).

Definition verify_block_arg (p : nat * Value) : Result unit :=
  d ← value_datum context p.2;
  match d with
  | VArgument _ idx _ => check (Ok (idx =? p.1)%nat) "VerifyBlockArgMalformed"
  | _ => ir_error "VerifyBlockArgMalformed"
  end.

(** Whether the last instruction is a terminator, and the number of terminators *)
Definition count_terminator (s : bool * nat) (ins : Value) : Result (bool * nat) :=
  t ← is_terminator context ins; Ok (if (t : bool) then (true, S s.2) else (false, s.2)).

Definition verify_block (cur_module : Module_) (cur_function : Function) (cur_block : Block) : Result unit :=
  b ← block_content context cur_block;
  if negb (bool_decide (block_function b = cur_function)) then _ ← function_content context (block_function b); ir_error "InconsistentParent"
  else
    n ← num_instructions context cur_block;
    preds ← num_predecessors context cur_block;
    if ((n <=? 1) && (preds =? 0))%nat then Ok ()
    else
      _ ← for_each verify_block_arg (imap pair (args b));
      _ ← verify_instructions cur_module cur_function cur_block;
      r ← fold_ok count_terminator (false, O) (instructions b);
      if negb r.1 then ir_error "MissingTerminator"
      else if negb (r.2 =? 1)%nat then ir_error "MisplacedTerminator"
      else Ok ().

Definition verify_function (cur_module : Module_) (function : Function) : Result unit :=
  f ← function_content context function;
  if negb (bool_decide (f_module f = cur_module)) then ir_error "InconsistentParent"
  else
    entry_block ← get_entry_block context function;
    preds ← num_predecessors context entry_block;
    if negb (preds =? 0)%nat then ir_error "VerifyEntryBlockHasPredecessors"
    else
      n ← num_args context entry_block;
      _ ← check (Ok (length (f_arguments f) =? n)%nat) "VerifyBlockArgMalformed";
      b ← block_content context entry_block;
      _ ← for_each (fun p : (string * Value) * Value => check (Ok (bool_decide (p.1.2 = p.2))) "VerifyBlockArgMalformed") (zip (f_arguments f) (args b));
      l ← block_iter context function;
      _ ← for_each (verify_block cur_module function) l;
      verify_metadata (f_metadata f).

Definition verify_global (global : list string * GlobalVar) : Result unit :=
  m ← is_mutable global.2;
  if (m : bool) then Ok ()
  else i ← get_initializer global.2; match i with Some _ => Ok () | None => ir_error "VerifyGlobalMissingInitializer" end.

Definition verify_module (module : Module_) : Result unit :=
  l ← function_iter module;
  _ ← for_each (verify_function module) l;
  m ← module_content module;
  for_each verify_global (m_global_variables m).

Definition Context_verify : Result Context :=
  _ ← for_each (fun p => verify_module p.1) (modules (declarations context));
  Ok context.
End context.
