(* ===== verification/IrVerifyTheory.v ===== *)
(** * What the verifier guarantees

    A function that passes the verification has the control flow that the passes rely on,
    its element pointers stay inside of what they point into, and its operands have the
    types that constant folding needs. *)

From S2P Require Import Prelude IrTypes IrTypeTheory IrLayout IrConstant IrCore IrFold IrRun IrTransform IrMachine IrUnique IrFoldTheory IrFoldSteps IrFoldMain IrFoldTheorem IrVerify.
Local Open Scope Z_scope.

(** ** Successful checks *)

Lemma for_each_Ok {A} (f : A -> Result unit) l : for_each f l = Ok () -> forall x, x ∈ l -> f x = Ok ().
Proof.
  induction l as [|y l IH]; cbn; [by intros _ x ?%elem_of_nil|]. intros ([] & Hy & Hl)%bind_Ok x [->|Hx]%elem_of_cons; [done|by apply IH].
Qed.

Lemma check_Ok cond e : check cond e = Ok () <-> cond = Ok true.
Proof. unfold check. rewrite bind_Ok. split; [by intros ([] & -> & ?)|intros ->; by exists true]. Qed.

Lemma all_true_cons x l : all_true (x :: l) = Ok true -> x = Ok true /\ all_true l = Ok true.
Proof. unfold all_true. cbn. by intros ([] & -> & ?)%bind_Ok. Qed.

Lemma any_true_cons x l : any_true (x :: l) = Ok true -> x = Ok true \/ any_true l = Ok true.
Proof. unfold any_true. cbn. intros ([] & -> & ?)%bind_Ok; [by left|by right]. Qed.

Lemma ok_or_Ok {A} (o : option A) e a : ok_or o e = Ok a -> o = Some a.
Proof. destruct o; [by intros [= ->]|done]. Qed.

Lemma matches_content_true context f ty : matches_content context f ty = Ok true -> exists t, IrTypes.types context !! ty = Some t /\ f t = true.
Proof. unfold matches_content, get_content. destruct (IrTypes.types context !! ty) as [t|]; [|done]. intros [= Hf]. by exists t. Qed.

Lemma is_uint_true context ty : is_uint context ty = Ok true -> exists w, IrTypes.types context !! ty = Some (TUint w).
Proof. intros ([] & Ht & ?)%matches_content_true; try done. by eexists. Qed.
Lemma is_bool_true context ty : is_bool context ty = Ok true -> IrTypes.types context !! ty = Some TBool.
Proof. by intros ([] & Ht & ?)%matches_content_true. Qed.
Lemma is_b256_true context ty : is_b256 context ty = Ok true -> IrTypes.types context !! ty = Some TB256.
Proof. by intros ([] & Ht & ?)%matches_content_true. Qed.

(** A scalar type is equal to itself only, unless it is compared with a union. *)
Lemma scalar_type_eq context a b t : context_ok context -> IrTypes.types context !! a = Some t -> scalar_type t = true ->
  (forall l, IrTypes.types context !! b <> Some (TUnion l)) -> Type_eq context a b = Ok true -> b = a.
Proof.
  intros Hctx Ha Hs Hu. unfold Type_eq. cbn [Nat.mul Nat.add eq_fuel]. unfold get_content. rewrite Ha. next_step.
  destruct (IrTypes.types context !! b) as [tb|] eqn:Hb; [|done]. next_step. intros Heq.
  assert (tb = t) as ->.
  { destruct t, tb; try done; first [exfalso; by eapply Hu|injection Heq as Heq%Z.eqb_eq; by subst]. }
  apply (ctx_map _ Hctx) in Ha, Hb. congruence.
Qed.

Section verified.
Context (ctx : Context) (m : Module_) (f : Function) (fc : FunctionContent) (Hfc : functions ctx !! f = Some fc) (Hver : verify_function ctx m f = Ok ()).

(** A block that the verifier looks at *)
Definition referenced (c : BlockContent) : Prop := ~ ((length (instructions c) <= 1)%nat /\ size (preds c) = O).

Lemma verify_function_parts :
  (exists entry c, head (f_blocks fc) = Some entry /\ blocks ctx !! entry = Some c /\ size (preds c) = O /\ length (f_arguments fc) = length (args c) /\
    forall p, p ∈ zip (f_arguments fc) (args c) -> p.1.2 = p.2) /\
  forall b, b ∈ f_blocks fc -> verify_block ctx m f b = Ok ().
Proof.
  pose proof Hver as Hv. unfold verify_function, function_content, index, expect_some in Hv. rewrite Hfc in Hv. next_step in Hv. case_bool_decide as Hm; [cbn [negb] in Hv|done].
  apply bind_Ok in Hv as (entry & He & Hv). apply bind_Ok in Hv as (np & Hp & Hv). destruct (np =? 0)%nat eqn:Hnp; [cbn [negb] in Hv|done].
  apply bind_Ok in Hv as (na & Hna & Hv). apply bind_Ok in Hv as ([] & Hlen%check_Ok & Hv). apply bind_Ok in Hv as (c & Hc & Hv). apply bind_Ok in Hv as ([] & Hargs & Hv).
  apply bind_Ok in Hv as (l & Hl & Hv). apply bind_Ok in Hv as ([] & Hblocks & _).
  assert (l = f_blocks fc) as -> by (unfold block_iter, function_content, index, expect_some in Hl; rewrite Hfc in Hl; next_step in Hl; congruence).
  unfold num_predecessors in Hp. rewrite Hc in Hp. unfold num_args in Hna. rewrite Hc in Hna. next_step in Hp. next_step in Hna. injection Hp as <-. injection Hna as <-.
  split; [|by apply for_each_Ok]. exists entry, c. split_and!.
  - unfold get_entry_block in He. rewrite Hl in He. next_step in He. unfold expect_some in He. by destruct (head (f_blocks fc)); [injection He as ->|].
  - unfold block_content, index, expect_some in Hc. by destruct (blocks ctx !! entry); [injection Hc as ->|].
  - by apply Nat.eqb_eq.
  - injection Hlen as Hlen. by apply Nat.eqb_eq.
  - intros p Hp. pose proof (for_each_Ok _ _ Hargs p Hp) as Hcheck%check_Ok. injection Hcheck as Hcheck. by apply bool_decide_eq_true in Hcheck.
Qed.

Lemma verify_block_parts b c : b ∈ f_blocks fc -> blocks ctx !! b = Some c -> referenced c ->
  (forall p, p ∈ imap pair (args c) -> verify_block_arg ctx p = Ok ()) /\
  (forall v, v ∈ instructions c -> exists op, values ctx !! v = Some (VInstruction b op) /\ verify_op ctx m f op = Ok ()) /\
  fold_ok (count_terminator ctx) (false, O) (instructions c) = Ok (true, 1%nat).
Proof.
  intros Hb Hc Href. destruct verify_function_parts as [_ Hall]. specialize (Hall b Hb). unfold verify_block in Hall.
  assert (block_content ctx b = Ok c) as Hbc by (unfold block_content, index, expect_some; by rewrite Hc). unfold num_instructions, num_predecessors in Hall. rewrite Hbc in Hall. next_step in Hall.
  case_bool_decide; [|apply bind_Ok in Hall as (? & _ & ?); done]. cbn [negb] in Hall.
  destruct ((length (instructions c) <=? 1) && (size (preds c) =? 0))%nat eqn:Hskip.
  { exfalso. apply Href. apply andb_true_iff in Hskip as [?%Nat.leb_le ?%Nat.eqb_eq]. done. }
  apply bind_Ok in Hall as ([] & Hargs & Hall). apply bind_Ok in Hall as ([] & Hins & Hall). apply bind_Ok in Hall as ([last n] & Hr & Hall). cbn in Hall.
  destruct last; [cbn in Hall|done]. destruct (n =? 1)%nat eqn:Hn; [|done]. apply Nat.eqb_eq in Hn as ->. split; [by apply for_each_Ok|]. split; [|done].
  unfold verify_instructions in Hins. rewrite Hbc in Hins. next_step in Hins. intros v Hv. pose proof (for_each_Ok _ _ Hins v Hv) as Hi. unfold verify_instruction in Hi.
  apply bind_Ok in Hi as (d & Hd & Hi). destruct d as [| |parent op]; try done. case_bool_decide as Hp; [subst parent; cbn in Hi|apply bind_Ok in Hi as (? & _ & ?); done].
  apply bind_Ok in Hi as ([] & Hop & _). exists op. split; [|done]. unfold value_datum, index, expect_some in Hd. by destruct (values ctx !! v); [injection Hd as ->|].
Qed.

(** ** Control flow *)

Lemma count_terminators l s r : fold_ok (count_terminator ctx) s l = Ok r -> (s.2 <= r.2)%nat.
Proof.
  revert s. induction l as [|v l IH]; intros s; cbn; [by intros [= <-]|]. intros (s' & Hs & Hl)%bind_Ok. apply IH in Hl. unfold count_terminator in Hs.
  apply bind_Ok in Hs as ([] & _ & [= <-]); cbn in *; lia.
Qed.

Lemma no_late_terminator l k : fold_ok (count_terminator ctx) (false, S k) l <> Ok (true, S k).
Proof.
  revert k. induction l as [|v l IH]; intros k; cbn; [done|]. intros (s & Hs & Hl)%bind_Ok. unfold count_terminator in Hs. apply bind_Ok in Hs as ([] & _ & [= <-]).
  - apply count_terminators in Hl. cbn in Hl. lia.
  - by apply IH in Hl.
Qed.

Lemma one_terminator l s : s.2 = O -> fold_ok (count_terminator ctx) s l = Ok (true, 1%nat) ->
  exists body t, l = body ++ [t] /\ is_terminator ctx t = Ok true /\ forall u, u ∈ body -> is_terminator ctx u = Ok false.
Proof.
  revert s. induction l as [|v l IH]; intros s Hs; cbn; [intros [= Hl]; by subst s|]. intros (s' & Hs' & Hl)%bind_Ok. unfold count_terminator in Hs'.
  apply bind_Ok in Hs' as ([] & Ht & [= <-]).
  - destruct l as [|v' l].
    + exists [], v. split_and!; [done..|by intros u ?%elem_of_nil].
    + exfalso. cbn [fold_ok] in Hl. apply bind_Ok in Hl as (s2 & Hs2 & Hl). unfold count_terminator in Hs2. apply bind_Ok in Hs2 as ([] & _ & [= <-]).
      * apply count_terminators in Hl. cbn in Hl. lia.
      * rewrite Hs in Hl. by apply no_late_terminator in Hl.
  - destruct (IH (false, s.2) Hs Hl) as (body & t & -> & Htt & Hbody). exists (v :: body), t. split_and!; [done..|]. intros u [->|Hu]%elem_of_cons; [done|by apply Hbody].
Qed.

Lemma verify_dest_args_length br : verify_dest_args ctx br = Ok () -> exists c, blocks ctx !! br_block br = Some c /\ length (br_args br) = length (args c).
Proof.
  unfold verify_dest_args, num_args, block_content, index, expect_some. destruct (blocks ctx !! br_block br) as [c|]; [|done]. next_step. intros Hv. exists c. split; [done|].
  destruct (length (args c) =? length (br_args br))%nat eqn:Hl; [|done]. by apply Nat.eqb_eq in Hl.
Qed.

Lemma in_function_spec b : in_function ctx f b = Ok (bool_decide (b ∈ f_blocks fc)).
Proof using Hfc. unfold in_function, block_iter, function_content, index, expect_some. by rewrite Hfc. Qed.

Lemma verified_targets op br : verify_op ctx m f op = Ok () -> br ∈ targets op ->
  br_block br ∈ f_blocks fc /\ exists c, blocks ctx !! br_block br = Some c /\ length (br_args br) = length (args c).
Proof using Hfc.
  assert (forall br0 (k : Result unit), (_ ← block_content ctx (br_block br0); @ir_error unit "VerifyBranchToMissingBlock") = Ok () -> False) as Hno.
  { intros br0 _ (? & _ & ?)%bind_Ok. done. }
  destruct op; cbn [targets verify_op]; intros Hv Hbr; try by apply elem_of_nil in Hbr.
  - apply list_elem_of_singleton in Hbr as ->. unfold verify_br in Hv. rewrite in_function_spec in Hv. next_step in Hv. case_bool_decide as Hin; cbn in Hv; [|by destruct (Hno _ (Ok ()) Hv)].
    split; [done|by apply verify_dest_args_length].
  - unfold verify_cbr in Hv. apply bind_Ok in Hv as ([] & _ & Hv). rewrite !in_function_spec in Hv. next_step in Hv.
    case_bool_decide as Hin1; cbn in Hv; [|by destruct (Hno _ (Ok ()) Hv)]. case_bool_decide as Hin2; cbn in Hv; [|by destruct (Hno _ (Ok ()) Hv)].
    apply bind_Ok in Hv as ([] & H1 & H2). members Hbr; subst br; (split; [done|by apply verify_dest_args_length]).
Qed.

(** C35. A verified function has the control flow that the passes rely on: the entry block
    has no predecessors and the arguments of the function; every block that has
    predecessors or more than one instruction ends with its only terminator, its
    arguments know their positions, and its branches go to blocks of the function and pass
    as many values as these have arguments. *)
Theorem verified_control_flow :
  (exists entry c, head (f_blocks fc) = Some entry /\ blocks ctx !! entry = Some c /\ preds c = ∅ /\ args c = (f_arguments fc).*2) /\
  forall b c, b ∈ f_blocks fc -> blocks ctx !! b = Some c -> referenced c ->
    (exists body t, instructions c = body ++ [t] /\ is_terminator ctx t = Ok true /\ forall u, u ∈ body -> is_terminator ctx u = Ok false) /\
    (forall i x, args c !! i = Some x -> exists b' ty, values ctx !! x = Some (VArgument b' i ty)) /\
    (forall before v after op br, at_point ctx (f_blocks fc) b c before v after op -> br ∈ targets op ->
      br_block br ∈ f_blocks fc /\ exists c', blocks ctx !! br_block br = Some c' /\ length (br_args br) = length (args c')).
Proof.
  destruct verify_function_parts as [(entry & c & He & Hc & Hp & Hlen & Hargs) _]. split.
  - exists entry, c. split_and!; [done|done|by apply size_empty_inv, leibniz_equiv in Hp|]. clear - Hlen Hargs. revert Hlen Hargs. generalize (args c). intros l.
    revert l. induction (f_arguments fc) as [|[n x] k IH]; intros [|y l] Hlen Hargs; try done. cbn. f_equal.
    + symmetry. apply (Hargs ((n, x), y)). cbn. apply list_elem_of_here.
    + apply IH; [cbn in Hlen; lia|]. intros p Hp. apply Hargs. cbn. by apply list_elem_of_further.
  - intros b c0 Hb Hc0 Href. destruct (verify_block_parts b c0 Hb Hc0 Href) as (Hba & Hops & Hterm). split_and!.
    + by apply (one_terminator _ (false, O)).
    + intros i x Hx. assert ((i, x) ∈ imap pair (args c0)) as Hin by (apply elem_of_lookup_imap; by exists i, x). specialize (Hba _ Hin). unfold verify_block_arg in Hba.
      apply bind_Ok in Hba as (d & Hd & Hba). cbn in Hd. unfold value_datum, index, expect_some in Hd. destruct (values ctx !! x) as [d'|]; [injection Hd as ->|done]. destruct d as [b' idx ty| |]; try done.
      apply check_Ok in Hba. injection Hba as ->%Nat.eqb_eq. by exists b', ty.
    + intros before v after op br (_ & Hc1 & Hi & p & Hv) Hbr.
      destruct (Hops v) as (op' & Hv' & Hok); [rewrite Hi; apply elem_of_app; right; by left|]. rewrite Hv in Hv'. injection Hv' as -> ->. by eapply verified_targets.
Qed.
End verified.

(** ** Types of values *)

Lemma InstOp_get_type_mono ctx g h op o : (forall x t, g x = Ok t -> h x = Ok t) -> InstOp_get_type ctx g op = Ok o -> InstOp_get_type ctx h op = Ok o.
Proof.
  intros Hgh. destruct op as [| | | | | | | | | |instr| | | | | | | | | | | |]; cbn; try done; try apply Hgh; [by destruct instr; cbn; try done; try apply Hgh|].
  intros (t & Ht%Hgh & Hp)%bind_Ok. by rewrite Ht.
Qed.

Lemma get_type_fuel_mono ctx n k v o : (n <= k)%nat -> get_type_fuel ctx n v = Ok o -> get_type_fuel ctx k v = Ok o.
Proof.
  revert k v o. induction n as [|n IH]; intros k v o Hk; [done|]. destruct k as [|k]; [lia|]. cbn. destruct (value_datum ctx v) as [[| |]|]; try done.
  next_step. apply InstOp_get_type_mono. intros x t. apply IH. lia.
Qed.

(** The type of a value, given enough fuel for its operands *)
Definition type_of (ctx : Context) (v : Value) : Ty :=
  match get_type_fuel ctx (S (S (size (values ctx)))) v with Ok (Some ty) => ty | _ => 1%positive end.

Lemma type_of_typed ctx v ty : get_type ctx v = Ok (Some ty) -> type_of ctx v = ty.
Proof. intros Hv. unfold type_of. by rewrite (get_type_fuel_mono ctx _ _ v _ (Nat.le_succ_diag_r _) Hv). Qed.

Lemma type_of_const ctx v content : is_const ctx v content -> type_of ctx v = cty content.
Proof. intros (k & Hv & Hk). apply type_of_typed. unfold get_type. cbn. unfold value_datum, constant_content, index, expect_some. rewrite Hv. next_step. by rewrite Hk. Qed.

Lemma type_of_instruction ctx v p op ty : values ctx !! v = Some (VInstruction p op) -> InstOp_get_type ctx (get_type ctx) op = Ok (Some ty) -> type_of ctx v = ty.
Proof.
  intros Hv Hop. unfold type_of. assert (get_type_fuel ctx (S (S (size (values ctx)))) v = Ok (Some ty)) as ->; [|done].
  change ((d ← value_datum ctx v; match d with VArgument _ _ ty => Ok (Some ty) | VConstant c => content ← constant_content ctx c; Ok (Some (cty content)) | VInstruction _ op => InstOp_get_type ctx (get_type ctx) op end) = Ok (Some ty)).
  unfold value_datum, index, expect_some. by rewrite Hv.
Qed.

Lemma typed_Ok ctx v e ty : typed ctx v e = Ok ty -> get_type ctx v = Ok (Some ty).
Proof. unfold typed. by intros (o & Ho & ->%ok_or_Ok)%bind_Ok. Qed.

(** ** Constant folding on verified functions *)

(** What constant folding needs and the verifier does not check: values are in scope and
    no instruction depends on itself, constants have values of their types, a union is not
    computed with, complements are of 64 or 256 bits, and booleans are compared for
    equality only. *)
Record unchecked `{SlotMap} (hash : ConstantContent -> Z) (rank : Value -> nat) (ctx : Context) (f : Function) (avail : Block -> gset Value) : Prop := {
  un_types : context_ok (types ctx);
  un_bool : is_Ok (get_bool (types ctx));
  un_pool : pool hash (types ctx) (constants ctx);
  un_scoped : scoped ctx f avail;
  un_const x content : is_const ctx x content -> kind_ok (types ctx) content;
  un_closed x c : values ctx !! x = Some (VConstant c) -> is_Some (IrConstant.constants (constants ctx) !! c);
  un_op fc b c before v after op : functions ctx !! f = Some fc -> at_point ctx (f_blocks fc) b c before v after op ->
    referenced c /\ (forall x, x ∈ get_operands op -> is_Some (values ctx !! x) /\ (rank x < rank v)%nat) /\
    match op with
    | IBinaryOp _ _ y => forall l, IrTypes.types (types ctx) !! type_of ctx y <> Some (TUnion l)
    | IUnaryOp UNot x => forall w, IrTypes.types (types ctx) !! type_of ctx x = Some (TUint w) -> w = 64 \/ w = 256
    | ICmp p x y => (forall l, IrTypes.types (types ctx) !! type_of ctx y <> Some (TUnion l)) /\ (IrTypes.types (types ctx) !! type_of ctx x = Some TBool -> p = PEqual)
    | _ => True
    end;
}.

Section fold.
Context `{SlotMap} (hash : ConstantContent -> Z) (rank : Value -> nat) (ctx : Context) (m : Module_) (f : Function) (avail : Block -> gset Value).
Context (Hun : unchecked hash rank ctx f avail).

Lemma uint_or_b256 ty : any_true [is_uint (types ctx) ty; is_b256 (types ctx) ty] = Ok true -> exists t, IrTypes.types (types ctx) !! ty = Some t /\ scalar_type t = true /\ (t = TB256 \/ exists w, t = TUint w).
Proof.
  intros [[w Hw]%is_uint_true|[Hb%is_b256_true|H0]%any_true_cons]%any_true_cons; [exists (TUint w)|exists TB256|done]; eauto.
Qed.

Lemma typed_not v x p : values ctx !! v = Some (VInstruction p (IUnaryOp UNot x)) -> verify_unary_op ctx UNot x = Ok () ->
  type_of ctx v = type_of ctx x /\ exists t, IrTypes.types (types ctx) !! type_of ctx x = Some t /\ (t = TB256 \/ exists w, t = TUint w).
Proof.
  intros Hv (ty & Hty%typed_Ok & Hc%check_Ok)%bind_Ok. rewrite (type_of_typed _ _ _ Hty). split; [by eapply type_of_instruction|].
  destruct (uint_or_b256 ty Hc) as (t & ? & _ & ?). by exists t.
Qed.

Lemma typed_binary v k x y p : values ctx !! v = Some (VInstruction p (IBinaryOp k x y)) -> verify_binary_op ctx k x y = Ok () ->
  (forall l, IrTypes.types (types ctx) !! type_of ctx y <> Some (TUnion l)) ->
  type_of ctx v = type_of ctx x /\ (is_shift k = false -> type_of ctx y = type_of ctx x).
Proof using Hun.
  intros Hv Hver Hu. apply bind_Ok in Hver as (tx & Hx%typed_Ok & Hver). apply bind_Ok in Hver as (ty & Hy%typed_Ok & Hver).
  rewrite (type_of_typed _ _ _ Hy) in *. rewrite (type_of_typed _ _ _ Hx). split; [by eapply type_of_instruction|]. intros Hs.
  assert (Type_eq (types ctx) tx ty = Ok true /\ any_true [is_uint (types ctx) tx; is_b256 (types ctx) tx] = Ok true) as [Heq [t (Ht & Hsc & _)]%uint_or_b256].
  { destruct k; try done; apply check_Ok, all_true_cons in Hver as [? [Hu2 _]%all_true_cons]; (split; [done|]); first [exact Hu2|unfold any_true; cbn; by rewrite Hu2]. }
  by eapply scalar_type_eq; [apply (un_types _ _ _ _ _ Hun)|..].
Qed.

Lemma typed_cmp v pred x y p : values ctx !! v = Some (VInstruction p (ICmp pred x y)) -> verify_cmp ctx pred x y = Ok () ->
  (forall l, IrTypes.types (types ctx) !! type_of ctx y <> Some (TUnion l)) -> (IrTypes.types (types ctx) !! type_of ctx x = Some TBool -> pred = PEqual) ->
  op_typed (type_of ctx) (types ctx) v (ICmp pred x y).
Proof using Hun.
  intros Hv Hver Hu Hb. apply bind_Ok in Hver as ([tx|] & Hx & Hver); [|by apply bind_Ok in Hver as (? & _ & ?)]. apply bind_Ok in Hver as ([ty|] & Hy & Hver); [|done].
  apply bind_Ok in Hver as ([] & Heq%check_Ok & Hver%check_Ok). rewrite (type_of_typed _ _ _ Hy), (type_of_typed _ _ _ Hx) in *.
  assert (exists t, IrTypes.types (types ctx) !! tx = Some t /\ scalar_type t = true /\ (t = TBool \/ t = TB256 \/ exists w, t = TUint w)) as (t & Ht & Hsc & Hk).
  { apply any_true_cons in Hver as [->%is_bool_true|(t & ? & ? & ?)%uint_or_b256]; [by exists TBool; auto|exists t; auto]. }
  cbn [op_typed]. rewrite (type_of_typed _ _ _ Hy), (type_of_typed _ _ _ Hx). destruct (un_bool _ _ _ _ _ Hun) as [bt Hbt]. split_and!.
  - rewrite (type_of_instruction ctx v p _ bt Hv); [done|]. cbn. by rewrite Hbt.
  - by eapply scalar_type_eq; [apply (un_types _ _ _ _ _ Hun)|..].
  - rewrite Ht. destruct Hk as [->|[->|[w ->]]]; [by apply Hb|done|done].
Qed.

Lemma typed_cond v : value_is ctx is_bool v = Ok true -> get_bool (types ctx) = Ok (type_of ctx v).
Proof using Hun.
  intros ([ty|] & Hv & Hb)%bind_Ok; [|done]. rewrite (type_of_typed _ _ _ Hv). apply is_bool_true in Hb. apply (ctx_map _ (un_types _ _ _ _ _ Hun)) in Hb.
  unfold get_bool, get_basic, IrTypes.get_type. by rewrite Hb.
Qed.

Lemma verified_foldable : verify_function ctx m f = Ok () -> foldable hash (type_of ctx) rank ctx f avail.
Proof using Hun.
  intros Hver. split; try apply Hun.
  - intros x content Hx. split; [by apply type_of_const|by eapply un_const].
  - intros fc b c before v after op Hfc Hat. destruct (un_op _ _ _ _ _ Hun fc b c before v after op Hfc Hat) as (Href & Hops & Hx). split; [|done].
    pose proof Hat as (Hb & Hc & Hi & p & Hv). destruct (verify_block_parts ctx m f fc Hfc Hver b c Hb Hc Href) as (_ & Hall & _).
    destruct (Hall v) as (op' & Hv' & Hop); [rewrite Hi; set_solver|]. rewrite Hv in Hv'. injection Hv' as -> <-.
    destruct op as [|[] x|k x y| | | | |pred x y|cond t e| | | | | | | | | | | | | |]; try done.
    + destruct (typed_not v x b Hv Hop) as (Ht & t & Htt & Hk). split; [done|]. rewrite Htt. destruct Hk as [->|[w ->]]; [set_solver|]. destruct (Hx w Htt) as [-> | ->]; set_solver.
    + by apply (typed_binary v k x y b).
    + apply (typed_cmp v pred x y b); [done|done|apply Hx..].
    + cbn [verify_op] in Hop. apply bind_Ok in Hop as ([] & Hcond%check_Ok & _). by apply typed_cond.
Qed.

(** C36. Constant folding returns on every function that the verifier accepts and that
    keeps the conventions which the verifier leaves unchecked; the folded function ends
    as the verified one does, and runs forever where that one does. *)
Theorem verified_fold_constants `{IrVm} {Hlaws : IrVmLaws} : verify_function ctx m f = Ok () ->
  exists ctx' modified, fold_constants hash ctx f = Ok (ctx', modified) /\
    (forall vals w o, ends ctx f vals w o -> ends ctx' f vals w o) /\ forall vals w, diverges ctx f vals w -> diverges ctx' f vals w.
Proof using Hun.
  intros Hver%verified_foldable. destruct (fold_constants_folded hash _ rank ctx f avail Hver) as (ctx' & modified & Heq & (_ & [Hends Hdiv] & _) & _). by exists ctx', modified.
Qed.
End fold.

(** ** Element pointers *)

Section gep.
Context (ctx : Context) (Hctx : context_ok (types ctx)).

(** A value that is a constant index *)
Definition const_index (v : Value) (i : Z) : Prop := exists content, is_const ctx v content /\ cvalue content = CUint i /\ 0 <= i.

(** Indices into arrays are in range, which the verifier does not check: they need not be constants. *)
Fixpoint arrays_in_range (ty : Ty) (indices : list Z) : Prop :=
  match indices with
  | [] => True
  | i :: indices' =>
      match IrTypes.types (types ctx) !! ty with
      | Some (TArray elm len) => i < len /\ arrays_in_range elm indices'
      | Some (TStruct l) | Some (TUnion l) => match l !! Z.to_nat i with Some field => arrays_in_range field indices' | None => True end
      | _ => True
      end
  end.

Lemma index_by_value_spec ty v i ty' rest : const_index v i -> index_by_value ctx ty v = Ok (Some ty') -> arrays_in_range ty (i :: rest) ->
  index_type (types ctx) ty i = Ok (Some ty') /\ arrays_in_range ty' rest.
Proof.
  intros (content & (k & Hv & Hk) & Hi & Hpos). unfold index_by_value, get_constant, value_datum, constant_content, index, expect_some. rewrite Hv. next_step. rewrite Hk. next_step. rewrite Hi. next_step.
  unfold index_type, get_field_type, get_array_elem_type, get_content. cbn [arrays_in_range]. destruct (IrTypes.types (types ctx) !! ty) as [t|]; [|done]. next_step.
  destruct t as [| | | | | | |elm len|l|l| | |]; try done; next_step.
  - intros [= <-] [Hlt Hr]. apply Z.ltb_lt in Hlt as ->. done.
  - destruct (l !! Z.to_nat i) as [field|]; [|done]. by intros [= <-] Hr.
  - destruct (l !! Z.to_nat i) as [field|]; [|done]. by intros [= <-] Hr.
Qed.

Lemma index_values_spec vs indices ty ty' : Forall2 const_index vs indices -> try_fold (index_by_value ctx) ty vs = Ok (Some ty') -> arrays_in_range ty indices ->
  try_fold (index_type (types ctx)) ty indices = Ok (Some ty').
Proof.
  intros Hvs. revert ty. induction Hvs as [|v i vs indices Hv Hvs IH]; intros ty; [done|]. cbn [try_fold]. intros ([ty1|] & H1 & H2)%bind_Ok; [|done]. intros Hr.
  destruct (index_by_value_spec ty v i ty1 indices Hv H1 Hr) as [-> Hr']. next_step. by apply IH.
Qed.

Lemma get_ptr_type_Ok v e ty : get_ptr_type ctx v e = Ok ty -> exists pty, get_type ctx v = Ok (Some pty) /\ IrTypes.types (types ctx) !! pty = Some (TPointer ty).
Proof.
  unfold get_ptr_type. intros (o & Hv & (pty & ->%ok_or_Ok & (q & Hq & ->%ok_or_Ok)%bind_Ok)%bind_Ok)%bind_Ok. exists pty. split; [done|].
  unfold get_pointee_type, get_content in Hq. destruct (IrTypes.types (types ctx) !! pty) as [t|]; [|done]. next_step in Hq. destruct t; try done. by injection Hq as ->.
Qed.

(** C38. A verified element pointer stays inside of what it points into: when its indices
    are constants, and those into arrays in range, they lead to an element of the type that
    the base points to, whose type is the one that the instruction states, and the element
    lies inside of the base at the offset that the code generator computes. *)
Theorem verified_gep_in_bounds base elem_ptr_ty vs indices base_ptr base_ty n :
  verify_get_elem_ptr ctx base elem_ptr_ty vs = Ok () -> get_type ctx base = Ok (Some base_ptr) -> IrTypes.types (types ctx) !! base_ptr = Some (TPointer base_ty) ->
  Forall2 const_index vs indices -> arrays_in_range base_ty indices -> Type_size (types ctx) base_ty = Ok (TypeSize_new n) ->
  exists elem_ty stated offset n', get_indexed_type (types ctx) base_ty indices = Ok (Some elem_ty) /\
    IrTypes.types (types ctx) !! elem_ptr_ty = Some (TPointer stated) /\ Type_eq (types ctx) stated elem_ty = Ok true /\
    get_indexed_offset (types ctx) base_ty indices = Ok (Some offset) /\ Type_size (types ctx) elem_ty = Ok (TypeSize_new n') /\ 0 <= offset /\ offset + n' <= n.
Proof using Hctx.
  unfold verify_get_elem_ptr. intros (bt & Hbt & (u & _ & (o & Ho & (stated & ->%ok_or_Ok & Hidx)%bind_Ok)%bind_Ok)%bind_Ok)%bind_Ok Hbase Hptr Hvs Hr Hn.
  apply get_ptr_type_Ok in Hbt as (pty & Hpty & Hp). rewrite Hbase in Hpty. injection Hpty as <-. rewrite Hptr in Hp. injection Hp as <-.
  assert (IrTypes.types (types ctx) !! elem_ptr_ty = Some (TPointer stated)) as Hst.
  { unfold get_pointee_type, get_content in Ho. destruct (IrTypes.types (types ctx) !! elem_ptr_ty) as [t|]; [|done]. next_step in Ho. destruct t; try done. by injection Ho as ->. }
  destruct vs as [|v vs]; [done|]. apply bind_Ok in Hidx as ([ty'|] & Hty' & (differ & Hd & Hif)%bind_Ok); [|by injection Hd as <-].
  apply (index_values_spec _ indices) in Hty'; [|done..]. apply bind_Ok in Hd as (eq & Heq & [= <-]). destruct eq; [|done].
  assert (is_Some (IrTypes.types (types ctx) !! base_ty)) as Hex by (eapply child_exists; [exact Hctx|exact Hptr|by left]).
  pose proof (Type_size_bound _ Hctx base_ty n Hex Hn). assert (Forall (fun i => 0 <= i) indices) as Hpos by (clear - Hvs; induction Hvs as [|? ? ? ? (? & _ & _ & ?)]; by constructor).
  destruct (index_path _ Hctx indices base_ty ty' n 0 Hpos Hex Hty' Hn) as (d & n' & Hn' & [H1 H2 _] & _ & Ho'); [lia..|].
  exists ty', stated, d, n'. unfold get_indexed_offset. rewrite Ho'. split_and!; try done. by destruct indices; [inversion Hvs|].
Qed.
End gep.

(** ** Termination *)

(** A call that does not run out of fuel *)
Definition answers {A} (r : Result A) : Prop := r <> Err OutOfFuel.

Lemma answers_Ok {A} (a : A) : answers (Ok a).
Proof. done. Qed.
Lemma answers_bind {A B} (r : Result A) (g : A -> Result B) : answers r -> (forall a, r = Ok a -> answers (g a)) -> answers (a ← r; g a).
Proof. destruct r as [a|e]; cbn; [intros _ Hg; by apply Hg|]. intros He _ [= ->]. by apply He. Qed.
Lemma answers_fmap {A B} (g : A -> B) (r : Result A) : answers r -> answers (g <$> r).
Proof. destruct r as [a|e]; cbn; [done|]. intros He [= ->]. by apply He. Qed.
Lemma answers_ir_error {A} e : answers (@ir_error A e).
Proof. done. Qed.
Lemma answers_expect {A} (o : option A) e : answers (expect_some o e).
Proof. by destruct o. Qed.
Lemma answers_ok_or {A} (o : option A) e : answers (ok_or o e).
Proof. by destruct o. Qed.
Lemma answers_index {A} (m : gmap positive A) k : answers (index m k).
Proof. apply answers_expect. Qed.
Lemma answers_content context ty : answers (get_content context ty).
Proof. unfold get_content. by destruct (IrTypes.types context !! ty). Qed.
Lemma answers_for_each {A} (g : A -> Result unit) l : (forall x, x ∈ l -> answers (g x)) -> answers (for_each g l).
Proof. induction l as [|x l IH]; intros Hg; [done|]. cbn. apply answers_bind; [apply Hg; by left|]. intros _ _. apply IH. intros y Hy. apply Hg. by right. Qed.
Lemma answers_traverse {A B} (g : A -> Result B) l : (forall x, answers (g x)) -> answers (traverse g l).
Proof. intros Hg. induction l as [|x l IH]; [done|]. cbn. apply answers_bind; [apply Hg|]. intros y _. by apply answers_bind. Qed.
Lemma answers_try_fold {A B} (g : B -> A -> Result (option B)) b l : (forall b x, answers (g b x)) -> answers (try_fold g b l).
Proof. intros Hg. revert b. induction l as [|x l IH]; intros b; [done|]. cbn. apply answers_bind; [apply Hg|]. by intros [b'|] _. Qed.
Lemma answers_fold {A B} (g : B -> A -> Result B) b l : (forall b x, answers (g b x)) -> answers (fold_ok g b l).
Proof. intros Hg. revert b. induction l as [|x l IH]; intros b; [done|]. cbn. apply answers_bind; [apply Hg|]. intros b' _. apply IH. Qed.
Lemma answers_all_true l : Forall answers l -> answers (all_true l).
Proof. unfold all_true. induction 1 as [|r l Hr _ IH]; [done|]. cbn. apply answers_bind; [done|]. by intros [] _. Qed.
Lemma answers_any_true l : Forall answers l -> answers (any_true l).
Proof. unfold any_true. induction 1 as [|r l Hr _ IH]; [done|]. cbn. apply answers_bind; [done|]. by intros [] _. Qed.
Lemma answers_check cond e : answers cond -> answers (check cond e).
Proof. intros Hc. apply answers_bind; [done|]. by intros [] _. Qed.
Lemma answers_if {A} (b : bool) (x y : Result A) : answers x -> answers y -> answers (if b then x else y).
Proof. by destruct b. Qed.

Section terminates.
Context (ctx : Context) (rank : positive -> nat) (Hctx : context_ok (types ctx)).
Context (Hvalues : forall v p op x, values ctx !! v = Some (VInstruction p op) -> x ∈ get_operands op -> (rank x < rank v)%nat).
Context (Hmetadata : forall i l j, metadata (declarations ctx) !! i = Some (MdList l) -> j ∈ l -> (rank j < rank i)%nat).

Lemma answers_Type_eq a b : answers (Type_eq (types ctx) a b).
Proof using Hctx.
  destruct (IrTypes.types (types ctx) !! a) as [ta|] eqn:Ha; [destruct (IrTypes.types (types ctx) !! b) as [tb|] eqn:Hb|].
  - destruct (Type_eq_answer _ Hctx a b) as (r & -> & _); [by eexists..|done].
  - unfold Type_eq. cbn [Nat.mul Nat.add eq_fuel]. unfold get_content. by rewrite Ha, Hb.
  - unfold Type_eq. cbn [Nat.mul Nat.add eq_fuel]. unfold get_content. by rewrite Ha.
Qed.

Lemma answers_get_basic t : answers (get_basic (types ctx) t).
Proof. unfold get_basic. by destruct (IrTypes.get_type _ t). Qed.

Lemma answers_InstOp_get_type g op : (forall x, x ∈ get_operands op -> answers (g x)) -> answers (InstOp_get_type ctx g op).
Proof using.
  clear rank Hctx Hvalues Hmetadata. intros Hg. destruct op as [| |k x y| | | | | | | |instr| | | | | | |p| | | | |]; cbn [InstOp_get_type]; try done;
    try (apply answers_fmap; first [apply answers_get_basic|apply answers_bind; [apply answers_index|done]]); try (apply Hg; cbn; set_solver).
  - apply answers_bind; [apply answers_index|done].
  - destruct instr; try done; try (apply answers_fmap, answers_get_basic); apply Hg; cbn; set_solver.
  - apply answers_bind; [|done]. apply answers_bind; [apply answers_expect|done].
  - apply answers_bind; [apply Hg; cbn; set_solver|]. intros [ty|] _; [|done]. apply answers_bind; [apply answers_content|done].
Qed.

Lemma answers_get_type_fuel n v : (below rank (dom (values ctx)) v < n)%nat -> answers (get_type_fuel ctx n v).
Proof using Hvalues.
  clear Hctx Hmetadata. revert v. induction n as [|n IH]; intros v Hn; [lia|]. cbn. apply answers_bind; [apply answers_index|]. intros [| |p op] Hd; [done| |].
  - apply answers_bind; [apply answers_index|done].
  - assert (values ctx !! v = Some (VInstruction p op)) as Hv by (unfold value_datum, index, expect_some in Hd; by destruct (values ctx !! v); [injection Hd as ->|]).
    apply answers_InstOp_get_type. intros x Hx. apply IH. pose proof (below_lt rank (dom (values ctx)) x v ltac:(by apply elem_of_dom) (Hvalues v p op x Hv Hx)). lia.
Qed.

Lemma answers_get_type v : answers (get_type ctx v).
Proof using Hvalues. clear Hctx Hmetadata. apply answers_get_type_fuel. pose proof (below_size rank (dom (values ctx)) v) as Hb. rewrite size_dom in Hb. lia. Qed.

Lemma answers_verify_metadata o : answers (verify_metadata ctx o).
Proof using Hmetadata.
  clear Hctx Hvalues. assert (forall n o, (match o with Some i => below rank (dom (metadata (declarations ctx))) i | None => 0 end < n)%nat -> answers (verify_metadata_fuel ctx n o)) as Hall.
  { intros n. induction n as [|n IH]; intros o' Hn; [lia|]. cbn. destruct o' as [i|]; [|done]. apply answers_bind; [apply answers_index|]. intros md Hmd.
    destruct md as [| | | |tag|l]; try done; [destruct tag; [done|]; by apply answers_if|]. apply answers_for_each. intros j Hj. apply IH.
    assert (metadata (declarations ctx) !! i = Some (MdList l)) as Hi by (unfold index, expect_some in Hmd; by destruct (metadata (declarations ctx) !! i); [injection Hmd as ->|]).
    pose proof (below_lt rank (dom (metadata (declarations ctx))) j i ltac:(by apply elem_of_dom) (Hmetadata i l j Hi Hj)). lia. }
  apply Hall. destruct o as [i|]; [|lia]. pose proof (below_size rank (dom (metadata (declarations ctx))) i) as Hb. rewrite size_dom in Hb. lia.
Qed.

(** Goes through the binds, conditionals and loops of a check *)
Ltac head_of t := match t with ?f _ => head_of f | _ => t end.
Ltac answer := repeat first
  [ done | apply answers_ir_error | apply answers_get_type | apply answers_Type_eq | apply answers_content | apply answers_index | apply answers_expect | apply answers_ok_or
  | apply answers_get_basic | apply answers_verify_metadata | apply answers_check | apply answers_all_true | apply answers_any_true | apply Forall_cons; split | apply Forall_nil
  | apply answers_if | apply answers_fmap | apply answers_for_each; intros ? _ | apply answers_traverse; intros ? | apply answers_fold; intros ? ? | apply answers_try_fold; intros ? ?
  | apply answers_bind; [|intros ? _]
  | match goal with |- answers (match ?x with _ => _ end) => destruct x end
  | match goal with |- answers ?r => let h := head_of r in unfold h end ].

Lemma answers_verify_op m f op : answers (verify_op ctx m f op).
Proof using Hctx Hvalues.
  clear Hmetadata. destruct op; cbn [verify_op]. all: answer.
Qed.

Lemma answers_verify_block m f b : answers (verify_block ctx m f b).
Proof using Hctx Hvalues Hmetadata.
  unfold verify_block, verify_instructions, verify_instruction, verify_block_arg, count_terminator, is_terminator, get_instruction, num_instructions, num_predecessors.
  repeat first [apply answers_verify_op|progress answer].
Qed.

(** C37. The verification of a context ends: where types are well formed, no instruction
    depends on itself and lists of metadata refer to older ones, it returns, with an error
    or without, or panics, and does not run out of fuel. *)
Theorem verify_terminates : answers (Context_verify ctx).
Proof using Hctx Hvalues Hmetadata.
  unfold Context_verify, verify_module, verify_function. repeat first [apply answers_verify_block|progress answer].
Qed.
End terminates.

(** ** On samples *)

Lemma verified_control_flow_witness : verify_function fold_ctx 1 1 = Ok () /\
  exists entry c, head (f_blocks fold_function) = Some entry /\ blocks fold_ctx !! entry = Some c /\ preds c = ∅ /\ args c = (f_arguments fold_function).*2.
Proof.
  assert (verify_function fold_ctx 1 1 = Ok ()) as Hver by by vm_compute.
  split; [exact Hver|]. exact (proj1 (verified_control_flow fold_ctx 1 1 fold_function eq_refl Hver)).
Defined.

Lemma fold_ctx_types v : v ∈ [1; 2; 3; 5]%positive -> type_of fold_ctx v = u64_key.
Proof. intros Hv. members Hv; subst v; by vm_compute. Qed.

Lemma fold_ctx_unchecked : unchecked fold_hash Pos.to_nat fold_ctx 1 (fun _ => ∅).
Proof.
  pose proof fold_ctx_foldable as Hfo. split.
  - apply (fo_types _ _ _ _ _ _ Hfo).
  - apply (fo_bool _ _ _ _ _ _ Hfo).
  - apply (fo_pool _ _ _ _ _ _ Hfo).
  - apply (fo_scoped _ _ _ _ _ _ Hfo).
  - intros x content Hx. apply (fo_const _ _ _ _ _ _ Hfo x content Hx).
  - apply (fo_closed _ _ _ _ _ _ Hfo).
  - intros fc b c before v after op Hfc Hat. split; [|split; [apply (fo_op _ _ _ _ _ _ Hfo fc b c before v after op Hfc Hat)|]].
    + destruct Hat as (_ & Hc%fold_block & _). unfold referenced. members Hc; injection Hc as -> ->; vm_compute; intros [? ?]; first [done|lia].
    + pose proof (fold_fc fc Hfc) as ->. apply fold_point in Hat. unfold fold_points in Hat.
      members Hat; injection Hat as -> _ -> -> ->; try done; rewrite ?fold_ctx_types by set_solver; cbn [types fold_ctx]; by rewrite u64_key_type.
Qed.

Lemma verify_terminates_witness : answers (Context_verify fold_ctx).
Proof.
  apply (verify_terminates fold_ctx Pos.to_nat).
  - apply Context_new_Ok.
  - intros v p op x Hv%fold_op Hx. unfold fold_ops in Hv. members Hv; injection Hv as -> ->; cbn in Hx; members Hx; subst x; lia.
  - intros i l j Hi. exfalso. exact (lookup_empty_Some i (MdList l) Hi).
Defined.

Import SampleVm.
Lemma verified_fold_constants_witness : exists ctx' modified, fold_constants fold_hash fold_ctx 1 = Ok (ctx', modified) /\ @ends vm ctx' 1 [Word 2] [] (@Returned vm (Word 2) []).
Proof.
  destruct (verified_fold_constants fold_hash Pos.to_nat fold_ctx 1 1 _ fold_ctx_unchecked) as (ctx' & modified & Heq & Hends & _); [by vm_compute|].
  exists ctx', modified. split; [exact Heq|exact (Hends _ _ _ fold_ctx_ends)].
Defined.

(** Pointers to the struct of [IrTypeTheory.sample_context] and to a [u8], with the keys 16 and 17 *)
Definition gep_steps : IrTypes.Context := foldl (fun context t => (get_or_create_unique_type context t).1) sample_context [TPointer 15; TPointer 4]%positive.
Definition gep_types : IrTypes.Context := Eval vm_compute in gep_steps.

Lemma gep_types_ok : context_ok gep_types.
Proof.
  assert (gep_types = gep_steps) as -> by (vm_compute; reflexivity). unfold gep_steps. cbn [foldl].
  do 2 (apply get_or_create_Ok; [|vm_compute; repeat constructor; done|each_member]). apply sample_context_ok.
Qed.

(** The pointer to the fourth [u8] of the array *)
Definition gep_ctx : Context := mkContext gep_types
  (mkConstants {[ 1%positive := mkConstant 7 (CUint 0); 2%positive := mkConstant 7 (CUint 3) ]} ∅)
  {[ 1%positive := VArgument 1 0 16; 2%positive := VConstant 1; 3%positive := VConstant 2 ]} ∅ ∅ fold_declarations.

Lemma verified_gep_in_bounds_witness : exists elem_ty offset n', get_indexed_type gep_types 15%positive [0; 3] = Ok (Some elem_ty) /\
  get_indexed_offset gep_types 15%positive [0; 3] = Ok (Some offset) /\ Type_size gep_types elem_ty = Ok (TypeSize_new n') /\ 0 <= offset /\ offset + n' <= 56.
Proof.
  destruct (verified_gep_in_bounds gep_ctx gep_types_ok 1 17%positive [2; 3]%positive [0; 3] 16 15 56) as (elem_ty & stated & offset & n' & H1 & _ & _ & H2 & H3 & H4 & H5).
  - by vm_compute.
  - by vm_compute.
  - by vm_compute.
  - repeat constructor; eexists; (split; [eexists; split; by vm_compute|]); by vm_compute.
  - by vm_compute.
  - by vm_compute.
  - by exists elem_ty, offset, n'.
Defined.

(** ** What is accepted *)

(** The function [fn g() -> u64] with one block of these instructions; the constant is [true]. *)
Definition bool_ctx (instrs : list (Value * InstOp)) : Context := mkContext Context_new fold_pool
  (list_to_map ((1%positive, VConstant 3) :: map (fun p => (p.1, VInstruction 1 p.2)) instrs)) {[ 1%positive := mkBlock 1 instrs.*1 [] ∅ ]}
  {[ 1%positive := mkFunction "g" [] u64_key [1%positive] 1 true false None [] ]} fold_declarations.

(** A block with one instruction and no predecessors is not looked at, also when it is the
    entry block: a function that returns a boolean as its [u64] is accepted, and rejected
    when any instruction comes before the return. *)
Lemma single_return_unchecked :
  verify_function (bool_ctx [(2%positive, IRet 1 bool_key)]) 1 1 = Ok () /\
  verify_function (bool_ctx [(2%positive, INop); (3%positive, IRet 1 bool_key)]) 1 1 = ir_error "VerifyReturnMismatchedTypes".
Proof. split; by vm_compute. Qed.

(** An ordering of booleans is accepted, and constant folding panics on it. *)
Lemma ordered_booleans :
  verify_op (bool_ctx [(2%positive, ICmp PLessThan 1 1); (3%positive, IRet 1 bool_key)]) 1 1 (ICmp PLessThan 1 1) = Ok () /\
  exists e, fold_constants fold_hash (bool_ctx [(2%positive, ICmp PLessThan 1 1); (3%positive, IRet 1 bool_key)]) 1 = Err (Panic e).
Proof. split; [by vm_compute|]. eexists. by vm_compute. Qed.
