(* ===== verification/IrSimplify.v ===== *)
(** * Simplifying the control flow of the IR

    [sway-ir/src/optimize/simplify_cfg.rs], and the operations of [block.rs],
    [function.rs] and [instruction.rs] that it adds. *)

From S2P Require Import Prelude IrTypes IrConstant IrCore.
Local Open Scope Z_scope.

(** ** Blocks and functions *)

Definition remove_last_instruction (context : Context) (self : Block) : Result Context :=
  update_block context self (fun b => set_instructions (removelast (instructions b)) b).

(** [InstructionInserter::insert_slice] at [InsertionPosition::End] *)
Definition insert_slice (context : Context) (block : Block) (slice : list Value) : Result Context :=
  update_block context block (fun b => set_instructions (instructions b ++ slice) b).

Definition set_f_blocks (l : list Block) (f : FunctionContent) : FunctionContent :=
  mkFunction (f_name f) (f_arguments f) (f_return_type f) l (f_module f) (f_is_entry f) (f_is_fallback f) (f_metadata f) (f_local_storage f).

Definition remove_block (context : Context) (self : Function) (block : Block) : Result Context :=
  _ ← block_content context block;
  func ← expect_some (functions context !! self) "called `Option::unwrap()` on a `None` value";
  if bool_decide (block ∈ f_blocks func)
  then Ok (set_functions context (<[self := set_f_blocks (remove_first block (f_blocks func)) func]> (functions context)))
  else Err (Internal "RemoveMissingBlock").

(** Assigns to the operation of an instruction *)
Definition set_op (context : Context) (self : Value) (op : InstOp) : Result Context :=
  d ← value_datum context self;
  match d with
  | VInstruction parent _ => Ok (set_values context (<[self := VInstruction parent op]> (values context)))
  | _ => Ok context
  end.

(** A branch to [old_succ] goes to [new_succ]. *)
Definition redirect (old_succ new_succ : Block) (new_params : list Value) (br : BranchToWithArgs) : BranchToWithArgs :=
  if bool_decide (br_block br = old_succ) then mkBranch new_succ new_params else br.

Definition replace_successor (context : Context) (self old_succ new_succ : Block) (new_params : list Value) : Result Context :=
  t ← get_terminator context self;
  let to br := redirect old_succ new_succ new_params br in
  let is_old br := bool_decide (br_block br = old_succ) in
  r ← match t with
      | Some (val, IConditionalBranch cond_value true_block false_block) =>
          context ← set_op context val (IConditionalBranch cond_value (to true_block) (to false_block));
          Ok (context, is_old true_block || is_old false_block)
      | Some (val, IBranch br) => context ← set_op context val (IBranch (to br)); Ok (context, is_old br)
      | _ => Ok (context, false)
      end;
  if r.2 : bool then context ← remove_pred r.1 old_succ self; add_pred context new_succ self else Ok r.1.

(** ** Empty blocks *)

Section unlink.
Context `{!HashOrder Block}.

(** [filter_map] *)
Fixpoint filter_map_ok {A B} (f : A -> Result (option B)) (l : list A) : Result (list B) :=
  match l with
  | [] => Ok []
  | x :: l' => o ← f x; ys ← filter_map_ok f l'; Ok (match o with Some y => y :: ys | None => ys end)
  end.

Definition unlink_candidate (context : Context) (block : Block) : Result (option (Block * BranchToWithArgs)) :=
  t ← get_terminator context block;
  match t with
  | Some (_, IBranch to_block) =>
      n ← num_instructions context block;
      if (n <=? 1)%nat then a ← num_args context block; Ok (if (a =? 0)%nat then Some (block, to_block) else None) else Ok None
  | _ => Ok None
  end.

(** An argument of the block is the value that the predecessor passes. *)
Definition new_param (context : Context) (block : Block) (params_from_pred : list Value) (cur_param : Value) : Result Value :=
  d ← value_datum context cur_param;
  match d with
  | VArgument b idx _ => if bool_decide (b = block) then expect_some (params_from_pred !! idx) "index out of bounds" else Ok cur_param
  | _ => Ok cur_param
  end.

Definition relink_pred (block to_block : Block) (cur_params : list Value) (context : Context) (pred : Block) : Result Context :=
  params_from_pred ← get_succ_params context pred block;
  new_params ← traverse (new_param context block params_from_pred) cur_params;
  replace_successor context pred block to_block new_params.

Definition unlink_block (s : Context * bool) (candidate : Block * BranchToWithArgs) : Result (Context * bool) :=
  let '(context, modified) := s in
  let '(block, mkBranch to_block cur_params) := candidate in
  n ← num_args context to_block;
  to_b ← block_content context to_block;
  b ← block_content context block;
  if (0 <? n)%nat && negb (bool_decide (preds to_b ∩ preds b = ∅)) then Ok s
  else
    let preds := hash_iter (preds b) in
    context ← fold_ok (relink_pred block to_block cur_params) context preds;
    Ok (context, modified || negb (bool_decide (preds = []))).

Definition unlink_empty_blocks (context : Context) (function : Function) : Result (Context * bool) :=
  l ← block_iter context function;
  candidates ← filter_map_ok (unlink_candidate context) (tail l);
  fold_ok unlink_block (context, false) candidates.
End unlink.

(** ** Dead blocks *)

(** The worklist is a stack; its head is the last element of the vector. *)
Definition mark_succ (s : list Block * gset Block) (br : BranchToWithArgs) : list Block * gset Block :=
  if bool_decide (br_block br ∈ s.2) then s else (br_block br :: s.1, {[br_block br]} ∪ s.2).

Fixpoint mark_loop (fuel : nat) (context : Context) (worklist : list Block) (reachable : gset Block) : Result (gset Block) :=
  match worklist with
  | [] => Ok reachable
  | block :: worklist' =>
      match fuel with
      | O => Err OutOfFuel
      | S fuel' =>
          succs ← successors context block;
          let s := foldl mark_succ (worklist', reachable) succs in
          mark_loop fuel' context s.1 s.2
      end
  end.

Definition remove_dead (function : Function) (reachable : gset Block) (s : Context * bool) (block : Block) : Result (Context * bool) :=
  if bool_decide (block ∈ reachable) then Ok s
  else
    succs ← successors s.1 block;
    context ← fold_ok (fun context br => remove_pred context (br_block br) block) s.1 succs;
    context ← remove_block context function block;
    Ok (context, true).

(** A block is put on the worklist once. *)
Definition remove_dead_blocks (context : Context) (function : Function) : Result (Context * bool) :=
  entry_block ← get_entry_block context function;
  reachable ← mark_loop (S (size (blocks context))) context [entry_block] {[entry_block]};
  l ← block_iter context function;
  fold_ok (remove_dead function reachable) (context, false) l.

(** ** Chains of blocks *)

Definition check_candidate (context : Context) (from_block : Block) : Result (option (Block * Block)) :=
  t ← get_terminator context from_block;
  match t with
  | Some (_, IBranch br) => n ← num_predecessors context (br_block br); Ok (if (n =? 1)%nat then Some (from_block, br_block br) else None)
  | _ => Ok None
  end.

(** The blocks of the chain after its first block *)
Fixpoint block_chain (fuel : nat) (context : Context) (last : Block) : Result (list Block) :=
  o ← check_candidate context last;
  match o with
  | None => Ok []
  | Some next_pair =>
      match fuel with
      | O => Err OutOfFuel
      | S fuel' => l ← block_chain fuel' context next_pair.2; Ok (next_pair.2 :: l)
      end
  end.

Definition set_parent (from_block : Block) (context : Context) (val : Value) : Result Context :=
  o ← get_instruction context val;
  i ← expect_some o "called `Option::unwrap()` on a `None` value";
  Ok (set_values context (<[val := VInstruction from_block i.2]> (values context))).

Definition map_arg (from_params : list Value) (replace_map : gmap Value Value) (p : nat * Value) : Result (gmap Value Value) :=
  param ← expect_some (from_params !! p.1) "index out of bounds"; Ok (<[p.2 := param]> replace_map).

Definition merge_block (function : Function) (from_block : Block) (s : Context * gmap Value Value) (to_block : Block) : Result (Context * gmap Value Value) :=
  let '(context, replace_map) := s in
  from_params ← get_succ_params context from_block to_block;
  to_b ← block_content context to_block;
  replace_map ← fold_ok (map_arg from_params) replace_map (imap pair (args to_b));
  context ← fold_ok (set_parent from_block) context (instructions to_b);
  context ← remove_last_instruction context from_block;
  to_b ← block_content context to_block;
  context ← insert_slice context from_block (instructions to_b);
  context ← remove_block context function to_block;
  Ok (context, replace_map).

Record MergeState : Type := mkMergeState { ms_context : Context; deleted_blocks : gset Block; replace_map : gmap Value Value; ms_modified : bool }.

(** A chain visits each block once. *)
Definition merge_chain (function : Function) (s : MergeState) (from_block : Block) : Result MergeState :=
  if bool_decide (from_block ∈ deleted_blocks s) then Ok s
  else
    let context := ms_context s in
    chain ← block_chain (size (blocks context)) context from_block;
    match last chain with
    | None => Ok s
    | Some final_to_block =>
        final_to_block_succs ← successors context final_to_block;
        r ← fold_ok (merge_block function from_block) (context, replace_map s) chain;
        context ← fold_ok (fun context br => replace_pred context (br_block br) final_to_block from_block) r.1 final_to_block_succs;
        Ok (mkMergeState context (list_to_set chain ∪ deleted_blocks s) r.2 true)
    end.

Definition merge_blocks (context : Context) (function : Function) : Result (Context * bool) :=
  l ← block_iter context function;
  s ← fold_ok (merge_chain function) (mkMergeState context ∅ ∅ false) l;
  if bool_decide (replace_map s = ∅) then Ok (ms_context s, ms_modified s)
  else if ms_modified s then context ← Function_replace_values (ms_context s) function (replace_map s); Ok (context, ms_modified s)
  else Err (Panic "assertion failed: modified").

(** ** The pass *)

Definition simplify_cfg `{!HashOrder Block} (context : Context) (function : Function) : Result (Context * bool) :=
  r1 ← remove_dead_blocks context function;
  r2 ← merge_blocks r1.1 function;
  r3 ← unlink_empty_blocks r2.1 function;
  r4 ← remove_dead_blocks r3.1 function;
  Ok (r4.1, r1.2 || r2.2 || r3.2 || r4.2).
