(* ===== verification/IrCfg.v ===== *)
(** * Control flow of the IR

    Well-formed functions: blocks end with their only terminator, and know their
    predecessors.  [remove_dead_blocks] keeps the blocks that are reachable. *)

From S2P Require Import Prelude IrTypes IrConstant IrCore IrRun IrTransform IrFoldTheory IrSimplify.
Local Open Scope Z_scope.

(** ** Well-formed functions *)

Section well_formed.
Context (ctx : Context).

(** The block [b] ends with the terminator [t]. *)
Definition ends_with (b : Block) (c : BlockContent) (body : list Value) (t : Value) (op : InstOp) : Prop :=
  blocks ctx !! b = Some c /\ instructions c = body ++ [t] /\ (exists p, values ctx !! t = Some (VInstruction p op)) /\ InstOp_is_terminator op = true.

Definition edge (b b' : Block) : Prop := exists c body t op br, ends_with b c body t op /\ br ∈ targets op /\ br_block br = b'.

(** A value that exists: an argument of its block, a constant of the pool or an instruction *)
Definition usable (x : Value) : Prop :=
  match values ctx !! x with
  | Some (VArgument b i _) => exists c, blocks ctx !! b = Some c /\ args c !! i = Some x
  | Some (VConstant k) => is_Some (IrConstant.constants (constants ctx) !! k)
  | Some (VInstruction _ _) => True
  | None => False
  end.

Record well_formed (f : Function) (fc : FunctionContent) (avail : Block -> gset Value) : Prop := {
  wf_function : functions ctx !! f = Some fc;
  wf_scoped : scoped ctx f avail;
  wf_terminator b c : b ∈ f_blocks fc -> blocks ctx !! b = Some c ->
    exists body t op, ends_with b c body t op /\ forall u p o, u ∈ body -> values ctx !! u = Some (VInstruction p o) -> InstOp_is_terminator o = false;
  wf_preds b c p : b ∈ f_blocks fc -> blocks ctx !! b = Some c -> p ∈ preds c <-> p ∈ f_blocks fc /\ edge p b;
  wf_entry e c : head (f_blocks fc) = Some e -> blocks ctx !! e = Some c -> preds c = ∅;
  wf_arity b c body t op br : b ∈ f_blocks fc -> ends_with b c body t op -> br ∈ targets op ->
    exists c', blocks ctx !! br_block br = Some c' /\ length (br_args br) = length (args c');
  wf_args b c i x : b ∈ f_blocks fc -> blocks ctx !! b = Some c -> args c !! i = Some x -> exists ty, values ctx !! x = Some (VArgument b i ty);
  wf_used b c v p op x : b ∈ f_blocks fc -> blocks ctx !! b = Some c -> v ∈ instructions c -> values ctx !! v = Some (VInstruction p op) -> x ∈ get_operands op -> usable x;
}.

Lemma ends_with_det b c body t op c' body' t' op' : ends_with b c body t op -> ends_with b c' body' t' op' -> c' = c /\ body' = body /\ t' = t /\ op' = op.
Proof.
  intros (Hc & Hi & (p & Hv) & _) (Hc' & Hi' & (p' & Hv') & _). rewrite Hc in Hc'. injection Hc' as <-. rewrite Hi in Hi'. apply app_inj_tail in Hi' as [<- <-].
  rewrite Hv in Hv'. by injection Hv' as _ <-.
Qed.

Lemma ends_with_terminator b c body t op : ends_with b c body t op -> get_terminator ctx b = Ok (Some (t, op)).
Proof.
  intros (Hc & Hi & (p & Hv) & Ht). unfold get_terminator, block_content, value_datum, index, expect_some. rewrite Hc. next_step. rewrite Hi, last_snoc, Hv. next_step. by rewrite Ht.
Qed.

Lemma ends_with_successors b c body t op : ends_with b c body t op -> successors ctx b = Ok (targets op).
Proof. intros He. unfold successors. rewrite (ends_with_terminator _ _ _ _ _ He). next_step. destruct op; done. Qed.

Lemma edge_targets b c body t op x : ends_with b c body t op -> edge b x <-> exists br, br ∈ targets op /\ br_block br = x.
Proof.
  intros He. split; [|intros (br & ? & ?); by exists c, body, t, op, br]. intros (c1 & b1 & t1 & o1 & br & He1 & Hbr & Hx).
  destruct (ends_with_det _ _ _ _ _ _ _ _ _ He He1) as (-> & -> & -> & ->). by exists br.
Qed.

Lemma edge_blocks b c body t op x : ends_with b c body t op -> edge b x <-> x ∈ map br_block (targets op).
Proof. intros He. rewrite (edge_targets _ _ _ _ _ _ He), list_elem_of_fmap. split; intros (br & H1 & H2); by exists br. Qed.

Lemma block_content_Ok b c : blocks ctx !! b = Some c -> block_content ctx b = Ok c.
Proof. intros Hb. unfold block_content, index, expect_some. by rewrite Hb. Qed.

Lemma targets_terminator op br : br ∈ targets op -> InstOp_is_terminator op = true.
Proof. destruct op; cbn; try done; intros Hbr; by apply elem_of_nil in Hbr. Qed.
End well_formed.

Section facts.
Context (ctx : Context) (f : Function) (fc : FunctionContent) (avail : Block -> gset Value) (Hwf : well_formed ctx f fc avail).

Lemma wf_block b : b ∈ f_blocks fc -> exists c body t op, ends_with ctx b c body t op /\ forall u p o, u ∈ body -> values ctx !! u = Some (VInstruction p o) -> InstOp_is_terminator o = false.
Proof.
  intros Hb. destruct (sc_block _ _ _ (wf_scoped _ _ _ _ Hwf) fc b (wf_function _ _ _ _ Hwf) Hb) as (c & Hc & _).
  destruct (wf_terminator _ _ _ _ Hwf b c Hb Hc) as (body & t & op & ?). by exists c, body, t, op.
Qed.

Lemma wf_nodup : NoDup (f_blocks fc).
Proof. destruct (sc_function _ _ _ (wf_scoped _ _ _ _ Hwf)) as (fc' & e & Hf' & _ & _ & Hnd). rewrite (wf_function _ _ _ _ Hwf) in Hf'. by injection Hf' as <-. Qed.

Lemma wf_head : exists e, head (f_blocks fc) = Some e /\ e ∈ f_blocks fc.
Proof.
  destruct (sc_function _ _ _ (wf_scoped _ _ _ _ Hwf)) as (fc' & e & Hf' & He & _). rewrite (wf_function _ _ _ _ Hwf) in Hf'. injection Hf' as <-.
  exists e. split; [done|]. destruct (f_blocks fc); [done|]. injection He as ->. by left.
Qed.

Lemma ends_with_point b c body t op : b ∈ f_blocks fc -> ends_with ctx b c body t op -> at_point ctx (f_blocks fc) b c body t [] op.
Proof. intros Hb (Hc & Hi & Hv & _). by split_and!. Qed.

(** An instruction with targets is the terminator. *)
Lemma point_ends_with b c before v after op br : at_point ctx (f_blocks fc) b c before v after op -> br ∈ targets op -> after = [] /\ ends_with ctx b c before v op.
Proof.
  intros (Hb & Hc & Hi & p & Hv) Hbr%targets_terminator. destruct (wf_terminator _ _ _ _ Hwf b c Hb Hc) as (body & t & op' & (_ & Hi' & _) & Hbody).
  destruct (last after) as [u|] eqn:Hl.
  - apply last_Some in Hl as [after' ->]. exfalso. rewrite Hi in Hi'. rewrite app_comm_cons, app_assoc in Hi'. apply app_inj_tail in Hi' as [<- _].
    rewrite (Hbody v p op) in Hbr; [done|set_solver|done].
  - apply last_None in Hl as ->. split; [done|]. split_and!; [done..|by exists p|done].
Qed.

Lemma edge_point b b' : b ∈ f_blocks fc -> edge ctx b b' <-> exists c before v after op br, at_point ctx (f_blocks fc) b c before v after op /\ br ∈ targets op /\ br_block br = b'.
Proof.
  intros Hb. split.
  - intros (c & body & t & op & br & He & Hbr & Hb'). exists c, body, t, [], op, br. split; [by apply ends_with_point|done].
  - intros (c & before & v & after & op & br & Hat & Hbr & Hb'). destruct (point_ends_with _ _ _ _ _ _ _ Hat Hbr) as [-> He]. by exists c, before, v, op, br.
Qed.

Lemma edge_block b b' : b ∈ f_blocks fc -> edge ctx b b' -> b' ∈ f_blocks fc.
Proof.
  intros Hb (c & before & v & after & op & br & Hat & Hbr & <-)%edge_point; [|done].
  by apply (sc_edges _ _ _ (wf_scoped _ _ _ _ Hwf) fc b c before v after op br (wf_function _ _ _ _ Hwf) Hat Hbr).
Qed.
End facts.

(** Values stay usable where blocks keep their arguments and values their kinds. *)
Lemma usable_keep ctx ctx' x : usable ctx x -> constants ctx' = constants ctx ->
  (forall b c, blocks ctx !! b = Some c -> exists c', blocks ctx' !! b = Some c' /\ args c' = args c) ->
  (match values ctx !! x with Some (VInstruction _ _) => exists p op, values ctx' !! x = Some (VInstruction p op) | d => values ctx' !! x = d end) -> usable ctx' x.
Proof.
  unfold usable. intros Hu Hco Hbl Hv. destruct (values ctx !! x) as [[b i ty|k|p op]|]; [| | |done].
  - rewrite Hv. destruct Hu as (c & Hc & Hx). destruct (Hbl b c Hc) as (c' & Hc' & Ha). exists c'. by rewrite Ha.
  - by rewrite Hv, Hco.
  - destruct Hv as (p' & op' & ->). done.
Qed.

(** ** The same code *)

Definition code (c : BlockContent) : list Value * list Value := (args c, instructions c).

(** Contexts that differ in the predecessors of blocks, and in their functions *)
Record same_code (ctx ctx' : Context) : Prop := {
  sm_types : types ctx' = types ctx;
  sm_constants : constants ctx' = constants ctx;
  sm_values : values ctx' = values ctx;
  sm_blocks b : code <$> blocks ctx' !! b = code <$> blocks ctx !! b;
}.

#[export] Instance same_code_preorder : PreOrder same_code.
Proof. split; [by split|]. intros x y z [A1 A2 A3 A4] [B1 B2 B3 B4]. split; [congruence..|]. intros b. by rewrite B4. Qed.

Lemma same_code_sym ctx ctx' : same_code ctx ctx' -> same_code ctx' ctx.
Proof. intros [A1 A2 A3 A4]. by split. Qed.

Lemma same_code_block ctx ctx' b c : same_code ctx ctx' -> blocks ctx !! b = Some c -> exists c', blocks ctx' !! b = Some c' /\ args c' = args c /\ instructions c' = instructions c.
Proof.
  intros Hs Hc. pose proof (sm_blocks _ _ Hs b) as Hb. rewrite Hc in Hb. cbn in Hb. apply fmap_Some in Hb as (c' & Hc' & [= Ha Hi]). by exists c'.
Qed.

Section same_run.
Context `{IrVm} (ctx ctx' : Context) (Hs : same_code ctx ctx').

Lemma same_eval e v : eval ctx' e v = eval ctx e v.
Proof. unfold eval. by rewrite (sm_values _ _ Hs), (sm_constants _ _ Hs). Qed.

Lemma same_mapM e l : mapM (eval ctx' e) l = mapM (eval ctx e) l.
Proof. induction l as [|x l IH]; [done|]. cbn. by rewrite same_eval, IH. Qed.

Lemma same_enter e w br : enter ctx' e w br = enter ctx e w br.
Proof.
  unfold enter. rewrite same_mapM. destruct (mapM (eval ctx e) (br_args br)) as [vals|]; [|done]. cbn. pose proof (sm_blocks _ _ Hs (br_block br)) as Hb.
  destruct (blocks ctx' !! br_block br) as [c'|], (blocks ctx !! br_block br) as [c|]; try done. cbn in Hb |- *. injection Hb as -> ->. done.
Qed.

Lemma same_step st : step ctx' st = step ctx st.
Proof.
  unfold step. destruct (rest st) as [|v l]; [done|]. rewrite (sm_values _ _ Hs). destruct (values ctx !! v) as [[| |p op]|]; try done.
  destruct op; rewrite ?same_enter, ?same_mapM, ?same_eval; try done. destruct (eval ctx (env st) cond_value) as [a|]; [|done]. cbn. destruct (as_bool a) as [[]|]; cbn; by rewrite ?same_enter.
Qed.

Lemma same_run n st : run ctx' n st = run ctx n st.
Proof. revert st. induction n as [|n IH]; intros st; [done|]. cbn. rewrite same_step. destruct (step ctx st) as [[]|]; try done. Qed.

Lemma same_code_refines f : (forall vals w, start ctx' f vals w = start ctx f vals w) -> refines ctx ctx' f.
Proof using Hs.
  intros Hst. split.
  - intros vals w o (st & n & H1 & H2). exists st, n. by rewrite Hst, same_run.
  - intros vals w (st & H1 & H2). exists st. split; [by rewrite Hst|]. intros n. destruct (H2 n) as [st' ?]. exists st'. by rewrite same_run.
Qed.

Lemma same_start f fc fc' vals w : functions ctx !! f = Some fc -> functions ctx' !! f = Some fc' -> head (f_blocks fc') = head (f_blocks fc) -> start ctx' f vals w = start ctx f vals w.
Proof.
  intros Hfc Hfc' Hh. unfold start. rewrite Hfc, Hfc'. cbn. rewrite Hh. destruct (head (f_blocks fc)) as [e|]; [|done]. cbn. pose proof (sm_blocks _ _ Hs e) as Hb.
  destruct (blocks ctx' !! e) as [c'|], (blocks ctx !! e) as [c|]; try done. cbn in Hb |- *. by injection Hb as -> ->.
Qed.
End same_run.

Lemma same_ends_with ctx ctx' b c body t op : same_code ctx ctx' -> ends_with ctx b c body t op -> exists c', ends_with ctx' b c' body t op /\ args c' = args c.
Proof.
  intros Hs (Hc & Hi & Hv & Ht). destruct (same_code_block _ _ _ _ Hs Hc) as (c' & Hc' & Ha & Hi'). exists c'. split; [|done].
  split_and!; [done|by rewrite Hi'|by rewrite (sm_values _ _ Hs)|done].
Qed.

Lemma same_edge ctx ctx' b b' : same_code ctx ctx' -> edge ctx' b b' <-> edge ctx b b'.
Proof.
  assert (forall x y, same_code x y -> edge x b b' -> edge y b b') as Hall.
  { intros x y Hs (c & body & t & op & br & He & Hbr & Hb'). destruct (same_ends_with _ _ _ _ _ _ _ Hs He) as (c' & He' & _). by exists c', body, t, op, br. }
  intros Hs. split; apply Hall; [by apply same_code_sym|done].
Qed.

Lemma same_is_const ctx ctx' v k : same_code ctx ctx' -> is_const ctx' v k <-> is_const ctx v k.
Proof. intros Hs. unfold is_const. by rewrite (sm_values _ _ Hs), (sm_constants _ _ Hs). Qed.

Lemma same_point ctx ctx' l l' b c before v after op : same_code ctx ctx' -> b ∈ l -> at_point ctx' l' b c before v after op ->
  exists c0, at_point ctx l b c0 before v after op /\ args c0 = args c.
Proof.
  intros Hs Hb (_ & Hc & Hi & Hv). destruct (same_code_block _ _ b c (same_code_sym _ _ Hs) Hc) as (c0 & Hc0 & Ha & Hi0). exists c0. split; [|done].
  split_and!; [done|done|by rewrite Hi0|by rewrite <- (sm_values _ _ Hs)].
Qed.

Lemma same_defined ctx ctx' b x : same_code ctx ctx' -> defined_in ctx' b x -> defined_in ctx b x.
Proof.
  intros Hs (c & Hc & Hx). destruct (same_code_block _ _ b c (same_code_sym _ _ Hs) Hc) as (c0 & Hc0 & Ha & Hi0). exists c0. by rewrite Ha, Hi0.
Qed.

(** Fewer blocks, closed under branches, with the same entry and exact predecessors *)
Lemma same_well_formed ctx ctx' f fc fc' avail :
  well_formed ctx f fc avail -> same_code ctx ctx' -> functions ctx' !! f = Some fc' -> head (f_blocks fc') = head (f_blocks fc) -> NoDup (f_blocks fc') ->
  (forall b, b ∈ f_blocks fc' -> b ∈ f_blocks fc) -> (forall b b', b ∈ f_blocks fc' -> edge ctx b b' -> b' ∈ f_blocks fc') ->
  (forall b c p, b ∈ f_blocks fc' -> blocks ctx' !! b = Some c -> p ∈ preds c <-> p ∈ f_blocks fc' /\ edge ctx p b) ->
  well_formed ctx' f fc' avail.
Proof.
  intros Hwf Hs Hf' Hh Hnd Hsub Hcl Hp. pose proof (wf_scoped _ _ _ _ Hwf) as Hsc. pose proof (wf_function _ _ _ _ Hwf) as Hfc.
  assert (forall b c, blocks ctx' !! b = Some c -> exists c0, blocks ctx !! b = Some c0 /\ args c0 = args c /\ instructions c0 = instructions c) as Hback
    by (intros b c; by apply same_code_block, same_code_sym).
  split.
  - done.
  - split.
    + destruct (sc_function _ _ _ Hsc) as (fc0 & e & Hf0 & He & Ha & _). rewrite Hfc in Hf0. injection Hf0 as <-. exists fc', e. by rewrite Hh.
    + intros fc0 b Hf0 Hb. rewrite Hf' in Hf0. injection Hf0 as <-. destruct (sc_block _ _ _ Hsc fc b Hfc (Hsub b Hb)) as (c & Hc & Hn).
      destruct (same_code_block _ _ _ _ Hs Hc) as (c' & Hc' & Ha & Hi). exists c'. by rewrite Ha, Hi.
    + intros fc0 b c v Hf0 Hb (c0 & Hc0 & _ & Hi)%Hback Hv. rewrite Hf' in Hf0. injection Hf0 as <-. rewrite (sm_values _ _ Hs). eapply (sc_instruction _ _ _ Hsc fc b c0); [done|by apply Hsub|done|by rewrite Hi].
    + intros fc0 b c v Hf0 Hb (c0 & Hc0 & Ha & _)%Hback Hv. rewrite Hf' in Hf0. injection Hf0 as <-. rewrite (sm_values _ _ Hs). eapply (sc_argument _ _ _ Hsc fc b c0); [done|by apply Hsub|done|by rewrite Ha].
    + intros fc0 b b' x Hf0 Hb Hb' Hd%(same_defined _ _ _ _ Hs) Hd'%(same_defined _ _ _ _ Hs). rewrite Hf' in Hf0. injection Hf0 as <-. eapply (sc_unique _ _ _ Hsc fc); [done|by apply Hsub|by apply Hsub|done|done].
    + intros fc0 b c before v after op x Hf0 Hat Hx. rewrite Hf' in Hf0. injection Hf0 as <-. assert (b ∈ f_blocks fc) as Hb by apply Hsub, Hat.
      destruct (same_point _ _ _ _ _ _ _ _ _ _ Hs Hb Hat) as (c0 & Hat0 & Ha). destruct (sc_operands _ _ _ Hsc fc b c0 before v after op x Hfc Hat0 Hx) as [[k Hk]|Hin].
      * left. exists k. by apply (same_is_const _ _ _ _ Hs).
      * right. by rewrite <- Ha.
    + intros fc0 b c before v after op br Hf0 Hat Hbr. rewrite Hf' in Hf0. injection Hf0 as <-. assert (b ∈ f_blocks fc) as Hb by apply Hsub, Hat.
      destruct (same_point _ _ _ _ _ _ _ _ _ _ Hs Hb Hat) as (c0 & Hat0 & Ha). split.
      * apply (Hcl b); [by apply Hat|]. apply (edge_point _ _ _ _ Hwf); [done|]. by exists c0, before, v, after, op, br.
      * rewrite <- Ha. apply (sc_edges _ _ _ Hsc fc b c0 before v after op br Hfc Hat0 Hbr).
  - intros b c Hb Hc. destruct (wf_block _ _ _ _ Hwf b (Hsub b Hb)) as (c0 & body & t & op & He & Hbody). destruct (same_ends_with _ _ _ _ _ _ _ Hs He) as (c' & He' & _).
    assert (c' = c) as -> by (destruct He' as (Hc' & _); congruence). exists body, t, op. split; [done|]. by rewrite (sm_values _ _ Hs).
  - intros b c p Hb Hc. rewrite (Hp b c p Hb Hc). by rewrite (same_edge _ _ _ _ Hs).
  - intros e c He Hc. apply set_eq. intros p. split; [|set_solver]. intros Hin. apply (Hp e c p) in Hin as [Hpb Hedge]; [|destruct (f_blocks fc'); [done|]; injection He as ->; by left|done].
    destruct (Hback e c Hc) as (c0 & Hc0 & _). rewrite Hh in He. pose proof (wf_entry _ _ _ _ Hwf e c0 He Hc0) as Hempty.
    assert (p ∈ preds c0) as Hin; [|by rewrite Hempty in Hin]. apply (wf_preds _ _ _ _ Hwf e c0 p); [destruct (f_blocks fc); [done|]; injection He as ->; by left|done|]. split; [by apply Hsub|done].
  - intros b c body t op br Hb He Hbr. destruct (same_ends_with _ _ _ _ _ _ _ (same_code_sym _ _ Hs) He) as (c0 & He0 & _).
    destruct (wf_arity _ _ _ _ Hwf b c0 body t op br (Hsub b Hb) He0 Hbr) as (ct & Hct & Hlen). destruct (same_code_block _ _ _ _ Hs Hct) as (ct' & Hct' & Ha & _). exists ct'. by rewrite Ha.
  - intros b c i x Hb (c0 & Hc0 & Ha & _)%Hback Hx. rewrite (sm_values _ _ Hs). apply (wf_args _ _ _ _ Hwf b c0 i x); [by apply Hsub|done|by rewrite Ha].
  - intros b c v p op x Hb (c0 & Hc0 & _ & Hi)%Hback. rewrite (sm_values _ _ Hs), <- Hi. intros Hv Hop Hx.
    eapply (usable_keep ctx); [apply (wf_used _ _ _ _ Hwf b c0 v p op x (Hsub b Hb) Hc0 Hv Hop Hx)|by rewrite (sm_constants _ _ Hs)| |].
    + intros b' c' Hc'. destruct (same_code_block _ _ _ _ Hs Hc') as (c'' & Hc'' & Ha & _). by exists c''.
    + rewrite (sm_values _ _ Hs). destruct (values ctx !! x) as [[]|]; try done. by eexists _, _.
Qed.

(** ** Marking *)

Lemma mark_succs brs w r : NoDup w -> (forall b, b ∈ w -> b ∈ r) ->
  exists new, foldl mark_succ (w, r) brs = (new ++ w, list_to_set new ∪ r) /\ NoDup (new ++ w) /\ (forall b, b ∈ new -> b ∉ r) /\
    (forall b, b ∈ new -> b ∈ map br_block brs) /\ forall b, b ∈ map br_block brs -> b ∈ new \/ b ∈ r.
Proof.
  revert w r. induction brs as [|br brs IH]; intros w r Hnd Hw.
  { exists []. cbn. split_and!; [by rewrite (left_id_L ∅ (∪))|done|by intros b ?%elem_of_nil..]. }
  cbn [foldl map]. unfold mark_succ at 2. cbn [fst snd]. case_bool_decide as Hbr.
  - destruct (IH w r Hnd Hw) as (new & Heq & H1 & H2 & H3 & H4). exists new. split_and!; [done|done|done|set_solver|]. intros b [->|Hb]%elem_of_cons; [by right|by apply H4].
  - destruct (IH (br_block br :: w) ({[br_block br]} ∪ r)) as (new & Heq & H1 & H2 & H3 & H4); [constructor; [by intros ?%Hw|done]|set_solver|].
    exists (new ++ [br_block br]). rewrite <- app_assoc. split_and!; [|done|set_solver|set_solver|set_solver].
    rewrite Heq. f_equal. rewrite list_to_set_app_L. set_solver.
Qed.

Section dead.
Context (ctx : Context) (f : Function) (fc : FunctionContent) (avail : Block -> gset Value) (Hwf : well_formed ctx f fc avail).
Abbreviation bl := (f_blocks fc).
Abbreviation reached b := (exists p, path ctx fc b p).

Lemma reached_step b b' : b ∈ bl -> edge ctx b b' -> reached b -> reached b'.
Proof. intros Hb He [p Hp]. apply (edge_point _ _ _ _ Hwf) in He as (c & before & v & after & op & br & Hat & Hbr & <-); [|done]. exists (b :: p). by eapply path_step. Qed.

Lemma mark_loop_Ok fuel (w : list Block) (r d : gset Block) :
  NoDup w -> (forall b, b ∈ r <-> b ∈ d \/ b ∈ w) -> (forall b, b ∈ w -> b ∉ d) -> (forall b, b ∈ r -> b ∈ bl /\ reached b) ->
  (forall b b', b ∈ d -> edge ctx b b' -> b' ∈ r) -> (S (size (blocks ctx)) <= fuel + size d)%nat ->
  exists r', mark_loop fuel ctx w r = Ok r' /\ (forall b, b ∈ r -> b ∈ r') /\ (forall b, b ∈ r' -> b ∈ bl /\ reached b) /\ forall b b', b ∈ r' -> edge ctx b b' -> b' ∈ r'.
Proof using Hwf.
  revert w r d. induction fuel as [|fuel IH]; intros w r d Hnd Hr Hwd Hin Hcl Hfuel.
  - exfalso. assert (size d <= size (dom (blocks ctx)))%nat as Hle; [|rewrite size_dom in Hle; lia]. apply subseteq_size. intros b Hb.
    destruct (Hin b) as [Hbl _]; [apply Hr; by left|]. destruct (wf_block _ _ _ _ Hwf b Hbl) as (c & ? & ? & ? & (Hc & _) & _). by apply elem_of_dom; exists c.
  - destruct w as [|b w]; cbn [mark_loop].
    { exists r. split_and!; [done|done|done|]. intros b b' Hb. apply Hcl. apply Hr in Hb as [?|?%elem_of_nil]; done. }
    destruct (Hin b) as [Hbl Hreach]; [apply Hr; right; by left|]. destruct (wf_block _ _ _ _ Hwf b Hbl) as (c & body & t & op & He & _).
    rewrite (ends_with_successors _ _ _ _ _ _ He). next_step. apply NoDup_cons in Hnd as [Hbw Hnd].
    destruct (mark_succs (targets op) w r Hnd) as (new & -> & H1 & H2 & H3 & H4); [intros; apply Hr; right; by right|]. cbn [fst snd].
    assert (forall b', b' ∈ map br_block (targets op) <-> edge ctx b b') as Hedge by (intros b'; symmetry; by eapply edge_blocks).
    destruct (IH (new ++ w) (list_to_set new ∪ r) ({[b]} ∪ d)) as (r' & Heq & R1 & R2 & R3).
    + done.
    + intros b'. rewrite elem_of_union, elem_of_list_to_set, Hr, elem_of_union, elem_of_singleton, elem_of_app, elem_of_cons. tauto.
    + intros b' [Hb'|Hb']%elem_of_app; [specialize (H2 b' Hb'); rewrite Hr in H2; set_solver|]. specialize (Hwd b' ltac:(by right)). set_solver.
    + intros b' [Hb'%elem_of_list_to_set|Hb']%elem_of_union; [|by apply Hin]. apply H3, Hedge in Hb'. split; [by eapply edge_block|]. by eapply reached_step.
    + intros b1 b2 [->%elem_of_singleton|Hb1]%elem_of_union He'; [apply Hedge, H4 in He' as [?|?]; set_solver|]. apply (Hcl b1 b2 Hb1) in He'. set_solver.
    + rewrite size_union by (specialize (Hwd b ltac:(by left)); set_solver). rewrite size_singleton. lia.
    + exists r'. split_and!; [done| |done|done]. intros b' Hb'. apply R1. set_solver.
Qed.
End dead.

(** ** Removing *)

Section remove.
Context (ctx : Context) (f : Function) (fc : FunctionContent) (avail : Block -> gset Value) (Hwf : well_formed ctx f fc avail) (reachable : gset Block).
Abbreviation bl := (f_blocks fc).

(** A block that the loop has removed *)
Abbreviation gone done b := (b ∈ done /\ b ∉ reachable).

Record removing (done : list Block) (ctx' : Context) : Prop := {
  rv_code : same_code ctx ctx';
  rv_function : functions ctx' !! f = Some (set_f_blocks (List.filter (fun b => negb (bool_decide (gone done b))) bl) fc);
  rv_preds b c c' p : blocks ctx !! b = Some c -> blocks ctx' !! b = Some c' -> p ∈ preds c' <-> p ∈ preds c /\ ~ (gone done p /\ edge ctx p b);
}.

Lemma update_preds_code k b c g : blocks k !! b = Some c -> code (g c) = code c -> exists k', update_block k b g = Ok k' /\ same_code k k' /\ functions k' = functions k /\ blocks k' = <[b := g c]> (blocks k).
Proof.
  intros Hc Hg. unfold update_block. rewrite (block_content_Ok _ _ _ Hc). next_step. eexists. split; [done|]. split_and!; [|done|done]. split; [done..|]. intros x. cbn.
  destruct (decide (x = b)) as [->|Hne]; [rewrite lookup_insert_eq, Hc; cbn; by rewrite Hg|by rewrite lookup_insert_ne].
Qed.

Lemma remove_preds brs k b : (forall br, br ∈ brs -> is_Some (blocks k !! br_block br)) ->
  exists k', fold_ok (fun context br => remove_pred context (br_block br) b) k brs = Ok k' /\ same_code k k' /\ functions k' = functions k /\
    forall x c c' p, blocks k !! x = Some c -> blocks k' !! x = Some c' -> p ∈ preds c' <-> p ∈ preds c /\ ~ (p = b /\ x ∈ map br_block brs).
Proof.
  revert k. induction brs as [|br brs IH]; intros k Hall.
  { exists k. split_and!; [done..|]. intros x c c' p Hc Hc'. rewrite Hc in Hc'. injection Hc' as <-. set_solver. }
  cbn [fold_ok map]. destruct (Hall br ltac:(by left)) as [c0 Hc0].
  edestruct (update_preds_code k (br_block br) c0 (fun b0 => mkBlock (block_function b0) (instructions b0) (args b0) (preds b0 ∖ {[b]})) Hc0) as (k1 & Heq & Hs & Hf & Hb); [done|].
  unfold remove_pred at 2. rewrite Heq. next_step. destruct (IH k1) as (k' & Hk' & Hs' & Hf' & Hp).
  { intros br' Hbr'. destruct (Hall br' ltac:(by right)) as [c1 Hc1]. rewrite Hb. destruct (decide (br_block br' = br_block br)) as [->|?]; [rewrite lookup_insert_eq; by eexists|rewrite lookup_insert_ne by done; by eexists]. }
  exists k'. split_and!; [done|by etrans|by rewrite Hf'|]. intros x c c' p Hc Hc'. destruct (decide (x = br_block br)) as [->|Hne].
  - rewrite Hc0 in Hc. injection Hc as <-. rewrite (Hp _ _ c' p) by (first [done|rewrite Hb, lookup_insert_eq; done]). cbn. set_solver.
  - rewrite (Hp x c c' p) by (first [done|rewrite Hb, lookup_insert_ne; done]). set_solver.
Qed.

Lemma remove_dead_step rest ctx' m b : b ∈ bl -> b ∉ rest -> removing rest ctx' -> exists ctx'' m', remove_dead f reachable (ctx', m) b = Ok (ctx'', m') /\ removing (rest ++ [b]) ctx''.
Proof using Hwf.
  intros Hb Hrest [Hs Hf Hp]. unfold remove_dead. cbn [fst snd]. case_bool_decide as Hr.
  { exists ctx', m. split; [done|]. assert (forall x, gone (rest ++ [b]) x <-> gone rest x) as Hg by (intros x; set_solver). split; [done| |].
    - rewrite Hf. do 2 f_equal. apply filter_ext. intros x. f_equal. by apply bool_decide_ext.
    - intros x c c' p Hc Hc'. by rewrite (Hp x c c' p Hc Hc'), Hg. }
  destruct (wf_block _ _ _ _ Hwf b Hb) as (c & body & t & op & He & _). destruct (same_ends_with _ _ _ _ _ _ _ Hs He) as (c' & He' & _).
  rewrite (ends_with_successors _ _ _ _ _ _ He'). next_step. destruct (remove_preds (targets op) ctx' b) as (k & -> & Hsk & Hfk & Hpk).
  { intros br Hbr. destruct (wf_arity _ _ _ _ Hwf b c body t op br Hb He Hbr) as (ct & Hct & _). destruct (same_code_block _ _ _ _ Hs Hct) as (ct' & Hct' & _). by exists ct'. }
  next_step. unfold remove_block. destruct (same_code_block _ _ b c' Hsk ltac:(apply He')) as (ck & Hck & _). rewrite (block_content_Ok _ _ _ Hck). next_step.
  rewrite Hfk, Hf. cbn [expect_some]. next_step. cbn [f_blocks set_f_blocks]. rewrite bool_decide_true by (apply elem_of_filter_bool; split; [done|]; apply negb_true_iff, bool_decide_false; set_solver).
  next_step. eexists _, _. split; [done|]. split.
  - etrans; [done|]. etrans; [exact Hsk|]. by split.
  - cbn. rewrite lookup_insert_eq. f_equal. unfold set_f_blocks. cbn. f_equal. pose proof (wf_nodup _ _ _ _ Hwf) as Hnd. rewrite remove_first_keep by (by apply NoDup_ListNoDup, List.NoDup_filter, NoDup_ListNoDup).
    clear -Hr. induction bl as [|x l IH]; [done|]. cbn. destruct (decide (x = b)) as [->|Hne].
    + rewrite (bool_decide_true (gone (rest ++ [b]) b)) by set_solver. cbn. destruct (bool_decide (gone rest b)); cbn; [exact IH|]. rewrite (bool_decide_true (b = b)) by done. exact IH.
    + rewrite (bool_decide_ext (gone (rest ++ [b]) x) (gone rest x)) by set_solver. destruct (bool_decide (gone rest x)); cbn; [exact IH|]. rewrite (bool_decide_false (x = b)) by done. cbn. by f_equal.
  - intros x cx cx' p Hcx Hcx'. cbn in Hcx'. destruct (same_code_block _ _ x cx Hs Hcx) as (c1 & Hc1 & _). rewrite (Hpk x c1 cx' p Hc1 Hcx'), (Hp x cx c1 p Hcx Hc1).
    assert (x ∈ map br_block (targets op) <-> edge ctx b x) as Hedge by (symmetry; by eapply edge_blocks).
    rewrite Hedge. split.
    + intros [[H1 H2] H3]. split; [done|]. intros [[[H4|H4%list_elem_of_singleton]%elem_of_app H5] H6]; [by apply H2|]. subst p. by apply H3.
    + intros [H1 H2]. split_and!; [done|set_solver|]. intros [-> H3]. apply H2. set_solver.
Qed.

Lemma remove_loop todo rest ctx' m : bl = rest ++ todo -> removing rest ctx' -> exists ctx'' m', fold_ok (remove_dead f reachable) (ctx', m) todo = Ok (ctx'', m') /\ removing bl ctx''.
Proof using Hwf.
  revert rest ctx' m. induction todo as [|b todo IH]; intros rest ctx' m Hbl Hrv; [exists ctx', m; rewrite app_nil_r in Hbl; by subst rest|].
  pose proof (wf_nodup _ _ _ _ Hwf) as Hnd. rewrite Hbl in Hnd. apply NoDup_app in Hnd as (_ & Hnd & _). cbn [fold_ok].
  destruct (remove_dead_step rest ctx' m b) as (k & m' & -> & Hk); [rewrite Hbl; set_solver|intros Hin; apply (Hnd b Hin); by left|done|]. next_step.
  apply (IH (rest ++ [b])); [|done]. by rewrite <- app_assoc.
Qed.
End remove.

(** The reachable blocks are kept, and are reachable in the new function. *)
Lemma remove_dead_blocks_Ok `{IrVm} ctx f fc avail : well_formed ctx f fc avail ->
  exists ctx' m fc', remove_dead_blocks ctx f = Ok (ctx', m) /\ well_formed ctx' f fc' avail /\ refines ctx ctx' f /\
    (forall b, b ∈ f_blocks fc' <-> exists p, path ctx fc b p) /\ (forall b, b ∈ f_blocks fc' -> exists p, path ctx' fc' b p) /\ sublist (f_blocks fc') (f_blocks fc).
Proof.
  intros Hwf. destruct (wf_head _ _ _ _ Hwf) as (e & He & Hebl). pose proof (wf_function _ _ _ _ Hwf) as Hfc.
  assert (block_iter ctx f = Ok (f_blocks fc)) as Hbi by (unfold block_iter, function_content, index, expect_some; by rewrite Hfc).
  destruct (mark_loop_Ok ctx f fc avail Hwf (S (size (blocks ctx))) [e] {[e]} ∅) as (r & Hr & R1 & R2 & R3).
  { repeat constructor. set_solver. } { set_solver. } { set_solver. } { intros b ->%elem_of_singleton. split; [done|]. exists []. by constructor. } { set_solver. } { rewrite size_empty. lia. }
  assert (forall b, b ∈ r <-> exists p, path ctx fc b p) as Hreach.
  { intros b. split; [by apply R2|]. intros [p Hp]. induction Hp as [e' He'|b p c before v after op br Hp IH Hat Hbr]; [rewrite He in He'; injection He' as <-; apply R1; set_solver|].
    apply (R3 b); [exact IH|]. apply (edge_point _ _ _ _ Hwf); [apply Hat|]. by exists c, before, v, after, op, br. }
  destruct (remove_loop ctx f fc avail Hwf r (f_blocks fc) [] ctx false eq_refl) as (ctx' & m & Hrm & [Hs Hf' Hp']).
  { split; [done| |].
    - rewrite Hfc. f_equal. unfold set_f_blocks. destruct fc as [? ? ? l ? ? ? ? ?]. cbn. f_equal. clear. induction l as [|x l IH]; [done|]. cbn. rewrite bool_decide_false by set_solver. cbn. by f_equal.
    - intros b c c' p Hc Hc'. rewrite Hc in Hc'. injection Hc' as <-. set_solver. }
  set (l' := List.filter (fun b => negb (bool_decide (b ∈ f_blocks fc /\ b ∉ r))) (f_blocks fc)) in *.
  assert (forall b, b ∈ l' <-> b ∈ r) as Hl'.
  { intros b. unfold l'. rewrite elem_of_filter_bool, negb_true_iff, bool_decide_eq_false. split; [|intros Hb; split; [by apply R2|tauto]].
    intros [H1 H2]. destruct (decide (b ∈ r)); [done|]. by destruct H2. }
  assert (head l' = Some e) as Hhead.
  { destruct (f_blocks fc) as [|x l] eqn:Hl; [done|]. injection He as ->. unfold l'. cbn [List.filter]. rewrite bool_decide_false; [done|]. intros [_ Hn]. apply Hn, R1. set_solver. }
  assert (well_formed ctx' f (set_f_blocks l' fc) avail) as Hwf'.
  { apply (same_well_formed ctx ctx' f fc _ avail Hwf Hs Hf'); cbn [f_blocks set_f_blocks].
    - by rewrite Hhead.
    - apply NoDup_ListNoDup, List.NoDup_filter, NoDup_ListNoDup, (wf_nodup _ _ _ _ Hwf).
    - intros b Hb%Hl'. by apply R2.
    - intros b b' Hb%Hl' Hedge. apply Hl'. by eapply R3.
    - intros b c p Hb%Hl' Hc. destruct (same_code_block _ _ b c (same_code_sym _ _ Hs) Hc) as (c0 & Hc0 & _). rewrite (Hp' b c0 c p Hc0 Hc), (wf_preds _ _ _ _ Hwf b c0 p); [|by apply R2|done].
      rewrite Hl'. split; [intros [[H1 H2] H3]; split; [|done]; destruct (decide (p ∈ r)); [done|]; by destruct H3|]. intros [H1 H2]. split; [split; [by apply R2|done]|tauto]. }
  exists ctx', m, (set_f_blocks l' fc). split_and!; [| done| | | |].
  - unfold remove_dead_blocks, get_entry_block. rewrite Hbi. next_step. rewrite He. cbn [expect_some]. next_step. rewrite Hr. next_step. exact Hrm.
  - apply (same_code_refines ctx ctx' Hs). intros vals w. apply (same_start ctx ctx' Hs f fc (set_f_blocks l' fc)); [done|done|]. cbn. by rewrite Hhead.
  - intros b. cbn. by rewrite Hl'.
  - intros b Hb. cbn in Hb. apply Hl', Hreach in Hb as [p Hp]. exists p. induction Hp as [e' He'|b p c before v after op br Hp IH Hat Hbr]; [constructor; cbn; congruence|].
    destruct (same_code_block _ _ b c Hs ltac:(apply Hat)) as (c' & Hc' & _ & Hi). eapply (path_step _ _ b p c' before v after op br); [exact IH| |done].
    split_and!; [cbn; apply Hl', Hreach; by exists p|done|rewrite Hi; apply Hat|rewrite (sm_values _ _ Hs); apply Hat].
  - apply filter_sublist.
Qed.
