(* ===== verification/IrUnlink.v ===== *)
(** * Unlinking empty blocks

    A branch to an empty block goes to where the block branches to.  The candidates are
    found before any branch is changed, so a candidate may branch elsewhere when its turn
    comes; every branch of the new function still leads, through empty blocks of
    the given one, to the same place. *)

From S2P Require Import Prelude IrTypes IrTypeTheory IrConstant IrCore IrRun IrTransform IrFoldTheory IrSimplify IrCfg.
Local Open Scope Z_scope.

Section relinked.
Context (ctx0 : Context).

(** An empty block, and its branch *)
Definition empty_block (b : Block) (br : BranchToWithArgs) : Prop := exists c t, ends_with ctx0 b c [] t (IBranch br) /\ args c = [].

Inductive leads (br : BranchToWithArgs) : BranchToWithArgs -> Prop :=
  | leads_refl : leads br br
  | leads_step b to : leads br (mkBranch b []) -> empty_block b to -> leads br to.

Inductive relink : InstOp -> InstOp -> Prop :=
  | relink_same op : relink op op
  | relink_br br br' : leads br br' -> relink (IBranch br) (IBranch br')
  | relink_cbr c t e t' e' : leads t t' -> leads e e' -> relink (IConditionalBranch c t e) (IConditionalBranch c t' e').

Definition relink_datum (d d' : ValueDatum) : Prop :=
  match d, d' with VInstruction p op, VInstruction p' op' => p' = p /\ relink op op' | _, _ => d' = d end.

Record relinked (ctx : Context) : Prop := {
  rl_types : types ctx = types ctx0;
  rl_constants : constants ctx = constants ctx0;
  rl_functions : functions ctx = functions ctx0;
  rl_blocks b : code <$> blocks ctx !! b = code <$> blocks ctx0 !! b;
  rl_values v : option_Forall2 relink_datum (values ctx0 !! v) (values ctx !! v);
}.

Lemma relinked_refl : relinked ctx0.
Proof.
  split; [done..|]. intros v. destruct (values ctx0 !! v) as [d|]; constructor. destruct d; [done|done|]. split; [done|constructor].
Qed.

(** ** The same runs *)

Section simulation.
Context `{IrVm} (ctx : Context) (Hrl : relinked ctx).

Lemma relinked_eval e v : eval ctx e v = eval ctx0 e v.
Proof.
  unfold eval. rewrite (rl_constants _ Hrl). destruct (rl_values _ Hrl v) as [d d' Hd|]; [|done]. destruct d, d'; cbn in Hd; try done; by injection Hd as ->.
Qed.

Lemma relinked_mapM e l : mapM (eval ctx e) l = mapM (eval ctx0 e) l.
Proof. induction l as [|x l IH]; [done|]. cbn. by rewrite relinked_eval, IH. Qed.

Lemma relinked_enter e w br : enter ctx e w br = enter ctx0 e w br.
Proof.
  unfold enter. rewrite relinked_mapM. destruct (mapM (eval ctx0 e) (br_args br)) as [vals|]; [|done]. cbn. pose proof (rl_blocks _ Hrl (br_block br)) as Hb.
  destruct (blocks ctx !! br_block br) as [c'|], (blocks ctx0 !! br_block br) as [c|]; try done. cbn in Hb |- *. by injection Hb as -> ->.
Qed.

(** Entering a block, the given function comes to where the branch leads, or is stuck. *)
Lemma leads_run br br' e w st : leads br br' -> enter ctx0 e w br = Some st ->
  exists k, match enter ctx0 e w br' with Some st' => run ctx0 k st = Running st' | None => run ctx0 k st = Stuck end.
Proof.
  intros Hl Hst. induction Hl as [|b to Hl IH (c & t & (Hc & Hi & (p & Hv) & _) & Ha)]; [exists O; by rewrite Hst|]. destruct IH as [k Hk].
  unfold enter in Hk at 1. cbn in Hk. rewrite Hc in Hk. cbn in Hk. rewrite Ha, Hi in Hk. cbn in Hk. unfold bind_args in Hk. cbn in Hk. rewrite (left_id_L ∅ (∪)) in Hk.
  exists (k + 1)%nat. rewrite (run_more ctx0 k 1 st _ Hk). cbn [run]. unfold step. cbn [rest env world]. rewrite Hv. by destruct (enter ctx0 e w to).
Qed.

Definition follows (st1 : State) (r : option (State + Outcome)) : Prop :=
  exists k, (exists st2, run ctx0 k st1 = Running st2 /\ r = Some (inl st2)) \/ run ctx0 k st1 = Stuck.

Lemma follows_leads br br' e w st1 : leads br br' -> enter ctx0 e w br = Some st1 -> follows st1 (inl <$> enter ctx e w br').
Proof using Hrl.
  intros Hl Hst. destruct (leads_run br br' e w st1 Hl Hst) as [k Hk]. exists k. rewrite relinked_enter. destruct (enter ctx0 e w br') as [st2|]; [left; by exists st2|by right].
Qed.

Lemma follows_same st1 : follows st1 (Some (inl st1)).
Proof. exists O. left. by exists st1. Qed.

Lemma relinked_step st r : step ctx0 st = Some r -> match r with inl st1 => follows st1 (step ctx st) | inr o => step ctx st = Some (inr o) end.
Proof using Hrl.
  intros Hr. unfold step in Hr |- *. destruct (rest st) as [|v rest']; [done|]. destruct (rl_values _ Hrl v) as [d d' Hd|]; [|done]. destruct d as [| |p op]; try done. destruct d' as [| |p' op']; try done.
  destruct Hd as [-> Hop]. destruct Hop as [op|br br' Hl|c t e t' e' Ht He].
  - assert (match op with
      | IBranch br => inl <$> enter ctx (env st) (world st) br
      | IConditionalBranch cond t e => c ← eval ctx (env st) cond; b ← as_bool c; inl <$> enter ctx (env st) (world st) (if (b : bool) then t else e)
      | IRet r _ => r ← eval ctx (env st) r; Some (inr (Returned r (world st)))
      | _ => vals ← mapM (eval ctx (env st)) (get_operands op); e ← exec (erase op) vals (world st);
          Some (match e with Continues a w => inl (mkState (cur st) rest' (<[v := a]> (env st)) w) | Halts h => inr (Halted h) end)
      end = Some r) as Heq.
    { rewrite <- Hr. destruct op; rewrite ?relinked_enter, ?relinked_mapM, ?relinked_eval; try done.
      destruct (eval ctx0 (env st) cond_value) as [a|]; [|done]. cbn. destruct (as_bool a) as [[]|]; cbn; by rewrite ?relinked_enter. }
    rewrite Heq. destruct r; [apply follows_same|done].
  - apply fmap_Some in Hr as (st1 & Hst1 & ->). by eapply follows_leads.
  - rewrite relinked_eval. destruct (eval ctx0 (env st) c) as [a|]; [|done]. cbn in Hr |- *. destruct (as_bool a) as [bb|]; [|done]. cbn in Hr |- *.
    apply fmap_Some in Hr as (st1 & Hst1 & ->). destruct bb; by eapply follows_leads.
Qed.

Lemma run_finished k n st st' o : run ctx0 k st = Running st' -> run ctx0 n st = Finished o -> exists m, (m <= n)%nat /\ run ctx0 m st' = Finished o.
Proof.
  revert n st. induction k as [|k IH]; intros n st Hk Hn; [injection Hk as <-; by exists n|]. destruct n as [|n]; [done|]. cbn in Hk, Hn.
  destruct (step ctx0 st) as [[st1|]|]; try done. destruct (IH n st1 Hk Hn) as (m & ? & ?). exists m. split; [lia|done].
Qed.

Lemma not_stuck k n st o : run ctx0 k st = Stuck -> run ctx0 n st <> Finished o.
Proof.
  revert n st. induction k as [|k IH]; intros n st Hk Hn; [done|]. destruct n as [|n]; [done|]. cbn in Hk, Hn. destruct (step ctx0 st) as [[st1|]|]; try done. by eapply IH.
Qed.

Lemma relinked_finishes n st o : run ctx0 n st = Finished o -> exists n', run ctx n' st = Finished o.
Proof using Hrl.
  revert st. induction n as [n IH] using lt_wf_ind. intros st Hn. destruct n as [|n]; [done|]. cbn in Hn. destruct (step ctx0 st) as [r|] eqn:Hs; [|done].
  pose proof (relinked_step st r Hs) as Hr. destruct r as [st1|o1]; [|injection Hn as ->; exists 1%nat; cbn; by rewrite Hr].
  destruct Hr as [k [(st2 & Hk & Hst2)|Hk]]; [|by destruct (not_stuck k n st1 o Hk)].
  destruct (run_finished k n st1 st2 o Hk Hn) as (m & Hm & Hr2). destruct (IH m ltac:(lia) st2 Hr2) as [n' Hn']. exists (S n'). cbn. by rewrite Hst2.
Qed.

Lemma relinked_forever st : runs_forever ctx0 st -> runs_forever ctx st.
Proof using Hrl.
  intros Hf n. revert st Hf. induction n as [|n IH]; intros st Hf; [by exists st|]. destruct (runs_forever_step ctx0 st Hf) as (st1 & Hs & Hf1).
  destruct (relinked_step st _ Hs) as [k [(st2 & Hk & Hst2)|Hk]]; [|destruct (Hf1 k); congruence]. cbn. rewrite Hst2. apply IH.
  intros m. destruct (Hf1 (k + m)%nat) as [st' Hst']. exists st'. by rewrite (run_more ctx0 k m st1 st2 Hk) in Hst'.
Qed.

Lemma relinked_refines f : refines ctx0 ctx f.
Proof using Hrl.
  assert (forall vals w, start ctx f vals w = start ctx0 f vals w) as Hst.
  { intros vals w. unfold start. rewrite (rl_functions _ Hrl). destruct (functions ctx0 !! f) as [fc|]; [|done]. cbn. destruct (head (f_blocks fc)) as [e|]; [|done]. cbn.
    pose proof (rl_blocks _ Hrl e) as Hb. destruct (blocks ctx !! e) as [c'|], (blocks ctx0 !! e) as [c|]; try done. cbn in Hb |- *. by injection Hb as -> ->. }
  split.
  - intros vals w o (st & n & H1 & H2). destruct (relinked_finishes n st o H2) as [n' Hn']. exists st, n'. by rewrite Hst.
  - intros vals w (st & H1 & H2). exists st. split; [by rewrite Hst|]. by apply relinked_forever.
Qed.
End simulation.
End relinked.

(** ** Redirecting a terminator *)

Definition redirect_op (old_succ new_succ : Block) (new_params : list Value) (op : InstOp) : InstOp :=
  match op with
  | IBranch br => IBranch (redirect old_succ new_succ new_params br)
  | IConditionalBranch c t e => IConditionalBranch c (redirect old_succ new_succ new_params t) (redirect old_succ new_succ new_params e)
  | _ => op
  end.

Section redirect.
Context (old new : Block) (ps : list Value).
Abbreviation redirect_op := (redirect_op old new ps).
Abbreviation redirect := (redirect old new ps).

Lemma redirect_targets op : targets (redirect_op op) = map redirect (targets op).
Proof. by destruct op. Qed.

Lemma redirect_terminator op : InstOp_is_terminator (redirect_op op) = InstOp_is_terminator op.
Proof. by destruct op. Qed.

Lemma redirect_args br x : x ∈ br_args (redirect br) -> x ∈ br_args br \/ x ∈ ps.
Proof. unfold IrSimplify.redirect. case_bool_decide; cbn; auto. Qed.

Lemma redirect_operands op x : x ∈ get_operands (redirect_op op) -> x ∈ get_operands op \/ x ∈ ps.
Proof.
  destruct op as [| | | |br| | | |c t e| | | | | | | | | | | | | |]; cbn; auto; [by apply redirect_args|]. rewrite !elem_of_cons, !elem_of_app.
  intros [?|[?|?]]; [tauto| |].
  - assert (x ∈ br_args t \/ x ∈ ps) by (by apply redirect_args). tauto.
  - assert (x ∈ br_args e \/ x ∈ ps) by (by apply redirect_args). tauto.
Qed.

Lemma redirect_blocks op x : (exists br, br ∈ targets op /\ br_block br = old) ->
  (exists br, br ∈ targets (redirect_op op) /\ br_block br = x) <-> ((exists br, br ∈ targets op /\ br_block br = x) /\ x <> old) \/ x = new.
Proof.
  intros (br0 & Hbr0 & Ho). rewrite redirect_targets. split.
  - intros (br' & (br & -> & Hbr)%list_elem_of_fmap & <-). unfold IrSimplify.redirect. case_bool_decide; [by right|]. left. split; [by exists br|done].
  - intros [[(br & Hbr & <-) Hne]| ->].
    + exists (redirect br). split; [apply list_elem_of_fmap; by exists br|]. unfold IrSimplify.redirect. by rewrite bool_decide_false.
    + exists (redirect br0). split; [apply list_elem_of_fmap; by exists br0|]. unfold IrSimplify.redirect. by rewrite bool_decide_true.
Qed.
End redirect.

Section retarget.
Context (ctx ctx' : Context) (f : Function) (fc : FunctionContent) (avail : Block -> gset Value) (Hwf : well_formed ctx f fc avail).
Context (pred block to : Block) (ps : list Value) (cp : BlockContent) (body : list Value) (tp : Value) (op : InstOp) (pt : Block).
Abbreviation bl := (f_blocks fc).
Context (Hpred : pred ∈ bl) (Hends : ends_with ctx pred cp body tp op) (Htp : values ctx !! tp = Some (VInstruction pt op)) (Hedge : edge ctx pred block).
Context (Hto : to ∈ bl) (Hentry : head bl <> Some to) (Havail : forall x, x ∈ avail to -> x ∈ avail block).
Context (Hps : forall x, x ∈ ps -> (exists k, is_const ctx x k) \/ x ∈ avail block).
Context (Hlen : exists c, blocks ctx !! to = Some c /\ length ps = length (args c)).
Context (Hused : forall x, x ∈ ps -> usable ctx x).
Context (Hty : types ctx' = types ctx) (Hco : constants ctx' = constants ctx) (Hfu : functions ctx' = functions ctx).
Context (Hva : values ctx' = <[tp := VInstruction pt (redirect_op block to ps op)]> (values ctx)).
Context (Hbl : forall b, code <$> blocks ctx' !! b = code <$> blocks ctx !! b).
Context (Hpr : forall b c c' p, blocks ctx !! b = Some c -> blocks ctx' !! b = Some c' -> p ∈ preds c' <-> (p ∈ preds c /\ ~ (b = block /\ p = pred)) \/ (b = to /\ p = pred)).

Lemma rt_block b c' : blocks ctx' !! b = Some c' -> exists c, blocks ctx !! b = Some c /\ args c = args c' /\ instructions c = instructions c'.
Proof using All. intros Hc'. pose proof (Hbl b) as Hb. rewrite Hc' in Hb. cbn in Hb. symmetry in Hb. apply fmap_Some in Hb as (c & Hc & [= Ha Hi]). by exists c. Qed.
Lemma rt_block' b c : blocks ctx !! b = Some c -> exists c', blocks ctx' !! b = Some c' /\ args c' = args c /\ instructions c' = instructions c.
Proof using All. intros Hc. pose proof (Hbl b) as Hb. rewrite Hc in Hb. cbn in Hb. apply fmap_Some in Hb as (c' & Hc' & [= Ha Hi]). by exists c'. Qed.

(** The terminator belongs to one block. *)
Lemma tp_block b c : b ∈ bl -> blocks ctx !! b = Some c -> tp ∈ instructions c -> b = pred.
Proof using All.
  intros Hb Hc Hin. apply (sc_unique _ _ _ (wf_scoped _ _ _ _ Hwf) fc b pred tp (wf_function _ _ _ _ Hwf) Hb Hpred); [exists c; auto|].
  destruct Hends as (Hcp & Hi & _). exists cp. split; [done|]. right. rewrite Hi. set_solver.
Qed.

Lemma rt_value v d : values ctx' !! v = Some d -> (v <> tp /\ values ctx !! v = Some d) \/ (v = tp /\ d = VInstruction pt (redirect_op block to ps op)).
Proof using All. rewrite Hva. intros [[<- <-]|[Hne Hv]]%lookup_insert_Some; [by right|by left]. Qed.

Lemma rt_kind v d : values ctx !! v = Some d -> (forall p o, d <> VInstruction p o) -> values ctx' !! v = Some d.
Proof using All. intros Hv Hd. rewrite Hva, lookup_insert_ne; [done|]. intros <-. rewrite Htp in Hv. injection Hv as <-. by eapply Hd. Qed.

Lemma rt_const v k : is_const ctx v k -> is_const ctx' v k.
Proof using All. intros (c & Hv & Hk). exists c. split; [by apply rt_kind|by rewrite Hco]. Qed.

Lemma rt_point b c' before v after op' : at_point ctx' bl b c' before v after op' ->
  exists c op0, at_point ctx bl b c before v after op0 /\ args c = args c' /\ ((op' = op0) \/ (v = tp /\ b = pred /\ op0 = op /\ op' = redirect_op block to ps op)).
Proof using All.
  intros (Hb & Hc' & Hi & p & Hv). destruct (rt_block b c' Hc') as (c & Hc & Ha & Hi'). exists c. apply rt_value in Hv as [[Hne Hv]|[-> Heq]].
  - exists op'. split; [|by auto]. split_and!; [done|done|by rewrite Hi'|by exists p].
  - injection Heq as -> ->. exists op. split; [split_and!; [done|done|by rewrite Hi'|by exists pt]|]. split; [done|]. right. split_and!; [done| |done|done]. apply (tp_block b c Hb Hc). rewrite Hi', Hi. set_solver.
Qed.

(** What is available in the block is in scope at the end of its predecessor. *)
Lemma block_scope x : x ∈ avail block -> x ∈ avail pred \/ x ∈ args cp \/ x ∈ body.
Proof using All.
  intros Hx. destruct Hedge as (c & body' & t & o & br & He & Hbr & Hb). destruct (ends_with_det _ _ _ _ _ _ _ _ _ _ Hends He) as (-> & -> & -> & ->). subst block.
  by apply (sc_edges _ _ _ (wf_scoped _ _ _ _ Hwf) fc pred cp body tp [] op br (wf_function _ _ _ _ Hwf) (ends_with_point _ _ _ _ _ _ _ Hpred Hends) Hbr).
Qed.

Lemma rt_at_pred c before after : at_point ctx bl pred c before tp after op -> c = cp /\ before = body.
Proof using All.
  intros (_ & Hc & Hi & _). destruct Hends as (Hcp & Hi' & _). rewrite Hcp in Hc. injection Hc as <-. split; [done|].
  destruct (sc_block _ _ _ (wf_scoped _ _ _ _ Hwf) fc pred (wf_function _ _ _ _ Hwf) Hpred) as (c0 & Hc0 & Hnd). rewrite Hcp in Hc0. injection Hc0 as <-. apply NoDup_app in Hnd as (_ & _ & Hnd).
  pose proof (nodup_index (instructions cp) before body tp after [] Hnd Hi Hi') as Hl. rewrite Hi in Hi'. apply (f_equal (take (length before))) in Hi'.
  by rewrite take_app_length, Hl, take_app_length in Hi'.
Qed.

Lemma rt_scoped : scoped ctx' f avail.
Proof using All.
  pose proof (wf_scoped _ _ _ _ Hwf) as Hsc. pose proof (wf_function _ _ _ _ Hwf) as Hfc. split.
  - rewrite Hfu. apply (sc_function _ _ _ Hsc).
  - rewrite Hfu. intros fc0 b Hf0 Hb. destruct (sc_block _ _ _ Hsc fc0 b Hf0 Hb) as (c & Hc & Hn). destruct (rt_block' b c Hc) as (c' & Hc' & Ha & Hi). exists c'. by rewrite Ha, Hi.
  - rewrite Hfu. intros fc0 b c' v Hf0 Hb (c & Hc & _ & Hi)%rt_block Hv. rewrite <- Hi in Hv. destruct (sc_instruction _ _ _ Hsc fc0 b c v Hf0 Hb Hc Hv) as (p & o & Ho). rewrite Hva.
    destruct (decide (v = tp)) as [->|Hne]; [rewrite lookup_insert_eq; by eexists _, _|rewrite lookup_insert_ne by done; by eexists _, _].
  - rewrite Hfu. intros fc0 b c' v Hf0 Hb (c & Hc & Ha & _)%rt_block Hv. rewrite <- Ha in Hv. destruct (sc_argument _ _ _ Hsc fc0 b c v Hf0 Hb Hc Hv) as (b' & i & ty & Hx).
    exists b', i, ty. by apply rt_kind.
  - rewrite Hfu. intros fc0 b b' x Hf0 Hb Hb' (c' & (c & Hc & Ha & Hi)%rt_block & Hx) (c1' & (c1 & Hc1 & Ha1 & Hi1)%rt_block & Hx1).
    apply (sc_unique _ _ _ Hsc fc0 b b' x Hf0 Hb Hb'); [exists c; by rewrite Ha, Hi|exists c1; by rewrite Ha1, Hi1].
  - rewrite Hfu, Hfc. intros fc0 b c' before v after op' x Hf0 Hat Hx. injection Hf0 as <-. destruct (rt_point _ _ _ _ _ _ Hat) as (c & op0 & Hat0 & Ha & Hcase).
    assert (x ∈ get_operands op0 -> in_scope ctx' avail b c' before x) as Hold.
    { intros Hin. destruct (sc_operands _ _ _ Hsc fc b c before v after op0 x Hfc Hat0 Hin) as [[k Hk]|Hs]; [left; exists k; by apply rt_const|right; by rewrite <- Ha]. }
    destruct Hcase as [->|(-> & -> & -> & ->)]; [by apply Hold|]. apply redirect_operands in Hx as [Hx|Hx]; [by apply Hold|].
    destruct (rt_at_pred _ _ _ Hat0) as [-> ->]. destruct (Hps x Hx) as [[k Hk]|Hin]; [left; exists k; by apply rt_const|right]. rewrite <- Ha. by apply block_scope.
  - rewrite Hfu, Hfc. intros fc0 b c' before v after op' br Hf0 Hat Hbr. injection Hf0 as <-. destruct (rt_point _ _ _ _ _ _ Hat) as (c & op0 & Hat0 & Ha & Hcase).
    rewrite <- Ha. destruct Hcase as [->|(-> & -> & -> & ->)]; [by apply (sc_edges _ _ _ Hsc fc b c before v after op0 br Hfc Hat0)|].
    rewrite redirect_targets in Hbr. apply list_elem_of_fmap in Hbr as (br0 & -> & Hbr0). unfold redirect. case_bool_decide; [|by apply (sc_edges _ _ _ Hsc fc pred c before tp after op br0 Hfc Hat0)].
    destruct (rt_at_pred _ _ _ Hat0) as [-> ->]. cbn. split; [done|]. intros x Hx. by apply block_scope, Havail.
Qed.
Lemma rt_ends_with b c' body' t' op' : b ∈ bl -> ends_with ctx' b c' body' t' op' ->
  exists c op0, ends_with ctx b c body' t' op0 /\ args c = args c' /\ ((b <> pred /\ op' = op0) \/ (b = pred /\ t' = tp /\ op0 = op /\ op' = redirect_op block to ps op)).
Proof using All.
  intros Hb (Hc' & Hi & (p & Hv) & Ht). destruct (rt_block b c' Hc') as (c & Hc & Ha & Hi'). exists c. apply rt_value in Hv as [[Hne Hv]|[-> Heq]].
  - exists op'. assert (ends_with ctx b c body' t' op') as He by (split_and!; [done|by rewrite Hi'|by exists p|done]). split; [done|]. split; [done|]. left. split; [|done].
    intros ->. destruct (ends_with_det _ _ _ _ _ _ _ _ _ _ Hends He) as (_ & _ & ? & _). done.
  - injection Heq as -> ->. rewrite redirect_terminator in Ht. exists op. split; [split_and!; [done|by rewrite Hi'|by exists pt|done]|]. split; [done|]. right. split_and!; [|done..].
    apply (tp_block b c Hb Hc). rewrite Hi', Hi. set_solver.
Qed.

Lemma rt_ends_with' b c body' t' op0 : b ∈ bl -> ends_with ctx b c body' t' op0 ->
  exists c', ends_with ctx' b c' body' t' (if bool_decide (b = pred) then redirect_op block to ps op0 else op0) /\ args c' = args c.
Proof using All.
  intros Hb He. pose proof He as (Hc & Hi & (p & Hv) & Ht). destruct (rt_block' b c Hc) as (c' & Hc' & Ha & Hi'). exists c'. split; [|done]. split_and!; [done|by rewrite Hi'| |].
  - rewrite Hva. case_bool_decide as Hbp.
    + subst b. destruct (ends_with_det _ _ _ _ _ _ _ _ _ _ Hends He) as (-> & -> & -> & ->). rewrite lookup_insert_eq. by eexists.
    + rewrite lookup_insert_ne; [by eexists|]. intros <-. apply Hbp, (tp_block b c Hb Hc). rewrite Hi. set_solver.
  - case_bool_decide; [by rewrite redirect_terminator|done].
Qed.

Lemma rt_edge b x : b ∈ bl -> edge ctx' b x <-> if bool_decide (b = pred) then (edge ctx b x /\ x <> block) \/ x = to else edge ctx b x.
Proof using All.
  intros Hb. destruct (wf_block _ _ _ _ Hwf b Hb) as (c & body' & t' & op0 & He & _). destruct (rt_ends_with' b c body' t' op0 Hb He) as (c' & He' & _).
  rewrite (edge_targets _ _ _ _ _ _ _ He'). case_bool_decide as Hbp; [|by rewrite (edge_targets _ _ _ _ _ _ _ He)]. subst b. rewrite (edge_targets _ _ _ _ _ _ x He). apply redirect_blocks.
  by apply (edge_targets _ _ _ _ _ _ _ He).
Qed.

Lemma rt_well_formed : well_formed ctx' f fc avail.
Proof using All.
  split.
  - rewrite Hfu. apply (wf_function _ _ _ _ Hwf).
  - apply rt_scoped.
  - intros b c' Hb Hc'. destruct (wf_block _ _ _ _ Hwf b Hb) as (c & body' & t' & op0 & He & Hbody). destruct (rt_ends_with' b c body' t' op0 Hb He) as (c1 & He' & _).
    assert (c1 = c') as -> by (destruct He' as (? & _); congruence). eexists body', t', _. split; [exact He'|]. intros u p o Hu [[_ Hv]|[-> _]]%rt_value; [by eapply Hbody|].
    destruct He as (Hc & Hi & _). assert (b = pred) as -> by (apply (tp_block b c Hb Hc); rewrite Hi; set_solver).
    destruct Hends as (Hcp & Hi' & (p' & Hv) & Ht). rewrite (Hbody tp p' op Hu Hv) in Ht. done.
  - intros b c' p Hb Hc'. destruct (rt_block b c' Hc') as (c & Hc & _). rewrite (Hpr b c c' p Hc Hc'), (wf_preds _ _ _ _ Hwf b c p Hb Hc). split.
    + intros [[[Hp He] Hn]|[-> ->]]; (split; [done|]); apply rt_edge; [done| |done|]; case_bool_decide; try done; [|by right]. subst p. left. split; [done|]. intros ->. by apply Hn.
    + intros [Hp He]. apply rt_edge in He; [|done]. case_bool_decide as Hpp; [|left; split; [done|tauto]]. subst p. destruct He as [[He Hn]| ->]; [left; split; [done|tauto]|by right].
  - intros e c' He Hc'. destruct (rt_block e c' Hc') as (c & Hc & _). pose proof (wf_entry _ _ _ _ Hwf e c He Hc) as Hempty. apply set_eq. intros p. split; [|set_solver].
    intros [[Hin _]|[-> _]]%(Hpr e c c' p Hc Hc'); [by rewrite Hempty in Hin|by destruct (Hentry He)].
  - intros b c' body' t' op' br Hb He' Hbr. destruct (rt_ends_with b c' body' t' op' Hb He') as (c & op0 & He & _ & Hcase).
    assert (forall br0, br0 ∈ targets op0 -> exists c', blocks ctx' !! br_block br0 = Some c' /\ length (br_args br0) = length (args c')) as Hold.
    { intros br0 Hbr0. destruct (wf_arity _ _ _ _ Hwf b c body' t' op0 br0 Hb He Hbr0) as (c1 & Hc1 & Hl). destruct (rt_block' _ c1 Hc1) as (c2 & Hc2 & Ha & _). exists c2. by rewrite Ha. }
    destruct Hcase as [[_ ->]|(-> & -> & -> & ->)]; [by apply Hold|]. rewrite redirect_targets in Hbr. apply list_elem_of_fmap in Hbr as (br0 & -> & Hbr0). unfold redirect.
    case_bool_decide; [|by apply Hold]. cbn. destruct Hlen as (c1 & Hc1 & Hl). destruct (rt_block' _ c1 Hc1) as (c2 & Hc2 & Ha & _). exists c2. by rewrite Ha.
  - intros b c' i x Hb (c & Hc & Ha & _)%rt_block Hx. rewrite <- Ha in Hx. destruct (wf_args _ _ _ _ Hwf b c i x Hb Hc Hx) as [ty Hv]. exists ty. by apply rt_kind.
  - intros b c' v p op' x Hb (c & Hc & _ & Hi)%rt_block Hin Hv Hx. rewrite <- Hi in Hin.
    assert (usable ctx x -> usable ctx' x) as Hkeep.
    { intros Hu. apply (usable_keep ctx); [done|done| |].
      - intros b' c1 Hc1. destruct (rt_block' _ c1 Hc1) as (c2 & Hc2 & Ha & _). by exists c2.
      - rewrite Hva. destruct (decide (x = tp)) as [->|Hne]; [rewrite Htp, lookup_insert_eq; by eexists _, _|rewrite lookup_insert_ne by done]. destruct (values ctx !! x) as [[]|]; try done. by eexists _, _. }
    apply Hkeep. apply rt_value in Hv as [[_ Hv]|[-> Heq]]; [by eapply (wf_used _ _ _ _ Hwf)|]. injection Heq as -> ->.
    apply redirect_operands in Hx as [Hx|Hx]; [|by apply Hused]. by eapply (wf_used _ _ _ _ Hwf b c tp).
Qed.
End retarget.

(** ** The loops *)

Lemma move_pred_Ok k block to pred cb ct : blocks k !! block = Some cb -> blocks k !! to = Some ct ->
  exists k', (context ← remove_pred k block pred; add_pred context to pred) = Ok k' /\ same_code k k' /\ functions k' = functions k /\
    forall b c c' p, blocks k !! b = Some c -> blocks k' !! b = Some c' -> p ∈ preds c' <-> (p ∈ preds c /\ ~ (b = block /\ p = pred)) \/ (b = to /\ p = pred).
Proof.
  intros Hcb Hct. unfold remove_pred, add_pred.
  edestruct (update_preds_code k block cb (fun b0 => mkBlock (block_function b0) (instructions b0) (args b0) (preds b0 ∖ {[pred]})) Hcb) as (k1 & -> & Hs & Hf & Hb); [done|]. next_step.
  destruct (same_code_block _ _ _ _ Hs Hct) as (ct1 & Hct1 & _).
  edestruct (update_preds_code k1 to ct1 (fun b0 => mkBlock (block_function b0) (instructions b0) (args b0) ({[pred]} ∪ preds b0)) Hct1) as (k2 & -> & Hs2 & Hf2 & Hb2); [done|].
  exists k2. split_and!; [done|by etrans|by rewrite Hf2|]. intros b c c' p Hc Hc'. rewrite Hb2 in Hc'.
  assert (forall c1, blocks k1 !! b = Some c1 -> p ∈ preds c1 <-> p ∈ preds c /\ ~ (b = block /\ p = pred)) as H1.
  { intros c1 Hc1. rewrite Hb in Hc1. apply lookup_insert_Some in Hc1 as [[<- <-]|[Hne Hc1]]; [rewrite Hcb in Hc; injection Hc as <-; cbn; set_solver|].
    rewrite Hc in Hc1. injection Hc1 as <-. split; [|tauto]. intros ?. split; [done|]. by intros [-> _]. }
  apply lookup_insert_Some in Hc' as [[<- <-]|[Hne Hc']]; [cbn; rewrite elem_of_union, elem_of_singleton, (H1 _ Hct1); tauto|]. rewrite (H1 _ Hc'). split; [tauto|]. intros [?|[-> _]]; [done|by destruct Hne].
Qed.

Lemma replace_successor_Ok ctx pred block to ps cp body tp op pt cb ct :
  ends_with ctx pred cp body tp op -> values ctx !! tp = Some (VInstruction pt op) -> (exists br, br ∈ targets op /\ br_block br = block) ->
  blocks ctx !! block = Some cb -> blocks ctx !! to = Some ct ->
  exists ctx', replace_successor ctx pred block to ps = Ok ctx' /\ types ctx' = types ctx /\ constants ctx' = constants ctx /\ functions ctx' = functions ctx /\
    values ctx' = <[tp := VInstruction pt (redirect_op block to ps op)]> (values ctx) /\ (forall b, code <$> blocks ctx' !! b = code <$> blocks ctx !! b) /\
    forall b c c' p, blocks ctx !! b = Some c -> blocks ctx' !! b = Some c' -> p ∈ preds c' <-> (p ∈ preds c /\ ~ (b = block /\ p = pred)) \/ (b = to /\ p = pred).
Proof.
  intros He Hv (br & Hbr & Hold) Hcb Hct. unfold replace_successor. rewrite (ends_with_terminator _ _ _ _ _ _ He). next_step.
  set (ctx1 := set_values ctx (<[tp := VInstruction pt (redirect_op block to ps op)]> (values ctx))).
  assert (forall op', op' = redirect_op block to ps op -> set_op ctx tp op' = Ok ctx1) as Hset.
  { intros op' ->. unfold set_op, value_datum, index, expect_some. by rewrite Hv. }
  destruct (move_pred_Ok ctx1 block to pred cb ct Hcb Hct) as (k & Hk & Hs & Hf & Hp).
  exists k. split; [|split_and!; [apply (sm_types _ _ Hs)|apply (sm_constants _ _ Hs)|done|by rewrite (sm_values _ _ Hs)|apply (sm_blocks _ _ Hs)|exact Hp]].
  destruct op; cbn in Hbr; try by apply elem_of_nil in Hbr.
  - apply list_elem_of_singleton in Hbr as ->. rewrite Hset by done. next_step. cbn [fst snd]. by rewrite bool_decide_true.
  - rewrite Hset by done. next_step. cbn [fst snd]. apply elem_of_cons in Hbr as [->| ->%list_elem_of_singleton]; [by rewrite (bool_decide_true (br_block true_block = block))|].
    rewrite (bool_decide_true (br_block false_block = block)), orb_true_r by done. done.
Qed.

Section unlink.
Context `{!HashOrder Block}.
Context (ctx0 : Context) (f : Function) (fc : FunctionContent) (avail : Block -> gset Value) (Hwf0 : well_formed ctx0 f fc avail).
Abbreviation bl := (f_blocks fc).

Lemma relinked_const ctx x k : relinked ctx0 ctx -> is_const ctx0 x k -> is_const ctx x k.
Proof.
  intros Hrl (c & Hv & Hk). exists c. rewrite (rl_constants _ _ Hrl). split; [|done]. pose proof (rl_values _ _ Hrl x) as Hx. rewrite Hv in Hx. inversion Hx as [? d' Hd Heq1 Heq2|]. subst. destruct d'; cbn in Hd; try done. by injection Hd as ->.
Qed.

Lemma relinked_block ctx b c : relinked ctx0 ctx -> blocks ctx0 !! b = Some c -> exists c', blocks ctx !! b = Some c' /\ args c' = args c /\ instructions c' = instructions c.
Proof. intros Hrl Hc. pose proof (rl_blocks _ _ Hrl b) as Hb. rewrite Hc in Hb. cbn in Hb. apply fmap_Some in Hb as (c' & Hc' & [= Ha Hi]). by exists c'. Qed.

Lemma relink_pred_Ok ctx pred block to ps :
  relinked ctx0 ctx -> well_formed ctx f fc avail -> block ∈ bl -> empty_block ctx0 block (mkBranch to ps) -> pred ∈ bl -> edge ctx pred block ->
  exists ctx', relink_pred block to ps ctx pred = Ok ctx' /\ relinked ctx0 ctx' /\ well_formed ctx' f fc avail /\ forall p b, p ∈ bl -> p <> pred -> edge ctx' p b <-> edge ctx p b.
Proof using Hwf0.
  intros Hrl Hwf Hblock (c0 & t0 & He0 & Ha0) Hpred Hedge. destruct (wf_block _ _ _ _ Hwf pred Hpred) as (cp & body & tp & op & He & _).
  pose proof He as (_ & _ & (pt & Htp) & _). pose proof (proj1 (edge_targets _ _ _ _ _ _ _ He) Hedge) as Hbr. pose proof (ends_with_point _ fc _ _ _ _ _ Hblock He0) as Hat0.
  pose proof (wf_scoped _ _ _ _ Hwf0) as Hsc0. pose proof (wf_function _ _ _ _ Hwf0) as Hfc0.
  destruct (wf_arity _ _ _ _ Hwf0 block c0 [] t0 _ (mkBranch to ps) Hblock He0 ltac:(by left)) as (ct0 & Hct0 & Hlen). cbn in Hct0, Hlen.
  destruct (relinked_block _ _ _ Hrl Hct0) as (ct & Hct & Hact & _). destruct (relinked_block _ block c0 Hrl ltac:(apply He0)) as (cb & Hcb & Hacb & Hicb).
  destruct (sc_edges _ _ _ Hsc0 fc block c0 [] t0 [] _ (mkBranch to ps) Hfc0 Hat0 ltac:(by left)) as [Hto Hav]. cbn in Hto, Hav.
  assert (forall x, x ∈ ps -> usable ctx x) as Hused.
  { intros x Hx. destruct He0 as (Hc0 & Hi0 & (p0 & Hv0) & _). apply (usable_keep ctx0); [|apply (rl_constants _ _ Hrl)| |].
    - apply (wf_used _ _ _ _ Hwf0 block c0 t0 p0 (IBranch (mkBranch to ps)) x Hblock Hc0 ltac:(rewrite Hi0; by left) Hv0 Hx).
    - intros b' c1 Hc1. destruct (relinked_block _ _ _ Hrl Hc1) as (c2 & Hc2 & Ha2 & _). by exists c2.
    - destruct (rl_values _ _ Hrl x) as [d d' Hd|]; [|done]. destruct d, d'; cbn in Hd; try done; [by rewrite Hd..|by eexists _, _]. }
  assert (forall x pp, x ∈ ps -> new_param ctx block pp x = Ok x) as Hnew.
  { intros x pp Hx%Hused. unfold usable in Hx. unfold new_param, value_datum, index, expect_some. destruct (values ctx !! x) as [[b' i ty| |]|]; try done. next_step.
    case_bool_decide; [|done]. subst b'. destruct Hx as (c1 & Hc1 & Hx1). rewrite Hcb in Hc1. injection Hc1 as <-. by rewrite Hacb, Ha0 in Hx1. }
  destruct (replace_successor_Ok ctx pred block to ps cp body tp op pt cb ct He Htp Hbr Hcb Hct) as (ctx' & Hrs & E1 & E2 & E3 & E4 & E5 & E6).
  assert (head bl <> Some to) as Hentry.
  { intros Hh. pose proof (wf_entry _ _ _ _ Hwf0 to ct0 Hh Hct0) as Hempty. assert (block ∈ preds ct0) as Hin; [|by rewrite Hempty in Hin].
    apply (wf_preds _ _ _ _ Hwf0 to ct0 block Hto Hct0). split; [done|]. eexists _, _, _, _, _. split; [exact He0|]. split; [by left|done]. }
  assert (forall x, x ∈ avail to -> x ∈ avail block) as Havail by (intros x Hx; destruct (Hav x Hx) as [?|[Hin|Hin]]; [done|rewrite Ha0 in Hin; by apply elem_of_nil in Hin|by apply elem_of_nil in Hin]).
  assert (forall x, x ∈ ps -> (exists k, is_const ctx x k) \/ x ∈ avail block) as Hps.
  { intros x Hx. destruct (sc_operands _ _ _ Hsc0 fc block c0 [] t0 [] _ x Hfc0 Hat0 Hx) as [[k Hk]|[?|[Hin|Hin]]]; [left; exists k; by apply relinked_const|by right|rewrite Ha0 in Hin; by apply elem_of_nil in Hin|by apply elem_of_nil in Hin]. }
  assert (exists c, blocks ctx !! to = Some c /\ length ps = length (args c)) as Hlen' by (exists ct; by rewrite Hact).
  exists ctx'. split_and!.
  - unfold relink_pred, get_succ_params. rewrite (ends_with_successors _ _ _ _ _ _ He). next_step. rewrite (traverse_ext _ (fun x => Ok x)); [|intros; by apply Hnew].
    rewrite traverse_total, map_id. exact Hrs.
  - split; [by rewrite E1, (rl_types _ _ Hrl)|by rewrite E2, (rl_constants _ _ Hrl)|by rewrite E3, (rl_functions _ _ Hrl)|intros b; by rewrite E5, (rl_blocks _ _ Hrl)|].
    intros v. rewrite E4. pose proof (rl_values _ _ Hrl v) as Hv. destruct (decide (v = tp)) as [->|Hne]; [rewrite lookup_insert_eq|by rewrite lookup_insert_ne].
    rewrite Htp in Hv. inversion Hv as [d ? Hd Heq1 Heq2|]; subst. constructor. destruct d as [| |p0 op0]; cbn in Hd; try done. destruct Hd as [-> Hop]. split; [done|].
    assert (forall br0 br1, leads ctx0 br0 br1 -> br1 ∈ targets op -> leads ctx0 br0 (redirect block to ps br1)) as Hl.
    { intros br0 br1 Hl Hin. unfold redirect. case_bool_decide as Hb; [|done]. eapply (leads_step _ _ block); [|by exists c0, t0].
      destruct (wf_arity _ _ _ _ Hwf pred cp body tp op br1 Hpred He Hin) as (c1 & Hc1 & Hl1). destruct br1 as [b1 l1]. cbn in Hb, Hl1, Hc1. subst b1. rewrite Hcb in Hc1. injection Hc1 as <-.
      rewrite Hacb, Ha0 in Hl1. by destruct l1. }
    destruct Hop as [op|br0 br1 Hbr1|cc t e t' e' Ht He'].
    + destruct op; try apply relink_same; constructor; (apply Hl; [constructor|cbn; set_solver]).
    + constructor. apply Hl; [done|by left].
    + constructor; (apply Hl; [done|cbn; set_solver]).
  - eapply (rt_well_formed ctx ctx' f fc avail Hwf pred block to ps cp body tp op pt); done.
  - intros p b Hp Hne. rewrite (rt_edge ctx ctx' f fc avail Hwf pred block to ps cp body tp op pt Hpred He Htp Hedge Hto Hentry Havail Hps Hlen' Hused E1 E2 E3 E4 E5 E6 p b Hp). by rewrite bool_decide_false.
Qed.
Lemma relink_preds_Ok block to ps l ctx :
  NoDup l -> block ∈ bl -> empty_block ctx0 block (mkBranch to ps) -> relinked ctx0 ctx -> well_formed ctx f fc avail -> (forall p, p ∈ l -> p ∈ bl /\ edge ctx p block) ->
  exists ctx', fold_ok (relink_pred block to ps) ctx l = Ok ctx' /\ relinked ctx0 ctx' /\ well_formed ctx' f fc avail.
Proof using Hwf0.
  intros Hnd Hblock Hempty. revert ctx. induction Hnd as [|p l Hp _ IH]; intros ctx Hrl Hwf Hl; [by exists ctx|]. cbn [fold_ok]. destruct (Hl p ltac:(by left)) as [Hpb Hpe].
  destruct (relink_pred_Ok ctx p block to ps Hrl Hwf Hblock Hempty Hpb Hpe) as (ctx1 & -> & Hrl1 & Hwf1 & Hedges). next_step. apply IH; [done|done|].
  intros p' Hp'. destruct (Hl p' ltac:(by right)) as [? ?]. split; [done|]. apply Hedges; [done|by intros ->|done].
Qed.

Lemma unlink_block_Ok ctx m block br : relinked ctx0 ctx -> well_formed ctx f fc avail -> block ∈ bl -> empty_block ctx0 block br ->
  exists ctx' m', unlink_block (ctx, m) (block, br) = Ok (ctx', m') /\ relinked ctx0 ctx' /\ well_formed ctx' f fc avail.
Proof using Hwf0.
  intros Hrl Hwf Hblock Hempty. destruct br as [to ps]. pose proof Hempty as (c0 & t0 & He0 & Ha0). destruct (relinked_block _ block c0 Hrl ltac:(apply He0)) as (cb & Hcb & _).
  destruct (wf_arity _ _ _ _ Hwf0 block c0 [] t0 _ (mkBranch to ps) Hblock He0 ltac:(by left)) as (ct0 & Hct0 & _). destruct (relinked_block _ _ _ Hrl Hct0) as (ct & Hct & _). cbn in Hct.
  unfold unlink_block, num_args. rewrite (block_content_Ok _ _ _ Hct), (block_content_Ok _ _ _ Hcb). next_step. destruct (_ && _); [by exists ctx, m|].
  destruct (relink_preds_Ok block to ps (hash_iter (preds cb)) ctx) as (ctx' & -> & ? & ?); try done.
  - rewrite hash_iter_perm. apply NoDup_elements.
  - intros p Hp. rewrite hash_iter_perm in Hp. apply elem_of_elements in Hp. by apply (wf_preds _ _ _ _ Hwf block cb p Hblock Hcb).
  - by eexists _, _.
Qed.

Lemma unlink_candidate_Ok b : b ∈ bl -> exists o, unlink_candidate ctx0 b = Ok o /\ forall b' br, o = Some (b', br) -> b' = b /\ empty_block ctx0 b br.
Proof using Hwf0.
  intros Hb. destruct (wf_block _ _ _ _ Hwf0 b Hb) as (c & body & t & op & He & _). pose proof He as (Hc & Hi & _). unfold unlink_candidate, num_instructions, num_args.
  rewrite (ends_with_terminator _ _ _ _ _ _ He), (block_content_Ok _ _ _ Hc). next_step. destruct op; try by exists None. destruct (length (instructions c) <=? 1)%nat eqn:Hn; [|by exists None].
  eexists. split; [done|]. intros b' br' Hsome. destruct (length (args c) =? 0)%nat eqn:Ha; [|done]. injection Hsome as <- <-. split; [done|]. apply Nat.leb_le in Hn. apply Nat.eqb_eq, nil_length_inv in Ha.
  rewrite Hi, length_app in Hn. cbn in Hn. destruct body; [|cbn in Hn; lia]. by exists c, t.
Qed.

Lemma unlink_candidates_Ok l : (forall b, b ∈ l -> b ∈ bl) -> exists cs, filter_map_ok (unlink_candidate ctx0) l = Ok cs /\ forall b br, (b, br) ∈ cs -> b ∈ bl /\ empty_block ctx0 b br.
Proof using Hwf0.
  induction l as [|b l IH]; intros Hl; [exists []; split; [done|by intros ? ? ?%elem_of_nil]|]. cbn [filter_map_ok]. destruct (unlink_candidate_Ok b) as (o & -> & Ho); [apply Hl; by left|].
  destruct IH as (cs & -> & Hcs); [intros; apply Hl; by right|]. next_step. eexists. split; [done|]. destruct o as [[b' br']|]; [|done]. intros b1 br1 [Heq|?]%elem_of_cons; [|by apply Hcs].
  injection Heq as -> ->. destruct (Ho _ _ eq_refl) as [-> ?]. split; [apply Hl; by left|done].
Qed.

Lemma unlink_empty_blocks_Ok : exists ctx' m, unlink_empty_blocks ctx0 f = Ok (ctx', m) /\ relinked ctx0 ctx' /\ well_formed ctx' f fc avail.
Proof using Hwf0.
  unfold unlink_empty_blocks, block_iter, function_content, index, expect_some. rewrite (wf_function _ _ _ _ Hwf0). next_step.
  destruct (unlink_candidates_Ok (tail bl)) as (cs & -> & Hcs); [intros b Hb; destruct bl; [done|by right]|]. next_step.
  assert (forall ctx m, relinked ctx0 ctx -> well_formed ctx f fc avail -> exists ctx' m', fold_ok unlink_block (ctx, m) cs = Ok (ctx', m') /\ relinked ctx0 ctx' /\ well_formed ctx' f fc avail) as Hloop;
    [|apply Hloop; [apply relinked_refl|done]].
  induction cs as [|[b br] cs IH]; intros ctx m Hrl Hwf; [by exists ctx, m|]. cbn [fold_ok]. destruct (Hcs b br ltac:(by left)) as [Hb He].
  destruct (unlink_block_Ok ctx m b br Hrl Hwf Hb He) as (ctx1 & m1 & -> & Hrl1 & Hwf1). next_step. apply IH; [|done|done]. intros b1 br1 ?. apply Hcs. by right.
Qed.
End unlink.
