(* ===== verification/IrMerge.v ===== *)
(** * Merging chains of blocks

    A block whose only predecessor branches to it unconditionally is appended to this
    predecessor; its arguments become the values that were passed.  The merged function,
    described by the chains and the substitution, does what the given one does. *)

From S2P Require Import Prelude IrTypes IrTypeTheory IrConstant IrCore IrRun IrTransform IrFoldTheory IrSimplify IrCfg.
Local Open Scope Z_scope.

(** ** Lists of chains *)

Lemma nodup_concat {A B} (g : A -> list B) l b : NoDup (concat (map g l)) -> b ∈ l -> NoDup (g b).
Proof. induction l as [|a l IH]; cbn; [by intros _ ?%elem_of_nil|]. intros (Ha & _ & Hl)%NoDup_app [->|Hb]%elem_of_cons; [done|by apply IH]. Qed.

Lemma elem_of_concat {A B} (g : A -> list B) l x : x ∈ concat (map g l) <-> exists b, b ∈ l /\ x ∈ g b.
Proof.
  induction l as [|a l IH]; cbn; [split; [by intros ?%elem_of_nil|by intros (b & ?%elem_of_nil & _)]|]. rewrite elem_of_app, IH. split.
  - intros [Hx|(b & Hb & Hx)]; [exists a; split; [by left|done]|exists b; split; [by right|done]].
  - intros (b & [->|Hb]%elem_of_cons & Hx); [by left|right; by exists b].
Qed.

Lemma nodup_concat_unique {A B} (g : A -> list B) l b b' x : NoDup (concat (map g l)) -> b ∈ l -> b' ∈ l -> x ∈ g b -> x ∈ g b' -> b = b'.
Proof.
  induction l as [|a l IH]; cbn; [by intros _ ?%elem_of_nil|]. intros (_ & Hd & Hl)%NoDup_app [->|Hb]%elem_of_cons [->|Hb']%elem_of_cons Hx Hx'; [done| | |by apply IH].
  - exfalso. apply (Hd x Hx), elem_of_concat. by exists b'.
  - exfalso. apply (Hd x Hx'), elem_of_concat. by exists b.
Qed.

Lemma nodup_split {A} (l1 l2 m1 m2 : list A) x : NoDup (l1 ++ x :: l2) -> l1 ++ x :: l2 = m1 ++ x :: m2 -> l1 = m1 /\ l2 = m2.
Proof.
  revert m1. induction l1 as [|y l1 IH]; intros [|z m1]; cbn; intros Hnd Heq.
  - injection Heq as ->. done.
  - exfalso. injection Heq as <- ->. apply NoDup_cons in Hnd as [Hx _]. set_solver.
  - exfalso. injection Heq as -> <-. apply NoDup_cons in Hnd as [Hx _]. set_solver.
  - injection Heq as -> Heq. apply NoDup_cons in Hnd as [_ Hnd]. destruct (IH m1 Hnd Heq) as [-> ->]. done.
Qed.

Section merge.
Context (ctx0 : Context) (f : Function) (fc : FunctionContent) (avail : Block -> gset Value) (Hwf : well_formed ctx0 f fc avail).
Abbreviation bl := (f_blocks fc).

Definition instrs (b : Block) : list Value := match blocks ctx0 !! b with Some c => instructions c | None => [] end.
Definition args_of (b : Block) : list Value := match blocks ctx0 !! b with Some c => args c | None => [] end.
Definition body_of (b : Block) : list Value := removelast (instrs b).
Definition bodies (l : list Block) : list Value := concat (map body_of l).

(** The code of a chain of blocks *)
Fixpoint glue (l : list Block) : list Value :=
  match l with
  | [] => []
  | [b] => instrs b
  | b :: l' => body_of b ++ glue l'
  end.

(** What is left of a block in a chain, with the blocks after it *)
Definition tail_of (rest : list Value) (l : list Block) : list Value := match l with [] => rest | _ => removelast rest ++ glue l end.

(** [x] branches to [y], which has no other predecessor. *)
Definition links (x y : Block) (ps : list Value) : Prop :=
  (exists c body t, ends_with ctx0 x c body t (IBranch (mkBranch y ps))) /\ forall b, b ∈ bl -> edge ctx0 b y -> b = x.

Fixpoint linked (l : list Block) : Prop :=
  match l with
  | [] => True
  | x :: l' => match l' with [] => True | y :: _ => (exists ps, links x y ps) /\ linked l' end
  end.

Lemma glue_cons b l : glue (b :: l) = tail_of (instrs b) l.
Proof. by destruct l. Qed.

Lemma glue_app l1 l2 : l2 <> [] -> glue (l1 ++ l2) = bodies l1 ++ glue l2.
Proof.
  intros Hl2. induction l1 as [|b l1 IH]; [done|]. cbn [app]. rewrite glue_cons. destruct (l1 ++ l2) as [|x l] eqn:Hl; [by destruct l1|].
  unfold tail_of. rewrite IH. unfold bodies. cbn. by rewrite <- app_assoc.
Qed.

Lemma linked_split l1 x y l2 : linked (l1 ++ x :: y :: l2) -> exists ps, links x y ps.
Proof. induction l1 as [|b l1 IH]; cbn; [by intros [? _]|]. intros Hl. apply IH. destruct (l1 ++ x :: y :: l2); [done|apply Hl]. Qed.

Lemma block_instrs b c body t op : ends_with ctx0 b c body t op -> instrs b = body ++ [t] /\ body_of b = body /\ args_of b = args c.
Proof. intros (Hc & Hi & _). unfold body_of, instrs, args_of. rewrite Hc. split_and!; [done|rewrite Hi; apply removelast_last|done]. Qed.

(** ** Chains *)

(** The blocks are the kept blocks [bl'] and the blocks of their chains. *)
Record chained (bl' : list Block) (chain : Block -> list Block) : Prop := {
  ch_parts : bl ≡ₚ concat (map (fun b => b :: chain b) bl');
  ch_linked b : b ∈ bl' -> linked (b :: chain b);
}.

Section chains.
Context {bl' : list Block} {chain : Block -> list Block} (Hch : chained bl' chain).

Lemma parts_nodup : NoDup (concat (map (fun b => b :: chain b) bl')).
Proof using Hwf Hch. rewrite <- (ch_parts _ _ Hch). apply (wf_nodup _ _ _ _ Hwf). Qed.

Lemma part_block b x : b ∈ bl' -> x ∈ b :: chain b -> x ∈ bl.
Proof using Hch. intros Hb Hx. rewrite (ch_parts _ _ Hch). apply elem_of_concat. by exists b. Qed.

Lemma kept_block b : b ∈ bl' -> b ∈ bl.
Proof using Hch. intros Hb. apply (part_block b); [done|by left]. Qed.

Lemma kept_nodup : NoDup bl'.
Proof using Hwf Hch.
  pose proof parts_nodup as Hnd. clear Hch. induction bl' as [|b l IH]; [constructor|]. cbn in Hnd. apply NoDup_cons in Hnd as [Hb Hnd]. constructor.
  - intros Hin. apply Hb, elem_of_app. right. apply elem_of_concat. exists b. split; [done|by left].
  - apply IH. by apply NoDup_app in Hnd as (_ & _ & ?).
Qed.

(** The place of a block in the chains *)
Lemma place b0 : b0 ∈ bl -> exists b l1 l2, b ∈ bl' /\ b :: chain b = l1 ++ b0 :: l2.
Proof using Hch.
  intros Hb0. rewrite (ch_parts _ _ Hch) in Hb0. apply elem_of_concat in Hb0 as (b & Hb & (l1 & l2 & Hl)%list_elem_of_split). by exists b, l1, l2.
Qed.

Lemma place_unique b b' l1 l2 m1 m2 x : b ∈ bl' -> b' ∈ bl' -> b :: chain b = l1 ++ x :: l2 -> b' :: chain b' = m1 ++ x :: m2 -> b' = b /\ m1 = l1 /\ m2 = l2.
Proof using Hwf Hch.
  intros Hb Hb' Hl Hm. assert (b' = b) as -> by (apply (nodup_concat_unique (fun b => b :: chain b) bl' b' b x); [apply parts_nodup|done|done|rewrite Hm; set_solver|rewrite Hl; set_solver]).
  split; [done|]. rewrite Hm in Hl. pose proof (nodup_concat _ _ b parts_nodup Hb) as Hnd. cbn in Hnd. rewrite Hm in Hnd. by apply nodup_split in Hl.
Qed.

(** A block after another one in a chain was merged. *)
Lemma merged_block b l1 x l2 : b ∈ bl' -> b :: chain b = l1 ++ x :: l2 -> l1 <> [] -> x ∉ bl'.
Proof using Hwf Hch.
  intros Hb Hl Hne Hx. destruct (place_unique b x l1 l2 [] (chain x) x Hb Hx Hl eq_refl) as (_ & <- & _). done.
Qed.

(** The chain goes on to the only successor that has no other predecessor. *)
Lemma target_kept b l1 b0 c body t op br : b ∈ bl' -> b :: chain b = l1 ++ [b0] -> ends_with ctx0 b0 c body t op -> br ∈ targets op -> br_block br ∈ bl'.
Proof using Hwf Hch.
  intros Hb Hl He Hbr. assert (b0 ∈ bl) as Hb0 by (apply (part_block b); [done|rewrite Hl; set_solver]).
  assert (edge ctx0 b0 (br_block br)) as Hedge by (by exists c, body, t, op, br).
  destruct (place (br_block br)) as (b1 & m1 & m2 & Hb1 & Hm); [by eapply edge_block|]. destruct m1 as [|y m1 _] using rev_ind; [injection Hm as -> _; done|].
  exfalso. rewrite <- app_assoc in Hm. cbn in Hm. pose proof (ch_linked _ _ Hch b1 Hb1) as Hlk. rewrite Hm in Hlk. destruct (linked_split _ _ _ _ Hlk) as (ps & _ & Huniq).
  pose proof (Huniq b0 Hb0 Hedge) as ->. by destruct (place_unique b b1 l1 [] m1 (br_block br :: m2) y Hb Hb1 Hl Hm) as (_ & _ & ?).
Qed.

(** The block before a merged block *)
Lemma merged_from y : y ∈ bl -> y ∉ bl' -> exists x ps, x ∈ bl /\ links x y ps /\ length ps = length (args_of y).
Proof using Hwf Hch.
  intros Hy Hny. destruct (place y Hy) as (b & l1 & l2 & Hb & Hl). destruct l1 as [|x l1 _] using rev_ind; [injection Hl as -> _; done|]. rewrite <- app_assoc in Hl. cbn in Hl.
  pose proof (ch_linked _ _ Hch b Hb) as Hlk. rewrite Hl in Hlk. destruct (linked_split _ _ _ _ Hlk) as (ps & Hxy). exists x, ps.
  assert (x ∈ bl) as Hx by (apply (part_block b); [done|rewrite Hl; set_solver]). split_and!; [done|done|]. destruct Hxy as [(c & body & t & He) _].
  destruct (wf_arity _ _ _ _ Hwf x c body t _ (mkBranch y ps) Hx He ltac:(by left)) as (cy & Hcy & Hlen). unfold args_of. cbn in Hcy. by rewrite Hcy.
Qed.
End chains.

(** ** The description *)

Record merged (ctx' : Context) (fc' : FunctionContent) (chain : Block -> list Block) (sub : Value -> Value) : Prop := {
  mg_types : types ctx' = types ctx0;
  mg_constants : constants ctx' = constants ctx0;
  mg_function : functions ctx' !! f = Some fc';
  mg_head : head (f_blocks fc') = head bl;
  mg_block b : b ∈ f_blocks fc' -> exists c', blocks ctx' !! b = Some c' /\ instructions c' = glue (b :: chain b);
  mg_args b c : blocks ctx0 !! b = Some c -> exists c', blocks ctx' !! b = Some c' /\ args c' = args c;
  mg_kept b v p op : b ∈ f_blocks fc' -> v ∈ glue (b :: chain b) -> values ctx0 !! v = Some (VInstruction p op) -> exists p', values ctx' !! v = Some (VInstruction p' (rename sub op));
  mg_kind v : match values ctx0 !! v with Some (VInstruction _ _) => exists p op, values ctx' !! v = Some (VInstruction p op) | d => values ctx' !! v = d end;
  mg_sub x y ps i z r : x ∈ bl -> links x y ps -> y ∈ bl -> y ∉ f_blocks fc' -> args_of y !! i = Some z -> ps !! i = Some r -> sub z = sub r;
  mg_other z : (forall y, y ∈ bl -> y ∉ f_blocks fc' -> z ∉ args_of y) -> sub z = z;
  mg_final z y : y ∈ bl -> y ∉ f_blocks fc' -> sub z ∉ args_of y;
  mg_range z : sub z <> z -> usable ctx0 (sub z);
  mg_preds b c' p : b ∈ f_blocks fc' -> blocks ctx' !! b = Some c' -> p ∈ preds c' <-> p ∈ f_blocks fc' /\ edge ctx' p b;
}.

Context (ctx' : Context) (fc' : FunctionContent) (chain : Block -> list Block) (sub : Value -> Value) (Hch : chained (f_blocks fc') chain) (Hmg : merged ctx' fc' chain sub).
Abbreviation bl' := (f_blocks fc').

(** ** The substitution *)

Lemma args_of_argument b x : b ∈ bl -> x ∈ args_of b -> exists i ty, values ctx0 !! x = Some (VArgument b i ty).
Proof using Hwf.
  intros Hb Hx. destruct (wf_block _ _ _ _ Hwf b Hb) as (c & body & t & op & He & _). destruct (block_instrs _ _ _ _ _ He) as (_ & _ & Ha). rewrite Ha in Hx.
  apply list_elem_of_lookup in Hx as [i Hi]. destruct He as (Hc & _). destruct (wf_args _ _ _ _ Hwf b c i x Hb Hc Hi) as [ty Hty]. by exists i, ty.
Qed.

Lemma sub_other z : (forall b i ty, values ctx0 !! z <> Some (VArgument b i ty)) -> sub z = z.
Proof using Hwf Hch Hmg. intros Hz. apply (mg_other _ _ _ _ Hmg). intros y Hy _ Hin. destruct (args_of_argument y z Hy Hin) as (i & ty & Hv). by eapply Hz. Qed.

Lemma sub_instruction v p op : values ctx0 !! v = Some (VInstruction p op) -> sub v = v.
Proof using Hwf Hch Hmg. intros Hv. apply sub_other. congruence. Qed.

Lemma sub_constant v content : is_const ctx0 v content -> sub v = v.
Proof using Hwf Hch Hmg. intros (k & Hv & _). apply sub_other. congruence. Qed.

Lemma sub_kept b x : b ∈ bl' -> x ∈ args_of b -> sub x = x.
Proof using Hwf Hch Hmg.
  intros Hb Hx. apply (mg_other _ _ _ _ Hmg). intros y Hy Hn Hin. destruct (args_of_argument y x Hy Hin) as (i & ty & Hv).
  destruct (args_of_argument b x (kept_block Hch b Hb) Hx) as (i' & ty' & Hv'). congruence.
Qed.

Lemma moved_argument z : sub z <> z -> exists y, y ∈ bl /\ (y ∉ bl') /\ z ∈ args_of y.
Proof using Hch Hmg.
  intros Hz. destruct (decide (Exists (fun y => (y ∉ bl') /\ z ∈ args_of y) bl)) as [He|Hn]; [apply Exists_exists in He as (y & Hy & ? & ?); by exists y|].
  exfalso. apply Hz, (mg_other _ _ _ _ Hmg). intros y Hy Hny Hin. apply Hn, Exists_exists. by exists y.
Qed.

(** ** More available values *)

Definition passes (z : Value) : bool := match values ctx0 !! z with Some (VConstant _) => false | _ => true end.
Definition more_avail (b : Block) : gset Value :=
  avail b ∪ filter (fun z => passes z = true) (set_map sub (filter (fun x => sub x <> x) (avail b ∪ list_to_set (args_of b)))).

Lemma elem_of_more b z : z ∈ more_avail b <-> z ∈ avail b \/ (exists x, z = sub x /\ sub x <> x /\ (x ∈ avail b \/ x ∈ args_of b) /\ passes z = true).
Proof.
  unfold more_avail. rewrite elem_of_union, elem_of_filter, elem_of_map. split.
  - intros [?|[Hp (x & -> & Hx)]]; [by left|right]. apply elem_of_filter in Hx as [Hs Hx]. exists x. by rewrite elem_of_union, elem_of_list_to_set in Hx.
  - intros [?|(x & -> & Hs & Hx & Hp)]; [by left|right]. split; [done|]. exists x. split; [done|]. apply elem_of_filter. split; [done|]. by rewrite elem_of_union, elem_of_list_to_set.
Qed.

Lemma in_scope_more b c before x : blocks ctx0 !! b = Some c -> in_scope ctx0 avail b c before x -> in_scope ctx0 more_avail b c before x.
Proof. intros Hc [?|[?|?]]; [by left| |by right; right]. right. left. apply elem_of_more. by left. Qed.

Lemma before_not_moved b c before v after op x : at_point ctx0 bl b c before v after op -> x ∈ before -> sub x = x.
Proof using Hwf Hch Hmg.
  intros (Hb & Hc & Hi & _) Hx. destruct (sc_instruction _ _ _ (wf_scoped _ _ _ _ Hwf) fc b c x (wf_function _ _ _ _ Hwf) Hb Hc ltac:(rewrite Hi; set_solver)) as (p & o & Hv). by eapply sub_instruction.
Qed.

Lemma more_edge b c before v after op br z : at_point ctx0 bl b c before v after op -> br ∈ targets op -> z ∈ more_avail (br_block br) -> z ∈ more_avail b \/ z ∈ args c \/ z ∈ before.
Proof using Hwf Hch Hmg.
  intros Hat Hbr Hz. pose proof (wf_scoped _ _ _ _ Hwf) as Hsc. pose proof (wf_function _ _ _ _ Hwf) as Hfc. pose proof Hat as (Hb & Hc & _). assert (args_of b = args c) as Ha by (unfold args_of; by rewrite Hc).
  destruct (sc_edges _ _ _ Hsc fc b c before v after op br Hfc Hat Hbr) as [Htb Hav]. apply elem_of_more in Hz as [Hz|(x & -> & Hs & Hx & Hp)].
  { destruct (Hav z Hz) as [?|[?|?]]; [left; apply elem_of_more; by left|by right; left|by right; right]. }
  assert (forall y, y ∈ avail b \/ y ∈ args c \/ y ∈ before -> passes (sub y) = true -> sub y ∈ more_avail b \/ sub y ∈ args c \/ sub y ∈ before) as Hin.
  { intros y Hy Hpy. destruct (decide (sub y = y)) as [Heq|Hne]; [rewrite Heq; destruct Hy as [?|?]; [left; apply elem_of_more; by left|by right]|]. left. apply elem_of_more. right. exists y. split_and!; [done|done| |done].
    rewrite Ha. destruct Hy as [?|[?|Hy]]; [by left|by right|]. destruct Hne. by apply (before_not_moved b c before v after op y Hat). }
  destruct Hx as [Hx|Hx]; [by apply Hin; [apply Hav|]|]. destruct (moved_argument x Hs) as (y & Hy & Hny & Hxy).
  assert (br_block br = y) as Hbry by (destruct (args_of_argument _ _ Htb Hx) as (i & ty & H1), (args_of_argument _ _ Hy Hxy) as (i' & ty' & H2); congruence). subst y.
  destruct (merged_from Hch _ Hy Hny) as (x0 & ps & Hx0 & Hlk & Hlen). destruct (point_ends_with _ _ _ _ Hwf _ _ _ _ _ _ _ Hat Hbr) as [-> He].
  assert (b = x0) as <- by (apply Hlk; [done|by exists c, before, v, op, br]). pose proof Hlk as [(c1 & body1 & t1 & He1) _].
  destruct (ends_with_det _ _ _ _ _ _ _ _ _ _ He He1) as (-> & -> & -> & <-). apply list_elem_of_lookup in Hx as [i Hi].
  destruct (lookup_lt_is_Some_2 ps i) as [r Hr]; [rewrite Hlen; by eapply lookup_lt_Some|]. rewrite (mg_sub _ _ _ _ Hmg b (br_block br) ps i x r Hb Hlk Hy Hny Hi Hr) in Hp |- *.
  destruct (sc_operands _ _ _ Hsc fc b c before v [] _ r Hfc Hat ltac:(cbn; by eapply list_elem_of_lookup_2)) as [[content Hk]|Hsr]; [|by apply Hin].
  rewrite (sub_constant r content Hk) in Hp. destruct Hk as (k & Hk & _). unfold passes in Hp. by rewrite Hk in Hp.
Qed.

Lemma more_scoped : scoped ctx0 f more_avail.
Proof using Hwf Hch Hmg.
  pose proof (wf_scoped _ _ _ _ Hwf) as Hsc. pose proof (wf_function _ _ _ _ Hwf) as Hfc. destruct Hsc as [S1 S2 S3 S4 S5 S6 S7]. split; try done.
  - destruct S1 as (fc0 & e & Hf0 & He & Hav & Hnd). exists fc0, e. split_and!; [done|done| |done]. rewrite Hfc in Hf0. injection Hf0 as <-. apply set_eq. intros z. rewrite elem_of_more, Hav. split; [|set_solver].
    intros [?|(x & _ & Hs & [Hx|Hx] & _)]; [done|set_solver|]. exfalso. apply Hs, (sub_kept e); [|done]. rewrite <- (mg_head _ _ _ _ Hmg) in He. destruct bl'; [done|]. injection He as ->. by left.
  - intros fc0 b c before v after op x Hf0 Hat Hx. apply in_scope_more; [apply Hat|]. by eapply S6.
  - intros fc0 b c before v after op br Hf0 Hat Hbr. split; [by eapply S7|]. rewrite Hfc in Hf0. injection Hf0 as <-. intros z Hz. by eapply more_edge.
Qed.

(** A moved value stands for one that its block, and the blocks where it is available, do not define. *)
Lemma moved_not_killed b p x : path ctx0 fc b p -> sub x <> x -> x ∈ avail b \/ x ∈ args_of b -> passes (sub x) = true -> ~ defined_in ctx0 b (sub x).
Proof using Hwf Hch Hmg.
  intros Hp Hs Hx Hps. apply (avail_not_self ctx0 f more_avail more_scoped fc (wf_function _ _ _ _ Hwf) b p); [done|]. apply elem_of_more. right. by exists x.
Qed.

Lemma merged_const v k : is_const ctx0 v k -> is_const ctx' v k.
Proof using Hch Hmg. intros (c & Hv & Hk). exists c. rewrite (mg_constants _ _ _ _ Hmg). split; [|done]. pose proof (mg_kind _ _ _ _ Hmg v) as Hkind. by rewrite Hv in Hkind. Qed.

(** ** The same runs *)

Section simulation.
Context `{IrVm}.

Definition agree (b : Block) (c : BlockContent) (before : list Value) (e e' : gmap Value Val) : Prop :=
  forall x a, in_scope ctx0 avail b c before x -> eval ctx0 e x = Some a -> eval ctx' e' (sub x) = Some a.

(** The merged function is in the chain of the block that the given one is in. *)
Definition matches_state (n : nat) (st st' : State) : Prop :=
  exists p c before b l1 l2, path ctx0 fc (cur st) p /\ blocks ctx0 !! cur st = Some c /\ instructions c = before ++ rest st /\
    b ∈ bl' /\ b :: chain b = l1 ++ cur st :: l2 /\ length l2 = n /\ cur st' = b /\ rest st' = tail_of (rest st) l2 /\ world st' = world st /\ agree (cur st) c before (env st) (env st').

Lemma glued_agree_insert b p c before u after op e e' a : path ctx0 fc b p -> at_point ctx0 bl b c before u after op ->
  agree b c before e e' -> agree b c (before ++ [u]) (<[u := a]> e) (<[u := a]> e').
Proof using Hwf Hch Hmg.
  intros Hp Hat Hag x y Hx Hy. pose proof Hat as (Hb & Hc & Hi & pu & Hu). destruct (decide (x = u)) as [->|Hne].
  - rewrite (sub_instruction u pu op Hu). rewrite (eval_instruction _ _ _ _ _ Hu), lookup_insert_eq in Hy. injection Hy as <-. pose proof (mg_kind _ _ _ _ Hmg u) as Hk. rewrite Hu in Hk.
    destruct Hk as (p' & op' & Hk). by rewrite (eval_instruction _ _ _ _ _ Hk), lookup_insert_eq.
  - rewrite eval_insert_ne in Hy by done. assert (in_scope ctx0 avail b c before x) as Hx'.
    { destruct Hx as [?|[?|[?|Hin]]]; [by left|by right; left|by right; right; left|]. right. right. right. apply elem_of_app in Hin as [?|?%list_elem_of_singleton]; done. }
    assert (sub x <> u) as Hsu; [|rewrite eval_insert_ne by done; by apply Hag]. intros Hsu. destruct (decide (sub x = x)) as [Heq|Hs]; [congruence|].
    assert (defined_in ctx0 b u) as Hdef by (exists c; split; [done|]; right; rewrite Hi; set_solver). rewrite <- Hsu in Hdef. revert Hdef. apply (moved_not_killed b p x Hp Hs).
    + destruct Hx' as [[k Hk]|[?|[Hin|Hin]]]; [destruct Hs; by apply (sub_constant x k)|by left|right; unfold args_of; by rewrite Hc|destruct Hs; by apply (before_not_moved b c before u after op x Hat)].
    + unfold passes. by rewrite Hsu, Hu.
Qed.

Lemma argument_not_const b c x k : b ∈ bl -> blocks ctx0 !! b = Some c -> x ∈ args c -> ~ is_const ctx0 x k.
Proof using Hwf. intros Hb Hc Hx (kk & Hk & _). destruct (args_of_argument b x Hb) as (i & ty & Hv); [unfold args_of; by rewrite Hc|]. congruence. Qed.

(** Entering a block that is kept *)
Lemma glued_agree_enter b p c before v after op br cs vals e e' :
  path ctx0 fc b p -> at_point ctx0 bl b c before v after op -> br ∈ targets op -> br_block br ∈ bl' -> blocks ctx0 !! br_block br = Some cs -> length (args cs) = length vals ->
  agree b c before e e' -> agree (br_block br) cs [] (bind_args (args cs) vals e) (bind_args (args cs) vals e').
Proof using Hwf Hch Hmg.
  intros Hp Hat Hbr Hkept Hcs Hlen Hag x a Hx Ha. assert (args_of (br_block br) = args cs) as Hao by (unfold args_of; by rewrite Hcs).
  assert (path ctx0 fc (br_block br) (b :: p)) as Hps by (by eapply path_step). pose proof (kept_block Hch _ Hkept) as Hin.
  destruct (decide (x ∈ args cs)) as [Hxa|Hxa].
  - rewrite (sub_kept (br_block br) x Hkept) by (by rewrite Hao). destruct (args_of_argument (br_block br) x Hin) as (i & ty & Hv); [by rewrite Hao|].
    pose proof (mg_kind _ _ _ _ Hmg x) as Hk. rewrite Hv in Hk. unfold eval in *. rewrite Hv in Ha. rewrite Hk. by rewrite (bind_args_in _ _ e' e) by done.
  - rewrite eval_bind_out in Ha by done. assert (in_scope ctx0 avail b c before x) as Hx'.
    { destruct Hx as [?|[Hx|[Hx|Hx]]]; [by left| |done|by apply elem_of_nil in Hx]. right. by apply (sc_edges _ _ _ (wf_scoped _ _ _ _ Hwf) fc b c before v after op br (wf_function _ _ _ _ Hwf) Hat Hbr). }
    assert (sub x ∉ args cs) as Hsx; [|rewrite eval_bind_out by done; by apply Hag]. intros Hsx. destruct (decide (sub x = x)) as [Heq|Hs]; [congruence|].
    assert (x ∈ avail (br_block br)) as Hav by (destruct Hx as [[k Hk]|[?|[?|Hx]]]; [destruct Hs; by apply (sub_constant x k)|done|done|by apply elem_of_nil in Hx]).
    apply (moved_not_killed (br_block br) (b :: p) x Hps Hs); [by left| |exists cs; split; [done|by left]].
    destruct (args_of_argument (br_block br) (sub x) Hin) as (i & ty & Hv); [by rewrite Hao|]. unfold passes. by rewrite Hv.
Qed.

Lemma bind_args_lookup l vals (e : gmap Value Val) i x a : NoDup l -> l !! i = Some x -> vals !! i = Some a -> bind_args l vals e !! x = Some a.
Proof.
  intros Hnd Hx Ha. unfold bind_args. apply lookup_union_Some_l, elem_of_list_to_map_1'.
  - intros y Hy. apply elem_of_lookup_zip_with in Hy as (j & x' & y' & [= <- <-] & Hx' & Hy'). assert (i = j) as -> by (by eapply (NoDup_lookup l)). congruence.
  - apply elem_of_lookup_zip_with. by exists i, x, a.
Qed.

(** Going on to the next block of the chain *)
Lemma agree_link b p c before t y ps cs vals e e' :
  path ctx0 fc b p -> b ∈ bl -> ends_with ctx0 b c before t (IBranch (mkBranch y ps)) -> links b y ps -> y ∈ bl -> y ∉ bl' -> blocks ctx0 !! y = Some cs ->
  length (args cs) = length vals -> mapM (eval ctx0 e) ps = Some vals -> agree b c before e e' -> agree y cs [] (bind_args (args cs) vals e) e'.
Proof using Hwf Hch Hmg.
  intros Hp Hb He Hlk Hy Hny Hcs Hlen Hvals Hag x a Hx Ha. pose proof (ends_with_point _ fc _ _ _ _ _ Hb He) as Hat. assert (args_of y = args cs) as Hao by (unfold args_of; by rewrite Hcs).
  pose proof (wf_scoped _ _ _ _ Hwf) as Hsc. pose proof (wf_function _ _ _ _ Hwf) as Hfc. destruct (decide (x ∈ args cs)) as [Hxa|Hxa].
  - apply list_elem_of_lookup in Hxa as [i Hi]. destruct (sc_block _ _ _ Hsc fc y Hfc Hy) as (cs' & Hcs' & Hnd). rewrite Hcs in Hcs'. injection Hcs' as <-. apply NoDup_app in Hnd as (Hnd & _).
    apply mapM_Some in Hvals. destruct (lookup_lt_is_Some_2 vals i) as [a' Ha']; [rewrite <- Hlen; by eapply lookup_lt_Some|].
    destruct (Forall2_lookup_r _ _ _ _ _ Hvals Ha') as (r & Hr & Hra). destruct (args_of_argument y x Hy) as (j & ty & Hv); [rewrite Hao; by eapply list_elem_of_lookup_2|].
    assert (a' = a) as ->. { unfold eval in Ha. rewrite Hv, (bind_args_lookup _ _ _ _ _ _ Hnd Hi Ha') in Ha. by injection Ha. }
    rewrite (mg_sub _ _ _ _ Hmg b y ps i x r Hb Hlk Hy Hny ltac:(by rewrite Hao) Hr). apply Hag; [|done]. apply (sc_operands _ _ _ Hsc fc b c before t [] _ r Hfc Hat). cbn. by eapply list_elem_of_lookup_2.
  - rewrite eval_bind_out in Ha by done. apply Hag; [|done]. destruct Hx as [?|[Hx|[Hx|Hx]]]; [by left| |done|by apply elem_of_nil in Hx]. right.
    by apply (sc_edges _ _ _ Hsc fc b c before t [] _ (mkBranch y ps) Hfc Hat ltac:(by left)).
Qed.

Definition simulated (n : nat) (st st' : State) (r : State + Outcome) : Prop :=
  match r with
  | inl st1 => (exists m st1', step ctx' st' = Some (inl st1') /\ matches_state m st1 st1') \/ (exists m, (m < n)%nat /\ matches_state m st1 st')
  | inr o => step ctx' st' = Some (inr o)
  end.

(** A branch to the next block of the chain is a step of the given function only. *)
Lemma link_step b p c before v y l2 l1 b0 e e' w r :
  path ctx0 fc b p -> blocks ctx0 !! b = Some c -> instructions c = before ++ [v] -> b0 ∈ bl' -> b0 :: chain b0 = l1 ++ b :: y :: l2 -> agree b c before e e' ->
  step ctx0 (mkState b [v] e w) = Some r -> simulated (S (length l2)) (mkState b [v] e w) (mkState b0 (glue (y :: l2)) e' w) r.
Proof using Hwf Hch Hmg.
  intros Hp Hc Hi Hb0 Hl Hag Hr. pose proof (ch_linked _ _ Hch b0 Hb0) as Hlk. rewrite Hl in Hlk. destruct (linked_split _ _ _ _ Hlk) as (ps & Hxy). pose proof Hxy as [(c1 & body & t & He) _].
  assert (b ∈ bl) as Hb by (apply (part_block Hch b0); [done|rewrite Hl; set_solver]). assert (y ∈ bl) as Hy by (apply (part_block Hch b0); [done|rewrite Hl; set_solver]).
  assert (c1 = c) as -> by (destruct He as (? & _); congruence). pose proof He as (_ & Hi' & (pt & Hv) & _). rewrite Hi in Hi'. apply app_inj_tail in Hi' as [<- <-].
  unfold step in Hr. cbn [rest env world] in Hr. rewrite Hv in Hr. apply fmap_Some in Hr as (st1 & Hst1 & ->). unfold enter in Hst1. cbn [br_args br_block] in Hst1.
  apply bind_Some in Hst1 as (vals & Hvals & (cs & Hcs & Hst)%bind_Some). case_bool_decide as Hlen; [|done]. injection Hst as <-. right. exists (length l2). split; [lia|].
  exists (b :: p), cs, [], b0, (l1 ++ [b]), l2. cbn [cur rest env world]. split_and!; try done.
  - apply (path_step ctx0 fc b p c before v [] (IBranch (mkBranch y ps)) (mkBranch y ps)); [done|by apply ends_with_point|by left].
  - by rewrite <- app_assoc.
  - rewrite glue_cons. unfold instrs. by rewrite Hcs.
  - apply (agree_link b p c before v y ps cs vals e e'); try done. apply (merged_block Hch b0 (l1 ++ [b]) y l2 Hb0); [by rewrite <- app_assoc|by destruct l1].
Qed.

Lemma glued_enter_simulated b p c before v op br e e' w st1 b0 l1 :
  path ctx0 fc b p -> b0 ∈ bl' -> b0 :: chain b0 = l1 ++ [b] -> ends_with ctx0 b c before v op -> br ∈ targets op -> agree b c before e e' -> enter ctx0 e w br = Some st1 ->
  exists m st1', enter ctx' e' w (rename_branch sub br) = Some st1' /\ matches_state m st1 st1'.
Proof using Hwf Hch Hmg.
  intros Hp Hb0 Hl He Hbr Hag. assert (b ∈ bl) as Hb by (apply (part_block Hch b0); [done|rewrite Hl; set_solver]). pose proof (ends_with_point _ fc _ _ _ _ _ Hb He) as Hat.
  pose proof (target_kept Hch b0 l1 b c before v op br Hb0 Hl He Hbr) as Hkept. unfold enter. cbn [br_args br_block rename_branch].
  intros (vals & Hvals & (cs & Hcs & Hst)%bind_Some)%bind_Some. case_bool_decide as Hlen; [|done]. injection Hst as <-.
  rewrite (mapM_impl (eval ctx0 e) (eval ctx' e') sub _ vals); [| |exact Hvals].
  - destruct (mg_block _ _ _ _ Hmg _ Hkept) as (c' & Hc' & Hi'). destruct (mg_args _ _ _ _ Hmg _ cs Hcs) as (c'' & Hc'' & Ha). rewrite Hc' in Hc''. injection Hc'' as <-. cbn. rewrite Hc'. cbn.
    rewrite Ha, bool_decide_true by done. eexists _, _. split; [done|]. exists (b :: p), cs, [], (br_block br), [], (chain (br_block br)). cbn [cur rest env world]. split_and!; try done.
    + by eapply path_step.
    + rewrite Hi', glue_cons. unfold instrs. by rewrite Hcs.
    + by eapply glued_agree_enter.
  - intros x a Hx Hxa. apply Hag; [|done]. eapply (sc_operands _ _ _ (wf_scoped _ _ _ _ Hwf) fc); [apply (wf_function _ _ _ _ Hwf)|exact Hat|]. by apply (branch_operands op br).
Qed.

(** Every other instruction is a step of both. *)
Lemma glued_kept_step b p c before v rest' l1 l2 b0 e e' w r :
  path ctx0 fc b p -> blocks ctx0 !! b = Some c -> instructions c = before ++ v :: rest' -> b0 ∈ bl' -> b0 :: chain b0 = l1 ++ b :: l2 -> (l2 = [] \/ rest' <> []) -> agree b c before e e' ->
  step ctx0 (mkState b (v :: rest') e w) = Some r -> simulated (length l2) (mkState b (v :: rest') e w) (mkState b0 (v :: tail_of rest' l2) e' w) r.
Proof using Hwf Hch Hmg.
  intros Hp Hc Hi Hb0 Hl Hcase Hag Hr. assert (b ∈ bl) as Hb by (apply (part_block Hch b0); [done|rewrite Hl; set_solver]).
  assert (exists pv op, values ctx0 !! v = Some (VInstruction pv op)) as (pv & op & Hv).
  { unfold step in Hr. cbn [rest] in Hr. destruct (values ctx0 !! v) as [[]|]; try done. by eexists _, _. }
  assert (at_point ctx0 bl b c before v rest' op) as Hat by (split_and!; [done|done|done|by exists pv]).
  assert (v ∈ glue (b0 :: chain b0)) as Hin.
  { rewrite Hl, glue_app by done. apply elem_of_app. right. rewrite glue_cons. assert (instrs b = before ++ v :: rest') as -> by (unfold instrs; by rewrite Hc). destruct l2 as [|y l2]; cbn; [set_solver|].
    destruct Hcase as [|Hne]; [done|]. rewrite removelast_app by done. destruct rest' as [|u rest']; [done|]. rewrite !elem_of_app. left. right. by left. }
  destruct (mg_kept _ _ _ _ Hmg b0 v pv op Hb0 Hin Hv) as [p' Hv'].
  assert (forall x a, x ∈ get_operands op -> eval ctx0 e x = Some a -> eval ctx' e' (sub x) = Some a) as Hev.
  { intros x a Hx Ha. apply Hag; [|done]. by eapply (sc_operands _ _ _ (wf_scoped _ _ _ _ Hwf) fc); [apply (wf_function _ _ _ _ Hwf)|exact Hat|]. }
  assert (forall br st1, br ∈ targets op -> enter ctx0 e w br = Some st1 -> exists m st1', enter ctx' e' w (rename_branch sub br) = Some st1' /\ matches_state m st1 st1') as Hent.
  { intros br st1 Hbr Hst1. destruct (point_ends_with _ _ _ _ Hwf _ _ _ _ _ _ _ Hat Hbr) as [-> He]. destruct Hcase as [->|?]; [|done]. by eapply glued_enter_simulated. }
  destruct (is_control op) eqn:Hcontrol.
  - unfold step in Hr. cbn [rest cur env world] in Hr. rewrite Hv in Hr. unfold simulated, step. cbn [rest cur env world]. rewrite Hv'.
    unfold rename. destruct op; try done; cbn [replace_operands]; rewrite ?replace_branch_total; cbn [mbind Result_bind].
    + apply fmap_Some in Hr as (st1 & Hst1 & ->). left. destruct (Hent br st1 ltac:(by left) Hst1) as (m & st1' & Hst1' & Hm). exists m, st1'. by rewrite Hst1'.
    + apply bind_Some in Hr as (cv & Hcv & Hr). apply bind_Some in Hr as (bb & Hbb & Hr). apply fmap_Some in Hr as (st1 & Hst1 & ->).
      rewrite (Hev cond_value cv) by (done || by left). cbn. rewrite Hbb. cbn. left. destruct (Hent (if bb then true_block else false_block) st1) as (m & st1' & Hst1' & Hm); [destruct bb; set_solver|done|].
      exists m, st1'. split; [|done]. destruct bb; by rewrite Hst1'.
    + apply bind_Some in Hr as (rv & Hrv & [= <-]). rewrite (Hev v0 rv) by (done || by left). done.
  - rewrite (step_plain ctx0 b v rest' e w pv op Hv Hcontrol) in Hr. apply bind_Some in Hr as (vals & Hvals & Hr). apply bind_Some in Hr as (eff & Heff & [= <-]).
    assert (step ctx' (mkState b0 (v :: tail_of rest' l2) e' w) =
      Some (match eff with Continues a w => inl (mkState b0 (tail_of rest' l2) (<[v := a]> e') w) | Halts h => inr (Halted h) end)) as Hs.
    { rewrite (step_plain ctx' b0 v (tail_of rest' l2) e' w p' _ Hv') by (by rewrite is_control_rename). rewrite get_operands_rename.
      rewrite (mapM_impl (eval ctx0 e) (eval ctx' e') sub _ vals Hev Hvals). cbn. rewrite erase_rename, Heff. done. }
    destruct eff as [a w'|h]; [|done]. left. eexists _, _. split; [exact Hs|]. exists p, c, (before ++ [v]), b0, l1, l2. cbn [cur rest env world].
    split_and!; [done|done|by rewrite <- app_assoc|done..|]. by eapply glued_agree_insert.
Qed.

Lemma glued_step_simulated n st st' r : matches_state n st st' -> step ctx0 st = Some r -> simulated n st st' r.
Proof using Hwf Hch Hmg.
  intros (p & c & before & b0 & l1 & l2 & Hp & Hc & Hi & Hb0 & Hl & <- & Hcur & Hrest & Hworld & Hag) Hr. destruct st as [b [|v rest'] e w]; [done|]. destruct st' as [b' l e' w'].
  cbn [cur rest env world] in *. subst b' l w'. destruct l2 as [|y l2]; [by eapply (glued_kept_step b p c before v rest' l1 [] b0); eauto|].
  destruct rest' as [|u rest']; [by eapply link_step|]. eapply (glued_kept_step b p c before v (u :: rest') l1 (y :: l2) b0); try done. by right.
Qed.

Lemma glued_run_simulated n k st st' o : matches_state k st st' -> run ctx0 n st = Finished o -> exists n', run ctx' n' st' = Finished o.
Proof using Hwf Hch Hmg.
  revert k st st'. induction n as [|n IH]; intros k st st' Hm Hr; [done|]. cbn in Hr. destruct (step ctx0 st) as [r|] eqn:Hs; [|done].
  pose proof (glued_step_simulated k st st' r Hm Hs) as Hsim. destruct r as [st1|o1].
  - destruct Hsim as [(m & st1' & Hs' & Hm1)|(m & _ & Hm1)]; [|by eapply IH]. destruct (IH m st1 st1' Hm1 Hr) as (n' & Hn'). exists (S n'). cbn. by rewrite Hs'.
  - injection Hr as <-. exists 1%nat. cbn in Hsim |- *. by rewrite Hsim.
Qed.

Lemma glued_forever_productive k st st' : matches_state k st st' -> runs_forever ctx0 st -> exists m st1 st1', step ctx' st' = Some (inl st1') /\ matches_state m st1 st1' /\ runs_forever ctx0 st1.
Proof using Hwf Hch Hmg.
  revert st. induction k as [k IH] using lt_wf_ind. intros st Hm Hf. destruct (runs_forever_step ctx0 st Hf) as (st1 & Hs & Hf1).
  destruct (glued_step_simulated k st st' _ Hm Hs) as [(m & st1' & Hs' & Hm1)|(m & Hlt & Hm1)]; [by exists m, st1, st1'|]. by apply (IH m Hlt st1).
Qed.

Lemma merged_refines : refines ctx0 ctx' f.
Proof using Hwf Hch Hmg.
  assert (forall vals w st, start ctx0 f vals w = Some st -> exists k st', start ctx' f vals w = Some st' /\ matches_state k st st') as Hstart.
  { intros vals w st. unfold start. rewrite (wf_function _ _ _ _ Hwf), (mg_function _ _ _ _ Hmg). cbn. intros (entry & He & (c & Hc & Hst)%bind_Some)%bind_Some. case_bool_decide as Hlen; [|done]. injection Hst as <-.
    rewrite (mg_head _ _ _ _ Hmg), He. cbn. assert (entry ∈ bl') as Hin by (rewrite <- (mg_head _ _ _ _ Hmg) in He; destruct bl'; [done|]; injection He as ->; by left).
    destruct (mg_block _ _ _ _ Hmg _ Hin) as (c' & Hc' & Hi'). destruct (mg_args _ _ _ _ Hmg _ c Hc) as (c'' & Hc'' & Ha). rewrite Hc' in Hc''. injection Hc'' as <-. rewrite Hc'. cbn. rewrite Ha, bool_decide_true by done.
    eexists _, _. split; [done|]. exists [], c, [], entry, [], (chain entry). cbn [cur rest env world]. assert (args_of entry = args c) as Hao by (unfold args_of; by rewrite Hc). split_and!; try done.
    - by constructor.
    - rewrite Hi', glue_cons. unfold instrs. by rewrite Hc.
    - intros x a Hx Hev. destruct Hx as [[k Hk]|[Hx|[Hx|Hx]]]; [| | |by apply elem_of_nil in Hx].
      + rewrite (sub_constant x k Hk). rewrite (eval_const ctx0 _ x k Hk) in Hev. by rewrite (eval_const ctx' _ x k (merged_const x k Hk)).
      + rewrite (avail_entry _ _ _ (wf_scoped _ _ _ _ Hwf) fc (wf_function _ _ _ _ Hwf) entry He) in Hx. by apply elem_of_empty in Hx.
      + rewrite (sub_kept entry x Hin) by (by rewrite Hao). destruct (args_of_argument entry x (kept_block Hch entry Hin)) as (i & ty & Hv); [by rewrite Hao|].
        pose proof (mg_kind _ _ _ _ Hmg x) as Hk. rewrite Hv in Hk. unfold eval in *. by rewrite Hv in Hev; rewrite Hk. }
  split.
  - intros vals w o (st & n & Hst & Hr). destruct (Hstart vals w st Hst) as (k & st' & Hst' & Hm). destruct (glued_run_simulated n k st st' o Hm Hr) as (n' & Hr'). by exists st', n'.
  - intros vals w (st & Hst & Hr). destruct (Hstart vals w st Hst) as (k & st' & Hst' & Hm). exists st'. split; [done|]. intros n. clear Hst Hst'. revert k st st' Hm Hr.
    induction n as [|n IH]; intros k st st' Hm Hf; [by exists st'|]. destruct (glued_forever_productive k st st' Hm Hf) as (m & st1 & st1' & Hs & Hm1 & Hf1). cbn. rewrite Hs. by eapply IH.
Qed.
End simulation.

(** ** The merged function is well formed *)

Context (Hreach : forall b, b ∈ bl -> exists p, path ctx0 fc b p).

Lemma avail_not_constant b z k : b ∈ bl -> z ∈ avail b -> values ctx0 !! z <> Some (VConstant k).
Proof using Hwf Hreach.
  intros Hb Hz Hv. pose proof (wf_scoped _ _ _ _ Hwf) as Hsc. pose proof (wf_function _ _ _ _ Hwf) as Hfc. destruct (Hreach b Hb) as [p Hp].
  destruct (avail_defined ctx0 f avail Hsc fc Hfc b p z Hp Hz) as (p1 & b' & p2 & _ & Hp2 & c & Hc & [Hx|Hx]).
  - destruct (sc_argument _ _ _ Hsc fc b' c z Hfc (path_block _ _ _ Hsc _ Hfc _ _ Hp2) Hc Hx) as (? & ? & ? & ?). congruence.
  - destruct (sc_instruction _ _ _ Hsc fc b' c z Hfc (path_block _ _ _ Hsc _ Hfc _ _ Hp2) Hc Hx) as (? & ? & ?). congruence.
Qed.

Definition merged_avail (b : Block) : gset Value := filter (fun z => passes z = true) (set_map sub (avail b)).

Lemma elem_of_merged_avail b z : z ∈ merged_avail b <-> passes z = true /\ exists x, z = sub x /\ x ∈ avail b.
Proof. unfold merged_avail. rewrite elem_of_filter, elem_of_map. done. Qed.

Lemma instrs_end b : b ∈ bl -> exists c t op, ends_with ctx0 b c (body_of b) t op /\ instrs b = body_of b ++ [t].
Proof using Hwf.
  intros Hb. destruct (wf_block _ _ _ _ Hwf b Hb) as (c & body & t & op & He & _). destruct (block_instrs _ _ _ _ _ He) as (Hi & Hbody & _). exists c, t, op. by rewrite Hbody.
Qed.

(** An instruction of a chain, in its block *)
Lemma glue_split l before v after : (forall b, b ∈ l -> b ∈ bl) -> glue l = before ++ v :: after ->
  exists l1 b0 l2 before0 after0, l = l1 ++ b0 :: l2 /\ instrs b0 = before0 ++ v :: after0 /\ before = bodies l1 ++ before0 /\ (l2 = [] \/ after0 <> []).
Proof using Hwf.
  revert before. induction l as [|b l IH]; intros before Hl Hg; [by destruct before|]. rewrite glue_cons in Hg. destruct l as [|y l].
  { exists [], b, [], before, after. split_and!; [done..|by left]. }
  cbn [tail_of] in Hg. change (removelast (instrs b)) with (body_of b) in Hg. destruct (instrs_end b ltac:(apply Hl; by left)) as (c & t & op & _ & Hi).
  apply app_eq_app in Hg as (k & [[Hb Hk]|[-> Hk]]).
  - destruct k as [|u k].
    + cbn in Hk. destruct (IH [] ltac:(intros; apply Hl; by right)) as (l1 & b0 & l2 & before0 & after0 & H1 & H2 & H3 & H4); [done|].
      exists (b :: l1), b0, l2, before0, after0. split_and!; [by rewrite H1|done| |done]. rewrite app_nil_r in Hb. unfold bodies in H3 |- *. cbn. rewrite <- app_assoc, <- H3, app_nil_r. done.
    + cbn in Hk. injection Hk as <- Hk. exists [], b, (y :: l), before, (k ++ [t]). split_and!; [done| |done|right; by destruct k]. by rewrite Hi, Hb, <- app_assoc.
  - destruct (IH k ltac:(intros; apply Hl; by right) Hk) as (l1 & b0 & l2 & before0 & after0 & H1 & H2 & H3 & H4). exists (b :: l1), b0, l2, before0, after0.
    split_and!; [by rewrite H1|done| |done]. unfold bodies in H3 |- *. cbn. by rewrite H3, <- app_assoc.
Qed.

(** What is in scope in a block of a chain stands for what is in scope in the merged block. *)
Lemma scope_glued b l1 : b ∈ bl' -> forall b0 l2 c before v after op z, b :: chain b = l1 ++ b0 :: l2 -> at_point ctx0 bl b0 c before v after op -> in_scope ctx0 avail b0 c before z ->
  (exists k, is_const ctx' (sub z) k) \/ sub z ∈ merged_avail b \/ sub z ∈ args_of b \/ sub z ∈ bodies l1 ++ before.
Proof using Hwf Hch Hmg Hreach.
  intros Hb. induction l1 as [|x l1 IH] using rev_ind; intros b0 l2 c before v after op z Hl Hat Hz; pose proof Hat as (Hb0 & Hc & _).
  - injection Hl as <- _. destruct Hz as [[k Hk]|[Hz|[Hz|Hz]]].
    + left. exists k. rewrite (sub_constant z k Hk). by apply merged_const.
    + destruct (passes (sub z)) eqn:Hp; [right; left; apply elem_of_merged_avail; split; [done|by exists z]|]. left. unfold passes in Hp. destruct (values ctx0 !! sub z) as [[|k|]|] eqn:Hv; try done.
      destruct (decide (sub z = z)) as [Heq|Hs].
      * exfalso. rewrite Heq in Hv. by apply (avail_not_constant b z k) in Hv.
      * pose proof (mg_range _ _ _ _ Hmg z Hs) as Hu. unfold usable in Hu. rewrite Hv in Hu. destruct Hu as [content Hk]. exists content. apply merged_const. by exists k.
    + right. right. left. rewrite (sub_kept b z Hb); unfold args_of; by rewrite Hc.
    + right. right. right. by rewrite (before_not_moved b c before v after op z Hat Hz).
  - rewrite <- app_assoc in Hl. cbn in Hl. pose proof (ch_linked _ _ Hch b Hb) as Hlk. rewrite Hl in Hlk. destruct (linked_split _ _ _ _ Hlk) as (ps & Hxy). pose proof Hxy as [(cx & bodyx & t & He) _].
    assert (x ∈ bl) as Hx by (apply (part_block Hch b); [done|rewrite Hl; set_solver]). pose proof (ends_with_point _ fc _ _ _ _ _ Hx He) as Hatx.
    assert (forall y, in_scope ctx0 avail x cx bodyx y -> (exists k, is_const ctx' (sub y) k) \/ sub y ∈ merged_avail b \/ sub y ∈ args_of b \/ sub y ∈ bodies (l1 ++ [x]) ++ before) as Hprev.
    { intros y Hy. destruct (IH x (b0 :: l2) cx bodyx t [] _ y Hl Hatx Hy) as [?|[?|[?|Hin]]]; [by left|by right; left|by right; right; left|]. right. right. right.
      unfold bodies in Hin |- *. rewrite map_app, concat_app. cbn. destruct (block_instrs _ _ _ _ _ He) as (_ & -> & _). rewrite app_nil_r. set_solver. }
    destruct Hz as [[k Hk]|[Hz|[Hz|Hz]]].
    + left. exists k. rewrite (sub_constant z k Hk). by apply merged_const.
    + apply Hprev. right. by apply (sc_edges _ _ _ (wf_scoped _ _ _ _ Hwf) fc x cx bodyx t [] _ (mkBranch b0 ps) (wf_function _ _ _ _ Hwf) Hatx ltac:(by left)).
    + assert (b0 ∉ bl') as Hn by (apply (merged_block Hch b (l1 ++ [x]) b0 l2 Hb); [by rewrite <- app_assoc|by destruct l1]).
      assert (args_of b0 = args c) as Hao by (unfold args_of; by rewrite Hc). apply list_elem_of_lookup in Hz as [i Hi].
      destruct (wf_arity _ _ _ _ Hwf x cx bodyx t _ (mkBranch b0 ps) Hx He ltac:(by left)) as (c1 & Hc1 & Hlen). cbn in Hc1, Hlen. rewrite Hc in Hc1. injection Hc1 as <-.
      destruct (lookup_lt_is_Some_2 ps i) as [r Hr]; [rewrite Hlen; by eapply lookup_lt_Some|]. rewrite (mg_sub _ _ _ _ Hmg x b0 ps i z r Hx Hxy Hb0 Hn ltac:(by rewrite Hao) Hr).
      apply Hprev, (sc_operands _ _ _ (wf_scoped _ _ _ _ Hwf) fc x cx bodyx t [] _ r (wf_function _ _ _ _ Hwf) Hatx). cbn. by eapply list_elem_of_lookup_2.
    + right. right. right. rewrite (before_not_moved b0 c before v after op z Hat Hz). set_solver.
Qed.

Lemma terminator_rename g op : InstOp_is_terminator (rename g op) = InstOp_is_terminator op.
Proof.
  unfold rename. destruct op as [asm l| | | | | | | | | |instr| | | | | | | | | | | |]; cbn; rewrite ?traverse_total, ?replace_branch_total, ?replace_asm_args_total; cbn; try done.
  by destruct instr.
Qed.

Lemma instrs_nodup b : b ∈ bl -> NoDup (args_of b ++ instrs b).
Proof using Hwf. intros Hb. destruct (sc_block _ _ _ (wf_scoped _ _ _ _ Hwf) fc b (wf_function _ _ _ _ Hwf) Hb) as (c & Hc & Hnd). unfold args_of, instrs. by rewrite Hc. Qed.

Lemma instrs_value b v : b ∈ bl -> v ∈ instrs b -> exists p op, values ctx0 !! v = Some (VInstruction p op).
Proof using Hwf.
  intros Hb Hv. destruct (sc_block _ _ _ (wf_scoped _ _ _ _ Hwf) fc b (wf_function _ _ _ _ Hwf) Hb) as (c & Hc & _). unfold instrs in Hv. rewrite Hc in Hv.
  by apply (sc_instruction _ _ _ (wf_scoped _ _ _ _ Hwf) fc b c v (wf_function _ _ _ _ Hwf) Hb Hc).
Qed.

Lemma instrs_unique b b' v : b ∈ bl -> b' ∈ bl -> v ∈ instrs b -> v ∈ instrs b' -> b = b'.
Proof using Hwf.
  intros Hb Hb' Hv Hv'. apply (sc_unique _ _ _ (wf_scoped _ _ _ _ Hwf) fc b b' v (wf_function _ _ _ _ Hwf) Hb Hb').
  - unfold instrs in Hv. destruct (blocks ctx0 !! b) as [c|] eqn:Hc; [|by apply elem_of_nil in Hv]. exists c. auto.
  - unfold instrs in Hv'. destruct (blocks ctx0 !! b') as [c|] eqn:Hc; [|by apply elem_of_nil in Hv']. exists c. auto.
Qed.

Lemma elem_of_glue l v : v ∈ glue l -> exists b, b ∈ l /\ v ∈ instrs b.
Proof using.
  induction l as [|b l IH]; [by intros ?%elem_of_nil|]. rewrite glue_cons. destruct l as [|y l]; [intros Hv; exists b; split; [by left|done]|]. cbn [tail_of].
  intros [Hv|Hv]%elem_of_app; [|destruct (IH Hv) as (b' & ? & ?); exists b'; split; [by right|done]]. exists b. split; [by left|]. destruct (instrs b) as [|u k] eqn:Hi using rev_ind; [done|].
  rewrite removelast_last in Hv. apply elem_of_app. by left.
Qed.

Lemma glue_nodup l : NoDup l -> (forall b, b ∈ l -> b ∈ bl) -> NoDup (glue l).
Proof using Hwf.
  induction 1 as [|b l Hb _ IH]; intros Hl; [constructor|]. rewrite glue_cons. pose proof (Hl b ltac:(by left)) as Hbb. pose proof (instrs_nodup b Hbb) as Hnd. apply NoDup_app in Hnd as (_ & _ & Hnd).
  destruct l as [|y l]; [done|]. cbn [tail_of]. destruct (instrs_end b Hbb) as (c & t & op & _ & Hi). change (removelast (instrs b)) with (body_of b). rewrite Hi in Hnd. apply NoDup_app in Hnd as (Hnd & _).
  apply NoDup_app. split_and!; [done| |apply IH; intros; apply Hl; by right]. intros v Hv (b' & Hb' & Hv')%elem_of_glue. apply Hb.
  rewrite (instrs_unique b b' v); [done|done|apply Hl; by right|rewrite Hi; apply elem_of_app; by left|done].
Qed.

(** The instructions of the merged blocks *)
Lemma merged_point b c' before v after op' : at_point ctx' bl' b c' before v after op' ->
  exists l1 b0 l2 c before0 after0 op, b :: chain b = l1 ++ b0 :: l2 /\ at_point ctx0 bl b0 c before0 v after0 op /\ before = bodies l1 ++ before0 /\ (l2 = [] \/ after0 <> []) /\ op' = rename sub op.
Proof using All.
  intros (Hb & Hc' & Hi & p' & Hv'). destruct (mg_block _ _ _ _ Hmg b Hb) as (c1 & Hc1 & Hg). rewrite Hc' in Hc1. injection Hc1 as <-. rewrite Hi in Hg. symmetry in Hg.
  destruct (glue_split _ _ _ _ (fun x => part_block Hch b x Hb) Hg) as (l1 & b0 & l2 & before0 & after0 & H1 & H2 & H3 & H4).
  assert (b0 ∈ bl) as Hb0 by (apply (part_block Hch b); [done|rewrite H1; set_solver]). destruct (instrs_value b0 v Hb0) as (p & op & Hv); [rewrite H2; set_solver|].
  destruct (mg_kept _ _ _ _ Hmg b v p op Hb) as [p1 Hv1]; [rewrite Hg; set_solver|done|]. rewrite Hv1 in Hv'. injection Hv' as _ <-.
  unfold instrs in H2. destruct (blocks ctx0 !! b0) as [c|] eqn:Hc; [|by destruct before0]. exists l1, b0, l2, c, before0, after0, op. split_and!; try done. split_and!; [done|done|done|by exists p].
Qed.

(** The last block of a chain gives the terminator. *)
Lemma merged_ends_with b : b ∈ bl' -> exists l1 b0 c c' body t op, b :: chain b = l1 ++ [b0] /\ ends_with ctx0 b0 c body t op /\ ends_with ctx' b c' (bodies l1 ++ body) t (rename sub op).
Proof using All.
  intros Hb. destruct (exists_last (l := b :: chain b)) as (l1 & b0 & Hl); [done|]. assert (b0 ∈ bl) as Hb0 by (apply (part_block Hch b); [done|rewrite Hl; set_solver]).
  destruct (instrs_end b0 Hb0) as (c & t & op & He & Hi). destruct (mg_block _ _ _ _ Hmg b Hb) as (c' & Hc' & Hg). rewrite Hl, glue_app in Hg by done. cbn in Hg. rewrite Hi in Hg.
  pose proof He as (_ & _ & (p & Hv) & Ht). destruct (mg_kept _ _ _ _ Hmg b t p op Hb) as [p' Hv']; [rewrite Hl, glue_app by done; cbn; rewrite Hi; set_solver|done|].
  exists l1, b0, c, c', (body_of b0), t, op. split_and!; [done|done|]. split_and!; [done|by rewrite Hg, app_assoc|by exists p'|by rewrite terminator_rename].
Qed.

Lemma merged_edge b x : b ∈ bl' -> edge ctx' b x -> exists l1 b0, b :: chain b = l1 ++ [b0] /\ edge ctx0 b0 x.
Proof using All.
  intros Hb Hedge. destruct (merged_ends_with b Hb) as (l1 & b0 & c & c' & body & t & op & Hl & He & He'). exists l1, b0. split; [done|].
  apply (edge_targets _ _ _ _ _ _ x He') in Hedge as (br' & Hbr' & <-). rewrite targets_rename in Hbr'. apply list_elem_of_fmap in Hbr' as (br & -> & Hbr). apply (edge_targets _ _ _ _ _ _ _ He). by exists br.
Qed.

Lemma merged_args b c' : b ∈ bl' -> blocks ctx' !! b = Some c' -> args c' = args_of b.
Proof using All.
  intros Hb Hc'. destruct (instrs_end b (kept_block Hch b Hb)) as (c & t & op & He & _). destruct (block_instrs _ _ _ _ _ He) as (_ & _ & ->). destruct He as (Hc & _).
  destruct (mg_args _ _ _ _ Hmg b c Hc) as (c1 & Hc1 & Ha). congruence.
Qed.

Lemma merged_defined b x : b ∈ bl' -> defined_in ctx' b x -> exists b0, b0 ∈ b :: chain b /\ defined_in ctx0 b0 x.
Proof using All.
  intros Hb (c' & Hc' & [Hx|Hx]).
  - rewrite (merged_args b c' Hb Hc') in Hx. unfold args_of in Hx. destruct (blocks ctx0 !! b) as [c|] eqn:Hc; [|by apply elem_of_nil in Hx]. exists b. split; [by left|]. exists c. auto.
  - destruct (mg_block _ _ _ _ Hmg b Hb) as (c1 & Hc1 & Hg). rewrite Hc' in Hc1. injection Hc1 as <-. rewrite Hg in Hx. apply elem_of_glue in Hx as (b0 & Hb0 & Hx). exists b0. split; [done|].
    unfold instrs in Hx. destruct (blocks ctx0 !! b0) as [c|] eqn:Hc; [|by apply elem_of_nil in Hx]. exists c. auto.
Qed.

Lemma passes_const z k : is_const ctx' z k -> passes z = false.
Proof using All.
  intros (kk & Hv & _). pose proof (mg_kind _ _ _ _ Hmg z) as Hk. unfold passes. destruct (values ctx0 !! z) as [[| |]|]; try congruence. destruct Hk as (? & ? & ?). congruence.
Qed.

Lemma merged_scoped : scoped ctx' f merged_avail.
Proof using All.
  pose proof (wf_scoped _ _ _ _ Hwf) as Hsc. pose proof (wf_function _ _ _ _ Hwf) as Hfc. pose proof (mg_function _ _ _ _ Hmg) as Hf'. split.
  - destruct (sc_function _ _ _ Hsc) as (fc0 & e & Hf0 & He & Hav & _). rewrite Hfc in Hf0. injection Hf0 as <-. exists fc', e. split_and!; [done|by rewrite (mg_head _ _ _ _ Hmg)| |apply (kept_nodup Hch)].
    apply set_eq. intros z. rewrite elem_of_merged_avail, Hav. set_solver.
  - intros fc0 b Hf0 Hb. rewrite Hf' in Hf0. injection Hf0 as <-. destruct (mg_block _ _ _ _ Hmg b Hb) as (c' & Hc' & Hg). exists c'. split; [done|]. rewrite (merged_args b c' Hb Hc'), Hg. apply NoDup_app. split_and!.
    + pose proof (instrs_nodup b (kept_block Hch b Hb)) as Hnd. by apply NoDup_app in Hnd as (? & _).
    + intros x Hx (b0 & Hb0 & Hv)%elem_of_glue. destruct (args_of_argument b x (kept_block Hch b Hb) Hx) as (i & ty & H1). destruct (instrs_value b0 x (part_block Hch b b0 Hb Hb0) Hv) as (p & op & H2). congruence.
    + apply glue_nodup; [apply (nodup_concat (fun b => b :: chain b) bl'); [apply (parts_nodup Hch)|done]|]. intros x Hx. by apply (part_block Hch b).
  - intros fc0 b c' v Hf0 Hb Hc' Hv. rewrite Hf' in Hf0. injection Hf0 as <-. destruct (mg_block _ _ _ _ Hmg b Hb) as (c1 & Hc1 & Hg). rewrite Hc' in Hc1. injection Hc1 as <-. rewrite Hg in Hv.
    apply elem_of_glue in Hv as (b0 & Hb0 & Hv). destruct (instrs_value b0 v (part_block Hch b b0 Hb Hb0) Hv) as (p & op & Hop). pose proof (mg_kind _ _ _ _ Hmg v) as Hk. by rewrite Hop in Hk.
  - intros fc0 b c' v Hf0 Hb Hc' Hv. rewrite Hf' in Hf0. injection Hf0 as <-. rewrite (merged_args b c' Hb Hc') in Hv. destruct (args_of_argument b v (kept_block Hch b Hb) Hv) as (i & ty & Hx).
    pose proof (mg_kind _ _ _ _ Hmg v) as Hk. rewrite Hx in Hk. by exists b, i, ty.
  - intros fc0 b b' x Hf0 Hb Hb' Hd Hd'. rewrite Hf' in Hf0. injection Hf0 as <-. destruct (merged_defined b x Hb Hd) as (b0 & Hb0 & H0). destruct (merged_defined b' x Hb' Hd') as (b1 & Hb1 & H1).
    assert (b0 = b1) as <- by (apply (sc_unique _ _ _ Hsc fc b0 b1 x Hfc); [by apply (part_block Hch b)|by apply (part_block Hch b')|done|done]).
    by apply (nodup_concat_unique (fun b => b :: chain b) bl' b b' b0 (parts_nodup Hch)).
  - intros fc0 b c' before v after op' x Hf0 Hat Hx. rewrite Hf' in Hf0. injection Hf0 as <-. pose proof Hat as (Hb & Hc' & _).
    destruct (merged_point b c' before v after op' Hat) as (l1 & b0 & l2 & c & before0 & after0 & op & Hl & Hat0 & -> & _ & ->). rewrite get_operands_rename in Hx. apply list_elem_of_fmap in Hx as (y & -> & Hy).
    unfold in_scope. rewrite (merged_args b c' Hb Hc'). eapply scope_glued; [done|exact Hl|exact Hat0|]. by eapply (sc_operands _ _ _ Hsc fc).
  - intros fc0 b c' before v after op' br' Hf0 Hat Hbr'. rewrite Hf' in Hf0. injection Hf0 as <-. pose proof Hat as (Hb & Hc' & _).
    destruct (merged_point b c' before v after op' Hat) as (l1 & b0 & l2 & c & before0 & after0 & op & Hl & Hat0 & -> & Hlast & ->). rewrite targets_rename in Hbr'. apply list_elem_of_fmap in Hbr' as (br & -> & Hbr).
    destruct (point_ends_with _ _ _ _ Hwf _ _ _ _ _ _ _ Hat0 Hbr) as [-> He]. destruct Hlast as [->|?]; [|done]. cbn [br_block rename_branch]. split; [by eapply target_kept|].
    intros z (Hp & x & -> & Hx)%elem_of_merged_avail. rewrite (merged_args b c' Hb Hc').
    destruct (scope_glued b l1 Hb b0 [] c before0 v [] op x Hl Hat0) as [[k Hk]|Hin]; [right; by apply (sc_edges _ _ _ Hsc fc b0 c before0 v [] op br Hfc Hat0 Hbr)| |done].
    rewrite (passes_const _ _ Hk) in Hp. done.
Qed.

Lemma merged_well_formed : well_formed ctx' f fc' merged_avail.
Proof using All.
  split.
  - apply (mg_function _ _ _ _ Hmg).
  - apply merged_scoped.
  - intros b c1 Hb Hc1. destruct (merged_ends_with b Hb) as (l1 & b0 & c & c' & body & t & op & Hl & He & He'). assert (c' = c1) as -> by (destruct He' as (? & _); congruence).
    exists (bodies l1 ++ body), t, (rename sub op). split; [done|]. intros u p o Hu Hv. assert (exists x, x ∈ bl /\ u ∈ body_of x) as (x & Hx & Hux).
    { apply elem_of_app in Hu as [Hu|Hu].
      - unfold bodies in Hu. apply elem_of_concat in Hu as (x & Hx & Hu). exists x. split; [|done]. apply (part_block Hch b); [done|]. rewrite Hl. set_solver.
      - exists b0. split; [apply (part_block Hch b); [done|rewrite Hl; set_solver]|]. destruct (block_instrs _ _ _ _ _ He) as (_ & -> & _). done. }
    destruct (wf_block _ _ _ _ Hwf x Hx) as (cx & bodyx & tx & opx & Hex & Hbody). destruct (block_instrs _ _ _ _ _ Hex) as (Hix & Hbx & _). rewrite Hbx in Hux.
    destruct (instrs_value x u Hx) as (pu & ou & Hvu); [rewrite Hix; set_solver|]. destruct (mg_block _ _ _ _ Hmg b Hb) as (c2 & Hc2 & Hg). destruct He' as (Hc' & Hi' & _). rewrite Hc' in Hc2. injection Hc2 as <-.
    destruct (mg_kept _ _ _ _ Hmg b u pu ou Hb) as [p1 Hv1]; [rewrite <- Hg, Hi'; set_solver|done|]. rewrite Hv1 in Hv. injection Hv as _ <-. rewrite terminator_rename. by eapply Hbody.
  - apply (mg_preds _ _ _ _ Hmg).
  - intros e c' He Hc'. assert (e ∈ bl') as Heb by (destruct bl'; [done|]; injection He as ->; by left). apply set_eq. intros p. split; [|set_solver]. intros Hp.
    apply (mg_preds _ _ _ _ Hmg e c' p Heb Hc') in Hp as [Hp Hedge]. destruct (merged_edge p e Hp Hedge) as (l1 & b0 & Hl & Hedge0). rewrite (mg_head _ _ _ _ Hmg) in He.
    destruct (instrs_end e (kept_block Hch e Heb)) as (c & t & op & (Hc & _) & _). pose proof (wf_entry _ _ _ _ Hwf e c He Hc) as Hempty. assert (b0 ∈ preds c) as Hin; [|by rewrite Hempty in Hin].
    apply (wf_preds _ _ _ _ Hwf e c b0 (kept_block Hch e Heb) Hc). split; [apply (part_block Hch p); [done|rewrite Hl; set_solver]|done].
  - intros b c1 body1 t1 op1 br1 Hb He1 Hbr1. destruct (merged_ends_with b Hb) as (l1 & b0 & c & c' & body & t & op & Hl & He & He'). destruct (ends_with_det _ _ _ _ _ _ _ _ _ _ He' He1) as (-> & -> & -> & ->).
    rewrite targets_rename in Hbr1. apply list_elem_of_fmap in Hbr1 as (br & -> & Hbr). assert (b0 ∈ bl) as Hb0 by (apply (part_block Hch b); [done|rewrite Hl; set_solver]).
    destruct (wf_arity _ _ _ _ Hwf b0 c body t op br Hb0 He Hbr) as (ct & Hct & Hlen). destruct (mg_args _ _ _ _ Hmg _ ct Hct) as (ct' & Hct' & Ha). exists ct'. cbn. by rewrite length_map, Ha.
  - intros b c' i x Hb Hc' Hx. rewrite (merged_args b c' Hb Hc') in Hx. destruct (instrs_end b (kept_block Hch b Hb)) as (c & t & op & He & _). destruct (block_instrs _ _ _ _ _ He) as (_ & _ & Hao). rewrite Hao in Hx.
    destruct He as (Hc & _). destruct (wf_args _ _ _ _ Hwf b c i x (kept_block Hch b Hb) Hc Hx) as [ty Hv]. exists ty. pose proof (mg_kind _ _ _ _ Hmg x) as Hk. by rewrite Hv in Hk.
  - intros b c' v p op' x Hb Hc' Hv Hop Hx. apply list_elem_of_split in Hv as (before & after & Hi).
    destruct (merged_point b c' before v after op') as (l1 & b0 & l2 & c & before0 & after0 & op & Hl & Hat0 & _ & _ & ->); [split_and!; [done|done|done|by exists p]|].
    rewrite get_operands_rename in Hx. apply list_elem_of_fmap in Hx as (y & -> & Hy). apply (usable_keep ctx0); [|apply (mg_constants _ _ _ _ Hmg)|apply (mg_args _ _ _ _ Hmg)|apply (mg_kind _ _ _ _ Hmg)].
    destruct (decide (sub y = y)) as [->|Hs]; [|by apply (mg_range _ _ _ _ Hmg)]. destruct Hat0 as (Hb0 & Hc0 & Hi0 & pv & Hv0). apply (wf_used _ _ _ _ Hwf b0 c v pv op y Hb0 Hc0); [rewrite Hi0; set_solver|done|done].
Qed.
End merge.
