(* ===== verification/IrMergeLoop.v ===== *)
(** * The loops of merging

    [merge_blocks] finds chains of blocks, appends their code to their first blocks, and
    replaces the arguments of the merged blocks in the end. *)

From S2P Require Import Prelude IrTypes IrTypeTheory IrConstant IrCore IrRun IrTransform IrFoldTheory IrSimplify IrCfg IrMerge.
Local Open Scope Z_scope.

Lemma fold_ok_app {A B} (g : B -> A -> Result B) b l l' : fold_ok g b (l ++ l') = (b' ← fold_ok g b l; fold_ok g b' l').
Proof. revert b. induction l as [|x l IH]; intros b; [done|]. cbn. destruct (g b x); [apply IH|done]. Qed.

(** The last element of a list that is not empty *)
Fixpoint final {A} (x : A) (l : list A) : A := match l with [] => x | y :: l' => final y l' end.

Lemma final_app {A} (x : A) l y k : final x (l ++ y :: k) = final y k.
Proof. revert x. induction l as [|z l IH]; intros x; [done|]. cbn. apply IH. Qed.

Lemma final_split {A} (x : A) l : exists l1, x :: l = l1 ++ [final x l].
Proof. revert x. induction l as [|y l IH]; intros x; [by exists []|]. destruct (IH y) as [l1 Heq]. exists (x :: l1). cbn. by rewrite Heq at 1. Qed.

Lemma last_final {A} (x : A) l : last (x :: l) = Some (final x l).
Proof. revert x. induction l as [|y l IH]; intros x; [done|]. cbn [final]. by rewrite <- IH. Qed.

(** ** Parts of a step *)

Lemma map_args_Ok ps m l : (length l <= length ps)%nat -> NoDup l ->
  exists m', fold_ok (map_arg ps) m (imap pair l) = Ok m' /\ forall z r, m' !! z = Some r <-> (exists i, l !! i = Some z /\ ps !! i = Some r) \/ ((z ∉ l) /\ m !! z = Some r).
Proof.
  induction l as [|x l IH] using rev_ind; intros Hlen Hnd.
  { exists m. split; [done|]. intros z r. split; [intros Hz; right; split; [apply not_elem_of_nil|done]|]. intros [(i & Hi & _)|[_ Hz]]; done. }
  apply NoDup_app in Hnd as (Hnd & Hx & _). assert (x ∉ l) as Hxl by (intros Hin; apply (Hx x Hin); by left). rewrite length_app in Hlen. cbn in Hlen.
  destruct IH as (m' & Hm' & Hspec); [lia|done|]. rewrite imap_app, fold_ok_app, Hm'. next_step. cbn. unfold map_arg. cbn. rewrite Nat.add_0_r.
  destruct (lookup_lt_is_Some_2 ps (length l)) as [param Hp]; [lia|]. rewrite Hp. cbn. eexists. split; [done|]. intros z r. destruct (decide (z = x)) as [->|Hne].
  - rewrite lookup_insert_eq. split.
    + intros [= <-]. left. exists (length l). split; [|done]. by rewrite lookup_app_r, Nat.sub_diag.
    + intros [(i & Hi & Hr)|[Hn _]]; [|destruct Hn; apply elem_of_app; right; by left]. apply lookup_app_Some in Hi as [Hi|[Hle Hi]]; [destruct Hxl; by eapply list_elem_of_lookup_2|].
      assert (i = length l) as -> by (destruct (i - length l)%nat eqn:Hd; [lia|done]). congruence.
  - rewrite lookup_insert_ne by done. rewrite Hspec. split.
    + intros [(i & Hi & Hr)|[Hn Hz]]; [left; exists i; split; [|done]; by apply lookup_app_l_Some|right; split; [|done]]. intros [?|?%list_elem_of_singleton]%elem_of_app; done.
    + intros [(i & Hi & Hr)|[Hn Hz]]; [left; exists i|right; split; [|done]; intros ?; apply Hn, elem_of_app; by left]. split; [|done].
      apply lookup_app_Some in Hi as [Hi|[Hle Hi]]; [done|]. destruct (i - length l)%nat; [|done]. injection Hi as ->. done.
Qed.

(** Values that keep everything but the blocks of instructions *)
Definition reparented (vs vs' : gmap Value ValueDatum) : Prop :=
  forall v, match vs !! v with Some (VInstruction _ op) => exists p, vs' !! v = Some (VInstruction p op) | d => vs' !! v = d end.

Lemma reparented_trans vs vs' vs'' : reparented vs vs' -> reparented vs' vs'' -> reparented vs vs''.
Proof. intros H1 H2 v. specialize (H1 v). specialize (H2 v). destruct (vs !! v) as [[]|]; [by rewrite H1 in H2..| |by rewrite H1 in H2]. destruct H1 as [p' H1]. by rewrite H1 in H2. Qed.

Lemma set_parents_Ok b k l : (forall v, v ∈ l -> exists p op, values k !! v = Some (VInstruction p op)) ->
  exists vs, fold_ok (set_parent b) k l = Ok (set_values k vs) /\ reparented (values k) vs.
Proof.
  revert k. induction l as [|v l IH]; intros k Hl.
  { exists (values k). split; [by destruct k|]. intros v. destruct (values k !! v) as [[]|]; try done. by eexists. }
  destruct (Hl v ltac:(by left)) as (p & op & Hv). cbn [fold_ok]. unfold set_parent at 2, get_instruction, value_datum, index, expect_some. rewrite Hv. next_step. cbn [snd].
  set (k1 := set_values k (<[v := VInstruction b op]> (values k))).
  assert (reparented (values k) (values k1)) as Hk1.
  { intros u. cbn. destruct (decide (u = v)) as [->|Hne]; [rewrite Hv, lookup_insert_eq; by eexists|rewrite lookup_insert_ne by done]. destruct (values k !! u) as [[]|]; try done. by eexists. }
  destruct (IH k1) as (vs & Hvs & Hre).
  { intros u Hu. destruct (Hl u ltac:(by right)) as (pu & opu & Hpu). specialize (Hk1 u). rewrite Hpu in Hk1. destruct Hk1 as [p' ?]. by exists p', opu. }
  exists vs. split; [exact Hvs|]. by eapply reparented_trans.
Qed.

Section loop.
Context (ctx0 : Context) (f : Function) (fc : FunctionContent) (avail : Block -> gset Value) (Hwf : well_formed ctx0 f fc avail).
Abbreviation bl := (f_blocks fc).
Abbreviation links := (links ctx0 fc).
Abbreviation linked := (linked ctx0 fc).
Abbreviation chained := (chained ctx0 fc).
Abbreviation glue := (glue ctx0).
Abbreviation instrs := (instrs ctx0).
Abbreviation args_of := (args_of ctx0).
Abbreviation bodies := (bodies ctx0).

(** ** The invariant *)

Record merging (ctx : Context) (fc' : FunctionContent) (chain : Block -> list Block) (m : gmap Value Value) : Prop := {
  ml_types : types ctx = types ctx0;
  ml_constants : constants ctx = constants ctx0;
  ml_function : functions ctx !! f = Some fc';
  ml_head : head (f_blocks fc') = head bl;
  ml_chained : chained (f_blocks fc') chain;
  ml_block b : b ∈ f_blocks fc' -> exists c', blocks ctx !! b = Some c' /\ instructions c' = glue (b :: chain b);
  ml_args b c : blocks ctx0 !! b = Some c -> exists c', blocks ctx !! b = Some c' /\ args c' = args c;
  ml_value : reparented (values ctx0) (values ctx);
  ml_map z r : m !! z = Some r <-> exists x y ps i, x ∈ bl /\ links x y ps /\ y ∈ bl /\ (y ∉ f_blocks fc') /\ args_of y !! i = Some z /\ ps !! i = Some r;
}.

Lemma merging_start : merging ctx0 fc (fun _ => []) ∅.
Proof using Hwf.
  split; try done.
  - apply (wf_function _ _ _ _ Hwf).
  - split; [|done]. rewrite <- (map_id bl) at 1. induction bl as [|b l IH]; [done|]. cbn. by constructor.
  - intros b Hb. destruct (wf_block _ _ _ _ Hwf b Hb) as (c & body & t & op & He & _). exists c. split; [apply He|]. cbn. unfold IrMerge.instrs. destruct He as (Hc & _). by rewrite Hc.
  - intros b c Hc. by exists c.
  - intros v. destruct (values ctx0 !! v) as [[]|]; try done. by eexists.
  - intros z r. split; [by rewrite lookup_empty|]. intros (x & y & ps & i & _ & _ & Hy & Hn & _). done.
Qed.

Section state.
Context (ctx : Context) (fc' : FunctionContent) (chain : Block -> list Block) (m : gmap Value Value) (Hml : merging ctx fc' chain m).
Abbreviation bl' := (f_blocks fc').

Lemma ml_part b x : b ∈ bl' -> x ∈ b :: chain b -> x ∈ bl.
Proof using Hml. apply (part_block _ _ (ml_chained _ _ _ _ Hml)). Qed.

Lemma ml_blocks_nodup : NoDup bl'.
Proof using Hwf Hml. apply (kept_nodup _ _ _ _ Hwf (ml_chained _ _ _ _ Hml)). Qed.

Lemma final_block b : b ∈ bl' -> final b (chain b) ∈ bl.
Proof using Hml. intros Hb. destruct (final_split b (chain b)) as [l1 Hl]. apply (ml_part b); [done|]. rewrite Hl. apply elem_of_app. right. by left. Qed.

Lemma ml_ends_with b c body t op : b ∈ bl' -> ends_with ctx0 (final b (chain b)) c body t op -> exists c' body', ends_with ctx b c' body' t op.
Proof using Hwf Hml.
  intros Hb He. destruct (ml_block _ _ _ _ Hml b Hb) as (c' & Hc' & Hg). destruct (final_split b (chain b)) as [l1 Hl]. rewrite Hl, glue_app in Hg by done. cbn in Hg.
  destruct (block_instrs _ _ _ _ _ _ He) as (Hi & _). rewrite Hi, app_assoc in Hg. exists c', (bodies l1 ++ body). pose proof He as (_ & _ & (p & Hv) & Ht).
  pose proof (ml_value _ _ _ _ Hml t) as Hk. rewrite Hv in Hk. by split_and!.
Qed.

Lemma ml_edge b x : b ∈ bl' -> edge ctx b x <-> edge ctx0 (final b (chain b)) x.
Proof using Hwf Hml.
  intros Hb. destruct (wf_block _ _ _ _ Hwf _ (final_block b Hb)) as (c & body & t & op & He & _). destruct (ml_ends_with b c body t op Hb He) as (c' & body' & He').
  by rewrite (edge_targets _ _ _ _ _ _ x He'), (edge_targets _ _ _ _ _ _ x He).
Qed.
End state.

Lemma glue_removelast b l : (forall x, x ∈ b :: l -> x ∈ bl) -> removelast (glue (b :: l)) = bodies (b :: l).
Proof using Hwf.
  intros Hl. destruct (final_split b l) as [l1 Heq]. rewrite Heq in Hl |- *. rewrite glue_app by done. unfold IrMerge.bodies at 2. rewrite map_app, concat_app. cbn. rewrite app_nil_r.
  destruct (instrs_end _ _ _ _ Hwf (final b l)) as (c & t & op & _ & Hi); [apply Hl, elem_of_app; right; by left|]. rewrite Hi, app_assoc, removelast_last. done.
Qed.

Lemma linked_app l x y l' ps : linked (x :: l) -> linked (y :: l') -> links (final x l) y ps -> linked ((x :: l) ++ y :: l').
Proof.
  revert x. induction l as [|z l IH]; intros x Hl Hl' Hxy; cbn [app IrMerge.linked]; [split; [by exists ps|done]|]. destruct Hl as [Hxz Hl]. split; [done|]. by apply IH.
Qed.

(** A block has one predecessor that links to it. *)
Lemma links_unique x x' y ps ps' : x ∈ bl -> x' ∈ bl -> links x y ps -> links x' y ps' -> x' = x /\ ps' = ps.
Proof.
  intros Hx Hx' [(c & body & t & He) Huniq] [(c' & body' & t' & He') _].
  assert (x' = x) as -> by (apply Huniq; [done|]; exists c', body', t', (IBranch (mkBranch y ps')), (mkBranch y ps'); split_and!; [done|by left|done]).
  split; [done|]. destruct (ends_with_det _ _ _ _ _ _ _ _ _ _ He He') as (_ & _ & _ & Heq). by injection Heq.
Qed.

Lemma remove_first_perm (x : Value) l : x ∈ l -> l ≡ₚ x :: remove_first x l.
Proof.
  induction l as [|y l IH]; [by intros ?%elem_of_nil|]. cbn. case_bool_decide as Hy; [by subst y|]. intros [->|Hx]%elem_of_cons; [done|].
  rewrite (IH Hx) at 1. by apply perm_swap.
Qed.

Lemma elem_of_remove_first (x y : Value) l : NoDup l -> x ∈ l -> y ∈ remove_first x l <-> y ∈ l /\ y <> x.
Proof.
  intros Hnd Hx. pose proof (remove_first_perm x l Hx) as Hp. rewrite Hp in Hnd. apply NoDup_cons in Hnd as [Hn _]. rewrite (elem_of_Permutation_proper y _ _ Hp). rewrite elem_of_cons.
  split; [intros Hy; split; [by right|]; by intros ->|by intros [[->|?] ?]].
Qed.

(** ** One block *)

Section merge_one.
Context (ctx : Context) (fc' : FunctionContent) (chain : Block -> list Block) (m : gmap Value Value) (Hml : merging ctx fc' chain m).
Abbreviation bl' := (f_blocks fc').
Context (from to : Block) (ps : list Value) (Hfrom : from ∈ bl') (Hto : to ∈ bl') (Hne : to <> from) (Hhead : head bl' <> Some to) (Hlink : links (final from (chain from)) to ps).

Definition longer_chain (b : Block) : list Block := if decide (b = from) then chain from ++ to :: chain to else chain b.

Lemma longer_parts : concat (map (fun b => b :: chain b) bl') ≡ₚ concat (map (fun b => b :: longer_chain b) (remove_first to bl')).
Proof using All.
  pose proof (ml_blocks_nodup _ _ _ _ Hml) as Hnd. assert (from ∈ remove_first to bl') as Hf' by (apply elem_of_remove_first; [done|done|split; [done|by intros <-]]).
  pose proof (remove_first_perm to bl' Hto) as H1. pose proof (remove_first_perm from _ Hf') as H2. set (l := remove_first from (remove_first to bl')) in *.
  assert (NoDup (to :: from :: l)) as Hnd' by (rewrite <- H2, <- H1; done). rewrite H2. rewrite H1 at 1. rewrite H2 at 1. cbn.
  assert (longer_chain from = chain from ++ to :: chain to) as -> by (unfold longer_chain; by rewrite decide_True).
  assert (map (fun b => b :: longer_chain b) l = map (fun b => b :: chain b) l) as ->.
  { apply map_ext_in. intros b Hb%list_elem_of_In. unfold longer_chain. rewrite decide_False; [done|]. intros ->. apply NoDup_cons in Hnd' as [_ Hnd']. by apply NoDup_cons in Hnd' as [? _]. }
  clear. set (k := concat _). rewrite <- !app_assoc. cbn. solve_Permutation.
Qed.

Lemma longer_map (m' : gmap Value Value) z r : (forall z r, m' !! z = Some r <-> (exists i, args_of to !! i = Some z /\ ps !! i = Some r) \/ ((z ∉ args_of to) /\ m !! z = Some r)) ->
  m' !! z = Some r <-> exists x y ps i, x ∈ bl /\ links x y ps /\ y ∈ bl /\ (y ∉ remove_first to bl') /\ args_of y !! i = Some z /\ ps !! i = Some r.
Proof using All.
  intros Hm'. pose proof (ml_blocks_nodup _ _ _ _ Hml) as Hnd. pose proof (final_block _ _ _ _ Hml from Hfrom) as Hlast. pose proof (ml_part _ _ _ _ Hml to to Hto ltac:(by left)) as Htb.
  rewrite Hm', (ml_map _ _ _ _ Hml). split.
  - intros [(i & Hz & Hr)|(Hz & x & y & qs & i & Hx & Hl & Hy & Hn & Hi & Hr)].
    + exists (final from (chain from)), to, ps, i. split_and!; try done. intros Hin. by apply elem_of_remove_first in Hin as [_ ?].
    + exists x, y, qs, i. split_and!; try done. intros Hin. by apply elem_of_remove_first in Hin as [? _].
  - intros (x & y & qs & i & Hx & Hl & Hy & Hn & Hi & Hr). destruct (decide (y = to)) as [->|Hyt].
    + destruct (links_unique _ _ _ _ _ Hlast Hx Hlink Hl) as [-> ->]. left. by exists i.
    + right. split.
      * intros Hz. apply list_elem_of_lookup_2 in Hi. destruct (args_of_argument _ _ _ _ Hwf y z Hy Hi) as (j & ty & H1). destruct (args_of_argument _ _ _ _ Hwf to z Htb Hz) as (j' & ty' & H2). congruence.
      * exists x, y, qs, i. split_and!; try done. intros Hin. apply Hn. by apply elem_of_remove_first.
Qed.

(** The step appends the block. *)
Lemma merge_block_Ok : exists ctx' m', merge_block f from (ctx, m) to = Ok (ctx', m') /\ merging ctx' (set_f_blocks (remove_first to bl') fc') longer_chain m' /\
  forall b, preds <$> blocks ctx' !! b = preds <$> blocks ctx !! b.
Proof using All.
  pose proof (ml_blocks_nodup _ _ _ _ Hml) as Hnd. pose proof (final_block _ _ _ _ Hml from Hfrom) as Hlast. pose proof (ml_part _ _ _ _ Hml to to Hto ltac:(by left)) as Htb.
  destruct Hlink as [(c0 & body0 & t & He0) _]. destruct (ml_ends_with _ _ _ _ Hml from c0 body0 t _ Hfrom He0) as (cf & bodyf & He).
  destruct (wf_arity _ _ _ _ Hwf _ c0 body0 t _ (mkBranch to ps) Hlast He0 ltac:(by left)) as (ct0 & Hct0 & Hlen). cbn in Hct0, Hlen.
  destruct (ml_block _ _ _ _ Hml to Hto) as (ct & Hct & Hgt). destruct (ml_args _ _ _ _ Hml to ct0 Hct0) as (ct1 & Hct1 & Ha). rewrite Hct in Hct1. injection Hct1 as <-.
  assert (args_of to = args ct) as Hao by (unfold IrMerge.args_of; by rewrite Hct0).
  destruct (ml_block _ _ _ _ Hml from Hfrom) as (cf1 & Hcf & Hgf). pose proof He as (Hcf' & _). rewrite Hcf in Hcf'. injection Hcf' as ->.
  unfold merge_block, get_succ_params. rewrite (ends_with_successors _ _ _ _ _ _ He). next_step. cbn [targets List.find br_block]. rewrite bool_decide_true by done. next_step.
  rewrite (block_content_Ok _ _ _ Hct). next_step. cbn [br_args].
  destruct (map_args_Ok ps m (args ct)) as (m' & -> & Hm').
  { rewrite Ha, Hlen. done. }
  { rewrite <- Hao. pose proof (instrs_nodup _ _ _ _ Hwf to Htb) as Hn. by apply NoDup_app in Hn as (? & _). }
  next_step. destruct (set_parents_Ok from ctx (instructions ct)) as (vs & -> & Hvs).
  { intros v Hv. rewrite Hgt in Hv. apply elem_of_glue in Hv as (b0 & Hb0 & Hv). destruct (instrs_value _ _ _ _ Hwf b0 v (ml_part _ _ _ _ Hml to b0 Hto Hb0) Hv) as (p & op & Hvv).
    pose proof (ml_value _ _ _ _ Hml v) as Hre. rewrite Hvv in Hre. destruct Hre as [p' ?]. by exists p', op. }
  next_step. unfold remove_last_instruction, update_block. rewrite (block_content_Ok _ from cf) by done. next_step.
  rewrite (block_content_Ok _ to ct) by (cbn; by rewrite lookup_insert_ne). next_step. unfold insert_slice, update_block.
  rewrite (block_content_Ok _ from (set_instructions (removelast (instructions cf)) cf)) by (cbn; by rewrite lookup_insert_eq). next_step.
  unfold remove_block. rewrite (block_content_Ok _ to ct) by (cbn; by rewrite !lookup_insert_ne). next_step. unfold expect_some. cbn. rewrite (ml_function _ _ _ _ Hml). next_step. rewrite bool_decide_true by done. next_step.
  eexists _, m'. split; [done|]. rewrite insert_insert_eq. split.
  - split; cbn.
    + apply (ml_types _ _ _ _ Hml).
    + apply (ml_constants _ _ _ _ Hml).
    + by rewrite lookup_insert_eq.
    + rewrite <- (ml_head _ _ _ _ Hml). destruct bl' as [|x l]; [done|]. cbn in Hhead |- *. rewrite bool_decide_false; [done|congruence].
    + split; [rewrite (ch_parts _ _ _ _ (ml_chained _ _ _ _ Hml)); apply longer_parts|]. intros b [Hb _]%elem_of_remove_first; [|done|done]. unfold longer_chain. destruct (decide (b = from)) as [->|?]; [|by apply (ch_linked _ _ _ _ (ml_chained _ _ _ _ Hml))].
      apply (linked_app (chain from) from to (chain to) ps); [by apply (ch_linked _ _ _ _ (ml_chained _ _ _ _ Hml))|by apply (ch_linked _ _ _ _ (ml_chained _ _ _ _ Hml))|done].
    + intros b [Hb _]%elem_of_remove_first; [|done|done]. unfold longer_chain. destruct (decide (b = from)) as [->|?].
      * rewrite lookup_insert_eq. eexists. split; [done|]. cbn. rewrite Hgf, Hgt, glue_removelast; [|by intros x ?; apply (ml_part _ _ _ _ Hml from)]. symmetry. by apply (glue_app ctx0 (from :: chain from) (to :: chain to)).
      * rewrite lookup_insert_ne by done. by apply (ml_block _ _ _ _ Hml).
    + intros b c Hc. destruct (ml_args _ _ _ _ Hml b c Hc) as (c' & Hc' & Hac). destruct (decide (b = from)) as [->|?]; [|rewrite lookup_insert_ne by done; by exists c'].
      rewrite lookup_insert_eq. eexists. split; [done|]. cbn. congruence.
    + eapply reparented_trans; [apply (ml_value _ _ _ _ Hml)|done].
    + intros z r. apply longer_map. intros z' r'. rewrite Hao. apply Hm'.
  - intros b. cbn. destruct (decide (b = from)) as [->|?]; [by rewrite lookup_insert_eq, Hcf|by rewrite lookup_insert_ne].
Qed.
End merge_one.

(** ** Paths through the chains *)

(** A block with a predecessor is not the entry. *)
Lemma linked_not_head x y ps : x ∈ bl -> links x y ps -> head bl <> Some y.
Proof using Hwf.
  intros Hx [(c & body & t & He) _] Hy. assert (y ∈ bl) as Hyb by (destruct bl; [done|]; injection Hy as ->; by left). destruct (wf_block _ _ _ _ Hwf y Hyb) as (cy & by' & ty & oy & (Hcy & _) & _).
  pose proof (wf_entry _ _ _ _ Hwf y cy Hy Hcy) as Hempty. assert (x ∈ preds cy) as Hin; [|by rewrite Hempty in Hin]. apply (wf_preds _ _ _ _ Hwf y cy x Hyb Hcy).
  split; [done|]. apply (edge_targets _ _ _ _ _ _ y He). eexists. split; [by left|done].
Qed.

Lemma links_path x y ps p : x ∈ bl -> links x y ps -> path ctx0 fc y p -> exists p', path ctx0 fc x p' /\ p = x :: p'.
Proof using Hwf.
  intros Hx Hl Hp. inversion Hp as [e He|b p0 c before v after op br Hp0 Hat Hbr]; subst; [by destruct (linked_not_head x y ps Hx Hl)|].
  assert (b = x) as -> by (apply Hl; [apply Hat|]; apply (edge_point _ _ _ _ Hwf); [apply Hat|]; by exists c, before, v, after, op, br). by exists p0.
Qed.

Lemma linked_path x l p : (forall y, y ∈ x :: l -> y ∈ bl) -> linked (x :: l) -> path ctx0 fc (final x l) p -> exists p', path ctx0 fc x p' /\ (length p' <= length p)%nat.
Proof using Hwf.
  revert x. induction l as [|y l IH]; intros x Hin Hl Hp; [by exists p|]. destruct Hl as [[ps Hxy] Hl]. destruct (IH y) as (p1 & Hp1 & Hle); [intros; apply Hin; by right|done|done|].
  destruct (links_path x y ps p1) as (p2 & Hp2 & ->); [apply Hin; by left|done|done|]. exists p2. split; [done|]. cbn in Hle. lia.
Qed.

(** Paths to [y] are longer than paths to [x]. *)
Definition before (x y : Block) : Prop := forall p, path ctx0 fc y p -> exists p', path ctx0 fc x p' /\ (length p' < length p)%nat.

Lemma before_trans x y z : before x y -> before y z -> before x z.
Proof. intros H1 H2 p Hp. destruct (H2 p Hp) as (p1 & Hp1 & ?). destruct (H1 p1 Hp1) as (p2 & Hp2 & ?). exists p2. split; [done|lia]. Qed.

(** ** Finding a chain *)

Definition exact_preds (ctx : Context) (fc' : FunctionContent) : Prop :=
  forall b c p, b ∈ f_blocks fc' -> blocks ctx !! b = Some c -> p ∈ preds c <-> p ∈ f_blocks fc' /\ edge ctx p b.

(** Each block of the list is the only successor of the one before it, with its chain. *)
Fixpoint follows (chain : Block -> list Block) (x : Block) (l : list Block) : Prop :=
  match l with [] => True | y :: l' => (exists ps, links (final x (chain x)) y ps) /\ follows chain y l' end.

Section find_chain.
Context (ctx : Context) (fc' : FunctionContent) (chain : Block -> list Block) (m : gmap Value Value) (Hml : merging ctx fc' chain m) (Hexact : exact_preds ctx fc').
Abbreviation bl' := (f_blocks fc').

Lemma check_candidate_Ok b : b ∈ bl' ->
  exists o, check_candidate ctx b = Ok o /\ forall p, o = Some p -> p.2 ∈ bl' /\ exists ps, links (final b (chain b)) p.2 ps.
Proof using Hwf Hml Hexact.
  intros Hb. pose proof (final_block _ _ _ _ Hml b Hb) as Hlast. destruct (wf_block _ _ _ _ Hwf _ Hlast) as (c0 & body0 & t & op & He0 & _). destruct (ml_ends_with _ _ _ _ Hml b _ _ _ _ Hb He0) as (c & body & He).
  destruct (final_split b (chain b)) as [l1 Hl1]. pose proof (ml_chained _ _ _ _ Hml) as Hch. unfold check_candidate. rewrite (ends_with_terminator _ _ _ _ _ _ He). next_step. destruct op; try by exists None.
  match type of He with ends_with _ _ _ _ _ (IBranch ?br) => destruct br as [y ps] end. cbn [br_block].
  assert (y ∈ bl') as Hy by (eapply (target_kept _ _ _ _ Hwf Hch b l1 (final b (chain b)) c0 body0 t _ (mkBranch y ps)); [done|done|exact He0|by left]).
  destruct (ml_block _ _ _ _ Hml y Hy) as (cy & Hcy & _). unfold num_predecessors. rewrite (block_content_Ok _ _ _ Hcy). next_step. eexists. split; [done|]. intros p Hp. destruct (size (preds cy) =? 1)%nat eqn:Hsz; [|done].
  injection Hp as <-. cbn. split; [done|]. exists ps. split; [by exists c0, body0, t|]. apply Nat.eqb_eq, size_1_elem_of in Hsz as [x Hx].
  assert (forall p, p ∈ bl' -> edge ctx p y -> p = b) as Honly.
  { assert (forall p, p ∈ bl' -> edge ctx p y -> p = x) as Hall by (intros p Hp Hed; assert (p ∈ preds cy) as Hin by (by apply (Hexact y cy p Hy Hcy)); set_solver).
    intros p Hp Hed. rewrite (Hall p Hp Hed). symmetry. apply Hall; [done|]. apply (edge_targets _ _ _ _ _ _ y He). eexists. split; [by left|done]. }
  intros b0 Hb0 Hed. destruct (place _ _ Hch b0 Hb0) as (h & k1 & k2 & Hh & Hk). destruct k2 as [|z k2].
  - assert (final h (chain h) = b0) as Hfin by (pose proof (last_final h (chain h)) as Hlf; rewrite Hk, last_snoc in Hlf; by injection Hlf).
    rewrite <- Hfin. f_equal; [|f_equal]; apply Honly; try done; apply (ml_edge _ _ _ _ Hml h y Hh); by rewrite Hfin.
  - exfalso. pose proof (ch_linked _ _ _ _ Hch h Hh) as Hlk. rewrite Hk in Hlk. destruct (linked_split _ _ _ _ _ _ Hlk) as (qs & (c1 & body1 & t1 & He1) & _).
    apply (edge_targets _ _ _ _ _ _ y He1) in Hed as (br & Hbr%list_elem_of_singleton & Heq). subst br. cbn in Heq. subst z.
    apply (merged_block _ _ _ _ Hwf Hch h (k1 ++ [b0]) y k2 Hh); [by rewrite <- app_assoc|by destruct k1|done].
Qed.

Lemma follows_before b y ps : b ∈ bl' -> links (final b (chain b)) y ps -> before b y.
Proof using Hwf Hml.
  intros Hb Hl p Hp. destruct (links_path _ _ _ _ (final_block _ _ _ _ Hml b Hb) Hl Hp) as (p1 & Hp1 & ->).
  destruct (linked_path b (chain b) p1) as (p2 & Hp2 & ?); [intros z Hz; by apply (ml_part _ _ _ _ Hml b)|apply (ch_linked _ _ _ _ (ml_chained _ _ _ _ Hml) b Hb)|done|]. exists p2. split; [done|cbn; lia].
Qed.

Context (Hreach : forall b, b ∈ bl -> exists p, path ctx0 fc b p).

Lemma before_irrefl x : x ∈ bl -> ~ before x x.
Proof using Hreach.
  intros Hx Hb. destruct (Hreach x Hx) as [p Hp]. remember (length p) as n eqn:Hn. revert p Hp Hn. induction n as [n IH] using lt_wf_ind. intros p Hp ->.
  destruct (Hb p Hp) as (p' & Hp' & Hlt). by eapply (IH (length p')).
Qed.

(** The fuel is enough: a chain does not come back to a block. *)
Lemma block_chain_Ok fuel b seen : b ∈ bl' -> NoDup (b :: seen) -> (forall x, x ∈ seen -> x ∈ bl' /\ before x b) -> (length bl' <= fuel + S (length seen))%nat ->
  exists l, block_chain fuel ctx b = Ok l /\ follows chain b l /\ NoDup l /\ forall y, y ∈ l -> y ∈ bl' /\ y ∉ b :: seen.
Proof using All.
  revert b seen. induction fuel as [|fuel IH]; intros b seen Hb Hnd Hseen Hfuel; cbn [block_chain]; destruct (check_candidate_Ok b Hb) as (o & -> & Ho); next_step.
  all: destruct o as [[b0 y]|]; [|exists []; split_and!; [done|done|constructor|by intros ? ?%elem_of_nil]].
  all: destruct (Ho _ eq_refl) as (Hy & ps & Hl); cbn [snd] in *; pose proof (follows_before b y ps Hb Hl) as Hby.
  all: assert (forall x, x ∈ b :: seen -> x ∈ bl' /\ before x y) as Hseen' by (intros x [->|Hx]%elem_of_cons; [done|]; destruct (Hseen x Hx); split; [done|by eapply before_trans]).
  all: assert (NoDup (y :: b :: seen)) as Hnd' by (constructor; [|done]; intros Hin; destruct (Hseen' y Hin) as [? Hyy]; by apply (before_irrefl y (kept_block _ _ (ml_chained _ _ _ _ Hml) y Hy))).
  - exfalso. assert (length (y :: b :: seen) <= length bl')%nat as Hlen; [|cbn in Hlen; lia]. apply submseteq_length, NoDup_submseteq; [done|].
    intros x [->|Hx]%elem_of_cons; [done|by apply Hseen'].
  - destruct (IH y (b :: seen)) as (l & -> & Hfl & Hndl & Hin); [done|done|done|cbn; lia|]. next_step. exists (y :: l). split_and!; [done|split; [by exists ps|done]| |].
    + constructor; [|done]. intros Hyl. apply Hin in Hyl as [_ Hn]. apply Hn. by left.
    + intros x [->|Hx]%elem_of_cons; [split; [done|by apply NoDup_cons in Hnd' as [? _]]|]. apply Hin in Hx as [? Hn]. split; [done|]. intros ?. apply Hn. by right.
Qed.
End find_chain.

(** ** Merging a chain *)

Lemma merge_list_Ok from chain0 l : forall ctx fc' chain m x, merging ctx fc' chain m -> from ∈ f_blocks fc' -> final from (chain from) = final x (chain0 x) -> follows chain0 x l -> NoDup l ->
  (forall y, y ∈ l -> y ∈ f_blocks fc' /\ y <> from) -> (forall y, y <> from -> chain y = chain0 y) ->
  exists ctx' m' fc'' chain', fold_ok (merge_block f from) (ctx, m) l = Ok (ctx', m') /\ merging ctx' fc'' chain' m' /\ (forall b, preds <$> blocks ctx' !! b = preds <$> blocks ctx !! b) /\
    (forall b, b ∈ f_blocks fc'' <-> b ∈ f_blocks fc' /\ b ∉ l) /\ final from (chain' from) = final (final x l) (chain0 (final x l)) /\ (forall y, y <> from -> chain' y = chain0 y).
Proof using Hwf.
  induction l as [|y l IH]; intros ctx fc' chain m x Hml Hfrom Hfin Hfl Hnd Hl Hch.
  { exists ctx, m, fc', chain. split_and!; try done. intros b. split; [intros ?; split; [done|apply not_elem_of_nil]|by intros [? _]]. }
  destruct Hfl as [[ps Hlk] Hfl]. destruct (Hl y ltac:(by left)) as [Hy Hyf]. rewrite <- Hfin in Hlk. apply NoDup_cons in Hnd as [Hyl Hnd]. pose proof (ml_blocks_nodup _ _ _ _ Hml) as Hnb.
  assert (head (f_blocks fc') <> Some y) as Hhd by (rewrite (ml_head _ _ _ _ Hml); by eapply linked_not_head; [apply (final_block _ _ _ _ Hml from Hfrom)|]).
  destruct (merge_block_Ok ctx fc' chain m Hml from y ps Hfrom Hy Hyf Hhd Hlk) as (ctx1 & m1 & Hstep & Hml1 & Hp1). cbn [fold_ok]. rewrite Hstep. next_step.
  destruct (IH ctx1 (set_f_blocks (remove_first y (f_blocks fc')) fc') (longer_chain chain from y) m1 y) as (ctx2 & m2 & fc2 & chain2 & Hf2 & Hml2 & Hp2 & Hb2 & Hfin2 & Hc2); try done.
  - cbn. apply elem_of_remove_first; [done|done|]. split; [done|by intros <-].
  - unfold longer_chain. rewrite decide_True, final_app by done. by rewrite Hch.
  - intros z Hz. destruct (Hl z ltac:(by right)) as [Hzb ?]. split; [|done]. cbn. apply elem_of_remove_first; [done|done|]. split; [done|]. by intros ->.
  - intros z Hz. unfold longer_chain. rewrite decide_False by done. by apply Hch.
  - exists ctx2, m2, fc2, chain2. split_and!; [done|done|intros b; by rewrite Hp2| |done|done].
    intros b. rewrite Hb2. cbn. rewrite elem_of_remove_first by done. rewrite not_elem_of_cons. tauto.
Qed.

Lemma replace_preds brs (k : Context) old new : old <> new -> (forall br, br ∈ brs -> is_Some (blocks k !! br_block br)) ->
  exists k', fold_ok (fun context br => replace_pred context (br_block br) old new) k brs = Ok k' /\ same_code k k' /\ functions k' = functions k /\
    forall x c c' p, blocks k !! x = Some c -> blocks k' !! x = Some c' -> p ∈ preds c' <-> if decide (x ∈ map br_block brs) then (p ∈ preds c /\ p <> old) \/ p = new else p ∈ preds c.
Proof using.
  clear. intros Hne. revert k. induction brs as [|br brs IH]; intros k Hall.
  { exists k. split_and!; [done|reflexivity|done|]. intros x c c' p Hx Hx'. rewrite decide_False by apply not_elem_of_nil. assert (c' = c) as -> by congruence. done. }
  destruct (Hall br ltac:(by left)) as [c0 Hc0]. cbn [fold_ok]. unfold replace_pred at 2, remove_pred, add_pred.
  destruct (update_preds_code k (br_block br) c0 (fun b => mkBlock (block_function b) (instructions b) (args b) (preds b ∖ {[old]}))) as (k1 & -> & Hs1 & Hf1 & Hb1); [done|done|]. next_step.
  destruct (update_preds_code k1 (br_block br) (mkBlock (block_function c0) (instructions c0) (args c0) (preds c0 ∖ {[old]})) (fun b => mkBlock (block_function b) (instructions b) (args b) ({[new]} ∪ preds b)))
    as (k2 & -> & Hs2 & Hf2 & Hb2); [by rewrite Hb1, lookup_insert_eq|done|]. next_step. rewrite Hb1, insert_insert_eq in Hb2. cbn in Hb2.
  destruct (IH k2) as (k' & -> & Hs' & Hf' & Hp').
  { intros br' Hbr'. rewrite Hb2. apply lookup_insert_is_Some'. right. apply Hall. by right. }
  exists k'. split_and!; [done|by rewrite Hs1, Hs2|congruence|]. intros x c c' p Hx Hx'. cbn [map]. destruct (decide (x = br_block br)) as [->|Hxb].
  - rewrite decide_True by (by left). rewrite Hx in Hc0. injection Hc0 as <-. rewrite (Hp' (br_block br) _ c' p ltac:(rewrite Hb2; by rewrite lookup_insert_eq) Hx'). cbn. destruct (decide _); set_solver.
  - rewrite (Hp' x c c' p ltac:(rewrite Hb2; by rewrite lookup_insert_ne) Hx'). destruct (decide (x ∈ map br_block brs)) as [Hin|Hin].
    + by rewrite decide_True by (by right).
    + rewrite decide_False; [done|]. by intros [?|?]%elem_of_cons.
Qed.

Lemma merging_same ctx ctx' fc' chain m : merging ctx fc' chain m -> same_code ctx ctx' -> functions ctx' = functions ctx -> merging ctx' fc' chain m.
Proof using.
  intros Hml Hs Hf. split.
  - rewrite (sm_types _ _ Hs). apply Hml.
  - rewrite (sm_constants _ _ Hs). apply Hml.
  - rewrite Hf. apply Hml.
  - apply Hml.
  - apply Hml.
  - intros b Hb. destruct (ml_block _ _ _ _ Hml b Hb) as (c & Hc & Hg). destruct (same_code_block _ _ _ _ Hs Hc) as (c' & Hc' & _ & Hi). exists c'. by rewrite Hi.
  - intros b c Hc. destruct (ml_args _ _ _ _ Hml b c Hc) as (c1 & Hc1 & Ha). destruct (same_code_block _ _ _ _ Hs Hc1) as (c' & Hc' & Ha' & _). exists c'. by rewrite Ha'.
  - rewrite (sm_values _ _ Hs). apply Hml.
  - apply Hml.
Qed.

(** A block of a chain before its last block branches into the chain. *)
Lemma follows_edge (ctx : Context) fc' chain m x l b : merging ctx fc' chain m -> (forall y, y ∈ x :: l -> y ∈ f_blocks fc') -> follows chain x l -> forall y, y ∈ x :: l -> y <> final x l -> edge ctx y b -> b ∈ l.
Proof using Hwf.
  intros Hml. revert x. induction l as [|z l IH]; intros x Hin Hfl y Hy Hne Hed; [by apply list_elem_of_singleton in Hy as ->|]. destruct Hfl as [[ps [(c & body & t & He) _]] Hfl]. apply elem_of_cons in Hy as [->|Hy].
  - apply (ml_edge _ _ _ _ Hml x b (Hin x ltac:(by left))) in Hed. apply (edge_targets _ _ _ _ _ _ b He) in Hed as (br & Hbr%list_elem_of_singleton & <-). subst br. by left.
  - right. eapply (IH z); [|exact Hfl|exact Hy|exact Hne|exact Hed]. intros u Hu. apply Hin. by right.
Qed.

(** ** The loop over the blocks *)

Record chains_ok (s : MergeState) (fc' : FunctionContent) (chain : Block -> list Block) : Prop := {
  co_merging : merging (ms_context s) fc' chain (replace_map s);
  co_preds : exact_preds (ms_context s) fc';
  co_deleted b : b ∈ bl -> b ∈ deleted_blocks s <-> b ∉ f_blocks fc';
  co_modified : replace_map s <> ∅ -> ms_modified s = true;
}.

Lemma ml_size ctx fc' chain m : merging ctx fc' chain m -> (length (f_blocks fc') <= size (blocks ctx))%nat.
Proof using Hwf.
  intros Hml. rewrite <- size_dom, <- (size_list_to_set (C := gset Block) (f_blocks fc')) by apply (ml_blocks_nodup _ _ _ _ Hml). apply subseteq_size. intros b Hb%elem_of_list_to_set.
  destruct (ml_block _ _ _ _ Hml b Hb) as (c & Hc & _). by eapply elem_of_dom_2.
Qed.

(** The successors of the last block get their new predecessor. *)
Lemma relinked_exact ctx ctx1 ctx2 fc' fc2 chain chain2 m m2 from l c body t op :
  merging ctx fc' chain m -> exact_preds ctx fc' -> merging ctx1 fc2 chain2 m2 -> same_code ctx1 ctx2 -> from ∈ f_blocks fc' -> from ∉ l -> l <> [] -> (forall y, y ∈ l -> y ∈ f_blocks fc') -> follows chain from l ->
  ends_with ctx (final from l) c body t op -> (forall b, preds <$> blocks ctx1 !! b = preds <$> blocks ctx !! b) -> (forall b, b ∈ f_blocks fc2 <-> b ∈ f_blocks fc' /\ b ∉ l) ->
  final from (chain2 from) = final (final from l) (chain (final from l)) -> (forall y, y <> from -> chain2 y = chain y) ->
  (forall x c c' p, blocks ctx1 !! x = Some c -> blocks ctx2 !! x = Some c' -> p ∈ preds c' <-> if decide (x ∈ map br_block (targets op)) then (p ∈ preds c /\ p <> final from l) \/ p = from else p ∈ preds c) ->
  exact_preds ctx2 fc2.
Proof using Hwf.
  intros Hml Hex Hml2 Hs Hfrom Hfl Hne Hl Hfol He Hp1 Hb2 Hfin Hch2 Hp2 b c2 p Hb Hc2. set (z := final from l) in *.
  assert (z ∈ l) as Hzl. { destruct l as [|y l0]; [done|]. subst z. cbn. destruct (final_split y l0) as [k Hk]. rewrite Hk. set_solver. }
  assert (z <> from) as Hzf by (by intros Hzf; rewrite Hzf in Hzl).
  destruct (same_code_block _ _ _ _ (same_code_sym _ _ Hs) Hc2) as (c1 & Hc1 & _). pose proof (Hp1 b) as Hpb. rewrite Hc1 in Hpb. destruct (blocks ctx !! b) as [cb|] eqn:Hcb; [|done]. injection Hpb as Hpb.
  pose proof (proj1 (Hb2 b) Hb) as [Hb' Hbl]. pose proof (Hex b cb p Hb' Hcb) as Hexb. rewrite (Hp2 b c1 c2 p Hc1 Hc2), (same_edge _ _ p b Hs), Hb2, Hpb. clear Hp1 Hpb Hp2.
  pose proof (edge_blocks _ _ _ _ _ _ b He) as Hez. destruct (decide (p = from)) as [->|Hpf].
  - assert (edge ctx1 from b <-> edge ctx z b) as Hef.
    { rewrite (ml_edge _ _ _ _ Hml2 from b) by (by apply Hb2). rewrite Hfin. symmetry. apply (ml_edge _ _ _ _ Hml). by apply Hl. }
    rewrite Hef, Hez. destruct (decide _) as [Hin|Hin]; [tauto|]. split; [|tauto]. intros [_ Hed]%Hexb. destruct Hbl. eapply (follows_edge ctx fc' chain m from l b Hml); [|exact Hfol|by left| |exact Hed]; [|done].
    intros y [->|Hy]%elem_of_cons; [done|by apply Hl].
  - assert (p ∈ f_blocks fc' -> p ∉ l -> edge ctx1 p b <-> edge ctx p b) as Hep.
    { intros Hp Hpl. rewrite (ml_edge _ _ _ _ Hml2 p b) by (by apply Hb2). rewrite Hch2 by done. symmetry. by apply (ml_edge _ _ _ _ Hml). }
    assert (p ∈ l -> edge ctx p b -> p = z /\ b ∈ map br_block (targets op)) as Hpl.
    { intros Hpl Hed. destruct (decide (p = z)) as [->|Hpz]; [split; [done|]; by apply Hez|]. destruct Hbl. eapply (follows_edge ctx fc' chain m from l b Hml); [|exact Hfol|by right|exact Hpz|exact Hed].
      intros y [->|Hy]%elem_of_cons; [done|by apply Hl]. }
    destruct (decide (p ∈ l)) as [Hin|Hin].
    + split; [|tauto]. intros Hall. exfalso. destruct (decide (b ∈ map br_block (targets op))) as [Hbt|Hbt]; [destruct Hall as [[[_ Hed]%Hexb Hn]|?]; [|done]; by destruct (Hpl Hin Hed)|].
      apply Hexb in Hall as [_ Hed]. by destruct (Hpl Hin Hed).
    + assert (p <> z) as Hpz by (by intros ->). destruct (decide (b ∈ map br_block (targets op))); tauto.
Qed.

Context (Hreach : forall b, b ∈ bl -> exists p, path ctx0 fc b p).

Lemma merge_chain_Ok s fc' chain from : chains_ok s fc' chain -> from ∈ bl -> exists s' fc'' chain', merge_chain f s from = Ok s' /\ chains_ok s' fc'' chain'.
Proof using Hwf Hreach.
  intros [Hml Hex Hdel Hmod] Hfb. unfold merge_chain. case_bool_decide as Hd; [by exists s, fc', chain|]. assert (from ∈ f_blocks fc') as Hfrom by (destruct (decide (from ∈ f_blocks fc')); [done|]; by destruct Hd; apply Hdel).
  destruct (block_chain_Ok _ _ _ _ Hml Hex Hreach (size (blocks (ms_context s))) from []) as (l & -> & Hfol & Hnd & Hl); [done|apply NoDup_singleton|by intros ? ?%elem_of_nil|pose proof (ml_size _ _ _ _ Hml); cbn; lia|]. next_step.
  destruct l as [|y l]; [by exists s, fc', chain|]. rewrite last_final. set (z := final y l).
  assert (forall u, u ∈ y :: l -> u ∈ f_blocks fc' /\ u <> from) as Hin by (intros u Hu; destruct (Hl u Hu) as [? Hn]; split; [done|]; intros ->; apply Hn; by left). clear Hl.
  assert (z ∈ y :: l) as Hz by (destruct (final_split y l) as [k Hk]; rewrite Hk; set_solver). destruct (Hin z Hz) as [Hzb Hzf].
  destruct (wf_block _ _ _ _ Hwf _ (final_block _ _ _ _ Hml z Hzb)) as (c0 & body0 & t & op & He0 & _). destruct (ml_ends_with _ _ _ _ Hml z _ _ _ _ Hzb He0) as (c & body & He). rewrite (ends_with_successors _ _ _ _ _ _ He). next_step.
  destruct (merge_list_Ok from chain (y :: l) (ms_context s) fc' chain (replace_map s) from Hml Hfrom eq_refl Hfol Hnd Hin ltac:(done)) as (ctx1 & m1 & fc1 & chain1 & -> & Hml1 & Hp1 & Hb1 & Hfin1 & Hc1). next_step. cbn [fst snd].
  destruct (replace_preds (targets op) ctx1 z from Hzf) as (ctx2 & -> & Hs2 & Hf2 & Hp2).
  { intros br Hbr. destruct (wf_arity _ _ _ _ Hwf _ _ _ _ _ br (final_block _ _ _ _ Hml z Hzb) He0 Hbr) as (ct & Hct & _). destruct (ml_args _ _ _ _ Hml1 _ _ Hct) as (ct' & -> & _). by eexists. }
  next_step. eexists _, fc1, chain1. split; [done|]. split; cbn.
  - by eapply merging_same.
  - eapply (relinked_exact (ms_context s) ctx1 ctx2 fc' fc1 chain chain1 (replace_map s) m1 from (y :: l)); try done; [|intros u Hu; by apply Hin]. intros Hfl. by destruct (Hin from Hfl).
  - intros b Hb. rewrite elem_of_union, elem_of_union, elem_of_singleton, elem_of_list_to_set, Hdel, Hb1, elem_of_cons by done. destruct (decide (b ∈ f_blocks fc')); [|tauto].
    destruct (decide (b = y \/ b ∈ l)); tauto.
  - done.
Qed.

Lemma merge_chains_Ok l s fc' chain : chains_ok s fc' chain -> (forall b, b ∈ l -> b ∈ bl) -> exists s' fc'' chain', fold_ok (merge_chain f) s l = Ok s' /\ chains_ok s' fc'' chain'.
Proof using Hwf Hreach.
  revert s fc' chain. induction l as [|b l IH]; intros s fc' chain Hco Hl; [by exists s, fc', chain|]. cbn [fold_ok].
  destruct (merge_chain_Ok s fc' chain b Hco) as (s1 & fc1 & chain1 & -> & Hco1); [apply Hl; by left|]. next_step. apply (IH s1 fc1 chain1 Hco1). intros; apply Hl; by right.
Qed.

Lemma chains_start : chains_ok (mkMergeState ctx0 ∅ ∅ false) fc (fun _ => []).
Proof using Hwf. split; cbn; [apply merging_start|intros b c p; apply (wf_preds _ _ _ _ Hwf)| |done]. intros b Hb. split; [by intros ?%not_elem_of_empty|done]. Qed.
End loop.
