(* ===== verification/IrSimplifyTheorem.v ===== *)
(** * Control-flow simplification is correct

    The replacement of the arguments of merged blocks, and the whole pass: the simplified
    function is well formed, has the reachable blocks only, and does what the given one does. *)

From S2P Require Import Prelude IrTypes IrTypeTheory IrConstant IrCore IrRun IrTransform IrFoldTheory IrSimplify IrCfg IrUnlink IrMerge IrMergeLoop IrMachine IrFoldTheorem.
Local Open Scope Z_scope.

(** ** Following a replacement map *)

Lemma replace_loop_more (m : gmap Value Value) n k z r : replace_loop n m z = Ok r -> replace_loop (n + k) m z = Ok r.
Proof.
  revert z. induction n as [|n IH]; intros z; cbn [replace_loop Nat.add].
  - destruct (m !! z) eqn:Hz; [done|]. intros [= <-]. by destruct k; cbn; rewrite Hz.
  - destruct (m !! z) as [r'|] eqn:Hz; [|done]. apply IH.
Qed.

Lemma replace_loop_end (m : gmap Value Value) n z r : replace_loop n m z = Ok r -> m !! r = None /\ (r = z \/ exists z', m !! z' = Some r).
Proof.
  revert z. induction n as [|n IH]; intros z; cbn [replace_loop]; destruct (m !! z) as [r'|] eqn:Hz; try done; try (intros [= <-]; by split; [|left]).
  intros Hr. destruct (IH r' Hr) as [? [->|?]]; split; try done; right; [by exists z|done].
Qed.

Section replacement.
Context (ctx0 : Context) (f : Function) (fc : FunctionContent) (avail : Block -> gset Value) (Hwf : well_formed ctx0 f fc avail).
Context (Hreach : forall b, b ∈ f_blocks fc -> exists p, path ctx0 fc b p).
Abbreviation bl := (f_blocks fc).
Abbreviation args_of := (args_of ctx0).
Abbreviation before := (before ctx0 fc).
Context (s : MergeState) (fc' : FunctionContent) (chain : Block -> list Block) (Hco : chains_ok ctx0 f fc s fc' chain).
Abbreviation m := (replace_map s).
Abbreviation bl' := (f_blocks fc').

Lemma args_of_unique b b' z : b ∈ bl -> b' ∈ bl -> z ∈ args_of b -> z ∈ args_of b' -> b = b'.
Proof using Hwf. intros Hb Hb' Hz Hz'. destruct (args_of_argument _ _ _ _ Hwf b z Hb Hz) as (i & ty & H1). destruct (args_of_argument _ _ _ _ Hwf b' z Hb' Hz') as (i' & ty' & H2). congruence. Qed.

Lemma key_block z r : m !! z = Some r -> exists y, y ∈ bl /\ (y ∉ bl') /\ z ∈ args_of y.
Proof using Hco. intros (x & y & ps & i & _ & _ & Hy & Hn & Hi & _)%(ml_map _ _ _ _ _ _ _ (co_merging _ _ _ _ _ _ Hco)). exists y. split_and!; [done|done|by eapply list_elem_of_lookup_2]. Qed.

(** An argument is replaced by a value of an earlier block. *)
Lemma replaced_before z r y y' : m !! z = Some r -> y ∈ bl -> z ∈ args_of y -> y' ∈ bl -> r ∈ args_of y' -> before y' y.
Proof using Hwf Hreach Hco.
  intros (x & y0 & ps & i & Hx & Hl & Hy0 & _ & Hi & Hr)%(ml_map _ _ _ _ _ _ _ (co_merging _ _ _ _ _ _ Hco)) Hy Hz Hy' Hry'.
  assert (y0 = y) as -> by (eapply args_of_unique; [done|done|by eapply list_elem_of_lookup_2|done]). pose proof Hl as [(c & body & t & He) _].
  destruct (args_of_argument _ _ _ _ Hwf y' r Hy' Hry') as (j & ty & Hv). pose proof (wf_scoped _ _ _ _ Hwf) as Hsc. pose proof (wf_function _ _ _ _ Hwf) as Hfc.
  pose proof (ends_with_point _ _ x c body t _ Hx He) as Hat. intros p Hp. destruct (links_path _ _ _ _ Hwf x y ps p Hx Hl Hp) as (px & Hpx & ->).
  destruct (sc_operands _ _ _ Hsc fc x c body t [] _ r Hfc Hat ltac:(cbn; by eapply list_elem_of_lookup_2)) as [(k & kk & Hk & _)|[Hin|[Hin|Hin]]].
  - congruence.
  - destruct (avail_defined ctx0 f avail Hsc fc Hfc x px r Hpx Hin) as (p1 & b' & p2 & -> & Hp2 & Hd). assert (b' = y') as ->.
    { pose proof (path_block _ _ _ Hsc _ Hfc _ _ Hp2) as Hb'. apply (sc_unique _ _ _ Hsc fc b' y' r Hfc Hb' Hy' Hd). unfold IrMerge.args_of in Hry'. destruct (blocks ctx0 !! y') as [cy|] eqn:Hcy; [|by apply elem_of_nil in Hry']. exists cy. auto. }
    exists p2. split; [done|]. cbn. rewrite length_app. cbn. lia.
  - assert (x = y') as <-; [|by exists px; split; [done|cbn; lia]]. apply (args_of_unique x y' r Hx Hy'); [|done]. unfold IrMerge.args_of. destruct He as (-> & _). done.
  - destruct (sc_instruction _ _ _ Hsc fc x c r Hfc Hx ltac:(apply He)) as (? & ? & ?); [|congruence]. destruct He as (_ & -> & _). set_solver.
Qed.

(** The fuel is enough: no key comes back. *)
Lemma replace_loop_total fuel z seen : NoDup seen -> (forall u, u ∈ seen -> is_Some (m !! u) /\ forall y y', y ∈ bl -> y' ∈ bl -> z ∈ args_of y -> u ∈ args_of y' -> before y y') ->
  (size m <= fuel + length seen)%nat -> exists r, replace_loop fuel m z = Ok r.
Proof using Hwf Hreach Hco.
  revert z seen. induction fuel as [|fuel IH]; intros z seen Hnd Hseen Hfuel; cbn [replace_loop]; (destruct (m !! z) as [r|] eqn:Hz; [|by eexists]).
  all: destruct (key_block z r Hz) as (y & Hy & _ & Hzy).
  all: assert (NoDup (z :: seen)) as Hnd' by (constructor; [|done]; intros Hin; destruct (Hseen z Hin) as [_ Hb]; by apply (before_irrefl _ _ Hreach y Hy), Hb).
  - exfalso. assert (length (z :: seen) <= size (dom m))%nat as Hlen; [|rewrite size_dom in Hlen; cbn in Hlen; lia]. rewrite <- (size_list_to_set (C := gset Value) (z :: seen)) by done. apply subseteq_size.
    intros u [->|Hu]%elem_of_list_to_set%elem_of_cons; apply elem_of_dom; [by eexists|by apply Hseen].
  - apply (IH r (z :: seen)); [done| |cbn; lia]. intros u [->|Hu]%elem_of_cons.
    + split; [by eexists|]. intros y1 y2 Hy1 Hy2 Hr1 Hz2. exact (replaced_before z r y2 y1 Hz Hy2 Hz2 Hy1 Hr1).
    + destruct (Hseen u Hu) as [Hk Hb]. split; [done|]. intros y1 y2 Hy1 Hy2 Hr1 Hu2. exact (before_trans _ _ _ _ _ (replaced_before z r y y1 Hz Hy Hzy Hy1 Hr1) (Hb y y2 Hy Hy2 Hzy Hu2)).
Qed.

(** ** The substitution *)

Definition final_value (z : Value) : Value := match replace_loop (size m) m z with Ok r => r | Err _ => z end.

Lemma final_value_Ok z : replace_loop (size m) m z = Ok (final_value z).
Proof using Hwf Hreach Hco. destruct (replace_loop_total (size m) z []) as [r Hr]; [constructor|by intros ? ?%elem_of_nil|cbn; lia|]. unfold final_value. by rewrite Hr. Qed.

Lemma final_value_end z : m !! final_value z = None.
Proof using Hwf Hreach Hco. by apply (replace_loop_end m (size m) z), final_value_Ok. Qed.

Lemma final_value_other z : m !! z = None -> final_value z = z.
Proof. intros Hz. unfold final_value. by destruct (size m); cbn; rewrite Hz. Qed.

Lemma final_value_step z r : m !! z = Some r -> final_value z = final_value r.
Proof using Hwf Hreach Hco.
  intros Hz. pose proof (final_value_Ok z) as H1. pose proof (final_value_Ok r) as H2. destruct (size m) as [|n]; cbn in H1; rewrite Hz in H1; [done|]. apply (replace_loop_more m n 1) in H1. rewrite Nat.add_1_r in H1. congruence.
Qed.

Lemma final_value_idem z : final_value (final_value z) = final_value z.
Proof using Hwf Hreach Hco. apply final_value_other, final_value_end. Qed.

Lemma final_value_replaces op : InstOp_replace_values m op = Ok (rename final_value op).
Proof using Hwf Hreach Hco. unfold InstOp_replace_values. rewrite <- replace_operands_total. apply replace_operands_ext, final_value_Ok. Qed.

Lemma final_value_range z : final_value z <> z -> usable ctx0 (final_value z).
Proof using Hwf Hreach Hco.
  intros Hz. destruct (replace_loop_end m (size m) z _ (final_value_Ok z)) as [_ [?|[z' Hz']]]; [done|].
  apply (ml_map _ _ _ _ _ _ _ (co_merging _ _ _ _ _ _ Hco)) in Hz' as (x & y & ps & i & Hx & [(c & body & t & He) _] & _ & _ & _ & Hr). destruct He as (Hc & Hi & (p & Hv) & _).
  eapply (wf_used _ _ _ _ Hwf x c t p _ _ Hx Hc); [rewrite Hi; set_solver|exact Hv|cbn; by eapply list_elem_of_lookup_2].
Qed.

(** ** The merged function *)

Section renamed.
Context (vs : gmap Value ValueDatum).
Context (Hin : forall b c u p op, b ∈ bl' -> blocks (ms_context s) !! b = Some c -> u ∈ instructions c -> values (ms_context s) !! u = Some (VInstruction p op) -> vs !! u = Some (VInstruction p (rename final_value op))).
Context (Hkind : forall u, match values (ms_context s) !! u with Some (VInstruction _ _) => exists p op, vs !! u = Some (VInstruction p op) | d => vs !! u = d end).

Lemma renamed_edge b x : b ∈ bl' -> edge (set_values (ms_context s) vs) b x <-> edge (ms_context s) b x.
Proof using All.
  intros Hb. pose proof (co_merging _ _ _ _ _ _ Hco) as Hml. destruct (wf_block _ _ _ _ Hwf _ (final_block _ _ _ _ _ _ _ Hml b Hb)) as (c0 & body0 & t & op & He0 & _).
  destruct (ml_ends_with _ _ _ _ Hwf _ _ _ _ Hml b _ _ _ _ Hb He0) as (c & body & He). rewrite (edge_targets _ _ _ _ _ _ x He). destruct He as (Hc & Hi & (p & Hv) & Ht).
  assert (ends_with (set_values (ms_context s) vs) b c body t (rename final_value op)) as He'.
  { split_and!; [done|done| |by rewrite terminator_rename]. exists p. apply (Hin b c); [done|done|rewrite Hi; set_solver|done]. }
  rewrite (edge_targets _ _ _ _ _ _ x He'), targets_rename. split.
  - intros (br & Hbr & Hx). apply list_elem_of_fmap in Hbr as (br0 & -> & Hbr0). by exists br0.
  - intros (br & Hbr & Hx). exists (rename_branch final_value br). split; [|done]. apply list_elem_of_fmap. by exists br.
Qed.

Lemma renamed_merged : merged ctx0 f fc (set_values (ms_context s) vs) fc' chain final_value.
Proof using All.
  pose proof (co_merging _ _ _ _ _ _ Hco) as Hml. split; cbn.
  - apply Hml.
  - apply Hml.
  - apply Hml.
  - apply Hml.
  - apply Hml.
  - apply Hml.
  - intros b v p op Hb Hv Hop. destruct (ml_block _ _ _ _ _ _ _ Hml b Hb) as (c' & Hc' & Hg). pose proof (ml_value _ _ _ _ _ _ _ Hml v) as Hre. rewrite Hop in Hre. destruct Hre as [p' Hv'].
    exists p'. apply (Hin b c'); [done|done|by rewrite Hg|done].
  - intros v. pose proof (ml_value _ _ _ _ _ _ _ Hml v) as Hre. specialize (Hkind v). destruct (values ctx0 !! v) as [[]|]; [by rewrite Hre in Hkind|by rewrite Hre in Hkind| |by rewrite Hre in Hkind].
    destruct Hre as [p' Hv']. by rewrite Hv' in Hkind.
  - intros x y ps i z r Hx Hl Hy Hn Hz Hr. apply final_value_step, (ml_map _ _ _ _ _ _ _ Hml). by exists x, y, ps, i.
  - intros z Hz. apply final_value_other. destruct (m !! z) as [r|] eqn:Hr; [|done]. exfalso. destruct (key_block z r Hr) as (y & ? & ? & ?). by apply (Hz y).
  - intros z y Hy Hn Hz. pose proof (final_value_end z) as Hend. destruct (merged_from _ _ _ _ Hwf (ml_chained _ _ _ _ _ _ _ Hml) y Hy Hn) as (x & ps & Hx & Hl & Hlen).
    apply list_elem_of_lookup in Hz as [i Hi]. destruct (lookup_lt_is_Some_2 ps i) as [r Hr]; [rewrite Hlen; by eapply lookup_lt_Some|].
    assert (m !! final_value z = Some r) as Hm; [|congruence]. apply (ml_map _ _ _ _ _ _ _ Hml). by exists x, y, ps, i.
  - apply final_value_range.
  - intros b c' p Hb Hc'. rewrite (co_preds _ _ _ _ _ _ Hco b c' p Hb Hc'). split; intros [? ?]; split; try done; by apply renamed_edge.
Qed.
End renamed.

Lemma replaced_merged : exists ctx', (if bool_decide (m = ∅) then Ok (ms_context s) else Function_replace_values (ms_context s) f m) = Ok ctx' /\ merged ctx0 f fc ctx' fc' chain final_value.
Proof using All.
  pose proof (co_merging _ _ _ _ _ _ Hco) as Hml. case_bool_decide as Hm.
  - exists (ms_context s). split; [done|]. assert (ms_context s = set_values (ms_context s) (values (ms_context s))) as -> by (by destruct (ms_context s)). apply renamed_merged.
    + intros b c u p op _ _ _ ->. rewrite rename_id; [done|]. intros x _. apply final_value_other. by rewrite Hm.
    + intros u. destruct (values (ms_context s) !! u) as [[]|]; try done. by eexists _, _.
  - destruct (Function_replace_values_Ok m final_value final_value_replaces final_value_idem (ms_context s) f fc') as (l & -> & Hl).
    { apply Hml. }
    { intros b Hb. destruct (ml_block _ _ _ _ _ _ _ Hml b Hb) as (c & Hc & Hg). exists c. split; [done|]. intros u Hu. rewrite Hg in Hu. apply elem_of_glue in Hu as (b0 & Hb0 & Hu).
      destruct (instrs_value _ _ _ _ Hwf b0 u (ml_part _ _ _ _ _ _ _ Hml b b0 Hb Hb0) Hu) as (p & op & Hv). pose proof (ml_value _ _ _ _ _ _ _ Hml u) as Hre. rewrite Hv in Hre. destruct Hre as [p' ->]. by eexists. }
    eexists. split; [done|]. apply renamed_merged.
    + intros b c u p op Hb Hc Hu Hv. rewrite (rename_values_lookup final_value final_value_idem), bool_decide_true, Hv; [done|]. apply Hl. by exists b, c.
    + intros u. rewrite (rename_values_lookup final_value final_value_idem). case_bool_decide; destruct (values (ms_context s) !! u) as [[]|]; try done; by eexists _, _.
Qed.
End replacement.

(** Merging keeps what the function does. *)
Lemma merge_blocks_Ok `{IrVm} ctx f fc avail : well_formed ctx f fc avail -> (forall b, b ∈ f_blocks fc -> exists p, path ctx fc b p) ->
  exists ctx' m fc' avail', merge_blocks ctx f = Ok (ctx', m) /\ well_formed ctx' f fc' avail' /\ refines ctx ctx' f /\ (forall b, b ∈ f_blocks fc' -> b ∈ f_blocks fc).
Proof.
  intros Hwf Hreach. unfold merge_blocks, block_iter, function_content, index, expect_some. rewrite (wf_function _ _ _ _ Hwf). next_step.
  destruct (merge_chains_Ok ctx f fc avail Hwf Hreach (f_blocks fc) _ _ _ (chains_start ctx f fc avail Hwf) ltac:(done)) as (s & fc' & chain & -> & Hco). next_step.
  destruct (replaced_merged ctx f fc avail Hwf Hreach s fc' chain Hco) as (ctx' & Hr & Hmg). pose proof (ml_chained _ _ _ _ _ _ _ (co_merging _ _ _ _ _ _ Hco)) as Hch.
  eexists ctx', (ms_modified s), fc', _. split_and!.
  - case_bool_decide; [by injection Hr as ->|]. by rewrite (co_modified _ _ _ _ _ _ Hco), Hr.
  - by eapply merged_well_formed.
  - by eapply merged_refines.
  - intros b. apply (kept_block _ _ Hch).
Qed.

(** ** What the pass reports *)

Lemma fold_ok_unmodified {A S} (g : S * bool -> A -> Result (S * bool)) (l : list A) s m s' :
  (forall s m x s', g (s, m) x = Ok (s', false) -> s' = s /\ m = false) -> fold_ok g (s, m) l = Ok (s', false) -> s' = s /\ m = false.
Proof.
  intros Hg. revert s m. induction l as [|x l IH]; intros s m; cbn; [by intros [= -> ->]|]. destruct (g (s, m) x) as [[s1 m1]|] eqn:Hx; [|done]. cbn. intros Hl.
  destruct (IH s1 m1 Hl) as [-> ->]. by apply Hg in Hx.
Qed.

Lemma remove_dead_blocks_unmodified ctx f ctx' : remove_dead_blocks ctx f = Ok (ctx', false) -> ctx' = ctx.
Proof.
  unfold remove_dead_blocks. intros (e & _ & (r & _ & (l & _ & Hl)%bind_Ok)%bind_Ok)%bind_Ok.
  apply (fold_ok_unmodified (remove_dead f r)) in Hl as [? _]; [done|]. intros s m b s' Hs. unfold remove_dead in Hs. case_bool_decide; [by injection Hs as -> ->|]. cbn in Hs.
  by repeat (apply bind_Ok in Hs as (? & _ & Hs)).
Qed.

Lemma merge_chain_unmodified f s b s' : merge_chain f s b = Ok s' -> ms_modified s' = false -> s' = s.
Proof.
  unfold merge_chain. case_bool_decide; [congruence|]. intros (l & _ & Hs)%bind_Ok Hm. destruct (last l); [|congruence]. repeat (apply bind_Ok in Hs as (? & _ & Hs)). by injection Hs as <-.
Qed.

Lemma merge_blocks_unmodified ctx f ctx' : merge_blocks ctx f = Ok (ctx', false) -> ctx' = ctx.
Proof.
  unfold merge_blocks. intros (l & _ & (s & Hs & Hr)%bind_Ok)%bind_Ok.
  assert (forall s0, fold_ok (merge_chain f) s0 l = Ok s -> ms_modified s = false -> s = s0) as Hloop.
  { clear. induction l as [|b l IH]; intros s0; cbn; [by intros [= ->]|]. intros (s1 & H1 & Hl)%bind_Ok Hm. pose proof (IH s1 Hl Hm) as ->. by eapply merge_chain_unmodified. }
  case_bool_decide as Hmap; [injection Hr as <- Hm; by rewrite (Hloop _ Hs Hm)|]. destruct (ms_modified s) eqn:Hms; [|done]. apply bind_Ok in Hr as (k & _ & Hr). injection Hr as _ Hm. by rewrite (Hloop _ Hs Hm) in Hmap.
Qed.

Section pass.
Context `{!HashOrder Block}.

Lemma unlink_empty_blocks_unmodified ctx f ctx' : unlink_empty_blocks ctx f = Ok (ctx', false) -> ctx' = ctx.
Proof.
  unfold unlink_empty_blocks. intros (l & _ & (cs & _ & Hl)%bind_Ok)%bind_Ok. apply fold_ok_unmodified in Hl as [? _]; [done|]. clear. intros s m [b [to ps]] s' Hs. unfold unlink_block in Hs.
  repeat (apply bind_Ok in Hs as (? & _ & Hs)). destruct (_ && _); [by injection Hs as -> ->|]. apply bind_Ok in Hs as (k & Hk & Hs). injection Hs as -> Hm.
  apply orb_false_iff in Hm as [-> Hn%negb_false_iff%bool_decide_eq_true]. rewrite Hn in Hk. by injection Hk as ->.
Qed.

Lemma simplify_cfg_unmodified ctx f ctx' : simplify_cfg ctx f = Ok (ctx', false) -> ctx' = ctx.
Proof.
  unfold simplify_cfg. intros ([c1 m1] & H1 & ([c2 m2] & H2 & ([c3 m3] & H3 & ([c4 m4] & H4 & Hr)%bind_Ok)%bind_Ok)%bind_Ok)%bind_Ok. cbn [fst snd] in *. injection Hr as <- Hm.
  apply orb_false_iff in Hm as [Hm ->]. apply orb_false_iff in Hm as [Hm ->]. apply orb_false_iff in Hm as [-> ->].
  apply remove_dead_blocks_unmodified in H1 as ->. apply merge_blocks_unmodified in H2 as ->. apply unlink_empty_blocks_unmodified in H3 as ->. by apply remove_dead_blocks_unmodified in H4.
Qed.

(** ** The theorems *)

Lemma simplify_cfg_Ok `{IrVm} ctx f fc avail : well_formed ctx f fc avail ->
  exists ctx' modified fc' avail', simplify_cfg ctx f = Ok (ctx', modified) /\ well_formed ctx' f fc' avail' /\ refines ctx ctx' f /\
    (forall b, b ∈ f_blocks fc' -> (exists p, path ctx' fc' b p) /\ exists p, path ctx fc b p).
Proof.
  intros Hwf. destruct (remove_dead_blocks_Ok ctx f fc avail Hwf) as (c1 & m1 & fc1 & H1 & Hwf1 & Hr1 & Hb1 & Hp1 & _).
  destruct (merge_blocks_Ok c1 f fc1 avail Hwf1 Hp1) as (c2 & m2 & fc2 & avail2 & H2 & Hwf2 & Hr2 & Hb2).
  destruct (unlink_empty_blocks_Ok c2 f fc2 avail2 Hwf2) as (c3 & m3 & H3 & Hrl & Hwf3).
  destruct (remove_dead_blocks_Ok c3 f fc2 avail2 Hwf3) as (c4 & m4 & fc4 & H4 & Hwf4 & Hr4 & _ & Hp4 & Hsub).
  exists c4, (m1 || m2 || m3 || m4), fc4, avail2. split_and!.
  - unfold simplify_cfg. rewrite H1. next_step. cbn [fst snd]. rewrite H2. next_step. cbn [fst snd]. rewrite H3. next_step. cbn [fst snd]. by rewrite H4.
  - done.
  - destruct (relinked_refines c2 c3 Hrl f) as [? ?], Hr1 as [? ?], Hr2 as [? ?], Hr4 as [? ?]. split; intros; auto.
  - intros b Hb. split; [by apply Hp4|]. apply Hb1, Hb2. by eapply elem_of_sublist.
Qed.

(** C14. The simplification of a well-formed function returns, whatever the order in which
    sets are visited; the simplified function ends as the given one does, and runs forever
    where that one does. *)
Theorem simplify_cfg_correct `{IrVm} ctx f fc avail : well_formed ctx f fc avail ->
  exists ctx' modified, simplify_cfg ctx f = Ok (ctx', modified) /\ (forall vals w o, ends ctx f vals w o -> ends ctx' f vals w o) /\ forall vals w, diverges ctx f vals w -> diverges ctx' f vals w.
Proof. intros Hwf. destruct (simplify_cfg_Ok ctx f fc avail Hwf) as (ctx' & m & fc' & avail' & Heq & _ & [Hends Hdiv] & _). by exists ctx', m. Qed.

(** C39. The simplification keeps a function well formed: blocks end with their only
    terminators, know their predecessors, and branch with the arguments of their targets.
    All blocks that it leaves are reachable, and were reachable before; it reports no change
    only when it made none. *)
Theorem simplify_cfg_well_formed `{IrVm} ctx f fc avail ctx' modified : well_formed ctx f fc avail -> simplify_cfg ctx f = Ok (ctx', modified) ->
  exists fc' avail', well_formed ctx' f fc' avail' /\ (forall b, b ∈ f_blocks fc' -> (exists p, path ctx' fc' b p) /\ exists p, path ctx fc b p) /\ (modified = false -> ctx' = ctx).
Proof.
  intros Hwf Heq. destruct (simplify_cfg_Ok ctx f fc avail Hwf) as (ctx1 & m & fc' & avail' & Heq' & Hwf' & _ & Hb). rewrite Heq in Heq'. injection Heq' as <- _.
  exists fc', avail'. split_and!; [done|done|]. intros ->. by apply simplify_cfg_unmodified in Heq.
Qed.
End pass.

(** ** On a sample

    [fn g(x: u64)] compares [x] with [1]; it returns [x] when the comparison holds, by way of
    an empty block, and otherwise [(x + 1) * 1], which two blocks compute; the last block is
    dead. *)

Section sample.
Context (pred : Predicate).

Definition cfg_pool : Constants := mkConstants {[ 1%positive := mkConstant u64_key (CUint 1) ]} {[ 0 := [1%positive] ]}.

Definition cfg_values : gmap Value ValueDatum :=
  {[ 1%positive := VArgument 1 0 u64_key; 2%positive := VConstant 1;
     3%positive := VInstruction 1 (ICmp pred 1 2);
     4%positive := VInstruction 1 (IConditionalBranch 3 (mkBranch 2 []) (mkBranch 3 []));
     5%positive := VInstruction 2 (IBranch (mkBranch 4 [1%positive]));
     6%positive := VInstruction 3 (IBinaryOp BAdd 1 2);
     7%positive := VInstruction 3 (IBranch (mkBranch 5 [6%positive]));
     8%positive := VArgument 5 0 u64_key;
     9%positive := VInstruction 5 (IBinaryOp BMul 8 2);
     10%positive := VInstruction 5 (IBranch (mkBranch 4 [9%positive]));
     11%positive := VArgument 4 0 u64_key;
     12%positive := VInstruction 4 (IRet 11 u64_key);
     13%positive := VInstruction 6 (IBranch (mkBranch 4 [2%positive])) ]}.

Definition cfg_blocks : gmap Block BlockContent :=
  {[ 1%positive := mkBlock 1 [3; 4]%positive [1%positive] ∅; 2%positive := mkBlock 1 [5]%positive [] {[1%positive]};
     3%positive := mkBlock 1 [6; 7]%positive [] {[1%positive]}; 4%positive := mkBlock 1 [12]%positive [11%positive] {[2%positive; 5%positive; 6%positive]};
     5%positive := mkBlock 1 [9; 10]%positive [8%positive] {[3%positive]}; 6%positive := mkBlock 1 [13]%positive [] ∅ ]}.

Definition cfg_function : FunctionContent := mkFunction "g" [("x", 1%positive)] u64_key [1; 2; 3; 4; 5; 6]%positive 1 true false None [].
Definition cfg_ctx : Context := mkContext Context_new cfg_pool cfg_values cfg_blocks {[ 1%positive := cfg_function ]} fold_declarations.

Lemma cfg_block b c : cfg_blocks !! b = Some c -> (b, c) ∈ [
  (1, mkBlock 1 [3; 4] [1] ∅); (2, mkBlock 1 [5] [] {[1]}); (3, mkBlock 1 [6; 7] [] {[1]}); (4, mkBlock 1 [12] [11] {[2; 5; 6]}); (5, mkBlock 1 [9; 10] [8] {[3]}); (6, mkBlock 1 [13] [] ∅)]%positive.
Proof. intros Hc. unfold cfg_blocks in Hc. repeat (apply lookup_insert_Some in Hc as [[<- <-]|[_ Hc]]; [member|]). apply lookup_singleton_Some in Hc as [<- <-]. member. Qed.

Definition cfg_ops : list (Value * InstOp) := [
  (3, ICmp pred 1 2); (4, IConditionalBranch 3 (mkBranch 2 []) (mkBranch 3 [])); (5, IBranch (mkBranch 4 [1])); (6, IBinaryOp BAdd 1 2); (7, IBranch (mkBranch 5 [6]));
  (9, IBinaryOp BMul 8 2); (10, IBranch (mkBranch 4 [9])); (12, IRet 11 u64_key); (13, IBranch (mkBranch 4 [2]))]%positive.

Lemma cfg_op v p op : cfg_values !! v = Some (VInstruction p op) -> (v, op) ∈ cfg_ops.
Proof.
  intros Hv. unfold cfg_values in Hv. repeat (apply lookup_insert_Some in Hv as [[<- Hv]|[_ Hv]]; [first [done|injection Hv as <- <-; member]|]).
  apply lookup_singleton_Some in Hv as [<- Hv]. injection Hv as <- <-. member.
Qed.

(** The instructions of the function, with the arguments of their blocks and the instructions before them *)
Definition cfg_points : list (Block * list Value * list Value * Value * InstOp) := [
  (1, [1], [], 3, ICmp pred 1 2); (1, [1], [3], 4, IConditionalBranch 3 (mkBranch 2 []) (mkBranch 3 [])); (2, [], [], 5, IBranch (mkBranch 4 [1]));
  (3, [], [], 6, IBinaryOp BAdd 1 2); (3, [], [6], 7, IBranch (mkBranch 5 [6])); (5, [8], [], 9, IBinaryOp BMul 8 2); (5, [8], [9], 10, IBranch (mkBranch 4 [9]));
  (4, [11], [], 12, IRet 11 u64_key); (6, [], [], 13, IBranch (mkBranch 4 [2]))]%positive.

Lemma cfg_point b c before v after op : at_point cfg_ctx (f_blocks cfg_function) b c before v after op -> (b, args c, before, v, op) ∈ cfg_points.
Proof.
  intros (Hb & Hc%cfg_block & Hi%splits_complete & p & Hv%cfg_op). members Hc; injection Hc as -> ->; cbn [splits map instructions] in Hi; members Hi; injection Hi as -> -> ->;
    unfold cfg_ops in Hv; members Hv; injection Hv as Hv; try discriminate; subst op; member.
Qed.

Definition cfg_edges : list (Block * Block) := [(1, 2); (1, 3); (2, 4); (3, 5); (5, 4); (6, 4)]%positive.

Lemma cfg_edge b x : edge cfg_ctx b x <-> (b, x) ∈ cfg_edges.
Proof.
  split.
  - intros (c & body & t & op & br & (Hc & Hi & Hv & _) & Hbr & <-). assert (at_point cfg_ctx (f_blocks cfg_function) b c body t [] op) as Hat.
    { split_and!; try done. apply cfg_block in Hc. members Hc; injection Hc as -> _; member. }
    apply cfg_point in Hat. unfold cfg_points in Hat. members Hat; injection Hat as -> _ -> -> ->; cbn in Hbr; members Hbr; subst br; cbn; member.
  - intros Hin. unfold cfg_edges in Hin. members Hin; injection Hin as -> ->.
    1: eapply (edge_blocks cfg_ctx _ (mkBlock 1 [3; 4] [1] ∅)%positive [3%positive] 4%positive).
    3: eapply (edge_blocks cfg_ctx _ (mkBlock 1 [3; 4] [1] ∅)%positive [3%positive] 4%positive).
    5: eapply (edge_blocks cfg_ctx _ (mkBlock 1 [5] [] {[1]})%positive [] 5%positive).
    7: eapply (edge_blocks cfg_ctx _ (mkBlock 1 [6; 7] [] {[1]})%positive [6%positive] 7%positive).
    9: eapply (edge_blocks cfg_ctx _ (mkBlock 1 [9; 10] [8] {[3]})%positive [9%positive] 10%positive).
    11: eapply (edge_blocks cfg_ctx _ (mkBlock 1 [13] [] ∅)%positive [] 13%positive).
    all: first [split_and!; [reflexivity|reflexivity|eexists; reflexivity|reflexivity]|cbn; member].
Qed.

Definition cfg_avail (b : Block) : gset Value := if bool_decide (b = 1%positive) then ∅ else {[1%positive]}.

Lemma cfg_fc fc : functions cfg_ctx !! 1%positive = Some fc -> fc = cfg_function.
Proof. intros Hfc. cbn [functions cfg_ctx] in Hfc. by apply lookup_singleton_Some in Hfc as [_ <-]. Qed.

Lemma cfg_scoped : scoped cfg_ctx 1 cfg_avail.
Proof.
  split.
  - by exists cfg_function, 1%positive; split_and!; [..|repeat constructor; set_solver].
  - intros fc b ->%cfg_fc Hb. cbn [f_blocks cfg_function] in Hb. members Hb; subst b; eexists; (split; [done|]); repeat constructor; set_solver.
  - intros fc b c v ->%cfg_fc Hb Hc Hv. apply cfg_block in Hc. members Hc; injection Hc as -> ->; cbn in Hv; members Hv; subst v; by eexists _, _.
  - intros fc b c v ->%cfg_fc Hb Hc Hv. apply cfg_block in Hc. members Hc; injection Hc as -> ->; cbn in Hv; members Hv; subst v; by eexists _, _, _.
  - intros fc b b' x ->%cfg_fc Hb Hb' (c & Hc & Hx) (c' & Hc' & Hx'). apply cfg_block in Hc, Hc'.
    members Hc; injection Hc as -> ->; members Hc'; injection Hc' as -> ->; try done; cbn in Hx, Hx'; set_solver.
  - intros fc b c before v after op x ->%cfg_fc Hat Hx. apply cfg_point in Hat. unfold cfg_points in Hat.
    assert (exists content, is_const cfg_ctx 2 content) as Hconst by (eexists; eexists; done).
    unfold in_scope. members Hat; injection Hat as -> Ha -> -> ->; cbn in Hx; rewrite Ha; members Hx; subst x; first [left; exact Hconst|right; unfold cfg_avail; cbn; set_solver].
  - intros fc b c before v after op br ->%cfg_fc Hat Hbr. apply cfg_point in Hat. unfold cfg_points in Hat.
    members Hat; injection Hat as -> Ha -> -> ->; cbn in Hbr; members Hbr; subst br; rewrite Ha; unfold cfg_avail; cbn; (split; [member|set_solver]).
Qed.

Lemma cfg_ctx_well_formed : well_formed cfg_ctx 1 cfg_function cfg_avail.
Proof.
  split.
  - done.
  - apply cfg_scoped.
  - intros b c Hb Hc%cfg_block. members Hc; injection Hc as -> ->.
    1: exists [3%positive], 4%positive. 2: exists [], 5%positive. 3: exists [6%positive], 7%positive. 4: exists [], 12%positive. 5: exists [9%positive], 10%positive. 6: exists [], 13%positive.
    all: eexists; (split; [split_and!; [reflexivity|reflexivity|eexists; reflexivity|reflexivity]|]); intros u p o Hu Hv; members Hu; subst u; apply cfg_op in Hv; unfold cfg_ops in Hv; members Hv; injection Hv as Hv; subst o; done.
  - intros b c p Hb Hc. rewrite cfg_edge. unfold cfg_edges. apply cfg_block in Hc. cbn [f_blocks cfg_function]. members Hc; injection Hc as -> ->; cbn; (split; [set_solver|]); intros [_ Hin]; members Hin; injection Hin as Hin; try discriminate; set_solver.
  - intros e c [= <-] [= <-]. done.
  - intros b c body t op br Hb (Hc & Hi & Hv & _) Hbr. assert (at_point cfg_ctx (f_blocks cfg_function) b c body t [] op) as Hat by done. apply cfg_point in Hat. unfold cfg_points in Hat.
    members Hat; injection Hat as -> _ -> -> ->; cbn in Hbr; members Hbr; subst br; eexists; (split; [reflexivity|reflexivity]).
  - intros b c i x Hb Hc%cfg_block Hx. members Hc; injection Hc as -> ->; cbn in Hx; (destruct i as [|i]; [|try done; by destruct i]); try done; injection Hx as <-; by eexists.
  - intros b c v p op x Hb Hc Hv Hop Hx. apply cfg_op in Hop. unfold cfg_ops in Hop. members Hop; injection Hop as -> ->; cbn in Hx; members Hx; subst x; unfold usable; cbn; try done; try (eexists; split; [reflexivity|reflexivity]); by eexists.
Qed.

End sample.

#[local] Existing Instance elements_order.
Import SampleVm.

Lemma cfg_ctx_ends : @ends vm (cfg_ctx PLessThan) 1 [Word 4] [] (@Returned vm (Word 5) []).
Proof.
  assert (match @start vm (cfg_ctx PLessThan) 1 [Word 4] [] with Some st => returns (run (cfg_ctx PLessThan) 8 st) 5 | None => false end = true) as Hrun by by vm_compute.
  destruct (@start vm (cfg_ctx PLessThan) 1 [Word 4] []) as [st|] eqn:Hst; [|done]. exists st, 8%nat. split; [done|]. by apply returns_spec.
Qed.

Lemma simplify_cfg_correct_witness : exists ctx' modified, simplify_cfg (cfg_ctx PLessThan) 1 = Ok (ctx', modified) /\ @ends vm ctx' 1 [Word 4] [] (@Returned vm (Word 5) []).
Proof.
  destruct (simplify_cfg_correct (H := vm) (cfg_ctx PLessThan) 1 cfg_function cfg_avail (cfg_ctx_well_formed PLessThan)) as (ctx' & modified & Heq & Hends & _).
  exists ctx', modified. split; [exact Heq|exact (Hends _ _ _ cfg_ctx_ends)].
Defined.

Lemma simplify_cfg_well_formed_witness : exists ctx' modified fc', simplify_cfg (cfg_ctx PLessThan) 1 = Ok (ctx', modified) /\ functions ctx' !! 1%positive = Some fc' /\ forall b, b ∈ f_blocks fc' -> exists p, path ctx' fc' b p.
Proof.
  destruct (simplify_cfg_Ok (H := vm) (cfg_ctx PLessThan) 1 cfg_function cfg_avail (cfg_ctx_well_formed PLessThan)) as (ctx' & modified & _ & _ & Heq & _).
  destruct (simplify_cfg_well_formed (H := vm) (cfg_ctx PLessThan) 1 cfg_function cfg_avail ctx' modified (cfg_ctx_well_formed PLessThan) Heq) as (fc' & avail' & Hwf & Hb & _).
  exists ctx', modified, fc'. split; [exact Heq|]. split; [exact (wf_function _ _ _ _ Hwf)|]. intros b Hin. exact (proj1 (Hb b Hin)).
Defined.
