(* ===== verification/IrCcp.v ===== *)
(** * Conditional constant propagation

    [sway-ir/src/optimize/conditional_constprop.rs]: in the blocks that are reached only
    where a value was found equal to a constant, the constant replaces the value.  The
    dominator tree is the one of [IrDominator]. *)

From S2P Require Import Prelude IrDominator IrTypes IrConstant IrCore.
Local Open Scope Z_scope.

(** The values that are replaced in the blocks dominated by the key *)
Abbreviation Regions := (gmap Block (Value * Value)).

Definition region_of (context : Context) (dom_region_replacements : Regions) (block : Block) : Result Regions :=
  t ← get_terminator context block;
  term ← expect_some t "Malformed block: no terminator";
  match term.2 with
  | IConditionalBranch cond_value true_block false_block =>
      i ← get_instruction context cond_value;
      match i with
      | Some (_, ICmp pred v1 v2) =>
          if bool_decide (br_block true_block <> br_block false_block) && match pred with PEqual => true | _ => false end then
            c1 ← is_constant context v1;
            c2 ← is_constant context v2;
            if xorb c1 c2 then
              n ← num_predecessors context (br_block true_block);
              Ok (if (n =? 1)%nat then <[br_block true_block := if c1 : bool then (v2, v1) else (v1, v2)]> dom_region_replacements else dom_region_replacements)
            else Ok dom_region_replacements
          else Ok dom_region_replacements
      | _ => Ok dom_region_replacements
      end
  | _ => Ok dom_region_replacements
  end.

Section walk.
Context (dom_tree : DomTree) (dom_region_replacements : Regions).

(** The walk over the dominator tree; a block is on the stack with the child to visit next. *)
Fixpoint ccp_walk (fuel : nat) (context : Context) (stack : list (Block * nat)) (replacements : gmap Value Value) : Result Context :=
  match stack with
  | [] => Ok context
  | (block, next_child) :: stack' =>
      match fuel with
      | O => Err OutOfFuel
      | S fuel' =>
          let cur_replacement_opt := dom_region_replacements !! block in
          r ← (if (next_child =? 0)%nat then
                 let replacements := match cur_replacement_opt with Some cur_replacement => <[cur_replacement.1 := cur_replacement.2]> replacements | None => replacements end in
                 context ← Block_replace_values context block replacements;
                 Ok (context, replacements)
               else Ok (context, replacements));
          o ← child dom_tree block next_child;
          match o with
          | Some child => ccp_walk fuel' r.1 ((child, O) :: (block, S next_child) :: stack') r.2
          | None => ccp_walk fuel' r.1 stack' (match cur_replacement_opt with Some cur_replacement => delete cur_replacement.1 r.2 | None => r.2 end)
          end
      end
  end.
End walk.

(** A block is pushed once and popped once. *)
Definition ccp (context : Context) (dom_tree : DomTree) (function : Function) : Result (Context * bool) :=
  l ← block_iter context function;
  dom_region_replacements ← fold_ok (region_of context) ∅ l;
  root_block ← get_entry_block context function;
  if bool_decide (dom_region_replacements = ∅) then Ok (context, false)
  else
    context ← ccp_walk dom_tree dom_region_replacements (2 * size (IrDominator.values dom_tree)) context [(root_block, O)] ∅;
    Ok (context, true).
