(* ===== verification/IrCcpTheory.v ===== *)
(** * Conditional constant propagation is correct

    A block whose only predecessor branches to it where a comparison for equality holds
    is a region: in the blocks that it dominates the compared value has the value of the
    constant, since it is not computed again there.  So a function does the same step by
    step when the constant is used instead. *)

From S2P Require Import Prelude IrDominator IrDomTree IrDomPass IrDomMain IrDomFronts IrTypes IrTypeTheory IrConstant IrCore IrRun IrTransform IrMachine IrFoldTheory IrSimplify IrCfg IrMerge IrMergeLoop IrFoldTheorem IrSimplifyTheorem IrCcp.
Local Open Scope Z_scope.

(** Equality holds of equal values only. *)
Class IrVmEq `{IrVm} : Prop := cmp_equal (a b : Val) w r w' : exec (cmpop PEqual) [a; b] w = Some (Continues r w') -> as_bool r = Some true -> a = b.

Section regions.
Context (ctx : Context) (f : Function) (fc : FunctionContent) (avail : Block -> gset Value) (Hwf : well_formed ctx f fc avail).
Abbreviation bl := (f_blocks fc).
Abbreviation path := (IrRun.path ctx fc).
Abbreviation at_point := (at_point ctx bl).

(** The block [T] is entered only where [v] was found equal to the constant [k]. *)
Record equates (T : Block) (v k : Value) : Prop := {
  eq_branch : exists P c body t cond br_true br_false x y p, P ∈ bl /\ ends_with ctx P c body t (IConditionalBranch cond br_true br_false) /\
    br_block br_true = T /\ br_block br_false <> T /\ (forall b, b ∈ bl -> edge ctx b T -> b = P) /\
    values ctx !! cond = Some (VInstruction p (ICmp PEqual x y)) /\ ((x = v /\ y = k) \/ (x = k /\ y = v));
  eq_block : T ∈ bl;
  eq_const : exists key, values ctx !! k = Some (VConstant key);
  eq_variable : forall key, values ctx !! v <> Some (VConstant key);
}.

Definition dominates (a b : Block) : Prop := forall p, path b p -> a ∈ b :: p.

(** The blocks before a block on a way have ways that are part of it. *)
Lemma path_prefix b p x : path b p -> x ∈ b :: p -> exists q, path x q /\ (length q <= length p)%nat /\ forall y, y ∈ x :: q -> y ∈ b :: p.
Proof.
  induction 1 as [e He|b p c before v after op br Hp IH Hat Hbr].
  - intros ->%list_elem_of_singleton. exists []. split; [by constructor|done].
  - intros [->|Hx]%elem_of_cons; [exists (b :: p); split; [by eapply path_step|done]|]. destruct (IH Hx) as (q & Hq & Hle & Hsub). exists q. split; [done|]. cbn. split; [lia|]. intros y Hy. right. by apply Hsub.
Qed.

Lemma dominates_trans a b c : dominates a b -> dominates b c -> dominates a c.
Proof. intros H1 H2 p Hp. destruct (path_prefix c p b Hp (H2 p Hp)) as (q & Hq & _ & Hsub). by apply Hsub, H1. Qed.

(** Another dominator is passed before. *)
Lemma dominates_before a b : dominates a b -> a <> b -> before ctx fc a b.
Proof.
  intros Hd Hne p Hp. pose proof (Hd p Hp) as Hin. inversion Hp as [e He|b0 p0 c before v after op br Hp0 Hat Hbr]; subst; [by apply list_elem_of_singleton in Hin|].
  apply elem_of_cons in Hin as [?|Hin]; [done|]. destruct (path_prefix b0 p0 a Hp0 Hin) as (q & Hq & Hle & _). exists q. split; [done|cbn; lia].
Qed.

Lemma dominates_antisym a b p : path a p -> dominates a b -> dominates b a -> a = b.
Proof.
  intros Hp Hab Hba. destruct (decide (a = b)) as [|Hne]; [done|]. exfalso. pose proof (before_trans _ _ _ _ _ (dominates_before a b Hab Hne) (dominates_before b a Hba (not_eq_sym Hne))) as Hself. clear - Hp Hself.
  remember (length p) as n eqn:Hn. revert p Hp Hn. induction n as [n IH] using lt_wf_ind. intros p Hp ->. destruct (Hself p Hp) as (q & Hq & Hlt). by eapply (IH (length q)).
Qed.

Lemma dominates_refl a : dominates a a.
Proof. intros p _. by left. Qed.

(** ** The compared value is not defined in its region *)

Lemma cond_defined P c body t cond br_true br_false x y p : P ∈ bl -> ends_with ctx P c body t (IConditionalBranch cond br_true br_false) -> values ctx !! cond = Some (VInstruction p (ICmp PEqual x y)) ->
  forall q, path P q -> exists bc cc before after q', at_point bc cc before cond after (ICmp PEqual x y) /\ path bc q' /\ (length q' <= length q)%nat.
Proof using Hwf.
  intros HP He Hcond q Hq. pose proof (wf_scoped _ _ _ _ Hwf) as Hsc. pose proof (wf_function _ _ _ _ Hwf) as Hfc. pose proof (ends_with_point _ _ P c body t _ HP He) as Hat.
  assert (forall b, b ∈ bl -> defined_in ctx b cond -> exists cc before after, at_point b cc before cond after (ICmp PEqual x y)) as Hpoint.
  { intros b Hb (cc & Hcc & [Hin|Hin]); [destruct (sc_argument _ _ _ Hsc fc b cc cond Hfc Hb Hcc Hin) as (? & ? & ? & ?); congruence|].
    apply list_elem_of_split in Hin as (before & after & Hi). exists cc, before, after. split_and!; [done|done|done|by exists p]. }
  destruct (sc_operands _ _ _ Hsc fc P c body t [] _ cond Hfc Hat ltac:(cbn; by left)) as [(k & kk & Hk & _)|[Hin|[Hin|Hin]]].
  - congruence.
  - destruct (avail_defined ctx f avail Hsc fc Hfc P q cond Hq Hin) as (q1 & b' & q2 & -> & Hq2 & Hd). destruct (Hpoint b' (path_block _ _ _ Hsc _ Hfc _ _ Hq2) Hd) as (cc & before & after & Hpt).
    exists b', cc, before, after, q2. split_and!; [done|done|]. rewrite length_app. cbn. lia.
  - destruct (sc_argument _ _ _ Hsc fc P c cond Hfc HP ltac:(apply He) Hin) as (? & ? & ? & ?). congruence.
  - destruct (Hpoint P HP) as (cc & before & after & Hpt); [|by exists P, cc, before, after, q]. exists c. split; [apply He|]. right. destruct He as (_ & -> & _). set_solver.
Qed.

(** The way to a region ends with the comparison. *)
Lemma region_entered T v k p : equates T v k -> path T p -> exists (q : list Block) bc cc before cond after x y q', (length q < length p)%nat /\ at_point bc cc before cond after (ICmp PEqual x y) /\ ((x = v /\ y = k) \/ (x = k /\ y = v)) /\
  path bc q' /\ (length q' <= length q)%nat.
Proof using Hwf.
  intros Heq HpT. pose proof Heq as [(P & c & body & t & cond & brt & brf & x & y & pc & HP & He & HbT & _ & Huniq & Hcond & Hxy) _ _ _].
  assert (edge ctx P T) as Hed by (apply (edge_targets _ _ _ _ _ _ T He); exists brt; split; [by left|done]).
  assert (exists q, path P q /\ p = P :: q) as (q & Hq & ->).
  { inversion HpT as [e Hhd|b0 q c0 before0 v0 after0 op0 br0 Hq Hat0 Hbr0]; subst.
    - exfalso. destruct (wf_block _ _ _ _ Hwf _ (eq_block _ _ _ Heq)) as (cT & ? & ? & ? & (HcT & _) & _). pose proof (wf_entry _ _ _ _ Hwf _ cT Hhd HcT) as Hempty.
      assert (P ∈ preds cT) as Hin; [|by rewrite Hempty in Hin]. by apply (wf_preds _ _ _ _ Hwf _ cT P (eq_block _ _ _ Heq) HcT).
    - exists q. assert (b0 = P) as ->; [|done]. apply Huniq; [apply Hat0|]. apply (edge_point _ _ _ _ Hwf); [apply Hat0|]. by exists c0, before0, v0, after0, op0, br0. }
  destruct (cond_defined P c body t cond brt brf x y pc HP He Hcond q Hq) as (bc & cc & before & after & q' & Hpt & Hq' & Hle').
  exists q, bc, cc, before, cond, after, x, y, q'. split_and!; [cbn; lia|done|done|done|done].
Qed.

Lemma region_not_defined T v k b p : equates T v k -> dominates T b -> path b p -> ~ defined_in ctx b v.
Proof using Hwf.
  intros Heq Hdom. pose proof (wf_scoped _ _ _ _ Hwf) as Hsc. pose proof (wf_function _ _ _ _ Hwf) as Hfc. remember (length p) as n eqn:Hn. revert p Hn. induction n as [n IH] using lt_wf_ind. intros p -> Hp Hd.
  destruct (path_prefix b p T Hp (Hdom p Hp)) as (pT & HpT & Hle & _). pose proof (eq_variable _ _ _ Heq) as Hvar.
  destruct (region_entered T v k pT Heq HpT) as (q & bc & cc & before & cond & after & x & y & q' & Hlt & Hpt & Hxy & Hq' & Hle').
  assert (in_scope ctx avail bc cc before v) as Hsv by (apply (sc_operands _ _ _ Hsc fc bc cc before cond after _ v Hfc Hpt); cbn; destruct Hxy as [[-> _]|[_ ->]]; set_solver).
  assert (exists q2, path b q2 /\ (length q2 <= length q')%nat) as (q2 & Hq2 & Hle2).
  { destruct Hsv as [(kk & key & Hk & _)|[Hin|Hin]]; [by destruct (Hvar key)| |].
    - destruct (avail_defined ctx f avail Hsc fc Hfc bc q' v Hq' Hin) as (q1 & b' & q2 & -> & Hq2 & Hd'). rewrite (sc_unique _ _ _ Hsc fc b b' v Hfc (path_block _ _ _ Hsc _ Hfc _ _ Hp) (path_block _ _ _ Hsc _ Hfc _ _ Hq2) Hd Hd').
      exists q2. split; [done|]. rewrite length_app. cbn. lia.
    - assert (b = bc) as ->; [|by exists q']. apply (sc_unique _ _ _ Hsc fc b bc v Hfc (path_block _ _ _ Hsc _ Hfc _ _ Hp) (path_block _ _ _ Hsc _ Hfc _ _ Hq') Hd).
      destruct Hpt as (_ & Hcc & Hi & _). exists cc. split; [done|]. rewrite Hi. destruct Hin as [?|?]; [by left|right; set_solver]. }
  apply (IH (length q2)) with (p := q2); [lia|done|done|done].
Qed.

(** The constant of a comparison is in the pool. *)
Lemma equates_const T v k p : equates T v k -> path T p -> exists content, is_const ctx k content.
Proof using Hwf.
  intros Heq HpT. destruct (eq_const _ _ _ Heq) as [key Hk]. destruct (region_entered T v k p Heq HpT) as (q & bc & cc & before & cond & after & x & y & q' & _ & (Hb & Hc & Hi & pc & Hcond) & Hxy & _).
  assert (usable ctx k) as Hu; [|unfold usable in Hu; rewrite Hk in Hu; destruct Hu as [content Hcc]; by exists content, key].
  eapply (wf_used _ _ _ _ Hwf bc cc cond pc _ k Hb Hc); [rewrite Hi; set_solver|exact Hcond|]. cbn. destruct Hxy as [[_ ->]|[-> _]]; set_solver.
Qed.
End regions.

(** ** What holds while a function runs *)

Section run.
Context `{IrVm} {Heqv : IrVmEq} (ctx : Context) (f : Function) (fc : FunctionContent) (avail : Block -> gset Value) (Hwf : well_formed ctx f fc avail).
Abbreviation bl := (f_blocks fc).
Abbreviation path := (IrRun.path ctx fc).
Abbreviation at_point := (at_point ctx bl).
Abbreviation in_scope := (in_scope ctx avail).
Abbreviation equates := (equates ctx fc).
Abbreviation dominates := (dominates ctx fc).

(** Instructions that compute a value *)
Definition plain (op : InstOp) : Prop := targets op = [] /\ forall r ty, op <> IRet r ty.

(** The value of [x] is the result of its instruction on the current values of the operands. *)
Definition computed (e : gmap Value Val) (x : Value) (op : InstOp) : Prop :=
  exists vals a w w', mapM (eval ctx e) (get_operands op) = Some vals /\ exec (erase op) vals w = Some (Continues a w') /\ e !! x = Some a.

Definition all_computed (b : Block) (c : BlockContent) (before : list Value) (e : gmap Value Val) : Prop :=
  forall bx cx bfx x afx op, at_point bx cx bfx x afx op -> plain op -> in_scope b c before x -> computed e x op.

Definition all_known (b : Block) (e : gmap Value Val) : Prop := forall T v k, equates T v k -> dominates T b -> eval ctx e v = eval ctx e k.

Definition running (st : State) : Prop :=
  exists p c before, path (cur st) p /\ blocks ctx !! cur st = Some c /\ instructions c = before ++ rest st /\ all_computed (cur st) c before (env st) /\ all_known (cur st) (env st).

(** A step enters a block or computes a value. *)
Lemma step_cases st st1 v l p op : rest st = v :: l -> values ctx !! v = Some (VInstruction p op) -> step ctx st = Some (inl st1) ->
  (exists br, br ∈ targets op /\ enter ctx (env st) (world st) br = Some st1 /\
    forall cond t e, op = IConditionalBranch cond t e -> exists a (b : bool), eval ctx (env st) cond = Some a /\ as_bool a = Some b /\ br = if b then t else e) \/
  (plain op /\ exists vals a w', mapM (eval ctx (env st)) (get_operands op) = Some vals /\ exec (erase op) vals (world st) = Some (Continues a w') /\ st1 = mkState (cur st) l (<[v := a]> (env st)) w').
Proof using.
  clear. intros Hl Hv Hs. unfold step in Hs. rewrite Hl, Hv in Hs.
  destruct op; try (right; split; [by split|]; apply bind_Some in Hs as (vals & Hvals & (e & He & Hs)%bind_Some); destruct e as [a w'|]; [|done]; injection Hs as <-; by exists vals, a, w').
  - left. apply fmap_Some in Hs as (st2 & Hst & [= ->]). eexists. split; [by left|]. done.
  - left. apply bind_Some in Hs as (a & Ha & (b & Hb & (st2 & Hst & [= ->])%fmap_Some)%bind_Some). eexists. split; [|split; [exact Hst|]]; [destruct b; cbn; set_solver|].
    intros cond t e [= <- <- <-]. by exists a, b.
  - exfalso. by apply bind_Some in Hs as (a & Ha & ?).
Qed.

Lemma mapM_eval_ext (e e' : gmap Value Val) l : (forall x, x ∈ l -> eval ctx e' x = eval ctx e x) -> mapM (eval ctx e') l = mapM (eval ctx e) l.
Proof using.
  clear. induction l as [|x l IH]; intros Hl; [done|]. cbn. rewrite (Hl x) by (by left). rewrite IH; [done|]. intros; apply Hl; by right.
Qed.

Lemma computed_keep e e' x op : computed e x op -> e' !! x = e !! x -> (forall r, r ∈ get_operands op -> eval ctx e' r = eval ctx e r) -> computed e' x op.
Proof using. clear. intros (vals & a & w & w' & H1 & H2 & H3) Hx Hr. exists vals, a, w, w'. rewrite Hx. split_and!; [|done|done]. by rewrite (mapM_eval_ext e e'). Qed.

Lemma const_or_not r : (exists content, is_const ctx r content) \/ forall content, ~ is_const ctx r content.
Proof using.
  unfold is_const. destruct (values ctx !! r) as [[|k|]|] eqn:Hr; try (right; intros content (c & Hc & _); congruence).
  destruct (IrConstant.constants (constants ctx) !! k) as [content|] eqn:Hk; [left; exists content, k; done|]. right. intros content (c & Hc & Hcc). congruence.
Qed.

Lemma eval_const_ext (e e' : gmap Value Val) r content : is_const ctx r content -> eval ctx e' r = eval ctx e r.
Proof using. intros (k & Hr & _). unfold eval. by rewrite Hr. Qed.

(** *** Computing a value *)

Lemma computed_insert b p c before u after op e a : path b p -> at_point b c before u after op -> all_computed b c before e ->
  (plain op -> exists vals w w', mapM (eval ctx e) (get_operands op) = Some vals /\ exec (erase op) vals w = Some (Continues a w')) -> all_computed b c (before ++ [u]) (<[u := a]> e).
Proof using Hwf.
  intros Hp Hat Hall Hu bx cx bfx x afx opx Hx Hpl Hsc. pose proof (wf_scoped _ _ _ _ Hwf) as Hscp. pose proof (wf_function _ _ _ _ Hwf) as Hfc.
  assert (values ctx !! u = Some (VInstruction (default 1%positive (match values ctx !! u with Some (VInstruction q _) => Some q | _ => None end)) op)) as Hvu by (destruct Hat as (_ & _ & _ & pu & ->); done).
  destruct (decide (x = u)) as [->|Hne].
  - assert (opx = op) as -> by (destruct Hx as (_ & _ & _ & px & Hpx); congruence). destruct (Hu Hpl) as (vals & w & w' & Hvals & Hex). exists vals, a, w, w'. split_and!; [|done|by rewrite lookup_insert_eq].
    rewrite <- Hvals. apply mapM_eval_ext. intros r Hr. apply eval_insert_ne. intros ->. pose proof (before_fresh ctx f avail Hscp fc Hfc b c before u after op Hat) as (H1 & H2 & _).
    destruct (sc_operands _ _ _ Hscp fc b c before u after op u Hfc Hat Hr) as [(content & k & Hk & _)|[Hin|[Hin|Hin]]]; [congruence| |done|done].
    apply (avail_not_self ctx f avail Hscp fc Hfc b p u Hp Hin). by eapply point_defined.
  - assert (in_scope b c before x) as Hsc' by (destruct Hsc as [?|[?|[?|[?|?%list_elem_of_singleton]%elem_of_app]]]; [by left|by right; left|by right; right; left|by right; right; right|done]).
    apply (computed_keep e); [by eapply Hall|by rewrite lookup_insert_ne|]. intros r Hr. destruct (const_or_not r) as [[content Hk]|Hnc]; [by eapply eval_const_ext|]. apply eval_insert_ne.
    intros <-. eapply (scope_not_killed ctx f avail Hscp fc Hfc bx cx bfx x afx opx r b p c before r after op Hx); [|done|done|done|done|done]. by eapply (sc_operands _ _ _ Hscp fc).
Qed.

Lemma known_insert b p u e (a : Val) : path b p -> defined_in ctx b u -> (forall key, values ctx !! u <> Some (VConstant key)) -> all_known b e -> all_known b (<[u := a]> e).
Proof using Hwf.
  intros Hp Hd Hu Hall T v k Heq Hdom. rewrite !eval_insert_ne; [by apply (Hall T)| |].
  - intros ->. destruct (eq_const _ _ _ _ _ Heq) as [key Hk]. by destruct (Hu key).
  - intros ->. by apply (region_not_defined ctx f fc avail Hwf T u k b p Heq Hdom Hp).
Qed.

(** *** Entering a block *)

Lemma computed_enter b p c before v after op br cs vals e : path b p -> at_point b c before v after op -> br ∈ targets op -> blocks ctx !! br_block br = Some cs ->
  all_computed b c before e -> all_computed (br_block br) cs [] (bind_args (args cs) vals e).
Proof using Hwf.
  intros Hp Hat Hbr Hcs Hall bx cx bfx x afx opx Hx Hpl Hsc. pose proof (wf_scoped _ _ _ _ Hwf) as Hscp. pose proof (wf_function _ _ _ _ Hwf) as Hfc.
  destruct (sc_edges _ _ _ Hscp fc b c before v after op br Hfc Hat Hbr) as [Htb Hav]. pose proof (path_step _ _ b p c before v after op br Hp Hat Hbr) as Hp'.
  assert (exists px, values ctx !! x = Some (VInstruction px opx)) as [px Hvx] by apply Hx.
  assert (x ∉ args cs) as Hxa by (intros Hin; destruct (sc_argument _ _ _ Hscp fc (br_block br) cs x Hfc Htb Hcs Hin) as (? & ? & ? & ?); congruence).
  destruct Hsc as [(content & k & Hk & _)|[Hin|[?|?%elem_of_nil]]]; [congruence| |done|done].
  apply (computed_keep e); [|by apply bind_args_out|].
  - eapply Hall; [exact Hx|done|]. destruct (Hav x Hin) as [?|[?|?]]; [by right; left|by right; right; left|by right; right; right].
  - intros r Hr. destruct (const_or_not r) as [[content Hk]|Hnc]; [by eapply eval_const_ext|]. apply eval_bind_out. intros Hra.
    eapply (avail_not_killed ctx f avail Hscp fc Hfc bx cx bfx x afx opx r (br_block br) (b :: p) Hx); [by eapply (sc_operands _ _ _ Hscp fc)|done|exact Hp'|done|]. exists cs. auto.
Qed.

Lemma known_bind b p c e vals : path b p -> blocks ctx !! b = Some c -> forall T v k, equates T v k -> dominates T b -> eval ctx e v = eval ctx e k -> eval ctx (bind_args (args c) vals e) v = eval ctx (bind_args (args c) vals e) k.
Proof using Hwf.
  intros Hp Hc T v k Heq Hdom Hek. destruct (eq_const _ _ _ _ _ Heq) as [key Hk].
  rewrite (eval_bind_out ctx (args c) vals e v); [|intros Hin; apply (region_not_defined ctx f fc avail Hwf T v k b p Heq Hdom Hp); exists c; auto]. rewrite Hek. unfold eval. by rewrite Hk.
Qed.

(** The comparison that was found true *)
Lemma equal_true e cond p x y a : computed e cond (ICmp PEqual x y) -> values ctx !! cond = Some (VInstruction p (ICmp PEqual x y)) -> eval ctx e cond = Some a -> as_bool a = Some true -> eval ctx e x = eval ctx e y.
Proof using Heqv.
  intros (vals & a' & w & w' & Hvals & Hex & Ha') Hv Ha Ht. rewrite (eval_instruction ctx e cond _ _ Hv), Ha' in Ha. injection Ha as ->. cbn in Hvals.
  destruct (eval ctx e x) as [ax|]; [|done]. destruct (eval ctx e y) as [ay|]; [|done]. cbn in Hvals. injection Hvals as <-. f_equal. by eapply cmp_equal.
Qed.

Lemma known_enter b p c before v after op br cs vals e : path b p -> at_point b c before v after op -> br ∈ targets op -> blocks ctx !! br_block br = Some cs ->
  (forall cond t e', op = IConditionalBranch cond t e' -> exists a (b : bool), eval ctx e cond = Some a /\ as_bool a = Some b /\ br = if b then t else e') ->
  all_computed b c before e -> all_known b e -> all_known (br_block br) (bind_args (args cs) vals e).
Proof using Hwf Heqv.
  intros Hp Hat Hbr Hcs Hcond Hcomp Hall T x k Heq Hdom. pose proof (wf_scoped _ _ _ _ Hwf) as Hsc. pose proof (wf_function _ _ _ _ Hwf) as Hfc.
  pose proof (path_step _ _ b p c before v after op br Hp Hat Hbr) as Hp'. apply (known_bind (br_block br) (b :: p) cs e vals Hp' Hcs T x k Heq Hdom).
  destruct (decide (T = br_block br)) as [HT|HT].
  - destruct (eq_branch _ _ _ _ _ Heq) as (P & cP & body & t & cond & brt & brf & y1 & y2 & pc & HP & He & Hbt & Hbf & Huniq & Hvc & Hxy).
    destruct (point_ends_with _ _ _ _ Hwf _ _ _ _ _ _ _ Hat Hbr) as [-> Heb]. assert (b = P) as -> by (apply Huniq; [apply Hat|]; by exists c, before, v, op, br).
    destruct (ends_with_det _ _ _ _ _ _ _ _ _ _ Heb He) as (-> & -> & -> & <-). destruct (Hcond _ _ _ eq_refl) as (a & bb & Ha & Hb & ->). destruct bb; [|by rewrite HT in Hbf].
    assert (computed e cond (ICmp PEqual y1 y2)) as Hcp.
    { destruct (cond_defined ctx f fc avail Hwf P c before v cond brt brf y1 y2 pc HP Heb Hvc p Hp) as (bc & cc & bfc & afc & q & Hpt & _). eapply Hcomp; [exact Hpt|done|].
      apply (sc_operands _ _ _ Hsc fc P c before v [] _ cond Hfc Hat). cbn. by left. }
    pose proof (equal_true e cond pc y1 y2 a Hcp Hvc Ha Hb) as Hey. by destruct Hxy as [[-> ->]|[-> ->]].
  - apply (Hall T); [done|]. intros q Hq. pose proof (Hdom (b :: q) (path_step _ _ b q c before v after op br Hq Hat Hbr)) as Hin. by apply elem_of_cons in Hin as [?|?].
Qed.

(** ** The invariant *)

Lemma running_step st st1 : running st -> step ctx st = Some (inl st1) -> running st1.
Proof using Hwf Heqv.
  intros (p & c & before & Hp & Hc & Hi & Hcomp & Hall) Hs. destruct st as [b [|v l] e w]; [done|]. cbn [cur rest env world] in *.
  assert (exists pv op, values ctx !! v = Some (VInstruction pv op)) as (pv & op & Hv).
  { unfold step in Hs. cbn [rest] in Hs. destruct (values ctx !! v) as [[]|]; try done. by eexists _, _. }
  assert (at_point b c before v l op) as Hat by (split_and!; [by eapply (path_block _ _ _ (wf_scoped _ _ _ _ Hwf) _ (wf_function _ _ _ _ Hwf))|done|done|by exists pv]).
  destruct (step_cases (mkState b (v :: l) e w) st1 v l pv op eq_refl Hv Hs) as [(br & Hbr & Hen & Hcond)|(Hpl & vals & a & w' & Hvals & Hex & ->)]; cbn [env world cur] in *.
  - unfold enter in Hen. apply bind_Some in Hen as (vals & Hvals & (cs & Hcs & Hen)%bind_Some). case_bool_decide; [|done]. injection Hen as <-. exists (b :: p), cs, []. cbn. split_and!; [|done|done| |].
    + by eapply path_step.
    + by eapply computed_enter.
    + by eapply known_enter.
  - exists p, c, (before ++ [v]). cbn. split_and!; [done|done|by rewrite <- app_assoc| |].
    + eapply computed_insert; [done|exact Hat|done|]. intros _. by exists vals, w, w'.
    + eapply known_insert; [done|by eapply point_defined|congruence|done].
Qed.

Lemma running_start vals w st : start ctx f vals w = Some st -> running st.
Proof using Hwf Heqv.
  unfold start. rewrite (wf_function _ _ _ _ Hwf). cbn. intros (e & He & (c & Hc & Hst)%bind_Some)%bind_Some. case_bool_decide; [|done]. injection Hst as <-. exists [], c, []. cbn.
  pose proof (wf_scoped _ _ _ _ Hwf) as Hsc. pose proof (wf_function _ _ _ _ Hwf) as Hfc. assert (e ∈ bl) as Heb by (destruct bl; [done|]; injection He as ->; by left).
  split_and!; [by constructor|done|done| |].
  - intros bx cx bfx x afx opx (_ & _ & _ & px & Hx) _ [(content & k & Hk & _)|[Hin|[Hin|Hin%elem_of_nil]]]; [congruence| | |done].
    + rewrite (avail_entry ctx f avail Hsc fc Hfc e He) in Hin. set_solver.
    + destruct (sc_argument _ _ _ Hsc fc e c x Hfc Heb Hc Hin) as (? & ? & ? & ?). congruence.
  - intros T v k Heq Hdom. exfalso. specialize (Hdom [] (path_entry _ _ e He)). apply list_elem_of_singleton in Hdom as ->.
    destruct (eq_branch _ _ _ _ _ Heq) as (P & cP & body & t & cond & brt & brf & y1 & y2 & pc & HP & Hen & Hbt & _). pose proof (wf_entry _ _ _ _ Hwf e c He Hc) as Hempty.
    assert (P ∈ preds c) as Hin; [|by rewrite Hempty in Hin]. apply (wf_preds _ _ _ _ Hwf e c P Heb Hc). split; [done|]. apply (edge_targets _ _ _ _ _ _ e Hen). exists brt. split; [by left|done].
Qed.

(** ** The function with the constants *)

(** In the block [b], [g b] replaces values by the constants that they equal. *)
Record propagated (ctx' : Context) (g : Block -> Value -> Value) : Prop := {
  pr_types : types ctx' = types ctx;
  pr_constants : constants ctx' = constants ctx;
  pr_functions : functions ctx' = functions ctx;
  pr_blocks : blocks ctx' = blocks ctx;
  pr_values b c v p op : b ∈ bl -> blocks ctx !! b = Some c -> v ∈ instructions c -> values ctx !! v = Some (VInstruction p op) -> values ctx' !! v = Some (VInstruction p (rename (g b) op));
  pr_kind v : match values ctx !! v with Some (VInstruction _ _) => exists p op, values ctx' !! v = Some (VInstruction p op) | d => values ctx' !! v = d end;
  pr_sound b x : g b x <> x -> exists T, equates T x (g b x) /\ dominates T b /\ exists p, path T p;
}.

Section propagated.
Context (ctx' : Context) (g : Block -> Value -> Value) (Hpr : propagated ctx' g).

Lemma propagated_eval e x : eval ctx' e x = eval ctx e x.
Proof using Hpr. unfold eval. pose proof (pr_kind _ _ Hpr x) as Hk. rewrite (pr_constants _ _ Hpr). destruct (values ctx !! x) as [[]|]; try by rewrite Hk. destruct Hk as (? & ? & ->). done. Qed.

Lemma propagated_same b e x : all_known b e -> eval ctx' e (g b x) = eval ctx e x.
Proof using Hpr.
  intros Hall. rewrite propagated_eval. destruct (decide (g b x = x)) as [->|Hne]; [done|]. destruct (pr_sound _ _ Hpr b x Hne) as (T & Heq & Hdom & _). symmetry. by eapply Hall.
Qed.

Lemma propagated_mapM b e l : all_known b e -> mapM (eval ctx' e) (map (g b) l) = mapM (eval ctx e) l.
Proof using Hpr. intros Hall. induction l as [|x l IH]; [done|]. cbn. by rewrite propagated_same, IH. Qed.

Lemma propagated_enter b e w br : all_known b e -> enter ctx' e w (rename_branch (g b) br) = enter ctx e w br.
Proof using Hpr. intros Hall. unfold enter. cbn [br_args br_block rename_branch]. by rewrite propagated_mapM, (pr_blocks _ _ Hpr). Qed.

Lemma propagated_step st : running st -> step ctx' st = step ctx st.
Proof using Hwf Heqv Hpr.
  intros (p & c & before & Hp & Hc & Hi & _ & Hall). destruct st as [b [|v l] e w]; [done|]. cbn [cur rest env world] in *.
  pose proof (path_block _ _ _ (wf_scoped _ _ _ _ Hwf) _ (wf_function _ _ _ _ Hwf) _ _ Hp) as Hb.
  destruct (sc_instruction _ _ _ (wf_scoped _ _ _ _ Hwf) fc b c v (wf_function _ _ _ _ Hwf) Hb Hc ltac:(rewrite Hi; set_solver)) as (pv & op & Hv).
  pose proof (pr_values _ _ Hpr b c v pv op Hb Hc ltac:(rewrite Hi; set_solver) Hv) as Hv'. destruct (is_control op) eqn:Hcontrol.
  - unfold step. cbn [rest env world cur]. rewrite Hv, Hv'. unfold rename. destruct op; try done; cbn [replace_operands]; rewrite ?replace_branch_total; cbn [mbind Result_bind].
    + by rewrite propagated_enter.
    + rewrite propagated_same by done. destruct (eval ctx e cond_value) as [a|]; [|done]. cbn [mbind option_bind]. destruct (as_bool a) as [[]|]; [| |done]; cbn [mbind option_bind]; by rewrite propagated_enter.
    + by rewrite propagated_same.
  - rewrite (step_plain ctx b v l e w pv op Hv Hcontrol), (step_plain ctx' b v l e w pv _ Hv') by (by rewrite is_control_rename).
    by rewrite get_operands_rename, propagated_mapM, erase_rename.
Qed.

Lemma propagated_run n st : running st -> run ctx' n st = run ctx n st.
Proof using Hwf Heqv Hpr.
  revert st. induction n as [|n IH]; intros st Hst; [done|]. cbn. rewrite propagated_step by done. destruct (step ctx st) as [[st1|]|] eqn:Hs; [|done|done]. apply IH. by eapply running_step.
Qed.

Lemma propagated_refines : refines ctx ctx' f.
Proof using Hwf Heqv Hpr.
  assert (forall vals w, start ctx' f vals w = start ctx f vals w) as Hst by (intros vals w; unfold start; by rewrite (pr_functions _ _ Hpr), (pr_blocks _ _ Hpr)). split.
  - intros vals w o (st & n & Hs & Hr). exists st, n. rewrite Hst, propagated_run; [done|]. by eapply running_start.
  - intros vals w (st & Hs & Hr). exists st. rewrite Hst. split; [done|]. intros n. rewrite propagated_run; [apply Hr|]. by eapply running_start.
Qed.

(** *** It is well formed *)

Lemma propagated_point b c before v after op' : IrRun.at_point ctx' bl b c before v after op' -> exists op, at_point b c before v after op /\ op' = rename (g b) op.
Proof using Hwf Heqv Hpr.
  intros (Hb & Hc & Hi & p & Hv). rewrite (pr_blocks _ _ Hpr) in Hc.
  destruct (sc_instruction _ _ _ (wf_scoped _ _ _ _ Hwf) fc b c v (wf_function _ _ _ _ Hwf) Hb Hc ltac:(rewrite Hi; set_solver)) as (pv & op & Hop).
  pose proof (pr_values _ _ Hpr b c v pv op Hb Hc ltac:(rewrite Hi; set_solver) Hop) as Hv'. rewrite Hv in Hv'. injection Hv' as -> ->. exists op. split; [|done]. split_and!; [done|done|done|by exists pv].
Qed.

Lemma propagated_const x content : is_const ctx x content -> is_const ctx' x content.
Proof using Hpr. intros (k & Hx & Hk). exists k. rewrite (pr_constants _ _ Hpr). split; [|done]. pose proof (pr_kind _ _ Hpr x) as Hkind. by rewrite Hx in Hkind. Qed.

Lemma propagated_scoped : scoped ctx' f avail.
Proof using Hwf Heqv Hpr.
  pose proof (wf_scoped _ _ _ _ Hwf) as Hsc. pose proof (wf_function _ _ _ _ Hwf) as Hfc. assert (functions ctx' !! f = Some fc) as Hfc' by (by rewrite (pr_functions _ _ Hpr)).
  assert (forall fc0, functions ctx' !! f = Some fc0 -> fc0 = fc) as Hsame by (intros; congruence). split.
  - destruct (sc_function _ _ _ Hsc) as (fc0 & e & Hf0 & ?). exists fc0, e. by rewrite (pr_functions _ _ Hpr).
  - intros fc0 b ->%Hsame Hb. rewrite (pr_blocks _ _ Hpr). by apply (sc_block _ _ _ Hsc fc b Hfc).
  - intros fc0 b c v ->%Hsame Hb Hc Hv. rewrite (pr_blocks _ _ Hpr) in Hc. destruct (sc_instruction _ _ _ Hsc fc b c v Hfc Hb Hc Hv) as (p & op & Hop). pose proof (pr_kind _ _ Hpr v) as Hk. by rewrite Hop in Hk.
  - intros fc0 b c v ->%Hsame Hb Hc Hv. rewrite (pr_blocks _ _ Hpr) in Hc. destruct (sc_argument _ _ _ Hsc fc b c v Hfc Hb Hc Hv) as (b' & i & ty & Hop). pose proof (pr_kind _ _ Hpr v) as Hk. rewrite Hop in Hk. by exists b', i, ty.
  - intros fc0 b b' x ->%Hsame Hb Hb' Hd Hd'. apply (sc_unique _ _ _ Hsc fc b b' x Hfc Hb Hb'); unfold defined_in in *; by rewrite (pr_blocks _ _ Hpr) in *.
  - intros fc0 b c before v after op' x ->%Hsame Hat Hx. destruct (propagated_point _ _ _ _ _ _ Hat) as (op & Hat0 & ->). rewrite get_operands_rename in Hx. apply list_elem_of_fmap in Hx as (y & -> & Hy).
    destruct (decide (g b y = y)) as [->|Hne].
    + destruct (sc_operands _ _ _ Hsc fc b c before v after op y Hfc Hat0 Hy) as [[content Hk]|?]; [|by right]. left. exists content. by apply propagated_const.
    + destruct (pr_sound _ _ Hpr b y Hne) as (T & Heq & Hdom & p & HpT). destruct (equates_const ctx f fc avail Hwf T y (g b y) p Heq HpT) as [content Hk]. left. exists content. by apply propagated_const.
  - intros fc0 b c before v after op' br ->%Hsame Hat Hbr. destruct (propagated_point _ _ _ _ _ _ Hat) as (op & Hat0 & ->). rewrite targets_rename in Hbr. apply list_elem_of_fmap in Hbr as (br0 & -> & Hbr0).
    apply (sc_edges _ _ _ Hsc fc b c before v after op br0 Hfc Hat0 Hbr0).
Qed.

Lemma propagated_ends_with b c body t op : b ∈ bl -> ends_with ctx b c body t op -> ends_with ctx' b c body t (rename (g b) op).
Proof using Hwf Heqv Hpr.
  intros Hb (Hc & Hi & (p & Hv) & Ht). split_and!; [by rewrite (pr_blocks _ _ Hpr)|done| |by rewrite terminator_rename]. exists p. apply (pr_values _ _ Hpr b c); [done|done|rewrite Hi; set_solver|done].
Qed.

Lemma propagated_edge b x : b ∈ bl -> edge ctx' b x <-> edge ctx b x.
Proof using Hwf Heqv Hpr.
  intros Hb. destruct (wf_block _ _ _ _ Hwf b Hb) as (c & body & t & op & He & _). rewrite (edge_blocks _ _ _ _ _ _ x He), (edge_blocks _ _ _ _ _ _ x (propagated_ends_with _ _ _ _ _ Hb He)).
  by rewrite targets_rename, map_map.
Qed.

Lemma propagated_well_formed : well_formed ctx' f fc avail.
Proof using Hwf Heqv Hpr.
  split.
  - rewrite (pr_functions _ _ Hpr). apply (wf_function _ _ _ _ Hwf).
  - apply propagated_scoped.
  - intros b c Hb Hc. rewrite (pr_blocks _ _ Hpr) in Hc. destruct (wf_terminator _ _ _ _ Hwf b c Hb Hc) as (body & t & op & He & Hbody). exists body, t, (rename (g b) op). split; [by apply propagated_ends_with|].
    intros u p o Hu Ho. destruct He as (_ & Hi & _). destruct (sc_instruction _ _ _ (wf_scoped _ _ _ _ Hwf) fc b c u (wf_function _ _ _ _ Hwf) Hb Hc ltac:(rewrite Hi; set_solver)) as (pu & ou & Hou).
    rewrite (pr_values _ _ Hpr b c u pu ou Hb Hc ltac:(rewrite Hi; set_solver) Hou) in Ho. injection Ho as <- <-. rewrite terminator_rename. by eapply Hbody.
  - intros b c p Hb Hc. rewrite (pr_blocks _ _ Hpr) in Hc. rewrite (wf_preds _ _ _ _ Hwf b c p Hb Hc). split; intros [? ?]; split; try done; by apply propagated_edge.
  - intros e c He Hc. rewrite (pr_blocks _ _ Hpr) in Hc. by apply (wf_entry _ _ _ _ Hwf e c).
  - intros b c body t op' br Hb He Hbr. pose proof He as (Hc & Hi & _). rewrite (pr_blocks _ _ Hpr) in Hc |- *. destruct (wf_terminator _ _ _ _ Hwf b c Hb Hc) as (body0 & t0 & op & He0 & _).
    destruct (ends_with_det _ _ _ _ _ _ _ _ _ _ (propagated_ends_with _ _ _ _ _ Hb He0) He) as (_ & -> & -> & ->). rewrite targets_rename in Hbr. apply list_elem_of_fmap in Hbr as (br0 & -> & Hbr0).
    destruct (wf_arity _ _ _ _ Hwf b c body0 t0 op br0 Hb He0 Hbr0) as (c' & Hc' & Hlen). exists c'. cbn. by rewrite length_map.
  - intros b c i x Hb Hc Hx. rewrite (pr_blocks _ _ Hpr) in Hc. destruct (wf_args _ _ _ _ Hwf b c i x Hb Hc Hx) as [ty Hty]. exists ty. pose proof (pr_kind _ _ Hpr x) as Hk. by rewrite Hty in Hk.
  - intros b c v p op' x Hb Hc Hv Hop Hx. rewrite (pr_blocks _ _ Hpr) in Hc. destruct (sc_instruction _ _ _ (wf_scoped _ _ _ _ Hwf) fc b c v (wf_function _ _ _ _ Hwf) Hb Hc Hv) as (pv & op & Hopv).
    rewrite (pr_values _ _ Hpr b c v pv op Hb Hc Hv Hopv) in Hop. injection Hop as <- <-. rewrite get_operands_rename in Hx. apply list_elem_of_fmap in Hx as (y & -> & Hy).
    apply (usable_keep ctx); [|apply (pr_constants _ _ Hpr)|intros b0 c0 Hc0; exists c0; by rewrite (pr_blocks _ _ Hpr)|apply (pr_kind _ _ Hpr)].
    destruct (decide (g b y = y)) as [->|Hne]; [by apply (wf_used _ _ _ _ Hwf b c v pv op y)|]. destruct (pr_sound _ _ Hpr b y Hne) as (T & Heq & Hdom & q & HpT).
    destruct (equates_const ctx f fc avail Hwf T y (g b y) q Heq HpT) as (content & key & Hk & Hkk). unfold usable. rewrite Hk. by eexists.
Qed.
End propagated.
End run.

(** ** Finding the regions *)

Section find.
Context (ctx : Context) (f : Function) (fc : FunctionContent) (avail : Block -> gset Value) (Hwf : well_formed ctx f fc avail).
Context (Hclosed : forall v p op x, values ctx !! v = Some (VInstruction p op) -> x ∈ get_operands op -> is_Some (values ctx !! x)).
Abbreviation bl := (f_blocks fc).

Definition regions_ok (regions : Regions) : Prop := forall T v k, regions !! T = Some (v, k) -> equates ctx fc T v k.

Lemma region_of_Ok regions b : b ∈ bl -> regions_ok regions -> exists regions', region_of ctx regions b = Ok regions' /\ regions_ok regions'.
Proof using Hwf Hclosed.
  intros Hb Hok. destruct (wf_block _ _ _ _ Hwf b Hb) as (c & body & t & op & He & _). unfold region_of. rewrite (ends_with_terminator _ _ _ _ _ _ He). next_step. unfold expect_some at 1. next_step. cbn [snd]. destruct op; try by exists regions.
  assert (is_Some (values ctx !! cond_value)) as [d Hd] by (destruct He as (_ & _ & (p & Hv) & _); apply (Hclosed t p _ cond_value Hv); cbn; by left).
  unfold get_instruction, value_datum, index, expect_some. rewrite Hd. next_step. destruct d as [| |p op]; try by exists regions. destruct op; try by exists regions.
  match type of Hd with _ = Some (VInstruction _ (ICmp ?pr ?x ?y)) => rename pr into pred0, x into v1, y into v2 end.
  case_bool_decide as Hne; [|by exists regions]. destruct pred0; try by exists regions. cbn [andb].
  destruct (Hclosed cond_value p _ v1 Hd) as [d1 Hd1]; [cbn; by left|]. destruct (Hclosed cond_value p _ v2 Hd) as [d2 Hd2]; [cbn; right; by left|].
  unfold is_constant, value_datum, index, expect_some. rewrite Hd1. next_step. rewrite Hd2. next_step. set (c1 := match d1 with VConstant _ => true | _ => false end). set (c2 := match d2 with VConstant _ => true | _ => false end).
  destruct (xorb c1 c2) eqn:Hx; [|by exists regions]. destruct (wf_arity _ _ _ _ Hwf b c body t _ true_block Hb He ltac:(by left)) as (ct & Hct & _).
  unfold num_predecessors. rewrite (block_content_Ok _ _ _ Hct). next_step. eexists. split; [done|]. destruct (size (preds ct) =? 1)%nat eqn:Hsz; [|done].
  intros T v k HT. apply lookup_insert_Some in HT as [[<- Heq]|[_ HT]]; [|by apply Hok].
  assert (br_block true_block ∈ bl) as Htb by (eapply edge_block; [exact Hwf|exact Hb|]; apply (edge_targets _ _ _ _ _ _ _ He); exists true_block; split; [by left|done]).
  assert (forall b', b' ∈ bl -> edge ctx b' (br_block true_block) -> b' = b) as Huniq.
  { apply Nat.eqb_eq, size_1_elem_of in Hsz as [z Hz]. assert (forall b', b' ∈ bl -> edge ctx b' (br_block true_block) -> b' = z) as Hall.
    { intros b' Hb' Hed. assert (b' ∈ preds ct) as Hin by (by apply (wf_preds _ _ _ _ Hwf _ ct b' Htb Hct)). set_solver. }
    intros b' Hb' Hed. rewrite (Hall b' Hb' Hed). symmetry. apply Hall; [done|]. apply (edge_targets _ _ _ _ _ _ _ He). exists true_block. split; [by left|done]. }
  assert (forall x y, (v = x /\ k = y /\ ((v1 = x /\ v2 = y) \/ (v1 = y /\ v2 = x)) /\ (exists key, values ctx !! y = Some (VConstant key)) /\ forall key, values ctx !! x <> Some (VConstant key)) -> equates ctx fc (br_block true_block) v k) as Hmk.
  { intros x y (-> & -> & Hxy & Hk & Hv). split; [|done|done|done]. exists b, c, body, t, cond_value, true_block, false_block, v1, v2, p. split_and!; try done. }
  destruct c1 eqn:Hc1; injection Heq as <- <-.
  - apply (Hmk v2 v1). assert (c2 = false) as Hc2 by (by destruct c2). split_and!; [done|done|by right| |].
    + unfold c1 in Hc1. destruct d1; try done. by eexists.
    + intros key Hkey. unfold c2 in Hc2. rewrite Hd2 in Hkey. by injection Hkey as ->.
  - apply (Hmk v1 v2). assert (c2 = true) as Hc2 by (by destruct c2). split_and!; [done|done|by left| |].
    + unfold c2 in Hc2. destruct d2; try done. by eexists.
    + intros key Hkey. unfold c1 in Hc1. rewrite Hd1 in Hkey. by injection Hkey as ->.
Qed.

Lemma find_regions_Ok l regions : (forall b, b ∈ l -> b ∈ bl) -> regions_ok regions -> exists regions', fold_ok (region_of ctx) regions l = Ok regions' /\ regions_ok regions'.
Proof using Hwf Hclosed.
  revert regions. induction l as [|b l IH]; intros regions Hl Hok; [by exists regions|]. cbn [fold_ok]. destruct (region_of_Ok regions b) as (r1 & -> & Hok1); [apply Hl; by left|done|]. next_step.
  apply IH; [|done]. intros; apply Hl; by right.
Qed.
End find.

(** ** The walk over the dominator tree *)

Section walk.
Context (ctx : Context) (f : Function) (fc : FunctionContent) (avail : Block -> gset Value) (Hwf : well_formed ctx f fc avail).
Abbreviation bl := (f_blocks fc).
Abbreviation path := (IrRun.path ctx fc).
Abbreviation dominates := (dominates ctx fc).
Abbreviation propagated := (propagated ctx fc).

(** What the pass relies on in the tree *)
Record dominator_tree (t : DomTree) (root : Block) : Prop := {
  dt_root : is_Some (IrDominator.values t !! root);
  dt_reached b : is_Some (IrDominator.values t !! b) -> exists p, path b p;
  dt_child b node c : IrDominator.values t !! b = Some node -> c ∈ children node -> is_Some (IrDominator.values t !! c) /\ dominates b c /\ c <> root /\ c <> b;
  dt_nodup b node : IrDominator.values t !! b = Some node -> NoDup (children node);
  dt_parent b b' node node' c : IrDominator.values t !! b = Some node -> IrDominator.values t !! b' = Some node' -> c ∈ children node -> c ∈ children node' -> b = b';
}.

Context (t : DomTree) (root : Block) (Ht : dominator_tree t root) (regions : Regions) (Hreg : regions_ok ctx fc regions).
Abbreviation nodes := (IrDominator.values t).

(** *** One block *)

Definition substitute (m : gmap Value Value) (x : Value) : Value := default x (m !! x).

Lemma substitute_Ok (m : gmap Value Value) : (forall x k, m !! x = Some k -> m !! k = None) -> forall op, InstOp_replace_values m op = Ok (rename (substitute m) op).
Proof using.
  clear. intros Hm op. unfold InstOp_replace_values. rewrite <- replace_operands_total. apply replace_operands_ext. intros x. unfold substitute.
  destruct (m !! x) as [k|] eqn:Hx; cbn; [|by destruct (size m); cbn; rewrite Hx]. destruct (size m) as [|n] eqn:Hs; [apply map_size_empty_inv in Hs; by rewrite Hs in Hx|].
  cbn. rewrite Hx. by destruct n; cbn; rewrite (Hm x k Hx).
Qed.

Lemma substitute_idem (m : gmap Value Value) x : (forall x k, m !! x = Some k -> m !! k = None) -> substitute m (substitute m x) = substitute m x.
Proof using. clear. intros Hm. unfold substitute. destruct (m !! x) as [k|] eqn:Hx; cbn; [by rewrite (Hm x k Hx)|by rewrite Hx]. Qed.

Lemma propagate_block ctx' (g : Block -> Value -> Value) b c (m : gmap Value Value) : propagated ctx' g -> b ∈ bl -> blocks ctx !! b = Some c -> (forall x, g b x = x) ->
  (forall x k, m !! x = Some k -> exists T, equates ctx fc T x k /\ dominates T b /\ exists p, path T p) ->
  exists ctx'', Block_replace_values ctx' b m = Ok ctx'' /\ propagated ctx'' (fun b' => if decide (b' = b) then substitute m else g b').
Proof using Hwf.
  intros Hpr Hb Hc Hid Hm. pose proof (wf_scoped _ _ _ _ Hwf) as Hsc. pose proof (wf_function _ _ _ _ Hwf) as Hfc. assert (forall x k, m !! x = Some k -> m !! k = None) as Hend.
  { intros x k Hx. destruct (m !! k) as [k'|] eqn:Hk; [|done]. exfalso. destruct (Hm x k Hx) as (T & Heq & _). destruct (Hm k k' Hk) as (T' & Heq' & _).
    destruct (eq_const _ _ _ _ _ Heq) as [key Hkey]. by destruct (eq_variable _ _ _ _ _ Heq' key). }
  pose proof (fun x => substitute_idem m x Hend) as Hidem. unfold Block_replace_values. rewrite (block_content_Ok _ b c) by (by rewrite (pr_blocks _ _ _ _ Hpr)). next_step.
  assert (forall u, u ∈ instructions c -> exists p op, values ctx !! u = Some (VInstruction p op)) as Hins by (intros u Hu; by apply (sc_instruction _ _ _ Hsc fc b c u Hfc Hb Hc)).
  rewrite (replace_list_Ok m (substitute m) (substitute_Ok m Hend)).
  2: { intros u Hu. destruct (Hins u Hu) as (p & op & Hv). rewrite (pr_values _ _ _ _ Hpr b c u p op Hb Hc Hu Hv). by eexists. }
  eexists. split; [done|]. split; cbn; try apply Hpr.
  - intros b' c' v p op Hb' Hc' Hv Hop. rewrite (rename_values_lookup (substitute m) Hidem), (pr_values _ _ _ _ Hpr b' c' v p op Hb' Hc' Hv Hop). destruct (decide (b' = b)) as [->|Hne].
    + rewrite Hc in Hc'. injection Hc' as <-. rewrite bool_decide_true by done. cbn. by rewrite (rename_id op (g b)).
    + rewrite bool_decide_false; [done|]. intros Hin. apply Hne. apply (sc_unique _ _ _ Hsc fc b' b v Hfc Hb' Hb); [exists c'; auto|exists c; auto].
  - intros v. rewrite (rename_values_lookup (substitute m) Hidem). pose proof (pr_kind _ _ _ _ Hpr v) as Hk. destruct (values ctx !! v) as [[| |p0 op0]|].
    + rewrite Hk. by case_bool_decide.
    + rewrite Hk. by case_bool_decide.
    + destruct Hk as (p & op & ->). case_bool_decide; cbn; by eexists _, _.
    + rewrite Hk. by case_bool_decide.
  - intros b' x. destruct (decide (b' = b)) as [->|Hne]; [|apply (pr_sound _ _ _ _ Hpr)]. unfold substitute. destruct (m !! x) as [k|] eqn:Hx; [|done]. intros _. by apply Hm.
Qed.

Lemma propagated_start : propagated ctx (fun _ x => x).
Proof using. split; try done. - intros b c v p op _ _ _ ->. by rewrite rename_id. - intros v. destruct (values ctx !! v) as [[]|]; try done. by eexists _, _. Qed.

(** *** The stack *)

(** The block is the root, or the child that was chosen last. *)
Definition linked (b : Block) (s : list (Block * nat)) : Prop :=
  match s with [] => b = root | (b', n') :: _ => exists node' j, nodes !! b' = Some node' /\ n' = S j /\ children node' !! j = Some b end.

Fixpoint stack_ok (s : list (Block * nat)) : Prop :=
  match s with [] => True | (b, n) :: s' => is_Some (nodes !! b) /\ (forall T, T ∈ s'.*1 -> dominates T b) /\ linked b s' /\ stack_ok s' end.

(** The blocks of [D] were rewritten, and those of the stack are among them. *)
Record visited (D : gset Block) (s : list (Block * nat)) (ctx' : Context) (m : gmap Value Value) (g : Block -> Value -> Value) : Prop := {
  vs_stack : stack_ok s;
  vs_nodup : NoDup s.*1;
  vs_propagated : propagated ctx' g;
  vs_new b x : b ∉ D -> g b x = x;
  vs_nodes b : b ∈ D -> is_Some (nodes !! b);
  vs_parent b node c : nodes !! b = Some node -> c ∈ children node -> c ∈ D -> b ∈ D;
  vs_done b : b ∈ s.*1 -> b ∈ D;
  vs_todo b n node i c : (b, n) ∈ s -> nodes !! b = Some node -> (n <= i)%nat -> children node !! i = Some c -> c ∉ D;
  vs_map v k : m !! v = Some k -> exists T, T ∈ s.*1 /\ regions !! T = Some (v, k);
}.

(** The next block to rewrite *)
Record next_block (D : gset Block) (s : list (Block * nat)) (b : Block) : Prop := {
  nx_node : is_Some (nodes !! b);
  nx_new : b ∉ D;
  nx_linked : linked b s;
  nx_dominated T : T ∈ s.*1 -> dominates T b;
}.

Lemma node_block b : is_Some (nodes !! b) -> b ∈ bl /\ exists c, blocks ctx !! b = Some c.
Proof using Hwf Ht.
  intros Hb. destruct (dt_reached _ _ Ht b Hb) as [p Hp]. pose proof (path_block _ _ _ (wf_scoped _ _ _ _ Hwf) _ (wf_function _ _ _ _ Hwf) _ _ Hp) as Hin. split; [done|].
  destruct (sc_block _ _ _ (wf_scoped _ _ _ _ Hwf) fc b (wf_function _ _ _ _ Hwf) Hin) as (c & Hc & _). by exists c.
Qed.

Definition entered (b : Block) (m : gmap Value Value) : gmap Value Value := match regions !! b with Some r => <[r.1 := r.2]> m | None => m end.

Lemma visit_block D s ctx' m g b : visited D s ctx' m g -> next_block D s b ->
  exists ctx'' g', Block_replace_values ctx' b (entered b m) = Ok ctx'' /\ visited ({[b]} ∪ D) ((b, O) :: s) ctx'' (entered b m) g'.
Proof using Hwf Ht Hreg.
  intros [Hs Hnd Hpr Hnew Hnod Hpar Hdone Htodo Hmap] [Hnode Hb Hlink Hdom]. destruct (node_block b Hnode) as (Hbl & c & Hc).
  assert (forall v k, entered b m !! v = Some k -> exists T, T ∈ b :: s.*1 /\ regions !! T = Some (v, k)) as Hmap'.
  { intros v k. unfold entered. destruct (regions !! b) as [[v0 k0]|] eqn:Hr; cbn; [intros [[<- <-]|[_ Hv]]%lookup_insert_Some; [exists b; split; [by left|done]|]|intros Hv]; destruct (Hmap v k Hv) as (T & ? & ?); exists T; (split; [by right|done]). }
  destruct (propagate_block ctx' g b c (entered b m) Hpr Hbl Hc (fun x => Hnew b x Hb)) as (ctx'' & Heq & Hpr').
  { intros x k Hx. destruct (Hmap' x k Hx) as (T & HT & Hr). exists T. split; [by apply Hreg|]. apply elem_of_cons in HT as [->|HT].
    - split; [apply dominates_refl|]. by apply (dt_reached _ _ Ht).
    - split; [by apply Hdom|]. by apply (dt_reached _ _ Ht), Hnod, Hdone. }
  exists ctx'', (fun b' => if decide (b' = b) then substitute (entered b m) else g b'). split; [done|]. split; cbn; try done.
  - constructor; [|done]. intros Hin. by apply Hb, Hdone.
  - intros b' x Hb'. rewrite decide_False by set_solver. apply Hnew. set_solver.
  - intros b' [->%elem_of_singleton|Hb']%elem_of_union; [done|by apply Hnod].
  - intros b' node c' Hn Hc' [->%elem_of_singleton|Hin]%elem_of_union; [|apply elem_of_union; right; by eapply Hpar]. apply elem_of_union. right. destruct s as [|[b1 n1] s].
    + cbn in Hlink. subst b. destruct (dt_child _ _ Ht b' node root Hn Hc') as (_ & _ & ? & _). done.
    + destruct Hlink as (node1 & j & Hn1 & -> & Hj). apply list_elem_of_lookup_2 in Hj. rewrite (dt_parent _ _ Ht b' b1 node node1 b Hn Hn1 Hc' Hj). apply Hdone. by left.
  - intros b' [->|Hb']%elem_of_cons; apply elem_of_union; [left; by apply elem_of_singleton|right; by apply Hdone].
  - intros b' n node i c' [Heq'|Hin]%elem_of_cons Hn Hi Hci [->%elem_of_singleton|Hc']%elem_of_union.
    + injection Heq' as -> ->. destruct (dt_child _ _ Ht b node b Hn ltac:(by eapply list_elem_of_lookup_2)) as (_ & _ & _ & ?). done.
    + injection Heq' as -> ->. apply Hb. eapply (Hpar b node c'); [done|by eapply list_elem_of_lookup_2|done].
    + destruct s as [|[b1 n1] s']; [by apply elem_of_nil in Hin|]. destruct Hlink as (node1 & j & Hn1 & -> & Hj). pose proof (list_elem_of_lookup_2 _ _ _ Hj) as Hj1. pose proof (list_elem_of_lookup_2 _ _ _ Hci) as Hci1.
      pose proof (dt_parent _ _ Ht b' b1 node node1 b Hn Hn1 Hci1 Hj1) as ->. rewrite Hn in Hn1. injection Hn1 as <-. pose proof (NoDup_lookup _ _ _ _ (dt_nodup _ _ Ht b1 node Hn) Hci Hj) as ->.
      apply elem_of_cons in Hin as [Hin|Hin]; [injection Hin as ->; lia|]. cbn in Hnd. apply NoDup_cons in Hnd as [Hnd _]. apply Hnd, list_elem_of_fmap. by exists (b1, n).
    + by eapply (Htodo b' n node i c').
Qed.

Definition departed (b : Block) (m : gmap Value Value) : gmap Value Value := match regions !! b with Some r => delete r.1 m | None => m end.

Lemma leave_block D b n s ctx' m g : visited D ((b, n) :: s) ctx' m g -> visited D s ctx' (departed b m) g.
Proof using.
  intros [Hs Hnd Hpr Hnew Hnod Hpar Hdone Htodo Hmap]. cbn in Hs, Hnd. apply NoDup_cons in Hnd as [Hb Hnd]. split; try done.
  - by destruct Hs as (_ & _ & _ & ?).
  - intros b' Hb'. apply Hdone. by right.
  - intros b' n' node i c Hin. apply (Htodo b' n' node i c). by right.
  - intros v k Hv. assert (m !! v = Some k /\ forall r, regions !! b = Some r -> r.1 <> v) as [Hmv Hr].
    { unfold departed in Hv. destruct (regions !! b) as [r|]; [|done]. apply lookup_delete_Some in Hv as [? ?]. split; [done|]. by intros r' [= <-]. }
    destruct (Hmap v k Hmv) as (T & HT & HTr). exists T. split; [|done]. cbn in HT. apply elem_of_cons in HT as [->|?]; [|done]. by destruct (Hr _ HTr).
Qed.

Lemma choose_child D b n s ctx' m g node c : visited D ((b, n) :: s) ctx' m g -> nodes !! b = Some node -> children node !! n = Some c ->
  visited D ((b, S n) :: s) ctx' m g /\ next_block D ((b, S n) :: s) c.
Proof using Ht.
  intros [Hs Hnd Hpr Hnew Hnod Hpar Hdone Htodo Hmap] Hn Hc. pose proof (list_elem_of_lookup_2 _ _ _ Hc) as Hin. destruct (dt_child _ _ Ht b node c Hn Hin) as (Hcn & Hdom & _). split.
  - split; try done. intros b' n' node' i c' [Heq|Hin']%elem_of_cons Hn' Hi Hci.
    + injection Heq as -> ->. apply (Htodo b n node' i c'); [by left|done|lia|done].
    + by apply (Htodo b' n' node' i c'); [right|..].
  - split; [done| |by exists node, n|].
    + apply (Htodo b n node n c); [by left|done|lia|done].
    + intros T [->|HT]%elem_of_cons; [done|]. eapply dominates_trans; [|exact Hdom]. by apply Hs.
Qed.

(** What is left to do *)
Definition ready (D : gset Block) (s : list (Block * nat)) (ctx' : Context) (m : gmap Value Value) (g : Block -> Value -> Value) : Prop :=
  match s with (b, O) :: s' => visited D s' ctx' m g /\ next_block D s' b | _ => visited D s ctx' m g end.
Definition pending (s : list (Block * nat)) : nat := match s with (_, O) :: _ => 1 | _ => 0 end.

Lemma visited_size D s ctx' m g : visited D s ctx' m g -> (size D <= size nodes)%nat.
Proof using. intros Hv. rewrite <- (size_dom nodes). apply subseteq_size. intros b Hb. by apply elem_of_dom, (vs_nodes _ _ _ _ _ Hv). Qed.

Lemma next_size D s ctx' m g s' b : visited D s ctx' m g -> next_block D s' b -> (S (size D) <= size nodes)%nat.
Proof using.
  intros Hv Hb. rewrite <- (size_dom nodes). assert (S (size D) = size ({[b]} ∪ D)) as -> by (rewrite size_union, size_singleton; [done|]; intros x Hx%elem_of_singleton; subst x; apply (nx_new _ _ _ Hb)).
  apply subseteq_size. intros x [->%elem_of_singleton|Hx]%elem_of_union; apply elem_of_dom; [apply (nx_node _ _ _ Hb)|by apply (vs_nodes _ _ _ _ _ Hv)].
Qed.

(** Every block is pushed at most once, so the fuel is enough. *)
Lemma ccp_walk_Ok fuel : forall D s ctx' m g, ready D s ctx' m g -> (2 * (size nodes - size D - pending s) + length s <= fuel)%nat ->
  exists ctx'' g', ccp_walk t regions fuel ctx' s m = Ok ctx'' /\ propagated ctx'' g'.
Proof using Hwf Ht Hreg.
  induction fuel as [|fuel IH]; intros D s ctx' m g Hr Hf; (destruct s as [|[b n] s]; [exists ctx', g; split; [done|apply Hr]|]); [cbn in Hf; lia|].
  assert (forall D ctx' m g n, visited D ((b, n) :: s) ctx' m g -> (2 * (size nodes - size D) + length s <= fuel)%nat ->
    exists ctx'' g', (o ← child t b n; match o with Some c => ccp_walk t regions fuel ctx' ((c, O) :: (b, S n) :: s) m | None => ccp_walk t regions fuel ctx' s (departed b m) end) = Ok ctx'' /\ propagated ctx'' g') as Hgo.
  { clear D ctx' m g n Hr Hf. intros D ctx' m g n Hv Hf. destruct (vs_stack _ _ _ _ _ Hv) as ([node Hn] & _). unfold child, IrDominator.index. rewrite Hn. next_step. destruct (children node !! n) as [c|] eqn:Hc.
    - destruct (choose_child D b n s ctx' m g node c Hv Hn Hc) as [Hv' Hnx]. apply (IH D _ _ _ g); [by split|]. pose proof (next_size _ _ _ _ _ _ _ Hv' Hnx). cbn. lia.
    - pose proof (leave_block D b n s ctx' m g Hv) as Hv'. destruct (vs_stack _ _ _ _ _ Hv) as (_ & _ & Hl & _).
      apply (IH D _ _ _ g); destruct s as [|[b1 [|n1]] s1]; try done; [by destruct Hl as (? & ? & _ & ? & _)|cbn in *; lia..]. }
  cbn [ccp_walk]. destruct n as [|n]; cbn [Nat.eqb].
  - destruct Hr as [Hv Hnx]. destruct (visit_block D s ctx' m g b Hv Hnx) as (ctx1 & g1 & Heq & Hv1). unfold entered in Heq, Hv1. rewrite Heq. next_step. cbn [fst snd].
    pose proof (next_size _ _ _ _ _ _ _ Hv Hnx). eapply Hgo; [exact Hv1|]. rewrite size_union, size_singleton by (intros x Hx%elem_of_singleton; subst x; apply (nx_new _ _ _ Hnx)). cbn in Hf. lia.
  - next_step. cbn [fst snd]. eapply Hgo; [exact Hr|]. cbn in Hf. lia.
Qed.
End walk.

(** ** The pass, on a dominator tree *)

Section pass.
Context `{IrVm} {Heqv : IrVmEq} (ctx : Context) (f : Function) (fc : FunctionContent) (avail : Block -> gset Value) (Hwf : well_formed ctx f fc avail).
Context (Hclosed : forall v p op x, values ctx !! v = Some (VInstruction p op) -> x ∈ get_operands op -> is_Some (values ctx !! x)).

Lemma ccp_Ok t root : head (f_blocks fc) = Some root -> dominator_tree ctx fc t root ->
  exists ctx' modified, ccp ctx t f = Ok (ctx', modified) /\ well_formed ctx' f fc avail /\ refines ctx ctx' f /\ (modified = false -> ctx' = ctx).
Proof using All.
  intros Hroot Ht. unfold ccp, get_entry_block, block_iter, function_content, index, expect_some. rewrite (wf_function _ _ _ _ Hwf). next_step.
  destruct (find_regions_Ok ctx f fc avail Hwf Hclosed (f_blocks fc) ∅) as (regions & -> & Hok); [done|intros T v k HT; by rewrite lookup_empty in HT|]. next_step. rewrite Hroot. next_step.
  case_bool_decide; [exists ctx, false; by split_and!|].
  assert (ready ctx fc t root regions ∅ [(root, O)] ctx ∅ (fun _ x => x)) as Hr.
  { split.
    - split; cbn; try done; [constructor|apply propagated_start|].
      by intros b Hb%elem_of_nil.
    - split; [apply (dt_root _ _ _ _ Ht)|by apply not_elem_of_empty|done|by intros T HT%elem_of_nil]. }
  destruct (ccp_walk_Ok ctx f fc avail Hwf t root Ht regions Hok (2 * size (IrDominator.values t)) ∅ [(root, O)] ctx ∅ _ Hr) as (ctx' & g & -> & Hpr).
  { cbn. rewrite size_empty. assert (size (IrDominator.values t) <> 0)%nat; [|lia]. intros Hz%map_size_empty_inv. destruct (dt_root _ _ _ _ Ht) as [node Hn]. by rewrite Hz, lookup_empty in Hn. }
  next_step. exists ctx', true. split_and!; [done|by eapply propagated_well_formed|by eapply propagated_refines|done].
Qed.
End pass.

(** ** The tree that the analysis computes *)

Section analysis.
Context `{!HashOrder Block} (ctx : Context) (f : Function) (fc : FunctionContent) (avail : Block -> gset Value) (Hwf : well_formed ctx f fc avail).
Abbreviation bl := (f_blocks fc).

(** What the analysis reads of a block *)
Definition branch_of (c : BlockContent) : Terminator :=
  match last (instructions c) with
  | Some v =>
      match values ctx !! v with
      | Some (VInstruction _ (IConditionalBranch _ true_block false_block)) => ConditionalBranch (br_block true_block) (br_block false_block)
      | Some (VInstruction _ (IBranch br)) => Branch (br_block br)
      | _ => NoBranch
      end
  | None => NoBranch
  end.

(** The control-flow graph of the function *)
Definition graph_of : IrDominator.Context :=
  IrDominator.mkContext (map_imap (fun b c => if bool_decide (b ∈ bl) then Some (IrDominator.mkBlock (branch_of c) (hash_iter (preds c))) else None) (blocks ctx)).
Definition blocks_of : IrDominator.Function := IrDominator.mkFunction bl.

Abbreviation gedge := (IrDomTree.edge graph_of).

Lemma graph_block b c : b ∈ bl -> blocks ctx !! b = Some c -> IrDominator.blocks graph_of !! b = Some (IrDominator.mkBlock (branch_of c) (hash_iter (preds c))).
Proof using. intros Hb Hc. cbn. rewrite map_lookup_imap, Hc. cbn. by rewrite bool_decide_true. Qed.

Lemma graph_block_inv b k : IrDominator.blocks graph_of !! b = Some k -> b ∈ bl /\ exists c, blocks ctx !! b = Some c /\ k = IrDominator.mkBlock (branch_of c) (hash_iter (preds c)).
Proof using. cbn. rewrite map_lookup_imap. destruct (blocks ctx !! b) as [c|]; [|done]. cbn. case_bool_decide; [|done]. intros [= <-]. split; [done|]. by exists c. Qed.

Lemma graph_edge a b : gedge a b <-> a ∈ bl /\ edge ctx a b.
Proof using Hwf.
  assert (forall c body t op, a ∈ bl -> ends_with ctx a c body t op -> IrDominator.successors graph_of a = Ok (map br_block (targets op))) as Hsucc.
  { intros c body t op Ha (Hc & Hi & (p & Hv) & Ht). unfold IrDominator.successors. rewrite (graph_block a c Ha Hc). cbn. unfold branch_of. rewrite Hi, last_snoc, Hv. by destruct op. }
  split.
  - intros (l & Hl & Hb). assert (a ∈ bl) as Ha.
    { unfold IrDominator.successors in Hl. destruct (IrDominator.blocks graph_of !! a) as [k|] eqn:Hk; [|done]. by apply graph_block_inv in Hk as [? _]. }
    split; [done|]. destruct (wf_block _ _ _ _ Hwf a Ha) as (c & body & t & op & He & _). rewrite (Hsucc c body t op Ha He) in Hl. injection Hl as <-. by apply (edge_blocks _ _ _ _ _ _ b He).
  - intros [Ha Hed]. destruct (wf_block _ _ _ _ Hwf a Ha) as (c & body & t & op & He & _). exists (map br_block (targets op)). split; [by eapply Hsucc|]. by apply (edge_blocks _ _ _ _ _ _ b He).
Qed.

Context (root : Block) (Hroot : head bl = Some root).

Lemma graph_well_formed : IrDomTree.well_formed graph_of blocks_of root.
Proof using Hwf Hroot.
  assert (root ∈ bl) as Hrb by (destruct bl; [done|]; injection Hroot as ->; by left).
  assert (forall b, b ∈ bl -> is_Some (IrDominator.blocks graph_of !! b)) as Hex.
  { intros b Hb. destruct (wf_block _ _ _ _ Hwf b Hb) as (c & ? & ? & ? & (Hc & _) & _). rewrite (graph_block b c Hb Hc). by eexists. }
  split.
  - cbn. destruct bl; [done|]. by injection Hroot as ->.
  - by apply Hex.
  - intros a b [Ha Hed]%graph_edge. apply Hex. by eapply edge_block.
  - intros b k p Hk. apply graph_block_inv in Hk as (Hb & c & Hc & ->). cbn. rewrite hash_iter_perm, elem_of_elements, (wf_preds _ _ _ _ Hwf b c p Hb Hc). by rewrite graph_edge.
Qed.

Lemma graph_path l b : IrDomTree.path graph_of root l b <-> exists p, IrRun.path ctx fc b p /\ l = reverse (b :: p).
Proof using Hwf Hroot.
  split.
  - induction 1 as [|l b c Hl IH Hed]; [exists []; split; [by constructor|done]|]. destruct IH as (p & Hp & ->). apply graph_edge in Hed as [Hb Hed].
    apply (edge_point _ _ _ _ Hwf) in Hed as (c0 & before & v & after & op & br & Hat & Hbr & <-); [|done]. exists (b :: p). split; [by eapply path_step|]. by rewrite (reverse_cons (b :: p) (br_block br)).
  - intros (p & Hp & ->). induction Hp as [e He|b p c before v after op br Hp IH Hat Hbr].
    + rewrite Hroot in He. injection He as <-. apply IrDomTree.path_refl.
    + rewrite reverse_cons. eapply IrDomTree.path_step; [exact IH|]. apply graph_edge. split; [apply Hat|]. apply (edge_point _ _ _ _ Hwf); [apply Hat|]. by exists c, before, v, after, op, br.
Qed.

Lemma graph_reachable b : IrDomTree.reachable graph_of root b <-> exists p, IrRun.path ctx fc b p.
Proof using Hwf Hroot. split; [intros (l & (p & Hp & _)%graph_path); by exists p|intros (p & Hp); exists (reverse (b :: p)); apply graph_path; by exists p]. Qed.

Lemma graph_dom a b : IrDomPass.dom graph_of root a b <-> dominates ctx fc a b.
Proof using Hwf Hroot.
  split.
  - intros Hd p Hp. rewrite <- elem_of_reverse. apply Hd, graph_path. by exists p.
  - intros Hd l (p & Hp & ->)%graph_path. apply elem_of_reverse. by apply Hd.
Qed.

Lemma computed_dominator_tree po t : compute_post_order graph_of blocks_of = Ok po -> compute_dom_tree graph_of po blocks_of = Ok t -> dominator_tree ctx fc t root.
Proof using Hwf Hroot.
  intros Hpo Ht. destruct (compute_dom_tree_nodes graph_of blocks_of root po graph_well_formed Hpo) as (s & t' & Ht' & _ & Hnodes & Hnode). rewrite Ht in Ht'. injection Ht' as <-.
  split.
  - apply Hnodes, graph_reachable. exists []. by constructor.
  - intros b Hb. by apply graph_reachable, Hnodes.
  - intros b node c Hb Hc. apply (Hnode b node Hb) in Hc as (Hr & Hne & Hd & _). split_and!; [by apply Hnodes|by apply graph_dom|intros ->|by intros ->].
    apply graph_dom in Hd. specialize (Hd [] (path_entry _ _ root Hroot)). by apply list_elem_of_singleton in Hd.
  - intros b node Hb. by apply (Hnode b node Hb).
  - intros b b' node node' c Hb Hb' Hc Hc'. apply (Hnode b node Hb) in Hc as (Hr & Hne & Hd & Hi). apply (Hnode b' node' Hb') in Hc' as (_ & Hne' & Hd' & Hi').
    apply graph_dom in Hd, Hd'. pose proof (proj1 (graph_dom b b') (Hi' b ltac:(by apply graph_dom) Hne)) as H1. pose proof (proj1 (graph_dom b' b) (Hi b' ltac:(by apply graph_dom) Hne')) as H2.
    assert (exists p, IrRun.path ctx fc b p) as [p Hp] by (apply graph_reachable, Hnodes; by eexists). by eapply dominates_antisym.
Qed.
End analysis.

(** ** The theorem *)

(** Instructions refer to values of the context. *)
Definition operands_exist (ctx : Context) : Prop :=
  forall v p op x, values ctx !! v = Some (VInstruction p op) -> x ∈ get_operands op -> is_Some (values ctx !! x).

(** C15. Conditional constant propagation on the dominator tree of a well-formed function: the
    tree is computed, the pass returns, and the new function is well formed, ends as the
    given one does and runs forever where that one does; no change is reported only when
    there is none. *)
Theorem ccp_correct `{!HashOrder Block} `{IrVm} {Heqv : IrVmEq} ctx f fc avail : well_formed ctx f fc avail -> operands_exist ctx ->
  exists po t ctx' modified, compute_post_order (graph_of ctx fc) (blocks_of fc) = Ok po /\ compute_dom_tree (graph_of ctx fc) po (blocks_of fc) = Ok t /\
    ccp ctx t f = Ok (ctx', modified) /\ well_formed ctx' f fc avail /\
    (forall vals w o, ends ctx f vals w o -> ends ctx' f vals w o) /\ (forall vals w, diverges ctx f vals w -> diverges ctx' f vals w) /\ (modified = false -> ctx' = ctx).
Proof.
  intros Hwf Hclosed. destruct (wf_head _ _ _ _ Hwf) as (root & Hroot & _). pose proof (graph_well_formed ctx f fc avail Hwf root Hroot) as Hg.
  destruct (compute_post_order_Ok _ _ _ Hg) as (po & Hpo & Hok). destruct (compute_dom_tree_Ok _ _ _ _ Hg Hok) as (s & t & Ht & _).
  destruct (ccp_Ok ctx f fc avail Hwf Hclosed t root Hroot (computed_dominator_tree ctx f fc avail Hwf root Hroot po t Hpo Ht)) as (ctx' & m & Heq & Hwf' & [Hends Hdiv] & Hm).
  exists po, t, ctx', m. by split_and!.
Qed.

(** ** On a sample *)

Lemma cfg_operands_exist p : operands_exist (cfg_ctx p).
Proof. intros v q op x Hv Hx. apply cfg_op in Hv. unfold cfg_ops in Hv. members Hv; injection Hv as -> ->; cbn in Hx; members Hx; subst x; by eexists. Qed.

Import SampleVm.
#[local] Existing Instance elements_order.

#[export] Instance vm_eq : IrVmEq.
Proof.
  intros a b w r w' Hex Hr. cbn in Hex. destruct a as [l|l|], b as [l'|l'|]; try done; cbn in Hex; injection Hex as <- <-; destruct (Z.eqb_spec l l') as [->|]; done.
Qed.

Lemma cfg_ctx_equal_ends : @ends vm (cfg_ctx PEqual) 1 [Word 1] [] (@Returned vm (Word 1) []).
Proof.
  assert (match @start vm (cfg_ctx PEqual) 1 [Word 1] [] with Some st => returns (run (cfg_ctx PEqual) 8 st) 1 | None => false end = true) as Hrun by by vm_compute.
  destruct (@start vm (cfg_ctx PEqual) 1 [Word 1] []) as [st|] eqn:Hst; [|done]. exists st, 8%nat. split; [done|]. by apply returns_spec.
Qed.

Lemma ccp_correct_witness : exists t ctx' modified, ccp (cfg_ctx PEqual) t 1 = Ok (ctx', modified) /\ @ends vm ctx' 1 [Word 1] [] (@Returned vm (Word 1) []).
Proof.
  destruct (ccp_correct (H := vm) (cfg_ctx PEqual) 1 cfg_function cfg_avail (cfg_ctx_well_formed PEqual) (cfg_operands_exist PEqual)) as (po & t & ctx' & modified & _ & _ & Heq & _ & Hends & _).
  exists t, ctx', modified. split; [exact Heq|exact (Hends _ _ _ cfg_ctx_equal_ends)].
Defined.

(** The value that the empty block passes is replaced by the constant. *)
Example ccp_replaces :
  (po ← compute_post_order (graph_of (cfg_ctx PEqual) cfg_function) (blocks_of cfg_function);
   t ← compute_dom_tree (graph_of (cfg_ctx PEqual) cfg_function) po (blocks_of cfg_function);
   r ← ccp (cfg_ctx PEqual) t 1;
   get_succ_params r.1 2 4) = Ok [2%positive].
Proof. by vm_compute. Qed.

(** A second comparison of [x] in the region of the first one: after the blocks of the second
    region the walk forgets the first one.  So [x] is not replaced in block 5, which is
    dominated by block 2. *)
Definition nested_values : gmap Value ValueDatum :=
  {[ 1%positive := VArgument 1 0 u64_key; 2%positive := VConstant 1;
     3%positive := VInstruction 1 (ICmp PEqual 1 2);
     4%positive := VInstruction 1 (IConditionalBranch 3 (mkBranch 2 []) (mkBranch 3 []));
     5%positive := VInstruction 2 (ICmp PEqual 1 2);
     6%positive := VInstruction 2 (IConditionalBranch 5 (mkBranch 4 []) (mkBranch 5 []));
     7%positive := VInstruction 3 (IRet 1 u64_key);
     8%positive := VInstruction 4 (IRet 1 u64_key);
     9%positive := VInstruction 5 (IRet 1 u64_key) ]}.

Definition nested_blocks : gmap Block BlockContent :=
  {[ 1%positive := mkBlock 1 [3; 4]%positive [1%positive] ∅; 2%positive := mkBlock 1 [5; 6]%positive [] {[1%positive]};
     3%positive := mkBlock 1 [7]%positive [] {[1%positive]}; 4%positive := mkBlock 1 [8]%positive [] {[2%positive]}; 5%positive := mkBlock 1 [9]%positive [] {[2%positive]} ]}.

Definition nested_function : FunctionContent := mkFunction "h" [("x", 1%positive)] u64_key [1; 2; 3; 4; 5]%positive 1 true false None [].
Definition nested_ctx : Context := mkContext Context_new cfg_pool nested_values nested_blocks {[ 1%positive := nested_function ]} fold_declarations.

Definition operands_after (v : Value) : Result (list Value) :=
  po ← compute_post_order (graph_of nested_ctx nested_function) (blocks_of nested_function);
  t ← compute_dom_tree (graph_of nested_ctx nested_function) po (blocks_of nested_function);
  r ← ccp nested_ctx t 1;
  i ← get_instruction r.1 v;
  Ok (match i with Some (_, op) => get_operands op | None => [] end).

Lemma nested_region_forgotten : operands_after 8 = Ok [2%positive] /\ operands_after 9 = Ok [1%positive].
Proof. by vm_compute. Qed.
