(* ===== verification/IrGlobals.v ===== *)
(** * Dead functions and globals

    [globals_dce] of [sway-ir/src/optimize/dce.rs]: the functions that the entry points call,
    and the global variables that these functions use, are kept in the module. *)

From S2P Require Import Prelude IrTypes IrTypeTheory IrConstant IrCore IrVerify.
Local Open Scope Z_scope.

(** ** The pass *)

(** The functions that were called and the globals that are used *)
Abbreviation Uses := (gset Function * gset GlobalVar)%type.

Section pass.
Context `{!HashOrder Function}.

Definition note_use (context : Context) (s : Uses) (p : Block * Value) : Result Uses :=
  o ← get_instruction context p.2;
  inst ← expect_some o "called `Option::unwrap()` on a `None` value";
  Ok (match inst.2 with
      | ICall f _ => ({[f]} ∪ s.1, s.2)
      | IGetGlobal g => (s.1, {[g]} ∪ s.2)
      | _ => s
      end).

Fixpoint grow_called_function_used_globals_set (fuel : nat) (context : Context) (s : Uses) (caller : Function) : Result Uses :=
  if bool_decide (caller ∈ s.1) then Ok s
  else
    match fuel with
    | O => Err OutOfFuel
    | S fuel' =>
        l ← instruction_iter context caller;
        r ← fold_ok (note_use context) (∅, s.2) l;
        fold_ok (grow_called_function_used_globals_set fuel' context) ({[caller]} ∪ s.1, r.2) (hash_iter r.1)
    end.

Definition is_entry (context : Context) (self : Function) : Result bool := f ← function_content context self; Ok (f_is_entry f).
Definition is_fallback (context : Context) (self : Function) : Result bool := f ← function_content context self; Ok (f_is_fallback f).

Definition set_module (context : Context) (module : Module_) (m : ModuleContent) : Context :=
  let d := declarations context in
  let l := map (fun p => if bool_decide (p.1 = module) then (p.1, m) else p) (modules d) in
  mkContext (types context) (constants context) (values context) (blocks context) (functions context)
    (mkDeclarations l (local_vars d) (global_vars d) (metadata d) (value_metadata d) (new_encoding d)).

Definition remove_function (module : Module_) (context : Context) (function : Function) : Result Context :=
  m ← module_content context module;
  Ok (set_module context module
        (mkModule (m_kind m) (List.filter (fun mod_fn => negb (bool_decide (mod_fn = function))) (m_functions m)) (m_global_variables m) (m_configs m))).

(** The functions that decode configurables *)
Definition decode_fns (m : ModuleContent) : list Function :=
  omap (fun config => match config.2 with ConfigV1 _ _ _ _ decode_fn _ => Some decode_fn | ConfigV0 _ _ _ _ _ => None end) (m_configs m).

Definition is_root (context : Context) (func : Function) : Result bool :=
  e ← is_entry context func; if (e : bool) then Ok true else is_fallback context func.

Fixpoint filter_ok {A} (p : A -> Result bool) (l : list A) : Result (list A) :=
  match l with [] => Ok [] | x :: l' => b ← p x; r ← filter_ok p l'; Ok (if (b : bool) then x :: r else r) end.

(** A function is expanded once. *)
Definition globals_dce (context : Context) (module : Module_) : Result (Context * bool) :=
  m ← module_content context module;
  let grow := grow_called_function_used_globals_set (size (functions context)) context in
  s ← fold_ok grow (∅, ∅) (decode_fns m);
  entries ← filter_ok (is_root context) (m_functions m);
  s ← fold_ok grow s entries;
  let globals := List.filter (fun p => bool_decide (p.2 ∈ s.2)) (m_global_variables m) in
  let modified := negb (length (m_global_variables m) =? length globals)%nat in
  let context := set_module context module (mkModule (m_kind m) (m_functions m) globals (m_configs m)) in
  l ← function_iter context module;
  let dead_fns := List.filter (fun f => negb (bool_decide (f ∈ s.1))) l in
  context ← fold_ok (remove_function module) context dead_fns;
  Ok (context, modified || negb (match dead_fns with [] => true | _ => false end)).
End pass.

(** ** Calls and uses *)

Section calls.
Context `{!HashOrder Function} (ctx : Context).

(** The function has an instruction with the operation. *)
Definition contains (f : Function) (op : InstOp) : Prop :=
  exists fc b c v p, functions ctx !! f = Some fc /\ b ∈ f_blocks fc /\ blocks ctx !! b = Some c /\ v ∈ instructions c /\ values ctx !! v = Some (VInstruction p op).
Definition calls (f g : Function) : Prop := exists l, contains f (ICall g l).
Definition uses (f : Function) (g : GlobalVar) : Prop := contains f (IGetGlobal g).

(** Functions consist of existing blocks of instructions, and call existing functions. *)
Record callable : Prop := {
  ca_block f fc b : functions ctx !! f = Some fc -> b ∈ f_blocks fc -> exists c, blocks ctx !! b = Some c /\ forall v, v ∈ instructions c -> exists p op, values ctx !! v = Some (VInstruction p op);
  ca_calls f g : calls f g -> is_Some (functions ctx !! g);
}.

Context (Hca : callable).

Lemma called_instructions_Ok f fc : functions ctx !! f = Some fc -> exists l, instruction_iter ctx f = Ok l /\
  (forall p, p ∈ l -> exists q op, values ctx !! p.2 = Some (VInstruction q op)) /\ forall op, contains f op <-> exists b v q, (b, v) ∈ l /\ values ctx !! v = Some (VInstruction q op).
Proof using Hca.
  intros Hf. unfold instruction_iter, block_iter, function_content, index, expect_some. rewrite Hf. next_step.
  pose proof (fun b => ca_block Hca f fc b Hf) as Hbl. assert (exists l, concat_traverse (fun block => b ← block_content ctx block; Ok (map (pair block) (instructions b))) (f_blocks fc) = Ok l /\
    forall b v, (b, v) ∈ l <-> b ∈ f_blocks fc /\ exists c, blocks ctx !! b = Some c /\ v ∈ instructions c) as (l & -> & Hl).
  { clear Hf. induction (f_blocks fc) as [|b l IH]; [exists []; split; [done|]; intros b v; split; [by intros ?%elem_of_nil|by intros [?%elem_of_nil _]]|]. destruct (Hbl b ltac:(by left)) as (c & Hc & _).
    destruct IH as (l' & Hl' & Hspec); [intros; apply Hbl; by right|]. cbn [concat_traverse]. assert (block_content ctx b = Ok c) as -> by (unfold block_content, index, expect_some; by rewrite Hc). next_step. rewrite Hl'. next_step. eexists. split; [done|]. intros b' v.
    rewrite elem_of_app, Hspec, list_elem_of_fmap. split.
    - intros [(v' & [= -> ->] & Hv)|[? ?]]; [split; [by left|by exists c]|split; [by right|done]].
    - intros [[->|Hb]%elem_of_cons (c' & Hc' & Hv)]; [left; exists v; split; [done|]; congruence|right; split; [done|by exists c']]. }
  exists l. split; [done|]. split.
  - intros [b v] (Hb & c & Hc & Hv)%Hl. destruct (Hbl b Hb) as (c' & Hc' & Hins). rewrite Hc in Hc'. injection Hc' as <-. by apply Hins.
  - intros op. split.
    + intros (fc' & b & c & v & q & Hf' & Hb & Hc & Hv & Hop). assert (fc' = fc) as -> by congruence. exists b, v, q. split; [|done]. apply Hl. split; [done|by exists c].
    + intros (b & v & q & (Hb & c & Hc & Hv)%Hl & Hop). by exists fc, b, c, v, q.
Qed.

Lemma note_uses l (s : Uses) : (forall p, p ∈ l -> exists q op, values ctx !! p.2 = Some (VInstruction q op)) -> exists s', fold_ok (note_use ctx) s l = Ok s' /\
  (forall g, g ∈ s'.1 <-> g ∈ s.1 \/ exists b v q a, (b, v) ∈ l /\ values ctx !! v = Some (VInstruction q (ICall g a))) /\
  forall g, g ∈ s'.2 <-> g ∈ s.2 \/ exists b v q, (b, v) ∈ l /\ values ctx !! v = Some (VInstruction q (IGetGlobal g)).
Proof using.
  clear. revert s. induction l as [|[b v] l IH]; intros s Hl.
  { exists s. split; [done|]. split; intros g; (split; [by left|]); intros [?|H]; try done; [destruct H as (? & ? & ? & ? & ?%elem_of_nil & _)|destruct H as (? & ? & ? & ?%elem_of_nil & _)]; done. }
  destruct (Hl (b, v) ltac:(by left)) as (q & op & Hv). cbn [snd] in Hv. cbn [fold_ok].
  assert (get_instruction ctx v = Ok (Some (q, op))) as Hgi by (unfold get_instruction, value_datum, index, expect_some; by rewrite Hv). unfold note_use at 2. cbn [snd]. rewrite Hgi. next_step. unfold expect_some at 1. next_step. cbn [snd].
  match goal with |- context [fold_ok (note_use ctx) ?x l] => set (s1 := x); destruct (IH s1) as (s' & -> & H1 & H2); [intros; apply Hl; by right|] end. exists s'. split; [done|].
  assert (forall g, g ∈ s1.1 <-> g ∈ s.1 \/ exists a, op = ICall g a) as E1 by (intros g; subst s1; destruct op; cbn; try (split; [by left|by intros [?|[? ?]]]); set_solver).
  assert (forall g, g ∈ s1.2 <-> g ∈ s.2 \/ op = IGetGlobal g) as E2 by (intros g; subst s1; destruct op; cbn; try (split; [by left|by intros [?|?]]); set_solver).
  split; intros g.
  - rewrite H1, E1. split.
    + intros [[?|[a ->]]|(b' & v' & q' & a & Hin & Hx)]; [by left|right; exists b, v, q, a; split; [by left|done]|right; exists b', v', q', a; split; [by right|done]].
    + intros [?|(b' & v' & q' & a & [Heq|Hin]%elem_of_cons & Hx)]; [by left; left| |right; by exists b', v', q', a]. injection Heq as -> ->. left. right. exists a. congruence.
  - rewrite H2, E2. split.
    + intros [[?| ->]|(b' & v' & q' & Hin & Hx)]; [by left|right; exists b, v, q; split; [by left|done]|right; exists b', v', q'; split; [by right|done]].
    + intros [?|(b' & v' & q' & [Heq|Hin]%elem_of_cons & Hx)]; [by left; left| |right; by exists b', v', q']. injection Heq as -> ->. left. right. congruence.
Qed.

(** ** The search *)

Abbreviation grow := grow_called_function_used_globals_set.

(** The search went from [s] to [s'] through all that the roots call. *)
Record grown (roots : Function -> Prop) (s s' : Uses) : Prop := {
  gr_functions : s.1 ⊆ s'.1;
  gr_globals : s.2 ⊆ s'.2;
  gr_exist f : f ∈ s'.1 -> is_Some (functions ctx !! f);
  gr_roots f : roots f -> f ∈ s'.1;
  gr_reached f : f ∈ s'.1 -> f ∈ s.1 \/ exists r, roots r /\ rtc calls r f;
  gr_closed f : f ∈ s'.1 -> f ∉ s.1 -> (forall g, calls f g -> g ∈ s'.1) /\ forall g, uses f g -> g ∈ s'.2;
  gr_used g : g ∈ s'.2 -> g ∈ s.2 \/ exists f, f ∈ s'.1 /\ uses f g;
}.

Definition enough (fuel : nat) (s : Uses) : Prop := (forall f, f ∈ s.1 -> is_Some (functions ctx !! f)) /\ (size (functions ctx) <= fuel + size s.1)%nat.

Lemma grown_enough fuel roots s s' : enough fuel s -> grown roots s s' -> enough fuel s'.
Proof using. intros [_ Hf] Hg. split; [apply (gr_exist _ _ _ Hg)|]. pose proof (subseteq_size _ _ (gr_functions _ _ _ Hg)). lia. Qed.

Lemma grow_list fuel l s : (forall s f, is_Some (functions ctx !! f) -> enough fuel s -> exists s', grow fuel ctx s f = Ok s' /\ grown (eq f) s s') ->
  (forall f, f ∈ l -> is_Some (functions ctx !! f)) -> enough fuel s -> exists s', fold_ok (grow fuel ctx) s l = Ok s' /\ grown (fun f => f ∈ l) s s'.
Proof using.
  intros Hone. revert s. induction l as [|f l IH]; intros s Hl Hs.
  { exists s. split; [done|]. split; try done; [apply Hs|by intros f ?%elem_of_nil|by left|by left]. }
  cbn [fold_ok]. destruct (Hone s f) as (s1 & -> & G1); [apply Hl; by left|done|]. next_step. destruct (IH s1) as (s2 & -> & G2); [intros; apply Hl; by right|by eapply grown_enough|]. exists s2. split; [done|].
  pose proof (gr_functions _ _ _ G2) as H12. pose proof (gr_globals _ _ _ G2) as H12'. split.
  - etransitivity; [apply (gr_functions _ _ _ G1)|done].
  - etransitivity; [apply (gr_globals _ _ _ G1)|done].
  - apply (gr_exist _ _ _ G2).
  - intros g [->|Hg]%elem_of_cons; [by apply H12, (gr_roots _ _ _ G1)|by apply (gr_roots _ _ _ G2)].
  - intros g Hg. destruct (gr_reached _ _ _ G2 g Hg) as [Hg1|(r & Hr & Hrg)]; [|right; exists r; split; [by right|done]].
    destruct (gr_reached _ _ _ G1 g Hg1) as [?|(r & <- & Hrg)]; [by left|right; exists f; split; [by left|done]].
  - intros g Hg Hn. destruct (decide (g ∈ s1.1)) as [Hg1|Hg1]; [|by apply (gr_closed _ _ _ G2)]. destruct (gr_closed _ _ _ G1 g Hg1 Hn) as [Hc Hu]. split; intros x Hx; [by apply H12, Hc|by apply H12', Hu].
  - intros g Hg. destruct (gr_used _ _ _ G2 g Hg) as [Hg1|?]; [|by right]. destruct (gr_used _ _ _ G1 g Hg1) as [?|(h & Hh & ?)]; [by left|right; exists h; split; [by apply H12|done]].
Qed.

Lemma grow_Ok fuel s f : is_Some (functions ctx !! f) -> enough fuel s -> exists s', grow fuel ctx s f = Ok s' /\ grown (eq f) s s'.
Proof using Hca.
  revert s f. induction fuel as [|fuel IH]; intros s f Hf Hs; cbn [grow_called_function_used_globals_set]; case_bool_decide as Hin.
  1,3: exists s; split; [done|]; split; try done; [apply Hs|by intros g <-|by left|by left].
  - exfalso. destruct Hs as [Hex Hsz]. assert (size ({[f]} ∪ s.1) <= size (functions ctx))%nat as Hle; [|rewrite size_union, size_singleton in Hle by set_solver; lia].
    rewrite <- size_dom. apply subseteq_size. intros g [->%elem_of_singleton|Hg]%elem_of_union; apply elem_of_dom; [done|by apply Hex].
  - destruct Hf as [fc Hf]. destruct (called_instructions_Ok f fc Hf) as (l & -> & Hins & Hcont). next_step. destruct (note_uses l (∅, s.2) Hins) as (r & -> & Hr1 & Hr2). next_step. cbn [fst snd] in Hr1, Hr2.
    assert (forall g, g ∈ r.1 <-> calls f g) as Hcalls by (intros g; rewrite Hr1; split; [intros [?%not_elem_of_empty|(b & v & q & a & ? & ?)]; [done|]; exists a; apply Hcont; by exists b, v, q|intros (a & (b & v & q & ? & ?)%Hcont); right; by exists b, v, q, a]).
    assert (forall g, g ∈ r.2 <-> g ∈ s.2 \/ uses f g) as Huses by (intros g; rewrite Hr2; unfold uses; rewrite Hcont; done).
    destruct (grow_list fuel (hash_iter r.1) ({[f]} ∪ s.1, r.2) IH) as (s' & -> & G).
    { intros g Hg. rewrite hash_iter_perm in Hg. apply elem_of_elements, Hcalls in Hg. by eapply (ca_calls Hca). }
    { destruct Hs as [Hex Hsz]. split; cbn; [intros g [->%elem_of_singleton|Hg]%elem_of_union; [by eexists|by apply Hex]|]. rewrite size_union, size_singleton by set_solver. lia. }
    exists s'. split; [done|]. pose proof (gr_functions _ _ _ G) as H1. pose proof (gr_globals _ _ _ G) as H2. cbn [fst snd] in H1, H2. assert (f ∈ s'.1) as Hfs by set_solver. split.
    + set_solver.
    + intros g Hg. apply H2, Huses. by left.
    + apply (gr_exist _ _ _ G).
    + by intros g <-.
    + intros g Hg. destruct (gr_reached _ _ _ G g Hg) as [Hgs|(h & Hh & Hhg)]; [cbn in Hgs; apply elem_of_union in Hgs as [->%elem_of_singleton|?]; [right; exists f; split; [done|constructor]|by left]|].
      rewrite hash_iter_perm in Hh. apply elem_of_elements, Hcalls in Hh. right. exists f. split; [done|by eapply rtc_l].
    + intros g Hg Hn. destruct (decide (g = f)) as [->|Hne]; [|apply (gr_closed _ _ _ G g Hg); cbn; set_solver]. split; intros x Hx.
      * apply (gr_roots _ _ _ G). rewrite hash_iter_perm. by apply elem_of_elements, Hcalls.
      * apply H2, Huses. by right.
    + intros g Hg. destruct (gr_used _ _ _ G g Hg) as [[?|?]%Huses|?]; [by left|right; by exists f|by right].
Qed.
End calls.

(** ** Modules *)

Lemma find_module (l : list (Module_ * ModuleContent)) module m m' : snd <$> List.find (fun p => bool_decide (p.1 = module)) l = Some m ->
  snd <$> List.find (fun p => bool_decide (p.1 = module)) (map (fun p => if bool_decide (p.1 = module) then (p.1, m') else p) l) = Some m'.
Proof.
  induction l as [|[k x] l IH]; [done|]. cbn. destruct (decide (k = module)) as [->|Hne].
  - rewrite bool_decide_true by done. cbn. by rewrite bool_decide_true.
  - rewrite bool_decide_false by done. cbn. by rewrite bool_decide_false.
Qed.

Lemma set_module_content ctx module m m' : module_content ctx module = Ok m -> module_content (set_module ctx module m') module = Ok m'.
Proof.
  unfold module_content, expect_some. intros Hm. destruct (snd <$> _) as [m0|] eqn:Hf in Hm; [|done]. injection Hm as ->. cbn [declarations modules set_module]. by rewrite (find_module _ _ _ m' Hf).
Qed.

Lemma set_module_twice ctx module m m' : set_module (set_module ctx module m) module m' = set_module ctx module m'.
Proof.
  unfold set_module. cbn. f_equal. f_equal. rewrite map_map. apply map_ext. intros [k x]. cbn. destruct (decide (k = module)) as [->|Hne].
  - rewrite (bool_decide_true (module = module)) by done. cbn. by rewrite bool_decide_true.
  - rewrite (bool_decide_false (k = module)) by done. cbn. by rewrite bool_decide_false.
Qed.

Lemma set_module_same ctx module m : NoDup (modules (declarations ctx)).*1 -> module_content ctx module = Ok m -> set_module ctx module m = ctx.
Proof.
  intros Hnd Hm. unfold set_module. assert (map (fun p => if bool_decide (p.1 = module) then (p.1, m) else p) (modules (declarations ctx)) = modules (declarations ctx)) as ->; [|by destruct ctx as [? ? ? ? ? []]].
  unfold module_content, expect_some in Hm. destruct (snd <$> _) as [m0|] eqn:Hf in Hm; [|done]. injection Hm as ->. induction (modules (declarations ctx)) as [|[k x] l IH]; [done|]. cbn in *. apply NoDup_cons in Hnd as [Hk Hnd].
  destruct (decide (k = module)) as [->|Hne].
  - rewrite bool_decide_true in Hf |- * by done. injection Hf as ->. f_equal. clear IH. induction l as [|[k' x'] l IH]; [done|]. cbn in *. apply not_elem_of_cons in Hk as [Hne Hk]. rewrite bool_decide_false by done. f_equal.
    apply IH; [done|]. by apply NoDup_cons in Hnd as [_ ?].
  - rewrite bool_decide_false in Hf |- * by done. f_equal. by apply IH.
Qed.

Lemma filter_length_same {A} (p : A -> bool) l : length l = length (List.filter p l) -> List.filter p l = l.
Proof.
  induction l as [|x l IH]; [done|]. cbn. destruct (p x); cbn; [intros [= ?]; f_equal; by apply IH|]. intros Hlen. pose proof (List.filter_length_le p l). lia.
Qed.

Lemma remove_functions_Ok ctx module m l : module_content ctx module = Ok m -> exists ctx', fold_ok (remove_function module) ctx l = Ok ctx' /\
  ctx' = match l with [] => ctx | _ => set_module ctx module (mkModule (m_kind m) (List.filter (fun f => negb (bool_decide (f ∈ l))) (m_functions m)) (m_global_variables m) (m_configs m)) end.
Proof.
  revert ctx m. induction l as [|f l IH]; intros ctx m Hm; [by exists ctx|]. cbn [fold_ok]. unfold remove_function at 2. rewrite Hm. next_step.
  set (m1 := mkModule _ _ _ _). destruct (IH (set_module ctx module m1) m1) as (ctx' & -> & Heq); [by eapply set_module_content|]. exists ctx'. split; [done|]. subst ctx'.
  assert (forall k, List.filter (fun f0 => negb (bool_decide (f0 ∈ l))) (List.filter (fun mod_fn => negb (bool_decide (mod_fn = f))) k) = List.filter (fun f0 => negb (bool_decide (f0 ∈ f :: l))) k) as Hfil.
  { intros k. induction k as [|x k IHk]; [done|]. cbn. destruct (decide (x = f)) as [->|Hne].
    - rewrite (bool_decide_true (f = f)), (bool_decide_true (f ∈ f :: l)) by (done || by left). cbn. done.
    - rewrite (bool_decide_false (x = f)) by done. cbn. destruct (decide (x ∈ l)); [rewrite !bool_decide_true by (done || by right)|rewrite !bool_decide_false by (rewrite ?not_elem_of_cons; done)]; cbn; by rewrite IHk. }
  destruct l as [|f' l].
  - subst m1. f_equal. f_equal. rewrite <- Hfil. cbn. by rewrite List.filter_true.
  - rewrite set_module_twice. f_equal. subst m1. cbn [m_kind m_functions m_global_variables m_configs]. by rewrite Hfil.
Qed.

(** ** The theorem *)

Section live.
Context (ctx : Context) (m : ModuleContent).

(** Entry points, fallback functions and decoders of configurables *)
Definition root (f : Function) : Prop :=
  f ∈ decode_fns m \/ (f ∈ m_functions m /\ exists fc, functions ctx !! f = Some fc /\ (f_is_entry fc || f_is_fallback fc) = true).
Definition live (f : Function) : Prop := exists r, root r /\ rtc (calls ctx) r f.
Definition live_global (g : GlobalVar) : Prop := exists f, live f /\ uses ctx f g.
End live.

Lemma roots_Ok ctx l : (forall f, f ∈ l -> is_Some (functions ctx !! f)) ->
  exists l', filter_ok (is_root ctx) l = Ok l' /\ forall f, f ∈ l' <-> f ∈ l /\ exists fc, functions ctx !! f = Some fc /\ (f_is_entry fc || f_is_fallback fc) = true.
Proof.
  induction l as [|f l IH]; intros Hl; [exists []; split; [done|]; intros f; split; [by intros ?%elem_of_nil|by intros [?%elem_of_nil _]]|].
  destruct IH as (l' & Hl' & Hspec); [intros; apply Hl; by right|]. destruct (Hl f ltac:(by left)) as [fc Hf].
  assert (is_root ctx f = Ok (f_is_entry fc || f_is_fallback fc)) as Hr by (unfold is_root, is_entry, is_fallback, function_content, index, expect_some; rewrite Hf; cbn; by destruct (f_is_entry fc)).
  cbn [filter_ok]. rewrite Hr, Hl'. next_step. eexists. split; [done|]. intros g. destruct (f_is_entry fc || f_is_fallback fc) eqn:Hb.
  - rewrite !elem_of_cons, Hspec. split; [intros [->|[? ?]]; [split; [by left|by exists fc]|split; [by right|done]]|intros [[->|?] ?]; [by left|by right]].
  - rewrite elem_of_cons, Hspec. split; [intros [? ?]; split; [by right|done]|]. intros [[->|?] Hx]; [|done]. destruct Hx as (fc' & Hfc' & ?). congruence.
Qed.

Section searched.
Context `{!HashOrder Function} (ctx : Context) (m : ModuleContent) (s1 s2 : Uses) (entries : list Function).
Context (G1 : grown ctx (fun f => f ∈ decode_fns m) (∅, ∅) s1) (G2 : grown ctx (fun f => f ∈ entries) s1 s2).
Context (Hent : forall f, f ∈ entries <-> f ∈ m_functions m /\ exists fc, functions ctx !! f = Some fc /\ (f_is_entry fc || f_is_fallback fc) = true).

Lemma searched_closed f : f ∈ s2.1 -> (forall g, calls ctx f g -> g ∈ s2.1) /\ forall g, uses ctx f g -> g ∈ s2.2.
Proof using G1 G2.
  intros Hf. destruct (decide (f ∈ s1.1)) as [H1|H1]; [|by apply (gr_closed _ _ _ _ G2)]. destruct (gr_closed _ _ _ _ G1 f H1 ltac:(by apply not_elem_of_empty)) as [Hc Hu].
  split; intros g Hg; [by apply (gr_functions _ _ _ _ G2), Hc|by apply (gr_globals _ _ _ _ G2), Hu].
Qed.

Lemma searched_live f : f ∈ s2.1 <-> live ctx m f.
Proof using G1 G2 Hent.
  split.
  - intros Hf. destruct (gr_reached _ _ _ _ G2 f Hf) as [H1|(r & Hr & Hrf)].
    + destruct (gr_reached _ _ _ _ G1 f H1) as [?%not_elem_of_empty|(r & Hr & Hrf)]; [done|]. exists r. split; [by left|done].
    + exists r. split; [right; by apply Hent|done].
  - intros (r & Hr & Hrf). assert (r ∈ s2.1) as Hrs.
    { destruct Hr as [Hr|Hr]; [by apply (gr_functions _ _ _ _ G2), (gr_roots _ _ _ _ G1)|]. by apply (gr_roots _ _ _ _ G2), Hent. }
    clear Hr. induction Hrf as [|r g f Hrg _ IH]; [done|]. apply IH. by apply (proj1 (searched_closed r Hrs)).
Qed.

Lemma searched_globals g : g ∈ s2.2 <-> live_global ctx m g.
Proof using G1 G2 Hent.
  split.
  - intros Hg. destruct (gr_used _ _ _ _ G2 g Hg) as [H1|(f & Hf & Hu)]; [|exists f; split; [by apply searched_live|done]].
    destruct (gr_used _ _ _ _ G1 g H1) as [?%not_elem_of_empty|(f & Hf & Hu)]; [done|]. exists f. split; [by apply searched_live, (gr_functions _ _ _ _ G2)|done].
  - intros (f & Hf%searched_live & Hu). by apply (proj2 (searched_closed f Hf)).
Qed.
End searched.

(** C40. The removal of dead functions and globals returns; the module keeps, in their order,
    exactly the functions that an entry point, a fallback function or a decoder of
    configurables calls, directly or not, and the globals that these use; so a function
    that is kept still finds the functions of the module that it calls.  Nothing else is
    changed, and no change is reported only when there is none. *)
Theorem globals_dce_correct `{!HashOrder Function} ctx module m : callable ctx -> NoDup (modules (declarations ctx)).*1 -> module_content ctx module = Ok m ->
  (forall f, f ∈ m_functions m \/ f ∈ decode_fns m -> is_Some (functions ctx !! f)) ->
  exists ctx' modified m', globals_dce ctx module = Ok (ctx', modified) /\ ctx' = set_module ctx module m' /\ m_configs m' = m_configs m /\
    sublist (m_functions m') (m_functions m) /\ (forall f, f ∈ m_functions m' <-> f ∈ m_functions m /\ live ctx m f) /\
    sublist (m_global_variables m') (m_global_variables m) /\ (forall p, p ∈ m_global_variables m' <-> p ∈ m_global_variables m /\ live_global ctx m p.2) /\
    (forall f g, f ∈ m_functions m' -> calls ctx f g -> g ∈ m_functions m -> g ∈ m_functions m') /\ (modified = false -> ctx' = ctx).
Proof.
  intros Hca Hnd Hm Hex. unfold globals_dce. rewrite Hm. next_step. assert (enough ctx (size (functions ctx)) (∅, ∅)) as He0 by (split; [by intros f ?%not_elem_of_empty|cbn; lia]).
  destruct (grow_list ctx _ (decode_fns m) _ (grow_Ok ctx Hca _) (fun f Hf => Hex f (or_intror Hf)) He0) as (s1 & -> & G1). next_step.
  destruct (roots_Ok ctx (m_functions m)) as (entries & -> & Hent); [intros f Hf; apply Hex; by left|]. next_step.
  destruct (grow_list ctx (size (functions ctx)) entries s1 (grow_Ok ctx Hca _)) as (s2 & -> & G2); [intros f Hf; apply Hex; left; by apply Hent|by eapply grown_enough|]. next_step.
  pose proof (searched_live ctx m s1 s2 entries G1 G2 Hent) as Hlive. pose proof (searched_globals ctx m s1 s2 entries G1 G2 Hent) as Hglob.
  set (globals := List.filter _ (m_global_variables m)). set (m1 := mkModule (m_kind m) (m_functions m) globals (m_configs m)).
  pose proof (set_module_content ctx module m m1 Hm) as Hm1. unfold function_iter. rewrite Hm1. next_step. set (dead := List.filter _ (m_functions m1)).
  destruct (remove_functions_Ok (set_module ctx module m1) module m1 dead Hm1) as (ctx' & -> & Heq). next_step.
  set (m' := mkModule (m_kind m) (List.filter (fun f => negb (bool_decide (f ∈ dead))) (m_functions m)) globals (m_configs m)).
  assert (dead = [] -> List.filter (fun f => negb (bool_decide (f ∈ dead))) (m_functions m) = m_functions m) as Hnone by (intros ->; apply List.filter_true).
  assert (ctx' = set_module ctx module m') as ->.
  { subst ctx'. destruct dead as [|f l] eqn:Hd; [unfold m'; by rewrite Hnone|]. by rewrite set_module_twice. }
  assert (forall f, f ∈ m_functions m' <-> f ∈ m_functions m /\ live ctx m f) as Hfns.
  { intros f. cbn [m' m_functions]. rewrite elem_of_filter_bool, negb_true_iff, bool_decide_eq_false, <- Hlive. unfold dead. rewrite elem_of_filter_bool, negb_true_iff, bool_decide_eq_false. cbn. destruct (decide (f ∈ s2.1)); tauto. }
  eexists _, _, m'. split_and!; [done|done|done|apply filter_sublist|done|apply filter_sublist| | |].
  - intros p. cbn [m' m_global_variables]. unfold globals. by rewrite elem_of_filter_bool, bool_decide_eq_true, Hglob.
  - intros f g Hf Hfg Hg. apply Hfns. split; [done|]. apply Hfns in Hf as (_ & r & Hr & Hrf). exists r. split; [done|]. by eapply rtc_r.
  - intros [Hg%negb_false_iff%Nat.eqb_eq Hd]%orb_false_iff. destruct dead as [|]; [|done]. unfold m'. rewrite Hnone by done. unfold globals in *. rewrite (filter_length_same _ _ Hg).
    assert (mkModule (m_kind m) (m_functions m) (m_global_variables m) (m_configs m) = m) as -> by by destruct m. by apply set_module_same.
Qed.

(** ** A module

    [main] calls [used], which reads the first global and calls itself; nothing calls [unused],
    which calls [used] and reads the second global. *)

#[local] Existing Instance elements_order.

Definition globals_values : gmap Value ValueDatum :=
  {[ 1%positive := VInstruction 1 (ICall 2 []); 2%positive := VInstruction 2 (IGetGlobal 1); 3%positive := VInstruction 2 (ICall 2 []);
     4%positive := VInstruction 3 (ICall 2 []); 5%positive := VInstruction 3 (IGetGlobal 2) ]}.
Definition globals_blocks : gmap Block BlockContent :=
  {[ 1%positive := mkBlock 1 [1]%positive [] ∅; 2%positive := mkBlock 2 [2; 3]%positive [] ∅; 3%positive := mkBlock 3 [4; 5]%positive [] ∅ ]}.
Definition globals_function (name : string) (block : Block) (entry : bool) : FunctionContent := mkFunction name [] 1%positive [block] 1 entry false None [].
Definition globals_functions : gmap Function FunctionContent :=
  {[ 1%positive := globals_function "main" 1 true; 2%positive := globals_function "used" 2 false; 3%positive := globals_function "unused" 3 false ]}.
Definition globals_module (fs : list Function) (gs : list (list string * GlobalVar)) : ModuleContent := mkModule Script fs gs [].
Definition globals_ctx : Context := mkContext Context_new (mkConstants ∅ ∅) globals_values globals_blocks globals_functions
  (mkDeclarations [(1%positive, globals_module [1; 2; 3]%positive [(["a"], 1%positive); (["b"], 2%positive)])] ∅ ∅ ∅ ∅ true).

Lemma globals_op v p op : globals_values !! v = Some (VInstruction p op) -> op ∈ [ICall 2 []; IGetGlobal 1; IGetGlobal 2].
Proof.
  intros Hv. unfold globals_values in Hv. repeat (apply lookup_insert_Some in Hv as [[<- Hv]|[_ Hv]]; [injection Hv as <- <-; set_solver|]).
  apply lookup_singleton_Some in Hv as [<- Hv]. injection Hv as <- <-. set_solver.
Qed.

Lemma globals_ctx_callable : callable globals_ctx.
Proof.
  split.
  - intros f fc b Hf Hb. cbn in Hf. unfold globals_functions in Hf. repeat (apply lookup_insert_Some in Hf as [[<- <-]|[_ Hf]]; [|]); [..|apply lookup_singleton_Some in Hf as [<- <-]];
      apply list_elem_of_singleton in Hb as ->; (eexists; split; [reflexivity|]); intros v Hv; cbn in Hv; repeat (apply elem_of_cons in Hv as [->|Hv]; [eexists _, _; reflexivity|]); by apply elem_of_nil in Hv.
  - intros f g (l & fc & b & c & v & p & _ & _ & _ & _ & Hv). apply globals_op in Hv. repeat (apply elem_of_cons in Hv as [Hv|Hv]; [try discriminate Hv; injection Hv as -> ->; by eexists|]). by apply elem_of_nil in Hv.
Qed.

Lemma globals_dce_correct_witness : exists ctx' modified m', globals_dce globals_ctx 1 = Ok (ctx', modified) /\ ctx' = set_module globals_ctx 1 m' /\
  modified = true /\ m' = globals_module [1; 2]%positive [(["a"], 1%positive)].
Proof.
  destruct (globals_dce_correct globals_ctx 1 (globals_module [1; 2; 3]%positive [(["a"], 1%positive); (["b"], 2%positive)]) globals_ctx_callable) as (ctx' & modified & m' & Heq & Hctx & _).
  - apply NoDup_singleton.
  - reflexivity.
  - intros f [Hf|Hf]; cbn in Hf; repeat (apply elem_of_cons in Hf as [->|Hf]; [by eexists|]); by apply elem_of_nil in Hf.
  - exists ctx', modified, m'. split; [exact Heq|]. split; [exact Hctx|]. vm_compute in Heq. injection Heq as H1 H2. subst ctx'. split; [by symmetry|]. injection Hctx as Hm. by symmetry.
Defined.
