(* ===== verification/AsmLabels.v ===== *)
(** * Labels and offsets of the allocated instruction set

    Models [asm_generation/fuel/allocated_abstract_instruction_set.rs] and
    [op_size_in_bytes] of [asm_generation/finalized_asm.rs]: the registers that a
    function saves, the offsets of labels, the rewriting of jumps whose target is
    too far for an immediate, and the realization of jumps.  Offsets are counts of
    instructions that fit in memory and are [Z] without a check of their width. *)

From S2P Require Import Prelude AsmRegister AsmVirtualOp AsmOp AsmData AsmLiveness.
Local Open Scope Z_scope.

Import AllocatedOpcode.

(** ** [remove_redundant_ops] *)

Definition allocated_is_zero (r : AllocatedRegister) : bool :=
  match r with AllocatedConstant Zero => true | _ => false end.

Definition allocated_is_redundant (op : AllocatedAbstractOp) : bool :=
  match aopcode op with
  | inl (CFEI imm) | inl (CFSI imm) => value24 imm =? 0
  | inl (CFE reg) | inl (CFS reg) => allocated_is_zero reg
  | _ => false
  end.

Definition allocated_remove_redundant_ops (ops : list AllocatedAbstractOp) : list AllocatedAbstractOp :=
  List.filter (fun op => negb (allocated_is_redundant op)) ops.

(** ** [emit_pusha_popa] *)

(** The sets of registers per section, and the active sections *)
Record Sections : Type := mkSections {
  reg_sets : gmap Label (list AllocatedRegister);
  active_sets : gset Label
}.

(** A set of registers is kept as a list without repetitions. *)
Definition add_register (reg : AllocatedRegister) (regs : list AllocatedRegister) : list AllocatedRegister :=
  if bool_decide (reg ∈ regs) then regs else regs ++ [reg].

Definition note_register (active : gset Label) (sets : gmap Label (list AllocatedRegister)) (reg : AllocatedRegister)
    : gmap Label (list AllocatedRegister) :=
  set_fold (fun active_label sets => <[active_label := add_register reg (default [] (sets !! active_label))]> sets)
    sets active.

Definition section_op (st : Sections) (op : AllocatedAbstractOp) : Result Sections :=
  match aopcode op with
  | inr (PushAll label) => Ok (mkSections (reg_sets st) ({[label]} ∪ active_sets st))
  | inr (PopAll label) => Ok (mkSections (reg_sets st) (active_sets st ∖ {[label]}))
  | inl alloc_op =>
      regs ← def_registers alloc_op;
      Ok (mkSections (foldl (note_register (active_sets st)) (reg_sets st) regs) (active_sets st))
  | inr ctrl_op =>
      Ok (mkSections (foldl (note_register (active_sets st)) (reg_sets st) (ControlFlowOp_def_registers ctrl_op))
            (active_sets st))
  end.

Fixpoint section_ops (ops : list AllocatedAbstractOp) (st : Sections) : Result Sections :=
  match ops with
  | [] => Ok st
  | op :: ops' => st ← section_op st op; section_ops ops' st
  end.

Section masks.
Context (vm_reg : ConstantRegister -> Z).

Definition mask_step (accum : Z * Z) (reg : AllocatedRegister) : Result (Z * Z) :=
  reg_id ← to_reg_id vm_reg reg;
  if (16 <=? reg_id) && (reg_id <? 64) then
    let reg_id := reg_id - 16 in
    Ok (if reg_id <? 24 then (Z.lor accum.1 (Z.shiftl 1 reg_id), accum.2)
        else (accum.1, Z.lor accum.2 (Z.shiftl 1 (reg_id - 24))))
  else Err (Panic "assertion failed: (16..64).contains(&reg_id)").

Fixpoint mask_loop (regs : list AllocatedRegister) (accum : Z * Z) : Result (Z * Z) :=
  match regs with
  | [] => Ok accum
  | reg :: regs' => accum ← mask_step accum reg; mask_loop regs' accum
  end.

(** [VirtualImmediate24::new(..).expect(..)] *)
Definition mask_imm (mask : Z) : Result VirtualImmediate24 :=
  match Imm24_new mask with Ok i => Ok i | Err _ => Err (Panic "mask should have fit in 24b") end.

Definition generate_mask (regs : list AllocatedRegister) : Result (VirtualImmediate24 * VirtualImmediate24) :=
  mask ← mask_loop regs (0, 0);
  mask_l ← mask_imm mask.1;
  mask_h ← mask_imm mask.2;
  Ok (mask_l, mask_h).

(** The registers to save in a section: the allocated ones that it defines, and
    the base of the locals *)
Definition saved_registers (sets : gmap Label (list AllocatedRegister)) (label : Label)
    : Result (list AllocatedRegister) :=
  match sets !! label with
  | Some regs =>
      Ok (List.filter (fun reg => match reg with Allocated _ => true | AllocatedConstant _ => false end) regs
          ++ [AllocatedConstant LocalsBase])
  | None => Err (Panic "Have collected registers above.")
  end.

Definition emit_op (sets : gmap Label (list AllocatedRegister)) (op : AllocatedAbstractOp)
    : Result (list AllocatedAbstractOp) :=
  match aopcode op with
  | inr (PushAll label) =>
      regs ← saved_registers sets label;
      masks ← generate_mask regs;
      Ok ((if value24 masks.1 =? 0 then [] else [mkAllocatedOp (inl (PSHL masks.1)) "save registers 16..40"]) ++
          (if value24 masks.2 =? 0 then [] else [mkAllocatedOp (inl (PSHH masks.2)) "save registers 40..64"]))
  | inr (PopAll label) =>
      regs ← saved_registers sets label;
      masks ← generate_mask regs;
      Ok ((if value24 masks.2 =? 0 then [] else [mkAllocatedOp (inl (POPH masks.2)) "restore registers 40..64"]) ++
          (if value24 masks.1 =? 0 then [] else [mkAllocatedOp (inl (POPL masks.1)) "restore registers 16..40"]))
  | _ => Ok [op]
  end.

Definition emit_pusha_popa (ops : list AllocatedAbstractOp) : Result (list AllocatedAbstractOp) :=
  st ← section_ops ops (mkSections ∅ ∅);
  concat_traverse (emit_op (reg_sets st)) ops.
End masks.

(** ** Offsets *)

(** The offsets of the labels *)
Abbreviation LabeledBlocks := (gmap Label Z).

Definition instruction_size (data_section : DataSection) (op : AllocatedAbstractOp) : Result Z :=
  match aopcode op with
  | inr (CLabel _) => Ok 0
  | inl (LoadDataId _ data_id) =>
      match has_copy_type data_section data_id with
      | Some copy => Ok (if (copy : bool) then 1 else 2)
      | None => Err (Panic "Internal miscalculation in data section -- data id did not match up to any actual data")
      end
  | inl (AddrDataId _ id) => Ok (if 4095 <? Z.of_nat (data_id_to_offset data_section id) then 2 else 1)
  | inl (CFEI op) | inl (CFSI op) => Ok (if value24 op =? 0 then 0 else 1)
  | inl (BLOB count) => Ok (value24 count)
  | inr (Jump _) | inr (JumpIfNotZero _ _) | inr (Call _) | inr (LoadLabel _ _) | inl _ => Ok 1
  | inr (SaveRetAddr _ _) => Ok 3
  | inr Comment => Ok 0
  | inr CDataSectionOffsetPlaceholder => Ok 2
  | inr CConfigurablesOffsetPlaceholder => Ok 2
  | inr (PushAll _) | inr (PopAll _) =>
      Err (Panic "fix me, pushall and popall don't really belong in control flow ops since they're not about control flow")
  end.

(** The state of the loop of [map_label_offsets] *)
Record Scan : Type := mkScan {
  labelled_blocks : LabeledBlocks;
  cur_offset : Z;
  cur_basic_block : option (Label * Z);
  jnz_labels : list (Z * Label);
  jmp_labels : list (Z * Label)
}.

Definition close_block (block : option (Label * Z)) (blocks : LabeledBlocks) : LabeledBlocks :=
  match block with Some (lab, offs) => <[lab := offs]> blocks | None => blocks end.

Definition scan_op (data_section : DataSection) (st : Scan) (op : AllocatedAbstractOp) : Result Scan :=
  let blocks :=
    match aopcode op with
    | inr (CLabel _) | inr (Jump _) | inr (JumpIfNotZero _ _) => close_block (cur_basic_block st) (labelled_blocks st)
    | _ => labelled_blocks st
    end in
  let block := match aopcode op with inr (CLabel cur_lab) => Some (cur_lab, cur_offset st) | _ => cur_basic_block st end in
  let jmps := match aopcode op with
              | inr (Jump lab) | inr (Call lab) => jmp_labels st ++ [(cur_offset st, lab)]
              | _ => jmp_labels st
              end in
  let jnzs := match aopcode op with
              | inr (JumpIfNotZero _ lab) => jnz_labels st ++ [(cur_offset st, lab)]
              | _ => jnz_labels st
              end in
  size ← instruction_size data_section op;
  Ok (mkScan blocks (cur_offset st + size) block jnzs jmps).

Fixpoint scan_ops (data_section : DataSection) (ops : list AllocatedAbstractOp) (st : Scan) : Result Scan :=
  match ops with
  | [] => Ok st
  | op :: ops' => st ← scan_op data_section st op; scan_ops data_section ops' st
  end.

Definition label_offset (blocks : LabeledBlocks) (lab : Label) : Result Z :=
  match blocks !! lab with
  | Some offs => Ok offs
  | None => Err (Panic "called `Option::unwrap()` on a `None` value")
  end.

(** [u64::abs_diff] *)
Definition abs_diff (a b : Z) : Z := Z.abs (a - b).

Definition needs_remap (blocks : LabeledBlocks) (limit : Z) (jump : Z * Label) : Result bool :=
  offs ← label_offset blocks jump.2;
  let rel_offset := abs_diff offs jump.1 in
  Ok ((rel_offset =? 0) || (limit <? rel_offset)).

(** [Iterator::any] *)
Fixpoint any_jump (f : Z * Label -> Result bool) (l : list (Z * Label)) : Result bool :=
  match l with
  | [] => Ok false
  | x :: l' => b ← f x; if (b : bool) then Ok true else any_jump f l'
  end.

Definition map_label_offsets (data_section : DataSection) (ops : list AllocatedAbstractOp)
    : Result (bool * LabeledBlocks) :=
  st ← scan_ops data_section ops (mkScan ∅ 0 None [] []);
  let blocks := close_block (cur_basic_block st) (labelled_blocks st) in
  jmp ← any_jump (needs_remap blocks EIGHTEEN_BITS) (jmp_labels st);
  need ← (if (jmp : bool) then Ok true else any_jump (needs_remap blocks TWELVE_BITS) (jnz_labels st));
  Ok (need, blocks).

(** ** [rewrite_far_jumps] *)

Definition scratch : AllocatedRegister := AllocatedConstant Scratch.
Definition zero_reg : AllocatedRegister := AllocatedConstant Zero.

Definition self_loop_noop : AllocatedAbstractOp := mkAllocatedOp (inl NOOP) "emit noop for self loop".

Definition load_label (lab : Label) : AllocatedAbstractOp := mkAllocatedOp (inr (LoadLabel scratch lab)) "".

(** The instructions that replace [op] at [curr_offset], and whether it changed *)
Definition rewrite_op (label_offsets : LabeledBlocks) (curr_offset : Z) (op : AllocatedAbstractOp)
    : Result (list AllocatedAbstractOp * bool) :=
  match aopcode op with
  | inr (Jump lab) | inr (Call lab) =>
      offs ← label_offset label_offsets lab;
      let rel_offset := abs_diff offs curr_offset in
      if rel_offset =? 0 then Ok ([self_loop_noop; op], true)
      else if rel_offset - 1 <=? EIGHTEEN_BITS then Ok ([op], false)
      else
        Ok ([load_label lab;
             mkAllocatedOp (inl (if offs <? curr_offset then JMPB scratch (mkImm18 0) else JMPF scratch (mkImm18 0)))
               (acomment op)], true)
  | inr (JumpIfNotZero r1 lab) =>
      offs ← label_offset label_offsets lab;
      let rel_offset := abs_diff offs curr_offset in
      if rel_offset =? 0 then Ok ([self_loop_noop; op], true)
      else if rel_offset - 1 <=? TWELVE_BITS then Ok ([op], false)
      else
        Ok ([load_label lab;
             mkAllocatedOp (inl (if offs <? curr_offset then JNZB r1 scratch (mkImm12 0) else JNZF r1 scratch (mkImm12 0)))
               (acomment op)], true)
  | inr (SaveRetAddr _ lab) =>
      offs ← label_offset label_offsets lab;
      if abs_diff offs curr_offset <=? TWELVE_BITS then Ok ([op], false)
      else Err (Panic "Return to address must be right after the call for which we saved this address.")
  | _ => Ok ([op], false)
  end.

Fixpoint rewrite_far_jumps (data_section : DataSection) (label_offsets : LabeledBlocks)
    (ops : list AllocatedAbstractOp) (curr_offset : Z) : Result (list AllocatedAbstractOp * bool) :=
  match ops with
  | [] => Ok ([], false)
  | op :: ops' =>
      op_size ← instruction_size data_section op;
      new ← rewrite_op label_offsets curr_offset op;
      rest ← rewrite_far_jumps data_section label_offsets ops' (curr_offset + op_size);
      Ok (new.1 ++ rest.1, new.2 || rest.2)
  end.

(** ** [resolve_labels] *)

(** [fuel] is the number of iterations that are left; [iter_count > 10] fails. *)
Fixpoint resolve_labels (fuel : nat) (data_section : DataSection) (ops : list AllocatedAbstractOp)
    : Result (list AllocatedAbstractOp * LabeledBlocks) :=
  match fuel with
  | 0%nat => Err (Internal "Failed to resolve ASM label offsets.")
  | S fuel' =>
      r ← map_label_offsets data_section ops;
      if (r.1 : bool) then
        rewritten ← rewrite_far_jumps data_section r.2 ops 0;
        if (rewritten.2 : bool) then resolve_labels fuel' data_section rewritten.1
        else Ok (rewritten.1, r.2)
      else Ok (ops, r.2)
  end.

(** ** [realize_labels] *)

Record RealizedOp : Type := mkRealized { ropcode : AllocatedOpcode; rcomment : string }.

(** [u64] subtraction *)
Definition u64_sub (a b : Z) : Result Z :=
  if b <=? a then Ok (a - b) else Err (Panic "attempt to subtract with overflow").

Definition assert_noop_before (ops : list AllocatedAbstractOp) (op_idx : nat) : Result unit :=
  match op_idx with
  | 0%nat => Err (Panic "attempt to subtract with overflow")
  | S prev =>
      op ← index_of ops prev;
      match aopcode op with
      | inl NOOP => Ok ()
      | _ => Err (Panic "assertion failed: self jump")
      end
  end.

(** The jump at [curr_offset] to the label at [offs]; [forward] and [backward]
    build the instruction from its immediate. *)
Definition realize_jump {I} (new_unchecked : Z -> string -> Result I) (msg : string)
    (forward backward : I -> AllocatedOpcode) (ops : list AllocatedAbstractOp) (op_idx : nat)
    (curr_offset offs : Z) : Result AllocatedOpcode :=
  match curr_offset ?= offs with
  | Eq =>
      _ ← assert_noop_before ops op_idx;
      i ← new_unchecked 0 "unreachable()";
      Ok (backward i)
  | Gt =>
      d ← u64_sub (abs_diff offs curr_offset) 1;
      i ← new_unchecked d msg;
      Ok (backward i)
  | Lt =>
      d ← u64_sub (abs_diff offs curr_offset) 1;
      i ← new_unchecked d msg;
      Ok (forward i)
  end.

Definition is_relative_jump (op : AllocatedAbstractOp) : bool :=
  match aopcode op with inl (JMPB _ _) | inl (JNZB _ _ _) | inl (JMPF _ _) | inl (JNZF _ _ _) => true | _ => false end.

Definition realize_op (label_offsets : LabeledBlocks) (ops : list AllocatedAbstractOp) (op_idx : nat)
    (curr_offset : Z) (data_section : DataSection) (op : AllocatedAbstractOp) : Result (list RealizedOp * DataSection) :=
  let comment := acomment op in
  match aopcode op with
  | inl opcode => Ok ([mkRealized opcode comment], data_section)
  | inr (Jump lab) | inr (Call lab) =>
      offs ← label_offset label_offsets lab;
      j ← realize_jump Imm18_new_unchecked "Programs with more than 2^18 labels are unsupported right now"
            (JMPF zero_reg) (JMPB zero_reg) ops op_idx curr_offset offs;
      Ok ([mkRealized j comment], data_section)
  | inr (JumpIfNotZero r1 lab) =>
      offs ← label_offset label_offsets lab;
      j ← realize_jump Imm12_new_unchecked "Programs with more than 2^12 labels are unsupported right now"
            (JNZF r1 zero_reg) (JNZB r1 zero_reg) ops op_idx curr_offset offs;
      Ok ([mkRealized j comment], data_section)
  | inr (SaveRetAddr r1 lab) =>
      offs ← label_offset label_offsets lab;
      imm ← Imm12_new_unchecked (abs_diff offs curr_offset)
              "Programs with more than 2^12 relative offset are unsupported right now";
      if curr_offset <? offs then
        Ok ([mkRealized (SUB r1 (AllocatedConstant ProgramCounter) (AllocatedConstant InstructionStart))
               "get current instruction offset from instructions start ($is)";
             mkRealized (SRLI r1 r1 (mkImm12 2)) "get current instruction offset in 32-bit words";
             mkRealized (ADDI r1 r1 imm) comment], data_section)
      else Err (Panic "assertion failed: curr_offset < label_offsets.get(lab).unwrap().offs")
  | inr CDataSectionOffsetPlaceholder => Ok ([mkRealized DataSectionOffsetPlaceholder ""], data_section)
  | inr CConfigurablesOffsetPlaceholder => Ok ([mkRealized ConfigurablesOffsetPlaceholder ""], data_section)
  | inr (LoadLabel r1 lab) =>
      next ← index_of ops (S op_idx);
      if is_relative_jump next then
        offs ← label_offset label_offsets lab;
        offset ← u64_sub (abs_diff offs (curr_offset + 1)) 1;
        let '(data_section, data_id) := insert_data_value data_section (new_word offset NamedNonConfigurable None) in
        Ok ([mkRealized (LoadDataId r1 data_id) comment], data_section)
      else Err (Panic "assertion failed: LoadLabel is not followed by a relative jump")
  | inr Comment | inr (CLabel _) => Ok ([], data_section)
  | inr (PushAll _) | inr (PopAll _) => Err (Panic "still don't belong in organisational ops")
  end.

Fixpoint realize_ops (label_offsets : LabeledBlocks) (ops : list AllocatedAbstractOp)
    (ixs : list (nat * AllocatedAbstractOp)) (curr_offset : Z) (data_section : DataSection)
    : Result (list RealizedOp * DataSection) :=
  match ixs with
  | [] => Ok ([], data_section)
  | (op_idx, op) :: ixs' =>
      op_size ← instruction_size data_section op;
      r ← realize_op label_offsets ops op_idx curr_offset data_section op;
      rest ← realize_ops label_offsets ops ixs' (curr_offset + op_size) r.2;
      Ok (r.1 ++ rest.1, rest.2)
  end.

Definition realize_labels (data_section : DataSection) (ops : list AllocatedAbstractOp)
    : Result (list RealizedOp * LabeledBlocks * DataSection) :=
  resolved ← resolve_labels 11 data_section ops;
  realized ← realize_ops resolved.2 resolved.1 (imap pair resolved.1) 0 data_section;
  Ok (realized.1, resolved.2, realized.2).

(** [op_size_in_bytes] of [to_bytecode_mut] *)
Definition op_size_in_bytes (data_section : DataSection) (item : AllocatedOpcode) : Result Z :=
  match item with
  | LoadDataId _ data_label =>
      match has_copy_type data_section data_label with
      | Some copy => Ok (if (copy : bool) then 4 else 8)
      | None => Err (Panic "data label references non existent data -- internal error")
      end
  | AddrDataId _ id => Ok (if 4095 <? Z.of_nat (data_id_to_offset data_section id) then 8 else 4)
  | ConfigurablesOffsetPlaceholder => Ok 8
  | DataSectionOffsetPlaceholder => Ok 8
  | BLOB count => Ok (value24 count * 4)
  | CFEI i | CFSI i => Ok (if value24 i =? 0 then 0 else 4)
  | _ => Ok 4
  end.
