(* ===== verification/AsmLabelTheory.v ===== *)
(** * Correctness of the resolution of labels

    The offsets computed for labels are the positions of the labels in the final
    code, and every realized jump goes to its label. *)

From S2P Require Import Prelude AsmRegister AsmVirtualOp AsmOp AsmData AsmLiveness AsmLabels.
Local Open Scope Z_scope.

Import AllocatedOpcode.

(** ** Specification *)

Section offsets.
Context (ds : DataSection).

Definition size_of (op : AllocatedAbstractOp) : Z :=
  match instruction_size ds op with Ok size => size | Err _ => 0 end.

Definition total_size (ops : list AllocatedAbstractOp) : Z := foldr (fun op n => size_of op + n) 0 ops.

(** The offset of the instruction at a position *)
Definition offset_at (ops : list AllocatedAbstractOp) (i : nat) : Z := total_size (take i ops).

Lemma total_size_app l k : total_size (l ++ k) = total_size l + total_size k.
Proof. induction l as [|op l IH]; cbn; [done|]. fold (total_size (l ++ k)). rewrite IH. unfold total_size. lia. Qed.

Lemma instruction_size_of op size : instruction_size ds op = Ok size -> size_of op = size.
Proof. unfold size_of. by intros ->. Qed.

(** The labels of a program with their offsets; a later label hides an earlier
    one. *)
Fixpoint label_map (ops : list AllocatedAbstractOp) (o : Z) (m : LabeledBlocks) : LabeledBlocks :=
  match ops with
  | [] => m
  | op :: ops' =>
      label_map ops' (o + size_of op) match aopcode op with inr (CLabel lab) => <[lab := o]> m | _ => m end
  end.

(** The jumps to an offset of at most 18 bits, and of at most 12 bits *)
Definition near_target (op : AllocatedAbstractOp) : option (Z * Label) :=
  match aopcode op with
  | inr (Jump lab) | inr (Call lab) => Some (EIGHTEEN_BITS, lab)
  | inr (JumpIfNotZero _ lab) => Some (TWELVE_BITS, lab)
  | _ => None
  end.

(** ** [map_label_offsets] *)

Definition finished (st : Scan) : LabeledBlocks := close_block (cur_basic_block st) (labelled_blocks st).

Lemma close_block_twice b m : close_block b (close_block b m) = close_block b m.
Proof. destruct b as [[lab o]|]; cbn; [apply insert_insert_eq|done]. Qed.

Lemma scan_op_spec st op st' :
  scan_op ds st op = Ok st' ->
  cur_offset st' = cur_offset st + size_of op /\ is_Ok (instruction_size ds op) /\
  finished st' = match aopcode op with inr (CLabel lab) => <[lab := cur_offset st]> (finished st) | _ => finished st end /\
  (forall x, x ∈ jmp_labels st' <-> x ∈ jmp_labels st \/
     exists lab, near_target op = Some (EIGHTEEN_BITS, lab) /\ x = (cur_offset st, lab)) /\
  (forall x, x ∈ jnz_labels st' <-> x ∈ jnz_labels st \/
     exists lab, near_target op = Some (TWELVE_BITS, lab) /\ x = (cur_offset st, lab)).
Proof.
  intros H. unfold scan_op in H. inv_ok. rename r into size, Hok into Hs. cbn.
  rewrite (instruction_size_of op size Hs). split; [done|]. split; [by eexists|]. unfold finished, near_target. cbn.
  split; [destruct (aopcode op) as [|[]]; by rewrite ?close_block_twice|].
  split; intros x; destruct (aopcode op) as [|[]]; rewrite ?elem_of_app, ?list_elem_of_singleton; naive_solver.
Qed.

Lemma scan_ops_spec ops st st' :
  scan_ops ds ops st = Ok st' ->
  Forall (fun op => is_Ok (instruction_size ds op)) ops /\
  finished st' = label_map ops (cur_offset st) (finished st) /\
  (forall i op lab, ops !! i = Some op -> near_target op = Some (EIGHTEEN_BITS, lab) ->
     (cur_offset st + offset_at ops i, lab) ∈ jmp_labels st') /\
  (forall i op lab, ops !! i = Some op -> near_target op = Some (TWELVE_BITS, lab) ->
     (cur_offset st + offset_at ops i, lab) ∈ jnz_labels st') /\
  (forall x, x ∈ jmp_labels st -> x ∈ jmp_labels st') /\ (forall x, x ∈ jnz_labels st -> x ∈ jnz_labels st').
Proof.
  revert st. induction ops as [|op ops IH]; intros st H; cbn [scan_ops] in H.
  - inv_ok. by split_and!.
  - inv_ok. rename r into st1, Hok into Hop. apply scan_op_spec in Hop as (Ho & Hsz & Hfin & Hjmp & Hjnz).
    apply IH in H as (Hall & Hf & Hj & Hz & Hmj & Hmz). rewrite Ho in *. split_and!.
    + by constructor.
    + rewrite Hf, Hfin. done.
    + intros [|i] op' lab Hi Hn; cbn in Hi.
      * injection Hi as <-. apply Hmj, Hjmp. right. exists lab. split; [done|]. unfold offset_at. cbn. f_equal. lia.
      * unfold offset_at. cbn. fold (total_size (take i ops)). rewrite Z.add_assoc. by eapply Hj.
    + intros [|i] op' lab Hi Hn; cbn in Hi.
      * injection Hi as <-. apply Hmz, Hjnz. right. exists lab. split; [done|]. unfold offset_at. cbn. f_equal. lia.
      * unfold offset_at. cbn. fold (total_size (take i ops)). rewrite Z.add_assoc. by eapply Hz.
    + intros x Hx. apply Hmj, Hjmp. by left.
    + intros x Hx. apply Hmz, Hjnz. by left.
Qed.

(** A jump that is near enough for its immediate *)
Definition near (blocks : LabeledBlocks) (ops : list AllocatedAbstractOp) : Prop :=
  forall i op limit lab, ops !! i = Some op -> near_target op = Some (limit, lab) ->
    exists offs, blocks !! lab = Some offs /\ 1 <= abs_diff offs (offset_at ops i) <= limit + 1.

Lemma any_jump_false f l : any_jump f l = Ok false -> forall x, x ∈ l -> f x = Ok false.
Proof.
  induction l as [|y l IH]; intros H x Hx; [by apply elem_of_nil in Hx|]. cbn in H. inv_ok. rename r into b.
  destruct b; [done|]. apply elem_of_cons in Hx as [->|Hx]; [done|by apply IH].
Qed.

Lemma needs_remap_false blocks limit o lab :
  needs_remap blocks limit (o, lab) = Ok false ->
  exists offs, blocks !! lab = Some offs /\ 1 <= abs_diff offs o <= limit + 1.
Proof.
  unfold needs_remap, label_offset, abs_diff. cbn. destruct (blocks !! lab) as [offs|]; [|done]. next_step. intros [= Hb].
  apply orb_false_iff in Hb as [H0 H1]. apply Z.eqb_neq in H0. apply Z.ltb_ge in H1. exists offs. split; [done|lia].
Qed.

Lemma map_label_offsets_spec ops need blocks :
  map_label_offsets ds ops = Ok (need, blocks) ->
  Forall (fun op => is_Ok (instruction_size ds op)) ops /\ blocks = label_map ops 0 ∅ /\
  (need = false -> near blocks ops).
Proof.
  unfold map_label_offsets. intros H. inv_ok. rename r into st, Hok into Hscan. rename r0 into jmp, Hok0 into Hjmp.
  rename Hok1 into Hb.
  apply scan_ops_spec in Hscan as (Hall & Hfin & Hj & Hz & _). cbn in *. split; [done|]. split; [exact Hfin|].
  intros ->. destruct jmp; [done|]. intros i op limit lab Hop Hn.
  assert (limit = EIGHTEEN_BITS \/ limit = TWELVE_BITS) as [->| ->].
  { unfold near_target in Hn. destruct (aopcode op) as [|[]]; naive_solver. }
  - eapply needs_remap_false, (any_jump_false _ _ Hjmp). by eapply Hj.
  - eapply needs_remap_false, (any_jump_false _ _ Hb). by eapply Hz.
Qed.

(** ** [rewrite_far_jumps] *)

(** When nothing is rewritten, the program is the same and every jump is near. *)
Lemma rewrite_op_same blocks o op new :
  rewrite_op blocks o op = Ok (new, false) ->
  new = [op] /\ forall limit lab, near_target op = Some (limit, lab) ->
    exists offs, blocks !! lab = Some offs /\ 1 <= abs_diff offs o <= limit + 1.
Proof.
  unfold rewrite_op, near_target, label_offset, abs_diff.
  destruct (aopcode op) as [|c]; [by intros [= <-]|].
  destruct c; try (by intros [= <-]); destruct (blocks !! l) as [offs|] eqn:Hl; try done; next_step;
    repeat case_match; intros [= <-]; (split; [done|]); intros limit lab [= <- <-]; exists offs;
    (split; [done|]); rewrite ?Z.eqb_neq, ?Z.leb_le in *; lia.
Qed.

Lemma rewrite_far_jumps_same blocks ops o new :
  rewrite_far_jumps ds blocks ops o = Ok (new, false) ->
  new = ops /\ forall i op limit lab, ops !! i = Some op -> near_target op = Some (limit, lab) ->
    exists offs, blocks !! lab = Some offs /\ 1 <= abs_diff offs (o + offset_at ops i) <= limit + 1.
Proof.
  revert o new. induction ops as [|op ops IH]; intros o new H; cbn [rewrite_far_jumps] in H.
  - by inv_ok.
  - inv_ok. rename r into size, Hok into Hs, r0 into n, Hok0 into Hn, r1 into rest, Hok1 into Hrest.
    destruct n as [n1 n2], rest as [rest1 rest2]. cbn [fst snd] in *.
    match goal with Hb : _ || _ = false |- _ => apply orb_false_iff in Hb as [-> ->] end.
    apply rewrite_op_same in Hn as [-> Hn]. apply IH in Hrest as [-> Hrest]. split; [done|].
    intros [|i] op' limit lab Hi Ht; cbn in Hi.
    + injection Hi as <-. unfold offset_at. cbn. rewrite Z.add_0_r. by apply Hn.
    + unfold offset_at. cbn. fold (total_size (take i ops)). rewrite (instruction_size_of _ _ Hs), Z.add_assoc.
      by eapply Hrest.
Qed.

(** ** [resolve_labels] *)

Lemma resolve_labels_spec fuel ops ops' blocks :
  resolve_labels fuel ds ops = Ok (ops', blocks) ->
  Forall (fun op => is_Ok (instruction_size ds op)) ops' /\ blocks = label_map ops' 0 ∅ /\ near blocks ops'.
Proof.
  revert ops. induction fuel as [|fuel IH]; intros ops H; cbn [resolve_labels] in H; [done|]. inv_ok.
  rename r into r1, Hok into Hm. destruct r1 as [need b]. apply map_label_offsets_spec in Hm as (Hall & Hb & Hnear).
  cbn [fst snd] in H. destruct need; [|injection H as <- <-; auto]. inv_ok. rename r into r2, Hok into Hr.
  destruct r2 as [new changed]. cbn [fst snd] in H. destruct changed; [by eapply IH|].
  apply rewrite_far_jumps_same in Hr as [-> Hnear']. injection H as <- <-. split_and!; try done.
Qed.
End offsets.

(** ** Instructions and the data section *)

(** The data that an instruction refers to exists; the size of a blob is not
    negative. *)
Definition data_ok (ds : DataSection) (op : AllocatedAbstractOp) : Prop :=
  match aopcode op with
  | inl (LoadDataId _ id) | inl (AddrDataId _ id) => is_Some (DataSection_get ds id)
  | inl DataSectionOffsetPlaceholder | inl ConfigurablesOffsetPlaceholder => False
  | inl (BLOB count) => 0 <= value24 count
  | _ => True
  end.

(** The address that an instruction takes stays near or far when the data section
    grows to [ds']. *)
Definition op_stable (ds ds' : DataSection) (op : AllocatedAbstractOp) : Prop :=
  match aopcode op with inl (AddrDataId _ id) => stable_address ds ds' id | _ => True end.

Lemma size_of_nonneg ds op : data_ok ds op -> 0 <= size_of ds op.
Proof.
  unfold data_ok, size_of, instruction_size. destruct (aopcode op) as [v|c]; [|destruct c; intros; lia].
  destruct v; intros; repeat case_match; simplify_eq; lia.
Qed.

Lemma extends_instruction_size ds ds' op :
  extends ds ds' -> data_ok ds op -> op_stable ds ds' op -> instruction_size ds' op = instruction_size ds op.
Proof.
  intros Hx Hd Hs. unfold instruction_size, data_ok, op_stable in *. destruct (aopcode op) as [v|]; [|done].
  destruct v; try done.
  - by rewrite (extends_copy_type ds ds' i Hx Hd).
  - unfold stable_address, far_entry in Hs. by rewrite Hs.
Qed.

Lemma op_stable_between ds0 ds ds' op :
  extends ds0 ds -> extends ds ds' -> data_ok ds0 op -> op_stable ds0 ds' op -> op_stable ds0 ds op.
Proof.
  intros Hx Hx'. unfold data_ok, op_stable. destruct (aopcode op) as [v|]; [|done]. destruct v; try done.
  by apply stable_address_between.
Qed.

Lemma extends_data_ok ds ds' op : extends ds ds' -> data_ok ds op -> data_ok ds' op.
Proof.
  intros Hx. unfold data_ok. destruct (aopcode op) as [v|]; [|done].
  destruct v; try done; by apply extends_is_Some.
Qed.

(** ** Realized instructions *)

Definition codes (chunk : list RealizedOp) : list AllocatedOpcode := map ropcode chunk.

(** The instructions for [op] at the offset [o] *)
Definition chunk_ok (ds : DataSection) (blocks : LabeledBlocks) (o : Z) (op : AllocatedAbstractOp)
    (chunk : list RealizedOp) : Prop :=
  match aopcode op with
  | inl opcode => codes chunk = [opcode]
  | inr (Jump lab) | inr (Call lab) =>
      exists t imm, blocks !! lab = Some t /\ 0 <= imm <= EIGHTEEN_BITS /\
        (codes chunk = [JMPF zero_reg (mkImm18 imm)] /\ t = o + (imm + 1) \/
         codes chunk = [JMPB zero_reg (mkImm18 imm)] /\ t = o - (imm + 1))
  | inr (JumpIfNotZero r lab) =>
      exists t imm, blocks !! lab = Some t /\ 0 <= imm <= TWELVE_BITS /\
        (codes chunk = [JNZF r zero_reg (mkImm12 imm)] /\ t = o + (imm + 1) \/
         codes chunk = [JNZB r zero_reg (mkImm12 imm)] /\ t = o - (imm + 1))
  | inr (SaveRetAddr r lab) =>
      exists t imm, blocks !! lab = Some t /\ t = o + imm /\ 0 < imm /\
        codes chunk = [SUB r (AllocatedConstant ProgramCounter) (AllocatedConstant InstructionStart);
                       SRLI r r (mkImm12 2); ADDI r r (mkImm12 imm)]
  | inr (LoadLabel r lab) =>
      exists t id w, blocks !! lab = Some t /\ codes chunk = [LoadDataId r id] /\
        get_data_word ds id = Some w /\ w + 1 = abs_diff t (o + 1)
  | inr CDataSectionOffsetPlaceholder => codes chunk = [DataSectionOffsetPlaceholder]
  | inr CConfigurablesOffsetPlaceholder => codes chunk = [ConfigurablesOffsetPlaceholder]
  | inr Comment | inr (CLabel _) => chunk = []
  | inr (PushAll _) | inr (PopAll _) => False
  end.

Definition bytes_of (ds : DataSection) (chunk : list RealizedOp) : Z :=
  foldr (fun op n => match op_size_in_bytes ds (ropcode op) with Ok z => z | Err _ => 0 end + n) 0 chunk.

Lemma bytes_of_app ds l k : bytes_of ds (l ++ k) = bytes_of ds l + bytes_of ds k.
Proof. induction l as [|op l IH]; cbn; [done|]. fold (bytes_of ds (l ++ k)). rewrite IH. unfold bytes_of. lia. Qed.

(** The bytes that are emitted for an instruction are the size that its label
    offsets are computed with. *)
Lemma chunk_bytes ds blocks o op chunk :
  chunk_ok ds blocks o op chunk -> data_ok ds op -> bytes_of ds chunk = 4 * size_of ds op.
Proof.
  assert (bytes_of ds chunk = foldr (fun c n => match op_size_in_bytes ds c with Ok z => z | Err _ => 0 end + n) 0
    (codes chunk)) as ->.
  { unfold bytes_of, codes. induction chunk as [|x l IH]; cbn; [done|]. by rewrite IH. }
  unfold chunk_ok, data_ok, size_of, instruction_size.
  destruct (aopcode op) as [v|c].
  - intros -> Hd. destruct v; cbn -[Z.mul]; try done; try (case_match; cbn; lia); try lia.
    destruct (has_copy_type ds i) as [[]|]; cbn; lia.
  - intros Hc _. destruct c; cbn; try (subst; done); try (rewrite Hc; done); try done.
    + destruct Hc as (? & ? & _ & _ & [[-> _]|[-> _]]); done.
    + destruct Hc as (? & ? & _ & _ & [[-> _]|[-> _]]); done.
    + destruct Hc as (? & ? & _ & _ & [[-> _]|[-> _]]); done.
    + destruct Hc as (? & ? & _ & _ & _ & ->). done.
    + destruct Hc as (? & id & w & _ & -> & Hw & _). cbn. unfold has_copy_type, get_data_word in *.
      destruct (DataSection_get ds id) as [[[] ? ?]|]; done.
Qed.

(** The immediate of a realized jump *)
Lemma realize_jump_spec {I} (new : Z -> string -> Result I) (con : Z -> I) msg forward backward ops idx o t limit j :
  (forall raw msg i, new raw msg = Ok i -> i = con raw) ->
  1 <= abs_diff t o <= limit + 1 ->
  realize_jump new msg forward backward ops idx o t = Ok j ->
  exists imm, 0 <= imm <= limit /\
    (j = forward (con imm) /\ t = o + (imm + 1) \/ j = backward (con imm) /\ t = o - (imm + 1)).
Proof.
  intros Hnew Hd H. unfold realize_jump, u64_sub, abs_diff in *.
  destruct (Z.leb_spec 1 (Z.abs (t - o))); [|lia].
  destruct (Z.compare_spec o t); [lia| |]; inv_ok; apply Hnew in Hok0 as ->;
    exists (Z.abs (t - o) - 1); (split; [lia|]); [left|right]; (split; [done|lia]).
Qed.

Lemma unchecked_con {I} (con : Z -> I) max raw msg i : Immediate_new_unchecked con max raw msg = Ok i -> i = con raw.
Proof. unfold Immediate_new_unchecked. case_match; by intros [= <-]. Qed.

Lemma label_offset_Ok blocks lab t : label_offset blocks lab = Ok t <-> blocks !! lab = Some t.
Proof. unfold label_offset. destruct (blocks !! lab); split; congruence. Qed.

Lemma realize_op_spec blocks ops idx o ds op chunk ds' :
  realize_op blocks ops idx o ds op = Ok (chunk, ds') -> Z.of_nat (num_entries ds) < 2 ^ 32 ->
  (forall limit lab, near_target op = Some (limit, lab) ->
     exists t, blocks !! lab = Some t /\ 1 <= abs_diff t o <= limit + 1) ->
  extends ds ds' /\ forall ds2, extends ds' ds2 -> chunk_ok ds2 blocks o op chunk.
Proof.
  unfold realize_op, chunk_ok, near_target. intros H Hn Hnear.
  destruct (aopcode op) as [v|c]; [injection H as <- <-; split; [apply extends_refl|done]|].
  destruct c as [| | | | |r lab| | |r lab| |]; try (injection H as <- <-; split; [apply extends_refl|done]); try done.
  1-3: destruct (Hnear _ _ eq_refl) as (t & Ht & Hd); rewrite (proj2 (label_offset_Ok _ _ _) Ht) in H; next_step in H;
    inv_ok; (split; [apply extends_refl|]); intros _ _.
  1-3: destruct (realize_jump_spec _ _ _ _ _ _ _ _ _ _ _ (unchecked_con _ _) Hd Hok) as (imm & Hi & Hj);
    exists t, imm; (split; [done|]); (split; [done|]); destruct Hj as [[-> ?]|[-> ?]]; [left|right]; done.
  - inv_ok. rename r0 into t. apply label_offset_Ok in Hok. apply unchecked_con in Hok0 as ->.
    destruct (Z.ltb_spec o t); [|done]. injection H as <- <-. split; [apply extends_refl|]. intros _ _.
    exists t, (abs_diff t o). unfold abs_diff. split; [done|]. split; [lia|]. split; [lia|done].
  - inv_ok. destruct (is_relative_jump _); [|done]. inv_ok. rename r1 into t. apply label_offset_Ok in Hok0 as Ht.
    unfold u64_sub in Hok1. destruct (Z.leb_spec 1 (abs_diff t (o + 1))); [|done]. injection Hok1 as <-.
    destruct (insert_data_value ds _) as [ds1 id] eqn:Hi. injection H as <- <-.
    destruct (insert_word_extends _ _ _ _ Hi Hn) as [Hx Hw]. split; [done|]. intros ds2 Hx2.
    exists t, id, (abs_diff t (o + 1) - 1). split_and!; [done..|by eapply extends_word|lia].
Qed.

(** The realization of instructions inserts words only. *)
Lemma realize_op_size blocks ops idx o ds op r :
  realize_op blocks ops idx o ds op = Ok r -> (num_entries ds <= num_entries r.2)%nat.
Proof.
  unfold realize_op. intros H.
  destruct (aopcode op) as [|[]]; inv_ok; try done; try (case_match; [|done]); inv_ok; try done.
  pose proof (insert_data_value_size ds (new_word r3 NamedNonConfigurable None)) as Hs.
  destruct (insert_data_value ds _) as [ds1 id]. injection H as <-. apply Hs.
Qed.

Lemma realize_op_extends blocks ops idx o ds op r :
  realize_op blocks ops idx o ds op = Ok r -> Z.of_nat (num_entries ds) < 2 ^ 32 -> extends ds r.2.
Proof.
  unfold realize_op. intros H Hn.
  destruct (aopcode op) as [|[]]; inv_ok; try apply extends_refl; try (case_match; [|done]); inv_ok;
    try apply extends_refl.
  destruct (insert_data_value ds _) as [ds1 id] eqn:Hi. injection H as <-. by destruct (insert_word_extends _ _ _ _ Hi Hn).
Qed.

Lemma realize_ops_size blocks ops ixs o ds r :
  realize_ops blocks ops ixs o ds = Ok r -> (num_entries ds <= num_entries r.2)%nat.
Proof.
  revert o ds r. induction ixs as [|[idx op] ixs IH]; intros o ds r H; cbn [realize_ops] in H.
  - by injection H as <-.
  - inv_ok. cbn. transitivity (num_entries r1.2); [by eapply realize_op_size|by eapply IH].
Qed.

Lemma realize_ops_extends blocks ops ixs o ds r :
  realize_ops blocks ops ixs o ds = Ok r -> Z.of_nat (num_entries r.2) < 2 ^ 32 -> extends ds r.2.
Proof.
  revert o ds r. induction ixs as [|[idx op] ixs IH]; intros o ds r H Hn; cbn [realize_ops] in H.
  - injection H as <-. apply extends_refl.
  - inv_ok. cbn in *. pose proof (realize_op_size _ _ _ _ _ _ _ Hok0). pose proof (realize_ops_size _ _ _ _ _ _ Hok1).
    apply (extends_trans _ r1.2); [eapply realize_op_extends; [done|lia]|by eapply IH].
Qed.

Section realize.
Context (ds0 : DataSection) (blocks : LabeledBlocks) (ops : list AllocatedAbstractOp).

Lemma realize_ops_spec l k o ds rs ds' :
  extends ds0 ds -> realize_ops blocks ops (imap (fun i => pair (k + i)%nat) l) o ds = Ok (rs, ds') ->
  Forall (data_ok ds0) l -> Forall (op_stable ds0 ds') l -> Z.of_nat (num_entries ds') < 2 ^ 32 ->
  (forall i op limit lab, l !! i = Some op -> near_target op = Some (limit, lab) ->
     exists t, blocks !! lab = Some t /\ 1 <= abs_diff t (o + offset_at ds0 l i) <= limit + 1) ->
  exists chunks, rs = concat chunks /\ length chunks = length l /\
    forall i op chunk, l !! i = Some op -> chunks !! i = Some chunk ->
      chunk_ok ds' blocks (o + offset_at ds0 l i) op chunk.
Proof.
  revert k o ds rs. induction l as [|op l IH]; intros k o ds rs Hx H Hd Hst Hn Hnear.
  - injection H as <- <-. by exists [].
  - rewrite imap_cons in H. cbn [realize_ops] in H. inv_ok. rename r into size, Hok into Hs, r0 into rop, Hok0 into Hr1.
    rename r1 into rest, Hok1 into Hrest. pose proof (realize_op_size _ _ _ _ _ _ _ Hr1) as Hle.
    pose proof (realize_ops_size _ _ _ _ _ _ Hrest) as Hle'. pose proof (realize_ops_extends _ _ _ _ _ _ Hrest Hn) as Hx2.
    assert (extends ds rop.2) as Hx1 by (eapply realize_op_extends; [done|lia]).
    destruct rop as [c ds1], rest as [rs2 ds2]. cbn [fst snd] in *.
    apply Forall_cons in Hd as [Hd Hds]. apply Forall_cons in Hst as [Hst Hsts].
    rewrite (extends_instruction_size ds0 ds op Hx Hd) in Hs
      by (eapply op_stable_between; [..|exact Hst]; eauto using extends_trans).
    pose proof (instruction_size_of _ _ _ Hs) as Hsize.
    assert (forall i, offset_at ds0 (op :: l) (S i) = size + offset_at ds0 l i) as Hoff.
    { intros i. unfold offset_at. cbn. rewrite Hsize. done. }
    replace (imap _ l) with (imap (fun i => pair (S k + i)%nat) l) in Hrest
      by (apply imap_ext; intros i x _; cbn; by rewrite Nat.add_succ_r).
    apply realize_op_spec in Hr1 as [_ Hc]; [|lia|].
    2:{ intros limit lab Ht. rewrite <- (Z.add_0_r o). by apply (Hnear 0%nat op). }
    apply IH in Hrest as (chunks & -> & Hlen & Hall); [|by eapply extends_trans|done..|].
    2:{ intros i op' limit lab Hi Ht. rewrite <- Z.add_assoc, <- Hoff. by apply (Hnear (S i) op'). }
    exists (c :: chunks). split; [done|]. split; [cbn; by rewrite Hlen|]. intros [|i] op' chunk Hi Hch.
    + injection Hi as <-. injection Hch as <-. unfold offset_at. cbn. rewrite Z.add_0_r. by apply Hc.
    + rewrite Hoff, Z.add_assoc. by apply (Hall i).
Qed.
End realize.
