(* ===== verification/AsmLabelJumps.v ===== *)
(** * Far jumps

    A jump whose label is out of the range of its immediate is replaced by a load of
    the distance and a jump through a register.  The program is otherwise kept, and
    the direction that is chosen when the jump is replaced is still the right one
    when the offsets are final. *)

From S2P Require Import Prelude AsmRegister AsmVirtualOp AsmOp AsmData AsmLiveness AsmLabels AsmLabelTheory.
Local Open Scope Z_scope.

Import AllocatedOpcode.

(** ** Expansions *)

(** The jump through the scratch register that stands for [op] *)
Definition far_jump (op : AllocatedAbstractOp) (forward : bool) : AllocatedOpcode :=
  match aopcode op with
  | inr (JumpIfNotZero r _) =>
      if forward then JNZF r scratch (mkImm12 0) else JNZB r scratch (mkImm12 0)
  | _ => if forward then JMPF scratch (mkImm18 0) else JMPB scratch (mkImm18 0)
  end.

(** What an instruction may be replaced with *)
Inductive expansion (op : AllocatedAbstractOp) : list AllocatedAbstractOp -> Prop :=
  | expansion_same : expansion op [op]
  | expansion_noop limit lab new :
      near_target op = Some (limit, lab) -> expansion op new -> expansion op (self_loop_noop :: new)
  | expansion_far limit lab forward :
      near_target op = Some (limit, lab) ->
      expansion op [load_label lab; mkAllocatedOp (inl (far_jump op forward)) (acomment op)].

Definition expanded (ops ops' : list AllocatedAbstractOp) : Prop :=
  exists parts, ops' = concat parts /\ Forall2 expansion ops parts.

Lemma expanded_refl ops : expanded ops ops.
Proof.
  exists (map (fun op => [op]) ops). split; [induction ops as [|op ops IH]; cbn; congruence|].
  induction ops; constructor; [constructor|done].
Qed.

Lemma expanded_cons op new ops ops' : expansion op new -> expanded ops ops' -> expanded (op :: ops) (new ++ ops').
Proof. intros Hn (parts & -> & Hp). exists (new :: parts). split; [done|by constructor]. Qed.

Lemma expanded_cons_inv op ops ops' :
  expanded (op :: ops) ops' -> exists new rest, ops' = new ++ rest /\ expansion op new /\ expanded ops rest.
Proof.
  intros (parts & -> & Hp). inversion Hp as [|? new ? parts' Hn Hps]; subst.
  exists new, (concat parts'). split; [done|]. split; [done|by exists parts'].
Qed.

Lemma expanded_nil_inv ops' : expanded [] ops' -> ops' = [].
Proof. intros (parts & -> & Hp). by inversion Hp. Qed.

Lemma expansion_fixed op new : near_target op = None -> expansion op new -> new = [op].
Proof. intros Hn. destruct 1; congruence. Qed.

Lemma expansion_trans op new new' : expansion op new -> expanded new new' -> expansion op new'.
Proof.
  intros Hn. revert new'. induction Hn as [|limit lab new Ht _ IH|limit lab fwd Ht]; intros new' He;
    apply expanded_cons_inv in He as (p & rest & -> & Hp & He).
  - apply expanded_nil_inv in He as ->. by rewrite app_nil_r.
  - apply expansion_fixed in Hp as ->; [|done]. eapply expansion_noop; [done|by apply IH].
  - apply expansion_fixed in Hp as ->; [|done].
    apply expanded_cons_inv in He as (p & rest' & -> & Hp & He). apply expansion_fixed in Hp as ->; [|done].
    apply expanded_nil_inv in He as ->. by eapply expansion_far.
Qed.

Lemma expanded_app_inv l k ops' :
  expanded (l ++ k) ops' -> exists a b, ops' = a ++ b /\ expanded l a /\ expanded k b.
Proof.
  intros (parts & -> & Hp). apply Forall2_app_inv_l in Hp as (pa & pb & Ha & Hb & ->).
  exists (concat pa), (concat pb). split; [apply concat_app|]. split; [by exists pa|by exists pb].
Qed.

Lemma expanded_trans ops1 ops2 ops3 : expanded ops1 ops2 -> expanded ops2 ops3 -> expanded ops1 ops3.
Proof.
  revert ops2 ops3. induction ops1 as [|op ops1 IH]; intros ops2 ops3 H1 H2.
  - apply expanded_nil_inv in H1 as ->. done.
  - apply expanded_cons_inv in H1 as (new & rest & -> & Hn & Hr).
    apply expanded_app_inv in H2 as (a & b & -> & Ha & Hb).
    apply expanded_cons; [by eapply expansion_trans|by eapply IH].
Qed.

Lemma rewrite_op_expansion blocks o op new b : rewrite_op blocks o op = Ok (new, b) -> expansion op new.
Proof.
  intros H. unfold rewrite_op in H.
  assert (forall limit lab, near_target op = Some (limit, lab) -> expansion op [self_loop_noop; op]) as Hnoop.
  { intros limit lab Ht. eapply expansion_noop; [done|constructor]. }
  pose proof (expansion_far op) as Hfar. unfold near_target, far_jump in *.
  destruct (aopcode op) as [|[]]; inv_ok; try constructor; repeat (case_match; inv_ok); try constructor;
    try (by eapply Hnoop); by (eapply (Hfar _ _ true) || eapply (Hfar _ _ false)).
Qed.

Lemma rewrite_far_jumps_expanded ds blocks ops o new b :
  rewrite_far_jumps ds blocks ops o = Ok (new, b) -> expanded ops new.
Proof.
  revert o new b. induction ops as [|op ops IH]; intros o new b H; cbn [rewrite_far_jumps] in H.
  - inv_ok. apply expanded_refl.
  - inv_ok. destruct r0 as [n1 n2], r1 as [rest1 rest2]. cbn [fst snd] in *.
    apply expanded_cons; [by eapply rewrite_op_expansion|by eapply IH].
Qed.

(** A property of all instructions that the inserted ones have *)
Lemma expanded_Forall (P : AllocatedAbstractOp -> Prop) ops ops' :
  P self_loop_noop -> (forall lab, P (load_label lab)) ->
  (forall op forward, P (mkAllocatedOp (inl (far_jump op forward)) (acomment op))) ->
  expanded ops ops' -> Forall P ops -> Forall P ops'.
Proof.
  intros Hnoop Hload Hfar. revert ops'. induction ops as [|op ops IH]; intros ops' He Hd.
  { by apply expanded_nil_inv in He as ->. }
  apply expanded_cons_inv in He as (new & rest & -> & Hn & Hr). apply Forall_cons in Hd as [Hd Hds].
  apply Forall_app. split; [|by apply IH]. clear Hr.
  induction Hn; repeat constructor; auto.
Qed.

Lemma expanded_data_ok ds ops ops' : expanded ops ops' -> Forall (data_ok ds) ops -> Forall (data_ok ds) ops'.
Proof.
  apply expanded_Forall; [done..|]. intros op []; unfold data_ok, far_jump; cbn; by repeat case_match.
Qed.

Lemma expanded_stable ds ds' ops ops' :
  expanded ops ops' -> Forall (op_stable ds ds') ops -> Forall (op_stable ds ds') ops'.
Proof.
  apply expanded_Forall; [done..|]. intros op []; unfold op_stable, far_jump; cbn; by repeat case_match.
Qed.

(** ** The direction of a far jump *)

Definition is_label (lab : Label) (op : AllocatedAbstractOp) : bool :=
  match aopcode op with inr (CLabel l) => bool_decide (l = lab) | _ => false end.

Definition has_label (lab : Label) (ops : list AllocatedAbstractOp) : bool := existsb (is_label lab) ops.

Definition jump_forward (op : AllocatedAbstractOp) : option bool :=
  match aopcode op with
  | inl (JMPF _ _) | inl (JNZF _ _ _) => Some true
  | inl (JMPB _ _) | inl (JNZB _ _ _) => Some false
  | _ => None
  end.

(** The jump that follows a load of a label goes forward when the label follows. *)
Definition direction_ok (op : AllocatedAbstractOp) (rest : list AllocatedAbstractOp) : Prop :=
  match aopcode op, rest with
  | inr (LoadLabel _ lab), next :: rest' =>
      match jump_forward next with Some forward => forward = has_label lab rest' | None => True end
  | _, _ => True
  end.

Fixpoint directions_ok (ops : list AllocatedAbstractOp) : Prop :=
  match ops with
  | [] => True
  | op :: rest => direction_ok op rest /\ directions_ok rest
  end.

Lemma expansion_has_label lab op new : expansion op new -> has_label lab new = is_label lab op.
Proof.
  assert (forall limit lab', near_target op = Some (limit, lab') -> is_label lab op = false) as Hj.
  { unfold near_target, is_label. by destruct (aopcode op) as [|[]]. }
  induction 1 as [|limit lab' new Ht _ IH|limit lab' fwd Ht]; cbn.
  - apply orb_false_r.
  - exact IH.
  - by rewrite (Hj _ _ Ht).
Qed.

Lemma expanded_has_label lab ops ops' : expanded ops ops' -> has_label lab ops' = has_label lab ops.
Proof.
  revert ops'. induction ops as [|op ops IH]; intros ops' He; [by apply expanded_nil_inv in He as ->|].
  apply expanded_cons_inv in He as (new & rest & -> & Hn & Hr). unfold has_label in *. rewrite existsb_app. cbn.
  by rewrite (IH rest Hr), <- (expansion_has_label lab op new Hn).
Qed.

Section labels.
Context (ds : DataSection).

Lemma label_map_app l k o m : label_map ds (l ++ k) o m = label_map ds k (o + total_size ds l) (label_map ds l o m).
Proof.
  revert o m. induction l as [|op l IH]; intros o m; cbn; [by rewrite Z.add_0_r|]. by rewrite IH, Z.add_assoc.
Qed.

Lemma total_size_nonneg ops : Forall (data_ok ds) ops -> 0 <= total_size ds ops.
Proof. induction 1 as [|op ops Hd _ IH]; cbn; [lia|]. pose proof (size_of_nonneg ds op Hd). unfold total_size in IH. lia. Qed.

(** A label of the program is at an offset of the program; other labels are those
    that were there before. *)
Lemma label_map_cases ops o m lab t :
  Forall (data_ok ds) ops -> label_map ds ops o m !! lab = Some t ->
  if has_label lab ops then o <= t <= o + total_size ds ops else m !! lab = Some t.
Proof.
  intros Hd. revert o m. induction Hd as [|op ops Hop Hd IH]; intros o m; cbn; [done|]. intros Ht.
  pose proof (size_of_nonneg ds op Hop) as Hs. pose proof (total_size_nonneg ops Hd) as Hn. apply IH in Ht.
  fold (has_label lab ops). unfold total_size in *. destruct (has_label lab ops); rewrite ?orb_true_r; [lia|].
  rewrite orb_false_r. unfold is_label. destruct (aopcode op) as [|[l| | | | | | | | | |]]; try done.
  destruct (bool_decide_reflect (l = lab)) as [->|Hne].
  - rewrite lookup_insert_eq in Ht. injection Ht as <-. lia.
  - by rewrite lookup_insert_ne in Ht.
Qed.

(** Where the target of an instruction that is not a label lies *)
Lemma label_direction pre op rest lab t :
  Forall (data_ok ds) (pre ++ op :: rest) -> (forall l, aopcode op <> inr (CLabel l)) ->
  label_map ds (pre ++ op :: rest) 0 ∅ !! lab = Some t ->
  if has_label lab rest then total_size ds pre + size_of ds op <= t else t <= total_size ds pre.
Proof.
  intros Hd Hl. rewrite label_map_app. apply Forall_app in Hd as [Hpre Hd]. apply Forall_cons in Hd as [Hop Hrest].
  cbn [label_map]. intros Ht. apply label_map_cases in Ht; [|done]. destruct (has_label lab rest); [lia|].
  assert (label_map ds pre 0 ∅ !! lab = Some t) as Hp.
  { destruct (aopcode op) as [|[]]; try exact Ht. by destruct (Hl l). }
  apply label_map_cases in Hp; [|done]. destruct (has_label lab pre); [lia|done].
Qed.

Lemma direction_ok_expanded op rest rest' : expanded rest rest' -> direction_ok op rest -> direction_ok op rest'.
Proof.
  destruct rest as [|next rest]; intros He; [by apply expanded_nil_inv in He as ->|].
  apply expanded_cons_inv in He as (new & rest1 & -> & Hn & Hr). unfold direction_ok.
  destruct (aopcode op) as [|[]]; try done. destruct Hn; cbn -[has_label]; try done. by rewrite (expanded_has_label _ _ _ Hr).
Qed.

(** The direction that [rewrite_op] chooses *)
Lemma rewrite_op_direction pre op rest rest' new b :
  Forall (data_ok ds) (pre ++ op :: rest) -> expanded rest rest' -> direction_ok op rest -> directions_ok rest' ->
  rewrite_op (label_map ds (pre ++ op :: rest) 0 ∅) (total_size ds pre) op = Ok (new, b) ->
  directions_ok (new ++ rest').
Proof.
  intros Hd He Hop Hrest H. pose proof (fun lab t Hl => label_direction pre op rest lab t Hd Hl) as Hdir.
  assert (directions_ok (op :: rest')) as Hop' by (split; [by eapply direction_ok_expanded|done]).
  assert (forall lab t fwd bwd, label_map ds (pre ++ op :: rest) 0 ∅ !! lab = Some t ->
    0 < size_of ds op -> (forall l, aopcode op <> inr (CLabel l)) -> abs_diff t (total_size ds pre) <> 0 ->
    (forall c, jump_forward (mkAllocatedOp (inl fwd) c) = Some true) ->
    (forall c, jump_forward (mkAllocatedOp (inl bwd) c) = Some false) ->
    directions_ok ([load_label lab; mkAllocatedOp (inl (if t <? total_size ds pre then bwd else fwd)) (acomment op)]
      ++ rest')) as Hfar.
  { intros lab t fwd bwd Ht Hs Hl Ha Hf Hb. specialize (Hdir lab t Hl Ht). unfold abs_diff in Ha.
    split; [|by split]. unfold direction_ok. cbn [aopcode load_label app]. rewrite (expanded_has_label _ _ _ He).
    destruct (Z.ltb_spec t (total_size ds pre)); rewrite ?Hf, ?Hb; destruct (has_label lab rest); done || lia. }
  assert (directions_ok ([self_loop_noop; op] ++ rest')) as Hnoop by (by split).
  unfold rewrite_op in H. unfold size_of, instruction_size in Hfar.
  destruct (aopcode op) as [|c] eqn:Hc; [by inv_ok|].
  destruct c as [| |lab|r lab|lab| | | | | |]; inv_ok; try exact Hop';
    try (destruct (abs_diff _ _ <=? _); [|done]; inv_ok; exact Hop').
  1-3: apply label_offset_Ok in Hok; destruct (Z.eqb_spec (abs_diff r (total_size ds pre)) 0) ||
    destruct (Z.eqb_spec (abs_diff r0 (total_size ds pre)) 0); [by inv_ok|]; destruct (_ <=? _); inv_ok; [done|];
    by apply Hfar.
Qed.

Lemma rewrite_far_jumps_directions pre ops ops' b :
  Forall (data_ok ds) (pre ++ ops) -> directions_ok ops ->
  rewrite_far_jumps ds (label_map ds (pre ++ ops) 0 ∅) ops (total_size ds pre) = Ok (ops', b) ->
  directions_ok ops'.
Proof.
  revert pre ops' b. induction ops as [|op ops IH]; intros pre ops' b Hd Hok H; cbn [rewrite_far_jumps] in H.
  - by inv_ok.
  - inv_ok. rename r into size, Hok0 into Hs, r0 into n, Hok1 into Hn, r1 into rest, Hok2 into Hrest.
    destruct n as [n1 n2], rest as [rest1 rest2]. cbn [fst snd directions_ok] in *. destruct Hok as [Hop Hok].
    pose proof (rewrite_far_jumps_expanded _ _ _ _ _ _ Hrest) as He.
    eapply rewrite_op_direction; [done..| |done].
    eapply (IH (pre ++ [op])); [by rewrite <- app_assoc|done|]. rewrite <- app_assoc, total_size_app. cbn.
    rewrite (instruction_size_of _ _ _ Hs), Z.add_0_r. exact Hrest.
Qed.

Lemma resolve_labels_expanded fuel ops ops' blocks :
  resolve_labels fuel ds ops = Ok (ops', blocks) -> Forall (data_ok ds) ops -> directions_ok ops ->
  expanded ops ops' /\ directions_ok ops'.
Proof.
  revert ops. induction fuel as [|fuel IH]; intros ops H Hd Hdir; cbn [resolve_labels] in H; [done|]. inv_ok.
  rename r into r1, Hok into Hm. destruct r1 as [need b]. apply map_label_offsets_spec in Hm as (_ & -> & _).
  cbn [fst snd] in H. destruct need; [|injection H as <- <-; split; [apply expanded_refl|done]]. inv_ok.
  rename r into r2, Hok into Hr. destruct r2 as [new changed]. cbn [fst snd] in H.
  pose proof (rewrite_far_jumps_expanded _ _ _ _ _ _ Hr) as He.
  pose proof (rewrite_far_jumps_directions [] _ _ _ Hd Hdir Hr) as Hdir'.
  destruct changed; [|by injection H as <- <-].
  destruct (IH new H (expanded_data_ok _ _ _ He Hd) Hdir') as [He' ?]. split; [by eapply expanded_trans|done].
Qed.
End labels.

(** ** Theorems *)

(** An instruction of the input: its data exist, and it is not one of those that
    [rewrite_far_jumps] inserts. *)
Definition input_ok (ds : DataSection) (op : AllocatedAbstractOp) : Prop :=
  data_ok ds op /\ match aopcode op with inr (LoadLabel _ _) => False | _ => True end.

Lemma input_directions_ok ds ops : Forall (input_ok ds) ops -> directions_ok ops.
Proof.
  induction 1 as [|op ops [_ Hop] _ IH]; cbn; [done|]. split; [|done]. unfold direction_ok.
  by destruct (aopcode op) as [|[]].
Qed.

Lemma offset_at_lookup ds pre op rest : offset_at ds (pre ++ op :: rest) (length pre) = total_size ds pre.
Proof. unfold offset_at. by rewrite take_app_length. Qed.

Lemma directions_ok_app pre ops : directions_ok (pre ++ ops) -> directions_ok ops.
Proof. induction pre as [|op pre IH]; cbn; [done|]. by intros [_ H]; apply IH. Qed.

(** A far jump at the position [S i], after the load of the label at [i], goes to the
    label: the loaded word [w] is the distance that the jump adds one to. *)
Definition far_jumps_ok (ds ds' : DataSection) (blocks : LabeledBlocks) (ops : list AllocatedAbstractOp)
    (chunks : list (list RealizedOp)) : Prop :=
  forall i op r lab next forward chunk,
    ops !! i = Some op -> aopcode op = inr (LoadLabel r lab) ->
    ops !! S i = Some next -> jump_forward next = Some forward -> chunks !! i = Some chunk ->
    exists t id w, blocks !! lab = Some t /\ codes chunk = [LoadDataId r id] /\ get_data_word ds' id = Some w /\
      t = if (forward : bool) then offset_at ds ops (S i) + (w + 1) else offset_at ds ops (S i) - (w + 1).

Lemma directions_far_jumps ds ds' ops chunks :
  Forall (data_ok ds) ops -> directions_ok ops ->
  (forall i op chunk, ops !! i = Some op -> chunks !! i = Some chunk ->
     chunk_ok ds' (label_map ds ops 0 ∅) (offset_at ds ops i) op chunk) ->
  far_jumps_ok ds ds' (label_map ds ops 0 ∅) ops chunks.
Proof.
  intros Hd Hdir Hch i op r lab next fwd chunk Hop Hlab Hnext Hfwd Hchunk.
  specialize (Hch i op chunk Hop Hchunk). unfold chunk_ok in Hch. rewrite Hlab in Hch.
  destruct Hch as (t & id & w & Ht & Hc & Hw & Ha). exists t, id, w. split_and!; try done.
  apply list_elem_of_split_length in Hop as (pre & rest & -> & ->).
  assert (offset_at ds (pre ++ op :: rest) (S (length pre)) = total_size ds pre + 1) as ->.
  { unfold offset_at. rewrite (cons_middle op pre rest), app_assoc, take_app_length', total_size_app
      by (rewrite length_app; cbn; lia). cbn. unfold size_of, instruction_size. rewrite Hlab. lia. }
  rewrite offset_at_lookup in Ha. apply directions_ok_app in Hdir as [Hdir _]. unfold direction_ok in Hdir.
  rewrite Hlab in Hdir. rewrite lookup_app_r in Hnext by lia. replace (S (length pre) - length pre)%nat with 1%nat in Hnext by lia.
  destruct rest as [|next' rest]; [done|]. cbn in Hnext. injection Hnext as ->. rewrite Hfwd in Hdir.
  pose proof (label_direction ds pre op (next :: rest) lab t Hd ltac:(by rewrite Hlab) Ht) as Hside.
  assert (is_label lab next = false) as Hn.
  { unfold is_label, jump_forward in *. by destruct (aopcode next) as [|[]]. }
  unfold has_label in Hside. cbn in Hside. rewrite Hn in Hside. cbn in Hside. fold (has_label lab rest) in Hside.
  rewrite <- Hdir in Hside. unfold abs_diff in Ha. unfold size_of, instruction_size in Hside. rewrite Hlab in Hside.
  destruct fwd; lia.
Qed.

(** The bytes that come before the instruction at a position *)
Lemma chunks_bytes ds ds' blocks ops chunks i :
  extends ds ds' -> Forall (data_ok ds) ops -> Forall (op_stable ds ds') ops -> length chunks = length ops ->
  (forall i op chunk, ops !! i = Some op -> chunks !! i = Some chunk ->
     chunk_ok ds' blocks (offset_at ds ops i) op chunk) ->
  bytes_of ds' (concat (take i chunks)) = 4 * offset_at ds ops i.
Proof.
  intros Hx Hd Hst Hlen Hch. induction i as [|i IH]; [done|]. destruct (chunks !! i) as [chunk|] eqn:Hc.
  - assert (is_Some (ops !! i)) as [op Hop] by (apply lookup_lt_is_Some; rewrite <- Hlen; by apply lookup_lt_Some in Hc).
    unfold offset_at in *. rewrite (take_S_r _ _ _ Hc), (take_S_r _ _ _ Hop), concat_app, bytes_of_app, IH, total_size_app.
    change (concat [chunk]) with (chunk ++ []). rewrite app_nil_r. assert (data_ok ds op) as Hdop by (by eapply Forall_lookup_1).
    assert (op_stable ds ds' op) as Hsop by (by eapply Forall_lookup_1).
    specialize (Hch i op chunk Hop Hc). rewrite (chunk_bytes ds' blocks _ op chunk Hch).
    + unfold size_of. rewrite (extends_instruction_size ds ds' op Hx Hdop Hsop). cbn. unfold size_of, total_size. lia.
    + by eapply extends_data_ok.
  - unfold offset_at in *. apply lookup_ge_None in Hc.
    rewrite !take_ge in IH by lia. rewrite !take_ge by lia. exact IH.
Qed.

(** The result of [realize_labels] *)
Lemma realize_labels_resolution ds ops rs blocks ds' :
  realize_labels ds ops = Ok (rs, blocks, ds') -> Forall (input_ok ds) ops -> Forall (op_stable ds ds') ops ->
  Z.of_nat (num_entries ds') < 2 ^ 32 ->
  exists ops' chunks,
    expanded ops ops' /\ rs = concat chunks /\ length chunks = length ops' /\ blocks = label_map ds ops' 0 ∅ /\
    (forall i op chunk, ops' !! i = Some op -> chunks !! i = Some chunk ->
       chunk_ok ds' blocks (offset_at ds ops' i) op chunk) /\
    far_jumps_ok ds ds' blocks ops' chunks /\
    (forall i, bytes_of ds' (concat (take i chunks)) = 4 * offset_at ds ops' i).
Proof.
  intros H Hin Hst Hn. unfold realize_labels in H. inv_ok. rename r into resolved, Hok into Hr, r0 into realized, Hok0 into Hz.
  destruct resolved as [ops' blocks], realized as [rs ds']. cbn [fst snd] in *.
  assert (Forall (data_ok ds) ops) as Hd by (eapply Forall_impl; [exact Hin|by intros op [? _]]).
  destruct (resolve_labels_expanded _ _ _ _ _ Hr Hd (input_directions_ok ds ops Hin)) as [He Hdir].
  apply resolve_labels_spec in Hr as (_ & -> & Hnear). pose proof (expanded_data_ok _ _ _ He Hd) as Hd'.
  apply (expanded_stable _ _ _ _ He) in Hst. pose proof (realize_ops_extends _ _ _ _ _ _ Hz Hn) as Hx.
  apply (realize_ops_spec ds _ _ _ 0) in Hz as (chunks & -> & Hlen & Hch); [|apply extends_refl|done..].
  exists ops', chunks. split_and!; try done; [by apply directions_far_jumps|]. intros i. by eapply chunks_bytes.
Qed.

(** C6. When [realize_labels] succeeds, its code is the input with every
    instruction kept, except that a jump may be preceded by no-ops and that a jump
    that is too far is replaced by a load of its distance and a jump through the
    scratch register.  The offset of a label is its position in the emitted code
    (in words), every jump goes to the offset of its label, whether it is near, far
    or saves a return address, and the offsets agree with the sizes of
    [op_size_in_bytes].  The condition is that no configurable whose address is taken
    moves over the limit of an immediate when the distances of far jumps are inserted
    before it ([op_stable]); otherwise labels are misplaced, as the lemma at the end of
    this file shows.  The input has no [LoadLabel], and the data section has fewer than
    2^32 entries. *)
Theorem realize_labels_correct ds ops rs blocks ds' :
  realize_labels ds ops = Ok (rs, blocks, ds') -> Forall (input_ok ds) ops -> Forall (op_stable ds ds') ops ->
  Z.of_nat (num_entries ds') < 2 ^ 32 ->
  exists ops' chunks,
    expanded ops ops' /\ rs = concat chunks /\ length chunks = length ops' /\ blocks = label_map ds ops' 0 ∅ /\
    (forall i op chunk, ops' !! i = Some op -> chunks !! i = Some chunk ->
       chunk_ok ds' blocks (offset_at ds ops' i) op chunk) /\
    far_jumps_ok ds ds' blocks ops' chunks /\
    (forall i, bytes_of ds' (concat (take i chunks)) = 4 * offset_at ds ops' i).
Proof. apply realize_labels_resolution. Qed.

(** A conditional jump over 5000 words, a near jump back to the start and a return
    address *)
Definition label_sample : list AllocatedAbstractOp :=
  map (fun op => mkAllocatedOp op "")
    [inr (CLabel 0%nat); inr (SaveRetAddr (Allocated 1) 1%nat); inr (JumpIfNotZero (Allocated 0) 2%nat);
     inr (CLabel 1%nat); inl (BLOB (mkImm24 5000)); inr (CLabel 2%nat); inr (Jump 0%nat)].

Definition label_sample_realized : list RealizedOp * LabeledBlocks * DataSection :=
  match realize_labels (mkDataSection [] [] ∅) label_sample with Ok r => r | Err _ => ([], ∅, mkDataSection [] [] ∅) end.

Lemma label_sample_codes : map ropcode label_sample_realized.1.1 =
  [SUB (Allocated 1) (AllocatedConstant ProgramCounter) (AllocatedConstant InstructionStart);
   SRLI (Allocated 1) (Allocated 1) (mkImm12 2); ADDI (Allocated 1) (Allocated 1) (mkImm12 5);
   LoadDataId scratch (mkDataId 0 NonConfigurable); JNZF (Allocated 0) scratch (mkImm12 0);
   BLOB (mkImm24 5000); JMPB zero_reg (mkImm18 5004)].
Proof. vm_compute. reflexivity. Qed.

Lemma realize_labels_correct_witness : exists ops' chunks,
  expanded label_sample ops' /\ label_sample_realized.1.1 = concat chunks /\ length chunks = length ops' /\
  label_sample_realized.1.2 = label_map (mkDataSection [] [] ∅) ops' 0 ∅.
Proof.
  destruct (realize_labels_correct (mkDataSection [] [] ∅) label_sample label_sample_realized.1.1
    label_sample_realized.1.2 label_sample_realized.2) as (ops' & chunks & He & Hr & Hl & Hb & _).
  - vm_compute. reflexivity.
  - repeat constructor; vm_compute; congruence.
  - repeat constructor.
  - vm_compute. reflexivity.
  - exists ops', chunks. by split_and!.
Defined.

(** Without the condition on addresses the code goes wrong: the distance of the far jump is put
    before the configurable, whose address is then out of the range of an immediate and takes
    two instructions, at the words 2 and 3, instead of one.  The label behind it is recorded
    at the word 3 although the code before it has four words, and the jump at the word 5004
    goes back by 5001 words, between the two instructions. *)
Definition moved_data : DataSection :=
  mkDataSection [new_byte_array (replicate 4088 0) NamedNonConfigurable None] [new_word 5 (NamedConfigurable "LIMIT") None] ∅.
Definition moved_ops : list AllocatedAbstractOp :=
  map (fun op => mkAllocatedOp op "")
    [inr (JumpIfNotZero (Allocated 0) 2%nat); inl (AddrDataId (Allocated 1) (mkDataId 0 Configurable)); inr (CLabel 1%nat);
     inl (BLOB (mkImm24 5000)); inr (CLabel 2%nat); inr (Jump 1%nat)].

Lemma moved_address_stale_label : exists rs blocks ds', realize_labels moved_data moved_ops = Ok (rs, blocks, ds') /\
  blocks !! 1%nat = Some 3 /\ bytes_of ds' (take 3 rs) = 4 * 4 /\
  map ropcode rs = [LoadDataId scratch (mkDataId 1 NonConfigurable); JNZF (Allocated 0) scratch (mkImm12 0); AddrDataId (Allocated 1) (mkDataId 0 Configurable);
    BLOB (mkImm24 5000); JMPB zero_reg (mkImm18 5000)].
Proof. eexists _, _, _. split; [vm_compute; reflexivity|]. split_and!; vm_compute; reflexivity. Qed.
