(* ===== verification/AsmSaved.v ===== *)
(** * The registers that a function saves

    [emit_pusha_popa] replaces the pushes and pops of a section by instructions whose
    masks are exactly the registers that the section defines, and the base of the
    locals. *)

From S2P Require Import Prelude AsmRegister AsmVirtualOp AsmOp AsmData AsmLiveness AsmLabels.
Local Open Scope Z_scope.

Import AllocatedOpcode.

(** ** Specification *)

(** The sections that are open after some instructions *)
Definition open_after (active : gset Label) (op : AllocatedAbstractOp) : gset Label :=
  match aopcode op with
  | inr (PushAll label) => {[label]} ∪ active
  | inr (PopAll label) => active ∖ {[label]}
  | _ => active
  end.

Definition defines (op : AllocatedAbstractOp) (reg : AllocatedRegister) : Prop :=
  match aopcode op with
  | inl alloc_op => exists regs, def_registers alloc_op = Ok regs /\ reg ∈ regs
  | inr ctrl_op => reg ∈ ControlFlowOp_def_registers ctrl_op
  end.

(** [reg] is defined by an instruction inside of the section [label]. *)
Definition defined_in (active : gset Label) (ops : list AllocatedAbstractOp) (label : Label) (reg : AllocatedRegister)
    : Prop :=
  exists j op, ops !! j = Some op /\ defines op reg /\ label ∈ foldl open_after active (take j ops).

(** What is saved for a section *)
Definition saved (ops : list AllocatedAbstractOp) (label : Label) (reg : AllocatedRegister) : Prop :=
  reg = AllocatedConstant LocalsBase \/ (exists n, reg = Allocated n) /\ defined_in ∅ ops label reg.

(** ** Sections *)

Definition noted (sets : gmap Label (list AllocatedRegister)) (label : Label) (reg : AllocatedRegister) : Prop :=
  reg ∈ default [] (sets !! label).

Lemma add_register_elem reg regs r : r ∈ add_register reg regs <-> r = reg \/ r ∈ regs.
Proof.
  unfold add_register. case_bool_decide; [naive_solver|]. rewrite elem_of_app, list_elem_of_singleton. tauto.
Qed.

Lemma note_register_noted active sets reg label r :
  noted (note_register active sets reg) label r <-> noted sets label r \/ (label ∈ active /\ r = reg).
Proof.
  unfold note_register.
  apply (set_fold_ind_L (fun s (X : gset Label) => noted s label r <-> noted sets label r \/ (label ∈ X /\ r = reg))).
  - set_solver.
  - intros l X s Hl IH. unfold noted in *. destruct (decide (l = label)) as [->|Hne].
    + rewrite lookup_insert_eq. cbn. rewrite add_register_elem, IH. set_solver.
    + rewrite lookup_insert_ne by done. set_solver.
Qed.

Lemma note_registers_noted active regs sets label r :
  noted (foldl (note_register active) sets regs) label r <-> noted sets label r \/ (label ∈ active /\ r ∈ regs).
Proof.
  revert sets. induction regs as [|reg regs IH]; intros sets; cbn; [set_solver|].
  rewrite IH, note_register_noted. set_solver.
Qed.

Lemma section_op_spec st op st' label r :
  section_op st op = Ok st' ->
  active_sets st' = open_after (active_sets st) op /\
  (noted (reg_sets st') label r <-> noted (reg_sets st) label r \/ (label ∈ active_sets st /\ defines op r)).
Proof.
  unfold section_op, open_after, defines. destruct (aopcode op) as [v|c].
  - intros H. inv_ok. split; [done|]. cbn. rewrite note_registers_noted, Hok. naive_solver.
  - destruct c; intros H; inv_ok; (split; [done|]); cbn [reg_sets]; rewrite ?note_registers_noted; cbn;
      rewrite ?note_register_noted, ?elem_of_nil, ?list_elem_of_singleton; tauto.
Qed.

Lemma defined_in_cons active op ops label r :
  defined_in active (op :: ops) label r <->
  (label ∈ active /\ defines op r) \/ defined_in (open_after active op) ops label r.
Proof.
  split.
  - intros ([|j] & op' & Hj & Hd & Hl); cbn in *; [injection Hj as ->; by left|]. right. by exists j, op'.
  - intros [[Hl Hd]|(j & op' & Hj & Hd & Hl)]; [by exists 0%nat, op|]. by exists (S j), op'.
Qed.

Lemma section_ops_spec ops st st' label r :
  section_ops ops st = Ok st' ->
  noted (reg_sets st') label r <-> noted (reg_sets st) label r \/ defined_in (active_sets st) ops label r.
Proof.
  revert st. induction ops as [|op ops IH]; intros st H; cbn in H.
  - inv_ok. split; [by left|]. intros [?|(j & op & Hj & _)]; [done|]. by destruct j.
  - inv_ok. rename r0 into st1, Hok into Hop. destruct (section_op_spec _ _ _ label r Hop) as [Ha Hn].
    rewrite (IH _ H), Hn, Ha, defined_in_cons. tauto.
Qed.

(** ** Masks *)

Section masks.
Context (vm_reg : ConstantRegister -> Z).

(** The register [16 + b] is in the pair of masks. *)
Definition in_masks (masks : Z * Z) (b : Z) : bool :=
  if b <? 24 then Z.testbit masks.1 b else Z.testbit masks.2 (b - 24).

Lemma mask_step_spec accum reg accum' b :
  mask_step vm_reg accum reg = Ok accum' -> 0 <= b < 48 ->
  in_masks accum' b = true <-> in_masks accum b = true \/ to_reg_id vm_reg reg = Ok (16 + b).
Proof.
  unfold mask_step, in_masks. intros H Hb. inv_ok. rename r into id. rewrite Hok.
  destruct (Z.leb_spec 16 id), (Z.ltb_spec id 64); try done. cbn in H. inv_ok.
  assert (Ok id = Ok (16 + b) <-> id = 16 + b) as -> by (split; congruence).
  destruct (Z.ltb_spec (id - 16) 24), (Z.ltb_spec b 24); cbn [fst snd];
    rewrite ?Z.shiftl_1_l, ?Z.lor_spec, ?Z.pow2_bits_eqb, ?orb_true_iff, ?Z.eqb_eq by lia; intuition lia.
Qed.

Lemma mask_loop_spec regs accum accum' b :
  mask_loop vm_reg regs accum = Ok accum' -> 0 <= b < 48 ->
  in_masks accum' b = true <-> in_masks accum b = true \/ exists reg, reg ∈ regs /\ to_reg_id vm_reg reg = Ok (16 + b).
Proof.
  revert accum. induction regs as [|reg regs IH]; intros accum H Hb; cbn in H.
  - inv_ok. set_solver.
  - inv_ok. rewrite (IH _ H Hb), (mask_step_spec _ _ _ _ Hok Hb). set_solver.
Qed.

Lemma mask_imm_Ok mask i : mask_imm mask = Ok i -> value24 i = mask.
Proof. unfold mask_imm, Imm24_new, Immediate_new. destruct (_ <? _); [done|]. by intros [= <-]. Qed.

Lemma generate_mask_spec regs l h :
  generate_mask vm_reg regs = Ok (l, h) ->
  forall b, 0 <= b < 48 -> in_masks (value24 l, value24 h) b = true <->
    exists reg, reg ∈ regs /\ to_reg_id vm_reg reg = Ok (16 + b).
Proof.
  unfold generate_mask. intros H b Hb. inv_ok. rename r into masks, Hok into Hm.
  apply mask_imm_Ok in Hok0 as ->, Hok1 as ->. rewrite <- surjective_pairing.
  rewrite (mask_loop_spec _ _ _ _ Hm Hb). unfold in_masks. cbn. rewrite !Z.bits_0. destruct (b <? 24); naive_solver.
Qed.

Lemma saved_registers_elem sets label regs reg :
  saved_registers sets label = Ok regs ->
  reg ∈ regs <-> reg = AllocatedConstant LocalsBase \/ (exists n, reg = Allocated n) /\ noted sets label reg.
Proof.
  unfold saved_registers, noted. destruct (sets !! label) as [l|]; [|done]. intros H. inv_ok. cbn.
  rewrite elem_of_app, list_elem_of_singleton, list_elem_of_In, filter_In, <- list_elem_of_In.
  destruct reg; naive_solver.
Qed.

(** ** Theorems *)

(** What [emit_pusha_popa] replaces an instruction with *)
Definition saves (ops : list AllocatedAbstractOp) (op : AllocatedAbstractOp) (part : list AllocatedAbstractOp) : Prop :=
  let exact label (l h : VirtualImmediate24) :=
    forall b, 0 <= b < 48 -> in_masks (value24 l, value24 h) b = true <->
      exists reg, saved ops label reg /\ to_reg_id vm_reg reg = Ok (16 + b) in
  match aopcode op with
  | inr (PushAll label) =>
      exists l h, exact label l h /\ map aopcode part =
        (if value24 l =? 0 then [] else [inl (PSHL l)]) ++ (if value24 h =? 0 then [] else [inl (PSHH h)])
  | inr (PopAll label) =>
      exists l h, exact label l h /\ map aopcode part =
        (if value24 h =? 0 then [] else [inl (POPH h)]) ++ (if value24 l =? 0 then [] else [inl (POPL l)])
  | _ => part = [op]
  end.

Lemma emit_op_spec ops st op part :
  section_ops ops (mkSections ∅ ∅) = Ok st -> emit_op vm_reg (reg_sets st) op = Ok part -> saves ops op part.
Proof.
  intros Hst H. unfold emit_op, saves in *.
  assert (forall label regs l h, saved_registers (reg_sets st) label = Ok regs -> generate_mask vm_reg regs = Ok (l, h) ->
    forall b, 0 <= b < 48 -> in_masks (value24 l, value24 h) b = true <->
      exists reg, saved ops label reg /\ to_reg_id vm_reg reg = Ok (16 + b)) as Hexact.
  { intros label regs l h Hr Hm b Hb. rewrite (generate_mask_spec _ _ _ Hm b Hb). unfold saved.
    assert (forall reg, reg ∈ regs <->
      reg = AllocatedConstant LocalsBase \/ (exists n, reg = Allocated n) /\ defined_in ∅ ops label reg) as Hiff.
    { intros reg. rewrite (saved_registers_elem _ _ _ _ Hr), (section_ops_spec _ _ _ label reg Hst).
      assert (~ noted ∅ label reg) by (unfold noted; rewrite lookup_empty; set_solver). cbn. tauto. }
    by setoid_rewrite Hiff. }
  destruct (aopcode op) as [|[]]; inv_ok; try done; destruct r0 as [m1 m2]; exists m1, m2;
    (split; [by eapply Hexact|]); cbn; by repeat case_match.
Qed.

(** [emit_pusha_popa] replaces every push of a section by pushes, and every pop
    by pops in the reverse order, whose masks hold exactly the allocated registers
    that instructions of the section define, and the base of the locals; it keeps
    the other instructions. *)
Theorem emit_pusha_popa_saves ops ops' :
  emit_pusha_popa vm_reg ops = Ok ops' -> exists parts, ops' = concat parts /\ Forall2 (saves ops) ops parts.
Proof.
  unfold emit_pusha_popa. intros H. inv_ok. rename r into st, Hok into Hst.
  apply concat_traverse_Ok in H as (parts & Hp & ->). exists parts. split; [done|]. apply traverse_Ok in Hp.
  eapply Forall2_impl; [exact Hp|]. intros op part. by apply emit_op_spec.
Qed.
End masks.

(** A function whose body defines the registers 3 and 30 *)
Definition saved_sample : list AllocatedAbstractOp :=
  map (fun op => mkAllocatedOp op "")
    [inr (PushAll 0%nat); inl (MOVI (Allocated 3) (mkImm18 1)); inl (MOVI (Allocated 30) (mkImm18 2));
     inr (PopAll 0%nat); inl (MOVI (Allocated 5) (mkImm18 3))].

Definition saved_sample_emitted : list AllocatedAbstractOp :=
  match emit_pusha_popa declared_ids saved_sample with Ok ops => ops | Err _ => [] end.

Lemma saved_sample_masks : map aopcode saved_sample_emitted =
  [inl (PSHL (mkImm24 8)); inl (PSHH (mkImm24 524352)); inl (MOVI (Allocated 3) (mkImm18 1));
   inl (MOVI (Allocated 30) (mkImm18 2)); inl (POPH (mkImm24 524352)); inl (POPL (mkImm24 8));
   inl (MOVI (Allocated 5) (mkImm18 3))].
Proof. vm_compute. reflexivity. Qed.

Lemma emit_pusha_popa_saves_witness :
  exists parts, saved_sample_emitted = concat parts /\ Forall2 (saves declared_ids saved_sample) saved_sample parts.
Proof. apply (emit_pusha_popa_saves declared_ids saved_sample saved_sample_emitted). vm_compute. reflexivity. Defined.
