(* ===== verification/AsmBytecode.v ===== *)
(** * Bytecode

    Models the last step of the back end: [to_fuel_asm], [addr_of] and
    [realize_load] of [asm_lang/allocated_ops.rs], [allocated_ops] of
    [abstract_instruction_set.rs] and [to_bytecode_mut] of
    [asm_generation/finalized_asm.rs].  An instruction of the VM is the name, the
    register ids and the immediate that the constructors of the crate [fuel_asm]
    get; its encoding is a parameter.  Printing and the source map are left out. *)

From S2P Require Import Prelude AsmRegister AsmVirtualOp AsmOp AsmData AsmLiveness AsmLabels.
Local Open Scope Z_scope.

Import AllocatedOpcode.

(** ** Instructions *)

Record Instruction : Type := mkInstruction { mnemonic : string; operands : list Z; immediate : option Z }.

Inductive FuelAsmData : Type :=
  | ConfigurablesOffset (data : list Z)
  | DatasectionOffset (data : list Z)
  | Instructions (instructions : list Instruction).

Record AllocatedOp : Type := mkAllocated { fopcode : AllocatedOpcode; fcomment : string }.

Definition allocated_ops (ops : list RealizedOp) : list AllocatedOp :=
  map (fun op => mkAllocated (ropcode op) (rcomment op)) ops.

(** [Option::expect] *)
Definition expect {A} (o : option A) (msg : string) : Result A :=
  match o with Some a => Ok a | None => Err (Panic msg) end.

Section fuel_asm.
Context (vm_reg : ConstantRegister -> Z).

Definition instruction (name : string) (regs : list AllocatedRegister) (imm : option Z) : Result FuelAsmData :=
  ids ← traverse (to_reg_id vm_reg) regs;
  Ok (Instructions [mkInstruction name ids imm]).

(** The conversions to [u16] and [u32] are checked. *)
Definition addr_of (dest : AllocatedRegister) (data_id : DataId) (data_section : DataSection)
    : Result (list Instruction) :=
  let offset_bytes := Z.of_nat (data_id_to_offset data_section data_id) in
  d ← to_reg_id vm_reg dest;
  if offset_bytes <=? 4095 then Ok [mkInstruction "ADDI" [d; DATA_SECTION_REGISTER] (Some offset_bytes)]
  else if offset_bytes <? 2 ^ 32 then
    Ok [mkInstruction "MOVI" [d] (Some offset_bytes); mkInstruction "ADD" [d; d; DATA_SECTION_REGISTER] None]
  else Err (Panic "called `Result::unwrap()` on an `Err` value: TryFromIntError(())").

(** The distance of the data from the instruction after the load *)
Definition pointer_offset (offset_to_data_section offset_from_instr_start offset_bytes : Z) : Result Z :=
  d ← u64_sub offset_to_data_section offset_from_instr_start;
  u64_sub (d + offset_bytes) 4.

(** The pointer to data that does not fit in a register is a word, so that a load
    recurs once. *)
Fixpoint realize_load (fuel : nat) (dest : AllocatedRegister) (data_id : DataId) (data_section : DataSection)
    (offset_to_data_section offset_from_instr_start : Z) : Result (list Instruction) :=
  match fuel with
  | 0%nat => Err OutOfFuel
  | S fuel' =>
      let msg := "Internal miscalculation in data section -- data id did not match up to any actual data"%string in
      copy ← expect (has_copy_type data_section data_id) msg;
      byte ← expect (is_byte data_section data_id) msg;
      let offset_bytes := Z.of_nat (data_id_to_offset data_section data_id) in
      if negb (offset_bytes mod 8 =? 0) then
        Err (Panic "Internal miscalculation in data section -- data offset is not aligned to a word")
      else
        let offset_words := offset_bytes / 8 in
        offset ← match Imm12_new (if (byte : bool) then offset_bytes else offset_words) with
                 | Ok value => Ok value
                 | Err _ => Err (Panic "Unable to offset into the data section more than 2^12 bits.")
                 end;
        if negb copy then
          pointer ← pointer_offset offset_to_data_section offset_from_instr_start offset_bytes;
          id ← expect (data_id_of_pointer data_section pointer) "Pointer offset must be in data_section";
          buf ← realize_load fuel' dest id data_section offset_to_data_section offset_from_instr_start;
          d ← to_reg_id vm_reg dest;
          Ok (buf ++ [mkInstruction "ADD" [d; d; constant_to_reg_id vm_reg ProgramCounter] None])
        else
          d ← to_reg_id vm_reg dest;
          Ok [mkInstruction (if (byte : bool) then "LB" else "LW") [d; DATA_SECTION_REGISTER] (Some (value12 offset))]
  end.

Definition to_fuel_asm (opcode : AllocatedOpcode) (offset_to_data_section offset_from_instr_start : Z)
    (data_section : DataSection) : Result FuelAsmData :=
  match opcode with
  | ADD a b c => instruction "ADD" [a; b; c] None
  | ADDI a b c => instruction "ADDI" [a; b] (Some (value12 c))
  | AND a b c => instruction "AND" [a; b; c] None
  | ANDI a b c => instruction "ANDI" [a; b] (Some (value12 c))
  | DIV a b c => instruction "DIV" [a; b; c] None
  | DIVI a b c => instruction "DIVI" [a; b] (Some (value12 c))
  | EQ a b c => instruction "EQ" [a; b; c] None
  | EXP a b c => instruction "EXP" [a; b; c] None
  | EXPI a b c => instruction "EXPI" [a; b] (Some (value12 c))
  | GT a b c => instruction "GT" [a; b; c] None
  | LT a b c => instruction "LT" [a; b; c] None
  | MLOG a b c => instruction "MLOG" [a; b; c] None
  | MOD a b c => instruction "MOD" [a; b; c] None
  | MODI a b c => instruction "MODI" [a; b] (Some (value12 c))
  | MOVE a b => instruction "MOVE" [a; b] None
  | MOVI a b => instruction "MOVI" [a] (Some (value18 b))
  | MROO a b c => instruction "MROO" [a; b; c] None
  | MUL a b c => instruction "MUL" [a; b; c] None
  | MULI a b c => instruction "MULI" [a; b] (Some (value12 c))
  | NOOP => instruction "NOOP" [] None
  | NOT a b => instruction "NOT" [a; b] None
  | OR a b c => instruction "OR" [a; b; c] None
  | ORI a b c => instruction "ORI" [a; b] (Some (value12 c))
  | SLL a b c => instruction "SLL" [a; b; c] None
  | SLLI a b c => instruction "SLLI" [a; b] (Some (value12 c))
  | SRL a b c => instruction "SRL" [a; b; c] None
  | SRLI a b c => instruction "SRLI" [a; b] (Some (value12 c))
  | SUB a b c => instruction "SUB" [a; b; c] None
  | SUBI a b c => instruction "SUBI" [a; b] (Some (value12 c))
  | XOR a b c => instruction "XOR" [a; b; c] None
  | XORI a b c => instruction "XORI" [a; b] (Some (value12 c))
  | WQOP a b c d => instruction "WQOP" [a; b; c] (Some (value06 d))
  | WQML a b c d => instruction "WQML" [a; b; c] (Some (value06 d))
  | WQDV a b c d => instruction "WQDV" [a; b; c] (Some (value06 d))
  | WQMD a b c d => instruction "WQMD" [a; b; c; d] None
  | WQCM a b c d => instruction "WQCM" [a; b; c] (Some (value06 d))
  | WQAM a b c d => instruction "WQAM" [a; b; c; d] None
  | WQMM a b c d => instruction "WQMM" [a; b; c; d] None
  | JMP a => instruction "JMP" [a] None
  | JI a => instruction "JI" [] (Some (value24 a))
  | JNE a b c => instruction "JNE" [a; b; c] None
  | JNEI a b c => instruction "JNEI" [a; b] (Some (value12 c))
  | JNZI a b => instruction "JNZI" [a] (Some (value18 b))
  | JMPB a b => instruction "JMPB" [a] (Some (value18 b))
  | JMPF a b => instruction "JMPF" [a] (Some (value18 b))
  | JNZB a b c => instruction "JNZB" [a; b] (Some (value12 c))
  | JNZF a b c => instruction "JNZF" [a; b] (Some (value12 c))
  | RET a => instruction "RET" [a] None
  | ALOC a => instruction "ALOC" [a] None
  | CFEI a => if value24 a =? 0 then Ok (Instructions []) else instruction "CFEI" [] (Some (value24 a))
  | CFSI a => if value24 a =? 0 then Ok (Instructions []) else instruction "CFSI" [] (Some (value24 a))
  | CFE a => instruction "CFE" [a] None
  | CFS a => instruction "CFS" [a] None
  | LB a b c => instruction "LB" [a; b] (Some (value12 c))
  | LW a b c => instruction "LW" [a; b] (Some (value12 c))
  | MCL a b => instruction "MCL" [a; b] None
  | MCLI a b => instruction "MCLI" [a] (Some (value18 b))
  | MCP a b c => instruction "MCP" [a; b; c] None
  | MCPI a b c => instruction "MCPI" [a; b] (Some (value12 c))
  | MEQ a b c d => instruction "MEQ" [a; b; c; d] None
  | PSHH mask => instruction "PSHH" [] (Some (value24 mask))
  | PSHL mask => instruction "PSHL" [] (Some (value24 mask))
  | POPH mask => instruction "POPH" [] (Some (value24 mask))
  | POPL mask => instruction "POPL" [] (Some (value24 mask))
  | SB a b c => instruction "SB" [a; b] (Some (value12 c))
  | SW a b c => instruction "SW" [a; b] (Some (value12 c))
  | BAL a b c => instruction "BAL" [a; b; c] None
  | BHEI a => instruction "BHEI" [a] None
  | BHSH a b => instruction "BHSH" [a; b] None
  | BURN a b => instruction "BURN" [a; b] None
  | CALL a b c d => instruction "CALL" [a; b; c; d] None
  | CB a => instruction "CB" [a] None
  | CCP a b c d => instruction "CCP" [a; b; c; d] None
  | CROO a b => instruction "CROO" [a; b] None
  | CSIZ a b => instruction "CSIZ" [a; b] None
  | BSIZ a b => instruction "BSIZ" [a; b] None
  | LDC a b c d => instruction "LDC" [a; b; c] (Some (value06 d))
  | BLDD a b c d => instruction "BLDD" [a; b; c; d] None
  | LOG a b c d => instruction "LOG" [a; b; c; d] None
  | LOGD a b c d => instruction "LOGD" [a; b; c; d] None
  | MINT a b => instruction "MINT" [a; b] None
  | RETD a b => instruction "RETD" [a; b] None
  | RVRT a => instruction "RVRT" [a] None
  | SMO a b c d => instruction "SMO" [a; b; c; d] None
  | SCWQ a b c => instruction "SCWQ" [a; b; c] None
  | SRW a b c => instruction "SRW" [a; b; c] None
  | SRWQ a b c d => instruction "SRWQ" [a; b; c; d] None
  | SWW a b c => instruction "SWW" [a; b; c] None
  | SWWQ a b c d => instruction "SWWQ" [a; b; c; d] None
  | TIME a b => instruction "TIME" [a; b] None
  | TR a b c => instruction "TR" [a; b; c] None
  | TRO a b c d => instruction "TRO" [a; b; c; d] None
  | ECK1 a b c => instruction "ECK1" [a; b; c] None
  | ECR1 a b c => instruction "ECR1" [a; b; c] None
  | ED19 a b c d => instruction "ED19" [a; b; c; d] None
  | K256 a b c => instruction "K256" [a; b; c] None
  | S256 a b c => instruction "S256" [a; b; c] None
  | ECOP a b c d => instruction "ECOP" [a; b; c; d] None
  | EPAR a b c d => instruction "EPAR" [a; b; c; d] None
  | ECAL a b c d => instruction "ECAL" [a; b; c; d] None
  | FLAG a => instruction "FLAG" [a] None
  | GM a b => instruction "GM" [a] (Some (value18 b))
  | GTF a b c => instruction "GTF" [a; b] (Some (value12 c))
  | BLOB a => Ok (Instructions (replicate (Z.to_nat (value24 a)) (mkInstruction "NOOP" [] None)))
  | ConfigurablesOffsetPlaceholder => Ok (ConfigurablesOffset [0; 0; 0; 0; 0; 0; 0; 0])
  | DataSectionOffsetPlaceholder => Ok (DatasectionOffset (to_be_bytes offset_to_data_section))
  | LoadDataId a b =>
      l ← realize_load 2 a b data_section offset_to_data_section offset_from_instr_start;
      Ok (Instructions l)
  | AddrDataId a b => l ← addr_of a b data_section; Ok (Instructions l)
  | Undefined => Err (Panic "Sway cannot generate undefined ASM opcodes")
  end.

(** ** [to_bytecode_mut] *)

Record CompiledBytecode : Type := mkBytecode {
  bytecode : list Z;
  named_data_section_entries_offsets : gmap string Z
}.

Context (instruction_to_bytes : Instruction -> list Z).

Fixpoint code_size (data_section : DataSection) (ops : list AllocatedOp) (acc : Z) : Result Z :=
  match ops with
  | [] => Ok acc
  | item :: ops' => size ← op_size_in_bytes data_section (fopcode item); code_size data_section ops' (acc + size)
  end.

Definition alignment_noop : AllocatedOp := mkAllocated NOOP "word-alignment of data section".

(** The loop that inserts the pointers to data that does not fit in a register *)
Fixpoint insert_pointers (offset_to_data_section : Z) (ops : list AllocatedOp) (offset_from_instr_start : Z)
    (data_section : DataSection) : Result DataSection :=
  match ops with
  | [] => Ok data_section
  | op :: ops' =>
      data_section ←
        match fopcode op with
        | LoadDataId _ data_label =>
            copy ← expect (has_copy_type data_section data_label)
                     "data label references non existent data -- internal error";
            if (copy : bool) then Ok data_section
            else
              pointer ← pointer_offset offset_to_data_section offset_from_instr_start
                          (Z.of_nat (data_id_to_offset data_section data_label));
              Ok (append_pointer data_section pointer).1
        | _ => Ok data_section
        end;
      size ← op_size_in_bytes data_section (fopcode op);
      insert_pointers offset_to_data_section ops' (offset_from_instr_start + size) data_section
  end.

(** The bytes of an instruction, and the half words that are counted for it *)
Definition data_bytes (data : FuelAsmData) : list Z * Z :=
  match data with
  | ConfigurablesOffset data | DatasectionOffset data => (data, 2)
  | Instructions instructions =>
      (concat (map instruction_to_bytes instructions), Z.of_nat (length instructions))
  end.

Fixpoint emit (offset_to_data_section : Z) (data_section : DataSection) (ops : list AllocatedOp)
    (offset_from_instr_start : Z) : Result (list Z * Z) :=
  match ops with
  | [] => Ok ([], 0)
  | op :: ops' =>
      fuel_op ← to_fuel_asm (fopcode op) offset_to_data_section offset_from_instr_start data_section;
      size ← op_size_in_bytes data_section (fopcode op);
      rest ← emit offset_to_data_section data_section ops' (offset_from_instr_start + size);
      Ok ((data_bytes fuel_op).1 ++ rest.1, (data_bytes fuel_op).2 + rest.2)
  end.

(** The names of the configurables with their offsets *)
Fixpoint named_offsets (offset_to_data_section : Z) (data_section : DataSection) (entries : list (nat * Entry))
    (named : gmap string Z) : Result (gmap string Z) :=
  match entries with
  | [] => Ok named
  | (id, entry) :: entries' =>
      match entry_name entry with
      | NamedConfigurable name =>
          let offset := absolute_idx_to_offset data_section (id + length (non_configurables data_section)) in
          named_offsets offset_to_data_section data_section entries'
            (<[name := offset_to_data_section + Z.of_nat offset]> named)
      | NamedNonConfigurable => Err (Panic "Non-configurable in configurables part of datasection")
      end
  end.

Definition to_bytecode_mut (ops : list AllocatedOp) (data_section : DataSection)
    : Result (CompiledBytecode * DataSection) :=
  size ← code_size data_section ops 0;
  let '(ops, offset_to_data_section) :=
    if Z.land size 7 =? 0 then (ops, size) else (ops ++ [alignment_noop], size + 4) in
  data_section ← insert_pointers offset_to_data_section ops 0 data_section;
  code ← emit offset_to_data_section data_section ops 0;
  if negb (code.2 * 4 =? offset_to_data_section) then
    Err (Panic "assertion failed: half_word_ix * 4 == offset_to_data_section_in_bytes")
  else if negb (Z.of_nat (length code.1) =? offset_to_data_section) then
    Err (Panic "assertion failed: bytecode.len() == offset_to_data_section_in_bytes")
  else
    named ← named_offsets offset_to_data_section data_section (imap pair (configurables data_section)) ∅;
    Ok (mkBytecode (code.1 ++ serialize_to_bytes data_section) named, data_section).
End fuel_asm.
