(* ===== verification/AsmLayout.v ===== *)
(** * The layout of bytecode

    The instructions of [to_bytecode_mut] take the bytes that are counted for them,
    the data section follows them at a multiple of eight bytes, and the pointers
    that are loaded point to their data. *)

From S2P Require Import Prelude AsmRegister AsmVirtualOp AsmOp AsmData AsmLiveness AsmLabels AsmBytecode.
Local Open Scope Z_scope.

Import AllocatedOpcode.

(** ** Sizes *)

Definition op_bytes (ds : DataSection) (op : AllocatedOp) : Z :=
  match op_size_in_bytes ds (fopcode op) with Ok size => size | Err _ => 0 end.

Definition total_bytes (ds : DataSection) (ops : list AllocatedOp) : Z := foldr (fun op n => op_bytes ds op + n) 0 ops.

Lemma total_bytes_app ds l k : total_bytes ds (l ++ k) = total_bytes ds l + total_bytes ds k.
Proof.
  induction l as [|op l IH]; cbn; [done|]. fold (total_bytes ds (l ++ k)). rewrite IH. unfold total_bytes. lia.
Qed.

(** The data that an instruction refers to exists; the size of a blob is not
    negative. *)
Definition operands_ok (ds : DataSection) (op : AllocatedOp) : Prop :=
  match fopcode op with
  | LoadDataId _ id | AddrDataId _ id => is_Some (DataSection_get ds id)
  | BLOB count => 0 <= value24 count
  | _ => True
  end.

Definition address_stable (ds ds' : DataSection) (op : AllocatedOp) : Prop :=
  match fopcode op with AddrDataId _ id => stable_address ds ds' id | _ => True end.

Lemma op_size_Ok ds op : operands_ok ds op -> op_size_in_bytes ds (fopcode op) = Ok (op_bytes ds op) /\ 0 <= op_bytes ds op.
Proof.
  unfold operands_ok, op_bytes. destruct (fopcode op); intros Ho; cbn -[Z.mul]; try done; try (split; [done|case_match; lia]).
  - split; [done|lia].
  - destruct Ho as [e He]. unfold has_copy_type. rewrite He. cbn. destruct (Entry_has_copy_type e); done.
Qed.

Lemma op_bytes_stable ds ds' op :
  extends ds ds' -> operands_ok ds op -> address_stable ds ds' op -> op_bytes ds' op = op_bytes ds op.
Proof.
  intros Hx Ho Hs. unfold operands_ok, address_stable, op_bytes in *. destruct (fopcode op); try done; cbn.
  - by rewrite (extends_copy_type ds ds' i Hx Ho).
  - unfold stable_address, far_entry in Hs. by rewrite Hs.
Qed.

Lemma total_bytes_stable ds ds' ops :
  extends ds ds' -> Forall (operands_ok ds) ops -> Forall (address_stable ds ds') ops ->
  total_bytes ds' ops = total_bytes ds ops.
Proof.
  intros Hx Ho Hs. induction ops as [|op ops IH]; cbn; [done|]. apply Forall_cons in Ho as [Ho Hos].
  apply Forall_cons in Hs as [Hs Hss]. unfold total_bytes in IH. by rewrite IH, (op_bytes_stable ds ds').
Qed.

Lemma total_bytes_nonneg ds ops : Forall (operands_ok ds) ops -> 0 <= total_bytes ds ops.
Proof.
  induction 1 as [|op ops Ho _ IH]; cbn; [lia|]. destruct (op_size_Ok ds op Ho). unfold total_bytes in IH. lia.
Qed.

Lemma code_size_Ok ds ops acc : Forall (operands_ok ds) ops -> code_size ds ops acc = Ok (acc + total_bytes ds ops).
Proof.
  intros Ho. revert acc. induction Ho as [|op ops Ho _ IH]; intros acc; cbn; [by rewrite Z.add_0_r|].
  rewrite (proj1 (op_size_Ok ds op Ho)). next_step. rewrite IH. f_equal. unfold total_bytes. lia.
Qed.

Section layout.
Context (vm_reg : ConstantRegister -> Z) (instruction_to_bytes : Instruction -> list Z).
Hypothesis instruction_length : forall i, length (instruction_to_bytes i) = 4%nat.

Abbreviation bytes_of_data := (data_bytes instruction_to_bytes).

Definition data_size (data : FuelAsmData) : Z := (bytes_of_data data).2 * 4.

(** ** Loads *)

Lemma instruction_Ok name regs imm data :
  instruction vm_reg name regs imm = Ok data -> exists i, data = Instructions [i].
Proof. unfold instruction. intros H. inv_ok. by eexists. Qed.

Lemma Imm12_new_value raw i : Imm12_new raw = Ok i -> value12 i = raw.
Proof. unfold Imm12_new, Immediate_new. destruct (_ <? _); [done|]. by intros [= <-]. Qed.

Lemma realize_load_cases fuel dest id ds total from l :
  realize_load vm_reg (S fuel) dest id ds total from = Ok l ->
  exists e, DataSection_get ds id = Some e /\
    let offset := Z.of_nat (data_id_to_offset ds id) in
    offset mod 8 = 0 /\
    if Entry_has_copy_type e then
      exists d, to_reg_id vm_reg dest = Ok d /\
        l = [mkInstruction (if Entry_is_byte e then "LB" else "LW") [d; DATA_SECTION_REGISTER]
               (Some (if Entry_is_byte e then offset else offset / 8))]
    else
      exists pointer pid buf d, pointer_offset total from offset = Ok pointer /\
        data_id_of_pointer ds pointer = Some pid /\ realize_load vm_reg fuel dest pid ds total from = Ok buf /\
        to_reg_id vm_reg dest = Ok d /\
        l = buf ++ [mkInstruction "ADD" [d; d; constant_to_reg_id vm_reg ProgramCounter] None].
Proof.
  intros H. cbn [realize_load] in H. unfold has_copy_type, is_byte in H.
  destruct (DataSection_get ds id) as [e|] eqn:He; [|done]. cbn [fmap option_fmap option_map expect] in H. next_step in H.
  exists e. split; [done|]. destruct (Z.eqb_spec (Z.of_nat (data_id_to_offset ds id) mod 8) 0) as [Hal|]; [|done].
  cbn [negb] in H. inv_ok. rename r into offset. destruct (Imm12_new _) as [o|] eqn:Ho; [|done]. injection Hok as ->.
  apply Imm12_new_value in Ho. split; [done|]. destruct (Entry_has_copy_type e); cbn [negb] in H.
  - inv_ok. exists r. rewrite Ho. by destruct (Entry_is_byte e).
  - inv_ok. destruct (data_id_of_pointer ds r) as [pid|] eqn:Hp; [|done]. injection Hok0 as <-. by exists r, pid, r1, r2.
Qed.

Lemma pointer_offset_Ok total from offset pointer :
  pointer_offset total from offset = Ok pointer -> from + 4 + pointer = total + offset.
Proof. unfold pointer_offset, u64_sub. intros H. inv_ok. repeat case_match; simplify_eq; lia. Qed.

(** What a load of an entry is realized with *)
Definition load_ok (ds : DataSection) (total from : Z) (dest : AllocatedRegister) (id : DataId) (e : Entry)
    (l : list Instruction) : Prop :=
  exists d, to_reg_id vm_reg dest = Ok d /\
    if Entry_has_copy_type e then
      l = [mkInstruction (if Entry_is_byte e then "LB" else "LW") [d; DATA_SECTION_REGISTER]
             (Some (Z.of_nat (data_id_to_offset ds id) / (if Entry_is_byte e then 1 else 8)))]
    else
      exists pid w, get_data_word ds pid = Some w /\
        from + 4 + w = total + Z.of_nat (data_id_to_offset ds id) /\
        l = [mkInstruction "LW" [d; DATA_SECTION_REGISTER] (Some (Z.of_nat (data_id_to_offset ds pid) / 8));
             mkInstruction "ADD" [d; d; constant_to_reg_id vm_reg ProgramCounter] None].

(** A load of data that fits in a register is one instruction; otherwise the pointer
    is loaded and the program counter is added. *)
Lemma realize_load_spec dest id ds total from l :
  pointers_ok ds -> realize_load vm_reg 2 dest id ds total from = Ok l ->
  exists e, DataSection_get ds id = Some e /\ load_ok ds total from dest id e l.
Proof.
  intros Hp H. apply realize_load_cases in H as (e & He & _ & H). exists e. split; [done|]. unfold load_ok.
  destruct (Entry_has_copy_type e) eqn:Hc.
  - destruct H as (d & Hd & ->). exists d. split; [done|]. destruct (Entry_is_byte e); [|done]. by rewrite Z.div_1_r.
  - destruct H as (w & pid & buf & d & Hw & Hid & Hbuf & Hd & ->). exists d. split; [done|]. exists pid, w.
    pose proof (Hp w pid Hid) as Hword. split; [done|]. split; [by apply pointer_offset_Ok|].
    apply realize_load_cases in Hbuf as (e' & He' & _ & Hbuf). unfold get_data_word in Hword. rewrite He' in Hword.
    destruct e' as [[] ? ?]; try done. cbn in Hbuf. destruct Hbuf as (d' & Hd' & ->). rewrite Hd in Hd'. by injection Hd' as <-.
Qed.

(** ** Emitted instructions *)

(** What an instruction at [from] is emitted as *)
Definition emitted (ds : DataSection) (total from : Z) (op : AllocatedOp) (chunk : list Z) : Prop :=
  match fopcode op with
  | LoadDataId dest id => exists e l, DataSection_get ds id = Some e /\ load_ok ds total from dest id e l /\
      chunk = concat (map instruction_to_bytes l)
  | DataSectionOffsetPlaceholder => chunk = to_be_bytes total
  | ConfigurablesOffsetPlaceholder => chunk = replicate 8 0
  | _ => exists l, chunk = concat (map instruction_to_bytes l) /\ to_fuel_asm vm_reg (fopcode op) total from ds = Ok (Instructions l)
  end.

Lemma concat_instructions_length l :
  Z.of_nat (length (concat (map instruction_to_bytes l))) = 4 * Z.of_nat (length l).
Proof. induction l as [|i l IH]; cbn [map concat]; [done|]. rewrite length_app, instruction_length. cbn [length]. lia. Qed.

Lemma to_fuel_asm_emitted ds total from op data :
  pointers_ok ds -> to_fuel_asm vm_reg (fopcode op) total from ds = Ok data ->
  emitted ds total from op (bytes_of_data data).1.
Proof.
  intros Hp H. unfold emitted. destruct (fopcode op); try (by injection H as <-);
    try (destruct (instruction_Ok _ _ _ _ H) as [i0 ->]; by exists [i0]).
  - cbn in H. exists (if value24 i =? 0 then [] else [mkInstruction "CFEI" [] (Some (value24 i))]). cbn.
    destruct (value24 i =? 0); inv_ok; by rewrite ?app_nil_r.
  - cbn in H. exists (if value24 i =? 0 then [] else [mkInstruction "CFSI" [] (Some (value24 i))]). cbn.
    destruct (value24 i =? 0); inv_ok; by rewrite ?app_nil_r.
  - injection H as <-. by eexists.
  - cbn [to_fuel_asm] in H. inv_ok. apply realize_load_spec in Hok as (e & He & Hl); [|done]. by exists e, r.
  - pose proof H as H'. cbn [to_fuel_asm] in H'. inv_ok. by eexists.
  - done.
Qed.

Lemma to_fuel_asm_size ds total from op data :
  pointers_ok ds -> operands_ok ds op -> to_fuel_asm vm_reg (fopcode op) total from ds = Ok data ->
  Z.of_nat (length (bytes_of_data data).1) = op_bytes ds op /\ data_size data = op_bytes ds op.
Proof.
  intros Hp Ho H. unfold data_size, operands_ok, op_bytes in *.
  destruct (fopcode op); try (injection H as <-; cbn -[Z.mul]; by rewrite ?length_replicate);
    try (destruct (instruction_Ok _ _ _ _ H) as [i0 ->]; cbn -[Z.mul]; rewrite app_nil_r, instruction_length; done).
  - cbn -[Z.mul] in *. destruct (value24 i =? 0); inv_ok; cbn; rewrite ?app_nil_r, ?instruction_length; done.
  - cbn -[Z.mul] in *. destruct (value24 i =? 0); inv_ok; cbn; rewrite ?app_nil_r, ?instruction_length; done.
  - injection H as <-. cbn -[Z.mul]. rewrite concat_instructions_length, length_replicate. lia.
  - cbn [to_fuel_asm] in H. inv_ok. apply realize_load_spec in Hok as (e & He & d & Hd & Hl); [|done]. cbn -[Z.mul].
    rewrite concat_instructions_length. unfold has_copy_type. rewrite He. cbn -[Z.mul].
    destruct (Entry_has_copy_type e); [by subst|]. by destruct Hl as (? & ? & _ & _ & ->).
  - cbn [to_fuel_asm] in H. inv_ok. cbn -[Z.mul]. rewrite concat_instructions_length. unfold addr_of in Hok. inv_ok.
    destruct (Z.leb_spec (Z.of_nat (data_id_to_offset ds i)) 4095), (Z.ltb_spec 4095 (Z.of_nat (data_id_to_offset ds i)));
      try lia; repeat case_match; by inv_ok.
  - done.
Qed.

Lemma emit_spec total ds ops from bytes half :
  pointers_ok ds -> Forall (operands_ok ds) ops -> emit vm_reg instruction_to_bytes total ds ops from = Ok (bytes, half) ->
  half * 4 = total_bytes ds ops /\
  exists chunks, bytes = concat chunks /\ Forall2 (fun op chunk => Z.of_nat (length chunk) = op_bytes ds op) ops chunks /\
    forall i op chunk, ops !! i = Some op -> chunks !! i = Some chunk ->
      emitted ds total (from + total_bytes ds (take i ops)) op chunk.
Proof.
  intros Hp Ho. revert from bytes half. induction Ho as [|op ops Ho _ IH]; intros from bytes half H; cbn [emit] in H.
  - injection H as <- <-. split; [done|]. exists []. split; [done|]. by split.
  - inv_ok. rename r into data, Hok into Hdata, r0 into size, Hok0 into Hsize, r1 into rest, Hok1 into Hrest.
    destruct rest as [b h]. cbn [fst snd] in *. rewrite (proj1 (op_size_Ok ds op Ho)) in Hsize. injection Hsize as <-.
    apply IH in Hrest as (Hh & chunks & -> & Hlen & Hall).
    destruct (to_fuel_asm_size _ _ _ _ _ Hp Ho Hdata) as [Hl Hs]. unfold data_size in Hs. split.
    + cbn. fold (total_bytes ds ops). lia.
    + exists ((bytes_of_data data).1 :: chunks). split; [done|]. split; [by constructor|].
      intros [|i] op' chunk Hi Hch; cbn in Hi, Hch.
      * injection Hi as <-. injection Hch as <-. cbn. rewrite Z.add_0_r. by apply to_fuel_asm_emitted.
      * cbn. fold (total_bytes ds (take i ops)). rewrite Z.add_assoc. by apply Hall.
Qed.

Lemma concat_bytes ds ops (chunks : list (list Z)) :
  Forall2 (fun op chunk => Z.of_nat (length chunk) = op_bytes ds op) ops chunks ->
  Z.of_nat (length (concat chunks)) = total_bytes ds ops.
Proof.
  induction 1 as [|op chunk ops chunks Hlen _ IH]; cbn; [done|]. rewrite length_app, Nat2Z.inj_add, Hlen, IH. done.
Qed.

(** ** Pointers *)

(** An instruction whose size does not depend on [n] inserted words, and whose data
    does not move when it is reached through a pointer *)
Definition movable (n : nat) (ds : DataSection) (op : AllocatedOp) : Prop :=
  operands_ok ds op /\
  match fopcode op with
  | AddrDataId _ id => has_room n ds id
  | LoadDataId _ id => has_copy_type ds id = Some false -> kind id = NonConfigurable
  | _ => True
  end.

Lemma movable_operands n ds ops : Forall (movable n ds) ops -> Forall (operands_ok ds) ops.
Proof. intros H. eapply Forall_impl; [exact H|]. by intros op [? _]. Qed.

Lemma movable_stable n ds ds' op :
  extends ds ds' -> (num_entries ds' <= num_entries ds + n)%nat -> movable n ds op -> address_stable ds ds' op.
Proof.
  intros Hx Hn [Ho Hm]. unfold address_stable, operands_ok in *. destruct (fopcode op); try done.
  by eapply has_room_stable.
Qed.

(** The pointer that the load at [from] of the entry [id] needs *)
Definition pointer_to (total from : Z) (ds : DataSection) (id : DataId) : Z :=
  total - from + Z.of_nat (data_id_to_offset ds id) - 4.

Lemma pointer_offset_eq total from offset :
  0 <= from -> from + 8 <= total -> 0 <= offset -> pointer_offset total from offset = Ok (total - from + offset - 4).
Proof.
  intros. unfold pointer_offset, u64_sub. destruct (Z.leb_spec from total); [|lia]. next_step.
  destruct (Z.leb_spec 4 (total - from + offset)); [done|lia].
Qed.

(** The data section after one step of the loop *)
Definition with_pointer (total from : Z) (op : AllocatedOp) (ds : DataSection) : DataSection :=
  match fopcode op with
  | LoadDataId _ id =>
      if has_copy_type ds id is Some false then (append_pointer ds (pointer_to total from ds id)).1 else ds
  | _ => ds
  end.

Lemma insert_pointers_cons total op ops from ds :
  operands_ok ds op -> 0 <= from -> from + op_bytes ds op <= total ->
  insert_pointers total (op :: ops) from ds =
  size ← op_size_in_bytes (with_pointer total from op ds) (fopcode op);
  insert_pointers total ops (from + size) (with_pointer total from op ds).
Proof.
  intros Ho Hf Ht. cbn [insert_pointers]. unfold operands_ok, op_bytes, with_pointer in *. destruct (fopcode op); try done.
  destruct Ho as [e He]. unfold has_copy_type in *. cbn in Ht. unfold has_copy_type in Ht. rewrite He in *.
  cbn in *. destruct (Entry_has_copy_type e); cbn in *; [done|].
  rewrite pointer_offset_eq by lia. done.
Qed.

Record pointers_grow (ds ds' : DataSection) (n : nat) : Prop := {
  pg_extends : extends ds ds';
  pg_ok : pointers_ok ds';
  pg_size : (num_entries ds' <= num_entries ds + n)%nat;
  pg_mono w : is_Some (pointer_id ds !! w) -> is_Some (pointer_id ds' !! w)
}.

Lemma pointers_grow_trans ds1 ds2 ds3 n m :
  pointers_grow ds1 ds2 n -> pointers_grow ds2 ds3 m -> pointers_grow ds1 ds3 (n + m).
Proof. intros [X1 O1 S1 M1] [X2 O2 S2 M2]. split; [by eapply extends_trans|done|lia|auto]. Qed.

Lemma with_pointer_spec total from op ds :
  Z.of_nat (num_entries ds) < 2 ^ 32 -> pointers_ok ds ->
  pointers_grow ds (with_pointer total from op ds) 1 /\
  forall dest id, fopcode op = LoadDataId dest id -> has_copy_type ds id = Some false ->
    is_Some (pointer_id (with_pointer total from op ds) !! pointer_to total from ds id).
Proof.
  intros Hn Hp. unfold with_pointer.
  assert (pointers_grow ds ds 1) as Hsame by (split; [apply extends_refl|done|lia|done]).
  destruct (fopcode op) eqn:Hop; try (split; [exact Hsame|intros; congruence]).
  destruct (has_copy_type ds i) as [[]|] eqn:Hc; try (split; [exact Hsame|intros; congruence]).
  destruct (append_pointer_extends ds (pointer_to total from ds i) Hn Hp) as (Hx & Hp' & Hw & Hm & Hs).
  split; [by split|]. intros dest id [= _ <-] _. done.
Qed.

Lemma insert_pointers_Ok N ds0 total ops from ds :
  pointers_grow ds0 ds N -> pointers_ok ds -> (num_entries ds + length ops <= num_entries ds0 + N)%nat ->
  Z.of_nat (num_entries ds0 + N) < 2 ^ 32 -> Forall (movable N ds0) ops ->
  0 <= from -> from + total_bytes ds0 ops <= total ->
  exists ds', insert_pointers total ops from ds = Ok ds' /\ pointers_grow ds ds' (length ops) /\
    forall i op dest id, ops !! i = Some op -> fopcode op = LoadDataId dest id -> has_copy_type ds0 id = Some false ->
      is_Some (pointer_id ds' !! pointer_to total (from + total_bytes ds0 (take i ops)) ds0 id).
Proof.
  revert from ds. induction ops as [|op ops IH]; intros from ds Hg Hp Hsz Hn Hm Hf Ht.
  { exists ds. split; [done|]. split; [split; [apply extends_refl|done|lia|done]|]. intros i op dest id Hi. by destruct i. }
  cbn [length] in Hsz. apply Forall_cons in Hm as [Hm Hms]. pose proof Hm as [Ho Hkind].
  destruct (with_pointer_spec total from op ds) as [Hg1 Hw]; [lia|done|]. set (ds1 := with_pointer total from op ds) in *.
  assert (pointers_grow ds0 ds1 N) as Hg0.
  { destruct Hg, Hg1. split; [by eapply extends_trans|done|lia|auto]. }
  assert (forall d, pointers_grow ds0 d N -> op_bytes d op = op_bytes ds0 op /\ operands_ok d op) as Hd.
  { intros d Hgd. destruct Hgd as [Hx _ Hsd _]. split; [apply op_bytes_stable; [done..|by eapply movable_stable]|].
    unfold operands_ok in *. destruct (fopcode op); try done; by eapply extends_is_Some. }
  destruct (Hd ds Hg) as [Hb Ho']. destruct (Hd ds1 Hg0) as [Hb1 Ho1].
  pose proof (total_bytes_nonneg ds0 ops (movable_operands _ _ _ Hms)) as Hnn. destruct (op_size_Ok ds0 op Ho) as [_ Hpos].
  cbn in Ht. fold (total_bytes ds0 ops) in Ht.
  rewrite insert_pointers_cons; [|done|done|lia]. fold ds1. rewrite (proj1 (op_size_Ok ds1 op Ho1)), Hb1. next_step.
  destruct (IH (from + op_bytes ds0 op) ds1) as (ds' & -> & Hg' & Hall); try done; try lia; [by destruct Hg1|by destruct Hg1; lia|].
  exists ds'. split; [done|]. split; [by apply (pointers_grow_trans ds ds1 ds' 1)|].
  intros [|i] op' dest id Hi Hop Hc; cbn in Hi.
  - injection Hi as <-. cbn. rewrite Z.add_0_r. apply (pg_mono _ _ _ Hg'). unfold operands_ok in Ho. rewrite Hop in Ho, Hkind.
    assert (pointer_to total from ds id = pointer_to total from ds0 id) as <-.
    { unfold pointer_to. destruct Ho as [e He]. by rewrite (ext_offset _ _ (pg_extends _ _ _ Hg) id e He (Hkind Hc)). }
    apply (Hw dest); [done|]. by rewrite (extends_copy_type ds0 ds id (pg_extends _ _ _ Hg) Ho).
  - cbn. fold (total_bytes ds0 (take i ops)). rewrite Z.add_assoc. by eapply Hall.
Qed.

(** ** Alignment *)

Lemma op_bytes_mod4 ds op : op_bytes ds op mod 4 = 0.
Proof.
  unfold op_bytes. destruct (fopcode op); cbn -[Z.mul Z.modulo]; try done; try (by case_match).
  - apply Z_mod_mult.
  - by destruct (has_copy_type ds i) as [[]|].
Qed.

Lemma total_bytes_mod4 ds ops : total_bytes ds ops mod 4 = 0.
Proof.
  induction ops as [|op ops IH]; [done|]. cbn [total_bytes foldr]. fold (total_bytes ds ops).
  by rewrite Zplus_mod, op_bytes_mod4, IH.
Qed.

(** The instructions with a no-op that aligns the data section, and their size *)
Definition aligned_ops (ds : DataSection) (ops : list AllocatedOp) : list AllocatedOp :=
  if Z.land (total_bytes ds ops) 7 =? 0 then ops else ops ++ [alignment_noop].

Lemma aligned_ops_spec N ds ops :
  Forall (movable N ds) ops ->
  Forall (movable N ds) (aligned_ops ds ops) /\ (length (aligned_ops ds ops) <= S (length ops))%nat /\
  total_bytes ds (aligned_ops ds ops) mod 8 = 0 /\
  (if Z.land (total_bytes ds ops) 7 =? 0 then (ops, total_bytes ds ops)
   else (ops ++ [alignment_noop], total_bytes ds ops + 4)) = (aligned_ops ds ops, total_bytes ds (aligned_ops ds ops)).
Proof.
  intros Hm. unfold aligned_ops. change 7 with (Z.ones 3). rewrite Z.land_ones by lia. change (2 ^ 3) with 8.
  destruct (Z.eqb_spec (total_bytes ds ops mod 8) 0) as [H0|H0]; [split_and!; done || lia|].
  rewrite total_bytes_app, length_app. cbn -[Z.modulo]. split_and!; try done; try lia.
  - apply Forall_app. split; [done|]. by repeat constructor.
  - pose proof (total_bytes_mod4 ds ops). change (op_bytes ds alignment_noop) with 4. Z.div_mod_to_equations. lia.
Qed.

(** ** Names *)

Lemma named_offsets_spec total ds entries named named' :
  named_offsets total ds entries named = Ok named' ->
  (forall name o, named' !! name = Some o -> named !! name = Some o \/
     exists id e, (id, e) ∈ entries /\ entry_name e = NamedConfigurable name /\
       o = total + Z.of_nat (absolute_idx_to_offset ds (id + length (non_configurables ds)))) /\
  (forall name, is_Some (named !! name) \/ (exists id e, (id, e) ∈ entries /\ entry_name e = NamedConfigurable name) ->
     is_Some (named' !! name)).
Proof.
  revert named. induction entries as [|[id e] entries IH]; intros named H; cbn in H.
  - injection H as <-. split; [by left|]. intros name [?|(? & ? & ?%elem_of_nil & _)]; done.
  - destruct (entry_name e) as [|nm] eqn:He; [done|]. apply IH in H as [H1 H2]. split.
    + intros name o Ho. apply H1 in Ho as [Ho|(id' & e' & Hin & Hrest)]; [|right; exists id', e'; split; [by right|done]].
      destruct (decide (name = nm)) as [->|Hne].
      * rewrite lookup_insert_eq in Ho. injection Ho as <-. right. exists id, e. split; [left|done].
      * rewrite lookup_insert_ne in Ho by done. by left.
    + intros name Hname. apply H2. destruct (decide (name = nm)) as [->|Hne]; [left; rewrite lookup_insert_eq; by eexists|].
      rewrite lookup_insert_ne by done. destruct Hname as [?|(id' & e' & Hin & Hn')]; [by left|].
      apply elem_of_cons in Hin as [[= -> ->]|Hin]; [congruence|]. right. by exists id', e'.
Qed.

Lemma configurable_lookup ds id e :
  (id, e) ∈ imap pair (configurables ds) -> iter_all_entries ds !! (id + length (non_configurables ds))%nat = Some e.
Proof.
  intros Hin. apply list_elem_of_lookup in Hin as [k Hk]. rewrite list_lookup_imap in Hk.
  destruct (configurables ds !! k) as [e'|] eqn:He; [|done]. cbn in Hk. injection Hk as <- <-.
  unfold iter_all_entries. rewrite lookup_app_r by lia. by replace (k + _ - _)%nat with k by lia.
Qed.

(** ** Theorems *)

(** The input of [to_bytecode_mut] *)
Record bytecode_input (ops : list AllocatedOp) (ds : DataSection) : Prop := {
  bi_ops : Forall (movable (S (length ops)) ds) ops;
  bi_pointers : pointers_ok ds;
  bi_size : Z.of_nat (num_entries ds + S (length ops)) < 2 ^ 32
}.

(** The emission after the pointers are inserted; the assertions hold. *)
Lemma to_bytecode_steps ops ds :
  bytecode_input ops ds ->
  let ops' := aligned_ops ds ops in let total := total_bytes ds ops' in
  exists ds', pointers_grow ds ds' (S (length ops)) /\ Forall (operands_ok ds') ops' /\ total mod 8 = 0 /\
    (forall k, total_bytes ds' (take k ops') = total_bytes ds (take k ops')) /\
    (forall i op dest id, ops' !! i = Some op -> fopcode op = LoadDataId dest id -> has_copy_type ds' id = Some false ->
       is_Some (pointer_id ds' !! pointer_to total (total_bytes ds' (take i ops')) ds' id)) /\
    to_bytecode_mut vm_reg instruction_to_bytes ops ds =
      code ← emit vm_reg instruction_to_bytes total ds' ops' 0;
      named ← named_offsets total ds' (imap pair (configurables ds')) ∅;
      Ok (mkBytecode (code.1 ++ serialize_to_bytes ds') named, ds').
Proof.
  intros [Hm Hp Hn]. destruct (aligned_ops_spec _ ds ops Hm) as (Hm' & Hlen & Hal & Heq).
  set (ops' := aligned_ops ds ops) in *. set (N := S (length ops)) in *. cbn zeta.
  assert (pointers_grow ds ds N) as Hrefl by (split; [apply extends_refl|done|lia|done]).
  destruct (insert_pointers_Ok N ds (total_bytes ds ops') ops' 0 ds) as (ds' & Hins & Hg & Hptr); try done; try lia.
  assert (pointers_grow ds ds' N) as Hg' by (destruct Hg; split; done || lia).
  assert (forall l, Forall (movable N ds) l -> total_bytes ds' l = total_bytes ds l) as Htotal.
  { intros l Hl. apply total_bytes_stable; [apply Hg'|by eapply movable_operands|].
    eapply Forall_impl; [exact Hl|]. intros op Hop. eapply movable_stable; [apply Hg'|apply Hg'|done]. }
  assert (forall k, total_bytes ds' (take k ops') = total_bytes ds (take k ops')) as Htake
    by (intros k; by apply Htotal, Forall_take).
  assert (Forall (operands_ok ds') ops') as Ho'.
  { eapply Forall_impl; [exact Hm'|]. intros op [Ho _]. unfold operands_ok in *.
    destruct (fopcode op); try done; eapply extends_is_Some; try done; apply Hg'. }
  exists ds'. split_and!; try done.
  - intros i op dest id Hi Hop Hc. rewrite Htake. rewrite Forall_lookup in Hm'. pose proof (Hm' i op Hi) as [Ho Hk].
    unfold operands_ok in Ho. rewrite Hop in Ho, Hk. rewrite (extends_copy_type ds ds' id (pg_extends _ _ _ Hg') Ho) in Hc.
    assert (pointer_to (total_bytes ds ops') (total_bytes ds (take i ops')) ds' id =
      pointer_to (total_bytes ds ops') (total_bytes ds (take i ops')) ds id) as ->.
    { unfold pointer_to. destruct Ho as [e He]. by rewrite (ext_offset _ _ (pg_extends _ _ _ Hg') id e He (Hk Hc)). }
    by eapply Hptr.
  - unfold to_bytecode_mut. rewrite code_size_Ok by (by eapply movable_operands). next_step. rewrite Z.add_0_l, Heq, Hins.
    next_step. destruct (emit _ _ _ _ _ _) as [[bytes half]|] eqn:Hemit; [|done]. next_step.
    apply emit_spec in Hemit as (Hhalf & chunks & -> & Hch & _); [|apply Hg'|done]. rewrite (Htotal ops' Hm') in Hhalf.
    assert (Z.of_nat (length (concat chunks)) = total_bytes ds' ops') as Hbytes by (by apply concat_bytes).
    cbn [fst snd]. by rewrite Hhalf, Hbytes, (Htotal ops' Hm'), !Z.eqb_refl.
Qed.

(** The entry at an offset of the data section, in the bytecode *)
Definition bytes_at (bytes : list Z) (offset : Z) (e : Entry) : Prop :=
  take (length (to_bytes e)) (drop (Z.to_nat offset) bytes) = to_bytes e.

Lemma data_bytes_at code ds k e :
  iter_all_entries ds !! k = Some e ->
  bytes_at (code ++ serialize_to_bytes ds) (Z.of_nat (length code) + Z.of_nat (absolute_idx_to_offset ds k)) e.
Proof.
  intros He. unfold bytes_at. rewrite <- Nat2Z.inj_add, Nat2Z.id, <- drop_drop, drop_app_length.
  by apply serialized_entry.
Qed.

(** C9. On an input as in [bytecode_input] the bytecode is the code of the instructions, in
    order and aligned to eight bytes by a no-op, followed by the data section. The position
    of an instruction is the sum of the sizes of the instructions before it; a placeholder
    holds the position of the data section; a load reads its entry relative to the start of
    the data section, or reads a pointer that, added to the program counter of the next
    instruction, is the address of the entry. The entries of the data section are at their
    offsets, and the configurables at the offsets reported for their names. *)
Theorem to_bytecode_layout ops ds r ds' :
  bytecode_input ops ds -> to_bytecode_mut vm_reg instruction_to_bytes ops ds = Ok (r, ds') ->
  exists ops' chunks, (ops' = ops \/ ops' = ops ++ [alignment_noop]) /\ extends ds ds' /\
    bytecode r = concat chunks ++ serialize_to_bytes ds' /\ length chunks = length ops' /\
    let total := Z.of_nat (length (concat chunks)) in
    total mod 8 = 0 /\
    (forall i op chunk, ops' !! i = Some op -> chunks !! i = Some chunk ->
       emitted ds' total (Z.of_nat (length (concat (take i chunks)))) op chunk) /\
    (forall id e, DataSection_get ds' id = Some e ->
       bytes_at (bytecode r) (total + Z.of_nat (data_id_to_offset ds' id)) e) /\
    (forall name offset, named_data_section_entries_offsets r !! name = Some offset ->
       exists e, e ∈ configurables ds' /\ entry_name e = NamedConfigurable name /\ bytes_at (bytecode r) offset e) /\
    (forall e name, e ∈ configurables ds' -> entry_name e = NamedConfigurable name ->
       is_Some (named_data_section_entries_offsets r !! name)).
Proof.
  intros Hin H. destruct (to_bytecode_steps ops ds Hin) as (d & Hg & Ho & Hal & Htake & _ & Heq). rewrite Heq in H. clear Heq.
  set (ops' := aligned_ops ds ops) in *. set (total := total_bytes ds ops') in *. inv_ok.
  rename r0 into code, Hok into Hemit, r1 into named, Hok0 into Hnamed. destruct code as [bytes half]. cbn [fst snd] in *.
  apply emit_spec in Hemit as (_ & chunks & -> & Hch & Hall); [|apply Hg|done].
  assert (forall k, Z.of_nat (length (concat (take k chunks))) = total_bytes ds (take k ops')) as Hpos.
  { intros k. rewrite <- Htake. by apply concat_bytes, Forall2_take. }
  assert (Z.of_nat (length (concat chunks)) = total) as Hlen.
  { pose proof (Hpos (length ops')) as Hp. rewrite !take_ge in Hp; [done|lia|]. by rewrite (Forall2_length _ _ _ Hch). }
  exists ops', chunks. split; [unfold ops', aligned_ops; case_match; auto|]. split; [apply Hg|]. split; [done|].
  split; [by symmetry; eapply Forall2_length|]. cbn zeta. rewrite Hlen. split; [done|]. split; [|split; [|split]].
  - intros i op chunk Hi Hc. rewrite Hpos, <- Htake, <- (Z.add_0_l (total_bytes ds' _)). by apply Hall.
  - intros id e He. cbn. rewrite <- Hlen. by apply data_bytes_at, absolute_idx_lookup.
  - intros name o Hn. apply named_offsets_spec in Hnamed as [H1 _].
    apply H1 in Hn as [Hn|(id & e & Hid & Hname & ->)]; [by rewrite lookup_empty in Hn|]. exists e.
    apply configurable_lookup in Hid as Hl. split; [|split; [done|cbn; rewrite <- Hlen; by apply data_bytes_at]].
    apply list_elem_of_lookup in Hid as [k Hk]. rewrite list_lookup_imap in Hk.
    destruct (configurables ds' !! k) as [e'|] eqn:He; [|done]. injection Hk as _ <-. by eapply list_elem_of_lookup_2.
  - intros e name He Hname. apply named_offsets_spec in Hnamed as [_ H2]. apply H2. right.
    apply list_elem_of_lookup in He as [k Hk]. exists k, e. split; [|done]. apply list_elem_of_lookup. exists k.
    rewrite list_lookup_imap, Hk. done.
Qed.

(** *** Failures *)

(** A register id that does not fit in a byte, an address or an offset that does not
    fit, an undefined instruction, and a configurable without a name *)
Definition bytecode_errors : list CompileError :=
  [Panic "attempt to add with overflow";
   Panic "called `Result::unwrap()` on an `Err` value: TryFromIntError(())";
   Panic "Unable to offset into the data section more than 2^12 bits.";
   Panic "Sway cannot generate undefined ASM opcodes";
   Panic "Non-configurable in configurables part of datasection"].

Definition outcome {A} (m : Result A) : Prop := match m with Ok _ => True | Err e => e ∈ bytecode_errors end.

Lemma outcome_bind {A B} (m : Result A) (f : A -> Result B) :
  outcome m -> (forall a, m = Ok a -> outcome (f a)) -> outcome (m ≫= f).
Proof. destruct m as [a|e]; [|done]. intros _ Hf. by apply Hf. Qed.

Lemma to_reg_id_outcome r : outcome (to_reg_id vm_reg r).
Proof. destruct r; cbn; [|done]. case_match; [done|]. left. Qed.

Lemma instruction_outcome name regs imm : outcome (instruction vm_reg name regs imm).
Proof.
  apply outcome_bind; [|done]. induction regs as [|r regs IH]; [done|]. cbn [traverse].
  apply outcome_bind; [apply to_reg_id_outcome|]. intros a _. by apply outcome_bind.
Qed.

Lemma addr_of_outcome dest id ds : outcome (addr_of vm_reg dest id ds).
Proof.
  unfold addr_of. apply outcome_bind; [apply to_reg_id_outcome|]. intros d _. repeat case_match; try done.
  right; left.
Qed.

(** The preconditions of a load at [from] *)
Definition load_ready (total from : Z) (ds : DataSection) (id : DataId) : Prop :=
  is_Some (DataSection_get ds id) /\
  (has_copy_type ds id = Some false ->
     0 <= from /\ from + 8 <= total /\ is_Some (pointer_id ds !! pointer_to total from ds id)).

Lemma realize_load_outcome fuel dest id ds total from :
  pointers_ok ds -> load_ready total from ds id -> (fuel <> 0)%nat -> (has_copy_type ds id = Some false -> fuel <> 1)%nat ->
  outcome (realize_load vm_reg fuel dest id ds total from).
Proof.
  intros Hp. revert id. induction fuel as [|fuel IH]; intros id [[e He] Hready] Hf Hf1; [done|].
  cbn [realize_load]. unfold has_copy_type, is_byte in *. rewrite He in *. cbn [fmap option_fmap option_map expect] in *.
  next_step. destruct (Z.eqb_spec (Z.of_nat (data_id_to_offset ds id) mod 8) 0) as [_|Hne].
  2:{ destruct Hne. pose proof (data_id_to_offset_aligned ds id) as Ha. change 8 with (Z.of_nat 8).
      by rewrite <- Nat2Z.inj_mod, Ha. }
  cbn [negb]. apply outcome_bind; [destruct (Imm12_new _); [done|]; right; right; left|]. intros offset _.
  destruct (Entry_has_copy_type e) eqn:Hcopy; cbn [negb].
  { apply outcome_bind; [apply to_reg_id_outcome|done]. }
  destruct (Hready eq_refl) as (H0 & Ht & [pid Hpid]). rewrite pointer_offset_eq by lia. next_step.
  unfold data_id_of_pointer, pointer_to in *. rewrite Hpid. cbn [expect]. next_step.
  assert (has_copy_type ds pid = Some true /\ is_Some (DataSection_get ds pid)) as [Hw Hs].
  { apply Hp in Hpid. unfold get_data_word, has_copy_type in *. by destruct (DataSection_get ds pid) as [[[] ? ?]|]. }
  unfold has_copy_type in Hw. apply outcome_bind.
  - apply IH; [split; [done|]; unfold has_copy_type; congruence|specialize (Hf1 eq_refl); lia|congruence].
  - intros buf _. apply outcome_bind; [apply to_reg_id_outcome|done].
Qed.

Lemma to_fuel_asm_outcome ds total from op :
  pointers_ok ds -> (forall dest id, fopcode op = LoadDataId dest id -> load_ready total from ds id) ->
  outcome (to_fuel_asm vm_reg (fopcode op) total from ds).
Proof.
  intros Hp Hl. destruct (fopcode op) eqn:Hop; try apply instruction_outcome; try done.
  - cbn. by case_match.
  - cbn. by case_match.
  - cbn [to_fuel_asm]. apply outcome_bind; [|done]. apply realize_load_outcome; [done|by eapply Hl|done|done].
  - cbn [to_fuel_asm]. apply outcome_bind; [apply addr_of_outcome|done].
  - cbn. do 3 right. left.
Qed.

Lemma emit_outcome total ds ops from :
  pointers_ok ds -> Forall (operands_ok ds) ops ->
  (forall i op dest id, ops !! i = Some op -> fopcode op = LoadDataId dest id ->
     load_ready total (from + total_bytes ds (take i ops)) ds id) ->
  outcome (emit vm_reg instruction_to_bytes total ds ops from).
Proof.
  intros Hp Ho. revert from. induction Ho as [|op ops Ho _ IH]; intros from Hl; [done|]. cbn [emit].
  apply outcome_bind.
  { apply to_fuel_asm_outcome; [done|]. intros dest id Hop. rewrite <- (Z.add_0_r from). by apply (Hl 0%nat op dest). }
  intros data _. rewrite (proj1 (op_size_Ok ds op Ho)). next_step. apply outcome_bind; [|done]. apply IH.
  intros i op' dest id Hi Hop. rewrite <- Z.add_assoc. by apply (Hl (S i) op' dest).
Qed.

Lemma named_offsets_outcome total ds entries named : outcome (named_offsets total ds entries named).
Proof. revert named. induction entries as [|[id e] entries IH]; intros named; cbn; [done|]. case_match; [do 4 right; left|apply IH]. Qed.

(** C23. On every input whose loads through pointers are of non-configurable data, and whose
    addresses of configurables do not move over the limit of an immediate when a word per
    instruction is inserted ([bytecode_input]), [to_bytecode_mut] returns or fails with one
    of the listed errors: the assertions on the size of the code hold, no pointer is
    missing, no subtraction overflows and the recursion of loads ends.  Both conditions are
    needed, as the lemmas at the end of this file show. *)
Theorem to_bytecode_outcome ops ds :
  bytecode_input ops ds -> outcome (to_bytecode_mut vm_reg instruction_to_bytes ops ds).
Proof.
  intros Hin. destruct (to_bytecode_steps ops ds Hin) as (d & Hg & Ho & _ & Htake & Hptr & ->).
  apply outcome_bind; [|intros code _; apply outcome_bind; [apply named_offsets_outcome|done]].
  apply emit_outcome; [apply Hg|done|]. intros i op dest id Hi Hop. rewrite Z.add_0_l.
  pose proof Ho as Hoi. rewrite Forall_lookup in Hoi. specialize (Hoi i op Hi). destruct (op_size_Ok d op Hoi) as [Hs _].
  unfold operands_ok in Hoi. rewrite Hop in Hoi, Hs. split; [done|]. intros Hc. split; [|split; [|by eapply Hptr]].
  - by apply total_bytes_nonneg, Forall_take.
  - cbn in Hs. rewrite Hc in Hs. injection Hs as Hs.
    set (ops' := aligned_ops ds ops) in *. pose proof (Htake (length ops')) as Hall. rewrite firstn_all in Hall.
    rewrite <- Hall. assert (total_bytes d ops' = total_bytes d (take i ops') + (8 + total_bytes d (drop (S i) ops'))) as ->.
    { rewrite <- (take_drop_middle _ _ _ Hi) at 1. rewrite total_bytes_app. cbn [total_bytes foldr]. by rewrite <- Hs. }
    pose proof (total_bytes_nonneg d (drop (S i) ops') ltac:(by apply Forall_drop)). lia.
Qed.
End layout.

(** ** Examples *)

(** A stand-in for the encoding of the VM *)
Definition sample_encoding (i : Instruction) : list Z :=
  [Z.of_nat (String.length (mnemonic i)); default 0 (operands i !! 0%nat); default 0 (operands i !! 1%nat);
   default 0 (immediate i)].

Definition byte_array (n : nat) (name : EntryName) : Entry := new_byte_array (replicate n 7) name None.

(** A load through a pointer, the address of a configurable and a placeholder *)
Definition bytecode_sample_data : DataSection :=
  mkDataSection [byte_array 10 NamedNonConfigurable] [new_word 5 (NamedConfigurable "LIMIT") None] ∅.

Definition bytecode_sample : list AllocatedOp :=
  map (fun op => mkAllocated op "")
    [DataSectionOffsetPlaceholder; LoadDataId (Allocated 0) (mkDataId 0 NonConfigurable);
     AddrDataId (Allocated 1) (mkDataId 0 Configurable); RET (Allocated 1)].

Lemma bytecode_sample_input : bytecode_input bytecode_sample bytecode_sample_data.
Proof.
  split; [|intros w id Hw; cbn in Hw; by rewrite lookup_empty in Hw|vm_compute; reflexivity].
  repeat (apply Forall_cons; split); try apply Forall_nil; split; vm_compute; try done; try (by eexists).
  by right; right.
Qed.

Definition bytecode_of (ops : list AllocatedOp) (ds : DataSection) : Result (CompiledBytecode * DataSection) :=
  to_bytecode_mut declared_ids sample_encoding ops ds.

Definition bytecode_sample_result : CompiledBytecode * DataSection :=
  match bytecode_of bytecode_sample bytecode_sample_data with Ok r => r | Err _ => (mkBytecode [] ∅, bytecode_sample_data) end.

Lemma bytecode_sample_bytes :
  bytecode bytecode_sample_result.1 =
    [0; 0; 0; 0; 0; 0; 0; 24;  2; 16; 63; 2; 3; 16; 16; 0;  4; 17; 63; 24; 3; 17; 0; 0;
     7; 7; 7; 7; 7; 7; 7; 7; 7; 7; 0; 0; 0; 0; 0; 0;  0; 0; 0; 0; 0; 0; 0; 12;  0; 0; 0; 0; 0; 0; 0; 5].
Proof. vm_compute. reflexivity. Qed.

Lemma to_bytecode_layout_witness : exists ops' chunks,
  (ops' = bytecode_sample \/ ops' = bytecode_sample ++ [alignment_noop]) /\
  bytecode bytecode_sample_result.1 = concat chunks ++ serialize_to_bytes bytecode_sample_result.2 /\
  Z.of_nat (length (concat chunks)) mod 8 = 0.
Proof.
  destruct (to_bytecode_layout declared_ids sample_encoding (fun _ => eq_refl) bytecode_sample bytecode_sample_data
    bytecode_sample_result.1 bytecode_sample_result.2 bytecode_sample_input)
    as (ops' & chunks & Hops & _ & Hb & _ & Hal & _); [vm_compute; reflexivity|].
  by exists ops', chunks.
Defined.

Lemma to_bytecode_outcome_witness : outcome (bytecode_of bytecode_sample bytecode_sample_data).
Proof.
  exact (to_bytecode_outcome declared_ids sample_encoding (fun _ => eq_refl) bytecode_sample bytecode_sample_data
    bytecode_sample_input).
Defined.

(** The pointer to a configurable that does not fit in a register moves the
    configurable, so that the pointer that the load needs is not there. *)
Lemma configurable_pointer_panics :
  bytecode_of [mkAllocated (LoadDataId (Allocated 0) (mkDataId 0 Configurable)) ""]
    (mkDataSection [] [byte_array 10 (NamedConfigurable "NAME")] ∅) =
  Err (Panic "Pointer offset must be in data_section").
Proof. vm_compute. reflexivity. Qed.

(** A pointer moves the address of a configurable over the limit of an immediate, so
    that the code is longer than its size that was computed before. *)
Lemma configurable_address_panics :
  bytecode_of (map (fun op => mkAllocated op "")
      [LoadDataId (Allocated 0) (mkDataId 0 NonConfigurable); AddrDataId (Allocated 1) (mkDataId 0 Configurable)])
    (mkDataSection [byte_array 4088 NamedNonConfigurable] [new_word 5 (NamedConfigurable "LIMIT") None] ∅) =
  Err (Panic "assertion failed: half_word_ix * 4 == offset_to_data_section_in_bytes").
Proof. vm_compute. reflexivity. Qed.
