(* ===== verification/AsmAbstract.v ===== *)
(** * The abstract instruction set

    Models the passes of [asm_generation/fuel/abstract_instruction_set.rs] that
    clean up a function before its registers are allocated: jumps to the next
    line, moves to registers that are never read, NOOPs, and the check that used
    registers are initialised. *)

From S2P Require Import Prelude AsmRegister AsmVirtualOp AsmOp AsmLiveness.
Local Open Scope nat_scope.

Definition noop (com : string) : Op := mkOp (inl NOOP) com.

(** ** [remove_sequential_jumps] *)

Definition is_sequential (op next : Op) : bool :=
  match opcode op, opcode next with
  | inr (Jump dst_label), inr (CLabel label) => bool_decide (dst_label = label)
  | _, _ => false
  end.

(** Every window of two instructions is one of the given program. *)
Fixpoint remove_sequential_jumps (ops : list Op) : list Op :=
  match ops with
  | op :: ((next :: _) as ops') =>
      (if is_sequential op next then noop "remove redundant jump operation" else op)
      :: remove_sequential_jumps ops'
  | _ => ops
  end.

(** ** [remove_redundant_moves] *)

Definition uses (ops : list Op) : BTreeSet := foldl (fun acc op => acc ∪ use_registers op) ∅ ops.

(** A MOVE to a virtual register that no instruction reads *)
Definition is_dead_move (used : BTreeSet) (op : Op) : bool :=
  match opcode op with
  | inl (MOVE (Virtual dst) _) => negb (bool_decide (Virtual dst ∈ used))
  | _ => false
  end.

Definition replace_dead_moves (used : BTreeSet) (ops : list Op) : list Op :=
  map (fun op => if is_dead_move used op then noop "remove redundant move operation" else op) ops.

Fixpoint remove_moves_loop (fuel : nat) (ops : list Op) : Result (list Op) :=
  match fuel with
  | 0 => Err OutOfFuel
  | S fuel' =>
      if existsb (is_dead_move (uses ops)) ops
      then remove_moves_loop fuel' (replace_dead_moves (uses ops) ops)
      else Ok ops
  end.

(** Every round but the last one removes a MOVE. *)
Definition remove_redundant_moves (ops : list Op) : Result (list Op) :=
  remove_moves_loop (S (length ops)) ops.

(** ** [remove_redundant_ops] *)

Definition remove_redundant_ops (ops : list Op) : list Op :=
  List.filter (fun op => negb (match opcode op with inl NOOP => true | _ => false end)) ops.

(** ** [verify] *)

Definition register_name (r : VirtualRegister) : string :=
  match r with
  | Virtual name => "$r" +:+ name
  | Constant creg => constant_to_string creg
  end.

Definition uninitialized (bad_regs : list VirtualRegister) : CompileError :=
  Internal ("Program erroneously uses uninitialized virtual registers: "
    +:+ String.concat ", " (map register_name bad_regs)).

(** The uninitialised registers are listed in an unspecified order. *)
Definition verify (iter : BTreeSet -> list VirtualRegister) (ops : list Op) : Result (list Op) :=
  let use_regs := foldl (fun acc op => acc ∪ retain_virtual (use_registers op)) ∅ ops in
  let def_regs := foldl (fun acc op => acc ∪ retain_virtual (def_registers op)) ∅ ops in
  if bool_decide (use_regs ⊆ def_regs) then Ok ops
  else Err (uninitialized (iter (use_regs ∖ def_regs))).

(** ** Sequential jumps *)

Lemma remove_sequential_length ops : length (remove_sequential_jumps ops) = length ops.
Proof. induction ops as [|op [|next ops] IH]; cbn; [done..|]. by f_equal. Qed.

Lemma remove_sequential_lookup ops i :
  remove_sequential_jumps ops !! i =
  match ops !! i with
  | Some op => Some (match ops !! S i with
                     | Some next => if is_sequential op next then noop "remove redundant jump operation" else op
                     | None => op
                     end)
  | None => None
  end.
Proof.
  revert i. induction ops as [|op [|next ops] IH]; intros i; [done|by destruct i|].
  destruct i as [|i]; [done|]. apply (IH i).
Qed.

Lemma remove_sequential_labels ops : label_to_index_of (remove_sequential_jumps ops) = label_to_index_of ops.
Proof.
  unfold label_to_index_of.
  assert (forall n m, foldl (fun (m : gmap Label nat) '(i, op) =>
      match opcode op with inr (CLabel l) => <[l := i]> m | _ => m end) m
      (imap (fun i => pair (n + i)) (remove_sequential_jumps ops)) =
    foldl (fun m '(i, op) => match opcode op with inr (CLabel l) => <[l := i]> m | _ => m end) m
      (imap (fun i => pair (n + i)) ops)) as Hgo; [|apply (Hgo 0 ∅)].
  induction ops as [|op [|next ops] IH]; intros n m; [done..|]. cbn [remove_sequential_jumps].
  do 2 rewrite imap_cons. cbn [foldl].
  assert (forall l : list Op, imap ((fun i => pair (n + i)) ∘ S) l = imap (fun i => pair (S n + i)) l) as Hshift.
  { intros l. apply imap_ext. intros i x _. cbn. by rewrite Nat.add_succ_r. }
  rewrite !Hshift, IH.
  match goal with |- foldl _ ?a _ = foldl _ ?b _ => assert (a = b) as ->; [|done] end. unfold is_sequential.
  destruct (opcode op) as [|[]] eqn:Hop; try (cbn; rewrite ?Hop; done).
  destruct (opcode next) as [|[]]; try (cbn; rewrite ?Hop; done). case_bool_decide; cbn; by rewrite ?Hop.
Qed.

(** Replacing a jump to the next line does not change the control flow, when the
    label is not defined a second time further down. *)
Lemma remove_sequential_edge ops i s :
  (forall j op l, ops !! j = Some op -> opcode op = inr (CLabel l) -> label_to_index_of ops !! l = Some j) ->
  edge (remove_sequential_jumps ops) i s <-> edge ops i s.
Proof.
  intros Hlabels. unfold edge. rewrite remove_sequential_labels, remove_sequential_lookup.
  assert (forall op ss, successors op i (remove_sequential_jumps ops) (label_to_index_of ops) = Ok ss <->
    successors op i ops (label_to_index_of ops) = Ok ss) as Hsucc.
  { intros op ss. unfold successors, VirtualOp_successors, ControlFlowOp_successors.
    by rewrite remove_sequential_length. }
  setoid_rewrite Hsucc. destruct (ops !! i) as [op|] eqn:Hop; [|done].
  destruct (ops !! S i) as [next|] eqn:Hnext; [|done]. destruct (is_sequential op next) eqn:Hseq; [|done].
  unfold is_sequential in Hseq. destruct (opcode op) as [|[]] eqn:Hopc; try done.
  destruct (opcode next) as [|[]] eqn:Hn; try done. apply bool_decide_eq_true in Hseq. subst.
  pose proof (Hlabels _ _ _ Hnext Hn) as Hl. pose proof (lookup_lt_Some _ _ _ Hnext) as Hlen.
  assert (forall o ss, Some o = Some (noop "remove redundant jump operation") /\
    successors o i ops (label_to_index_of ops) = Ok ss -> ss = [S i]) as H1.
  { intros o ss [[= ->] Hs]. cbn in Hs. destruct (Nat.leb_spec (length ops - 1) i); [lia|].
    injection Hs as <-. f_equal. lia. }
  split.
  - intros (o & ss & Ho & Hs & Hin). rewrite (H1 o ss) in Hin by done. exists op, [S i].
    split; [done|]. split; [|done]. unfold successors. rewrite Hopc. cbn. rewrite Hl, andb_false_r. done.
  - intros (o & ss & [= <-] & Hs & Hin). unfold successors in Hs. rewrite Hopc in Hs. cbn in Hs.
    rewrite Hl, andb_false_r in Hs. injection Hs as <-. eexists _, [S i]. split; [done|]. split; [|done].
    cbn. destruct (Nat.leb_spec (length ops - 1) i); [lia|]. do 2 f_equal. lia.
Qed.

(** ** Dead moves *)

Lemma uses_elem ops r : r ∈ uses ops <-> exists op, op ∈ ops /\ r ∈ use_registers op.
Proof.
  unfold uses.
  assert (forall acc, r ∈ foldl (fun acc op => acc ∪ use_registers op) acc ops <->
    r ∈ acc \/ exists op, op ∈ ops /\ r ∈ use_registers op) as ->; [|set_solver].
  induction ops as [|op ops IH]; intros acc; cbn.
  - split; [by left|]. intros [?|(? & ?%elem_of_nil & _)]; done.
  - rewrite IH, elem_of_union. setoid_rewrite elem_of_cons. naive_solver.
Qed.

(** One instruction of the result: unchanged, or a MOVE to a register that the
    result does not read. *)
Definition cleaned (result : list Op) (op op' : Op) : Prop :=
  op' = op \/
  op' = noop "remove redundant move operation" /\
  exists dst src, opcode op = inl (MOVE (Virtual dst) src) /\ Virtual dst ∉ uses result.

Definition count_moves (ops : list Op) : nat :=
  length (List.filter (fun op => match opcode op with inl (MOVE _ _) => true | _ => false end) ops).

Lemma replace_uses used ops : uses (replace_dead_moves used ops) ⊆ uses ops.
Proof.
  intros r. rewrite !uses_elem. intros (op' & (op & -> & Hop)%list_elem_of_fmap & Hr). exists op. split; [done|].
  destruct (is_dead_move used op); [|done]. unfold use_registers in Hr. cbn in Hr. set_solver.
Qed.

Lemma replace_count used ops :
  existsb (is_dead_move used) ops = true -> count_moves (replace_dead_moves used ops) < count_moves ops.
Proof.
  assert (forall l, count_moves (replace_dead_moves used l) <= count_moves l) as Hle.
  { induction l as [|op l IH]; cbn; [done|]. unfold count_moves, replace_dead_moves in *. cbn. unfold is_dead_move at 1.
    destruct (opcode op) as [v|c] eqn:Hop; [|by rewrite Hop]. destruct v; rewrite ?Hop; try exact IH.
    destruct r1; [case_bool_decide|]; cbn; rewrite ?Hop; cbn; lia. }
  induction ops as [|op ops IH]; cbn [existsb]; [done|]. intros [Hd|Hd]%orb_true_iff.
  - specialize (Hle ops). unfold count_moves, replace_dead_moves in *. cbn. rewrite Hd. cbn.
    unfold is_dead_move in Hd. destruct (opcode op) as [v|c]; [|done]. destruct v; try done. cbn. lia.
  - apply IH in Hd. unfold count_moves, replace_dead_moves in *. cbn. destruct (is_dead_move used op) eqn:Hm; cbn.
    + unfold is_dead_move in Hm. destruct (opcode op) as [v|c]; [|done]. destruct v; try done. cbn. lia.
    + destruct (opcode op) as [v|c]; [|done]. destruct v; try done. cbn. lia.
Qed.

Lemma cleaned_trans result used ops ops' :
  uses result ⊆ used -> Forall2 (cleaned result) (replace_dead_moves used ops) ops' ->
  Forall2 (cleaned result) ops ops'.
Proof.
  intros Hsub. unfold replace_dead_moves. revert ops'. induction ops as [|op ops IH]; intros ops' Hf;
    inversion Hf as [|? op' ? ops1 Hc Hrest]; subst; constructor; [|by apply IH].
  destruct (is_dead_move used op) eqn:Hd; [|done]. right.
  unfold is_dead_move in Hd. destruct (opcode op) as [v|c]; [|done]. destruct v; try done. destruct r1 as [dst|]; [|done].
  apply negb_true_iff, bool_decide_eq_false in Hd.
  destruct Hc as [->|(-> & d & s & Heq & _)]; [|discriminate Heq]. split; [done|]. eexists _, _. split; [done|set_solver].
Qed.

Lemma remove_moves_loop_spec fuel ops :
  count_moves ops < fuel ->
  exists ops', remove_moves_loop fuel ops = Ok ops' /\ Forall2 (cleaned ops') ops ops' /\
    existsb (is_dead_move (uses ops')) ops' = false /\ uses ops' ⊆ uses ops.
Proof.
  revert ops. induction fuel as [|fuel IH]; intros ops Hfuel; [lia|]. cbn [remove_moves_loop].
  destruct (existsb _ ops) eqn:He.
  - destruct (IH (replace_dead_moves (uses ops) ops)) as (ops' & -> & Hc & Hd & Hu).
    { apply replace_count in He. lia. }
    pose proof (replace_uses (uses ops) ops). exists ops'. split_and!; [done| |done|set_solver].
    apply (cleaned_trans ops' (uses ops)); [set_solver|done].
  - exists ops. split_and!; [done| |done|done]. apply Forall_Forall2_diag, Forall_forall. by left.
Qed.

Lemma count_moves_length ops : count_moves ops <= length ops.
Proof. apply List.filter_length_le. Qed.

Lemma fold_retain (f : Op -> BTreeSet) ops r :
  r ∈ foldl (fun acc op => acc ∪ retain_virtual (f op)) ∅ ops <->
  is_virtual r = true /\ exists op, op ∈ ops /\ r ∈ f op.
Proof.
  assert (forall acc, r ∈ foldl (fun acc op => acc ∪ retain_virtual (f op)) acc ops <->
    r ∈ acc \/ is_virtual r = true /\ exists op, op ∈ ops /\ r ∈ f op) as ->; [|set_solver].
  induction ops as [|op ops IH]; intros acc; cbn.
  - split; [by left|]. intros [?|(_ & ? & ?%elem_of_nil & _)]; done.
  - rewrite IH, elem_of_union, retain_virtual_elem. setoid_rewrite elem_of_cons. naive_solver.
Qed.

(** ** Theorems *)

(** Removing the jumps to the next line keeps the control-flow graph: when
    every label is defined once, the edges between positions are the same. *)
Theorem sequential_jumps_keep_edges ops i s :
  (forall j op l, ops !! j = Some op -> opcode op = inr (CLabel l) -> label_to_index_of ops !! l = Some j) ->
  edge (remove_sequential_jumps ops) i s <-> edge ops i s.
Proof. apply remove_sequential_edge. Qed.

(** [jump L; L:; ret] *)
Definition sample_jump : list Op :=
  [mkOp (inr (Jump 3)) ""; mkOp (inr (CLabel 3)) ""; mkOp (inl (RET (Constant One))) ""].

Lemma sequential_jumps_keep_edges_witness : edge (remove_sequential_jumps sample_jump) 0 1 <-> edge sample_jump 0 1.
Proof.
  apply (sequential_jumps_keep_edges sample_jump 0 1).
  intros j op l Hj Hl. destruct j as [|[|[|j]]]; cbn in Hj; try discriminate Hj; injection Hj as <-;
    try discriminate Hl. injection Hl as <-. reflexivity.
Defined.

(** The removal of redundant moves ends and is sound: every instruction of the
    result is the original one or replaces a MOVE to a virtual register that the
    result never reads, and no such MOVE is left. *)
Theorem redundant_moves_removed ops :
  exists ops', remove_redundant_moves ops = Ok ops' /\ Forall2 (cleaned ops') ops ops' /\
    forall op dst src, op ∈ ops' -> opcode op = inl (MOVE (Virtual dst) src) -> Virtual dst ∈ uses ops'.
Proof.
  unfold remove_redundant_moves. pose proof (count_moves_length ops).
  destruct (remove_moves_loop_spec (S (length ops)) ops) as (ops' & Hok & Hc & Hd & _); [lia|].
  exists ops'. split_and!; [done..|]. intros op dst src Hop Hm.
  destruct (decide (Virtual dst ∈ uses ops')) as [|Hn]; [done|].
  assert (existsb (is_dead_move (uses ops')) ops' = true) as Ht; [|congruence].
  apply existsb_exists. exists op. split; [by apply list_elem_of_In|]. unfold is_dead_move. rewrite Hm.
  by rewrite bool_decide_eq_false_2.
Qed.

(** The verification of a function accepts it, unchanged, iff every virtual
    register that an instruction reads is written by some instruction. *)
Theorem verify_checks_initialization iter ops res :
  verify iter ops = Ok res <->
  res = ops /\ forall r op, is_virtual r = true -> op ∈ ops -> r ∈ use_registers op ->
    exists op', op' ∈ ops /\ r ∈ def_registers op'.
Proof.
  unfold verify. case_bool_decide as Hsub.
  - split; [|by intros [-> _]]. intros [= <-]. split; [done|]. intros r op Hv Hop Hr.
    assert (r ∈ foldl (fun acc op => acc ∪ retain_virtual (def_registers op)) ∅ ops) as Hd%fold_retain by
      (apply Hsub, fold_retain; eauto). tauto.
  - split; [done|]. intros [-> Hall]. exfalso. apply Hsub. intros r (Hv & op & Hop & Hr)%fold_retain.
    apply fold_retain. eauto.
Qed.
