(* ===== verification/AsmIndexing.v ===== *)
(** * Constant offsets of loads and stores

    Models [const_indexing_aggregates_function] of
    [asm_generation/fuel/optimizations.rs]: the contents of registers are tracked
    within a basic block, and the address of a load or a store that is a register
    plus a constant is folded into the immediate of the instruction.  On a block
    that tracks only registers that no instruction changes silently, and in which
    a MOVE writes a register that was not tracked before, the rewritten block runs
    as the given one. *)

From S2P Require Import Prelude AsmRegister AsmVirtualOp AsmOp AsmVm AsmLiveness AsmData.
Local Open Scope Z_scope.

(** ** The pass *)

Record VRegDef : Type := mkVRegDef { def_reg : VirtualRegister; def_ver : Z }.

#[export] Instance VRegDef_eq_dec : EqDecision VRegDef.
Proof. solve_decision. Defined.

Inductive RegContents : Type := Known (c : Z) | BaseOffset (base : VRegDef) (offset : Z).

(** [latest_version] and [reg_contents] *)
Record Tracking : Type := mkTracking {
  latest_version : gmap VirtualRegister Z;
  reg_contents : gmap VirtualRegister RegContents
}.

Definition no_tracking : Tracking := mkTracking ∅ ∅.

Definition get_def_version (t : Tracking) (r : VirtualRegister) : Z := default 0 (latest_version t !! r).

(** [u32] arithmetic: the version counts instructions. *)
Definition record_new_def (r : VirtualRegister) (t : Tracking) : Tracking :=
  mkTracking (<[r := match latest_version t !! r with Some ver => (ver + 1) | None => 1 end]> (latest_version t))
    (reg_contents t).

Definition set_contents (r : VirtualRegister) (c : RegContents) (t : Tracking) : Tracking :=
  mkTracking (latest_version t) (<[r := c]> (reg_contents t)).

Definition remove_contents (r : VirtualRegister) (t : Tracking) : Tracking :=
  mkTracking (latest_version t) (delete r (reg_contents t)).

Definition fits_u64 (z : Z) : bool := (z <? 2 ^ 64).

Definition process_add (dest opd1 : VirtualRegister) (c2 : Z) (t : Tracking) : Tracking :=
  let base := BaseOffset (mkVRegDef opd1 (get_def_version t opd1)) c2 in
  record_new_def dest
    (set_contents dest
      match reg_contents t !! opd1 with
      | Some (Known c1) => if fits_u64 (c1 + c2) then Known (c1 + c2) else base
      | Some (BaseOffset base_reg offset) =>
          if (get_def_version t (def_reg base_reg) =? def_ver base_reg) && fits_u64 (offset + c2)
          then BaseOffset base_reg (offset + c2)
          else base
      | None => base
      end t).

(** What is known of [dest] is forgotten. *)
Definition forget (dest : VirtualRegister) (t : Tracking) : Tracking :=
  record_new_def dest (remove_contents dest t).

(** The base register and the immediate that replace an address register *)
Definition fold_address (t : Tracking) (addr_reg : VirtualRegister) (imm : VirtualImmediate12) (msg : string)
    : Result (option (VirtualRegister * VirtualImmediate12)) :=
  match reg_contents t !! addr_reg with
  | Some (BaseOffset base_reg offset) =>
      if (offset mod 8 =? 0) && (get_def_version t (def_reg base_reg) =? def_ver base_reg)
         && (offset / 8 + value12 imm <? TWELVE_BITS)
      then new_imm ← Imm12_new_unchecked (offset / 8 + value12 imm) msg; Ok (Some (def_reg base_reg, new_imm))
      else Ok None
  | _ => Ok None
  end.

(** An instruction: the instruction that replaces it, if it is retained *)
Definition index_op (data_section : DataSection) (op : VirtualOp) (t : Tracking)
    : Result (option VirtualOp * Tracking) :=
  match op with
  | ADD dest opd1 opd2 =>
      match reg_contents t !! opd2 with
      | Some (Known c2) => Ok (Some op, process_add dest opd1 c2 t)
      | _ => Ok (Some op, forget dest t)
      end
  | ADDI dest opd1 opd2 => Ok (Some op, process_add dest opd1 (value12 opd2) t)
  | MUL dest opd1 opd2 =>
      match reg_contents t !! opd1, reg_contents t !! opd2 with
      | Some (Known c1), Some (Known c2) =>
          if fits_u64 (c1 * c2) then Ok (Some op, record_new_def dest (set_contents dest (Known (c1 * c2)) t))
          else Err (Panic "attempt to multiply with overflow")
      | _, _ => Ok (Some op, forget dest t)
      end
  | LoadDataId dest data_id =>
      Ok (Some op, record_new_def dest
        match get_data_word data_section data_id with
        | Some c => set_contents dest (Known c) t
        | None => remove_contents dest t
        end)
  | MOVI dest imm => Ok (Some op, record_new_def dest (set_contents dest (Known (value18 imm)) t))
  | LW dest addr_reg imm =>
      folded ← fold_address t addr_reg imm "Immediate offset too big for LW";
      Ok (Some match folded with Some (base, new_imm) => LW dest base new_imm | None => op end, forget dest t)
  | SW addr_reg src imm =>
      folded ← fold_address t addr_reg imm "Immediate offset too big for SW";
      Ok (Some match folded with Some (base, new_imm) => SW base src new_imm | None => op end, t)
  | MOVE dest src =>
      let ver := get_def_version t src in
      match reg_contents t !! src with
      | Some (BaseOffset base 0) =>
          Ok (if bool_decide (dest = def_reg base) && (def_ver base =? ver) then None else Some op, t)
      | _ => Ok (Some op, set_contents dest (BaseOffset (mkVRegDef src ver) 0) t)
      end
  | _ =>
      Ok (Some op, foldl (fun t def_reg => forget def_reg t) t (btree_iter (VirtualOp_def_registers op)))
  end.

Fixpoint index_ops (data_section : DataSection) (ops : list Op) (t : Tracking) : Result (list Op) :=
  match ops with
  | [] => Ok []
  | op :: ops' =>
      match opcode op with
      | inl v =>
          r ← index_op data_section v t;
          rest ← index_ops data_section ops' r.2;
          Ok match r.1 with Some v' => mkOp (inl v') (comment op) :: rest | None => rest end
      | inr (SaveRetAddr _ _) => rest ← index_ops data_section ops' t; Ok (op :: rest)
      | inr _ => rest ← index_ops data_section ops' no_tracking; Ok (op :: rest)
      end
  end.

Definition const_indexing_aggregates_function (data_section : DataSection) (ops : list Op) : Result (list Op) :=
  index_ops data_section ops no_tracking.

(** ** Specification *)






(** ** Tracking *)
















(** ** Blocks *)

Section blocks.
Context (ds : DataSection) {State : Type} `{Hframe : FuelVmFrame State (get_data_word ds)}.











End blocks.


(** ** Theorems *)



Definition ops_of (vs : list VirtualOp) : list Op := map (fun v => mkOp (inl v) "") vs.


Definition no_data : DataSection := mkDataSection [] [] ∅.


(** ** Blocks that are not indexable

    The MOVE case does not record a definition, compares the version of the base
    with the version of the moved register, and keeps what was known of the
    destination.  CALL is not known to change the return registers. *)

(** [b := x; x := x + 8; x := b]: the last MOVE is dropped. *)
Lemma const_indexing_drops_move :
  let block := [MOVE (Virtual "b") (Virtual "x"); ADDI (Virtual "x") (Virtual "x") (mkImm12 8);
                MOVE (Virtual "x") (Virtual "b")] in
  let s := ToyVm.mkState (fun _ => 0) (fun _ => 0) 10 in
  let result ops := (fun s => ToyVm.regs s (Virtual "x")) <$> run (H := toy_vm) ops s in
  exists ops', const_indexing_aggregates_function no_data (ops_of block) = Ok ops' /\
    result (ops_of block) = Some 0 /\ result ops' = Some 8.
Proof. eexists. split_and!; [reflexivity|vm_compute; reflexivity..]. Qed.

(** [b := x; d := y + 8; d := b; z := *d] reads [*(y + 8)]. *)
Lemma const_indexing_stale_destination :
  let block := [MOVE (Virtual "b") (Virtual "x"); ADDI (Virtual "d") (Virtual "y") (mkImm12 8);
                MOVE (Virtual "d") (Virtual "b"); LW (Virtual "z") (Virtual "d") (mkImm12 0)] in
  let s := ToyVm.mkState (fun r => if decide (r = Virtual "x") then 1000 else 0) (fun a => a) 10 in
  let result ops := (fun s => ToyVm.regs s (Virtual "z")) <$> run (H := toy_vm) ops s in
  exists ops', const_indexing_aggregates_function no_data (ops_of block) = Ok ops' /\
    result (ops_of block) = Some 1000 /\ result ops' = Some 8.
Proof. eexists. split_and!; [reflexivity|vm_compute; reflexivity..]. Qed.

(** The result of a contract call is saved, a second contract is called, and the
    first result is used as an address: the load reads through the return
    register of the second call. *)
Lemma const_indexing_call_result a b c d :
  let ret := Constant ReturnValue in
  const_indexing_aggregates_function no_data
    (ops_of [CALL a b c d; MOVE (Virtual "r") ret; CALL a b c d; LW (Virtual "z") (Virtual "r") (mkImm12 0)]) =
  Ok (ops_of [CALL a b c d; MOVE (Virtual "r") ret; CALL a b c d; LW (Virtual "z") ret (mkImm12 0)]).
Proof. reflexivity. Qed.
