(* ===== verification/AsmOptimize.v ===== *)
(** * Optimizations of an abstract instruction set

    Models [dce] and [simplify_cfg] of [asm_generation/fuel/optimizations.rs],
    which remove instructions whose results are not read and instructions that
    are not reachable, and [optimize] of [abstract_instruction_set.rs], which
    composes the passes. *)

From S2P Require Import Prelude AsmRegister AsmVirtualOp AsmOp AsmLiveness AsmData AsmAbstract AsmIndexing.
Local Open Scope nat_scope.

(** ** [dce] *)

(** The body of the loop over the instructions in reverse order; the state is
    [cur_live] and [dead_indices]. *)
Definition dce_op (liveness : list BTreeSet) (ix : nat) (op : Op) (st : BTreeSet * gset nat)
    : Result (BTreeSet * gset nat) :=
  let op_use := use_registers op in
  let op_def := def_registers op ∪ def_const_registers op in
  match opcode op with
  | inr (Jump _) | inr (JumpIfNotZero _ _) =>
      match liveness !! ix with
      | Some live => Ok (live ∪ op_use, st.2)
      | None => Err (Panic "Incorrect liveness info")
      end
  | _ =>
      let dead := forallb (fun def => negb (bool_decide (def ∈ st.1))) (btree_iter op_def)
        && match opcode op with inl op => negb (has_side_effect op) | inr _ => false end in
      let cur_live := st.1 ∖ op_def in
      if (dead : bool) then Ok (cur_live, {[ix]} ∪ st.2) else Ok (cur_live ∪ op_use, st.2)
  end.

Fixpoint dce_loop (liveness : list BTreeSet) (ixs : list (nat * Op)) (st : BTreeSet * gset nat)
    : Result (BTreeSet * gset nat) :=
  match ixs with
  | [] => Ok st
  | (ix, op) :: ixs' => st ← dce_op liveness ix op st; dce_loop liveness ixs' st
  end.

(** The instructions at the positions that satisfy [f] *)
Definition keep_indices (f : nat -> bool) (ops : list Op) : list Op :=
  map snd (List.filter (fun '(idx, _) => f idx) (imap pair ops)).

Definition dce (ops : list Op) : Result (list Op) :=
  liveness ← liveness_analysis ops false;
  st ← dce_loop liveness (rev (imap pair ops)) (∅, ∅);
  Ok (keep_indices (fun idx => negb (bool_decide (idx ∈ st.2))) ops).

(** ** [simplify_cfg] *)

(** Pushes the successors that are not yet reachable; the top of the worklist is
    the head of the list. *)
Fixpoint push_unreached (reachables : list bool) (ss worklist : list nat) : Result (list nat) :=
  match ss with
  | [] => Ok worklist
  | s :: ss' =>
      r ← index_of reachables s;
      push_unreached reachables ss' (if (r : bool) then worklist else s :: worklist)
  end.

Fixpoint reach_loop (fuel : nat) (ops : list Op) (label_to_index : gmap Label nat)
    (reachables : list bool) (worklist : list nat) : Result (list bool) :=
  match worklist with
  | [] => Ok reachables
  | op_idx :: worklist' =>
      match fuel with
      | 0 => Err OutOfFuel
      | S fuel' =>
          r ← index_of reachables op_idx;
          if (r : bool) then Err (Panic "assertion failed: !reachables[op_idx]")
          else
            let reachables := <[op_idx := true]> reachables in
            op ← index_of ops op_idx;
            ss ← successors op op_idx ops label_to_index;
            worklist ← push_unreached reachables ss worklist';
            reach_loop fuel' ops label_to_index reachables worklist
      end
  end.

(** Every iteration marks an instruction. *)
Definition simplify_cfg (ops : list Op) : Result (list Op) :=
  match ops with
  | [] => Ok ops
  | _ =>
      reachables ← reach_loop (S (length ops)) ops (label_to_index_of ops) (replicate (length ops) false) [0];
      Ok (keep_indices (fun idx => bool_decide (reachables !! idx = Some true)) ops)
  end.

(** ** [optimize] *)

(** [AbstractInstructionSet::optimize] *)
Definition optimize (data_section : DataSection) (ops : list Op) : Result (list Op) :=
  ops ← const_indexing_aggregates_function data_section ops;
  ops ← dce ops;
  ops ← simplify_cfg ops;
  ops ← remove_redundant_moves (remove_sequential_jumps ops);
  Ok (remove_redundant_ops ops).

(** ** Reachable instructions *)

Section reach.
Context (ops : list Op).
Hypothesis wf : forall i op, ops !! i = Some op -> is_Ok (successors op i ops (label_to_index_of ops)).

Definition marked (reachables : list bool) (i : nat) : Prop := reachables !! i = Some true.
Definition unmarked (reachables : list bool) (i : nat) : bool := bool_decide (reachables !! i = Some false).

Lemma index_of_Some {A} (l : list A) i a : l !! i = Some a -> index_of l i = Ok a.
Proof. unfold index_of. by intros ->. Qed.

Lemma push_unreached_Ok reachables ss wl :
  (forall s, s ∈ ss -> s < length reachables) ->
  push_unreached reachables ss wl = Ok (rev (List.filter (unmarked reachables) ss) ++ wl).
Proof.
  revert wl. induction ss as [|s ss IH]; intros wl Hss; cbn; [done|].
  assert (s < length reachables) as [b Hb]%lookup_lt_is_Some by (apply Hss; left).
  unfold index_of, unmarked. rewrite Hb. next_step. rewrite IH by (intros; apply Hss; by right).
  destruct b.
  - by rewrite bool_decide_eq_false_2.
  - rewrite bool_decide_eq_true_2 by done. cbn. by rewrite <- app_assoc.
Qed.

(** The reached instructions are reachable, and the successors of a reached
    instruction are reached or wait in the worklist. *)
Record reach_inv (reachables : list bool) (wl : list nat) : Prop := {
  ri_length : length reachables = length ops;
  ri_start : marked reachables 0 \/ 0 ∈ wl;
  ri_marked i : marked reachables i -> rtc (edge ops) 0 i;
  ri_worklist i : i ∈ wl -> i < length ops /\ rtc (edge ops) 0 i;
  ri_closed i s : marked reachables i -> edge ops i s -> marked reachables s \/ s ∈ wl
}.

Lemma marked_insert reachables x i :
  x < length reachables -> marked (<[x := true]> reachables) i <-> i = x \/ marked reachables i.
Proof.
  intros Hx. unfold marked. destruct (decide (i = x)) as [->|Hi].
  - rewrite list_lookup_insert_eq by done. tauto.
  - rewrite list_lookup_insert_ne by done. tauto.
Qed.

Lemma unmarked_spec reachables i : i < length reachables -> unmarked reachables i = true <-> ~ marked reachables i.
Proof.
  intros [b Hb]%lookup_lt_is_Some. unfold unmarked, marked. rewrite bool_decide_eq_true, Hb.
  destruct b; split; congruence.
Qed.

(** One iteration on an instruction that is not yet marked. *)
Lemma reach_step reachables x wl op ss :
  reach_inv reachables (x :: wl) -> ops !! x = Some op ->
  successors op x ops (label_to_index_of ops) = Ok ss ->
  let reachables' := <[x := true]> reachables in
  let wl' := rev (List.filter (unmarked reachables') ss) ++ wl in
  push_unreached reachables' ss wl = Ok wl' /\ reach_inv reachables' wl'.
Proof.
  intros Hi Hop Hss reachables' wl'. destruct (ri_worklist _ _ Hi x ltac:(left)) as [Hx Hrx].
  pose proof (ri_length _ _ Hi) as Hlen.
  assert (length reachables' = length ops) as Hlen' by (unfold reachables'; by rewrite length_insert).
  assert (forall s, s ∈ ss -> s < length ops /\ edge ops x s) as Hedge.
  { intros s Hs. assert (edge ops x s) by (by exists op, ss). split; [by eapply edge_range|done]. }
  assert (forall s, s ∈ wl' <-> (s ∈ ss /\ ~ marked reachables' s) \/ s ∈ wl) as Hwl.
  { intros s. unfold wl'. rewrite elem_of_app, elem_of_rev, list_elem_of_In, filter_In, <- list_elem_of_In.
    split; (intros [[Hs Hm]|?]; [left|by right]); (split; [done|]);
      apply unmarked_spec; try done; rewrite Hlen'; by apply Hedge. }
  assert (forall s, marked reachables' s <-> s = x \/ marked reachables s) as Hmark.
  { intros s. apply marked_insert. lia. }
  split; [apply push_unreached_Ok; intros s Hs; rewrite Hlen'; by apply Hedge|].
  split; [done| | | |].
  - destruct (ri_start _ _ Hi) as [?|[->|?]%elem_of_cons]; [left; apply Hmark; by right| |right; apply Hwl; by right].
    left. apply Hmark. by left.
  - intros i [->|?]%Hmark; [done|by eapply ri_marked].
  - intros i [[Hs _]|Hw]%Hwl; [|apply (ri_worklist _ _ Hi); by right].
    split; [by apply Hedge|]. eapply rtc_r; [done|by apply Hedge].
  - intros i s [->|Hm]%Hmark He.
    + destruct He as (op' & ss' & Hop' & Hss' & Hin). assert (ss' = ss) as -> by congruence.
      destruct (decide (reachables' !! s = Some true)); [by left|]. right. apply Hwl. by left.
    + destruct (ri_closed _ _ Hi i s Hm He) as [?|[->|?]%elem_of_cons];
        [left; apply Hmark; by right|left; apply Hmark; by left|right; apply Hwl; by right].
Qed.

Definition count_unmarked (reachables : list bool) : nat := length (List.filter negb reachables).

Lemma count_unmarked_insert reachables x :
  reachables !! x = Some false -> S (count_unmarked (<[x := true]> reachables)) = count_unmarked reachables.
Proof.
  unfold count_unmarked. revert x. induction reachables as [|b l IH]; intros [|x] Hx; try done; cbn in *.
  - by injection Hx as ->.
  - destruct b; cbn; [by apply IH|]. f_equal. by apply IH.
Qed.

Definition reach_exact (reachables : list bool) : Prop :=
  forall i, marked reachables i <-> rtc (edge ops) 0 i.

Lemma reach_inv_exact reachables : reach_inv reachables [] -> reach_exact reachables.
Proof.
  intros Hi i. split; [apply (ri_marked _ _ Hi)|]. intros Hr.
  assert (forall j k, rtc (edge ops) j k -> marked reachables j -> marked reachables k) as Hgo.
  { intros j k Hj. induction Hj as [|a b c Hab Hbc IH]; [done|]. intros Ha. apply IH.
    by destruct (ri_closed _ _ Hi a b Ha Hab) as [?|?%elem_of_nil]. }
  apply (Hgo 0 i Hr). by destruct (ri_start _ _ Hi) as [?|?%elem_of_nil].
Qed.

(** The loop ends, with the reachable instructions or in the assertion. *)
Lemma reach_loop_outcome fuel reachables wl :
  reach_inv reachables wl -> count_unmarked reachables < fuel ->
  (exists r, reach_loop fuel ops (label_to_index_of ops) reachables wl = Ok r /\ reach_exact r) \/
  reach_loop fuel ops (label_to_index_of ops) reachables wl = Err (Panic "assertion failed: !reachables[op_idx]").
Proof.
  revert reachables wl. induction fuel as [|fuel IH]; intros reachables wl Hi Hf; [lia|].
  destruct wl as [|x wl]; cbn [reach_loop]; [left; eexists; split; [done|by apply reach_inv_exact]|].
  destruct (ri_worklist _ _ Hi x ltac:(left)) as [Hx _].
  destruct (lookup_lt_is_Some_2 ops x Hx) as [op Hop]. destruct (wf x op Hop) as [ss Hss].
  destruct (lookup_lt_is_Some_2 reachables x) as [b Hb]; [by rewrite (ri_length _ _ Hi)|].
  rewrite (index_of_Some _ _ _ Hb). next_step. destruct b; [by right|].
  rewrite (index_of_Some _ _ _ Hop). next_step. rewrite Hss. next_step.
  destruct (reach_step reachables x wl op ss Hi Hop Hss) as [-> Hi']. next_step.
  apply IH; [done|]. pose proof (count_unmarked_insert reachables x Hb). lia.
Qed.

(** ** The assertion

    The worklist holds no instruction twice when no label follows a conditional
    jump: an instruction below the top of the worklist is the fall-through of a
    conditional jump, which nothing else reaches. *)

Hypothesis no_label : forall i op next r l l', ops !! i = Some op -> opcode op = inr (JumpIfNotZero r l) ->
  ops !! S i = Some next -> opcode next <> inr (CLabel l').

Lemma successors_cases op i ss :
  successors op i ops (label_to_index_of ops) = Ok ss ->
  (length ss <= 1 \/ exists r l t, opcode op = inr (JumpIfNotZero r l) /\ ss = [S i; t] /\
    exists op', ops !! t = Some op' /\ opcode op' = inr (CLabel l)) /\
  forall s, s ∈ ss -> s = S i \/ exists op' l, ops !! s = Some op' /\ opcode op' = inr (CLabel l).
Proof.
  unfold successors. destruct (opcode op) as [v|c].
  - intros Hss. assert (ss = (if length ops - 1 <=? i then [] else [i + 1]) \/ ss = []) as [->| ->].
    { unfold VirtualOp_successors in Hss. destruct v; inv_ok; auto. }
    + case_match; (split; [left; cbn; lia|]); intros s Hs; [by apply elem_of_nil in Hs|].
      apply list_elem_of_singleton in Hs. left. lia.
    + split; [left; cbn; lia|]. intros s Hs. by apply elem_of_nil in Hs.
  - unfold ControlFlowOp_successors. rewrite Nat.add_1_r. generalize (S i <? length ops) as more.
    intros more. destruct c; intros Hss; inv_ok;
      try (destruct (label_to_index_of ops !! l) as [t|] eqn:Hl; [|done]; inv_ok;
           apply label_to_index_label in Hl as (op' & Hop' & Hl));
      destruct more; cbn [andb negb app];
      (split; [first [left; cbn; lia|right; eexists _, _, _; split; [reflexivity|]; eauto]|]); intros s Hs;
      rewrite ?elem_of_cons, ?elem_of_nil in Hs; destruct_or?; naive_solver.
Qed.

Definition fall_through (reachables : list bool) (x : nat) : Prop :=
  exists p op r l, x = S p /\ marked reachables p /\ ops !! p = Some op /\ opcode op = inr (JumpIfNotZero r l).

Lemma fall_through_edge reachables x y : fall_through reachables x -> edge ops y x -> marked reachables y.
Proof.
  intros (p & op & r & l & -> & Hm & Hop & Hjnz) (op' & ss & Hop' & Hss & Hin).
  apply successors_cases in Hss as [_ Hss]. apply Hss in Hin as [Heq|(next & l' & Hnext & Hl)]; [congruence|].
  by destruct (no_label p op next r l l' Hop Hjnz Hnext).
Qed.

Record stack_inv (reachables : list bool) (wl : list nat) : Prop := {
  si_nodup : NoDup wl;
  si_unmarked x : x ∈ wl -> ~ marked reachables x;
  si_tail x : x ∈ tail wl -> fall_through reachables x
}.

Lemma stack_step reachables x wl op ss :
  reach_inv reachables (x :: wl) -> stack_inv reachables (x :: wl) -> ops !! x = Some op ->
  successors op x ops (label_to_index_of ops) = Ok ss ->
  let reachables' := <[x := true]> reachables in
  stack_inv reachables' (rev (List.filter (unmarked reachables') ss) ++ wl).
Proof.
  intros Hi Hs Hop Hss reachables'. pose proof (successors_cases _ _ _ Hss) as [Hshape Htarget].
  destruct (ri_worklist _ _ Hi x ltac:(left)) as [Hx _]. rewrite <- (ri_length _ _ Hi) in Hx.
  assert (forall s, marked reachables' s <-> s = x \/ marked reachables s) as Hmark by (intros; by apply marked_insert).
  pose proof (si_unmarked _ _ Hs x ltac:(left)) as Hnm. pose proof (si_nodup _ _ Hs) as [Hxw Hnd]%NoDup_cons.
  assert (forall s, s ∈ wl -> fall_through reachables' s) as Hfall.
  { intros s Hw. destruct (si_tail _ _ Hs s Hw) as (p & o & r & l & ? & ? & ? & ?).
    exists p, o, r, l. split_and!; try done. apply Hmark. by right. }
  set (new := List.filter (unmarked reachables') ss).
  assert (forall s, s ∈ new -> s ∈ ss /\ ~ marked reachables' s) as Hnew.
  { intros s [Hin Hu]%list_elem_of_In%filter_In. apply list_elem_of_In in Hin. split; [done|].
    apply unmarked_spec; [|done]. unfold reachables'. rewrite length_insert, (ri_length _ _ Hi).
    eapply edge_range. by exists op, ss. }
  assert (length new <= 1 \/ exists t, new = [S x; t] /\ S x <> t /\ fall_through reachables' (S x)) as Hcases.
  { destruct Hshape as [Hle|(r & l & t & Hjnz & -> & Hlabel)].
    - left. pose proof (List.filter_length_le (unmarked reachables') ss). unfold new. lia.
    - unfold new. cbn. destruct (unmarked reachables' (S x)), (unmarked reachables' t); cbn; try (left; lia).
      right. exists t. split; [done|]. split.
      + intros <-. destruct Hlabel as (next & Hnext & Hl). by destruct (no_label x op next r l l Hop Hjnz Hnext).
      + exists x, op, r, l. split_and!; [done|apply Hmark; by left|done..]. }
  split.
  - apply NoDup_app. split_and!; [|intros s Hin Hw|done].
    + rewrite NoDup_ListNoDup. apply NoDup_rev, NoDup_ListNoDup.
      destruct Hcases as [Hle|(t & -> & Hne & _)]; [|by repeat constructor; set_solver].
      destruct new as [|? [|? ?]]; cbn in Hle; [constructor|apply NoDup_singleton|lia].
    + rewrite elem_of_rev in Hin. apply Hnew in Hin as [Hin _]. apply Hnm.
      eapply fall_through_edge; [by apply (si_tail _ _ Hs)|by exists op, ss].
  - intros s [Hin|Hw]%elem_of_app; [rewrite elem_of_rev in Hin; by apply Hnew|].
    intros [->|Hm]%Hmark; [done|]. by apply (si_unmarked _ _ Hs s); [right|].
  - intros s Hin. destruct Hcases as [Hle|(t & Ht & _ & Hf)].
    + apply Hfall. destruct new as [|? [|? ?]]; cbn in Hle, Hin; [destruct wl; [done|by right]|done|lia].
    + rewrite Ht in Hin. cbn in Hin. apply elem_of_cons in Hin as [->|Hin]; [done|by apply Hfall].
Qed.

Lemma reach_loop_Ok fuel reachables wl :
  reach_inv reachables wl -> stack_inv reachables wl -> count_unmarked reachables < fuel ->
  exists r, reach_loop fuel ops (label_to_index_of ops) reachables wl = Ok r /\ reach_exact r.
Proof.
  intros Hi Hs Hf. destruct (reach_loop_outcome fuel reachables wl Hi Hf) as [?|Hpanic]; [done|]. exfalso.
  revert reachables wl Hi Hs Hf Hpanic.
  induction fuel as [|fuel IH]; intros reachables wl Hi Hs Hf Hpanic; [lia|].
  destruct wl as [|x wl]; cbn [reach_loop] in Hpanic; [done|].
  destruct (ri_worklist _ _ Hi x ltac:(left)) as [Hx _].
  destruct (lookup_lt_is_Some_2 ops x Hx) as [op Hop]. destruct (wf x op Hop) as [ss Hss].
  destruct (lookup_lt_is_Some_2 reachables x) as [b Hb]; [by rewrite (ri_length _ _ Hi)|].
  rewrite (index_of_Some _ _ _ Hb) in Hpanic. next_step in Hpanic.
  destruct b; [by apply (si_unmarked _ _ Hs x ltac:(left))|].
  rewrite (index_of_Some _ _ _ Hop) in Hpanic. next_step in Hpanic. rewrite Hss in Hpanic. next_step in Hpanic.
  destruct (reach_step reachables x wl op ss Hi Hop Hss) as [Hpush Hi']. rewrite Hpush in Hpanic.
  next_step in Hpanic. pose proof (count_unmarked_insert reachables x Hb).
  eapply (IH _ _ Hi' (stack_step _ _ _ _ _ Hi Hs Hop Hss)); [lia|done].
Qed.
End reach.

Lemma reach_inv_start ops : 0 < length ops -> reach_inv ops (replicate (length ops) false) [0].
Proof.
  intros Hlen. assert (forall i, ~ marked (replicate (length ops) false) i) as Hm.
  { intros i Hi. apply lookup_replicate in Hi. naive_solver. }
  split; [apply length_replicate|right; left|..].
  - intros i Hi. by apply Hm in Hi.
  - intros i ->%list_elem_of_singleton. by split.
  - intros i s Hi. by apply Hm in Hi.
Qed.

Lemma count_unmarked_start n : count_unmarked (replicate n false) = n.
Proof. unfold count_unmarked. induction n; cbn; congruence. Qed.

(** ** Theorems on [simplify_cfg] *)

(** On every program whose labels are defined, [simplify_cfg] returns the
    instructions that are reachable from the first one in the control-flow graph,
    or fails in the assertion that no instruction is visited twice. *)
Theorem simplify_cfg_outcome ops :
  (forall i op, ops !! i = Some op -> is_Ok (successors op i ops (label_to_index_of ops))) ->
  (exists kept, simplify_cfg ops = Ok (keep_indices kept ops) /\
     forall i, i < length ops -> kept i = true <-> rtc (edge ops) 0 i) \/
  simplify_cfg ops = Err (Panic "assertion failed: !reachables[op_idx]").
Proof.
  intros Hwf. destruct ops as [|op ops].
  { left. exists (fun _ => true). split; [done|]. cbn. lia. }
  unfold simplify_cfg. set (all := op :: ops) in *.
  destruct (reach_loop_outcome all Hwf (S (length all)) _ _ (reach_inv_start all ltac:(cbn; lia)))
    as [(r & -> & Hr)| ->]; [rewrite count_unmarked_start; lia| |by right].
  left. eexists. split; [done|]. intros i _. rewrite bool_decide_eq_true. apply Hr.
Qed.

(** The assertion of [simplify_cfg] does not fail, and exactly the reachable
    instructions are kept, when no label directly follows a conditional jump; the
    code generator puts a jump to the other branch there. *)
Theorem simplify_cfg_exact ops :
  (forall i op, ops !! i = Some op -> is_Ok (successors op i ops (label_to_index_of ops))) ->
  (forall i op next r l l', ops !! i = Some op -> opcode op = inr (JumpIfNotZero r l) ->
     ops !! S i = Some next -> opcode next <> inr (CLabel l')) ->
  exists kept, simplify_cfg ops = Ok (keep_indices kept ops) /\
    forall i, i < length ops -> kept i = true <-> rtc (edge ops) 0 i.
Proof.
  intros Hwf Hno. destruct ops as [|op ops].
  { exists (fun _ => true). split; [done|]. cbn. lia. }
  unfold simplify_cfg. set (all := op :: ops) in *.
  destruct (reach_loop_Ok all Hwf Hno (S (length all)) _ _ (reach_inv_start all ltac:(cbn; lia)))
    as (r & -> & Hr); [|rewrite count_unmarked_start; lia|].
  - split; [apply NoDup_singleton| |cbn; intros ? ?%elem_of_nil; done].
    intros x _ Hm. apply lookup_replicate in Hm. naive_solver.
  - eexists. split; [done|]. intros i _. rewrite bool_decide_eq_true. apply Hr.
Qed.

(** [L0: jnz c L1; jump L2; noop; L1: x := 1; L2: ret x]; the NOOP is not
    reachable. *)
Definition sample_branch : list Op :=
  map (fun o => mkOp o "")
    [inr (CLabel 0); inr (JumpIfNotZero (Virtual "c") 1); inr (Jump 2); inl NOOP; inr (CLabel 1);
     inl (MOVI (Virtual "x") (mkImm18 1)); inr (CLabel 2); inl (RET (Virtual "x"))].

Lemma sample_branch_wf i op :
  sample_branch !! i = Some op -> is_Ok (successors op i sample_branch (label_to_index_of sample_branch)).
Proof.
  intros Hop. do 8 (destruct i as [|i]; [injection Hop as <-; vm_compute; by eexists|]). discriminate Hop.
Qed.

Lemma sample_branch_kept :
  simplify_cfg sample_branch = Ok (take 3 sample_branch ++ drop 4 sample_branch).
Proof. vm_compute. reflexivity. Qed.

Lemma simplify_cfg_outcome_witness :
  (exists kept, simplify_cfg sample_branch = Ok (keep_indices kept sample_branch) /\
     forall i, i < 8 -> kept i = true <-> rtc (edge sample_branch) 0 i) \/
  simplify_cfg sample_branch = Err (Panic "assertion failed: !reachables[op_idx]").
Proof. exact (simplify_cfg_outcome sample_branch sample_branch_wf). Defined.

Lemma simplify_cfg_exact_witness :
  exists kept, simplify_cfg sample_branch = Ok (keep_indices kept sample_branch) /\
    forall i, i < 8 -> kept i = true <-> rtc (edge sample_branch) 0 i.
Proof.
  apply (simplify_cfg_exact sample_branch sample_branch_wf). intros i op next r l l' Hop Hj Hnext.
  do 8 (destruct i as [|i]; [injection Hop as <-; first [discriminate Hj|injection Hnext as <-; discriminate]|]).
  discriminate Hop.
Defined.

(** A conditional jump to the next instruction pushes it twice. *)
Lemma simplify_cfg_panics :
  simplify_cfg [mkOp (inr (JumpIfNotZero (Virtual "c") 0)) ""; mkOp (inr (CLabel 0)) ""] =
  Err (Panic "assertion failed: !reachables[op_idx]").
Proof. vm_compute. reflexivity. Qed.
