(* ===== verification/AsmDce.v ===== *)
(** * Correctness of dead-code elimination

    [dce] of [asm_generation/fuel/optimizations.rs] removes instructions whose
    results are never read.  A program and the program with the removed
    instructions skipped run in lockstep and agree on every register that is
    still read. *)

From S2P Require Import Prelude AsmRegister AsmVirtualOp AsmOp AsmVm AsmLiveness AsmData AsmAbstract AsmIndexing AsmOptimize.
Local Open Scope nat_scope.

Definition is_jump (op : Op) : bool :=
  match opcode op with inr (Jump _) | inr (JumpIfNotZero _ _) => true | _ => false end.

(** ** What the loop computes *)

Section loop.
Context (liveness : list BTreeSet).

(** The live registers before every instruction, and the dead instructions *)
Definition dce_at (cur : nat -> BTreeSet) (dead : gset nat) (i : nat) (op : Op) : Prop :=
  if is_jump op
  then (i ∉ dead) /\ exists live, liveness !! i = Some live /\ cur i = live ∪ use_registers op
  else
    ((i ∈ dead) -> (exists v, opcode op = inl v /\ has_side_effect v = false) /\
       (forall r, r ∈ written_registers op -> r ∉ cur (S i)) /\
       cur i = cur (S i) ∖ written_registers op) /\
    (i ∉ dead -> cur i = (cur (S i) ∖ written_registers op) ∪ use_registers op).

Lemma dce_op_at cur dead i op st st' :
  dce_op liveness i op st = Ok st' -> cur (S i) = st.1 -> cur i = st'.1 -> i ∉ st.2 ->
  (i ∈ dead <-> i ∈ st'.2) -> dce_at cur dead i op /\ forall j, j <> i -> j ∈ st'.2 <-> j ∈ st.2.
Proof.
  unfold dce_op, dce_at, is_jump. intros Hd Hnext Hcur Hfresh Hdead.
  assert (forall side : bool,
    (if forallb (fun def => negb (bool_decide (def ∈ st.1))) (btree_iter (def_registers op ∪ def_const_registers op)) && side
     then Ok (st.1 ∖ (def_registers op ∪ def_const_registers op), {[i]} ∪ st.2)
     else Ok ((st.1 ∖ (def_registers op ∪ def_const_registers op)) ∪ use_registers op, st.2)) = Ok st' ->
    (side = true -> exists v, opcode op = inl v /\ has_side_effect v = false) ->
    ((i ∈ dead -> (exists v, opcode op = inl v /\ has_side_effect v = false) /\
       (forall r, r ∈ written_registers op -> r ∉ cur (S i)) /\ cur i = cur (S i) ∖ written_registers op) /\
     (i ∉ dead -> cur i = (cur (S i) ∖ written_registers op) ∪ use_registers op)) /\
    forall j, j <> i -> j ∈ st'.2 <-> j ∈ st.2) as Hplain.
  { intros side Hs Hside. rewrite Hnext, Hcur, Hdead. unfold written_registers.
    destruct (forallb _ _ && side) eqn:Hb; injection Hs as <-; cbn.
    - apply andb_true_iff in Hb as [Hall ->]. rewrite forallb_forall in Hall. split; [|set_solver].
      split; [intros _|set_solver]. split_and!; [by apply Hside| |done]. intros r Hr.
      specialize (Hall r). rewrite <- list_elem_of_In, btree_iter_elem, negb_true_iff, bool_decide_eq_false in Hall. auto.
    - split; [|done]. split; [done|]. by intros _. }
  destruct (opcode op) as [v|c] eqn:Hop; [apply (Hplain (negb (has_side_effect v))); [done|]|].
  { intros Hv%negb_true_iff. eauto. }
  destruct c; try (by eapply (Hplain false); [exact Hd|]);
    (destruct (liveness !! i) as [live|]; [|done]); injection Hd as <-; cbn in *;
    (split; [|done]); (split; [by rewrite Hdead|]); eauto.
Qed.

Lemma dce_loop_at l st st' :
  dce_loop liveness (rev (imap pair l)) st = Ok st' -> (forall i, i ∈ st.2 -> length l <= i) ->
  exists cur, cur (length l) = st.1 /\ (forall i op, l !! i = Some op -> dce_at cur st'.2 i op) /\
    forall i, length l <= i -> i ∈ st'.2 <-> i ∈ st.2.
Proof.
  revert st. induction l as [|op l IH] using rev_ind; intros st Hd Hst.
  - injection Hd as <-. by exists (fun _ => st.1).
  - rewrite imap_app, rev_app_distr in Hd. cbn in Hd. rewrite Nat.add_0_r in Hd. inv_ok. rename r into st1, Hok into Hop.
    rewrite length_app in *. cbn in *.
    assert (length l ∉ st.2) as Hfresh by (intros Hin%Hst; lia).
    assert (forall j, j <> length l -> j ∈ st1.2 <-> j ∈ st.2) as Hst1.
    { by eapply (dce_op_at (fun i => if decide (i = S (length l)) then st.1 else st1.1) st1.2);
        [exact Hop|by rewrite decide_True|by rewrite decide_False by lia|done|done]. }
    destruct (IH st1 Hd) as (cur & Hlen & Hat & Hge).
    { intros i Hi. destruct (decide (i = length l)) as [->|]; [done|]. apply Hst1, Hst in Hi; [lia|done]. }
    exists (fun i => if decide (i = S (length l)) then st.1 else cur i).
    split; [rewrite decide_True by lia; done|]. split.
    + intros i op' Hi. destruct (decide (i = length l)) as [->|Hne].
      * rewrite list_lookup_middle in Hi by done. injection Hi as <-.
        eapply (dce_op_at _ _ _ _ st st1); [done|by rewrite decide_True|by rewrite decide_False by lia|done|].
        apply Hge. lia.
      * assert (i < length l) as Hlt.
        { apply lookup_lt_Some in Hi. rewrite length_app in Hi. cbn in Hi. lia. }
        rewrite lookup_app_l in Hi by done. specialize (Hat i op' Hi). unfold dce_at in *.
        rewrite !(decide_False (P := i = S (length l))) by lia.
        rewrite !(decide_False (P := S i = S (length l))) by lia. done.
    + intros i Hi. rewrite Hge by lia. apply Hst1. lia.
Qed.
End loop.

(** ** Registers that are read *)

Section reads.
Context (ops : list Op) (dead : gset nat).

(** The instruction [i] reads, or writes, [r] when the dead ones are skipped. *)
Definition reads (i : nat) (r : VirtualRegister) : Prop :=
  exists op, ops !! i = Some op /\ (i ∉ dead) /\ r ∈ use_registers op.
Definition writes_at (i : nat) (r : VirtualRegister) : Prop :=
  exists op, ops !! i = Some op /\ (i ∉ dead) /\ r ∈ written_registers op.

(** Some path from a successor of [i] reads [r] before it is written. *)
Inductive read_after : nat -> VirtualRegister -> Prop :=
  | read_use i s r : edge ops i s -> reads s r -> read_after i r
  | read_step i s r : edge ops i s -> ~ writes_at s r -> read_after s r -> read_after i r.

Definition read_before (i : nat) (r : VirtualRegister) : Prop :=
  reads i r \/ (~ writes_at i r /\ read_after i r).

Lemma read_after_before i s r : edge ops i s -> read_before s r -> read_after i r.
Proof. intros He [Hr|[Hw Hr]]; [by eapply read_use|by eapply read_step]. Qed.

Context (liveness : list BTreeSet) (cur : nat -> BTreeSet).
Hypothesis live_exact : forall i live r, liveness !! i = Some live -> r ∈ live <-> live_after ops false i r.
Hypothesis cur_at : forall i op, ops !! i = Some op -> dce_at liveness cur dead i op.

Lemma edge_next i s op : ops !! i = Some op -> is_jump op = false -> edge ops i s -> s = S i.
Proof.
  intros Hop Hj (op' & ss & Hop' & Hss & Hin). assert (op' = op) as -> by congruence.
  unfold is_jump in Hj. unfold successors in Hss. destruct (opcode op) as [v|c].
  - assert (ss = (if length ops - 1 <=? i then [] else [i + 1]) \/ ss = []) as [->| ->].
    { unfold VirtualOp_successors in Hss. destruct v; inv_ok; auto. }
    + case_match; set_solver by lia.
    + set_solver.
  - unfold ControlFlowOp_successors in Hss. revert Hss. generalize (i + 1 <? length ops) as more. intros more Hss.
    destruct c; try done; inv_ok; destruct more; cbn in Hin; set_solver by lia.
Qed.

Lemma dead_at i op :
  ops !! i = Some op -> i ∈ dead -> is_jump op = false /\
    (exists v, opcode op = inl v /\ has_side_effect v = false) /\
    forall r, r ∈ written_registers op -> r ∉ cur (S i).
Proof.
  intros Hop Hd. pose proof (cur_at i op Hop) as Hat. unfold dce_at in Hat.
  destruct (is_jump op); [by destruct Hat|]. destruct Hat as [Hat _]. by destruct (Hat Hd) as (? & ? & _).
Qed.

(** A register that is read later is in the live set of the loop. *)
Lemma read_after_live i r :
  read_after i r -> live_after ops false i r /\
    forall op, ops !! i = Some op -> is_jump op = false -> r ∈ cur (S i).
Proof.
  assert (forall i s r, edge ops i s -> r ∈ cur s ->
    forall op, ops !! i = Some op -> is_jump op = false -> r ∈ cur (S i)) as Hnext.
  { intros i' s r' He Hc op Hop Hj. by rewrite (edge_next i' s op Hop Hj He) in Hc. }
  induction 1 as [i s r He Hu|i s r He Hw Hr [IHl IHc]].
  - destruct Hu as (op & Hop & Hd & Hr). split; [by eapply live_use; [|exists op]|]. apply (Hnext i s r He).
    pose proof (cur_at s op Hop) as Hat. unfold dce_at in Hat. destruct (is_jump op).
    + destruct Hat as (_ & live & _ & ->). set_solver.
    + destruct Hat as [_ Hat]. rewrite (Hat Hd). set_solver.
  - assert (exists op, ops !! s = Some op) as [op Hop] by (apply lookup_lt_is_Some; by eapply edge_range).
    assert (r ∉ written_registers op) as Hnw.
    { intros Hin. destruct (decide (s ∈ dead)) as [Hd|Hd]; [|by apply Hw; exists op].
      destruct (dead_at s op Hop Hd) as (Hj & _ & Hc). by apply (Hc r Hin), IHc with op. }
    split.
    + eapply live_step; [done| |done]. intros (op' & Hop' & Hin). simplify_eq. cbn in Hin.
      apply Hnw. unfold written_registers. set_solver.
    + apply (Hnext i s r He). pose proof (cur_at s op Hop) as Hat. unfold dce_at in Hat.
      destruct (is_jump op) eqn:Hj.
      * destruct Hat as (_ & live & Hl & ->). apply elem_of_union_l. by eapply live_exact.
      * specialize (IHc op Hop Hj). destruct (decide (s ∈ dead)) as [Hd|Hd].
        -- destruct Hat as [Hat _]. destruct (Hat Hd) as (_ & _ & ->). set_solver.
        -- destruct Hat as [_ Hat]. rewrite (Hat Hd). set_solver.
Qed.

Lemma dead_unread i op r :
  ops !! i = Some op -> i ∈ dead -> r ∈ written_registers op -> ~ read_after i r.
Proof.
  intros Hop Hd Hr [_ Hc]%read_after_live. destruct (dead_at i op Hop Hd) as (Hj & _ & Hn).
  by apply (Hn r Hr), (Hc op).
Qed.
End reads.

(** ** Positions in the shortened program *)

(** The number of positions before [i] that are kept *)
Definition pos (f : nat -> bool) (i : nat) : nat := length (List.filter f (seq 0 i)).

Lemma pos_S f i : pos f (S i) = if f i then S (pos f i) else pos f i.
Proof.
  unfold pos. rewrite seq_S, List.filter_app, length_app. cbn. destruct (f i); cbn; lia.
Qed.

Lemma keep_indices_snoc f l x :
  keep_indices f (l ++ [x]) = keep_indices f l ++ if f (length l) then [x] else [].
Proof.
  unfold keep_indices. rewrite imap_app, List.filter_app, map_app. cbn. rewrite Nat.add_0_r.
  by destruct (f (length l)).
Qed.

Lemma length_keep_indices f l : length (keep_indices f l) = pos f (length l).
Proof.
  induction l as [|x l IH] using rev_ind; [done|].
  rewrite keep_indices_snoc, !length_app, IH, Nat.add_1_r, pos_S. destruct (f (length l)); cbn; lia.
Qed.

Lemma keep_indices_lookup f l i x : l !! i = Some x -> f i = true -> keep_indices f l !! pos f i = Some x.
Proof.
  intros Hi Hf. induction l as [|y l IH] using rev_ind; [done|]. rewrite keep_indices_snoc.
  apply lookup_lt_Some in Hi as Hlt. rewrite length_app in Hlt. cbn in Hlt.
  destruct (decide (i = length l)) as [->|Hne].
  - rewrite list_lookup_middle in Hi by done. injection Hi as ->. rewrite Hf.
    apply list_lookup_middle. by rewrite length_keep_indices.
  - rewrite lookup_app_l in Hi by lia. apply lookup_app_l_Some. by apply IH.
Qed.

Lemma label_to_index_snoc l x :
  label_to_index_of (l ++ [x]) =
  match opcode x with inr (CLabel lab) => <[lab := length l]> (label_to_index_of l) | _ => label_to_index_of l end.
Proof.
  unfold label_to_index_of. rewrite imap_app, foldl_app. cbn. rewrite Nat.add_0_r. by destruct (opcode x) as [|[]].
Qed.

(** Labels keep their meaning when all of them are kept. *)
Lemma keep_indices_labels f l :
  (forall i op lab, l !! i = Some op -> opcode op = inr (CLabel lab) -> f i = true) ->
  label_to_index_of (keep_indices f l) = pos f <$> label_to_index_of l.
Proof.
  induction l as [|x l IH] using rev_ind; intros Hf; [done|].
  rewrite keep_indices_snoc, label_to_index_snoc.
  assert (label_to_index_of (keep_indices f l) = pos f <$> label_to_index_of l) as IH'.
  { apply IH. intros i op lab Hi. apply (Hf i op lab). by apply lookup_app_l_Some. }
  specialize (Hf (length l) x). destruct (f (length l)).
  - rewrite label_to_index_snoc, IH', length_keep_indices.
    destruct (opcode x) as [|[]]; try done. by rewrite fmap_insert.
  - rewrite app_nil_r, IH'. destruct (opcode x) as [|[lab| | | | | | | | | |]]; try done.
    by discriminate (Hf lab (list_lookup_middle _ _ _ _ eq_refl) eq_refl).
Qed.

(** ** Running a program *)

Section simulation.
Context {State : Type} `{FuelVmWorldLaws State}.

(** The instruction is not a jump and control can go on to the next one. *)
Definition falls_through (op : Op) : bool :=
  match opcode op with inl (RVRT _) | inr (Jump _) | inr (JumpIfNotZero _ _) => false | _ => true end.

(** One instruction at the position [i] *)
Inductive cf_step (ops : list Op) : nat * State -> nat * State -> Prop :=
  | step_exec i op s s' :
      ops !! i = Some op -> falls_through op = true -> op_exec op s = Some s' -> cf_step ops (i, s) (S i, s')
  | step_jump i op l t s :
      ops !! i = Some op -> opcode op = inr (Jump l) -> label_to_index_of ops !! l = Some t ->
      cf_step ops (i, s) (t, s)
  | step_taken i op r l t s :
      ops !! i = Some op -> opcode op = inr (JumpIfNotZero r l) -> label_to_index_of ops !! l = Some t ->
      reg_value s r <> 0%Z -> cf_step ops (i, s) (t, s)
  | step_not_taken i op r l s :
      ops !! i = Some op -> opcode op = inr (JumpIfNotZero r l) -> reg_value s r = 0%Z ->
      cf_step ops (i, s) (S i, s).

Context (ops : list Op).
Hypothesis wf : forall i op, ops !! i = Some op -> is_Ok (successors op i ops (label_to_index_of ops)).
Hypothesis no_counts : forall i op r, ops !! i = Some op -> r ∈ use_registers op -> counts r = false.
Context (dead : gset nat).
Hypothesis dead_pure : forall i, i ∈ dead -> exists op v,
  ops !! i = Some op /\ opcode op = inl v /\ has_side_effect v = false /\
  forall r, r ∈ written_registers op -> ~ read_after ops dead i r.

Definition kept (i : nat) : bool := negb (bool_decide (i ∈ dead)).

Lemma kept_spec i : kept i = true <-> i ∉ dead.
Proof. unfold kept. by rewrite negb_true_iff, bool_decide_eq_false. Qed.

(** The positions correspond, and the states agree on what is still read. *)
Definition agree (c1 c2 : nat * State) : Prop :=
  c2.1 = pos kept c1.1 /\ same_world c1.2 c2.2 /\
  forall r, counts r = false -> read_before ops dead c1.1 r -> reg_value c1.2 r = reg_value c2.2 r.

Lemma next_edge i op r :
  ops !! i = Some op -> falls_through op = true \/ (exists x l, opcode op = inr (JumpIfNotZero x l)) ->
  read_before ops dead (S i) r -> read_after ops dead i r.
Proof.
  intros Hop Hf Hr. apply (read_after_before _ _ i (S i)); [|done].
  assert (S i < length ops) as Hlt.
  { destruct Hr as [(o & Ho & _)|[_ Hr]]; [by eapply lookup_lt_Some|].
    inversion Hr as [? ? ? (o & ? & Ho & _)|? ? ? (o & ? & Ho & _)]; subst; by eapply lookup_lt_Some. }
  destruct (wf i op Hop) as [ss Hss]. exists op, ss. split; [done|]. split; [done|].
  unfold successors, falls_through in *. destruct (opcode op) as [v|c].
  - assert (ss = [i + 1]) as ->; [|set_solver by lia]. unfold VirtualOp_successors in Hss.
    destruct (Nat.leb_spec (length ops - 1) i); [lia|]. destruct v; inv_ok; try done. naive_solver.
  - unfold ControlFlowOp_successors in Hss. destruct (Nat.ltb_spec (i + 1) (length ops)); [|lia].
    rewrite Nat.add_1_r in Hss. destruct c; cbn in Hss; try (injection Hss as <-; set_solver); [naive_solver|].
    destruct (label_to_index_of ops !! l); [|done]. injection Hss as <-. set_solver.
Qed.

Lemma jump_edge i op l t r :
  ops !! i = Some op -> (opcode op = inr (Jump l) \/ exists x, opcode op = inr (JumpIfNotZero x l)) ->
  label_to_index_of ops !! l = Some t -> read_before ops dead t r -> read_after ops dead i r.
Proof.
  intros Hop Hj Ht Hr. apply (read_after_before _ _ i t); [|done]. unfold edge, successors.
  destruct Hj as [Hj|[x Hj]]; eexists op, _; rewrite Hj; cbn; rewrite Ht; (split; [done|]); (split; [done|]); set_solver.
Qed.

(** A jump changes no register. *)
Lemma jump_agree i j op s1 s2 :
  ops !! i = Some op -> is_jump op = true ->
  (forall r, read_before ops dead j r -> read_after ops dead i r) ->
  agree (i, s1) (pos kept i, s2) -> agree (j, s1) (pos kept j, s2).
Proof.
  intros Hop Hj Hread (_ & Hw & Hr). split; [done|]. split; [done|]. intros r Hc Hb. apply Hr; [done|].
  right. split; [|by apply Hread]. intros (o & Ho & _ & Hwr). simplify_eq. cbn in *.
  assert (o = op) as -> by congruence. unfold is_jump in Hj. unfold written_registers, def_registers, def_const_registers in Hwr.
  destruct (opcode op) as [|[]]; try done; set_solver.
Qed.

Lemma dead_is_inl i op : ops !! i = Some op -> (forall v, opcode op <> inl v) -> kept i = true.
Proof.
  intros Hop Hv. apply kept_spec. intros Hd. destruct (dead_pure i Hd) as (o & v & Ho & Hvo & _).
  apply (Hv v). congruence.
Qed.

Lemma kept_labels l t :
  label_to_index_of ops !! l = Some t -> label_to_index_of (keep_indices kept ops) !! l = Some (pos kept t).
Proof.
  intros Ht. rewrite keep_indices_labels, lookup_fmap, Ht; [done|].
  intros i op lab Hop Hl. apply (dead_is_inl i op Hop). intros v. by rewrite Hl.
Qed.

(** A dead instruction changes nothing that is read. *)
Lemma dead_step i op s1 s1' s2 :
  ops !! i = Some op -> i ∈ dead -> falls_through op = true -> op_exec op s1 = Some s1' ->
  agree (i, s1) (pos kept i, s2) -> agree (S i, s1') (pos kept (S i), s2).
Proof.
  intros Hop Hd Hf He (_ & Hw & Hr). destruct (dead_pure i Hd) as (o & v & Ho & Hv & Hs & Hn).
  assert (o = op) as -> by congruence. unfold op_exec in He. rewrite Hv in He.
  split; [done|]. split; [by eapply pure_world|]. cbn in *. intros r Hc Hb.
  assert (read_after ops dead i r) as Ha by (eapply next_edge; [done|by left|done]).
  rewrite (pure_frame v s1 s1' r); [|done..|].
  - apply Hr; [done|]. right. split; [|done]. by intros (? & _ & ? & _).
  - intros Hin. apply (Hn r); [|done]. unfold written_registers, def_registers, def_const_registers. by rewrite Hv.
Qed.

Lemma kept_step i op s1 s1' s2 :
  ops !! i = Some op -> kept i = true -> falls_through op = true -> op_exec op s1 = Some s1' ->
  agree (i, s1) (pos kept i, s2) ->
  exists s2', op_exec op s2 = Some s2' /\ agree (S i, s1') (S (pos kept i), s2').
Proof.
  intros Hop Hk Hf He (_ & Hw & Hr). apply kept_spec in Hk as Hd. cbn in *.
  destruct (exec_agree op s1 s1' s2 He Hw) as (s2' & He2 & Hw2 & Hr2).
  { intros r Hu. apply Hr; [by eapply no_counts|]. left. by exists op. }
  exists s2'. split; [done|]. split; [cbn [fst]; by rewrite pos_S, Hk|]. split; [done|]. cbn. intros r Hc Hb.
  apply Hr2; [done|]. destruct (decide (r ∈ written_registers op)) as [|Hn]; [by left|]. right. apply Hr; [done|].
  right. split; [intros (o & Ho & _ & ?); congruence|]. eapply next_edge; [done|by left|done].
Qed.

Lemma branch_agree i op r l s1 s2 :
  ops !! i = Some op -> opcode op = inr (JumpIfNotZero r l) -> kept i = true ->
  agree (i, s1) (pos kept i, s2) -> reg_value s1 r = reg_value s2 r.
Proof.
  intros Hop Hj Hk%kept_spec (_ & _ & Hr). cbn in Hr.
  assert (r ∈ use_registers op) as Hu by (unfold use_registers; rewrite Hj; set_solver).
  apply Hr; [by eapply no_counts|]. left. by exists op.
Qed.

Lemma simulation_step c1 c1' c2 :
  cf_step ops c1 c1' -> agree c1 c2 -> exists c2', rtc (cf_step (keep_indices kept ops)) c2 c2' /\ agree c1' c2'.
Proof.
  intros Hstep Ha. destruct c2 as [p s2]. assert (p = pos kept c1.1) as -> by apply Ha.
  inversion Hstep as [i op s s' Hop Hf He|i op l t s Hop Hj Ht|i op r l t s Hop Hj Ht Hnz|i op r l s Hop Hj Hz]; subst; cbn in *.
  - destruct (kept i) eqn:Hk.
    + destruct (kept_step i op s s' s2 Hop Hk Hf He Ha) as (s2' & He2 & Ha').
      eexists. split; [|exact Ha']. apply rtc_once. eapply step_exec; [by apply keep_indices_lookup|done..].
    + assert (i ∈ dead) by (unfold kept in Hk; by apply negb_false_iff, bool_decide_eq_true in Hk).
      eexists. split; [|by eapply (dead_step i op s s' s2)]. rewrite pos_S, Hk. apply rtc_refl.
  - assert (kept i = true) as Hk by (apply (dead_is_inl i op Hop); intros v; by rewrite Hj).
    exists (pos kept t, s2). split; [apply rtc_once; eapply step_jump; [by apply keep_indices_lookup|done|by apply kept_labels]|].
    eapply (jump_agree i); [done|by unfold is_jump; rewrite Hj| |done]. intros x. eapply jump_edge; eauto.
  - assert (kept i = true) as Hk by (apply (dead_is_inl i op Hop); intros v; by rewrite Hj).
    assert (reg_value s r = reg_value s2 r) as Heq by (by eapply branch_agree).
    exists (pos kept t, s2). split.
    { apply rtc_once. eapply step_taken; [by apply keep_indices_lookup|done|by apply kept_labels|congruence]. }
    eapply (jump_agree i); [done|by unfold is_jump; rewrite Hj| |done]. intros x. eapply jump_edge; eauto.
  - assert (kept i = true) as Hk by (apply (dead_is_inl i op Hop); intros v; by rewrite Hj).
    assert (reg_value s r = reg_value s2 r) as Heq by (by eapply branch_agree).
    exists (pos kept (S i), s2). split.
    { rewrite pos_S, Hk. apply rtc_once. eapply step_not_taken; [by apply keep_indices_lookup|done|congruence]. }
    eapply (jump_agree i); [done|by unfold is_jump; rewrite Hj| |done]. intros x. eapply next_edge; eauto.
Qed.
End simulation.

(** ** Theorems *)

Lemma dce_dead ops :
  (forall i op, ops !! i = Some op -> is_Ok (successors op i ops (label_to_index_of ops))) ->
  exists dead, dce ops = Ok (keep_indices (kept dead) ops) /\
    forall i, i ∈ dead -> exists op v, ops !! i = Some op /\ opcode op = inl v /\ has_side_effect v = false /\
      forall r, r ∈ written_registers op -> ~ read_after ops dead i r.
Proof.
  intros Hwf. unfold dce. destruct (liveness_is_Ok ops false Hwf) as [lo Hlo]. rewrite Hlo. next_step.
  apply liveness_exact_Ok in Hlo as [Hlen Hexact].
  assert (forall ixs st, (forall i op, (i, op) ∈ ixs -> i < length ops) -> is_Ok (dce_loop lo ixs st)) as Hloop.
  { induction ixs as [|[i op] ixs IH]; intros st Hix; cbn; [by eexists|].
    assert (is_Ok (dce_op lo i op st)) as [st' ->].
    { destruct (lookup_lt_is_Some_2 lo i) as [live Hl]; [rewrite Hlen; apply (Hix i op); left|].
      unfold dce_op. rewrite Hl. destruct (opcode op) as [|[]]; try (by eexists); case_match; by eexists. }
    next_step. apply IH. intros j o Hj. apply (Hix j o). by right. }
  destruct (Hloop (rev (imap pair ops)) (∅, ∅)) as [st Hst].
  { intros i op Hi%rev_imap_lookup. by eapply lookup_lt_Some. }
  rewrite Hst. next_step. exists st.2. split; [done|].
  apply dce_loop_at in Hst as (cur & _ & Hat & Hge); [|set_solver]. intros i Hd.
  assert (exists op, ops !! i = Some op) as [op Hop].
  { apply lookup_lt_is_Some. destruct (decide (i < length ops)); [done|]. apply Hge in Hd; [set_solver|lia]. }
  destruct (dead_at ops st.2 lo cur Hat i op Hop Hd) as (_ & (v & Hv & Hs) & _). exists op, v. split_and!; try done.
  intros r Hr. eapply dead_unread; [|exact Hat|done..]. intros j live x Hl. by apply Hexact.
Qed.

(** C7. The shortened program simulates the given one: whenever the given program
    reaches an instruction, the result of [dce] reaches the corresponding position
    with the same memory and context, and with the same values in all registers
    that it still reads.  The given program jumps to defined labels, and no instruction of
    it reads $pc, $ggas or $cgas, which count what is executed. *)
Theorem dce_simulation {State} `{FuelVmWorldLaws State} ops :
  (forall i op, ops !! i = Some op -> is_Ok (successors op i ops (label_to_index_of ops))) ->
  (forall i op r, ops !! i = Some op -> r ∈ use_registers op -> counts r = false) ->
  exists dead ops', dce ops = Ok ops' /\ ops' = keep_indices (kept dead) ops /\
    forall (s : State) i s1, rtc (cf_step ops) (0, s) (i, s1) ->
      exists s2, rtc (cf_step ops') (0, s) (pos (kept dead) i, s2) /\ same_world s1 s2 /\
        forall r, counts r = false -> read_before ops dead i r -> reg_value s1 r = reg_value s2 r.
Proof.
  intros Hwf Hnc. destruct (dce_dead ops Hwf) as (dead & Hdce & Hdead). exists dead, (keep_indices (kept dead) ops).
  split; [done|]. split; [done|]. intros s i s1 Hrun.
  assert (forall c1 c1', rtc (cf_step ops) c1 c1' -> forall c2, agree ops dead c1 c2 ->
    exists c2', rtc (cf_step (keep_indices (kept dead) ops)) c2 c2' /\ agree ops dead c1' c2') as Hsim.
  { induction 1 as [|c1 c1' c1'' Hstep _ IH]; intros c2 Ha; [by exists c2|].
    destruct (simulation_step ops Hwf Hnc dead Hdead c1 c1' c2 Hstep Ha) as (c2' & Hr & Ha').
    destruct (IH c2' Ha') as (c2'' & Hr' & Ha''). exists c2''. split; [by etrans|done]. }
  destruct (Hsim _ _ Hrun (0, s)) as ([p s2] & Hr & (Hp & Hw & Hreg)).
  { split; [done|]. split; [apply same_world_refl|done]. }
  cbn in *. subst p. eauto.
Qed.

(** [t := x * x; y := x + 8; ret y]: the product is removed. *)
Definition sample_dead : list Op :=
  map (fun o => mkOp o "")
    [inl (MOVI (Virtual "x") (mkImm18 5)); inl (MUL (Virtual "t") (Virtual "x") (Virtual "x"));
     inl (ADDI (Virtual "y") (Virtual "x") (mkImm12 8)); inl (RET (Virtual "y"))].

Lemma sample_dead_removed : dce sample_dead = Ok (take 1 sample_dead ++ drop 2 sample_dead).
Proof. vm_compute. reflexivity. Qed.

Lemma sample_dead_wf i op :
  sample_dead !! i = Some op -> is_Ok (successors op i sample_dead (label_to_index_of sample_dead)).
Proof.
  intros Hop. do 4 (destruct i as [|i]; [injection Hop as <-; vm_compute; by eexists|]). discriminate Hop.
Qed.

Lemma dce_simulation_witness :
  exists dead ops', dce sample_dead = Ok ops' /\ ops' = keep_indices (kept dead) sample_dead /\
    forall (s : ToyVm.state) i s1, rtc (@cf_step _ toy_vm toy_world sample_dead) (0, s) (i, s1) ->
      exists s2, rtc (@cf_step _ toy_vm toy_world ops') (0, s) (pos (kept dead) i, s2) /\
        @same_world _ toy_vm toy_world s1 s2 /\
        forall r, counts r = false -> read_before sample_dead dead i r -> ToyVm.regs s1 r = ToyVm.regs s2 r.
Proof.
  apply (@dce_simulation ToyVm.state toy_vm toy_world toy_world_laws sample_dead sample_dead_wf).
  intros i op r Hop. do 4 (destruct i as [|i]; [injection Hop as <-; unfold use_registers; cbn; set_solver|]).
  discriminate Hop.
Defined.
