(* ===== verification/AsmGraph.v ===== *)
(** * The graph library

    The interference graph is a [petgraph::stable_graph::StableGraph] with
    registers as node weights and booleans as edge weights.  The library is not
    part of the repository: the operations that the register allocator calls
    are the class [StableGraph], and their documented behaviour the class
    [StableGraphLaws].  The graph has at most one edge from a node to another,
    since edges are only added with [update_edge]; an edge is identified by its
    end points.  [ListGraph] is an implementation that satisfies the laws. *)

From S2P Require Import Prelude AsmRegister.
Local Open Scope nat_scope.

Abbreviation NodeIndex := nat.

Class StableGraph (G : Type) : Type := {
  empty_graph : G;
  add_node : G -> VirtualRegister -> G * NodeIndex;
  (** the weight of a node, [None] when the node does not exist *)
  node_weight : G -> NodeIndex -> option VirtualRegister;
  node_indices : G -> list NodeIndex;
  (** the weight of the edge between two nodes, [None] when there is no edge *)
  edge_weight : G -> NodeIndex -> NodeIndex -> option bool;
  (** adds the edge or overwrites its weight *)
  update_edge : G -> NodeIndex -> NodeIndex -> bool -> G;
  remove_node : G -> NodeIndex -> G;
  (** the nodes with an edge from or to a node; one entry per edge *)
  neighbors_undirected : G -> NodeIndex -> list NodeIndex;
  (** targets of the outgoing edges, sources of the incoming edges *)
  edges_outgoing : G -> NodeIndex -> list NodeIndex;
  edges_incoming : G -> NodeIndex -> list NodeIndex
}.

Definition contains_edge {G} `{StableGraph G} (g : G) (a b : NodeIndex) : bool :=
  match edge_weight g a b with Some _ => true | None => false end.

Definition adjacent {G} `{StableGraph G} (g : G) (a b : NodeIndex) : Prop :=
  is_Some (edge_weight g a b) \/ is_Some (edge_weight g b a).

Class StableGraphLaws (G : Type) `{StableGraph G} : Prop := {
  empty_node n : node_weight empty_graph n = None;
  empty_edge a b : edge_weight empty_graph a b = None;
  add_node_fresh g w : node_weight g (add_node g w).2 = None;
  add_node_weight g w n :
    node_weight (add_node g w).1 n = if decide (n = (add_node g w).2) then Some w else node_weight g n;
  add_node_edge g w a b : edge_weight (add_node g w).1 a b = edge_weight g a b;
  node_indices_elem g n : n ∈ node_indices g <-> is_Some (node_weight g n);
  node_indices_nodup g : NoDup (node_indices g);
  edge_nodes g a b : is_Some (edge_weight g a b) ->
    is_Some (node_weight g a) /\ is_Some (node_weight g b);
  update_edge_node g a b w n : node_weight (update_edge g a b w) n = node_weight g n;
  update_edge_weight g a b w c d :
    is_Some (node_weight g a) -> is_Some (node_weight g b) ->
    edge_weight (update_edge g a b w) c d = if decide (c = a /\ d = b) then Some w else edge_weight g c d;
  remove_node_weight g m n :
    node_weight (remove_node g m) n = if decide (n = m) then None else node_weight g n;
  remove_node_edge g m a b :
    edge_weight (remove_node g m) a b = if decide (a = m \/ b = m) then None else edge_weight g a b;
  neighbors_elem g n m : m ∈ neighbors_undirected g n <-> adjacent g n m;
  edges_outgoing_elem g n m : m ∈ edges_outgoing g n <-> is_Some (edge_weight g n m);
  edges_incoming_elem g n m : m ∈ edges_incoming g n <-> is_Some (edge_weight g m n);
  neighbors_length g n : edge_weight g n n = None ->
    length (neighbors_undirected g n) = length (edges_outgoing g n) + length (edges_incoming g n);
  (** overwriting a weight does not change the order of the iterators *)
  overwrite_indices g a b w : is_Some (edge_weight g a b) ->
    node_indices (update_edge g a b w) = node_indices g;
  overwrite_neighbors g a b w n : is_Some (edge_weight g a b) ->
    neighbors_undirected (update_edge g a b w) n = neighbors_undirected g n;
  overwrite_outgoing g a b w n : is_Some (edge_weight g a b) ->
    edges_outgoing (update_edge g a b w) n = edges_outgoing g n;
  overwrite_incoming g a b w n : is_Some (edge_weight g a b) ->
    edges_incoming (update_edge g a b w) n = edges_incoming g n
}.

(** ** An implementation *)

Module ListGraph.
(** The weights of all nodes ever added, [None] for the removed ones, and the
    edges. *)
Record graph : Type := mkGraph {
  nodes : list (option VirtualRegister);
  edges : gmap (NodeIndex * NodeIndex) bool
}.

Definition weight (g : graph) (n : NodeIndex) : option VirtualRegister :=
  match nodes g !! n with Some (Some w) => Some w | _ => None end.

Definition exists_edge (g : graph) (e : NodeIndex * NodeIndex) : bool :=
  match weight g e.1, weight g e.2 with Some _, Some _ => true | _, _ => false end.

Definition get_edge (g : graph) (a b : NodeIndex) : option bool :=
  if exists_edge g (a, b) then edges g !! (a, b) else None.

Definition indices (g : graph) : list NodeIndex :=
  List.filter (fun n => match weight g n with Some _ => true | None => false end)
    (seq 0 (length (nodes g))).

Definition outgoing (g : graph) (n : NodeIndex) : list NodeIndex :=
  List.filter (fun m => match get_edge g n m with Some _ => true | None => false end) (indices g).

Definition incoming (g : graph) (n : NodeIndex) : list NodeIndex :=
  List.filter (fun m => match get_edge g m n with Some _ => true | None => false end) (indices g).
End ListGraph.
Import ListGraph.

#[export] Instance list_graph : StableGraph graph := {
  empty_graph := mkGraph [] ∅;
  add_node g w := (mkGraph (nodes g ++ [Some w])
    (filter (fun e => exists_edge g e.1 = true) (edges g)), length (nodes g));
  node_weight := weight;
  node_indices := indices;
  edge_weight := get_edge;
  update_edge g a b w := mkGraph (nodes g) (<[(a, b) := w]> (edges g));
  remove_node g n := mkGraph (<[n := None]> (nodes g)) (edges g);
  neighbors_undirected g n := outgoing g n ++ incoming g n;
  edges_outgoing := outgoing;
  edges_incoming := incoming
}.

Lemma weight_remove g m n :
  weight (mkGraph (<[m := None]> (nodes g)) (edges g)) n = if decide (n = m) then None else weight g n.
Proof.
  unfold weight. cbn. case_decide as Hn.
  - subst. destruct (decide (m < length (nodes g))).
    + by rewrite list_lookup_insert_eq.
    + rewrite lookup_ge_None_2; [done|]. rewrite length_insert. lia.
  - by rewrite list_lookup_insert_ne by done.
Qed.

Lemma indices_elem g n : n ∈ indices g <-> is_Some (weight g n).
Proof.
  unfold indices. rewrite list_elem_of_In, filter_In, in_seq. split.
  - intros [_ Hn]. destruct (weight g n); [by eexists|done].
  - intros [w Hw]. rewrite Hw. split; [|done]. split; [lia|]. unfold weight in Hw.
    destruct (nodes g !! n) eqn:Hn; [|done]. apply lookup_lt_Some in Hn. lia.
Qed.

Lemma get_edge_nodes g a b :
  is_Some (get_edge g a b) -> is_Some (weight g a) /\ is_Some (weight g b).
Proof.
  unfold get_edge, exists_edge. cbn. by destruct (weight g a), (weight g b); intros [].
Qed.

Lemma outgoing_elem g n m : m ∈ outgoing g n <-> is_Some (get_edge g n m).
Proof.
  unfold outgoing. rewrite list_elem_of_In, filter_In, <- list_elem_of_In, indices_elem. split.
  - intros [_ Hm]. destruct (get_edge g n m); [by eexists|done].
  - intros Hm. split; [apply get_edge_nodes in Hm; tauto|]. by destruct Hm as [? ->].
Qed.

Lemma incoming_elem g n m : m ∈ incoming g n <-> is_Some (get_edge g m n).
Proof.
  unfold incoming. rewrite list_elem_of_In, filter_In, <- list_elem_of_In, indices_elem. split.
  - intros [_ Hm]. destruct (get_edge g m n); [by eexists|done].
  - intros Hm. split; [apply get_edge_nodes in Hm; tauto|]. by destruct Hm as [? ->].
Qed.

Lemma overwrite_get_edge g a b w c d :
  is_Some (get_edge g a b) ->
  is_Some (get_edge (mkGraph (nodes g) (<[(a, b) := w]> (edges g))) c d) <-> is_Some (get_edge g c d).
Proof.
  intros [wab Hab]. unfold get_edge in *.
  change (exists_edge (mkGraph (nodes g) (<[(a, b):=w]> (edges g))) (c, d)) with (exists_edge g (c, d)).
  cbn [edges]. destruct (exists_edge g (a, b)); [|done].
  destruct (decide ((a, b) = (c, d))) as [<-|Hne]; [rewrite lookup_insert_eq|by rewrite lookup_insert_ne].
  destruct (exists_edge g (a, b)); [|done]. rewrite Hab. split; by eexists.
Qed.

Lemma filter_is_Some_ext {A B} (f f' : A -> option B) l :
  (forall x, is_Some (f x) <-> is_Some (f' x)) ->
  List.filter (fun m => match f m with Some _ => true | None => false end) l =
  List.filter (fun m => match f' m with Some _ => true | None => false end) l.
Proof.
  intros Hf. apply filter_ext. intros x. specialize (Hf x).
  destruct (f x), (f' x); try done; exfalso;
    [by destruct (proj1 Hf ltac:(eauto))|by destruct (proj2 Hf ltac:(eauto))].
Qed.

#[export] Instance list_graph_laws : StableGraphLaws graph.
Proof.
  split.
  - done.
  - done.
  - intros g w. cbn. unfold weight. by rewrite lookup_ge_None_2.
  - intros g w n. cbn. unfold weight. cbn. case_decide as Hn.
    + subst. rewrite lookup_app_r, Nat.sub_diag by lia. done.
    + destruct (decide (n < length (nodes g))).
      * by rewrite lookup_app_l.
      * rewrite !lookup_ge_None_2; [done|lia|rewrite length_app; cbn; lia].
  - intros g w a b. cbn. unfold get_edge. cbn.
    destruct (exists_edge g (a, b)) eqn:He.
    + assert (exists_edge (mkGraph (nodes g ++ [Some w])
        (filter (fun e => exists_edge g e.1 = true) (edges g))) (a, b) = true) as ->.
      { revert He. unfold exists_edge, weight. cbn.
        destruct (nodes g !! a) as [[|]|] eqn:Ha; try done.
        destruct (nodes g !! b) as [[|]|] eqn:Hb; try done.
        rewrite !lookup_app_l by (by eapply lookup_lt_Some). by rewrite Ha, Hb. }
      destruct (edges g !! (a, b)) eqn:Hab.
      * by apply map_lookup_filter_Some_2.
      * apply map_lookup_filter_None_2. by left.
    + case_match; [|done]. apply map_lookup_filter_None_2. right. intros x _ Hx. cbn in Hx. congruence.
  - apply indices_elem.
  - intros g. apply NoDup_ListNoDup, List.NoDup_filter, seq_NoDup.
  - apply get_edge_nodes.
  - done.
  - intros g a b w c d [wa Ha] [wb Hb]. cbn. unfold get_edge.
    change (exists_edge (mkGraph (nodes g) (<[(a, b):=w]> (edges g))) (c, d)) with (exists_edge g (c, d)).
    cbn [edges]. case_decide as Hcd.
    + destruct Hcd as [-> ->]. unfold exists_edge. cbn in *. rewrite Ha, Hb. by rewrite lookup_insert_eq.
    + rewrite lookup_insert_ne; [done|]. intros [= -> ->]. by apply Hcd.
  - intros g m n. apply weight_remove.
  - intros g m a b. cbn. unfold get_edge, exists_edge. cbn [fst snd edges]. rewrite !weight_remove.
    destruct (decide (a = m)), (decide (b = m)), (decide (a = m \/ b = m)); try done; try tauto.
    by destruct (weight g a).
  - intros g n m. cbn. rewrite elem_of_app, outgoing_elem, incoming_elem. done.
  - apply outgoing_elem.
  - apply incoming_elem.
  - intros g n _. cbn. by rewrite length_app.
  - done.
  - intros g a b w n Hab. cbn. unfold outgoing, incoming.
    change (indices (mkGraph (nodes g) (<[(a, b):=w]> (edges g)))) with (indices g).
    f_equal; apply filter_is_Some_ext; intros m; by apply overwrite_get_edge.
  - intros g a b w n Hab. cbn. unfold outgoing.
    change (indices (mkGraph (nodes g) (<[(a, b):=w]> (edges g)))) with (indices g).
    apply filter_is_Some_ext; intros m; by apply overwrite_get_edge.
  - intros g a b w n Hab. cbn. unfold incoming.
    change (indices (mkGraph (nodes g) (<[(a, b):=w]> (edges g)))) with (indices g).
    apply filter_is_Some_ext; intros m; by apply overwrite_get_edge.
Qed.
