(* ===== verification/AsmInterference.v ===== *)
(** * The interference graph and coalescing

    Models [create_interference_graph] and [coalesce_registers] of
    [asm_generation/fuel/register_allocator.rs]. *)

From S2P Require Import Prelude AsmRegister AsmVirtualOp AsmOp AsmLiveness AsmGraph.
Local Open Scope nat_scope.

Definition k : nat := Z.to_nat NUM_ALLOCATABLE_REGISTERS.

Abbreviation NodeMap := (gmap VirtualRegister NodeIndex).

(** ** [IndexMap] of registers, in the order of insertion *)

Abbreviation RegMap := (list (VirtualRegister * VirtualRegister)).

Fixpoint reg_map_get (m : RegMap) (r : VirtualRegister) : option VirtualRegister :=
  match m with
  | [] => None
  | (x, y) :: m' => if bool_decide (x = r) then Some y else reg_map_get m' r
  end.

Fixpoint reg_map_insert (m : RegMap) (r s : VirtualRegister) : RegMap :=
  match m with
  | [] => [(r, s)]
  | (x, y) :: m' => if bool_decide (x = r) then (x, s) :: m' else (x, y) :: reg_map_insert m' r s
  end.

(** The loop [while let Some(t) = reg_to_reg_map.get(r) { r = t; }] *)
Fixpoint resolve (fuel : nat) (m : RegMap) (r : VirtualRegister) : Result VirtualRegister :=
  match reg_map_get m r with
  | None => Ok r
  | Some t =>
      match fuel with
      | 0 => Err OutOfFuel
      | S fuel' => resolve fuel' m t
      end
  end.

(** A chain of entries visits every entry at most once. *)
Definition resolve_reg (m : RegMap) (r : VirtualRegister) : Result VirtualRegister :=
  resolve (length m) m r.

(** An iterator collected into an [FxIndexSet] *)
Definition index_set (l : list NodeIndex) : list NodeIndex :=
  foldl (fun s n => if bool_decide (n ∈ s) then s else s ++ [n]) [] l.

Section interference.
Context {G : Type} `{StableGraph G}.

(** ** [create_interference_graph] *)

Definition all_virtual_registers (ops : list Op) : BTreeSet :=
  foldl (fun tree elem => tree ∪ retain_virtual (registers elem)) ∅ ops.

Definition add_nodes (regs : list VirtualRegister) (st : G * NodeMap) : G * NodeMap :=
  foldl (fun st reg => let '(g, ix) := add_node st.1 reg in (g, <[reg := ix]> st.2)) st regs.

(** The edges from [v] to the registers [regs], except for the skipped ones *)
Definition add_interferences (m : NodeMap) (v : VirtualRegister) (skip : VirtualRegister -> bool)
    (regs : BTreeSet) (g : G) : G :=
  match m !! v with
  | Some ix1 =>
      foldl (fun g b =>
        match m !! b with
        | Some ix2 => if skip b then g else update_edge g ix1 ix2 true
        | None => g
        end) g (btree_iter regs)
  | None => g
  end.

Definition op_interferences (m : NodeMap) (op : Op) (regs : BTreeSet) (g : G) : G :=
  match opcode op with
  | inl (MOVE v c) =>
      add_interferences m v (fun b => bool_decide (b = c) || bool_decide (b = v)) regs g
  | _ =>
      foldl (fun g v => add_interferences m v (fun b => bool_decide (b = v)) regs g) g
        (btree_iter (def_registers op))
  end.

Fixpoint add_edges (ops : list Op) (m : NodeMap) (ix : nat) (live_out : list BTreeSet) (g : G)
    : Result G :=
  match live_out with
  | [] => Ok g
  | regs :: live_out' =>
      op ← index_of ops ix;
      add_edges ops m (S ix) live_out' (op_interferences m op regs g)
  end.

Definition create_interference_graph (ops : list Op) (live_out : list BTreeSet)
    : Result (G * NodeMap) :=
  let '(g, m) := add_nodes (btree_iter (all_virtual_registers ops)) (empty_graph, ∅) in
  g ← add_edges ops m 0 live_out g;
  Ok (g, m).

(** ** [coalesce_registers] *)

Record Coalescing : Type := mkCoalescing {
  cgraph : G;
  cnodes : NodeMap;
  cregs : RegMap;
  cops : list Op;
  clive : list BTreeSet
}.

Definition keep_op (st : Coalescing) (op : Op) (lo : BTreeSet) : Coalescing :=
  mkCoalescing (cgraph st) (cnodes st) (cregs st) (cops st ++ [op]) (clive st ++ [lo]).

Definition node_of (m : NodeMap) (r : VirtualRegister) : Result NodeIndex :=
  match m !! r with
  | Some ix => Ok ix
  | None => Err (Panic "called `Option::unwrap()` on a `None` value")
  end.

Definition briggs_safety (g : G) (n1 n2 : list NodeIndex) : bool :=
  length (List.filter (fun n => k <=? length (neighbors_undirected g n))
    (n1 ++ List.filter (fun n => negb (bool_decide (n ∈ n1))) n2)) <? k.

Definition george_safety (g : G) (n1 n2 : list NodeIndex) : bool :=
  forallb (fun n => bool_decide (n ∈ n1) || (length (neighbors_undirected g n) <? k)) n2.

(** The edges of [ix1] are given to [ix2], and [ix1] is removed. *)
Definition merge_nodes (g : G) (ix1 ix2 : NodeIndex) (n1 : list NodeIndex) : G :=
  remove_node
    (foldl (fun g neighbor =>
       if contains_edge g ix2 neighbor then g else update_edge g neighbor ix2 true) g n1) ix1.

(** A MOVE between two virtual registers *)
Definition coalesce_move (st : Coalescing) (op : Op) (lo : BTreeSet) (x y : VirtualRegister)
    : Result Coalescing :=
  r1 ← resolve_reg (cregs st) x;
  r2 ← resolve_reg (cregs st) y;
  ix1 ← node_of (cnodes st) r1;
  ix2 ← node_of (cnodes st) r2;
  if bool_decide (r1 = r2) then Ok st
  else
    let g := cgraph st in
    let n1 := index_set (neighbors_undirected g ix1) in
    let n2 := index_set (neighbors_undirected g ix2) in
    let safe := briggs_safety g n1 n2 || george_safety g n1 n2 in
    if contains_edge g ix1 ix2 || contains_edge g ix2 ix1 || negb safe then Ok (keep_op st op lo)
    else
      Ok (mkCoalescing (merge_nodes g ix1 ix2 n1) (<[r1 := ix2]> (cnodes st))
            (reg_map_insert (cregs st) r1 r2) (cops st) (clive st)).

Fixpoint coalesce_ops (ops : list Op) (live_out : list BTreeSet) (st : Coalescing)
    : Result Coalescing :=
  match ops, live_out with
  | op :: ops', lo :: live_out' =>
      st ← (match opcode op with
            | inl (MOVE (Virtual x) (Virtual y)) => coalesce_move st op lo (Virtual x) (Virtual y)
            | _ => Ok (keep_op st op lo)
            end);
      coalesce_ops ops' live_out' st
  | _, _ => Ok st
  end.

Definition final_reg_map (m : RegMap) : Result RegMap :=
  foldl (fun acc e => acc ← acc; t ← resolve_reg m e.1; Ok (reg_map_insert acc e.1 t)) (Ok []) m.

Definition rename_live (m : RegMap) (lo : BTreeSet) : BTreeSet :=
  foldl (fun lo e => if bool_decide (e.1 ∈ lo) then {[e.2]} ∪ (lo ∖ {[e.1]}) else lo) lo m.

Definition coalesce_registers (ops : list Op) (live_out : list BTreeSet) (g : G) (m : NodeMap)
    : Result (list Op * list BTreeSet * G * NodeMap) :=
  if negb (length ops =? length live_out) then Err (Panic "assertion failed: ops.len() == live_out.len()")
  else
    st ← coalesce_ops ops live_out (mkCoalescing g m [] [] []);
    final ← final_reg_map (cregs st);
    reduced_ops ← traverse (update_register (reg_map_get final)) (cops st);
    Ok (reduced_ops, map (rename_live final) (clive st), cgraph st, cnodes st).
End interference.
Arguments Coalescing : clear implicits.

(** ** The interference relation *)

(** [a] is written by an instruction after which [b] is live; a MOVE does not
    make its two registers interfere. *)
Definition interferes_at (op : Op) (lo : BTreeSet) (a b : VirtualRegister) : Prop :=
  b ∈ lo /\ b <> a /\
  match opcode op with
  | inl (MOVE v c) => a = v /\ b <> c
  | _ => a ∈ def_registers op
  end.

Definition interferes (ops : list Op) (live_out : list BTreeSet) (a b : VirtualRegister) : Prop :=
  exists i op lo, ops !! i = Some op /\ live_out !! i = Some lo /\ interferes_at op lo a b.

Section theory.
Context {G : Type} `{StableGraphLaws G}.

(** Nodes and registers correspond. *)
Definition graph_inv (g : G) (m : NodeMap) : Prop :=
  forall r ix, m !! r = Some ix <-> node_weight g ix = Some r.

(** An edge between the nodes of two registers. *)
Definition reg_edge (g : G) (m : NodeMap) (a b : VirtualRegister) : Prop :=
  exists ia ib, m !! a = Some ia /\ m !! b = Some ib /\ is_Some (edge_weight g ia ib).

Lemma graph_inv_inj (g : G) m a b ix : graph_inv g m -> m !! a = Some ix -> m !! b = Some ix -> a = b.
Proof. intros Hg Ha%Hg Hb%Hg. congruence. Qed.

Lemma add_nodes_spec regs (g : G) m g' m' :
  graph_inv g m -> NoDup regs -> (forall r, r ∈ regs -> m !! r = None) ->
  (forall a b, edge_weight g a b = None) ->
  add_nodes regs (g, m) = (g', m') ->
  graph_inv g' m' /\ (forall a b, edge_weight g' a b = None) /\
  forall r, is_Some (m' !! r) <-> is_Some (m !! r) \/ r ∈ regs.
Proof.
  unfold add_nodes. revert g m. induction regs as [|r regs IH]; intros g m Hg Hnd Hfresh He Heq; cbn in Heq.
  - injection Heq as <- <-. split_and!; [done..|]. intros r. split; [by left|].
    intros [?|?%elem_of_nil]; done.
  - destruct (add_node g r) as [g1 ix] eqn:Hadd.
    apply NoDup_cons in Hnd as [Hr Hnd].
    pose proof (add_node_fresh g r) as Hfr. pose proof (add_node_weight g r) as Hw.
    pose proof (add_node_edge g r) as Hed. rewrite Hadd in Hfr, Hw, Hed. cbn in Hfr, Hw, Hed.
    apply IH in Heq as (Hg' & He' & Hdom); [|..|done| |].
    + split_and!; [done..|]. intros r'. rewrite Hdom, lookup_insert_is_Some, elem_of_cons.
      destruct (decide (r = r')) as [->|]; naive_solver.
    + intros r' ix'. rewrite Hw. destruct (decide (r = r')) as [->|Hne].
      * rewrite lookup_insert_eq. case_decide as Hix; [subst; naive_solver|].
        split; [congruence|]. intros Hn%Hg. rewrite Hfresh in Hn by left. done.
      * rewrite lookup_insert_ne by done. case_decide as Hix; [|apply Hg].
        subst. split; [|congruence]. intros Hn%Hg. congruence.
    + intros r' Hr'. rewrite lookup_insert_ne; [apply Hfresh; by right|]. by intros ->.
    + intros a b. by rewrite Hed.
Qed.

Lemma add_interferences_spec m v skip regs (g : G) :
  graph_inv g m ->
  graph_inv (add_interferences m v skip regs g) m /\
  forall a b, reg_edge (add_interferences m v skip regs g) m a b <->
    reg_edge g m a b \/
    (a = v /\ b ∈ regs /\ skip b = false /\ is_Some (m !! a) /\ is_Some (m !! b)).
Proof.
  intros Hg. unfold add_interferences. destruct (m !! v) as [ix1|] eqn:Hv.
  2: { split; [done|]. intros a b. split; [by left|]. intros [?|(-> & _ & _ & Hs & _)]; [done|].
       rewrite Hv in Hs. by destruct Hs. }
  setoid_rewrite <- (btree_iter_elem regs). revert g Hg.
  induction (btree_iter regs) as [|b0 l IH]; intros g Hg; cbn.
  { split; [done|]. intros a b. split; [by left|]. intros [?|(_ & ?%elem_of_nil & _)]; done. }
  set (g1 := match m !! b0 with Some ix2 => if skip b0 then g else update_edge g ix1 ix2 true | None => g end).
  assert (graph_inv g1 m /\ forall a b, reg_edge g1 m a b <-> reg_edge g m a b \/
    (a = v /\ b = b0 /\ skip b0 = false /\ is_Some (m !! b0))) as [Hg1 He1].
  { unfold g1. destruct (m !! b0) as [ix2|] eqn:Hb0; [destruct (skip b0) eqn:Hskip|].
    - split; [done|]. naive_solver.
    - assert (is_Some (node_weight g ix1)) as H1 by (eexists; by apply Hg).
      assert (is_Some (node_weight g ix2)) as H2 by (eexists; by apply Hg). split.
      + intros r ix. by rewrite update_edge_node.
      + intros a b. unfold reg_edge. setoid_rewrite (update_edge_weight g ix1 ix2 true _ _ H1 H2). split.
        * intros (ia & ib & Ha & Hb & Hs). case_decide as Hd; [|left; eauto].
          destruct Hd as [-> ->]. right. split; [by eapply graph_inv_inj|].
          split; [by eapply graph_inv_inj|]. split; [done|by eexists].
        * intros [(ia & ib & Ha & Hb & Hs)|(-> & -> & _ & _)].
          -- exists ia, ib. split_and!; [done..|]. case_decide; [by eexists|done].
          -- exists ix1, ix2. rewrite decide_True by done. split_and!; [done..|by eexists].
    - split; [done|]. intros a b. split; [by left|]. intros [?|(_ & _ & _ & Hs)]; [done|]. by destruct Hs. }
  destruct (IH g1 Hg1) as [Hg2 He2]. split; [done|]. intros a b. rewrite He2, He1, elem_of_cons.
  split.
  - intros [[?|(-> & -> & ? & ?)]|(-> & ? & ? & ? & ?)]; [by left|right..]; split_and!; eauto.
  - intros [?|(-> & [->|?] & ? & ? & ?)]; [by left; left|left; right|right]; split_and!; eauto.
Qed.

Lemma op_interferences_spec m op lo (g : G) :
  graph_inv g m ->
  graph_inv (op_interferences m op lo g) m /\
  forall a b, reg_edge (op_interferences m op lo g) m a b <->
    reg_edge g m a b \/ (interferes_at op lo a b /\ is_Some (m !! a) /\ is_Some (m !! b)).
Proof.
  intros Hg. unfold op_interferences, interferes_at.
  assert (forall l (g : G), graph_inv g m ->
    graph_inv (foldl (fun g v => add_interferences m v (fun b => bool_decide (b = v)) lo g) g l) m /\
    forall a b,
      reg_edge (foldl (fun g v => add_interferences m v (fun b => bool_decide (b = v)) lo g) g l) m a b
      <-> reg_edge g m a b \/
        ((b ∈ lo /\ b <> a /\ a ∈ l) /\ is_Some (m !! a) /\ is_Some (m !! b))) as Hlist.
  { induction l as [|v l IH]; intros g1 Hg1; cbn.
    - split; [done|]. intros a b. split; [by left|]. intros [?|((_ & _ & ?%elem_of_nil) & _)]; done.
    - destruct (add_interferences_spec m v (fun b => bool_decide (b = v)) lo g1 Hg1) as [Hg2 He2].
      destruct (IH _ Hg2) as [Hg3 He3]. split; [done|]. intros a b.
      rewrite He3, He2, elem_of_cons, bool_decide_eq_false. split.
      + intros [[?|(-> & ? & ? & ?)]|?]; [by left|right; tauto..].
      + intros [?|((? & ? & [->|?]) & ?)]; tauto. }
  pose proof (Hlist (btree_iter (def_registers op)) g Hg) as Hdefs.
  setoid_rewrite btree_iter_elem in Hdefs. clear Hlist.
  destruct (opcode op) as [v|c]; [destruct v; try exact Hdefs|exact Hdefs].
  destruct (add_interferences_spec m r1 (fun b => bool_decide (b = r2) || bool_decide (b = r1)) lo g Hg)
    as [Hg1 He1].
  split; [done|]. intros a b. rewrite He1, orb_false_iff, !bool_decide_eq_false. split.
  - intros [?|(-> & ? & [? ?] & ? & ?)]; [by left|right; tauto].
  - intros [?|((? & ? & -> & ?) & ? & ?)]; [by left|right; tauto].
Qed.

Lemma add_edges_spec ops m ix lo (g g' : G) :
  graph_inv g m -> add_edges ops m ix lo g = Ok g' ->
  graph_inv g' m /\
  forall a b, reg_edge g' m a b <-> reg_edge g m a b \/
    (interferes (drop ix ops) lo a b /\ is_Some (m !! a) /\ is_Some (m !! b)).
Proof.
  revert ix g. induction lo as [|regs lo IH]; intros ix g Hg Heq; cbn in Heq.
  - inv_ok. split; [done|]. intros a b. split; [by left|].
    intros [?|((i & op & l & _ & ? & _) & _)]; done.
  - inv_ok. rename r into op, Hok into Hop. unfold index_of in Hop. case_match eqn:Hix; [|done]. inv_ok.
    destruct (op_interferences_spec m op regs g Hg) as [Hg1 He1].
    destruct (IH (S ix) _ Hg1 Heq) as [Hg2 He2]. split; [done|]. intros a b.
    rewrite He2, He1. unfold interferes. split.
    + intros [[?|(? & ?)]|((i & op' & l & Hi & Hl & ?) & ?)]; [by left|right|right].
      * split; [|done]. exists 0, op, regs. rewrite lookup_drop, Nat.add_0_r. done.
      * split; [|done]. exists (S i), op', l. rewrite lookup_drop in *.
        split_and!; try done. by rewrite <- Nat.add_succ_comm.
    + intros [?|(([|i] & op' & l & Hi & Hl & ?) & ?)]; [by left; left|left; right|right].
      * rewrite lookup_drop, Nat.add_0_r in Hi. simplify_eq. cbn in Hl. simplify_eq. done.
      * split; [|done]. exists i, op', l. rewrite lookup_drop in *. split_and!; try done.
        by rewrite Nat.add_succ_comm.
Qed.

(** No edge is marked as deleted. *)
Definition all_true (g : G) : Prop := forall a b w, edge_weight g a b = Some w -> w = true.

Lemma update_edge_true (g : G) a b :
  is_Some (node_weight g a) -> is_Some (node_weight g b) -> all_true g -> all_true (update_edge g a b true).
Proof.
  intros Ha Hb Hg c d w. rewrite update_edge_weight by done. case_decide; [congruence|apply Hg].
Qed.

Lemma add_interferences_true m v skip regs (g : G) :
  graph_inv g m -> all_true g -> all_true (add_interferences m v skip regs g).
Proof.
  unfold add_interferences. destruct (m !! v) as [ix1|] eqn:Hv; [|done].
  revert g. induction (btree_iter regs) as [|b l IH]; intros g Hg Ht; cbn; [done|].
  destruct (m !! b) as [ix2|] eqn:Hb; [|by apply IH]. destruct (skip b); [by apply IH|].
  apply IH.
  - intros r ix. by rewrite update_edge_node.
  - apply update_edge_true; [by eexists; apply Hg..|done].
Qed.

Lemma add_edges_true ops m ix lo (g g' : G) :
  graph_inv g m -> all_true g -> add_edges ops m ix lo g = Ok g' -> all_true g'.
Proof.
  revert ix g. induction lo as [|regs lo IH]; intros ix g Hg Ht Heq; cbn in Heq; inv_ok; [done|].
  apply IH in Heq; [done|by apply op_interferences_spec|]. clear Heq IH. unfold op_interferences.
  assert (forall l g, graph_inv g m -> all_true g ->
    all_true (foldl (fun g v => add_interferences m v (fun b => bool_decide (b = v)) regs g) g l)) as Hl.
  { induction l as [|v l IH]; intros g1 Hg1 Ht1; cbn; [done|].
    apply IH; [by apply add_interferences_spec|by apply add_interferences_true]. }
  destruct (opcode r) as [v|c]; [destruct v; try by apply Hl|by apply Hl].
  by apply add_interferences_true.
Qed.

Lemma all_virtual_registers_elem ops r :
  r ∈ all_virtual_registers ops <-> exists i op, ops !! i = Some op /\ r ∈ registers op /\ is_virtual r = true.
Proof.
  unfold all_virtual_registers.
  assert (forall acc, r ∈ foldl (fun tree elem => tree ∪ retain_virtual (registers elem)) acc ops <->
    r ∈ acc \/ exists op, op ∈ ops /\ r ∈ registers op /\ is_virtual r = true) as ->.
  { induction ops as [|op ops IH]; intros acc; cbn.
    - split; [by left|]. intros [?|(? & ?%elem_of_nil & _)]; done.
    - rewrite IH, elem_of_union, retain_virtual_elem. setoid_rewrite elem_of_cons. naive_solver. }
  setoid_rewrite list_elem_of_lookup. rewrite elem_of_empty. naive_solver.
Qed.

(** The graph of a program: its nodes are the virtual registers, its edges the
    interferences. *)
Lemma create_interference_graph_Ok ops lo g m :
  create_interference_graph (G := G) ops lo = Ok (g, m) ->
  graph_inv g m /\
  (forall r, is_Some (m !! r) <-> r ∈ all_virtual_registers ops) /\
  (forall a b, reg_edge g m a b <->
     interferes ops lo a b /\ a ∈ all_virtual_registers ops /\ b ∈ all_virtual_registers ops) /\
  all_true g.
Proof.
  unfold create_interference_graph. intros Heq.
  destruct (add_nodes _ _) as [g0 m0] eqn:Hadd. inv_ok. rename Hok into Hedges.
  apply add_nodes_spec in Hadd as (Hg0 & He0 & Hdom).
  - destruct (add_edges_spec ops m 0 lo g0 g Hg0 Hedges) as [Hg He]. rewrite drop_0 in He.
    assert (forall r, is_Some (m !! r) <-> r ∈ all_virtual_registers ops) as Hdom'.
    { intros r. rewrite Hdom, btree_iter_elem, lookup_empty. split; [|by right].
      intros [[? ?]|?]; done. }
    split_and!; [done..| |].
    + intros a b. rewrite He, !Hdom'. split; [|by right].
      intros [(ia & ib & _ & _ & Hs)|?]; [|done]. rewrite He0 in Hs. by destruct Hs.
    + eapply add_edges_true; [exact Hg0| |exact Hedges]. intros a b w. by rewrite He0.
  - intros r ix. rewrite lookup_empty, empty_node. done.
  - unfold btree_iter. rewrite sort_by_perm. apply NoDup_elements.
  - intros r _. apply lookup_empty.
  - apply empty_edge.
Qed.

Lemma add_edges_is_Ok ops m ix lo (g : G) :
  ix + length lo <= length ops -> is_Ok (add_edges ops m ix lo g).
Proof.
  revert ix g. induction lo as [|regs lo IH]; intros ix g Hlen; cbn [add_edges]; [by eexists|].
  cbn in Hlen. unfold index_of. destruct (lookup_lt_is_Some_2 ops ix) as [op ->]; [lia|].
  next_step. apply IH. lia.
Qed.

Lemma create_interference_graph_is_Ok ops lo :
  length lo = length ops -> is_Ok (create_interference_graph (G := G) ops lo).
Proof.
  intros Hlen. unfold create_interference_graph. destruct (add_nodes _ _) as [g0 m0].
  destruct (add_edges_is_Ok ops m0 0 lo g0) as [g Hg]; [lia|]. rewrite Hg. by eexists.
Qed.
End theory.

(** ** Theorems *)

(** C19. The interference graph is exact: it has one node for every virtual
    register of the program and no other, and an edge from the node of [a] to
    the node of [b] iff some instruction writes [a] while [b] is in its live-out
    set; [a] is not [b], and a MOVE from [b] to [a] does not count. *)
Theorem interference_graph_exact {G} `{StableGraphLaws G} ops lo (g : G) m :
  create_interference_graph ops lo = Ok (g, m) ->
  (forall r ix, m !! r = Some ix <-> node_weight g ix = Some r) /\
  (forall r, is_Some (m !! r) <-> r ∈ all_virtual_registers ops) /\
  (forall a b, reg_edge g m a b <->
     interferes ops lo a b /\ a ∈ all_virtual_registers ops /\ b ∈ all_virtual_registers ops).
Proof. intros (Hg & Hdom & Hedge & _)%create_interference_graph_Ok. done. Qed.

(** The graph of [sample_loop]: [x] is written while [y] is live. *)
Definition sample_graph : ListGraph.graph * NodeMap :=
  match create_interference_graph sample_loop sample_live with Ok gm => gm | Err _ => (empty_graph, ∅) end.

Lemma sample_graph_Ok : create_interference_graph sample_loop sample_live = Ok sample_graph.
Proof. unfold sample_graph. destruct (create_interference_graph_is_Ok (G := ListGraph.graph) sample_loop sample_live eq_refl) as [gm ->]. done. Qed.

Lemma interference_graph_exact_witness :
  (forall r ix, sample_graph.2 !! r = Some ix <-> node_weight sample_graph.1 ix = Some r) /\
  (forall r, is_Some (sample_graph.2 !! r) <-> r ∈ all_virtual_registers sample_loop) /\
  (forall a b, reg_edge sample_graph.1 sample_graph.2 a b <->
     interferes sample_loop sample_live a b /\ a ∈ all_virtual_registers sample_loop /\
     b ∈ all_virtual_registers sample_loop).
Proof.
  apply (interference_graph_exact sample_loop sample_live sample_graph.1 sample_graph.2).
  rewrite sample_graph_Ok. by destruct sample_graph.
Defined.
