(* ===== verification/AsmCoalesce.v ===== *)
(** * Correctness of coalescing

    Chains of renamed registers end, merging two nodes contracts the graph, and
    the registers that interfere keep interfering after all merges. *)

From S2P Require Import Prelude AsmRegister AsmVirtualOp AsmOp AsmLiveness AsmGraph AsmInterference.
Local Open Scope nat_scope.

(** ** Renaming chains *)

(** Every entry leads to a register that is renamed later or not at all. *)
Inductive forest : RegMap -> Prop :=
  | forest_nil : forest []
  | forest_snoc m r1 r2 : forest m -> reg_map_get m r1 = None -> reg_map_get m r2 = None -> r1 <> r2 ->
      forest (m ++ [(r1, r2)]).

(** [r] is renamed to [r'], which is not renamed. *)
Inductive renamed (m : RegMap) : VirtualRegister -> VirtualRegister -> Prop :=
  | renamed_root r : reg_map_get m r = None -> renamed m r r
  | renamed_step r t r' : reg_map_get m r = Some t -> renamed m t r' -> renamed m r r'.

Lemma renamed_functional m r a b : renamed m r a -> renamed m r b -> a = b.
Proof. intros Ha. revert b. induction Ha; inversion 1; simplify_eq; auto. Qed.

Lemma renamed_result m r a : renamed m r a -> reg_map_get m a = None.
Proof. by induction 1. Qed.

Lemma reg_map_get_app m m' r :
  reg_map_get (m ++ m') r = match reg_map_get m r with Some t => Some t | None => reg_map_get m' r end.
Proof. induction m as [|[x y] m IH]; cbn; [done|]. by case_bool_decide. Qed.

Lemma reg_map_insert_fresh m r s : reg_map_get m r = None -> reg_map_insert m r s = m ++ [(r, s)].
Proof.
  induction m as [|[x y] m IH]; cbn; [done|]. case_bool_decide; [done|]. intros Hr. by rewrite IH.
Qed.

(** A new entry renames the registers of its source's class once more. *)
Lemma renamed_snoc m r1 r2 r r' :
  renamed m r r' -> reg_map_get m r1 = None -> reg_map_get m r2 = None -> r1 <> r2 ->
  renamed (m ++ [(r1, r2)]) r (if bool_decide (r' = r1) then r2 else r').
Proof.
  intros Hr H1 H2 Hne. induction Hr as [r Hr|r t r' Ht _ IH].
  - case_bool_decide as Heq.
    + subst. eapply renamed_step; [|apply renamed_root].
      * rewrite reg_map_get_app, H1. cbn. by rewrite bool_decide_eq_true_2.
      * rewrite reg_map_get_app, H2. cbn. by rewrite bool_decide_eq_false_2.
    + apply renamed_root. rewrite reg_map_get_app, Hr. cbn. by rewrite bool_decide_eq_false_2 by congruence.
  - eapply renamed_step; [|exact IH]. by rewrite reg_map_get_app, Ht.
Qed.

Lemma resolve_renamed fuel m r r' : resolve fuel m r = Ok r' -> renamed m r r'.
Proof.
  revert r. induction fuel as [|fuel IH]; intros r Hr; cbn in Hr;
    destruct (reg_map_get m r) as [t|] eqn:Ht; try done; try (inv_ok; by apply renamed_root).
  eapply renamed_step; [done|]. by apply IH.
Qed.

Lemma resolve_mono fuel fuel' m r r' :
  resolve fuel m r = Ok r' -> fuel <= fuel' -> resolve fuel' m r = Ok r'.
Proof.
  revert fuel' r. induction fuel as [|fuel IH]; intros fuel' r Hr Hle;
    destruct fuel'; cbn in Hr |- *; destruct (reg_map_get m r) as [t|]; try done; try lia.
  apply IH; [done|lia].
Qed.

(** One more entry makes every chain at most one step longer. *)
Lemma resolve_snoc fuel m r1 r2 r r' :
  resolve fuel m r = Ok r' -> reg_map_get m r1 = None -> reg_map_get m r2 = None -> r1 <> r2 ->
  exists r'', resolve (S fuel) (m ++ [(r1, r2)]) r = Ok r''.
Proof.
  intros Hr H1 H2 Hne. revert r Hr.
  assert (forall n, resolve n (m ++ [(r1, r2)]) r2 = Ok r2) as Hr2.
  { intros n. destruct n; cbn; rewrite reg_map_get_app, H2; cbn; by rewrite bool_decide_eq_false_2. }
  assert (forall n r, reg_map_get m r = None -> exists r'', resolve (S n) (m ++ [(r1, r2)]) r = Ok r'') as Hroot.
  { intros n r Hr. cbn. rewrite reg_map_get_app, Hr. cbn. case_bool_decide; [|by eexists].
    rewrite Hr2. by eexists. }
  induction fuel as [|fuel IH]; intros r Hr; cbn [resolve] in Hr;
    destruct (reg_map_get m r) as [t|] eqn:Ht; try done; try (by apply Hroot).
  destruct (IH t Hr) as [r'' Hr'']. exists r''. cbn [resolve]. rewrite reg_map_get_app, Ht. exact Hr''.
Qed.

Lemma forest_resolve m r : forest m -> exists r', resolve_reg m r = Ok r' /\ renamed m r r'.
Proof.
  intros Hf. assert (exists r', resolve_reg m r = Ok r') as [r' Hr].
  { unfold resolve_reg. induction Hf as [|m r1 r2 Hf [r' Hr] H1 H2 Hne]; [by eexists|].
    rewrite length_app, Nat.add_comm. by eapply resolve_snoc. }
  exists r'. split; [done|]. by eapply resolve_renamed.
Qed.

Lemma forest_nodup m : forest m -> NoDup (map fst m).
Proof.
  induction 1 as [|m r1 r2 Hf IH H1 H2 Hne]; [constructor|]. rewrite map_app. cbn.
  apply NoDup_app. split; [done|]. split; [|repeat constructor; by intros ?%elem_of_nil].
  intros x Hx ->%list_elem_of_singleton. clear -Hx H1. induction m as [|[x y] m IH]; cbn in *.
  - by apply elem_of_nil in Hx.
  - case_bool_decide as Hb; [done|]. apply elem_of_cons in Hx as [->|Hx]; [done|by apply IH].
Qed.

(** The final map sends every renamed register to the end of its chain. *)
Lemma final_reg_map_spec m :
  forest m -> exists f, final_reg_map m = Ok f /\
    forall r, exists r', renamed m r r' /\ default r (reg_map_get f r) = r' /\
      (is_Some (reg_map_get f r) <-> is_Some (reg_map_get m r)).
Proof.
  intros Hf. unfold final_reg_map.
  assert (forall (l acc : RegMap), NoDup (map fst l) ->
    (forall e, e ∈ l -> is_Some (reg_map_get m e.1)) ->
    (forall e, e ∈ l -> reg_map_get acc e.1 = None) ->
    exists f, foldl (fun acc e => acc ← acc; t ← resolve_reg m e.1; Ok (reg_map_insert acc e.1 t)) (Ok acc) l
      = Ok f /\
      forall r, (r ∈ map fst l -> exists r', renamed m r r' /\ reg_map_get f r = Some r') /\
                (r ∉ map fst l -> reg_map_get f r = reg_map_get acc r)) as Hgo.
  { induction l as [|e l IH]; intros acc Hnd Hkeys Hfresh; cbn.
    - exists acc. split; [done|]. intros r. split; [by intros ?%elem_of_nil|done].
    - destruct (forest_resolve m e.1 Hf) as (r' & -> & Hren). cbn.
      cbn in Hnd. apply NoDup_cons in Hnd as [He Hnd].
      rewrite reg_map_insert_fresh by (apply Hfresh; left).
      destruct (IH (acc ++ [(e.1, r')])) as (f & -> & Hf'); [done| | |].
      + intros; apply Hkeys; by right.
      + intros e' He'. rewrite reg_map_get_app, Hfresh by (by right). cbn.
        rewrite bool_decide_eq_false_2; [done|]. intros Heq. apply He. rewrite Heq.
        apply list_elem_of_fmap. by exists e'.
      + exists f. split; [done|]. intros r. destruct (Hf' r) as [Hin Hout]. split.
        * intros [->|Hr]%elem_of_cons; [|by apply Hin]. exists r'. split; [done|].
          rewrite Hout by done. rewrite reg_map_get_app, Hfresh by left. cbn. by rewrite bool_decide_eq_true_2.
        * intros Hr. rewrite not_elem_of_cons in Hr. destruct Hr as [Hne Hr]. rewrite Hout by done.
          rewrite reg_map_get_app. destruct (reg_map_get acc r); [done|]. cbn.
          by rewrite bool_decide_eq_false_2 by congruence. }
  assert (forall r, r ∈ map fst m <-> is_Some (reg_map_get m r)) as Hkey.
  { clear. induction m as [|[x y] m IH]; intros r; cbn.
    - split; [by intros ?%elem_of_nil|by intros []].
    - rewrite elem_of_cons, IH. case_bool_decide; [|naive_solver]. split; [by eexists|by left]. }
  destruct (Hgo m []) as (f & Hf' & Hspec).
  - by apply forest_nodup.
  - intros e He. apply Hkey, list_elem_of_fmap. by exists e.
  - done.
  - exists f. split; [done|]. intros r. destruct (Hspec r) as [Hin Hout].
    destruct (decide (is_Some (reg_map_get m r))) as [Hs|Hs].
    + destruct (Hin (proj2 (Hkey r) Hs)) as (r' & Hren & Hget). exists r'. rewrite Hget.
      split_and!; [done|done|]. split; [done|by eexists].
    + exists r. rewrite Hout by (by rewrite Hkey). cbn. split_and!; [|done|].
      * apply renamed_root. by apply eq_None_not_Some.
      * split; [by intros []|done].
Qed.

(** ** Merging nodes *)

Lemma index_set_elem l n : n ∈ index_set l <-> n ∈ l.
Proof.
  unfold index_set.
  assert (forall acc, n ∈ foldl (fun s n => if bool_decide (n ∈ s) then s else s ++ [n]) acc l
    <-> n ∈ acc \/ n ∈ l) as ->.
  { induction l as [|x l IH]; intros acc; cbn.
    - split; [by left|intros [?|?%elem_of_nil]; done].
    - rewrite IH, elem_of_cons. case_bool_decide.
      + split; [tauto|]. intros [?|[->|?]]; tauto.
      + rewrite elem_of_app, list_elem_of_singleton. tauto. }
  split; [intros [?%elem_of_nil|?]; done|by right].
Qed.

Section merge.
Context {G : Type} `{StableGraphLaws G}.

Lemma adjacent_sym (g : G) a b : adjacent g a b <-> adjacent g b a.
Proof. unfold adjacent. tauto. Qed.

Lemma contains_edge_spec (g : G) a b : contains_edge g a b = true <-> is_Some (edge_weight g a b).
Proof. unfold contains_edge. by destruct (edge_weight g a b). Qed.

(** Merging [ix1] into [ix2] contracts the graph. *)
Lemma merge_nodes_spec (g : G) ix1 ix2 n1 :
  is_Some (node_weight g ix2) -> ix1 <> ix2 ->
  (forall n, n ∈ n1 <-> adjacent g ix1 n) ->
  (forall n, node_weight (merge_nodes g ix1 ix2 n1) n = if decide (n = ix1) then None else node_weight g n) /\
  (forall a b, adjacent (merge_nodes g ix1 ix2 n1) a b <->
     a <> ix1 /\ b <> ix1 /\
     (adjacent g a b \/ (a = ix2 /\ adjacent g ix1 b) \/ (b = ix2 /\ adjacent g ix1 a))).
Proof.
  intros H2 Hne Hn1. unfold merge_nodes.
  assert (forall l (g' : G), (forall n, n ∈ l -> is_Some (node_weight g' n)) -> is_Some (node_weight g' ix2) ->
    let g2 := foldl (fun g nb => if contains_edge g ix2 nb then g else update_edge g nb ix2 true) g' l in
    (forall n, node_weight g2 n = node_weight g' n) /\
    (forall a b, adjacent g2 a b <-> adjacent g' a b \/ (a = ix2 /\ b ∈ l) \/ (b = ix2 /\ a ∈ l))) as Hfold.
  { induction l as [|nb l IH]; intros g' Hl H2'; cbn.
    - split; [done|]. intros a b. split; [by left|].
      intros [?|[[_ ?%elem_of_nil]|[_ ?%elem_of_nil]]]; done.
    - set (g1 := if contains_edge g' ix2 nb then g' else update_edge g' nb ix2 true).
      assert ((forall n, node_weight g1 n = node_weight g' n) /\
        forall a b, adjacent g1 a b <-> adjacent g' a b \/ (a = ix2 /\ b = nb) \/ (b = ix2 /\ a = nb))
        as [Hw1 Ha1].
      { unfold g1. destruct (contains_edge g' ix2 nb) eqn:Hc.
        - apply contains_edge_spec in Hc. split; [done|]. intros a b. split; [by left|].
          intros [?|[[-> ->]|[-> ->]]]; [done|by left|by right].
        - split; [intros; apply update_edge_node|]. intros a b. unfold adjacent.
          assert (is_Some (node_weight g' nb)) by (apply Hl; left).
          rewrite !update_edge_weight by done.
          assert (is_Some (Some true)) by (by eexists).
          destruct (decide (a = nb /\ b = ix2)), (decide (b = nb /\ a = ix2)); tauto. }
      destruct (IH g1) as [Hw2 Ha2].
      + intros n Hn. rewrite Hw1. apply Hl. by right.
      + by rewrite Hw1.
      + split; [intros n; by rewrite Hw2, Hw1|]. intros a b. rewrite Ha2, Ha1, !elem_of_cons. tauto. }
  destruct (Hfold n1 g) as [Hw Ha]; [|done|].
  { intros n [He|He]%Hn1; apply edge_nodes in He; tauto. }
  split.
  - intros n. rewrite remove_node_weight. by rewrite Hw.
  - intros a b. unfold adjacent at 1. rewrite !remove_node_edge.
    destruct (decide (a = ix1 \/ b = ix1)) as [Hd|Hd], (decide (b = ix1 \/ a = ix1)) as [Hd'|Hd']; try tauto.
    + split; [by intros [[]|[]]|tauto].
    + fold (adjacent (foldl (fun g nb => if contains_edge g ix2 nb then g else update_edge g nb ix2 true) g n1) a b).
      rewrite Ha, !Hn1. tauto.
Qed.

Lemma merge_nodes_true (g : G) ix1 ix2 n1 :
  is_Some (node_weight g ix2) -> (forall n, n ∈ n1 -> is_Some (node_weight g n)) ->
  all_true g -> all_true (merge_nodes g ix1 ix2 n1).
Proof.
  intros H2 Hn1 Hg. unfold merge_nodes. enough (all_true (foldl (fun g nb =>
    if contains_edge g ix2 nb then g else update_edge g nb ix2 true) g n1)) as Hall
    by (intros a b w; rewrite remove_node_edge; case_decide; [done|apply Hall]).
  revert g H2 Hn1 Hg. induction n1 as [|n l IH]; intros g H2 Hn1 Hg; cbn; [done|].
  assert (is_Some (node_weight g n)) by (apply Hn1; left).
  apply IH; destruct (contains_edge g ix2 n); try done; rewrite ?update_edge_node; try done.
  - intros m Hm. apply Hn1. by right.
  - intros m Hm. rewrite update_edge_node. apply Hn1. by right.
  - by apply update_edge_true.
Qed.
End merge.

(** ** The loop *)

(** The instructions that are kept; a dropped MOVE joins registers of one class. *)
Inductive reduced (m : RegMap) : list Op -> list Op -> Prop :=
  | reduced_nil : reduced m [] []
  | reduced_keep os rs op : reduced m os rs -> reduced m (os ++ [op]) (rs ++ [op])
  | reduced_drop os rs op x y r : reduced m os rs -> opcode op = inl (MOVE x y) ->
      renamed m x r -> renamed m y r -> reduced m (os ++ [op]) rs.

Lemma reduced_snoc m os rs r1 r2 :
  reduced m os rs -> reg_map_get m r1 = None -> reg_map_get m r2 = None -> r1 <> r2 ->
  reduced (m ++ [(r1, r2)]) os rs.
Proof.
  intros Hr H1 H2 Hne. induction Hr as [|? ? ? _ IH|os rs op x y r _ IH Hop Hx Hy]; [constructor..|].
  - exact IH.
  - eapply reduced_drop; [exact IH|exact Hop|by apply renamed_snoc|by apply renamed_snoc].
Qed.

Section coalesce.
Context {G : Type} `{StableGraphLaws G} (g0 : G) (m0 : NodeMap).
Hypothesis Hinv0 : graph_inv g0 m0.
Hypothesis Hloop0 : forall a, ~ reg_edge g0 m0 a a.
Hypothesis Htrue0 : all_true g0.

Record coalesce_inv (st : Coalescing G) : Prop := {
  inv_forest : forest (cregs st);
  inv_keys r : is_Some (reg_map_get (cregs st) r) -> is_Some (m0 !! r);
  inv_dom r r' : is_Some (m0 !! r) -> renamed (cregs st) r r' -> is_Some (m0 !! r');
  inv_nodes r ix : is_Some (m0 !! r) -> reg_map_get (cregs st) r = None ->
    cnodes st !! r = Some ix <-> node_weight (cgraph st) ix = Some r;
  inv_weights ix r : node_weight (cgraph st) ix = Some r ->
    is_Some (m0 !! r) /\ reg_map_get (cregs st) r = None;
  inv_roots r : is_Some (m0 !! r) -> reg_map_get (cregs st) r = None ->
    exists ix, node_weight (cgraph st) ix = Some r;
  inv_loop ix : ~ adjacent (cgraph st) ix ix;
  inv_true : all_true (cgraph st);
  inv_length : length (cops st) = length (clive st);
  inv_edges a b : reg_edge g0 m0 a b -> exists a' b' ia ib,
    renamed (cregs st) a a' /\ renamed (cregs st) b b' /\
    node_weight (cgraph st) ia = Some a' /\ node_weight (cgraph st) ib = Some b' /\
    adjacent (cgraph st) ia ib
}.

Lemma coalesce_inv_init : coalesce_inv (mkCoalescing g0 m0 [] [] []).
Proof.
  split; cbn.
  - constructor.
  - by intros r [].
  - intros r r' Hr Hren. by inversion Hren; subst.
  - intros r ix _ _. apply Hinv0.
  - intros ix r Hix%Hinv0. split; [by eexists|done].
  - intros r [ix Hix] _. exists ix. by apply Hinv0.
  - intros ix Had. assert (is_Some (edge_weight g0 ix ix)) as He by (destruct Had; done).
    destruct (edge_nodes g0 ix ix He) as [[r Hr] _]. apply Hinv0 in Hr.
    apply (Hloop0 r). by exists ix, ix.
  - exact Htrue0.
  - done.
  - intros a b (ia & ib & Ha & Hb & He). exists a, b, ia, ib.
    split_and!; [by apply renamed_root..|by apply Hinv0|by apply Hinv0|by left].
Qed.

Lemma inv_node_unique st r ix ix' :
  coalesce_inv st -> node_weight (cgraph st) ix = Some r -> node_weight (cgraph st) ix' = Some r -> ix = ix'.
Proof.
  intros Hi Hx Hx'. destruct (inv_weights st Hi ix r Hx) as [Hd Hr].
  apply (inv_nodes st Hi r ix Hd Hr) in Hx. apply (inv_nodes st Hi r ix' Hd Hr) in Hx'. congruence.
Qed.

(** Merging the classes of two registers that do not interfere. *)
(** A pair of interfering registers keeps adjacent nodes when [ix1] is merged
    into [ix2]: the node of a register renamed to [r1] is now [ix2]. *)
Lemma merge_edges st r1 r2 ix1 ix2 (g' : G) a b :
  coalesce_inv st -> r1 <> r2 -> ix1 <> ix2 ->
  node_weight (cgraph st) ix1 = Some r1 -> node_weight (cgraph st) ix2 = Some r2 ->
  reg_map_get (cregs st) r1 = None -> reg_map_get (cregs st) r2 = None ->
  (forall n, node_weight g' n = if decide (n = ix1) then None else node_weight (cgraph st) n) ->
  (forall n m, adjacent g' n m <-> n <> ix1 /\ m <> ix1 /\
    (adjacent (cgraph st) n m \/ (n = ix2 /\ adjacent (cgraph st) ix1 m) \/
     (m = ix2 /\ adjacent (cgraph st) ix1 n))) ->
  reg_edge g0 m0 a b -> exists a' b' ia ib,
    renamed (cregs st ++ [(r1, r2)]) a a' /\ renamed (cregs st ++ [(r1, r2)]) b b' /\
    node_weight g' ia = Some a' /\ node_weight g' ib = Some b' /\ adjacent g' ia ib.
Proof.
  intros Hi Hne Hix Hw1 Hw2 Hr1 Hr2 Hw Ha Hab.
  destruct (inv_edges st Hi a b Hab) as (a' & b' & ia & ib & Ha' & Hb' & Hwa & Hwb & Hadj).
  assert (forall r r' i, renamed (cregs st) r r' -> node_weight (cgraph st) i = Some r' ->
    renamed (cregs st ++ [(r1, r2)]) r (if bool_decide (r' = r1) then r2 else r') /\
    node_weight g' (if bool_decide (r' = r1) then ix2 else i) =
      Some (if bool_decide (r' = r1) then r2 else r') /\
    (r' = r1 <-> i = ix1)) as Hclass.
  { intros r r' i Hr Hi'. split; [by apply renamed_snoc|].
    assert (r' = r1 <-> i = ix1) as Hiff by (split; [intros ->; by eapply inv_node_unique|congruence]).
    split; [|done]. rewrite Hw. case_bool_decide as Hb.
    - by rewrite decide_False.
    - rewrite decide_False; [done|]. tauto. }
  destruct (Hclass a a' ia Ha' Hwa) as (Hra & Hna & Hia).
  destruct (Hclass b b' ib Hb' Hwb) as (Hrb & Hnb & Hib).
  eexists _, _, _, _. split_and!; [exact Hra|exact Hrb|exact Hna|exact Hnb|]. apply Ha.
  destruct (bool_decide_reflect (a' = r1)) as [Ea|Ea], (bool_decide_reflect (b' = r1)) as [Eb|Eb].
  - exfalso. apply Hia in Ea. apply Hib in Eb. subst. by eapply (inv_loop st Hi).
  - apply Hia in Ea. subst ia. split_and!; [done|tauto|]. right. left. done.
  - apply Hib in Eb. subst ib. split_and!; [tauto|done|]. right. right.
    split; [done|]. by apply adjacent_sym.
  - split_and!; tauto.
Qed.

Lemma merge_inv st r1 r2 ix1 ix2 :
  coalesce_inv st -> r1 <> r2 ->
  node_weight (cgraph st) ix1 = Some r1 -> node_weight (cgraph st) ix2 = Some r2 ->
  ~ adjacent (cgraph st) ix1 ix2 ->
  coalesce_inv (mkCoalescing
    (merge_nodes (cgraph st) ix1 ix2 (index_set (neighbors_undirected (cgraph st) ix1)))
    (<[r1 := ix2]> (cnodes st)) (cregs st ++ [(r1, r2)]) (cops st) (clive st)).
Proof.
  intros Hi Hne Hw1 Hw2 Hnadj.
  destruct (inv_weights st Hi ix1 r1 Hw1) as [Hd1 Hr1].
  destruct (inv_weights st Hi ix2 r2 Hw2) as [Hd2 Hr2].
  assert (ix1 <> ix2) as Hix by congruence.
  destruct (merge_nodes_spec (cgraph st) ix1 ix2 (index_set (neighbors_undirected (cgraph st) ix1)))
    as [Hw Ha]; [by eexists|done| |].
  { intros n. rewrite index_set_elem. apply neighbors_elem. }
  assert (forall r, reg_map_get (cregs st ++ [(r1, r2)]) r = None <->
    reg_map_get (cregs st) r = None /\ r <> r1) as Hget.
  { intros r. rewrite reg_map_get_app. cbn. destruct (reg_map_get (cregs st) r); [naive_solver|].
    case_bool_decide; naive_solver. }
  split; cbn [cgraph cnodes cregs].
  - apply forest_snoc; [apply Hi|done..].
  - intros r. rewrite reg_map_get_app. destruct (reg_map_get (cregs st) r) eqn:Hr.
    + intros _. apply (inv_keys st Hi). by rewrite Hr.
    + cbn. case_bool_decide; [by subst|by intros []].
  - intros r r' Hr Hren. destruct (forest_resolve (cregs st) r (inv_forest st Hi)) as (r'' & _ & Hren').
    pose proof (renamed_snoc (cregs st) r1 r2 r r'' Hren' Hr1 Hr2 Hne) as Hren2.
    rewrite (renamed_functional _ _ _ _ Hren Hren2). case_bool_decide; [done|].
    by apply (inv_dom st Hi r r'').
  - intros r ix Hr [Hg Hn]%Hget. rewrite lookup_insert_ne by done. rewrite Hw.
    rewrite (inv_nodes st Hi r ix Hr Hg). case_decide as Hd; [|done]. subst. split; [|done]. congruence.
  - intros ix r. rewrite Hw. case_decide as Hd; [done|]. intros Hix'.
    destruct (inv_weights st Hi ix r Hix') as [? ?]. split; [done|]. apply Hget. split; [done|].
    intros ->. apply Hd. by eapply inv_node_unique.
  - intros r Hr [Hg Hn]%Hget. destruct (inv_roots st Hi r Hr Hg) as [ix Hix']. exists ix. rewrite Hw.
    rewrite decide_False; [done|]. congruence.
  - intros ix. rewrite Ha. intros (? & _ & [Hl|[[-> Hl]|[-> Hl]]]); [by eapply (inv_loop st Hi)|done..].
  - apply merge_nodes_true; [by eexists| |apply Hi]. intros n Hn%index_set_elem%neighbors_elem.
    destruct Hn as [He|He]; apply edge_nodes in He; tauto.
  - apply Hi.
  - intros a b Hab. by eapply (merge_edges st r1 r2 ix1 ix2).
Qed.

Lemma keep_inv st op lo : coalesce_inv st -> coalesce_inv (keep_op st op lo).
Proof.
  intros Hi. split; try apply Hi. cbn. by rewrite !length_app, (inv_length st Hi).
Qed.

Lemma coalesce_move_spec st op lo x y os :
  coalesce_inv st -> is_Some (m0 !! x) -> is_Some (m0 !! y) -> opcode op = inl (MOVE x y) ->
  reduced (cregs st) os (cops st) ->
  exists st', coalesce_move st op lo x y = Ok st' /\ coalesce_inv st' /\
    reduced (cregs st') (os ++ [op]) (cops st').
Proof.
  intros Hi Hx Hy Hop Hred. unfold coalesce_move.
  destruct (forest_resolve (cregs st) x (inv_forest st Hi)) as (r1 & -> & Hr1).
  destruct (forest_resolve (cregs st) y (inv_forest st Hi)) as (r2 & -> & Hr2).
  next_step.
  pose proof (renamed_result _ _ _ Hr1) as Hg1. pose proof (renamed_result _ _ _ Hr2) as Hg2.
  pose proof (inv_dom st Hi x r1 Hx Hr1) as Hd1. pose proof (inv_dom st Hi y r2 Hy Hr2) as Hd2.
  destruct (inv_roots st Hi r1 Hd1 Hg1) as [ix1 Hw1].
  destruct (inv_roots st Hi r2 Hd2 Hg2) as [ix2 Hw2].
  unfold node_of. rewrite (proj2 (inv_nodes st Hi r1 ix1 Hd1 Hg1) Hw1).
  rewrite (proj2 (inv_nodes st Hi r2 ix2 Hd2 Hg2) Hw2). next_step.
  case_bool_decide as Heq.
  { subst. exists st. split_and!; [done..|]. by eapply reduced_drop. }
  case_match eqn:Hc.
  { eexists. split; [done|]. split; [by apply keep_inv|]. by apply reduced_keep. }
  eexists. split; [done|]. apply orb_false_iff in Hc as [[Hc1 Hc2]%orb_false_iff _].
  rewrite reg_map_insert_fresh by done. split.
  - apply merge_inv; [done..|]. intros [He|He]; apply contains_edge_spec in He; congruence.
  - cbn. eapply reduced_drop; [by apply reduced_snoc|done| |].
    + pose proof (renamed_snoc (cregs st) r1 r2 x r1 Hr1 Hg1 Hg2 Heq) as Hn.
      rewrite bool_decide_eq_true_2 in Hn by done. exact Hn.
    + pose proof (renamed_snoc (cregs st) r1 r2 y r2 Hr2 Hg1 Hg2 Heq) as Hn.
      rewrite bool_decide_eq_false_2 in Hn by congruence. exact Hn.
Qed.

Lemma coalesce_ops_spec ops lo st os :
  (forall op r, op ∈ ops -> r ∈ registers op -> is_virtual r = true -> is_Some (m0 !! r)) ->
  length ops = length lo -> coalesce_inv st -> reduced (cregs st) os (cops st) ->
  exists st', coalesce_ops ops lo st = Ok st' /\ coalesce_inv st' /\
    reduced (cregs st') (os ++ ops) (cops st').
Proof.
  revert lo st os. induction ops as [|op ops IH]; intros [|l lo] st os Hreg Hlen Hi Hred; try done.
  - exists st. rewrite app_nil_r. done.
  - assert (exists st', match opcode op with
            | inl (MOVE (Virtual x) (Virtual y)) => coalesce_move st op l (Virtual x) (Virtual y)
            | _ => Ok (keep_op st op l)
            end = Ok st' /\ coalesce_inv st' /\ reduced (cregs st') (os ++ [op]) (cops st')) as
      (st' & Hst & Hi' & Hred').
    { assert (exists st', Ok (keep_op st op l) = Ok st' /\ coalesce_inv st' /\
        reduced (cregs st') (os ++ [op]) (cops st')) as Hkeep.
      { eexists. split; [done|]. split; [by apply keep_inv|]. by apply reduced_keep. }
      destruct (opcode op) as [v|] eqn:Hop; [|exact Hkeep]. destruct v; try exact Hkeep.
      destruct r1 as [x|]; [|exact Hkeep]. destruct r2 as [y|]; [|exact Hkeep].
      apply coalesce_move_spec; try done; apply (Hreg op); try done; try left;
        unfold registers; rewrite Hop; cbn; set_solver. }
    destruct (IH lo st' (os ++ [op])) as (st'' & Hst' & Hi'' & Hred''); try done.
    { intros op' r Hop'. apply Hreg. by right. }
    { by injection Hlen. }
    exists st''. cbn [coalesce_ops]. rewrite Hst. next_step.
    split_and!; [done..|]. by rewrite <- app_assoc in Hred''.
Qed.
End coalesce.

(** The MOVE instructions that [rep] makes redundant are dropped. *)
Inductive dropped (rep : VirtualRegister -> VirtualRegister) : list Op -> list Op -> Prop :=
  | dropped_nil : dropped rep [] []
  | dropped_keep os rs op : dropped rep os rs -> dropped rep (os ++ [op]) (rs ++ [op])
  | dropped_move os rs op x y : dropped rep os rs -> opcode op = inl (MOVE x y) -> rep x = rep y ->
      dropped rep (os ++ [op]) rs.

Section coalesce_registers.
Context {G : Type} `{StableGraphLaws G}.

Lemma coalesce_registers_Ok ops lo (g : G) m :
  graph_inv g m -> (forall a, ~ reg_edge g m a a) -> all_true g -> length ops = length lo ->
  (forall r, is_Some (m !! r) <-> r ∈ all_virtual_registers ops) -> Forall wf_op ops ->
  exists f kept ops' lo' g' m', let rep := rename (reg_map_get f) in
    coalesce_registers ops lo g m = Ok (ops', lo', g', m') /\ length lo' = length ops' /\
    dropped rep ops kept /\
    Forall2 (fun op op' => update_register (reg_map_get f) op = Ok op') kept ops' /\
    (forall r s, reg_map_get f r = Some s -> is_virtual r = true) /\
    (forall r, is_Some (m !! r) -> exists ix, node_weight g' ix = Some (rep r)) /\
    (forall ix ix' r, node_weight g' ix = Some r -> node_weight g' ix' = Some r -> ix = ix') /\
    (forall ix r, node_weight g' ix = Some r -> is_Some (m !! r)) /\
    (forall ix, ~ adjacent g' ix ix) /\ all_true g' /\
    (forall a b, reg_edge g m a b -> exists ia ib,
       node_weight g' ia = Some (rep a) /\ node_weight g' ib = Some (rep b) /\ adjacent g' ia ib).
Proof.
  intros Hg Hloop Htrue Hlen Hdom Hwf. unfold coalesce_registers. rewrite Hlen, Nat.eqb_refl. cbn [negb].
  destruct (coalesce_ops_spec g m Hg Hloop Htrue ops lo (mkCoalescing g m [] [] []) []) as (st & -> & Hi & Hred).
  { intros op r Hop Hr Hv. apply Hdom, all_virtual_registers_elem.
    apply list_elem_of_lookup in Hop as [i Hi]. eauto. }
  { done. }
  { by apply coalesce_inv_init. }
  { constructor. }
  next_step.
  destruct (final_reg_map_spec (cregs st) (inv_forest g m st Hi)) as (f & -> & Hf). next_step.
  assert (forall r r', renamed (cregs st) r r' -> rename (reg_map_get f) r = r') as Hrep.
  { intros r r' Hr. destruct (Hf r) as (r'' & Hr'' & Hd & _). unfold rename. rewrite Hd.
    by eapply renamed_functional. }
  assert (forall r s, reg_map_get f r = Some s -> is_virtual r = true) as Hvirt.
  { intros r s Hs. assert (is_Some (m !! r)) as Hr.
    { apply (inv_keys g m st Hi). destruct (Hf r) as (_ & _ & _ & Hiff). apply Hiff. by eexists. }
    apply Hdom, all_virtual_registers_elem in Hr as (? & ? & _ & _ & ?). done. }
  assert (dropped (rename (reg_map_get f)) ops (cops st)) as Hdrop.
  { cbn in Hred. clear -Hred Hrep. induction Hred; [constructor|by constructor|].
    eapply dropped_move; [done..|]. by rewrite (Hrep x r), (Hrep y r). }
  assert (Forall wf_op (cops st)) as Hwf'.
  { clear -Hdrop Hwf. induction Hdrop; [constructor|..]; apply Forall_app in Hwf as [H1 H2].
    - apply Forall_app. auto.
    - auto. }
  destruct (traverse_is_Ok (update_register (reg_map_get f)) (cops st)) as [ops' Hops'].
  { intros op Hop. rewrite Forall_forall in Hwf'.
    destruct (update_register_Ok _ Hvirt op (Hwf' op Hop)) as (op' & -> & _). by eexists. }
  rewrite Hops'. next_step.
  eexists f, (cops st), ops', _, _, _. cbn zeta. apply traverse_Ok in Hops' as Hops.
  split; [done|]. split; [|split; [done|]].
  { rewrite length_map, <- (Forall2_length _ _ _ Hops), (inv_length g m st Hi). done. }
  split; [done|]. split; [done|].
  assert (forall r, exists r', renamed (cregs st) r r') as Htotal.
  { intros r. destruct (forest_resolve (cregs st) r (inv_forest g m st Hi)) as (r' & _ & ?). eauto. }
  split_and!.
  - intros r Hr. destruct (Htotal r) as [r' Hr']. rewrite (Hrep r r' Hr').
    apply (inv_roots g m st Hi); [by eapply (inv_dom g m st Hi)|by eapply renamed_result].
  - intros ix ix' r. by apply (inv_node_unique g m).
  - intros ix r Hix. apply (inv_weights g m st Hi) in Hix. tauto.
  - apply (inv_loop g m st Hi).
  - apply (inv_true g m st Hi).
  - intros a b Hab.
    destruct (inv_edges g m st Hi a b Hab) as (a' & b' & ia & ib & Ha & Hb & Hwa & Hwb & Hadj).
    exists ia, ib. by rewrite (Hrep a a' Ha), (Hrep b b' Hb).
Qed.
End coalesce_registers.

(** ** Theorems *)

(** C20. Coalescing is sound: on the graph of a program it returns the program
    without the MOVE instructions whose registers have the same representative
    [rename f r], with every register renamed to its representative, and a graph
    in which the representatives of two interfering registers are distinct nodes
    joined by an edge. *)
Theorem coalescing_preserves_interference {G} `{StableGraphLaws G} ops lo (g : G) m :
  Forall wf_op ops -> length lo = length ops -> create_interference_graph ops lo = Ok (g, m) ->
  exists f kept ops' lo' g' m', let rep := rename (reg_map_get f) in
    coalesce_registers ops lo g m = Ok (ops', lo', g', m') /\ dropped rep ops kept /\
    Forall2 (fun op op' => update_register (reg_map_get f) op = Ok op') kept ops' /\
    (forall ix ix' r, node_weight g' ix = Some r -> node_weight g' ix' = Some r -> ix = ix') /\
    (forall a b, interferes ops lo a b -> a ∈ all_virtual_registers ops -> b ∈ all_virtual_registers ops ->
       rep a <> rep b /\ exists ia ib,
         node_weight g' ia = Some (rep a) /\ node_weight g' ib = Some (rep b) /\ adjacent g' ia ib).
Proof.
  intros Hwf Hlen (Hg & Hdom & Hedge & Htrue)%create_interference_graph_Ok.
  destruct (coalesce_registers_Ok ops lo g m) as
    (f & kept & ops' & lo' & g' & m' & Heq & _ & Hdrop & Hupd & _ & _ & Huniq & _ & Hloop & _ & Hpres);
    [done| |done|done|done|done|].
  { intros a ((i & op & o & _ & _ & _ & Hne & _) & _)%Hedge. done. }
  exists f, kept, ops', lo', g', m'. cbn zeta. split_and!; [done..|]. intros a b Hi Ha Hb.
  destruct (Hpres a b) as (ia & ib & Hia & Hib & Hab); [by apply Hedge|]. split; [|by exists ia, ib].
  intros Heq'. rewrite Heq' in Hia. rewrite (Huniq _ _ _ Hia Hib) in Hab. by apply (Hloop ib).
Qed.

Lemma coalescing_preserves_interference_witness :
  exists f kept ops' lo' g' m', let rep := rename (reg_map_get f) in
    coalesce_registers sample_loop sample_live sample_graph.1 sample_graph.2 = Ok (ops', lo', g', m') /\
    dropped rep sample_loop kept /\
    Forall2 (fun op op' => update_register (reg_map_get f) op = Ok op') kept ops' /\
    (forall ix ix' r, node_weight g' ix = Some r -> node_weight g' ix' = Some r -> ix = ix') /\
    (forall a b, interferes sample_loop sample_live a b -> a ∈ all_virtual_registers sample_loop ->
       b ∈ all_virtual_registers sample_loop ->
       rep a <> rep b /\ exists ia ib,
         node_weight g' ia = Some (rep a) /\ node_weight g' ib = Some (rep b) /\ adjacent g' ia ib).
Proof.
  apply (coalescing_preserves_interference sample_loop sample_live sample_graph.1 sample_graph.2).
  - repeat constructor.
  - reflexivity.
  - rewrite sample_graph_Ok. by destruct sample_graph.
Defined.
