(* ===== verification/AsmColoring.v ===== *)
(** * Coloring and register assignment

    Models [compute_def_use_points], [color_interference_graph] and
    [assign_registers] of [asm_generation/fuel/register_allocator.rs]. *)

From S2P Require Import Prelude AsmRegister AsmVirtualOp AsmOp AsmLiveness AsmGraph AsmInterference.
Local Open Scope nat_scope.

(** ** [compute_def_use_points] *)

Abbreviation DefUsePoints := (gmap VirtualRegister (list nat * list nat)).

Definition push_use (idx : nat) (res : DefUsePoints) (vreg : VirtualRegister) : DefUsePoints :=
  match res !! vreg with
  | Some (defs, uses) => <[vreg := (defs, uses ++ [idx])]> res
  | None => <[vreg := ([], [idx])]> res
  end.

Definition push_def (idx : nat) (res : DefUsePoints) (vreg : VirtualRegister) : DefUsePoints :=
  match res !! vreg with
  | Some (defs, uses) => <[vreg := (defs ++ [idx], uses)]> res
  | None => <[vreg := ([idx], [])]> res
  end.

Definition compute_def_use_points (ops : list Op) : DefUsePoints :=
  foldl (fun res '(idx, op) =>
    let op_use := retain_virtual (use_registers op) in
    let op_def := retain_virtual (def_registers op) in
    foldl (push_def idx) (foldl (push_use idx) res (btree_iter op_use)) (btree_iter op_def))
    ∅ (imap pair ops).

Section coloring.
Context {G : Type} `{StableGraph G} `{!HashOrder NodeIndex}.

(** The neighbors connected via an edge of weight true *)
Definition get_connected_outgoing_neighbors (g : G) (n : NodeIndex) : list NodeIndex :=
  List.filter (fun m => bool_decide (edge_weight g n m = Some true)) (edges_outgoing g n).

Definition get_connected_incoming_neighbors (g : G) (n : NodeIndex) : list NodeIndex :=
  List.filter (fun m => bool_decide (edge_weight g m n = Some true)) (edges_incoming g n).

Definition get_connected_neighbours (g : G) (n : NodeIndex) : list NodeIndex :=
  get_connected_outgoing_neighbors g n ++ get_connected_incoming_neighbors g n.

Definition weight_of (g : G) (n : NodeIndex) : Result VirtualRegister :=
  match node_weight g n with
  | Some w => Ok w
  | None => Err (Panic "node index out of bounds")
  end.

(** [delete_edges]: marks the edges of a node as deleted *)
Fixpoint mark_edges (should_delete : VirtualRegister -> VirtualRegister -> bool)
    (es : list (NodeIndex * NodeIndex)) (g : G) : Result G :=
  match es with
  | [] => Ok g
  | (source, target) :: es' =>
      s ← weight_of g source;
      t ← weight_of g target;
      mark_edges should_delete es'
        (if should_delete s t then update_edge g source target false else g)
  end.

Definition delete_edges (g : G) (n : NodeIndex)
    (should_delete : VirtualRegister -> VirtualRegister -> bool) : Result G :=
  mark_edges should_delete
    (map (fun m => (n, m)) (edges_outgoing g n) ++ map (fun m => (m, n)) (edges_incoming g n)) g.

(** The state of the loop.  The last elements of the vectors [stack] and
    [worklist] are the heads of the lists. *)
Record Coloring : Type := mkColoring {
  graph_of : G;
  stack : list NodeIndex;
  on_stack : gset NodeIndex;
  spills : BTreeSet;
  worklist : list NodeIndex;
  pending : gset NodeIndex
}.

Definition initial_coloring (g : G) : Coloring :=
  let low n := length (neighbors_undirected g n) <? k in
  mkColoring g [] ∅ ∅ (rev (List.filter low (node_indices g)))
    (list_to_set (List.filter (fun n => negb (low n)) (node_indices g))).

(** The body of the loop over the worklist, for the popped [node_index] *)
Definition color_node (st : Coloring) (node_index : NodeIndex) (worklist' : list NodeIndex)
    : Result Coloring :=
  if bool_decide (node_index ∈ on_stack st)
  then Ok (mkColoring (graph_of st) (stack st) (on_stack st) (spills st) worklist' (pending st))
  else
    reg ← weight_of (graph_of st) node_index;
    g ← (if bool_decide (reg ∈ spills st) then Ok (graph_of st)
         else delete_edges (graph_of st) node_index (fun _ _ => true));
    let candidate_neighbors :=
      List.filter (fun n => bool_decide (n ∈ pending st)
                            && (length (get_connected_neighbours g n) <? k))
        (neighbors_undirected g node_index) in
    Ok (mkColoring g (node_index :: stack st) ({[node_index]} ∪ on_stack st) (spills st)
          (rev candidate_neighbors ++ worklist') (pending st ∖ list_to_set candidate_neighbors)).

(** [max_by] returns the last maximum. *)
Definition spill_candidate (g : G) (pending : gset NodeIndex) : option NodeIndex :=
  let cost n := length (get_connected_incoming_neighbors g n) in
  foldl (fun best n =>
    match best with
    | Some b => if cost b <=? cost n then Some n else best
    | None => Some n
    end) None (hash_iter pending).

(** The registers whose interference with a spilled register remains *)
Fixpoint retained_points (live_out : list BTreeSet) (spills : BTreeSet) (points : list nat)
    (retains : BTreeSet) : Result BTreeSet :=
  match points with
  | [] => Ok retains
  | p :: points' =>
      lo ← index_of live_out p;
      retained_points live_out spills points' (retains ∪ (lo ∖ spills))
  end.

Definition to_retain (def_use_points : DefUsePoints) (live_out : list BTreeSet) (spills : BTreeSet)
    (spill_reg : VirtualRegister) : Result BTreeSet :=
  match def_use_points !! spill_reg with
  | None => Ok ∅
  | Some (defs, uses) =>
      retains ← retained_points live_out spills defs ∅;
      retained_points live_out spills
        (map (fun use => use - 1) (List.filter (fun use => 0 <? use) uses)) retains
  end.

(** The choice of a register to spill, when the worklist is empty *)
Definition spill_node (def_use_points : DefUsePoints) (live_out : list BTreeSet) (st : Coloring)
    (spill_reg_index : NodeIndex) : Result Coloring :=
  spill_reg ← weight_of (graph_of st) spill_reg_index;
  let spills' := {[spill_reg]} ∪ spills st in
  retain ← to_retain def_use_points live_out spills' spill_reg;
  g ← delete_edges (graph_of st) spill_reg_index
        (fun source target => negb (bool_decide (source ∈ retain) || bool_decide (target ∈ retain)));
  Ok (mkColoring g (stack st) (on_stack st) spills' [spill_reg_index]
        (pending st ∖ {[spill_reg_index]})).

Fixpoint color_loop (fuel : nat) (def_use_points : DefUsePoints) (live_out : list BTreeSet)
    (st : Coloring) : Result Coloring :=
  match fuel with
  | 0 => Err OutOfFuel
  | S fuel' =>
      match worklist st with
      | node_index :: worklist' =>
          st ← color_node st node_index worklist';
          color_loop fuel' def_use_points live_out st
      | [] =>
          match spill_candidate (graph_of st) (pending st) with
          | Some spill_reg_index =>
              st ← spill_node def_use_points live_out st spill_reg_index;
              color_loop fuel' def_use_points live_out st
          | None => Ok st
          end
      end
  end.

(** Every node is put on the stack once, and every step takes an entry of the
    worklist or a pending node. *)
Definition color_fuel (g : G) : nat :=
  S (sum_list_with (fun n => length (neighbors_undirected g n) + 4) (node_indices g)).

(** [color_interference_graph], with the graph whose edges are marked *)
Definition color_interference_graph (g : G) (ops : list Op) (live_out : list BTreeSet)
    : Result (G * (list NodeIndex + BTreeSet)) :=
  st ← color_loop (color_fuel g) (compute_def_use_points ops) live_out (initial_coloring g);
  Ok (graph_of st, if bool_decide (spills st = ∅) then inl (stack st) else inr (spills st)).

(** ** [assign_registers] *)

(** The first register of the pool that no neighbor uses takes [reg]. *)
Fixpoint use_available (neighbors : BTreeSet) (r : VirtualRegister) (pool : RegisterPool)
    : option RegisterPool :=
  match pool with
  | [] => None
  | status :: pool' =>
      if size (neighbors ∩ used_by status) =? 0
      then Some (mkStatus (AsmRegister.reg status) ({[r]} ∪ used_by status) :: pool')
      else cons status <$> use_available neighbors r pool'
  end.

Fixpoint assign_stack (g : G) (stack : list NodeIndex) (pool : RegisterPool) : Result RegisterPool :=
  match stack with
  | [] => Ok pool
  | node :: stack' =>
      r ← weight_of g node;
      neighbors ← traverse (weight_of g) (neighbors_undirected g node);
      if is_virtual r then
        match use_available (list_to_set neighbors) r pool with
        | Some pool' => assign_stack g stack' pool'
        | None => Err (Internal "The allocator cannot resolve a register mapping for this program.")
        end
      else assign_stack g stack' pool
  end.

Definition assign_registers (g : G) (stack : list NodeIndex) : Result RegisterPool :=
  assign_stack g stack RegisterPool_init.
End coloring.
Arguments Coloring : clear implicits.
