(* ===== verification/AsmColorTheory.v ===== *)
(** * Correctness of the coloring

    The loop of [color_interference_graph] ends, and when it spills nothing the
    assignment that follows succeeds: every node of the stack has fewer than [k]
    neighbors above it. *)

From S2P Require Import Prelude AsmRegister AsmVirtualOp AsmOp AsmLiveness AsmGraph AsmInterference AsmColoring.
Local Open Scope nat_scope.

(** Every index of the def and use points is a position of the program. *)
Lemma def_use_points_bound ops r defs uses p :
  compute_def_use_points ops !! r = Some (defs, uses) -> p ∈ defs \/ p ∈ uses -> p < length ops.
Proof.
  set (ok := fun res : DefUsePoints => forall r defs uses p,
    res !! r = Some (defs, uses) -> p ∈ defs \/ p ∈ uses -> p < length ops).
  assert (forall idx res l, idx < length ops -> ok res -> ok (foldl (push_use idx) res l)) as Huse.
  { intros idx res l Hidx. revert res. induction l as [|v l IH]; intros res Hres; cbn; [done|].
    apply IH. intros r' d u p' Hr'. unfold push_use in Hr'.
    destruct (decide (v = r')) as [->|Hne].
    - destruct (res !! r') as [[d0 u0]|] eqn:Hv; rewrite lookup_insert_eq in Hr'; injection Hr' as <- <-.
      + rewrite elem_of_app, list_elem_of_singleton. intros [?|[?| ->]]; [eapply Hres; eauto..|done].
      + rewrite list_elem_of_singleton. intros [?%elem_of_nil| ->]; done.
    - destruct (res !! v) as [[d0 u0]|]; rewrite lookup_insert_ne in Hr' by done; by apply (Hres r'). }
  assert (forall idx res l, idx < length ops -> ok res -> ok (foldl (push_def idx) res l)) as Hdef.
  { intros idx res l Hidx. revert res. induction l as [|v l IH]; intros res Hres; cbn; [done|].
    apply IH. intros r' d u p' Hr'. unfold push_def in Hr'.
    destruct (decide (v = r')) as [->|Hne].
    - destruct (res !! r') as [[d0 u0]|] eqn:Hv; rewrite lookup_insert_eq in Hr'; injection Hr' as <- <-.
      + rewrite elem_of_app, list_elem_of_singleton. intros [[?| ->]|?]; [eapply Hres; eauto|done|eapply Hres; eauto].
      + rewrite list_elem_of_singleton. intros [->|?%elem_of_nil]; done.
    - destruct (res !! v) as [[d0 u0]|]; rewrite lookup_insert_ne in Hr' by done; by apply (Hres r'). }
  unfold compute_def_use_points.
  assert (forall xs res, (forall i op, (i, op) ∈ xs -> i < length ops) -> ok res ->
    ok (foldl (fun res '(idx, op) =>
      foldl (push_def idx) (foldl (push_use idx) res (btree_iter (retain_virtual (use_registers op))))
        (btree_iter (retain_virtual (def_registers op)))) res xs)) as Hgo.
  { induction xs as [|[i op] xs IH]; intros res Hxs Hres; cbn; [done|].
    assert (i < length ops) by (apply (Hxs i op); left).
    apply IH; [intros; eapply Hxs; by right|]. by apply Hdef, Huse. }
  apply Hgo; [|intros ? ? ? ?; by rewrite lookup_empty].
  intros i op Hin. apply elem_of_lookup_imap in Hin as (j & x & [= -> ->] & Hj). by eapply lookup_lt_Some.
Qed.

Section marking.
Context {G : Type} `{StableGraphLaws G}.

(** The second graph differs from the first in edges marked as deleted. *)
Record overwrites (g g' : G) : Prop := {
  ow_node n : node_weight g' n = node_weight g n;
  ow_indices : node_indices g' = node_indices g;
  ow_neighbors n : neighbors_undirected g' n = neighbors_undirected g n;
  ow_outgoing n : edges_outgoing g' n = edges_outgoing g n;
  ow_incoming n : edges_incoming g' n = edges_incoming g n;
  ow_edge a b : is_Some (edge_weight g' a b) <-> is_Some (edge_weight g a b);
  ow_true a b : edge_weight g' a b = Some true -> edge_weight g a b = Some true
}.

Lemma overwrites_refl g : overwrites g g.
Proof. by split. Qed.

Lemma overwrites_trans g1 g2 g3 : overwrites g1 g2 -> overwrites g2 g3 -> overwrites g1 g3.
Proof.
  intros H1 H2. split; intros.
  - by rewrite (ow_node g2 g3 H2), (ow_node g1 g2 H1).
  - by rewrite (ow_indices g2 g3 H2), (ow_indices g1 g2 H1).
  - by rewrite (ow_neighbors g2 g3 H2), (ow_neighbors g1 g2 H1).
  - by rewrite (ow_outgoing g2 g3 H2), (ow_outgoing g1 g2 H1).
  - by rewrite (ow_incoming g2 g3 H2), (ow_incoming g1 g2 H1).
  - by rewrite (ow_edge g2 g3 H2), (ow_edge g1 g2 H1).
  - by apply (ow_true g1 g2 H1), (ow_true g2 g3 H2).
Qed.

#[local] Hint Resolve overwrites_refl overwrites_trans : sway.

Lemma update_false_overwrites g a b :
  is_Some (edge_weight g a b) -> overwrites g (update_edge g a b false).
Proof.
  intros Hab. destruct (edge_nodes g a b Hab) as [Ha Hb]. split; intros.
  - apply update_edge_node.
  - by apply overwrite_indices.
  - by apply overwrite_neighbors.
  - by apply overwrite_outgoing.
  - by apply overwrite_incoming.
  - rewrite update_edge_weight by done. case_decide as Hd; [|done]. destruct Hd as [-> ->].
    split; [done|by eexists].
  - rewrite update_edge_weight in * by done. case_decide; done.
Qed.

Lemma mark_edges_spec P es g :
  (forall s t, (s, t) ∈ es -> is_Some (edge_weight g s t)) ->
  exists g', mark_edges P es g = Ok g' /\ overwrites g g' /\
    forall a b, edge_weight g a b = Some true -> edge_weight g' a b <> Some true -> (a, b) ∈ es.
Proof.
  revert g. induction es as [|[s t] es IH]; intros g Hes; cbn [mark_edges].
  - exists g. split_and!; [done|auto with sway|done].
  - assert (is_Some (edge_weight g s t)) as Hst by (apply Hes; left).
    destruct (edge_nodes g s t Hst) as [[ws Hs] [wt Ht]]. unfold weight_of. rewrite Hs, Ht.
    next_step.
    set (g1 := if P ws wt then update_edge g s t false else g).
    assert (overwrites g g1 /\ forall a b, edge_weight g a b = Some true ->
      edge_weight g1 a b <> Some true -> (a, b) = (s, t)) as [Ho Hm].
    { unfold g1. destruct (P ws wt).
      - split; [by apply update_false_overwrites|]. intros a b Hab. rewrite update_edge_weight by (by eexists).
        case_decide as Hd; [by destruct Hd as [-> ->]|done].
      - split; [auto with sway|done]. }
    destruct (IH g1) as (g' & -> & Ho' & Hm').
    { intros a b Hab. apply (ow_edge g g1 Ho), Hes. by right. }
    exists g'. split_and!; [done|by eauto with sway|]. intros a b Hab Hn.
    destruct (decide (edge_weight g1 a b = Some true)) as [Hab1|Hab1].
    + right. by apply Hm'.
    + rewrite (Hm a b Hab Hab1). left.
Qed.

Lemma delete_edges_spec P g n :
  exists g', delete_edges g n P = Ok g' /\ overwrites g g' /\
    forall a b, edge_weight g a b = Some true -> edge_weight g' a b <> Some true -> a = n \/ b = n.
Proof.
  unfold delete_edges. destruct (mark_edges_spec P
    (map (fun m => (n, m)) (edges_outgoing g n) ++ map (fun m => (m, n)) (edges_incoming g n)) g)
    as (g' & Hg' & Ho & Hm).
  { intros s t [(m & [= -> ->] & Hin)%list_elem_of_fmap|(m & [= -> ->] & Hin)%list_elem_of_fmap]%elem_of_app.
    - by apply edges_outgoing_elem.
    - by apply edges_incoming_elem. }
  exists g'. split_and!; [done..|]. intros a b Hab Hn.
  apply (Hm a b Hab) in Hn as [(m & [= -> ->] & _)%list_elem_of_fmap|(m & [= -> ->] & _)%list_elem_of_fmap]%elem_of_app;
    auto.
Qed.

Lemma filter_length_mono {A} (f f' : A -> bool) l :
  (forall x, f' x = true -> f x = true) -> length (List.filter f' l) <= length (List.filter f l).
Proof.
  intros Hf. induction l as [|x l IH]; cbn; [done|]. destruct (f' x) eqn:Hx.
  - rewrite (Hf x Hx). cbn. lia.
  - destruct (f x); cbn; lia.
Qed.

(** Marking edges lowers the number of connected neighbors. *)
Lemma connected_mono g g' n :
  overwrites g g' -> length (get_connected_neighbours g' n) <= length (get_connected_neighbours g n).
Proof.
  intros Ho. unfold get_connected_neighbours, get_connected_outgoing_neighbors,
    get_connected_incoming_neighbors. rewrite !length_app, (ow_outgoing g g' Ho), (ow_incoming g g' Ho).
  apply Nat.add_le_mono; apply filter_length_mono; intros x; rewrite !bool_decide_eq_true; apply (ow_true g g' Ho).
Qed.

Lemma connected_elem g n m :
  edge_weight g n m = Some true \/ edge_weight g m n = Some true -> m ∈ get_connected_neighbours g n.
Proof.
  intros He. unfold get_connected_neighbours. apply elem_of_app.
  destruct He as [He|He]; [left|right]; apply list_elem_of_In, filter_In; rewrite <- list_elem_of_In.
  - split; [apply edges_outgoing_elem; by eexists|by apply bool_decide_eq_true].
  - split; [apply edges_incoming_elem; by eexists|by apply bool_decide_eq_true].
Qed.

Lemma connected_neighbors g n :
  edge_weight g n n = None -> length (get_connected_neighbours g n) <= length (neighbors_undirected g n).
Proof.
  intros Hl. rewrite neighbors_length by done. unfold get_connected_neighbours.
  rewrite length_app. apply Nat.add_le_mono; apply List.filter_length_le.
Qed.
End marking.

#[export] Hint Resolve overwrites_refl overwrites_trans : sway.

Section loop.
Context {G : Type} `{StableGraphLaws G} `{!HashOrder NodeIndex} (g0 : G).
Hypothesis Htrue : forall a b w, edge_weight g0 a b = Some w -> w = true.
Hypothesis Hnoloop : forall n, ~ adjacent g0 n n.

(** Fewer than [k] nodes outside of [below] are neighbors of [n]. *)
Definition few_neighbors (n : NodeIndex) (below : list NodeIndex) : Prop :=
  exists l, length l < k /\ forall m, adjacent g0 n m -> m ∉ below -> m ∈ l.

Record color_inv (st : Coloring G) : Prop := {
  ci_graph : overwrites g0 (graph_of st);
  ci_nodup : NoDup (stack st);
  ci_on_stack n : n ∈ on_stack st <-> n ∈ stack st;
  ci_nodes n : n ∈ stack st \/ n ∈ worklist st \/ n ∈ pending st -> n ∈ node_indices g0;
  ci_all n : n ∈ node_indices g0 -> n ∈ stack st \/ n ∈ worklist st \/ n ∈ pending st;
  ci_false : spills st = ∅ -> forall a b, is_Some (edge_weight g0 a b) ->
    edge_weight (graph_of st) a b <> Some true -> a ∈ stack st \/ b ∈ stack st;
  ci_low : spills st = ∅ -> forall n, n ∈ worklist st -> n ∉ stack st ->
    length (get_connected_neighbours (graph_of st) n) < k;
  ci_above : spills st = ∅ -> forall above n below, stack st = above ++ n :: below -> few_neighbors n below;
  ci_spills r : r ∈ spills st -> exists n, node_weight g0 n = Some r
}.

Definition weight_sum (s : gset NodeIndex) : nat :=
  sum_list_with (fun n => length (neighbors_undirected g0 n) + 1)
    (List.filter (fun n => negb (bool_decide (n ∈ s))) (node_indices g0)).

Definition measure (st : Coloring G) : nat :=
  length (worklist st) + weight_sum (on_stack st) + 2 * size (pending st).

Lemma weight_sum_insert n s :
  n ∈ node_indices g0 -> n ∉ s ->
  weight_sum ({[n]} ∪ s) + (length (neighbors_undirected g0 n) + 1) = weight_sum s.
Proof.
  intros Hn Hs. unfold weight_sum. pose proof (node_indices_nodup g0) as Hnd.
  induction (node_indices g0) as [|m l IH]; [by apply elem_of_nil in Hn|].
  apply NoDup_cons in Hnd as [Hm Hnd]. cbn [List.filter].
  apply elem_of_cons in Hn as [->|Hn].
  - rewrite bool_decide_eq_true_2 by set_solver. rewrite bool_decide_eq_false_2 by done. cbn [negb sum_list_with].
    assert (List.filter (fun n => negb (bool_decide (n ∈ {[m]} ∪ s))) l =
            List.filter (fun n => negb (bool_decide (n ∈ s))) l) as ->; [|lia].
    apply filter_ext_in. intros x Hx%list_elem_of_In. f_equal. apply bool_decide_ext. set_solver.
  - specialize (IH Hn Hnd). assert (m <> n) by (by intros ->).
    assert (bool_decide (m ∈ {[n]} ∪ s) = bool_decide (m ∈ s)) as -> by (apply bool_decide_ext; set_solver).
    destruct (bool_decide (m ∈ s)); cbn [negb sum_list_with]; lia.
Qed.

Lemma few_neighbors_push st n :
  color_inv st -> spills st = ∅ -> n ∈ worklist st -> n ∉ stack st -> few_neighbors n (stack st).
Proof.
  intros Hi Hs Hw Hn. exists (get_connected_neighbours (graph_of st) n).
  split; [by apply (ci_low st Hi)|]. intros m Hadj Hm. apply connected_elem.
  destruct Hadj as [He|He]; [left|right].
  - destruct (decide (edge_weight (graph_of st) n m = Some true)) as [|Hf]; [done|].
    destruct (ci_false st Hi Hs n m He Hf); done.
  - destruct (decide (edge_weight (graph_of st) m n = Some true)) as [|Hf]; [done|].
    destruct (ci_false st Hi Hs m n He Hf); done.
Qed.

(** Pushing [n] with its edges removed, and moving to the worklist pending
    neighbors that have become colorable, keeps the invariant. *)
Lemma push_node_inv st n wl g cand :
  color_inv st -> worklist st = n :: wl -> n ∉ stack st -> overwrites (graph_of st) g ->
  (forall a b, edge_weight (graph_of st) a b = Some true -> edge_weight g a b <> Some true -> a = n \/ b = n) ->
  (forall m, m ∈ cand -> m ∈ pending st /\ length (get_connected_neighbours g m) < k) ->
  color_inv (mkColoring g (n :: stack st) ({[n]} ∪ on_stack st) (spills st)
    (rev cand ++ wl) (pending st ∖ list_to_set cand)).
Proof.
  intros Hi Hwl Hon Ho Hdel Hcand. split; cbn.
  - eapply overwrites_trans; [apply (ci_graph st Hi)|done].
  - constructor; [done|apply Hi].
  - intros m. rewrite elem_of_union, elem_of_singleton, elem_of_cons, (ci_on_stack st Hi). done.
  - intros m Hm. apply (ci_nodes st Hi). rewrite Hwl, elem_of_cons.
    rewrite elem_of_cons, elem_of_app, elem_of_rev, elem_of_difference in Hm.
    destruct (decide (m ∈ cand)) as [[Hp _]%Hcand|]; tauto.
  - intros m Hm. rewrite elem_of_cons, elem_of_app, elem_of_rev, elem_of_difference, elem_of_list_to_set.
    apply (ci_all st Hi) in Hm. rewrite Hwl, elem_of_cons in Hm.
    destruct (decide (m ∈ cand)); tauto.
  - intros Hs a b Hab Hf. rewrite !elem_of_cons.
    destruct (decide (edge_weight (graph_of st) a b = Some true)) as [Ht|Ht].
    + destruct (Hdel a b Ht Hf); auto.
    + destruct (ci_false st Hi Hs a b Hab Ht); auto.
  - intros Hs m [Hm|Hm]%elem_of_app Hnot.
    + rewrite elem_of_rev in Hm. by apply Hcand.
    + eapply Nat.le_lt_trans; [by apply (connected_mono (graph_of st) g)|]. apply (ci_low st Hi Hs).
      * rewrite Hwl. by right.
      * intros ?. apply Hnot. by right.
  - intros Hs above n' below Heq. destruct above as [|x above]; cbn in Heq; injection Heq as -> Heq.
    + subst below. apply few_neighbors_push; [done|done| |done]. rewrite Hwl. left.
    + by eapply (ci_above st Hi Hs).
  - apply Hi.
Qed.

Lemma push_node_measure st n wl g (f : NodeIndex -> bool) :
  color_inv st -> worklist st = n :: wl -> n ∉ stack st -> overwrites (graph_of st) g ->
  let cand := List.filter f (neighbors_undirected g n) in
  measure (mkColoring g (n :: stack st) ({[n]} ∪ on_stack st) (spills st)
    (rev cand ++ wl) (pending st ∖ list_to_set cand)) < measure st.
Proof.
  intros Hi Hwl Hon Ho cand.
  assert (n ∈ node_indices g0) as Hn by (apply (ci_nodes st Hi); rewrite Hwl; right; left; left).
  unfold measure. cbn [worklist on_stack pending]. rewrite Hwl, length_app, length_rev.
  rewrite <- (weight_sum_insert n (on_stack st)) by (by rewrite ?(ci_on_stack st Hi)).
  assert (length cand <= length (neighbors_undirected g0 n)).
  { unfold cand. rewrite (ow_neighbors _ _ Ho), (ow_neighbors _ _ (ci_graph st Hi)).
    apply List.filter_length_le. }
  assert (size (pending st ∖ list_to_set cand) <= size (pending st)) by (apply subseteq_size; set_solver).
  cbn [length]. lia.
Qed.

Lemma color_node_spec st n wl :
  color_inv st -> worklist st = n :: wl ->
  exists st', color_node st n wl = Ok st' /\ color_inv st' /\ measure st' < measure st.
Proof.
  intros Hi Hwl. unfold color_node. case_bool_decide as Hon; rewrite (ci_on_stack st Hi) in Hon.
  - eexists. split; [done|]. split; [|unfold measure; rewrite Hwl; cbn; lia].
    split; cbn; try apply Hi.
    + intros m Hm. apply (ci_nodes st Hi). rewrite Hwl. set_solver.
    + intros m Hm. apply (ci_all st Hi) in Hm. rewrite Hwl in Hm. set_solver.
    + intros Hs m Hm. apply (ci_low st Hi Hs). rewrite Hwl. by right.
  - assert (is_Some (node_weight (graph_of st) n)) as [r Hr].
    { rewrite (ow_node _ _ (ci_graph st Hi)). apply node_indices_elem, (ci_nodes st Hi).
      rewrite Hwl. right. left. left. }
    unfold weight_of. rewrite Hr. next_step.
    assert (exists g, (if bool_decide (r ∈ spills st) then Ok (graph_of st)
         else delete_edges (graph_of st) n (fun _ _ => true)) = Ok g /\ overwrites (graph_of st) g /\
      forall a b, edge_weight (graph_of st) a b = Some true -> edge_weight g a b <> Some true ->
        a = n \/ b = n) as (g & -> & Ho & Hdel).
    { case_bool_decide; [|apply delete_edges_spec].
      eexists. split; [done|]. split; [auto with sway|done]. }
    next_step. eexists. split; [done|]. split; [|by apply push_node_measure].
    apply push_node_inv; [done..|].
    intros m [_ Hm]%list_elem_of_In%filter_In.
    by apply andb_true_iff in Hm as [Hm%bool_decide_eq_true Hk%Nat.ltb_lt].
Qed.

(** ** Choosing a register to spill *)

Lemma spill_candidate_elem g p n : spill_candidate g p = Some n -> n ∈ p.
Proof.
  unfold spill_candidate. rewrite <- elem_of_elements, <- hash_iter_perm. set (F := fun _ _ => _).
  assert (forall l best, foldl F best l = Some n -> n ∈ l \/ best = Some n) as Hgo.
  { induction l as [|x l IH]; intros best Hf; cbn in Hf; [auto|].
    apply IH in Hf as [Hf|Hf]; [left; by right|]. unfold F in Hf.
    destruct best as [b|]; [|injection Hf as <-; left; left].
    destruct (_ <=? _); [injection Hf as <-; left; left|auto]. }
  intros Hf. by apply Hgo in Hf as [|].
Qed.

Lemma spill_candidate_None g p : spill_candidate g p = None -> p = ∅.
Proof.
  unfold spill_candidate. set (F := fun _ _ => _).
  assert (forall l b, is_Some (foldl F (Some b) l)) as Hgo.
  { induction l as [|x l IH]; intros b; cbn; [by eexists|]. destruct (_ <=? _); apply IH. }
  intros Hf. apply leibniz_equiv, elements_empty_iff.
  apply Permutation_nil_r. rewrite <- hash_iter_perm. destruct (hash_iter p) as [|x l]; [done|].
  cbn in Hf. destruct (Hgo l x) as [y Hy]. rewrite Hy in Hf. done.
Qed.

Lemma retained_points_Ok live_out sp points acc :
  (forall p, p ∈ points -> p < length live_out) -> is_Ok (retained_points live_out sp points acc).
Proof.
  revert acc. induction points as [|p points IH]; intros acc Hp; cbn [retained_points]; [by eexists|].
  unfold index_of. destruct (lookup_lt_is_Some_2 live_out p) as [lo ->]; [apply Hp; left|].
  next_step. apply IH. intros. apply Hp. by right.
Qed.

Lemma to_retain_Ok ops live_out sp r :
  length live_out = length ops -> is_Ok (to_retain (compute_def_use_points ops) live_out sp r).
Proof.
  intros Hlen. unfold to_retain. destruct (_ !! r) as [[defs uses]|] eqn:Hr; [|by eexists].
  destruct (retained_points_Ok live_out sp defs ∅) as [acc ->].
  { intros p Hp. rewrite Hlen. eapply def_use_points_bound; eauto. }
  next_step. apply retained_points_Ok.
  intros p (u & -> & [Hu _]%list_elem_of_In%filter_In)%list_elem_of_fmap.
  assert (u < length ops); [|lia]. eapply def_use_points_bound; [done|]. right. by apply list_elem_of_In.
Qed.

Lemma spill_node_spec ops live_out st n :
  length live_out = length ops -> color_inv st -> worklist st = [] -> n ∈ pending st ->
  exists st', spill_node (compute_def_use_points ops) live_out st n = Ok st' /\
    color_inv st' /\ measure st' < measure st.
Proof.
  intros Hlen Hi Hwl Hn. unfold spill_node.
  assert (n ∈ node_indices g0) as Hn0 by (apply (ci_nodes st Hi); auto).
  assert (is_Some (node_weight (graph_of st) n)) as [r Hr].
  { rewrite (ow_node _ _ (ci_graph st Hi)). by apply node_indices_elem. }
  unfold weight_of. rewrite Hr. next_step.
  destruct (to_retain_Ok ops live_out ({[r]} ∪ spills st) r Hlen) as [ret ->]. next_step.
  edestruct (delete_edges_spec (fun source target =>
    negb (bool_decide (source ∈ ret) || bool_decide (target ∈ ret))) (graph_of st) n)
    as (g & -> & Ho & _). next_step. eexists. split; [done|].
  assert ({[r]} ∪ spills st <> ∅) as Hne by set_solver. split.
  - split; cbn; try (intros; done); try apply Hi.
    + eapply overwrites_trans; [apply (ci_graph st Hi)|done].
    + intros m [Hm|[->%list_elem_of_singleton|Hm]]; [apply (ci_nodes st Hi); auto|done|].
      apply (ci_nodes st Hi). set_solver.
    + intros m Hm%(ci_all st Hi). rewrite Hwl in Hm. rewrite list_elem_of_singleton, elem_of_difference,
        elem_of_singleton. destruct (decide (m = n)); [tauto|]. destruct Hm as [?|[?%elem_of_nil|?]]; tauto.
    + intros x [->%elem_of_singleton|Hx]%elem_of_union; [|by apply (ci_spills st Hi)].
      exists n. by rewrite <- (ow_node _ _ (ci_graph st Hi)).
  - unfold measure. cbn [worklist on_stack pending]. rewrite Hwl. cbn [length].
    rewrite size_difference, size_singleton by set_solver.
    assert (size (pending st) <> 0); [|lia]. apply size_non_empty_iff. set_solver.
Qed.

(** ** The loop *)

Lemma color_loop_spec ops live_out fuel st :
  length live_out = length ops -> color_inv st -> measure st < fuel ->
  exists st', color_loop fuel (compute_def_use_points ops) live_out st = Ok st' /\
    color_inv st' /\ worklist st' = [] /\ pending st' = ∅.
Proof.
  intros Hlen. revert st. induction fuel as [|fuel IH]; intros st Hi Hm; [lia|]. cbn [color_loop].
  destruct (worklist st) as [|n wl] eqn:Hwl.
  - destruct (spill_candidate _ _) as [n|] eqn:Hc.
    + destruct (spill_node_spec ops live_out st n) as (st' & -> & Hi' & Hm'); [done..| |].
      { by eapply spill_candidate_elem. }
      next_step. apply IH; [done|lia].
    + exists st. apply spill_candidate_None in Hc. done.
  - destruct (color_node_spec st n wl Hi Hwl) as (st' & -> & Hi' & Hm').
    next_step. apply IH; [done|lia].
Qed.

Lemma initial_inv : color_inv (initial_coloring g0).
Proof.
  split; unfold initial_coloring; cbn [graph_of stack on_stack spills worklist pending].
  - auto with sway.
  - constructor.
  - set_solver.
  - intros n. rewrite elem_of_rev, elem_of_list_to_set, !list_elem_of_In, !filter_In.
    intros [Hn|[[Hn _]|[Hn _]]]; done.
  - intros n Hn. rewrite elem_of_rev, elem_of_list_to_set, !list_elem_of_In, !filter_In.
    apply list_elem_of_In in Hn. destruct (length (neighbors_undirected g0 n) <? k); naive_solver.
  - intros _ a b [w Hw] Hne. by rewrite Hw, (Htrue a b w Hw) in Hne.
  - intros _ n Hn _. apply elem_of_rev, list_elem_of_In, filter_In in Hn as [_ Hn%Nat.ltb_lt].
    eapply Nat.le_lt_trans; [apply connected_neighbors|done].
    apply eq_None_not_Some. intros Hs. apply (Hnoloop n). by left.
  - by intros _ [|? ?] ? ? ?.
  - set_solver.
Qed.

Lemma initial_measure : measure (initial_coloring g0) < color_fuel g0.
Proof.
  unfold measure, initial_coloring, color_fuel, weight_sum. cbn [worklist on_stack pending].
  rewrite length_rev. set (low := fun n => length (neighbors_undirected g0 n) <? k).
  rewrite size_list_to_set by (apply NoDup_ListNoDup, List.NoDup_filter, NoDup_ListNoDup, node_indices_nodup).
  induction (node_indices g0) as [|n l IH]; [cbn; lia|]. cbn [List.filter].
  rewrite (bool_decide_eq_false_2 (n ∈ ∅)) by set_solver.
  cbn [negb sum_list_with]. unfold low in *. destruct (length (neighbors_undirected g0 n) <? k); cbn [negb length] in *; lia.
Qed.

(** The result of the coloring: without a spill, every node is on the stack
    and has fewer than [k] neighbors above it. *)
Lemma color_interference_graph_Ok ops live_out :
  length live_out = length ops ->
  exists g' res, color_interference_graph g0 ops live_out = Ok (g', res) /\ overwrites g0 g' /\
    match res with
    | inl stack => NoDup stack /\ (forall n, n ∈ stack <-> n ∈ node_indices g0) /\
        forall above n below, stack = above ++ n :: below -> few_neighbors n below
    | inr spills => spills <> ∅ /\ forall r, r ∈ spills -> exists n, node_weight g0 n = Some r
    end.
Proof.
  intros Hlen. unfold color_interference_graph.
  destruct (color_loop_spec ops live_out (color_fuel g0) (initial_coloring g0)) as (st & -> & Hi & Hw & Hp);
    [done|apply initial_inv|apply initial_measure|].
  next_step. eexists _, _. split; [done|]. split; [apply Hi|].
  case_bool_decide as Hs; [|split; [done|apply Hi]]. split; [apply Hi|]. split; [|by apply (ci_above st Hi)].
  intros n. split.
  - intros Hn. apply (ci_nodes st Hi). auto.
  - intros [Hn|[Hn|Hn]]%(ci_all st Hi); [done| |].
    + rewrite Hw in Hn. by apply elem_of_nil in Hn.
    + rewrite Hp in Hn. set_solver.
Qed.
End loop.
