(* ===== verification/AsmAssign.v ===== *)
(** * Correctness of the register assignment

    The stack of a coloring without spills gives every node a register of the
    pool that no neighbor has: [assign_registers] of
    [asm_generation/fuel/register_allocator.rs] cannot fail after it. *)

From S2P Require Import Prelude AsmRegister AsmVirtualOp AsmOp AsmLiveness AsmGraph AsmInterference AsmColoring AsmColorTheory.
Local Open Scope nat_scope.

(** The register [r] has the position [i] of the pool. *)
Definition assigned (pool : RegisterPool) (r : VirtualRegister) (i : nat) : Prop :=
  exists s, pool !! i = Some s /\ r ∈ used_by s.

(** ** One choice *)

Lemma use_available_None N r pool :
  use_available N r pool = None -> forall i, i < length pool -> exists x, x ∈ N /\ assigned pool x i.
Proof.
  induction pool as [|s pool IH]; intros Hn i Hi; cbn in *; [lia|].
  destruct (_ =? 0) eqn:Hs; [done|].
  destruct (use_available N r pool) eqn:Hrec; [done|]. destruct i as [|i].
  - apply Nat.eqb_neq, size_non_empty_iff, set_choose in Hs as [x [Hx Hu]%elem_of_intersection].
    exists x. split; [done|]. by exists s.
  - destruct (IH eq_refl i) as (x & Hx & Ha); [lia|]. by exists x.
Qed.

Lemma use_available_Some N r pool pool' :
  use_available N r pool = Some pool' ->
  exists i s, pool !! i = Some s /\ (forall x, x ∈ N -> x ∉ used_by s) /\
    pool' = <[i := mkStatus (AsmRegister.reg s) ({[r]} ∪ used_by s)]> pool.
Proof.
  revert pool'. induction pool as [|s pool IH]; intros pool' Hs; cbn in Hs; [done|].
  destruct (_ =? 0) eqn:Hz.
  - injection Hs as <-. apply Nat.eqb_eq, size_empty_iff in Hz. exists 0, s. split_and!; [done| |done].
    set_solver.
  - destruct (use_available N r pool) as [p|] eqn:Hrec; [|done]. injection Hs as <-.
    destruct (IH p eq_refl) as (i & s' & Hi & Hx & ->). by exists (S i), s'.
Qed.

Lemma assigned_insert pool i s r x j :
  pool !! i = Some s ->
  assigned (<[i := mkStatus (AsmRegister.reg s) ({[r]} ∪ used_by s)]> pool) x j <->
  assigned pool x j \/ (x = r /\ j = i).
Proof.
  intros Hi. pose proof (lookup_lt_Some _ _ _ Hi) as Hlt. unfold assigned.
  destruct (decide (i = j)) as [->|Hne].
  - rewrite list_lookup_insert_eq by done. split.
    + intros (t & [= <-] & Ht). cbn in Ht. apply elem_of_union in Ht as [->%elem_of_singleton|Ht]; eauto.
    + intros [(t & Ht & Hx)|[-> _]]; (eexists; split; [done|]); cbn; [|set_solver].
      rewrite Hi in Ht. injection Ht as <-. set_solver.
  - rewrite list_lookup_insert_ne by done. split; [by left|]. intros [?|[_ ->]]; done.
Qed.

(** Distinct positions hold distinct registers of [l], so [l] is long. *)
Lemma positions_bound {A} (R : A -> nat -> Prop) (l : list A) n :
  (forall i, i < n -> exists x, x ∈ l /\ R x i) ->
  (forall x i j, R x i -> R x j -> i = j) -> n <= length l.
Proof.
  intros Hex Hun.
  assert (exists ms, length ms = n /\ (forall i x, ms !! i = Some x -> x ∈ l /\ R x i)) as (ms & Hlen & Hms).
  { clear Hun. induction n as [|n IH]; [by exists []|].
    destruct IH as (ms & Hlen & Hms); [intros; apply Hex; lia|].
    destruct (Hex n) as (x & Hx & HR); [lia|]. exists (ms ++ [x]). split; [rewrite length_app; cbn; lia|].
    intros i y. rewrite lookup_app_Some, list_lookup_singleton_Some.
    intros [Hi|(Hge & Hi & <-)]; [by apply Hms|]. replace i with n by lia. done. }
  rewrite <- Hlen. apply submseteq_length, NoDup_submseteq.
  - apply NoDup_alt. intros i j x Hi%Hms Hj%Hms. by eapply Hun; [apply Hi|apply Hj].
  - intros x [i Hi]%list_elem_of_lookup. by apply (Hms i).
Qed.

(** ** The loop *)

Section assign.
Context {G : Type} `{StableGraphLaws G} (g : G).
Hypothesis Hunique : forall n n' r, node_weight g n = Some r -> node_weight g n' = Some r -> n = n'.
Hypothesis Hvirtual : forall n r, node_weight g n = Some r -> is_virtual r = true.
Hypothesis Hnoloop : forall n, ~ adjacent g n n.

(** The nodes of [dn] have registers. *)
Record pool_inv (dn : list NodeIndex) (pool : RegisterPool) : Prop := {
  pi_regs : map AsmRegister.reg pool = map Allocated (seqZ 0 NUM_ALLOCATABLE_REGISTERS);
  pi_assigned n r : n ∈ dn -> node_weight g n = Some r -> exists i, assigned pool r i;
  pi_origin r i : assigned pool r i -> exists n, n ∈ dn /\ node_weight g n = Some r;
  pi_functional r i j : assigned pool r i -> assigned pool r j -> i = j;
  pi_proper a b ra rb i : a ∈ dn -> b ∈ dn -> adjacent g a b ->
    node_weight g a = Some ra -> node_weight g b = Some rb ->
    assigned pool ra i -> assigned pool rb i -> False
}.

Lemma pool_inv_init : pool_inv [] RegisterPool_init.
Proof.
  assert (forall r i, ~ assigned RegisterPool_init r i) as Hnone.
  { intros r i (s & Hs & Hr). unfold RegisterPool_init in Hs.
    rewrite list_lookup_fmap in Hs. destruct (seqZ _ _ !! i); [|done]. injection Hs as <-. set_solver. }
  split.
  - unfold RegisterPool_init. rewrite map_map. done.
  - by intros n r ?%elem_of_nil.
  - by intros r i ?%Hnone.
  - by intros r i j ?%Hnone.
  - by intros a b ra rb i ?%elem_of_nil.
Qed.

Lemma pool_length dn pool : pool_inv dn pool -> length pool = k.
Proof.
  intros Hp. rewrite <- (length_map AsmRegister.reg pool), (pi_regs dn pool Hp), length_map, length_seqZ. done.
Qed.

(** The neighbors that have a register are not below [n]. *)
Lemma neighbor_processed dn pool n x i :
  pool_inv dn pool -> assigned pool x i -> (exists m, adjacent g n m /\ node_weight g m = Some x) ->
  exists m, m ∈ dn /\ adjacent g n m /\ node_weight g m = Some x.
Proof.
  intros Hp Hx (m & Hm & Hw). destruct (pi_origin dn pool Hp x i Hx) as (m' & Hm' & Hw').
  rewrite (Hunique m m' x Hw Hw') in *. eauto.
Qed.

Lemma use_available_inv dn pool n r N :
  pool_inv dn pool -> n ∉ dn -> node_weight g n = Some r ->
  (forall x, x ∈ N <-> exists m, adjacent g n m /\ node_weight g m = Some x) ->
  (exists l, length l < k /\ forall m, adjacent g n m -> m ∈ dn -> m ∈ l) ->
  exists pool', use_available N r pool = Some pool' /\ pool_inv (n :: dn) pool'.
Proof.
  intros Hp Hn Hr HN (l & Hl & Hfew). destruct (use_available N r pool) as [pool'|] eqn:Hu.
  2: { exfalso. assert (length pool <= length l); [|rewrite (pool_length dn pool Hp) in *; lia].
    apply (positions_bound (fun m i => exists x, node_weight g m = Some x /\ assigned pool x i)).
    - intros i Hi. destruct (use_available_None N r pool Hu i Hi) as (x & Hx%HN & Ha).
      destruct (neighbor_processed dn pool n x i Hp Ha Hx) as (m & Hm & Hadj & Hw).
      exists m. split; [by apply Hfew|eauto].
    - intros m i j (x & Hx & Hi) (y & Hy & Hj). assert (x = y) as <- by congruence.
      by eapply (pi_functional dn pool Hp). }
  exists pool'. split; [done|]. apply use_available_Some in Hu as (i & s & Hi & Hfree & ->).
  pose proof (fun x j => assigned_insert pool i s r x j Hi) as Ha.
  assert (forall j, ~ assigned pool r j) as Hnew.
  { intros j Hj. apply (pi_origin dn pool Hp) in Hj as (m & Hm & Hw). by rewrite (Hunique m n r Hw Hr) in Hm. }
  assert (forall b rb, adjacent g n b -> node_weight g b = Some rb -> ~ assigned pool rb i) as Hfree'.
  { intros b rb Hadj Hb (s' & Hs' & Hin). rewrite Hi in Hs'. injection Hs' as <-.
    apply (Hfree rb); [apply HN; eauto|done]. }
  split.
  - rewrite <- (pi_regs dn pool Hp). apply (list_eq_same_length _ _ _ eq_refl).
    + by rewrite !length_map, length_insert.
    + intros j x y _. rewrite !list_lookup_fmap. destruct (decide (i = j)) as [->|Hne].
      * rewrite list_lookup_insert_eq, Hi by (by eapply lookup_lt_Some). cbn. congruence.
      * rewrite list_lookup_insert_ne by done. congruence.
  - intros m x [->|Hm]%elem_of_cons Hx.
    + exists i. apply Ha. right. split; [congruence|done].
    + destruct (pi_assigned dn pool Hp m x Hm Hx) as [j Hj]. exists j. apply Ha. by left.
  - intros x j [Hx|[-> ->]]%Ha.
    + destruct (pi_origin dn pool Hp x j Hx) as (m & Hm & Hw). exists m. split; [by right|done].
    + exists n. split; [left|done].
  - intros x j j' [Hj|[-> ->]]%Ha [Hj'|[He ->]]%Ha; try done; [by eapply (pi_functional dn pool Hp)|..].
    + subst x. by apply Hnew in Hj.
    + by apply Hnew in Hj'.
  - assert (forall m x j, m ∈ dn -> node_weight g m = Some x -> assigned pool x j \/ (x = r /\ j = i) ->
      assigned pool x j) as Hold.
    { intros m x j Hm Hw [?|[-> _]]; [done|]. by rewrite (Hunique m n r Hw Hr) in Hm. }
    assert (forall j, assigned pool r j \/ (r = r /\ j = i) -> j = i) as Hat.
    { intros j [?%Hnew|[_ ->]]; done. }
    intros a b ra rb j [->|Hadn]%elem_of_cons [->|Hbdn]%elem_of_cons Hadj Hwa Hwb Hja%Ha Hjb%Ha.
    + by eapply Hnoloop.
    + rewrite Hr in Hwa. injection Hwa as <-. apply Hat in Hja. subst j.
      eapply Hfree'; [done|done|by eapply Hold].
    + rewrite Hr in Hwb. injection Hwb as <-. apply Hat in Hjb. subst j.
      eapply (Hfree' a ra); [by destruct Hadj; [right|left]|done|by eapply Hold].
    + by eapply (pi_proper dn pool Hp a b ra rb j); eauto.
Qed.

Lemma assign_stack_inv dn st pool :
  pool_inv dn pool -> NoDup st -> (forall n, n ∈ dn -> n ∉ st) -> (forall n, n ∈ st -> is_Some (node_weight g n)) ->
  (forall above n below, st = above ++ n :: below -> few_neighbors g n below) ->
  exists pool', assign_stack g st pool = Ok pool' /\ pool_inv (rev st ++ dn) pool'.
Proof.
  revert dn pool. induction st as [|n st IH]; intros dn pool Hp Hnd Hdisj Hnodes Hfew; cbn [assign_stack].
  { by exists pool. }
  apply NoDup_cons in Hnd as [Hn Hnd]. destruct (Hnodes n) as [r Hr]; [left|].
  assert (weight_of g n = Ok r) as -> by (unfold weight_of; by rewrite Hr). next_step.
  destruct (traverse_is_Ok (weight_of g) (neighbors_undirected g n)) as [ws Hws].
  { intros m [He|He]%neighbors_elem; apply edge_nodes in He as [[w1 H1] [w2 H2]]; unfold weight_of;
      rewrite ?H1, ?H2; by eexists. }
  rewrite Hws. next_step. rewrite (Hvirtual n r Hr).
  destruct (use_available_inv dn pool n r (list_to_set ws)) as (pool' & -> & Hp'); try done.
  { intros Hdn. apply (Hdisj n Hdn). left. }
  { intros x. rewrite elem_of_list_to_set. apply traverse_Ok in Hws.
    assert (forall m, weight_of g m = Ok x <-> node_weight g m = Some x) as Hwo.
    { intros m. unfold weight_of. destruct (node_weight g m); naive_solver. }
    setoid_rewrite <- Hwo. setoid_rewrite <- (neighbors_elem g n). split.
    - intros [i Hi]%list_elem_of_lookup. destruct (Forall2_lookup_r _ _ _ _ _ Hws Hi) as (m & Hm & Hw).
      exists m. split; [by eapply list_elem_of_lookup_2|done].
    - intros (m & [i Hi]%list_elem_of_lookup & Hw).
      destruct (Forall2_lookup_l _ _ _ _ _ Hws Hi) as (y & Hy & Hw'). rewrite Hw in Hw'. injection Hw' as <-.
      by eapply list_elem_of_lookup_2. }
  { destruct (Hfew [] n st eq_refl) as (l & Hl & Hin). exists l. split; [done|]. intros m Hadj Hm.
    apply Hin; [done|]. intros Hst. apply (Hdisj m Hm). by right. }
  destruct (IH (n :: dn) pool' Hp' Hnd) as (pool'' & -> & Hp'').
  - intros m [->|Hm]%elem_of_cons; [done|]. intros Hst. apply (Hdisj m Hm). by right.
  - intros m Hm. apply Hnodes. by right.
  - intros above m below ->. by apply (Hfew (n :: above)).
  - exists pool''. split; [done|]. cbn. rewrite <- app_assoc. done.
Qed.

(** ** Reading the assignment *)

Lemma get_register_assigned dn pool r i :
  pool_inv dn pool -> assigned pool r i -> get_register pool r = Some (Allocated (Z.of_nat i)) /\ i < k.
Proof.
  intros Hp Ha. assert (i < k) as Hk.
  { destruct Ha as (s & Hs & _). apply lookup_lt_Some in Hs. by rewrite (pool_length dn pool Hp) in Hs. }
  split; [|done]. unfold get_register.
  destruct (List.find _ pool) as [s|] eqn:Hf.
  - apply List.find_some in Hf as [Hin Hr%bool_decide_eq_true].
    apply list_elem_of_In, list_elem_of_lookup in Hin as [j Hj].
    assert (j = i) as -> by (eapply (pi_functional dn pool Hp); [by exists s|done]). cbn.
    pose proof (f_equal (fun l => l !! i) (pi_regs dn pool Hp)) as He. cbn beta in He.
    rewrite !list_lookup_fmap, Hj in He. cbn [fmap option_fmap option_map] in He.
    rewrite He. destruct (seqZ 0 NUM_ALLOCATABLE_REGISTERS !! i) as [z|] eqn:Hz.
    + apply lookup_seqZ in Hz as [-> _]. cbn. do 2 f_equal.
    + discriminate He.
  - destruct Ha as (s & Hs & Hr). eapply List.find_none in Hf; [|by eapply list_elem_of_In, list_elem_of_lookup_2].
    apply bool_decide_eq_false in Hf. done.
Qed.

Lemma assign_registers_Ok st :
  NoDup st -> (forall n, n ∈ st <-> is_Some (node_weight g n)) ->
  (forall above n below, st = above ++ n :: below -> few_neighbors g n below) ->
  exists pool, assign_registers g st = Ok pool /\
    (forall n r, node_weight g n = Some r ->
       exists z, get_register pool r = Some (Allocated z) /\ (0 <= z < NUM_ALLOCATABLE_REGISTERS)%Z) /\
    (forall a b ra rb, adjacent g a b -> node_weight g a = Some ra -> node_weight g b = Some rb ->
       get_register pool ra <> get_register pool rb).
Proof.
  intros Hnd Hst Hfew. unfold assign_registers.
  destruct (assign_stack_inv [] st RegisterPool_init pool_inv_init Hnd) as (pool & -> & Hp).
  - by intros n ?%elem_of_nil.
  - intros n. by apply Hst.
  - done.
  - rewrite app_nil_r in Hp. exists pool. split; [done|].
    assert (forall n r, node_weight g n = Some r -> exists i, assigned pool r i /\
      get_register pool r = Some (Allocated (Z.of_nat i)) /\ i < k) as Hreg.
    { intros n r Hr. destruct (pi_assigned _ _ Hp n r) as [i Hi]; [|done|].
      - apply elem_of_rev, Hst. by eexists.
      - exists i. split; [done|]. by eapply get_register_assigned. }
    split.
    + intros n r Hr. destruct (Hreg n r Hr) as (i & _ & Hi & Hk). exists (Z.of_nat i). split; [done|].
      unfold k in Hk. lia.
    + intros a b ra rb Hadj Hra Hrb Heq.
      destruct (Hreg a ra Hra) as (i & Hai & Hgi & _). destruct (Hreg b rb Hrb) as (j & Haj & Hgj & _).
      rewrite Hgi, Hgj in Heq. injection Heq as Heq%Nat2Z.inj. subst j.
      eapply (pi_proper _ _ Hp a b ra rb i); try done; apply elem_of_rev, Hst; by eexists.
Qed.
End assign.

(** ** Coloring and assignment *)

Section color_assign.
Context {G : Type} `{StableGraphLaws G} `{!HashOrder NodeIndex}.

Lemma color_assign_Ok (g : G) ops lo :
  all_true g -> (forall n, ~ adjacent g n n) ->
  (forall n n' r, node_weight g n = Some r -> node_weight g n' = Some r -> n = n') ->
  (forall n r, node_weight g n = Some r -> is_virtual r = true) ->
  length lo = length ops ->
  exists g' res, color_interference_graph g ops lo = Ok (g', res) /\
    match res with
    | inl st => exists pool, assign_registers g' st = Ok pool /\
        (forall n r, node_weight g n = Some r -> exists z, get_register pool r = Some (Allocated z) /\
           (0 <= z < NUM_ALLOCATABLE_REGISTERS)%Z) /\
        (forall a b ra rb, adjacent g a b -> node_weight g a = Some ra -> node_weight g b = Some rb ->
           get_register pool ra <> get_register pool rb)
    | inr spills => spills <> ∅ /\ forall r, r ∈ spills -> exists n, node_weight g n = Some r
    end.
Proof.
  intros Htrue Hloop Huniq Hvirt Hlen.
  destruct (color_interference_graph_Ok g Htrue Hloop ops lo Hlen) as (g' & res & Heq & Ho & Hres).
  exists g', res. split; [done|]. destruct res as [st|spills]; [|done]. destruct Hres as (Hnd & Hst & Hfew).
  assert (forall a b, adjacent g' a b <-> adjacent g a b) as Hadj.
  { intros a b. unfold adjacent. by rewrite !(ow_edge _ _ Ho). }
  destruct (assign_registers_Ok g') with (st := st) as (pool & Hpool & Htot & Hprop).
  - intros n n' r. rewrite !(ow_node _ _ Ho). apply Huniq.
  - intros n r. rewrite (ow_node _ _ Ho). apply Hvirt.
  - intros n. rewrite Hadj. apply Hloop.
  - done.
  - intros n. rewrite Hst, (ow_node _ _ Ho). apply node_indices_elem.
  - intros above n below Hs. destruct (Hfew above n below Hs) as (l & Hl & Hin). exists l. split; [done|].
    intros x. rewrite Hadj. apply Hin.
  - exists pool. split; [done|]. split.
    + intros n r Hr. apply (Htot n). by rewrite (ow_node _ _ Ho).
    + intros a b ra rb Hab Ha Hb. apply (Hprop a b); rewrite ?Hadj, ?(ow_node _ _ Ho); done.
Qed.
End color_assign.

(** ** Theorems *)

(** C16. Chaitin's algorithm is correct: on any interference graph without loops
    the coloring loop ends; when it asks for no spill, the assignment that pops
    its stack never runs out of the 37 registers and gives adjacent nodes
    different registers. *)
Theorem coloring_assigns {G} `{StableGraphLaws G} `{!HashOrder NodeIndex} (g : G) ops lo :
  all_true g -> (forall n, ~ adjacent g n n) ->
  (forall n n' r, node_weight g n = Some r -> node_weight g n' = Some r -> n = n') ->
  (forall n r, node_weight g n = Some r -> is_virtual r = true) ->
  length lo = length ops ->
  exists g' res, color_interference_graph g ops lo = Ok (g', res) /\
    match res with
    | inl st => exists pool, assign_registers g' st = Ok pool /\
        (forall n r, node_weight g n = Some r -> exists z, get_register pool r = Some (Allocated z) /\
           (0 <= z < NUM_ALLOCATABLE_REGISTERS)%Z) /\
        (forall a b ra rb, adjacent g a b -> node_weight g a = Some ra -> node_weight g b = Some rb ->
           get_register pool ra <> get_register pool rb)
    | inr spills => spills <> ∅ /\ forall r, r ∈ spills -> exists n, node_weight g n = Some r
    end.
Proof. apply color_assign_Ok. Qed.

(** Two registers that interfere *)
Definition sample_edge : ListGraph.graph :=
  ListGraph.mkGraph [Some (Virtual "x"); Some (Virtual "y")] {[ (0, 1) := true ]}.

Lemma sample_edge_node n r : node_weight sample_edge n = Some r -> n = 0 /\ r = Virtual "x" \/ n = 1 /\ r = Virtual "y".
Proof. destruct n as [|[|[|n]]]; intros [= <-]; auto. Qed.

Lemma sample_edge_edge a b w : edge_weight sample_edge a b = Some w -> a = 0 /\ b = 1 /\ w = true.
Proof.
  cbn. unfold ListGraph.get_edge. case_match; [|done]. cbn. rewrite lookup_singleton_Some. naive_solver.
Qed.

Lemma coloring_assigns_witness :
  exists g' res, color_interference_graph (HashOrder0 := elements_order) sample_edge [] [] = Ok (g', res) /\
    match res with
    | inl st => exists pool, assign_registers g' st = Ok pool /\
        (forall n r, node_weight sample_edge n = Some r -> exists z, get_register pool r = Some (Allocated z) /\
           (0 <= z < NUM_ALLOCATABLE_REGISTERS)%Z) /\
        (forall a b ra rb, adjacent sample_edge a b -> node_weight sample_edge a = Some ra ->
           node_weight sample_edge b = Some rb -> get_register pool ra <> get_register pool rb)
    | inr spills => spills <> ∅ /\ forall r, r ∈ spills -> exists n, node_weight sample_edge n = Some r
    end.
Proof.
  apply (coloring_assigns (HashOrder0 := elements_order) sample_edge [] []).
  - intros a b w Hw. apply sample_edge_edge in Hw. tauto.
  - intros n [[w Hw]|[w Hw]]; apply sample_edge_edge in Hw; lia.
  - intros n n' r Hn Hn'. apply sample_edge_node in Hn, Hn'. destruct Hn as [[-> ->]|[-> ->]], Hn' as [[-> ?]|[-> ?]]; congruence.
  - intros n r Hn. apply sample_edge_node in Hn as [[_ ->]|[_ ->]]; reflexivity.
  - reflexivity.
Defined.
