(* ===== verification/AsmSpill.v ===== *)
(** * Spilling

    Models [spill] of [asm_generation/fuel/register_allocator.rs].  A spilled
    register gets a word of the stack frame: it is stored after every
    instruction that writes it and loaded before every instruction that reads
    it.  Sizes and offsets are [u32] values, whose sums panic on overflow. *)

From stdpp Require Import pretty.
From S2P Require Import Prelude AsmRegister AsmVirtualOp AsmOp AsmLiveness AsmGraph AsmInterference AsmColoring AsmCoalesce.
Local Open Scope Z_scope.

(** ** [u32] arithmetic *)

Definition u32_add (a b : Z) : Result Z :=
  if a + b <? 2 ^ 32 then Ok (a + b) else Err (Panic "attempt to add with overflow").

(** [x as u32] *)
Definition as_u32 (x : Z) : Z := x mod 2 ^ 32.

(** [size_bytes_round_up_to_word_alignment!] *)
Definition size_bytes_round_up_to_word_alignment (bytes : Z) : Result Z :=
  b ← u32_add bytes 7; Ok (b - b mod 8).

Definition assert_that (b : bool) (msg : string) : Result unit :=
  if b then Ok () else Err (Panic msg).

(** ** The stack frame *)

(** The positions of the instructions that extend and shrink the stack *)
Fixpoint frame_points (ops : list Op) (op_idx : nat) (cfe_idx cfs_idx : option nat)
    : Result (option nat * option nat) :=
  match ops with
  | [] => Ok (cfe_idx, cfs_idx)
  | op :: ops' =>
      match opcode op with
      | inl (CFEI _ _) =>
          match cfe_idx with
          | Some _ => Err (Panic "Found more than one stack extension")
          | None => frame_points ops' (S op_idx) (Some op_idx) cfs_idx
          end
      | inl (CFSI _ _) =>
          match cfs_idx with
          | Some _ => Err (Panic "Found more than one stack shrink")
          | None => frame_points ops' (S op_idx) cfe_idx (Some op_idx)
          end
      | _ => frame_points ops' (S op_idx) cfe_idx cfs_idx
      end
  end.

(** The size of the locals, from the instruction at [cfe_idx] *)
Definition locals_size (ops : list Op) (cfe_idx : nat) : Result Z :=
  match ops !! cfe_idx with
  | Some op =>
      match opcode op with
      | inl (CFEI (Constant StackPointer) virt_imm_24) => Ok (value24 virt_imm_24)
      | _ => Err (Panic "Unexpected opcode")
      end
  | None => Err (Panic "index out of bounds")
  end.

(** The slots of the registers, in the order of the iteration over [spills] *)
Fixpoint spill_offsets (regs : list VirtualRegister) (i : Z) (locals_size_bytes : Z)
    : Result (gmap VirtualRegister Z) :=
  match regs with
  | [] => Ok ∅
  | r :: regs' =>
      offset ← u32_add (as_u32 (i * 8)) locals_size_bytes;
      rest ← spill_offsets regs' (i + 1) locals_size_bytes;
      Ok (<[r := offset]> rest)
  end.

Definition offset_of (spill_offsets_bytes : gmap VirtualRegister Z) (r : VirtualRegister) : Result Z :=
  match spill_offsets_bytes !! r with
  | Some offset => Ok offset
  | None => Err (Panic "no entry found for key")
  end.

(** ** Loads and stores *)

Definition spill_op (v : VirtualOp) (com : string) : Op := mkOp (inl v) com.

(** [calculate_offset_reg_wordimm]: the instructions it pushes, and the register
    and the word offset of the address *)
Definition calculate_offset_reg_wordimm (offset_bytes : Z)
    : Result (list Op * (VirtualRegister * VirtualImmediate12)) :=
  _ ← assert_that (offset_bytes mod 8 =? 0) "assertion failed: offset_bytes % 8 == 0";
  if offset_bytes <=? EIGHTEEN_BITS then
    imm ← Imm18_new_unchecked offset_bytes "offset_bytes must fit in 18 bits";
    zero ← Imm12_new_unchecked 0 "zero must fit in 12 bits";
    Ok ([ spill_op (MOVI (Constant Scratch) imm) "[spill/refill]: set offset";
          spill_op (ADD (Constant Scratch) (Constant Scratch) (Constant LocalsBase))
            "[spill/refill]: add offset to stack base" ],
        (Constant Scratch, zero))
  else
    _ ← assert_that (offset_bytes <=? TWENTY_FOUR_BITS) "assertion failed: offset_bytes <= TWENTY_FOUR_BITS";
    let offset_upper_12 := Z.shiftr offset_bytes 12 in
    let offset_lower_12 := Z.land offset_bytes 4095 in
    _ ← assert_that (as_u32 (Z.shiftl offset_upper_12 12) + offset_lower_12 =? offset_bytes)
          "assertion failed: (offset_upper_12 << 12) + offset_lower_12 == offset_bytes";
    upper ← Imm18_new_unchecked offset_upper_12 "Upper part of offset must fit in 18 bits";
    twelve ← Imm12_new_unchecked 12 "twelve must fit in 12 bits";
    lower ← Imm12_new_unchecked (offset_lower_12 / 8) "Lower part of offset must fit in 12 bits";
    Ok ([ spill_op (MOVI (Constant Scratch) upper) "[spill/refill]: compute offset";
          spill_op (SLLI (Constant Scratch) (Constant Scratch) twelve) "[spill/refill]: compute offset";
          spill_op (ADD (Constant Scratch) (Constant Scratch) (Constant LocalsBase))
            "[spill/refill]: compute offset" ],
        (Constant Scratch, lower)).

(** The instructions before the access, and the address of the slot *)
Definition slot_address (offset_bytes : Z)
    : Result (list Op * (VirtualRegister * VirtualImmediate12)) :=
  _ ← assert_that (offset_bytes mod 8 =? 0) "assertion failed: offset_bytes % 8 == 0";
  if offset_bytes / 8 <=? TWELVE_BITS then
    imm ← Imm12_new_unchecked (offset_bytes / 8) "offset_bytes must fit in 12 bits";
    Ok ([], (Constant LocalsBase, imm))
  else calculate_offset_reg_wordimm offset_bytes.

Definition refill (spill_offsets_bytes : gmap VirtualRegister Z) (spilled_use : VirtualRegister)
    : Result (list Op) :=
  offset_bytes ← offset_of spill_offsets_bytes spilled_use;
  address ← slot_address offset_bytes;
  let '(before, (base, imm)) := address in
  Ok (before ++ [spill_op (LW spilled_use base imm) "[spill/refill]: refill from spill"]).

Definition store (spill_offsets_bytes : gmap VirtualRegister Z) (spilled_def : VirtualRegister)
    : Result (list Op) :=
  offset_bytes ← offset_of spill_offsets_bytes spilled_def;
  address ← slot_address offset_bytes;
  let '(before, (base, imm)) := address in
  Ok (before ++ [spill_op (SW base spilled_def imm) "[spill/refill]: spill"]).

(** ** [spill] *)

Definition spilled_of (spills : BTreeSet) (regs : BTreeSet) : list VirtualRegister :=
  List.filter (fun r => bool_decide (r ∈ spills)) (btree_iter regs).

(** Any instruction but the one that extends or shrinks the stack *)
Definition spill_instruction (spills : BTreeSet) (spill_offsets_bytes : gmap VirtualRegister Z)
    (op : Op) : Result (list Op) :=
  refills ← concat_traverse (refill spill_offsets_bytes) (spilled_of spills (use_registers op));
  stores ← concat_traverse (store spill_offsets_bytes) (spilled_of spills (def_registers op));
  Ok (refills ++ [op] ++ stores).

Definition frame_comment (op : Op) (spills_size : Z) : string :=
  comment op +:+ " and " +:+ pretty spills_size +:+ " bytes for spills".

Definition spill_at (spills : BTreeSet) (offsets : gmap VirtualRegister Z) (cfe_idx : nat)
    (cfs_idx_opt : option nat) (new_locals_byte_size spills_size : Z) (op_idx : nat) (op : Op)
    : Result (list Op) :=
  if bool_decide (op_idx = cfe_idx) then
    imm ← Imm24_new_unchecked new_locals_byte_size "new_locals_byte_size must fit in 24 bits";
    Ok [mkOp (inl (CFEI (Constant StackPointer) imm)) (frame_comment op spills_size)]
  else if bool_decide (cfs_idx_opt = Some op_idx) then
    imm ← Imm24_new_unchecked new_locals_byte_size "new_locals_byte_size must fit in 24 bits";
    Ok [mkOp (inl (CFSI (Constant StackPointer) imm)) (frame_comment op spills_size)]
  else spill_instruction spills offsets op.

Section spill.
Context `{!HashOrder VirtualRegister}.

Definition spill (ops : list Op) (spills : BTreeSet) : Result (list Op) :=
  points ← frame_points ops 0 None None;
  let '(cfe_idx_opt, cfs_idx_opt) := points in
  match cfe_idx_opt with
  | None => Err (Panic "Function does not have CFEI instruction for locals")
  | Some cfe_idx =>
      bytes ← locals_size ops cfe_idx;
      locals_size_bytes ← size_bytes_round_up_to_word_alignment bytes;
      offsets ← spill_offsets (hash_iter spills) 0 locals_size_bytes;
      let spills_size := as_u32 (8 * Z.of_nat (size spills)) in
      new_locals_byte_size ← u32_add locals_size_bytes spills_size;
      if TWENTY_FOUR_BITS <? new_locals_byte_size then Err (Panic "Enormous stack usage for locals.")
      else
        concat_traverse
          (fun '(op_idx, op) =>
             spill_at spills offsets cfe_idx cfs_idx_opt new_locals_byte_size spills_size op_idx op)
          (imap pair ops)
  end.
End spill.

(** * The shape of a program

    The part of a program that neither renaming, coalescing nor spilling
    changes: its labels and jumps, and the two instructions of the stack frame
    up to their sizes.  A program of a correct shape has no undefined label and
    one stack frame. *)

Local Open Scope nat_scope.

(** What an instruction is for the control flow and the stack frame *)
Inductive Kind : Type :=
  | KExtend (r : VirtualRegister) (size : Z)
  | KShrink (r : VirtualRegister) (size : Z)
  | KLabel (l : Label)
  | KJump (l : Label)
  | KImmediateJump
  | KPlain.

#[export] Instance Kind_eq_dec : EqDecision Kind.
Proof. solve_decision. Defined.

Definition VirtualOp_kind (v : VirtualOp) : Kind :=
  match v with
  | CFEI r i => KExtend r (value24 i)
  | CFSI r i => KShrink r (value24 i)
  | JI _ | JNEI _ _ _ | JNZI _ _ => KImmediateJump
  | _ => KPlain
  end.

Definition op_kind (op : Op) : Kind :=
  match opcode op with
  | inl v => VirtualOp_kind v
  | inr (CLabel l) => KLabel l
  | inr (Jump l) | inr (JumpIfNotZero _ l) => KJump l
  | inr _ => KPlain
  end.

Definition is_plain (k : Kind) : bool := match k with KPlain => true | _ => false end.

(** The instructions that are not plain *)
Definition kinds (ops : list Op) : list Kind := List.filter (fun k => negb (is_plain k)) (map op_kind ops).

Lemma kinds_app os os' : kinds (os ++ os') = kinds os ++ kinds os'.
Proof. unfold kinds. by rewrite map_app, List.filter_app. Qed.

Lemma kinds_plain ops : Forall (fun op => op_kind op = KPlain) ops -> kinds ops = [].
Proof. induction 1 as [|op ops Hop _ IH]; [done|]. unfold kinds in *. cbn. by rewrite Hop. Qed.

Lemma kinds_elem ops k : k ∈ kinds ops <-> k <> KPlain /\ exists op, op ∈ ops /\ op_kind op = k.
Proof.
  unfold kinds. rewrite list_elem_of_In, filter_In, <- list_elem_of_In, list_elem_of_fmap.
  split.
  - intros [(op & -> & Hop) Hk]. split; [by destruct (op_kind op)|eauto].
  - intros [Hk (op & Hop & <-)]. split; [eauto|]. by destruct (op_kind op).
Qed.

(** ** Renaming and coalescing keep the shape *)

Lemma VirtualOp_update_kind f v v' :
  VirtualOp_update_register f v = Ok v' ->
  VirtualOp_kind v' = VirtualOp_kind v /\ pointer_operand v' = pointer_operand v.
Proof. destruct v; cbn; intros Hv; inv_ok; split; reflexivity. Qed.

Lemma update_register_kind f op op' :
  update_register f op = Ok op' -> op_kind op' = op_kind op /\ (wf_op op -> wf_op op').
Proof.
  destruct op as [[v|c] com]; unfold update_register, op_kind, wf_op; cbn; intros Hop; inv_ok; cbn.
  - apply VirtualOp_update_kind in Hok as [-> ->]. done.
  - split; [|done]. by destruct c.
Qed.

Lemma update_register_kinds f ops ops' :
  Forall2 (fun op op' => update_register f op = Ok op') ops ops' ->
  kinds ops' = kinds ops /\ (Forall wf_op ops -> Forall wf_op ops').
Proof.
  induction 1 as [|op op' ops ops' Hop _ [IHk IHw]]; [done|]. apply update_register_kind in Hop as [Hk Hw].
  split; [unfold kinds in *; cbn; by rewrite Hk, IHk|]. intros [H1 H2]%Forall_cons. constructor; auto.
Qed.

Lemma dropped_kinds rep ops kept :
  dropped rep ops kept -> kinds kept = kinds ops /\ (Forall wf_op ops -> Forall wf_op kept).
Proof.
  induction 1 as [|os rs op _ [IHk IHw]|os rs op x y _ [IHk IHw] Hop _]; [done|..].
  - rewrite !kinds_app, IHk. split; [done|]. intros [H1 H2]%Forall_app. apply Forall_app. auto.
  - rewrite kinds_app, IHk, (kinds_plain [op]); [rewrite app_nil_r; split; [done|]|].
    + intros [H1 _]%Forall_app. auto.
    + constructor; [|done]. unfold op_kind. by rewrite Hop.
Qed.

(** ** Closed programs *)

Definition is_extend (k : Kind) : bool := match k with KExtend _ _ => true | _ => false end.
Definition is_shrink (k : Kind) : bool := match k with KShrink _ _ => true | _ => false end.

(** Every label that is jumped to is defined, no jump has an immediate target,
    and one instruction extends the stack, by a size of 24 bits. *)
Record closed (ks : list Kind) : Prop := {
  closed_jump l : KJump l ∈ ks -> KLabel l ∈ ks;
  closed_immediate : KImmediateJump ∉ ks;
  closed_extend : exists size, List.filter is_extend ks = [KExtend (Constant StackPointer) size] /\
    (0 <= size <= TWENTY_FOUR_BITS)%Z;
  closed_shrink : length (List.filter is_shrink ks) <= 1
}.

Lemma label_to_index_is_Some ops l : KLabel l ∈ kinds ops -> is_Some (label_to_index_of ops !! l).
Proof.
  intros (_ & op & [i Hi]%list_elem_of_lookup & Hk)%kinds_elem. unfold label_to_index_of.
  assert (forall xs (m : gmap Label nat), (i, op) ∈ xs \/ is_Some (m !! l) ->
    is_Some (foldl (fun m '(i, op) => match opcode op with inr (CLabel l) => <[l := i]> m | _ => m end) m xs !! l))
    as Hgo.
  { induction xs as [|[j o] xs IH]; intros m Hor; cbn.
    - destruct Hor as [?%elem_of_nil|?]; done.
    - apply IH. destruct Hor as [[[= <- <-]|Hin]%elem_of_cons|Hs]; [|by left|].
      + right. unfold op_kind in Hk. destruct (opcode op) as [v|c]; [by destruct v|]. destruct c; try done.
        injection Hk as ->. by rewrite lookup_insert_eq.
      + right. destruct (opcode o) as [|[]]; try done. apply lookup_insert_is_Some'. by right. }
  apply Hgo. left. apply elem_of_lookup_imap. eauto.
Qed.

Lemma closed_successors ops i op :
  closed (kinds ops) -> ops !! i = Some op -> is_Ok (successors op i ops (label_to_index_of ops)).
Proof.
  intros Hc Hop. assert (forall k, op_kind op = k -> k <> KPlain -> k ∈ kinds ops) as Hk.
  { intros k Hk Hne. apply kinds_elem. split; [done|]. exists op. split; [by eapply list_elem_of_lookup_2|done]. }
  assert (forall l, op_kind op = KJump l -> is_Some (label_to_index_of ops !! l)) as Hl.
  { intros l Hj. by apply label_to_index_is_Some, (closed_jump _ Hc), Hk. }
  unfold successors. destruct (opcode op) as [v|c] eqn:Ho; unfold op_kind in *; rewrite Ho in *.
  - destruct v; try (by eexists); exfalso; eapply (closed_immediate _ Hc), Hk; done.
  - destruct c; try (by eexists); destruct (Hl l eq_refl) as [t Ht]; cbn; rewrite Ht; by eexists.
Qed.

Lemma closed_liveness ops ign : closed (kinds ops) -> exists lo, liveness_analysis ops ign = Ok lo.
Proof. intros Hc. apply liveness_is_Ok. intros i op. by apply closed_successors. Qed.
