(* ===== verification/AsmSpillTheory.v ===== *)
(** * Correctness of spilling

    The slots of the spilled registers are distinct words above the locals and
    inside of the extended frame; [spill] succeeds on every closed program, up
    to the size of the frame, and keeps its shape. *)

From S2P Require Import Prelude AsmRegister AsmVirtualOp AsmOp AsmLiveness AsmGraph AsmInterference AsmCoalesce AsmColoring AsmSpill AsmVm.
Local Open Scope Z_scope.

(** ** The frame *)

Lemma round_up_Ok bytes :
  0 <= bytes <= TWENTY_FOUR_BITS ->
  exists base, size_bytes_round_up_to_word_alignment bytes = Ok base /\
    base mod 8 = 0 /\ bytes <= base < bytes + 8.
Proof.
  unfold TWENTY_FOUR_BITS. intros Hb. unfold size_bytes_round_up_to_word_alignment, u32_add.
  destruct (Z.ltb_spec (bytes + 7) (2 ^ 32)); [|lia]. next_step. eexists. split; [done|].
  pose proof (Z.div_mod (bytes + 7) 8 ltac:(lia)). pose proof (Z.mod_pos_bound (bytes + 7) 8 ltac:(lia)).
  split; [|lia]. replace (bytes + 7 - (bytes + 7) mod 8) with ((bytes + 7) / 8 * 8) by lia. apply Z_mod_mult.
Qed.

Lemma spill_offsets_Ok regs i base :
  NoDup regs -> 0 <= i -> 0 <= base -> base + 8 * (i + Z.of_nat (length regs)) < 2 ^ 32 ->
  exists m, spill_offsets regs i base = Ok m /\
    forall r o, m !! r = Some o <-> exists j, regs !! j = Some r /\ o = base + 8 * (i + Z.of_nat j).
Proof.
  revert i. induction regs as [|x regs IH]; intros i Hnd Hi Hbase Hmax; cbn [spill_offsets].
  - exists ∅. split; [done|]. intros r o. rewrite lookup_empty. split; [done|]. by intros (j & ? & _).
  - apply NoDup_cons in Hnd as [Hx Hnd]. cbn [length] in Hmax. unfold u32_add, as_u32.
    rewrite Z.mod_small by lia. destruct (Z.ltb_spec (i * 8 + base) (2 ^ 32)); [|lia]. next_step.
    destruct (IH (i + 1)) as (m & -> & Hm); [done|lia|done|lia|]. next_step.
    eexists. split; [done|]. intros r o. destruct (decide (x = r)) as [->|Hne].
    + rewrite lookup_insert_eq. split.
      * intros [= <-]. exists 0%nat. split; [done|lia].
      * intros ([|j] & Hj & ->); [f_equal; lia|]. cbn in Hj. exfalso. apply Hx. by eapply list_elem_of_lookup_2.
    + rewrite lookup_insert_ne by done. rewrite Hm. split.
      * intros (j & Hj & ->). exists (S j). split; [done|lia].
      * intros ([|j] & Hj & ->); [cbn in Hj; congruence|]. exists j. split; [done|lia].
Qed.

Definition count (a : option nat) : nat := match a with Some _ => 1 | None => 0 end.

Lemma frame_points_Ok ops n (a b : option nat) :
  (length (List.filter is_extend (kinds ops)) + count a <= 1)%nat ->
  (length (List.filter is_shrink (kinds ops)) + count b <= 1)%nat ->
  exists a' b', frame_points ops n a b = Ok (a', b') /\
    (forall i op, ops !! i = Some op -> is_extend (op_kind op) = true -> a' = Some (n + i)%nat) /\
    (forall i op, ops !! i = Some op -> is_shrink (op_kind op) = true -> b' = Some (n + i)%nat) /\
    (a' = a \/ exists i op, ops !! i = Some op /\ is_extend (op_kind op) = true /\ a' = Some (n + i)%nat) /\
    (b' = b \/ exists i op, ops !! i = Some op /\ is_shrink (op_kind op) = true /\ b' = Some (n + i)%nat).
Proof.
  revert n a b. induction ops as [|op ops IH]; intros n a b Ha Hb.
  { exists a, b. cbn. split_and!; [done|by intros|by intros|by left|by left]. }
  assert (exists a1 b1, frame_points (op :: ops) n a b = frame_points ops (S n) a1 b1 /\
    (length (List.filter is_extend (kinds ops)) + count a1 <= 1)%nat /\
    (length (List.filter is_shrink (kinds ops)) + count b1 <= 1)%nat /\
    a1 = (if is_extend (op_kind op) then Some n else a) /\
    b1 = (if is_shrink (op_kind op) then Some n else b)) as (a1 & b1 & Heq & Ha1 & Hb1 & Hea & Heb).
  { unfold kinds in Ha, Hb. cbn [map List.filter] in Ha, Hb.
    fold (kinds ops) in Ha, Hb. cbn [frame_points]. unfold op_kind in *.
    destruct (opcode op) as [v|c]; [destruct v|destruct c]; cbn in Ha, Hb |- *;
      try (eexists _, _; split_and!; [reflexivity|exact Ha|exact Hb|reflexivity|reflexivity]).
    - destruct a; [cbn in Ha; lia|]. eexists _, _. split_and!; [reflexivity|cbn; lia|exact Hb|reflexivity|reflexivity].
    - destruct b; [cbn in Hb; lia|]. eexists _, _. split_and!; [reflexivity|exact Ha|cbn; lia|reflexivity|reflexivity]. }
  destruct (IH (S n) a1 b1 Ha1 Hb1) as (a' & b' & Hf & HA & HB & HA' & HB'). exists a', b'.
  rewrite Heq. split; [done|].
  assert (forall (P : Kind -> bool) (c c1 c' : option nat),
    (length (List.filter P (kinds ops)) + count c1 <= 1)%nat -> P KPlain = false ->
    c1 = (if P (op_kind op) then Some n else c) ->
    (forall i o, ops !! i = Some o -> P (op_kind o) = true -> c' = Some (S n + i)%nat) ->
    (c' = c1 \/ exists i o, ops !! i = Some o /\ P (op_kind o) = true /\ c' = Some (S n + i)%nat) ->
    (forall i o, (op :: ops) !! i = Some o -> P (op_kind o) = true -> c' = Some (n + i)%nat) /\
    (c' = c \/ exists i o, (op :: ops) !! i = Some o /\ P (op_kind o) = true /\ c' = Some (n + i)%nat)) as Hgen.
  { intros P c c1 c' Hle HP -> Hall Hex. split.
    - intros [|i] o Ho Ht; cbn in Ho.
      + injection Ho as <-. rewrite Ht in *. rewrite Nat.add_0_r. destruct Hex as [|(i & o & Hi & Hpo & _)]; [done|].
        exfalso. assert (op_kind o ∈ List.filter P (kinds ops)) as Hin.
        { apply list_elem_of_In, filter_In. split; [|done]. apply list_elem_of_In, kinds_elem.
          split; [intros Hp; congruence|]. exists o. split; [by eapply list_elem_of_lookup_2|done]. }
        destruct (List.filter P (kinds ops)); [by apply elem_of_nil in Hin|cbn in Hle; lia].
      + rewrite (Hall i o Ho Ht). f_equal. lia.
    - destruct Hex as [->|(i & o & Hi & Hpo & ->)].
      + destruct (P (op_kind op)) eqn:Ht; [|by left]. right. exists 0%nat, op. rewrite Nat.add_0_r. done.
      + right. exists (S i), o. split_and!; [done..|]. f_equal. lia. }
  destruct (Hgen is_extend a a1 a' Ha1 eq_refl Hea HA HA') as [G1 G2].
  destruct (Hgen is_shrink b b1 b' Hb1 eq_refl Heb HB HB') as [G3 G4]. done.
Qed.

(** ** Loads and stores *)

(** The instructions of a refill or a store: plain, without pointer operands *)
Definition inserted (r : VirtualRegister) (op : Op) : Prop :=
  op_kind op = KPlain /\ wf_op op /\ forall x, x ∈ registers op -> is_virtual x = true -> x = r.

(** The three ways to address a slot: by an immediate, by an 18-bit offset, or by
    the upper 12 bits of the offset and the lower ones in words *)
Definition near_address (o : Z) : list Op * (VirtualRegister * VirtualImmediate12) :=
  ([], (Constant LocalsBase, mkImm12 (o / 8))).

Definition offset_address (o : Z) : list Op * (VirtualRegister * VirtualImmediate12) :=
  ([ spill_op (MOVI (Constant Scratch) (mkImm18 o)) "[spill/refill]: set offset";
     spill_op (ADD (Constant Scratch) (Constant Scratch) (Constant LocalsBase))
       "[spill/refill]: add offset to stack base" ], (Constant Scratch, mkImm12 0)).

Definition far_address (up lo : Z) : list Op * (VirtualRegister * VirtualImmediate12) :=
  ([ spill_op (MOVI (Constant Scratch) (mkImm18 up)) "[spill/refill]: compute offset";
     spill_op (SLLI (Constant Scratch) (Constant Scratch) (mkImm12 12)) "[spill/refill]: compute offset";
     spill_op (ADD (Constant Scratch) (Constant Scratch) (Constant LocalsBase))
       "[spill/refill]: compute offset" ], (Constant Scratch, mkImm12 lo)).

Lemma Imm12_unchecked_Ok v msg : v <= 65535 -> Imm12_new_unchecked v msg = Ok (mkImm12 v).
Proof. intros. unfold Imm12_new_unchecked, Immediate_new_unchecked. destruct (Z.leb_spec v 65535); [done|lia]. Qed.

Lemma Imm18_unchecked_Ok v msg : v <= 4294967295 -> Imm18_new_unchecked v msg = Ok (mkImm18 v).
Proof. intros. unfold Imm18_new_unchecked, Immediate_new_unchecked. destruct (Z.leb_spec v 4294967295); [done|lia]. Qed.

Lemma split_offset o :
  0 <= o < 2 ^ 24 -> o mod 8 = 0 ->
  let up := Z.shiftr o 12 in let low := Z.land o 4095 in
  as_u32 (Z.shiftl up 12) + low = o /\ o = up * 2 ^ 12 + 8 * (low / 8) /\ 0 <= up < 2 ^ 12 /\ 0 <= low / 8 < 512.
Proof.
  intros Ho Hmod up low. subst up low. change 4095 with (Z.ones 12).
  rewrite Z.shiftr_div_pow2, Z.shiftl_mul_pow2, Z.land_ones by lia.
  pose proof (Z.div_mod o (2 ^ 12) ltac:(lia)). pose proof (Z.mod_pos_bound o (2 ^ 12) ltac:(lia)).
  assert (0 <= o / 2 ^ 12 < 2 ^ 12) by (split; [apply Z.div_pos; lia|apply Z.div_lt_upper_bound; lia]).
  assert (o mod 2 ^ 12 = 8 * (o mod 2 ^ 12 / 8)).
  { pose proof (Z.div_mod (o mod 2 ^ 12) 8 ltac:(lia)) as H8.
    rewrite Z.mod_mod_divide, Hmod in H8 by (by exists 512). lia. }
  unfold as_u32. rewrite (Z.mod_small (_ * _)) by lia. split_and!; lia.
Qed.

Lemma slot_address_cases o :
  0 <= o <= TWENTY_FOUR_BITS -> o mod 8 = 0 ->
  slot_address o = Ok (near_address o) /\ o / 8 <= TWELVE_BITS \/
  slot_address o = Ok (offset_address o) /\ o <= EIGHTEEN_BITS \/
  exists up lo, slot_address o = Ok (far_address up lo) /\ o = up * 2 ^ 12 + 8 * lo /\
    0 <= up < 2 ^ 12 /\ 0 <= lo < 512.
Proof.
  unfold TWENTY_FOUR_BITS. intros Ho Hmod. unfold slot_address, TWELVE_BITS.
  rewrite Hmod. cbn [Z.eqb assert_that mbind Result_bind]. destruct (Z.leb_spec (o / 8) 4095).
  { left. rewrite Imm12_unchecked_Ok by lia. done. }
  right. unfold calculate_offset_reg_wordimm, EIGHTEEN_BITS, TWENTY_FOUR_BITS. rewrite Hmod.
  cbn [Z.eqb assert_that mbind Result_bind]. destruct (Z.leb_spec o 262143).
  { left. rewrite Imm18_unchecked_Ok, Imm12_unchecked_Ok by lia. done. }
  right. destruct (Z.leb_spec o 16777215); [|lia]. cbn [assert_that mbind Result_bind].
  destruct (split_offset o) as (Hsum & Hparts & Hup & Hlow); [lia|done|].
  rewrite Hsum, Z.eqb_refl. cbn [assert_that mbind Result_bind].
  rewrite Imm18_unchecked_Ok, !Imm12_unchecked_Ok by lia. eauto 10.
Qed.

Lemma inserted_address v com r :
  VirtualOp_kind v = KPlain -> pointer_operand v = None ->
  VirtualOp_registers v ⊆ {[Constant Scratch; Constant LocalsBase]} -> inserted r (spill_op v com).
Proof.
  intros Hk Hp Hv. split; [done|]. unfold wf_op, registers. cbn. rewrite Hp. split; [done|].
  intros x Hx%Hv. rewrite elem_of_union, !elem_of_singleton in Hx. by destruct Hx as [->| ->].
Qed.

Lemma slot_address_Ok o :
  0 <= o <= TWENTY_FOUR_BITS -> o mod 8 = 0 ->
  exists before base imm, slot_address o = Ok (before, (base, imm)) /\
    (forall r, Forall (inserted r) before) /\ is_virtual base = false /\ 0 <= value12 imm <= TWELVE_BITS.
Proof.
  intros Ho Hmod. pose proof (Z.div_pos o 8 ltac:(lia) ltac:(lia)).
  destruct (slot_address_cases o Ho Hmod) as [[-> Hb]|[[-> Hb]|(up & lo & -> & _ & Hup & Hlo)]];
    eexists _, _, _; (split; [reflexivity|]); unfold TWELVE_BITS in *; (split; [|split; [done|cbn; lia]]);
    intros r; repeat constructor; apply inserted_address; try reflexivity; cbn; set_solver.
Qed.

Section access.
Context (offsets : gmap VirtualRegister Z) (r : VirtualRegister) (o : Z).
Hypothesis Hr : offsets !! r = Some o.
Hypothesis Ho : 0 <= o <= TWENTY_FOUR_BITS.
Hypothesis Hmod : o mod 8 = 0.

Lemma access_inserted before (v : VirtualOp) com base :
  Forall (inserted r) before -> is_virtual base = false -> VirtualOp_kind v = KPlain ->
  pointer_operand v = None -> VirtualOp_registers v ⊆ {[r; base]} ->
  Forall (inserted r) (before ++ [spill_op v com]).
Proof.
  intros Hb Hbase Hk Hp Hv. apply Forall_app. split; [done|]. constructor; [|done]. split; [done|].
  unfold wf_op, registers. cbn. rewrite Hp. split; [done|]. intros x Hx%Hv Hvirt.
  rewrite elem_of_union, !elem_of_singleton in Hx. destruct Hx as [->| ->]; [done|congruence].
Qed.

Lemma refill_Ok : exists os, refill offsets r = Ok os /\ Forall (inserted r) os.
Proof.
  unfold refill, offset_of. rewrite Hr. next_step.
  destruct (slot_address_Ok o Ho Hmod) as (before & base & imm & -> & Hb & Hbase & _). next_step.
  eexists. split; [done|]. apply (access_inserted before _ _ base); try done. cbn. set_solver.
Qed.

Lemma store_Ok : exists os, store offsets r = Ok os /\ Forall (inserted r) os.
Proof.
  unfold store, offset_of. rewrite Hr. next_step.
  destruct (slot_address_Ok o Ho Hmod) as (before & base & imm & -> & Hb & Hbase & _). next_step.
  eexists. split; [done|]. apply (access_inserted before _ _ base); try done. cbn. set_solver.
Qed.
End access.

(** ** [spill] *)

(** The frame instructions get the new size. *)
Definition resize (n : Z) (k : Kind) : Kind :=
  match k with
  | KExtend _ _ => KExtend (Constant StackPointer) n
  | KShrink _ _ => KShrink (Constant StackPointer) n
  | _ => k
  end.

Lemma resize_closed n ks : 0 <= n <= TWENTY_FOUR_BITS -> closed ks -> closed (map (resize n) ks).
Proof.
  intros Hn Hc.
  assert (forall (P : Kind -> bool), (forall k, P (resize n k) = P k) ->
    List.filter P (map (resize n) ks) = map (resize n) (List.filter P ks)) as Hfilter.
  { intros P HP. clear Hc. induction ks as [|k ks IH]; cbn; [done|]. rewrite HP. destruct (P k); cbn; by rewrite IH. }
  split.
  - intros l (k & Hk & Hin)%list_elem_of_fmap. destruct k; try discriminate Hk. injection Hk as ->.
    apply list_elem_of_fmap. exists (KLabel l0). split; [done|]. by apply (closed_jump _ Hc).
  - intros (k & Hk & Hin)%list_elem_of_fmap. destruct k; try discriminate Hk. by apply (closed_immediate _ Hc).
  - destruct (closed_extend _ Hc) as (size & Hs & _). exists n.
    rewrite Hfilter, Hs by (by intros []). done.
  - rewrite Hfilter, length_map by (by intros []). apply Hc.
Qed.

Lemma all_virtual_registers_app os os' :
  all_virtual_registers (os ++ os') = all_virtual_registers os ∪ all_virtual_registers os'.
Proof.
  apply set_eq. intros r. rewrite elem_of_union, !all_virtual_registers_elem. split.
  - intros (i & op & [Hi|[_ Hi]]%lookup_app_Some & Hop); [left|right]; eauto.
  - intros [(i & op & Hi & Hop)|(i & op & Hi & Hop)].
    + exists i, op. split; [by apply lookup_app_l_Some|done].
    + exists (length os + i)%nat, op. rewrite lookup_app_r by lia.
      split; [by replace (length os + i - length os)%nat with i by lia|done].
Qed.

Lemma imap_pair_snd {A} (l : list A) : map snd (imap pair l) = l.
Proof.
  change (map snd (imap pair l)) with (snd <$> imap pair l). rewrite fmap_imap. apply list_eq. intros i.
  rewrite list_lookup_imap. by destruct (l !! i).
Qed.

Lemma spilled_blocks {A} new (xs : list (A * Op)) blks :
  Forall2 (fun x blk => kinds blk = map (resize new) (kinds [x.2]) /\ Forall wf_op blk /\
    all_virtual_registers blk ⊆ all_virtual_registers [x.2]) xs blks ->
  kinds (concat blks) = map (resize new) (kinds (map snd xs)) /\ Forall wf_op (concat blks) /\
  all_virtual_registers (concat blks) ⊆ all_virtual_registers (map snd xs).
Proof.
  induction 1 as [|[i op] blk xs blks (Hk & Hw & Hv) _ (IHk & IHw & IHv)]; [done|]. cbn [concat map snd].
  change (op :: map snd xs) with ([op] ++ map snd xs). cbn [snd] in Hk, Hv.
  rewrite !kinds_app, map_app, Hk, IHk, Forall_app, !all_virtual_registers_app. split_and!; [done..|set_solver].
Qed.

Section spill_theory.
Context `{!HashOrder VirtualRegister}.

(** Every spilled register has a word of its own. *)
Lemma slots_Ok spills base :
  0 <= base -> base mod 8 = 0 -> base + 8 * Z.of_nat (size spills) < 2 ^ 32 ->
  exists m, spill_offsets (hash_iter spills) 0 base = Ok m /\
    (forall r, r ∈ spills -> exists o, m !! r = Some o /\ o mod 8 = 0 /\ base <= o /\
       o + 8 <= base + 8 * Z.of_nat (size spills)) /\
    (forall r s o o', m !! r = Some o -> m !! s = Some o' -> r <> s -> o + 8 <= o' \/ o' + 8 <= o).
Proof.
  intros Hbase Hmod Hmax. pose proof (hash_iter_perm spills) as Hperm.
  assert (length (hash_iter spills) = size spills) as Hlen by (by rewrite Hperm).
  destruct (spill_offsets_Ok (hash_iter spills) 0 base) as (m & -> & Hm).
  { rewrite Hperm. apply NoDup_elements. }
  { done. }
  { done. }
  { rewrite Hlen. lia. }
  exists m. split; [done|]. split.
  - intros r Hr. rewrite <- elem_of_elements, <- Hperm in Hr. apply list_elem_of_lookup in Hr as [j Hj].
    exists (base + 8 * (0 + Z.of_nat j)). split; [apply Hm; eauto|]. apply lookup_lt_Some in Hj. rewrite Hlen in Hj.
    split; [|lia]. rewrite <- Zplus_mod_idemp_l, Hmod, (Z.mul_comm 8), Z.mod_add; done.
  - intros r s o o' (j & Hj & ->)%Hm (j' & Hj' & ->)%Hm Hne. assert (j <> j') by congruence. lia.
Qed.

(** The instructions inserted next to [op] are plain and mention its registers. *)
Lemma inserted_block op os :
  Forall (fun o => exists r, r ∈ registers op /\ inserted r o) os ->
  kinds os = [] /\ Forall wf_op os /\ all_virtual_registers os ⊆ all_virtual_registers [op].
Proof.
  intros Hos. split_and!.
  - apply kinds_plain. eapply Forall_impl; [exact Hos|]. intros o (r & _ & Ho & _). done.
  - eapply Forall_impl; [exact Hos|]. intros o (r & _ & _ & Ho & _). done.
  - intros x (j & o & Hj & Hx & Hv)%all_virtual_registers_elem.
    eapply Forall_lookup_1 in Hos as (r & Hr & _ & _ & Hreg); [|exact Hj].
    apply all_virtual_registers_elem. exists 0%nat, op. specialize (Hreg x Hx Hv). by subst x.
Qed.

Lemma accesses_Ok op spills (f : VirtualRegister -> Result (list Op)) s :
  (forall r, r ∈ spills -> exists os, f r = Ok os /\ Forall (inserted r) os) -> s ⊆ registers op ->
  exists os, concat_traverse f (spilled_of spills s) = Ok os /\
    Forall (fun o => exists r, r ∈ registers op /\ inserted r o) os.
Proof.
  intros Hf Hs.
  destruct (concat_traverse_Forall2 f (fun r os => r ∈ registers op /\ Forall (inserted r) os)
    (spilled_of spills s)) as (oss & -> & Hoss).
  - intros r [Hr Hsp%bool_decide_eq_true]%list_elem_of_In%filter_In. destruct (Hf r Hsp) as (os & Hos & Hall).
    exists os. split; [done|]. split; [|done]. by apply Hs, btree_iter_elem, list_elem_of_In.
  - exists (concat oss). split; [done|]. induction Hoss as [|r os rs oss [Hr Hall] _ IH]; cbn; [done|].
    apply Forall_app. split; [|done]. eapply Forall_impl; [exact Hall|]. cbn. eauto.
Qed.

(** The registers to spill have slots that a 24-bit offset reaches. *)
Definition reachable_slots (spills : BTreeSet) (m : gmap VirtualRegister Z) : Prop :=
  forall r, r ∈ spills -> exists o, m !! r = Some o /\ o mod 8 = 0 /\ 0 <= o <= TWENTY_FOUR_BITS.

Lemma spill_instruction_Ok spills m op :
  reachable_slots spills m -> wf_op op ->
  exists blk, spill_instruction spills m op = Ok blk /\ kinds blk = kinds [op] /\ Forall wf_op blk /\
    all_virtual_registers blk ⊆ all_virtual_registers [op].
Proof.
  intros Hslot Hwf. unfold spill_instruction.
  assert (use_registers op ⊆ registers op /\ def_registers op ⊆ registers op) as [Hu Hd].
  { rewrite registers_use_def_Ok. set_solver. }
  destruct (accesses_Ok op spills (refill m) (use_registers op)) as (rs & -> & Hrs); [|done|].
  { intros r (o & Ho & Hm & Hb)%Hslot. by apply (refill_Ok m r o). }
  destruct (accesses_Ok op spills (store m) (def_registers op)) as (ss & -> & Hss); [|done|].
  { intros r (o & Ho & Hm & Hb)%Hslot. by apply (store_Ok m r o). }
  next_step. eexists. split; [done|].
  destruct (inserted_block op rs Hrs) as (K1 & W1 & V1). destruct (inserted_block op ss Hss) as (K2 & W2 & V2).
  rewrite !kinds_app, K1, K2, app_nil_r, app_nil_l, !all_virtual_registers_app, !Forall_app.
  split_and!; [done..|by constructor|done|set_solver].
Qed.

(** A frame instruction with its new size *)
Lemma frame_op_Ok (con : VirtualRegister -> VirtualImmediate24 -> VirtualOp) new com op :
  con = CFEI /\ is_extend (op_kind op) = true \/ con = CFSI /\ is_shrink (op_kind op) = true ->
  let blk := [mkOp (inl (con (Constant StackPointer) (mkImm24 new))) com] in
  kinds blk = map (resize new) (kinds [op]) /\ Forall wf_op blk /\
  all_virtual_registers blk ⊆ all_virtual_registers [op].
Proof.
  intros Hcon blk. split_and!.
  - destruct Hcon as [[-> Hk]|[-> Hk]]; unfold kinds; cbn; destruct (op_kind op); done.
  - destruct Hcon as [[-> _]|[-> _]]; by repeat constructor.
  - intros r (j & o & Hj & Hr & Hv)%all_virtual_registers_elem.
    destruct j as [|j]; [injection Hj as <-|done]. unfold registers in Hr. cbn in Hr.
    assert (r = Constant StackPointer) as -> by (destruct Hcon as [[-> _]|[-> _]]; cbn in Hr; set_solver). done.
Qed.

(** The frame instructions of a program are at [cfe] and [cfs]. *)
Record framed (ops : list Op) (cfe : nat) (cfs : option nat) : Prop := {
  framed_extend i op : ops !! i = Some op -> is_extend (op_kind op) = true <-> i = cfe;
  framed_shrink i op : ops !! i = Some op -> is_shrink (op_kind op) = true <-> cfs = Some i
}.

(** The instructions that replace the one at [i] *)
Lemma spill_at_Ok ops spills m cfe cfs new sz i op :
  Forall wf_op ops -> 0 <= new <= TWENTY_FOUR_BITS -> reachable_slots spills m -> framed ops cfe cfs ->
  ops !! i = Some op ->
  exists blk, spill_at spills m cfe cfs new sz i op = Ok blk /\
    kinds blk = map (resize new) (kinds [op]) /\ Forall wf_op blk /\
    all_virtual_registers blk ⊆ all_virtual_registers [op].
Proof.
  intros Hwf Hnew Hslot Hframe Hop. unfold spill_at.
  assert (Imm24_new_unchecked new "new_locals_byte_size must fit in 24 bits" = Ok (mkImm24 new)) as ->.
  { unfold Imm24_new_unchecked, Immediate_new_unchecked, TWENTY_FOUR_BITS in *.
    destruct (Z.leb_spec new 4294967295); [done|lia]. }
  pose proof (framed_extend _ _ _ Hframe i op Hop) as He. pose proof (framed_shrink _ _ _ Hframe i op Hop) as Hs.
  next_step. case_bool_decide as Hi; [|case_bool_decide as Hi'].
  - eexists. split; [done|]. apply frame_op_Ok. left. by rewrite He.
  - eexists. split; [done|]. apply frame_op_Ok. right. by rewrite Hs.
  - destruct (spill_instruction_Ok spills m op Hslot) as (blk & Hblk & Hk & Hrest).
    { eapply Forall_lookup_1; [exact Hwf|exact Hop]. }
    exists blk. split; [done|]. split; [|done]. rewrite Hk. unfold kinds. cbn.
    destruct (op_kind op) eqn:Hkind; try reflexivity; exfalso; tauto.
Qed.

Lemma closed_framed ops :
  closed (kinds ops) ->
  exists cfe cfs bytes, frame_points ops 0 None None = Ok (Some cfe, cfs) /\ framed ops cfe cfs /\
    locals_size ops cfe = Ok bytes /\ 0 <= bytes <= TWENTY_FOUR_BITS.
Proof.
  intros Hc. destruct (closed_extend _ Hc) as (bytes & Hext & Hb).
  destruct (frame_points_Ok ops 0 None None) as (a & b & Hf & HA & HB & HA' & HB').
  { rewrite Hext. cbn. lia. }
  { pose proof (closed_shrink _ Hc). cbn. lia. }
  assert (KExtend (Constant StackPointer) bytes ∈ kinds ops) as Hin.
  { apply list_elem_of_In. assert (In (KExtend (Constant StackPointer) bytes) (List.filter is_extend (kinds ops))) as Hin
      by (rewrite Hext; by left). apply filter_In in Hin. tauto. }
  apply kinds_elem in Hin as (_ & op & [i Hi]%list_elem_of_lookup & Hk).
  assert (a = Some i) as -> by (apply (HA i op); [done|by rewrite Hk]).
  exists i, b, bytes. split; [done|]. split; [split|split; [|done]].
  - intros j o Hj. split.
    + intros Ho. specialize (HA j o Hj Ho). cbn in HA. congruence.
    + intros ->. rewrite Hi in Hj. injection Hj as <-. by rewrite Hk.
  - intros j o Hj. split; [by apply HB|]. intros ->.
    destruct HB' as [?|(j' & o' & Hj' & Ho' & He)]; [done|]. injection He as ->. congruence.
  - unfold locals_size. rewrite Hi. unfold op_kind in Hk. destruct (opcode op) as [v|c]; [|by destruct c].
    destruct v; try discriminate Hk. cbn in Hk. injection Hk as -> ->. done.
Qed.

(** Spilling a closed program gives a closed program, or the frame is too large. *)
Lemma spill_Ok ops spills :
  closed (kinds ops) -> Forall wf_op ops -> 8 * Z.of_nat (size spills) < 2 ^ 31 ->
  (exists ops', spill ops spills = Ok ops' /\ closed (kinds ops') /\ Forall wf_op ops' /\
     all_virtual_registers ops' ⊆ all_virtual_registers ops) \/
  spill ops spills = Err (Panic "Enormous stack usage for locals.").
Proof.
  intros Hc Hwf Hmax. unfold spill.
  destruct (closed_framed ops Hc) as (cfe & cfs & bytes & -> & Hframe & Hsize & Hb). next_step.
  rewrite Hsize. next_step.
  destruct (round_up_Ok bytes Hb) as (base & -> & Hmod & Hbase). next_step.
  unfold TWENTY_FOUR_BITS in *.
  destruct (slots_Ok spills base) as (m & -> & Hslot & _); [lia|done|lia|]. next_step.
  unfold as_u32, u32_add. rewrite Z.mod_small by lia.
  destruct (Z.ltb_spec (base + 8 * Z.of_nat (size spills)) (2 ^ 32)); [|lia]. next_step.
  destruct (Z.ltb_spec 16777215 (base + 8 * Z.of_nat (size spills))); [by right|left].
  set (new := base + 8 * Z.of_nat (size spills)) in *.
  assert (reachable_slots spills m) as Hreach.
  { intros r (o & Ho & Hm & Hlo & Hhi)%Hslot. exists o. split_and!; [done..|unfold TWENTY_FOUR_BITS; lia|].
    unfold TWENTY_FOUR_BITS. lia. }
  destruct (concat_traverse_Forall2 (fun '(op_idx, op) =>
    spill_at spills m cfe cfs new (8 * Z.of_nat (size spills)) op_idx op) (fun x blk =>
      kinds blk = map (resize new) (kinds [x.2]) /\ Forall wf_op blk /\
      all_virtual_registers blk ⊆ all_virtual_registers [x.2]) (imap pair ops)) as (blks & -> & Hblks).
  { intros [i op] Hin. apply elem_of_lookup_imap in Hin as (j & x & [= -> ->] & Hj).
    apply (spill_at_Ok ops); try done. unfold TWENTY_FOUR_BITS. lia. }
  exists (concat blks). split; [done|].
  assert (kinds (concat blks) = map (resize new) (kinds ops) /\ Forall wf_op (concat blks) /\
    all_virtual_registers (concat blks) ⊆ all_virtual_registers ops) as (HK & HW & HV); [|].
  { apply (spilled_blocks new) in Hblks. by rewrite imap_pair_snd in Hblks. }
  split_and!; [|done..]. rewrite HK. apply resize_closed; [unfold TWENTY_FOUR_BITS; lia|done].
Qed.
End spill_theory.

(** ** Theorems *)

(** C21. Every spilled register has a stack slot of its own: the slots are aligned
    words that start at or after the end of the locals, lie within the extended
    frame and do not overlap. *)
Theorem spill_slots_disjoint `{!HashOrder VirtualRegister} bytes spills :
  0 <= bytes <= TWENTY_FOUR_BITS -> 8 * Z.of_nat (size spills) < 2 ^ 31 ->
  exists base m, size_bytes_round_up_to_word_alignment bytes = Ok base /\
    spill_offsets (hash_iter spills) 0 base = Ok m /\
    (forall r, r ∈ spills -> exists o, m !! r = Some o /\ o mod 8 = 0 /\ bytes <= o /\
       o + 8 <= base + 8 * Z.of_nat (size spills)) /\
    (forall r s o o', m !! r = Some o -> m !! s = Some o' -> r <> s -> o + 8 <= o' \/ o' + 8 <= o).
Proof.
  intros Hb Hs. destruct (round_up_Ok bytes Hb) as (base & Hbase & Hmod & Hrange). unfold TWENTY_FOUR_BITS in Hb.
  destruct (slots_Ok spills base) as (m & Hm & Hslot & Hdisj); [lia|done|lia|].
  exists base, m. split_and!; [done..| |done]. intros r (o & Ho & ? & ? & ?)%Hslot. exists o. split_and!; [done..|lia|lia].
Qed.

Lemma spill_slots_disjoint_witness :
  exists base m, size_bytes_round_up_to_word_alignment 13 = Ok base /\
    spill_offsets (hash_iter (HashOrder := elements_order) {[Virtual "a"; Virtual "b"]}) 0 base = Ok m /\
    (forall r, r ∈ ({[Virtual "a"; Virtual "b"]} : BTreeSet) -> exists o, m !! r = Some o /\ o mod 8 = 0 /\ 13 <= o /\
       o + 8 <= base + 8 * Z.of_nat (size ({[Virtual "a"; Virtual "b"]} : BTreeSet))) /\
    (forall r s o o', m !! r = Some o -> m !! s = Some o' -> r <> s -> o + 8 <= o' \/ o' + 8 <= o).
Proof.
  apply (spill_slots_disjoint (HashOrder0 := elements_order) 13 {[Virtual "a"; Virtual "b"]}).
  - split; vm_compute; congruence.
  - vm_compute. reflexivity.
Defined.

(** Spilling keeps the shape of a program: on a closed program (every label
    that is jumped to is defined, one instruction extends the stack) [spill]
    returns a closed program over the same virtual registers, in which the
    stack-pointer operands are still special registers, or it stops because the
    frame would outgrow 24 bits. *)
Theorem spill_keeps_shape `{!HashOrder VirtualRegister} ops spills :
  closed (kinds ops) -> Forall wf_op ops -> 8 * Z.of_nat (size spills) < 2 ^ 31 ->
  (exists ops', spill ops spills = Ok ops' /\ closed (kinds ops') /\ Forall wf_op ops' /\
     all_virtual_registers ops' ⊆ all_virtual_registers ops) \/
  spill ops spills = Err (Panic "Enormous stack usage for locals.").
Proof. apply spill_Ok. Qed.

(** [locals of 16 bytes; a := 1; ret a] *)
Definition sample_frame : list Op :=
  [ mkOp (inl (CFEI (Constant StackPointer) (mkImm24 16))) "";
    mkOp (inl (MOVI (Virtual "a") (mkImm18 1))) ""; mkOp (inl (RET (Virtual "a"))) "" ].

Lemma spill_keeps_shape_witness :
  (exists ops', spill (HashOrder0 := elements_order) sample_frame {[Virtual "a"]} = Ok ops' /\
     closed (kinds ops') /\ Forall wf_op ops' /\
     all_virtual_registers ops' ⊆ all_virtual_registers sample_frame) \/
  spill (HashOrder0 := elements_order) sample_frame {[Virtual "a"]} = Err (Panic "Enormous stack usage for locals.").
Proof.
  apply (spill_keeps_shape (HashOrder0 := elements_order) sample_frame {[Virtual "a"]}).
  - change (kinds sample_frame) with [KExtend (Constant StackPointer) 16]. split.
    + intros l Hl. apply list_elem_of_singleton in Hl. discriminate Hl.
    + intros Hl. apply list_elem_of_singleton in Hl. discriminate Hl.
    + exists 16. split; [reflexivity|]. split; vm_compute; congruence.
    + cbn. lia.
  - repeat constructor.
  - vm_compute. reflexivity.
Defined.

Example spill_sample :
  spill (HashOrder0 := elements_order) sample_frame {[Virtual "a"]} = Ok
    [ mkOp (inl (CFEI (Constant StackPointer) (mkImm24 24))) " and 8 bytes for spills";
      mkOp (inl (MOVI (Virtual "a") (mkImm18 1))) "";
      mkOp (inl (SW (Constant LocalsBase) (Virtual "a") (mkImm12 2))) "[spill/refill]: spill";
      mkOp (inl (LW (Virtual "a") (Constant LocalsBase) (mkImm12 2))) "[spill/refill]: refill from spill";
      mkOp (inl (RET (Virtual "a"))) "" ].
Proof. vm_compute. reflexivity. Qed.

(** * Executing the loads and stores of spilled registers

    The instructions that [spill] inserts are run on the Fuel VM, the classes
    [FuelVm] and [FuelVmLaws]. *)

Section run.
Context {State : Type} `{FuelVmLaws State}.

(** Only the scratch register changed. *)
Record only_scratch (s s' : State) : Prop := {
  os_other x : x <> Constant Scratch -> volatile x = false -> reg_value s' x = reg_value s x;
  os_mem a : mem_word s' a = mem_word s a;
  os_accessible a : accessible s' a <-> accessible s a
}.

Lemma only_scratch_refl s : only_scratch s s.
Proof. by split. Qed.

Lemma only_scratch_step s0 s s' v :
  only_scratch s0 s -> writes s s' (Constant Scratch) v -> only_scratch s0 s'.
Proof.
  intros Ho Hw. split.
  - intros x Hx Hv. by rewrite (writes_other _ _ _ _ Hw), (os_other _ _ Ho).
  - intros a. by rewrite (writes_mem _ _ _ _ Hw), (os_mem _ _ Ho).
  - intros a. by rewrite (writes_accessible _ _ _ _ Hw), (os_accessible _ _ Ho).
Qed.

Lemma add_base_run s0 s n :
  let lb := reg_value s0 (Constant LocalsBase) in
  only_scratch s0 s -> has_gas s (S n) -> reg_value s (Constant Scratch) + lb < 2 ^ 64 ->
  exists s', vm_exec (ADD (Constant Scratch) (Constant Scratch) (Constant LocalsBase)) s = Some s' /\
    only_scratch s0 s' /\ reg_value s' (Constant Scratch) = reg_value s (Constant Scratch) + lb /\ has_gas s' n.
Proof.
  intros lb Ho Hgas Hmax. subst lb.
  destruct (exec_ADD s n (Constant Scratch) (Constant Scratch) (Constant LocalsBase) Hgas eq_refl)
    as (s' & He & Hw & Hg).
  { by rewrite (os_other _ _ Ho (Constant LocalsBase)). }
  exists s'. split; [done|]. split; [by eapply only_scratch_step|]. split; [|done].
  by rewrite (writes_reg _ _ _ _ Hw), (os_other _ _ Ho (Constant LocalsBase)).
Qed.

(** The base register and the immediate give the address of the slot, which is
    at [o] bytes from the base of the locals. *)
Lemma slot_address_run o n s :
  let lb := reg_value s (Constant LocalsBase) in
  0 <= o <= TWENTY_FOUR_BITS -> o mod 8 = 0 -> 0 <= lb -> lb + o < 2 ^ 64 ->
  exists before base imm, slot_address o = Ok (before, (base, imm)) /\
    (has_gas s (length before + n) ->
     exists s', run before s = Some s' /\ only_scratch s s' /\
       reg_value s' base + 8 * value12 imm = lb + o /\ has_gas s' n).
Proof.
  intros lb Ho Hmod Hlb Hmax. pose proof (Z.div_mod o 8 ltac:(lia)) as Hdiv. rewrite Hmod in Hdiv.
  destruct (slot_address_cases o Ho Hmod) as [[-> Hb]|[[-> Hb]|(up & lo & -> & Hsum & Hup & Hlo)]];
    eexists _, _, _; (split; [reflexivity|]); intros Hgas.
  - exists s. split_and!; [done|apply only_scratch_refl|cbn; fold lb; lia|done].
  - destruct (exec_MOVI s (S n) (Constant Scratch) (mkImm18 o) Hgas eq_refl) as (s1 & E1 & W1 & G1).
    pose proof (only_scratch_step s s s1 _ (only_scratch_refl s) W1) as O1.
    pose proof (writes_reg _ _ _ _ W1) as R1. cbn in R1.
    destruct (add_base_run s s1 n O1 G1) as (s2 & E2 & O2 & R2 & G2); [fold lb; lia|].
    exists s2. cbn [run spill_op opcode]. rewrite E1. cbn [mbind option_bind]. rewrite E2.
    split_and!; [done..|cbn; fold lb in R2; lia|done].
  - destruct (exec_MOVI s (S (S n)) (Constant Scratch) (mkImm18 up) Hgas eq_refl) as (s1 & E1 & W1 & G1).
    pose proof (only_scratch_step s s s1 _ (only_scratch_refl s) W1) as O1.
    destruct (exec_SLLI s1 (S n) (Constant Scratch) (Constant Scratch) (mkImm12 12) G1 eq_refl) as (s2 & E2 & W2 & G2).
    pose proof (only_scratch_step s s1 s2 _ O1 W2) as O2. pose proof (writes_reg _ _ _ _ W2) as R2.
    rewrite (writes_reg _ _ _ _ W1) in R2. cbn [value12 value18] in R2.
    rewrite Z.shiftl_mul_pow2, Z.mod_small in R2 by lia.
    destruct (add_base_run s s2 n O2 G2) as (s3 & E3 & O3 & R3 & G3); [fold lb; lia|].
    exists s3. cbn [run spill_op opcode]. rewrite E1. cbn [mbind option_bind]. rewrite E2. cbn [mbind option_bind].
    rewrite E3. split_and!; [done..|cbn [value12]; fold lb in R3; lia|done].
Qed.
End run.

(** ** Theorems *)

(** A refill loads the spilled register: the instructions that [spill]
    inserts before a use leave in the register the word of its slot, at [o]
    bytes from the base of the locals; memory and every other register keep
    their values, except for the scratch register and the ones that the VM
    updates itself. *)
Theorem refill_loads_slot {State} `{FuelVmLaws State} offsets r o (s : State) :
  let lb := reg_value s (Constant LocalsBase) in
  offsets !! r = Some o -> 0 <= o <= TWENTY_FOUR_BITS -> o mod 8 = 0 -> is_virtual r = true ->
  0 <= lb -> lb + o < 2 ^ 64 -> accessible s (lb + o) ->
  exists os, refill offsets r = Ok os /\
    (has_gas s (length os) ->
     exists s', run os s = Some s' /\ reg_value s' r = mem_word s (lb + o) /\
       (forall a, mem_word s' a = mem_word s a) /\
       (forall x, x <> r -> x <> Constant Scratch -> volatile x = false -> reg_value s' x = reg_value s x)).
Proof.
  intros lb Hr Ho Hmod Hv Hlb Hmax Hacc. unfold refill, offset_of. rewrite Hr. next_step.
  destruct (slot_address_run o 1 s Ho Hmod Hlb Hmax) as (before & base & imm & -> & Hrun). next_step.
  eexists. split; [done|]. rewrite length_app. intros Hgas.
  destruct (Hrun Hgas) as (s1 & E1 & O1 & A1 & G1). fold lb in A1.
  destruct (exec_LW s1 0 r base imm G1) as (s2 & E2 & W2 & _).
  { by destruct r. }
  { by rewrite A1, (os_accessible _ _ O1). }
  exists s2. rewrite run_app, E1. cbn [mbind option_bind run spill_op opcode]. rewrite E2. split_and!.
  - done.
  - by rewrite (writes_reg _ _ _ _ W2), A1, (os_mem _ _ O1).
  - intros a. by rewrite (writes_mem _ _ _ _ W2), (os_mem _ _ O1).
  - intros x Hx Hsc Hvol. by rewrite (writes_other _ _ _ _ W2), (os_other _ _ O1).
Qed.

(** A store saves the spilled register: the instructions that [spill] inserts
    after a definition write the register to its slot; the words that do not
    overlap it and all registers keep their values, except for the scratch
    register and the ones that the VM updates itself. *)
Theorem store_saves_slot {State} `{FuelVmLaws State} offsets r o (s : State) :
  let lb := reg_value s (Constant LocalsBase) in
  offsets !! r = Some o -> 0 <= o <= TWENTY_FOUR_BITS -> o mod 8 = 0 -> is_virtual r = true ->
  0 <= lb -> lb + o < 2 ^ 64 -> accessible s (lb + o) ->
  exists os, store offsets r = Ok os /\
    (has_gas s (length os) ->
     exists s', run os s = Some s' /\ mem_word s' (lb + o) = reg_value s r /\
       (forall a, a + 8 <= lb + o \/ lb + o + 8 <= a -> mem_word s' a = mem_word s a) /\
       (forall x, x <> Constant Scratch -> volatile x = false -> reg_value s' x = reg_value s x)).
Proof.
  intros lb Hr Ho Hmod Hv Hlb Hmax Hacc. unfold store, offset_of. rewrite Hr. next_step.
  destruct (slot_address_run o 1 s Ho Hmod Hlb Hmax) as (before & base & imm & -> & Hrun). next_step.
  eexists. split; [done|]. rewrite length_app. intros Hgas.
  destruct (Hrun Hgas) as (s1 & E1 & O1 & A1 & G1). fold lb in A1.
  destruct (exec_SW s1 0 base r imm G1) as (s2 & E2 & S2 & _).
  { by rewrite A1, (os_accessible _ _ O1). }
  rewrite A1 in S2. exists s2. rewrite run_app, E1. cbn [mbind option_bind run spill_op opcode]. rewrite E2. split_and!.
  - done.
  - rewrite (stores_word _ _ _ _ S2). apply (os_other _ _ O1); by destruct r.
  - intros a Ha. by rewrite (stores_other _ _ _ _ S2), (os_mem _ _ O1).
  - intros x Hsc Hvol. by rewrite (stores_reg _ _ _ _ S2), (os_other _ _ O1).
Qed.

(** A slot that needs the upper and the lower part of the offset *)
Definition sample_offsets : gmap VirtualRegister Z := {[ Virtual "a" := 1000008 ]}.
Definition sample_state : ToyVm.state :=
  ToyVm.mkState (fun r => if decide (r = Constant LocalsBase) then 100000 else 7) (fun a => a * 2) 10.

Lemma refill_loads_slot_witness :
  exists os, refill sample_offsets (Virtual "a") = Ok os /\
    ((length os <= 10)%nat ->
     exists s', run (H := toy_vm) os sample_state = Some s' /\ ToyVm.regs s' (Virtual "a") = 2200016 /\
       (forall a, ToyVm.mem s' a = a * 2) /\
       (forall x, x <> Virtual "a" -> x <> Constant Scratch -> volatile x = false ->
          ToyVm.regs s' x = ToyVm.regs sample_state x)).
Proof.
  apply (@refill_loads_slot ToyVm.state toy_vm toy_vm_laws sample_offsets (Virtual "a") 1000008 sample_state);
    try reflexivity; try exact I; try split; vm_compute; congruence.
Defined.

Lemma store_saves_slot_witness :
  exists os, store sample_offsets (Virtual "a") = Ok os /\
    ((length os <= 10)%nat ->
     exists s', run (H := toy_vm) os sample_state = Some s' /\ ToyVm.mem s' 1100008 = 7 /\
       (forall a, a + 8 <= 1100008 \/ 1100008 + 8 <= a -> ToyVm.mem s' a = a * 2) /\
       (forall x, x <> Constant Scratch -> volatile x = false -> ToyVm.regs s' x = ToyVm.regs sample_state x)).
Proof.
  apply (@store_saves_slot ToyVm.state toy_vm toy_vm_laws sample_offsets (Virtual "a") 1000008 sample_state);
    try reflexivity; try exact I; try split; vm_compute; congruence.
Defined.
