(* ===== verification/AsmAlloc.v ===== *)
(** * The register allocator

    Models [allocate_registers] of [asm_generation/fuel/register_allocator.rs],
    which composes the liveness analysis, the interference graph, coalescing,
    coloring, spilling and the assignment, and proves that the allocation
    respects liveness. *)

From stdpp Require Import pretty.
From S2P Require Import Prelude AsmRegister AsmVirtualOp AsmOp AsmLiveness AsmGraph AsmInterference AsmCoalesce AsmColoring AsmColorTheory AsmAssign AsmSpill AsmSpillTheory.
Local Open Scope nat_scope.

Section allocator.
Context {G : Type} `{StableGraph G} `{!HashOrder NodeIndex} `{!HashOrder VirtualRegister}.

(** [try_color]: the program without the coalesced moves, the graph, and the
    stack ([Success]) or the registers to spill ([SpillsNeeded]) *)
Definition try_color (ops : list Op) : Result (list Op * G * (list NodeIndex + BTreeSet)) :=
  live_out ← liveness_analysis ops true;
  graph ← create_interference_graph ops live_out;
  let '(interference_graph, reg_to_node_ix) := graph in
  coalesced ← coalesce_registers ops live_out interference_graph reg_to_node_ix;
  let '(updated_ops, live_out, interference_graph, _) := coalesced in
  colouring ← color_interference_graph interference_graph updated_ops live_out;
  Ok (updated_ops, colouring.1, colouring.2).

(** The comment of the first label of a function *)
Definition function_name (ops : list Op) : string :=
  match List.find (fun op => match opcode op with inr (CLabel _) => true | _ => false end) ops with
  | Some op => comment op
  | None => "unknown"
  end.

Definition unresolved (ops : list Op) : CompileError :=
  Internal ("The allocator cannot resolve a register mapping for function " +:+ function_name ops
    +:+ ". Using #[inline(never)] on some functions may help.").

(** The loop, with the number of rounds of spilling that are left *)
Fixpoint color_with_spills (tries : nat) (ops : list Op)
    : Result (list Op * G * list NodeIndex) :=
  colouring ← try_color ops;
  match colouring with
  | (updated_ops, g, inl colouring_stack) => Ok (updated_ops, g, colouring_stack)
  | (updated_ops, _, inr spills) =>
      match tries with
      | 0 => Err (unresolved updated_ops)
      | S tries' => spilled ← spill updated_ops spills; color_with_spills tries' spilled
      end
  end.

Definition allocate_op (pool : RegisterPool) (op : Op) : Result AllocatedAbstractOp :=
  o ← Op_allocate_registers pool op; Ok (mkAllocatedOp o (comment op)).

Definition allocate_registers (ops : list Op) : Result (list AllocatedAbstractOp) :=
  colored ← color_with_spills 4 ops;
  let '(updated_ops, interference_graph, stack) := colored in
  pool ← assign_registers interference_graph stack;
  traverse (allocate_op pool) updated_ops.
End allocator.

(** ** One round *)

Section round.
Context {G : Type} `{StableGraphLaws G} `{!HashOrder NodeIndex} `{!HashOrder VirtualRegister}.

(** A pool is a correct assignment for a program, of which the registers are
    first renamed with [rep]. *)
Record correct_pool (ops : list Op) (live_out : list BTreeSet)
    (rep : VirtualRegister -> VirtualRegister) (pool : RegisterPool) : Prop := {
  cp_total r : r ∈ all_virtual_registers ops ->
    exists z, get_register pool (rep r) = Some (Allocated z) /\ (0 <= z < NUM_ALLOCATABLE_REGISTERS)%Z;
  cp_proper a b : interferes ops live_out a b -> a ∈ all_virtual_registers ops ->
    b ∈ all_virtual_registers ops -> get_register pool (rep a) <> get_register pool (rep b)
}.

Lemma try_color_Ok ops lo :
  Forall wf_op ops -> liveness_analysis ops true = Ok lo ->
  exists f kept ops' g res, let rep := rename (reg_map_get f) in
    try_color (G := G) ops = Ok (ops', g, res) /\ dropped rep ops kept /\
    Forall2 (fun op op' => update_register (reg_map_get f) op = Ok op') kept ops' /\
    (forall r s, reg_map_get f r = Some s -> is_virtual r = true) /\
    (forall r, r ∈ all_virtual_registers ops -> rep r ∈ all_virtual_registers ops) /\
    match res with
    | inl stack => exists pool, assign_registers g stack = Ok pool /\ correct_pool ops lo rep pool
    | inr spills => spills <> ∅ /\ spills ⊆ all_virtual_registers ops
    end.
Proof.
  intros Hwf Hlive. unfold try_color. rewrite Hlive. next_step.
  destruct (liveness_exact_Ok ops true lo Hlive) as [Hlen _].
  destruct (create_interference_graph_is_Ok (G := G) ops lo Hlen) as [[g m] Hgraph]. rewrite Hgraph.
  next_step. destruct (create_interference_graph_Ok ops lo g m Hgraph) as (Hg & Hdom & Hedge & Htrue).
  destruct (coalesce_registers_Ok ops lo g m) as
    (f & kept & ops' & lo' & g' & m' & -> & Hlen' & Hdrop & Hupd & Hvirt & Hnode & Huniq & Hback & Hloop & Htrue' & Hpres);
    [done| |done|done|done|done|].
  { intros a ((i & op & o & _ & _ & _ & Hne & _) & _)%Hedge. done. }
  next_step.
  assert (forall ix r, node_weight g' ix = Some r -> is_virtual r = true) as Hnv.
  { intros ix r Hr%Hback%Hdom%all_virtual_registers_elem. naive_solver. }
  destruct (color_assign_Ok g' ops' lo' Htrue' Hloop Huniq Hnv Hlen') as (g'' & res & -> & Hres).
  next_step. eexists f, kept, ops', g'', res. cbn zeta. split_and!; [done..| |].
  { intros r [ix Hix]%Hdom%Hnode. apply Hdom. by eapply Hback. }
  destruct res as [st|spills]; [|destruct Hres as [Hne Hsp]; split; [done|]; by intros r [n Hn%Hback%Hdom]%Hsp].
  destruct Hres as (pool & Hpool & Htot & Hprop). exists pool. split; [done|]. split.
  - intros r [ix Hix]%Hdom%Hnode. by apply (Htot ix).
  - intros a b Hi Ha Hb. destruct (Hpres a b) as (ia & ib & Hia & Hib & Hab); [by apply Hedge|].
    by apply (Hprop ia ib).
Qed.
End round.

(** ** The rounds of spilling *)

Section rounds.
Context {G : Type} `{StableGraphLaws G} `{!HashOrder NodeIndex} `{!HashOrder VirtualRegister}.

(** The program after some rounds of coalescing and spilling *)
Inductive spilled_to : list Op -> list Op -> Prop :=
  | spilled_refl ops : spilled_to ops ops
  | spilled_step ops ops' g spills ops1 p :
      try_color (G := G) ops = Ok (ops', g, inr spills) -> spill ops' spills = Ok ops1 ->
      spilled_to ops1 p -> spilled_to ops p.

(** The programs that the allocator accepts: closed, with fewer than [2^28]
    virtual registers, so that the sizes of the frame fit in a [u32] *)
Record allocatable (ops : list Op) : Prop := {
  al_closed : closed (kinds ops);
  al_wf : Forall wf_op ops;
  al_size : (8 * Z.of_nat (size (all_virtual_registers ops)) < 2 ^ 31)%Z
}.

Lemma dropped_elem rep ops kept op : dropped rep ops kept -> op ∈ kept -> op ∈ ops.
Proof.
  induction 1 as [|os rs o _ IH|os rs o x y _ IH _ _]; [done|..]; rewrite ?elem_of_app in *; tauto.
Qed.

(** The registers of a renamed program *)
Lemma renamed_registers f ops kept ops' r :
  (forall r s, reg_map_get f r = Some s -> is_virtual r = true) ->
  dropped (rename (reg_map_get f)) ops kept -> Forall wf_op ops ->
  Forall2 (fun op op' => update_register (reg_map_get f) op = Ok op') kept ops' ->
  r ∈ all_virtual_registers ops' -> exists s, s ∈ all_virtual_registers ops /\ r = rename (reg_map_get f) s.
Proof.
  intros Hvirt Hdrop Hwf Hupd (i & op' & Hi & Hr & Hv)%all_virtual_registers_elem.
  destruct (Forall2_lookup_r _ _ _ _ _ Hupd Hi) as (op & Hop%list_elem_of_lookup_2 & Hu).
  pose proof (dropped_elem _ _ _ _ Hdrop Hop) as Hin.
  assert (wf_op op) as Hwo by (by eapply Forall_forall in Hwf).
  destruct (update_register_Ok _ Hvirt op Hwo) as (op1 & Hop1 & Hus & Hds). rewrite Hu in Hop1.
  injection Hop1 as <-. rewrite registers_use_def_Ok, Hus, Hds, <- set_map_union_L, <- registers_use_def_Ok in Hr.
  apply elem_of_map in Hr as (s & -> & Hs).
  destruct (is_virtual s) eqn:Hsv; [|rewrite (rename_constant _ Hvirt) in Hv by done; congruence].
  exists s. split; [|done]. apply all_virtual_registers_elem.
  apply list_elem_of_lookup in Hin as [j Hj]. by exists j, op.
Qed.

(** Coloring an allocatable program succeeds, and the coalesced program is
    allocatable. *)
Lemma try_color_allocatable ops :
  allocatable ops ->
  exists ops' g res, try_color (G := G) ops = Ok (ops', g, res) /\ allocatable ops' /\
    match res with
    | inl stack => exists pool, assign_registers g stack = Ok pool /\ is_Ok (traverse (allocate_op pool) ops')
    | inr spills => (8 * Z.of_nat (size spills) < 2 ^ 31)%Z
    end.
Proof.
  intros [Hc Hwf Hsize]. destruct (closed_liveness ops true Hc) as [lo Hlo].
  destruct (try_color_Ok (G := G) ops lo Hwf Hlo) as (f & kept & ops' & g & res & Htry & Hdrop & Hupd & Hvirt & Hrep & Hres).
  pose proof (fun r => renamed_registers f ops kept ops' r Hvirt Hdrop Hwf Hupd) as Hregs.
  assert (all_virtual_registers ops' ⊆ all_virtual_registers ops) as Hsub.
  { intros r (s & Hs & ->)%Hregs. by apply Hrep. }
  destruct (dropped_kinds _ _ _ Hdrop) as [Hk1 Hw1]. destruct (update_register_kinds _ _ _ Hupd) as [Hk2 Hw2].
  exists ops', g, res. split; [done|]. split.
  - split; [by rewrite Hk2, Hk1|auto|]. apply subseteq_size in Hsub. lia.
  - destruct res as [st|spills].
    + destruct Hres as (pool & Hpool & Hcorrect). exists pool. split; [done|]. apply traverse_is_Ok.
      intros op' [i Hi]%list_elem_of_lookup. unfold allocate_op.
      destruct (Op_allocate_Ok pool (fun r => default (Allocated 0) (allocate_register pool r)) op') as [o ->];
        [|by eexists].
      intros r Hr. destruct r as [v|c]; [|done]. cbn.
      destruct (Hregs (Virtual v)) as (x & Hx & ->).
      { apply all_virtual_registers_elem. by exists i, op'. }
      by destruct (cp_total _ _ _ _ Hcorrect x Hx) as (z & -> & _).
    + destruct Hres as [_ Hsp]. apply subseteq_size in Hsp. lia.
Qed.

Lemma color_with_spills_outcome n ops :
  allocatable ops ->
  (exists ops' g st p, color_with_spills (G := G) n ops = Ok (ops', g, st) /\ spilled_to ops p /\
     allocatable p /\ try_color p = Ok (ops', g, inl st)) \/
  (exists p, color_with_spills (G := G) n ops = Err (unresolved p)) \/
  color_with_spills (G := G) n ops = Err (Panic "Enormous stack usage for locals.").
Proof.
  revert ops. induction n as [|n IH]; intros ops Ha; cbn [color_with_spills];
    destruct (try_color_allocatable ops Ha) as (ops' & g & [st|spills] & Htry & Ha' & Hres); rewrite Htry;
    next_step.
  - left. exists ops', g, st, ops. split_and!; [done|constructor|done..].
  - right. left. by eexists.
  - left. exists ops', g, st, ops. split_and!; [done|constructor|done..].
  - destruct (spill_Ok ops' spills (al_closed _ Ha') (al_wf _ Ha') Hres) as [(ops1 & Hsp & Hc & Hw & Hsub)|Hsp];
      rewrite Hsp; next_step; [|by right; right].
    destruct (IH ops1) as [(o & g1 & st & p & Heq & Hto & Hp & Hc1)|[Herr|Herr]]; [|left|by right; left..|by right; right].
    + split; [done..|]. apply subseteq_size in Hsub. pose proof (al_size _ Ha'). lia.
    + exists o, g1, st, p. split_and!; [done|by eapply spilled_step|done..].
Qed.

Lemma live_after_virtual ops i r : live_after ops true i r -> r ∈ all_virtual_registers ops.
Proof.
  induction 1 as [i s r _ (op & Hop & Hr)|]; [|done]. apply all_virtual_registers_elem. exists s, op.
  split; [done|]. cbn in Hr. apply retain_virtual_elem in Hr as [Hr Hv].
  rewrite registers_use_def_Ok. split; [set_solver|done].
Qed.
End rounds.

(** ** Theorems *)

Section theorems.
Context {G : Type} `{StableGraphLaws G} `{!HashOrder NodeIndex} `{!HashOrder VirtualRegister}.

(** C3. The allocator returns: on every closed program with one stack frame it
    allocates registers, reports that five rounds did not suffice for a
    function, or stops because the frame outgrows 24 bits.  In particular the
    loops of the analysis, of the coloring and of the coalescing end, none of
    the other panics of the allocator happens, and the assignment that follows
    a coloring without spills never lacks a register. *)
Theorem allocate_registers_outcome ops :
  allocatable ops ->
  is_Ok (allocate_registers (G := G) ops) \/
  (exists p, allocate_registers (G := G) ops = Err (unresolved p)) \/
  allocate_registers (G := G) ops = Err (Panic "Enormous stack usage for locals.").
Proof.
  intros Ha. unfold allocate_registers.
  destruct (color_with_spills_outcome (G := G) 4 ops Ha) as [(ops' & g & st & p & -> & _ & Hp & Htry)|[[p ->]| ->]];
    [left|right; left; by eexists|by right; right].
  next_step. destruct (try_color_allocatable (G := G) p Hp) as (o & g1 & res & Htry1 & _ & Hres).
  rewrite Htry in Htry1. injection Htry1 as <- <- <-. destruct Hres as (pool & -> & Hok). done.
Qed.

(** C2. The allocation respects liveness.  The allocated program is the image of
    the final program [p], which is the given one after some rounds of
    spilling: MOVE instructions between registers of one class are dropped,
    the registers are renamed to the representative [rename f r] of their
    class, and every representative gets a register of the pool.  When an
    instruction of [p] writes [a] and [b] is live after it, [a] and [b] get
    different registers, except for a MOVE from [b] to [a]. *)
Theorem allocation_respects_liveness ops out :
  allocatable ops -> allocate_registers (G := G) ops = Ok out ->
  exists p f kept p' pool, let rep := rename (reg_map_get f) in
    spilled_to (G := G) ops p /\ dropped rep p kept /\
    Forall2 (fun op op' => update_register (reg_map_get f) op = Ok op') kept p' /\
    traverse (allocate_op pool) p' = Ok out /\
    (forall r, r ∈ all_virtual_registers p ->
       exists z, get_register pool (rep r) = Some (Allocated z) /\ (0 <= z < NUM_ALLOCATABLE_REGISTERS)%Z) /\
    (forall i op a b, p !! i = Some op -> a ∈ def_registers op -> is_virtual a = true ->
       live_after p true i b -> a <> b -> opcode op <> inl (MOVE a b) ->
       get_register pool (rep a) <> get_register pool (rep b)).
Proof.
  intros Ha Hout. unfold allocate_registers in Hout.
  destruct (color_with_spills_outcome (G := G) 4 ops Ha) as
    [(ops' & g & st & p & Hcol & Hto & Hp & Htry)|[[p Hcol]|Hcol]]; rewrite Hcol in Hout; [|done..].
  next_step in Hout. destruct (closed_liveness p true (al_closed _ Hp)) as [lo Hlo].
  destruct (try_color_Ok (G := G) p lo (al_wf _ Hp) Hlo) as
    (f & kept & ops1 & g1 & res & Htry1 & Hdrop & Hupd & _ & _ & Hres).
  rewrite Htry in Htry1. injection Htry1 as <- <- <-. destruct Hres as (pool & Hpool & Hcorrect).
  rewrite Hpool in Hout. next_step in Hout. exists p, f, kept, ops', pool. cbn zeta.
  split_and!; [done..|apply Hcorrect|]. intros i op a b Hop Hdef Hv Hlive Hne Hmove.
  destruct (liveness_exact_Ok p true lo Hlo) as [Hlen Hexact].
  destruct (lookup_lt_is_Some_2 lo i) as [o Ho]; [rewrite Hlen; by eapply lookup_lt_Some|].
  apply (cp_proper _ _ _ _ Hcorrect).
  - exists i, op, o. split_and!; [done..|]. split; [by apply (Hexact i o b Ho)|]. split; [done|].
    destruct (opcode op) as [v|c] eqn:Hopc; [|done]. unfold def_registers in Hdef. rewrite Hopc in Hdef.
    destruct v; try (unfold def_registers; by rewrite Hopc). cbn in Hdef.
    assert (a = r1) as -> by set_solver. split; [done|]. congruence.
  - apply all_virtual_registers_elem. exists i, op. rewrite registers_use_def_Ok. split; [done|]. split; [set_solver|done].
  - by eapply live_after_virtual.
Qed.
End theorems.

(** ** Witnesses *)

Section witnesses.
#[local] Existing Instance elements_order.

(** [f: x := 1; y := x; z := y + 1; jnz z f; ret y] *)
Definition sample_program : list Op :=
  [ mkOp (inr (CLabel 0)) "f";
    mkOp (inl (CFEI (Constant StackPointer) (mkImm24 16))) "";
    mkOp (inl (MOVI (Virtual "x") (mkImm18 1))) "";
    mkOp (inl (MOVE (Virtual "y") (Virtual "x"))) "";
    mkOp (inl (ADD (Virtual "z") (Virtual "y") (Constant One))) "";
    mkOp (inr (JumpIfNotZero (Virtual "z") 0)) "";
    mkOp (inl (RET (Virtual "y"))) "" ].

Definition sample_allocated : list AllocatedAbstractOp :=
  [ mkAllocatedOp (inr (CLabel 0)) "f";
    mkAllocatedOp (inl (AllocatedOpcode.CFEI (mkImm24 16))) "";
    mkAllocatedOp (inl (AllocatedOpcode.MOVI (Allocated 0) (mkImm18 1))) "";
    mkAllocatedOp (inl (AllocatedOpcode.ADD (Allocated 1) (Allocated 0) (AllocatedConstant One))) "";
    mkAllocatedOp (inr (JumpIfNotZero (Allocated 1) 0)) "";
    mkAllocatedOp (inl (AllocatedOpcode.RET (Allocated 0))) "" ].

Lemma sample_allocates : allocate_registers (G := ListGraph.graph) sample_program = Ok sample_allocated.
Proof. vm_compute. reflexivity. Qed.

Lemma sample_allocatable : allocatable sample_program.
Proof.
  split.
  - change (kinds sample_program) with [KLabel 0; KExtend (Constant StackPointer) 16; KJump 0]. split.
    + intros l Hl. repeat (apply elem_of_cons in Hl as [Hl|Hl]); try discriminate Hl; [|by apply elem_of_nil in Hl].
      injection Hl as ->. left.
    + intros Hl. repeat (apply elem_of_cons in Hl as [Hl|Hl]; try discriminate Hl). by apply elem_of_nil in Hl.
    + exists 16%Z. split; [reflexivity|]. split; vm_compute; congruence.
    + cbn. lia.
  - repeat constructor.
  - vm_compute. reflexivity.
Qed.

Lemma allocate_registers_outcome_witness :
  is_Ok (allocate_registers (G := ListGraph.graph) sample_program) \/
  (exists p, allocate_registers (G := ListGraph.graph) sample_program = Err (unresolved p)) \/
  allocate_registers (G := ListGraph.graph) sample_program = Err (Panic "Enormous stack usage for locals.").
Proof. exact (allocate_registers_outcome sample_program sample_allocatable). Defined.

Lemma allocation_respects_liveness_witness :
  exists p f kept p' pool, let rep := rename (reg_map_get f) in
    spilled_to (G := ListGraph.graph) sample_program p /\ dropped rep p kept /\
    Forall2 (fun op op' => update_register (reg_map_get f) op = Ok op') kept p' /\
    traverse (allocate_op pool) p' = Ok sample_allocated /\
    (forall r, r ∈ all_virtual_registers p ->
       exists z, get_register pool (rep r) = Some (Allocated z) /\ (0 <= z < NUM_ALLOCATABLE_REGISTERS)%Z) /\
    (forall i op a b, p !! i = Some op -> a ∈ def_registers op -> is_virtual a = true ->
       live_after p true i b -> a <> b -> opcode op <> inl (MOVE a b) ->
       get_register pool (rep a) <> get_register pool (rep b)).
Proof. exact (allocation_respects_liveness sample_program sample_allocated sample_allocatable sample_allocates). Defined.

(** Forty registers that are live at once: the first round spills. *)
Definition crowded_register (i : nat) : VirtualRegister := Virtual ("v" +:+ pretty i).
Definition crowded_program : list Op :=
  [ mkOp (inr (CLabel 0)) "f"; mkOp (inl (CFEI (Constant StackPointer) (mkImm24 16))) "" ] ++
  map (fun i => mkOp (inl (MOVI (crowded_register i) (mkImm18 1))) "") (seq 0 40) ++
  map (fun i => mkOp (inl (RET (crowded_register i))) "") (seq 0 40).

Example crowded_program_spills :
  length <$> allocate_registers (G := ListGraph.graph) crowded_program = Ok 162.
Proof. vm_cast_no_check (eq_refl (Ok (A := nat) 162)). Qed.
End witnesses.
