(* ===== verification/AsmProgram.v ===== *)
(** * Programs

    Models how the passes are composed: [AbstractProgram], [AllocatedProgram] and
    [FinalProgram] of [asm_generation/fuel/programs], the register sequencer
    ([register_sequencer.rs]), the globals ([globals_section.rs]), the checks of
    final programs ([checks.rs], [check_invalid_opcodes] of [finalized_asm.rs]) and
    [set_bytecode_configurables_offset] of [lib.rs].  References to declarations of
    tests are left out. *)

From S2P Require Import Prelude AsmRegister AsmVirtualOp AsmOp AsmData AsmLiveness AsmAbstract AsmIndexing AsmOptimize.
From stdpp Require Import pretty.
From S2P Require Import AsmGraph AsmInterference AsmColoring AsmAlloc AsmLabels AsmBytecode.
Local Open Scope Z_scope.

Import AllocatedOpcode.

(** ** [RegisterSequencer] *)

Record RegisterSequencer : Type := mkSequencer { next_register : nat; next_jump_label : nat }.

Definition RegisterSequencer_new : RegisterSequencer := mkSequencer 0 0.

Definition RegisterSequencer_next (self : RegisterSequencer) : RegisterSequencer * VirtualRegister :=
  (mkSequencer (S (next_register self)) (next_jump_label self), Virtual (pretty (next_register self))).

Definition get_label (self : RegisterSequencer) : RegisterSequencer * Label :=
  (mkSequencer (next_register self) (S (next_jump_label self)), next_jump_label self).

(** ** [GlobalsSection] *)

Record GlobalContent : Type := mkGlobal { global_name : string; size_in_bytes : Z; offset_in_bytes : Z }.

Record GlobalsSection : Type := mkGlobals { global_entries : list GlobalContent; current_offset_in_bytes : Z }.

Definition GlobalsSection_insert (self : GlobalsSection) (name : string) (size : Z) : GlobalsSection :=
  mkGlobals (global_entries self ++ [mkGlobal name size (current_offset_in_bytes self)])
    (current_offset_in_bytes self + size).

Definition len_in_bytes (self : GlobalsSection) : Z := foldl (fun n x => n + size_in_bytes x) 0 (global_entries self).

Definition get_by_name (self : GlobalsSection) (name : string) : option GlobalContent :=
  List.find (fun x => bool_decide (global_name x = name)) (global_entries self).

(** ** [AbstractProgram] *)

Inductive ProgramKind : Type := Contract | Library | Predicate | Script.

Record AbstractEntry : Type := mkAbstractEntry {
  selector : option (list Z);
  entry_label : Label;
  entry_ops : list Op;
  fn_name : string
}.

Record AbstractProgram : Type := mkAbstract {
  kind_of : ProgramKind;
  abstract_data : DataSection;
  globals_section : GlobalsSection;
  before_entries : list Op;
  entries : list AbstractEntry;
  non_entries : list (list Op);
  reg_seqr : RegisterSequencer;
  new_encoding : bool
}.

(** The entry points of a program: selector, label or offset, name *)
Record Entrypoint (A : Type) : Type := mkEntrypoint { ep_selector : option (list Z); ep_target : A; ep_name : string }.
Arguments mkEntrypoint {A}. Arguments ep_selector {A}. Arguments ep_target {A}. Arguments ep_name {A}.

Record AllocatedProgram : Type := mkAllocatedProgram {
  allocated_kind : ProgramKind;
  allocated_data : DataSection;
  prologue : list AllocatedAbstractOp;
  functions : list (list AllocatedAbstractOp);
  allocated_entries : list (Entrypoint Label)
}.

Definition is_empty (self : AbstractProgram) : bool :=
  match non_entries self, entries self, iter_all_entries (abstract_data self) with [], [], [] => true | _, _, _ => false end.

Definition data_start : AllocatedRegister := AllocatedConstant DataSectionStart.

(** [build_prologue] *)
Definition prologue_ops (label : Label) : list AllocatedAbstractOp :=
  [mkAllocatedOp (inl (MOVE scratch (AllocatedConstant ProgramCounter))) "";
   mkAllocatedOp (inr (Jump label)) "";
   mkAllocatedOp (inr CDataSectionOffsetPlaceholder) "data section offset";
   mkAllocatedOp (inr CConfigurablesOffsetPlaceholder) "configurables offset";
   mkAllocatedOp (inr (CLabel label)) "end of configurables offset";
   mkAllocatedOp (inl (LW data_start scratch (mkImm12 1))) "";
   mkAllocatedOp (inl (ADD data_start data_start scratch)) ""].

Definition build_prologue (self : AbstractProgram) : AbstractProgram * list AllocatedAbstractOp :=
  let '(seqr, label) := get_label (reg_seqr self) in
  (mkAbstract (kind_of self) (abstract_data self) (globals_section self) (before_entries self) (entries self)
     (non_entries self) seqr (new_encoding self), prologue_ops label).

Definition globals_allocation (self : AbstractProgram) : Result (list AllocatedAbstractOp) :=
  imm ← Imm24_new_unchecked (len_in_bytes (globals_section self)) "length (bytes) must fit in 24 bits";
  Ok [mkAllocatedOp (inl (CFEI imm)) "allocate stack space for globals"].

Definition jump_to_entry (self : AbstractProgram) : Result (list AllocatedAbstractOp) :=
  match List.find (fun x => bool_decide (fn_name x = "__entry"%string)) (entries self) with
  | Some entry => Ok [mkAllocatedOp (inr (Jump (entry_label entry))) "jump to ABI function selector"]
  | None => Err (Panic "called `Option::unwrap()` on a `None` value")
  end.

(** [u32::from_be_bytes] *)
Definition from_be_bytes (bytes : list Z) : Z := foldl (fun n b => 256 * n + b) 0 bytes.

(** The case of the contract switch for an entry *)
Definition switch_case (data_section : DataSection) (entry : AbstractEntry)
    : DataSection * list AllocatedAbstractOp :=
  match selector entry with
  | None => (data_section, [])
  | Some sel =>
      let '(data_section, data_label) :=
        insert_data_value data_section (new_word (from_be_bytes sel) NamedNonConfigurable None) in
      (data_section,
       [mkAllocatedOp (inl (LoadDataId (Allocated 1) data_label))
          ("[function selection]: load function " +:+ fn_name entry +:+ " selector for comparison");
        mkAllocatedOp (inl (EQ (Allocated 2) (Allocated 0) (Allocated 1)))
          ("[function selection]: compare function " +:+ fn_name entry +:+ " selector with input selector");
        mkAllocatedOp (inr (JumpIfNotZero (Allocated 2) (entry_label entry)))
          "[function selection]: jump to selected contract function"])
  end.

Fixpoint switch_cases (data_section : DataSection) (l : list AbstractEntry)
    : DataSection * list AllocatedAbstractOp :=
  match l with
  | [] => (data_section, [])
  | entry :: l' =>
      let '(data_section, ops) := switch_case data_section entry in
      let '(data_section, ops') := switch_cases data_section l' in
      (data_section, ops ++ ops')
  end.

Definition MISMATCHED_SELECTOR_REVERT_CODE : Z := 123.

(** [append_encoding_v0_contract_abi_switch] *)
Definition contract_abi_switch (self : AbstractProgram) (fallback_fn : option Label)
    : DataSection * list AllocatedAbstractOp :=
  let '(data_section, cases) := switch_cases (abstract_data self) (entries self) in
  (data_section,
   [mkAllocatedOp (inr Comment) "[function selection]: begin contract function selector switch";
    mkAllocatedOp (inl (LW (Allocated 0) (AllocatedConstant FramePointer) (mkImm12 73)))
      "[function selection]: load input function selector"] ++
   cases ++
   match fallback_fn with
   | Some fallback_fn => [mkAllocatedOp (inr (Call fallback_fn)) "[function selection]: call contract fallback function"]
   | None => []
   end ++
   [mkAllocatedOp (inl (MOVI scratch (mkImm18 MISMATCHED_SELECTOR_REVERT_CODE)))
      "[function selection]: load revert code for mismatched function selector";
    mkAllocatedOp (inl (RVRT scratch)) "[function selection]: revert if no selectors have matched"]).

Section programs.
Context {G : Type} `{StableGraph G} `{!HashOrder NodeIndex} `{!HashOrder VirtualRegister}.
Context (vm_reg : ConstantRegister -> Z) (iter : BTreeSet -> list VirtualRegister).

Definition optimize_and_verify (data_section : DataSection) (ops : list Op) : Result (list Op) :=
  ops ← optimize data_section ops; verify iter ops.

Definition allocated_before_entries (self : AbstractProgram) : Result (list AllocatedAbstractOp) :=
  ops ← optimize_and_verify (abstract_data self) (before_entries self); allocate_registers ops.

Definition into_allocated_program (self : AbstractProgram) (fallback_fn : option Label) : Result AllocatedProgram :=
  let '(self, prologue) := build_prologue self in
  globals ← globals_allocation self;
  before ← allocated_before_entries self;
  selection ←
    match new_encoding self, kind_of self with
    | true, Contract => jump ← jump_to_entry self; Ok (abstract_data self, jump)
    | false, Contract => Ok (contract_abi_switch self fallback_fn)
    | _, _ => Ok (abstract_data self, [])
    end;
  let data_section := selection.1 in
  abstract_functions ← traverse (optimize_and_verify data_section) (map entry_ops (entries self) ++ non_entries self);
  allocated_functions ← traverse (fun ops => allocated ← allocate_registers ops; emit_pusha_popa vm_reg allocated)
                          abstract_functions;
  Ok (mkAllocatedProgram (kind_of self) data_section (prologue ++ globals ++ before ++ selection.2)
        (map allocated_remove_redundant_ops allocated_functions)
        (map (fun entry => mkEntrypoint (selector entry) (entry_label entry) (fn_name entry)) (entries self))).
End programs.

(** ** [FinalProgram] *)

Record FinalProgram : Type := mkFinal {
  final_kind : ProgramKind;
  final_data : DataSection;
  final_ops : list AllocatedOp;
  final_entries : list (Entrypoint Z)
}.

(** The labels of entries are removed from the map. *)
Fixpoint entry_offsets (label_offsets : LabeledBlocks) (l : list (Entrypoint Label)) : Result (list (Entrypoint Z)) :=
  match l with
  | [] => Ok []
  | e :: l' =>
      offset ← expect (label_offsets !! ep_target e) "no offset for entry";
      rest ← entry_offsets (delete (ep_target e) label_offsets) l';
      Ok (mkEntrypoint (ep_selector e) offset (ep_name e) :: rest)
  end.

Definition into_final_program (self : AllocatedProgram) : Result FinalProgram :=
  realized ← realize_labels (allocated_data self) (prologue self ++ concat (functions self));
  let '(realized_ops, label_offsets, data_section) := realized in
  entries ← entry_offsets label_offsets (allocated_entries self);
  Ok (mkFinal (allocated_kind self) data_section (allocated_ops realized_ops) entries).

(** ** Checks *)

Inductive OpcodeError : Type :=
  | GMFromExternalContext
  | MintFromExternalContext
  | BurnFromExternalContext
  | ContractStorageFromExternalContext
  | InvalidOpcodeFromPredicate (opcode : string).

Definition gm_external (imm : VirtualImmediate18) : bool := (1 <=? value18 imm) && (value18 imm <=? 2).

(** The error that is emitted for an instruction of a script *)
Definition check_script_opcode (op : AllocatedOpcode) : option OpcodeError :=
  match op with
  | GM _ imm => if gm_external imm then Some GMFromExternalContext else None
  | MINT _ _ => Some MintFromExternalContext
  | BURN _ _ => Some BurnFromExternalContext
  | SWW _ _ _ | SRW _ _ _ | SRWQ _ _ _ _ | SWWQ _ _ _ _ => Some ContractStorageFromExternalContext
  | _ => None
  end.

Definition check_predicate_opcode (op : AllocatedOpcode) : option OpcodeError :=
  match op with
  | BAL _ _ _ => Some (InvalidOpcodeFromPredicate "BAL")
  | BHEI _ => Some (InvalidOpcodeFromPredicate "BHEI")
  | BHSH _ _ => Some (InvalidOpcodeFromPredicate "BHSH")
  | BURN _ _ => Some (InvalidOpcodeFromPredicate "BURN")
  | CALL _ _ _ _ => Some (InvalidOpcodeFromPredicate "CALL")
  | CB _ => Some (InvalidOpcodeFromPredicate "CB")
  | CCP _ _ _ _ => Some (InvalidOpcodeFromPredicate "CCP")
  | CROO _ _ => Some (InvalidOpcodeFromPredicate "CROO")
  | CSIZ _ _ => Some (InvalidOpcodeFromPredicate "CSIZ")
  | GM _ imm => if gm_external imm then Some GMFromExternalContext else None
  | LOG _ _ _ _ => Some (InvalidOpcodeFromPredicate "LOG")
  | LOGD _ _ _ _ => Some (InvalidOpcodeFromPredicate "LOGD")
  | MINT _ _ => Some (InvalidOpcodeFromPredicate "MINT")
  | RETD _ _ => Some (InvalidOpcodeFromPredicate "RETD")
  | SMO _ _ _ _ => Some (InvalidOpcodeFromPredicate "SMO")
  | SRW _ _ _ => Some (InvalidOpcodeFromPredicate "SRW")
  | SRWQ _ _ _ _ => Some (InvalidOpcodeFromPredicate "SRWQ")
  | SWW _ _ _ => Some (InvalidOpcodeFromPredicate "SWW")
  | SWWQ _ _ _ _ => Some (InvalidOpcodeFromPredicate "SWWQ")
  | TIME _ _ => Some (InvalidOpcodeFromPredicate "TIME")
  | TR _ _ _ => Some (InvalidOpcodeFromPredicate "TR")
  | TRO _ _ _ _ => Some (InvalidOpcodeFromPredicate "TRO")
  | _ => None
  end.

(** The errors that a check emits; it succeeds when there are none. *)
Definition check_opcodes (check : AllocatedOpcode -> option OpcodeError) (ops : list AllocatedOp) : list OpcodeError :=
  omap (fun op => check (fopcode op)) ops.

Definition check_invalid_opcodes (asm : FinalProgram) : list OpcodeError :=
  match final_kind asm with
  | Contract | Library => []
  | Script => check_opcodes check_script_opcode (final_ops asm)
  | Predicate => check_opcodes check_predicate_opcode (final_ops asm)
  end.

(** ** The configurables offset *)

Definition PRELUDE_CONFIGURABLES_SIZE_IN_BYTES : nat := 8.
Definition PRELUDE_CONFIGURABLES_OFFSET_IN_BYTES : nat := 16.
Definition PRELUDE_SIZE_IN_BYTES : nat := 32.

(** Writes the bytes at the given position. *)
Fixpoint overwrite (code : list Z) (index : nat) (md : list Z) : list Z :=
  match md with
  | [] => code
  | byte :: md' => overwrite (<[index := byte]> code) (S index) md'
  end.

Definition set_bytecode_configurables_offset (compiled : CompiledBytecode) (md : list Z) : Result CompiledBytecode :=
  if (PRELUDE_CONFIGURABLES_OFFSET_IN_BYTES + PRELUDE_CONFIGURABLES_SIZE_IN_BYTES <=? length (bytecode compiled))%nat then
    Ok (mkBytecode (overwrite (bytecode compiled) PRELUDE_CONFIGURABLES_OFFSET_IN_BYTES md)
          (named_data_section_entries_offsets compiled))
  else Err (Panic "assertion failed: compiled_bytecode.bytecode.len() >= ...").
