(* ===== verification/AsmPrologue.v ===== *)
(** * The start of a program and its entry points

    The passes of the back end composed: the bytecode starts with the prologue, which
    holds the offset of the data section, and the offsets of entry points are the
    positions of their labels. *)

From S2P Require Import Prelude AsmRegister AsmVirtualOp AsmOp AsmData AsmLiveness AsmGraph AsmInterference.
From S2P Require Import AsmColoring AsmLabels AsmLabelTheory AsmLabelJumps AsmBytecode AsmLayout AsmProgram.
Local Open Scope Z_scope.

Import AllocatedOpcode.

(** ** The prologue in the label resolution *)

Section resolution.
Context (ds : DataSection) (label : Label).

Lemma label_map_fresh ops o m : has_label label ops = false -> label_map ds ops o m !! label = m !! label.
Proof.
  revert o m. induction ops as [|op ops IH]; intros o m Hl; [done|]. cbn in Hl. apply orb_false_iff in Hl as [Hop Hl].
  cbn. rewrite IH by done. unfold is_label in Hop. destruct (aopcode op) as [|[l| | | | | | | | | |]]; try done.
  apply bool_decide_eq_false in Hop. by rewrite lookup_insert_ne.
Qed.

(** The first label follows the offsets. *)
Lemma prologue_label rest : has_label label rest = false -> label_map ds (prologue_ops label ++ rest) 0 ∅ !! label = Some 6.
Proof. intros Hl. cbn -[label_map]. cbn [label_map aopcode]. rewrite label_map_fresh by done. apply lookup_insert_eq. Qed.

Lemma rewrite_prologue blocks rest :
  blocks !! label = Some 6 ->
  rewrite_far_jumps ds blocks (prologue_ops label ++ rest) 0 =
    r ← rewrite_far_jumps ds blocks rest 8; Ok (prologue_ops label ++ r.1, r.2).
Proof.
  intros Hl. cbn -[rewrite_far_jumps]. cbn [rewrite_far_jumps instruction_size aopcode rewrite_op]. unfold label_offset. rewrite Hl.
  cbn -[rewrite_far_jumps]. change (abs_diff 6 (0 + 1) =? 0) with false.
  change (abs_diff 6 (0 + 1) - 1 <=? EIGHTEEN_BITS) with true. change (0 + 1 + 1 + 2 + 2 + 0 + 1 + 1) with 8.
  by destruct (rewrite_far_jumps ds blocks rest 8).
Qed.

(** A start of the program that is not rewritten *)
Lemma resolve_keeps pro fuel rest ops' blocks :
  (forall rest, has_label label rest = false -> label_map ds (pro ++ rest) 0 ∅ !! label = Some 6) ->
  (forall blocks rest, blocks !! label = Some 6 -> rewrite_far_jumps ds blocks (pro ++ rest) 0 =
     r ← rewrite_far_jumps ds blocks rest 8; Ok (pro ++ r.1, r.2)) ->
  has_label label rest = false -> resolve_labels fuel ds (pro ++ rest) = Ok (ops', blocks) ->
  blocks !! label = Some 6 /\ exists rest', ops' = pro ++ rest'.
Proof.
  intros Hsix Hrw. revert rest. induction fuel as [|fuel IH]; intros rest Hl H; cbn [resolve_labels] in H; [done|]. inv_ok.
  destruct r as [need b]. apply map_label_offsets_spec in Hok as (_ & -> & _). cbn [fst snd] in H.
  pose proof (Hsix rest Hl) as H6. destruct need; [|injection H as <- <-; split; [exact H6|by exists rest]].
  rewrite (Hrw _ rest H6) in H. inv_ok. rename r0 into new, Hok0 into Hnew. destruct new as [rest' changed].
  cbn [fst snd] in H. destruct changed; [|injection H as <- <-; split; [exact H6|by exists rest']].
  apply (IH rest'); [|done]. rewrite <- Hl. by eapply expanded_has_label, rewrite_far_jumps_expanded.
Qed.

Lemma resolve_prologue fuel rest ops' blocks :
  has_label label rest = false -> resolve_labels fuel ds (prologue_ops label ++ rest) = Ok (ops', blocks) ->
  blocks !! label = Some 6 /\ exists rest', ops' = prologue_ops label ++ rest'.
Proof. apply resolve_keeps; [apply prologue_label|apply rewrite_prologue]. Qed.
End resolution.

(** ** The realized prologue *)

Definition realized_prologue : list RealizedOp :=
  [mkRealized (MOVE scratch (AllocatedConstant ProgramCounter)) ""; mkRealized (JMPF zero_reg (mkImm18 4)) "";
   mkRealized DataSectionOffsetPlaceholder ""; mkRealized ConfigurablesOffsetPlaceholder "";
   mkRealized (LW data_start scratch (mkImm12 1)) ""; mkRealized (ADD data_start data_start scratch) ""].

Lemma realize_labels_steps ds ops rs blocks ds' :
  realize_labels ds ops = Ok (rs, blocks, ds') ->
  exists ops', resolve_labels 11 ds ops = Ok (ops', blocks) /\
    realize_ops blocks ops' (imap pair ops') 0 ds = Ok (rs, ds').
Proof. unfold realize_labels. intros H. inv_ok. destruct r as [ops' b], r0 as [rs1 ds1]. by exists ops'. Qed.

Lemma realize_ops_prologue blocks label ops rest ds r :
  blocks !! label = Some 6 ->
  realize_ops blocks ops (imap pair (prologue_ops label ++ rest)) 0 ds = Ok r -> exists more, r.1 = realized_prologue ++ more.
Proof.
  intros H6 H. rewrite imap_app in H. cbn -[realize_ops] in H.
  cbn [realize_ops instruction_size aopcode realize_op acomment] in H. unfold label_offset in H. rewrite H6 in H.
  next_step in H. change (realize_jump _ _ _ _ _ _ (0 + 1) 6) with (Ok (JMPF zero_reg (mkImm18 4))) in H.
  next_step in H. cbn [snd] in H. destruct (realize_ops _ _ _ _ _) as [more|]; [|done]. next_step in H.
  cbn [fst snd app] in H. injection H as <-. by exists more.1.
Qed.

Lemma realize_prologue ds label rest rs blocks ds' :
  has_label label rest = false -> realize_labels ds (prologue_ops label ++ rest) = Ok (rs, blocks, ds') ->
  exists more, rs = realized_prologue ++ more.
Proof.
  intros Hl H. apply realize_labels_steps in H as (ops' & Hr & Hz). apply resolve_prologue in Hr as [H6 [rest' ->]]; [|done].
  apply (realize_ops_prologue _ _ _ _ _ _ H6) in Hz as [more Hm]. by exists more.
Qed.

(** ** The bytes of the prologue *)

Section bytes.
Context (vm_reg : ConstantRegister -> Z) (instruction_to_bytes : Instruction -> list Z).
Hypothesis instruction_length : forall i, length (instruction_to_bytes i) = 4%nat.

(** Saves the program counter, jumps over the two offsets, and then loads the first *)
Definition prelude_start (total : Z) : list Z :=
  let id c := constant_to_reg_id vm_reg c in
  instruction_to_bytes (mkInstruction "MOVE" [id Scratch; id ProgramCounter] None) ++
  instruction_to_bytes (mkInstruction "JMPF" [id Zero] (Some 4)) ++
  to_be_bytes total.

Definition prelude_end : list Z :=
  let id c := constant_to_reg_id vm_reg c in
  instruction_to_bytes (mkInstruction "LW" [id DataSectionStart; id Scratch] (Some 1)) ++
  instruction_to_bytes (mkInstruction "ADD" [id DataSectionStart; id DataSectionStart; id Scratch] None).

Definition prelude_bytes (total : Z) (configurables : list Z) : list Z :=
  prelude_start total ++ configurables ++ prelude_end.

Lemma prelude_bytes_length total configurables :
  length configurables = PRELUDE_CONFIGURABLES_SIZE_IN_BYTES ->
  length (prelude_bytes total configurables) = PRELUDE_SIZE_IN_BYTES.
Proof. intros Hc. unfold prelude_bytes, prelude_start, prelude_end. rewrite !length_app, !instruction_length, Hc. done. Qed.

Lemma emit_prologue total ds ops r :
  emit vm_reg instruction_to_bytes total ds (allocated_ops realized_prologue ++ ops) 0 = Ok r ->
  exists code, r.1 = prelude_bytes total (replicate 8 0) ++ code.
Proof.
  intros H. cbn -[emit replicate prelude_bytes] in H. cbn [emit to_fuel_asm fopcode op_size_in_bytes instruction traverse] in H.
  cbn [to_reg_id data_start scratch zero_reg] in H. next_step in H.
  destruct (emit _ _ _ _ _ _) as [more|]; [|done]. next_step in H. injection H as <-. exists more.1.
  unfold prelude_bytes, prelude_start, prelude_end. cbn [data_bytes fst snd map concat]. rewrite <- !app_assoc. done.
Qed.
End bytes.

(** ** The parts of the bytecode *)

Lemma into_final_steps a f :
  into_final_program a = Ok f ->
  exists rs blocks, realize_labels (allocated_data a) (prologue a ++ concat (functions a)) = Ok (rs, blocks, final_data f) /\
    final_ops f = allocated_ops rs /\ entry_offsets blocks (allocated_entries a) = Ok (final_entries f).
Proof. unfold into_final_program. intros H. inv_ok. destruct r as [[rs blocks] ds]. inv_ok. by exists rs, blocks. Qed.

Section programs.
Context {G : Type} `{StableGraph G} `{!HashOrder NodeIndex} `{!HashOrder VirtualRegister}.
Context (vm_reg : ConstantRegister -> Z) (iter : BTreeSet -> list VirtualRegister).
Context (instruction_to_bytes : Instruction -> list Z).
Hypothesis instruction_length : forall i, length (instruction_to_bytes i) = 4%nat.

Lemma into_allocated_prologue p fallback a :
  into_allocated_program vm_reg iter p fallback = Ok a ->
  prologue a = prologue_ops (next_jump_label (reg_seqr p)) ++ drop 7 (prologue a).
Proof. unfold into_allocated_program. cbn [build_prologue get_label]. intros Ha. inv_ok. done. Qed.

Lemma to_bytecode_parts ops ds r ds' :
  to_bytecode_mut vm_reg instruction_to_bytes ops ds = Ok (r, ds') ->
  exists ops' code half, (ops' = ops \/ ops' = ops ++ [alignment_noop]) /\
    emit vm_reg instruction_to_bytes (Z.of_nat (length code)) ds' ops' 0 = Ok (code, half) /\
    bytecode r = code ++ serialize_to_bytes ds'.
Proof.
  unfold to_bytecode_mut. intros Hr. inv_ok. rename r0 into size, Hok into Hsize.
  destruct (if Z.land size 7 =? 0 then _ else _) as [ops' total] eqn:Hops. inv_ok. rename r0 into d, r1 into code.
  destruct code as [code half]. cbn [fst snd] in *. destruct (negb (half * 4 =? total)); [done|].
  destruct (Z.eqb_spec (Z.of_nat (length code)) total) as [Hlen|]; [|done]. cbn [negb] in Hr. inv_ok.
  exists ops', code, half. split; [destruct (Z.land size 7 =? 0); simplify_eq; auto|]. done.
Qed.

Lemma overwrite_app a b md c :
  length md = length b -> overwrite (a ++ b ++ c) (length a) md = a ++ md ++ c.
Proof.
  revert a b. induction md as [|byte md IH]; intros a b Hlen; [by destruct b|]. destruct b as [|x b]; [done|].
  cbn [overwrite app]. replace (length a) with (length a + 0)%nat at 1 by lia. rewrite insert_app_r. cbn [insert list_insert].
  replace (a ++ byte :: b ++ c) with ((a ++ [byte]) ++ b ++ c) by (by rewrite <- app_assoc).
  replace (S (length a)) with (length (a ++ [byte])) by (rewrite length_app; cbn; lia).
  rewrite IH by (cbn in Hlen; lia). by rewrite <- app_assoc.
Qed.

Lemma set_configurables_offset r total code md :
  bytecode r = prelude_bytes vm_reg instruction_to_bytes total (replicate 8 0) ++ code ->
  length md = PRELUDE_CONFIGURABLES_SIZE_IN_BYTES ->
  exists r', set_bytecode_configurables_offset r md = Ok r' /\
    named_data_section_entries_offsets r' = named_data_section_entries_offsets r /\
    bytecode r' = prelude_bytes vm_reg instruction_to_bytes total md ++ code.
Proof.
  intros Hb Hmd. unfold set_bytecode_configurables_offset.
  destruct (Nat.leb_spec (PRELUDE_CONFIGURABLES_OFFSET_IN_BYTES + PRELUDE_CONFIGURABLES_SIZE_IN_BYTES)
    (length (bytecode r))) as [_|Hlt].
  2:{ rewrite Hb, length_app, (prelude_bytes_length vm_reg instruction_to_bytes instruction_length) in Hlt by done.
      unfold PRELUDE_SIZE_IN_BYTES, PRELUDE_CONFIGURABLES_OFFSET_IN_BYTES, PRELUDE_CONFIGURABLES_SIZE_IN_BYTES in Hlt. lia. }
  eexists. split; [done|]. split; [done|]. cbn [bytecode]. rewrite Hb. unfold prelude_bytes.
  rewrite <- !app_assoc. change PRELUDE_CONFIGURABLES_OFFSET_IN_BYTES with 16%nat.
  assert (length (prelude_start vm_reg instruction_to_bytes total) = 16%nat) as <-
    by (unfold prelude_start; by rewrite !length_app, !instruction_length).
  by apply overwrite_app.
Qed.

(** ** Theorems *)

(** C10. The bytecode of a program that compiles is a prelude of 32 bytes, its code and
    its data section.  The prelude holds the position of the data section at the
    bytes 8 to 16, which it adds to its own address, and zeros for the offset of the
    configurables at the bytes 16 to 24, over which it jumps;
    [set_bytecode_configurables_offset] replaces exactly the zeros.  The label that the
    prologue takes from the sequencer must not be defined elsewhere. *)
Theorem program_prelude p fallback a f r ds' :
  into_allocated_program vm_reg iter p fallback = Ok a -> into_final_program a = Ok f ->
  to_bytecode_mut vm_reg instruction_to_bytes (final_ops f) (final_data f) = Ok (r, ds') ->
  has_label (next_jump_label (reg_seqr p)) (drop 7 (prologue a) ++ concat (functions a)) = false ->
  exists code, let total := Z.of_nat (PRELUDE_SIZE_IN_BYTES + length code) in
    bytecode r = prelude_bytes vm_reg instruction_to_bytes total (replicate 8 0) ++ code ++ serialize_to_bytes ds' /\
    forall md, length md = PRELUDE_CONFIGURABLES_SIZE_IN_BYTES ->
      exists r', set_bytecode_configurables_offset r md = Ok r' /\
        named_data_section_entries_offsets r' = named_data_section_entries_offsets r /\
        bytecode r' = prelude_bytes vm_reg instruction_to_bytes total md ++ code ++ serialize_to_bytes ds'.
Proof.
  intros Ha%into_allocated_prologue (rs & blocks & Hz & Hops' & _)%into_final_steps Hr Hl.
  rewrite Ha, <- app_assoc in Hz. rewrite Hops' in Hr.
  apply realize_prologue in Hz as [more ->]; [|done]. apply to_bytecode_parts in Hr as (ops' & code & half & Hops & He & Hb).
  assert (exists rest, ops' = allocated_ops realized_prologue ++ rest) as [rest ->].
  { unfold allocated_ops in Hops. rewrite map_app in Hops. destruct Hops as [->| ->]; [by eexists|].
    rewrite <- app_assoc. by eexists. }
  apply emit_prologue in He as [code' Hc]. cbn [fst] in Hc. exists code'. cbn zeta.
  assert (length code = PRELUDE_SIZE_IN_BYTES + length code')%nat as Hlen.
  { by rewrite Hc, length_app, (prelude_bytes_length vm_reg instruction_to_bytes instruction_length). }
  rewrite <- Hlen. assert (bytecode r = prelude_bytes vm_reg instruction_to_bytes (Z.of_nat (length code)) (replicate 8 0) ++
    code' ++ serialize_to_bytes ds') as Hbytes by (by rewrite Hb, Hc at 1; rewrite <- app_assoc).
  split; [done|]. intros md Hmd. by apply set_configurables_offset.
Qed.
End programs.

(** ** Entry points *)

Lemma label_map_lookup ds ops o m lab t :
  label_map ds ops o m !! lab = Some t -> m !! lab = Some t \/
  exists i op, ops !! i = Some op /\ aopcode op = inr (CLabel lab) /\ t = o + offset_at ds ops i.
Proof.
  revert o m. induction ops as [|op ops IH]; intros o m Ht; cbn in Ht; [by left|].
  apply IH in Ht as [Ht|(i & op' & Hi & Hop & ->)].
  - destruct (aopcode op) as [|[l| | | | | | | | | |]] eqn:Hop; try (by left).
    destruct (decide (l = lab)) as [->|Hne]; [|rewrite lookup_insert_ne in Ht by done; by left].
    rewrite lookup_insert_eq in Ht. injection Ht as <-. right. exists 0%nat, op. split; [done|]. split; [done|].
    unfold offset_at. cbn. lia.
  - right. exists (S i), op'. split; [done|]. split; [done|]. unfold offset_at. cbn. fold (total_size ds (take i ops)). lia.
Qed.

Lemma entry_offsets_spec blocks l l' :
  entry_offsets blocks l = Ok l' ->
  Forall2 (fun e e' => ep_selector e' = ep_selector e /\ ep_name e' = ep_name e /\
    blocks !! ep_target e = Some (ep_target e')) l l'.
Proof.
  revert blocks l'. induction l as [|e l IH]; intros blocks l' H; cbn in H; [by injection H as <-|].
  destruct (blocks !! ep_target e) as [t|] eqn:Ht; [|done]. cbn [expect] in H. next_step in H. inv_ok.
  constructor; [done|]. eapply Forall2_impl; [by apply IH|]. intros x y (Hs & Hn & Hl).
  split; [done|]. split; [done|]. by apply lookup_delete_Some in Hl as [_ Hl].
Qed.

(** The final program is the resolved code of the prologue and the functions, and
    the offset of an entry point is the position, in instructions of four bytes, of the
    label of the entry in that code. *)
Theorem final_entries_at_labels a f :
  into_final_program a = Ok f ->
  let ops := prologue a ++ concat (functions a) in
  Forall (input_ok (allocated_data a)) ops -> Forall (op_stable (allocated_data a) (final_data f)) ops ->
  Z.of_nat (num_entries (final_data f)) < 2 ^ 32 ->
  exists ops' chunks, expanded ops ops' /\ final_ops f = allocated_ops (concat chunks) /\ length chunks = length ops' /\
    Forall2 (fun e e' => ep_selector e' = ep_selector e /\ ep_name e' = ep_name e /\
      exists i op, ops' !! i = Some op /\ aopcode op = inr (CLabel (ep_target e)) /\
        bytes_of (final_data f) (concat (take i chunks)) = 4 * ep_target e') (allocated_entries a) (final_entries f).
Proof.
  intros (rs & blocks & Hz & Hops & He)%into_final_steps ops Hin Hst Hn.
  destruct (realize_labels_resolution _ _ _ _ _ Hz Hin Hst Hn) as (ops' & chunks & Hexp & -> & Hlen & -> & _ & _ & Hb).
  exists ops', chunks. split_and!; try done. apply entry_offsets_spec in He.
  eapply Forall2_impl; [exact He|]. intros e e' (Hs & Hname & Ht). split; [done|]. split; [done|].
  apply label_map_lookup in Ht as [Ht|(i & op & Hi & Hop & Ht)]; [by rewrite lookup_empty in Ht|].
  exists i, op. split; [done|]. split; [done|]. by rewrite Hb, Ht.
Qed.

(** ** An example *)

Section example.
#[local] Existing Instance elements_order.

(** [main: x := 1; ret x], as a script *)
Definition main_ops : list Op :=
  [mkOp (inr (CLabel 1%nat)) "main"; mkOp (inl (AsmVirtualOp.MOVI (Virtual "x") (mkImm18 1))) "";
   mkOp (inl (AsmVirtualOp.RET (Virtual "x"))) ""].

Definition script : AbstractProgram :=
  mkAbstract Script (mkDataSection [] [] ∅) (mkGlobals [] 0) [] [mkAbstractEntry None 1%nat main_ops "main"] []
    (mkSequencer 0 2) true.

Definition script_allocated : AllocatedProgram :=
  match into_allocated_program (G := ListGraph.graph) declared_ids elements script None with
  | Ok a => a
  | Err _ => mkAllocatedProgram Script (mkDataSection [] [] ∅) [] [] []
  end.

Definition script_final : FinalProgram :=
  match into_final_program script_allocated with Ok f => f | Err _ => mkFinal Script (mkDataSection [] [] ∅) [] [] end.

Definition script_bytecode : CompiledBytecode * DataSection :=
  match to_bytecode_mut declared_ids sample_encoding (final_ops script_final) (final_data script_final) with
  | Ok r => r
  | Err _ => (mkBytecode [] ∅, mkDataSection [] [] ∅)
  end.

(** The entry is at the word 8, after the prelude; the data section is at the byte 40. *)
Lemma script_entry : map ep_target (final_entries script_final) = [8].
Proof. vm_compute. reflexivity. Qed.

Lemma program_prelude_witness : exists code,
  bytecode script_bytecode.1 =
    prelude_bytes declared_ids sample_encoding (Z.of_nat (32 + length code)) (replicate 8 0) ++ code ++
    serialize_to_bytes script_bytecode.2.
Proof.
  destruct (program_prelude (G := ListGraph.graph) declared_ids elements sample_encoding (fun _ => eq_refl) script None
    script_allocated script_final script_bytecode.1 script_bytecode.2) as (code & Hb & _); [vm_compute; reflexivity..|].
  exists code. exact Hb.
Defined.

Lemma final_entries_at_labels_witness : exists ops' chunks,
  expanded (prologue script_allocated ++ concat (functions script_allocated)) ops' /\
  final_ops script_final = allocated_ops (concat chunks) /\ length chunks = length ops'.
Proof.
  destruct (final_entries_at_labels script_allocated script_final) as (ops' & chunks & He & Ho & Hl & _).
  - vm_compute. reflexivity.
  - let l := eval vm_compute in (prologue script_allocated ++ concat (functions script_allocated)) in
      change (Forall (input_ok (allocated_data script_allocated)) l).
    repeat constructor.
  - let l := eval vm_compute in (prologue script_allocated ++ concat (functions script_allocated)) in
      change (Forall (op_stable (allocated_data script_allocated) (final_data script_final)) l).
    repeat constructor.
  - vm_compute. reflexivity.
  - exists ops', chunks. exact (conj He (conj Ho Hl)).
Defined.
End example.

(** The instruction that clears storage passes the checks of scripts and predicates,
    unlike the ones that read or write it. *)
Lemma clear_storage_passes kind ds entries :
  let op o := [mkAllocated o ""] in
  check_invalid_opcodes (mkFinal kind ds (op (SCWQ (Allocated 0) (Allocated 1) (Allocated 2))) entries) = [] /\
  (kind = Script -> check_invalid_opcodes (mkFinal kind ds (op (SWWQ (Allocated 0) (Allocated 1) (Allocated 2) (Allocated 3)))
     entries) = [ContractStorageFromExternalContext]).
Proof. destruct kind; done. Qed.
